(* ===== verification/_CoqProject ===== *)
-Q . S2P
Prelude.v
Core.v
Hash.v
Membership.v
Planner.v
Codec.v
Message.v
Messages.v
Wire.v
WireSize.v
BTree.v
ViewChange.v
Votes.v
Proposals.v
Protocol.v
Sessions.v
Normal.v
Batch.v
Storage.v
Lane.v
Blocks.v
SessionBlocks.v
BlockJobs.v
Medium.v
Appends.v
Serve.v
Repair.v
SyncTrigger.v
Roots.v
Life.v
Prepares.v
Views.v
Lifetimes.v
Rounds.v
Reconfigure.v
Changes.v
Recover.v
Recoveries.v
Fetch.v
Fetches.v
Frame.v
Transport.v
Router.v
Aggregate.v
