(* ===== verification/Prelude.v ===== *)
(** * viewstamp: a verification library for the Sans-I/O replication core

    [viewstamp] replicates a state machine by Viewstamped Replication.  The
    crate [viewstamp-proto] is the protocol without I/O: an [Endpoint] per
    replica consumes messages and clock ticks and produces messages and storage
    jobs; the crates [viewstamp-driver], [viewstamp-compio] and
    [viewstamp-reactor] run it over sockets and disks.  This library models the
    deciding parts of [viewstamp-proto/src], and the driver's aggregator, as executable
    functions and proves what makes them safe.  Paths below are relative to
    [viewstamp-proto/src] unless they name another crate.

    ** Parts, in dependency order

    - [Prelude]: [Result] and [?], machine integers as [Z] with their saturating,
      wrapping and checked operations, big-endian bytes, list and finite-set
      lemmas, the [vr] hint database.
    - [Core]: [number/], [id/], [status/], [time/], [prng/]: counters, peers and
      recipients, replica status, the clamped clock, SplitMix64.
    - [Hash]: the FNV-1a-128 content hash of [storage/mod.rs], and that changing
      one byte of the input changes it.
    - [Membership]: [membership/mod.rs] whole: a configuration (voters first, then
      learners, an epoch and a lineage hash), its validation, quorum sizes, slot
      lookups, leader rotation and the four single-voter deltas.  The class
      [QuorumSystem] is what it promises the vote-counting components; the view
      change and the protocol composition are proved against that class.
    - [Planner]: [reconfigure_plan/mod.rs] whole: lowering a target membership to a
      sequence of deltas.
    - [Codec]: [codec.rs]: the bounds-checked [Reader] and its errors, with the
      relational reasoning principles [reads] (an encoding is consumed exactly) and
      [parses] (what a success says about the bytes) the durable formats share.
    - [Message]: the values of [message/mod.rs] with logic of their own: the
      reconfiguration payload and its codec, log-entry bodies, the view-change vote.
    - [Messages]: every message struct of [message/mod.rs] as a record, the emission
      gate [advertises_authoritative_view], the frame budget and [wire_size_bound].
    - [Wire]: [wire/]: the protobuf envelope of every message as a record of the
      schema, and the conversions in both directions with each refusal.
    - [WireSize]: proto3 sizes of that envelope, [encode_message] and
      [decode_message] over any runtime with the documented canonical encoding.
    - [BTree]: [BTreeMap] as a strictly ascending entry list.
    - [ViewChange]: [endpoint/view_change.rs]: building and sending a
      [DoViewChange], collecting votes ([on_do_view_change]) and
      [select_canonical_log].
    - [Votes]: [endpoint/normal.rs] and [endpoint/mod.rs]: the ack gate of
      [on_prepare_ok], [record_own_vote], the commit predicate of [try_commit],
      [shrink_successor_quorum_met], [rekey_slot_bitset],
      [compute_quorum_checkpoint_op] and the configuration lineage ring.
    - [Proposals]: [on_start_view_change], [join_svc], [maybe_start_view_change] and
      [endpoint/forfeit.rs]: proposing a view and stepping down.
    - [Protocol]: the composition: voters of one configuration as a step relation
      whose votes are [own_dvc] and whose views are formed by
      [select_canonical_log].
    - [Sessions]: [config/mod.rs] and the client-session table: the dedup decision of
      [on_request], [note_applied_session] with its eviction, every other in-place
      writer of the table, and the projection a checkpoint persists; then a cluster of
      replicas as a step relation over them, restarts and checkpoint installs included.
    - [Normal]: [endpoint/normal.rs]: [check_new_op_admission], [on_request],
      [mint_op], and the commit loops of the primary ([try_commit], [commit_op]) and
      of a backup ([advance_commit]) with [commit_reconfigure]; the embedder's state
      machine is a parameter.
    - [Batch]: [batch/mod.rs] whole: the batch builders, parser and iterator.
    - [Storage]: the durable formats of [storage/mod.rs]: the WAL [Header] and the
      superblock root [VsrState], with their constructors and codecs.
    - [Lane]: [storage/session/lane.rs] and the cursor of [block_job.rs]: the one
      queue of block jobs, its per-kind cells and its issue order.
    - [Medium]: [storage/session/mod.rs]: the append ledger with its slot fence and
      quota, the durable-root timeline and the envelope ledger.  The [Wal] and
      [Superblock] traits are classes; [WalModel] and [SuperblockModel] state their
      contracts, and the theorems are proved against those.
    - [Blocks]: [block_store/] and [endpoint/block_sync/]: content-addressed blocks,
      mark-and-sweep, and the bounded walk that fetches what a store is missing.
    - [SessionBlocks]: [endpoint/session_blocks/] and the checkpoint envelope: the
      session table as a graph of blocks and back.
    - [BlockJobs]: [block_job.rs]: executing a block job, and the state machine's
      checkpoint interface as a class with laws.
    - [Appends]: the owed actions of log writes ([Pending], [DeferredAppend] of
      [endpoint/mod.rs]) and the routing of their completions ([on_wal_done]).
    - [Serve]: answering repair solicitations and the primary's tick: every path that
      ships a logged body.
    - [Repair]: the requesting side of [endpoint/repair.rs] with the nack tally that
      truncates an uncommitted tail.
    - [SyncTrigger]: when a replica asks for a checkpoint, and everything that
      re-targets, downgrades or cancels an outstanding sync.
    - [Roots]: every writer of the durable root: the root builders, the checkpoint
      sequence, epoch swaps, the root half of a view transition, the staging of a
      state-sync install, the constructor of a recovering endpoint.  Its [Keeper] is
      the endpoint's state from here on.
    - [Life]: [Roots] over [Medium] as a step relation, restarts included, with the
      invariant [kept].
    - [Prepares]: the replication round over [Endpoint], which is the keeper, its
      medium and the messages it sent: [on_prepare], [on_prepare_batch],
      [on_prepare_ok], [on_commit], the two commit loops with their shared tail and
      the dispatch of [on_wal_done].
    - [Views]: installing a view over the same [Endpoint]: [on_do_view_change],
      [start_view_as_new_primary], [adopt_log], [start_view_participate],
      [on_start_view], [on_get_view] and the dispatch of [on_sb_done].
    - [Reconfigure]: [endpoint/reconfigure.rs] and the offline lane of
      [endpoint/reconfig.rs]: proposing a membership change, the minting it shares with
      a client's request, and the learner proofs and liveness probe it is decided on.
    - [Recover]: [endpoint/recovery/mod.rs]: reading the own log and checkpoint back,
      the ladder by which a recovery ends, and the exchange that finds a head.
    - [Changes], [Recoveries]: concrete proposals and recoveries for the hypotheses of
      these two.
    - [Fetch]: the two ends of a state transfer, in [endpoint/state_sync.rs] and
      [endpoint/recovery/mod.rs]: answering with a checkpoint and its blocks, pinning a
      transfer to an answer, pulling it one walk at a time, installing and restoring it;
      and the three completion handlers of the endpoint with every route taken.
    - [Fetches]: a transfer from pin to install and a donor that is asked, run.
    - [Lifetimes], [Rounds]: concrete lives and rounds on a small medium, showing that
      the hypotheses of [Life], [Prepares] and [Views] can hold.
    - [Frame]: [transport/frame/]: length-prefixed framing, with the pre-auth cap.
    - [Transport]: [transport/passthrough/], [transport/labeled/] and
      [transport/conn/]: the record layers behind the [RecordIo] interface, the hello
      and a connection's life.
    - [Router]: [transport/router/] and the coordinator's operations on it: binding,
      routing, reaping, quarantine and reconciliation with a membership.
    - [Aggregate]: [viewstamp-driver/src/aggregate/] with the budget and reservations
      of [session/] and [handle/]: callers, the pump and the driver interleaved.

    ** How state and operations correspond

    A [&mut self] handler is a function from the fields it reads to the fields it
    writes; an early return is the unchanged state or [None]; [Result] is [result];
    an [assert!] that stops the replica is [None].  The fields grow along the files:
    [Votes], [Proposals], [Sessions] and [Normal] work on the part of the endpoint
    their operations touch, and report in their result a call into a part that comes
    later (starting a view, persisting it).  [Roots.Keeper] collects the fields, and
    [Prepares.Endpoint] adds the storage session and the messages sent, so that the
    handlers of [Prepares] and [Views] call their callees as the code does, reusing
    the earlier definitions on the matching part of the state.

    A [u64] slot bitset is a [Z] tested bit by bit; a [BTreeMap] is an ascending list
    where its order is used and a [gmap] where it is not (the session table, the peer
    checkpoints); a [BTreeSet] is a [gset], with its ascending enumeration; a byte
    slice is a [list byte].  Deadlines are kept only where a handler decides by them.

    ** What the theorems show

    - Agreement: in every reachable state of the composition two replicas agree on
      every operation both count committed, whatever views were formed
      ([replicas_agree]), and forming a view never trips the fail-stop
      ([formation_succeeds]).  Both rest on an inductive invariant over the steps.
    - View change: a committed operation survives selection, the closed-form
      truncation equals the per-op scan, the selected log is the floored union of
      the canonical generation, and vote collection keeps the best vote per voter.
      The endpoint's own installation keeps every committed op, an announced view is
      taken over exactly, and what a view transition holds back is released only
      after its root is durable.
    - Replication: a prepared batch is spliced into the log unchanged, an
      acknowledgement names bytes the replica holds durably, an owed action is taken
      only for bytes that landed, the own vote included, and the commit flow moves forward only through
      applied ops.  An op the replica holds is never nacked away, and a repair round
      makes progress.
    - Execution: [try_commit] and [advance_commit] return and apply exactly a
      contiguous run of the log, in order and each operation once, and from equal
      states they end in equal states; session tables are a function of the applied
      operations; a client's requests are executed once and in order, in every log
      of a cluster, while clients fit the session cap; admission keeps every resource bound; a committed
      reconfiguration stages exactly the proposed successor.
    - Counting: an operation commits only on a quorum of current voters, a demotion
      also meets every successor quorum, re-keying keeps exactly the surviving
      votes, the garbage-collection floor is the true quorum statistic, a view is
      proposed only by a quorum, a primary forfeits only after a full grace window.
    - Durability: along every life of a replica, restarts included, in which no
      catch-up is reverted below the log view, the medium accepts every root the
      endpoint writes, a view is participated in only once durable, a restart keeps the promises made before it, and garbage collection
      frees only what a durable checkpoint covers.  Two theorems show the premises
      about epoch swaps and reverted catch-ups cannot be dropped.
    - State transfer: a forced sync subsumes the holes it replaces, an outstanding
      sync is re-targeted only upwards, a checkpoint's blocks survive every job until
      they are released, the walk fetches exactly the missing blocks, and a session
      table travels through its blocks unchanged.  What is staged for install is whole
      and is the checkpoint its id names; a donor answers only for the checkpoint its
      durable root names, under the latest nonce it was asked with, and reads it once for
      each request it takes up, however often that is repeated.
    - Configuration: [apply_delta] refines the transition on (voters, learners)
      with its errors; quorums of one and of adjacent configurations meet, and
      exactly when they can miss; the planner reaches its target, terminates, is
      memoryless and never drops tolerance below both ends.
    - Reconfiguration: at most one change is in flight, a proposal commits exactly its
      delta, a learner is promoted and a voter counted live only on its own fresh
      answer, and the offline lane changes the configuration and nothing else.
    - Recovery: whatever a medium returns, the recovered log holds only bytes and
      identities the durable root vouches for; where the read phase settles its head,
      which slots then count as missing, what stays of them and which way the recovery
      ends is exact.
    - Formats: header, root, payload and batch round trips; truncated, extended,
      re-versioned and corrupted inputs are refused or detected; what decodes
      satisfies every constructor invariant.
    - Wire: the conversions accept exactly the encodings of well-formed messages,
      whatever unknown fields came with them; a
      message that passes the preflight encodes within the frame cap and decodes
      back, as do all answers that carry bodies; how bytes are split into reads never
      matters, also across the hello.
    - Connections: nothing is delivered before the peer is identified and everything
      under one sender; a peer routes exactly to a live connection bound to it, and
      reconciliation leaves each member at the slot its membership gives it.
    - Storage session: a log slot with no write in flight holds the last
      acknowledged write whatever order completions come in; the durable root never
      rewinds and the medium converges to the effective root; no call fail-stops on
      a conforming medium; the block lane stays within its fixed bound and settles
      in issue order.
    - Aggregator: every accepted unit is settled at most once and with its own reply,
      bodies carry units in submission order and are packed greedily.

    ** Bounds

    Integers keep the width of the code.  Op numbers in votes are below
    [u64::MAX], so that the saturating [+ 1] of the truncation is exact.  A buffer
    given to a [Reader] is shorter than [2^63] bytes, the language's bound on a
    slice, so that its position never overflows.  The bit loop of re-keying runs
    with fuel 65, one more than the bits of a [u64], and is shown to finish; the
    batch iterator is drained with one call more than its count; the primary's
    commit loop has one round more than in-flight entries, a backup's as many as
    ops up to its target, eviction as many as applied rows, and the drain of the
    reorder buffer one round more than its entries, each shown to reach the loop's
    own exit; a decode loop over a block carries the length of the unread bytes; the
    frame and intake loops consume their input and are shown to return.  [usize] is
    64 bits.  The session's root stamps and refusal counters are unbounded.  The
    log's capacity does not change during a life ([Wal]'s contract).

    ** Outside the library

    Not translated, in [viewstamp-proto]: the formatting of a new store, the dispatch on
    the message kind and the timer table.  [Protocol] stands for the dispatch by its steps, which keep one configuration and take no
    checkpoint.  The protobuf runtime is generated code and a parameter; TLS and QUIC
    are libraries, and the bridge over QUIC is glue to one; the runtimes of
    [viewstamp-compio] and [viewstamp-reactor] are I/O, and so are the driver's
    session loop and its reconfiguration executor around the modelled planner.
    Events, logs and the conformance harness observe and decide nothing. *)

From stdpp Require Export base tactics option list list_numbers numbers gmap sorting.
From Stdlib Require Export ZArith Lia Strings.Byte.

#[global] Open Scope Z_scope.

Declare Scope vr_scope.
Delimit Scope vr_scope with vr.
#[global] Open Scope vr_scope.

Create HintDb vr discriminated.
Create Rewrite HintDb vr_simpl.

(** ** Fallible code: [Result<A, E>] and the [?] operator *)

Inductive result (E A : Type) : Type :=
| Ok (a : A)
| Err (e : E).
Arguments Ok {E A} a.
Arguments Err {E A} e.

#[export] Instance result_eq_dec `{EqDecision E, EqDecision A} : EqDecision (result E A).
Proof. solve_decision. Defined.

(** [let? x := e in k] is [let x = e?; k]: the error of [e] is returned early. *)
Notation "'let?' x ':=' e 'in' k" :=
  (match e with Ok x => k | Err e' => Err e' end)
    (at level 10, x pattern, e at level 100, k at level 200) : vr_scope.

Definition is_ok {E A} (r : result E A) : bool :=
  match r with Ok _ => true | Err _ => false end.

Definition map_err {E F A} (f : E -> F) (r : result E A) : result F A :=
  match r with Ok a => Ok a | Err e => Err (f e) end.

Definition ok_or {E A} (o : option A) (e : E) : result E A :=
  match o with Some a => Ok a | None => Err e end.

(** [lia] with the Euclidean equations of every [/] and [mod] in sight. *)
Ltac lia_div := zify; Z.to_euclidean_division_equations; lia.

(** ** Machine integers: a [w]-bit unsigned integer is a [Z] in [[0, 2^w)] *)

Definition umax (w : Z) : Z := 2 ^ w - 1.
Definition fits (w z : Z) : Prop := 0 <= z < 2 ^ w.
Definition wrap (w z : Z) : Z := z mod 2 ^ w.
Definition sat_add (w a b : Z) : Z := Z.min (a + b) (umax w).
Definition sat_mul (w a b : Z) : Z := Z.min (a * b) (umax w).
Definition sat_sub (a b : Z) : Z := Z.max (a - b) 0.
Definition checked_add (w a b : Z) : option Z :=
  if a + b <=? umax w then Some (a + b) else None.
Definition wrapping_add (w a b : Z) : Z := wrap w (a + b).
Definition wrapping_mul (w a b : Z) : Z := wrap w (a * b).

#[export] Instance fits_dec w z : Decision (fits w z).
Proof. unfold fits. apply _. Defined.

Abbreviation zlen l := (Z.of_nat (length l)).

Lemma pow_pos w : 0 <= w -> 0 < 2 ^ w.
Proof. intros. apply Z.pow_pos_nonneg; lia. Qed.

Lemma wrap_fits w z : 0 <= w -> fits w (wrap w z).
Proof. intros H. apply Z.mod_pos_bound. by apply pow_pos. Qed.

Lemma wrap_small w z : fits w z -> wrap w z = z.
Proof. apply Z.mod_small. Qed.

Lemma sat_add_fits w a b : 0 <= w -> fits w a -> fits w b -> fits w (sat_add w a b).
Proof. unfold fits, sat_add, umax. pose proof (pow_pos w). lia. Qed.

(** ** Bytes and big-endian integers ([to_be_bytes], [from_be_bytes]) *)

#[export] Instance byte_eq_dec : EqDecision byte := Byte.byte_eq_dec.

Definition u8_of_byte (b : byte) : Z := Z.of_N (Byte.to_N b).
Definition byte_of_u8 (z : Z) : byte :=
  match Byte.of_N (Z.to_N (z mod 256)) with Some b => b | None => x00 end.

Lemma u8_of_byte_range b : 0 <= u8_of_byte b < 256.
Proof. unfold u8_of_byte. pose proof (Byte.to_N_bounded b). lia. Qed.

Lemma byte_of_u8_of_byte b : byte_of_u8 (u8_of_byte b) = b.
Proof.
  unfold byte_of_u8. rewrite Z.mod_small by apply u8_of_byte_range.
  unfold u8_of_byte. rewrite N2Z.id, Byte.of_to_N. done.
Qed.

Lemma u8_of_byte_of_u8 z : u8_of_byte (byte_of_u8 z) = z mod 256.
Proof.
  unfold byte_of_u8. pose proof (Z.mod_pos_bound z 256 ltac:(lia)) as Hz.
  destruct (Byte.of_N _) as [b|] eqn:E.
  - apply Byte.to_of_N in E. unfold u8_of_byte. rewrite E. lia.
  - apply Byte.of_N_None_iff in E. lia.
Qed.

(** [n] big-endian bytes of [z]; the most significant byte comes first. *)
Fixpoint be_bytes (n : nat) (z : Z) : list byte :=
  match n with
  | O => []
  | S k => byte_of_u8 (z / 256 ^ Z.of_nat k) :: be_bytes k z
  end.

Fixpoint from_be_bytes (bs : list byte) : Z :=
  match bs with
  | [] => 0
  | b :: r => u8_of_byte b * 256 ^ zlen r + from_be_bytes r
  end.

Lemma length_be_bytes n z : length (be_bytes n z) = n.
Proof. induction n; simpl; auto. Qed.

Lemma from_be_bytes_range bs : 0 <= from_be_bytes bs < 256 ^ zlen bs.
Proof.
  induction bs as [|b bs IH]; [simpl; lia|].
  cbn [from_be_bytes length]. rewrite Nat2Z.inj_succ, Z.pow_succ_r by lia.
  pose proof (u8_of_byte_range b). nia.
Qed.

Lemma from_be_bytes_be_bytes n z : from_be_bytes (be_bytes n z) = z mod 256 ^ Z.of_nat n.
Proof.
  induction n as [|n IH]; [cbn; by rewrite Z.mod_1_r|].
  cbn [be_bytes from_be_bytes]. rewrite u8_of_byte_of_u8, length_be_bytes, IH.
  rewrite Nat2Z.inj_succ, Z.pow_succ_r, (Z.mul_comm 256), Z.rem_mul_r by lia. lia.
Qed.

Lemma be_bytes_from_be_bytes bs : be_bytes (length bs) (from_be_bytes bs) = bs.
Proof.
  assert (Hlow : forall n a z, be_bytes n (a * 256 ^ Z.of_nat n + z) = be_bytes n z).
  { intros n. induction n as [|n IH]; intros a z; [done|]. cbn [be_bytes].
    rewrite Nat2Z.inj_succ, Z.pow_succ_r by lia.
    replace (a * (256 * 256 ^ Z.of_nat n) + z) with ((a * 256) * 256 ^ Z.of_nat n + z) by lia.
    f_equal; [|apply IH].
    rewrite Z.div_add_l by (apply Z.pow_nonzero; lia).
    unfold byte_of_u8. by rewrite Z.add_comm, Z_mod_plus_full. }
  induction bs as [|b bs IH]; [done|]. cbn [length from_be_bytes be_bytes].
  f_equal; [|by rewrite Hlow].
  rewrite Z.div_add_l, Z.div_small by (apply from_be_bytes_range || (apply Z.pow_nonzero; lia)).
  rewrite Z.add_0_r. apply byte_of_u8_of_byte.
Qed.

Lemma be_bytes_roundtrip n z :
  0 <= z < 256 ^ Z.of_nat n -> from_be_bytes (be_bytes n z) = z.
Proof. intros. by rewrite from_be_bytes_be_bytes, Z.mod_small. Qed.

Lemma from_be_bytes_app a b :
  from_be_bytes (a ++ b) = from_be_bytes a * 256 ^ zlen b + from_be_bytes b.
Proof.
  induction a as [|x a IH]; [done|]. cbn [app from_be_bytes]. rewrite IH, length_app.
  rewrite Nat2Z.inj_add, Z.pow_add_r by lia. lia.
Qed.

#[global] Arguments be_bytes : simpl never.
#[global] Arguments from_be_bytes : simpl never.

#[export] Hint Rewrite length_be_bytes : vr_simpl.

(** ** Lists without duplicates *)

Lemma filter_ne_notin `{EqDecision A} (x : A) (l : list A) :
  x ∉ l -> filter (fun y => y <> x) l = l.
Proof.
  induction l as [|y l IH]; intros H; [done|].
  rewrite not_elem_of_cons in H. destruct H as [Hne H].
  rewrite filter_cons_True by done. by rewrite IH.
Qed.

Lemma filter_ne_perm `{EqDecision A} (x : A) (l : list A) :
  NoDup l -> x ∈ l -> x :: filter (fun y => y <> x) l ≡ₚ l.
Proof.
  induction 1 as [|y l Hy Hnd IH]; [by intros ?%not_elem_of_nil|].
  rewrite elem_of_cons. intros [->|Hx].
  - rewrite filter_cons_False by auto. by rewrite filter_ne_notin.
  - rewrite filter_cons_True by (intros ->; done). rewrite Permutation_swap. by rewrite IH.
Qed.

Lemma filter_ne_length `{EqDecision A} (x : A) (l : list A) :
  NoDup l -> x ∈ l -> zlen (filter (fun y => y <> x) l) = zlen l - 1.
Proof.
  intros Hnd Hx. pose proof (Permutation_length (filter_ne_perm x l Hnd Hx)) as H.
  simpl in H. lia.
Qed.

Lemma list_to_set_filter_ne `{Countable A} (x : A) (l : list A) :
  list_to_set (C := gset A) (filter (fun y => y <> x) l) = list_to_set l ∖ {[x]}.
Proof.
  apply set_eq. intros y.
  rewrite elem_of_list_to_set, list_elem_of_filter, elem_of_difference, elem_of_list_to_set,
    elem_of_singleton. tauto.
Qed.

(** ** Intersecting subsets of a finite set *)

Lemma pigeonhole `{Countable A} (U X Y : gset A) :
  X ⊆ U -> Y ⊆ U -> (size U < size X + size Y)%nat -> X ∩ Y <> ∅.
Proof.
  intros HX HY Hlt E.
  assert (size (X ∪ Y) <= size U)%nat by (apply subseteq_size; set_solver).
  rewrite size_union in *; [lia|]. set_solver.
Qed.

Lemma subset_of_size `{Countable A} (U : gset A) n :
  (n <= size U)%nat -> exists X, X ⊆ U /\ size X = n.
Proof.
  intros Hn. exists (list_to_set (take n (elements U))). split.
  - intros x. rewrite elem_of_list_to_set. intros Hx%elem_of_take.
    destruct Hx as (i & Hi & _). by apply elem_of_elements, (list_elem_of_lookup_2 _ i).
  - rewrite size_list_to_set.
    + rewrite length_take. unfold size, set_size in *. simpl in *. lia.
    + apply (NoDup_app _ (drop n (elements U))). rewrite take_drop. apply NoDup_elements.
Qed.
