(* ===== verification/Core.v ===== *)
(** * Core value types

    The newtypes, the peers, the replica status, the clock type and the PRNG:
    [number/mod.rs], [id/mod.rs], [status/mod.rs], [time/mod.rs] and
    [prng/mod.rs] of [viewstamp-proto/src].
    A [#[repr(transparent)]] newtype over an unsigned integer is the integer
    itself; its width is stated where it matters. *)

From S2P Require Import Prelude.

Abbreviation View := Z (only parsing).
Abbreviation OpNumber := Z (only parsing).
Abbreviation RequestNumber := Z (only parsing).
Abbreviation Epoch := Z (only parsing).
Abbreviation ReplicaId := Z (only parsing).
Abbreviation MemberId := Z (only parsing).
Abbreviation ClientId := Z (only parsing).

(** ** Counters ([View], [OpNumber], [RequestNumber], [Epoch]) *)

Module Counter.

(** [new] and [next] of the [counter!] macro; [Epoch::next] is the same. *)
Definition new : Z := 0.
Definition next (n : Z) : Z := sat_add 64 n 1.
Definition epoch_next (n : Epoch) : Epoch := sat_add 64 n 1.

Lemma next_fits n : fits 64 n -> fits 64 (next n).
Proof. unfold fits, next, sat_add, umax. lia. Qed.

Lemma next_below n : fits 64 n -> n < umax 64 -> next n = n + 1.
Proof. unfold fits, next, sat_add, umax. lia. Qed.

Lemma next_mono n m : n <= m -> next n <= next m.
Proof. unfold next, sat_add. lia. Qed.

End Counter.

(** ** Routing identities *)

Definition RECONFIGURATION : ClientId := umax 128.

Inductive Peer : Type :=
| PeerReplica (r : ReplicaId)
| PeerClient (c : ClientId)
| PeerMember (m : MemberId).

#[export] Instance Peer_eq_dec : EqDecision Peer.
Proof. solve_decision. Defined.

#[export] Instance Peer_countable : Countable Peer.
Proof.
  refine (inj_countable'
    (fun p => match p with
              | PeerReplica r => inl r
              | PeerClient c => inr (inl c)
              | PeerMember m => inr (inr m)
              end)
    (fun x => match x with
              | inl r => PeerReplica r
              | inr (inl c) => PeerClient c
              | inr (inr m) => PeerMember m
              end) _).
  by intros [].
Defined.

Definition is_replica (p : Peer) : bool :=
  match p with PeerReplica _ => true | _ => false end.
Definition is_client (p : Peer) : bool :=
  match p with PeerClient _ => true | _ => false end.
Definition is_member (p : Peer) : bool :=
  match p with PeerMember _ => true | _ => false end.
Definition as_replica (p : Peer) : option ReplicaId :=
  match p with PeerReplica r => Some r | _ => None end.
Definition as_client (p : Peer) : option ClientId :=
  match p with PeerClient c => Some c | _ => None end.
Definition as_member (p : Peer) : option MemberId :=
  match p with PeerMember m => Some m | _ => None end.

Inductive Recipient : Type :=
| To (p : Peer)
| Backups
| AllReplicas.

#[export] Instance Recipient_eq_dec : EqDecision Recipient.
Proof. solve_decision. Defined.

(** ** Replica status *)

Inductive Status : Type :=
| Normal
| ViewChange
| Recovering
| RecoveringHead
| Retired.

#[export] Instance Status_eq_dec : EqDecision Status.
Proof. solve_decision. Defined.

Definition is_normal (s : Status) : bool :=
  match s with Normal => true | _ => false end.
Definition is_view_change (s : Status) : bool :=
  match s with ViewChange => true | _ => false end.
Definition is_recovering (s : Status) : bool :=
  match s with Recovering => true | _ => false end.
Definition is_recovering_head (s : Status) : bool :=
  match s with RecoveringHead => true | _ => false end.
Definition is_retired (s : Status) : bool :=
  match s with Retired => true | _ => false end.

(** ** Time: an [Instant] wraps a [core::time::Duration], here in nanoseconds

    A [Duration] holds [u64] seconds and fewer than [10^9] nanoseconds, so its
    range ends at [DURATION_MAX]; its own [checked_add] and [saturating_add]
    stop there, and the wrapper clamps once more at [u64::MAX] nanoseconds. *)

Module Time.

Definition DURATION_MAX : Z := umax 64 * 1000000000 + 999999999.
Definition is_duration (d : Z) : Prop := 0 <= d <= DURATION_MAX.

Definition duration_checked_add (a b : Z) : option Z :=
  if a + b <=? DURATION_MAX then Some (a + b) else None.
Definition duration_saturating_add (a b : Z) : Z := Z.min (a + b) DURATION_MAX.
Definition duration_checked_sub (a b : Z) : option Z :=
  if b <=? a then Some (a - b) else None.

Definition ZERO : Z := 0.

Definition as_nanos (t : Z) : Z :=
  if umax 64 <? t then umax 64 else t.

Definition saturating_duration_since (t earlier : Z) : Z :=
  match duration_checked_sub t earlier with
  | Some d => d
  | None => 0
  end.

Definition instant_checked_add (t d : Z) : option Z :=
  match duration_checked_add t d with
  | Some sum => if umax 64 <? sum then None else Some sum
  | None => None
  end.

Definition instant_add (t d : Z) : Z :=
  let sum := duration_saturating_add t d in
  if umax 64 <? sum then umax 64 else sum.

(** The two additions agree wherever the checked one answers, and the
    saturating one is the [u64] ceiling exactly where it does not. *)
Lemma instant_add_checked t d :
  is_duration t -> is_duration d ->
  instant_add t d = match instant_checked_add t d with Some s => s | None => umax 64 end.
Proof.
  unfold is_duration, instant_add, instant_checked_add, duration_checked_add,
    duration_saturating_add, DURATION_MAX, umax. intros Ht Hd.
  repeat case_match; try lia; simplify_eq; lia.
Qed.

Lemma instant_add_mono t t' d d' :
  t <= t' -> d <= d' -> instant_add t d <= instant_add t' d'.
Proof.
  unfold instant_add, duration_saturating_add, DURATION_MAX, umax. intros.
  repeat case_match; lia.
Qed.

Lemma instant_add_since t d :
  is_duration t -> is_duration d -> t + d <= umax 64 ->
  saturating_duration_since (instant_add t d) t = d.
Proof.
  unfold is_duration, saturating_duration_since, duration_checked_sub, instant_add,
    duration_saturating_add, DURATION_MAX, umax. intros.
  repeat case_match; simplify_eq; lia.
Qed.

End Time.

(** ** The SplitMix64 generator *)

Module Prng.

Definition xorshift (z n : Z) : Z := Z.lxor z (Z.shiftr z n).

(** [next_u64]: the drawn value and the advanced state. *)
Definition next_u64 (s : Z) : Z * Z :=
  let s := wrapping_add 64 s 0x9E3779B97F4A7C15 in
  let z := s in
  let z := wrapping_mul 64 (xorshift z 30) 0xBF58476D1CE4E5B9 in
  let z := wrapping_mul 64 (xorshift z 27) 0x94D049BB133111EB in
  (xorshift z 31, s).

(** [below]: [bound > 0] is only [debug_assert]ed; [% 0] would panic. *)
Definition below (s bound : Z) : Z * Z :=
  let '(v, s) := next_u64 s in (v mod bound, s).

Definition chance (s numerator denominator : Z) : bool * Z :=
  let '(v, s) := below s denominator in (v <? numerator, s).

Lemma below_range s bound : 0 < bound -> 0 <= fst (below s bound) < bound.
Proof.
  intros H. unfold below. destruct (next_u64 s) as [v s']. simpl.
  by apply Z.mod_pos_bound.
Qed.

Lemma chance_never s d : 0 < d -> fst (chance s 0 d) = false.
Proof.
  intros H. unfold chance. pose proof (below_range s d H) as Hb.
  destruct (below s d) as [v s']. simpl in *. apply Z.ltb_ge. lia.
Qed.

Lemma chance_always s n d : 0 < d -> d <= n -> fst (chance s n d) = true.
Proof.
  intros H Hn. unfold chance. pose proof (below_range s d H) as Hb.
  destruct (below s d) as [v s']. simpl in *. apply Z.ltb_lt. lia.
Qed.

Lemma next_u64_state_fits s : fits 64 (snd (next_u64 s)).
Proof. apply wrap_fits. lia. Qed.

End Prng.
