(* ===== verification/Hash.v ===== *)
(** * FNV-1a-128

    The content hash of [viewstamp-proto/src/storage/mod.rs]: checkpoint ids,
    header checksums, the configuration lineage and the identity a
    [PrepareOk] vote is counted under. *)

From S2P Require Import Prelude Core.

Definition FNV_OFFSET : Z := 0x6c62272e07bb014262b821756295c58d.
Definition FNV_PRIME : Z := 0x0000000001000000000000000000013B.

Fixpoint fnv1a_128_mix (acc : Z) (bs : list byte) : Z :=
  match bs with
  | [] => acc
  | b :: r => fnv1a_128_mix (wrapping_mul 128 (Z.lxor acc (u8_of_byte b)) FNV_PRIME) r
  end.

Definition fnv1a_128 (bs : list byte) : Z := fnv1a_128_mix FNV_OFFSET bs.

Definition checkpoint_id (snapshot : list byte) : Z := fnv1a_128 snapshot.

Definition prepare_identity (client : ClientId) (request : RequestNumber)
    (body_checksum : Z) : Z :=
  let acc := fnv1a_128_mix FNV_OFFSET (be_bytes 16 client) in
  let acc := fnv1a_128_mix acc (be_bytes 8 request) in
  fnv1a_128_mix acc (be_bytes 16 body_checksum).

Lemma fnv1a_128_mix_fits acc bs : fits 128 acc -> fits 128 (fnv1a_128_mix acc bs).
Proof.
  revert acc. induction bs as [|b bs IH]; intros acc H; simpl; [done|].
  apply IH, wrap_fits. lia.
Qed.

Lemma fnv1a_128_fits bs : fits 128 (fnv1a_128 bs).
Proof. apply fnv1a_128_mix_fits. unfold fits, FNV_OFFSET. lia. Qed.

Lemma fnv1a_128_mix_app acc bs cs :
  fnv1a_128_mix acc (bs ++ cs) = fnv1a_128_mix (fnv1a_128_mix acc bs) cs.
Proof. revert acc. induction bs; intros; simpl; auto. Qed.

(** Hashing the three fields one after the other is hashing their
    concatenation, so the identity is a content address of all forty bytes. *)
Lemma prepare_identity_concat client request body_checksum :
  prepare_identity client request body_checksum =
  fnv1a_128 (be_bytes 16 client ++ be_bytes 8 request ++ be_bytes 16 body_checksum).
Proof. unfold prepare_identity, fnv1a_128. by rewrite !fnv1a_128_mix_app. Qed.

(** ** Single-byte corruption is always detected

    The prime is odd, hence invertible modulo [2^128], so one mixing round is
    injective in the state for a fixed byte and in the byte for a fixed state. *)

Definition FNV_PRIME_INV : Z := 235294668448601749631651150104872562675.

Lemma FNV_PRIME_invertible : wrap 128 (FNV_PRIME * FNV_PRIME_INV) = 1.
Proof. vm_compute. reflexivity. Qed.

Lemma lxor_fits w a b : 0 <= w -> fits w a -> fits w b -> fits w (Z.lxor a b).
Proof.
  unfold fits. intros Hw Ha Hb.
  assert (Z.lxor a b mod 2 ^ w = Z.lxor a b) as <-; [|apply Z.mod_pos_bound, pow_pos, Hw].
  apply Z.bits_inj'. intros i Hi. rewrite Z.lxor_spec.
  destruct (Z.lt_ge_cases i w) as [Hlt|Hge].
  - by rewrite Z.mod_pow2_bits_low, Z.lxor_spec.
  - rewrite Z.mod_pow2_bits_high by lia.
    rewrite <-(Z.mod_small a (2 ^ w)), <-(Z.mod_small b (2 ^ w)) by lia.
    by rewrite !Z.mod_pow2_bits_high by lia.
Qed.

Lemma mul_prime_inj a b :
  fits 128 a -> fits 128 b ->
  wrapping_mul 128 a FNV_PRIME = wrapping_mul 128 b FNV_PRIME -> a = b.
Proof.
  intros Ha Hb H. apply (f_equal (fun z => wrap 128 (z * FNV_PRIME_INV))) in H.
  unfold wrapping_mul, wrap in H. rewrite !Z.mul_mod_idemp_l in H by done.
  rewrite <-!Z.mul_assoc, <-(Z.mul_mod_idemp_r a), <-(Z.mul_mod_idemp_r b) in H by done.
  change ((FNV_PRIME * FNV_PRIME_INV) mod 2 ^ 128) with
    (wrap 128 (FNV_PRIME * FNV_PRIME_INV)) in H.
  rewrite FNV_PRIME_invertible, !Z.mul_1_r in H.
  by rewrite !Z.mod_small in H by done.
Qed.

Lemma byte_fits b : fits 128 (u8_of_byte b).
Proof. pose proof (u8_of_byte_range b). unfold fits. lia. Qed.

Lemma u8_of_byte_inj a b : u8_of_byte a = u8_of_byte b -> a = b.
Proof. intros H. rewrite <-(byte_of_u8_of_byte a), <-(byte_of_u8_of_byte b). by f_equal. Qed.

Lemma lxor_inj_r a b c : Z.lxor a b = Z.lxor a c -> b = c.
Proof.
  intros H. apply (f_equal (Z.lxor a)) in H.
  by rewrite <-!Z.lxor_assoc, Z.lxor_nilpotent, !Z.lxor_0_l in H.
Qed.

Lemma fnv1a_128_mix_inj bs a b :
  fits 128 a -> fits 128 b -> fnv1a_128_mix a bs = fnv1a_128_mix b bs -> a = b.
Proof.
  revert a b. induction bs as [|x bs IH]; intros a b Ha Hb H; [done|].
  simpl in H. apply IH in H; [|apply wrap_fits; lia..].
  apply mul_prime_inj in H; [|by apply lxor_fits, byte_fits..].
  rewrite !(Z.lxor_comm _ (u8_of_byte x)) in H. by apply lxor_inj_r in H.
Qed.

Lemma fnv1a_128_one_byte p s b c :
  fnv1a_128 (p ++ b :: s) = fnv1a_128 (p ++ c :: s) -> b = c.
Proof.
  unfold fnv1a_128. rewrite !fnv1a_128_mix_app. simpl. intros H.
  assert (fits 128 (fnv1a_128_mix FNV_OFFSET p)) as Hp
    by (apply fnv1a_128_fits).
  apply fnv1a_128_mix_inj in H; [|apply wrap_fits; lia..].
  apply mul_prime_inj in H; [|by apply lxor_fits, byte_fits..].
  by apply lxor_inj_r, u8_of_byte_inj in H.
Qed.

(** The hash is used through its lemmas; only [vm_compute] evaluates it. *)
#[global] Opaque fnv1a_128.
