(* ===== verification/Membership.v ===== *)
(** * Membership

    The epoch-versioned configuration of [viewstamp-proto/src/membership/mod.rs]:
    its structural validation, the lineage hash, slot resolution, the quorum
    arithmetic, leader rotation and the four single-voter deltas.

    The second half gives the abstract specification: a configuration is a
    pair of disjoint sets (voters, learners), a delta is a transition of that
    pair, and [apply_delta] refines it.  It ends with the quorum-intersection
    theorems of one configuration and of two adjacent ones. *)

From S2P Require Import Prelude Core Hash.

Definition MAX_VOTING_REPLICAS : Z := 64.

Inductive MembershipError : Type :=
| ZeroReplicaCount
| TooManyReplicas (count : Z)
| TooManyNodes (count : Z)
| MemberCountMismatch (len expected : Z)
| DuplicateMember
| AlreadyAMember
| UnknownMember
| NotALearner
| NotAVoter
| WouldRemoveLastVoter
| ForkedConfigId.

#[export] Instance MembershipError_eq_dec : EqDecision MembershipError.
Proof. solve_decision. Defined.

Record Membership : Type := mkMembership {
  m_epoch : Epoch;
  m_replica_count : Z;
  m_learner_count : Z;
  m_members : list MemberId;
  m_config_id : Z;
}.

#[export] Instance Membership_eq_dec : EqDecision Membership.
Proof. solve_decision. Defined.

(** ** Construction *)

(** The [i < j] double loop over the member list. *)
Fixpoint has_duplicate (ms : list MemberId) : bool :=
  match ms with
  | [] => false
  | x :: r => existsb (Z.eqb x) r || has_duplicate r
  end.

Definition validate_structure (replica_count learner_count : Z) (members : list MemberId)
    : result MembershipError (list MemberId) :=
  if replica_count =? 0 then Err ZeroReplicaCount
  else if MAX_VOTING_REPLICAS <? replica_count then Err (TooManyReplicas replica_count)
  else
    let node_count := replica_count + learner_count in
    if umax 16 <? node_count then Err (TooManyNodes node_count)
    else
      let expected := replica_count + learner_count in
      if negb (zlen members =? expected)
      then Err (MemberCountMismatch (zlen members) expected)
      else if has_duplicate members then Err DuplicateMember
      else Ok members.

Definition compute_config_id (epoch : Epoch) (replica_count learner_count : Z)
    (members : list MemberId) (prev : Z) : Z :=
  fnv1a_128
    (be_bytes 8 epoch ++ be_bytes 1 replica_count ++ be_bytes 2 learner_count
     ++ concat (map (be_bytes 16) members) ++ be_bytes 16 prev).

Definition recompute_config_id := compute_config_id.

Definition build (epoch : Epoch) (replica_count learner_count : Z)
    (members : list MemberId) (prev_config_id : Z) : result MembershipError Membership :=
  let? members := validate_structure replica_count learner_count members in
  let config_id :=
    compute_config_id epoch replica_count learner_count members prev_config_id in
  Ok (mkMembership epoch replica_count learner_count members config_id).

Definition genesis (replica_count learner_count : Z) (members : list MemberId)
    : result MembershipError Membership :=
  build 0 replica_count learner_count members 0.

Definition reconfigure (self : Membership) (replica_count learner_count : Z)
    (members : list MemberId) : result MembershipError Membership :=
  build (Counter.epoch_next (m_epoch self)) replica_count learner_count members
    (m_config_id self).

Definition from_durable_parts (epoch : Epoch) (replica_count learner_count : Z)
    (members : list MemberId) (config_id : Z) : result MembershipError Membership :=
  let? members := validate_structure replica_count learner_count members in
  Ok (mkMembership epoch replica_count learner_count members config_id).

(** ** Accessors and the quorum arithmetic *)

Definition node_count (m : Membership) : Z :=
  wrap 16 (m_replica_count m + m_learner_count m).

Definition slot_of (m : Membership) (who : MemberId) : option ReplicaId :=
  (fun p : nat * Z => wrap 16 (Z.of_nat (fst p))) <$> list_find (fun x => x = who) (m_members m).

Definition member_at (m : Membership) (slot : ReplicaId) : option MemberId :=
  m_members m !! Z.to_nat slot.

Definition quorum (m : Membership) : Z := m_replica_count m / 2 + 1.
Definition quorum_view_change (m : Membership) : Z := m_replica_count m - quorum m + 1.
Definition quorum_nack_prepare (m : Membership) : Z := m_replica_count m - quorum m + 1.

Definition primary (m : Membership) (view : View) : ReplicaId :=
  wrap 16 (view mod m_replica_count m).
Definition is_primary_slot (m : Membership) (slot : ReplicaId) (view : View) : bool :=
  primary m view =? slot.

Definition is_voter (m : Membership) (id : ReplicaId) : bool := id <? m_replica_count m.
Definition is_learner (m : Membership) (id : ReplicaId) : bool :=
  (m_replica_count m <=? id) && (id <? node_count m).

Definition contains (m : Membership) (who : MemberId) : bool :=
  bool_decide (who ∈ m_members m).

Definition first_new_voter (m : Membership) (successor_replica_count : Z)
    (successor_members : list MemberId) : option MemberId :=
  snd <$> list_find (fun who => contains m who = false)
            (take (Z.to_nat successor_replica_count) successor_members).

(** ** The single-voter deltas *)

Inductive SingleVoterDelta : Type :=
| PromoteLearner (who : MemberId)
| DemoteVoter (who : MemberId)
| AddLearner (who : MemberId)
| RemoveLearner (who : MemberId).

#[export] Instance SingleVoterDelta_eq_dec : EqDecision SingleVoterDelta.
Proof. solve_decision. Defined.

Definition delta_member (d : SingleVoterDelta) : MemberId :=
  match d with
  | PromoteLearner m | DemoteVoter m | AddLearner m | RemoveLearner m => m
  end.
Definition is_promote_learner (d : SingleVoterDelta) : bool :=
  match d with PromoteLearner _ => true | _ => false end.
Definition is_demote_voter (d : SingleVoterDelta) : bool :=
  match d with DemoteVoter _ => true | _ => false end.
Definition is_add_learner (d : SingleVoterDelta) : bool :=
  match d with AddLearner _ => true | _ => false end.
Definition is_remove_learner (d : SingleVoterDelta) : bool :=
  match d with RemoveLearner _ => true | _ => false end.

(** The counts are [u8]/[u16] and wrap at their width. *)
Definition apply_delta (m : Membership) (d : SingleVoterDelta)
    : result MembershipError Membership :=
  let voters := Z.to_nat (m_replica_count m) in
  let current_voters := take voters (m_members m) in
  let current_learners := drop voters (m_members m) in
  match d with
  | PromoteLearner who =>
      let? slot := ok_or (slot_of m who) UnknownMember in
      if negb (is_learner m slot) then Err NotALearner
      else
        let members := current_voters ++ [who] ++ filter (fun x => x <> who) current_learners in
        reconfigure m (wrap 8 (m_replica_count m + 1)) (wrap 16 (m_learner_count m - 1)) members
  | DemoteVoter who =>
      let? slot := ok_or (slot_of m who) UnknownMember in
      if negb (is_voter m slot) then Err NotAVoter
      else if m_replica_count m =? 1 then Err WouldRemoveLastVoter
      else
        let members := filter (fun x => x <> who) current_voters ++ current_learners ++ [who] in
        reconfigure m (wrap 8 (m_replica_count m - 1)) (wrap 16 (m_learner_count m + 1)) members
  | AddLearner who =>
      if contains m who then Err AlreadyAMember
      else
        let members := m_members m ++ [who] in
        reconfigure m (m_replica_count m) (wrap 16 (m_learner_count m + 1)) members
  | RemoveLearner who =>
      let? slot := ok_or (slot_of m who) UnknownMember in
      if negb (is_learner m slot) then Err NotALearner
      else
        let members := filter (fun x => x <> who) (m_members m) in
        reconfigure m (m_replica_count m) (wrap 16 (m_learner_count m - 1)) members
  end.

(** ** Well-formed configurations *)

Definition structure_ok (replica_count learner_count : Z) (members : list MemberId) : Prop :=
  0 < replica_count <= 64 /\ 0 <= learner_count /\
  replica_count + learner_count <= 65535 /\
  zlen members = replica_count + learner_count /\ NoDup members.

Definition wf (m : Membership) : Prop :=
  structure_ok (m_replica_count m) (m_learner_count m) (m_members m).
Existing Class wf.

Lemma has_duplicate_spec ms : has_duplicate ms = false <-> NoDup ms.
Proof.
  induction ms as [|x ms IH]; simpl; [by split; [constructor|]|].
  rewrite orb_false_iff, IH, NoDup_cons. split; intros [H1 H2]; (split; [|done]).
  - intros Hin. assert (existsb (Z.eqb x) ms = true) as E; [|congruence].
    apply existsb_exists. exists x. split; [by apply list_elem_of_In|apply Z.eqb_refl].
  - destruct (existsb (Z.eqb x) ms) eqn:E; [|done].
    apply existsb_exists in E as (y & Hy & ->%Z.eqb_eq).
    by apply list_elem_of_In in Hy.
Qed.

Lemma validate_structure_ok rc lc ms ms' :
  fits 8 rc -> fits 16 lc ->
  validate_structure rc lc ms = Ok ms' <-> ms' = ms /\ structure_ok rc lc ms.
Proof.
  intros Hrc Hlc. unfold validate_structure, structure_ok, MAX_VOTING_REPLICAS, umax, fits in *.
  rewrite <-has_duplicate_spec.
  destruct (Z.eqb_spec rc 0); [intuition (congruence || lia)|].
  destruct (Z.ltb_spec 64 rc); [intuition (congruence || lia)|].
  destruct (Z.ltb_spec (2 ^ 16 - 1) (rc + lc)); [intuition (congruence || lia)|].
  destruct (Z.eqb_spec (zlen ms) (rc + lc)); simpl; [|intuition (congruence || lia)].
  destruct (has_duplicate ms); intuition (congruence || lia).
Qed.

Lemma build_ok epoch rc lc ms prev m :
  fits 8 rc -> fits 16 lc ->
  build epoch rc lc ms prev = Ok m <->
  structure_ok rc lc ms /\
  m = mkMembership epoch rc lc ms (compute_config_id epoch rc lc ms prev).
Proof.
  intros Hrc Hlc. unfold build.
  destruct (validate_structure rc lc ms) as [ms'|e] eqn:E.
  - apply validate_structure_ok in E as [-> Hok]; naive_solver.
  - split; [done|]. intros [Hok _].
    assert (validate_structure rc lc ms = Ok ms) as E' by (by apply validate_structure_ok).
    congruence.
Qed.

Lemma build_wf epoch rc lc ms prev m :
  fits 8 rc -> fits 16 lc -> build epoch rc lc ms prev = Ok m -> wf m.
Proof. intros Hrc Hlc [Hok ->]%build_ok; done. Qed.

(** ** The abstract configuration: voters and learners as sets *)

Definition voters_list (m : Membership) : list MemberId :=
  take (Z.to_nat (m_replica_count m)) (m_members m).
Definition learners_list (m : Membership) : list MemberId :=
  drop (Z.to_nat (m_replica_count m)) (m_members m).
Definition voters (m : Membership) : gset Z := list_to_set (voters_list m).
Definition learners (m : Membership) : gset Z := list_to_set (learners_list m).

(** What a delta does to the pair of sets; the guards are the error cases. *)
Inductive conf_step : gset Z * gset Z -> SingleVoterDelta -> gset Z * gset Z -> Prop :=
| step_promote V L x :
    x ∈ L -> conf_step (V, L) (PromoteLearner x) (V ∪ {[x]}, L ∖ {[x]})
| step_demote V L x :
    x ∈ V -> (1 < size V)%nat -> conf_step (V, L) (DemoteVoter x) (V ∖ {[x]}, L ∪ {[x]})
| step_add V L x :
    x ∉ V -> x ∉ L -> conf_step (V, L) (AddLearner x) (V, L ∪ {[x]})
| step_remove V L x :
    x ∈ L -> conf_step (V, L) (RemoveLearner x) (V, L ∖ {[x]}).

Section layout.
Context (m : Membership) (Hwf : wf m).

Lemma members_split : m_members m = voters_list m ++ learners_list m.
Proof. symmetry. apply take_drop. Qed.

Lemma length_voters_list : zlen (voters_list m) = m_replica_count m.
Proof. destruct Hwf as (?&?&?&?&?). unfold voters_list. rewrite length_take. lia. Qed.

Lemma length_learners_list : zlen (learners_list m) = m_learner_count m.
Proof. destruct Hwf as (?&?&?&?&?). unfold learners_list. rewrite length_drop. lia. Qed.

Lemma NoDup_layout :
  NoDup (voters_list m) /\ NoDup (learners_list m) /\
  forall x, x ∈ voters_list m -> x ∉ learners_list m.
Proof.
  destruct Hwf as (?&?&?&?&Hnd). rewrite members_split in Hnd.
  apply NoDup_app in Hnd as (?&?&?). auto.
Qed.

Lemma voters_learners_disjoint : voters m ## learners m.
Proof.
  destruct NoDup_layout as (_&_&H). unfold voters, learners.
  intros x. rewrite !elem_of_list_to_set. apply H.
Qed.

Lemma size_voters : Z.of_nat (size (voters m)) = m_replica_count m.
Proof.
  unfold voters. rewrite size_list_to_set by apply NoDup_layout. apply length_voters_list.
Qed.

Lemma size_learners : Z.of_nat (size (learners m)) = m_learner_count m.
Proof.
  unfold learners. rewrite size_list_to_set by apply NoDup_layout. apply length_learners_list.
Qed.

Lemma node_count_wf : node_count m = m_replica_count m + m_learner_count m.
Proof. destruct Hwf as (?&?&?&?&?). apply wrap_small. unfold fits. lia. Qed.

(** [slot_of] resolves a member to its unique index, and nothing else. *)
Lemma slot_of_Some who i :
  slot_of m who = Some i <-> 0 <= i /\ m_members m !! Z.to_nat i = Some who.
Proof.
  destruct Hwf as (?&?&?&Hlen&Hnd). unfold slot_of. rewrite fmap_Some. split.
  - intros ([j x] & (Hj & -> & _)%list_find_Some & ->). simpl.
    pose proof (lookup_lt_Some _ _ _ Hj).
    rewrite wrap_small by (unfold fits; lia). split; [lia|]. by rewrite Nat2Z.id.
  - intros [Hi Hl]. exists (Z.to_nat i, who). split.
    + apply list_find_Some. split_and!; [done..|].
      intros j y Hj Hlt ->. pose proof (NoDup_lookup _ _ _ _ Hnd Hj Hl). lia.
    + simpl. pose proof (lookup_lt_Some _ _ _ Hl). rewrite wrap_small; unfold fits; lia.
Qed.

Lemma slot_of_None who : slot_of m who = None <-> who ∉ m_members m.
Proof.
  unfold slot_of. rewrite fmap_None, list_find_None, Forall_forall. split.
  - intros H Hin. by eapply H.
  - intros H x Hx ->. done.
Qed.

Lemma slot_voter who i :
  slot_of m who = Some i -> is_voter m i = true <-> who ∈ voters m.
Proof.
  intros [Hi Hl]%slot_of_Some. unfold is_voter, voters. rewrite elem_of_list_to_set.
  destruct Hwf as (?&?&?&?&Hnd). split.
  - intros Hlt%Z.ltb_lt. apply list_elem_of_lookup. exists (Z.to_nat i).
    unfold voters_list. rewrite lookup_take_lt by lia. done.
  - intros (j & Hj)%list_elem_of_lookup. unfold voters_list in Hj.
    apply lookup_take_Some in Hj as [Hj ?].
    pose proof (NoDup_lookup _ _ _ _ Hnd Hj Hl). apply Z.ltb_lt. lia.
Qed.

Lemma elem_members who : who ∈ m_members m <-> who ∈ voters m \/ who ∈ learners m.
Proof. rewrite members_split. unfold voters, learners. set_solver. Qed.

Lemma slot_learner who i :
  slot_of m who = Some i -> is_learner m i = true <-> who ∈ learners m.
Proof.
  intros Hs. pose proof (slot_voter who i Hs) as Hv.
  pose proof voters_learners_disjoint as Hd.
  apply slot_of_Some in Hs as [Hi Hl].
  pose proof (lookup_lt_Some _ _ _ Hl) as Hlt.
  assert (who ∈ m_members m) as Hin%elem_members by (apply list_elem_of_lookup; eauto).
  unfold is_learner, is_voter in *. rewrite node_count_wf.
  destruct Hwf as (?&?&?&?&?). rewrite andb_true_iff, Z.leb_le, Z.ltb_lt.
  split; [|intros; split; [|lia]].
  - intros [? _]. destruct Hin as [Hin|]; [|done]. apply Hv, Z.ltb_lt in Hin. lia.
  - destruct (Z.lt_ge_cases i (m_replica_count m)) as [Hc|]; [|done].
    apply Z.ltb_lt, Hv in Hc. set_solver.
Qed.

Lemma contains_spec who : contains m who = true <-> who ∈ voters m \/ who ∈ learners m.
Proof. unfold contains. rewrite bool_decide_eq_true. apply elem_members. Qed.

End layout.

(** ** [apply_delta] refines the abstract step *)

Lemma reconfigure_layout m rc lc vs ls m' :
  fits 8 rc -> fits 16 lc -> zlen vs = rc -> reconfigure m rc lc (vs ++ ls) = Ok m' ->
  wf m' /\ voters m' = list_to_set vs /\ learners m' = list_to_set ls /\
  m_epoch m' = Counter.epoch_next (m_epoch m) /\
  m_config_id m' =
    compute_config_id (m_epoch m') (m_replica_count m') (m_learner_count m')
      (m_members m') (m_config_id m).
Proof.
  intros Hrc Hlc Hvs H. unfold reconfigure in H.
  pose proof (build_wf _ _ _ _ _ _ Hrc Hlc H) as Hwf.
  apply build_ok in H as [_ ->]; [|done..]. split; [done|].
  unfold voters, learners, voters_list, learners_list. simpl.
  replace (Z.to_nat rc) with (length vs) by lia. by rewrite take_app_length, drop_app_length.
Qed.

Section refine.
Context (m : Membership) (Hwf : wf m).

(** The arguments each branch passes to [reconfigure], with the machine
    arithmetic shown not to wrap. *)
Lemma apply_delta_branch d m' :
  apply_delta m d = Ok m' <->
  match d with
  | PromoteLearner x =>
      x ∈ learners m /\
      reconfigure m (m_replica_count m + 1) (m_learner_count m - 1)
        ((voters_list m ++ [x]) ++ filter (fun y => y <> x) (learners_list m)) = Ok m'
  | DemoteVoter x =>
      x ∈ voters m /\ m_replica_count m <> 1 /\
      reconfigure m (m_replica_count m - 1) (m_learner_count m + 1)
        (filter (fun y => y <> x) (voters_list m) ++ (learners_list m ++ [x])) = Ok m'
  | AddLearner x =>
      x ∉ voters m /\ x ∉ learners m /\
      reconfigure m (m_replica_count m) (m_learner_count m + 1)
        (voters_list m ++ (learners_list m ++ [x])) = Ok m'
  | RemoveLearner x =>
      x ∈ learners m /\
      reconfigure m (m_replica_count m) (m_learner_count m - 1)
        (voters_list m ++ filter (fun y => y <> x) (learners_list m)) = Ok m'
  end.
Proof.
  pose proof (size_learners m Hwf) as HsL. pose proof (size_voters m Hwf) as HsV.
  pose proof (voters_learners_disjoint m Hwf) as Hdisj.
  assert (Hpos : forall x, x ∈ learners m -> 0 < m_learner_count m).
  { intros x Hx. assert (size (learners m) <> 0%nat); [|lia].
    intros Hz%size_empty_inv. set_solver. }
  assert (Hb := Hwf). destruct Hb as (Hr & Hl & Hn & _ & _).
  unfold apply_delta. fold (voters_list m) (learners_list m).
  destruct d as [x|x|x|x].
  1, 2, 4: destruct (slot_of m x) as [i|] eqn:Hs; simpl;
    [|split; [done|]; apply slot_of_None in Hs; rewrite elem_members in Hs; tauto].
  - pose proof (slot_learner m Hwf x i Hs) as Hi.
    destruct (is_learner m i); simpl; [|intuition congruence].
    assert (x ∈ learners m) as Hx by (by apply Hi). specialize (Hpos x Hx).
    rewrite !wrap_small, <-app_assoc by (unfold fits; lia). naive_solver.
  - pose proof (slot_voter m Hwf x i Hs) as Hi.
    destruct (is_voter m i); simpl; [|intuition congruence].
    destruct (Z.eqb_spec (m_replica_count m) 1); [intuition congruence|].
    rewrite !wrap_small by (unfold fits; lia). naive_solver.
  - pose proof (slot_learner m Hwf x i Hs) as Hi.
    destruct (is_learner m i); simpl; [|intuition congruence].
    assert (x ∈ learners m) as Hx by (by apply Hi). specialize (Hpos x Hx).
    rewrite !wrap_small by (unfold fits; lia).
    rewrite (members_split m), filter_app, (filter_ne_notin x (voters_list m)); [naive_solver|].
    unfold voters in Hdisj. set_solver.
  - pose proof (contains_spec m Hwf x) as Hc.
    destruct (contains m x); [intuition congruence|].
    rewrite !wrap_small by (unfold fits; lia). rewrite (members_split m), <-app_assoc.
    intuition congruence.
Qed.

Lemma apply_delta_step d m' :
  apply_delta m d = Ok m' ->
  wf m' /\ conf_step (voters m, learners m) d (voters m', learners m') /\
  m_epoch m' = Counter.epoch_next (m_epoch m) /\
  m_config_id m' =
    compute_config_id (m_epoch m') (m_replica_count m') (m_learner_count m')
      (m_members m') (m_config_id m).
Proof.
  intros H%apply_delta_branch.
  pose proof (length_voters_list m Hwf) as HlV. pose proof (length_learners_list m Hwf) as HlL.
  pose proof (size_voters m Hwf) as HsV.
  destruct (NoDup_layout m Hwf) as (HndV & HndL & _).
  assert (Hb := Hwf). destruct Hb as (Hr & Hl & Hn & _ & _).
  assert (Hpos : forall x, x ∈ learners m -> 0 < m_learner_count m).
  { unfold learners. intros x Hx%elem_of_list_to_set. destruct (learners_list m); [|simpl in *; lia].
    by apply not_elem_of_nil in Hx. }
  destruct d as [x|x|x|x];
    [destruct H as [Hx H]|destruct H as (Hx & H1 & H)|destruct H as (Hx & Hx' & H)|destruct H as [Hx H]].
  all: eapply reconfigure_layout in H as (? & EV & EL & ? & ?).
  all: try (unfold fits; try specialize (Hpos x Hx); lia).
  all: try (split_and!; [done| |done..]; rewrite EV, EL).
  all: try (rewrite filter_ne_length by (unfold voters in *; set_solver)).
  all: try (rewrite length_app; simpl; lia).
  all: try lia.
  all: rewrite ?list_to_set_app_L, ?list_to_set_filter_ne; simpl;
    fold (voters m) (learners m); rewrite ?(right_id_L ∅ (∪)).
  - by constructor.
  - constructor; [done|]. lia.
  - by constructor.
  - by constructor.
Qed.

(** Conversely every abstract step the caps admit is taken: the layout each
    branch builds passes [validate_structure]. *)
Lemma elem_voters_list x : x ∈ voters m <-> x ∈ voters_list m.
Proof. apply elem_of_list_to_set. Qed.

Lemma elem_learners_list x : x ∈ learners m <-> x ∈ learners_list m.
Proof. apply elem_of_list_to_set. Qed.

Lemma learner_pos x : x ∈ learners m -> 0 < m_learner_count m.
Proof.
  rewrite elem_learners_list, <-(length_learners_list m Hwf). intros Hx.
  destruct (learners_list m); [by apply not_elem_of_nil in Hx|simpl; lia].
Qed.

Lemma promote_structure x :
  x ∈ learners m -> m_replica_count m < 64 ->
  structure_ok (m_replica_count m + 1) (m_learner_count m - 1)
    ((voters_list m ++ [x]) ++ filter (fun y => y <> x) (learners_list m)).
Proof.
  intros Hx Hlt. pose proof (learner_pos x Hx). apply elem_learners_list in Hx.
  destruct (NoDup_layout m Hwf) as (HndV & HndL & Hsep).
  pose proof (length_voters_list m Hwf). pose proof (length_learners_list m Hwf).
  destruct Hwf as (?&?&?&?&?). split_and!; [lia..| |].
  - rewrite !length_app, !Nat2Z.inj_add, filter_ne_length by done. simpl. lia.
  - rewrite <-app_assoc. simpl. apply NoDup_app. split_and!; [done| |by rewrite filter_ne_perm].
    intros y Hy. specialize (Hsep y Hy). rewrite elem_of_cons, list_elem_of_filter. naive_solver.
Qed.

Lemma demote_structure x :
  x ∈ voters m -> m_replica_count m <> 1 ->
  structure_ok (m_replica_count m - 1) (m_learner_count m + 1)
    (filter (fun y => y <> x) (voters_list m) ++ (learners_list m ++ [x])).
Proof.
  intros Hx Hne. apply elem_voters_list in Hx.
  destruct (NoDup_layout m Hwf) as (HndV & HndL & Hsep).
  pose proof (length_voters_list m Hwf). pose proof (length_learners_list m Hwf).
  destruct Hwf as (?&?&?&?&?). split_and!; [lia..| |].
  - rewrite !length_app, !Nat2Z.inj_add, filter_ne_length by done. simpl. lia.
  - rewrite Permutation_app_comm, <-app_assoc. simpl. rewrite filter_ne_perm by done.
    rewrite Permutation_app_comm. by rewrite <-members_split.
Qed.

Lemma add_structure x :
  x ∉ voters m -> x ∉ learners m -> m_replica_count m + m_learner_count m < 65535 ->
  structure_ok (m_replica_count m) (m_learner_count m + 1)
    (voters_list m ++ (learners_list m ++ [x])).
Proof.
  intros HxV HxL Hcap. rewrite app_assoc, <-members_split.
  destruct Hwf as (?&?&?&?&?). split_and!; [lia..| |].
  - rewrite length_app. simpl. lia.
  - apply NoDup_app. split_and!; [done| |apply NoDup_singleton].
    intros y Hy%elem_members ->%list_elem_of_singleton; [tauto|done].
Qed.

Lemma remove_structure x :
  x ∈ learners m ->
  structure_ok (m_replica_count m) (m_learner_count m - 1)
    (voters_list m ++ filter (fun y => y <> x) (learners_list m)).
Proof.
  intros Hx. pose proof (learner_pos x Hx). apply elem_learners_list in Hx.
  destruct (NoDup_layout m Hwf) as (HndV & HndL & Hsep).
  pose proof (length_voters_list m Hwf). pose proof (length_learners_list m Hwf).
  destruct Hwf as (?&?&?&?&?). split_and!; [lia..| |].
  - rewrite !length_app, !Nat2Z.inj_add, filter_ne_length by done. lia.
  - apply NoDup_app. split_and!; [done| |by apply NoDup_filter].
    intros y Hy. specialize (Hsep y Hy). rewrite list_elem_of_filter. naive_solver.
Qed.

Lemma reconfigure_enabled rc lc ms :
  structure_ok rc lc ms -> exists m', reconfigure m rc lc ms = Ok m'.
Proof.
  intros Hok. eexists. apply build_ok; [| |by split].
  all: destruct Hok as (?&?&?&?&?); unfold fits; lia.
Qed.

Lemma apply_delta_enabled d V' L' :
  conf_step (voters m, learners m) d (V', L') ->
  (size V' <= 64)%nat -> Z.of_nat (size V' + size L') <= 65535 ->
  exists m', apply_delta m d = Ok m' /\ voters m' = V' /\ learners m' = L'.
Proof.
  intros Hstep HV HN.
  pose proof (size_voters m Hwf) as HsV. pose proof (size_learners m Hwf) as HsL.
  pose proof (voters_learners_disjoint m Hwf) as Hdisj.
  assert (exists m', apply_delta m d = Ok m') as [m' Hm'].
  { inversion Hstep as [V L x Hx|V L x Hx Hs|V L x Hx Hx'|V L x Hx]; subst;
      setoid_rewrite apply_delta_branch.
    - rewrite size_union, size_singleton in HV by set_solver.
      edestruct reconfigure_enabled as [m' Hm']; [apply (promote_structure x Hx); lia|eauto].
    - edestruct reconfigure_enabled as [m' Hm']; [apply (demote_structure x Hx); lia|].
      exists m'. split_and!; [done|lia|done].
    - rewrite size_union, size_singleton in HN by set_solver.
      edestruct reconfigure_enabled as [m' Hm']; [apply (add_structure x); [done..|lia]|eauto].
    - edestruct reconfigure_enabled as [m' Hm']; [apply (remove_structure x Hx)|eauto]. }
  exists m'. split; [done|]. apply apply_delta_step in Hm' as (_ & Hs & _).
  inversion Hstep; inversion Hs; by simplify_eq.
Qed.

End refine.

(** ** Errors of [apply_delta], exactly *)

Inductive delta_error (V L : gset Z) : SingleVoterDelta -> MembershipError -> Prop :=
| promote_unknown x : x ∉ V -> x ∉ L -> delta_error V L (PromoteLearner x) UnknownMember
| promote_voter x : x ∈ V -> delta_error V L (PromoteLearner x) NotALearner
| promote_full x :
    x ∈ L -> size V = 64%nat -> delta_error V L (PromoteLearner x) (TooManyReplicas 65)
| demote_unknown x : x ∉ V -> x ∉ L -> delta_error V L (DemoteVoter x) UnknownMember
| demote_learner x : x ∈ L -> delta_error V L (DemoteVoter x) NotAVoter
| demote_last x : x ∈ V -> size V = 1%nat -> delta_error V L (DemoteVoter x) WouldRemoveLastVoter
| add_present x : x ∈ V \/ x ∈ L -> delta_error V L (AddLearner x) AlreadyAMember
| add_full x :
    x ∉ V -> x ∉ L -> Z.of_nat (size V + size L) = 65535 ->
    delta_error V L (AddLearner x) (TooManyNodes 65536)
| remove_unknown x : x ∉ V -> x ∉ L -> delta_error V L (RemoveLearner x) UnknownMember
| remove_voter x : x ∈ V -> delta_error V L (RemoveLearner x) NotALearner.

Section errors.
Context (m : Membership) (Hwf : wf m).

Lemma slot_of_unknown x : slot_of m x = None -> x ∉ voters m /\ x ∉ learners m.
Proof. rewrite slot_of_None by done. rewrite elem_members by done. tauto. Qed.

Lemma slot_of_known x i :
  slot_of m x = Some i ->
  (is_voter m i = true /\ is_learner m i = false /\ x ∈ voters m) \/
  (is_voter m i = false /\ is_learner m i = true /\ x ∈ learners m).
Proof.
  intros Hs. pose proof (slot_voter m Hwf x i Hs) as Hv.
  pose proof (slot_learner m Hwf x i Hs) as Hl.
  pose proof (voters_learners_disjoint m Hwf) as Hd.
  assert (x ∈ voters m \/ x ∈ learners m) as [Hx|Hx].
  { apply elem_members; [done|]. apply list_elem_of_lookup. apply slot_of_Some in Hs as []; eauto. }
  - left. destruct (is_voter m i), (is_learner m i); intuition set_solver.
  - right. destruct (is_voter m i), (is_learner m i); intuition set_solver.
Qed.

Lemma wrap_counts :
  wrap 8 (m_replica_count m + 1) = m_replica_count m + 1 /\
  wrap 8 (m_replica_count m - 1) = m_replica_count m - 1 /\
  wrap 16 (m_learner_count m + 1) = m_learner_count m + 1 /\
  (0 < m_learner_count m -> wrap 16 (m_learner_count m - 1) = m_learner_count m - 1).
Proof. destruct Hwf as (?&?&?&?&?). split_and!; intros; apply wrap_small; unfold fits; lia. Qed.

Lemma no_error_of_structure rc lc ms e :
  structure_ok rc lc ms -> reconfigure m rc lc ms = Err e -> False.
Proof. intros Hok He. destruct (reconfigure_enabled m rc lc ms Hok). congruence. Qed.

Lemma apply_delta_error d e :
  apply_delta m d = Err e -> delta_error (voters m) (learners m) d e.
Proof.
  pose proof (size_voters m Hwf) as HsV. pose proof (size_learners m Hwf) as HsL.
  pose proof (voters_learners_disjoint m Hwf) as Hdisj.
  destruct wrap_counts as (W1 & W2 & W3 & W4). assert (Hb := Hwf). destruct Hb as (Hr&Hl&Hn&_&_).
  unfold apply_delta. fold (voters_list m) (learners_list m).
  destruct d as [x|x|x|x]; rewrite ?W1, ?W2, ?W3.
  1, 2, 4: destruct (slot_of m x) as [i|] eqn:Hs; simpl;
    [apply slot_of_known in Hs as [(EV & EL & Hx)|(EV & EL & Hx)]; rewrite ?EV, ?EL; simpl
    |apply slot_of_unknown in Hs as []; intros; simplify_eq; by constructor].
  all: try (intros; simplify_eq; by constructor).
  - rewrite W4 by (by eapply learner_pos). intros He.
    destruct (Z.lt_ge_cases (m_replica_count m) 64) as [Hlt|Hge].
    { rewrite cons_middle, app_assoc in He.
      destruct (no_error_of_structure _ _ _ _ (promote_structure m Hwf x Hx Hlt) He). }
    assert (m_replica_count m = 64) as E64 by lia. rewrite E64 in He.
    vm_compute in He. simplify_eq. constructor; [done|lia].
  - destruct (Z.eqb_spec (m_replica_count m) 1) as [E1|Hne]; intros He.
    { simplify_eq. constructor; [done|lia]. }
    destruct (no_error_of_structure _ _ _ _ (demote_structure m Hwf x Hx Hne) He).
  - rewrite W4 by (by eapply learner_pos). intros He.
    destruct (no_error_of_structure (m_replica_count m) (m_learner_count m - 1)
      (voters_list m ++ filter (fun y => y <> x) (learners_list m)) e); [by apply remove_structure|].
    rewrite <-He, (members_split m), filter_app, (filter_ne_notin x (voters_list m)); [done|].
    rewrite <-elem_voters_list. set_solver.
  - pose proof (contains_spec m Hwf x) as Hc. destruct (contains m x); intros He.
    { simplify_eq. constructor. tauto. }
    assert (x ∉ voters m /\ x ∉ learners m) as [HxV HxL] by intuition congruence.
    destruct (Z.lt_ge_cases (m_replica_count m + m_learner_count m) 65535) as [Hlt|Hge].
    { rewrite (members_split m), <-app_assoc in He.
      destruct (no_error_of_structure _ _ _ _ (add_structure m Hwf x HxV HxL Hlt) He). }
    assert (m_learner_count m = 65535 - m_replica_count m) as E by lia.
    assert (e = TooManyNodes 65536) as ->; [|constructor; [done..|lia]].
    revert He. unfold reconfigure, build, validate_structure, MAX_VOTING_REPLICAS, umax.
    rewrite E. replace (m_replica_count m + (65535 - m_replica_count m + 1)) with 65536 by lia.
    destruct (Z.eqb_spec (m_replica_count m) 0); [lia|].
    destruct (Z.ltb_spec 64 (m_replica_count m)); [lia|]. simpl. congruence.
Qed.

End errors.

(** ** Crash tolerance and leader rotation *)

(** [f(n) = n - quorum(n)]: the simultaneous voter crashes [m] survives. *)
Definition fault_tolerance (m : Membership) : Z := m_replica_count m - quorum m.

Lemma fault_tolerance_half m : fault_tolerance m = (m_replica_count m - 1) / 2.
Proof. unfold fault_tolerance, quorum. lia_div. Qed.

Section quorums.
Context (m : Membership) (Hwf : wf m).

Lemma quorum_bounds :
  1 <= quorum m <= m_replica_count m /\ 1 <= quorum_view_change m <= quorum m /\
  m_replica_count m < quorum m + quorum_view_change m.
Proof. destruct Hwf as (?&?&?&?&?). unfold quorum_view_change, quorum. lia_div. Qed.

Lemma primary_small view : 0 <= primary m view < m_replica_count m.
Proof.
  destruct Hwf as (?&?&?&?&?). unfold primary.
  pose proof (Z.mod_pos_bound view (m_replica_count m)).
  rewrite wrap_small by (unfold fits; lia). lia.
Qed.

Lemma primary_mod view : primary m view = view mod m_replica_count m.
Proof.
  destruct Hwf as (?&?&?&?&?). unfold primary. apply wrap_small.
  pose proof (Z.mod_pos_bound view (m_replica_count m)). unfold fits. lia.
Qed.

End quorums.

(** ** The interface to the vote-counting components

    What a configuration promises whoever counts votes over the universe [U]:
    a replication quorum meets every view-change quorum, and the replicas
    outside one are too few to nack. *)
Class QuorumSystem `{Countable A} (U : gset A) (q qvc qnack : Z) : Prop := {
  qs_inhabited (X : gset A) : q <= Z.of_nat (size X) -> exists r, r ∈ X;
  qs_meets (X Y : gset A) : X ⊆ U -> Y ⊆ U -> q <= Z.of_nat (size X) ->
    qvc <= Z.of_nat (size Y) -> exists r, r ∈ X /\ r ∈ Y;
  qs_nack (X Y : gset A) : X ⊆ U -> q <= Z.of_nat (size X) -> Y ⊆ U ∖ X ->
    Z.of_nat (size Y) < qnack;
}.

(** Thresholds whose sums exceed the universe form a quorum system. *)
Lemma threshold_quorums `{Countable A} (U : gset A) q qvc qnack :
  1 <= q -> Z.of_nat (size U) < q + qvc -> Z.of_nat (size U) < q + qnack ->
  QuorumSystem U q qvc qnack.
Proof.
  intros Hq Hvc Hn. split.
  - intros X HX. destruct (set_choose_or_empty X) as [?|He]; [done|].
    apply size_empty_iff in He. lia.
  - intros X Y HX HY HXq HYq. destruct (set_choose_L (X ∩ Y)) as [r Hr].
    + apply (pigeonhole U); [done..|lia].
    + exists r. by apply elem_of_intersection in Hr.
  - intros X Y HX HXq HY. apply subseteq_size in HY. rewrite size_difference in HY by done.
    pose proof (subseteq_size _ _ HX). lia.
Qed.

Definition voting_slots (m : Membership) : gset Z := list_to_set (seqZ 0 (m_replica_count m)).

Lemma elem_voting_slots m r : r ∈ voting_slots m <-> 0 <= r < m_replica_count m.
Proof. unfold voting_slots. rewrite elem_of_list_to_set, elem_of_seqZ. lia. Qed.

Lemma size_voting_slots m : 0 <= m_replica_count m -> Z.of_nat (size (voting_slots m)) = m_replica_count m.
Proof.
  intros. unfold voting_slots. rewrite size_list_to_set by apply NoDup_seqZ.
  rewrite length_seqZ. lia.
Qed.

#[export] Instance voters_quorums m (Hwf : wf m) :
  QuorumSystem (voters m) (quorum m) (quorum_view_change m) (quorum_nack_prepare m).
Proof.
  pose proof (quorum_bounds m Hwf). pose proof (size_voters m Hwf).
  apply threshold_quorums; unfold quorum_nack_prepare, quorum_view_change in *; lia.
Qed.

#[export] Instance slots_quorums m (Hwf : wf m) :
  QuorumSystem (voting_slots m) (quorum m) (quorum_view_change m) (quorum_nack_prepare m).
Proof.
  pose proof (quorum_bounds m Hwf). pose proof (size_voting_slots m ltac:(lia)).
  apply threshold_quorums; unfold quorum_nack_prepare, quorum_view_change in *; lia.
Qed.

(** The voter count of the successor, per delta. *)
Lemma delta_voter_count m d m' :
  wf m -> apply_delta m d = Ok m' ->
  m_replica_count m' = m_replica_count m +
    match d with PromoteLearner _ => 1 | DemoteVoter _ => -1 | _ => 0 end.
Proof.
  intros Hwf Hd. pose proof (voters_learners_disjoint m Hwf) as Hdisj.
  destruct (apply_delta_step m Hwf d m' Hd) as (Hwf' & Hs & _).
  rewrite <-(size_voters m Hwf), <-(size_voters m' Hwf').
  inversion Hs; simpl; [| |lia..].
  - rewrite size_union, size_singleton by set_solver. lia.
  - rewrite size_difference, size_singleton by set_solver. lia.
Qed.

Lemma delta_voters_near m d m' :
  wf m -> apply_delta m d = Ok m' ->
  exists U, voters m ⊆ U /\ voters m' ⊆ U /\
    Z.of_nat (size U) = Z.max (m_replica_count m) (m_replica_count m').
Proof.
  intros Hwf Hd. pose proof (delta_voter_count m d m' Hwf Hd) as Hc.
  destruct (apply_delta_step m Hwf d m' Hd) as (Hwf' & Hs & _).
  pose proof (size_voters m Hwf). pose proof (size_voters m' Hwf').
  inversion Hs; subst; simpl in *;
    [exists (voters m')|exists (voters m)|exists (voters m')|exists (voters m')];
    (split_and!; [set_solver|set_solver|lia]).
Qed.

(** ** Properties *)

(** C8. [apply_delta] refines the abstract transition on (voters, learners):
    on success the successor is well formed, its sets are the delta's
    transition of the old ones, its epoch is bumped and its [config_id] chains
    from the predecessor's; on failure the error is the one the delta's guard
    names, and no other. *)
Theorem apply_delta_refines m d :
  wf m ->
  match apply_delta m d with
  | Ok m' =>
      wf m' /\ conf_step (voters m, learners m) d (voters m', learners m') /\
      m_epoch m' = Counter.epoch_next (m_epoch m) /\
      m_config_id m' =
        compute_config_id (m_epoch m') (m_replica_count m') (m_learner_count m')
          (m_members m') (m_config_id m)
  | Err e => delta_error (voters m) (learners m) d e
  end.
Proof.
  intros Hwf. destruct (apply_delta m d) as [m'|e] eqn:E.
  - by apply apply_delta_step.
  - by apply apply_delta_error.
Qed.

Definition sample : Membership :=
  mkMembership 7 3 2 [10; 11; 12; 13; 14] 99.

Lemma sample_wf : wf sample.
Proof. unfold wf, structure_ok. simpl. split_and!; [lia..|]. compute_done. Defined.

Lemma apply_delta_refines_witness :
  exists m', apply_delta sample (PromoteLearner 14) = Ok m' /\ wf m' /\
    conf_step (voters sample, learners sample) (PromoteLearner 14) (voters m', learners m').
Proof.
  pose proof (apply_delta_refines sample (PromoteLearner 14) sample_wf) as H.
  destruct (apply_delta sample (PromoteLearner 14)) as [m'|e] eqn:E.
  - exists m'. destruct H as (? & ? & _). auto.
  - exfalso. vm_compute in E. discriminate.
Defined.

(** Within one configuration every replication quorum meets every
    view-change quorum (and every nack quorum), so a new primary's quorum
    contains a replica that acknowledged any given committed op. *)
Theorem quorums_intersect m (Q1 Q2 : gset Z) :
  wf m -> Q1 ⊆ voters m -> Q2 ⊆ voters m ->
  quorum m <= Z.of_nat (size Q1) ->
  Z.min (quorum_view_change m) (quorum_nack_prepare m) <= Z.of_nat (size Q2) ->
  Q1 ∩ Q2 <> ∅.
Proof.
  intros Hwf H1 H2 Hs1 Hs2.
  destruct (qs_meets (U := voters m) Q1 Q2) as (r & ? & ?); [done..| |set_solver].
  unfold quorum_nack_prepare, quorum_view_change in *. lia.
Qed.

Lemma quorums_intersect_witness :
  ({[10; 11]} ∩ {[11; 12]} : gset Z) <> ∅.
Proof.
  apply (quorums_intersect sample); [exact sample_wf|compute_done..].
Defined.

(** Adjacent configurations: a commit quorum of a configuration and one of
    its successor always meet.  A commit quorum of the predecessor meets every
    view-change quorum of the successor when the voter set keeps its size or
    the predecessor's voter count is even. *)
Theorem adjacent_quorums_intersect m d m' (Q Q' : gset Z) :
  wf m -> apply_delta m d = Ok m' -> Q ⊆ voters m -> Q' ⊆ voters m' ->
  quorum m <= Z.of_nat (size Q) ->
  quorum m' <= Z.of_nat (size Q') \/
  quorum_view_change m' <= Z.of_nat (size Q') /\
    (m_replica_count m' = m_replica_count m \/ Z.even (m_replica_count m) = true) ->
  Q ∩ Q' <> ∅.
Proof.
  intros Hwf Hd HQ HQ' Hs Hs'.
  destruct (delta_voters_near m d m' Hwf Hd) as (U & HU & HU' & HsU).
  pose proof (delta_voter_count m d m' Hwf Hd) as Hc.
  apply (pigeonhole U); [set_solver..|].
  unfold quorum_view_change, quorum in *. rewrite Zeven_mod in Hs'.
  rewrite <-(Zeq_is_eq_bool) in Hs'. destruct d; lia_div.
Qed.

Lemma adjacent_quorums_intersect_witness :
  ({[10; 11]} ∩ {[11; 14; 12]} : gset Z) <> ∅.
Proof.
  destruct (apply_delta sample (PromoteLearner 14)) as [m'|e] eqn:E;
    [|exfalso; vm_compute in E; discriminate].
  assert (voters m' = {[10; 11; 12; 14]} /\ quorum m' = 3) as [EV EQ].
  { vm_compute in E. simplify_eq. split; [|done]. apply set_eq. intros x. vm_compute voters.
    set_solver. }
  apply (adjacent_quorums_intersect sample (PromoteLearner 14) m');
    [exact sample_wf|exact E|compute_done|rewrite EV; set_solver|compute_done|].
  left. rewrite EQ. compute_done.
Defined.

(** The converse of [adjacent_quorums_intersect]: from an odd voter count, promoting or demoting a
    voter always leaves some commit quorum of the predecessor disjoint from
    some view-change quorum of the successor.  This is what the promote-time
    proof and the successor-quorum commit condition are for. *)
Theorem odd_step_quorums_can_miss m d m' :
  wf m -> apply_delta m d = Ok m' -> Z.odd (m_replica_count m) = true ->
  is_promote_learner d || is_demote_voter d = true ->
  exists Q Q' : gset Z, Q ⊆ voters m /\ Q' ⊆ voters m' /\
    quorum m <= Z.of_nat (size Q) /\
    quorum_view_change m' <= Z.of_nat (size Q') /\ Q ∩ Q' = ∅.
Proof.
  intros Hwf Hd Hodd Hkind. pose proof (delta_voter_count m d m' Hwf Hd) as Hc.
  pose proof (quorum_bounds m Hwf) as Hq. pose proof (size_voters m Hwf) as HsV.
  pose proof (voters_learners_disjoint m Hwf) as Hdisj.
  destruct (apply_delta_step m Hwf d m' Hd) as (Hwf' & Hs & _).
  pose proof (size_voters m' Hwf') as HsV'.
  rewrite Zodd_mod in Hodd. apply Zeq_is_eq_bool in Hodd.
  inversion Hs as [V L x Hx|V L x Hx Hsz| |]; subst; simpl in *; try done.
  - destruct (subset_of_size (voters m) (Z.to_nat (quorum m))) as (Q & HQ & HsQ); [lia|].
    exists Q, (voters m' ∖ Q). split_and!; [set_solver..|lia| |set_solver].
    rewrite size_difference by set_solver. unfold quorum_view_change, quorum in *. lia_div.
  - destruct (subset_of_size (voters m') (Z.to_nat (quorum m - 1))) as (Q & HQ & HsQ).
    { unfold quorum in *. lia_div. }
    exists ({[x]} ∪ Q), (voters m' ∖ Q). split_and!; [set_solver..| | |set_solver].
    + rewrite size_union, size_singleton by set_solver. lia.
    + rewrite size_difference by set_solver. unfold quorum_view_change, quorum in *. lia_div.
Qed.

Lemma odd_step_quorums_can_miss_witness :
  exists (m' : Membership) (Q Q' : gset Z), apply_delta sample (DemoteVoter 12) = Ok m' /\
    Q ⊆ voters sample /\ Q' ⊆ voters m' /\ Q ∩ Q' = ∅.
Proof.
  destruct (apply_delta sample (DemoteVoter 12)) as [m'|e] eqn:E;
    [|exfalso; vm_compute in E; discriminate].
  destruct (odd_step_quorums_can_miss sample (DemoteVoter 12) m') as (Q & Q' & H);
    [exact sample_wf|exact E|reflexivity..|].
  exists m', Q, Q'. intuition.
Defined.

(** No delta ever seats a voter that was not already a member of the
    predecessor, so the voter-admission screen [first_new_voter] accepts every
    successor [apply_delta] produces. *)
Theorem delta_admits_no_new_voter m d m' :
  wf m -> apply_delta m d = Ok m' ->
  first_new_voter m (m_replica_count m') (m_members m') = None.
Proof.
  intros Hwf Hd. destruct (apply_delta_step m Hwf d m' Hd) as (Hwf' & Hs & _).
  unfold first_new_voter. rewrite fmap_None, list_find_None, Forall_forall.
  fold (voters_list m'). intros x Hx%elem_voters_list.
  cut (contains m x = true); [congruence|]. apply contains_spec; [done|].
  inversion Hs; set_solver.
Qed.

Lemma delta_admits_no_new_voter_witness :
  exists m', apply_delta sample (PromoteLearner 13) = Ok m' /\
    first_new_voter sample (m_replica_count m') (m_members m') = None.
Proof.
  destruct (apply_delta sample (PromoteLearner 13)) as [m'|e] eqn:E;
    [|exfalso; vm_compute in E; discriminate].
  exists m'. split; [done|].
  exact (delta_admits_no_new_voter sample (PromoteLearner 13) m' sample_wf E).
Defined.

(** Leader rotation is fair: in any window of [replica_count] consecutive
    views every voting slot is the primary of exactly one view, and no other
    slot ever is. *)
Theorem primary_rotation m v slot :
  wf m -> 0 <= slot ->
  if is_voter m slot
  then exists! k, 0 <= k < m_replica_count m /\ is_primary_slot m slot (v + k) = true
  else forall k, is_primary_slot m slot (v + k) = false.
Proof.
  intros Hwf Hslot. unfold is_primary_slot, is_voter.
  destruct (Z.ltb_spec slot (m_replica_count m)) as [Hlt|Hge].
  - exists ((slot - v) mod m_replica_count m). split.
    + split; [apply Z.mod_pos_bound; lia|]. rewrite primary_mod by done. apply Z.eqb_eq.
      rewrite Z.add_mod_idemp_r by lia. replace (v + (slot - v)) with slot by lia.
      apply Z.mod_small. lia.
    + intros k [Hk Hp%Z.eqb_eq]. rewrite primary_mod in Hp by done. subst slot.
      rewrite Zminus_mod_idemp_l. replace (v + k - v) with k by lia.
      by apply Z.mod_small.
  - intros k. apply Z.eqb_neq. pose proof (primary_small m Hwf (v + k)). lia.
Qed.

Lemma primary_rotation_witness :
  exists! k, 0 <= k < 3 /\ is_primary_slot sample 1 (100 + k) = true.
Proof. exact (primary_rotation sample 100 1 sample_wf ltac:(lia)). Defined.

(** A delta lowers the crash tolerance exactly when it demotes a voter from
    an odd voter count, and raises it exactly when it promotes one from an even
    count. *)
Theorem delta_fault_tolerance m d m' :
  wf m -> apply_delta m d = Ok m' ->
  (fault_tolerance m' < fault_tolerance m <->
     is_demote_voter d = true /\ Z.odd (m_replica_count m) = true) /\
  (fault_tolerance m < fault_tolerance m' <->
     is_promote_learner d = true /\ Z.even (m_replica_count m) = true).
Proof.
  intros Hwf Hd. pose proof (delta_voter_count m d m' Hwf Hd) as Hc.
  rewrite !fault_tolerance_half, Hc, Zodd_mod, Zeven_mod, <-!Zeq_is_eq_bool.
  destruct d; simpl; split; split; try (intros [? ?]); try (intros ?); try split; try done; lia_div.
Qed.

Lemma delta_fault_tolerance_witness :
  exists m', apply_delta sample (DemoteVoter 10) = Ok m' /\ fault_tolerance m' < fault_tolerance sample.
Proof.
  destruct (apply_delta sample (DemoteVoter 10)) as [m'|e] eqn:E;
    [|exfalso; vm_compute in E; discriminate].
  exists m'. split; [done|].
  apply (delta_fault_tolerance sample (DemoteVoter 10) m' sample_wf E). done.
Defined.

(** Slots and members are inverse: a member resolves to a slot exactly when
    that slot holds it, and every slot below [node_count] is held by a member
    that resolves back to it. *)
Theorem slot_member_roundtrip m who slot :
  wf m -> 0 <= slot ->
  (slot_of m who = Some slot <-> member_at m slot = Some who) /\
  (slot < node_count m <-> exists w, member_at m slot = Some w /\ slot_of m w = Some slot).
Proof.
  intros Hwf Hs. unfold member_at.
  assert (forall w, slot_of m w = Some slot <-> m_members m !! Z.to_nat slot = Some w) as Hw.
  { intros w. rewrite (slot_of_Some m Hwf). tauto. }
  split; [apply Hw|]. rewrite (node_count_wf m Hwf).
  assert (slot < m_replica_count m + m_learner_count m <->
          is_Some (m_members m !! Z.to_nat slot)) as ->.
  { rewrite lookup_lt_is_Some. destruct Hwf as (?&?&?&?&?). lia. }
  split; [intros [w H]; exists w; by rewrite Hw|intros (w & H & _); eauto].
Qed.

Lemma slot_member_roundtrip_witness :
  slot_of sample 13 = Some 3 /\ (exists w, member_at sample 4 = Some w /\ slot_of sample w = Some 4).
Proof.
  split.
  - apply (slot_member_roundtrip sample 13 3 sample_wf ltac:(lia)). reflexivity.
  - apply (slot_member_roundtrip sample 13 4 sample_wf ltac:(lia)). reflexivity.
Defined.
