(* ===== verification/Planner.v ===== *)
(** * The reconfiguration planner

    [viewstamp-proto/src/reconfigure_plan/mod.rs]: lowering a target (voters,
    learners) pair to a sequence of single-voter deltas.  A [BTreeSet] is a
    finite set whose iteration is its ascending enumeration ([btree_iter]).

    The plan is shown to be memoryless at the level of sets ([plan_step]); that
    one-step lemma carries the correctness, cap, crash-tolerance and
    termination theorems by induction on the plan. *)

From S2P Require Import Prelude Core Hash Membership.

(** [BTreeSet::iter]: ascending order. *)
Definition btree_iter (s : gset Z) : list Z := merge_sort Z.le (elements s).

Record MembershipTarget : Type := mkTarget {
  t_voters : gset Z;
  t_learners : gset Z;
}.

Definition is_well_formed (t : MembershipTarget) : bool :=
  bool_decide (t_voters t ## t_learners t).

Definition target_members (t : MembershipTarget) : gset Z := t_voters t ∪ t_learners t.

(** [MemberConcurrentlyRemoved] is built only by the executor. *)
Inductive PlanError : Type :=
| EmptyVoterSet
| TooManyVoters (count : Z)
| IntermediatePeakExceedsCap (peak : Z)
| IntermediateNodePeakExceedsCap (peak : Z)
| RemovesLastVoter
| VoterLearnerOverlap
| MemberConcurrentlyRemoved (members : gset Z).

Definition MAX_VOTERS : Z := 64.

Definition voter_learner_sets (m : Membership) : gset Z * gset Z :=
  let voters := Z.to_nat (m_replica_count m) in
  (list_to_set (take voters (m_members m)), list_to_set (drop voters (m_members m))).

(** P0: prune the learners the target keeps in neither role. *)
Definition phase_prune (lc vt lt : gset Z) : list SingleVoterDelta :=
  RemoveLearner <$> filter (fun x => x ∉ lt /\ x ∉ vt) (btree_iter lc).

(** P1: stage every future voter as a learner. *)
Definition phase_stage (vc lc vt : gset Z) : list SingleVoterDelta :=
  AddLearner <$> filter (fun x => x ∉ vc /\ x ∉ lc) (btree_iter vt).

(** A demotion, with the removal of a demotee the target does not keep. *)
Definition demote_then_gc (lt : gset Z) (x : Z) : list SingleVoterDelta :=
  DemoteVoter x :: (if decide (x ∈ lt) then [] else [RemoveLearner x]).

(** P2: the parity core, the [while] loop over the remaining promotions and
    demotions with the running voter count [n]. *)
Fixpoint parity_core (lt : gset Z) (promotes : list Z) : Z -> list Z -> list SingleVoterDelta :=
  fix go n demotes :=
    match promotes, demotes with
    | [], [] => []
    | p :: promotes', [] => PromoteLearner p :: parity_core lt promotes' (n + 1) []
    | [], x :: demotes' => demote_then_gc lt x ++ go (n - 1) demotes'
    | p :: promotes', x :: demotes' =>
        if n mod 2 =? 1
        then PromoteLearner p :: parity_core lt promotes' (n + 1) demotes
        else demote_then_gc lt x ++ go (n - 1) demotes'
    end.

(** P3: add the target learners that are not seated yet. *)
Definition phase_residual (vc lc lt : gset Z) : list SingleVoterDelta :=
  AddLearner <$> filter (fun x => x ∉ lc /\ x ∉ vc) (btree_iter lt).

Definition build_plan (vc lc vt lt : gset Z) : list SingleVoterDelta :=
  phase_prune lc vt lt ++ phase_stage vc lc vt
  ++ parity_core lt (btree_iter (vt ∖ vc)) (Z.of_nat (size vc)) (btree_iter (vc ∖ vt))
  ++ phase_residual vc lc lt.

(** The validating fold of [apply_delta], with the running maxima. *)
Fixpoint simulate (sim : Membership) (max_voters max_nodes : Z)
    (plan : list SingleVoterDelta) : result PlanError (Z * Z) :=
  match plan with
  | [] => Ok (max_voters, max_nodes)
  | d :: rest =>
      match apply_delta sim d with
      | Ok next =>
          simulate next (Z.max max_voters (m_replica_count next))
            (Z.max max_nodes (node_count next)) rest
      | Err WouldRemoveLastVoter => Err RemovesLastVoter
      | Err (TooManyReplicas count) => Err (IntermediatePeakExceedsCap count)
      | Err (TooManyNodes count) => Err (IntermediateNodePeakExceedsCap count)
      | Err _ => Err RemovesLastVoter
      end
  end.

Definition plan_reconfiguration (current : Membership) (target : MembershipTarget)
    : result PlanError (list SingleVoterDelta) :=
  let '(vc, lc) := voter_learner_sets current in
  let vt := t_voters target in
  let lt := t_learners target in
  if negb (bool_decide (vt ## lt)) then Err VoterLearnerOverlap
  else if bool_decide (vt = ∅) then Err EmptyVoterSet
  else if MAX_VOTERS <? Z.of_nat (size vt) then Err (TooManyVoters (Z.of_nat (size vt)))
  else
    let plan := build_plan vc lc vt lt in
    let? (max_voters, max_nodes) :=
      simulate current (m_replica_count current) (node_count current) plan in
    if MAX_VOTERS <? max_voters then Err (IntermediatePeakExceedsCap max_voters)
    else if umax 16 <? max_nodes then Err (IntermediateNodePeakExceedsCap max_nodes)
    else Ok plan.

Definition plan_next_step (current : Membership) (target : MembershipTarget)
    : result PlanError (option SingleVoterDelta) :=
  let? plan := plan_reconfiguration current target in Ok (head plan).

Definition shrink_candidates (current : Membership) (target : MembershipTarget)
    : result PlanError (list SingleVoterDelta) :=
  let? plan := plan_reconfiguration current target in
  match list_find (fun d => is_demote_voter d = true) plan with
  | None => Ok []
  | Some (first_demote, _) =>
      if existsb (fun d => is_add_learner d || is_promote_learner d) (take first_demote plan)
      then Ok []
      else Ok (filter (fun d => is_demote_voter d = true) plan)
  end.

(** ** Ascending enumerations *)

#[export] Instance Zle_total : Total Z.le.
Proof. intros x y. lia. Qed.

Lemma elem_btree_iter s x : x ∈ btree_iter s <-> x ∈ s.
Proof. unfold btree_iter. rewrite merge_sort_Permutation. apply elem_of_elements. Qed.

Lemma NoDup_btree_iter s : NoDup (btree_iter s).
Proof. unfold btree_iter. rewrite merge_sort_Permutation. apply NoDup_elements. Qed.

Lemma Sorted_btree_iter s : StronglySorted Z.le (btree_iter s).
Proof. apply (StronglySorted_merge_sort Z.le). Qed.

(** An ascending duplicate-free list is the enumeration of its elements. *)
Lemma btree_iter_unique l s :
  StronglySorted Z.le l -> NoDup l -> (forall x, x ∈ l <-> x ∈ s) -> btree_iter s = l.
Proof.
  intros Hs Hnd Hl. apply (StronglySorted_unique Z.le);
    [apply Sorted_btree_iter|done|].
  apply NoDup_Permutation; [apply NoDup_btree_iter|done|].
  intros x. rewrite elem_btree_iter. symmetry. apply Hl.
Qed.

Lemma StronglySorted_filter {A} (R : relation A) (P : A -> Prop) `{forall x, Decision (P x)} l :
  StronglySorted R l -> StronglySorted R (filter P l).
Proof.
  induction 1 as [|x l Hs IH Hf]; [constructor|].
  destruct (decide (P x)); [rewrite filter_cons_True by done|by rewrite filter_cons_False].
  constructor; [done|]. rewrite Forall_forall in *. intros y [_ Hy]%list_elem_of_filter. auto.
Qed.

Lemma filter_btree_iter (P : Z -> Prop) `{forall x, Decision (P x)} s t :
  (forall x, x ∈ t <-> x ∈ s /\ P x) -> filter P (btree_iter s) = btree_iter t.
Proof.
  intros Ht. symmetry. apply btree_iter_unique.
  - apply StronglySorted_filter, Sorted_btree_iter.
  - apply NoDup_filter, NoDup_btree_iter.
  - intros x. rewrite list_elem_of_filter, elem_btree_iter, Ht. tauto.
Qed.

Lemma btree_iter_cons s x l :
  btree_iter s = x :: l -> x ∈ s /\ btree_iter (s ∖ {[x]}) = l.
Proof.
  intros E. pose proof (Sorted_btree_iter s) as Hs. pose proof (NoDup_btree_iter s) as Hnd.
  rewrite E in Hs, Hnd. apply StronglySorted_inv in Hs as [Hs _].
  apply NoDup_cons in Hnd as [Hx Hnd]. split; [apply elem_btree_iter; rewrite E; set_solver|].
  apply btree_iter_unique; [done..|]. intros y.
  rewrite elem_of_difference, elem_of_singleton, <-elem_btree_iter, E, elem_of_cons.
  split; [intros Hy; split; [by right|by intros ->]|tauto].
Qed.

Lemma btree_iter_nil s : btree_iter s = [] <-> s = ∅.
Proof.
  split; [|intros ->; done].
  intros E. apply set_eq. intros x. rewrite <-elem_btree_iter, E. set_solver.
Qed.

(** ** The plan at the level of sets *)

Section plan.
Context (vt lt : gset Z) (Hdisj : vt ## lt) (Hvt : vt <> ∅).

(** The sets the phases enumerate. *)
Lemma phase_prune_iter lc :
  phase_prune lc vt lt = RemoveLearner <$> btree_iter (lc ∖ (lt ∪ vt)).
Proof. unfold phase_prune. f_equal. apply filter_btree_iter. set_solver. Qed.

Lemma phase_stage_iter vc lc :
  phase_stage vc lc vt = AddLearner <$> btree_iter (vt ∖ (vc ∪ lc)).
Proof. unfold phase_stage. f_equal. apply filter_btree_iter. set_solver. Qed.

Lemma phase_residual_iter vc lc :
  phase_residual vc lc lt = AddLearner <$> btree_iter (lt ∖ (vc ∪ lc)).
Proof. unfold phase_residual. f_equal. apply filter_btree_iter. set_solver. Qed.

Definition core_of (vc : gset Z) : list SingleVoterDelta :=
  parity_core lt (btree_iter (vt ∖ vc)) (Z.of_nat (size vc)) (btree_iter (vc ∖ vt)).

Lemma build_plan_iter vc lc :
  build_plan vc lc vt lt =
  (RemoveLearner <$> btree_iter (lc ∖ (lt ∪ vt)))
  ++ (AddLearner <$> btree_iter (vt ∖ (vc ∪ lc)))
  ++ core_of vc ++ (AddLearner <$> btree_iter (lt ∖ (vc ∪ lc))).
Proof.
  unfold build_plan. by rewrite phase_prune_iter, phase_stage_iter, phase_residual_iter.
Qed.

Lemma parity_core_unfold promotes n demotes :
  parity_core lt promotes n demotes =
  match promotes, demotes with
  | [], [] => []
  | p :: promotes', [] => PromoteLearner p :: parity_core lt promotes' (n + 1) []
  | [], x :: demotes' => demote_then_gc lt x ++ parity_core lt [] (n - 1) demotes'
  | p :: promotes', x :: demotes' =>
      if n mod 2 =? 1
      then PromoteLearner p :: parity_core lt promotes' (n + 1) demotes
      else demote_then_gc lt x ++ parity_core lt promotes (n - 1) demotes'
  end.
Proof. by destruct promotes, demotes. Qed.

Lemma size_pos (s : gset Z) : s <> ∅ -> (0 < size s)%nat.
Proof. intros H. destruct (size s) eqn:E; [|lia]. by apply size_empty_inv, leibniz_equiv in E. Qed.

Lemma diff_empty_sub (a b : gset Z) : a ∖ b = ∅ -> a ⊆ b.
Proof. intros H z Hz. destruct (decide (z ∈ b)); set_solver. Qed.

(** With no promotion left, the last voter is never demoted: the target's voters
    are a non-empty subset of what would remain. *)
Lemma demote_not_last vc x : x ∈ vc ∖ vt -> vt ∖ vc = ∅ -> (1 < size vc)%nat.
Proof.
  intros [Hx Hxt]%elem_of_difference Hsub. destruct (set_choose_L vt Hvt) as [z Hz].
  assert (z ∈ vc) as Hzc by (destruct (decide (z ∈ vc)); set_solver).
  assert (x <> z) as Hne by congruence.
  assert (size ({[x; z]} : gset Z) <= size vc)%nat as Hs by (apply subseteq_size; set_solver).
  rewrite size_union, !size_singleton in Hs by set_solver. lia.
Qed.

(** The move the parity core makes first: it is a promotion, or a demotion of a
    set that is not a singleton, and what it leaves is the core of the new
    voter set. *)
Lemma core_step vc :
  vc <> ∅ ->
  (vc = vt /\ core_of vc = []) \/
  (exists p, p ∈ vt ∖ vc /\ core_of vc = PromoteLearner p :: core_of (vc ∪ {[p]}) /\
     (vc ⊆ vt \/ Z.of_nat (size vc) mod 2 = 1)) \/
  (exists x, x ∈ vc ∖ vt /\ core_of vc = demote_then_gc lt x ++ core_of (vc ∖ {[x]}) /\
     (1 < size vc)%nat /\ (vt ⊆ vc \/ Z.of_nat (size vc) mod 2 = 0)).
Proof.
  intros Hvc. unfold core_of. rewrite parity_core_unfold.
  assert (Hpro : forall p, p ∈ vt ∖ vc ->
    vc ∖ vt = (vc ∪ {[p]}) ∖ vt /\ vt ∖ vc ∖ {[p]} = vt ∖ (vc ∪ {[p]}) /\
    Z.of_nat (size vc) + 1 = Z.of_nat (size (vc ∪ {[p]}))).
  { intros p Hp. split_and!; [set_solver..|]. rewrite size_union, size_singleton by set_solver. lia. }
  assert (Hdem : forall x, x ∈ vc ∖ vt ->
    vt ∖ vc = vt ∖ (vc ∖ {[x]}) /\ vc ∖ vt ∖ {[x]} = vc ∖ {[x]} ∖ vt /\
    Z.of_nat (size vc) - 1 = Z.of_nat (size (vc ∖ {[x]}))).
  { intros x Hx. split_and!; [set_solver..|]. pose proof (size_pos vc Hvc).
    rewrite size_difference, size_singleton by set_solver. lia. }
  destruct (btree_iter (vt ∖ vc)) as [|p ps] eqn:EP;
    destruct (btree_iter (vc ∖ vt)) as [|x ds] eqn:ED.
  - left. clear Hpro Hdem. apply btree_iter_nil in EP, ED. split; [|done]. apply diff_empty_sub in EP, ED. set_solver.
  - right; right. apply btree_iter_nil in EP. apply btree_iter_cons in ED as [Hx ED].
    destruct (Hdem x Hx) as (E1 & E2 & ->). exists x. rewrite <-E2, ED, <-E1, EP.
    change (btree_iter ∅) with (@nil Z). split_and!; [done..| |left; by apply diff_empty_sub].
    by apply (demote_not_last vc x).
  - right; left. apply btree_iter_nil in ED. apply btree_iter_cons in EP as [Hp EP].
    destruct (Hpro p Hp) as (E1 & E2 & ->). exists p. rewrite <-E2, EP, <-E1, ED.
    split_and!; [done..|left; by apply diff_empty_sub].
  - destruct (Z.eqb_spec (Z.of_nat (size vc) mod 2) 1) as [Hodd|Hev].
    + right; left. apply btree_iter_cons in EP as [Hp EP].
      destruct (Hpro p Hp) as (E1 & E2 & ->). exists p. rewrite <-E2, EP, <-E1, ED. auto.
    + right; right. pose proof (size_pos vc Hvc).
      assert (1 < size vc)%nat.
      { destruct (decide (size vc = 1%nat)) as [Es|]; [|lia]. by rewrite Es in Hev. }
      apply btree_iter_cons in ED as [Hx ED].
      destruct (Hdem x Hx) as (E1 & E2 & ->). exists x. rewrite <-E2, ED, <-E1, EP.
      split_and!; [done..|]. right. lia_div.
Qed.

(** The five kinds of step a plan makes, with what its position guarantees. *)
Inductive plan_move (vc lc : gset Z) : SingleVoterDelta -> gset Z -> gset Z -> Prop :=
| move_prune x :
    x ∈ lc ∖ (lt ∪ vt) -> plan_move vc lc (RemoveLearner x) vc (lc ∖ {[x]})
| move_stage x :
    lc ⊆ lt ∪ vt -> x ∈ vt ∖ (vc ∪ lc) -> plan_move vc lc (AddLearner x) vc (lc ∪ {[x]})
| move_promote p :
    p ∈ vt ∖ vc -> p ∈ lc -> vc ⊆ vt \/ Z.of_nat (size vc) mod 2 = 1 ->
    plan_move vc lc (PromoteLearner p) (vc ∪ {[p]}) (lc ∖ {[p]})
| move_demote x :
    x ∈ vc ∖ vt -> (1 < size vc)%nat -> vt ⊆ vc \/ Z.of_nat (size vc) mod 2 = 0 ->
    plan_move vc lc (DemoteVoter x) (vc ∖ {[x]}) (lc ∪ {[x]})
| move_residual x :
    vc = vt -> lc ⊆ lt -> x ∈ lt ∖ (vc ∪ lc) -> plan_move vc lc (AddLearner x) vc (lc ∪ {[x]}).

Lemma btree_iter_ext a b : (forall x, x ∈ a <-> x ∈ b) -> btree_iter a = btree_iter b.
Proof. intros H. f_equal. by apply set_eq. Qed.

(** What the plan is after each kind of move, by comparing the four
    enumerated sets before and after. *)
Lemma plan_after_promote vc lc p :
  lc ⊆ lt ∪ vt -> vt ⊆ vc ∪ lc -> p ∈ vt ∖ vc ->
  build_plan (vc ∪ {[p]}) (lc ∖ {[p]}) vt lt =
  core_of (vc ∪ {[p]}) ++ (AddLearner <$> btree_iter (lt ∖ (vc ∪ lc))).
Proof.
  intros Hl Hv Hp. rewrite build_plan_iter.
  rewrite (proj2 (btree_iter_nil (lc ∖ {[p]} ∖ (lt ∪ vt)))) by set_solver.
  assert (vc ∪ {[p]} ∪ lc ∖ {[p]} = vc ∪ lc) as ->.
  { apply set_eq. intros z. destruct (decide (z = p)); set_solver. }
  by rewrite (proj2 (btree_iter_nil (vt ∖ (vc ∪ lc)))) by set_solver.
Qed.

Lemma plan_after_demote vc lc x :
  lc ⊆ lt ∪ vt -> vt ⊆ vc ∪ lc -> x ∈ vc ∖ vt ->
  build_plan (vc ∖ {[x]}) (lc ∪ {[x]}) vt lt =
  (if decide (x ∈ lt) then [] else [RemoveLearner x]) ++
  core_of (vc ∖ {[x]}) ++ (AddLearner <$> btree_iter (lt ∖ (vc ∪ lc))).
Proof.
  intros Hl Hv Hx. rewrite build_plan_iter.
  assert (vc ∖ {[x]} ∪ (lc ∪ {[x]}) = vc ∪ lc) as ->.
  { apply set_eq. intros z. destruct (decide (z = x)); set_solver. }
  rewrite (proj2 (btree_iter_nil (vt ∖ (vc ∪ lc)))) by set_solver.
  case_decide.
  - by rewrite (proj2 (btree_iter_nil ((lc ∪ {[x]}) ∖ (lt ∪ vt)))) by set_solver.
  - assert ((lc ∪ {[x]}) ∖ (lt ∪ vt) = {[x]}) as ->; [set_solver|].
    unfold btree_iter. by rewrite elements_singleton.
Qed.

Lemma plan_step vc lc :
  vc <> ∅ -> vc ## lc ->
  (build_plan vc lc vt lt = [] /\ vc = vt /\ lc = lt) \/
  exists d vc' lc', build_plan vc lc vt lt = d :: build_plan vc' lc' vt lt /\
    plan_move vc lc d vc' lc'.
Proof.
  intros Hvc Hd. rewrite build_plan_iter.
  destruct (btree_iter (lc ∖ (lt ∪ vt))) as [|x l] eqn:E0.
  2: { right. apply btree_iter_cons in E0 as [Hx E0]. eexists _, _, _.
       split; [|by apply move_prune]. simpl. f_equal. rewrite build_plan_iter.
       assert (lc ∖ {[x]} ∖ (lt ∪ vt) = lc ∖ (lt ∪ vt) ∖ {[x]}) as -> by set_solver.
       assert (vt ∖ (vc ∪ lc ∖ {[x]}) = vt ∖ (vc ∪ lc)) as -> by set_solver.
       assert (lt ∖ (vc ∪ lc ∖ {[x]}) = lt ∖ (vc ∪ lc)) as -> by set_solver.
       by rewrite E0. }
  apply btree_iter_nil, diff_empty_sub in E0.
  destruct (btree_iter (vt ∖ (vc ∪ lc))) as [|x l] eqn:E1.
  2: { right. apply btree_iter_cons in E1 as [Hx E1]. eexists _, _, _.
       split; [|by apply move_stage]. simpl. f_equal. rewrite build_plan_iter.
       rewrite (proj2 (btree_iter_nil ((lc ∪ {[x]}) ∖ (lt ∪ vt)))) by set_solver.
       assert (vt ∖ (vc ∪ (lc ∪ {[x]})) = vt ∖ (vc ∪ lc) ∖ {[x]}) as -> by set_solver.
       assert (lt ∖ (vc ∪ (lc ∪ {[x]})) = lt ∖ (vc ∪ lc)) as -> by set_solver.
       by rewrite E1. }
  apply btree_iter_nil, diff_empty_sub in E1. simpl.
  destruct (core_step vc Hvc) as [[-> ->]|[(p & Hp & -> & Hpar)|(x & Hx & -> & Hs & Hpar)]].
  - simpl. destruct (btree_iter (lt ∖ (vt ∪ lc))) as [|x l] eqn:E3.
    + left. apply btree_iter_nil, diff_empty_sub in E3. split_and!; [done..|]. set_solver.
    + right. apply btree_iter_cons in E3 as [Hx E3]. eexists _, _, _.
      split; [|apply move_residual; [done|set_solver|done]]. simpl. f_equal.
      rewrite build_plan_iter.
      rewrite (proj2 (btree_iter_nil ((lc ∪ {[x]}) ∖ (lt ∪ vt)))) by set_solver.
      rewrite (proj2 (btree_iter_nil (vt ∖ (vt ∪ (lc ∪ {[x]}))))) by set_solver.
      destruct (core_step vt Hvt) as [[_ ->]|[(?&?&_)|(?&?&_)]]; [|set_solver..].
      assert (lt ∖ (vt ∪ (lc ∪ {[x]})) = lt ∖ (vt ∪ lc) ∖ {[x]}) as -> by set_solver.
      by rewrite E3.
  - right. eexists _, _, _. split; [|apply move_promote; [done|set_solver|done]].
    by rewrite plan_after_promote.
  - right. eexists _, _, _. split; [|by apply move_demote].
    rewrite plan_after_demote by done. unfold demote_then_gc. by case_decide.
Qed.

(** ** What one move preserves *)

Definition half (n : nat) : Z := (Z.of_nat n - 1) / 2.

(** The node peak of the rest of the plan, as the three extremal sets. *)
Definition node_cap (C : Z) (vc lc : gset Z) : Prop :=
  Z.of_nat (size (vc ∪ lc)) <= C /\ Z.of_nat (size (vc ∪ vt ∪ (lc ∩ lt))) <= C /\
  Z.of_nat (size (vt ∪ lt)) <= C.

Lemma move_conf_step vc lc d vc' lc' :
  vc <> ∅ -> vc ## lc -> plan_move vc lc d vc' lc' ->
  conf_step (vc, lc) d (vc', lc') /\ vc' <> ∅ /\ vc' ## lc'.
Proof.
  intros Hvc Hd Hm. destruct Hm; (split; [constructor; set_solver|]); (split; [|set_solver]);
    [set_solver|set_solver|set_solver| |set_solver].
  intros Hem. assert (size (vc ∖ {[x]}) = 0%nat) as Hs by (rewrite Hem; apply size_empty).
  rewrite size_difference, size_singleton in Hs by set_solver. lia.
Qed.

Lemma move_voter_size vc lc d vc' lc' :
  vc ## lc -> plan_move vc lc d vc' lc' ->
  match d with
  | PromoteLearner _ => size vc' = S (size vc) /\ (vc' ⊆ vt \/ Z.of_nat (size vc) mod 2 = 1)
  | DemoteVoter _ => S (size vc') = size vc /\ (vt ⊆ vc' \/ Z.of_nat (size vc) mod 2 = 0)
  | _ => vc' = vc
  end.
Proof.
  intros Hd Hm. destruct Hm as [| |p Hp ? Hpar|x Hx Hs Hpar|]; [done|done| | |done].
  - rewrite size_union, size_singleton by set_solver. split; [lia|].
    destruct Hpar; [left; set_solver|by right].
  - rewrite size_difference, size_singleton by set_solver. split; [lia|].
    destruct Hpar; [left; set_solver|by right].
Qed.

Lemma move_tolerance vc lc d vc' lc' :
  vc ## lc -> plan_move vc lc d vc' lc' ->
  Z.min (half (size vc)) (half (size vt)) <= half (size vc').
Proof.
  intros Hd Hm%move_voter_size; [|done]. unfold half.
  destruct d; [destruct Hm as [E _]; rewrite E; lia_div| |rewrite Hm; lia..].
  destruct Hm as [E [Hsub%subseteq_size|Hpar]]; lia_div.
Qed.

Lemma move_voter_cap vc lc d vc' lc' :
  vc ## lc -> plan_move vc lc d vc' lc' ->
  (size vt <= 64 -> size vc <= 64 -> size vc' <= 64)%nat.
Proof.
  intros Hd Hm%move_voter_size; [|done]. intros Ht Hc.
  destruct d; [|destruct Hm as [E _]; lia|by rewrite Hm..].
  destruct Hm as [E [Hsub%subseteq_size|Hpar]]; lia_div.
Qed.

Lemma move_node_cap C vc lc d vc' lc' :
  plan_move vc lc d vc' lc' -> node_cap C vc lc -> node_cap C vc' lc'.
Proof.
  assert (Hsz : forall a b : gset Z, a ⊆ b -> Z.of_nat (size b) <= C -> Z.of_nat (size a) <= C).
  { intros a b ?%subseteq_size. lia. }
  intros Hm (H1 & H2 & H3).
  destruct Hm; (split_and!; [| |exact H3]).
  - eapply Hsz; [|exact H1]; set_solver.
  - eapply Hsz; [|exact H2]; set_solver.
  - eapply Hsz; [|exact H2]; set_solver.
  - eapply Hsz; [|exact H2]; set_solver.
  - eapply Hsz; [|exact H1]; set_solver.
  - eapply Hsz; [|exact H2]; set_solver.
  - eapply Hsz; [|exact H1]; set_solver.
  - eapply Hsz; [|exact H2]; set_solver.
  - eapply Hsz; [|exact H3]; set_solver.
  - eapply Hsz; [|exact H3]; set_solver.
Qed.

End plan.

(** ** Plans over configurations *)

(** Installing the deltas of a plan one after the other. *)
Fixpoint run (m : Membership) (plan : list SingleVoterDelta) : result MembershipError Membership :=
  match plan with
  | [] => Ok m
  | d :: rest => let? next := apply_delta m d in run next rest
  end.

Lemma voters_nonempty m : wf m -> voters m <> ∅.
Proof.
  intros Hwf E. pose proof (size_voters m Hwf) as Hs. rewrite E, size_empty in Hs.
  destruct Hwf as (?&?&?&?&?). lia.
Qed.

Lemma fault_tolerance_size m : wf m -> fault_tolerance m = half (size (voters m)).
Proof. intros Hwf. rewrite fault_tolerance_half. unfold half. by rewrite size_voters. Qed.

Section trajectory.
Context (vt lt : gset Z) (Hdisj : vt ## lt) (Hvt : vt <> ∅) (Hcap : (size vt <= 64)%nat).

Abbreviation plan_of m := (build_plan (voters m) (learners m) vt lt).
Abbreviation MAX_NODES := 65535.

(** A non-empty plan whose first delta applies leaves the plan of the
    configuration that delta installs. *)
Lemma plan_of_cons m :
  wf m ->
  (plan_of m = [] /\ voters m = vt /\ learners m = lt) \/
  exists d rest, plan_of m = d :: rest /\
    (forall m', apply_delta m d = Ok m' ->
       wf m' /\ rest = plan_of m' /\
       plan_move vt lt (voters m) (learners m) d (voters m') (learners m')) /\
    (forall e, apply_delta m d = Err e -> e = TooManyNodes 65536).
Proof.
  intros Hwf. pose proof (voters_nonempty m Hwf) as Hne.
  pose proof (voters_learners_disjoint m Hwf) as Hd.
  destruct (plan_step vt lt Hdisj Hvt (voters m) (learners m) Hne Hd)
    as [H|(d & vc' & lc' & E & Hm)]; [by left|right].
  destruct (move_conf_step vt lt Hdisj Hvt _ _ _ _ _ Hne Hd Hm) as (Hs & _ & _).
  exists d, (build_plan vc' lc' vt lt). split_and!; [done| |].
  - intros m' Hm'. destruct (apply_delta_step m Hwf d m' Hm') as (Hwf' & Hs' & _).
    assert (voters m' = vc' /\ learners m' = lc') as [-> ->]; [|auto].
    inversion Hs; inversion Hs'; by simplify_eq.
  - intros e He%apply_delta_error; [|done].
    assert (size (voters m) <= 64)%nat as Hv.
    { pose proof (size_voters m Hwf). destruct Hwf as (?&?&?&?&?). lia. }
    pose proof (move_voter_cap vt lt Hdisj Hvt _ _ _ _ _ Hd Hm Hcap Hv) as Hv'.
    inversion Hs; subst; inversion He; subst; try done; try set_solver; try lia.
    rewrite size_union, size_singleton in Hv' by set_solver. lia.
Qed.

Lemma move_enabled m d vc' lc' :
  wf m -> plan_move vt lt (voters m) (learners m) d vc' lc' ->
  node_cap vt lt MAX_NODES (voters m) (learners m) ->
  exists m', apply_delta m d = Ok m'.
Proof.
  intros Hwf Hm Hn. pose proof (voters_nonempty m Hwf) as Hne.
  pose proof (voters_learners_disjoint m Hwf) as Hd.
  destruct (move_conf_step vt lt Hdisj Hvt _ _ _ _ _ Hne Hd Hm) as (Hs & _ & Hd').
  destruct (move_node_cap vt lt Hdisj Hvt _ _ _ _ _ _ Hm Hn) as (Hsz & _).
  destruct (apply_delta_enabled m Hwf d vc' lc' Hs) as (m' & Hm' & _); [| |eauto].
  - apply (move_voter_cap vt lt Hdisj Hvt _ _ _ _ _ Hd Hm Hcap).
    pose proof (size_voters m Hwf). destruct Hwf as (?&?&?&?&?). lia.
  - rewrite size_union in Hsz by done. lia.
Qed.

(** The state after [k] steps of the plan: the rest of the plan is the plan of
    the configuration reached, and the crash tolerance has not dipped below the
    smaller of the two endpoints'. *)
Lemma run_prefix m k :
  wf m -> node_cap vt lt MAX_NODES (voters m) (learners m) -> (k <= length (plan_of m))%nat ->
  exists mk, run m (take k (plan_of m)) = Ok mk /\ wf mk /\ drop k (plan_of m) = plan_of mk /\
    Z.min (fault_tolerance m) (half (size vt)) <= fault_tolerance mk.
Proof.
  revert m. induction k as [|k IH]; intros m Hwf Hn Hk.
  { exists m. rewrite take_0, drop_0. split_and!; [done..|lia]. }
  destruct (plan_of_cons m Hwf) as [(E & _)|(d & rest & E & Hok & _)].
  { rewrite E in Hk. simpl in Hk. lia. }
  rewrite E in *. simpl in *.
  assert (exists m', apply_delta m d = Ok m') as [m' Hm'].
  { pose proof (voters_nonempty m Hwf) as Hne.
    pose proof (voters_learners_disjoint m Hwf) as Hd.
    destruct (plan_step vt lt Hdisj Hvt (voters m) (learners m) Hne Hd)
      as [(E' & _)|(d' & vc' & lc' & E' & Hm)]; rewrite E in E'; simplify_eq.
    by eapply move_enabled. }
  destruct (Hok m' Hm') as (Hwf' & -> & Hm). rewrite Hm'.
  destruct (IH m' Hwf') as (mk & Hrun & Hwfk & Hdrop & Hf); [|lia|].
  { by eapply move_node_cap. }
  exists mk. split_and!; [done..|].
  pose proof (move_tolerance vt lt Hdisj Hvt _ _ _ _ _ (voters_learners_disjoint m Hwf) Hm).
  rewrite (fault_tolerance_size m), (fault_tolerance_size m') in * by done. lia.
Qed.

Lemma run_reaches m :
  wf m -> node_cap vt lt MAX_NODES (voters m) (learners m) ->
  exists m', run m (plan_of m) = Ok m' /\ wf m' /\ voters m' = vt /\ learners m' = lt.
Proof.
  intros Hwf Hn. destruct (run_prefix m (length (plan_of m)) Hwf Hn) as (m' & Hr & Hwf' & Hd & _).
  { lia. }
  rewrite firstn_all in Hr. rewrite drop_all in Hd.
  exists m'. destruct (plan_of_cons m' Hwf') as [(_ & ? & ?)|(d & rest & E & _)]; [done|].
  by rewrite <-Hd in E.
Qed.

(** The validating simulation accepts the plan under the node cap, and refuses
    it only at the node cap. *)
Lemma simulate_ok m mv mn :
  wf m -> node_cap vt lt MAX_NODES (voters m) (learners m) -> mv <= 64 -> mn <= 65535 ->
  exists mv' mn', simulate m mv mn (plan_of m) = Ok (mv', mn') /\ mv' <= 64 /\ mn' <= 65535.
Proof.
  intros Hwf Hn. remember (plan_of m) as plan eqn:Ep. revert m mv mn Hwf Hn Ep.
  induction plan as [|d rest IH]; intros m mv mn Hwf Hn Ep Hv Hm; simpl; [eauto|].
  pose proof (voters_nonempty m Hwf) as Hne. pose proof (voters_learners_disjoint m Hwf) as Hd.
  destruct (plan_of_cons m Hwf) as [(E & _)|(d' & rest' & E & Hok & _)];
    rewrite E in Ep; simplify_eq.
  destruct (plan_step vt lt Hdisj Hvt (voters m) (learners m) Hne Hd)
    as [(E' & _)|(d'' & vc' & lc' & E' & Hmv)]; rewrite E in E'; simplify_eq.
  destruct (move_enabled m d'' vc' lc' Hwf Hmv Hn) as [m' Hm']. rewrite Hm'.
  destruct (Hok m' Hm') as (Hwf' & Erest & Hmv').
  apply (IH m' _ _ Hwf'); [by eapply move_node_cap|done| |].
  all: rewrite ?(node_count_wf m' Hwf'); destruct Hwf' as (?&?&?&?&?); lia.
Qed.

Lemma simulate_error m mv mn e :
  wf m -> simulate m mv mn (plan_of m) = Err e -> e = IntermediateNodePeakExceedsCap 65536.
Proof.
  intros Hwf. remember (plan_of m) as plan eqn:Ep. revert m mv mn Hwf Ep.
  induction plan as [|d rest IH]; intros m mv mn Hwf Ep; simpl; [done|].
  destruct (plan_of_cons m Hwf) as [(E & _)|(d' & rest' & E & Hok & Herr)];
    rewrite E in Ep; simplify_eq.
  destruct (apply_delta m d') as [m'|e'] eqn:Hm'.
  - destruct (Hok m' eq_refl) as (Hwf' & Erest & _). by apply IH.
  - rewrite (Herr e' eq_refl). intros; by simplify_eq.
Qed.

(** A simulation that succeeds stays within the caps whatever the start. *)
Lemma simulate_bounds m mv mn mv' mn' :
  wf m -> mv <= 64 -> mn <= 65535 -> simulate m mv mn (plan_of m) = Ok (mv', mn') ->
  mv' <= 64 /\ mn' <= 65535 /\
  exists m', run m (plan_of m) = Ok m' /\ wf m' /\ voters m' = vt /\ learners m' = lt.
Proof.
  intros Hwf. remember (plan_of m) as plan eqn:Ep. revert m mv mn Hwf Ep.
  induction plan as [|d rest IH]; intros m mv mn Hwf Ep Hv Hm; simpl.
  { intros. simplify_eq. split_and!; [done..|]. exists m.
    destruct (plan_of_cons m Hwf) as [(_ & ? & ?)|(d & rest & E & _)]; [done|]. by rewrite E in Ep. }
  destruct (plan_of_cons m Hwf) as [(E & _)|(d' & rest' & E & Hok & Herr)];
    rewrite E in Ep; simplify_eq.
  destruct (apply_delta m d') as [m'|e'] eqn:Hm'.
  - destruct (Hok m' eq_refl) as (Hwf' & Erest & _). apply IH; [done..| |];
      rewrite ?(node_count_wf m' Hwf'); destruct Hwf' as (?&?&?&?&?); lia.
  - rewrite (Herr e' eq_refl). done.
Qed.

End trajectory.

(** ** From the set-level plan to [plan_reconfiguration] *)

Lemma voter_learner_sets_eq m : voter_learner_sets m = (voters m, learners m).
Proof. done. Qed.

Lemma start_bounds m : wf m -> m_replica_count m <= 64 /\ node_count m <= 65535.
Proof. intros Hwf. rewrite node_count_wf by done. destruct Hwf as (?&?&?&?&?). lia. Qed.

Lemma plan_reconfiguration_Ok m t plan :
  plan_reconfiguration m t = Ok plan ->
  t_voters t ## t_learners t /\ t_voters t <> ∅ /\ (size (t_voters t) <= 64)%nat /\
  plan = build_plan (voters m) (learners m) (t_voters t) (t_learners t) /\
  exists mv mn, simulate m (m_replica_count m) (node_count m) plan = Ok (mv, mn) /\
    mv <= 64 /\ mn <= 65535.
Proof.
  unfold plan_reconfiguration, MAX_VOTERS, umax. rewrite voter_learner_sets_eq.
  destruct (bool_decide (t_voters t ## t_learners t)) eqn:Hd; simpl; [|done].
  destruct (bool_decide (t_voters t = ∅)) eqn:He; [done|].
  destruct (Z.ltb_spec 64 (Z.of_nat (size (t_voters t)))); [done|].
  destruct (simulate _ _ _ _) as [[mv mn]|e] eqn:Es; [|done].
  destruct (Z.ltb_spec 64 mv); [done|]. destruct (Z.ltb_spec (2 ^ 16 - 1) mn); [done|].
  intros. simplify_eq. apply bool_decide_eq_true in Hd. apply bool_decide_eq_false in He.
  split_and!; [done..|lia|done|]. exists mv, mn. split_and!; [done|lia..].
Qed.

Lemma plan_reconfiguration_intro m t mv mn :
  let plan := build_plan (voters m) (learners m) (t_voters t) (t_learners t) in
  t_voters t ## t_learners t -> t_voters t <> ∅ -> (size (t_voters t) <= 64)%nat ->
  simulate m (m_replica_count m) (node_count m) plan = Ok (mv, mn) -> mv <= 64 -> mn <= 65535 ->
  plan_reconfiguration m t = Ok plan.
Proof.
  intros plan Hd He Hs Hsim Hv Hn. unfold plan_reconfiguration, MAX_VOTERS, umax.
  rewrite voter_learner_sets_eq, bool_decide_eq_true_2, bool_decide_eq_false_2 by done. simpl.
  rewrite (proj2 (Z.ltb_ge _ _)) by lia. fold plan. rewrite Hsim.
  rewrite (proj2 (Z.ltb_ge _ _)) by lia. rewrite (proj2 (Z.ltb_ge _ _)) by lia. done.
Qed.

(** Success of the simulation does not depend on the maxima it starts from. *)
Lemma simulate_start m plan mv mn mv' mn' r :
  simulate m mv mn plan = Ok r -> exists r', simulate m mv' mn' plan = Ok r'.
Proof.
  revert m mv mn mv' mn'. induction plan as [|d rest IH]; intros m mv mn mv' mn'; simpl; [eauto|].
  destruct (apply_delta m d) as [m'|[]]; try done. apply IH.
Qed.

(** ** Properties *)

(** A returned plan is executable step by step and ends exactly at the
    target: installing its deltas in order never fails and leaves a well-formed
    configuration with the target's voters and learners. *)
Theorem plan_reaches_target m t plan :
  wf m -> plan_reconfiguration m t = Ok plan ->
  exists m', run m plan = Ok m' /\ wf m' /\ voters m' = t_voters t /\ learners m' = t_learners t.
Proof.
  intros Hwf (Hd & He & Hs & -> & mv & mn & Hsim & _)%plan_reconfiguration_Ok.
  destruct (start_bounds m Hwf). by eapply simulate_bounds in Hsim as (_ & _ & ?).
Qed.

Definition sample_target : MembershipTarget := mkTarget {[11; 14; 20]} {[12]}.
Definition sample_plan : list SingleVoterDelta :=
  [RemoveLearner 13; AddLearner 20; PromoteLearner 14; DemoteVoter 10; RemoveLearner 10;
   PromoteLearner 20; DemoteVoter 12].

Lemma sample_plan_ok : plan_reconfiguration sample sample_target = Ok sample_plan.
Proof. vm_compute. reflexivity. Defined.

Lemma plan_reaches_target_witness :
  exists m', run sample sample_plan = Ok m' /\ wf m' /\
    voters m' = {[11; 14; 20]} /\ learners m' = {[12]}.
Proof. exact (plan_reaches_target sample sample_target sample_plan sample_wf sample_plan_ok). Defined.

(** Planning fails only for the reasons its contract lists: an overlapping,
    empty or oversized target, or a node peak above [u16::MAX] along the way.
    The mid-plan voter cap and the last-voter error are unreachable. *)
Theorem plan_error_reasons m t :
  wf m ->
  let vt := t_voters t in let lt := t_learners t in
  match plan_reconfiguration m t with
  | Ok _ => vt ## lt /\ vt <> ∅ /\ (size vt <= 64)%nat
  | Err VoterLearnerOverlap => ~ vt ## lt
  | Err EmptyVoterSet => vt = ∅
  | Err (TooManyVoters c) => c = Z.of_nat (size vt) /\ 64 < c
  | Err (IntermediateNodePeakExceedsCap peak) =>
      peak = 65536 /\ ~ node_cap vt lt 65535 (voters m) (learners m)
  | Err _ => False
  end.
Proof.
  intros Hwf vt lt. destruct (plan_reconfiguration m t) as [plan|e] eqn:E.
  { apply plan_reconfiguration_Ok in E. tauto. }
  unfold plan_reconfiguration, MAX_VOTERS in E. rewrite voter_learner_sets_eq in E.
  destruct (start_bounds m Hwf) as [Hv Hn].
  destruct (bool_decide (t_voters t ## t_learners t)) eqn:Hd; simpl in E;
    [|simplify_eq; by apply bool_decide_eq_false in Hd].
  destruct (bool_decide (t_voters t = ∅)) eqn:He;
    [simplify_eq; by apply bool_decide_eq_true in He|].
  destruct (Z.ltb_spec 64 (Z.of_nat (size (t_voters t)))); [by simplify_eq|].
  apply bool_decide_eq_true in Hd. apply bool_decide_eq_false in He.
  destruct (simulate _ _ _ _) as [[mv mn]|e'] eqn:Es.
  - destruct (simulate_bounds _ _ Hd He ltac:(lia) _ _ _ _ _ Hwf Hv Hn Es) as (? & ? & _).
    unfold umax in E.
    rewrite !(proj2 (Z.ltb_ge _ _)) in E by lia. done.
  - simplify_eq. pose proof (simulate_error _ _ Hd He ltac:(lia) _ _ _ _ Hwf Es) as ->.
    split; [done|]. intros Hcap.
    destruct (simulate_ok _ _ Hd He ltac:(lia) _ _ _ Hwf Hcap Hv Hn) as (? & ? & E' & _).
    congruence.
Qed.

Lemma plan_error_reasons_witness :
  plan_reconfiguration sample (mkTarget {[10; 11]} {[11]}) = Err VoterLearnerOverlap /\
  ~ ({[10; 11]} ## ({[11]} : gset Z)).
Proof.
  split; [vm_compute; reflexivity|].
  exact (plan_error_reasons sample (mkTarget {[10; 11]} {[11]}) sample_wf).
Defined.

(** C9. Planning is total under the node cap: for a disjoint target of 1 to 64
    voters whose three extremal node sets fit in [u16::MAX], a plan exists. *)
Theorem plan_total m t :
  wf m -> t_voters t ## t_learners t -> t_voters t <> ∅ -> (size (t_voters t) <= 64)%nat ->
  node_cap (t_voters t) (t_learners t) 65535 (voters m) (learners m) ->
  exists plan, plan_reconfiguration m t = Ok plan.
Proof.
  intros Hwf Hd He Hs Hcap. destruct (start_bounds m Hwf) as [Hv Hn].
  destruct (simulate_ok _ _ Hd He Hs _ _ _ Hwf Hcap Hv Hn) as (mv & mn & Hsim & ? & ?).
  eexists. by eapply plan_reconfiguration_intro.
Qed.

Lemma plan_total_witness :
  exists plan, plan_reconfiguration sample (mkTarget {[30; 31; 32; 33]} ∅) = Ok plan.
Proof.
  apply (plan_total sample (mkTarget {[30; 31; 32; 33]} ∅)); [exact sample_wf|compute_done..|].
  unfold node_cap. split_and!; compute_done.
Defined.

Lemma run_take_step m d rest k mk :
  run m (take (S k) (d :: rest)) = Ok mk ->
  exists m', apply_delta m d = Ok m' /\ run m' (take k rest) = Ok mk.
Proof. simpl. destruct (apply_delta m d) as [m'|e]; [eauto|done]. Qed.

(** The tolerance bound along any executed prefix, with no cap assumption. *)
Lemma prefix_tolerance vt lt m k mk :
  vt ## lt -> vt <> ∅ -> (size vt <= 64)%nat -> wf m ->
  run m (take k (build_plan (voters m) (learners m) vt lt)) = Ok mk ->
  wf mk /\ Z.min (fault_tolerance m) (half (size vt)) <= fault_tolerance mk.
Proof.
  intros Hd He Hs. revert m. induction k as [|k IH]; intros m Hwf Hrun.
  { rewrite take_0 in Hrun. simpl in Hrun. simplify_eq. split; [done|lia]. }
  destruct (plan_of_cons vt lt Hd He Hs m Hwf) as [(E & _)|(d & rest & E & Hok & _)];
    rewrite E in Hrun.
  { simpl in Hrun. simplify_eq. split; [done|lia]. }
  apply run_take_step in Hrun as (m' & Hm' & Hrun).
  destruct (Hok m' Hm') as (Hwf' & -> & Hmv). destruct (IH m' Hwf' Hrun) as [Hwfk Hf].
  split; [done|].
  pose proof (move_tolerance vt lt Hd He _ _ _ _ _ (voters_learners_disjoint m Hwf) Hmv).
  rewrite (fault_tolerance_size m), (fault_tolerance_size m') in * by done. lia.
Qed.

(** Along the whole plan the crash tolerance never dips below the smaller
    of the current and the target tolerance. *)
Theorem plan_keeps_tolerance m t plan k mk :
  wf m -> plan_reconfiguration m t = Ok plan -> run m (take k plan) = Ok mk ->
  Z.min (fault_tolerance m) (half (size (t_voters t))) <= fault_tolerance mk.
Proof.
  intros Hwf (Hd & He & Hs & -> & _)%plan_reconfiguration_Ok Hrun.
  by eapply prefix_tolerance in Hrun as [_ ?].
Qed.

Lemma plan_keeps_tolerance_witness :
  exists mk, run sample (take 5 sample_plan) = Ok mk /\ 1 <= fault_tolerance mk.
Proof.
  assert (is_ok (run sample (take 5 sample_plan)) = true) as Hok by (vm_compute; reflexivity).
  destruct (run sample (take 5 sample_plan)) as [mk|e] eqn:E; [|discriminate].
  exists mk. split; [done|].
  assert (1 = Z.min (fault_tolerance sample) (half (size (t_voters sample_target)))) as ->
    by (vm_compute; reflexivity).
  exact (plan_keeps_tolerance sample sample_target sample_plan 5 mk sample_wf sample_plan_ok E).
Defined.

(** Planning is memoryless: after installing the first delta of a plan,
    re-planning for the same target yields exactly the rest of the plan, so an
    executor that re-plans from the live membership each iteration follows the
    announced plan and stops after [length plan] steps. *)
Theorem plan_memoryless m t d rest :
  wf m -> plan_reconfiguration m t = Ok (d :: rest) ->
  plan_next_step m t = Ok (Some d) /\
  exists m', apply_delta m d = Ok m' /\ wf m' /\ plan_reconfiguration m' t = Ok rest.
Proof.
  intros Hwf Hplan. split; [unfold plan_next_step; by rewrite Hplan|].
  apply plan_reconfiguration_Ok in Hplan as (Hd & He & Hs & E & mv & mn & Hsim & _).
  destruct (plan_of_cons _ _ Hd He Hs m Hwf) as [(E' & _)|(d' & rest' & E' & Hok & _)];
    rewrite E' in E; [done|]. injection E as <- <-.
  simpl in Hsim. destruct (apply_delta m d) as [m'|[]] eqn:Hm'; try done.
  destruct (Hok m' eq_refl) as (Hwf' & -> & _). exists m'. split_and!; [done..|].
  destruct (start_bounds m' Hwf') as [Hv Hn].
  eapply simulate_start in Hsim as ([mv' mn'] & Hsim).
  destruct (simulate_bounds _ _ Hd He Hs _ _ _ _ _ Hwf' Hv Hn Hsim) as (? & ? & _).
  by eapply plan_reconfiguration_intro.
Qed.

Lemma plan_memoryless_witness :
  exists m', apply_delta sample (RemoveLearner 13) = Ok m' /\ wf m' /\
    plan_reconfiguration m' sample_target = Ok (tail sample_plan).
Proof.
  exact (proj2 (plan_memoryless sample sample_target (RemoveLearner 13) (tail sample_plan)
                  sample_wf sample_plan_ok)).
Defined.

(** The plan is empty exactly when the live sets already are the target's. *)
Theorem plan_empty_iff m t :
  wf m ->
  plan_reconfiguration m t = Ok [] <-> voters m = t_voters t /\ learners m = t_learners t.
Proof.
  intros Hwf. split.
  - intros (Hd & He & Hs & E & _)%plan_reconfiguration_Ok.
    destruct (plan_of_cons _ _ Hd He Hs m Hwf) as [(_ & ?)|(d & rest & E' & _)]; [done|].
    by rewrite E' in E.
  - intros [EV EL]. pose proof (voters_learners_disjoint m Hwf) as Hd.
    pose proof (voters_nonempty m Hwf) as He. destruct (start_bounds m Hwf) as [Hv Hn].
    assert (build_plan (voters m) (learners m) (t_voters t) (t_learners t) = []) as Ep.
    { rewrite EV, EL in *.
      destruct (plan_step _ _ Hd He _ _ He Hd) as [(? & _)|(? & ? & ? & _ & Hmv)]; [done|].
      inversion Hmv; set_solver. }
    rewrite <-Ep.
    apply (plan_reconfiguration_intro m t (m_replica_count m) (node_count m));
      rewrite ?Ep; rewrite <-?EV, <-?EL; [done..| |done|done|done].
    pose proof (size_voters m Hwf). lia.
Qed.

Lemma plan_empty_iff_witness :
  plan_reconfiguration sample (mkTarget {[12; 10; 11]} {[14; 13]}) = Ok [].
Proof.
  apply (plan_empty_iff sample (mkTarget {[12; 10; 11]} {[14; 13]}) sample_wf).
  split; compute_done.
Defined.

(** ** The demotion set *)

Lemma filter_none {A} (P : A -> Prop) `{forall x, Decision (P x)} (l : list A) :
  (forall x, x ∈ l -> ~ P x) -> filter P l = [].
Proof.
  intros Hl. destruct (filter P l) as [|x r] eqn:E; [done|].
  assert (x ∈ filter P l) as [? ?]%list_elem_of_filter by (rewrite E; set_solver). naive_solver.
Qed.

Lemma filter_demotes_core lt ps n ds :
  filter (fun d => is_demote_voter d = true) (parity_core lt ps n ds) = DemoteVoter <$> ds.
Proof.
  revert n ds. induction ps as [|p ps IHp]; intros n ds; revert n; induction ds as [|x ds IHd];
    intros n; rewrite parity_core_unfold; [done| | |].
  - rewrite filter_app, IHd. unfold demote_then_gc. by case_decide.
  - rewrite filter_cons_False by done. apply IHp.
  - case_match.
    + rewrite filter_cons_False by done. apply IHp.
    + rewrite filter_app, IHd. unfold demote_then_gc. by case_decide.
Qed.

Lemma filter_demotes_plan vc lc vt lt :
  filter (fun d => is_demote_voter d = true) (build_plan vc lc vt lt) =
  DemoteVoter <$> btree_iter (vc ∖ vt).
Proof.
  unfold build_plan, phase_prune, phase_stage, phase_residual.
  rewrite !filter_app, filter_demotes_core.
  rewrite !(filter_none _ (AddLearner <$> _)), (filter_none _ (RemoveLearner <$> _));
    [by rewrite app_nil_r|..]; intros d (x & -> & _)%list_elem_of_fmap; done.
Qed.

(** A promotion or an addition in front of every demotion makes the demotion
    set empty, since it precedes the first one found. *)
Lemma grow_before_first (pre post : list SingleVoterDelta) d i x :
  (forall y, y ∈ pre -> is_demote_voter y = false) -> is_demote_voter d = false ->
  list_find (fun d => is_demote_voter d = true) (pre ++ d :: post) = Some (i, x) ->
  d ∈ take i (pre ++ d :: post).
Proof.
  intros Hpre Hd (Hi & Hx & _)%list_find_Some.
  assert (length pre < i)%nat as Hlt.
  { apply lookup_app_Some in Hi as [Hi|[Hle Hi]].
    - apply list_elem_of_lookup_2, Hpre in Hi. congruence.
    - destruct (decide (i = length pre)) as [->|]; [|lia].
      rewrite Nat.sub_diag in Hi. simpl in Hi. congruence. }
  rewrite take_app_ge by lia. destruct (i - length pre)%nat eqn:E; [lia|]. simpl. set_solver.
Qed.

Lemma core_demotes_first vc lc vt lt i x :
  vt ## lt -> vt <> ∅ -> vc <> ∅ ->
  list_find (fun d => is_demote_voter d = true) (build_plan vc lc vt lt) = Some (i, x) ->
  existsb (fun d => is_add_learner d || is_promote_learner d)
    (take i (build_plan vc lc vt lt)) = false ->
  (1 < size vc)%nat.
Proof.
  intros Hd Hvt Hvc Hf Hex.
  destruct (core_step vt lt Hd Hvt vc Hvc) as [[-> E]|[(p & _ & E & _)|(y & _ & _ & Hs & _)]]; [| |done].
  - apply list_find_Some in Hf as (Hi & Hx & _).
    apply list_elem_of_lookup_2 in Hi.
    assert (x ∈ filter (fun d => is_demote_voter d = true) (build_plan vt lc vt lt)) as Hin
      by (by apply list_elem_of_filter).
    rewrite filter_demotes_plan, difference_diag_L in Hin. by apply not_elem_of_nil in Hin.
  - exfalso. revert Hf Hex. unfold build_plan. fold (core_of vt lt vc). rewrite E, app_assoc.
    simpl. intros Hf Hex. eapply grow_before_first in Hf; [| |done].
    + assert (existsb (fun d => is_add_learner d || is_promote_learner d)
        (take i ((phase_prune lc vt lt ++ phase_stage vc lc vt) ++
           PromoteLearner p :: core_of vt lt (vc ∪ {[p]}) ++ phase_residual vc lc lt)) = true);
        [|congruence].
      apply existsb_exists. exists (PromoteLearner p). split; [by apply list_elem_of_In|done].
    + unfold phase_prune, phase_stage. intros d [Hin|Hin]%elem_of_app;
        apply list_elem_of_fmap in Hin as (? & -> & _); done.
Qed.

(** When [shrink_candidates] offers demotions it offers exactly the
    departing voters, in ascending order, and every one of them can be applied
    to the live configuration as it is, so the executor may pick any. *)
Theorem shrink_candidates_applicable m t ds :
  wf m -> shrink_candidates m t = Ok ds -> ds <> [] ->
  ds = (DemoteVoter <$> btree_iter (voters m ∖ t_voters t)) /\
  forall d, d ∈ ds -> exists m', apply_delta m d = Ok m'.
Proof.
  intros Hwf. unfold shrink_candidates.
  destruct (plan_reconfiguration m t) as [plan|] eqn:Ep; [|done].
  apply plan_reconfiguration_Ok in Ep as (Hdt & He & _ & -> & _).
  destruct (list_find _ _) as [[i x]|] eqn:Hf; [|by intros; simplify_eq].
  destruct (existsb _ _) eqn:Hex; [by intros; simplify_eq|].
  rewrite filter_demotes_plan. intros E _. simplify_eq. split; [done|].
  pose proof (voters_nonempty m Hwf) as Hne.
  pose proof (core_demotes_first _ _ _ _ _ _ Hdt He Hne Hf Hex) as Hs.
  intros d (y & -> & Hy%elem_btree_iter)%list_elem_of_fmap.
  pose proof (size_voters m Hwf). pose proof (size_learners m Hwf).
  pose proof (voters_learners_disjoint m Hwf) as Hd.
  destruct (apply_delta_enabled m Hwf (DemoteVoter y) (voters m ∖ {[y]}) (learners m ∪ {[y]}))
    as (m' & Hm' & _); [constructor; set_solver| | |eauto].
  - rewrite size_difference, size_singleton by set_solver. destruct Hwf as (?&?&?&?&?). lia.
  - rewrite size_difference, size_union, !size_singleton by set_solver.
    destruct Hwf as (?&?&?&?&?). lia.
Qed.

Lemma sample_shrink :
  shrink_candidates sample (mkTarget {[11]} {[13; 14]}) = Ok [DemoteVoter 10; DemoteVoter 12].
Proof. vm_compute. reflexivity. Defined.

Lemma shrink_candidates_applicable_witness :
  exists m', apply_delta sample (DemoteVoter 12) = Ok m'.
Proof.
  apply (shrink_candidates_applicable sample (mkTarget {[11]} {[13; 14]})
           [DemoteVoter 10; DemoteVoter 12] sample_wf sample_shrink ltac:(discriminate)).
  set_solver.
Defined.
