(* ===== verification/Codec.v ===== *)
(** * The durable codec's bounds-checked reader

    [viewstamp-proto/src/codec.rs]: the [Reader] cursor every durable decoder
    is built on, its errors, and the proof principle of this library's round
    trips: [reads d bs a] says that the decoder [d], standing before [bs],
    consumes exactly those bytes and returns [a]. *)

From stdpp Require Import strings.
From S2P Require Import Prelude Core Hash Membership.

Inductive VsrStateError : Type :=
| LogViewAboveView
| CommitBelowCheckpoint
| HeaderOutOfBand
| HeadersNotAscending
| MembershipEpochMismatch (root membership : Z)
| InvalidMembership (e : MembershipError)
| LogFloorBelowCheckpoint.

(** The variants the durable decoders return; [Malformed] and [UnknownMessage]
    belong to the protobuf message envelope. *)
Inductive CodecError : Type :=
| Truncated (expected got : Z)
| UnknownVersion (v : Z)
| LengthOverflow (len remaining : Z)
| TrailingBytes (n : Z)
| InvalidVsrState (e : VsrStateError)
| InvalidMembershipPresent (b : Z)
| Malformed (what : string)
| UnknownMessage.

(** [From<MembershipError> for CodecError] *)
Definition codec_of_membership (e : MembershipError) : CodecError :=
  InvalidVsrState (InvalidMembership e).

Record Reader : Type := mkReader {
  r_buf : list byte;
  r_pos : Z;
}.

Definition reader_new (buf : list byte) : Reader := mkReader buf 0.

Definition remaining (r : Reader) : Z := zlen (r_buf r) - r_pos r.

(** A decoder: [&mut Reader] in, the value and the advanced reader out. *)
Definition dec (A : Type) : Type := Reader -> result CodecError (A * Reader).

Definition dret {A} (a : A) : dec A := fun r => Ok (a, r).
Definition derr {A} (e : CodecError) : dec A := fun _ => Err e.
Definition dbind {A B} (m : dec A) (k : A -> dec B) : dec B :=
  fun r => match m r with Ok (a, r') => k a r' | Err e => Err e end.
Definition dlift {A} (x : result CodecError A) : dec A :=
  fun r => match x with Ok a => Ok (a, r) | Err e => Err e end.

Notation "x <-? m ;; k" := (dbind m (fun x => k))
  (at level 100, m at next level, right associativity) : vr_scope.

Definition finish : dec unit := fun r =>
  if remaining r =? 0 then Ok (tt, r) else Err (TrailingBytes (remaining r)).

Definition read_take (n : Z) : dec (list byte) := fun r =>
  let short := Err (Truncated n (remaining r)) in
  match checked_add 64 (r_pos r) n with
  | None => short
  | Some end_ =>
      if end_ <=? zlen (r_buf r)
      then Ok (take (Z.to_nat n) (drop (Z.to_nat (r_pos r)) (r_buf r)), mkReader (r_buf r) end_)
      else short
  end.

Definition read_uint (n : nat) : dec Z :=
  b <-? read_take (Z.of_nat n) ;; dret (from_be_bytes b).
Definition read_u8 : dec Z := read_uint 1.
Definition read_u16 : dec Z := read_uint 2.
Definition read_u32 : dec Z := read_uint 4.
Definition read_u64 : dec Z := read_uint 8.
Definition read_u128 : dec Z := read_uint 16.

Definition seq_len (min_elem_len : Z) : dec Z :=
  count <-? read_u32 ;;
  fun r =>
    if 0 <? min_elem_len then
      let floor := sat_mul 64 count min_elem_len in
      if remaining r <? floor then Err (LengthOverflow floor (remaining r)) else Ok (count, r)
    else Ok (count, r).

(** [for _ in 0..count { out.push(elem) }] *)
Fixpoint read_n {A} (elem : dec A) (count : nat) : dec (list A) :=
  match count with
  | O => dret []
  | S k => x <-? elem ;; xs <-? read_n elem k ;; dret (x :: xs)
  end.

(** ** Where a reader stands *)

(** The bytes not yet consumed.  A slice holds at most [isize::MAX] bytes. *)
Definition at_bytes (r : Reader) (bs : list byte) : Prop :=
  0 <= r_pos r <= zlen (r_buf r) /\ zlen (r_buf r) < 2 ^ 63 /\
  drop (Z.to_nat (r_pos r)) (r_buf r) = bs.

Lemma at_bytes_new buf : zlen buf < 2 ^ 63 -> at_bytes (reader_new buf) buf.
Proof. intros H. split_and!; simpl; [lia..|done|apply drop_0]. Qed.

Lemma at_bytes_remaining r bs : at_bytes r bs -> remaining r = zlen bs.
Proof. intros (? & ? & <-). unfold remaining. rewrite length_drop. lia. Qed.

Lemma read_take_spec n r bs :
  0 <= n -> at_bytes r bs ->
  if n <=? zlen bs
  then exists r', read_take n r = Ok (take (Z.to_nat n) bs, r') /\
                  at_bytes r' (drop (Z.to_nat n) bs) /\ r_buf r' = r_buf r
  else read_take n r = Err (Truncated n (zlen bs)).
Proof.
  intros Hn Hat. pose proof (at_bytes_remaining r bs Hat) as Hrem.
  destruct Hat as (Hp & Hb & Hd). unfold read_take, checked_add, umax.
  rewrite Hrem, Hd. unfold remaining in Hrem.
  destruct (Z.leb_spec n (zlen bs)).
  - rewrite (proj2 (Z.leb_le _ _)) by lia. rewrite (proj2 (Z.leb_le _ _)) by lia.
    eexists. split; [done|]. split; [|done]. split_and!; simpl; [lia..|].
    rewrite <-Hd, drop_drop. f_equal. lia.
  - destruct (Z.leb_spec (r_pos r + n) (2 ^ 64 - 1)); [|done].
    by rewrite (proj2 (Z.leb_gt _ _)) by lia.
Qed.

(** ** Round-trip decoding *)

Definition reads {A} (d : dec A) (bs : list byte) (a : A) : Prop :=
  forall r rest, at_bytes r (bs ++ rest) -> exists r', d r = Ok (a, r') /\ at_bytes r' rest.

Lemma reads_ret {A} (a : A) : reads (dret a) [] a.
Proof. intros r rest Hat. eauto. Qed.

Lemma reads_bind {A B} (m : dec A) (k : A -> dec B) bs cs a b :
  reads m bs a -> reads (k a) cs b -> reads (dbind m k) (bs ++ cs) b.
Proof.
  intros Hm Hk r rest Hat. rewrite <-app_assoc in Hat.
  destruct (Hm r _ Hat) as (r' & E & Hat'). destruct (Hk r' _ Hat') as (r'' & E' & Hat'').
  exists r''. unfold dbind. by rewrite E.
Qed.

Lemma reads_take n bs : n = zlen bs -> reads (read_take n) bs bs.
Proof.
  intros -> r rest Hat. pose proof (read_take_spec (zlen bs) r _ ltac:(lia) Hat) as H.
  rewrite (proj2 (Z.leb_le _ _)) in H by (rewrite length_app; lia).
  destruct H as (r' & E & Hat' & _). rewrite Nat2Z.id in *.
  rewrite take_app_length in E. rewrite drop_app_length in Hat'. eauto.
Qed.

Lemma reads_uint n z : 0 <= z < 256 ^ Z.of_nat n -> reads (read_uint n) (be_bytes n z) z.
Proof.
  intros Hz. unfold read_uint. rewrite <-(app_nil_r (be_bytes n z)).
  eapply reads_bind; [apply reads_take; by rewrite length_be_bytes|].
  intros r rest Hat. exists r. unfold dret. by rewrite be_bytes_roundtrip.
Qed.

Lemma reads_lift {A} (x : result CodecError A) a : x = Ok a -> reads (dlift x) [] a.
Proof. intros ->. apply reads_ret. Qed.

Lemma reads_n {A} (elem : dec A) (enc : A -> list byte) (l : list A) :
  (forall a, a ∈ l -> reads elem (enc a) a) ->
  reads (read_n elem (length l)) (concat (map enc l)) l.
Proof.
  induction l as [|a l IH]; intros H; simpl; [apply reads_ret|].
  eapply reads_bind; [apply H; set_solver|].
  rewrite <-(app_nil_r (concat _)). eapply reads_bind; [apply IH; set_solver|apply reads_ret].
Qed.

Lemma length_concat_const {A} (enc : A -> list byte) (l : list A) k :
  (forall a, a ∈ l -> zlen (enc a) = k) -> zlen (concat (map enc l)) = k * zlen l.
Proof.
  induction l as [|a l IH]; intros H; simpl; [lia|].
  rewrite length_app, Nat2Z.inj_add, H, IH by set_solver. lia.
Qed.

(** The count prefix is accepted whenever the elements really follow. *)
Lemma reads_seq_len {B} (k : Z -> dec B) n count bs b :
  0 <= n -> 0 <= count < 2 ^ 32 -> zlen bs >= n * count -> reads (k count) bs b ->
  reads (c <-? seq_len n ;; k c) (be_bytes 4 count ++ bs) b.
Proof.
  intros Hn Hc Hlen Hk r rest Hat. unfold seq_len. rewrite <-app_assoc in Hat.
  destruct (reads_uint 4 count ltac:(done) r _ Hat) as (r' & E & Hat').
  unfold dbind in *. fold read_u32 in E. rewrite E.
  rewrite (at_bytes_remaining _ _ Hat'), length_app.
  destruct (Z.ltb_spec 0 n); [|by apply Hk].
  rewrite (proj2 (Z.ltb_ge _ _)); [by apply Hk|]. unfold sat_mul. lia.
Qed.

(** A whole-buffer decoder on exactly its encoding. *)
Lemma reads_finish {A} (d : dec A) bs a buf :
  zlen buf < 2 ^ 63 -> buf = bs -> reads d bs a ->
  exists r, d (reader_new buf) = Ok (a, r) /\ finish r = Ok (tt, r).
Proof.
  intros Hlen -> Hd. destruct (Hd (reader_new bs) []) as (r & E & Hat).
  { rewrite app_nil_r. by apply at_bytes_new. }
  exists r. split; [done|]. unfold finish. by rewrite (at_bytes_remaining _ _ Hat).
Qed.

(** ** What a successful decoding says

    [parses d P]: whenever [d] succeeds its value satisfies [P], the reader
    stays inside its buffer, and the same bytes followed by anything decode to
    the same value, leaving what followed. *)

Definition parses {A} (d : dec A) (P : A -> Prop) : Prop :=
  forall r bs a r', at_bytes r bs -> d r = Ok (a, r') ->
  P a /\ exists bs', at_bytes r' bs' /\
    forall r2 rest, at_bytes r2 (bs ++ rest) ->
      exists r2', d r2 = Ok (a, r2') /\ at_bytes r2' (bs' ++ rest).

Lemma parses_ret {A} (a : A) (P : A -> Prop) : P a -> parses (dret a) P.
Proof. intros H r bs a' r' Hat E. unfold dret in *. simplify_eq. eauto 10. Qed.

Lemma parses_err {A} e (P : A -> Prop) : parses (derr e) P.
Proof. intros r bs a r' Hat E. done. Qed.

Lemma parses_bind {A B} (m : dec A) (k : A -> dec B) P Q :
  parses m P -> (forall a, P a -> parses (k a) Q) -> parses (dbind m k) Q.
Proof.
  intros Hm Hk r bs b r'' Hat E. unfold dbind in E.
  destruct (m r) as [[a r']|e] eqn:Em; [|done].
  destruct (Hm r bs a r' Hat Em) as (HP & bs' & Hat' & Hext).
  destruct (Hk a HP r' bs' b r'' Hat' E) as (HQ & bs'' & Hat'' & Hext').
  split; [done|]. exists bs''. split; [done|]. intros r2 rest Hat2.
  destruct (Hext r2 rest Hat2) as (r2' & E2 & Hat2'). unfold dbind. rewrite E2. by apply Hext'.
Qed.

Lemma parses_take n : 0 <= n -> parses (read_take n) (fun bs => zlen bs = n).
Proof.
  intros Hn r bs a r' Hat E. pose proof (read_take_spec n r bs Hn Hat) as H.
  destruct (Z.leb_spec n (zlen bs)); [|congruence].
  destruct H as (r1 & E1 & Hat1 & _). rewrite E in E1. simplify_eq.
  split; [rewrite length_take; lia|]. exists (drop (Z.to_nat n) bs). split; [done|].
  intros r2 rest Hat2. pose proof (read_take_spec n r2 _ Hn Hat2) as H2.
  rewrite (proj2 (Z.leb_le _ _)) in H2 by (rewrite length_app; lia).
  destruct H2 as (r2' & E2 & Hat2' & _). rewrite take_app_le in E2 by lia.
  rewrite drop_app_le in Hat2' by lia. eauto.
Qed.

Lemma parses_uint n : parses (read_uint n) (fun z => 0 <= z < 256 ^ Z.of_nat n).
Proof.
  eapply parses_bind; [apply parses_take; lia|]. intros bs Hbs. apply parses_ret.
  rewrite <-Hbs. apply from_be_bytes_range.
Qed.

Lemma parses_lift {A} (x : result CodecError A) (P : A -> Prop) :
  (forall a, x = Ok a -> P a) -> parses (dlift x) P.
Proof.
  intros H r bs a r' Hat E. unfold dlift in *. destruct x as [a'|e]; [|done].
  simplify_eq. eauto 10.
Qed.

Lemma parses_seq_len n : parses (seq_len n) (fun c => 0 <= c < 2 ^ 32).
Proof.
  eapply parses_bind; [apply parses_uint|]. intros c Hc r bs a r' Hat E.
  pose proof (at_bytes_remaining r bs Hat) as Hrem. rewrite Hrem in E.
  assert (a = c /\ r' = r) as [-> ->].
  { cbv zeta in E. destruct (0 <? n), (zlen bs <? sat_mul 64 c n); by simplify_eq. }
  split; [done|]. exists bs. split; [done|]. intros r2 rest Hat2. exists r2.
  rewrite (at_bytes_remaining r2 _ Hat2), length_app, Nat2Z.inj_add.
  split; [|done]. cbv zeta in *. destruct (0 <? n); [|done].
  destruct (Z.ltb_spec (zlen bs) (sat_mul 64 c n)); [done|].
  by rewrite (proj2 (Z.ltb_ge _ _)) by lia.
Qed.

Lemma parses_n {A} (elem : dec A) (P : A -> Prop) n :
  parses elem P -> parses (read_n elem n) (fun l => Forall P l /\ length l = n).
Proof.
  intros He. induction n as [|n IH]; simpl; [by apply parses_ret|].
  eapply parses_bind; [done|]. intros x Hx. eapply parses_bind; [done|].
  intros xs [Hxs Hl]. apply parses_ret. split; [by constructor|simpl; lia].
Qed.

Lemma parses_weaken {A} (d : dec A) (P Q : A -> Prop) :
  parses d P -> (forall a, P a -> Q a) -> parses d Q.
Proof. intros Hd Hw r bs a r' Hat E. destruct (Hd r bs a r' Hat E) as [? ?]. auto. Qed.

(** [yields]: the part of [parses] that also holds of a decoder that checks for
    the end of its buffer. *)
Definition yields {A} (d : dec A) (P : A -> Prop) : Prop :=
  forall r bs a r', at_bytes r bs -> d r = Ok (a, r') -> P a /\ exists bs', at_bytes r' bs'.

Lemma parses_yields {A} (d : dec A) P : parses d P -> yields d P.
Proof. intros H r bs a r' Hat E. destruct (H r bs a r' Hat E) as (? & bs' & ? & _). eauto. Qed.

Lemma yields_bind {A B} (m : dec A) (k : A -> dec B) P Q :
  yields m P -> (forall a, P a -> yields (k a) Q) -> yields (dbind m k) Q.
Proof.
  intros Hm Hk r bs b r'' Hat E. unfold dbind in E.
  destruct (m r) as [[a r']|e] eqn:Em; [|done].
  destruct (Hm r bs a r' Hat Em) as (HP & bs' & Hat'). by eapply Hk.
Qed.

Lemma yields_finish : yields finish (fun _ => True).
Proof.
  intros r bs a r' Hat E. split; [done|]. unfold finish in E. case_match; simplify_eq. eauto.
Qed.

(** ** Truncation and extension *)

Lemma finish_at r bs : at_bytes r bs -> finish r = if zlen bs =? 0 then Ok (tt, r) else Err (TrailingBytes (zlen bs)).
Proof. intros Hat. unfold finish. by rewrite (at_bytes_remaining _ _ Hat). Qed.

(** A decoder that accepts one buffer in full accepts no proper prefix of it in
    full. *)
Lemma parses_no_prefix {A} (d : dec A) P bs cs a ra b rb :
  parses d P -> zlen (bs ++ cs) < 2 ^ 63 -> cs <> [] ->
  d (reader_new bs) = Ok (a, ra) -> finish ra = Ok (tt, ra) ->
  d (reader_new (bs ++ cs)) = Ok (b, rb) -> finish rb <> Ok (tt, rb).
Proof.
  intros Hd Hlen Hcs Ea Hfa Eb Hfb. rewrite length_app in Hlen.
  destruct (Hd (reader_new bs) bs a ra (at_bytes_new bs ltac:(lia)) Ea) as (_ & bs' & Hat & Hext).
  rewrite (finish_at _ _ Hat) in Hfa.
  destruct (Hext (reader_new (bs ++ cs)) cs) as (r2 & E2 & Hat2).
  { apply at_bytes_new. rewrite length_app. lia. }
  rewrite Eb in E2. simplify_eq. rewrite (finish_at _ _ Hat2), length_app in Hfb.
  destruct bs'; [|done]. destruct cs; [done|]. done.
Qed.

(** ** Words, id lists and memberships *)

Lemma fits_pow n w : w = 8 * Z.of_nat n -> forall z, fits w z <-> 0 <= z < 256 ^ Z.of_nat n.
Proof.
  intros -> z. unfold fits. replace 256 with (2 ^ 8) by done. by rewrite <-Z.pow_mul_r by lia.
Qed.

Lemma reads_u8 z : fits 8 z -> reads read_u8 (be_bytes 1 z) z.
Proof. intros. by apply reads_uint, (fits_pow 1 8). Qed.
Lemma reads_u16 z : fits 16 z -> reads read_u16 (be_bytes 2 z) z.
Proof. intros. by apply reads_uint, (fits_pow 2 16). Qed.
Lemma reads_u64 z : fits 64 z -> reads read_u64 (be_bytes 8 z) z.
Proof. intros. by apply reads_uint, (fits_pow 8 64). Qed.
Lemma reads_u128 z : fits 128 z -> reads read_u128 (be_bytes 16 z) z.
Proof. intros. by apply reads_uint, (fits_pow 16 128). Qed.

Lemma reads_ids (l : list Z) :
  Forall (fits 128) l -> reads (read_n read_u128 (length l)) (concat (map (be_bytes 16) l)) l.
Proof.
  intros H. apply reads_n. intros a Ha. apply reads_u128. by eapply Forall_forall in H.
Qed.

Lemma length_ids (l : list Z) : zlen (concat (map (be_bytes 16) l)) = 16 * zlen l.
Proof. apply length_concat_const. intros a _. by rewrite length_be_bytes. Qed.

Lemma pow256 n : 256 ^ Z.of_nat n = 2 ^ (8 * Z.of_nat n).
Proof. change 256 with (2 ^ 8). by rewrite <-Z.pow_mul_r by lia. Qed.

Lemma parses_u8 : parses read_u8 (fits 8).
Proof. apply (parses_uint 1). Qed.
Lemma parses_u16 : parses read_u16 (fits 16).
Proof. apply (parses_uint 2). Qed.
Lemma parses_u64 : parses read_u64 (fits 64).
Proof. apply (parses_uint 8). Qed.
Lemma parses_u128 : parses read_u128 (fits 128).
Proof. apply (parses_uint 16). Qed.

(** Binds the next read, keeping what its success says. *)
Ltac parse_step L := eapply parses_bind; [apply L|intros ? ?; cbv beta in *].
Ltac yield_step L := eapply yields_bind; [apply parses_yields, L|intros ? ?; cbv beta in *].

Lemma from_durable_parts_wf m :
  wf m ->
  from_durable_parts (m_epoch m) (m_replica_count m) (m_learner_count m) (m_members m)
    (m_config_id m) = Ok m.
Proof.
  intros Hwf. unfold from_durable_parts. assert (Hb := Hwf). destruct Hb as (?&?&?&?&?).
  rewrite (proj2 (validate_structure_ok (m_replica_count m) (m_learner_count m)
    (m_members m) (m_members m) ltac:(unfold fits; lia) ltac:(unfold fits; lia))) by done.
  by destruct m.
Qed.

Lemma from_durable_parts_ok e rc lc ms id m :
  fits 8 rc -> fits 16 lc -> from_durable_parts e rc lc ms id = Ok m ->
  m = mkMembership e rc lc ms id /\ wf m.
Proof.
  intros Hrc Hlc. unfold from_durable_parts.
  destruct (validate_structure rc lc ms) as [ms'|] eqn:E; [|done].
  apply validate_structure_ok in E as [-> Hok]; [|done..]. intros. by simplify_eq.
Qed.
