(* ===== verification/Message.v ===== *)
(** * Protocol values: reconfiguration payloads, bodies, prepared entries and
    the view-change vote

    [viewstamp-proto/src/message/mod.rs]: [ReconfigurePayload] with its
    canonical body codec and its two ways back to a [Membership], the three
    body states of a log entry, and the [DoViewChange] vote.  The other wire
    structs are plain field bundles. *)

From S2P Require Import Prelude Core Hash Membership Codec.

(** ** Reconfiguration payload *)

Record ReconfigurePayload : Type := mkPayload {
  p_replica_count : Z;
  p_learner_count : Z;
  p_members : list MemberId;
  p_prev_config_id : Z;
}.

#[export] Instance ReconfigurePayload_eq_dec : EqDecision ReconfigurePayload.
Proof. solve_decision. Defined.

Definition from_membership (m : Membership) (prev_config_id : Z) : ReconfigurePayload :=
  mkPayload (m_replica_count m) (m_learner_count m) (m_members m) prev_config_id.

Definition to_membership (p : ReconfigurePayload) (epoch : Epoch) (config_id : Z)
    : result MembershipError Membership :=
  from_durable_parts epoch (p_replica_count p) (p_learner_count p) (p_members p) config_id.

Definition to_membership_verified (p : ReconfigurePayload) (epoch : Epoch) (config_id : Z)
    : result MembershipError Membership :=
  let recomputed := recompute_config_id epoch (p_replica_count p) (p_learner_count p)
                      (p_members p) (p_prev_config_id p) in
  if negb (recomputed =? config_id) then Err ForkedConfigId
  else to_membership p epoch config_id.

Definition write_reconfigure (p : ReconfigurePayload) : list byte :=
  be_bytes 1 (p_replica_count p) ++ be_bytes 2 (p_learner_count p)
  ++ be_bytes 4 (zlen (p_members p)) ++ concat (map (be_bytes 16) (p_members p))
  ++ be_bytes 16 (p_prev_config_id p).

Definition read_reconfigure : dec ReconfigurePayload :=
  replica_count <-? read_u8 ;;
  learner_count <-? read_u16 ;;
  count <-? seq_len 16 ;;
  members <-? read_n read_u128 (Z.to_nat count) ;;
  prev_config_id <-? read_u128 ;;
  dret (mkPayload replica_count learner_count members prev_config_id).

Definition encode_body (p : ReconfigurePayload) : list byte := write_reconfigure p.

Definition decode_body (bytes : list byte) : result CodecError ReconfigurePayload :=
  let? (p, _) :=
    (payload <-? read_reconfigure ;; _end <-? finish ;; dret payload) (reader_new bytes) in
  Ok p.

Definition payload_body_checksum (p : ReconfigurePayload) : Z := fnv1a_128 (encode_body p).

(** ** Bodies and prepared entries *)

Inductive Body : Type :=
| Present (bytes : list byte)
| Repairing (body_checksum : Z)
| Reconfigure (payload : ReconfigurePayload).

#[export] Instance Body_eq_dec : EqDecision Body.
Proof. solve_decision. Defined.

Definition is_repairing (b : Body) : bool :=
  match b with Repairing _ => true | _ => false end.

Definition as_present (b : Body) : option (list byte) :=
  match b with Present bytes => Some bytes | _ => None end.

Definition as_reconfigure (b : Body) : option ReconfigurePayload :=
  match b with Reconfigure p => Some p | _ => None end.

Definition body_bytes (b : Body) : option (list byte) :=
  match b with
  | Present bytes => Some bytes
  | Reconfigure p => Some (encode_body p)
  | Repairing _ => None
  end.

Definition is_body_bearing (b : Body) : bool := negb (is_repairing b).

Definition body_checksum (b : Body) : Z :=
  match b with
  | Present bytes => fnv1a_128 bytes
  | Repairing c => c
  | Reconfigure p => payload_body_checksum p
  end.

Record PreparedEntry : Type := mkEntry {
  e_op : OpNumber;
  e_client : ClientId;
  e_request : RequestNumber;
  e_body : Body;
}.

#[export] Instance PreparedEntry_eq_dec : EqDecision PreparedEntry.
Proof. solve_decision. Defined.

Definition entry_repairing (op : OpNumber) (client : ClientId) (request : RequestNumber)
    (body_checksum : Z) : PreparedEntry :=
  mkEntry op client request (Repairing body_checksum).

Definition entry_is_repairing (e : PreparedEntry) : bool := is_repairing (e_body e).

(** ** The view-change vote *)

Record DoViewChange : Type := mkDVC {
  d_view : View;
  d_log_view : View;
  d_op : OpNumber;
  d_commit : OpNumber;
  d_checkpoint_op : OpNumber;
  d_epoch : Epoch;
  d_config_id : Z;
  d_replica : ReplicaId;
  d_log : list PreparedEntry;
}.

#[export] Instance DoViewChange_eq_dec : EqDecision DoViewChange.
Proof. solve_decision. Defined.

(** ** Properties *)

Definition payload_wf (p : ReconfigurePayload) : Prop :=
  fits 8 (p_replica_count p) /\ fits 16 (p_learner_count p) /\
  zlen (p_members p) < 2 ^ 32 /\ Forall (fits 128) (p_members p) /\
  fits 128 (p_prev_config_id p).

Lemma reads_payload p : payload_wf p -> reads read_reconfigure (write_reconfigure p) p.
Proof.
  intros (Hrc & Hlc & Hml & Hms & Hpc). unfold read_reconfigure, write_reconfigure.
  eapply reads_bind; [by apply reads_u8|]. eapply reads_bind; [by apply reads_u16|].
  apply reads_seq_len; [done|lia|rewrite length_app, Nat2Z.inj_add, length_ids; lia|].
  rewrite Nat2Z.id. eapply reads_bind; [by apply reads_ids|].
  rewrite <-(app_nil_r (be_bytes 16 _)). eapply reads_bind; [by apply reads_u128|].
  by destruct p; apply reads_ret.
Qed.

Lemma parses_payload : parses read_reconfigure payload_wf.
Proof.
  unfold read_reconfigure. parse_step parses_u8. parse_step parses_u16.
  parse_step parses_seq_len. eapply parses_bind; [apply parses_n, parses_u128|].
  intros ms [Hms Hl]. parse_step parses_u128. apply parses_ret.
  unfold payload_wf. simpl. split_and!; try done. lia.
Qed.

Lemma decode_body_Ok buf p :
  decode_body buf = Ok p <->
  exists r, read_reconfigure (reader_new buf) = Ok (p, r) /\ finish r = Ok (tt, r).
Proof.
  unfold decode_body, dbind. split.
  - destruct (read_reconfigure (reader_new buf)) as [[q r]|e] eqn:E; [|done].
    destruct (finish r) as [[[] r']|e] eqn:Ef; [|done]. cbn. intros. simplify_eq.
    assert (r' = r) as -> by (unfold finish in Ef; case_match; by simplify_eq). eauto.
  - by intros (r & -> & ->).
Qed.

(** A reconfiguration op's body decodes to exactly the payload that was
    encoded, and a body that decodes has no other valid extension: bytes appended
    to it are refused. *)
Theorem payload_roundtrip p extra :
  payload_wf p -> zlen extra < 2 ^ 62 ->
  decode_body (encode_body p) = Ok p /\
  (extra <> [] -> is_ok (decode_body (encode_body p ++ extra)) = false).
Proof.
  intros Hwf Hx. pose proof Hwf as (_ & _ & Hml & _).
  assert (zlen (encode_body p) < 2 ^ 40) as Hlen.
  { unfold encode_body, write_reconfigure.
    rewrite !length_app, !length_be_bytes, !Nat2Z.inj_add, length_ids.
    change (2 ^ 40) with (2 ^ 32 * 256). lia. }
  assert (2 ^ 40 + 2 ^ 62 < 2 ^ 63) by done. pose proof (pow_pos 62).
  destruct (reads_finish read_reconfigure (encode_body p) p (encode_body p)) as (r & E & Ef);
    [lia|done|by apply reads_payload|].
  split; [apply decode_body_Ok; eauto|]. intros Hne.
  destruct (decode_body (encode_body p ++ extra)) as [q|] eqn:Eq; [|done].
  apply decode_body_Ok in Eq as (r' & Er & Ef'). exfalso.
  assert (zlen (encode_body p ++ extra) < 2 ^ 63) by (rewrite length_app; lia).
  exact (parses_no_prefix _ _ _ _ _ _ _ _ parses_payload H1 Hne E Ef Er Ef').
Qed.

Lemma payload_roundtrip_witness :
  decode_body (encode_body (from_membership sample 98)) = Ok (from_membership sample 98) /\
  ([x00] <> [] -> is_ok (decode_body (encode_body (from_membership sample 98) ++ [x00])) = false).
Proof.
  apply payload_roundtrip; [|simpl; lia]. unfold payload_wf. simpl. split_and!; compute_done.
Defined.

(** The crossing gate installs exactly what the proposer built: the payload
    captured from a delta's successor rebuilds that very membership under the
    successor's own epoch and id, and under any other claimed id it is refused as
    a fork. *)
Theorem verified_successor m d m' id :
  wf m -> apply_delta m d = Ok m' ->
  to_membership_verified (from_membership m' (m_config_id m)) (m_epoch m') id =
  if id =? m_config_id m' then Ok m' else Err ForkedConfigId.
Proof.
  intros Hwf E. apply (apply_delta_step m Hwf) in E as (Hwf' & _ & He & Hid).
  unfold to_membership_verified, recompute_config_id, from_membership. simpl.
  rewrite <-Hid, Z.eqb_sym.
  destruct (Z.eqb_spec id (m_config_id m')) as [->|]; [|done].
  by apply from_durable_parts_wf.
Qed.

Lemma verified_successor_witness :
  exists m', apply_delta sample (PromoteLearner 14) = Ok m' /\
  to_membership_verified (from_membership m' (m_config_id sample)) (m_epoch m') (m_config_id m') =
  (if m_config_id m' =? m_config_id m' then Ok m' else Err ForkedConfigId).
Proof.
  destruct (apply_delta sample (PromoteLearner 14)) as [m'|e] eqn:E.
  - exists m'. split; [done|].
    apply (verified_successor sample (PromoteLearner 14) m' _ sample_wf E).
  - assert (is_ok (apply_delta sample (PromoteLearner 14)) = true) as H
      by (vm_compute; reflexivity). rewrite E in H. done.
Defined.
