(* ===== verification/Messages.v ===== *)
(** * The protocol messages

    [viewstamp-proto/src/message/mod.rs]: the message structs with their fields
    (constructors and accessors are the record's own), the [Message] enum, the
    emission gate [advertises_authoritative_view], the frame budget, and
    [wire_size_bound], the bound a transport checks before it encodes.  [Body],
    [PreparedEntry] and [DoViewChange] are in [Message]. *)

From S2P Require Import Prelude Core Hash Membership Codec Message.

(** A [BlockAddress] is the sixteen bytes of a digest, here the digest. *)
Abbreviation BlockAddress := Z (only parsing).

(** [block_address] of [block_store/mod.rs]. *)
Definition block_address (block : list byte) : BlockAddress := fnv1a_128 block.

Record Request : Type := mkRequest {
  rq_client : ClientId;
  rq_request : RequestNumber;
  rq_body : list byte;
}.

Record Prepare : Type := mkPrepare {
  pp_view : View;
  pp_op : OpNumber;
  pp_commit : OpNumber;
  pp_checkpoint_op : OpNumber;
  pp_epoch : Epoch;
  pp_config_id : Z;
  pp_client : ClientId;
  pp_request : RequestNumber;
  pp_body : list byte;
}.

Record PrepareOk : Type := mkPrepareOk {
  po_view : View;
  po_op : OpNumber;
  po_replica : ReplicaId;
  po_checkpoint_op : OpNumber;
  po_prepare_checksum : Z;
  po_epoch : Epoch;
  po_config_id : Z;
}.

Record Reply : Type := mkReply {
  rp_view : View;
  rp_client : ClientId;
  rp_request : RequestNumber;
  rp_body : list byte;
}.

Record Commit : Type := mkCommit {
  cm_view : View;
  cm_commit : OpNumber;
  cm_checkpoint_op : OpNumber;
  cm_epoch : Epoch;
  cm_config_id : Z;
}.

Record StartViewChange : Type := mkStartViewChange {
  svc_view : View;
  svc_replica : ReplicaId;
  svc_epoch : Epoch;
  svc_config_id : Z;
}.

Record StartView : Type := mkStartView {
  sv_view : View;
  sv_op : OpNumber;
  sv_commit : OpNumber;
  sv_checkpoint_op : OpNumber;
  sv_epoch : Epoch;
  sv_config_id : Z;
  sv_replica : ReplicaId;
  sv_log : list PreparedEntry;
}.

Record GetView : Type := mkGetView {
  gv_view : View;
  gv_replica : ReplicaId;
  gv_nonce : Z;
  gv_epoch : Epoch;
  gv_config_id : Z;
}.

Record RequestPrepare : Type := mkRequestPrepare {
  rpr_view : View;
  rpr_op : OpNumber;
  rpr_replica : ReplicaId;
  rpr_config_id : Z;
}.

Record Recovery : Type := mkRecovery {
  rc_replica : ReplicaId;
  rc_nonce : Z;
  rc_epoch : Epoch;
  rc_config_id : Z;
}.

Record RecoveryResponse : Type := mkRecoveryResponse {
  rr_view : View;
  rr_op : OpNumber;
  rr_commit : OpNumber;
  rr_checkpoint_op : OpNumber;
  rr_epoch : Epoch;
  rr_config_id : Z;
  rr_replica : ReplicaId;
  rr_nonce : Z;
  rr_log : list PreparedEntry;
}.

Record RequestSync : Type := mkRequestSync {
  rs_view : View;
  rs_checkpoint_op : OpNumber;
  rs_replica : ReplicaId;
  rs_nonce : Z;
  rs_recovery : bool;
  rs_config_id : Z;
}.

Record SyncCheckpoint : Type := mkSyncCheckpoint {
  sc_view : View;
  sc_checkpoint_op : OpNumber;
  sc_checkpoint_id : Z;
  sc_epoch : Epoch;
  sc_config_id : Z;
  sc_replica : ReplicaId;
  sc_nonce : Z;
  sc_snapshot : list byte;
  sc_membership : list byte;
  sc_config_install_op : option Z;
}.

Record RequestPrepareRange : Type := mkRequestPrepareRange {
  rg_view : View;
  rg_lo : OpNumber;
  rg_hi : OpNumber;
  rg_replica : ReplicaId;
  rg_config_id : Z;
}.

Record RepairBatch : Type := mkRepairBatch {
  rb_view : View;
  rb_commit : OpNumber;
  rb_checkpoint_op : OpNumber;
  rb_config_id : Z;
  rb_log : list PreparedEntry;
}.

Record PrepareBatch : Type := mkPrepareBatch {
  bt_view : View;
  bt_commit : OpNumber;
  bt_checkpoint_op : OpNumber;
  bt_epoch : Epoch;
  bt_config_id : Z;
  bt_log : list PreparedEntry;
}.

Record LearnerStatus : Type := mkLearnerStatus {
  ls_replica : ReplicaId;
  ls_durable_commit_min : OpNumber;
  ls_durable_op : OpNumber;
  ls_epoch : Epoch;
  ls_config_id : Z;
}.

Record EpochAhead : Type := mkEpochAhead {
  ea_epoch : Epoch;
  ea_checkpoint_op : OpNumber;
}.

Record RequestLearnerProof : Type := mkRequestLearnerProof {
  rlp_from : ReplicaId;
  rlp_at_op : OpNumber;
  rlp_nonce : Z;
  rlp_epoch : Epoch;
  rlp_config_id : Z;
}.

Record LearnerProof : Type := mkLearnerProof {
  lp_replica : ReplicaId;
  lp_nonce : Z;
  lp_frontier : OpNumber;
  lp_epoch : Epoch;
  lp_config_id : Z;
}.

Record BlockResponse : Type := mkBlockResponse {
  br_addr : Z;
  br_block : option (list byte);
}.

Record Nack : Type := mkNack {
  nk_view : View;
  nk_op : OpNumber;
  nk_replica : ReplicaId;
  nk_config_id : Z;
}.

Record RequestHealthProof : Type := mkRequestHealthProof {
  rhp_from : ReplicaId;
  rhp_nonce : Z;
  rhp_epoch : Epoch;
  rhp_config_id : Z;
}.

Record HealthProof : Type := mkHealthProof {
  hp_replica : ReplicaId;
  hp_nonce : Z;
  hp_epoch : Epoch;
  hp_config_id : Z;
}.

Inductive Message : Type :=
| MRequest (m : Request)
| MPrepare (m : Prepare)
| MPrepareOk (m : PrepareOk)
| MReply (m : Reply)
| MCommit (m : Commit)
| MStartViewChange (m : StartViewChange)
| MDoViewChange (m : DoViewChange)
| MStartView (m : StartView)
| MGetView (m : GetView)
| MRequestPrepare (m : RequestPrepare)
| MRecovery (m : Recovery)
| MRecoveryResponse (m : RecoveryResponse)
| MRequestSync (m : RequestSync)
| MSyncCheckpoint (m : SyncCheckpoint)
| MRequestPrepareRange (m : RequestPrepareRange)
| MRepairBatch (m : RepairBatch)
| MPrepareBatch (m : PrepareBatch)
| MLearnerStatus (m : LearnerStatus)
| MEpochAhead (m : EpochAhead)
| MRequestLearnerProof (m : RequestLearnerProof)
| MLearnerProof (m : LearnerProof)
| MRequestBlock (m : BlockAddress)
| MBlockResponse (m : BlockResponse)
| MNack (m : Nack)
| MRequestHealthProof (m : RequestHealthProof)
| MHealthProof (m : HealthProof).

(** Messages that claim or vote in the sender's view, which must be durable before
    one leaves. *)
Definition advertises_authoritative_view (msg : Message) : bool :=
  match msg with
  | MPrepare _ | MPrepareOk _ | MCommit _ | MDoViewChange _ | MStartView _ | MRecoveryResponse _
  | MSyncCheckpoint _ | MRepairBatch _ | MPrepareBatch _ => true
  | MRequest _ | MReply _ | MStartViewChange _ | MGetView _ | MRequestPrepare _
  | MRequestPrepareRange _ | MRecovery _ | MRequestSync _ | MLearnerStatus _ | MEpochAhead _
  | MRequestLearnerProof _ | MLearnerProof _ | MRequestHealthProof _ | MHealthProof _
  | MRequestBlock _ | MBlockResponse _ | MNack _ => false
  end.

(** ** The frame budget *)

Definition MAX_FRAME_LEN : Z := 16 * 1024 * 1024.
Definition WORST_UINT64_FIELD : Z := 1 + 10.
Definition WORST_ID_FIELD : Z := 1 + 1 + 16.
Definition LEN_FIELD_OVERHEAD : Z := 1 + 5.
Definition ENVELOPE_ARM_OVERHEAD : Z := 2 + 5.
Definition REQUEST_ENCODE_OVERHEAD : Z :=
  ENVELOPE_ARM_OVERHEAD + WORST_ID_FIELD + WORST_UINT64_FIELD + LEN_FIELD_OVERHEAD.
Definition PREPARE_ENCODE_OVERHEAD : Z :=
  ENVELOPE_ARM_OVERHEAD + 6 * WORST_UINT64_FIELD + 2 * WORST_ID_FIELD + LEN_FIELD_OVERHEAD.
Definition REPLY_ENCODE_OVERHEAD : Z :=
  ENVELOPE_ARM_OVERHEAD + 2 * WORST_UINT64_FIELD + WORST_ID_FIELD + LEN_FIELD_OVERHEAD.
Definition max_reply_body_len : Z := MAX_FRAME_LEN - REPLY_ENCODE_OVERHEAD.
Definition LOG_ENTRY_BODY_OVERHEAD : Z :=
  LEN_FIELD_OVERHEAD + 2 * WORST_UINT64_FIELD + WORST_ID_FIELD + LEN_FIELD_OVERHEAD.
Definition REPAIR_BATCH_CARRIER_OVERHEAD : Z :=
  ENVELOPE_ARM_OVERHEAD + 3 * WORST_UINT64_FIELD + WORST_ID_FIELD.
Definition REPAIR_BATCH_BODY_OVERHEAD : Z := REPAIR_BATCH_CARRIER_OVERHEAD + LOG_ENTRY_BODY_OVERHEAD.
Definition PREPARE_BATCH_CARRIER_OVERHEAD : Z :=
  ENVELOPE_ARM_OVERHEAD + 4 * WORST_UINT64_FIELD + WORST_ID_FIELD.
Definition PREPARE_BATCH_BODY_OVERHEAD : Z := PREPARE_BATCH_CARRIER_OVERHEAD + LOG_ENTRY_BODY_OVERHEAD.
Definition present_entry_encoded_len (body_len : Z) : Z := LOG_ENTRY_BODY_OVERHEAD + body_len.
Definition PER_HEADER_ENTRY_BYTES : Z := 2 + 2 * WORST_UINT64_FIELD + 2 * WORST_ID_FIELD.
Definition MAX_HEADER_ONLY_BAND_DEPTH : Z := (MAX_FRAME_LEN - 128) / PER_HEADER_ENTRY_BYTES.
Definition MAX_REQUEST_BODY_OVERHEAD : Z :=
  Z.max (Z.max REQUEST_ENCODE_OVERHEAD PREPARE_ENCODE_OVERHEAD)
        (Z.max REPAIR_BATCH_BODY_OVERHEAD PREPARE_BATCH_BODY_OVERHEAD).

(** [max_request_body_len] of [transport/frame/mod.rs]. *)
Definition max_request_body_len : Z := MAX_FRAME_LEN - MAX_REQUEST_BODY_OVERHEAD.

(** ** The size bound a send is checked against *)

Definition fixed_fields_bound (scalars ids : Z) : Z :=
  sat_add 64 (sat_add 64 ENVELOPE_ARM_OVERHEAD (sat_mul 64 scalars WORST_UINT64_FIELD))
          (sat_mul 64 ids WORST_ID_FIELD).

Definition reconfigure_entry_wire_size_bound (p : ReconfigurePayload) : Z :=
  sat_add 64 LOG_ENTRY_BODY_OVERHEAD
    (sat_add 64 (sat_add 64 (2 * WORST_UINT64_FIELD) WORST_ID_FIELD)
       (sat_mul 64 (zlen (p_members p)) WORST_ID_FIELD)).

Definition entry_wire_size_bound (e : PreparedEntry) : Z :=
  match e_body e with
  | Present bytes => present_entry_encoded_len (zlen bytes)
  | Repairing _ => PER_HEADER_ENTRY_BYTES
  | Reconfigure payload => reconfigure_entry_wire_size_bound payload
  end.

Definition log_wire_size_bound (log : list PreparedEntry) : Z :=
  fold_left (fun acc e => sat_add 64 acc (entry_wire_size_bound e)) log 0.

Definition wire_size_bound (msg : Message) : Z :=
  match msg with
  | MRequest m => sat_add 64 REQUEST_ENCODE_OVERHEAD (zlen (rq_body m))
  | MPrepare m => sat_add 64 PREPARE_ENCODE_OVERHEAD (zlen (pp_body m))
  | MPrepareOk _ => fixed_fields_bound 5 2
  | MReply m => sat_add 64 REPLY_ENCODE_OVERHEAD (zlen (rp_body m))
  | MCommit _ => fixed_fields_bound 4 1
  | MStartViewChange _ => fixed_fields_bound 3 1
  | MDoViewChange m => sat_add 64 (fixed_fields_bound 7 1) (log_wire_size_bound (d_log m))
  | MStartView m => sat_add 64 (fixed_fields_bound 6 1) (log_wire_size_bound (sv_log m))
  | MGetView _ => fixed_fields_bound 4 1
  | MRequestPrepare _ => fixed_fields_bound 3 1
  | MRecovery _ => fixed_fields_bound 3 1
  | MRecoveryResponse m => sat_add 64 (fixed_fields_bound 7 1) (log_wire_size_bound (rr_log m))
  | MRequestSync _ => fixed_fields_bound 5 1
  | MSyncCheckpoint m =>
      sat_add 64 (sat_add 64 (sat_add 64 (sat_add 64 (fixed_fields_bound 6 2)
        LEN_FIELD_OVERHEAD) (zlen (sc_snapshot m))) LEN_FIELD_OVERHEAD) (zlen (sc_membership m))
  | MRequestPrepareRange _ => fixed_fields_bound 4 1
  | MRepairBatch m => sat_add 64 REPAIR_BATCH_CARRIER_OVERHEAD (log_wire_size_bound (rb_log m))
  | MPrepareBatch m => sat_add 64 PREPARE_BATCH_CARRIER_OVERHEAD (log_wire_size_bound (bt_log m))
  | MLearnerStatus _ => fixed_fields_bound 4 1
  | MEpochAhead _ => fixed_fields_bound 2 0
  | MRequestLearnerProof _ => fixed_fields_bound 4 1
  | MLearnerProof _ => fixed_fields_bound 4 1
  | MRequestHealthProof _ => fixed_fields_bound 3 1
  | MHealthProof _ => fixed_fields_bound 3 1
  | MRequestBlock _ => fixed_fields_bound 0 1
  | MBlockResponse m =>
      sat_add 64 (fixed_fields_bound 0 1)
        match br_block m with None => 0 | Some b => sat_add 64 LEN_FIELD_OVERHEAD (zlen b) end
  | MNack _ => fixed_fields_bound 3 1
  end.
