(* ===== verification/Wire.v ===== *)
(** * The wire envelope

    [viewstamp-proto/src/wire/]: the shapes of [proto/viewstamp/v1/messages.proto]
    (the generated types, one record per message) and the conversions of
    [convert.rs], [messages_a.rs] and [messages_b.rs] between them and the domain
    messages, composed by [pb_message] and [message_from] of [mod.rs].  An envelope keeps
    the unknown fields that came with it, which no conversion reads.  Then the
    encoded size of an envelope under the proto3 wire format, which the generated
    encoder follows: fields in order, a default scalar or empty field omitted, an
    [optional] or [oneof] field written when present. *)

From stdpp Require Import strings.
From S2P Require Import Prelude Core Hash Membership Codec Message Messages.

Definition MAX_RECONFIGURE_MEMBERS : Z := umax 16.

(** ** Wire shapes *)

Record PbReconfigure : Type := mkPbReconfigure {
  wp_replica_count : Z;
  wp_learner_count : Z;
  wp_members : list (list byte);
  wp_prev_config_id : list byte;
}.

Inductive PbBodyState : Type :=
| PbPresent (bytes : list byte)
| PbRepairingChecksum (checksum : list byte)
| PbReconfigureBody (payload : PbReconfigure).

Record PbEntry : Type := mkPbEntry {
  we_op : Z;
  we_client : list byte;
  we_request : Z;
  we_body_state : option PbBodyState;
}.

Record PbRequest : Type := mkPbRequest {
  wrq_client : list byte;
  wrq_request : Z;
  wrq_body : list byte;
}.

Record PbPrepare : Type := mkPbPrepare {
  wpp_view : Z;
  wpp_op : Z;
  wpp_commit : Z;
  wpp_checkpoint_op : Z;
  wpp_epoch : Z;
  wpp_config_id : list byte;
  wpp_client : list byte;
  wpp_request : Z;
  wpp_body : list byte;
}.

Record PbPrepareOk : Type := mkPbPrepareOk {
  wpo_view : Z;
  wpo_op : Z;
  wpo_replica : Z;
  wpo_checkpoint_op : Z;
  wpo_prepare_checksum : list byte;
  wpo_epoch : Z;
  wpo_config_id : list byte;
}.

Record PbReply : Type := mkPbReply {
  wrp_view : Z;
  wrp_client : list byte;
  wrp_request : Z;
  wrp_body : list byte;
}.

Record PbCommit : Type := mkPbCommit {
  wcm_view : Z;
  wcm_commit : Z;
  wcm_checkpoint_op : Z;
  wcm_epoch : Z;
  wcm_config_id : list byte;
}.

Record PbStartViewChange : Type := mkPbStartViewChange {
  wsvc_view : Z;
  wsvc_replica : Z;
  wsvc_epoch : Z;
  wsvc_config_id : list byte;
}.

Record PbDoViewChange : Type := mkPbDoViewChange {
  wd_view : Z;
  wd_log_view : Z;
  wd_op : Z;
  wd_commit : Z;
  wd_checkpoint_op : Z;
  wd_epoch : Z;
  wd_config_id : list byte;
  wd_replica : Z;
  wd_log : list PbEntry;
}.

Record PbStartView : Type := mkPbStartView {
  wsv_view : Z;
  wsv_op : Z;
  wsv_commit : Z;
  wsv_checkpoint_op : Z;
  wsv_epoch : Z;
  wsv_config_id : list byte;
  wsv_replica : Z;
  wsv_log : list PbEntry;
}.

Record PbGetView : Type := mkPbGetView {
  wgv_view : Z;
  wgv_replica : Z;
  wgv_nonce : Z;
  wgv_epoch : Z;
  wgv_config_id : list byte;
}.

Record PbRequestPrepare : Type := mkPbRequestPrepare {
  wrpr_view : Z;
  wrpr_op : Z;
  wrpr_replica : Z;
  wrpr_config_id : list byte;
}.

Record PbRecovery : Type := mkPbRecovery {
  wrc_replica : Z;
  wrc_nonce : Z;
  wrc_epoch : Z;
  wrc_config_id : list byte;
}.

Record PbRecoveryResponse : Type := mkPbRecoveryResponse {
  wrr_view : Z;
  wrr_op : Z;
  wrr_commit : Z;
  wrr_checkpoint_op : Z;
  wrr_epoch : Z;
  wrr_config_id : list byte;
  wrr_replica : Z;
  wrr_nonce : Z;
  wrr_log : list PbEntry;
}.

Record PbRequestSync : Type := mkPbRequestSync {
  wrs_view : Z;
  wrs_checkpoint_op : Z;
  wrs_replica : Z;
  wrs_nonce : Z;
  wrs_recovery : bool;
  wrs_config_id : list byte;
}.

Record PbSyncCheckpoint : Type := mkPbSyncCheckpoint {
  wsc_view : Z;
  wsc_checkpoint_op : Z;
  wsc_checkpoint_id : list byte;
  wsc_epoch : Z;
  wsc_config_id : list byte;
  wsc_replica : Z;
  wsc_nonce : Z;
  wsc_snapshot : list byte;
  wsc_membership : list byte;
  wsc_config_install_op : option Z;
}.

Record PbRequestPrepareRange : Type := mkPbRequestPrepareRange {
  wrg_view : Z;
  wrg_lo : Z;
  wrg_hi : Z;
  wrg_replica : Z;
  wrg_config_id : list byte;
}.

Record PbRepairBatch : Type := mkPbRepairBatch {
  wrb_view : Z;
  wrb_commit : Z;
  wrb_checkpoint_op : Z;
  wrb_config_id : list byte;
  wrb_log : list PbEntry;
}.

Record PbPrepareBatch : Type := mkPbPrepareBatch {
  wbt_view : Z;
  wbt_commit : Z;
  wbt_checkpoint_op : Z;
  wbt_epoch : Z;
  wbt_config_id : list byte;
  wbt_log : list PbEntry;
}.

Record PbLearnerStatus : Type := mkPbLearnerStatus {
  wls_replica : Z;
  wls_durable_commit_min : Z;
  wls_durable_op : Z;
  wls_epoch : Z;
  wls_config_id : list byte;
}.

Record PbEpochAhead : Type := mkPbEpochAhead {
  wea_epoch : Z;
  wea_checkpoint_op : Z;
}.

Record PbRequestLearnerProof : Type := mkPbRequestLearnerProof {
  wrlp_from : Z;
  wrlp_at_op : Z;
  wrlp_nonce : Z;
  wrlp_epoch : Z;
  wrlp_config_id : list byte;
}.

Record PbLearnerProof : Type := mkPbLearnerProof {
  wlp_replica : Z;
  wlp_nonce : Z;
  wlp_frontier : Z;
  wlp_epoch : Z;
  wlp_config_id : list byte;
}.

Record PbRequestBlock : Type := mkPbRequestBlock {
  wrk_addr : list byte;
}.

Record PbBlockResponse : Type := mkPbBlockResponse {
  wbr_addr : list byte;
  wbr_block : option (list byte);
}.

Record PbNack : Type := mkPbNack {
  wnk_view : Z;
  wnk_op : Z;
  wnk_replica : Z;
  wnk_config_id : list byte;
}.

Record PbRequestHealthProof : Type := mkPbRequestHealthProof {
  wrhp_from : Z;
  wrhp_nonce : Z;
  wrhp_epoch : Z;
  wrhp_config_id : list byte;
}.

Record PbHealthProof : Type := mkPbHealthProof {
  whp_replica : Z;
  whp_nonce : Z;
  whp_epoch : Z;
  whp_config_id : list byte;
}.

(** [pb::message::Body] *)
Inductive PbBody : Type :=
| BRequest (w : PbRequest)
| BPrepare (w : PbPrepare)
| BPrepareOk (w : PbPrepareOk)
| BReply (w : PbReply)
| BCommit (w : PbCommit)
| BStartViewChange (w : PbStartViewChange)
| BDoViewChange (w : PbDoViewChange)
| BStartView (w : PbStartView)
| BGetView (w : PbGetView)
| BRequestPrepare (w : PbRequestPrepare)
| BRecovery (w : PbRecovery)
| BRecoveryResponse (w : PbRecoveryResponse)
| BRequestSync (w : PbRequestSync)
| BSyncCheckpoint (w : PbSyncCheckpoint)
| BRequestPrepareRange (w : PbRequestPrepareRange)
| BRepairBatch (w : PbRepairBatch)
| BPrepareBatch (w : PbPrepareBatch)
| BLearnerStatus (w : PbLearnerStatus)
| BEpochAhead (w : PbEpochAhead)
| BRequestLearnerProof (w : PbRequestLearnerProof)
| BLearnerProof (w : PbLearnerProof)
| BRequestBlock (w : PbRequestBlock)
| BBlockResponse (w : PbBlockResponse)
| BNack (w : PbNack)
| BRequestHealthProof (w : PbRequestHealthProof)
| BHealthProof (w : PbHealthProof).

(** A field this build has no name for, kept by the runtime as it came. *)
Record PbUnknown : Type := mkPbUnknown {
  pu_field : Z;
  pu_value : list byte;
}.

(** [pb::Message]: the envelope is an optional body, and beside it what the runtime kept
    of unknown fields.  Every generated type keeps its own; nothing reads them, so the
    ones of all levels are gathered here. *)
Record PbMessage : Type := mkPbMessage {
  pm_body : option PbBody;
  pm_unknown : list PbUnknown;
}.

(** ** Shared conversions ([convert.rs]) *)

Definition malformed (what : string) : CodecError := Malformed what.

Definition u128_bytes (v : Z) : list byte := be_bytes 16 v.

Definition u128_from (b : list byte) (what : string) : result CodecError Z :=
  if (length b =? 16)%nat then Ok (from_be_bytes b) else Err (malformed what).

Definition replica_from (v : Z) (what : string) : result CodecError ReplicaId :=
  if v <=? umax 16 then Ok v else Err (malformed what).

(** [iter().map(f).collect::<Result<Vec<_>, _>>()]: the first error wins. *)
Fixpoint collect {A B} (f : A -> result CodecError B) (l : list A) : result CodecError (list B) :=
  match l with
  | [] => Ok []
  | x :: r => let? y := f x in let? ys := collect f r in Ok (y :: ys)
  end.

Definition pb_reconfigure (p : ReconfigurePayload) : PbReconfigure :=
  mkPbReconfigure (p_replica_count p) (p_learner_count p) (map u128_bytes (p_members p))
    (u128_bytes (p_prev_config_id p)).

Definition reconfigure_from (w : PbReconfigure) : result CodecError ReconfigurePayload :=
  if MAX_RECONFIGURE_MEMBERS <? zlen (wp_members w)
  then Err (malformed "ReconfigurePayload.members")
  else if umax 8 <? wp_replica_count w then Err (malformed "ReconfigurePayload.replica_count")
  else if umax 16 <? wp_learner_count w then Err (malformed "ReconfigurePayload.learner_count")
  else
    let? prev_config_id := u128_from (wp_prev_config_id w) "ReconfigurePayload.prev_config_id" in
    let? members := collect (fun m => u128_from m "ReconfigurePayload.members") (wp_members w) in
    Ok (mkPayload (wp_replica_count w) (wp_learner_count w) members prev_config_id).

Definition pb_entry (e : PreparedEntry) : PbEntry :=
  mkPbEntry (e_op e) (u128_bytes (e_client e)) (e_request e)
    (Some match e_body e with
          | Present bytes => PbPresent bytes
          | Repairing checksum => PbRepairingChecksum (u128_bytes checksum)
          | Reconfigure payload => PbReconfigureBody (pb_reconfigure payload)
          end).

Definition entry_from (w : PbEntry) : result CodecError PreparedEntry :=
  let? client := u128_from (we_client w) "PreparedEntry.client" in
  match we_body_state w with
  | Some (PbPresent body) =>
      if client =? RECONFIGURATION then Err (malformed "PreparedEntry.body_state")
      else Ok (mkEntry (we_op w) client (we_request w) (Present body))
  | Some (PbRepairingChecksum checksum) =>
      let? checksum := u128_from checksum "PreparedEntry.repairing_checksum" in
      Ok (entry_repairing (we_op w) client (we_request w) checksum)
  | Some (PbReconfigureBody payload) =>
      let? payload := reconfigure_from payload in
      Ok (mkEntry (we_op w) client (we_request w) (Reconfigure payload))
  | None => Err (malformed "PreparedEntry.body_state")
  end.

(** [pb_log] *)
Definition wire_log (log : list PreparedEntry) : list PbEntry := map pb_entry log.

Definition log_from (w : list PbEntry) : result CodecError (list PreparedEntry) :=
  if MAX_HEADER_ONLY_BAND_DEPTH <? zlen w then Err (malformed "Message.log")
  else collect entry_from w.

(** The pairing [sync_checkpoint_from] enforces: a membership and its producing op
    arrive together or not at all. *)
Definition install_op_from (membership : list byte) (op : option Z) : result CodecError (option Z) :=
  match membership, op with
  | _ :: _, Some op => Ok (Some op)
  | [], None => Ok None
  | _ :: _, None =>
      Err (Malformed "SyncCheckpoint.config_install_op absent with a membership attached")
  | [], Some _ =>
      Err (Malformed "SyncCheckpoint.config_install_op present without a membership")
  end.

(** ** Message conversions ([messages_a.rs], [messages_b.rs]) *)

Definition pb_request (m : Request) : PbRequest :=
  mkPbRequest (u128_bytes (rq_client m)) (rq_request m) (rq_body m).

Definition request_from (w : PbRequest) : result CodecError Request :=
  let? client := u128_from (wrq_client w) "Request.client" in
  Ok (mkRequest client (wrq_request w) (wrq_body w)).

Definition pb_prepare (m : Prepare) : PbPrepare :=
  mkPbPrepare (pp_view m) (pp_op m) (pp_commit m) (pp_checkpoint_op m) (pp_epoch m)
      (u128_bytes (pp_config_id m)) (u128_bytes (pp_client m)) (pp_request m) (pp_body m).

Definition prepare_from (w : PbPrepare) : result CodecError Prepare :=
  let? config_id := u128_from (wpp_config_id w) "Prepare.config_id" in
  let? client := u128_from (wpp_client w) "Prepare.client" in
  Ok (mkPrepare (wpp_view w) (wpp_op w) (wpp_commit w) (wpp_checkpoint_op w) (wpp_epoch w)
      config_id client (wpp_request w) (wpp_body w)).

Definition pb_prepare_ok (m : PrepareOk) : PbPrepareOk :=
  mkPbPrepareOk (po_view m) (po_op m) (po_replica m) (po_checkpoint_op m)
      (u128_bytes (po_prepare_checksum m)) (po_epoch m) (u128_bytes (po_config_id m)).

Definition prepare_ok_from (w : PbPrepareOk) : result CodecError PrepareOk :=
  let? replica := replica_from (wpo_replica w) "PrepareOk.replica" in
  let? prepare_checksum := u128_from (wpo_prepare_checksum w) "PrepareOk.prepare_checksum" in
  let? config_id := u128_from (wpo_config_id w) "PrepareOk.config_id" in
  Ok (mkPrepareOk (wpo_view w) (wpo_op w) replica (wpo_checkpoint_op w) prepare_checksum
      (wpo_epoch w) config_id).

Definition pb_reply (m : Reply) : PbReply :=
  mkPbReply (rp_view m) (u128_bytes (rp_client m)) (rp_request m) (rp_body m).

Definition reply_from (w : PbReply) : result CodecError Reply :=
  let? client := u128_from (wrp_client w) "Reply.client" in
  Ok (mkReply (wrp_view w) client (wrp_request w) (wrp_body w)).

Definition pb_commit (m : Commit) : PbCommit :=
  mkPbCommit (cm_view m) (cm_commit m) (cm_checkpoint_op m) (cm_epoch m)
      (u128_bytes (cm_config_id m)).

Definition commit_from (w : PbCommit) : result CodecError Commit :=
  let? config_id := u128_from (wcm_config_id w) "Commit.config_id" in
  Ok (mkCommit (wcm_view w) (wcm_commit w) (wcm_checkpoint_op w) (wcm_epoch w) config_id).

Definition pb_start_view_change (m : StartViewChange) : PbStartViewChange :=
  mkPbStartViewChange (svc_view m) (svc_replica m) (svc_epoch m) (u128_bytes (svc_config_id m)).

Definition start_view_change_from (w : PbStartViewChange) : result CodecError StartViewChange :=
  let? replica := replica_from (wsvc_replica w) "StartViewChange.replica" in
  let? config_id := u128_from (wsvc_config_id w) "StartViewChange.config_id" in
  Ok (mkStartViewChange (wsvc_view w) replica (wsvc_epoch w) config_id).

Definition pb_do_view_change (m : DoViewChange) : PbDoViewChange :=
  mkPbDoViewChange (d_view m) (d_log_view m) (d_op m) (d_commit m) (d_checkpoint_op m)
      (d_epoch m) (u128_bytes (d_config_id m)) (d_replica m) (wire_log (d_log m)).

Definition do_view_change_from (w : PbDoViewChange) : result CodecError DoViewChange :=
  let? config_id := u128_from (wd_config_id w) "DoViewChange.config_id" in
  let? replica := replica_from (wd_replica w) "DoViewChange.replica" in
  let? log := log_from (wd_log w) in
  Ok (mkDVC (wd_view w) (wd_log_view w) (wd_op w) (wd_commit w) (wd_checkpoint_op w)
      (wd_epoch w) config_id replica log).

Definition pb_start_view (m : StartView) : PbStartView :=
  mkPbStartView (sv_view m) (sv_op m) (sv_commit m) (sv_checkpoint_op m) (sv_epoch m)
      (u128_bytes (sv_config_id m)) (sv_replica m) (wire_log (sv_log m)).

Definition start_view_from (w : PbStartView) : result CodecError StartView :=
  let? config_id := u128_from (wsv_config_id w) "StartView.config_id" in
  let? replica := replica_from (wsv_replica w) "StartView.replica" in
  let? log := log_from (wsv_log w) in
  Ok (mkStartView (wsv_view w) (wsv_op w) (wsv_commit w) (wsv_checkpoint_op w) (wsv_epoch w)
      config_id replica log).

Definition pb_get_view (m : GetView) : PbGetView :=
  mkPbGetView (gv_view m) (gv_replica m) (gv_nonce m) (gv_epoch m)
      (u128_bytes (gv_config_id m)).

Definition get_view_from (w : PbGetView) : result CodecError GetView :=
  let? replica := replica_from (wgv_replica w) "GetView.replica" in
  let? config_id := u128_from (wgv_config_id w) "GetView.config_id" in
  Ok (mkGetView (wgv_view w) replica (wgv_nonce w) (wgv_epoch w) config_id).

Definition pb_request_prepare (m : RequestPrepare) : PbRequestPrepare :=
  mkPbRequestPrepare (rpr_view m) (rpr_op m) (rpr_replica m) (u128_bytes (rpr_config_id m)).

Definition request_prepare_from (w : PbRequestPrepare) : result CodecError RequestPrepare :=
  let? replica := replica_from (wrpr_replica w) "RequestPrepare.replica" in
  let? config_id := u128_from (wrpr_config_id w) "RequestPrepare.config_id" in
  Ok (mkRequestPrepare (wrpr_view w) (wrpr_op w) replica config_id).

Definition pb_recovery (m : Recovery) : PbRecovery :=
  mkPbRecovery (rc_replica m) (rc_nonce m) (rc_epoch m) (u128_bytes (rc_config_id m)).

Definition recovery_from (w : PbRecovery) : result CodecError Recovery :=
  let? replica := replica_from (wrc_replica w) "Recovery.replica" in
  let? config_id := u128_from (wrc_config_id w) "Recovery.config_id" in
  Ok (mkRecovery replica (wrc_nonce w) (wrc_epoch w) config_id).

Definition pb_recovery_response (m : RecoveryResponse) : PbRecoveryResponse :=
  mkPbRecoveryResponse (rr_view m) (rr_op m) (rr_commit m) (rr_checkpoint_op m) (rr_epoch m)
      (u128_bytes (rr_config_id m)) (rr_replica m) (rr_nonce m) (wire_log (rr_log m)).

Definition recovery_response_from (w : PbRecoveryResponse) : result CodecError
    RecoveryResponse :=
  let? config_id := u128_from (wrr_config_id w) "RecoveryResponse.config_id" in
  let? replica := replica_from (wrr_replica w) "RecoveryResponse.replica" in
  let? log := log_from (wrr_log w) in
  Ok (mkRecoveryResponse (wrr_view w) (wrr_op w) (wrr_commit w) (wrr_checkpoint_op w)
      (wrr_epoch w) config_id replica (wrr_nonce w) log).

Definition pb_request_sync (m : RequestSync) : PbRequestSync :=
  mkPbRequestSync (rs_view m) (rs_checkpoint_op m) (rs_replica m) (rs_nonce m)
      (rs_recovery m) (u128_bytes (rs_config_id m)).

Definition request_sync_from (w : PbRequestSync) : result CodecError RequestSync :=
  let? replica := replica_from (wrs_replica w) "RequestSync.replica" in
  let? config_id := u128_from (wrs_config_id w) "RequestSync.config_id" in
  Ok (mkRequestSync (wrs_view w) (wrs_checkpoint_op w) replica (wrs_nonce w) (wrs_recovery w)
      config_id).

Definition pb_sync_checkpoint (m : SyncCheckpoint) : PbSyncCheckpoint :=
  mkPbSyncCheckpoint (sc_view m) (sc_checkpoint_op m) (u128_bytes (sc_checkpoint_id m))
      (sc_epoch m) (u128_bytes (sc_config_id m)) (sc_replica m) (sc_nonce m) (sc_snapshot m)
      (sc_membership m) (sc_config_install_op m).

Definition sync_checkpoint_from (w : PbSyncCheckpoint) : result CodecError SyncCheckpoint :=
  let? config_install_op := install_op_from (wsc_membership w) (wsc_config_install_op w) in
  let? checkpoint_id := u128_from (wsc_checkpoint_id w) "SyncCheckpoint.checkpoint_id" in
  let? config_id := u128_from (wsc_config_id w) "SyncCheckpoint.config_id" in
  let? replica := replica_from (wsc_replica w) "SyncCheckpoint.replica" in
  Ok (mkSyncCheckpoint (wsc_view w) (wsc_checkpoint_op w) checkpoint_id (wsc_epoch w)
      config_id replica (wsc_nonce w) (wsc_snapshot w) (wsc_membership w) config_install_op).

Definition pb_request_prepare_range (m : RequestPrepareRange) : PbRequestPrepareRange :=
  mkPbRequestPrepareRange (rg_view m) (rg_lo m) (rg_hi m) (rg_replica m)
      (u128_bytes (rg_config_id m)).

Definition request_prepare_range_from (w : PbRequestPrepareRange) : result CodecError
    RequestPrepareRange :=
  let? replica := replica_from (wrg_replica w) "RequestPrepareRange.replica" in
  let? config_id := u128_from (wrg_config_id w) "RequestPrepareRange.config_id" in
  Ok (mkRequestPrepareRange (wrg_view w) (wrg_lo w) (wrg_hi w) replica config_id).

Definition pb_repair_batch (m : RepairBatch) : PbRepairBatch :=
  mkPbRepairBatch (rb_view m) (rb_commit m) (rb_checkpoint_op m)
      (u128_bytes (rb_config_id m)) (wire_log (rb_log m)).

Definition repair_batch_from (w : PbRepairBatch) : result CodecError RepairBatch :=
  let? config_id := u128_from (wrb_config_id w) "RepairBatch.config_id" in
  let? log := log_from (wrb_log w) in
  Ok (mkRepairBatch (wrb_view w) (wrb_commit w) (wrb_checkpoint_op w) config_id log).

Definition pb_prepare_batch (m : PrepareBatch) : PbPrepareBatch :=
  mkPbPrepareBatch (bt_view m) (bt_commit m) (bt_checkpoint_op m) (bt_epoch m)
      (u128_bytes (bt_config_id m)) (wire_log (bt_log m)).

Definition prepare_batch_from (w : PbPrepareBatch) : result CodecError PrepareBatch :=
  let? config_id := u128_from (wbt_config_id w) "PrepareBatch.config_id" in
  let? log := log_from (wbt_log w) in
  Ok (mkPrepareBatch (wbt_view w) (wbt_commit w) (wbt_checkpoint_op w) (wbt_epoch w)
      config_id log).

Definition pb_learner_status (m : LearnerStatus) : PbLearnerStatus :=
  mkPbLearnerStatus (ls_replica m) (ls_durable_commit_min m) (ls_durable_op m) (ls_epoch m)
      (u128_bytes (ls_config_id m)).

Definition learner_status_from (w : PbLearnerStatus) : result CodecError LearnerStatus :=
  let? replica := replica_from (wls_replica w) "LearnerStatus.replica" in
  let? config_id := u128_from (wls_config_id w) "LearnerStatus.config_id" in
  Ok (mkLearnerStatus replica (wls_durable_commit_min w) (wls_durable_op w) (wls_epoch w)
      config_id).

Definition pb_epoch_ahead (m : EpochAhead) : PbEpochAhead :=
  mkPbEpochAhead (ea_epoch m) (ea_checkpoint_op m).

Definition epoch_ahead_from (w : PbEpochAhead) : result CodecError EpochAhead :=
  Ok (mkEpochAhead (wea_epoch w) (wea_checkpoint_op w)).

Definition pb_request_learner_proof (m : RequestLearnerProof) : PbRequestLearnerProof :=
  mkPbRequestLearnerProof (rlp_from m) (rlp_at_op m) (rlp_nonce m) (rlp_epoch m)
      (u128_bytes (rlp_config_id m)).

Definition request_learner_proof_from (w : PbRequestLearnerProof) : result CodecError
    RequestLearnerProof :=
  let? from := replica_from (wrlp_from w) "RequestLearnerProof.from" in
  let? config_id := u128_from (wrlp_config_id w) "RequestLearnerProof.config_id" in
  Ok (mkRequestLearnerProof from (wrlp_at_op w) (wrlp_nonce w) (wrlp_epoch w) config_id).

Definition pb_learner_proof (m : LearnerProof) : PbLearnerProof :=
  mkPbLearnerProof (lp_replica m) (lp_nonce m) (lp_frontier m) (lp_epoch m)
      (u128_bytes (lp_config_id m)).

Definition learner_proof_from (w : PbLearnerProof) : result CodecError LearnerProof :=
  let? replica := replica_from (wlp_replica w) "LearnerProof.replica" in
  let? config_id := u128_from (wlp_config_id w) "LearnerProof.config_id" in
  Ok (mkLearnerProof replica (wlp_nonce w) (wlp_frontier w) (wlp_epoch w) config_id).

Definition pb_request_block (addr : BlockAddress) : PbRequestBlock :=
  mkPbRequestBlock (u128_bytes addr).

Definition request_block_from (w : PbRequestBlock) : result CodecError BlockAddress :=
  let? addr := u128_from (wrk_addr w) "RequestBlock.addr" in
  Ok addr.

Definition pb_block_response (m : BlockResponse) : PbBlockResponse :=
  mkPbBlockResponse (u128_bytes (br_addr m)) (br_block m).

Definition block_response_from (w : PbBlockResponse) : result CodecError BlockResponse :=
  let? addr := u128_from (wbr_addr w) "BlockResponse.addr" in
  Ok (mkBlockResponse addr (wbr_block w)).

Definition pb_nack (m : Nack) : PbNack :=
  mkPbNack (nk_view m) (nk_op m) (nk_replica m) (u128_bytes (nk_config_id m)).

Definition nack_from (w : PbNack) : result CodecError Nack :=
  let? replica := replica_from (wnk_replica w) "Nack.replica" in
  let? config_id := u128_from (wnk_config_id w) "Nack.config_id" in
  Ok (mkNack (wnk_view w) (wnk_op w) replica config_id).

Definition pb_request_health_proof (m : RequestHealthProof) : PbRequestHealthProof :=
  mkPbRequestHealthProof (rhp_from m) (rhp_nonce m) (rhp_epoch m)
      (u128_bytes (rhp_config_id m)).

Definition request_health_proof_from (w : PbRequestHealthProof) : result CodecError
    RequestHealthProof :=
  let? from := replica_from (wrhp_from w) "RequestHealthProof.from" in
  let? config_id := u128_from (wrhp_config_id w) "RequestHealthProof.config_id" in
  Ok (mkRequestHealthProof from (wrhp_nonce w) (wrhp_epoch w) config_id).

Definition pb_health_proof (m : HealthProof) : PbHealthProof :=
  mkPbHealthProof (hp_replica m) (hp_nonce m) (hp_epoch m) (u128_bytes (hp_config_id m)).

Definition health_proof_from (w : PbHealthProof) : result CodecError HealthProof :=
  let? replica := replica_from (whp_replica w) "HealthProof.replica" in
  let? config_id := u128_from (whp_config_id w) "HealthProof.config_id" in
  Ok (mkHealthProof replica (whp_nonce w) (whp_epoch w) config_id).

(** [pb_message] *)
Definition pb_message (msg : Message) : PbMessage :=
  let body :=
    match msg with
    | MRequest m => BRequest (pb_request m)
    | MPrepare m => BPrepare (pb_prepare m)
    | MPrepareOk m => BPrepareOk (pb_prepare_ok m)
    | MReply m => BReply (pb_reply m)
    | MCommit m => BCommit (pb_commit m)
    | MStartViewChange m => BStartViewChange (pb_start_view_change m)
    | MDoViewChange m => BDoViewChange (pb_do_view_change m)
    | MStartView m => BStartView (pb_start_view m)
    | MGetView m => BGetView (pb_get_view m)
    | MRequestPrepare m => BRequestPrepare (pb_request_prepare m)
    | MRecovery m => BRecovery (pb_recovery m)
    | MRecoveryResponse m => BRecoveryResponse (pb_recovery_response m)
    | MRequestSync m => BRequestSync (pb_request_sync m)
    | MSyncCheckpoint m => BSyncCheckpoint (pb_sync_checkpoint m)
    | MRequestPrepareRange m => BRequestPrepareRange (pb_request_prepare_range m)
    | MRepairBatch m => BRepairBatch (pb_repair_batch m)
    | MPrepareBatch m => BPrepareBatch (pb_prepare_batch m)
    | MLearnerStatus m => BLearnerStatus (pb_learner_status m)
    | MEpochAhead m => BEpochAhead (pb_epoch_ahead m)
    | MRequestLearnerProof m => BRequestLearnerProof (pb_request_learner_proof m)
    | MLearnerProof m => BLearnerProof (pb_learner_proof m)
    | MRequestBlock m => BRequestBlock (pb_request_block m)
    | MBlockResponse m => BBlockResponse (pb_block_response m)
    | MNack m => BNack (pb_nack m)
    | MRequestHealthProof m => BRequestHealthProof (pb_request_health_proof m)
    | MHealthProof m => BHealthProof (pb_health_proof m)
    end in
  mkPbMessage (Some body) [].

(** [message_from]: an absent body names no message this build knows. *)
Definition message_from (wire : PbMessage) : result CodecError Message :=
  let? body := ok_or (pm_body wire) UnknownMessage in
  match body with
  | BRequest w => let? m := request_from w in Ok (MRequest m)
  | BPrepare w => let? m := prepare_from w in Ok (MPrepare m)
  | BPrepareOk w => let? m := prepare_ok_from w in Ok (MPrepareOk m)
  | BReply w => let? m := reply_from w in Ok (MReply m)
  | BCommit w => let? m := commit_from w in Ok (MCommit m)
  | BStartViewChange w => let? m := start_view_change_from w in Ok (MStartViewChange m)
  | BDoViewChange w => let? m := do_view_change_from w in Ok (MDoViewChange m)
  | BStartView w => let? m := start_view_from w in Ok (MStartView m)
  | BGetView w => let? m := get_view_from w in Ok (MGetView m)
  | BRequestPrepare w => let? m := request_prepare_from w in Ok (MRequestPrepare m)
  | BRecovery w => let? m := recovery_from w in Ok (MRecovery m)
  | BRecoveryResponse w => let? m := recovery_response_from w in Ok (MRecoveryResponse m)
  | BRequestSync w => let? m := request_sync_from w in Ok (MRequestSync m)
  | BSyncCheckpoint w => let? m := sync_checkpoint_from w in Ok (MSyncCheckpoint m)
  | BRequestPrepareRange w => let? m := request_prepare_range_from w in Ok
      (MRequestPrepareRange m)
  | BRepairBatch w => let? m := repair_batch_from w in Ok (MRepairBatch m)
  | BPrepareBatch w => let? m := prepare_batch_from w in Ok (MPrepareBatch m)
  | BLearnerStatus w => let? m := learner_status_from w in Ok (MLearnerStatus m)
  | BEpochAhead w => let? m := epoch_ahead_from w in Ok (MEpochAhead m)
  | BRequestLearnerProof w => let? m := request_learner_proof_from w in Ok
      (MRequestLearnerProof m)
  | BLearnerProof w => let? m := learner_proof_from w in Ok (MLearnerProof m)
  | BRequestBlock w => let? m := request_block_from w in Ok (MRequestBlock m)
  | BBlockResponse w => let? m := block_response_from w in Ok (MBlockResponse m)
  | BNack w => let? m := nack_from w in Ok (MNack m)
  | BRequestHealthProof w => let? m := request_health_proof_from w in Ok (MRequestHealthProof m)
  | BHealthProof w => let? m := health_proof_from w in Ok (MHealthProof m)
  end.

(** ** What a peer may send *)

Definition reconfigure_fits (p : ReconfigurePayload) : Prop :=
  fits 8 (p_replica_count p) /\ fits 16 (p_learner_count p) /\
  zlen (p_members p) <= MAX_RECONFIGURE_MEMBERS /\ Forall (fits 128) (p_members p) /\
  fits 128 (p_prev_config_id p).

Definition entry_fits (e : PreparedEntry) : Prop :=
  fits 64 (e_op e) /\ fits 128 (e_client e) /\ fits 64 (e_request e) /\
  match e_body e with
  | Present _ => e_client e <> RECONFIGURATION
  | Repairing checksum => fits 128 checksum
  | Reconfigure payload => reconfigure_fits payload
  end.

Definition log_fits (log : list PreparedEntry) : Prop :=
  zlen log <= MAX_HEADER_ONLY_BAND_DEPTH /\ Forall entry_fits log.

Definition opt_fits (o : option Z) : Prop := match o with None => True | Some z => fits 64 z end.

Definition wire_entry_fits (w : PbEntry) : Prop :=
  fits 64 (we_op w) /\ fits 64 (we_request w) /\
  match we_body_state w with
  | Some (PbReconfigureBody p) => fits 32 (wp_replica_count p) /\ fits 32 (wp_learner_count p)
  | _ => True
  end.

Definition wire_log_fits (log : list PbEntry) : Prop := Forall wire_entry_fits log.

Definition message_ok (msg : Message) : Prop :=
  match msg with
  | MRequest m =>
      fits 128 (rq_client m) /\ fits 64 (rq_request m)
  | MPrepare m =>
      fits 64 (pp_view m) /\ fits 64 (pp_op m) /\ fits 64 (pp_commit m) /\
      fits 64 (pp_checkpoint_op m) /\ fits 64 (pp_epoch m) /\
      fits 128 (pp_config_id m) /\ fits 128 (pp_client m) /\ fits 64 (pp_request m)
  | MPrepareOk m =>
      fits 64 (po_view m) /\ fits 64 (po_op m) /\ fits 16 (po_replica m) /\
      fits 64 (po_checkpoint_op m) /\ fits 128 (po_prepare_checksum m) /\
      fits 64 (po_epoch m) /\ fits 128 (po_config_id m)
  | MReply m =>
      fits 64 (rp_view m) /\ fits 128 (rp_client m) /\ fits 64 (rp_request m)
  | MCommit m =>
      fits 64 (cm_view m) /\ fits 64 (cm_commit m) /\ fits 64 (cm_checkpoint_op m) /\
      fits 64 (cm_epoch m) /\ fits 128 (cm_config_id m)
  | MStartViewChange m =>
      fits 64 (svc_view m) /\ fits 16 (svc_replica m) /\ fits 64 (svc_epoch m) /\
      fits 128 (svc_config_id m)
  | MDoViewChange m =>
      fits 64 (d_view m) /\ fits 64 (d_log_view m) /\ fits 64 (d_op m) /\
      fits 64 (d_commit m) /\ fits 64 (d_checkpoint_op m) /\ fits 64 (d_epoch m) /\
      fits 128 (d_config_id m) /\ fits 16 (d_replica m) /\ log_fits (d_log m)
  | MStartView m =>
      fits 64 (sv_view m) /\ fits 64 (sv_op m) /\ fits 64 (sv_commit m) /\
      fits 64 (sv_checkpoint_op m) /\ fits 64 (sv_epoch m) /\
      fits 128 (sv_config_id m) /\ fits 16 (sv_replica m) /\ log_fits (sv_log m)
  | MGetView m =>
      fits 64 (gv_view m) /\ fits 16 (gv_replica m) /\ fits 64 (gv_nonce m) /\
      fits 64 (gv_epoch m) /\ fits 128 (gv_config_id m)
  | MRequestPrepare m =>
      fits 64 (rpr_view m) /\ fits 64 (rpr_op m) /\ fits 16 (rpr_replica m) /\
      fits 128 (rpr_config_id m)
  | MRecovery m =>
      fits 16 (rc_replica m) /\ fits 64 (rc_nonce m) /\ fits 64 (rc_epoch m) /\
      fits 128 (rc_config_id m)
  | MRecoveryResponse m =>
      fits 64 (rr_view m) /\ fits 64 (rr_op m) /\ fits 64 (rr_commit m) /\
      fits 64 (rr_checkpoint_op m) /\ fits 64 (rr_epoch m) /\
      fits 128 (rr_config_id m) /\ fits 16 (rr_replica m) /\ fits 64 (rr_nonce m) /\
      log_fits (rr_log m)
  | MRequestSync m =>
      fits 64 (rs_view m) /\ fits 64 (rs_checkpoint_op m) /\ fits 16 (rs_replica m) /\
      fits 64 (rs_nonce m) /\ fits 128 (rs_config_id m)
  | MSyncCheckpoint m =>
      fits 64 (sc_view m) /\ fits 64 (sc_checkpoint_op m) /\
      fits 128 (sc_checkpoint_id m) /\ fits 64 (sc_epoch m) /\
      fits 128 (sc_config_id m) /\ fits 16 (sc_replica m) /\ fits 64 (sc_nonce m) /\
      opt_fits (sc_config_install_op m) /\
      (sc_membership m = [] <-> sc_config_install_op m = None)
  | MRequestPrepareRange m =>
      fits 64 (rg_view m) /\ fits 64 (rg_lo m) /\ fits 64 (rg_hi m) /\
      fits 16 (rg_replica m) /\ fits 128 (rg_config_id m)
  | MRepairBatch m =>
      fits 64 (rb_view m) /\ fits 64 (rb_commit m) /\ fits 64 (rb_checkpoint_op m) /\
      fits 128 (rb_config_id m) /\ log_fits (rb_log m)
  | MPrepareBatch m =>
      fits 64 (bt_view m) /\ fits 64 (bt_commit m) /\ fits 64 (bt_checkpoint_op m) /\
      fits 64 (bt_epoch m) /\ fits 128 (bt_config_id m) /\ log_fits (bt_log m)
  | MLearnerStatus m =>
      fits 16 (ls_replica m) /\ fits 64 (ls_durable_commit_min m) /\
      fits 64 (ls_durable_op m) /\ fits 64 (ls_epoch m) /\ fits 128 (ls_config_id m)
  | MEpochAhead m =>
      fits 64 (ea_epoch m) /\ fits 64 (ea_checkpoint_op m)
  | MRequestLearnerProof m =>
      fits 16 (rlp_from m) /\ fits 64 (rlp_at_op m) /\ fits 64 (rlp_nonce m) /\
      fits 64 (rlp_epoch m) /\ fits 128 (rlp_config_id m)
  | MLearnerProof m =>
      fits 16 (lp_replica m) /\ fits 64 (lp_nonce m) /\ fits 64 (lp_frontier m) /\
      fits 64 (lp_epoch m) /\ fits 128 (lp_config_id m)
  | MRequestBlock m =>
      fits 128 m
  | MBlockResponse m =>
      fits 128 (br_addr m)
  | MNack m =>
      fits 64 (nk_view m) /\ fits 64 (nk_op m) /\ fits 16 (nk_replica m) /\
      fits 128 (nk_config_id m)
  | MRequestHealthProof m =>
      fits 16 (rhp_from m) /\ fits 64 (rhp_nonce m) /\ fits 64 (rhp_epoch m) /\
      fits 128 (rhp_config_id m)
  | MHealthProof m =>
      fits 16 (hp_replica m) /\ fits 64 (hp_nonce m) /\ fits 64 (hp_epoch m) /\
      fits 128 (hp_config_id m)
  end.

(** The widths of the generated field types. *)
Definition wire_ok (wire : PbMessage) : Prop :=
  match pm_body wire with
  | None => True
  | Some body =>
      match body with
      | BRequest m =>
          fits 64 (wrq_request m)
      | BPrepare m =>
          fits 64 (wpp_view m) /\ fits 64 (wpp_op m) /\ fits 64 (wpp_commit m) /\
          fits 64 (wpp_checkpoint_op m) /\ fits 64 (wpp_epoch m) /\
          fits 64 (wpp_request m)
      | BPrepareOk m =>
          fits 64 (wpo_view m) /\ fits 64 (wpo_op m) /\ fits 32 (wpo_replica m) /\
          fits 64 (wpo_checkpoint_op m) /\ fits 64 (wpo_epoch m)
      | BReply m =>
          fits 64 (wrp_view m) /\ fits 64 (wrp_request m)
      | BCommit m =>
          fits 64 (wcm_view m) /\ fits 64 (wcm_commit m) /\
          fits 64 (wcm_checkpoint_op m) /\ fits 64 (wcm_epoch m)
      | BStartViewChange m =>
          fits 64 (wsvc_view m) /\ fits 32 (wsvc_replica m) /\ fits 64 (wsvc_epoch m)
      | BDoViewChange m =>
          fits 64 (wd_view m) /\ fits 64 (wd_log_view m) /\ fits 64 (wd_op m) /\
          fits 64 (wd_commit m) /\ fits 64 (wd_checkpoint_op m) /\ fits 64 (wd_epoch m) /\
          fits 32 (wd_replica m) /\ wire_log_fits (wd_log m)
      | BStartView m =>
          fits 64 (wsv_view m) /\ fits 64 (wsv_op m) /\ fits 64 (wsv_commit m) /\
          fits 64 (wsv_checkpoint_op m) /\ fits 64 (wsv_epoch m) /\
          fits 32 (wsv_replica m) /\ wire_log_fits (wsv_log m)
      | BGetView m =>
          fits 64 (wgv_view m) /\ fits 32 (wgv_replica m) /\ fits 64 (wgv_nonce m) /\
          fits 64 (wgv_epoch m)
      | BRequestPrepare m =>
          fits 64 (wrpr_view m) /\ fits 64 (wrpr_op m) /\ fits 32 (wrpr_replica m)
      | BRecovery m =>
          fits 32 (wrc_replica m) /\ fits 64 (wrc_nonce m) /\ fits 64 (wrc_epoch m)
      | BRecoveryResponse m =>
          fits 64 (wrr_view m) /\ fits 64 (wrr_op m) /\ fits 64 (wrr_commit m) /\
          fits 64 (wrr_checkpoint_op m) /\ fits 64 (wrr_epoch m) /\
          fits 32 (wrr_replica m) /\ fits 64 (wrr_nonce m) /\ wire_log_fits (wrr_log m)
      | BRequestSync m =>
          fits 64 (wrs_view m) /\ fits 64 (wrs_checkpoint_op m) /\
          fits 32 (wrs_replica m) /\ fits 64 (wrs_nonce m)
      | BSyncCheckpoint m =>
          fits 64 (wsc_view m) /\ fits 64 (wsc_checkpoint_op m) /\
          fits 64 (wsc_epoch m) /\ fits 32 (wsc_replica m) /\ fits 64 (wsc_nonce m) /\
          opt_fits (wsc_config_install_op m)
      | BRequestPrepareRange m =>
          fits 64 (wrg_view m) /\ fits 64 (wrg_lo m) /\ fits 64 (wrg_hi m) /\
          fits 32 (wrg_replica m)
      | BRepairBatch m =>
          fits 64 (wrb_view m) /\ fits 64 (wrb_commit m) /\
          fits 64 (wrb_checkpoint_op m) /\ wire_log_fits (wrb_log m)
      | BPrepareBatch m =>
          fits 64 (wbt_view m) /\ fits 64 (wbt_commit m) /\
          fits 64 (wbt_checkpoint_op m) /\ fits 64 (wbt_epoch m) /\
          wire_log_fits (wbt_log m)
      | BLearnerStatus m =>
          fits 32 (wls_replica m) /\ fits 64 (wls_durable_commit_min m) /\
          fits 64 (wls_durable_op m) /\ fits 64 (wls_epoch m)
      | BEpochAhead m =>
          fits 64 (wea_epoch m) /\ fits 64 (wea_checkpoint_op m)
      | BRequestLearnerProof m =>
          fits 32 (wrlp_from m) /\ fits 64 (wrlp_at_op m) /\ fits 64 (wrlp_nonce m) /\
          fits 64 (wrlp_epoch m)
      | BLearnerProof m =>
          fits 32 (wlp_replica m) /\ fits 64 (wlp_nonce m) /\ fits 64 (wlp_frontier m) /\
          fits 64 (wlp_epoch m)
      | BRequestBlock _ =>
          True
      | BBlockResponse _ =>
          True
      | BNack m =>
          fits 64 (wnk_view m) /\ fits 64 (wnk_op m) /\ fits 32 (wnk_replica m)
      | BRequestHealthProof m =>
          fits 32 (wrhp_from m) /\ fits 64 (wrhp_nonce m) /\ fits 64 (wrhp_epoch m)
      | BHealthProof m =>
          fits 32 (whp_replica m) /\ fits 64 (whp_nonce m) /\ fits 64 (whp_epoch m)
      end
  end.

(** ** The conversions are mutually inverse

    [decodes wf ok to from]: on the wire values the generated types can hold,
    [from] accepts exactly the images under [to] of the domain values [ok]. *)

Definition decodes {W A} (wf : W -> Prop) (ok : A -> Prop) (to : A -> W)
    (from : W -> result CodecError A) : Prop :=
  forall w a, wf w -> from w = Ok a <-> ok a /\ w = to a.

Lemma u128_decodes what : decodes (fun _ => True) (fits 128) u128_bytes (fun b => u128_from b what).
Proof.
  intros b v _. unfold u128_from, u128_bytes. destruct (Nat.eqb_spec (length b) 16) as [Hb|Hb].
  - split.
    + intros [= <-]. pose proof (from_be_bytes_range b) as Hr. rewrite Hb in Hr.
      split; [by apply (fits_pow 16 128)|]. by rewrite <-Hb, be_bytes_from_be_bytes.
    + intros [Hv ->]. f_equal. apply be_bytes_roundtrip. by apply (fits_pow 16 128).
  - split; [done|]. intros [_ ->]. by rewrite length_be_bytes in Hb.
Qed.

Lemma replica_decodes what : decodes (fits 32) (fits 16) id (fun v => replica_from v what).
Proof.
  intros v r Hv. unfold replica_from, fits, umax, id in *.
  destruct (Z.leb_spec v (2 ^ 16 - 1)).
  - split; [intros [= <-]; lia | by intros [_ ->]].
  - split; [done|]. intros [? ->]. lia.
Qed.

Lemma collect_decodes {W A} (wf : W -> Prop) (ok : A -> Prop) to from :
  decodes wf ok to from -> decodes (Forall wf) (Forall ok) (map to) (collect from).
Proof.
  intros Hd ws. induction ws as [|w ws IH]; intros r Hws; cbn [collect].
  - split; [intros [= <-]; by split|]. intros [_ Hr]. symmetry in Hr. by apply map_eq_nil in Hr as ->.
  - inversion_clear Hws as [|? ? Hw Hws']. split.
    + destruct (from w) as [y|] eqn:Ey; [|done].
      destruct (collect from ws) as [ys|]; [|done]. intros [= <-].
      apply (Hd w y Hw) in Ey as [? ->]. destruct (proj1 (IH ys Hws') eq_refl) as [? ->].
      split; [by constructor|done].
    + intros [Hr Heq]. destruct r as [|a r]; [done|]. injection Heq as -> ->.
      inversion_clear Hr as [|? ? Ha Hr'].
      destruct (Hd (to a) a Hw) as [_ ->]; [|done].
      by destruct (IH r Hws') as [_ ->].
Qed.

Lemma reconfigure_decodes :
  decodes (fun w => fits 32 (wp_replica_count w) /\ fits 32 (wp_learner_count w))
    reconfigure_fits pb_reconfigure reconfigure_from.
Proof.
  intros [rc lc ms prev] p [Hrc Hlc]. unfold reconfigure_from, reconfigure_fits. cbn in *.
  destruct (Z.ltb_spec MAX_RECONFIGURE_MEMBERS (zlen ms));
    [split; [done|]; intros [Hp [= -> -> -> ->]]; rewrite length_map in *; lia|].
  destruct (Z.ltb_spec (umax 8) rc);
    [split; [done|]; intros [Hp [= -> -> -> ->]]; unfold fits, umax in *; lia|].
  destruct (Z.ltb_spec (umax 16) lc);
    [split; [done|]; intros [Hp [= -> -> -> ->]]; unfold fits, umax in *; lia|].
  set (ids := collect _ ms). pose proof (collect_decodes _ _ _ _ (u128_decodes "ReconfigurePayload.members") ms) as Hms.
  fold ids in Hms. split.
  - destruct (u128_from prev _) as [pv|] eqn:Epv; [|done]. destruct ids as [l|]; [|done].
    intros [= <-]. apply u128_decodes in Epv as [? ->]; [|done].
    destruct (proj1 (Hms l (Forall_true _ _ (fun _ => I))) eq_refl) as [? ->].
    rewrite length_map in *. unfold fits, umax in *. split; [|done].
    cbn. repeat split; done || lia.
  - intros [(? & ? & ? & ? & ?) [= -> -> -> ->]].
    rewrite (proj2 (u128_decodes _ _ _ I)) by done.
    rewrite (proj2 (Hms _ (Forall_true _ _ (fun _ => I)))) by done. by destruct p.
Qed.

Lemma entry_decodes : decodes wire_entry_fits entry_fits pb_entry entry_from.
Proof.
  intros [op c rq bs] e (Hop & Hrq & Hbs). unfold entry_from, entry_fits. cbn in *.
  split.
  - destruct (u128_from c _) as [client|] eqn:Ec; [|done]. apply u128_decodes in Ec as [? ->]; [|done].
    destruct bs as [[body|ck|p]|]; [| | |done].
    + destruct (Z.eqb_spec client RECONFIGURATION); [done|]. by intros [= <-].
    + destruct (u128_from ck _) as [k|] eqn:Ek; [|done]. apply u128_decodes in Ek as [? ->]; [|done].
      by intros [= <-].
    + destruct (reconfigure_from p) as [q|] eqn:Eq; [|done].
      apply reconfigure_decodes in Eq as [? ->]; [|done]. by intros [= <-].
  - destruct e as [eop ec erq body]. cbn. intros [(? & ? & ? & Hb) [= -> -> -> ->]].
    rewrite (proj2 (u128_decodes _ _ _ I)) by done. destruct body as [bytes|ck|p].
    + by destruct (Z.eqb_spec ec RECONFIGURATION).
    + by rewrite (proj2 (u128_decodes _ _ ck I)).
    + by rewrite (proj2 (reconfigure_decodes _ p Hbs)).
Qed.

Lemma log_decodes : decodes wire_log_fits log_fits wire_log log_from.
Proof.
  intros w log Hw. unfold log_from, log_fits, wire_log.
  pose proof (collect_decodes _ _ _ _ entry_decodes w log Hw) as Hc.
  destruct (Z.ltb_spec MAX_HEADER_ONLY_BAND_DEPTH (zlen w)).
  - split; [done|]. intros [[] ->]. rewrite length_map in *. lia.
  - rewrite Hc. split; [intros [? ->]|intros [[] ->]]; rewrite length_map in *; done || lia.
Qed.

Lemma install_op_decodes ms op o :
  install_op_from ms op = Ok o <-> (ms = [] <-> o = None) /\ op = o.
Proof.
  destruct ms, op; cbn; split; try discriminate.
  all: try (intros [= <-]; split; [split|]; done).
  all: intros [[] <-]; naive_solver.
Qed.

(** One checked field of a conversion, taken apart. *)
Ltac decode_field H :=
  match type of H with
  | context [u128_from ?b ?s] =>
      let E := fresh in destruct (u128_from b s) eqn:E; [|discriminate H];
      apply u128_decodes in E as [? E]; [|exact I]
  | context [replica_from ?b ?s] =>
      let E := fresh in destruct (replica_from b s) eqn:E; [|discriminate H];
      apply replica_decodes in E as [? E]; [unfold id in E|solve [intuition assumption]]
  | context [log_from ?b] =>
      let E := fresh in destruct (log_from b) eqn:E; [|discriminate H];
      apply log_decodes in E as [? E]; [|solve [intuition assumption]]
  | context [install_op_from ?b ?o] =>
      let E := fresh in destruct (install_op_from b o) eqn:E; [|discriminate H];
      apply install_op_decodes in E as [? E]
  end.

(** One checked field of a conversion, put together. *)
Ltac encode_field :=
  match goal with
  | |- context [u128_from (u128_bytes ?v) ?s] =>
      rewrite (proj2 (u128_decodes s (u128_bytes v) v I)) by (split; [intuition assumption|reflexivity])
  | |- context [replica_from ?v ?s] =>
      rewrite (proj2 (replica_decodes s v v ltac:(unfold fits in *; lia)))
        by (split; [intuition assumption|reflexivity])
  | Hw : context [wire_log ?l] |- context [log_from (wire_log ?l)] =>
      rewrite (proj2 (log_decodes (wire_log l) l ltac:(intuition assumption)))
        by (split; [intuition assumption|reflexivity])
  | |- context [install_op_from ?b ?o] =>
      rewrite (proj2 (install_op_decodes b o o)) by (split; [intuition assumption|reflexivity])
  end.

#[local] Arguments wire_log : simpl never.

Ltac open_conversion :=
  match goal with
  | |- context [match ?f _ with Ok _ => _ | Err _ => _ end] => unfold f
  end.

Lemma message_from_sound body unknown m :
  let w := mkPbMessage (Some body) unknown in
  wire_ok w -> message_from w = Ok m -> message_ok m /\ Some body = pm_body (pb_message m).
Proof.
  cbv zeta. unfold message_from, wire_ok, ok_or. cbn [pm_body].
  destruct body as [w|w|w|w|w|w|w|w|w|w|w|w|w|w|w|w|w|w|w|w|w|w|w|w|w|w]; destruct w.
  all: open_conversion; intros Hw H; cbn in Hw, H; repeat decode_field H; injection H as <-; subst.
  all: split; [cbn; intuition assumption|reflexivity].
Qed.

Lemma wire_log_ok log : log_fits log -> wire_log_fits (wire_log log).
Proof.
  intros [_ Hl]. apply Forall_map. eapply Forall_impl; [exact Hl|].
  intros [op c rq b] (? & ? & ? & Hb). split; [done|split; [done|]]. cbn in *.
  destruct b as [| |p]; [exact I..|]. destruct Hb as (? & ? & _). unfold fits in *; cbn; lia.
Qed.

Lemma fits_replica r : fits 16 r -> fits 32 r.
Proof. unfold fits. lia. Qed.

Lemma pb_message_ok m : message_ok m -> wire_ok (pb_message m).
Proof.
  destruct m as [m|m|m|m|m|m|m|m|m|m|m|m|m|m|m|m|m|m|m|m|m|m|m|m|m|m]; cbn; try done.
  all: intuition auto using wire_log_ok, fits_replica.
Qed.

Lemma message_from_complete m : message_ok m -> message_from (pb_message m) = Ok m.
Proof.
  intros Hm. pose proof (pb_message_ok m Hm) as Hw. revert Hm Hw.
  unfold message_from, pb_message, wire_ok, ok_or. cbv zeta. cbn [pm_body].
  destruct m as [m|m|m|m|m|m|m|m|m|m|m|m|m|m|m|m|m|m|m|m|m|m|m|m|m|m]; try destruct m.
  all: open_conversion; intros Hm Hw; cbn in Hm, Hw |- *; repeat encode_field; reflexivity.
Qed.

(** C23. The wire conversion accepts exactly the envelopes whose body is the encoding of
    a well-formed message: what it returns keeps every width, count and pairing rule of
    its message, and the body it came from is the one that message encodes to.  So two
    accepted envelopes that stand for the same message differ at most in the unknown
    fields that came with them, and every message survives the trip, whatever unknown
    fields are added to it on the way. *)
Theorem message_from_exact (w : PbMessage) (m : Message) :
  wire_ok w /\ message_from w = Ok m <-> message_ok m /\ pm_body w = pm_body (pb_message m).
Proof.
  destruct w as [[b|] unknown].
  - split; [intros [Hw Hm]; by apply (message_from_sound b unknown)|]. intros [Hm Hb]. cbn [pm_body] in Hb.
    pose proof (pb_message_ok m Hm) as Hw. pose proof (message_from_complete m Hm) as Hf.
    destruct (pb_message m) as [body none]. cbn [pm_body] in Hb. subst body. by split.
  - split; [by intros [_ ?]|]. intros [_ Hb]. discriminate Hb.
Qed.
