(* ===== verification/WireSize.v ===== *)
(** * How large a message is on the wire

    [encode_message] and [decode_message] of [viewstamp-proto/src/wire/mod.rs] over
    the protobuf runtime, which is not part of the repository and is a parameter
    here.  What they rely on is its documented behaviour: encoding is canonical
    (fields in ascending order, a default scalar or empty field omitted, an
    [optional] or [oneof] field written when present), so its length is the one the
    proto3 wire format gives, [size_body]; and an encoding within the size cap
    decodes to the value it came from.  The theorem is about [wire_size_bound], the
    bound a transport checks before it encodes. *)

From stdpp Require Import strings.
From S2P Require Import Prelude Core Hash Membership Codec Message Messages Wire.

(** ** The proto3 wire format *)

(** A varint has seven bits to the byte. *)
Definition varint_len (v : Z) : Z := Z.log2 v / 7 + 1.
Definition tag_len (field : Z) : Z := varint_len (field * 8).
Definition delimited (field n : Z) : Z := tag_len field + varint_len n + n.
Definition varint_field (field v : Z) : Z := if v =? 0 then 0 else tag_len field + varint_len v.
Definition bytes_field (field : Z) (b : list byte) : Z :=
  match b with [] => 0 | _ => delimited field (zlen b) end.
Definition optional_varint (field : Z) (o : option Z) : Z :=
  match o with None => 0 | Some v => tag_len field + varint_len v end.
Definition optional_bytes (field : Z) (o : option (list byte)) : Z :=
  match o with None => 0 | Some b => delimited field (zlen b) end.
Definition repeated_field (field : Z) (sizes : list Z) : Z :=
  foldr (fun n acc => delimited field n + acc) 0 sizes.

Definition size_reconfigure (w : PbReconfigure) : Z :=
  varint_field 1 (wp_replica_count w) + varint_field 2 (wp_learner_count w) +
  repeated_field 3 (map (fun m => zlen m) (wp_members w)) + bytes_field 4 (wp_prev_config_id w).

Definition size_body_state (b : PbBodyState) : Z :=
  match b with
  | PbPresent bytes => delimited 4 (zlen bytes)
  | PbRepairingChecksum checksum => delimited 5 (zlen checksum)
  | PbReconfigureBody payload => delimited 6 (size_reconfigure payload)
  end.

Definition entry_size (w : PbEntry) : Z :=
  varint_field 1 (we_op w) + bytes_field 2 (we_client w) + varint_field 3 (we_request w) +
  match we_body_state w with None => 0 | Some b => size_body_state b end.

Definition size_request (w : PbRequest) : Z :=
  bytes_field 1 (wrq_client w) + varint_field 2 (wrq_request w) +
  bytes_field 3 (wrq_body w).

Definition size_prepare (w : PbPrepare) : Z :=
  varint_field 1 (wpp_view w) + varint_field 2 (wpp_op w) +
  varint_field 3 (wpp_commit w) + varint_field 4 (wpp_checkpoint_op w) +
  varint_field 5 (wpp_epoch w) + bytes_field 6 (wpp_config_id w) +
  bytes_field 7 (wpp_client w) + varint_field 8 (wpp_request w) +
  bytes_field 9 (wpp_body w).

Definition size_prepare_ok (w : PbPrepareOk) : Z :=
  varint_field 1 (wpo_view w) + varint_field 2 (wpo_op w) +
  varint_field 3 (wpo_replica w) + varint_field 4 (wpo_checkpoint_op w) +
  bytes_field 5 (wpo_prepare_checksum w) + varint_field 6 (wpo_epoch w) +
  bytes_field 7 (wpo_config_id w).

Definition size_reply (w : PbReply) : Z :=
  varint_field 1 (wrp_view w) + bytes_field 2 (wrp_client w) +
  varint_field 3 (wrp_request w) + bytes_field 4 (wrp_body w).

Definition size_commit (w : PbCommit) : Z :=
  varint_field 1 (wcm_view w) + varint_field 2 (wcm_commit w) +
  varint_field 3 (wcm_checkpoint_op w) + varint_field 4 (wcm_epoch w) +
  bytes_field 5 (wcm_config_id w).

Definition size_start_view_change (w : PbStartViewChange) : Z :=
  varint_field 1 (wsvc_view w) + varint_field 2 (wsvc_replica w) +
  varint_field 3 (wsvc_epoch w) + bytes_field 4 (wsvc_config_id w).

Definition size_do_view_change (w : PbDoViewChange) : Z :=
  varint_field 1 (wd_view w) + varint_field 2 (wd_log_view w) + varint_field 3 (wd_op w) +
  varint_field 4 (wd_commit w) + varint_field 5 (wd_checkpoint_op w) +
  varint_field 6 (wd_epoch w) + bytes_field 7 (wd_config_id w) +
  varint_field 8 (wd_replica w) + repeated_field 9 (map entry_size (wd_log w)).

Definition size_start_view (w : PbStartView) : Z :=
  varint_field 1 (wsv_view w) + varint_field 2 (wsv_op w) +
  varint_field 3 (wsv_commit w) + varint_field 4 (wsv_checkpoint_op w) +
  varint_field 5 (wsv_epoch w) + bytes_field 6 (wsv_config_id w) +
  varint_field 7 (wsv_replica w) + repeated_field 8 (map entry_size (wsv_log w)).

Definition size_get_view (w : PbGetView) : Z :=
  varint_field 1 (wgv_view w) + varint_field 2 (wgv_replica w) +
  varint_field 3 (wgv_nonce w) + varint_field 4 (wgv_epoch w) +
  bytes_field 5 (wgv_config_id w).

Definition size_request_prepare (w : PbRequestPrepare) : Z :=
  varint_field 1 (wrpr_view w) + varint_field 2 (wrpr_op w) +
  varint_field 3 (wrpr_replica w) + bytes_field 4 (wrpr_config_id w).

Definition size_recovery (w : PbRecovery) : Z :=
  varint_field 1 (wrc_replica w) + varint_field 2 (wrc_nonce w) +
  varint_field 3 (wrc_epoch w) + bytes_field 4 (wrc_config_id w).

Definition size_recovery_response (w : PbRecoveryResponse) : Z :=
  varint_field 1 (wrr_view w) + varint_field 2 (wrr_op w) +
  varint_field 3 (wrr_commit w) + varint_field 4 (wrr_checkpoint_op w) +
  varint_field 5 (wrr_epoch w) + bytes_field 6 (wrr_config_id w) +
  varint_field 7 (wrr_replica w) + varint_field 8 (wrr_nonce w) +
  repeated_field 9 (map entry_size (wrr_log w)).

Definition size_request_sync (w : PbRequestSync) : Z :=
  varint_field 1 (wrs_view w) + varint_field 2 (wrs_checkpoint_op w) +
  varint_field 3 (wrs_replica w) + varint_field 4 (wrs_nonce w) +
  varint_field 5 (Z.b2z (wrs_recovery w)) + bytes_field 6 (wrs_config_id w).

Definition size_sync_checkpoint (w : PbSyncCheckpoint) : Z :=
  varint_field 1 (wsc_view w) + varint_field 2 (wsc_checkpoint_op w) +
  bytes_field 3 (wsc_checkpoint_id w) + varint_field 4 (wsc_epoch w) +
  bytes_field 5 (wsc_config_id w) + varint_field 6 (wsc_replica w) +
  varint_field 7 (wsc_nonce w) + bytes_field 8 (wsc_snapshot w) +
  bytes_field 9 (wsc_membership w) + optional_varint 10 (wsc_config_install_op w).

Definition size_request_prepare_range (w : PbRequestPrepareRange) : Z :=
  varint_field 1 (wrg_view w) + varint_field 2 (wrg_lo w) + varint_field 3 (wrg_hi w) +
  varint_field 4 (wrg_replica w) + bytes_field 5 (wrg_config_id w).

Definition size_repair_batch (w : PbRepairBatch) : Z :=
  varint_field 1 (wrb_view w) + varint_field 2 (wrb_commit w) +
  varint_field 3 (wrb_checkpoint_op w) + bytes_field 4 (wrb_config_id w) +
  repeated_field 5 (map entry_size (wrb_log w)).

Definition size_prepare_batch (w : PbPrepareBatch) : Z :=
  varint_field 1 (wbt_view w) + varint_field 2 (wbt_commit w) +
  varint_field 3 (wbt_checkpoint_op w) + varint_field 4 (wbt_epoch w) +
  bytes_field 5 (wbt_config_id w) + repeated_field 6 (map entry_size (wbt_log w)).

Definition size_learner_status (w : PbLearnerStatus) : Z :=
  varint_field 1 (wls_replica w) + varint_field 2 (wls_durable_commit_min w) +
  varint_field 3 (wls_durable_op w) + varint_field 4 (wls_epoch w) +
  bytes_field 5 (wls_config_id w).

Definition size_epoch_ahead (w : PbEpochAhead) : Z :=
  varint_field 1 (wea_epoch w) + varint_field 2 (wea_checkpoint_op w).

Definition size_request_learner_proof (w : PbRequestLearnerProof) : Z :=
  varint_field 1 (wrlp_from w) + varint_field 2 (wrlp_at_op w) +
  varint_field 3 (wrlp_nonce w) + varint_field 4 (wrlp_epoch w) +
  bytes_field 5 (wrlp_config_id w).

Definition size_learner_proof (w : PbLearnerProof) : Z :=
  varint_field 1 (wlp_replica w) + varint_field 2 (wlp_nonce w) +
  varint_field 3 (wlp_frontier w) + varint_field 4 (wlp_epoch w) +
  bytes_field 5 (wlp_config_id w).

Definition size_request_block (w : PbRequestBlock) : Z :=
  bytes_field 1 (wrk_addr w).

Definition size_block_response (w : PbBlockResponse) : Z :=
  bytes_field 1 (wbr_addr w) + optional_bytes 2 (wbr_block w).

Definition size_nack (w : PbNack) : Z :=
  varint_field 1 (wnk_view w) + varint_field 2 (wnk_op w) +
  varint_field 3 (wnk_replica w) + bytes_field 4 (wnk_config_id w).

Definition size_request_health_proof (w : PbRequestHealthProof) : Z :=
  varint_field 1 (wrhp_from w) + varint_field 2 (wrhp_nonce w) +
  varint_field 3 (wrhp_epoch w) + bytes_field 4 (wrhp_config_id w).

Definition size_health_proof (w : PbHealthProof) : Z :=
  varint_field 1 (whp_replica w) + varint_field 2 (whp_nonce w) +
  varint_field 3 (whp_epoch w) + bytes_field 4 (whp_config_id w).

(** The envelope: one length-delimited oneof arm. *)
Definition size_body (b : PbBody) : Z :=
  match b with
  | BRequest w => delimited 1 (size_request w)
  | BPrepare w => delimited 2 (size_prepare w)
  | BPrepareOk w => delimited 3 (size_prepare_ok w)
  | BReply w => delimited 4 (size_reply w)
  | BCommit w => delimited 5 (size_commit w)
  | BStartViewChange w => delimited 6 (size_start_view_change w)
  | BDoViewChange w => delimited 7 (size_do_view_change w)
  | BStartView w => delimited 8 (size_start_view w)
  | BGetView w => delimited 9 (size_get_view w)
  | BRequestPrepare w => delimited 10 (size_request_prepare w)
  | BRecovery w => delimited 11 (size_recovery w)
  | BRecoveryResponse w => delimited 12 (size_recovery_response w)
  | BRequestSync w => delimited 13 (size_request_sync w)
  | BSyncCheckpoint w => delimited 14 (size_sync_checkpoint w)
  | BRequestPrepareRange w => delimited 15 (size_request_prepare_range w)
  | BRepairBatch w => delimited 16 (size_repair_batch w)
  | BPrepareBatch w => delimited 17 (size_prepare_batch w)
  | BLearnerStatus w => delimited 18 (size_learner_status w)
  | BEpochAhead w => delimited 19 (size_epoch_ahead w)
  | BRequestLearnerProof w => delimited 20 (size_request_learner_proof w)
  | BLearnerProof w => delimited 21 (size_learner_proof w)
  | BRequestBlock w => delimited 22 (size_request_block w)
  | BBlockResponse w => delimited 23 (size_block_response w)
  | BNack w => delimited 24 (size_nack w)
  | BRequestHealthProof w => delimited 25 (size_request_health_proof w)
  | BHealthProof w => delimited 26 (size_health_proof w)
  end.
(** ** Sizes of fields *)

#[local] Arguments repeated_field : simpl never.
#[local] Arguments varint_field : simpl never.
#[local] Arguments bytes_field : simpl never.
#[local] Arguments delimited : simpl never.

Lemma varint_len_pos v : 1 <= varint_len v.
Proof. unfold varint_len. pose proof (Z.log2_nonneg v). pose proof (Z.div_pos (Z.log2 v) 7). lia. Qed.

Lemma varint_len_le v k : 0 < k -> 0 <= v < 2 ^ (7 * k) -> varint_len v <= k.
Proof.
  intros Hk Hv. unfold varint_len. assert (Z.log2 v < 7 * k).
  { destruct (Z.eq_dec v 0) as [->|]; [cbn; lia|]. by apply Z.log2_lt_pow2; lia. }
  pose proof (Z.div_lt_upper_bound (Z.log2 v) 7 k). lia.
Qed.

Lemma tag_len_le i : 1 <= i <= 15 -> tag_len i = 1.
Proof.
  intros Hi. pose proof (varint_len_pos (i * 8)). pose proof (varint_len_le (i * 8) 1).
  unfold tag_len. change (2 ^ (7 * 1)) with 128 in *. lia.
Qed.

Lemma varint_field_le i v : 1 <= i <= 15 -> fits 64 v -> 0 <= varint_field i v <= WORST_UINT64_FIELD.
Proof.
  intros Hi Hv. unfold varint_field, WORST_UINT64_FIELD. rewrite tag_len_le by done.
  pose proof (varint_len_pos v). pose proof (varint_len_le v 10) as H10. unfold fits in Hv.
  destruct (v =? 0); [lia|]. assert (2 ^ 64 <= 2 ^ (7 * 10)) by (by apply Z.pow_le_mono_r). lia.
Qed.

Lemma delimited_le i n :
  1 <= i <= 15 -> 0 <= n < 2 ^ 35 -> n < delimited i n <= LEN_FIELD_OVERHEAD + n.
Proof.
  intros Hi Hn. unfold delimited, LEN_FIELD_OVERHEAD. rewrite tag_len_le by done.
  pose proof (varint_len_pos n). pose proof (varint_len_le n 5). change (7 * 5) with 35 in *. lia.
Qed.

Lemma delimited_short i n : 1 <= i <= 15 -> 0 <= n < 128 -> delimited i n = 2 + n.
Proof.
  intros Hi Hn. unfold delimited. rewrite tag_len_le by done.
  pose proof (varint_len_pos n). pose proof (varint_len_le n 1). change (2 ^ (7 * 1)) with 128 in *. lia.
Qed.

Lemma bytes_field_le i b :
  1 <= i <= 15 -> zlen b < 2 ^ 35 -> 0 <= bytes_field i b <= LEN_FIELD_OVERHEAD + zlen b.
Proof.
  intros Hi Hb. pose proof (delimited_le i (zlen b)). unfold bytes_field.
  destruct b; [unfold LEN_FIELD_OVERHEAD; cbn; lia|lia].
Qed.

Lemma id_len x : zlen (u128_bytes x) = 16.
Proof. unfold u128_bytes. by rewrite length_be_bytes. Qed.

Lemma id_field_le i x : 1 <= i <= 15 -> bytes_field i (u128_bytes x) = WORST_ID_FIELD.
Proof.
  intros Hi. pose proof (id_len x) as Hx. pose proof (delimited_short i 16) as Hd. rewrite <-Hx in Hd.
  unfold bytes_field, WORST_ID_FIELD. destruct (u128_bytes x); [done|lia].
Qed.

(** The envelope's arm is the only field whose tag may take two bytes. *)
Lemma arm_le i n :
  1 <= i <= 26 -> 0 <= n < 2 ^ 35 -> 0 < delimited i n <= ENVELOPE_ARM_OVERHEAD + n.
Proof.
  intros Hi Hn. unfold delimited, ENVELOPE_ARM_OVERHEAD, tag_len.
  pose proof (varint_len_pos (i * 8)). pose proof (varint_len_pos n).
  pose proof (varint_len_le (i * 8) 2). pose proof (varint_len_le n 5).
  change (7 * 5) with 35 in *. change (2 ^ (7 * 2)) with 16384 in *. lia.
Qed.

(** ** Sizes of log entries *)

Lemma members_size ms :
  repeated_field 3 (map (fun m => zlen m) (map u128_bytes ms)) = zlen ms * WORST_ID_FIELD.
Proof.
  unfold repeated_field. induction ms as [|m ms IH]; [done|]. cbn [map foldr length].
  rewrite id_len, IH, delimited_short by lia. unfold WORST_ID_FIELD. lia.
Qed.

Lemma entry_delimited_le i e :
  1 <= i <= 15 -> entry_fits e -> entry_wire_size_bound e <= MAX_FRAME_LEN ->
  0 <= delimited i (entry_size (pb_entry e)) <= entry_wire_size_bound e.
Proof.
  intros Hi (Hop & _ & Hrq & Hb) Hbound. destruct e as [op c rq b]. unfold entry_size. cbn in *.
  pose proof (varint_field_le 1 op ltac:(lia) Hop). pose proof (varint_field_le 3 rq ltac:(lia) Hrq).
  rewrite id_field_le by lia. unfold entry_wire_size_bound in *. cbn in *.
  destruct b as [bytes|ck|p]; cbn in *.
  - unfold present_entry_encoded_len, LOG_ENTRY_BODY_OVERHEAD, MAX_FRAME_LEN in *.
    pose proof (delimited_le 4 (zlen bytes)). set (s := delimited 4 _) in *.
    set (n := _ + s). pose proof (delimited_le i n). unfold LEN_FIELD_OVERHEAD, WORST_ID_FIELD in *. lia.
  - rewrite id_len, (delimited_short 5) by lia.
    set (n := _ + (2 + 16)). pose proof (delimited_short i n).
    unfold PER_HEADER_ENTRY_BYTES, WORST_UINT64_FIELD, WORST_ID_FIELD in *. lia.
  - destruct Hb as (Hrc & Hlc & Hn & _ & _). unfold size_reconfigure. cbn.
    rewrite members_size, id_field_le by lia.
    pose proof (varint_field_le 1 (p_replica_count p) ltac:(lia) ltac:(unfold fits in *; lia)).
    pose proof (varint_field_le 2 (p_learner_count p) ltac:(lia) ltac:(unfold fits in *; lia)).
    set (q := _ + _ * WORST_ID_FIELD + WORST_ID_FIELD). pose proof (delimited_le 6 q). set (s := delimited 6 q) in *.
    set (n := _ + s). pose proof (delimited_le i n).
    unfold reconfigure_entry_wire_size_bound, sat_add, sat_mul, umax, LOG_ENTRY_BODY_OVERHEAD,
      MAX_FRAME_LEN, LEN_FIELD_OVERHEAD, WORST_ID_FIELD, WORST_UINT64_FIELD in *. lia.
Qed.

Lemma entry_bound_pos e : 0 <= entry_wire_size_bound e.
Proof.
  destruct e as [? ? ? [b|?|p]]; unfold entry_wire_size_bound; cbn [e_body].
  - unfold present_entry_encoded_len, LOG_ENTRY_BODY_OVERHEAD, LEN_FIELD_OVERHEAD, WORST_ID_FIELD,
      WORST_UINT64_FIELD. lia.
  - done.
  - unfold reconfigure_entry_wire_size_bound, sat_add, sat_mul, umax, LOG_ENTRY_BODY_OVERHEAD,
      LEN_FIELD_OVERHEAD, WORST_ID_FIELD, WORST_UINT64_FIELD. lia.
Qed.

Lemma log_size_le i log :
  1 <= i <= 15 -> log_fits log -> log_wire_size_bound log <= MAX_FRAME_LEN ->
  0 <= repeated_field i (map entry_size (wire_log log)) <= log_wire_size_bound log.
Proof.
  intros Hi [_ Hfit] Hb. unfold log_wire_size_bound, repeated_field, wire_log in *.
  set (f := fun acc e => sat_add 64 acc (entry_wire_size_bound e)) in *.
  set (size := fun l => foldr (fun n acc => delimited i n + acc) 0 (map entry_size (map pb_entry l))).
  enough (Hgen : forall acc, 0 <= acc -> fold_left f log acc <= MAX_FRAME_LEN ->
            0 <= size log /\ acc + size log <= fold_left f log acc)
    by (specialize (Hgen 0 ltac:(lia) Hb); unfold size in Hgen; lia).
  clear Hb. induction Hfit as [|e log He Hfit IH]; intros acc Hacc Hb; cbn in *; [lia|].
  pose proof (entry_bound_pos e). destruct (IH (f acc e)) as [Hs Hle]; [|done|].
  { subst f. unfold sat_add, umax. lia. }
  fold (size log). subst f. cbv beta in *. unfold sat_add, umax, MAX_FRAME_LEN in *.
  pose proof (entry_delimited_le i e Hi He) as Hd. unfold MAX_FRAME_LEN in Hd. lia.
Qed.

(** ** Sizes of messages *)

Lemma replica_field_le i r : 1 <= i <= 15 -> fits 16 r -> 0 <= varint_field i r <= WORST_UINT64_FIELD.
Proof. intros. apply varint_field_le; unfold fits in *; lia. Qed.

Lemma optional_varint_le i o : 1 <= i <= 15 -> opt_fits o -> 0 <= optional_varint i o <= WORST_UINT64_FIELD.
Proof.
  intros Hi Ho. unfold optional_varint, WORST_UINT64_FIELD. destruct o as [v|]; [|lia].
  rewrite tag_len_le by done. pose proof (varint_len_pos v). pose proof (varint_len_le v 10).
  assert (2 ^ 64 <= 2 ^ (7 * 10)) by (by apply Z.pow_le_mono_r). cbn in Ho. unfold fits in Ho. lia.
Qed.

Lemma bool_field_le i b : 1 <= i <= 15 -> 0 <= varint_field i (Z.b2z b) <= WORST_UINT64_FIELD.
Proof. intros. apply varint_field_le; [done|]. destruct b; unfold fits; cbn; lia. Qed.

(** Every field of a message replaced by what is known of its size. *)
Ltac bound_field :=
  let known H := (let s := fresh "s" in match type of H with 0 <= ?t <= _ => set (s := t) in *; clearbody s end) in
  match goal with
  | |- context [bytes_field ?i (u128_bytes ?x)] => rewrite (id_field_le i x) by lia
  | |- context [varint_field ?i (Z.b2z ?b)] =>
      let H := fresh in pose proof (bool_field_le i b ltac:(lia)) as H; known H
  | _ : fits 64 ?x |- context [varint_field ?i ?x] =>
      let H := fresh in pose proof (varint_field_le i x ltac:(lia) ltac:(assumption)) as H; known H
  | _ : fits 16 ?x |- context [varint_field ?i ?x] =>
      let H := fresh in pose proof (replica_field_le i x ltac:(lia) ltac:(assumption)) as H; known H
  | _ : opt_fits ?x |- context [optional_varint ?i ?x] =>
      let H := fresh in pose proof (optional_varint_le i x ltac:(lia) ltac:(assumption)) as H; known H
  | |- context [bytes_field ?i ?b] =>
      let H := fresh in pose proof (bytes_field_le i b ltac:(lia) ltac:(lia)) as H; known H
  | _ : log_fits ?l |- context [repeated_field ?i (map entry_size (wire_log ?l))] =>
      let H := fresh in pose proof (log_size_le i l ltac:(lia) ltac:(assumption) ltac:(unfold MAX_FRAME_LEN; lia)) as H;
      known H
  end.

Definition body_of (m : Message) : PbBody :=
  match pm_body (pb_message m) with Some b => b | None => BRequest (mkPbRequest [] 0 []) end.

#[local] Arguments wire_log : simpl never.

Lemma message_size_le m :
  message_ok m -> wire_size_bound m <= MAX_FRAME_LEN -> 0 < size_body (body_of m) <= wire_size_bound m.
Proof.
  unfold body_of, size_body, wire_size_bound.
  destruct m as [m|m|m|m|m|m|m|m|m|m|m|m|m|m|m|m|m|m|m|m|m|m|m|m|m|m]; cbn [pb_message pm_body message_ok].
  all: match goal with |- context [delimited ?i (?f _)] => unfold f end.
  all: unfold fixed_fields_bound, REQUEST_ENCODE_OVERHEAD, PREPARE_ENCODE_OVERHEAD, REPLY_ENCODE_OVERHEAD,
    REPAIR_BATCH_CARRIER_OVERHEAD, PREPARE_BATCH_CARRIER_OVERHEAD, sat_add, sat_mul, umax, MAX_FRAME_LEN.
  all: unfold ENVELOPE_ARM_OVERHEAD, LEN_FIELD_OVERHEAD, WORST_UINT64_FIELD, WORST_ID_FIELD.
  all: intros Hm Hb; cbn in Hm |- *; destruct_and? Hm.
  all: repeat bound_field; unfold WORST_UINT64_FIELD, WORST_ID_FIELD, LEN_FIELD_OVERHEAD in *.
  all: match goal with |- context [delimited ?i ?n] => pose proof (arm_le i n) end.
  all: unfold ENVELOPE_ARM_OVERHEAD in *; try lia.
  destruct (br_block m) as [b|]; cbn [optional_bytes] in *; [|lia].
  pose proof (delimited_le 2 (zlen b)). unfold LEN_FIELD_OVERHEAD in *. lia.
Qed.

(** ** The choke point every transport sends and receives through *)

(** [buffa::DecodeError], as far as [map_decode_err] tells its cases apart. *)
Inductive DecodeError : Type :=
| UnexpectedEof
| UnknownFieldLimitExceeded
| OtherDecodeError.

Definition map_decode_err (e : DecodeError) : CodecError :=
  match e with
  | UnexpectedEof => Truncated 0 0
  | UnknownFieldLimitExceeded => Malformed "wire envelope"
  | OtherDecodeError => Malformed "wire envelope"
  end.

Definition MAX_UNKNOWN_FIELDS : Z := 16.

Section Runtime.

(** The protobuf runtime: [encode_to_bytes], and [decode] under a maximum message
    size and an unknown-field limit. *)
Variable encode_to_bytes : PbMessage -> list byte.
Variable decode : Z -> Z -> list byte -> result DecodeError PbMessage.

Definition encode_message (msg : Message) : list byte := encode_to_bytes (pb_message msg).

Definition decode_message (frame : list byte) : result CodecError Message :=
  let? wire := map_err map_decode_err (decode MAX_FRAME_LEN MAX_UNKNOWN_FIELDS frame) in
  message_from wire.

(** Its documented behaviour on one envelope: the length of a canonical encoding,
    and that what was encoded decodes when it is within the cap and carries no more
    unknown fields than the limit. *)
Definition canonical_runtime (w : PbMessage) : Prop :=
  (forall b, w = mkPbMessage (Some b) [] -> size_body b < 2 ^ 31 -> zlen (encode_to_bytes w) = size_body b) /\
  (forall max unknown, zlen (encode_to_bytes w) <= max -> zlen (pm_unknown w) <= unknown ->
     decode max unknown (encode_to_bytes w) = Ok w).

Lemma pb_message_body m : pb_message m = mkPbMessage (Some (body_of m)) [].
Proof. by destruct m. Qed.

(** C24. A well-formed message whose [wire_size_bound] passes the frame cap encodes
    to at most that many bytes and decodes back to itself: the preflight a send is
    checked against never under-estimates, and what it lets through arrives. *)
Theorem preflight_sound (m : Message) (Hrt : canonical_runtime (pb_message m)) (Hm : message_ok m)
    (Hb : wire_size_bound m <= MAX_FRAME_LEN) :
  0 < zlen (encode_message m) <= wire_size_bound m /\ decode_message (encode_message m) = Ok m.
Proof.
  destruct Hrt as [Hlen Hdec]. pose proof (message_size_le m Hm Hb) as Hs.
  specialize (Hlen (body_of m) (pb_message_body m)).
  unfold encode_message, decode_message, MAX_UNKNOWN_FIELDS, MAX_FRAME_LEN in *.
  assert (Hu : zlen (pm_unknown (pb_message m)) = 0) by done.
  rewrite Hdec, Hlen by lia. split; [done|].
  cbn [map_err]. by apply message_from_complete.
Qed.
End Runtime.

(** The bytes of an epoch hint: arm 19, four bytes, epoch 1, checkpoint 5. *)
Definition hint_message : Message := MEpochAhead (mkEpochAhead 1 5).
Definition hint_encode (w : PbMessage) : list byte :=
  match pm_body w with
  | Some (BEpochAhead _) => [x9a; x01; x04; x08; x01; x10; x05]%byte
  | _ => []
  end.
Definition hint_decode (max unknown : Z) (frame : list byte) : result DecodeError PbMessage :=
  if max <? zlen frame then Err OtherDecodeError
  else match frame with
       | [] => Ok (mkPbMessage None [])
       | _ => Ok (pb_message hint_message)
       end.

Lemma preflight_sound_witness :
  wire_size_bound hint_message = 29 /\
  decode_message hint_decode (encode_message hint_encode hint_message) = Ok hint_message.
Proof.
  split; [reflexivity|].
  apply (preflight_sound hint_encode hint_decode hint_message).
  - split; [intros b [= <-] _; reflexivity|]. intros max unknown Hmax _. unfold hint_decode.
    destruct (Z.ltb_spec max (zlen (hint_encode (pb_message hint_message)))); [lia|reflexivity].
  - split; unfold fits; cbn; lia.
  - unfold MAX_FRAME_LEN. vm_compute. discriminate.
Defined.

(** ** The request cap *)

(** [max_request_body_len] is exactly the largest body that every message
    carrying it may take: a request body is within the cap if and only if the
    [Request], the [Prepare], and a one-entry [RepairBatch] and [PrepareBatch] with
    it all pass the preflight, whatever their other fields.  So an operation a
    client may submit can always be replicated and repaired. *)
Theorem request_cap_exact (client view op commit ckpt epoch config_id request : Z) (body : list byte) :
  let entry := mkEntry op client request (Present body) in
  zlen body <= max_request_body_len <->
  wire_size_bound (MRequest (mkRequest client request body)) <= MAX_FRAME_LEN /\
  wire_size_bound (MPrepare (mkPrepare view op commit ckpt epoch config_id client request body))
    <= MAX_FRAME_LEN /\
  wire_size_bound (MRepairBatch (mkRepairBatch view commit ckpt config_id [entry])) <= MAX_FRAME_LEN /\
  wire_size_bound (MPrepareBatch (mkPrepareBatch view commit ckpt epoch config_id [entry]))
    <= MAX_FRAME_LEN.
Proof.
  cbn. unfold log_wire_size_bound, entry_wire_size_bound, present_entry_encoded_len, sat_add, umax. cbn.
  change max_request_body_len with 16777095. change MAX_FRAME_LEN with 16777216.
  change REQUEST_ENCODE_OVERHEAD with 42. change PREPARE_ENCODE_OVERHEAD with 115.
  change LOG_ENTRY_BODY_OVERHEAD with 52. change REPAIR_BATCH_CARRIER_OVERHEAD with 58.
  change PREPARE_BATCH_CARRIER_OVERHEAD with 69. lia.
Qed.
