(* ===== verification/BTree.v ===== *)
(** * Ordered maps

    Rust's [BTreeMap<u64, V>] as its strictly ascending entry list: lookup,
    insertion, removal and in-order iteration ([values] is [map snd]). *)

From S2P Require Import Prelude.

Section btree.
Context {V : Type}.

Definition btree : Type := list (Z * V).
Implicit Types (t : btree) (k : Z) (v : V).

Fixpoint bt_get k t : option V :=
  match t with
  | [] => None
  | (k', v') :: r => if k =? k' then Some v' else bt_get k r
  end.

Fixpoint bt_insert k v t : btree :=
  match t with
  | [] => [(k, v)]
  | (k', v') :: r =>
      if k =? k' then (k, v) :: r
      else if k <? k' then (k, v) :: t
      else (k', v') :: bt_insert k v r
  end.

Fixpoint bt_remove k t : btree :=
  match t with
  | [] => []
  | (k', v') :: r => if k =? k' then r else (k', v') :: bt_remove k r
  end.

Definition bt_sorted t : Prop := StronglySorted (fun a b => a.1 < b.1) t.

Lemma bt_sorted_cons k v t :
  bt_sorted ((k, v) :: t) <-> bt_sorted t /\ Forall (fun b => k < b.1) t.
Proof.
  split; [by intros [? ?]%StronglySorted_inv|]. intros [? ?]. by constructor.
Qed.

Lemma bt_get_insert k k' v t :
  bt_get k' (bt_insert k v t) = if k' =? k then Some v else bt_get k' t.
Proof.
  induction t as [|[k0 v0] t IH]; simpl; [by destruct (Z.eqb_spec k' k)|].
  destruct (Z.eqb_spec k k0); simpl.
  - subst. by destruct (Z.eqb_spec k' k0).
  - destruct (Z.ltb_spec k k0); simpl; [done|].
    destruct (Z.eqb_spec k' k0); [|done]. subst. by destruct (Z.eqb_spec k0 k); [lia|].
Qed.

Lemma Forall_bt_insert (P : Z * V -> Prop) k v t :
  P (k, v) -> Forall P t -> Forall P (bt_insert k v t).
Proof.
  intros Hp. induction 1 as [|[k' v'] t ? Ht IH]; simpl; [by constructor|].
  repeat case_match; repeat constructor; done.
Qed.

Lemma bt_insert_sorted k v t : bt_sorted t -> bt_sorted (bt_insert k v t).
Proof.
  induction t as [|[k' v'] t IH]; simpl; intros H; [repeat constructor|].
  pose proof H as [Ht Hlt]%bt_sorted_cons.
  destruct (Z.eqb_spec k k'); [subst; by apply bt_sorted_cons|].
  destruct (Z.ltb_spec k k').
  - apply bt_sorted_cons. split; [done|]. constructor; [done|].
    eapply Forall_impl; [exact Hlt|]. simpl. lia.
  - apply bt_sorted_cons. split; [by apply IH|]. apply Forall_bt_insert; [simpl; lia|done].
Qed.

Lemma bt_get_elem k v t : bt_sorted t -> bt_get k t = Some v <-> (k, v) ∈ t.
Proof.
  induction t as [|[k' v'] t IH]; intros H; simpl; [by rewrite elem_of_nil|].
  apply bt_sorted_cons in H as [Ht Hlt]. rewrite elem_of_cons, <-(IH Ht).
  destruct (Z.eqb_spec k k') as [->|Hne].
  - split; [intros; simplify_eq; by left|]. intros [|H]; [by simplify_eq|].
    apply IH in H; [|done]. rewrite Forall_forall in Hlt. specialize (Hlt _ H). simpl in Hlt. lia.
  - split; [by right|]. intros [|]; [by simplify_eq|done].
Qed.

Lemma bt_get_None k t : bt_get k t = None <-> Forall (fun b => b.1 <> k) t.
Proof.
  induction t as [|[k' v'] t IH]; simpl; [done|]. rewrite Forall_cons. simpl.
  destruct (Z.eqb_spec k k'); [|rewrite IH]; naive_solver.
Qed.

(** Overwriting a present key keeps the key list. *)
Lemma bt_insert_keys k v t :
  bt_sorted t -> is_Some (bt_get k t) -> map fst (bt_insert k v t) = map fst t.
Proof.
  induction t as [|[k0 v0] t IH]; simpl; intros Hs Hx; [by destruct Hx|].
  apply bt_sorted_cons in Hs as [Hs Hall]. destruct (Z.eqb_spec k k0) as [->|Hne]; [done|].
  destruct (Z.ltb_spec k k0) as [Hlt|]; simpl; [|f_equal; by apply IH].
  exfalso. destruct Hx as [x Hx%bt_get_elem]; [|done].
  eapply Forall_forall in Hall; [|exact Hx]. simpl in Hall. lia.
Qed.

End btree.
Arguments btree : clear implicits.
