(* ===== verification/ViewChange.v ===== *)
(** * View change: vote collection and canonical-log selection

    [viewstamp-proto/src/endpoint/view_change.rs]: the header-only log carried by
    a vote ([log_entries]), the vote and its emission ([send_do_view_change]),
    the prospective primary's vote collection ([on_do_view_change], up to the
    call that starts the view, which it reports) and
    [select_canonical_log], the function that decides which operations survive
    into the new view.  The selection's [assert!] fail-stop is the [None]
    result. *)

From S2P Require Import Prelude Core Hash Membership Codec Message BTree.

(** ** The in-memory log and the vote it yields *)

Record LogEntry : Type := mkLogEntry {
  l_client : ClientId;
  l_request : RequestNumber;
  l_body : Body;
}.

Definition log_entries (log : btree LogEntry) : list PreparedEntry :=
  map (fun '(op, e) =>
         entry_repairing op (l_client e) (l_request e) (body_checksum (l_body e))) log.

(** The fields of the endpoint a vote is built from. *)
Record Voter : Type := mkVoter {
  vt_view : View;
  vt_log_view : View;
  vt_op : OpNumber;
  vt_commit_max : OpNumber;
  vt_log_floor : OpNumber;
  vt_membership : Membership;
  vt_slot : ReplicaId;
  vt_log : btree LogEntry;
}.

(** The [DoViewChange] both [send_do_view_change] and the own-vote branch of
    [on_do_view_change] build: the committed frontier is bounded by the held
    head, and the log floor is the vouched checkpoint. *)
Definition own_dvc (s : Voter) : DoViewChange :=
  mkDVC (vt_view s) (vt_log_view s) (vt_op s) (Z.min (vt_commit_max s) (vt_op s))
    (vt_log_floor s) (m_epoch (vt_membership s)) (m_config_id (vt_membership s)) (vt_slot s)
    (log_entries (vt_log s)).

(** A non-voter sends nothing, whatever it staged earlier; a member removed from
    the configuration has no slot and is not a voter either. *)
Definition send_do_view_change (s : Voter) : option (Recipient * DoViewChange) :=
  if is_voter (vt_membership s) (vt_slot s)
  then Some (To (PeerReplica (primary (vt_membership s) (vt_view s))), own_dvc s)
  else None.

(** ** Collecting votes *)

(** A peer's checkpoint report, kept under its stable member id and never
    lowered.  The cached quorum statistic is a function of this map. *)
Definition record_peer_checkpoint (m : Membership) (peer_checkpoint : gmap MemberId OpNumber)
    (replica : ReplicaId) (reported : OpNumber) : gmap MemberId OpNumber :=
  match member_at m replica with
  | None => peer_checkpoint
  | Some member =>
      let prev := default 0 (peer_checkpoint !! member) in
      <[member := Z.max prev reported]> peer_checkpoint
  end.


(** Keep the most-advanced vote per replica: lexicographic on (log view, head). *)
Definition more_advanced (m cur : DoViewChange) : bool :=
  (d_log_view cur <? d_log_view m)
  || ((d_log_view cur =? d_log_view m) && (d_op cur <? d_op m)).

Definition insert_own (s : Voter) (dvc_from : btree DoViewChange) : btree DoViewChange :=
  match bt_get (vt_slot s) dvc_from with
  | None => bt_insert (vt_slot s) (own_dvc s) dvc_from
  | Some _ => dvc_from
  end.

Definition insert_vote (m : DoViewChange) (dvc_from : btree DoViewChange) : btree DoViewChange :=
  let replace :=
    match bt_get (d_replica m) dvc_from with
    | Some cur => more_advanced m cur
    | None => true
    end in
  if replace then bt_insert (d_replica m) m dvc_from else dvc_from.

(** [on_do_view_change]: the vote collection and the peer checkpoints afterwards,
    and whether [start_view_as_new_primary] is called.  [None] is the early
    return: a vote for another view, not the prospective primary, not in
    [ViewChange], a view whose log was already formed, or a slot that is not a
    voter. *)
Definition on_do_view_change (s : Voter) (status : Status) (dvc_quorum : bool)
    (peers : gmap MemberId OpNumber) (dvc_from : btree DoViewChange) (m : DoViewChange)
    : option (btree DoViewChange * gmap MemberId OpNumber * bool) :=
  if negb (d_view m =? vt_view s)
     || negb (is_primary_slot (vt_membership s) (vt_slot s) (vt_view s))
     || negb (is_view_change status) || dvc_quorum
  then None
  else if m_replica_count (vt_membership s) <=? d_replica m then None
  else
    let peers := record_peer_checkpoint (vt_membership s) peers (d_replica m) (d_checkpoint_op m) in
    let dvc_from := insert_vote m (insert_own s dvc_from) in
    Some (dvc_from, peers, quorum_view_change (vt_membership s) <=? zlen dvc_from).

(** ** Selection *)

(** [iter().max().unwrap_or(0)] over unsigned integers. *)
Definition max_or_zero (l : list Z) : Z := foldr Z.max 0 l.

Definition canonical_of (dvcs : list DoViewChange) : list DoViewChange :=
  let log_view_star := max_or_zero (map d_log_view dvcs) in
  filter (fun d => d_log_view d = log_view_star) dvcs.

Definition carried (ds : list DoViewChange) : list PreparedEntry := concat (map d_log ds).

Definition commit_star (dvcs : list DoViewChange) : Z := max_or_zero (map d_commit dvcs).

(** The canonical head, bounded by the entries really carried. *)
Definition bounded_head (dvcs : list DoViewChange) : Z :=
  let canonical := canonical_of dvcs in
  let claimed_op_head := max_or_zero (map d_op canonical) in
  let max_present_op := max_or_zero (map e_op (carried canonical)) in
  Z.min claimed_op_head (Z.max max_present_op (commit_star dvcs)).

(** Truncation of the uncommitted tail at the first op a nack quorum lacks,
    computed from the sorted donor heads. *)
Definition truncate_head (m : Membership) (dvcs : list DoViewChange) (commit op_head : Z) : Z :=
  let threshold := quorum_nack_prepare m in
  let donor_ops := merge_sort Z.le (map d_op dvcs) in
  if (1 <=? threshold) && (threshold <=? zlen donor_ops) then
    match donor_ops !! Z.to_nat (threshold - 1) with
    | Some d =>
        let first_nack_op := sat_add 64 d 1 in
        let cross := Z.max first_nack_op (sat_add 64 commit 1) in
        if cross <=? op_head then sat_sub cross 1 else op_head
    | None => op_head
    end
  else op_head.

Definition floor_star (dvcs : list DoViewChange) : Z :=
  Z.min (max_or_zero (map d_checkpoint_op (canonical_of dvcs))) (commit_star dvcs).

Definition merge_entry (floor head : Z) (merged : btree PreparedEntry) (entry : PreparedEntry)
    : btree PreparedEntry :=
  if (floor <? e_op entry) && (e_op entry <=? head) then
    match bt_get (e_op entry) merged with
    | None => bt_insert (e_op entry) entry merged
    | Some held =>
        if entry_is_repairing held && negb (entry_is_repairing entry)
        then bt_insert (e_op entry) entry merged
        else merged
    end
  else merged.

Record Selection : Type := mkSelection {
  s_log : list PreparedEntry;
  s_op_head : Z;
  s_commit : Z;
  s_floor : Z;
  s_floored_union : bool;
}.

Definition select_canonical_log (m : Membership) (dvcs : list DoViewChange) : option Selection :=
  let canonical := canonical_of dvcs in
  let commit := commit_star dvcs in
  let op_head := bounded_head dvcs in
  if commit <=? op_head then
    let op_head := truncate_head m dvcs commit op_head in
    let floor := floor_star dvcs in
    let floored := existsb (fun e => e_op e <=? floor) (carried canonical) in
    let merged := foldl (merge_entry floor op_head) [] (carried canonical) in
    Some (mkSelection (map snd merged) op_head commit floor floored)
  else None.

(** ** The per-op scan the truncation replaces *)

Definition nacks (dvcs : list DoViewChange) (op : Z) : Z :=
  zlen (filter (fun d => d_op d < op) dvcs).

Definition scan_head (m : Membership) (dvcs : list DoViewChange) (commit op_head : Z) : Z :=
  match list_find (fun op => quorum_nack_prepare m <= nacks dvcs op)
          (seqZ (commit + 1) (op_head - commit)) with
  | Some (_, op) => op - 1
  | None => op_head
  end.

(** ** Maxima *)

Lemma max_or_zero_ge l x : x ∈ l -> x <= max_or_zero l.
Proof. induction 1; simpl; lia. Qed.

Lemma max_or_zero_nonneg l : 0 <= max_or_zero l.
Proof. induction l; simpl; lia. Qed.

Lemma max_or_zero_elem l : l <> [] -> Forall (Z.le 0) l -> max_or_zero l ∈ l.
Proof.
  induction l as [|x l IH]; [done|]. intros _ [Hx Hl]%Forall_cons. simpl.
  destruct l as [|y l]; [simpl; rewrite Z.max_l by done; set_solver|].
  specialize (IH ltac:(done) Hl).
  destruct (Z.max_spec x (max_or_zero (y :: l))) as [[_ ->]|[_ ->]]; set_solver.
Qed.

Lemma max_or_zero_perm l l' : l ≡ₚ l' -> max_or_zero l = max_or_zero l'.
Proof. induction 1; simpl; lia. Qed.

(** ** Counting over a sorted list *)

Lemma sorted_pivot (l : list Z) i x :
  StronglySorted Z.le l -> l !! i = Some x ->
  Forall (fun y => y <= x) (take i l) /\ Forall (fun y => x <= y) (drop i l).
Proof.
  intros Hs Hi. rewrite <-(take_drop i l) in Hs. rewrite (drop_S l x i Hi) in *.
  apply StronglySorted_app in Hs as (Hlt & _ & Hs).
  apply StronglySorted_inv in Hs as [_ Hge]. split.
  - rewrite Forall_forall. intros y Hy. apply Hlt; set_solver.
  - by constructor.
Qed.

Lemma filter_all_false {A} (P : A -> Prop) `{!forall x, Decision (P x)} (l : list A) :
  Forall (fun x => ~ P x) l -> filter P l = [].
Proof.
  induction 1; [done|]. by rewrite filter_cons_False.
Qed.

Lemma filter_all_true {A} (P : A -> Prop) `{!forall x, Decision (P x)} (l : list A) :
  Forall P l -> filter P l = l.
Proof. induction 1; [done|]. rewrite filter_cons_True by done. by f_equal. Qed.

(** At least [t] elements of a sorted list are below [x] iff its [t]-th one is. *)
Lemma sorted_count (l : list Z) t d x :
  StronglySorted Z.le l -> (1 <= t)%nat -> l !! (t - 1)%nat = Some d ->
  (t <= length (filter (fun y => y < x)%Z l))%nat <-> d < x.
Proof.
  intros Hs Ht Hd. destruct (sorted_pivot l (t - 1) d Hs Hd) as [Hlo Hhi].
  pose proof (lookup_lt_Some _ _ _ Hd) as Hlen.
  rewrite <-(take_drop (t - 1) l) at 1. rewrite filter_app, length_app.
  destruct (Z.lt_ge_cases d x) as [Hlt|Hge].
  - split; [done|intros _]. rewrite (filter_all_true _ (take (t - 1) l)).
    + rewrite (drop_S l d (t - 1) Hd), filter_cons_True by done. simpl. rewrite length_take. lia.
    + eapply Forall_impl; [exact Hlo|]. simpl. lia.
  - split; [|lia]. rewrite (filter_all_false _ (drop (t - 1) l)).
    + simpl. pose proof (length_filter (fun y => y < x) (take (t - 1) l)) as Hf.
      rewrite length_take in Hf. lia.
    + eapply Forall_impl; [exact Hhi|]. simpl. lia.
Qed.

Lemma nacks_sorted dvcs op :
  nacks dvcs op = zlen (filter (fun y => y < op) (merge_sort Z.le (map d_op dvcs))).
Proof.
  unfold nacks. f_equal. rewrite (merge_sort_Permutation Z.le (map d_op dvcs)).
  induction dvcs as [|d dvcs IH]; [done|]. cbn [map]. rewrite !filter_cons.
  destruct (decide (d_op d < op)); cbn [length]; by rewrite ?IH.
Qed.

Lemma donor_ops_sorted dvcs : StronglySorted Z.le (merge_sort Z.le (map d_op dvcs)).
Proof. apply StronglySorted_merge_sort; apply _. Qed.

Lemma length_donor_ops dvcs : length (merge_sort Z.le (map d_op dvcs)) = length dvcs.
Proof. by rewrite (merge_sort_Permutation Z.le (map d_op dvcs)), length_map. Qed.

Lemma nacks_le dvcs op : nacks dvcs op <= zlen dvcs.
Proof. unfold nacks. pose proof (length_filter (fun d => d_op d < op) dvcs). lia. Qed.

(** The first crossing of a range scan, when the predicate is an upper set. *)
Lemma find_crossing (P : Z -> Prop) `{!forall x, Decision (P x)} lo hi d :
  (forall x, lo < x -> P x <-> d < x) -> lo <= hi ->
  match list_find P (seqZ (lo + 1) (hi - lo)) with
  | Some (_, op) => op - 1
  | None => hi
  end = if Z.max (d + 1) (lo + 1) <=? hi then Z.max (d + 1) (lo + 1) - 1 else hi.
Proof.
  intros HP Hle. destruct (list_find P _) as [[i op]|] eqn:E.
  - apply list_find_Some in E as ([-> Hi]%lookup_seqZ & Hop & Hbefore).
    apply HP in Hop; [|lia]. rewrite (proj2 (Z.leb_le _ _)) by lia.
    assert (~ d + 1 < lo + 1 + Z.of_nat i \/ i = 0%nat) as Hfirst; [|lia].
    destruct i as [|i]; [by right|left]. intros Hlt.
    apply (Hbefore i (lo + 1 + Z.of_nat i)); [apply lookup_seqZ; lia|lia|].
    apply HP; lia.
  - apply list_find_None in E. rewrite Forall_forall in E.
    destruct (Z.leb_spec (Z.max (d + 1) (lo + 1)) hi); [|done]. exfalso.
    apply (E (Z.max (d + 1) (lo + 1))); [apply elem_of_seqZ; lia|]. apply HP; lia.
Qed.

Lemma truncate_head_scan m dvcs commit op_head :
  1 <= quorum_nack_prepare m -> Forall (fun d => fits 64 (d_op d)) dvcs ->
  0 <= commit <= op_head -> op_head < umax 64 ->
  truncate_head m dvcs commit op_head = scan_head m dvcs commit op_head.
Proof.
  intros Ht Hops Hc Hh. unfold truncate_head, scan_head. set (t := quorum_nack_prepare m) in *.
  rewrite length_donor_ops, (proj2 (Z.leb_le 1 t)) by lia. simpl.
  destruct (Z.leb_spec t (zlen dvcs)).
  - destruct (lookup_lt_is_Some_2 (merge_sort Z.le (map d_op dvcs)) (Z.to_nat (t - 1))) as [d Hd].
    { rewrite length_donor_ops. lia. }
    rewrite Hd.
    assert (fits 64 d) as Hfit.
    { apply list_elem_of_lookup_2 in Hd. rewrite (merge_sort_Permutation Z.le) in Hd.
      apply list_elem_of_fmap in Hd as (v & -> & Hv). by eapply Forall_forall in Hops. }
    rewrite (find_crossing _ commit op_head d); [|intros x _|lia].
    + unfold sat_add, sat_sub, umax, fits in *.
      destruct (Z.leb_spec (Z.max (d + 1) (commit + 1)) op_head).
      * rewrite (proj2 (Z.leb_le _ _)) by lia. lia.
      * by rewrite (proj2 (Z.leb_gt _ _)) by lia.
    + rewrite nacks_sorted, <-(sorted_count _ (Z.to_nat t) d x (donor_ops_sorted dvcs));
        [lia|lia|]. rewrite <-Hd. f_equal. lia.
  - destruct (list_find _ _) as [[i op]|] eqn:E; [|done].
    apply list_find_Some in E as (_ & Hop & _). pose proof (nacks_le dvcs op). lia.
Qed.

(** The truncated head stays between the committed frontier and the head, and
    an op above it has a nack quorum against it. *)
Lemma scan_head_bounds m dvcs commit op_head :
  commit <= op_head -> commit <= scan_head m dvcs commit op_head <= op_head.
Proof.
  intros Hc. unfold scan_head. destruct (list_find _ _) as [[i op]|] eqn:E; [|lia].
  apply list_find_Some in E as ([-> Hi]%lookup_seqZ & _ & _). lia.
Qed.

Lemma nacks_mono dvcs x y : x <= y -> nacks dvcs x <= nacks dvcs y.
Proof.
  intros Hxy. unfold nacks. induction dvcs as [|d dvcs IH]; [done|]. rewrite !filter_cons.
  destruct (decide (d_op d < x)), (decide (d_op d < y)); simpl; lia.
Qed.

Lemma scan_head_keeps m dvcs commit op_head op :
  commit < op <= op_head -> nacks dvcs op < quorum_nack_prepare m ->
  op <= scan_head m dvcs commit op_head.
Proof.
  intros Hop Hn. unfold scan_head. destruct (list_find _ _) as [[i x]|] eqn:E; [|lia].
  apply list_find_Some in E as ([-> Hi]%lookup_seqZ & Hx & _).
  destruct (Z.le_gt_cases op (commit + 1 + Z.of_nat i - 1)); [done|].
  pose proof (nacks_mono dvcs (commit + 1 + Z.of_nat i) op ltac:(lia)). lia.
Qed.

Lemma scan_head_dropped m dvcs commit op_head op :
  scan_head m dvcs commit op_head < op <= op_head -> commit < op ->
  quorum_nack_prepare m <= nacks dvcs op.
Proof.
  unfold scan_head. destruct (list_find _ _) as [[i x]|] eqn:E; [|lia].
  apply list_find_Some in E as ([-> Hi]%lookup_seqZ & Hx & _). intros ? ?.
  pose proof (nacks_mono dvcs (commit + 1 + Z.of_nat i) op ltac:(lia)). lia.
Qed.

(** ** The merged log *)

Section merge.
Context (floor head : Z).

Abbreviation merged es := (foldl (merge_entry floor head) [] es).

Lemma merged_snoc es e : merged (es ++ [e]) = merge_entry floor head (merged es) e.
Proof. by rewrite foldl_app. Qed.

Lemma merged_sorted es : bt_sorted (merged es).
Proof.
  induction es as [|e es IH] using rev_ind; [constructor|]. rewrite merged_snoc.
  unfold merge_entry. repeat case_match; auto using bt_insert_sorted.
Qed.

Lemma merge_entry_get t e k x :
  bt_get k (merge_entry floor head t e) = Some x ->
  bt_get k t = Some x \/ (x = e /\ k = e_op e /\ floor < k <= head).
Proof.
  unfold merge_entry.
  destruct (Z.ltb_spec floor (e_op e)), (Z.leb_spec (e_op e) head); simpl; auto.
  destruct (bt_get (e_op e) t) as [held|]; [case_match; [|auto]|];
    rewrite bt_get_insert; destruct (Z.eqb_spec k (e_op e)); naive_solver.
Qed.

(** Every merged entry was carried, under its own op, inside the band. *)
Lemma merged_sound es k x :
  bt_get k (merged es) = Some x -> x ∈ es /\ e_op x = k /\ floor < k <= head.
Proof.
  induction es as [|e es IH] using rev_ind; [done|]. rewrite merged_snoc.
  intros [?%IH|(-> & -> & ?)]%merge_entry_get; set_solver.
Qed.

(** A held entry stays, or gives way to one with a body. *)
Lemma merge_entry_keeps t e k x :
  bt_get k t = Some x ->
  exists y, bt_get k (merge_entry floor head t e) = Some y /\
    (entry_is_repairing y = true -> entry_is_repairing x = true).
Proof.
  intros Hx. unfold merge_entry. case_match; [|by eauto].
  destruct (bt_get (e_op e) t) as [held|] eqn:E.
  - destruct (entry_is_repairing held && negb (entry_is_repairing e)) eqn:Eb; [|by eauto].
    rewrite bt_get_insert. destruct (Z.eqb_spec k (e_op e)) as [->|]; [|by eauto].
    simplify_eq. apply andb_true_iff in Eb as [? ?%negb_true_iff]. exists e. split; [done|].
    congruence.
  - rewrite bt_get_insert. destruct (Z.eqb_spec k (e_op e)) as [->|]; [congruence|by eauto].
Qed.

Lemma merge_entry_adds t e :
  floor < e_op e <= head ->
  exists y, bt_get (e_op e) (merge_entry floor head t e) = Some y /\
    (entry_is_repairing y = true -> entry_is_repairing e = true).
Proof.
  intros Hb. unfold merge_entry. rewrite (proj2 (Z.ltb_lt _ _)), (proj2 (Z.leb_le _ _)) by lia.
  simpl. destruct (bt_get (e_op e) t) as [held|] eqn:E.
  - destruct (entry_is_repairing held) eqn:Eh, (entry_is_repairing e) eqn:Ee; simpl;
      rewrite ?bt_get_insert, ?Z.eqb_refl;
      (eexists; split; [done|congruence]).
  - rewrite bt_get_insert, Z.eqb_refl. eauto.
Qed.

(** Every op carried inside the band is in the merged log, with a body if any
    donor carried one. *)
Lemma merged_complete es e :
  e ∈ es -> floor < e_op e <= head ->
  exists y, bt_get (e_op e) (merged es) = Some y /\
    (entry_is_repairing y = true -> entry_is_repairing e = true).
Proof.
  induction es as [|e' es IH] using rev_ind; [by intros ?%not_elem_of_nil|].
  rewrite elem_of_app, list_elem_of_singleton, merged_snoc. intros [He| ->] Hb.
  - destruct (IH He Hb) as (y & Hy & Hr).
    destruct (merge_entry_keeps (merged es) e' _ _ Hy) as (z & Hz & Hr'). naive_solver.
  - by apply merge_entry_adds.
Qed.

Lemma merged_log_sorted es :
  StronglySorted (fun a b => e_op a < e_op b) (map snd (merged es)).
Proof.
  assert (Forall (fun b => e_op b.2 = b.1) (merged es)) as Hkey.
  { rewrite Forall_forall. intros [k x] Hin. simpl.
    apply bt_get_elem in Hin; [|apply merged_sorted]. by apply merged_sound in Hin as (_ & ? & _). }
  pose proof (merged_sorted es) as Hs. induction Hs as [|[k x] t Hs IH Hlt]; [constructor|].
  apply Forall_cons in Hkey as [Hk Ht]. simpl in *. constructor; [auto|].
  apply Forall_forall. intros y (b & -> & Hb)%list_elem_of_fmap.
  apply (proj1 (Forall_forall _ _)) with (x := b) in Hlt, Ht; [|done..]. simpl in *. lia.
Qed.

Lemma elem_merged_log es x :
  x ∈ map snd (merged es) <-> bt_get (e_op x) (merged es) = Some x.
Proof.
  split.
  - intros ([k y] & -> & Hin)%list_elem_of_fmap. simpl.
    apply bt_get_elem in Hin; [|apply merged_sorted].
    pose proof Hin as (_ & -> & _)%merged_sound. done.
  - intros H%bt_get_elem; [|apply merged_sorted]. apply list_elem_of_fmap. by exists (e_op x, x).
Qed.
End merge.

(** ** Votes as a quorum *)

(** Unsigned fields, with heads below [u64::MAX]. *)
Definition dvc_widths (d : DoViewChange) : Prop :=
  0 <= d_log_view d /\ 0 <= d_op d < umax 64 /\ 0 <= d_commit d /\ 0 <= d_checkpoint_op d.

(** One vote per voting slot, from a view-change quorum of them. *)
Definition vote_quorum (m : Membership) (dvcs : list DoViewChange) : Prop :=
  NoDup (map d_replica dvcs) /\ Forall (fun d => d_replica d ∈ voting_slots m) dvcs /\
  quorum_view_change m <= zlen dvcs.

Lemma size_senders dvcs :
  NoDup (map d_replica dvcs) ->
  size (list_to_set (C := gset Z) (map d_replica dvcs)) = length dvcs.
Proof. intros H. by rewrite size_list_to_set, length_map. Qed.

Lemma NoDup_map_filter (P : DoViewChange -> Prop) `{!forall x, Decision (P x)} dvcs :
  NoDup (map d_replica dvcs) -> NoDup (map d_replica (filter P dvcs)).
Proof.
  induction dvcs as [|d dvcs IH]; [done|]. cbn [map]. intros [Hd Hn]%NoDup_cons.
  rewrite filter_cons. case_decide; [|auto]. cbn [map]. apply NoDup_cons. split; [|auto].
  intros (x & Hx & Hin)%list_elem_of_fmap. apply Hd, list_elem_of_fmap. exists x.
  by apply list_elem_of_filter in Hin as [_ ?].
Qed.

Section survival.
Context (m : Membership) (dvcs : list DoViewChange).
Context (Hwf : wf m) (Hq : vote_quorum m dvcs).
(** [Q] is a replication quorum. *)
Context (Q : gset Z) (HQ : Q ⊆ voting_slots m) (HQn : quorum m <= Z.of_nat (size Q)).

Lemma quorum_meets : exists d, d ∈ dvcs /\ d_replica d ∈ Q.
Proof.
  destruct Hq as (Hnd & Hv & Hlen).
  set (D := list_to_set (C := gset Z) (map d_replica dvcs)).
  assert (D ⊆ voting_slots m) as HD.
  { intros r. unfold D. rewrite elem_of_list_to_set. intros (d & -> & Hd)%list_elem_of_fmap.
    by eapply Forall_forall in Hv. }
  destruct (qs_meets (U := voting_slots m) Q D) as (r & HrQ & HrD); [done..| |].
  { unfold D. rewrite (size_senders dvcs Hnd). lia. }
  unfold D in HrD. rewrite elem_of_list_to_set in HrD.
  apply list_elem_of_fmap in HrD as (d & -> & Hd). eauto.
Qed.

(** If every quorum member's vote reaches [op], no nack quorum against it exists. *)
Lemma no_nack_quorum op :
  (forall d, d ∈ dvcs -> d_replica d ∈ Q -> op <= d_op d) ->
  nacks dvcs op < quorum_nack_prepare m.
Proof.
  intros Hop. destruct Hq as (Hnd & Hv & _).
  set (N := filter (fun d => d_op d < op) dvcs).
  assert (list_to_set (C := gset Z) (map d_replica N) ⊆ voting_slots m ∖ Q) as Hsub.
  { intros r. rewrite elem_of_list_to_set. intros (d & -> & Hd)%list_elem_of_fmap.
    apply list_elem_of_filter in Hd as [Hlt Hd]. apply elem_of_difference. split.
    - by eapply Forall_forall in Hv.
    - intros HdQ. specialize (Hop d Hd HdQ). lia. }
  pose proof (qs_nack (U := voting_slots m) Q _ HQ HQn Hsub) as Hlt.
  rewrite size_senders in Hlt by (by apply NoDup_map_filter). exact Hlt.
Qed.
End survival.

(** ** Selected selections *)

Lemma select_Some m dvcs s :
  select_canonical_log m dvcs = Some s ->
  commit_star dvcs <= bounded_head dvcs /\ s_commit s = commit_star dvcs /\
  s_floor s = floor_star dvcs /\
  s_op_head s = truncate_head m dvcs (commit_star dvcs) (bounded_head dvcs) /\
  s_log s = map snd (foldl (merge_entry (s_floor s) (s_op_head s)) [] (carried (canonical_of dvcs))).
Proof.
  unfold select_canonical_log. destruct (Z.leb_spec (commit_star dvcs) (bounded_head dvcs)); [|done].
  intros. by simplify_eq/=.
Qed.

Lemma elem_carried ds e : e ∈ carried ds <-> exists d, d ∈ ds /\ e ∈ d_log d.
Proof.
  unfold carried. induction ds as [|d ds IH]; cbn [map concat]; [set_solver|].
  rewrite elem_of_app, IH. set_solver.
Qed.

Lemma elem_canonical dvcs d :
  d ∈ canonical_of dvcs <-> d ∈ dvcs /\ d_log_view d = max_or_zero (map d_log_view dvcs).
Proof. unfold canonical_of. rewrite list_elem_of_filter. tauto. Qed.

Lemma max_field_elem {A} (f : A -> Z) (l : list A) :
  l <> [] -> Forall (fun x => 0 <= f x) l -> exists x, x ∈ l /\ f x = max_or_zero (map f l).
Proof.
  intros Hne Hf. assert (max_or_zero (map f l) ∈ map f l) as Hin.
  { apply max_or_zero_elem; [by destruct l|by rewrite Forall_map]. }
  apply list_elem_of_fmap in Hin as (x & -> & Hx). eauto.
Qed.

Lemma canonical_nonempty dvcs :
  dvcs <> [] -> Forall dvc_widths dvcs -> exists d, d ∈ canonical_of dvcs.
Proof.
  intros Hne Hw. destruct (max_field_elem d_log_view dvcs Hne) as (d & Hd & E).
  - eapply Forall_impl; [exact Hw|]. by intros d (? & _).
  - exists d. by apply elem_canonical.
Qed.

(** Some canonical vote reaches the bounded head. *)
Lemma head_donor dvcs :
  dvcs <> [] -> Forall dvc_widths dvcs ->
  exists d, d ∈ canonical_of dvcs /\ bounded_head dvcs <= d_op d.
Proof.
  intros Hne Hw. destruct (canonical_nonempty dvcs Hne Hw) as [d0 Hd0].
  destruct (max_field_elem d_op (canonical_of dvcs)) as (d & Hd & E).
  - intros E. rewrite E in Hd0. by apply not_elem_of_nil in Hd0.
  - apply Forall_forall. intros x [Hx _]%elem_canonical.
    eapply Forall_forall in Hw as (_ & ? & _); [|exact Hx]. simpl in *. lia.
  - exists d. split; [done|]. unfold bounded_head. lia.
Qed.

Lemma max_field {A} (f : A -> Z) (l : list A) x : x ∈ l -> f x <= max_or_zero (map f l).
Proof. intros H. by apply max_or_zero_ge, list_elem_of_fmap_2. Qed.

Lemma commit_star_nonneg dvcs : 0 <= commit_star dvcs.
Proof. apply max_or_zero_nonneg. Qed.

Lemma max_or_zero_lt l b : 0 < b -> Forall (fun x => x < b) l -> max_or_zero l < b.
Proof. intros Hb. induction 1; simpl; lia. Qed.

Lemma bounded_head_lt dvcs : Forall dvc_widths dvcs -> bounded_head dvcs < umax 64.
Proof.
  intros Hw. unfold bounded_head. apply Z.min_lt_iff. left. apply max_or_zero_lt; [done|].
  rewrite Forall_map. apply Forall_forall. intros d [Hd _]%elem_canonical. simpl.
  eapply Forall_forall in Hw as (_ & ? & _); [|done]; simpl in *; lia.
Qed.

Lemma quorum_nack_pos m : wf m -> 1 <= quorum_nack_prepare m.
Proof. intros (? & _). unfold quorum_nack_prepare, quorum. lia_div. Qed.

Lemma truncate_is_scan m dvcs :
  wf m -> Forall dvc_widths dvcs -> commit_star dvcs <= bounded_head dvcs ->
  truncate_head m dvcs (commit_star dvcs) (bounded_head dvcs) =
  scan_head m dvcs (commit_star dvcs) (bounded_head dvcs).
Proof.
  intros Hwf Hw Hc. apply truncate_head_scan; [by apply quorum_nack_pos| | |].
  - eapply Forall_impl; [exact Hw|]. intros d (_ & ? & _). unfold fits, umax in *. lia.
  - split; [apply commit_star_nonneg|done].
  - by apply bounded_head_lt.
Qed.

(** The operation an entry stands for. *)
Definition identity (e : PreparedEntry) : ClientId * RequestNumber * Z :=
  (e_client e, e_request e, body_checksum (e_body e)).

(** A donor covers op [n]: it is below the vouched checkpoint, or carried. *)
Definition covers (n : OpNumber) (d : DoViewChange) : Prop :=
  n <= d_checkpoint_op d \/ exists e, e ∈ d_log d /\ e_op e = n.

(** A donor that carries op [n] carries it as the operation [id]. *)
Definition agrees (n : OpNumber) (id : ClientId * RequestNumber * Z) (d : DoViewChange) : Prop :=
  forall e, e ∈ d_log d -> e_op e = n -> identity e = id.

(** What the endpoint's own state invariant gives every vote. *)
Definition dvc_honest (d : DoViewChange) : Prop :=
  d_checkpoint_op d <= d_commit d <= d_op d /\ Forall (fun e => e_op e <= d_op d) (d_log d).

Section survival_selected.
Context (m : Membership) (dvcs : list DoViewChange).
Context (Hwf : wf m) (Hq : vote_quorum m dvcs) (Hw : Forall dvc_widths dvcs).
Context (Hhonest : Forall dvc_honest dvcs).
(** [n] committed in view [v] on the replication quorum [Q]. *)
Context (Q : gset Z) (HQ : Q ⊆ voting_slots m) (HQn : quorum m <= Z.of_nat (size Q)).
Context (v : View) (n : OpNumber).
Context (HQd : forall d, d ∈ dvcs -> d_replica d ∈ Q ->
                 v <= d_log_view d /\ n <= d_op d /\ covers n d).
Context (Hlater : forall d, d ∈ dvcs -> v < d_log_view d -> covers n d).

(** The canonical generation is [v] or later. *)
Lemma canonical_later d : d ∈ canonical_of dvcs -> v <= d_log_view d.
Proof.
  intros [Hd Hlv]%elem_canonical.
  destruct (quorum_meets m dvcs Hwf Hq Q HQ HQn) as (d0 & Hd0 & HdQ).
  destruct (HQd d0 Hd0 HdQ) as [Hv _]. pose proof (max_field d_log_view dvcs d0 Hd0). lia.
Qed.

(** Some canonical donor covers [n]: the quorum member met, if its generation
    is the canonical one, and any canonical donor otherwise. *)
Lemma canonical_covers : exists d, d ∈ canonical_of dvcs /\ covers n d.
Proof.
  destruct (quorum_meets m dvcs Hwf Hq Q HQ HQn) as (d0 & Hd0 & HdQ).
  destruct (HQd d0 Hd0 HdQ) as (Hv & _ & Hc).
  pose proof (max_field d_log_view dvcs d0 Hd0) as Hmax.
  destruct (Z.eq_dec (d_log_view d0) (max_or_zero (map d_log_view dvcs))) as [E|].
  - exists d0. split; [by apply elem_canonical|done].
  - destruct (canonical_nonempty dvcs) as [d Hd]; [by intros ->; apply not_elem_of_nil in Hd0|done|].
    pose proof Hd as [Hin Hlv]%elem_canonical. exists d. split; [done|]. apply Hlater; [done|lia].
Qed.

Lemma floor_or_carried :
  n <= floor_star dvcs \/
  exists d e, d ∈ canonical_of dvcs /\ e ∈ d_log d /\ e_op e = n.
Proof.
  destruct canonical_covers as (d & Hd & [Hle|(e & He & Hn)]); [left|right; eauto].
  unfold floor_star. pose proof (max_field d_checkpoint_op _ d Hd) as Hmax.
  pose proof Hd as [Hin _]%elem_canonical. pose proof (max_field d_commit _ d Hin) as Hcmax.
  eapply Forall_forall in Hhonest as [Hcp _]; [|exact Hin]. unfold commit_star. lia.
Qed.

(** Some canonical head reaches [n], so the fail-stop cannot fire for it. *)
Lemma canonical_head_reaches : n <= max_or_zero (map d_op (canonical_of dvcs)).
Proof.
  destruct floor_or_carried as [Hle|(d & e & Hd & He & <-)].
  - destruct (canonical_nonempty dvcs) as [d0 Hd0]; [|done|].
    { intros E. rewrite E in Hle. destruct Hq as (_ & _ & Hlen). rewrite E in Hlen.
      pose proof (quorum_nack_pos m Hwf). unfold quorum_nack_prepare, quorum_view_change in *.
      simpl in *. lia. }
    destruct (max_field_elem d_checkpoint_op (canonical_of dvcs)) as (d & Hd & E).
    + intros E. rewrite E in Hd0. by apply not_elem_of_nil in Hd0.
    + apply Forall_forall. intros x [Hx _]%elem_canonical.
      by eapply Forall_forall in Hw as (_ & _ & _ & ?); [|exact Hx].
    + pose proof (max_field d_op _ d Hd). pose proof Hd as [Hin _]%elem_canonical.
      eapply Forall_forall in Hhonest as [? _]; [|exact Hin]. unfold floor_star in Hle. lia.
  - pose proof (max_field d_op _ d Hd). pose proof Hd as [Hin _]%elem_canonical.
    eapply Forall_forall in Hhonest as [_ Hops]; [|exact Hin].
    eapply Forall_forall in Hops; [|exact He]. simpl in *. lia.
Qed.

Context (s : Selection) (Hsel : select_canonical_log m dvcs = Some s).
Context (id : ClientId * RequestNumber * Z).
Context (Hid : forall d, d ∈ dvcs -> v <= d_log_view d -> agrees n id d).

Lemma head_reaches d e :
  d ∈ canonical_of dvcs -> e ∈ d_log d -> e_op e = n -> n <= s_op_head s.
Proof.
  intros Hd He Hn. destruct (select_Some m dvcs s Hsel) as (Hc & _ & _ & -> & _).
  rewrite (truncate_is_scan m dvcs Hwf Hw Hc).
  pose proof Hd as [Hin _]%elem_canonical.
  assert (n <= bounded_head dvcs) as Hb.
  { unfold bounded_head. pose proof (max_field d_op _ d Hd).
    assert (n <= max_or_zero (map e_op (carried (canonical_of dvcs)))).
    { rewrite <-Hn. apply (max_field e_op), elem_carried. eauto. }
    eapply Forall_forall in Hhonest as [_ Hops]; [|exact Hin].
    eapply Forall_forall in Hops; [|exact He]. lia. }
  destruct (Z.le_gt_cases n (commit_star dvcs)).
  - pose proof (scan_head_bounds m dvcs _ _ Hc). lia.
  - apply scan_head_keeps; [lia|]. apply (no_nack_quorum m dvcs Hwf Hq Q HQ HQn).
    intros d' Hd' HdQ. by destruct (HQd d' Hd' HdQ) as (_ & ? & _).
Qed.

Lemma committed_survives :
  n <= s_floor s \/ exists e, e ∈ s_log s /\ e_op e = n /\ identity e = id.
Proof.
  destruct (select_Some m dvcs s Hsel) as (_ & _ & Hf & _ & Hlog).
  destruct floor_or_carried as [Hle|(d & e & Hd & He & Hn)]; [left; lia|].
  destruct (Z.le_gt_cases n (s_floor s)); [by left|right].
  pose proof (head_reaches d e Hd He Hn) as Hhead.
  destruct (merged_complete (s_floor s) (s_op_head s) (carried (canonical_of dvcs)) e)
    as (y & Hy & _); [apply elem_carried; eauto|lia|].
  pose proof Hy as (Hyin & Hyop & _)%merged_sound. exists y. split_and!.
  - rewrite Hlog. apply elem_merged_log. by rewrite Hyop.
  - lia.
  - apply elem_carried in Hyin as (d' & Hd' & Hy').
    pose proof (canonical_later d' Hd') as Hv. apply elem_canonical in Hd' as [Hd' _].
    apply (Hid d' Hd' Hv y Hy'). lia.
Qed.
End survival_selected.

(** ** Collected votes *)

Definition votes_inv (m : Membership) (t : btree DoViewChange) : Prop :=
  bt_sorted t /\ forall r d, bt_get r t = Some d -> d_replica d = r /\ r ∈ voting_slots m.

Lemma votes_inv_insert m t r d :
  votes_inv m t -> d_replica d = r -> r ∈ voting_slots m -> votes_inv m (bt_insert r d t).
Proof.
  intros [Hs Hk] Hd Hr. split; [by apply bt_insert_sorted|]. intros r' d'.
  rewrite bt_get_insert. destruct (Z.eqb_spec r' r); [intros; by simplify_eq|auto].
Qed.

Lemma insert_vote_inv m t v :
  votes_inv m t -> d_replica v ∈ voting_slots m -> votes_inv m (insert_vote v t).
Proof. intros. unfold insert_vote. repeat case_match; auto using votes_inv_insert. Qed.

Lemma insert_own_inv s t :
  votes_inv (vt_membership s) t -> vt_slot s ∈ voting_slots (vt_membership s) ->
  votes_inv (vt_membership s) (insert_own s t).
Proof. intros. unfold insert_own. case_match; auto using votes_inv_insert. Qed.

Lemma primary_votes s :
  wf (vt_membership s) -> is_primary_slot (vt_membership s) (vt_slot s) (vt_view s) = true ->
  vt_slot s ∈ voting_slots (vt_membership s).
Proof.
  intros (Hr & _) E. unfold is_primary_slot, primary in E. apply Z.eqb_eq in E as <-.
  apply elem_voting_slots.
  pose proof (Z.mod_pos_bound (vt_view s) (m_replica_count (vt_membership s)) ltac:(lia)).
  rewrite wrap_small by (unfold fits; lia). done.
Qed.

(** A collection built from nothing by any sequence of received votes. *)
Inductive collected (s : Voter) : btree DoViewChange -> Prop :=
| collected_nil : collected s []
| collected_step t status peers formed v t' peers' :
    collected s t -> 0 <= d_replica v ->
    on_do_view_change s status false peers t v = Some (t', peers', formed) -> collected s t'.

Lemma collect_dvc_Some s status q peers t v t' peers' formed :
  on_do_view_change s status q peers t v = Some (t', peers', formed) ->
  d_view v = vt_view s /\ is_primary_slot (vt_membership s) (vt_slot s) (vt_view s) = true /\
  is_view_change status = true /\ q = false /\ d_replica v < m_replica_count (vt_membership s) /\
  t' = insert_vote v (insert_own s t) /\
  peers' = record_peer_checkpoint (vt_membership s) peers (d_replica v) (d_checkpoint_op v) /\
  formed = (quorum_view_change (vt_membership s) <=? zlen t').
Proof.
  unfold on_do_view_change.
  destruct (Z.eqb_spec (d_view v) (vt_view s)), (is_primary_slot _ _ _), (is_view_change status), q;
    simpl; try done.
  destruct (Z.leb_spec (m_replica_count (vt_membership s)) (d_replica v)); [done|].
  intros. simplify_eq. auto 10.
Qed.

Lemma collected_inv s t :
  wf (vt_membership s) -> collected s t -> votes_inv (vt_membership s) t.
Proof.
  intros Hwf. induction 1 as [|t status peers formed v t' peers' _ IH Hr E].
  - split; [constructor|done].
  - apply collect_dvc_Some in E as (_ & Hp & _ & _ & Hlt & -> & _ & _).
    apply insert_vote_inv; [|by apply elem_voting_slots].
    apply insert_own_inv; [done|by apply primary_votes].
Qed.

Lemma votes_inv_quorum m t :
  votes_inv m t -> quorum_view_change m <= zlen t -> vote_quorum m (map snd t).
Proof.
  intros [Hs Hk] Hlen.
  assert (Hkeys : map d_replica (map snd t) = map fst t).
  { rewrite map_map. apply map_ext_in. intros [r d] Hin. simpl.
    apply (Hk r d). apply bt_get_elem; [done|]. by apply list_elem_of_In. }
  split_and!.
  - rewrite Hkeys. clear -Hs. induction Hs as [|[k x] t Hs IH Hlt]; [constructor|].
    cbn [map fst]. apply NoDup_cons. split; [|done]. intros ([k' x'] & E & Hin)%list_elem_of_fmap.
    simpl in E. eapply Forall_forall in Hlt; [|exact Hin]. simpl in Hlt. lia.
  - rewrite Forall_map. apply Forall_forall. intros [r d] Hin. simpl.
    apply bt_get_elem in Hin; [|done]. by destruct (Hk r d Hin) as [-> ?].
  - by rewrite length_map.
Qed.

Lemma insert_vote_keeps v t r : is_Some (bt_get r t) -> is_Some (bt_get r (insert_vote v t)).
Proof.
  intros H. unfold insert_vote. case_match; [|done]. rewrite bt_get_insert.
  by destruct (Z.eqb_spec r (d_replica v)).
Qed.

Lemma insert_own_keeps s t r d : bt_get r t = Some d -> bt_get r (insert_own s t) = Some d.
Proof.
  intros H. unfold insert_own. destruct (bt_get (vt_slot s) t) eqn:E; [done|].
  rewrite bt_get_insert. destruct (Z.eqb_spec r (vt_slot s)); [congruence|done].
Qed.

Lemma more_advanced_spec a b :
  more_advanced a b = true <->
  d_log_view b < d_log_view a \/ (d_log_view b = d_log_view a /\ d_op b < d_op a).
Proof.
  unfold more_advanced. rewrite orb_true_iff, andb_true_iff, !Z.ltb_lt, Z.eqb_eq. tauto.
Qed.

(** ** Properties *)

(** No committed operation is lost by a view change: if op [n] committed as
    [id] in view [v] on a replication quorum whose votes cover it, and the votes
    of generations after [v] cover it, then the canonical log the new primary
    selects from any view-change quorum of votes carries [n] as [id], or [n] is
    below the selected checkpoint floor; no vote needs to know that [n]
    committed, and votes of generation [v] from outside the quorum may lack it. *)
Theorem committed_op_survives_selection m dvcs s Q v n id :
  wf m -> vote_quorum m dvcs -> Forall dvc_widths dvcs -> Forall dvc_honest dvcs ->
  select_canonical_log m dvcs = Some s ->
  Q ⊆ voting_slots m -> quorum m <= Z.of_nat (size Q) ->
  (forall d, d ∈ dvcs -> d_replica d ∈ Q ->
     v <= d_log_view d /\ n <= d_op d /\ covers n d) ->
  (forall d, d ∈ dvcs -> v < d_log_view d -> covers n d) ->
  (forall d, d ∈ dvcs -> v <= d_log_view d -> agrees n id d) ->
  n <= s_floor s \/ exists e, e ∈ s_log s /\ e_op e = n /\ identity e = id.
Proof. intros. by eapply committed_survives. Qed.

Definition hdr (op : Z) : PreparedEntry := entry_repairing op 7 op (op + 100).
Definition sample_votes : list DoViewChange :=
  [mkDVC 2 1 5 3 2 7 99 0 [hdr 3; hdr 4; hdr 5]; mkDVC 2 1 4 3 0 7 99 1 [hdr 1; hdr 2; hdr 3; hdr 4]].

Lemma sample_votes_ok :
  vote_quorum sample sample_votes /\ Forall dvc_widths sample_votes /\
  Forall dvc_honest sample_votes /\
  (forall d, d ∈ sample_votes -> 1 <= d_log_view d /\ 4 <= d_op d /\ covers 4 d) /\
  (forall d, d ∈ sample_votes -> agrees 4 (identity (hdr 4)) d).
Proof.
  unfold vote_quorum, dvc_widths, dvc_honest, sample_votes. split_and!.
  - compute_done.
  - repeat constructor; apply elem_voting_slots; simpl; lia.
  - compute_done.
  - repeat constructor; simpl; unfold umax; lia.
  - repeat constructor; simpl; lia.
  - intros d [->|[->|[]%not_elem_of_nil]%elem_of_cons]%elem_of_cons; simpl;
      (split_and!; [lia|lia|]); right; exists (hdr 4); split; (done || set_solver).
  - intros d [->|[->|[]%not_elem_of_nil]%elem_of_cons]%elem_of_cons e He Hop; simpl in He;
      rewrite !elem_of_cons, elem_of_nil in He; by repeat destruct He as [->|He].
Qed.

Lemma committed_op_survives_selection_witness :
  exists s, select_canonical_log sample sample_votes = Some s /\
  (4 <= s_floor s \/ exists e, e ∈ s_log s /\ e_op e = 4 /\ identity e = identity (hdr 4)).
Proof.
  eexists. split; [vm_compute; reflexivity|].
  destruct sample_votes_ok as (? & ? & ? & Hd & Hc).
  eapply (committed_op_survives_selection sample sample_votes _ {[0; 1]} 1 4);
    [exact sample_wf|done|done|done|vm_compute; reflexivity| |compute_done|auto| |auto].
  - intros r. rewrite elem_voting_slots. simpl. set_unfold. lia.
  - intros d Hin _. by apply Hd.
Defined.

(** The closed-form truncation is the per-op scan: the selected head is the
    op before the first op above the committed frontier that a nack quorum of
    votes lacks, or the bounded canonical head if there is none. *)
Theorem selection_equals_scan m dvcs s :
  wf m -> Forall dvc_widths dvcs -> select_canonical_log m dvcs = Some s ->
  s_op_head s = scan_head m dvcs (s_commit s) (bounded_head dvcs).
Proof.
  intros Hwf Hw (Hc & -> & _ & -> & _)%select_Some. by apply truncate_is_scan.
Qed.

Lemma selection_equals_scan_witness :
  exists s, select_canonical_log sample sample_votes = Some s /\
  s_op_head s = scan_head sample sample_votes (s_commit s) (bounded_head sample_votes).
Proof.
  eexists. split; [vm_compute; reflexivity|].
  apply (selection_equals_scan sample sample_votes);
    [exact sample_wf|apply sample_votes_ok|vm_compute; reflexivity].
Defined.

(** The selected log is the floored union of the canonical generation: in
    strictly ascending op order, it holds exactly the ops between floor and head
    that some canonical vote carries, each entry taken from such a vote, with a
    body whenever any of them carries one; and floor, committed frontier and
    head are ordered. *)
Theorem selection_contents m dvcs s :
  wf m -> Forall dvc_widths dvcs -> select_canonical_log m dvcs = Some s ->
  s_floor s <= s_commit s <= s_op_head s /\
  StronglySorted (fun a b => e_op a < e_op b) (s_log s) /\
  (forall e, e ∈ s_log s ->
     s_floor s < e_op e <= s_op_head s /\ exists d, d ∈ canonical_of dvcs /\ e ∈ d_log d) /\
  (forall d e, d ∈ canonical_of dvcs -> e ∈ d_log d -> s_floor s < e_op e <= s_op_head s ->
     exists y, y ∈ s_log s /\ e_op y = e_op e /\
       (entry_is_repairing y = true -> entry_is_repairing e = true)).
Proof.
  intros Hwf Hw (Hc & Hcs & Hf & Hh & Hlog)%select_Some. rewrite Hlog. split_and!.
  - rewrite Hf, Hcs. unfold floor_star. lia.
  - rewrite Hcs, Hh, (truncate_is_scan m dvcs Hwf Hw Hc). by apply scan_head_bounds.
  - apply merged_log_sorted.
  - intros e (Hin & _ & Hb)%elem_merged_log%merged_sound. split; [done|by apply elem_carried].
  - intros d e Hd He Hb.
    destruct (merged_complete (s_floor s) (s_op_head s) (carried (canonical_of dvcs)) e)
      as (y & Hy & Hr); [apply elem_carried; eauto|done|].
    pose proof Hy as (_ & Hyop & _)%merged_sound. exists y. split_and!; [|done|done].
    apply elem_merged_log. by rewrite Hyop.
Qed.

Lemma selection_contents_witness :
  exists s, select_canonical_log sample sample_votes = Some s /\
  s_floor s <= s_commit s <= s_op_head s /\
  StronglySorted (fun a b => e_op a < e_op b) (s_log s).
Proof.
  eexists. split; [vm_compute; reflexivity|].
  destruct (selection_contents sample sample_votes _ sample_wf
    (proj1 (proj2 sample_votes_ok)) eq_refl) as (H1 & H2 & _).
  split; [exact H1|exact H2].
Defined.

(** The fail-stop fires exactly when some vote's committed frontier lies
    above every canonical head. *)
Theorem selection_fail_stop m dvcs :
  select_canonical_log m dvcs = None <->
  max_or_zero (map d_op (canonical_of dvcs)) < commit_star dvcs.
Proof.
  unfold select_canonical_log. destruct (Z.leb_spec (commit_star dvcs) (bounded_head dvcs)) as [H|H];
    unfold bounded_head in H; split; try done; lia.
Qed.

(** Honest votes never trip the fail-stop: if the highest committed frontier
    of the votes committed on a replication quorum as in the survival property,
    selection succeeds. *)
Theorem honest_votes_select m dvcs Q v :
  wf m -> vote_quorum m dvcs -> Forall dvc_widths dvcs -> Forall dvc_honest dvcs ->
  Q ⊆ voting_slots m -> quorum m <= Z.of_nat (size Q) ->
  (forall d, d ∈ dvcs -> d_replica d ∈ Q ->
     v <= d_log_view d /\ commit_star dvcs <= d_op d /\ covers (commit_star dvcs) d) ->
  (forall d, d ∈ dvcs -> v < d_log_view d -> covers (commit_star dvcs) d) ->
  is_Some (select_canonical_log m dvcs).
Proof.
  intros Hwf Hq Hw Hh HQ HQn Hd Hc.
  pose proof (canonical_head_reaches m dvcs Hwf Hq Hw Hh Q HQ HQn v (commit_star dvcs) Hd Hc) as Hr.
  unfold select_canonical_log. rewrite (proj2 (Z.leb_le _ _)); [done|]. unfold bounded_head. lia.
Qed.

Definition sample_votes2 : list DoViewChange :=
  [mkDVC 2 1 5 4 2 7 99 0 [hdr 3; hdr 4; hdr 5]; mkDVC 2 1 4 3 0 7 99 1 [hdr 1; hdr 2; hdr 3; hdr 4]].

Lemma honest_votes_select_witness :
  commit_star sample_votes2 = 4 /\ is_Some (select_canonical_log sample sample_votes2).
Proof.
  split; [reflexivity|].
  assert (Hd : forall d, d ∈ sample_votes2 ->
    1 <= d_log_view d /\ commit_star sample_votes2 <= d_op d /\ covers (commit_star sample_votes2) d).
  { change (commit_star sample_votes2) with 4.
    intros d [->|[->|[]%not_elem_of_nil]%elem_of_cons]%elem_of_cons; simpl;
      (split_and!; [lia|lia|]); right; exists (hdr 4); split; (done || set_solver). }
  apply (honest_votes_select sample sample_votes2 {[0; 1]} 1).
  - exact sample_wf.
  - split_and!; [compute_done| |compute_done].
    repeat constructor; apply elem_voting_slots; simpl; lia.
  - repeat constructor; simpl; unfold umax; lia.
  - repeat constructor; simpl; lia.
  - intros r. rewrite elem_voting_slots. simpl. set_unfold. lia.
  - compute_done.
  - auto.
  - intros d Hin _. by apply Hd.
Defined.

(** With exactly a view-change quorum of votes nothing is truncated: the
    selected head is the bounded canonical head. *)
Theorem minimal_quorum_keeps_head m dvcs s :
  wf m -> Forall dvc_widths dvcs -> zlen dvcs = quorum_view_change m ->
  select_canonical_log m dvcs = Some s -> s_op_head s = bounded_head dvcs.
Proof.
  intros Hwf Hw Hlen (Hc & _ & _ & -> & _)%select_Some. rewrite (truncate_is_scan m dvcs Hwf Hw Hc).
  pose proof (scan_head_bounds m dvcs _ _ Hc) as Hb.
  destruct (Z.eq_dec (scan_head m dvcs (commit_star dvcs) (bounded_head dvcs)) (bounded_head dvcs))
    as [|Hne]; [done|exfalso].
  pose proof (scan_head_dropped m dvcs (commit_star dvcs) (bounded_head dvcs) (bounded_head dvcs)
    ltac:(lia) ltac:(lia)) as Hn.
  change (quorum_nack_prepare m) with (quorum_view_change m) in Hn. unfold nacks in Hn.
  destruct (head_donor dvcs) as (d & [Hd _]%elem_canonical & Hge); [|done|].
  { destruct dvcs; [|done]. pose proof (quorum_nack_pos m Hwf) as Hp.
    unfold quorum_nack_prepare, quorum_view_change in *. simpl in Hlen. lia. }
  pose proof (length_filter_lt (fun d => d_op d < bounded_head dvcs) dvcs d Hd ltac:(simpl; lia)). lia.
Qed.

Lemma minimal_quorum_keeps_head_witness :
  exists s, select_canonical_log sample sample_votes = Some s /\
  s_op_head s = bounded_head sample_votes.
Proof.
  eexists. split; [vm_compute; reflexivity|].
  apply (minimal_quorum_keeps_head sample sample_votes);
    [exact sample_wf|apply sample_votes_ok|reflexivity|vm_compute; reflexivity].
Defined.

(** Vote collection is sound: from any sequence of received votes, accepting
    one leaves the primary's own vote and at most one vote per voting slot, never
    replaces a recorded vote by a less advanced one, leaves the sender's recorded
    vote at least as advanced as the one received, and reports the view formed
    exactly when a view-change quorum of distinct voters is recorded. *)
Theorem collection_sound s t status q peers v t' peers' formed :
  wf (vt_membership s) -> collected s t -> 0 <= d_replica v ->
  on_do_view_change s status q peers t v = Some (t', peers', formed) ->
  is_Some (bt_get (vt_slot s) t') /\
  (exists c, bt_get (d_replica v) t' = Some c /\ more_advanced v c = false) /\
  (forall r d, bt_get r t = Some d ->
     exists d', bt_get r t' = Some d' /\ (d' = d \/ more_advanced d' d = true)) /\
  (formed = true <-> vote_quorum (vt_membership s) (map snd t')).
Proof.
  intros Hwf Hcol Hr E. pose proof (collected_inv s t Hwf Hcol) as Hinv.
  pose proof E as (_ & Hp & Hs & -> & Hlt & -> & -> & ->)%collect_dvc_Some.
  assert (votes_inv (vt_membership s) (insert_vote v (insert_own s t))) as Hinv'.
  { by eapply (collected_inv s _ Hwf), collected_step. }
  split_and!.
  - apply insert_vote_keeps. unfold insert_own. destruct (bt_get (vt_slot s) t) eqn:Eo; [by rewrite Eo|].
    rewrite bt_get_insert, Z.eqb_refl. done.
  - unfold insert_vote. destruct (bt_get (d_replica v) (insert_own s t)) as [cur|] eqn:Ec.
    + destruct (more_advanced v cur) eqn:Em; [|by exists cur].
      exists v. rewrite bt_get_insert, Z.eqb_refl. split; [done|].
      apply not_true_is_false. rewrite more_advanced_spec. lia.
    + exists v. rewrite bt_get_insert, Z.eqb_refl. split; [done|].
      apply not_true_is_false. rewrite more_advanced_spec. lia.
  - intros r d Hd. apply (insert_own_keeps s) in Hd. unfold insert_vote.
    destruct (bt_get (d_replica v) (insert_own s t)) as [cur|] eqn:Ec.
    + destruct (more_advanced v cur) eqn:Em; [|by eauto].
      rewrite bt_get_insert. destruct (Z.eqb_spec r (d_replica v)); [|by eauto]. simplify_eq. eauto.
    + rewrite bt_get_insert. destruct (Z.eqb_spec r (d_replica v)); [congruence|by eauto].
  - rewrite Z.leb_le. split; [by apply votes_inv_quorum|]. intros (_ & _ & H).
    by rewrite length_map in H.
Qed.

Definition sample_voter : Voter := mkVoter 3 1 5 3 2 sample 0 [].

Lemma collection_sound_witness :
  exists t' peers' formed,
    on_do_view_change sample_voter ViewChange false ∅ [] (mkDVC 3 1 4 3 0 7 99 1 []) =
    Some (t', peers', formed) /\
  (formed = true <-> vote_quorum sample (map snd t')).
Proof.
  do 3 eexists. split; [reflexivity|].
  refine (proj2 (proj2 (proj2 (collection_sound sample_voter [] ViewChange false ∅
    (mkDVC 3 1 4 3 0 7 99 1 []) _ _ _ sample_wf _ _ eq_refl)))); [constructor|simpl; lia].
Defined.

(** A vote vouches only for what its sender holds: its committed frontier
    never exceeds its head, its carried log lists every held op under the same
    operation identity, and no body bytes ride along. *)
Theorem own_vote_faithful s :
  d_commit (own_dvc s) <= d_op (own_dvc s) /\
  map e_op (d_log (own_dvc s)) = map fst (vt_log s) /\
  map identity (d_log (own_dvc s)) =
    map (fun p => (l_client p.2, l_request p.2, body_checksum (l_body p.2))) (vt_log s) /\
  Forall (fun e => entry_is_repairing e = true) (d_log (own_dvc s)).
Proof.
  unfold own_dvc, log_entries. simpl. split_and!; [lia| | |].
  - rewrite map_map. apply map_ext. by intros [op e].
  - rewrite map_map. apply map_ext. by intros [op e].
  - rewrite Forall_map. apply Forall_forall. by intros [op e] _.
Qed.
