(* ===== verification/Votes.v ===== *)
(** * Vote tallies: acknowledgement bitsets, checkpoint quorums and the
    configuration lineage

    [viewstamp-proto/src/endpoint/normal.rs] and [endpoint/mod.rs]: the
    content-addressed ack gate of [on_prepare_ok], the own vote, the commit
    predicate of [try_commit] with the successor-quorum conjunct a voter-set
    shrink carries, the re-keying of slot bitsets across a membership swap, the
    quorum-th checkpoint statistic and the lineage ring. *)

From S2P Require Import Prelude Core Hash Membership Codec Message BTree ViewChange.

(** ** Slot bitsets: [u64] with one bit per voting slot *)

Definition bit_slots (b : Z) : list Z := filter (fun i => Z.testbit b i = true) (seqZ 0 64).

(** [u64::count_ones] *)
Definition count_ones (b : Z) : Z := zlen (bit_slots b).

(** [1u64 << slot], for a slot below 64. *)
Definition bit (slot : Z) : Z := Z.shiftl 1 slot.

(** [trailing_zeros] of a non-zero word. *)
Definition trailing_zeros (b : Z) : Z :=
  match list_find (fun i => Z.testbit b i = true) (seqZ 0 64) with
  | Some (_, i) => i
  | None => 64
  end.

(** ** In-flight operations *)

Record Inflight : Type := mkInflight {
  i_oks : Z;
  i_committed : bool;
  i_prepare_checksum : Z;
}.

Definition set_oks (inf : Inflight) (oks : Z) : Inflight :=
  mkInflight oks (i_committed inf) (i_prepare_checksum inf).

(** The vote gate of [on_prepare_ok]: an ack counts only for the operation
    identity being driven at its op. *)
Definition record_ack (inflight : btree Inflight) (op : OpNumber) (replica : ReplicaId)
    (prepare_checksum : Z) : btree Inflight :=
  match bt_get op inflight with
  | Some inf =>
      if prepare_checksum =? i_prepare_checksum inf
      then bt_insert op (set_oks inf (Z.lor (i_oks inf) (bit replica))) inflight
      else inflight
  | None => inflight
  end.

Definition seats_new_voter_against_current (m : Membership) (payload : ReconfigurePayload) : bool :=
  (p_prev_config_id payload =? m_config_id m)
  && bool_decide (is_Some (first_new_voter m (p_replica_count payload) (p_members payload))).

Definition op_is_direct_voter_add (m : Membership) (log : btree LogEntry) (op : OpNumber) : bool :=
  match bt_get op log with
  | Some e =>
      match as_reconfigure (l_body e) with
      | Some payload => seats_new_voter_against_current m payload
      | None => false
      end
  | None => false
  end.

(** The role predicates of the local member. *)
Definition local_slot_opt (m : Membership) (local : MemberId) : option ReplicaId := slot_of m local.
Definition endpoint_is_voter (m : Membership) (local : MemberId) : bool :=
  match local_slot_opt m local with Some slot => is_voter m slot | None => false end.
Definition endpoint_is_learner (m : Membership) (local : MemberId) : bool :=
  match local_slot_opt m local with Some slot => is_learner m slot | None => false end.
Definition endpoint_is_primary (m : Membership) (local : MemberId) (view : View) : bool :=
  match local_slot_opt m local with Some slot => is_primary_slot m slot view | None => false end.

Definition record_own_vote (m : Membership) (local : MemberId) (log : btree LogEntry)
    (inflight : btree Inflight) (op : OpNumber) : btree Inflight :=
  if negb (endpoint_is_voter m local) then inflight
  else if op_is_direct_voter_add m log op then inflight
  else
    match local_slot_opt m local, bt_get op inflight with
    | Some slot, Some inf => bt_insert op (set_oks inf (Z.lor (i_oks inf) (bit slot))) inflight
    | _, _ => inflight
    end.

(** ** The commit predicate of [try_commit] *)

Definition voter_mask (m : Membership) : Z :=
  let n := m_replica_count m in
  if 64 <=? n then umax 64 else Z.shiftl 1 n - 1.

(** The predecessor slots of the voters the successor retains. *)
Fixpoint retained_mask (successor_voters : list MemberId) (slot : Z) (voters : list MemberId) : Z :=
  match voters with
  | [] => 0
  | who :: rest =>
      let r := retained_mask successor_voters (slot + 1) rest in
      if bool_decide (who ∈ successor_voters) then Z.lor (bit slot) r else r
  end.

Definition shrink_successor_quorum_met (m : Membership) (log : btree LogEntry) (op : OpNumber)
    (oks : Z) : bool :=
  match e ← bt_get op log; as_reconfigure (l_body e) with
  | None => true
  | Some payload =>
      let n_pred := m_replica_count m in
      let n_succ := p_replica_count payload in
      if n_pred <=? n_succ then true
      else
        let successor_voters := take (Z.to_nat n_succ) (p_members payload) in
        let predecessor_voters := take (Z.to_nat n_pred) (m_members m) in
        let retained := retained_mask successor_voters 0 predecessor_voters in
        let successor_quorum := n_succ / 2 + 1 in
        successor_quorum <=? count_ones (Z.land oks retained)
  end.

Definition commit_ready (m : Membership) (log : btree LogEntry) (inflight : btree Inflight)
    (next : OpNumber) : bool :=
  match bt_get next inflight with
  | Some inf =>
      let oks := Z.land (i_oks inf) (voter_mask m) in
      negb (i_committed inf) && (quorum m <=? count_ones oks)
      && shrink_successor_quorum_met m log next oks
  | None => false
  end.

(** ** Re-keying across a membership swap *)

Definition rekey_bit (m successor : Membership) (remapped old_slot : Z) : Z :=
  match member_at m old_slot with
  | Some member =>
      match slot_of successor member with
      | Some new_slot =>
          if is_voter successor new_slot then Z.lor remapped (bit new_slot) else remapped
      | None => remapped
      end
  | None => remapped
  end.

(** The [while rest != 0] loop; a [u64] has at most 64 bits to clear. *)
Fixpoint rekey_loop (fuel : nat) (m successor : Membership) (remapped rest : Z) : Z :=
  match fuel with
  | O => remapped
  | S fuel =>
      if rest =? 0 then remapped
      else rekey_loop fuel m successor (rekey_bit m successor remapped (trailing_zeros rest))
             (Z.land rest (rest - 1))
  end.

Definition rekey_slot_bitset (m : Membership) (bits : Z) (successor : Membership) : Z :=
  rekey_loop 65 m successor 0 bits.

Definition rekey_slot_quorums_for_swap (m : Membership) (inflight : btree Inflight) (svc_from : Z)
    (successor : Membership) : btree Inflight * Z :=
  (map (fun '(op, inf) =>
          (op, if negb (i_committed inf)
               then set_oks inf (rekey_slot_bitset m (i_oks inf) successor) else inf)) inflight,
   rekey_slot_bitset m svc_from successor).

(** ** Peer checkpoints *)

(** The reported checkpoint of the occupant of voter slot [r]. *)
Definition slot_report (m : Membership) (local : MemberId) (peer_checkpoint : gmap MemberId OpNumber)
    (r : Z) : list Z :=
  match member_at m r with
  | None => [0]
  | Some member =>
      if member =? local then [] else [default 0 (peer_checkpoint !! member)]
  end.

Definition checkpoint_reports (m : Membership) (local : MemberId) (checkpoint_op : OpNumber)
    (peer_checkpoint : gmap MemberId OpNumber) : list Z :=
  (if endpoint_is_voter m local then [checkpoint_op] else [])
  ++ concat (map (slot_report m local peer_checkpoint) (seqZ 0 (m_replica_count m))).

Definition compute_quorum_checkpoint_op (m : Membership) (local : MemberId)
    (checkpoint_op : OpNumber) (peer_checkpoint : gmap MemberId OpNumber) : option OpNumber :=
  reverse (merge_sort Z.le (checkpoint_reports m local checkpoint_op peer_checkpoint))
    !! Z.to_nat (quorum m - 1).

Definition max_peer_checkpoint_op (m : Membership) (checkpoint_op log_floor : OpNumber)
    (peer_checkpoint : gmap MemberId OpNumber) : OpNumber :=
  map_fold (fun member cp hi =>
              match slot_of m member with Some _ => Z.max hi cp | None => hi end)
    (Z.max checkpoint_op log_floor) peer_checkpoint.

(** ** The lineage ring *)

Definition LINEAGE_RING : nat := 2.

(** [copy_within(..LINEAGE_RING - 1, 1)], then the new id in front. *)
Definition push_lineage (ring : list Z) (superseded : Z) : list Z :=
  superseded :: take (LINEAGE_RING - 1) ring.

Definition lineage_after_crossing_push (ring : list Z) (superseded verified_prev : Z) : list Z :=
  push_lineage (push_lineage ring superseded) verified_prev.

Definition in_lineage (m : Membership) (ring : list Z) (other : Z) : bool :=
  (other =? m_config_id m) || bool_decide (other ∈ ring).

(** ** Bitsets as sets of slots and of members *)

Lemma elem_bit_slots b i : i ∈ bit_slots b <-> 0 <= i < 64 /\ Z.testbit b i = true.
Proof. unfold bit_slots. rewrite list_elem_of_filter, elem_of_seqZ. lia || naive_solver lia. Qed.

Lemma NoDup_bit_slots b : NoDup (bit_slots b).
Proof. apply NoDup_filter, NoDup_seqZ. Qed.

Lemma testbit_bit s i : 0 <= s -> 0 <= i -> Z.testbit (bit s) i = (i =? s).
Proof.
  intros Hs Hi. unfold bit. rewrite Z.shiftl_1_l.
  destruct (Z.eqb_spec i s) as [->|]; [by apply Z.pow2_bits_true|].
  apply Z.pow2_bits_false. lia.
Qed.

Lemma testbit_voter_mask m i :
  wf m -> 0 <= i < 64 -> Z.testbit (voter_mask m) i = (i <? m_replica_count m).
Proof.
  intros (Hr & _) Hi. unfold voter_mask.
  assert (forall n, 0 <= n -> Z.shiftl 1 n - 1 = Z.ones n) as Hones by reflexivity.
  destruct (Z.leb_spec 64 (m_replica_count m)).
  - change (umax 64) with (Z.ones 64). rewrite Z.testbit_ones_nonneg by lia.
    by rewrite !(proj2 (Z.ltb_lt _ _)) by lia.
  - rewrite Hones by lia. apply Z.testbit_ones_nonneg; lia.
Qed.

(** The members whose slot bit is set. *)
Definition voted (m : Membership) (b : Z) : gset Z :=
  list_to_set (omap (member_at m) (bit_slots b)).

Lemma elem_voted m b x :
  x ∈ voted m b <-> exists i, 0 <= i < 64 /\ Z.testbit b i = true /\ member_at m i = Some x.
Proof.
  unfold voted. rewrite elem_of_list_to_set, list_elem_of_omap.
  setoid_rewrite elem_bit_slots. naive_solver.
Qed.

Lemma member_at_voter m i :
  wf m -> 0 <= i < m_replica_count m -> exists x, member_at m i = Some x /\ x ∈ voters m.
Proof.
  intros (Hr & Hl & Hn & Hlen & _) Hi.
  destruct (lookup_lt_is_Some_2 (m_members m) (Z.to_nat i)) as [x Hx]; [lia|].
  exists x. split; [done|]. unfold voters, voters_list. rewrite elem_of_list_to_set.
  apply (list_elem_of_lookup_2 _ (Z.to_nat i)). rewrite lookup_take, decide_True by lia. done.
Qed.

Lemma member_at_inj m i j x :
  wf m -> 0 <= i -> 0 <= j -> member_at m i = Some x -> member_at m j = Some x -> i = j.
Proof.
  intros (_ & _ & _ & _ & Hnd) Hi Hj E1 E2. unfold member_at in *.
  pose proof (NoDup_lookup _ _ _ _ Hnd E1 E2). lia.
Qed.

Lemma voter_member_slot m x :
  x ∈ voters m -> exists i, 0 <= i < m_replica_count m /\ member_at m i = Some x.
Proof.
  unfold voters, voters_list. rewrite elem_of_list_to_set. intros [i Hi]%list_elem_of_lookup_1.
  apply lookup_take_Some in Hi as [Hi Hlt]. exists (Z.of_nat i).
  unfold member_at. rewrite Nat2Z.id. split; [lia|done].
Qed.

Lemma size_slots m l :
  wf m -> NoDup l -> Forall (fun i => 0 <= i < m_replica_count m) l ->
  size (list_to_set (C := gset Z) (omap (member_at m) l)) = length l.
Proof.
  intros Hwf. induction 1 as [|i l Hi Hnd IH]; intros HF; [done|].
  apply Forall_cons in HF as [Hb HF]. destruct (member_at_voter m i Hwf Hb) as (x & Hx & _).
  cbn [omap list_omap]. rewrite Hx. cbn [list_to_set length].
  rewrite size_union, size_singleton, IH by
    (done || (apply disjoint_singleton_l; rewrite elem_of_list_to_set, list_elem_of_omap;
      intros (j & Hj & Hjx); apply Hi; eapply Forall_forall in HF; [|exact Hj]; simpl in HF;
      by rewrite (member_at_inj m i j x) by (done || lia))). done.
Qed.

(** Bits confined to voting slots count distinct voters. *)
Definition voter_bits (m : Membership) (b : Z) : Prop :=
  forall i, 0 <= i < 64 -> Z.testbit b i = true -> i < m_replica_count m.

Lemma size_voted m b : wf m -> voter_bits m b -> Z.of_nat (size (voted m b)) = count_ones b.
Proof.
  intros Hwf Hb. unfold voted, count_ones. f_equal. apply size_slots; [done|apply NoDup_bit_slots|].
  apply Forall_forall. intros i [Hi Ht]%elem_bit_slots. specialize (Hb i Hi Ht). lia.
Qed.

Lemma voted_voters m b : wf m -> voter_bits m b -> voted m b ⊆ voters m.
Proof.
  intros Hwf Hb x (i & Hi & Ht & Hx)%elem_voted. specialize (Hb i Hi Ht).
  destruct (member_at_voter m i Hwf) as (y & Hy & Hv); [lia|]. by simplify_eq.
Qed.

Lemma masked_voter_bits m b : wf m -> voter_bits m (Z.land b (voter_mask m)).
Proof.
  intros Hwf i Hi. rewrite Z.land_spec, testbit_voter_mask by done.
  intros [_ H]%andb_true_iff. lia.
Qed.

Lemma testbit_retained sv slot vs i :
  0 <= slot -> 0 <= i ->
  Z.testbit (retained_mask sv slot vs) i = true <->
  slot <= i /\ exists x, vs !! Z.to_nat (i - slot) = Some x /\ x ∈ sv.
Proof.
  revert slot. induction vs as [|y vs IH]; intros slot Hs Hi; simpl.
  { rewrite Z.bits_0. split; [done|]. by intros (_ & x & ? & _). }
  specialize (IH (slot + 1) ltac:(lia) Hi).
  assert (Hcons : slot < i -> (y :: vs) !! Z.to_nat (i - slot) = vs !! Z.to_nat (i - (slot + 1))).
  { intros Hlt. replace (Z.to_nat (i - slot)) with (S (Z.to_nat (i - (slot + 1)))) by lia. done. }
  assert (Hhead : i = slot -> (y :: vs) !! Z.to_nat (i - slot) = Some y)
    by (intros ->; by rewrite Z.sub_diag).
  case_bool_decide as Hy; [rewrite Z.lor_spec, orb_true_iff, testbit_bit, Z.eqb_eq by done|];
    rewrite IH.
  - split.
    + intros [->|(Hle & x & Hx & Hin)]; [split; [lia|]; exists y; by rewrite Hhead|].
      split; [lia|]. exists x. by rewrite Hcons by lia.
    + intros (Hle & x & Hx & Hin). destruct (Z.eq_dec i slot); [by left|right].
      split; [lia|]. exists x. by rewrite <-Hcons by lia.
  - split.
    + intros (Hle & x & Hx & Hin). split; [lia|]. exists x. by rewrite Hcons by lia.
    + intros (Hle & x & Hx & Hin). destruct (Z.eq_dec i slot) as [->|].
      * rewrite Hhead in Hx by done. by simplify_eq.
      * split; [lia|]. exists x. by rewrite <-Hcons by lia.
Qed.

Lemma Z_land_true a b i :
  Z.testbit (Z.land a b) i = true -> Z.testbit a i = true /\ Z.testbit b i = true.
Proof. rewrite Z.land_spec. apply andb_true_iff. Qed.

Lemma voter_bits_land m a b : voter_bits m a -> voter_bits m (Z.land a b).
Proof. intros H i Hi [Ha _]%Z_land_true. eauto. Qed.

Lemma voted_retained m sv oks :
  wf m -> voter_bits m oks ->
  voted m (Z.land oks (retained_mask sv 0 (take (Z.to_nat (m_replica_count m)) (m_members m)))) =
  voted m oks ∩ list_to_set sv.
Proof.
  intros Hwf Hb. apply set_eq. intros x.
  rewrite elem_of_intersection, !elem_voted, elem_of_list_to_set. split.
  - intros (i & Hi & [Ho Hr]%Z_land_true & Hx). apply testbit_retained in Hr as (_ & y & Hy & Hin); [|lia..].
    rewrite Z.sub_0_r in Hy. apply lookup_take_Some in Hy as [Hy _]. unfold member_at in Hx.
    simplify_eq. eauto 10.
  - intros ((i & Hi & Ho & Hx) & Hin). exists i. split_and!; [lia..| |done].
    rewrite Z.land_spec, Ho. apply testbit_retained; [lia..|]. split; [lia|]. exists x.
    rewrite Z.sub_0_r. split; [|done]. apply lookup_take_Some. specialize (Hb i Hi Ho).
    split; [done|lia].
Qed.

(** What the commit predicate establishes about the acknowledging members. *)
Lemma commit_ready_acks m log inflight next :
  wf m -> commit_ready m log inflight next = true ->
  exists inf, bt_get next inflight = Some inf /\ i_committed inf = false /\
    let acks := voted m (Z.land (i_oks inf) (voter_mask m)) in
    acks ⊆ voters m /\ quorum m <= Z.of_nat (size acks) /\
    (forall e p, bt_get next log = Some e -> as_reconfigure (l_body e) = Some p ->
       p_replica_count p < m_replica_count m ->
       p_replica_count p / 2 + 1 <=
       Z.of_nat (size (acks ∩ list_to_set (take (Z.to_nat (p_replica_count p)) (p_members p))))).
Proof.
  intros Hwf. unfold commit_ready. destruct (bt_get next inflight) as [inf|]; [|done].
  set (oks := Z.land (i_oks inf) (voter_mask m)).
  pose proof (masked_voter_bits m (i_oks inf) Hwf : voter_bits m oks) as Hb.
  rewrite !andb_true_iff, Z.leb_le. intros [[Hc%negb_true_iff Hq] Hs]. exists inf.
  split; [done|]. split; [done|]. cbv zeta. split_and!.
  - by apply voted_voters.
  - by rewrite size_voted.
  - intros e p He Hp Hlt. unfold shrink_successor_quorum_met in Hs. rewrite He in Hs. simpl in Hs.
    rewrite Hp, (proj2 (Z.leb_gt _ _)) in Hs by done. apply Z.leb_le in Hs.
    fold oks. rewrite <-(voted_retained m _ oks) by done.
    rewrite size_voted; [done..|by apply voter_bits_land].
Qed.

(** An op is counted committed only on a quorum: when the commit predicate
    fires, the distinct current voters whose acks for the driven operation were
    recorded form a replication quorum; stale bits of non-voters count for
    nothing. *)
Theorem commit_needs_quorum m log inflight next :
  wf m -> commit_ready m log inflight next = true ->
  exists inf, bt_get next inflight = Some inf /\ i_committed inf = false /\
    voted m (Z.land (i_oks inf) (voter_mask m)) ⊆ voters m /\
    quorum m <= Z.of_nat (size (voted m (Z.land (i_oks inf) (voter_mask m)))).
Proof.
  intros Hwf H. destruct (commit_ready_acks m log inflight next Hwf H) as (inf & ? & ? & ? & ? & _).
  eauto.
Qed.

Lemma commit_needs_quorum_witness :
  exists inf, bt_get 9 [(9, mkInflight 5 false 77)] = Some inf /\ i_committed inf = false /\
    voted sample (Z.land (i_oks inf) (voter_mask sample)) ⊆ voters sample /\
    quorum sample <= Z.of_nat (size (voted sample (Z.land (i_oks inf) (voter_mask sample)))).
Proof.
  apply (commit_needs_quorum sample [] [(9, mkInflight 5 false 77)] 9);
    [exact sample_wf|vm_compute; reflexivity].
Defined.

(** C3. A committed shrink can be led out of its old configuration: the acks of a
    demotion op that commits meet every view-change quorum of the successor
    configuration, which a bare predecessor quorum does not guarantee from an odd
    voter count. *)
Theorem shrink_commit_meets_successor m d m' log inflight next e V :
  wf m -> apply_delta m d = Ok m' -> is_demote_voter d = true ->
  bt_get next log = Some e -> l_body e = Reconfigure (from_membership m' (m_config_id m)) ->
  commit_ready m log inflight next = true ->
  V ⊆ voters m' -> quorum_view_change m' <= Z.of_nat (size V) ->
  exists inf, bt_get next inflight = Some inf /\
    voted m (Z.land (i_oks inf) (voter_mask m)) ∩ V <> ∅.
Proof.
  intros Hwf Hd Hdem Hlog Hbody Hready HV HVn.
  destruct (commit_ready_acks m log inflight next Hwf Hready) as (inf & Hinf & _ & Hsub & _ & Hs).
  apply (apply_delta_step m Hwf) in Hd as (Hwf' & Hstep & _ & _).
  pose proof (size_voters m Hwf) as Hn. pose proof (size_voters m' Hwf') as Hn'.
  assert (m_replica_count m' < m_replica_count m) as Hlt.
  { destruct d; try done. inversion Hstep as [| x ? ? Hx | |]; subst.
    assert (size (voters m') < size (voters m))%nat; [|lia]. apply subset_size. set_solver. }
  specialize (Hs e (from_membership m' (m_config_id m)) Hlog ltac:(by rewrite Hbody) Hlt).
  exists inf. split; [done|]. simpl in Hs.
  set (A := voted m _) in *. fold (voters_list m') (voters m') in Hs.
  intros Hempty. apply (pigeonhole (voters m') (A ∩ voters m') V); [set_solver|done| |set_solver].
  unfold quorum_view_change, quorum in *. lia.
Qed.

Definition sample_shrunk : Membership :=
  match apply_delta sample (DemoteVoter 12) with Ok m' => m' | Err _ => sample end.

Definition sample_shrink_log : btree LogEntry :=
  [(9, mkLogEntry RECONFIGURATION 1 (Reconfigure (from_membership sample_shrunk 99)))].

Lemma shrink_commit_meets_successor_witness :
  exists inf, bt_get 9 [(9, mkInflight 3 false 77)] = Some inf /\
    voted sample (Z.land (i_oks inf) (voter_mask sample)) ∩ {[10]} <> ∅.
Proof.
  apply (shrink_commit_meets_successor sample (DemoteVoter 12) sample_shrunk sample_shrink_log
    [(9, mkInflight 3 false 77)] 9
    (mkLogEntry RECONFIGURATION 1 (Reconfigure (from_membership sample_shrunk 99)))).
  - exact sample_wf.
  - vm_compute. reflexivity.
  - reflexivity.
  - reflexivity.
  - reflexivity.
  - vm_compute. reflexivity.
  - apply singleton_subseteq_l. compute_done.
  - vm_compute. discriminate.
Defined.

(** The shrink conjunct is free exactly where the docs say: from an even voter
    count any predecessor quorum of acks already satisfies it, so it only ever
    delays the demotions that lower crash tolerance. *)
Theorem even_shrink_conjunct_implied m d m' log next e oks :
  wf m -> apply_delta m d = Ok m' -> is_demote_voter d = true ->
  Z.Even (m_replica_count m) ->
  bt_get next log = Some e -> l_body e = Reconfigure (from_membership m' (m_config_id m)) ->
  quorum m <= count_ones (Z.land oks (voter_mask m)) ->
  shrink_successor_quorum_met m log next (Z.land oks (voter_mask m)) = true.
Proof.
  intros Hwf Hd Hdem [k Heven] Hlog Hbody Hq. unfold shrink_successor_quorum_met.
  rewrite Hlog. simpl. rewrite Hbody. simpl. case_match; [done|]. apply Z.leb_le.
  set (b := Z.land oks (voter_mask m)) in *.
  pose proof (masked_voter_bits m oks Hwf : voter_bits m b) as Hb.
  apply (apply_delta_step m Hwf) in Hd as (Hwf' & Hstep & _ & _).
  pose proof (size_voters m Hwf) as Hn. pose proof (size_voters m' Hwf') as Hn'.
  rewrite <-(size_voted m), (voted_retained m) by (done || by apply voter_bits_land).
  fold (voters_list m') (voters m'). rewrite <-(size_voted m b Hwf Hb) in Hq.
  pose proof (voted_voters m b Hwf Hb) as Hsub.
  destruct d; try done.
  assert (voters m' = voters m ∖ {[who]} /\ who ∈ voters m) as [Hv Hin] by (by inversion Hstep).
  assert (voted m b ⊆ (voted m b ∩ voters m') ∪ {[who]}) as Hcover.
  { rewrite Hv. intros y Hy. destruct (decide (y = who)); set_solver. }
  apply subseteq_size in Hcover. rewrite size_union_alt in Hcover.
  assert (size ({[who]} ∖ (voted m b ∩ voters m')) <= 1)%nat.
  { rewrite <-(size_singleton (C := gset Z) who). apply subseteq_size. set_solver. }
  assert (size (voters m') = size (voters m) - 1)%nat.
  { rewrite Hv, size_difference by set_solver. by rewrite size_singleton. }
  unfold quorum in *. lia_div.
Qed.

Definition sample4 : Membership := mkMembership 7 4 1 [10; 11; 12; 13; 14] 99.

Lemma sample4_wf : wf sample4.
Proof. unfold wf, structure_ok. simpl. split_and!; [lia..|]. compute_done. Qed.

Definition sample4_shrunk : Membership :=
  match apply_delta sample4 (DemoteVoter 13) with Ok m' => m' | Err _ => sample4 end.

Lemma even_shrink_conjunct_implied_witness :
  shrink_successor_quorum_met sample4
    [(9, mkLogEntry RECONFIGURATION 1 (Reconfigure (from_membership sample4_shrunk 99)))] 9
    (Z.land 13 (voter_mask sample4)) = true.
Proof.
  apply (even_shrink_conjunct_implied sample4 (DemoteVoter 13) sample4_shrunk _ _
    (mkLogEntry RECONFIGURATION 1 (Reconfigure (from_membership sample4_shrunk 99)))).
  - exact sample4_wf.
  - vm_compute. reflexivity.
  - reflexivity.
  - by exists 2.
  - reflexivity.
  - reflexivity.
  - vm_compute. discriminate.
Defined.

(** ** The bit-clearing loop *)

Lemma split_bits q i r j :
  0 <= i -> 0 <= r < 2 ^ i -> 0 <= j ->
  Z.testbit (q * 2 ^ i + r) j = if i <=? j then Z.testbit q (j - i) else Z.testbit r j.
Proof.
  intros Hi Hr Hj. destruct (Z.leb_spec i j).
  - transitivity (Z.testbit (Z.shiftr (q * 2 ^ i + r) i) (j - i)).
    { rewrite Z.shiftr_spec by lia. f_equal. lia. }
    rewrite Z.shiftr_div_pow2, Z.div_add_l, Z.div_small, Z.add_0_r by lia. done.
  - rewrite <-(Z.mod_pow2_bits_low (q * 2 ^ i + r) i j) by lia.
    rewrite Z.add_comm, Z_mod_plus_full, Z.mod_small by lia. done.
Qed.

(** [b & (b - 1)] clears exactly the lowest set bit. *)
Lemma clear_lowest b i :
  0 <= i -> Z.testbit b i = true -> (forall j, 0 <= j < i -> Z.testbit b j = false) ->
  forall j, 0 <= j -> Z.testbit (Z.land b (b - 1)) j = (Z.testbit b j && negb (j =? i)).
Proof.
  intros Hi Hb Hlow j Hj. set (q := b / 2 ^ (i + 1)).
  assert (0 < 2 ^ i) as Hp by (apply pow_pos; lia).
  assert (2 ^ (i + 1) = 2 * 2 ^ i) as Hp2 by (rewrite Z.add_1_r, Z.pow_succ_r; lia).
  assert (b mod 2 ^ (i + 1) = 2 ^ i) as Hmod.
  { apply Z.bits_inj'. intros k Hk. destruct (Z.lt_ge_cases k (i + 1)).
    - rewrite Z.mod_pow2_bits_low by lia. destruct (Z.eq_dec k i) as [->|].
      + by rewrite Z.pow2_bits_true.
      + rewrite Z.pow2_bits_false by lia. apply Hlow. lia.
    - rewrite Z.mod_pow2_bits_high, Z.pow2_bits_false by lia. done. }
  assert (b = q * 2 ^ (i + 1) + 2 ^ i) as Eb.
  { unfold q. rewrite <-Hmod. rewrite Z.mul_comm. apply Z.div_mod. lia. }
  assert (b - 1 = q * 2 ^ (i + 1) + (2 ^ i - 1)) as Eb1 by lia.
  rewrite Z.land_spec, Eb1. rewrite (split_bits q (i + 1) (2 ^ i - 1) j) by lia.
  rewrite Eb. rewrite (split_bits q (i + 1) (2 ^ i) j) by lia.
  destruct (Z.leb_spec (i + 1) j).
  - rewrite (proj2 (Z.eqb_neq j i)) by lia. destruct (Z.testbit q (j - (i + 1))); done.
  - destruct (Z.eqb_spec j i) as [->|].
    + rewrite andb_false_r. change (2 ^ i - 1) with (Z.pred (2 ^ i)). rewrite <-Z.ones_equiv.
      rewrite Z.testbit_ones_nonneg, Z.ltb_irrefl, andb_false_r by lia. done.
    + by rewrite Z.pow2_bits_false by lia.
Qed.

Lemma trailing_zeros_spec b :
  0 <= b < 2 ^ 64 -> b <> 0 ->
  0 <= trailing_zeros b < 64 /\ Z.testbit b (trailing_zeros b) = true /\
  forall j, 0 <= j < trailing_zeros b -> Z.testbit b j = false.
Proof.
  intros Hb Hne. unfold trailing_zeros. destruct (list_find _ _) as [[k i]|] eqn:E.
  - apply list_find_Some in E as ([-> Hk]%lookup_seqZ & Ht & Hbefore). split_and!; [lia|lia|done|].
    intros j Hj. apply not_true_is_false.
    apply (Hbefore (Z.to_nat j)); [apply lookup_seqZ; lia|lia].
  - apply list_find_None in E. rewrite Forall_forall in E. exfalso. apply Hne.
    apply Z.bits_inj'. intros j Hj. rewrite Z.bits_0.
    destruct (Z.lt_ge_cases j 64).
    + apply not_true_is_false, E, elem_of_seqZ. lia.
    + rewrite Z.bits_above_log2; [done|lia|]. destruct (Z.eq_dec b 0) as [->|]; [simpl; lia|].
      pose proof (Z.log2_lt_pow2 b 64 ltac:(lia)) as Hlog. lia.
Qed.

Lemma filter_ext_in {A} (P Q : A -> Prop) `{!forall x, Decision (P x), !forall x, Decision (Q x)}
    (l : list A) :
  (forall x, x ∈ l -> P x <-> Q x) -> filter P l = filter Q l.
Proof.
  intros HPQ. induction l as [|x l IH]; [done|]. rewrite !filter_cons.
  rewrite IH by (intros; apply HPQ; by right).
  pose proof (HPQ x ltac:(left)). repeat case_decide; tauto.
Qed.

(** The set bits in ascending order are the lowest one, then the rest. *)
Lemma bit_slots_cons b :
  0 <= b < 2 ^ 64 -> b <> 0 ->
  bit_slots b = trailing_zeros b :: bit_slots (Z.land b (b - 1)).
Proof.
  intros Hb Hne. destruct (trailing_zeros_spec b Hb Hne) as (Hi & Ht & Hlow).
  set (i := trailing_zeros b) in *. unfold bit_slots.
  replace (seqZ 0 64) with (seqZ 0 i ++ i :: seqZ (i + 1) (63 - i)).
  2: { replace 64 with (i + (64 - i)) by lia. rewrite seqZ_app by lia. f_equal.
       rewrite (seqZ_cons (0 + i) (64 - i)) by lia. rewrite Z.add_0_l.
       replace (Z.pred (64 - i)) with (63 - i) by lia. done. }
  rewrite !filter_app.
  rewrite (filter_all_false _ (seqZ 0 i)).
  2: { apply Forall_forall. intros j Hj%elem_of_seqZ. rewrite Hlow by lia. done. }
  rewrite (filter_all_false _ (seqZ 0 i)).
  2: { apply Forall_forall. intros j Hj%elem_of_seqZ. rewrite (clear_lowest b i) by (done || lia).
       by rewrite Hlow by lia. }
  rewrite filter_cons_True by done. rewrite filter_cons_False.
  2: { rewrite (clear_lowest b i) by (done || lia). by rewrite Z.eqb_refl, andb_false_r. }
  simpl. f_equal. apply filter_ext_in. intros j Hj%elem_of_seqZ.
  rewrite (clear_lowest b i) by (done || lia). rewrite (proj2 (Z.eqb_neq j i)) by lia.
  by rewrite andb_true_r.
Qed.

Lemma land_fits w a b : 0 <= w -> fits w a -> 0 <= b -> fits w (Z.land a b).
Proof.
  intros Hw [Ha Hlt] Hb. split; [apply Z.land_nonneg; lia|].
  destruct (Z.eq_dec (Z.land a b) 0) as [->|Hne]; [by apply pow_pos|].
  assert (0 <= Z.land a b) by (apply Z.land_nonneg; lia).
  apply Z.log2_lt_pow2; [lia|]. eapply Z.le_lt_trans; [by apply Z.log2_land|].
  destruct (Z.eq_dec a 0) as [->|]; [by rewrite Z.land_0_l in Hne|].
  pose proof (Z.log2_lt_pow2 a w ltac:(lia)). lia.
Qed.

Lemma rekey_loop_fold fuel m m' acc rest :
  fits 64 rest -> (length (bit_slots rest) < fuel)%nat ->
  rekey_loop fuel m m' acc rest = foldl (rekey_bit m m') acc (bit_slots rest).
Proof.
  revert acc rest. induction fuel as [|fuel IH]; intros acc rest Hr Hf; [lia|]. cbn [rekey_loop].
  destruct (Z.eqb_spec rest 0) as [->|Hne]; [done|].
  unfold fits in Hr. rewrite (bit_slots_cons rest) in * by done. cbn [foldl length] in *.
  apply IH; [|lia]. apply land_fits; [lia|done|lia].
Qed.

Lemma length_bit_slots b : (length (bit_slots b) <= 64)%nat.
Proof. unfold bit_slots. etrans; [apply length_filter|]. by rewrite length_seqZ. Qed.

(** Where the bit of old slot [s] goes, if anywhere. *)
Definition new_slot (m m' : Membership) (s j : Z) : Prop :=
  exists x, member_at m s = Some x /\ slot_of m' x = Some j /\ is_voter m' j = true.

Lemma rekey_bit_spec m m' acc s j :
  wf m' -> 0 <= j ->
  Z.testbit (rekey_bit m m' acc s) j = true <-> Z.testbit acc j = true \/ new_slot m m' s j.
Proof.
  intros Hwf' Hj. unfold rekey_bit, new_slot.
  destruct (member_at m s) as [x|]; [|naive_solver].
  destruct (slot_of m' x) as [k|] eqn:Ek; [|naive_solver].
  pose proof Ek as [Hk _]%(slot_of_Some m' Hwf').
  destruct (is_voter m' k) eqn:Ev; [|naive_solver congruence].
  rewrite Z.lor_spec, orb_true_iff, testbit_bit, Z.eqb_eq by done. naive_solver.
Qed.

Lemma rekey_fold_spec m m' l acc j :
  wf m' -> 0 <= j ->
  Z.testbit (foldl (rekey_bit m m') acc l) j = true <->
  Z.testbit acc j = true \/ exists s, s ∈ l /\ new_slot m m' s j.
Proof.
  intros Hwf' Hj. revert acc. induction l as [|s l IH]; intros acc; cbn [foldl].
  { split; [by left|]. intros [|(s & []%not_elem_of_nil & _)]; done. }
  rewrite IH, rekey_bit_spec by done. setoid_rewrite elem_of_cons. naive_solver.
Qed.

Lemma rekey_testbit m m' b j :
  wf m' -> fits 64 b -> 0 <= j ->
  Z.testbit (rekey_slot_bitset m b m') j = true <->
  exists s, s ∈ bit_slots b /\ new_slot m m' s j.
Proof.
  intros Hwf' Hb Hj. unfold rekey_slot_bitset. pose proof (length_bit_slots b).
  rewrite rekey_loop_fold by (done || lia). rewrite rekey_fold_spec, Z.bits_0 by done. naive_solver.
Qed.

(** Re-keying a vote bitset across a membership swap keeps exactly the votes
    of members that are voters of the successor, at their new slots: removed and
    demoted members' votes vanish, and the popcount is the number of distinct
    successor voters that had voted. *)
Theorem rekey_exact m m' b :
  wf m -> wf m' -> fits 64 b ->
  voted m' (rekey_slot_bitset m b m') = voted m b ∩ voters m' /\
  count_ones (rekey_slot_bitset m b m') = Z.of_nat (size (voted m b ∩ voters m')).
Proof.
  intros Hwf Hwf' Hb.
  assert (voter_bits m' (rekey_slot_bitset m b m')) as Hvb.
  { intros j Hj. rewrite rekey_testbit by (done || lia). intros (s & _ & x & _ & _ & Hv).
    unfold is_voter in Hv. lia. }
  assert (voted m' (rekey_slot_bitset m b m') = voted m b ∩ voters m') as E.
  { apply set_eq. intros x. rewrite elem_of_intersection, !elem_voted. split.
    - intros (j & Hj & (s & [Hs Ht]%elem_bit_slots & y & Hy & Hjy & Hv)%rekey_testbit & Hx);
        [|done|done|lia].
      pose proof Hjy as [_ Hat]%(slot_of_Some m' Hwf'). unfold member_at in Hx. simplify_eq.
      split; [eauto|]. by apply (slot_voter m' Hwf' x j).
    - intros ((s & Hs & Ht & Hx) & Hv).
      destruct (voter_member_slot m' x Hv) as (j & Hj & Hat).
      assert (slot_of m' x = Some j) as Hslot by (apply (slot_of_Some m' Hwf'); split; [lia|done]).
      pose proof Hwf' as (Hr & _). exists j. split_and!; [lia|lia| |done].
      apply rekey_testbit; [done|done|lia|]. exists s. split; [by apply elem_bit_slots|].
      exists x. split_and!; [done|done|]. unfold is_voter. lia. }
  split; [done|]. rewrite <-E. by rewrite size_voted.
Qed.

Lemma rekey_exact_witness :
  voted sample_shrunk (rekey_slot_bitset sample 7 sample_shrunk) =
    voted sample 7 ∩ voters sample_shrunk /\
  count_ones (rekey_slot_bitset sample 7 sample_shrunk) =
    Z.of_nat (size (voted sample 7 ∩ voters sample_shrunk)).
Proof.
  apply rekey_exact; [exact sample_wf| |compute_done].
  destruct (apply_delta sample (DemoteVoter 12)) as [m'|e] eqn:E.
  - pose proof (apply_delta_step sample sample_wf _ _ E) as (H & _). unfold sample_shrunk.
    by rewrite E.
  - assert (is_ok (apply_delta sample (DemoteVoter 12)) = true) as H
      by (vm_compute; reflexivity). rewrite E in H. done.
Defined.

(** ** The quorum-th checkpoint *)

Section checkpoints.
Context (m : Membership) (Hwf : wf m) (local : MemberId) (own : OpNumber)
  (pc : gmap MemberId OpNumber).

(** What voter [x] is known to have made durable. *)
Definition known_checkpoint (x : MemberId) : OpNumber :=
  if x =? local then own else default 0 (pc !! x).

Lemma voter_slots_members :
  map (member_at m) (seqZ 0 (m_replica_count m)) = map Some (voters_list m).
Proof.
  pose proof Hwf as (Hr & Hl & Hn & Hlen & _). apply list_eq. intros i.
  change (map (member_at m)) with (fmap (M := list) (member_at m)).
  change (map Some) with (fmap (M := list) (@Some MemberId)). rewrite !list_lookup_fmap.
  unfold voters_list. rewrite lookup_take. case_decide as Hi.
  - assert (seqZ 0 (m_replica_count m) !! i = Some (Z.of_nat i)) as ->
      by (apply lookup_seqZ; lia).
    simpl. unfold member_at. rewrite Nat2Z.id.
    destruct (lookup_lt_is_Some_2 (m_members m) i) as [x ->]; [lia|done].
  - rewrite (lookup_ge_None_2 (seqZ 0 (m_replica_count m)) i); [done|].
    rewrite length_seqZ. lia.
Qed.

Lemma slot_reports_members :
  concat (map (slot_report m local pc) (seqZ 0 (m_replica_count m))) =
  map known_checkpoint (filter (fun x => x <> local) (voters_list m)).
Proof.
  transitivity (concat (map (fun o => match o with
    | None => [0] | Some x => if x =? local then [] else [default 0 (pc !! x)] end)
    (map (member_at m) (seqZ 0 (m_replica_count m))))); [by rewrite map_map|].
  rewrite voter_slots_members. generalize (voters_list m) as l.
  induction l as [|x l IH]; [done|]. cbn [map concat]. rewrite IH, filter_cons.
  destruct (Z.eqb_spec x local) as [->|Hne]; [by rewrite decide_False by auto|].
  rewrite decide_True by done. cbn [map app]. f_equal. unfold known_checkpoint.
  by rewrite (proj2 (Z.eqb_neq x local)) by done.
Qed.

Lemma endpoint_is_voter_spec : endpoint_is_voter m local = true <-> local ∈ voters_list m.
Proof.
  unfold endpoint_is_voter, local_slot_opt. rewrite <-(elem_voters_list m local).
  destruct (slot_of m local) as [i|] eqn:E; [by apply (slot_voter m Hwf)|].
  split; [done|]. intros Hv. apply slot_of_None in E. exfalso. apply E, (elem_members m); auto.
Qed.

Lemma reports_voters :
  checkpoint_reports m local own pc ≡ₚ map known_checkpoint (voters_list m).
Proof.
  unfold checkpoint_reports. rewrite slot_reports_members.
  destruct (NoDup_layout m Hwf) as (Hnd & _ & _).
  destruct (endpoint_is_voter m local) eqn:E.
  - apply endpoint_is_voter_spec in E.
    rewrite <-(filter_ne_perm local (voters_list m) Hnd E) at 2. cbn [map app].
    assert (known_checkpoint local = own) as -> by (unfold known_checkpoint; by rewrite Z.eqb_refl).
    done.
  - rewrite filter_ne_notin; [done|]. rewrite <-endpoint_is_voter_spec. congruence.
Qed.

(** The voters known to hold a checkpoint at or above [v]. *)
Definition holders (v : OpNumber) : gset Z := filter (fun x => v <= known_checkpoint x) (voters m).

Lemma size_holders v :
  size (holders v) = length (filter (fun c => v <= c) (checkpoint_reports m local own pc)).
Proof.
  rewrite reports_voters. unfold holders, voters. destruct (NoDup_layout m Hwf) as (Hnd & _ & _).
  revert Hnd. generalize (voters_list m) as l. induction l as [|x l IH]; intros Hnd.
  { rewrite list_to_set_nil, filter_empty_L by apply _. by rewrite size_empty. }
  apply NoDup_cons in Hnd as [Hx Hnd]. cbn [map list_to_set]. rewrite filter_union_L by apply _.
  rewrite filter_cons, filter_singleton_L by apply _.
  destruct (decide (v <= known_checkpoint x)).
  - rewrite size_union, size_singleton, IH by
      (done || (apply disjoint_singleton_l; rewrite elem_of_filter, elem_of_list_to_set; tauto)).
    done.
  - rewrite union_empty_l_L. by apply IH.
Qed.
End checkpoints.

Lemma lookup_descending (l : list Z) q v :
  1 <= q <= zlen l -> reverse (merge_sort Z.le l) !! Z.to_nat (q - 1) = Some v ->
  q <= zlen (filter (fun c => v <= c) l) /\
  (forall w, v < w -> zlen (filter (fun c => w <= c) l) < q).
Proof.
  intros Hq. set (s := merge_sort Z.le l).
  assert (s ≡ₚ l) as Hp by apply merge_sort_Permutation.
  assert (StronglySorted Z.le s) as Hs by (apply StronglySorted_merge_sort; apply _).
  pose proof (Permutation_length Hp) as Hlen.
  rewrite reverse_lookup by lia. intros Hv.
  destruct (sorted_pivot s _ v Hs Hv) as [Hlo Hhi].
  set (i := (length s - S (Z.to_nat (q - 1)))%nat) in *. split; [|intros w Hw]; rewrite <-Hp.
  - rewrite <-(take_drop i s), filter_app, (filter_all_true _ (drop i s)) by done.
    rewrite length_app, length_drop. lia.
  - rewrite <-(take_drop (S i) s), filter_app, (filter_all_false _ (take (S i) s)).
    + pose proof (length_filter (fun c => w <= c) (drop (S i) s)) as Hf.
      rewrite length_drop in Hf. simpl. lia.
    + rewrite (take_S_r s i v Hv). apply Forall_app. split; [|repeat constructor; lia].
      eapply Forall_impl; [exact Hlo|]. simpl. lia.
Qed.

Lemma length_reports m local own pc :
  wf m -> zlen (checkpoint_reports m local own pc) = m_replica_count m.
Proof.
  intros Hwf. rewrite (reports_voters m Hwf local own pc), length_map. by apply length_voters_list.
Qed.

Lemma quorum_range m : wf m -> 1 <= quorum m <= m_replica_count m.
Proof. intros (? & _). unfold quorum. lia_div. Qed.

(** The garbage-collection floor is the quorum-th checkpoint: it is always
    defined, a quorum of current voters is known to hold a durable checkpoint at
    or above it, and of no higher op is that true; the reports of learners and
    removed members play no part. *)
Theorem quorum_checkpoint_exact m local own pc :
  wf m ->
  exists v, compute_quorum_checkpoint_op m local own pc = Some v /\
    quorum m <= Z.of_nat (size (holders m local own pc v)) /\
    (forall w, v < w -> Z.of_nat (size (holders m local own pc w)) < quorum m).
Proof.
  intros Hwf. unfold compute_quorum_checkpoint_op.
  pose proof (length_reports m local own pc Hwf) as Hlen. pose proof (quorum_range m Hwf) as Hq.
  destruct (lookup_lt_is_Some_2 (reverse (merge_sort Z.le (checkpoint_reports m local own pc)))
    (Z.to_nat (quorum m - 1))) as [v Hv].
  { rewrite length_reverse, (merge_sort_Permutation Z.le). lia. }
  exists v. split; [done|].
  destruct (lookup_descending (checkpoint_reports m local own pc) (quorum m) v ltac:(lia) Hv) as [Hge Hlt]. split.
  - by rewrite (size_holders m Hwf).
  - intros w Hw. rewrite (size_holders m Hwf). by apply Hlt.
Qed.

Lemma quorum_checkpoint_exact_witness :
  exists v, compute_quorum_checkpoint_op sample 10 40 {[11 := 32]} = Some v /\
    quorum sample <= Z.of_nat (size (holders sample 10 40 {[11 := 32]} v)) /\
    (forall w, v < w -> Z.of_nat (size (holders sample 10 40 {[11 := 32]} w)) < quorum sample).
Proof. apply (quorum_checkpoint_exact sample 10 40 {[11 := 32]} sample_wf). Defined.

(** Checkpoint reports never move the floor back: recording any report, in
    range or not, leaves the quorum-th checkpoint where it was or higher. *)
Theorem quorum_checkpoint_monotone m local own pc replica reported v v' :
  wf m -> compute_quorum_checkpoint_op m local own pc = Some v ->
  compute_quorum_checkpoint_op m local own (record_peer_checkpoint m pc replica reported) = Some v' ->
  v <= v'.
Proof.
  intros Hwf E E'. set (pc' := record_peer_checkpoint m pc replica reported) in *.
  pose proof (length_reports m local own pc Hwf). pose proof (length_reports m local own pc' Hwf).
  pose proof (quorum_range m Hwf).
  destruct (lookup_descending (checkpoint_reports m local own pc) (quorum m) v ltac:(lia) E) as [Hge _].
  destruct (lookup_descending (checkpoint_reports m local own pc') (quorum m) v' ltac:(lia) E') as [_ Hlt].
  destruct (Z.le_gt_cases v v') as [|Hgt]; [done|]. specialize (Hlt v Hgt).
  rewrite <-(size_holders m Hwf local own) in Hge, Hlt.
  assert (holders m local own pc v ⊆ holders m local own pc' v) as Hsub%subseteq_size; [|lia].
  intros x. unfold holders. rewrite !elem_of_filter. intros [Hx ?]. split; [|done].
  unfold known_checkpoint in *. destruct (x =? local); [done|].
  unfold pc', record_peer_checkpoint. destruct (member_at m replica) as [y|]; [|done].
  destruct (decide (x = y)) as [->|]; [rewrite lookup_insert_eq; simpl; lia|].
  by rewrite lookup_insert_ne by auto.
Qed.

Lemma quorum_checkpoint_monotone_witness : (32 <= 40)%Z.
Proof.
  apply (quorum_checkpoint_monotone sample 10 40 {[11 := 32]} 2 64 32 40 sample_wf);
    vm_compute; reflexivity.
Defined.

(** ** Ack tallies and the lineage window *)

(** A received ack: the op, the acking slot and the identity it acknowledges. *)
Record Ack : Type := mkAck { a_op : OpNumber; a_replica : ReplicaId; a_checksum : Z }.

Definition apply_ack (inflight : btree Inflight) (a : Ack) : btree Inflight :=
  record_ack inflight (a_op a) (a_replica a) (a_checksum a).

Lemma apply_ack_get inflight a op inf :
  bt_get op inflight = Some inf ->
  exists inf', bt_get op (apply_ack inflight a) = Some inf' /\
    i_committed inf' = i_committed inf /\ i_prepare_checksum inf' = i_prepare_checksum inf /\
    i_oks inf' = (if (a_op a =? op) && (a_checksum a =? i_prepare_checksum inf)
                  then Z.lor (i_oks inf) (bit (a_replica a)) else i_oks inf).
Proof.
  intros H. unfold apply_ack, record_ack. destruct (Z.eqb_spec (a_op a) op) as [->|Hne].
  - rewrite H. destruct (Z.eqb_spec (a_checksum a) (i_prepare_checksum inf)); [|by exists inf].
    rewrite bt_get_insert, Z.eqb_refl. by eexists.
  - exists inf. destruct (bt_get (a_op a) inflight); [case_match; [|done]|done].
    rewrite bt_get_insert, (proj2 (Z.eqb_neq op (a_op a))) by auto. done.
Qed.

(** The tally of an op holds exactly its starting votes and the slots whose
    received acks named the operation being driven there: acks for another op, or
    for another operation at the same op number, leave no bit. *)
Theorem ack_tally_exact acks inflight op inf :
  bt_get op inflight = Some inf -> Forall (fun a => 0 <= a_replica a) acks ->
  exists inf', bt_get op (foldl apply_ack inflight acks) = Some inf' /\
    i_prepare_checksum inf' = i_prepare_checksum inf /\
    forall slot, 0 <= slot ->
      Z.testbit (i_oks inf') slot = true <->
      Z.testbit (i_oks inf) slot = true \/
      mkAck op slot (i_prepare_checksum inf) ∈ acks.
Proof.
  revert inflight inf. induction acks as [|a acks IH]; intros inflight inf Hop Hacks; cbn [foldl].
  { exists inf. split; [done|]. split; [done|]. intros. rewrite elem_of_nil. tauto. }
  apply Forall_cons in Hacks as [Ha Hacks].
  destruct (apply_ack_get inflight a op inf Hop) as (inf1 & H1 & _ & Hc1 & Ho1).
  destruct (IH _ _ H1 Hacks) as (inf' & H' & Hc' & Hbits). exists inf'.
  split; [done|]. split; [congruence|]. intros slot Hs. rewrite (Hbits slot Hs), Hc1, Ho1, elem_of_cons.
  destruct a as [aop ar ac]. cbn [a_op a_replica a_checksum] in *.
  destruct (Z.eqb_spec aop op) as [->|], (Z.eqb_spec ac (i_prepare_checksum inf)) as [->|];
    cbn [andb]; try (split; [tauto|]; intros [?|[E|?]]; [tauto|by simplify_eq|tauto]).
  rewrite Z.lor_spec, orb_true_iff, testbit_bit, Z.eqb_eq by done. split.
  - intros [[?| ->]|?]; tauto.
  - intros [?|[E|?]]; [tauto| |tauto]. simplify_eq. tauto.
Qed.

Lemma ack_tally_exact_witness :
  exists inf', bt_get 9 (foldl apply_ack [(9, mkInflight 1 false 77)]
      [mkAck 9 1 77; mkAck 9 2 78; mkAck 8 2 77]) = Some inf' /\
    i_prepare_checksum inf' = 77 /\
    forall slot, 0 <= slot ->
      Z.testbit (i_oks inf') slot = true <->
      Z.testbit 1 slot = true \/ mkAck 9 slot 77 ∈ [mkAck 9 1 77; mkAck 9 2 78; mkAck 8 2 77].
Proof.
  apply (ack_tally_exact [mkAck 9 1 77; mkAck 9 2 78; mkAck 8 2 77]
    [(9, mkInflight 1 false 77)] 9 (mkInflight 1 false 77)); [reflexivity|].
  repeat constructor; simpl; lia.
Defined.

Lemma push_lineage_chain ring hist :
  length ring = LINEAGE_RING ->
  foldl push_lineage ring hist = take LINEAGE_RING (reverse hist ++ ring).
Proof.
  intros Hlen. induction hist as [|x hist IH] using rev_ind.
  - simpl. rewrite <-Hlen. by rewrite firstn_all.
  - rewrite foldl_app, IH, reverse_app. unfold push_lineage, LINEAGE_RING in *. simpl.
    by destruct (reverse hist ++ ring) as [|a [|b l]].
Qed.

(** Catch-up traffic is admitted from exactly the current configuration and
    the two it most recently superseded: after any sequence of installs, an older
    or foreign configuration id is out of lineage. *)
Theorem lineage_window m ring hist other :
  length ring = LINEAGE_RING ->
  in_lineage m (foldl push_lineage ring hist) other = true <->
  other = m_config_id m \/ other ∈ take 2 (reverse hist ++ ring).
Proof.
  intros Hlen. unfold in_lineage. rewrite (push_lineage_chain _ _ Hlen).
  by rewrite orb_true_iff, Z.eqb_eq, bool_decide_eq_true.
Qed.

Lemma lineage_window_witness :
  in_lineage sample (foldl push_lineage [1; 2] [3; 4]) 3 = true <->
  3 = m_config_id sample \/ 3 ∈ take 2 (reverse [3; 4] ++ [1; 2]).
Proof. apply (lineage_window sample [1; 2] [3; 4] 3). reflexivity. Defined.
