(* ===== verification/Proposals.v ===== *)
(** * View-change proposals and primary forfeiture

    [viewstamp-proto/src/endpoint/view_change.rs] ([on_start_view_change],
    [join_svc], [maybe_start_view_change]) and [endpoint/forfeit.rs]: the
    [StartViewChange] tally every voter keeps and the grace-timed step-down of a
    stuck primary.  The tally's result reports whether
    [transition_to_view_change_status] is called; that transition is not part of
    this file. *)

From S2P Require Import Prelude Core Hash Membership Codec Message BTree ViewChange Votes.

Definition MILLIS : Z := 1000000.
Definition VC_MESSAGE_RETRANSMIT : Z := 100 * MILLIS.
Definition FORFEIT_GRACE : Z := 300 * MILLIS.

(** The fields the proposal handlers read and write; [p_sent] lists the targets
    of the [StartViewChange] broadcasts, newest first. *)
Record Proposer : Type := mkProposer {
  pr_membership : Membership;
  pr_local : MemberId;
  pr_view : View;
  pr_svc_target : View;
  pr_svc_from : Z;
  pr_svc_message : option Z;
  pr_forfeit_armed : option Z;
  pr_pending_forfeit : bool;
  pr_sent : list View;
}.

Definition set_svc (s : Proposer) (target : View) (from : Z) : Proposer :=
  mkProposer (pr_membership s) (pr_local s) (pr_view s) target from (pr_svc_message s)
    (pr_forfeit_armed s) (pr_pending_forfeit s) (pr_sent s).

Definition set_forfeit (s : Proposer) (armed : option Z) (pending : bool) : Proposer :=
  mkProposer (pr_membership s) (pr_local s) (pr_view s) (pr_svc_target s) (pr_svc_from s)
    (pr_svc_message s) armed pending (pr_sent s).

(** [local_slot] panics when the local member left the configuration; the
    handlers below are reached by voters only, for which it is defined. *)
Definition local_slot (s : Proposer) : ReplicaId :=
  default 0 (local_slot_opt (pr_membership s) (pr_local s)).

Definition join_svc (s : Proposer) (now : Z) : Proposer :=
  mkProposer (pr_membership s) (pr_local s) (pr_view s) (pr_svc_target s)
    (Z.lor (pr_svc_from s) (bit (local_slot s)))
    (Some (Time.instant_add now VC_MESSAGE_RETRANSMIT))
    (pr_forfeit_armed s) (pr_pending_forfeit s) (pr_svc_target s :: pr_sent s).

(** [Some target] when the quorum is met and the transition is driven. *)
Definition maybe_start_view_change (s : Proposer) : option View :=
  if quorum_view_change (pr_membership s) <=? count_ones (pr_svc_from s)
  then Some (pr_svc_target s) else None.

Definition on_start_view_change (s : Proposer) (now : Z) (target : View) (replica : ReplicaId)
    : Proposer * option View :=
  if endpoint_is_learner (pr_membership s) (pr_local s) then (s, None)
  else if target <=? pr_view s then (s, None)
  else if m_replica_count (pr_membership s) <=? replica then (s, None)
  else
    let s := if pr_svc_target s <? target then join_svc (set_svc s target 0) now else s in
    if target =? pr_svc_target s then
      let s := set_svc s (pr_svc_target s) (Z.lor (pr_svc_from s) (bit replica)) in
      (s, maybe_start_view_change s)
    else (s, None).

Definition propose_next_view (s : Proposer) (now : Z) : Proposer * option View :=
  if endpoint_is_learner (pr_membership s) (pr_local s) then (s, None)
  else
    let target := Counter.next (pr_view s) in
    let s := if pr_svc_target s <? target then set_svc s target 0 else s in
    let s := join_svc s now in
    (s, maybe_start_view_change s).

Definition on_primary_idle (s : Proposer) (now : Z) : Proposer * option View :=
  propose_next_view s now.

(** ** Forfeiture *)

Definition forfeit (s : Proposer) (now : Z) : Proposer * option View :=
  propose_next_view (set_forfeit s None true) now.

Definition defer_forfeit (s : Proposer) (now : Z) : Proposer :=
  mkProposer (pr_membership s) (pr_local s) (pr_view s) (pr_svc_target s) (pr_svc_from s)
    (Some (Time.instant_add now VC_MESSAGE_RETRANSMIT)) (pr_forfeit_armed s) true (pr_sent s).

Definition abdicate_if_primary (s : Proposer) (now : Z) : Proposer * bool :=
  if (1 <? m_replica_count (pr_membership s))
     && endpoint_is_primary (pr_membership s) (pr_local s) (pr_view s)
  then (defer_forfeit s now, true)
  else (s, false).

(** The condition [maybe_forfeit] samples: the checkpoint lags the quorum's by
    the configured span, or a committed repair hole is outstanding. *)
Definition stuck (quorum_checkpoint checkpoint_op forfeit_checkpoint_lag commit_max : Z)
    (repair : list OpNumber) : bool :=
  let lag := sat_sub quorum_checkpoint checkpoint_op in
  (forfeit_checkpoint_lag <=? lag) || existsb (fun op => op <=? commit_max) repair.

Definition maybe_forfeit (s : Proposer) (now : Z) (is_stuck : bool) : Proposer * option View :=
  if m_replica_count (pr_membership s) <=? 1
  then (set_forfeit s None (pr_pending_forfeit s), None)
  else
    match is_stuck, pr_forfeit_armed s with
    | false, _ => (set_forfeit s None (pr_pending_forfeit s), None)
    | true, None =>
        (set_forfeit s (Some (Time.instant_add now FORFEIT_GRACE)) (pr_pending_forfeit s), None)
    | true, Some deadline => if deadline <=? now then forfeit s now else (s, None)
    end.

(** ** The proposal tally *)

(** A voter's history: proposals received, in any order and from anyone, and its
    own idle or forfeit proposals, with the last handler's result.  Received
    proposals are recorded as (slot, target). *)
Inductive tallied (m : Membership) (local : MemberId) (view : View)
    : list (ReplicaId * View) -> Proposer -> option View -> Prop :=
| tallied_start sm fa pf sent :
    tallied m local view [] (mkProposer m local view view 0 sm fa pf sent) None
| tallied_receive got s r now target replica s' r' :
    tallied m local view got s r -> 0 <= replica ->
    on_start_view_change s now target replica = (s', r') ->
    tallied m local view ((replica, target) :: got) s' r'
| tallied_propose got s r now s' r' :
    tallied m local view got s r -> propose_next_view s now = (s', r') ->
    tallied m local view got s' r'
| tallied_forfeit_tick got s r now is_stuck s' r' :
    tallied m local view got s r -> maybe_forfeit s now is_stuck = (s', r') ->
    tallied m local view got s' r'.

Definition tally_inv (m : Membership) (local : MemberId) (view : View)
    (got : list (ReplicaId * View)) (s : Proposer) : Prop :=
  pr_membership s = m /\ pr_local s = local /\ pr_view s = view /\ view <= pr_svc_target s /\
  (pr_svc_from s <> 0 -> view < pr_svc_target s) /\
  forall i, 0 <= i -> Z.testbit (pr_svc_from s) i = true ->
    i < m_replica_count m /\ (i = local_slot s \/ (i, pr_svc_target s) ∈ got).

Section tally.
Context (m : Membership) (local : MemberId) (view : View).
Context (Hwf : wf m) (Hlocal : endpoint_is_voter m local = true) (Hview : view < umax 64).

Lemma local_slot_voter s :
  pr_membership s = m -> pr_local s = local -> 0 <= local_slot s < m_replica_count m.
Proof.
  intros Em El. unfold local_slot, endpoint_is_voter, local_slot_opt in *. rewrite Em, El in *.
  destruct (slot_of m local) as [i|] eqn:E; [|done]. apply slot_of_Some in E as [Hi _]; [|done].
  unfold is_voter in Hlocal. simpl. lia.
Qed.

Lemma local_not_learner : endpoint_is_learner m local = false.
Proof.
  unfold endpoint_is_learner, endpoint_is_voter in *.
  destruct (local_slot_opt m local) as [i|]; [|done]. unfold is_voter, is_learner in *.
  apply andb_false_iff. left. lia.
Qed.

(** Setting bit [r] of the tally for the current target. *)
Lemma tally_inv_bit got s r s' :
  tally_inv m local view got s -> view < pr_svc_target s -> 0 <= r < m_replica_count m ->
  r = local_slot s \/ (r, pr_svc_target s) ∈ got ->
  pr_membership s' = m -> pr_local s' = local -> pr_view s' = view ->
  pr_svc_target s' = pr_svc_target s -> pr_svc_from s' = Z.lor (pr_svc_from s) (bit r) ->
  tally_inv m local view got s'.
Proof.
  intros (Em & El & Ev & Hle & Hlt & Hbits) Ht Hr Hin Em' El' Ev' Et Ef.
  unfold tally_inv. rewrite Et, Ef. split_and!; [done..|lia|lia|].
  assert (local_slot s' = local_slot s) as -> by (unfold local_slot; congruence).
  intros i Hi. rewrite Z.lor_spec, orb_true_iff, testbit_bit, Z.eqb_eq by lia.
  intros [Hb| ->]; [by apply Hbits|]. split; [lia|done].
Qed.

Lemma tally_inv_mono got x s : tally_inv m local view got s -> tally_inv m local view (x :: got) s.
Proof.
  intros (? & ? & ? & ? & ? & Hbits). split_and!; try done.
  intros i Hi Hb. destruct (Hbits i Hi Hb) as [? [?|?]]; (split; [done|]); [by left|].
  right. by right.
Qed.

Lemma tally_inv_reset got s target :
  tally_inv m local view got s -> view < target -> tally_inv m local view got (set_svc s target 0).
Proof.
  intros (? & ? & ? & ? & ? & _) Ht. split_and!; simpl; try done; [lia|].
  intros i _. by rewrite Z.bits_0.
Qed.

Lemma tally_inv_forfeit got s armed pending :
  tally_inv m local view got s -> tally_inv m local view got (set_forfeit s armed pending).
Proof. done. Qed.

Lemma tally_inv_join got s now :
  tally_inv m local view got s -> view < pr_svc_target s ->
  tally_inv m local view got (join_svc s now).
Proof.
  intros Hinv Ht. pose proof Hinv as (Em & El & Ev & _).
  eapply (tally_inv_bit got s (local_slot s)); try done; [by apply local_slot_voter|by left].
Qed.

Lemma receive_inv got s now target replica s' r :
  tally_inv m local view got s -> 0 <= replica ->
  on_start_view_change s now target replica = (s', r) ->
  tally_inv m local view ((replica, target) :: got) s' /\
  (r = None \/ r = maybe_start_view_change s').
Proof.
  intros Hinv Hr. apply (tally_inv_mono _ (replica, target)) in Hinv.
  pose proof Hinv as (Em & El & Ev & _). unfold on_start_view_change.
  rewrite Em, El, local_not_learner, Ev.
  destruct (Z.leb_spec target view); [intros [= <- <-]; auto|].
  destruct (Z.leb_spec (m_replica_count m) replica); [intros [= <- <-]; auto|].
  set (s1 := if pr_svc_target s <? target then _ else s).
  assert (tally_inv m local view ((replica, target) :: got) s1) as Hinv1.
  { unfold s1. destruct (Z.ltb_spec (pr_svc_target s) target); [|done].
    apply tally_inv_join; [by apply tally_inv_reset|simpl; lia]. }
  pose proof Hinv1 as (Em1 & El1 & Ev1 & _).
  destruct (Z.eqb_spec target (pr_svc_target s1)) as [Et|]; [|intros [= <- <-]; auto].
  intros [= <- <-]. split; [|by right].
  eapply (tally_inv_bit _ s1 replica); try done; [lia|right; rewrite <-Et; left].
Qed.

Lemma propose_inv got s now s' r :
  tally_inv m local view got s -> propose_next_view s now = (s', r) ->
  tally_inv m local view got s' /\ (r = None \/ r = maybe_start_view_change s').
Proof.
  intros Hinv. pose proof Hinv as (Em & El & Ev & Hle & _). unfold propose_next_view.
  rewrite Em, El, local_not_learner, Ev.
  assert (Counter.next view = view + 1) as -> by (unfold Counter.next, sat_add; lia).
  intros [= <- <-]. split; [|by right]. apply tally_inv_join.
  - destruct (Z.ltb_spec (pr_svc_target s) (view + 1)); [|done].
    apply tally_inv_reset; [done|lia].
  - destruct (Z.ltb_spec (pr_svc_target s) (view + 1)); simpl; lia.
Qed.

Lemma tallied_inv got s r :
  tallied m local view got s r ->
  tally_inv m local view got s /\ (r = None \/ r = maybe_start_view_change s).
Proof.
  induction 1 as [|got s r now target replica s' r' _ [IH _] Hr E|got s r now s' r' _ [IH _] E
    |got s r now st s' r' _ [IH _] E].
  - split; [|by left]. split_and!; simpl; try done. intros i _. by rewrite Z.bits_0.
  - by eapply receive_inv.
  - by eapply propose_inv.
  - unfold maybe_forfeit in E. case_match; [injection E as <- <-; by auto using tally_inv_forfeit|].
    destruct st, (pr_forfeit_armed s); try (injection E as <- <-; by auto using tally_inv_forfeit).
    case_match; [|injection E as <- <-; by auto].
    unfold forfeit in E. eapply propose_inv; [|done]. by apply tally_inv_forfeit.
Qed.
End tally.

(** ** Convergence *)

Definition slots_of (b : Z) : gset Z := list_to_set (bit_slots b).

Lemma elem_slots_of b i : i ∈ slots_of b <-> 0 <= i < 64 /\ Z.testbit b i = true.
Proof. unfold slots_of. by rewrite elem_of_list_to_set, elem_bit_slots. Qed.

Lemma size_slots_of b : Z.of_nat (size (slots_of b)) = count_ones b.
Proof. unfold slots_of, count_ones. by rewrite size_list_to_set by apply NoDup_bit_slots. Qed.

Lemma slots_of_lor b i : 0 <= i < 64 -> slots_of (Z.lor b (bit i)) = slots_of b ∪ {[i]}.
Proof.
  intros Hi. apply set_eq. intros j. rewrite elem_of_union, elem_of_singleton, !elem_slots_of.
  split.
  - intros [Hj Hb]. rewrite Z.lor_spec, orb_true_iff, testbit_bit, Z.eqb_eq in Hb by lia. tauto.
  - intros [[Hj Hb]| ->]; (split; [lia|]); rewrite Z.lor_spec, orb_true_iff, testbit_bit, Z.eqb_eq by lia; auto.
Qed.

Lemma slots_of_zero : slots_of 0 = ∅.
Proof. reflexivity. Qed.

(** Receiving one target from a list of voters. *)
Definition receive_all (now : Z) (target : View) (acc : Proposer * option View)
    (senders : list ReplicaId) : Proposer * option View :=
  foldl (fun acc replica => on_start_view_change (fst acc) now target replica) acc senders.

Section converge.
Context (m : Membership) (local : MemberId) (view target : View) (now : Z).
Context (Hwf : wf m) (Hlocal : endpoint_is_voter m local = true) (Hlt : view < target).

(** Where a voter stands once it joined [target]. *)
Definition joined (S : gset Z) (s : Proposer) : Prop :=
  pr_membership s = m /\ pr_local s = local /\ pr_view s = view /\ pr_svc_target s = target /\
  slots_of (pr_svc_from s) = S.

Lemma joined_receive S s replica s' r :
  joined S s -> 0 <= replica < m_replica_count m ->
  on_start_view_change s now target replica = (s', r) ->
  joined (S ∪ {[replica]}) s' /\ r = maybe_start_view_change s'.
Proof.
  intros (Em & El & Ev & Et & ES) Hr. unfold on_start_view_change.
  rewrite Em, El, (local_not_learner m local Hlocal), Ev, Et.
  rewrite (proj2 (Z.leb_gt target view)) by lia. rewrite (proj2 (Z.leb_gt _ replica)) by lia.
  rewrite Z.ltb_irrefl, Et, Z.eqb_refl. intros [= <- <-]. split; [|done].
  pose proof Hwf as (? & _). unfold joined. simpl. rewrite slots_of_lor, ES by lia. done.
Qed.

Lemma first_receive s replica s' r :
  pr_membership s = m -> pr_local s = local -> pr_view s = view -> pr_svc_target s < target ->
  0 <= replica < m_replica_count m ->
  on_start_view_change s now target replica = (s', r) ->
  joined ({[local_slot s]} ∪ {[replica]}) s' /\ r = maybe_start_view_change s'.
Proof.
  intros Em El Ev Ht Hr. unfold on_start_view_change.
  rewrite Em, El, (local_not_learner m local Hlocal), Ev.
  rewrite (proj2 (Z.leb_gt target view)) by lia. rewrite (proj2 (Z.leb_gt _ replica)) by lia.
  rewrite (proj2 (Z.ltb_lt _ _)) by lia. simpl. rewrite Z.eqb_refl. intros [= <- <-].
  split; [|done]. pose proof Hwf as (? & _).
  pose proof (local_slot_voter m local Hwf Hlocal (set_svc s target 0) Em El) as Hl.
  unfold joined. simpl. split_and!; try done.
  rewrite slots_of_lor by lia. change (Z.lor 0 (bit (local_slot (set_svc s target 0))))
    with (Z.lor 0 (bit (local_slot s))).
  rewrite slots_of_lor by (unfold local_slot in *; simpl in *; lia). rewrite slots_of_zero. set_solver.
Qed.

Lemma joined_all S s senders :
  joined S s -> Forall (fun r => 0 <= r < m_replica_count m) senders ->
  forall r0, r0 = maybe_start_view_change s ->
  let acc := receive_all now target (s, r0) senders in
  joined (S ∪ list_to_set senders) (fst acc) /\ snd acc = maybe_start_view_change (fst acc).
Proof.
  intros HS HF. revert S s HS. induction HF as [|x l Hx HF IH]; intros S s HS r0 Hr0 acc; simpl in *.
  { split; [|done]. by rewrite union_empty_r_L. }
  unfold acc, receive_all. cbn [foldl fst].
  destruct (on_start_view_change s now target x) as [s1 r1] eqn:E.
  destruct (joined_receive S s x s1 r1 HS Hx E) as [HS1 Hr1].
  destruct (IH _ _ HS1 r1 Hr1) as [HJ HR]. split; [|exact HR].
  by rewrite (assoc_L (∪)).
Qed.
End converge.

(** A view change is driven only by a quorum: whatever proposals arrive and in
    whatever order, and however often the voter itself proposes or forfeits, a
    transition is driven only to a view strictly above the current one, and only
    when a view-change quorum of voting slots, each the voter itself or the sender
    of a received proposal for exactly that view, stands behind it. *)
Theorem proposal_needs_quorum m local view got s target :
  wf m -> endpoint_is_voter m local = true -> 0 <= view < umax 64 ->
  tallied m local view got s (Some target) ->
  view < target /\
  exists V : gset Z, V ⊆ voting_slots m /\ quorum_view_change m <= Z.of_nat (size V) /\
    forall i, i ∈ V -> i = local_slot s \/ (i, target) ∈ got.
Proof.
  intros Hwf Hl Hv H. apply tallied_inv in H as [Hinv Hr]; [|done|done|lia].
  destruct Hr as [|Hr]; [done|]. unfold maybe_start_view_change in Hr.
  destruct (Z.leb_spec (quorum_view_change (pr_membership s)) (count_ones (pr_svc_from s))) as [Hq|];
    [|done].
  destruct Hinv as (Em & El & Ev & Hle & Hlt & Hbits). injection Hr as ->. rewrite Em in Hq.
  split.
  - apply Hlt. intros E. rewrite E in Hq. change (count_ones 0) with 0 in Hq.
    pose proof (quorum_nack_pos m Hwf). unfold quorum_nack_prepare, quorum_view_change in *. lia.
  - exists (slots_of (pr_svc_from s)). split_and!.
    + intros i [Hi Hb]%elem_slots_of. apply elem_voting_slots.
      destruct (Hbits i ltac:(lia) Hb) as [? _]. lia.
    + by rewrite size_slots_of.
    + intros i [Hi Hb]%elem_slots_of. by apply Hbits; [lia|].
Qed.

Definition sample_proposer : Proposer := mkProposer sample 10 4 4 0 None None false [].

Lemma proposal_needs_quorum_witness :
  exists s, tallied sample 10 4 [(1, 9)] s (Some 9) /\ 4 < 9 /\
  exists V : gset Z, V ⊆ voting_slots sample /\ quorum_view_change sample <= Z.of_nat (size V) /\
    forall i, i ∈ V -> i = local_slot s \/ (i, 9) ∈ [(1, 9)].
Proof.
  assert (exists s, tallied sample 10 4 [(1, 9)] s (Some 9)) as [s Hs].
  { eexists. eapply (tallied_receive _ _ _ [] sample_proposer None 0 9 1); [constructor|lia|].
    vm_compute. reflexivity. }
  exists s. split; [exact Hs|].
  apply (proposal_needs_quorum sample 10 4 [(1, 9)] s 9);
    [exact sample_wf|reflexivity|unfold umax; lia|exact Hs].
Defined.

(** Forked views always reconverge: a voter at any lower view, with any lower
    target, that receives one proposal for [target] from enough voters to make a
    view-change quorum with its own slot drives the change to [target], at any
    distance from its own view. *)
Theorem proposals_converge s now target senders :
  wf (pr_membership s) -> endpoint_is_voter (pr_membership s) (pr_local s) = true ->
  pr_view s < target -> pr_svc_target s < target -> senders <> [] ->
  Forall (fun r => 0 <= r < m_replica_count (pr_membership s)) senders ->
  quorum_view_change (pr_membership s) <=
    Z.of_nat (size ({[local_slot s]} ∪ list_to_set (C := gset Z) senders)) ->
  snd (receive_all now target (s, None) senders) = Some target.
Proof.
  intros Hwf Hl Hv Ht Hne HF Hq. destruct senders as [|x l]; [done|].
  apply Forall_cons in HF as [Hx HF]. unfold receive_all. cbn [foldl fst].
  destruct (on_start_view_change s now target x) as [s1 r1] eqn:E.
  destruct (first_receive (pr_membership s) (pr_local s) (pr_view s) target now Hwf Hl Hv s x s1 r1)
    as [HJ Hr]; try done.
  destruct (joined_all (pr_membership s) (pr_local s) (pr_view s) target now Hwf Hl Hv _ s1 l HJ HF
    r1 Hr) as [(Em & _ & _ & Et & ES) HR].
  unfold receive_all in *. rewrite HR. unfold maybe_start_view_change.
  rewrite Em, Et, <-size_slots_of, ES, <-(assoc_L (∪)).
  by rewrite (proj2 (Z.leb_le _ _)).
Qed.

Lemma proposals_converge_witness :
  snd (receive_all 0 9 (sample_proposer, None) [2]) = Some 9.
Proof.
  apply (proposals_converge sample_proposer 0 9 [2]);
    [exact sample_wf|reflexivity|simpl; lia|simpl; lia|done| |vm_compute; discriminate].
  repeat constructor; simpl; lia.
Defined.

(** ** The forfeit grace window *)

(** The primary's ticks, newest first, each with the sampled stuck condition. *)
Inductive ticked (m : Membership) : list (Z * bool) -> Proposer -> Prop :=
| ticked_start s :
    pr_membership s = m -> pr_forfeit_armed s = None -> pr_pending_forfeit s = false -> ticked m [] s
| ticked_tick h s now st s' r :
    ticked m h s -> pr_pending_forfeit s = false -> maybe_forfeit s now st = (s', r) ->
    ticked m ((now, st) :: h) s'.

(** The recorded ticks show the primary stuck at every tick since [t0]. *)
Definition stuck_since (t0 : Z) (h : list (Z * bool)) : Prop :=
  exists recent older, h = recent ++ (t0, true) :: older /\ Forall (fun x => x.2 = true) recent.

Lemma propose_membership s now s' r :
  propose_next_view s now = (s', r) -> pr_membership s' = pr_membership s.
Proof.
  unfold propose_next_view. case_match; [by intros [= <- _]|]. intros [= <- _]. simpl.
  by case_match.
Qed.

Lemma ticked_armed m h s :
  ticked m h s -> pr_membership s = m /\
  (pr_pending_forfeit s = false ->
   forall d, pr_forfeit_armed s = Some d ->
   exists t0, stuck_since t0 h /\ d = Time.instant_add t0 FORFEIT_GRACE).
Proof.
  induction 1 as [s Em Ea Ep|h s now st s' r _ [Em IH] Hp E].
  - split; [done|]. intros _ d Hd. congruence.
  - unfold maybe_forfeit in E. specialize (IH Hp).
    case_match; [injection E as <- _; by split|].
    destruct st; [|injection E as <- _; by split].
    destruct (pr_forfeit_armed s) as [d|] eqn:Ed.
    + case_match.
      * split; [unfold forfeit in E; apply propose_membership in E; by rewrite E|].
        unfold forfeit, propose_next_view in E. intros Hpf. exfalso.
        case_match; injection E as <- _; simpl in Hpf; [done|]. by case_match.
      * injection E as <- _. split; [done|]. intros _ d' Hd'. simplify_eq.
        destruct (IH _ eq_refl) as (t0 & (recent & older & -> & Hall) & ->).
        exists t0. split; [|done]. exists ((now, true) :: recent), older. split; [done|by constructor].
    + injection E as <- _. split; [done|]. intros _ d Hd. simpl in Hd. injection Hd as <-.
      exists now. split; [|done]. by exists [], h.
Qed.

(** A primary forfeits only after the full grace window: it steps down at a
    tick only if it is stuck now and was stuck at every tick since one at least
    [FORFEIT_GRACE] earlier; a single caught-up tick in between starts the window
    afresh, and a solo voter never forfeits. *)
Theorem forfeit_only_after_grace m h s now st s' r :
  ticked m h s -> pr_pending_forfeit s = false -> maybe_forfeit s now st = (s', r) ->
  pr_pending_forfeit s' = true ->
  st = true /\ 1 < m_replica_count m /\
  exists t0, stuck_since t0 h /\ Time.instant_add t0 FORFEIT_GRACE <= now.
Proof.
  intros Ht Hp E Hp'. apply ticked_armed in Ht as [Em IH]. specialize (IH Hp).
  unfold maybe_forfeit in E. rewrite Em in E.
  destruct (Z.leb_spec (m_replica_count m) 1); [injection E as <- _; simpl in Hp'; congruence|].
  destruct st; [|injection E as <- _; simpl in Hp'; congruence].
  destruct (pr_forfeit_armed s) as [d|] eqn:Ed; [|injection E as <- _; simpl in Hp'; congruence].
  destruct (Z.leb_spec d now); [|injection E as <- _; congruence].
  destruct (IH d eq_refl) as (t0 & Hs & ->). eauto.
Qed.

Lemma forfeit_only_after_grace_witness :
  true = true /\ 1 < m_replica_count sample /\
  exists t0, stuck_since t0 [(0, true)] /\ Time.instant_add t0 FORFEIT_GRACE <= 300000000.
Proof.
  eapply (forfeit_only_after_grace sample [(0, true)]
    (fst (maybe_forfeit sample_proposer 0 true)) 300000000 true).
  - eapply (ticked_tick _ [] sample_proposer); [by constructor|done|].
    vm_compute. reflexivity.
  - reflexivity.
  - vm_compute. reflexivity.
  - reflexivity.
Defined.
