(* ===== verification/Protocol.v ===== *)
(** * Agreement across views

    The protocol the handlers of [endpoint/normal.rs] and
    [endpoint/view_change.rs] run together, as a step relation over the voters of
    one configuration: minting and replicating operations in a view, voting for
    a later view with the endpoint's own [DoViewChange], forming a view by
    [select_canonical_log], adopting a formed view and learning commits.
    Replica state is what the code makes durable (view, log view, log), so a
    crash and recovery is no step; messages may be delayed, reordered,
    duplicated or lost, since a step may use any vote ever sent.  Checkpoints
    are not taken in this model: every vote carries its whole log. *)

From S2P Require Import Prelude Core Hash Membership Codec Message BTree ViewChange Votes.

(** ** Logs *)

(** An operation's identity: client, request number, body checksum. *)
Definition Op : Type := ClientId * RequestNumber * Z.

Record Log : Type := mkLog { lg_op : OpNumber; lg_map : gmap Z Op }.

Definition log_wf (l : Log) : Prop :=
  0 <= lg_op l /\ forall n, is_Some (lg_map l !! n) <-> 1 <= n <= lg_op l.

(** [a] is a prefix of [b]. *)
Definition log_le (a b : Log) : Prop := lg_op a <= lg_op b /\ lg_map a ⊆ lg_map b.

Definition log_empty : Log := mkLog 0 ∅.

Definition log_append (l : Log) (x : Op) : Log :=
  mkLog (lg_op l + 1) (<[lg_op l + 1 := x]> (lg_map l)).

Definition op_entry (x : Op) : LogEntry := mkLogEntry x.1.1 x.1.2 (Repairing x.2).

(** The in-memory log of the endpoint, in op order. *)
Definition log_btree (l : Log) : btree LogEntry :=
  omap (fun n => (fun x => (n, op_entry x)) <$> lg_map l !! n) (seqZ 1 (lg_op l)).

Lemma log_empty_wf : log_wf log_empty.
Proof. split; [done|]. intros n. simpl. rewrite lookup_empty. split; [by intros [? ?]|lia]. Qed.

Lemma log_append_wf l x : log_wf l -> log_wf (log_append l x).
Proof.
  intros [Hop Hdom]. split; simpl; [lia|]. intros n.
  destruct (decide (n = lg_op l + 1)) as [->|Hne].
  - rewrite lookup_insert_eq. split; [lia|eauto].
  - rewrite lookup_insert_ne, Hdom by done. lia.
Qed.

Lemma log_append_le l x : log_wf l -> log_le l (log_append l x).
Proof.
  intros [Hop Hdom]. split; simpl; [lia|]. apply insert_subseteq.
  apply eq_None_not_Some. rewrite Hdom. lia.
Qed.

Lemma log_le_refl l : log_le l l.
Proof. by split. Qed.

Lemma log_le_trans a b c : log_le a b -> log_le b c -> log_le a c.
Proof. intros [] []. split; [lia|by etrans]. Qed.

Lemma log_le_lookup a b n x : log_le a b -> lg_map a !! n = Some x -> lg_map b !! n = Some x.
Proof. intros [_ H] Hx. exact (lookup_weaken _ _ _ _ Hx H). Qed.

(** Extending a prefix by the next entry of the longer log. *)
Lemma log_append_prefix a b x :
  log_wf a -> log_wf b -> log_le a b -> lg_map b !! (lg_op a + 1) = Some x ->
  log_le (log_append a x) b.
Proof.
  intros Ha [_ Hb] [_ Hsub] Hx. split; simpl.
  - destruct (Hb (lg_op a + 1)) as [H _]. destruct H; [by eexists|lia].
  - by apply insert_subseteq_l.
Qed.

(** ** Votes *)

Record Rep : Type := mkRep {
  r_view : View;
  r_log_view : View;
  r_commit : OpNumber;
  r_log : Log;
}.

Definition rep_voter (m : Membership) (slot : ReplicaId) (view : View) (r : Rep) : Voter :=
  mkVoter view (r_log_view r) (lg_op (r_log r)) (r_commit r) 0 m slot (log_btree (r_log r)).

(** The vote replica [slot] casts for [view]. *)
Definition rep_dvc (m : Membership) (slot : ReplicaId) (view : View) (r : Rep) : DoViewChange :=
  own_dvc (rep_voter m slot view r).

Lemma elem_rep_dvc m slot view r e :
  e ∈ d_log (rep_dvc m slot view r) <->
  1 <= e_op e <= lg_op (r_log r) /\ lg_map (r_log r) !! e_op e = Some (identity e) /\
  e = entry_repairing (e_op e) (e_client e) (e_request e) (body_checksum (e_body e)).
Proof.
  unfold rep_dvc, own_dvc, log_entries. simpl.
  change (map ?f ?l) with (f <$> l). rewrite list_elem_of_fmap. split.
  - intros ([n le] & -> & Hin). unfold log_btree in Hin.
    apply list_elem_of_omap in Hin as (n' & Hn%elem_of_seqZ & Hx).
    destruct (lg_map (r_log r) !! n') as [[[c q] cs]|] eqn:E; simplify_eq/=.
    unfold identity. simpl. split; [lia|done].
  - intros (Hn & Hx & He). destruct e as [n c q b]. simpl in *.
    exists (n, op_entry (identity (mkEntry n c q b))). split; [by rewrite He|].
    unfold log_btree. apply list_elem_of_omap. exists n.
    split; [apply elem_of_seqZ; lia|]. apply fmap_Some. eexists. split; [exact Hx|done].
Qed.

(** ** The network *)

Definition upd {A} (f : Z -> A) (k : Z) (a : A) : Z -> A := fun x => if x =? k then a else f x.

Lemma upd_eq {A} (f : Z -> A) k a : upd f k a k = a.
Proof. unfold upd. by rewrite Z.eqb_refl. Qed.
Lemma upd_ne {A} (f : Z -> A) k a x : x <> k -> upd f k a x = f x.
Proof. intros. unfold upd. by rewrite (proj2 (Z.eqb_neq x k)). Qed.

(** The replicas, the votes sent, and the history of each formed view: its
    starting log, its primary's log so far, the votes it was formed from, and the
    head each replica acknowledged in it. *)
Record Net : Type := mkNet {
  n_rep : ReplicaId -> Rep;
  n_votes : list DoViewChange;
  n_base : View -> Log;
  n_vlog : View -> option Log;
  n_formed : View -> list DoViewChange;
  n_ack : View -> ReplicaId -> OpNumber;
}.

Definition net_init : Net :=
  mkNet (fun _ => mkRep 0 0 0 log_empty) [] (fun _ => log_empty)
    (fun v => if v =? 0 then Some log_empty else None) (fun _ => []) (fun _ _ => 0).

(** Replica [r] now has state [s] in view [v], acknowledging its head there. *)
Definition set_normal (net : Net) (r : ReplicaId) (s : Rep) : Net :=
  mkNet (upd (n_rep net) r s) (n_votes net) (n_base net) (n_vlog net) (n_formed net)
    (upd (n_ack net) (r_view s) (upd (n_ack net (r_view s)) r (lg_op (r_log s)))).

Definition set_vlog (net : Net) (v : View) (l : Log) : Net :=
  mkNet (n_rep net) (n_votes net) (n_base net) (upd (n_vlog net) v (Some l)) (n_formed net)
    (n_ack net).

Definition open_view (net : Net) (v : View) (l : Log) (dvcs : list DoViewChange) : Net :=
  mkNet (n_rep net) (n_votes net) (upd (n_base net) v l) (upd (n_vlog net) v (Some l))
    (upd (n_formed net) v dvcs) (n_ack net).

Definition selected_log (s : Selection) : Log :=
  mkLog (s_op_head s) (list_to_map (map (fun e => (e_op e, identity e)) (s_log s))).

Section protocol.
Context (m : Membership) (Hwf : wf m).

(** Op [n] is acknowledged in view [v] by a replication quorum. *)
Definition committed (net : Net) (v : View) (n : OpNumber) : Prop :=
  1 <= n /\ exists Q : gset Z, Q ⊆ voting_slots m /\ quorum m <= Z.of_nat (size Q) /\
    forall r, r ∈ Q -> n <= n_ack net v r.

Inductive step : Net -> Net -> Prop :=
| step_mint net r s x :
    r ∈ voting_slots m -> n_rep net r = s -> r_log_view s = r_view s ->
    primary m (r_view s) = r -> lg_op (r_log s) + 1 < umax 64 ->
    step net (set_normal (set_vlog net (r_view s) (log_append (r_log s) x)) r
                (mkRep (r_view s) (r_view s) (r_commit s) (log_append (r_log s) x)))
| step_prepare net r s l x :
    r ∈ voting_slots m -> n_rep net r = s -> r_log_view s = r_view s ->
    primary m (r_view s) <> r -> n_vlog net (r_view s) = Some l ->
    lg_map l !! (lg_op (r_log s) + 1) = Some x ->
    step net (set_normal net r
                (mkRep (r_view s) (r_view s) (r_commit s) (log_append (r_log s) x)))
| step_vote net r s v :
    r ∈ voting_slots m -> n_rep net r = s -> r_view s < v ->
    step net (mkNet (upd (n_rep net) r (mkRep v (r_log_view s) (r_commit s) (r_log s)))
                (rep_dvc m r v s :: n_votes net) (n_base net) (n_vlog net) (n_formed net)
                (n_ack net))
| step_form net r s dvcs sel :
    r ∈ voting_slots m -> n_rep net r = s -> r_log_view s < r_view s ->
    primary m (r_view s) = r -> vote_quorum m dvcs ->
    Forall (fun d => d ∈ n_votes net /\ d_view d = r_view s) dvcs ->
    select_canonical_log m dvcs = Some sel ->
    step net (set_normal (open_view net (r_view s) (selected_log sel) dvcs) r
                (mkRep (r_view s) (r_view s) (Z.max (r_commit s) (s_commit sel))
                   (selected_log sel)))
| step_adopt net r s v l lv :
    r ∈ voting_slots m -> n_rep net r = s -> primary m v <> r -> r_view s <= v ->
    r_log_view s < v -> n_vlog net v = Some lv -> log_wf l ->
    log_le (n_base net v) l -> log_le l lv ->
    step net (set_normal net r (mkRep v v (r_commit s) l))
| step_commit net r s n :
    r ∈ voting_slots m -> n_rep net r = s -> r_log_view s = r_view s ->
    committed net (r_view s) n ->
    step net (mkNet (upd (n_rep net) r
                       (mkRep (r_view s) (r_view s) (Z.max (r_commit s) n) (r_log s)))
                (n_votes net) (n_base net) (n_vlog net) (n_formed net) (n_ack net)).

Inductive reachable : Net -> Prop :=
| reach_init : reachable net_init
| reach_step net net' : reachable net -> step net net' -> reachable net'.

(** ** Invariant *)

(** Whatever a replica counts committed was committed in some view it reached. *)
Definition commit_ok (net : Net) (lv : View) (c : OpNumber) : Prop :=
  c = 0 \/ exists v, v <= lv /\ committed net v c.

(** A log of generation [lv]: between the start of that view and its primary's log. *)
Definition log_in_view (net : Net) (lv : View) (l : Log) : Prop :=
  log_wf l /\ exists L, n_vlog net lv = Some L /\ log_le (n_base net lv) l /\ log_le l L.

(** Acks of [r] stop at log view [lv] with head [op]. *)
Definition acks_below (net : Net) (r : ReplicaId) (v lv : View) (op : OpNumber) : Prop :=
  0 < n_ack net v r -> v <= lv /\ (v = lv -> n_ack net v r <= op).

Definition rep_ok (net : Net) (r : ReplicaId) (s : Rep) : Prop :=
  0 <= r_log_view s <= r_view s /\ 0 <= r_commit s /\ log_in_view net (r_log_view s) (r_log s) /\
  commit_ok net (r_log_view s) (r_commit s) /\
  (forall v, acks_below net r v (r_log_view s) (lg_op (r_log s))) /\
  (primary m (r_log_view s) = r -> n_vlog net (r_log_view s) = Some (r_log s)).

Definition vote_ok (net : Net) (d : DoViewChange) : Prop :=
  exists s, d = rep_dvc m (d_replica d) (d_view d) s /\ d_replica d ∈ voting_slots m /\
    0 <= r_log_view s < d_view d /\ d_view d <= r_view (n_rep net (d_replica d)) /\
    0 <= r_commit s /\ log_in_view net (r_log_view s) (r_log s) /\
    commit_ok net (r_log_view s) (r_commit s) /\
    (forall v, v < d_view d -> acks_below net (d_replica d) v (r_log_view s) (lg_op (r_log s))).

Definition formed_ok (net : Net) (v : View) : Prop :=
  vote_quorum m (n_formed net v) /\
  Forall (fun d => d ∈ n_votes net /\ d_view d = v) (n_formed net v) /\
  exists sel, select_canonical_log m (n_formed net v) = Some sel /\
    n_base net v = selected_log sel.

Definition view_ok (net : Net) (v : View) (l : Log) : Prop :=
  0 <= v /\ log_wf l /\ lg_op l < umax 64 /\ log_wf (n_base net v) /\ log_le (n_base net v) l /\
  (v = 0 \/ formed_ok net v) /\ v <= r_log_view (n_rep net (primary m v)).

Definition net_inv (net : Net) : Prop :=
  (forall r, r ∈ voting_slots m -> rep_ok net r (n_rep net r)) /\
  (forall d, d ∈ n_votes net -> vote_ok net d) /\
  (forall v l, n_vlog net v = Some l -> view_ok net v l) /\
  (forall v r, 0 < n_ack net v r -> exists l, n_vlog net v = Some l /\ n_ack net v r <= lg_op l).

(** ** What a step of [r] leaves alone *)

Definition extends (r : ReplicaId) (net net' : Net) : Prop :=
  (forall v l, n_vlog net v = Some l ->
     n_base net' v = n_base net v /\ n_formed net' v = n_formed net v /\
     exists l', n_vlog net' v = Some l' /\ log_le l l') /\
  (forall v, n_vlog net' v = n_vlog net v \/ primary m v = r) /\
  (forall v r', n_ack net v r' <= n_ack net' v r') /\
  (forall v r', n_ack net' v r' = n_ack net v r' \/ (r' = r /\ r_view (n_rep net r) <= v)) /\
  (forall d, d ∈ n_votes net -> d ∈ n_votes net') /\
  (forall r', r' <> r -> n_rep net' r' = n_rep net r') /\
  r_view (n_rep net r) <= r_view (n_rep net' r) /\
  r_log_view (n_rep net r) <= r_log_view (n_rep net' r).

Lemma committed_mono r net net' v n : extends r net net' -> committed net v n -> committed net' v n.
Proof.
  intros (_ & _ & Hack & _) (Hn & Q & HQ & Hsize & HQa). split; [done|].
  exists Q. split_and!; [done..|]. intros x Hx. specialize (HQa x Hx). specialize (Hack v x). lia.
Qed.

Lemma commit_ok_mono r net net' lv c :
  extends r net net' -> commit_ok net lv c -> commit_ok net' lv c.
Proof. intros He [->|(v & Hv & Hc)]; [by left|right]. eauto using committed_mono. Qed.

Lemma log_in_view_mono r net net' lv l :
  extends r net net' -> log_in_view net lv l -> log_in_view net' lv l.
Proof.
  intros (Hv & _) (Hl & L & HL & Hb & Hle). destruct (Hv lv L HL) as (Eb & _ & L' & HL' & HLL').
  split; [done|]. exists L'. rewrite Eb. eauto using log_le_trans.
Qed.

Lemma vote_ok_mono r net net' d : extends r net net' -> vote_ok net d -> vote_ok net' d.
Proof.
  intros He (s & Hd & Hr & Hlv & Hview & Hc & Hlog & Hcok & Hacks).
  pose proof He as (_ & _ & _ & Hack & _ & Hother & Hvw & _).
  exists s. split_and!; try done; try lia.
  - destruct (decide (d_replica d = r)) as [E|Hne]; [subst r; lia|]. by rewrite Hother.
  - by eapply log_in_view_mono.
  - by eapply commit_ok_mono.
  - intros v Hv. unfold acks_below. destruct (Hack v (d_replica d)) as [->|[E Hge]]; [by apply Hacks|].
    rewrite E in *. lia.
Qed.

Lemma rep_ok_mono r net net' r' :
  extends r net net' -> r' <> r -> rep_ok net r' (n_rep net r') -> rep_ok net' r' (n_rep net' r').
Proof.
  intros He Hne (H1 & H2 & Hlog & Hc & Hacks & Hp).
  pose proof He as (_ & Hprim & _ & Hack & _ & Hother & _). rewrite (Hother r' Hne).
  split_and!; try lia.
  - by eapply log_in_view_mono.
  - by eapply commit_ok_mono.
  - intros v. unfold acks_below. destruct (Hack v r') as [->|[? _]]; [apply Hacks|done].
  - intros Hpr. destruct (Hprim (r_log_view (n_rep net r'))) as [->|]; [auto|congruence].
Qed.

Lemma view_ok_mono r net net' v l :
  extends r net net' -> view_ok net v l -> n_vlog net v = Some l -> n_vlog net' v = Some l ->
  view_ok net' v l.
Proof.
  intros (Hv & _ & _ & _ & Hvotes & Hother & _ & Hlv) (H0 & Hl & Hop & Hbw & Hb & Hf & Hp) Hl1 Hl2.
  destruct (Hv v l Hl1) as (Eb & Ef & _). unfold view_ok, formed_ok. rewrite Eb, Ef.
  split_and!; try done.
  - destruct Hf as [|(Hq & Hall & Hsel)]; [by left|right]. split_and!; [done| |done].
    eapply Forall_impl; [exact Hall|]. simpl. intros d [? ?]. auto.
  - destruct (decide (primary m v = r)) as [E|]; [rewrite E in *; lia|]. by rewrite Hother.
Qed.

(** A step of [r] preserves the invariant once its own new state, its new votes
    and the views it changed are checked. *)
Lemma inv_step r net net' :
  net_inv net -> extends r net net' -> rep_ok net' r (n_rep net' r) ->
  (forall d, d ∈ n_votes net' -> d ∈ n_votes net \/ vote_ok net' d) ->
  (forall v l, n_vlog net' v = Some l -> n_vlog net v = Some l \/ view_ok net' v l) ->
  (forall v, n_ack net' v r = n_ack net v r \/
     (v = r_log_view (n_rep net' r) /\ n_ack net' v r = lg_op (r_log (n_rep net' r)))) ->
  net_inv net'.
Proof.
  intros (Hreps & Hvotes & Hviews & Hacks) He Hr Hnew Hnv Hna. split_and!.
  - intros r' Hr'. destruct (decide (r' = r)) as [->|]; [done|]. eapply rep_ok_mono; eauto.
  - intros d Hd. destruct (Hnew d Hd); [|done]. eapply vote_ok_mono; eauto.
  - intros v l Hl. destruct (Hnv v l Hl); [|done]. eapply view_ok_mono; eauto.
  - intros v r' Hpos. pose proof He as (Hv & _ & _ & Hack & _).
    assert (n_ack net' v r' = n_ack net v r' \/
      (r' = r /\ v = r_log_view (n_rep net' r) /\ n_ack net' v r = lg_op (r_log (n_rep net' r))))
      as [E|(-> & -> & ->)].
    { destruct (Hack v r') as [|[-> _]]; [by left|]. destruct (Hna v) as [|[? ?]]; auto. }
    + rewrite E in *. destruct (Hacks v r' Hpos) as (l & Hl & Hle).
      destruct (Hv v l Hl) as (_ & _ & l' & Hl' & [Hop _]). exists l'. split; [done|lia].
    + destruct Hr as (_ & _ & (_ & L & HL & _ & [Hop _]) & _). eauto.
Qed.

(** ** Sent votes *)

Lemma vote_fields slot view s :
  d_view (rep_dvc m slot view s) = view /\ d_log_view (rep_dvc m slot view s) = r_log_view s /\
  d_op (rep_dvc m slot view s) = lg_op (r_log s) /\
  d_commit (rep_dvc m slot view s) = Z.min (r_commit s) (lg_op (r_log s)) /\
  d_checkpoint_op (rep_dvc m slot view s) = 0 /\ d_replica (rep_dvc m slot view s) = slot.
Proof. done. Qed.

Lemma vote_covers slot view s n :
  log_wf (r_log s) -> 1 <= n -> covers n (rep_dvc m slot view s) <-> n <= lg_op (r_log s).
Proof.
  intros [_ Hdom] Hn. split.
  - intros [Hle|(e & He & <-)]; [simpl in Hle; lia|].
    apply elem_rep_dvc in He as [? _]. lia.
  - intros Hle. right. destruct (proj2 (Hdom n)) as [[[c q] cs] Hx]; [lia|].
    exists (entry_repairing n c q cs). split; [|done].
    apply elem_rep_dvc. split; [simpl; lia|]. split; [exact Hx|done].
Qed.

Section votes.
Context (net : Net) (Hinv : net_inv net) (dvcs : list DoViewChange) (view : View).
Context (Hsent : Forall (fun d => d ∈ n_votes net /\ d_view d = view) dvcs).

Lemma sent_vote d :
  d ∈ dvcs -> d_view d = view /\ vote_ok net d.
Proof.
  intros Hd. eapply Forall_forall in Hsent as [? ?]; [|exact Hd].
  destruct Hinv as (_ & Hv & _). auto.
Qed.

Lemma sent_head_lt s : log_in_view net (r_log_view s) (r_log s) -> lg_op (r_log s) < umax 64.
Proof.
  intros (_ & L & HL & _ & [Hle _]). destruct Hinv as (_ & _ & Hviews & _).
  destruct (Hviews _ _ HL) as (_ & _ & ? & _). lia.
Qed.

Lemma sent_widths : Forall dvc_widths dvcs.
Proof.
  apply Forall_forall. intros d Hd.
  destruct (sent_vote d Hd) as (_ & s & -> & _ & Hlv & _ & Hc & Hlog & _).
  pose proof (sent_head_lt s Hlog). destruct Hlog as [[? _] _].
  unfold dvc_widths. cbn -[umax]. lia.
Qed.

Lemma sent_honest : Forall dvc_honest dvcs.
Proof.
  apply Forall_forall. intros d Hd.
  destruct (sent_vote d Hd) as (_ & s & -> & _ & Hlv & _ & Hc & Hlog & _).
  destruct Hlog as [[? _] _]. split; [simpl; lia|].
  apply Forall_forall. intros e [He _]%elem_rep_dvc. simpl. lia.
Qed.

Lemma sent_floor : floor_star dvcs <= 0.
Proof.
  unfold floor_star. apply Z.min_le_iff. left.
  assert (forall l, Forall (fun x => x <= 0) l -> max_or_zero l <= 0) as H
    by (induction 1; simpl; lia).
  apply H. rewrite Forall_map. apply Forall_forall. intros d [Hd _]%elem_canonical.
  by destruct (sent_vote d Hd) as (_ & s & -> & _).
Qed.
End votes.

(** ** Selected logs *)

Lemma sorted_ops_NoDup l :
  StronglySorted (fun a b => e_op a < e_op b) l ->
  NoDup (map (fun e => (e_op e, identity e)) l).*1.
Proof.
  induction 1 as [|e l Hs IH Hlt]; [constructor|]. cbn. apply NoDup_cons. split; [|done].
  intros ([k x] & E & Hin)%list_elem_of_fmap. simpl in E. subst k.
  apply list_elem_of_fmap in Hin as (e' & [= E' _] & Hin).
  eapply Forall_forall in Hlt; [|exact Hin]. simpl in Hlt. lia.
Qed.

Lemma selected_lookup sel n x :
  StronglySorted (fun a b => e_op a < e_op b) (s_log sel) ->
  lg_map (selected_log sel) !! n = Some x <->
  exists e, e ∈ s_log sel /\ e_op e = n /\ identity e = x.
Proof.
  intros Hs. unfold selected_log. simpl. split.
  - intros H%elem_of_list_to_map_2. apply list_elem_of_fmap in H as (e & [= -> ->] & He). eauto.
  - intros (e & He & <- & <-). apply elem_of_list_to_map_1; [by apply sorted_ops_NoDup|].
    apply list_elem_of_fmap. eauto.
Qed.

Lemma selected_wf net dvcs view sel :
  net_inv net -> vote_quorum m dvcs ->
  Forall (fun d => d ∈ n_votes net /\ d_view d = view) dvcs ->
  select_canonical_log m dvcs = Some sel ->
  log_wf (selected_log sel) /\ lg_op (selected_log sel) < umax 64.
Proof.
  intros Hinv Hq Hsent Hsel. pose proof (sent_widths net Hinv dvcs view Hsent) as Hw.
  pose proof (select_Some m dvcs sel Hsel) as (Hc & Hcs & Hf & Hh & Hlog).
  rewrite (truncate_is_scan m dvcs Hwf Hw Hc) in Hh.
  pose proof (scan_head_bounds m dvcs _ _ Hc) as Hb. pose proof (commit_star_nonneg dvcs).
  pose proof (bounded_head_lt dvcs Hw). pose proof (sent_floor net Hinv dvcs view Hsent) as Hfl.
  assert (StronglySorted (fun a b => e_op a < e_op b) (s_log sel)) as Hs
    by (rewrite Hlog; apply merged_log_sorted).
  split; [|simpl; lia]. split; [simpl; lia|]. intros n. split.
  - intros [x (e & He & <- & _)%(selected_lookup sel _ _ Hs)]. rewrite Hlog in He.
    apply elem_merged_log, merged_sound in He as (Hin & _ & Hband). simpl.
    apply elem_carried in Hin as (d & [Hd _]%elem_canonical & He).
    destruct (sent_vote net Hinv dvcs view Hsent d Hd) as (_ & s & E & _). rewrite E in He.
    apply elem_rep_dvc in He as [? _]. lia.
  - simpl. intros Hn. destruct (head_donor dvcs) as (d & Hd & Hge); [|done|].
    { intros ->. destruct Hq as (_ & _ & Hlen). pose proof (quorum_nack_pos m Hwf).
      unfold quorum_nack_prepare, quorum_view_change in *. simpl in *. lia. }
    pose proof Hd as [Hdin _]%elem_canonical.
    destruct (sent_vote net Hinv dvcs view Hsent d Hdin) as (_ & s & E & _ & _ & _ & _ & [Hlw _] & _).
    destruct (proj2 (vote_covers (d_replica d) (d_view d) s n Hlw ltac:(lia))) as [Hcp|(e & He & Hop)].
    { rewrite E in Hge. simpl in Hge. lia. }
    { simpl in Hcp. lia. }
    rewrite <-E in He.
    destruct (merged_complete (s_floor sel) (s_op_head sel) (carried (canonical_of dvcs)) e)
      as (y & Hy & _); [apply elem_carried; eauto|lia|].
    exists (identity y). apply selected_lookup; [done|]. exists y. rewrite Hlog, elem_merged_log.
    pose proof Hy as (_ & E' & _)%merged_sound. rewrite E'. auto with lia.
Qed.

(** ** Agreement *)

Lemma committed_le net v n n' : committed net v n -> 1 <= n' <= n -> committed net v n'.
Proof.
  intros (_ & Q & HQ & Hs & Ha) Hn. split; [lia|]. exists Q. split_and!; [done..|].
  intros r Hr. specialize (Ha r Hr). lia.
Qed.

(** A committed op is in its view's log. *)
Lemma committed_logged net v n :
  net_inv net -> committed net v n ->
  exists l x, n_vlog net v = Some l /\ lg_map l !! n = Some x.
Proof.
  intros (_ & _ & Hviews & Hacks) (Hn & Q & HQ & Hs & Ha).
  destruct (qs_inhabited (U := voting_slots m) Q Hs) as [r Hr]. specialize (Ha r Hr).
  destruct (Hacks v r ltac:(lia)) as (l & Hl & Hle). exists l.
  destruct (Hviews v l Hl) as (_ & [_ Hdom] & _).
  destruct (proj2 (Hdom n)) as [x Hx]; [lia|]. eauto.
Qed.

Section agreement.
Context (net : Net) (Hinv : net_inv net).
Context (v : View) (n : OpNumber) (x : Op) (l : Log).
Context (Hcommit : committed net v n) (Hl : n_vlog net v = Some l) (Hx : lg_map l !! n = Some x).

(** The base of view [lv] holds [n] as [x]. *)
Definition holds (lv : View) : Prop := lg_map (n_base net lv) !! n = Some x.

Context (v' : View) (IH : forall lv L, v < lv < v' -> n_vlog net lv = Some L -> holds lv).

Lemma vote_log s :
  log_in_view net (r_log_view s) (r_log s) -> v < r_log_view s < v' ->
  lg_map (r_log s) !! n = Some x.
Proof.
  intros (_ & L & HL & Hb & _) Hv. eapply log_le_lookup; [exact Hb|]. by eapply IH.
Qed.

Lemma vote_agrees s y :
  log_in_view net (r_log_view s) (r_log s) -> v <= r_log_view s < v' ->
  lg_map (r_log s) !! n = Some y -> y = x.
Proof.
  intros Hlog Hv Hy. destruct (Z.eq_dec v (r_log_view s)) as [E|].
  - destruct Hlog as (_ & L & HL & _ & Hle). rewrite <-E, Hl in HL. simplify_eq.
    pose proof (log_le_lookup _ _ _ _ Hle Hy) as Hy'. congruence.
  - rewrite (vote_log s Hlog) in Hy by lia. congruence.
Qed.

Section quorum.
Context (dvcs : list DoViewChange) (Hlt : v < v').
Context (Hsent : Forall (fun d => d ∈ n_votes net /\ d_view d = v') dvcs).

Lemma sent_state d :
  d ∈ dvcs -> exists s, d = rep_dvc m (d_replica d) (d_view d) s /\
    d_log_view d = r_log_view s /\ r_log_view s < v' /\
    log_in_view net (r_log_view s) (r_log s) /\
    acks_below net (d_replica d) v (r_log_view s) (lg_op (r_log s)).
Proof.
  intros Hd. destruct (sent_vote net Hinv dvcs v' Hsent d Hd)
    as (Ev & s & E & _ & ? & _ & _ & Hlg & _ & Ha).
  exists s. split_and!; [done|by rewrite E|lia|done|apply Ha; lia].
Qed.

(** A vote of a later generation covers [n]. *)
Lemma later_covers d : d ∈ dvcs -> v < d_log_view d -> n <= d_op d /\ covers n d.
Proof.
  intros Hd Hv. destruct (sent_state d Hd) as (s & E & Elv & Hlv & Hlg & _). rewrite Elv in Hv.
  pose proof (vote_log s Hlg ltac:(lia)) as Hxs. destruct Hlg as [Hlw _].
  assert (n <= lg_op (r_log s)) as Hop.
  { destruct Hlw as [_ Hdom]. assert (is_Some (lg_map (r_log s) !! n)) as H%Hdom by (by rewrite Hxs).
    lia. }
  pose proof Hcommit as (Hn & _). rewrite E at 1 2. split; [done|]. by apply vote_covers.
Qed.

(** So does the vote of a replica that acknowledged [n] in [v]. *)
Lemma quorum_covers d :
  d ∈ dvcs -> n <= n_ack net v (d_replica d) ->
  v <= d_log_view d /\ n <= d_op d /\ covers n d.
Proof.
  intros Hd Hack. destruct (sent_state d Hd) as (s & E & Elv & Hlv & Hlg & Ha).
  pose proof Hcommit as (Hn & _). destruct (Ha ltac:(lia)) as [Hle Heq].
  split; [lia|]. destruct (Z.eq_dec v (r_log_view s)) as [E'|].
  - specialize (Heq E'). destruct Hlg as [Hlw _]. rewrite E at 1 2. split; [simpl; lia|].
    apply vote_covers; [done..|lia].
  - apply later_covers; [done|lia].
Qed.

(** The view formed from [dvcs] starts with [n] as [x]. *)
Lemma formed_holds sel :
  vote_quorum m dvcs -> select_canonical_log m dvcs = Some sel ->
  lg_map (selected_log sel) !! n = Some x.
Proof.
  intros Hq Hsel. pose proof Hcommit as (Hn & Q & HQ & HQn & HQa).
  pose proof (select_Some m dvcs sel Hsel) as (_ & _ & Hf & _ & Hlog).
  destruct (committed_survives m dvcs Hwf Hq (sent_widths net Hinv dvcs v' Hsent)
    (sent_honest net Hinv dvcs v' Hsent) Q HQ HQn v n) with (s := sel) (id := x)
    as [Hfl|(e & He & Hop & Hid)].
  - intros d Hd HdQ. apply quorum_covers; auto.
  - intros d Hd Hv. by apply later_covers.
  - done.
  - intros d Hd Hv e He Hop. destruct (sent_state d Hd) as (s & E & Elv & Hlv & Hlg & _).
    rewrite E in He. apply elem_rep_dvc in He as (_ & He & _). rewrite Hop in He.
    eapply vote_agrees; [exact Hlg|lia|exact He].
  - pose proof (sent_floor net Hinv dvcs v' Hsent). lia.
  - apply selected_lookup; [rewrite Hlog; apply merged_log_sorted|eauto].
Qed.

(** A committed frontier never outruns the canonical heads. *)
Lemma formed_reaches :
  vote_quorum m dvcs -> n <= max_or_zero (map d_op (canonical_of dvcs)).
Proof.
  intros Hq. pose proof Hcommit as (Hn & Q & HQ & HQn & HQa).
  apply (canonical_head_reaches m dvcs Hwf Hq (sent_widths net Hinv dvcs v' Hsent)
    (sent_honest net Hinv dvcs v' Hsent) Q HQ HQn v).
  - intros d Hd HdQ. apply quorum_covers; auto.
  - intros d Hd Hv. by apply later_covers.
Qed.
End quorum.
End agreement.

Lemma committed_in_base net v n x l v' l' :
  net_inv net -> committed net v n -> n_vlog net v = Some l -> lg_map l !! n = Some x ->
  v < v' -> n_vlog net v' = Some l' -> lg_map (n_base net v') !! n = Some x.
Proof.
  intros Hinv Hc Hl Hx. revert l'.
  induction v' as [v' IH] using (well_founded_induction (Z.lt_wf v)). intros l' Hlt Hl'.
  pose proof Hinv as (_ & _ & Hviews & _).
  destruct (Hviews v l Hl) as (Hv0 & _).
  destruct (Hviews v' l' Hl') as (_ & _ & _ & _ & _ & [|(Hq & Hsent & sel & Hsel & ->)] & _); [lia|].
  eapply (formed_holds net Hinv v n x l Hc Hl Hx v'); [|done..].
  intros lv L Hlv HL. eapply IH; [lia|lia|exact HL].
Qed.

(** ** The invariant is inductive *)

Lemma primary_voting v : 0 <= v -> primary m v ∈ voting_slots m.
Proof.
  intros Hv. pose proof Hwf as (Hr & _). unfold primary. apply elem_voting_slots.
  pose proof (Z.mod_pos_bound v (m_replica_count m) ltac:(lia)).
  rewrite wrap_small by (unfold fits; lia). done.
Qed.

Lemma inv_init : net_inv net_init.
Proof.
  split_and!.
  - intros r _. split_and!; simpl; try done; [|by left].
    split; [apply log_empty_wf|]. exists log_empty. auto using log_le_refl.
  - by intros d []%not_elem_of_nil.
  - intros v l. simpl. destruct (Z.eqb_spec v 0) as [->|]; [|done]. intros [= <-].
    split_and!; simpl; try done; auto using log_empty_wf, log_le_refl.
  - done.
Qed.

Lemma ack_normal net r s v r' :
  n_ack (set_normal net r s) v r' =
  if (v =? r_view s) && (r' =? r) then lg_op (r_log s) else n_ack net v r'.
Proof.
  unfold set_normal. simpl. destruct (Z.eqb_spec v (r_view s)) as [->|]; simpl.
  - rewrite upd_eq. destruct (Z.eqb_spec r' r) as [->|]; [by rewrite upd_eq|by rewrite upd_ne].
  - by rewrite upd_ne.
Qed.

(** The acks of a replica entering or staying normal in view [v] with a head
    that does not go back. *)
Lemma ack_grows net r s0 s :
  rep_ok net r s0 -> n_rep net r = s0 -> r_log_view s0 <= r_view s ->
  0 <= lg_op (r_log s) -> (r_log_view s0 = r_view s -> lg_op (r_log s0) <= lg_op (r_log s)) ->
  forall v r', n_ack net v r' <= n_ack (set_normal net r s) v r'.
Proof.
  intros (_ & _ & _ & _ & Ha & _) Hr Hlv Hop Hsame v r'. rewrite ack_normal.
  destruct (Z.eqb_spec v (r_view s)) as [->|]; [|done].
  destruct (Z.eqb_spec r' r) as [->|]; [|done]. simpl.
  destruct (Z.le_gt_cases (n_ack net (r_view s) r) 0); [lia|].
  destruct (Ha (r_view s)) as [Hle Heq]; [lia|].
  assert (r_view s = r_log_view s0) as E by lia. specialize (Heq E). specialize (Hsame (eq_sym E)). lia.
Qed.

Lemma ack_only_here net r s0 s :
  n_rep net r = s0 -> r_view s0 <= r_view s ->
  forall v r', n_ack (set_normal net r s) v r' = n_ack net v r' \/
    (r' = r /\ r_view (n_rep net r) <= v).
Proof.
  intros Hr Hv v r'. rewrite ack_normal, Hr. destruct (Z.eqb_spec v (r_view s)) as [->|]; [|by left].
  destruct (Z.eqb_spec r' r); [by right|by left].
Qed.

Lemma acks_below_normal net r s0 s v :
  rep_ok net r s0 -> r_log_view s0 <= r_view s ->
  acks_below (set_normal net r s) r v (r_view s) (lg_op (r_log s)).
Proof.
  intros (_ & _ & _ & _ & Ha & _) Hlv. unfold acks_below. rewrite ack_normal, Z.eqb_refl, andb_true_r.
  destruct (Z.eqb_spec v (r_view s)) as [->|Hne]; [done|]. intros Hpos.
  destruct (Ha v Hpos) as [? _]. split; [lia|done].
Qed.

Lemma ack_here net r s v :
  n_ack (set_normal net r s) v r = n_ack net v r \/
  (v = r_view s /\ n_ack (set_normal net r s) v r = lg_op (r_log s)).
Proof. rewrite ack_normal, Z.eqb_refl, andb_true_r. destruct (Z.eqb_spec v (r_view s)); auto. Qed.

(** The views of [net1] extend those of [net], changing only views led by [r]. *)
Definition views_extend (r : ReplicaId) (net net1 : Net) : Prop :=
  n_rep net1 = n_rep net /\ n_votes net1 = n_votes net /\ n_ack net1 = n_ack net /\
  (forall v l, n_vlog net v = Some l ->
     n_base net1 v = n_base net v /\ n_formed net1 v = n_formed net v /\
     exists l', n_vlog net1 v = Some l' /\ log_le l l') /\
  (forall v, n_vlog net1 v = n_vlog net v \/ primary m v = r).

Lemma views_extend_refl r net : views_extend r net net.
Proof. split_and!; eauto using log_le_refl. Qed.

Lemma extends_normal net net1 r s0 s :
  views_extend r net net1 -> rep_ok net r s0 -> n_rep net r = s0 ->
  r_view s0 <= r_view s -> r_log_view s = r_view s -> 0 <= lg_op (r_log s) ->
  (r_log_view s0 = r_view s -> lg_op (r_log s0) <= lg_op (r_log s)) ->
  extends r net (set_normal net1 r s).
Proof.
  intros (Er & Ev & Ea & Hviews & Hprim) Hok Hr Hv Hlv Hop Hsame.
  pose proof Hok as (Hlv0 & _).
  assert (Hack : forall v r', n_ack (set_normal net1 r s) v r' = n_ack (set_normal net r s) v r').
  { intros v r'. rewrite !ack_normal. by rewrite Ea. }
  split_and!.
  - exact Hviews.
  - exact Hprim.
  - intros v r'. rewrite Hack. eapply ack_grows; [exact Hok|done|lia|done|done].
  - intros v r'. rewrite Hack. eapply ack_only_here; done.
  - intros d Hd. simpl. by rewrite Ev.
  - intros r' Hne. simpl. by rewrite upd_ne, Er.
  - simpl. rewrite upd_eq, Hr. done.
  - simpl. rewrite upd_eq, Hr, Hlv. lia.
Qed.

(** A replica that is normal in view [v] after its step. *)
Lemma inv_normal net net1 r s0 s :
  net_inv net -> r ∈ voting_slots m -> n_rep net r = s0 -> views_extend r net net1 ->
  r_view s0 <= r_view s -> r_log_view s = r_view s -> 0 <= r_commit s ->
  (r_log_view s0 = r_view s -> lg_op (r_log s0) <= lg_op (r_log s)) ->
  log_in_view net1 (r_view s) (r_log s) -> commit_ok net (r_view s) (r_commit s) ->
  (primary m (r_view s) = r -> n_vlog net1 (r_view s) = Some (r_log s)) ->
  (forall v l, n_vlog net1 v = Some l -> n_vlog net v = Some l \/
     view_ok (set_normal net1 r s) v l) ->
  net_inv (set_normal net1 r s).
Proof.
  intros Hinv Hr Hs Hext Hv Hlv Hc0 Hsame Hlog Hc Hprim Hviews.
  pose proof Hinv as (Hreps & _). pose proof (Hreps r Hr) as Hok. rewrite Hs in Hok.
  pose proof Hext as (_ & Ev & Ea & _).
  assert (extends r net (set_normal net1 r s)) as He.
  { destruct Hlog as [[? _] _]. by eapply extends_normal. }
  pose proof Hok as (Hlv0 & _).
  assert (n_rep (set_normal net1 r s) r = s) as Es by (simpl; by rewrite upd_eq).
  eapply (inv_step r net); [done|exact He| | | |]; rewrite ?Es.
  - split_and!; [lia|lia|done|rewrite Hlv; exact Hlog|rewrite Hlv; by eapply commit_ok_mono| |].
    + intros v. rewrite Hlv. unfold acks_below. rewrite ack_normal, Ea, <-ack_normal.
      eapply acks_below_normal; [exact Hok|lia].
    + rewrite Hlv. exact Hprim.
  - intros d Hd. simpl in Hd. rewrite Ev in Hd. by left.
  - exact Hviews.
  - intros v. rewrite Hlv, ack_normal, Ea, <-ack_normal. apply ack_here.
Qed.

Lemma inv_prepare net r s l x :
  net_inv net -> r ∈ voting_slots m -> n_rep net r = s -> r_log_view s = r_view s ->
  primary m (r_view s) <> r -> n_vlog net (r_view s) = Some l ->
  lg_map l !! (lg_op (r_log s) + 1) = Some x ->
  net_inv (set_normal net r (mkRep (r_view s) (r_view s) (r_commit s) (log_append (r_log s) x))).
Proof.
  intros Hinv Hr Hs Hlv Hp Hl Hx. pose proof Hinv as (Hreps & _ & Hviews & _).
  pose proof (Hreps r Hr) as Hok. rewrite Hs in Hok.
  destruct Hok as (? & ? & (Hlw & L & HL & Hb & Hle) & Hc & _). rewrite Hlv in *.
  rewrite Hl in HL. injection HL as <-. destruct (Hviews _ _ Hl) as (_ & HLw & _).
  eapply (inv_normal net net r s); simpl; eauto using views_extend_refl; try lia.
  - split; [by apply log_append_wf|]. exists l. split_and!; [done| |].
    + eapply log_le_trans; [exact Hb|by apply log_append_le].
    + by apply log_append_prefix.
Qed.

Lemma inv_adopt net r s v l lv :
  net_inv net -> r ∈ voting_slots m -> n_rep net r = s -> primary m v <> r -> r_view s <= v ->
  r_log_view s < v -> n_vlog net v = Some lv -> log_wf l ->
  log_le (n_base net v) l -> log_le l lv ->
  net_inv (set_normal net r (mkRep v v (r_commit s) l)).
Proof.
  intros Hinv Hr Hs Hp Hv Hlv Hl Hlw Hb Hle. pose proof Hinv as (Hreps & _).
  pose proof (Hreps r Hr) as Hok. rewrite Hs in Hok. destruct Hok as (? & ? & _ & Hc & _).
  eapply (inv_normal net net r s); simpl; eauto using views_extend_refl; try lia.
  - split; [done|]. eauto.
  - destruct Hc as [->|(v0 & Hv0 & Hc)]; [by left|right]. exists v0. split; [lia|done].
Qed.

Lemma inv_mint net r s x :
  net_inv net -> r ∈ voting_slots m -> n_rep net r = s -> r_log_view s = r_view s ->
  primary m (r_view s) = r -> lg_op (r_log s) + 1 < umax 64 ->
  net_inv (set_normal (set_vlog net (r_view s) (log_append (r_log s) x)) r
             (mkRep (r_view s) (r_view s) (r_commit s) (log_append (r_log s) x))).
Proof.
  intros Hinv Hr Hs Hlv Hp Hbound. pose proof Hinv as (Hreps & _ & Hviews & _).
  pose proof (Hreps r Hr) as Hok. rewrite Hs in Hok.
  destruct Hok as (? & ? & (Hlw & L & HL & Hb & Hle) & Hc & _ & Hvp). rewrite Hlv in *.
  specialize (Hvp Hp). pose proof (log_append_le (r_log s) x Hlw) as Happ.
  assert (views_extend r net (set_vlog net (r_view s) (log_append (r_log s) x))) as Hext.
  { split_and!; try done.
    - intros v l Hvl. split; [done|]. split; [done|]. simpl.
      destruct (decide (v = r_view s)) as [->|]; [rewrite upd_eq|rewrite upd_ne by done].
      + eexists. split; [done|]. rewrite Hvp in Hvl. by injection Hvl as <-.
      + eauto using log_le_refl.
    - intros v. simpl. destruct (decide (v = r_view s)) as [->|]; [by right|left]. by rewrite upd_ne. }
  eapply (inv_normal net _ r s); simpl; eauto; try lia.
  - split; [by apply log_append_wf|]. simpl. rewrite upd_eq. eexists.
    split_and!; [done|by eapply log_le_trans|apply log_le_refl].
  - rewrite upd_eq. done.
  - intros v l Hvl. destruct (decide (v = r_view s)) as [->|]; [right|left; by rewrite upd_ne in Hvl].
    rewrite upd_eq in Hvl. injection Hvl as <-.
    destruct (Hviews _ _ Hvp) as (? & _ & _ & Hbw & Hbl & Hf & Hpl).
    split_and!; simpl; try done; [by apply log_append_wf|by eapply log_le_trans|].
    rewrite Hp, upd_eq. simpl. lia.
Qed.

Lemma inv_vote net r s v :
  net_inv net -> r ∈ voting_slots m -> n_rep net r = s -> r_view s < v ->
  net_inv (mkNet (upd (n_rep net) r (mkRep v (r_log_view s) (r_commit s) (r_log s)))
             (rep_dvc m r v s :: n_votes net) (n_base net) (n_vlog net) (n_formed net)
             (n_ack net)).
Proof.
  intros Hinv Hr Hs Hv. pose proof Hinv as (Hreps & _).
  pose proof (Hreps r Hr) as Hok. rewrite Hs in Hok.
  set (net' := mkNet _ _ _ _ _ _).
  assert (n_rep net' r = mkRep v (r_log_view s) (r_commit s) (r_log s)) as Es
    by (simpl; by rewrite upd_eq).
  assert (extends r net net') as He.
  { split_and!; try done; rewrite ?Es, ?Hs; simpl; try lia.
    all: eauto using log_le_refl.
    - intros d Hd. by right.
    - intros r' Hne. by rewrite upd_ne. }
  pose proof Hok as (? & ? & Hlog & Hc & Ha & Hp).
  eapply (inv_step r net); [done|exact He| | | |]; rewrite ?Es.
  - split_and!; simpl; try done; lia.
  - intros d Hd. simpl in Hd. apply elem_of_cons in Hd as [->|]; [right|by left].
    exists s. split_and!; [done|done|simpl; lia|simpl; lia|simpl; rewrite upd_eq; simpl; lia|done
      |exact Hlog|exact Hc|intros v0 _; exact (Ha v0)].
  - auto.
  - auto.
Qed.

Lemma inv_commit net r s n :
  net_inv net -> r ∈ voting_slots m -> n_rep net r = s -> r_log_view s = r_view s ->
  committed net (r_view s) n ->
  net_inv (mkNet (upd (n_rep net) r (mkRep (r_view s) (r_view s) (Z.max (r_commit s) n) (r_log s)))
             (n_votes net) (n_base net) (n_vlog net) (n_formed net) (n_ack net)).
Proof.
  intros Hinv Hr Hs Hlv Hn. pose proof Hinv as (Hreps & _).
  pose proof (Hreps r Hr) as Hok. rewrite Hs in Hok.
  set (net' := mkNet _ _ _ _ _ _).
  assert (n_rep net' r = mkRep (r_view s) (r_view s) (Z.max (r_commit s) n) (r_log s)) as Es
    by (simpl; by rewrite upd_eq).
  assert (extends r net net') as He.
  { split_and!; try done; rewrite ?Es, ?Hs; simpl; try lia; eauto using log_le_refl.
    intros r' Hne. by rewrite upd_ne. }
  pose proof Hok as (? & ? & Hlog & Hc & Ha & Hp). rewrite Hlv in *.
  eapply (inv_step r net); [done|exact He| | | |]; rewrite ?Es; auto.
  split_and!; simpl; try done; try lia.
  destruct (Z.max_spec (r_commit s) n) as [[_ ->]|[_ ->]]; [right|done].
  exists (r_view s). split; [lia|exact Hn].
Qed.

Lemma commit_ok_le net lv lv' c c' :
  commit_ok net lv c -> 0 <= c' <= c -> lv <= lv' -> commit_ok net lv' c'.
Proof.
  intros Hc Hle Hlv. destruct (Z.eq_dec c' 0) as [->|]; [by left|right].
  destruct Hc as [->|(v & Hv & Hc)]; [lia|]. exists v. split; [lia|].
  eapply committed_le; [exact Hc|lia].
Qed.

(** The committed frontier of sent votes was committed in an earlier view. *)
Lemma commit_star_ok net dvcs view :
  net_inv net -> Forall (fun d => d ∈ n_votes net /\ d_view d = view) dvcs ->
  commit_ok net (view - 1) (commit_star dvcs).
Proof.
  intros Hinv Hsent. destruct dvcs as [|d0 dvcs'] eqn:E; [by left|]. rewrite <-E in *.
  destruct (max_field_elem d_commit dvcs) as (d & Hd & Emax); [by rewrite E| |].
  { eapply Forall_impl; [by eapply sent_widths|]. by intros d (_ & _ & ? & _). }
  unfold commit_star. rewrite <-Emax.
  destruct (sent_vote net Hinv dvcs view Hsent d Hd) as (Ev & s & Es & _ & ? & _ & ? & [[? _] _] & Hc & _).
  rewrite Es. simpl. eapply commit_ok_le; [exact Hc|lia|lia].
Qed.

Lemma inv_form net r s dvcs sel :
  net_inv net -> r ∈ voting_slots m -> n_rep net r = s -> r_log_view s < r_view s ->
  primary m (r_view s) = r -> vote_quorum m dvcs ->
  Forall (fun d => d ∈ n_votes net /\ d_view d = r_view s) dvcs ->
  select_canonical_log m dvcs = Some sel ->
  net_inv (set_normal (open_view net (r_view s) (selected_log sel) dvcs) r
             (mkRep (r_view s) (r_view s) (Z.max (r_commit s) (s_commit sel)) (selected_log sel))).
Proof.
  intros Hinv Hr Hs Hlv Hp Hq Hsent Hsel. pose proof Hinv as (Hreps & _ & Hviews & _).
  pose proof (Hreps r Hr) as Hok. rewrite Hs in Hok. destruct Hok as (Hlv0 & ? & _ & Hc & _).
  destruct (selected_wf net dvcs (r_view s) sel Hinv Hq Hsent Hsel) as [Hw Hbound].
  pose proof (select_Some m dvcs sel Hsel) as (_ & Hcs & _).
  assert (n_vlog net (r_view s) = None) as Hnone.
  { destruct (n_vlog net (r_view s)) as [l|] eqn:E; [|done].
    destruct (Hviews _ _ E) as (_ & _ & _ & _ & _ & _ & Hpl). rewrite Hp, Hs in Hpl. lia. }
  assert (views_extend r net (open_view net (r_view s) (selected_log sel) dvcs)) as Hext.
  { split_and!; try done.
    - intros v l Hvl. assert (v <> r_view s) by congruence. simpl. rewrite !upd_ne by done.
      eauto using log_le_refl.
    - intros v. simpl. destruct (decide (v = r_view s)) as [->|]; [by right|left]. by rewrite upd_ne. }
  eapply (inv_normal net _ r s); simpl; eauto; try lia.
  - split; [done|]. simpl. rewrite !upd_eq. eauto using log_le_refl.
  - rewrite Hcs. pose proof (commit_star_nonneg dvcs).
    destruct (Z.max_spec (r_commit s) (commit_star dvcs)) as [[_ ->]|[_ ->]].
    + eapply commit_ok_le; [by eapply (commit_star_ok net dvcs (r_view s))|lia|lia].
    + eapply commit_ok_le; [exact Hc|lia|lia].
  - by rewrite upd_eq.
  - intros v l Hvl. destruct (decide (v = r_view s)) as [->|]; [right|left; by rewrite upd_ne in Hvl].
    rewrite upd_eq in Hvl. injection Hvl as <-. unfold view_ok, formed_ok. simpl.
    rewrite !upd_eq, Hp, upd_eq. simpl. split_and!; try done; try lia.
    right. split_and!; [done|done|]. eauto.
Qed.

Lemma reachable_inv net : reachable net -> net_inv net.
Proof.
  induction 1 as [|net net' _ IH Hstep]; [apply inv_init|].
  destruct Hstep; eauto using inv_mint, inv_prepare, inv_vote, inv_form, inv_adopt, inv_commit.
Qed.

(** The operation a committed op number stands for, in the log of any replica
    that reached the commit's view. *)
Lemma replica_holds net r v n x l :
  net_inv net -> r ∈ voting_slots m -> committed net v n -> n_vlog net v = Some l ->
  lg_map l !! n = Some x -> v <= r_log_view (n_rep net r) ->
  forall y, lg_map (r_log (n_rep net r)) !! n = Some y -> y = x.
Proof.
  intros Hinv Hr Hc Hl Hx Hv y Hy. pose proof Hinv as (Hreps & _).
  destruct (Hreps r Hr) as (_ & _ & (_ & L & HL & Hb & Hle) & _).
  destruct (Z.eq_dec v (r_log_view (n_rep net r))) as [E|].
  - rewrite <-E, Hl in HL. injection HL as <-. pose proof (log_le_lookup _ _ _ _ Hle Hy). congruence.
  - pose proof (committed_in_base net v n x l (r_log_view (n_rep net r)) L Hinv Hc Hl Hx
      ltac:(lia) HL) as Hbase.
    pose proof (log_le_lookup _ _ _ _ Hb Hbase). congruence.
Qed.

Lemma commits_agree net v v' n x x' l l' :
  net_inv net -> committed net v n -> committed net v' n ->
  n_vlog net v = Some l -> n_vlog net v' = Some l' ->
  lg_map l !! n = Some x -> lg_map l' !! n = Some x' -> x = x'.
Proof.
  intros Hinv Hc Hc' Hl Hl' Hx Hx'. pose proof Hinv as (_ & _ & Hviews & _).
  destruct (Hviews _ _ Hl) as (_ & _ & _ & _ & Hb & _).
  destruct (Hviews _ _ Hl') as (_ & _ & _ & _ & Hb' & _).
  destruct (Z.lt_trichotomy v v') as [Hlt|[->|Hlt]]; [|congruence|].
  - pose proof (committed_in_base net v n x l v' l' Hinv Hc Hl Hx Hlt Hl') as H.
    pose proof (log_le_lookup _ _ _ _ Hb' H). congruence.
  - pose proof (committed_in_base net v' n x' l' v l Hinv Hc' Hl' Hx' Hlt Hl) as H.
    pose proof (log_le_lookup _ _ _ _ Hb H). congruence.
Qed.
End protocol.

(** ** Properties *)

(** C1. Replicas never diverge: in every reachable state, two voters that both
    count op [n] committed and both hold it hold the same operation there,
    whatever views they committed it in. *)
Theorem replicas_agree m net r1 r2 n x1 x2 :
  wf m -> reachable m net -> r1 ∈ voting_slots m -> r2 ∈ voting_slots m ->
  1 <= n <= r_commit (n_rep net r1) -> n <= r_commit (n_rep net r2) ->
  lg_map (r_log (n_rep net r1)) !! n = Some x1 -> lg_map (r_log (n_rep net r2)) !! n = Some x2 ->
  x1 = x2.
Proof.
  intros Hwf Hreach Hr1 Hr2 Hn1 Hn2 Hx1 Hx2. pose proof (reachable_inv m Hwf net Hreach) as Hinv.
  pose proof Hinv as (Hreps & _).
  assert (forall r, r ∈ voting_slots m -> n <= r_commit (n_rep net r) ->
    exists v l x, committed m net v n /\ n_vlog net v = Some l /\ lg_map l !! n = Some x /\
      v <= r_log_view (n_rep net r)) as Hcommit.
  { intros r Hr Hn. destruct (Hreps r Hr) as (_ & _ & _ & [Hc|(v & Hv & Hc)] & _); [lia|].
    apply (committed_le m _ _ _ n) in Hc; [|lia].
    destruct (committed_logged m Hwf net v n Hinv Hc) as (l & x & Hl & Hx). eauto 10. }
  destruct (Hcommit r1 Hr1 ltac:(lia)) as (v1 & l1 & y1 & Hc1 & Hl1 & Hy1 & Hv1).
  destruct (Hcommit r2 Hr2 ltac:(lia)) as (v2 & l2 & y2 & Hc2 & Hl2 & Hy2 & Hv2).
  rewrite (replica_holds m Hwf net r1 v1 n y1 l1 Hinv Hr1 Hc1 Hl1 Hy1 Hv1 x1 Hx1).
  rewrite (replica_holds m Hwf net r2 v2 n y2 l2 Hinv Hr2 Hc2 Hl2 Hy2 Hv2 x2 Hx2).
  exact (commits_agree m Hwf net v1 v2 n y1 y2 l1 l2 Hinv Hc1 Hc2 Hl1 Hl2 Hy1 Hy2).
Qed.

(** C7. View formation never fail-stops: in every reachable state, any view-change
    quorum of votes actually sent for one view has a canonical log. *)
Theorem formation_succeeds m net dvcs view :
  wf m -> reachable m net -> vote_quorum m dvcs ->
  Forall (fun d => d ∈ n_votes net /\ d_view d = view) dvcs ->
  is_Some (select_canonical_log m dvcs).
Proof.
  intros Hwf Hreach Hq Hsent. pose proof (reachable_inv m Hwf net Hreach) as Hinv.
  assert (commit_star dvcs <= max_or_zero (map d_op (canonical_of dvcs))) as Hle.
  { destruct (commit_star_ok m net dvcs view Hinv Hsent) as [->|(v & Hv & Hc)];
      [apply max_or_zero_nonneg|].
    destruct (committed_logged m Hwf net v _ Hinv Hc) as (l & x & Hl & Hx).
    apply (formed_reaches m Hwf net Hinv v _ x Hc view); [|lia|done|done].
    intros lv L Hlv HL. eapply (committed_in_base m Hwf net v); eauto. lia. }
  unfold select_canonical_log, bounded_head. rewrite (proj2 (Z.leb_le _ _)); [done|lia].
Qed.

(** ** A run: one operation minted, replicated and committed, then two votes *)

Definition run_log : Log := log_append log_empty (7, 1, 100).
Definition run_rep (view : View) (commit : OpNumber) : Rep := mkRep view 0 commit run_log.

Definition run1 : Net := set_normal (set_vlog net_init 0 run_log) 0 (run_rep 0 0).
Definition run2 : Net := set_normal run1 1 (run_rep 0 0).
Definition run_commit (net : Net) (r : ReplicaId) : Net :=
  mkNet (upd (n_rep net) r (run_rep 0 1)) (n_votes net) (n_base net) (n_vlog net)
    (n_formed net) (n_ack net).
Definition run4 : Net := run_commit (run_commit run2 0) 1.
Definition run_vote (net : Net) (r : ReplicaId) : Net :=
  mkNet (upd (n_rep net) r (run_rep 1 1)) (rep_dvc sample r 1 (run_rep 0 1) :: n_votes net)
    (n_base net) (n_vlog net) (n_formed net) (n_ack net).
Definition run6 : Net := run_vote (run_vote run4 0) 1.

Lemma sample_slot r : 0 <= r < 3 -> r ∈ voting_slots sample.
Proof. intros. by apply elem_voting_slots. Qed.

Lemma run4_reachable : reachable sample run4.
Proof.
  assert (reachable sample run2) as H2.
  { apply (reach_step _ run1); [apply (reach_step _ net_init); [constructor|]|].
    - apply (step_mint sample net_init 0 (mkRep 0 0 0 log_empty) (7, 1, 100));
        [by apply sample_slot|done..].
    - eapply (step_prepare sample run1 1 (mkRep 0 0 0 log_empty) run_log (7, 1, 100));
        [by apply sample_slot|done..]. }
  assert (forall net, n_ack net 0 0 = 1 -> n_ack net 0 1 = 1 -> committed sample net 0 1) as Hc.
  { intros net E0 E1. split; [lia|]. exists {[0; 1]}. split_and!; [|compute_done|].
    - intros r Hr. apply sample_slot. set_unfold in Hr. lia.
    - intros r Hr. set_unfold in Hr. destruct Hr as [->| ->]; lia. }
  apply (reach_step _ (run_commit run2 0)); [apply (reach_step _ run2); [done|]|].
  - apply (step_commit sample run2 0 (run_rep 0 0) 1); [by apply sample_slot|done|done|by apply Hc].
  - apply (step_commit sample (run_commit run2 0) 1 (run_rep 0 0) 1);
      [by apply sample_slot|done|done|by apply Hc].
Qed.

Lemma run6_reachable : reachable sample run6.
Proof.
  apply (reach_step _ (run_vote run4 0)); [apply (reach_step _ run4); [apply run4_reachable|]|].
  - apply (step_vote sample run4 0 (run_rep 0 1) 1); [by apply sample_slot|done|done].
  - apply (step_vote sample (run_vote run4 0) 1 (run_rep 0 1) 1); [by apply sample_slot|done|done].
Qed.

Lemma replicas_agree_witness :
  lg_map (r_log (n_rep run4 0)) !! 1 = Some (7, 1, 100) /\ (7, 1, 100) = ((7, 1, 100) : Op).
Proof.
  split; [reflexivity|].
  apply (replicas_agree sample run4 0 1 1);
    [exact sample_wf|exact run4_reachable|by apply sample_slot|by apply sample_slot
    |simpl; lia|simpl; lia|reflexivity|reflexivity].
Defined.

Lemma formation_succeeds_witness :
  is_Some (select_canonical_log sample (n_votes run6)).
Proof.
  apply (formation_succeeds sample run6 (n_votes run6) 1);
    [exact sample_wf|exact run6_reachable| |].
  - split_and!; [compute_done| |compute_done].
    repeat constructor; by apply sample_slot.
  - apply Forall_forall. intros d Hd. split; [done|].
    change (n_votes run6) with [rep_dvc sample 1 1 (run_rep 0 1); rep_dvc sample 0 1 (run_rep 0 1)] in Hd.
    rewrite !elem_of_cons, elem_of_nil in Hd. by destruct Hd as [->|[->|[]]].
Defined.
