(* ===== verification/Sessions.v ===== *)
(** * Client sessions: at-most-once execution

    [viewstamp-proto/src/config/mod.rs] and the session table of
    [endpoint/{normal,view_change,repair,checkpoint}.rs]: the dedup decision of
    [on_request], the apply-time update with its deterministic eviction
    ([note_applied_session]), every other in-place writer of the table (acceptance, the
    new primary's backfill, the watermark roll-backs, the drop of provisional
    rows) and the projection a checkpoint persists.

    The last part composes them over a cluster: replicas that mint, follow, adopt one
    another's logs, apply, prune, truncate, take checkpoints, restart from one and install
    one of another.  As long as the clients fit the session cap, every log any of them
    holds carries each client's requests as 1, 2, 3, ... without a repeat; a log reaches
    a replica only as a prefix of one that was held. *)

From stdpp Require Import functions.
From S2P Require Import Prelude Core Hash Membership Codec Message BTree ViewChange.

(** ** Configuration *)

Definition DEFAULT_CHECKPOINT_OPS : Z := 32.
Definition MAX_CHECKPOINT_OPS : Z := Z.shiftl 1 15.
Definition MAX_CLIENT_SESSIONS : Z := 4096.
Definition MAX_PIPELINE : Z := 1024.

Inductive ConfigError : Type :=
| ZeroCheckpointOps
| CheckpointOpsTooLarge (ops : Z)
| ZeroMaxClientSessions.

Record Config : Type := mkConfig {
  c_cluster : Z;
  c_local : MemberId;
  c_checkpoint_ops : Z;
  c_max_client_sessions : Z;
}.

Definition config_try_new (cluster : Z) (local : MemberId) : result ConfigError Config :=
  Ok (mkConfig cluster local DEFAULT_CHECKPOINT_OPS MAX_CLIENT_SESSIONS).

Definition with_checkpoint_ops (cluster : Z) (local : MemberId) (checkpoint_ops : Z)
    : result ConfigError Config :=
  if checkpoint_ops =? 0 then Err ZeroCheckpointOps
  else if MAX_CHECKPOINT_OPS <? checkpoint_ops then Err (CheckpointOpsTooLarge checkpoint_ops)
  else Ok (mkConfig cluster local checkpoint_ops MAX_CLIENT_SESSIONS).

Definition with_max_client_sessions (c : Config) (max : Z) : result ConfigError Config :=
  if max =? 0 then Err ZeroMaxClientSessions
  else Ok (mkConfig (c_cluster c) (c_local c) (c_checkpoint_ops c) max).

Definition with_checkpoint_interval (c : Config) (checkpoint_ops : Z) : result ConfigError Config :=
  if checkpoint_ops =? 0 then Err ZeroCheckpointOps
  else if MAX_CHECKPOINT_OPS <? checkpoint_ops then Err (CheckpointOpsTooLarge checkpoint_ops)
  else Ok (mkConfig (c_cluster c) (c_local c) checkpoint_ops (c_max_client_sessions c)).

Definition minimum_wal_capacity (c : Config) : Z := c_checkpoint_ops c + 1.
Definition forfeit_checkpoint_lag (c : Config) : Z := c_checkpoint_ops c.

Definition session_table_hard_bound (c : Config) : Z := c_max_client_sessions c + MAX_PIPELINE.

(** ** The table *)

Record Session : Type := mkSession {
  ss_request : RequestNumber;
  ss_reply : option (RequestNumber * list byte);
  ss_last_op : OpNumber;
}.

#[export] Instance Session_eq_dec : EqDecision Session.
Proof. solve_decision. Defined.

(** [Session::default()] *)
Definition session_default : Session := mkSession 0 None 0.

Abbreviation Table := (gmap Z Session) (only parsing).

(** [entry(key).or_default()] *)
Definition row (t : Table) (c : ClientId) : Session := default session_default (t !! c).

Definition reply_request (s : Session) : RequestNumber :=
  match ss_reply s with Some (rn, _) => rn | None => 0 end.

(** What [on_request] decides from the table, before its capacity fences. *)
Inductive Dedup : Type :=
| Stale
| InFlight
| Resend (request : RequestNumber) (body : list byte)
| Gap
| SessionsFull
| Fresh.

Definition dedup (bound : Z) (t : Table) (client : ClientId) (request : RequestNumber) : Dedup :=
  match t !! client with
  | Some session =>
      if request <? ss_request session then Stale
      else if request =? ss_request session then
        match ss_reply session with
        | Some (rn, body) => if rn =? request then Resend rn body else InFlight
        | None => InFlight
        end
      else if negb (request =? ss_request session + 1) then Gap
      else Fresh
  | None =>
      if negb (request =? 1) then Gap
      else if bound <=? Z.of_nat (size t) then SessionsFull
      else Fresh
  end.

(** The accept-time row of [on_request]. *)
Definition accept (t : Table) (client : ClientId) (request : RequestNumber) : Table :=
  <[client := mkSession request (ss_reply (row t client)) (ss_last_op (row t client))]> t.

(** ** The apply-time update *)

(** The rows the eviction sees, with their last-activity stamps. *)
Definition stamps (t : Table) : gmap Z OpNumber :=
  omap (fun s => if 0 <? ss_last_op s then Some (ss_last_op s) else None) t.

(** [(last_op, client)] in the order of Rust tuples. *)
Definition older (a b : OpNumber * ClientId) : bool :=
  (a.1 <? b.1) || ((a.1 =? b.1) && (a.2 <=? b.2)).

Definition oldest (rows : list (OpNumber * ClientId)) : option (OpNumber * ClientId) :=
  foldr (fun x best =>
           match best with
           | None => Some x
           | Some y => Some (if older x y then x else y)
           end) None rows.

Definition victim (t : Table) : option ClientId :=
  snd <$> oldest (map (fun '(c, op) => (op, c)) (map_to_list (stamps t))).

(** [while applied > cap]; each round removes one row, so [fuel = applied] rounds
    are enough, and a positive [applied] has a victim ([victim_spec]). *)
Fixpoint evict (fuel : nat) (cap : Z) (t : Table) (applied evicted : Z) : Table * Z :=
  match fuel with
  | O => (t, evicted)
  | S fuel =>
      if cap <? applied then
        match victim t with
        | Some v => evict fuel cap (delete v t) (applied - 1) (evicted + 1)
        | None => (t, evicted)
        end
      else (t, evicted)
  end.

(** The row after its client's [request] applied at [op]. *)
Definition applied_row (s : Session) (op : OpNumber) (request : RequestNumber) (reply : list byte)
    : Session :=
  mkSession (if ss_request s <? request then request else ss_request s)
    (match ss_reply s with
     | Some (rn, body) => if rn <=? request then Some (request, reply) else Some (rn, body)
     | None => Some (request, reply)
     end) op.

(** The table and the number of rows evicted. *)
Definition note_applied_session (cap : Z) (t : Table) (op : OpNumber) (client : ClientId)
    (request : RequestNumber) (reply : list byte) : Table * Z :=
  let session := row t client in
  let newly_applied := ss_last_op session =? 0 in
  let t := <[client := applied_row session op request reply]> t in
  if negb newly_applied then (t, 0)
  else
    let applied := size (stamps t) in
    evict applied cap t (Z.of_nat applied) 0.

(** ** The other writers *)

Definition highest_in_log (log : list LogEntry) (c : ClientId) : RequestNumber :=
  max_or_zero (map l_request (filter (fun e => l_client e = c) log)).

(** Lower a watermark nothing backs; never raise one. *)
Definition roll_back (log : list LogEntry) (c : ClientId) (s : Session) : Session :=
  let backed := Z.max (reply_request s) (highest_in_log log c) in
  mkSession (if backed <? ss_request s then backed else ss_request s) (ss_reply s) (ss_last_op s).

Definition reconcile_session_watermarks (log : list LogEntry) (t : Table) : Table :=
  map_imap (fun c s => Some (roll_back log c s)) t.

(** The session part of [truncate_uncommitted_tail_from]: the clients of the
    removed entries are rolled back to what the surviving log backs. *)
Definition roll_back_truncated (removed survivors : list LogEntry) (t : Table) : Table :=
  foldl (fun t c =>
           match t !! c with
           | Some s => <[c := roll_back survivors c s]> t
           | None => t
           end) t (elements (list_to_set (C := gset Z) (map l_client removed))).

(** [clients.retain(|_, s| s.last_op.get() > 0)] *)
Definition drop_provisional (t : Table) : Table := filter (fun cs => 0 < ss_last_op cs.2) t.

(** The watermark backfill of [start_view_as_new_primary]. *)
Definition backfill (log : list LogEntry) (t : Table) : Table :=
  foldl (fun t e =>
           let s := row t (l_client e) in
           let s := if ss_request s <? l_request e
                    then mkSession (l_request e) (ss_reply s) (ss_last_op s) else s in
           <[l_client e := s]> t) t log.

Definition committed_session_projection (t : Table) : Table :=
  omap (fun s =>
          match ss_reply s with
          | Some (rn, body) => Some (mkSession rn (Some (rn, body)) (ss_last_op s))
          | None => None
          end) t.

(** ** The projection is what the applied operations determine *)

(** A row is provisional exactly when no operation of its client applied. *)
Definition row_ok (s : Session) : Prop :=
  0 <= ss_last_op s /\ (ss_last_op s = 0 <-> ss_reply s = None).

Definition rows_ok (t : Table) : Prop := forall c s, t !! c = Some s -> row_ok s.

Definition committed_row (s : Session) : option Session :=
  match ss_reply s with
  | Some (rn, body) => Some (mkSession rn (Some (rn, body)) (ss_last_op s))
  | None => None
  end.

Lemma lookup_projection t c : committed_session_projection t !! c = t !! c ≫= committed_row.
Proof. apply lookup_omap. Qed.

(** Two tables whose rows have the same committed parts project alike. *)
Lemma projection_ext t u :
  (forall c, t !! c ≫= committed_row = u !! c ≫= committed_row) ->
  committed_session_projection t = committed_session_projection u.
Proof. intros H. apply map_eq. intros c. by rewrite !lookup_projection. Qed.

Lemma lookup_stamps t c :
  stamps t !! c = t !! c ≫= (fun s => if 0 <? ss_last_op s then Some (ss_last_op s) else None).
Proof. apply lookup_omap. Qed.

Lemma stamps_projection t : rows_ok t -> stamps (committed_session_projection t) = stamps t.
Proof.
  intros Hok. apply map_eq. intros c. rewrite !lookup_stamps, lookup_projection.
  destruct (t !! c) as [s|] eqn:E; [|done]. destruct (Hok c s E) as [Hp Hs]. simpl.
  unfold committed_row. destruct (ss_reply s) as [[rn b]|] eqn:Er; simpl; [done|].
  by rewrite (proj2 Hs).
Qed.

Lemma row_ok_default : row_ok session_default.
Proof. by split. Qed.

Lemma row_row_ok t c : rows_ok t -> row_ok (row t c).
Proof.
  intros Hok. unfold row. destruct (t !! c) eqn:E; [by apply (Hok c)|apply row_ok_default].
Qed.

Lemma rows_ok_insert t c s : rows_ok t -> row_ok s -> rows_ok (<[c := s]> t).
Proof.
  intros Hok Hs c' s'. rewrite lookup_insert. case_decide; [by intros [= <-]|apply Hok].
Qed.

Lemma rows_ok_delete t c : rows_ok t -> rows_ok (delete c t).
Proof. intros Hok c' s' [_ ?]%lookup_delete_Some. by apply (Hok c'). Qed.

Lemma row_ok_same s r :
  row_ok s -> row_ok (mkSession r (ss_reply s) (ss_last_op s)).
Proof. done. Qed.

Lemma applied_row_ok s op request reply : 0 < op -> row_ok (applied_row s op request reply).
Proof.
  intros Hop. split; simpl; [lia|]. split; [lia|].
  destruct (ss_reply s) as [[? ?]|]; [destruct (_ <=? _)|]; done.
Qed.

Lemma evict_projection fuel cap t n e :
  rows_ok t ->
  committed_session_projection (evict fuel cap t n e).1
    = (evict fuel cap (committed_session_projection t) n e).1 /\
  rows_ok (evict fuel cap t n e).1.
Proof.
  revert t n e. induction fuel as [|fuel IH]; intros t n e Hok; [done|]. simpl.
  destruct (cap <? n); [|done].
  unfold victim. rewrite stamps_projection by done.
  destruct (snd <$> oldest _) as [v|]; [|done].
  assert (delete v (committed_session_projection t) = committed_session_projection (delete v t)) as ->.
  { unfold committed_session_projection. by rewrite omap_delete. }
  by apply IH, rows_ok_delete.
Qed.

Lemma rows_ok_projection t : rows_ok t -> rows_ok (committed_session_projection t).
Proof.
  intros Hok c s. rewrite lookup_projection. destruct (t !! c) as [s0|] eqn:E; [|done]. cbn. unfold committed_row.
  destruct (Hok c s0 E) as [Hp Hs]. destruct (ss_reply s0) as [[rn b]|] eqn:Er; [|done]. intros [= <-]. split; [done|]. cbn. split; [|done].
  intros H0. by apply Hs in H0.
Qed.

Lemma row_projection t c :
  rows_ok t ->
  row (committed_session_projection t) c = default session_default (committed_row (row t c)).
Proof.
  intros Hok. unfold row. rewrite lookup_projection. by destruct (t !! c).
Qed.

Lemma applied_row_projection s op request reply :
  0 <= request ->
  committed_row (applied_row s op request reply)
  = Some (applied_row (default session_default (committed_row s)) op request reply).
Proof.
  intros Hr. unfold committed_row, applied_row. cbn [ss_reply].
  destruct (ss_reply s) as [[rn b]|]; simpl.
  - destruct (Z.leb_spec rn request), (Z.ltb_spec rn request); try done; try lia;
      repeat f_equal; lia.
  - destruct (Z.ltb_spec 0 request); repeat f_equal; lia.
Qed.

Lemma note_projection cap t op client request reply :
  rows_ok t -> 0 < op -> 0 <= request ->
  committed_session_projection (note_applied_session cap t op client request reply).1
    = (note_applied_session cap (committed_session_projection t) op client request reply).1 /\
  rows_ok (note_applied_session cap t op client request reply).1.
Proof.
  intros Hok Hop Hr. unfold note_applied_session. cbv zeta. rewrite row_projection by done.
  pose proof (row_row_ok t client Hok) as [Hp Hs].
  set (t' := <[client := applied_row (row t client) op request reply]> t).
  assert (rows_ok t') as Hok' by (by apply rows_ok_insert, applied_row_ok).
  assert (<[client := applied_row (default session_default (committed_row (row t client)))
                        op request reply]> (committed_session_projection t)
          = committed_session_projection t') as ->.
  { apply map_eq. intros c. unfold t'. rewrite lookup_projection, !lookup_insert.
    case_decide; [|by rewrite lookup_projection]. simpl. by rewrite applied_row_projection. }
  rewrite stamps_projection by done.
  assert (ss_last_op (default session_default (committed_row (row t client)))
          = ss_last_op (row t client)) as ->.
  { unfold committed_row. destruct (ss_reply (row t client)) as [[? ?]|] eqn:E; [done|].
    simpl. symmetry. by apply Hs. }
  destruct (negb _); [done|]. by apply evict_projection.
Qed.

(** The writers off the apply path leave the projection alone. *)
Definition same_committed (t t' : Table) : Prop :=
  rows_ok t -> committed_session_projection t' = committed_session_projection t /\ rows_ok t'.

Lemma same_committed_set t c r :
  same_committed t (<[c := mkSession r (ss_reply (row t c)) (ss_last_op (row t c))]> t).
Proof.
  intros Hok. split.
  - apply projection_ext. intros c'. rewrite lookup_insert. case_decide as E; [subst c'|done].
    unfold row. by destruct (t !! c).
  - apply rows_ok_insert; [done|]. by apply row_ok_same, row_row_ok.
Qed.

Lemma accept_committed t c r : same_committed t (accept t c r).
Proof. apply same_committed_set. Qed.

Lemma same_committed_trans t u v : same_committed t u -> same_committed u v -> same_committed t v.
Proof. intros H1 H2 Hok. destruct (H1 Hok) as [<- Hu]. by apply H2. Qed.

Lemma backfill_committed log t : same_committed t (backfill log t).
Proof.
  revert t. induction log as [|e log IH]; intros t; [by intros|].
  eapply same_committed_trans; [|apply IH]. cbv zeta beta.
  destruct (Z.ltb_spec (ss_request (row t (l_client e))) (l_request e));
    [apply same_committed_set|].
  pose proof (same_committed_set t (l_client e) (ss_request (row t (l_client e)))) as H'.
  by destruct (row t (l_client e)).
Qed.

Lemma reconcile_committed log t : same_committed t (reconcile_session_watermarks log t).
Proof.
  intros Hok. unfold reconcile_session_watermarks. split.
  - apply projection_ext. intros c. rewrite map_lookup_imap. by destruct (t !! c).
  - intros c s. rewrite map_lookup_imap. destruct (t !! c) as [s0|] eqn:E; [|done].
    intros [= <-]. by apply row_ok_same, (Hok c).
Qed.

Lemma roll_back_committed removed survivors t : same_committed t (roll_back_truncated removed survivors t).
Proof.
  unfold roll_back_truncated. generalize (elements (list_to_set (C := gset Z) (map l_client removed))).
  intros cs. revert t. induction cs as [|c cs IH]; intros t; [by intros|].
  eapply same_committed_trans; [|apply IH]. cbv beta.
  destruct (t !! c) as [s|] eqn:E; [|by intros].
  pose proof (same_committed_set t c (ss_request (roll_back survivors c s))) as H.
  unfold row in H. rewrite E in H. exact H.
Qed.

Lemma drop_committed t : same_committed t (drop_provisional t).
Proof.
  intros Hok. split.
  - apply projection_ext. intros c. unfold drop_provisional. rewrite map_lookup_filter.
    destruct (t !! c) as [s|] eqn:E; [|done]. simpl. destruct (Hok c s E) as [Hp Hs].
    case_guard; [done|]. simpl in *. unfold committed_row. by rewrite (proj1 Hs) by lia.
  - intros c s [? _]%map_lookup_filter_Some. by apply (Hok c).
Qed.

(** ** Histories of one replica's table *)

Inductive SessionEvent : Type :=
| EvApplied (op : OpNumber) (client : ClientId) (request : RequestNumber) (reply : list byte)
| EvAccepted (client : ClientId) (request : RequestNumber)
| EvBackfilled (log : list LogEntry)
| EvReconciled (log : list LogEntry)
| EvTruncated (removed survivors : list LogEntry)
| EvProvisionalDropped.

Definition session_step (cap : Z) (t : Table) (ev : SessionEvent) : Table :=
  match ev with
  | EvApplied op client request reply => (note_applied_session cap t op client request reply).1
  | EvAccepted client request => accept t client request
  | EvBackfilled log => backfill log t
  | EvReconciled log => reconcile_session_watermarks log t
  | EvTruncated removed survivors => roll_back_truncated removed survivors t
  | EvProvisionalDropped => drop_provisional t
  end.

Definition is_applied (ev : SessionEvent) : bool :=
  match ev with EvApplied _ _ _ _ => true | _ => false end.

Definition applied_events (evs : list SessionEvent) : list SessionEvent :=
  filter (fun ev => is_applied ev = true) evs.

Definition event_ok (ev : SessionEvent) : Prop :=
  match ev with EvApplied op _ request _ => 0 < op /\ 0 <= request | _ => True end.

Lemma session_step_other cap t ev :
  is_applied ev = false -> same_committed t (session_step cap t ev).
Proof.
  destruct ev; [done|intros _; simpl..]; auto using accept_committed, backfill_committed,
    reconcile_committed, roll_back_committed, drop_committed.
Qed.

(** A history projects to the history of its applied events alone. *)
Lemma history_projection cap t evs :
  rows_ok t -> Forall event_ok evs ->
  committed_session_projection (foldl (session_step cap) t evs)
  = foldl (session_step cap) (committed_session_projection t) (applied_events evs).
Proof.
  intros Hok Hev. revert t Hok. induction Hev as [|ev evs Hone Hall IH]; intros t Hok; [done|].
  cbn [foldl]. unfold applied_events. rewrite filter_cons. fold (applied_events evs).
  destruct (is_applied ev) eqn:E.
  - rewrite decide_True by done. destruct ev as [op c r reply| | | | |]; try done.
    destruct Hone as [Hop Hr]. cbn [foldl session_step].
    destruct (note_projection cap t op c r reply Hok Hop Hr) as [<- Hok']. by apply IH.
  - rewrite decide_False by congruence.
    destruct (session_step_other cap t ev E Hok) as [<- Hok']. by apply IH.
Qed.

(** ** Eviction *)

Lemma older_refl a : older a a = true.
Proof. unfold older. rewrite Z.eqb_refl, Z.leb_refl. apply orb_true_r. Qed.

Lemma older_total a b : older a b = false -> older b a = true.
Proof. unfold older. lia. Qed.

Lemma older_trans a b c : older a b = true -> older b c = true -> older a c = true.
Proof. unfold older. lia. Qed.

Lemma oldest_spec l :
  match oldest l with
  | Some x => x ∈ l /\ forall y, y ∈ l -> older x y = true
  | None => l = []
  end.
Proof.
  induction l as [|x l IH]; [done|]. cbn [oldest foldr]. fold (oldest l).
  destruct (oldest l) as [y|].
  - destruct IH as [Hy Hmin]. destruct (older x y) eqn:E.
    + split; [set_solver|]. intros z [->|Hz]%elem_of_cons; [apply older_refl|].
      eapply older_trans; eauto.
    + split; [set_solver|]. intros z [->|Hz]%elem_of_cons; [by apply older_total|auto].
  - subst l. split; [set_solver|]. intros z ->%list_elem_of_singleton. apply older_refl.
Qed.

(** The victim is the applied row with the least [(last_op, client)]; a table with
    an applied row has one. *)
Lemma victim_spec t :
  match victim t with
  | Some v => exists o, stamps t !! v = Some o /\
      forall c o', stamps t !! c = Some o' -> older (o, v) (o', c) = true
  | None => stamps t = ∅
  end.
Proof.
  unfold victim. pose proof (oldest_spec (map (fun '(c, op) => (op, c)) (map_to_list (stamps t)))) as H.
  assert (forall c o, (o, c) ∈ map (fun '(c, op) => (op, c)) (map_to_list (stamps t)) <->
            stamps t !! c = Some o) as Hin.
  { intros c o. rewrite <-elem_of_map_to_list. split.
    - intros ([c' o'] & [= -> ->] & Hx)%list_elem_of_fmap. exact Hx.
    - intros Hx. apply list_elem_of_fmap. by exists (c, o). }
  destruct (oldest _) as [[o v]|]; simpl.
  - destruct H as [Hv Hmin]. exists o. split; [by apply Hin|]. intros c o' Hc. by apply Hmin, Hin.
  - apply map_eq. intros c. rewrite lookup_empty. apply eq_None_not_Some. intros [o Ho%Hin].
    rewrite H in Ho. by apply not_elem_of_nil in Ho.
Qed.

Lemma stamps_delete t c : stamps (delete c t) = delete c (stamps t).
Proof. unfold stamps. by rewrite omap_delete. Qed.

Lemma stamps_insert t c s : 0 < ss_last_op s -> stamps (<[c := s]> t) = <[c := ss_last_op s]> (stamps t).
Proof.
  intros Hs. apply map_eq. intros c'. rewrite lookup_stamps, !lookup_insert.
  case_decide; [|by rewrite lookup_stamps]. simpl. by rewrite (proj2 (Z.ltb_lt _ _)).
Qed.

Lemma evict_below fuel cap t n e : n <= cap -> evict fuel cap t n e = (t, e).
Proof. intros Hn. destruct fuel; [done|]. simpl. by rewrite (proj2 (Z.ltb_ge _ _)). Qed.

(** One row over the cap costs exactly one eviction. *)
Lemma evict_one cap t :
  0 <= cap -> Z.of_nat (size (stamps t)) = cap + 1 ->
  exists v o, evict (size (stamps t)) cap t (Z.of_nat (size (stamps t))) 0 = (delete v t, 1) /\
    stamps t !! v = Some o /\
    forall c o', stamps t !! c = Some o' -> older (o, v) (o', c) = true.
Proof.
  intros Hcap Hsize. destruct (size (stamps t)) as [|n] eqn:En; [lia|].
  pose proof (victim_spec t) as Hv. cbn [evict]. rewrite (proj2 (Z.ltb_lt _ _)) by lia.
  destruct (victim t) as [v|].
  - destruct Hv as (o & Ho & Hmin). exists v, o. rewrite evict_below by lia. done.
  - rewrite Hv, map_size_empty in En. lia.
Qed.

(** What holds of the table once operations up to [bound] applied. *)
Definition table_inv (cap : Z) (bound : OpNumber) (t : Table) : Prop :=
  rows_ok t /\ Z.of_nat (size (stamps t)) <= cap /\
  forall c o, stamps t !! c = Some o -> o <= bound.

(** The shape of one apply. *)
Lemma note_cases cap bound t op client request reply :
  table_inv cap bound t -> 1 <= cap -> 0 <= bound < op ->
  let t1 := <[client := applied_row (row t client) op request reply]> t in
  note_applied_session cap t op client request reply = (t1, 0) /\
    Z.of_nat (size (stamps t1)) <= cap \/
  exists v o, note_applied_session cap t op client request reply = (delete v t1, 1) /\
    v <> client /\ stamps t !! client = None /\ Z.of_nat (size (stamps t)) = cap /\
    stamps t !! v = Some o /\ forall c o', stamps t !! c = Some o' -> older (o, v) (o', c) = true.
Proof.
  intros (Hok & Hsize & Hb) Hcap Hop t1.
  assert (stamps t1 = <[client := op]> (stamps t)) as Hst by (apply stamps_insert; simpl; lia).
  unfold note_applied_session. cbv zeta. fold t1. pose proof (row_row_ok t client Hok) as [Hp _].
  assert (stamps t !! client = if 0 <? ss_last_op (row t client) then Some (ss_last_op (row t client)) else None)
    as Hcl by (rewrite lookup_stamps; unfold row; by destruct (t !! client)).
  destruct (Z.eqb_spec (ss_last_op (row t client)) 0) as [E|E]; simpl.
  - rewrite E in Hcl. simpl in Hcl.
    assert (size (stamps t1) = S (size (stamps t))) as Hs by (by rewrite Hst, map_size_insert_None).
    destruct (Z.le_gt_cases (Z.of_nat (size (stamps t1))) cap); [left; by rewrite evict_below|right].
    destruct (evict_one cap t1) as (v & o & Ev & Hv & Hmin); [lia..|].
    rewrite Hst in Hv, Hmin. exists v, o.
    assert (v <> client) as Hne.
    { intros ->. rewrite lookup_insert_eq in Hv. injection Hv as <-.
      destruct (decide (stamps t = ∅)) as [He|(c & o' & Hc)%map_choose].
      - rewrite He, map_size_empty in Hs. lia.
      - assert (c <> client) by congruence. specialize (Hb c o' Hc).
        specialize (Hmin c o'). rewrite lookup_insert_ne in Hmin by done.
        specialize (Hmin Hc). unfold older in Hmin. simpl in Hmin. lia. }
    rewrite lookup_insert_ne in Hv by done. split_and!; try done; [lia|].
    intros c o' Hc. apply Hmin. rewrite lookup_insert_ne; [done|]. intros <-. congruence.
  - left. split; [done|]. rewrite Hst, map_size_insert_Some; [done|].
    rewrite Hcl, (proj2 (Z.ltb_lt _ _)) by lia. done.
Qed.

(** ** Requests along a log *)

Definition requests_of (c : ClientId) (log : list LogEntry) : list RequestNumber :=
  map l_request (filter (fun e => l_client e = c) log).

(** How many requests of [c] the log carries. *)
Definition count_of (c : ClientId) (log : list LogEntry) : Z := zlen (requests_of c log).

(** Every client's requests appear as 1, 2, 3, ... in log order; configuration changes
    are no client's requests. *)
Definition sequential (log : list LogEntry) : Prop :=
  forall c, c <> RECONFIGURATION -> requests_of c log = seqZ 1 (count_of c log).

Lemma requests_of_app c l1 l2 : requests_of c (l1 ++ l2) = requests_of c l1 ++ requests_of c l2.
Proof. unfold requests_of. by rewrite filter_app, map_app. Qed.

Lemma count_of_app c l1 l2 : count_of c (l1 ++ l2) = count_of c l1 + count_of c l2.
Proof. unfold count_of. rewrite requests_of_app, length_app. lia. Qed.

Lemma requests_of_one c e : requests_of c [e] = if decide (l_client e = c) then [l_request e] else [].
Proof. unfold requests_of. rewrite filter_cons. by case_decide. Qed.

Lemma count_of_nonneg c log : 0 <= count_of c log.
Proof. unfold count_of. lia. Qed.

Lemma seqZ_prefix a b n :
  a ++ b = seqZ 1 n -> a = seqZ 1 (zlen a) /\ b = seqZ (zlen a + 1) (zlen b).
Proof.
  intros E. assert (zlen a + zlen b = Z.max n 0) as Hn.
  { apply (f_equal length) in E. rewrite length_app, length_seqZ in E. lia. }
  assert (seqZ 1 n = seqZ 1 (zlen a) ++ seqZ (zlen a + 1) (zlen b)) as Es.
  { replace (seqZ 1 n) with (seqZ 1 (zlen a + zlen b)).
    - rewrite seqZ_app by lia. f_equal. f_equal. lia.
    - destruct (Z.le_gt_cases 0 n); [f_equal; lia|].
      destruct a, b; simpl in *; try lia. by rewrite !seqZ_nil by lia. }
  rewrite Es in E. apply app_inj_1 in E; [done|]. rewrite length_seqZ. lia.
Qed.

Lemma sequential_app l1 l2 c :
  sequential (l1 ++ l2) -> c <> RECONFIGURATION ->
  requests_of c l1 = seqZ 1 (count_of c l1) /\
  requests_of c l2 = seqZ (count_of c l1 + 1) (count_of c l2).
Proof.
  intros H Hc. specialize (H c Hc). rewrite requests_of_app in H. exact (seqZ_prefix _ _ _ H).
Qed.

Lemma sequential_prefix l1 l2 : sequential (l1 ++ l2) -> sequential l1.
Proof. intros H c Hc. by apply (sequential_app l1 l2). Qed.

(** Appending the next request of its client keeps a log sequential, and a
    sequential extension by one entry can only be that. *)
Lemma sequential_snoc log e :
  l_client e <> RECONFIGURATION ->
  sequential (log ++ [e]) <-> sequential log /\ l_request e = count_of (l_client e) log + 1.
Proof.
  intros Hne. split.
  - intros H. split; [by eapply sequential_prefix|].
    destruct (sequential_app log [e] (l_client e) H Hne) as [_ E]. unfold count_of in E at 2.
    rewrite requests_of_one, decide_True in E by done. cbn [length] in E.
    rewrite seqZ_cons in E by lia. by injection E.
  - intros [H He] c Hnc. rewrite requests_of_app, count_of_app, (H c Hnc). unfold count_of at 3.
    rewrite requests_of_one. case_decide as Ec; cbn [length].
    + subst c. rewrite seqZ_app by (pose proof (count_of_nonneg (l_client e) log); lia).
      rewrite He, (seqZ_cons (1 + _)) by lia. rewrite (seqZ_nil (Z.succ _)) by lia.
      do 2 f_equal. lia.
    + by rewrite app_nil_r, Z.add_0_r.
Qed.

(** A configuration change is no client's request. *)
Lemma sequential_reconfigure log e : l_client e = RECONFIGURATION -> sequential log -> sequential (log ++ [e]).
Proof.
  intros He H c Hc. rewrite requests_of_app, count_of_app. unfold count_of at 2. rewrite requests_of_one, decide_False by congruence.
  cbn [length]. rewrite app_nil_r, Z.add_0_r. by apply H.
Qed.

Lemma max_or_zero_seqZ n m : 0 <= n -> max_or_zero (seqZ (m + 1) n) = if 0 <? n then Z.max 0 (m + n) else 0.
Proof.
  intros Hn. destruct (Z.ltb_spec 0 n); [|rewrite seqZ_nil by lia; done].
  apply Z.le_antisymm.
  - assert (forall l b, 0 <= b -> Forall (fun x => x <= b) l -> max_or_zero l <= b) as H'
      by (induction 2; simpl; lia).
    apply H'; [lia|]. apply Forall_forall. intros x Hx%elem_of_seqZ. lia.
  - pose proof (max_or_zero_nonneg (seqZ (m + 1) n)).
    assert (m + n <= max_or_zero (seqZ (m + 1) n)); [|lia].
    apply max_or_zero_ge, elem_of_seqZ. lia.
Qed.

(** The part of a sequential log above its pruned prefix backs the whole count,
    together with the requests of the prefix. *)
Lemma highest_above l1 l2 c :
  sequential (l1 ++ l2) -> c <> RECONFIGURATION ->
  highest_in_log l2 c = if 0 <? count_of c l2 then count_of c (l1 ++ l2) else 0.
Proof.
  intros H Hc. unfold highest_in_log. fold (requests_of c l2).
  destruct (sequential_app l1 l2 c H Hc) as [_ ->].
  rewrite max_or_zero_seqZ, count_of_app by apply count_of_nonneg.
  pose proof (count_of_nonneg c l1). pose proof (count_of_nonneg c l2).
  destruct (Z.ltb_spec 0 (count_of c l2)); lia.
Qed.

(** ** A cluster, as far as its sessions go *)

(** Its log with the reply of each applied operation, how much of it is pruned
    from memory, its session table, and whether it leads. *)
Record Exec : Type := mkExec {
  x_log : list LogEntry;
  x_replies : list (list byte);
  x_floor : nat;
  x_table : Table;
  x_primary : bool;
}.

Definition exec_init : Exec := mkExec [] [] 0 ∅ false.

(** The in-memory log above the pruned prefix. *)
Definition in_memory (floor : nat) (log : list LogEntry) : list LogEntry := drop floor log.

Section exactly_once.
Context (cfg : Config).

(** The clients of the system; they fit the session cap. *)
Context (P : gset Z) (HP : Z.of_nat (size P) <= c_max_client_sessions cfg) (HR : RECONFIGURATION ∉ P).

Definition from_population (log : list LogEntry) : Prop := Forall (fun e => l_client e ∈ P \/ l_client e = RECONFIGURATION) log.

(** A checkpoint: the log it covers, the replies of that log, and the sessions then. *)
Record Checkpointed : Type := mkCheckpointed {
  ck_log : list LogEntry;
  ck_replies : list (list byte);
  ck_table : Table;
}.

(** The replicas, every log one of them ever held, and every checkpoint one ever took. *)
Record Cluster : Type := mkCluster {
  cl_replica : Z -> Exec;
  cl_logs : list (list LogEntry);
  cl_checkpoints : list Checkpointed;
}.

Definition cluster_init : Cluster := mkCluster (fun _ => exec_init) [[]] [].

(** A log that reached a replica from another: up to some op, the log one of them held. *)
Definition carried (cl : Cluster) (log : list LogEntry) : Prop :=
  exists held, held ∈ cl_logs cl /\ log `prefix_of` held.

(** A log a replica may adopt: carried, and keeping what it applied (which is committed,
    and every view keeps what is committed). *)
Definition adoptable (cl : Cluster) (s : Exec) (floor : nat) (log : list LogEntry) : Prop :=
  carried cl log /\ (floor <= length (x_replies s))%nat /\ (length (x_replies s) <= length log)%nat /\
  take (length (x_replies s)) log = take (length (x_replies s)) (x_log s).

(** Entries are minted only by [exec_accept] and [exec_reconfigure]: every other log comes
    from one already held.  A configuration change is applied past the sessions
    ([exec_stage]).  [exec_restore] is a restart from an own checkpoint and the install of
    one taken elsewhere. *)
Inductive exec_step (cl : Cluster) : Exec -> Exec -> Prop :=
| exec_accept s e :
    x_primary s = true -> l_client e ∈ P ->
    dedup (session_table_hard_bound cfg) (x_table s) (l_client e) (l_request e) = Fresh ->
    exec_step cl s (mkExec (x_log s ++ [e]) (x_replies s) (x_floor s)
                   (accept (x_table s) (l_client e) (l_request e)) true)
| exec_reconfigure s e :
    x_primary s = true -> l_client e = RECONFIGURATION ->
    exec_step cl s (mkExec (x_log s ++ [e]) (x_replies s) (x_floor s) (x_table s) true)
| exec_stage s e :
    x_log s !! length (x_replies s) = Some e -> l_client e = RECONFIGURATION ->
    exec_step cl s (mkExec (x_log s) (x_replies s ++ [[]]) (x_floor s) (x_table s) (x_primary s))
| exec_apply s e reply :
    x_log s !! length (x_replies s) = Some e -> l_client e <> RECONFIGURATION ->
    exec_step cl s (mkExec (x_log s) (x_replies s ++ [reply]) (x_floor s)
                   (note_applied_session (c_max_client_sessions cfg) (x_table s)
                      (zlen (x_replies s) + 1) (l_client e) (l_request e) reply).1 (x_primary s))
| exec_append s e :
    x_primary s = false -> carried cl (x_log s ++ [e]) ->
    exec_step cl s (mkExec (x_log s ++ [e]) (x_replies s) (x_floor s) (x_table s) false)
| exec_prune s floor :
    (x_floor s <= floor <= length (x_replies s))%nat ->
    exec_step cl s (mkExec (x_log s) (x_replies s) floor (x_table s) (x_primary s))
| exec_truncate s n :
    x_primary s = true -> (length (x_replies s) <= n <= length (x_log s))%nat ->
    exec_step cl s (mkExec (take n (x_log s)) (x_replies s) (x_floor s)
                   (roll_back_truncated (drop n (x_log s)) (in_memory (x_floor s) (take n (x_log s)))
                      (x_table s)) true)
| exec_follow s floor log :
    adoptable cl s floor log ->
    exec_step cl s (mkExec log (x_replies s) floor
                   (reconcile_session_watermarks (in_memory floor log) (drop_provisional (x_table s)))
                   false)
| exec_lead s floor log :
    adoptable cl s floor log ->
    exec_step cl s (mkExec log (x_replies s) floor
                   (reconcile_session_watermarks (in_memory floor log)
                      (backfill (in_memory floor log)
                         (reconcile_session_watermarks (in_memory floor log)
                            (drop_provisional (x_table s))))) true)
| exec_restore s ck floor log :
    ck ∈ cl_checkpoints cl -> carried cl log -> ck_log ck `prefix_of` log -> (floor <= length (ck_replies ck))%nat ->
    exec_step cl s (mkExec log (ck_replies ck) floor (ck_table ck) false).

(** The sessions a checkpoint persists are the committed projection of the table. *)
Definition checkpoint_of (s : Exec) : Checkpointed :=
  mkCheckpointed (take (length (x_replies s)) (x_log s)) (x_replies s) (committed_session_projection (x_table s)).

Inductive cluster_step : Cluster -> Cluster -> Prop :=
| cluster_moves cl r s : exec_step cl (cl_replica cl r) s ->
    cluster_step cl (mkCluster (<[r := s]> (cl_replica cl)) (x_log s :: cl_logs cl) (cl_checkpoints cl))
| cluster_checkpoints cl r :
    cluster_step cl (mkCluster (cl_replica cl) (cl_logs cl) (checkpoint_of (cl_replica cl r) :: cl_checkpoints cl)).

Inductive cluster_reachable : Cluster -> Prop :=
| cluster_starts : cluster_reachable cluster_init
| cluster_steps cl cl' : cluster_reachable cl -> cluster_step cl cl' -> cluster_reachable cl'.

(** ** Its invariant *)

Definition applied_log (s : Exec) : list LogEntry := take (length (x_replies s)) (x_log s).

(** An adoptable log whose requests are in order. *)
Definition fitting (s : Exec) (floor : nat) (log : list LogEntry) : Prop :=
  sequential log /\ from_population log /\ (floor <= length (x_replies s))%nat /\
  (length (x_replies s) <= length log)%nat /\
  take (length (x_replies s)) log = take (length (x_replies s)) (x_log s).

(** A cached reply is the reply of an execution of that request. *)
Definition reply_recorded (s : Exec) (c : ClientId) : Prop :=
  forall rn body, ss_reply (row (x_table s) c) = Some (rn, body) ->
  exists i e, x_log s !! i = Some e /\ l_client e = c /\ l_request e = rn /\
    x_replies s !! i = Some body.

Definition session_ok (s : Exec) (c : ClientId) : Prop :=
  reply_request (row (x_table s) c) = count_of c (applied_log s) /\
  count_of c (applied_log s) <= ss_request (row (x_table s) c) /\
  (x_primary s = true -> ss_request (row (x_table s) c) = count_of c (x_log s)).

Definition exec_inv (s : Exec) : Prop :=
  sequential (x_log s) /\ from_population (x_log s) /\
  (x_floor s <= length (x_replies s))%nat /\ (length (x_replies s) <= length (x_log s))%nat /\
  rows_ok (x_table s) /\ (forall c, is_Some (stamps (x_table s) !! c) -> c ∈ P) /\
  (forall c o, stamps (x_table s) !! c = Some o -> o <= zlen (x_replies s)) /\
  (forall c, c <> RECONFIGURATION -> session_ok s c) /\ (forall c, reply_recorded s c).

Lemma row_insert t c s c' : row (<[c := s]> t) c' = if decide (c = c') then s else row t c'.
Proof. unfold row. rewrite lookup_insert. by case_decide. Qed.

Lemma lookup_stamps_row t c :
  stamps t !! c = if 0 <? ss_last_op (row t c) then Some (ss_last_op (row t c)) else None.
Proof. rewrite lookup_stamps. unfold row. by destruct (t !! c). Qed.

(** Tables that differ in watermarks only. *)
Definition same_rows (t t' : Table) : Prop :=
  forall c, ss_reply (row t' c) = ss_reply (row t c) /\ ss_last_op (row t' c) = ss_last_op (row t c).

Lemma same_rows_trans t u v : same_rows t u -> same_rows u v -> same_rows t v.
Proof. intros H1 H2 c. destruct (H1 c) as [<- <-], (H2 c) as [<- <-]. done. Qed.

Lemma row_reconcile log t c :
  row (reconcile_session_watermarks log t) c = roll_back log c (row t c).
Proof.
  unfold row, reconcile_session_watermarks. rewrite map_lookup_imap.
  destruct (t !! c) as [s|]; [done|]. simpl. unfold roll_back. simpl.
  pose proof (max_or_zero_nonneg (requests_of c log)) as Hh. unfold highest_in_log.
  fold (requests_of c log). by rewrite (proj2 (Z.ltb_ge _ _)) by lia.
Qed.

Lemma row_drop t c :
  rows_ok t -> same_rows t (drop_provisional t) /\
  (ss_request (row (drop_provisional t) c) = ss_request (row t c) \/
   ss_request (row (drop_provisional t) c) = 0 /\ reply_request (row t c) = 0).
Proof.
  intros Hok.
  assert (forall c, row (drop_provisional t) c
            = if decide (0 < ss_last_op (row t c)) then row t c else session_default) as Hrow.
  { intros c'. unfold row, drop_provisional. rewrite map_lookup_filter.
    destruct (t !! c') as [s|]; [|done]. simpl. by repeat case_decide. }
  split.
  - intros c'. rewrite Hrow. case_decide; [done|]. destruct (row_row_ok t c' Hok) as [? Hs].
    assert (ss_last_op (row t c') = 0) as E by lia. by rewrite E, (proj1 Hs E).
  - rewrite Hrow. case_decide; [by left|right]. destruct (row_row_ok t c Hok) as [? Hs].
    split; [done|]. unfold reply_request. by rewrite (proj1 Hs) by lia.
Qed.

Lemma row_backfill log t c :
  0 <= ss_request (row t c) ->
  row (backfill log t) c
  = mkSession (Z.max (ss_request (row t c)) (highest_in_log log c)) (ss_reply (row t c))
      (ss_last_op (row t c)).
Proof.
  unfold highest_in_log. fold (requests_of c log).
  revert t. induction log as [|e log IH]; intros t Ht.
  - simpl. rewrite Z.max_l by done. by destruct (row t c).
  - cbn [backfill foldl].
    match goal with |- context [foldl ?f ?t1 log] => change (foldl f t1 log) with (backfill log t1) end.
    change (requests_of c (e :: log)) with (requests_of c ([e] ++ log)).
    rewrite requests_of_app, requests_of_one. cbv zeta.
    rewrite IH; rewrite row_insert; case_decide as Ec; try done;
      rewrite ?Ec in *; destruct (Z.ltb_spec (ss_request (row t c)) (l_request e)); simpl; try lia;
      f_equal; lia.
Qed.

Lemma row_truncated removed survivors t c :
  row (roll_back_truncated removed survivors t) c
  = if decide (c ∈ map l_client removed) then roll_back survivors c (row t c) else row t c.
Proof.
  unfold roll_back_truncated.
  assert (c ∈ map l_client removed <-> c ∈ elements (list_to_set (C := gset Z) (map l_client removed)))
    as Hiff by (by rewrite elem_of_elements, elem_of_list_to_set).
  pose proof (NoDup_elements (list_to_set (C := gset Z) (map l_client removed))) as Hnd.
  revert Hiff Hnd. generalize (elements (list_to_set (C := gset Z) (map l_client removed))).
  intros cs Hiff Hnd. rewrite (decide_ext (c ∈ map l_client removed) (c ∈ cs)) by exact Hiff. clear Hiff. revert t.
  assert (forall t c0, row (match t !! c0 with Some s => <[c0 := roll_back survivors c0 s]> t | None => t end) c
            = if decide (c0 = c) then roll_back survivors c (row t c) else row t c) as Hone.
  { intros t c0. destruct (t !! c0) as [s|] eqn:E.
    - rewrite row_insert. case_decide; [|done]. subst c0. unfold row. by rewrite E.
    - case_decide; [|done]. subst c0. pose proof (row_reconcile survivors t c) as Hr.
      unfold row, reconcile_session_watermarks in *. rewrite map_lookup_imap, E in Hr.
      rewrite E. exact Hr. }
  induction Hnd as [|c0 cs Hc0 Hnd IH]; intros t; [done|]. cbn [foldl]. rewrite IH, Hone.
  repeat case_decide; subst; try done; set_solver.
Qed.

(** The applied prefix keeps its meaning when only watermarks and the unapplied
    log change. *)
Lemma exec_inv_rewrite s s' :
  exec_inv s -> same_rows (x_table s) (x_table s') -> rows_ok (x_table s') ->
  x_replies s' = x_replies s -> applied_log s' = applied_log s ->
  sequential (x_log s') -> from_population (x_log s') ->
  (x_floor s' <= length (x_replies s))%nat -> (length (x_replies s) <= length (x_log s'))%nat ->
  (forall c, c <> RECONFIGURATION -> count_of c (applied_log s) <= ss_request (row (x_table s') c) /\
     (x_primary s' = true -> ss_request (row (x_table s') c) = count_of c (x_log s'))) ->
  exec_inv s'.
Proof.
  intros (_ & _ & _ & Hlen & Hok & HinP & Hb & Hsess & Hrec) Hsame Hok' Er Ea Hseq Hpop Hf Hl Hwm.
  assert (forall c, stamps (x_table s') !! c = stamps (x_table s) !! c) as Hst.
  { intros c. rewrite !lookup_stamps_row. by destruct (Hsame c) as [_ ->]. }
  unfold exec_inv. rewrite Er. split_and!; try done; try lia.
  - intros c. rewrite Hst. apply HinP.
  - intros c. rewrite Hst. apply Hb.
  - intros c Hc. unfold session_ok. rewrite Ea. destruct (Hsess c Hc) as [Hr _], (Hsame c) as [E _].
    unfold reply_request. rewrite E. destruct (Hwm c Hc). by split_and!.
  - intros c rn body. destruct (Hsame c) as [-> _]. intros H.
    destruct (Hrec c rn body H) as (i & e & Hi & ? & ? & Hri). exists i, e. rewrite Er.
    split_and!; try done.
    pose proof (lookup_lt_Some _ _ _ Hri) as Hlt.
    rewrite <-(lookup_take_lt (x_log s) (length (x_replies s)) i) in Hi by lia.
    unfold applied_log in Ea. rewrite Er in Ea. rewrite <-Ea, lookup_take_lt in Hi by lia. exact Hi.
Qed.

Lemma count_take_le c log n m :
  (n <= m)%nat -> count_of c (take n log) <= count_of c (take m log).
Proof.
  intros Hnm. rewrite <-(take_drop n (take m log)), take_take, Nat.min_l, count_of_app by done.
  pose proof (count_of_nonneg c (drop n (take m log))). lia.
Qed.

Lemma count_take_all c log n : count_of c (take n log) <= count_of c log.
Proof.
  rewrite <-(take_drop n log) at 2. rewrite count_of_app.
  pose proof (count_of_nonneg c (drop n log)). lia.
Qed.

(** Applied requests and the in-memory log together back exactly the log. *)
Lemma backed_count log floor n c :
  sequential log -> c <> RECONFIGURATION -> (floor <= n)%nat ->
  Z.max (count_of c (take n log)) (highest_in_log (in_memory floor log) c) = count_of c log.
Proof.
  intros Hseq Hc Hf. unfold in_memory.
  assert (sequential (take floor log ++ drop floor log)) as Hs by (by rewrite take_drop).
  rewrite (highest_above (take floor log) (drop floor log) c Hs Hc), take_drop.
  pose proof (count_take_le c log floor n Hf). pose proof (count_take_all c log n).
  pose proof (count_of_nonneg c (take n log)).
  pose proof (count_of_app c (take floor log) (drop floor log)) as E. rewrite take_drop in E.
  destruct (Z.ltb_spec 0 (count_of c (drop floor log))); lia.
Qed.

Lemma dedup_fresh bound t c r : dedup bound t c r = Fresh -> r = ss_request (row t c) + 1.
Proof.
  unfold dedup, row. destruct (t !! c) as [s|]; simpl.
  - destruct (Z.ltb_spec r (ss_request s)); [done|].
    destruct (Z.eqb_spec r (ss_request s)); [by repeat case_match|].
    by destruct (Z.eqb_spec r (ss_request s + 1)).
  - by destruct (Z.eqb_spec r 1).
Qed.

Lemma client_known c : c ∈ P -> c <> RECONFIGURATION.
Proof. intros Hc ->. done. Qed.

Lemma accept_inv s e :
  exec_inv s -> x_primary s = true -> l_client e ∈ P ->
  dedup (session_table_hard_bound cfg) (x_table s) (l_client e) (l_request e) = Fresh ->
  exec_inv (mkExec (x_log s ++ [e]) (x_replies s) (x_floor s)
              (accept (x_table s) (l_client e) (l_request e)) true).
Proof.
  intros Hinv Hp HeP Hd. pose proof Hinv as (Hseq & Hpop & Hf & Hl & Hok & _ & _ & Hsess & _).
  pose proof (client_known _ HeP) as Hne.
  assert (l_request e = count_of (l_client e) (x_log s) + 1) as Hr.
  { rewrite (dedup_fresh _ _ _ _ Hd). by destruct (Hsess (l_client e) Hne) as (_ & _ & ->). }
  apply (exec_inv_rewrite s); try done; simpl.
  - intros c. unfold accept. rewrite row_insert. by case_decide as E; [rewrite E|].
  - by apply accept_committed.
  - unfold applied_log. simpl. by rewrite take_app_le.
  - by apply sequential_snoc.
  - apply Forall_app. split; [done|]. constructor; [by left|done].
  - rewrite length_app. lia.
  - intros c Hc. destruct (Hsess c Hc) as (_ & Hle & Heq). specialize (Heq Hp).
    rewrite count_of_app. unfold count_of at 3. rewrite requests_of_one.
    unfold accept. rewrite row_insert. case_decide as E; simpl; [subst c|split; [done|lia]].
    split; [|lia]. pose proof (count_take_all (l_client e) (x_log s) (length (x_replies s))).
    unfold applied_log. lia.
Qed.

(** A session row exists for each applied client, so none is ever evicted. *)
Lemma stamps_fit (t : Table) :
  (forall c, is_Some (stamps t !! c) -> c ∈ P) -> Z.of_nat (size (stamps t)) <= Z.of_nat (size P) /\
  forall c, c ∈ P -> stamps t !! c = None -> Z.of_nat (size (stamps t)) < Z.of_nat (size P).
Proof.
  intros H. rewrite <-size_dom.
  assert (dom (stamps t) ⊆ P) as Hsub by (intros c Hc%elem_of_dom; auto).
  split; [pose proof (subseteq_size _ _ Hsub); lia|].
  intros c Hc HN. assert (dom (stamps t) ⊂ P) as Hlt%subset_size; [|lia].
  split; [done|]. intros Hsup. specialize (Hsup c Hc). apply elem_of_dom in Hsup as [? ?]. congruence.
Qed.

Lemma apply_no_eviction s e reply :
  exec_inv s -> l_client e ∈ P ->
  (note_applied_session (c_max_client_sessions cfg) (x_table s)
     (zlen (x_replies s) + 1) (l_client e) (l_request e) reply).1
  = <[l_client e := applied_row (row (x_table s) (l_client e)) (zlen (x_replies s) + 1)
                      (l_request e) reply]> (x_table s).
Proof.
  intros (_ & _ & _ & _ & Hok & HinP & Hb & _) HeP.
  destruct (stamps_fit (x_table s) HinP) as [Hfit Hlt].
  assert (1 <= Z.of_nat (size P)).
  { assert ({[l_client e]} ⊆ P) as Hs%subseteq_size by set_solver. rewrite size_singleton in Hs. lia. }
  destruct (note_cases (c_max_client_sessions cfg) (zlen (x_replies s)) (x_table s)
              (zlen (x_replies s) + 1) (l_client e) (l_request e) reply)
    as [[-> _]|(v & o & _ & _ & HN & Hs & _)]; [|lia..|done|].
  - split_and!; [done|lia|done].
  - specialize (Hlt (l_client e) HeP HN). lia.
Qed.

Lemma applied_row_reply s op request reply :
  reply_request s <= request -> ss_reply (applied_row s op request reply) = Some (request, reply).
Proof.
  unfold reply_request, applied_row. destruct (ss_reply s) as [[rn b]|]; simpl; [|done].
  intros. by rewrite (proj2 (Z.leb_le _ _)).
Qed.

(** The next operation to apply is its client's next request. *)
Lemma next_request s e :
  exec_inv s -> x_log s !! length (x_replies s) = Some e -> l_client e <> RECONFIGURATION ->
  take (S (length (x_replies s))) (x_log s) = applied_log s ++ [e] /\
  l_request e = count_of (l_client e) (applied_log s) + 1 /\
  l_request e <= count_of (l_client e) (x_log s) /\ l_client e ∈ P.
Proof.
  intros (Hseq & Hpop & _) He Hne.
  assert (take (S (length (x_replies s))) (x_log s) = applied_log s ++ [e]) as Et
    by (by apply take_S_r).
  assert (l_request e = count_of (l_client e) (applied_log s) + 1) as Hr.
  { apply sequential_snoc; [done|]. rewrite <-Et. eapply sequential_prefix. by rewrite take_drop. }
  split_and!; [done|done| |by eapply Forall_lookup in Hpop as [?|?]; [..|exact He]].
  pose proof (count_take_all (l_client e) (x_log s) (S (length (x_replies s)))) as Hc.
  rewrite Et, count_of_app in Hc. unfold count_of in Hc at 2.
  rewrite requests_of_one, decide_True in Hc by done. simpl in Hc. lia.
Qed.

Definition apply_next (s : Exec) (e : LogEntry) (reply : list byte) : Exec :=
  mkExec (x_log s) (x_replies s ++ [reply]) (x_floor s)
    (<[l_client e := applied_row (row (x_table s) (l_client e)) (zlen (x_replies s) + 1)
                       (l_request e) reply]> (x_table s)) (x_primary s).

Lemma applied_log_next s e reply :
  exec_inv s -> x_log s !! length (x_replies s) = Some e -> l_client e <> RECONFIGURATION ->
  applied_log (apply_next s e reply) = applied_log s ++ [e].
Proof.
  intros Hinv He Hne. unfold applied_log at 1. cbn [x_log x_replies apply_next].
  rewrite length_app. cbn [length]. rewrite Nat.add_1_r. by apply next_request.
Qed.

Lemma apply_session s e reply c :
  exec_inv s -> x_log s !! length (x_replies s) = Some e -> l_client e <> RECONFIGURATION ->
  (c <> RECONFIGURATION -> session_ok (apply_next s e reply) c) /\ reply_recorded (apply_next s e reply) c.
Proof.
  intros Hinv He Hne. destruct (next_request s e Hinv He Hne) as (_ & Hr & Hcap & _).
  pose proof Hinv as (_ & _ & _ & _ & _ & _ & _ & Hsess & Hrec).
  pose proof (applied_log_next s e reply Hinv He Hne) as Ea.
  split.
  { intros Hc. destruct (Hsess c Hc) as (Hrep & Hle & Heq). unfold session_ok.
    rewrite Ea, count_of_app. unfold count_of at 2 4. rewrite requests_of_one.
    cbn [x_table apply_next x_log x_replies x_primary]. rewrite row_insert.
    case_decide as Ec; [subst c|cbn [length]; rewrite Z.add_0_r; by split_and!].
    unfold reply_request. rewrite applied_row_reply by lia. unfold applied_row. cbn [ss_request length].
    destruct (Z.ltb_spec (ss_request (row (x_table s) (l_client e))) (l_request e)); split_and!; try lia; intros Hp; specialize (Heq Hp); lia. }
  unfold reply_recorded. cbn [x_table apply_next x_log x_replies]. rewrite row_insert. intros rn body. case_decide as Ec.
  - subst c. destruct (Hsess (l_client e) Hne) as (Hrep & _ & _). rewrite applied_row_reply by lia.
    intros [= <- <-]. exists (length (x_replies s)), e. by rewrite lookup_app_r, Nat.sub_diag.
  - intros H. destruct (Hrec c rn body H) as (i & e' & ? & ? & ? & Hi).
    exists i, e'. split_and!; try done. by apply lookup_app_l_Some.
Qed.

Lemma apply_inv s e reply :
  exec_inv s -> x_log s !! length (x_replies s) = Some e -> l_client e <> RECONFIGURATION ->
  exec_inv (mkExec (x_log s) (x_replies s ++ [reply]) (x_floor s)
              (note_applied_session (c_max_client_sessions cfg) (x_table s)
                 (zlen (x_replies s) + 1) (l_client e) (l_request e) reply).1 (x_primary s)).
Proof.
  intros Hinv He Hne. pose proof Hinv as (Hseq & Hpop & Hf & Hl & Hok & HinP & Hb & _).
  destruct (next_request s e Hinv He Hne) as (_ & _ & _ & HeP).
  rewrite (apply_no_eviction s e reply Hinv HeP). fold (apply_next s e reply).
  pose proof (lookup_lt_Some _ _ _ He) as Hlt.
  assert (forall c, (c <> RECONFIGURATION -> session_ok (apply_next s e reply) c) /\ reply_recorded (apply_next s e reply) c)
    as Hses by (intros c; by apply apply_session).
  split_and!; [done|done|..]; try (intros c; by apply Hses);
    cbn [apply_next x_log x_replies x_floor x_table].
  - rewrite length_app. lia.
  - rewrite length_app. simpl. lia.
  - apply rows_ok_insert; [done|]. apply applied_row_ok. lia.
  - intros c. rewrite stamps_insert by (simpl; lia). rewrite lookup_insert.
    case_decide; [by subst|]. apply HinP.
  - intros c o. rewrite stamps_insert by (simpl; lia). rewrite lookup_insert, length_app.
    case_decide; [intros [= <-]; simpl; lia|]. intros Ho. specialize (Hb c o Ho). simpl. lia.
Qed.

(** A configuration change is minted and applied past the sessions. *)
Lemma reconfigure_inv s e :
  exec_inv s -> x_primary s = true -> l_client e = RECONFIGURATION ->
  exec_inv (mkExec (x_log s ++ [e]) (x_replies s) (x_floor s) (x_table s) true).
Proof.
  intros Hinv Hp He. pose proof Hinv as (Hseq & Hpop & Hf & Hl & Hok & _ & _ & Hsess & _).
  apply (exec_inv_rewrite s); try done; cbn.
  - unfold applied_log. cbn. by rewrite take_app_le.
  - by apply sequential_reconfigure.
  - apply Forall_app. split; [done|]. constructor; [by right|done].
  - rewrite length_app. lia.
  - intros c Hc. destruct (Hsess c Hc) as (_ & Hle & Heq). split; [done|]. intros _. rewrite (Heq Hp), count_of_app.
    unfold count_of at 3. rewrite requests_of_one, decide_False by congruence. cbn. lia.
Qed.

Lemma stage_inv s e :
  exec_inv s -> x_log s !! length (x_replies s) = Some e -> l_client e = RECONFIGURATION ->
  exec_inv (mkExec (x_log s) (x_replies s ++ [[]]) (x_floor s) (x_table s) (x_primary s)).
Proof.
  intros (Hseq & Hpop & Hf & Hl & Hok & HinP & Hb & Hsess & Hrec) He Hr. pose proof (lookup_lt_Some _ _ _ He) as Hlt.
  split_and!; cbn; try done; try (rewrite length_app; cbn; lia).
  - intros c o Ho. specialize (Hb c o Ho). rewrite length_app. cbn. lia.
  - intros c Hc. destruct (Hsess c Hc) as (H1 & H2 & H3). unfold session_ok, applied_log in *. cbn.
    rewrite length_app, Nat.add_1_r. rewrite (take_S_r _ _ _ He), count_of_app. unfold count_of at 2 4.
    rewrite requests_of_one, decide_False by congruence. cbn [length]. rewrite Z.add_0_r. by split_and!.
  - intros c rn body H. destruct (Hrec c rn body H) as (i & e' & ? & ? & ? & Hi). exists i, e'. split_and!; try done.
    by apply lookup_app_l_Some.
Qed.

Lemma truncate_inv s n :
  exec_inv s -> x_primary s = true -> (length (x_replies s) <= n <= length (x_log s))%nat ->
  exec_inv (mkExec (take n (x_log s)) (x_replies s) (x_floor s)
              (roll_back_truncated (drop n (x_log s)) (in_memory (x_floor s) (take n (x_log s)))
                 (x_table s)) true).
Proof.
  intros Hinv Hp Hn. pose proof Hinv as (Hseq & Hpop & Hf & Hl & Hok & _ & _ & Hsess & _).
  assert (sequential (take n (x_log s))) as Hseq'
    by (eapply sequential_prefix; by rewrite take_drop).
  assert (applied_log s = take (length (x_replies s)) (take n (x_log s))) as Ea
    by (unfold applied_log; by rewrite take_take, Nat.min_l by lia).
  apply (exec_inv_rewrite s); try done; simpl.
  - intros c. rewrite row_truncated. by case_decide.
  - by apply roll_back_committed.
  - by apply Forall_take.
  - rewrite length_take. lia.
  - intros c Hnc. destruct (Hsess c Hnc) as (Hrep & Hle & Heq). specialize (Heq Hp).
    rewrite row_truncated. case_decide as Hc.
    + unfold roll_back. cbn [ss_request]. rewrite Hrep, Ea, backed_count, Heq by (done || lia).
      pose proof (count_take_all c (x_log s) n). pose proof (count_take_all c (take n (x_log s)) (length (x_replies s))).
      destruct (Z.ltb_spec (count_of c (take n (x_log s))) (count_of c (x_log s))); split; intros; lia.
    + split; [done|]. intros _. rewrite Heq.
      assert (count_of c (drop n (x_log s)) = 0) as Hz.
      { unfold count_of, requests_of. rewrite length_map. rewrite filter_all_false; [done|].
        apply Forall_forall. intros e He Ec. apply Hc. rewrite <-Ec. by apply list_elem_of_fmap_2. }
      rewrite <-(take_drop n (x_log s)) at 1. rewrite count_of_app. lia.
Qed.

(** Adoption: after the provisional rows are dropped and the watermarks rolled
    back, each lies between the applied and the logged requests. *)
Lemma adopt_watermark s floor log c :
  exec_inv s -> fitting s floor log ->
  let t := reconcile_session_watermarks (in_memory floor log) (drop_provisional (x_table s)) in
  same_rows (x_table s) t /\ rows_ok t /\
  (c <> RECONFIGURATION -> count_of c (applied_log s) <= ss_request (row t c) <= count_of c log).
Proof.
  intros Hinv (Hseq & _ & Hf & _ & Ha) t.
  pose proof Hinv as (_ & _ & _ & _ & Hok & _ & _ & Hsess & _).
  destruct (row_drop (x_table s) c Hok) as [Hsame Hreq].
  destruct (drop_committed (x_table s) Hok) as [_ Hok1].
  destruct (reconcile_committed (in_memory floor log) _ Hok1) as [_ Hok2].
  split_and!; [|done|].
  { eapply same_rows_trans; [exact Hsame|]. intros c'. unfold t. by rewrite row_reconcile. }
  intros Hc. destruct (Hsess c Hc) as (Hrep & Hle & _). pose proof (count_of_nonneg c (applied_log s)). split.
  - unfold t. rewrite row_reconcile. unfold roll_back. cbn [ss_request].
    assert (reply_request (row (drop_provisional (x_table s)) c) = count_of c (applied_log s)) as ->
      by (rewrite <-Hrep; unfold reply_request; by destruct (Hsame c) as [-> _]).
    destruct (Z.ltb_spec (Z.max (count_of c (applied_log s)) (highest_in_log (in_memory floor log) c))
                (ss_request (row (drop_provisional (x_table s)) c))); lia.
  - unfold t. rewrite row_reconcile. unfold roll_back. cbn [ss_request].
    assert (reply_request (row (drop_provisional (x_table s)) c) = count_of c (applied_log s)) as ->
      by (rewrite <-Hrep; unfold reply_request; by destruct (Hsame c) as [-> _]).
    unfold applied_log. rewrite <-Ha, backed_count by done.
    destruct (Z.ltb_spec (count_of c log) (ss_request (row (drop_provisional (x_table s)) c))); lia.
Qed.

Lemma adopt_inv s floor log t primary_ :
  exec_inv s -> fitting s floor log -> same_rows (x_table s) t -> rows_ok t ->
  (forall c, c <> RECONFIGURATION -> count_of c (applied_log s) <= ss_request (row t c) /\
     (primary_ = true -> ss_request (row t c) = count_of c log)) ->
  exec_inv (mkExec log (x_replies s) floor t primary_).
Proof.
  intros Hinv (Hseq & Hpop & Hf & Hl & Ha) Hsame Hok Hwm. by apply (exec_inv_rewrite s).
Qed.

Lemma same_backfill log t : same_rows t (backfill log t).
Proof.
  revert t. induction log as [|e log IH]; intros t; [by intros c|]. cbn [backfill foldl]. cbv zeta.
  eapply same_rows_trans; [|apply IH]. intros c. rewrite row_insert. case_decide; [subst c|done].
  by destruct (_ <? _).
Qed.

Lemma lead_watermark s floor log :
  exec_inv s -> fitting s floor log ->
  let t0 := reconcile_session_watermarks (in_memory floor log) (drop_provisional (x_table s)) in
  let t := reconcile_session_watermarks (in_memory floor log) (backfill (in_memory floor log) t0) in
  same_rows (x_table s) t /\ rows_ok t /\ forall c, c <> RECONFIGURATION -> ss_request (row t c) = count_of c log.
Proof.
  intros Hinv Had t0 t. destruct (adopt_watermark s floor log 0 Hinv Had) as (Hsame & Hok0 & _). fold t0 in Hsame, Hok0.
  destruct (backfill_committed (in_memory floor log) t0 Hok0) as [_ Hok1].
  destruct (reconcile_committed (in_memory floor log) _ Hok1) as [_ Hok2].
  split_and!; [|done|].
  - eapply same_rows_trans; [exact Hsame|]. eapply same_rows_trans; [apply same_backfill|]. intros c. unfold t. by rewrite row_reconcile.
  - intros c Hc. destruct (adopt_watermark s floor log c Hinv Had) as (_ & _ & Hwm). fold t0 in Hwm. specialize (Hwm Hc).
    pose proof (count_of_nonneg c (applied_log s)). unfold t. rewrite row_reconcile, row_backfill by lia.
    unfold roll_back, reply_request. cbn [ss_request ss_reply]. fold (reply_request (row t0 c)).
    assert (reply_request (row t0 c) = count_of c (applied_log s)) as ->.
    { destruct Hinv as (_ & _ & _ & _ & _ & _ & _ & Hsess & _). destruct (Hsess c Hc) as [<- _].
      unfold reply_request. by destruct (Hsame c) as [-> _]. }
    destruct Had as (Hseq & _ & Hf & _ & Ha). pose proof (backed_count log floor _ c Hseq Hc Hf) as Hb.
    rewrite Ha in Hb. fold (applied_log s) in Hb. rewrite Hb.
    match goal with |- (if ?a <? ?b then _ else _) = _ => destruct (Z.ltb_spec a b); lia end.
Qed.

(** What every log ever held is, and every checkpoint ever taken. *)
Definition in_order (log : list LogEntry) : Prop := sequential log /\ from_population log.

Definition checkpoint_ok (ck : Checkpointed) : Prop :=
  (length (ck_replies ck) = length (ck_log ck))%nat /\
  exec_inv (mkExec (ck_log ck) (ck_replies ck) 0 (ck_table ck) false).

Definition cluster_inv (cl : Cluster) : Prop :=
  (forall log, log ∈ cl_logs cl -> in_order log) /\ (forall ck, ck ∈ cl_checkpoints cl -> checkpoint_ok ck) /\
  forall r, exec_inv (cl_replica cl r).

Lemma carried_in_order cl log : cluster_inv cl -> carried cl log -> in_order log.
Proof.
  intros (Hl & _) (held & Hh & [rest ->]). destruct (Hl _ Hh) as [Hs Hp]. split; [by eapply sequential_prefix|].
  by apply Forall_app in Hp as [? _].
Qed.

Lemma adoptable_fitting cl s floor log : cluster_inv cl -> adoptable cl s floor log -> fitting s floor log.
Proof. intros Hc (Hl & Hf & Hn & Ha). by destruct (carried_in_order _ _ Hc Hl). Qed.

Lemma reply_kept t c : rows_ok t -> reply_request (row (committed_session_projection t) c) = reply_request (row t c) /\
  ss_reply (row (committed_session_projection t) c) = ss_reply (row t c) /\
  ss_request (row (committed_session_projection t) c) = reply_request (row t c).
Proof.
  intros Hok. rewrite row_projection by done. unfold committed_row, reply_request. destruct (ss_reply (row t c)) as [[rn b]|] eqn:E; cbn; by rewrite ?E.
Qed.

Lemma checkpoint_inv s : exec_inv s -> checkpoint_ok (checkpoint_of s).
Proof.
  intros (Hseq & Hpop & Hf & Hl & Hok & HinP & Hb & Hsess & Hrec). unfold checkpoint_ok, checkpoint_of. cbn.
  assert (Hlen : length (take (length (x_replies s)) (x_log s)) = length (x_replies s)) by (rewrite length_take; lia).
  split; [by rewrite Hlen|]. split_and!; cbn.
  - eapply sequential_prefix. by rewrite take_drop.
  - by apply Forall_take.
  - lia.
  - lia.
  - by apply rows_ok_projection.
  - intros c. rewrite stamps_projection by done. apply HinP.
  - intros c o. rewrite stamps_projection by done. apply Hb.
  - intros c Hc. destruct (Hsess c Hc) as (Hr & _), (reply_kept (x_table s) c Hok) as (E1 & _ & E3). unfold session_ok, applied_log. cbn.
    rewrite take_take, Nat.min_id, E1, E3. unfold applied_log in Hr. by rewrite Hr.
  - intros c rn body. cbn. destruct (reply_kept (x_table s) c Hok) as (_ & -> & _). intros Hb'. destruct (Hrec c rn body Hb') as (i & e & Hi & ? & ? & Hri).
    exists i, e. split_and!; try done. rewrite lookup_take_lt; [done|]. by apply lookup_lt_Some in Hri.
Qed.

Lemma restore_inv cl ck floor log :
  cluster_inv cl -> ck ∈ cl_checkpoints cl -> carried cl log -> ck_log ck `prefix_of` log -> (floor <= length (ck_replies ck))%nat ->
  exec_inv (mkExec log (ck_replies ck) floor (ck_table ck) false).
Proof.
  intros Hc Hck Hl [rest ->] Hf. destruct (carried_in_order _ _ Hc Hl) as [Hseq Hpop]. destruct Hc as (_ & Hcks & _).
  destruct (Hcks _ Hck) as [Hlen Hinv]. pose proof Hinv as (_ & _ & _ & _ & Hok & _ & _ & Hsess & _).
  apply (exec_inv_rewrite _ _ Hinv); cbn; try done.
  - unfold applied_log. cbn. by rewrite take_app_le, take_ge by lia.
  - rewrite length_app. lia.
  - intros c Hnc. by destruct (Hsess c Hnc) as (_ & ? & _).
Qed.

Lemma exec_step_inv cl s s' : cluster_inv cl -> exec_inv s -> exec_step cl s s' -> exec_inv s'.
Proof.
  intros Hc Hinv Hstep. destruct Hstep as [s e ? ? ?|s e ? ?|s e ? ?|s e reply ? ?|s e Hp Hcar|s floor ?|s n ? ?|s floor log Had|s floor log Had|s ck floor log ? ? ? ?].
  - by apply accept_inv.
  - by apply reconfigure_inv.
  - by eapply stage_inv.
  - by apply apply_inv.
  - destruct (carried_in_order _ _ Hc Hcar) as [Hse Hpe].
    apply (exec_inv_rewrite s); try done; simpl; destruct Hinv as (Hseq & Hpop & Hf & Hl & Hok & _ & _ & Hsess & _); try done.
    + unfold applied_log. simpl. by rewrite take_app_le.
    + rewrite length_app. lia.
    + intros c Hnc. by destruct (Hsess c Hnc) as (_ & ? & _).
  - apply (exec_inv_rewrite s); try done; simpl; destruct Hinv as (Hseq & Hpop & Hf & Hl & Hok & _ & _ & Hsess & _); try done; try lia.
    intros c Hnc. by destruct (Hsess c Hnc) as (_ & ? & ?).
  - by apply truncate_inv.
  - apply (adoptable_fitting _ _ _ _ Hc) in Had. destruct (adopt_watermark s floor log 0) as (? & ? & _); [done..|].
    apply adopt_inv; try done. intros c Hnc. split; [|done].
    destruct (adopt_watermark s floor log c) as (_ & _ & Hw); [done..|]. by apply Hw.
  - apply (adoptable_fitting _ _ _ _ Hc) in Had. destruct (lead_watermark s floor log) as (? & ? & Hw); [done..|].
    apply adopt_inv; try done. intros c Hnc. rewrite Hw by done. split; [|done].
    destruct Had as (_ & _ & _ & _ & Ha). unfold applied_log. rewrite <-Ha. apply count_take_all.
  - by apply (restore_inv cl).
Qed.

Lemma cluster_reachable_inv cl : cluster_reachable cl -> cluster_inv cl.
Proof.
  induction 1 as [|cl cl' _ Hinv Hstep].
  - split_and!.
    + intros log ->%list_elem_of_singleton. split; [by intros c|constructor].
    + intros ck Hck. by apply elem_of_nil in Hck.
    + intros r. split_and!; try done; try (simpl; lia); [constructor|]. by intros c [o Ho].
  - destruct Hinv as (Hl & Hck & Hr). destruct Hstep as [cl r s Hs|cl r].
    + pose proof (exec_step_inv cl _ _ (conj Hl (conj Hck Hr)) (Hr r) Hs) as Hi. split_and!; cbn; [|done|].
      * intros log [->|?]%elem_of_cons; [|by apply Hl]. by destruct Hi as (? & ? & _).
      * intros r'. destruct (decide (r = r')) as [<-|]; [by rewrite fn_lookup_insert|by rewrite fn_lookup_insert_ne].
    + split_and!; cbn; [done| |done]. intros ck [->|?]%elem_of_cons; [|by apply Hck]. by apply checkpoint_inv.
Qed.

End exactly_once.

(** ** Properties *)

(** Session tables are deterministic: replicas that applied the same
    operations from tables with the same committed projection have the same
    committed projection, evictions included, whatever requests each accepted,
    rolled back or back-filled on its own in between.  The table a checkpoint
    persists is thus the same on every replica. *)
Theorem session_tables_agree cap t1 t2 evs1 evs2 :
  rows_ok t1 -> rows_ok t2 ->
  committed_session_projection t1 = committed_session_projection t2 ->
  Forall event_ok evs1 -> Forall event_ok evs2 -> applied_events evs1 = applied_events evs2 ->
  committed_session_projection (foldl (session_step cap) t1 evs1)
  = committed_session_projection (foldl (session_step cap) t2 evs2).
Proof.
  intros H1 H2 Ht He1 He2 He. rewrite !history_projection by done. by rewrite Ht, He.
Qed.

Lemma session_tables_agree_witness :
  committed_session_projection
    (foldl (session_step 1) ∅ [EvAccepted 7 1; EvApplied 1 7 1 []; EvAccepted 9 1; EvAccepted 7 2;
                               EvApplied 2 9 1 [x61]; EvProvisionalDropped])
  = committed_session_projection
      (foldl (session_step 1) ∅ [EvApplied 1 7 1 []; EvReconciled []; EvApplied 2 9 1 [x61]]).
Proof.
  apply (session_tables_agree 1 ∅ ∅); [done|done|done| | |reflexivity].
  - repeat constructor; vm_compute; done.
  - repeat constructor; vm_compute; done.
Defined.

(** The session cap: applying an operation keeps the applied rows within the
    cap, always retains the row of the client just served with its reply, and
    evicts at most one row: none while there is room, and otherwise exactly the
    applied row with the least (last operation, client). *)
Theorem session_cap_enforced cap bound t op client request reply :
  table_inv cap bound t -> 1 <= cap -> 0 <= bound < op ->
  let t1 := <[client := applied_row (row t client) op request reply]> t in
  let '(t', evicted) := note_applied_session cap t op client request reply in
  table_inv cap op t' /\ t' !! client = Some (applied_row (row t client) op request reply) /\
  (evicted = 0 /\ t' = t1 /\ Z.of_nat (size (stamps t1)) <= cap \/
   evicted = 1 /\ exists v o, t' = delete v t1 /\ v <> client /\ stamps t !! client = None /\
     Z.of_nat (size (stamps t)) = cap /\ stamps t !! v = Some o /\
     forall c o', stamps t !! c = Some o' -> older (o, v) (o', c) = true).
Proof.
  intros Hinv Hcap Hop t1. pose proof Hinv as (Hok & Hsize & Hb).
  assert (stamps t1 = <[client := op]> (stamps t)) as Hst by (apply stamps_insert; simpl; lia).
  assert (rows_ok t1) as Hok1 by (apply rows_ok_insert; [done|apply applied_row_ok; lia]).
  assert (forall c o, stamps t1 !! c = Some o -> o <= op) as Hb1.
  { intros c o. rewrite Hst, lookup_insert. case_decide; [intros [= <-]; lia|].
    intros Ho. specialize (Hb c o Ho). lia. }
  destruct (note_cases cap bound t op client request reply Hinv Hcap Hop)
    as [[-> Hs]|(v & o & -> & Hne & HN & Hs & Hv & Hmin)]; fold t1.
  - split; [done|]. split; [by unfold t1; rewrite lookup_insert_eq|by left].
  - split; [split_and!|split; [|right; split; [done|]; by exists v, o]].
    + by apply rows_ok_delete.
    + rewrite stamps_delete, Hst, map_size_delete_Some, map_size_insert_None;
        [lia|done|by rewrite lookup_insert_ne; [eexists|]].
    + intros c o'. rewrite stamps_delete. intros [_ H]%lookup_delete_Some. by apply (Hb1 c).
    + rewrite lookup_delete_ne by done. unfold t1. by rewrite lookup_insert_eq.
Qed.

Lemma session_cap_enforced_witness :
  let t := <[7 := mkSession 1 (Some (1, [])) 1]> ∅ in
  (note_applied_session 1 t 2 9 1 [x61]).1 !! 9 = Some (mkSession 1 (Some (1, [x61])) 2).
Proof.
  pose proof (session_cap_enforced 1 1 (<[7 := mkSession 1 (Some (1, [])) 1]> ∅) 2 9 1 [x61]) as H.
  cbv zeta in *. destruct (note_applied_session _ _ _ _ _ _) as [t' n] eqn:E.
  destruct H as (_ & H & _); [|lia|lia|exact H].
  split_and!; [|vm_compute; done|].
  - intros c s. rewrite lookup_insert. case_decide; [intros [= <-]|done]. by split.
  - intros c o. rewrite lookup_stamps, lookup_insert. case_decide; [by intros [= <-]|done].
Defined.

(** C5. Exactly-once execution: in every state a cluster reaches whose client population
    fits the session cap, every log any replica ever held carries each client's requests
    as 1, 2, 3, ... in order, although only the dedup of a leading replica decides what is
    minted; a leading replica never admits a request its log already carries; a resent
    reply is the reply of that very request's execution; and once everything logged is
    applied, the last request of each client is answered from the cache.  Replicas follow,
    lead, mint, apply, prune, truncate, take checkpoints, restart from one and install
    one of another; a log adopted keeps what the adopter applied. *)
Theorem requests_exactly_once cfg P cl r :
  Z.of_nat (size P) <= c_max_client_sessions cfg -> RECONFIGURATION ∉ P -> cluster_reachable cfg P cl ->
  let s := cl_replica cl r in
  (forall log, log ∈ cl_logs cl -> sequential log) /\ sequential (x_log s) /\
  (x_primary s = true -> forall e, e ∈ x_log s -> l_client e <> RECONFIGURATION ->
     dedup (session_table_hard_bound cfg) (x_table s) (l_client e) (l_request e) <> Fresh) /\
  (forall bound c q rn body, dedup bound (x_table s) c q = Resend rn body ->
     q = rn /\ exists i e, x_log s !! i = Some e /\ l_client e = c /\ l_request e = q /\
       x_replies s !! i = Some body) /\
  (x_primary s = true -> length (x_replies s) = length (x_log s) ->
     forall bound c, c <> RECONFIGURATION -> 0 < count_of c (x_log s) ->
     exists body, dedup bound (x_table s) c (count_of c (x_log s))
                  = Resend (count_of c (x_log s)) body).
Proof.
  intros HP HR Hcl s. destruct (cluster_reachable_inv cfg P HP HR cl Hcl) as (Hlogs & _ & Hinv).
  destruct (Hinv r) as (Hseq & _ & _ & _ & _ & _ & _ & Hsess & Hrec). fold s in Hseq, Hsess, Hrec.
  split_and!; [intros log Hlog; by apply Hlogs|done| | |].
  - intros Hp e He Hne Hd. apply dedup_fresh in Hd. destruct (Hsess (l_client e) Hne) as (_ & _ & Hw).
    assert (l_request e ∈ requests_of (l_client e) (x_log s)) as Hin.
    { apply list_elem_of_fmap_2, list_elem_of_filter. done. }
    rewrite Hseq in Hin by done. apply elem_of_seqZ in Hin. rewrite Hw in Hd by done. lia.
  - intros bound c q rn body. unfold dedup. specialize (Hrec c). unfold reply_recorded, row in Hrec.
    destruct (x_table s !! c) as [ss|]; simpl in *; [|by repeat case_match].
    destruct (q <? ss_request ss); [done|]. destruct (q =? ss_request ss); [|by repeat case_match].
    destruct (ss_reply ss) as [[rn' b]|]; [|done]. destruct (Z.eqb_spec rn' q) as [->|]; [|done].
    intros [= <- <-]. auto.
  - intros Hp Hall bound c Hnc Hc. destruct (Hsess c Hnc) as (Hr & _ & Hw). specialize (Hw Hp).
    unfold applied_log in Hr. rewrite take_ge in Hr by lia. unfold dedup, row in *.
    unfold reply_request in Hr. destruct (x_table s !! c) as [ss|]; simpl in *; [|lia].
    destruct (ss_reply ss) as [[rn b]|]; [|lia]. exists b.
    rewrite Hw, Z.ltb_irrefl, Z.eqb_refl, Hr, Z.eqb_refl. done.
Qed.

Definition life_cfg : Config := mkConfig 1 1 32 4.
Definition life_entry (r : Z) : LogEntry := mkLogEntry 7 r (Present [x61]).
Definition life1 : Exec := mkExec [] [] 0
  (reconcile_session_watermarks [] (backfill []
     (reconcile_session_watermarks [] (drop_provisional ∅)))) true.
Definition life2 : Exec := mkExec [life_entry 1] [] 0 (accept (x_table life1) 7 1) true.
Definition life3 : Exec := mkExec [life_entry 1] [[x62]] 0
  (note_applied_session 4 (x_table life2) 1 7 1 [x62]).1 true.
Definition life4 : Exec := mkExec [life_entry 1] [[x62]] 1 (ck_table (checkpoint_of life3)) false.

(** Replica 0 leads, mints and applies a request and takes a checkpoint, which replica 1
    installs. *)
Definition moved (cl : Cluster) (r : Z) (s : Exec) : Cluster :=
  mkCluster (<[r := s]> (cl_replica cl)) (x_log s :: cl_logs cl) (cl_checkpoints cl).
Definition leading : Cluster := moved (moved (moved cluster_init 0 life1) 0 life2) 0 life3.
Definition checkpointed : Cluster := mkCluster (cl_replica leading) (cl_logs leading) [checkpoint_of life3].
Definition synced : Cluster := moved checkpointed 1 life4.

Lemma synced_reachable : cluster_reachable life_cfg {[7]} synced.
Proof.
  apply (cluster_steps _ _ checkpointed).
  2:{ apply cluster_moves. apply (exec_restore life_cfg {[7]} checkpointed _ (checkpoint_of life3) 1 [life_entry 1]).
      - left.
      - exists [life_entry 1]. split; [left|by exists []].
      - by exists [].
      - cbn. lia. }
  apply (cluster_steps _ _ leading); [|exact (cluster_checkpoints life_cfg {[7]} leading 0)].
  apply (cluster_steps _ _ (moved (moved cluster_init 0 life1) 0 life2));
    [|apply cluster_moves; exact (exec_apply life_cfg {[7]} _ life2 (life_entry 1) [x62] eq_refl ltac:(discriminate))].
  apply (cluster_steps _ _ (moved cluster_init 0 life1));
    [|apply cluster_moves; exact (exec_accept life_cfg {[7]} _ life1 (life_entry 1) eq_refl
               (proj2 (elem_of_singleton 7 7) eq_refl) eq_refl)].
  apply (cluster_steps _ _ cluster_init); [apply cluster_starts|]. apply cluster_moves.
  apply (exec_lead life_cfg {[7]} cluster_init exec_init 0 []). split_and!; try done. exists []. split; [left|by exists []].
Qed.

Lemma requests_exactly_once_witness :
  sequential [life_entry 1] /\ exists i e, [life_entry 1] !! i = Some e /\ l_request e = 1 /\ [[x62]] !! i = Some [x62].
Proof.
  assert (Hp : Z.of_nat (size ({[7]} : gset Z)) <= c_max_client_sessions life_cfg) by (vm_compute; done).
  assert (Hn : RECONFIGURATION ∉ ({[7]} : gset Z)) by (intros Hx%elem_of_singleton; discriminate Hx).
  destruct (requests_exactly_once life_cfg {[7]} synced 1 Hp Hn synced_reachable) as (Hlog & _ & _ & Hres & _).
  split; [apply Hlog; left|]. destruct (Hres 4 7 1 1 [x62]) as (_ & i & e & Hi & _ & Hq & Hr); [vm_compute; done|].
  exists i, e. split; [exact Hi|]. split; [exact Hq|exact Hr].
Defined.
