(* ===== verification/Normal.v ===== *)
(** * Normal operation: admission, minting and the two apply loops

    [viewstamp-proto/src/endpoint/normal.rs]: the shared admission gate
    ([check_new_op_admission]), the whole of [on_request] with [mint_op], and the
    commit side: [commit_op] and the loop of [try_commit] on the primary, the
    loop of [advance_commit] on a backup, with [commit_reconfigure] and
    [request_repair_run] ([repair.rs]) which both call.  The state machine is the
    embedder's ([StateMachine::apply]) and is a parameter.

    Emitted messages, events and storage submissions are collected in the node's
    outputs, oldest first.  A fail-stop is [None].  The tails of the two commit
    functions that start checkpoints and epoch-swap writes, and the timers, are
    not part of this file. *)

From S2P Require Import Prelude Core Hash Membership Codec Message Messages BTree ViewChange Votes Sessions.

Definition IMPLIED_RING_INTERVALS : Z := 4.
Definition REPAIR_WINDOW : Z := 64.

Definition effective_wal_capacity (capacity checkpoint_ops : Z) : Z :=
  if capacity =? umax 64
  then sat_add 64 (sat_mul 64 checkpoint_ops IMPLIED_RING_INTERVALS) MAX_PIPELINE
  else capacity.

Inductive NewOpReject : Type :=
| NotNormalPrimary
| Busy
| SteppingDown
| CommitGap
| PipelineFull
| AtCapacity.

(** Storage submissions, messages and events, with the fields of each. *)
Inductive Output : Type :=
| SubmittedAppend (op : OpNumber) (view : View) (client : ClientId) (request : RequestNumber)
    (body : list byte)
| SentPrepare (view : View) (op commit checkpoint_op : OpNumber) (epoch : Epoch) (config_id : Z)
    (client : ClientId) (request : RequestNumber) (body : list byte)
| SentReply (view : View) (client : ClientId) (request : RequestNumber) (body : list byte)
| SentCommit (view : View) (commit checkpoint_op : OpNumber) (epoch : Epoch) (config_id : Z)
| SentRequestPrepareRange (view : View) (lo hi : OpNumber) (config_id : Z)
| Committed (op : OpNumber) (client : ClientId) (request : RequestNumber) (body : list byte)
| RepairStarted (lo hi : OpNumber).

Section normal.
Context {S : Type}.

(** [StateMachine::apply] of the embedder: the new state and the reply. *)
Context (sm_apply : OpNumber -> list byte -> S -> S * list byte).

Record Node : Type := mkNode {
  nd_config : Config;
  nd_membership : Membership;
  nd_view : View;
  nd_op : OpNumber;
  nd_commit_min : OpNumber;
  nd_commit_max : OpNumber;
  nd_log : btree LogEntry;
  nd_inflight : btree Inflight;
  nd_appending : gset Z;
  nd_repair : gset Z;
  nd_clients : gmap Z Session;
  nd_sessions_evicted : Z;
  nd_pending_swap : option (OpNumber * Membership);
  nd_sm : S;
  nd_sm_at : OpNumber;
  nd_out : list Output;
}.

(** The parts of the endpoint these handlers only read. *)
Record Ctx : Type := mkCtx {
  cx_status : Status;
  cx_pending_sb : bool;
  cx_sync : bool;
  cx_pending_checkpoint : bool;
  cx_swap_root : bool;
  cx_pending_forfeit : bool;
  cx_pending_install : bool;
  cx_sm_reconstruct : bool;
  cx_pending_durable_view : bool;
  cx_checkpoint_op : OpNumber;
  cx_quorum_checkpoint_op : OpNumber;
  cx_log_floor : OpNumber;
  cx_wal_capacity : Z;
}.

Definition emit (n : Node) (o : list Output) : Node :=
  mkNode (nd_config n) (nd_membership n) (nd_view n) (nd_op n) (nd_commit_min n) (nd_commit_max n)
    (nd_log n) (nd_inflight n) (nd_appending n) (nd_repair n) (nd_clients n)
    (nd_sessions_evicted n) (nd_pending_swap n) (nd_sm n) (nd_sm_at n) (nd_out n ++ o).

Definition set_clients (n : Node) (t : gmap Z Session) (evicted : Z) : Node :=
  mkNode (nd_config n) (nd_membership n) (nd_view n) (nd_op n) (nd_commit_min n) (nd_commit_max n)
    (nd_log n) (nd_inflight n) (nd_appending n) (nd_repair n) t
    (nd_sessions_evicted n + evicted) (nd_pending_swap n) (nd_sm n) (nd_sm_at n) (nd_out n).

Definition set_commit_max (n : Node) (to : OpNumber) : Node :=
  mkNode (nd_config n) (nd_membership n) (nd_view n) (nd_op n) (nd_commit_min n) to
    (nd_log n) (nd_inflight n) (nd_appending n) (nd_repair n) (nd_clients n)
    (nd_sessions_evicted n) (nd_pending_swap n) (nd_sm n) (nd_sm_at n) (nd_out n).

(** The applied frontier, the state machine and its witness move together. *)
Definition set_applied (n : Node) (op : OpNumber) (sm : S) : Node :=
  mkNode (nd_config n) (nd_membership n) (nd_view n) (nd_op n) op (nd_commit_max n)
    (nd_log n) (nd_inflight n) (nd_appending n) (nd_repair n) (nd_clients n)
    (nd_sessions_evicted n) (nd_pending_swap n) sm op (nd_out n).

Definition set_log (n : Node) (log : btree LogEntry) (inflight : btree Inflight) (repair : gset Z) : Node :=
  mkNode (nd_config n) (nd_membership n) (nd_view n) (nd_op n) (nd_commit_min n) (nd_commit_max n)
    log inflight (nd_appending n) repair (nd_clients n)
    (nd_sessions_evicted n) (nd_pending_swap n) (nd_sm n) (nd_sm_at n) (nd_out n).

Definition set_pending_swap (n : Node) (op : OpNumber) (successor : Membership) : Node :=
  mkNode (nd_config n) (nd_membership n) (nd_view n) (nd_op n) (nd_commit_min n) (nd_commit_max n)
    (nd_log n) (nd_inflight n) (nd_appending n) (nd_repair n) (nd_clients n)
    (nd_sessions_evicted n) (Some (op, successor)) (nd_sm n) (nd_sm_at n) (nd_out n).

Definition node_is_primary (n : Node) : bool :=
  endpoint_is_primary (nd_membership n) (c_local (nd_config n)) (nd_view n).

(** ** Admission *)

Definition swap_in_flight (n : Node) (cx : Ctx) : bool :=
  bool_decide (is_Some (nd_pending_swap n)) || cx_swap_root cx.

Definition has_pending_reconfigure (n : Node) (cx : Ctx) : bool :=
  if swap_in_flight n cx then true
  else
    existsb (fun op =>
               match bt_get op (nd_log n) with
               | Some entry => bool_decide (is_Some (as_reconfigure (l_body entry)))
               | None => false
               end) (seqZ (nd_commit_min n + 1) (nd_op n - nd_commit_min n)).

Definition prune_floor (cx : Ctx) : OpNumber :=
  Z.min (cx_checkpoint_op cx) (cx_quorum_checkpoint_op cx).

Definition band_at_capacity (n : Node) (cx : Ctx) : bool :=
  (MAX_HEADER_ONLY_BAND_DEPTH <=? zlen (nd_log n))
  || (MAX_HEADER_ONLY_BAND_DEPTH <=? sat_sub (nd_op n) (cx_log_floor cx)).

Definition check_new_op_admission (n : Node) (cx : Ctx) : result NewOpReject () :=
  if negb (is_normal (cx_status cx)) || negb (node_is_primary n) then Err NotNormalPrimary
  else if cx_pending_sb cx || cx_sync cx || cx_pending_checkpoint cx then Err Busy
  else if has_pending_reconfigure n cx then Err Busy
  else if cx_pending_forfeit cx then Err SteppingDown
  else if (nd_commit_min n <? nd_commit_max n) || negb (bool_decide (nd_repair n = ∅)) then Err CommitGap
  else if MAX_PIPELINE <=? sat_sub (nd_op n) (nd_commit_min n) then Err PipelineFull
  else
    let next_op := sat_add 64 (nd_op n) 1 in
    let unpruned_window := sat_sub next_op (prune_floor cx) in
    let wal_would_overflow :=
      effective_wal_capacity (cx_wal_capacity cx) (c_checkpoint_ops (nd_config n)) <? unpruned_window in
    if wal_would_overflow || band_at_capacity n cx then Err AtCapacity
    else Ok tt.

(** ** Requests *)

Definition mint_op (n : Node) (cx : Ctx) (client : ClientId) (request : RequestNumber) (bytes : list byte)
    (body : Body) : Node :=
  let op := Counter.next (nd_op n) in
  mkNode (nd_config n) (nd_membership n) (nd_view n) op (nd_commit_min n) (nd_commit_max n)
    (bt_insert op (mkLogEntry client request body) (nd_log n))
    (bt_insert op (mkInflight 0 false (prepare_identity client request (fnv1a_128 bytes)))
       (nd_inflight n))
    ({[op]} ∪ nd_appending n) (nd_repair n) (nd_clients n) (nd_sessions_evicted n)
    (nd_pending_swap n) (nd_sm n) (nd_sm_at n)
    (nd_out n ++ [SubmittedAppend op (nd_view n) client request bytes;
                  SentPrepare (nd_view n) op (nd_commit_min n) (cx_checkpoint_op cx)
                    (m_epoch (nd_membership n)) (m_config_id (nd_membership n)) client request bytes]).

(** The node afterwards and whether the back-pressure counter was bumped. *)
Definition on_request (n : Node) (cx : Ctx) (client : ClientId) (request : RequestNumber)
    (body : list byte) : Node * bool :=
  if client =? RECONFIGURATION then (n, false)
  else
    let admission := check_new_op_admission n cx in
    match admission with
    | Err NotNormalPrimary | Err Busy | Err SteppingDown | Err CommitGap => (n, false)
    | _ =>
        match dedup (session_table_hard_bound (nd_config n)) (nd_clients n) client request with
        | Stale | InFlight | Gap | SessionsFull => (n, false)
        | Resend rn reply => (emit n [SentReply (nd_view n) client rn reply], false)
        | Fresh =>
            match admission with
            | Err AtCapacity => (n, true)
            | Err PipelineFull => (n, false)
            | _ =>
                let n := set_clients n (accept (nd_clients n) client request) 0 in
                (mint_op n cx client request body (Present body), false)
            end
        end
    end.

(** ** Committing *)

(** [while hi < ceiling]: the top of the contiguous hole run; at most
    [REPAIR_WINDOW] rounds. *)
Fixpoint hole_run (fuel : nat) (log : btree LogEntry) (ceiling hi : OpNumber) : OpNumber :=
  match fuel with
  | O => hi
  | Datatypes.S fuel =>
      if hi <? ceiling then
        match bt_get (hi + 1) log with
        | Some e => if is_body_bearing (l_body e) then hi else hole_run fuel log ceiling (hi + 1)
        | None => hole_run fuel log ceiling (hi + 1)
        end
      else hi
  end.

(** Drop a cached entry that is not a header-only hole. *)
Definition drop_stale (log : btree LogEntry) (op : OpNumber) : btree LogEntry :=
  match bt_get op log with
  | Some e => if is_repairing (l_body e) then log else bt_remove op log
  | None => log
  end.

(** [request_repair_run] up to its force-sync escalation.  The assertion after each
    insertion, that a dropped op is tracked for repair, holds by the insertion. *)
Definition request_repair_run (n : Node) (lo : OpNumber) : Node :=
  let window_top := sat_sub (sat_add 64 lo REPAIR_WINDOW) 1 in
  let ceiling := Z.min (Z.min (nd_commit_max n) window_top) (nd_op n) in
  let hi := hole_run (Z.to_nat REPAIR_WINDOW) (nd_log n) ceiling lo in
  let run := seqZ lo (hi - lo + 1) in
  emit (set_log n (foldl drop_stale (nd_log n) run) (nd_inflight n) (list_to_set run ∪ nd_repair n))
    [RepairStarted lo hi;
     SentRequestPrepareRange (nd_view n) lo hi (m_config_id (nd_membership n))].

Definition mark_committed (inflight : btree Inflight) (op : OpNumber) : btree Inflight :=
  match bt_get op inflight with
  | Some inf => bt_insert op (mkInflight (i_oks inf) true (i_prepare_checksum inf)) inflight
  | None => inflight
  end.

Definition stage_epoch_swap (n : Node) (op : OpNumber) (successor : Membership) : Node :=
  match nd_pending_swap n with
  | Some _ => n
  | None => set_pending_swap n op successor
  end.

(** The [bool] result of the code: [None] when the op is no reconfiguration; inside
    it, [None] is the fail-stop. *)
Definition commit_reconfigure (n : Node) (op : OpNumber) (body : Body) : option (option Node) :=
  payload ← as_reconfigure body;
  Some (
    if op <? nd_commit_min n then None else
    let n := set_applied n op (nd_sm n) in
    let n := set_commit_max n (Z.max (nd_commit_max n) (nd_commit_min n)) in
    let n := set_log n (nd_log n) (mark_committed (nd_inflight n) op) (nd_repair n) in
    if m_config_id (nd_membership n) =? p_prev_config_id payload then
      match first_new_voter (nd_membership n) (p_replica_count payload) (p_members payload) with
      | Some _ => None
      | None =>
          match reconfigure (nd_membership n) (p_replica_count payload) (p_learner_count payload)
                  (p_members payload) with
          | Ok successor => Some (stage_epoch_swap n op successor)
          | Err _ => None
          end
      end
    else Some n).

(** Applying one held client operation, shared by both loops; [reply_out] is what
    the primary sends. *)
Definition apply_present (n : Node) (op : OpNumber) (entry : LogEntry) (body : list byte)
    (primary_ : bool) : option Node :=
  if op <? nd_commit_min n then None else
  let '(sm, reply) := sm_apply op body (nd_sm n) in
  let n := set_applied n op sm in
  let n := if primary_
           then set_log n (nd_log n) (mark_committed (nd_inflight n) op) (nd_repair n) else n in
  let '(t, evicted) := note_applied_session (c_max_client_sessions (nd_config n)) (nd_clients n) op
                         (l_client entry) (l_request entry) reply in
  let n := set_clients n t evicted in
  let n := if primary_ then emit n [SentReply (nd_view n) (l_client entry) (l_request entry) reply] else n in
  Some (emit n [Committed op (l_client entry) (l_request entry) reply]).

(** One op of either loop: whether it applied, or was held at a hole. *)
Definition commit_one (n : Node) (op : OpNumber) (primary_ : bool) : option (bool * Node) :=
  match bt_get op (nd_log n) with
  | None => Some (false, request_repair_run n op)
  | Some entry =>
      match commit_reconfigure n op (l_body entry) with
      | Some r => n' ← r; Some (true, n')
      | None =>
          match as_present (l_body entry) with
          | None => Some (false, request_repair_run n op)
          | Some body => n' ← apply_present n op entry body primary_; Some (true, n')
          end
      end
  end.

Definition commit_op (n : Node) (op : OpNumber) : option (bool * Node) := commit_one n op true.

(** The [loop] of [try_commit]. *)
Fixpoint try_commit_loop (fuel : nat) (n : Node) : option Node :=
  match fuel with
  | O => Some n
  | Datatypes.S fuel =>
      let next := nd_commit_min n + 1 in
      if commit_ready (nd_membership n) (nd_log n) (nd_inflight n) next then
        match commit_op n next with
        | Some (true, n') => try_commit_loop fuel n'
        | Some (false, n') => Some n'
        | None => None
        end
      else Some n
  end.

(** [try_commit] up to its tail.  Each round consumes an in-flight entry, so one
    more round than there are entries is enough. *)
Definition try_commit (n : Node) (cx : Ctx) : option Node :=
  if negb (node_is_primary n) then Some n
  else if cx_pending_install cx || cx_sm_reconstruct cx then Some n
  else
    n' ← try_commit_loop (Datatypes.S (length (nd_inflight n))) n;
    let n' := set_commit_max n' (Z.max (nd_commit_max n') (nd_commit_min n')) in
    Some (if (nd_commit_min n <? nd_commit_min n') && negb (cx_pending_durable_view cx)
          then emit n' [SentCommit (nd_view n') (nd_commit_min n') (cx_checkpoint_op cx)
                             (m_epoch (nd_membership n')) (m_config_id (nd_membership n'))]
          else n').

(** The [while] of [advance_commit]. *)
Fixpoint advance_loop (fuel : nat) (n : Node) (target : OpNumber) : option Node :=
  match fuel with
  | O => Some n
  | Datatypes.S fuel =>
      if (nd_commit_min n <? target) && (nd_commit_min n <? nd_op n) then
        match commit_one n (nd_commit_min n + 1) false with
        | Some (true, n') => advance_loop fuel n' target
        | Some (false, n') => Some n'
        | None => None
        end
      else Some n
  end.

(** [advance_commit] up to its tail. *)
Definition advance_commit (n : Node) (cx : Ctx) (target : OpNumber) : option Node :=
  if cx_pending_install cx then Some n
  else
    let n := set_commit_max n (Z.max (nd_commit_max n) target) in
    if cx_sm_reconstruct cx then Some n
    else advance_loop (Z.to_nat (target - nd_commit_min n)) n target.

(** ** What both loops compute *)

Definition node_core (n : Node) : S * gmap Z Session := (nd_sm n, nd_clients n).

(** Applying the [k] operations above [from], in order; [None] at a hole. *)
Fixpoint replay (cap : Z) (log : btree LogEntry) (from : OpNumber) (k : nat)
    (st : S * gmap Z Session) : option (S * gmap Z Session) :=
  match k with
  | O => Some st
  | Datatypes.S k =>
      match bt_get (from + 1) log with
      | Some e =>
          match l_body e with
          | Present body =>
              let '(sm, reply) := sm_apply (from + 1) body st.1 in
              replay cap log (from + 1) k
                (sm, (note_applied_session cap st.2 (from + 1) (l_client e) (l_request e) reply).1)
          | Reconfigure _ => replay cap log (from + 1) k st
          | Repairing _ => None
          end
      | None => None
      end
  end.

(** No body is held for [op]. *)
Definition is_hole (log : btree LogEntry) (op : OpNumber) : Prop :=
  match bt_get op log with Some e => is_repairing (l_body e) = true | None => True end.

(** What applying the op above the frontier changes and keeps. *)
Definition applied_next (n n' : Node) : Prop :=
  let op := nd_commit_min n + 1 in
  nd_commit_min n' = op /\ nd_sm_at n' = op /\ nd_log n' = nd_log n /\
  nd_membership n' = nd_membership n /\ nd_op n' = nd_op n /\ nd_config n' = nd_config n /\
  nd_view n' = nd_view n /\ map fst (nd_inflight n') = map fst (nd_inflight n) /\
  (forall k, k <> op -> bt_get k (nd_inflight n') = bt_get k (nd_inflight n)) /\
  replay (c_max_client_sessions (nd_config n)) (nd_log n) (nd_commit_min n) 1 (node_core n)
  = Some (node_core n').

Lemma mark_committed_spec inflight op :
  bt_sorted inflight ->
  bt_sorted (mark_committed inflight op) /\ map fst (mark_committed inflight op) = map fst inflight /\
  forall k, k <> op -> bt_get k (mark_committed inflight op) = bt_get k inflight.
Proof.
  intros Hs. unfold mark_committed. destruct (bt_get op inflight) eqn:E; [|done].
  split_and!; [by apply bt_insert_sorted|by apply bt_insert_keys|].
  intros k Hk. by rewrite bt_get_insert, (proj2 (Z.eqb_neq _ _)).
Qed.

(** One op of either loop, by the state of its slot. *)
Lemma commit_one_spec n primary_ r n' :
  bt_sorted (nd_inflight n) -> commit_one n (nd_commit_min n + 1) primary_ = Some (r, n') ->
  if r then applied_next n n' /\ bt_sorted (nd_inflight n')
  else is_hole (nd_log n) (nd_commit_min n + 1) /\ n' = request_repair_run n (nd_commit_min n + 1).
Proof.
  intros Hs. unfold commit_one, is_hole.
  destruct (mark_committed_spec (nd_inflight n) (nd_commit_min n + 1) Hs) as (Hms & Hmk & Hmg).
  unfold applied_next, replay, node_core.
  destruct (bt_get (nd_commit_min n + 1) (nd_log n)) as [e|] eqn:E; [|by intros [= <- <-]].
  destruct (l_body e) as [bytes|cs|payload] eqn:Eb; cbn [commit_reconfigure as_reconfigure as_present mbind option_bind].
  - unfold apply_present. rewrite (proj2 (Z.ltb_ge _ _)) by lia.
    destruct (sm_apply _ _ _) as [sm reply] eqn:Es. cbn [nd_config nd_clients fst snd].
    destruct primary_; cbn [set_applied set_log nd_config nd_clients nd_inflight];
      destruct (note_applied_session _ _ _ _ _ _) as [t ev]; cbn [mbind option_bind];
      intros [= <- <-]; cbn; by split_and!.
  - by intros [= <- <-].
  - unfold commit_reconfigure. cbn [as_reconfigure mbind option_bind].
    rewrite (proj2 (Z.ltb_ge _ _)) by lia. cbn.
    destruct (_ =? _).
    + destruct (first_new_voter _ _ _); [done|]. destruct (reconfigure _ _ _ _) as [succ|]; [|done].
      cbn. unfold stage_epoch_swap. cbn. destruct (nd_pending_swap n); intros [= <- <-]; cbn; by split_and!.
    + intros [= <- <-]. cbn. by split_and!.
Qed.

Lemma replay_app cap log from k1 k2 st :
  replay cap log from (k1 + k2) st
  = replay cap log from k1 st ≫= replay cap log (from + Z.of_nat k1) k2.
Proof.
  revert from st. induction k1 as [|k1 IH]; intros from st.
  - simpl. by rewrite Z.add_0_r.
  - cbn [Nat.add replay]. destruct (bt_get (from + 1) log) as [e|]; [|done].
    replace (from + Z.of_nat (Datatypes.S k1)) with (from + 1 + Z.of_nat k1) by lia.
    destruct (l_body e); [|done|apply IH]. destruct (sm_apply _ _ _). apply IH.
Qed.

Lemma commit_ready_ext m log inflight inflight' op :
  bt_get op inflight = bt_get op inflight' ->
  commit_ready m log inflight op = commit_ready m log inflight' op.
Proof. unfold commit_ready. by intros ->. Qed.

(** In-flight entries above an op: the measure of the primary's loop. *)
Definition keys_above (c : OpNumber) (inflight : btree Inflight) : nat :=
  length (filter (fun k => c < k) (map fst inflight)).

Lemma keys_above_next m log inflight c :
  commit_ready m log inflight (c + 1) = true -> (keys_above (c + 1) inflight < keys_above c inflight)%nat.
Proof.
  intros Hr. assert (c + 1 ∈ map fst inflight) as Hin.
  { unfold commit_ready in Hr. destruct (bt_get (c + 1) inflight) as [inf|] eqn:E; [|done].
    clear Hr. induction inflight as [|[k v] t IH]; [done|]. simpl in *.
    destruct (Z.eqb_spec (c + 1) k); set_solver. }
  unfold keys_above. revert Hin. generalize (map fst inflight). intros l.
  induction l as [|k l IH]; [by intros ?%not_elem_of_nil|]. intros Hin. rewrite !filter_cons.
  assert (length (filter (fun k => c + 1 < k)%Z l) <= length (filter (fun k => c < k)%Z l))%nat as Hle.
  { clear. induction l as [|k l IH]; [done|]. rewrite !filter_cons.
    repeat case_decide; simpl; lia. }
  apply elem_of_cons in Hin as [<-|Hin].
  - rewrite decide_False, decide_True by lia. simpl. lia.
  - specialize (IH Hin). repeat case_decide; simpl; lia.
Qed.

Lemma keys_above_bound c inflight : (keys_above c inflight < Datatypes.S (length inflight))%nat.
Proof.
  unfold keys_above. pose proof (length_filter (fun k => c < k) (map fst inflight)) as H.
  rewrite length_map in H. lia.
Qed.

Lemma try_loop_spec fuel n n' :
  bt_sorted (nd_inflight n) -> (keys_above (nd_commit_min n) (nd_inflight n) < fuel)%nat ->
  try_commit_loop fuel n = Some n' ->
  exists k, nd_commit_min n' = nd_commit_min n + Z.of_nat k /\
    replay (c_max_client_sessions (nd_config n)) (nd_log n) (nd_commit_min n) k (node_core n)
    = Some (node_core n') /\
    (forall i, 1 <= i <= Z.of_nat k ->
       commit_ready (nd_membership n) (nd_log n) (nd_inflight n) (nd_commit_min n + i) = true) /\
    (commit_ready (nd_membership n) (nd_log n) (nd_inflight n) (nd_commit_min n' + 1) = false \/
     is_hole (nd_log n) (nd_commit_min n' + 1)).
Proof.
  revert n. induction fuel as [|fuel IH]; intros n Hs Hfuel; [lia|]. cbn [try_commit_loop]. cbv zeta.
  destruct (commit_ready _ _ _ (nd_commit_min n + 1)) eqn:Hr.
  2: { intros [= <-]. exists 0%nat. split_and!; [lia|done|lia|by left]. }
  destruct (commit_op n (nd_commit_min n + 1)) as [[[|] n1]|] eqn:Ec; [| |done].
  - apply (commit_one_spec n true) in Ec as [Hn Hs1]; [|done].
    destruct Hn as (Hc & _ & Hl & Hm & _ & Hcf & _ & Hk & Hg & Hrep). intros Hloop.
    destruct (IH n1) as (k & Hk1 & Hrep1 & Hready & Hstop); [done| |done|].
    { unfold keys_above. rewrite Hc, Hk. pose proof (keys_above_next _ _ _ _ Hr). unfold keys_above in *. lia. }
    rewrite Hl, Hm, Hcf, Hc in *. exists (Datatypes.S k). split_and!.
    + lia.
    + change (Datatypes.S k) with (1 + k)%nat. rewrite replay_app, Hrep. exact Hrep1.
    + intros i Hi. destruct (Z.eq_dec i 1) as [->|]; [done|].
      rewrite <-(Hready (i - 1)) by lia. replace (nd_commit_min n + 1 + (i - 1)) with (nd_commit_min n + i) by lia.
      apply commit_ready_ext. symmetry. apply Hg. lia.
    + destruct Hstop as [Hstop|]; [left|by right]. rewrite <-Hstop. apply commit_ready_ext.
      symmetry. apply Hg. lia.
  - apply (commit_one_spec n true) in Ec as [Hh ->]; [|done]. intros [= <-]. exists 0%nat.
    split_and!; [cbn; lia|done|lia|by right].
Qed.

Lemma advance_loop_spec fuel n n' target :
  bt_sorted (nd_inflight n) -> (Z.to_nat (target - nd_commit_min n) <= fuel)%nat ->
  advance_loop fuel n target = Some n' ->
  exists k, nd_commit_min n' = nd_commit_min n + Z.of_nat k /\
    replay (c_max_client_sessions (nd_config n)) (nd_log n) (nd_commit_min n) k (node_core n)
    = Some (node_core n') /\
    (k = 0%nat \/ nd_commit_min n' <= Z.min target (nd_op n)) /\
    (Z.min target (nd_op n) <= nd_commit_min n' \/ is_hole (nd_log n) (nd_commit_min n' + 1)).
Proof.
  revert n. induction fuel as [|fuel IH]; intros n Hs Hfuel; cbn [advance_loop].
  - intros [= <-]. exists 0%nat. split_and!; [lia|done|by left|left; lia].
  - destruct (Z.ltb_spec (nd_commit_min n) target), (Z.ltb_spec (nd_commit_min n) (nd_op n)); simpl;
      try (intros [= <-]; exists 0%nat; split_and!; [lia|done|by left|left; lia]).
    destruct (commit_one n _ false) as [[[|] n1]|] eqn:Ec; [| |done].
    + apply (commit_one_spec n false) in Ec as [Hn Hs1]; [|done].
      destruct Hn as (Hc & _ & Hl & _ & Ho & Hcf & _ & _ & _ & Hrep). intros Hloop.
      destruct (IH n1) as (k & Hk1 & Hrep1 & Hle & Hstop); [done|lia|done|].
      rewrite Hl, Ho, Hcf, Hc in *. exists (Datatypes.S k). split_and!; [lia| | |done].
      * change (Datatypes.S k) with (1 + k)%nat. rewrite replay_app, Hrep. exact Hrep1.
      * right. destruct Hle as [->|]; lia.
    + apply (commit_one_spec n false) in Ec as [Hh ->]; [|done]. intros [= <-]. exists 0%nat.
      split_and!; [cbn; lia|done|by left|by right].
Qed.

(** Replaying the same operations keeps two replicas in the same state. *)
Lemma replay_agree cap log log' from k st st' out out' :
  0 <= from -> st.1 = st'.1 -> rows_ok st.2 -> rows_ok st'.2 ->
  committed_session_projection st.2 = committed_session_projection st'.2 ->
  (forall op, from < op <= from + Z.of_nat k -> bt_get op log = bt_get op log') ->
  (forall op e, bt_get op log = Some e -> 0 <= l_request e) ->
  replay cap log from k st = Some out -> replay cap log' from k st' = Some out' ->
  out.1 = out'.1 /\ committed_session_projection out.2 = committed_session_projection out'.2.
Proof.
  intros Hf Hsm Hok Hok' Hp Hlog Hreq. revert from st st' Hf Hsm Hok Hok' Hp Hlog.
  induction k as [|k IH]; intros from st st' Hf Hsm Hok Hok' Hp Hlog; cbn [replay].
  - intros [= <-] [= <-]. done.
  - rewrite <-(Hlog (from + 1)) by lia.
    destruct (bt_get (from + 1) log) as [e|] eqn:E; [|done].
    assert (forall op, from + 1 < op <= from + 1 + Z.of_nat k -> bt_get op log = bt_get op log')
      by (intros; apply Hlog; lia).
    destruct (l_body e); [|done|by apply IH; try lia].
    rewrite <-Hsm. destruct (sm_apply _ _ _) as [sm reply].
    specialize (Hreq _ _ E).
    destruct (note_projection cap st.2 (from + 1) (l_client e) (l_request e) reply Hok) as [E1 Hok1]; [lia..|].
    destruct (note_projection cap st'.2 (from + 1) (l_client e) (l_request e) reply Hok') as [E2 Hok2]; [lia..|].
    apply IH; try done; [lia|]. simpl. by rewrite E1, E2, Hp.
Qed.

End normal.

(** ** Reconfiguration operations at commit *)

(** A successor a delta produced is rebuilt exactly from its own parts. *)
Lemma delta_reconfigure m d m' :
  wf m -> apply_delta m d = Ok m' ->
  reconfigure m (m_replica_count m') (m_learner_count m') (m_members m') = Ok m'.
Proof.
  intros Hwf Hd. destruct (apply_delta_step m Hwf d m' Hd) as (Hwf' & _ & He & Hid).
  destruct m' as [ep rc lc ms cid]. simpl in *. apply build_ok.
  - destruct Hwf' as (? & ? & ? & _). unfold fits. simpl in *. lia.
  - destruct Hwf' as (? & ? & ? & _). unfold fits. simpl in *. lia.
  - split; [exact Hwf'|]. congruence.
Qed.

(** Every reconfiguration operation pinned to the configuration in force carries
    the successor of one delta of it, as the proposal handler mints it. *)
Definition log_ok (m : Membership) (log : btree LogEntry) : Prop :=
  forall op e p, bt_get op log = Some e -> l_body e = Reconfigure p ->
  p_prev_config_id p = m_config_id m ->
  exists d m', apply_delta m d = Ok m' /\ p = from_membership m' (m_config_id m).

Section total.
Context {S : Type} (sm_apply : OpNumber -> list byte -> S -> S * list byte).

Lemma commit_one_total (n : Node) primary_ :
  wf (nd_membership n) -> log_ok (nd_membership n) (nd_log n) ->
  is_Some (commit_one sm_apply n (nd_commit_min n + 1) primary_).
Proof.
  intros Hwf Hlog. unfold commit_one.
  destruct (bt_get (nd_commit_min n + 1) (nd_log n)) as [e|] eqn:E; [|by eexists].
  unfold commit_reconfigure, apply_present. rewrite (proj2 (Z.ltb_ge _ _)) by lia.
  destruct (l_body e) as [bytes|cs|p] eqn:Eb; cbn [as_reconfigure as_present mbind option_bind].
  - destruct (sm_apply _ _ _) as [sm reply]. cbv zeta.
    destruct primary_; destruct (note_applied_session _ _ _ _ _ _); by eexists.
  - by eexists.
  - cbn. destruct (Z.eqb_spec (m_config_id (nd_membership n)) (p_prev_config_id p)) as [Ep|]; [|by eexists].
    destruct (Hlog _ _ _ E Eb (eq_sym Ep)) as (d & m' & Hd & ->). cbn.
    rewrite (delta_admits_no_new_voter _ _ _ Hwf Hd), (delta_reconfigure _ _ _ Hwf Hd). by eexists.
Qed.

Lemma try_loop_total fuel (n : Node) :
  bt_sorted (nd_inflight n) -> wf (nd_membership n) -> log_ok (nd_membership n) (nd_log n) ->
  is_Some (try_commit_loop sm_apply fuel n).
Proof.
  revert n. induction fuel as [|fuel IH]; intros n Hs Hwf Hlog; [by eexists|].
  cbn [try_commit_loop]. cbv zeta. destruct (commit_ready _ _ _ _); [|by eexists].
  destruct (commit_one_total n true Hwf Hlog) as [[[|] n1] E]; unfold commit_op; rewrite E; [|by eexists].
  apply (commit_one_spec sm_apply n true) in E as [(_ & _ & Hl & Hm & _) Hs1]; [|done].
  apply IH; [done|..]; by rewrite ?Hl, Hm.
Qed.

Lemma advance_loop_total fuel (n : Node) target :
  bt_sorted (nd_inflight n) -> wf (nd_membership n) -> log_ok (nd_membership n) (nd_log n) ->
  is_Some (advance_loop sm_apply fuel n target).
Proof.
  revert n. induction fuel as [|fuel IH]; intros n Hs Hwf Hlog; [by eexists|].
  cbn [advance_loop]. destruct (_ && _); [|by eexists].
  destruct (commit_one_total n false Hwf Hlog) as [[[|] n1] E]; rewrite E; [|by eexists].
  apply (commit_one_spec sm_apply n false) in E as [(_ & _ & Hl & Hm & _) Hs1]; [|done].
  apply IH; [done|..]; by rewrite ?Hl, Hm.
Qed.

(** ** Properties *)

(** C6. The primary's commit: [try_commit] returns, having applied to the state
    machine and the session table exactly the operations of a contiguous run above
    the applied frontier, in log order and each once; every one of them was ready
    by the quorum predicate, and the run stops only at an operation that is not
    ready or whose body is missing. *)
Theorem try_commit_exact (n : Node) cx :
  bt_sorted (nd_inflight n) -> wf (nd_membership n) -> log_ok (nd_membership n) (nd_log n) ->
  node_is_primary n = true -> cx_pending_install cx || cx_sm_reconstruct cx = false ->
  exists n' k, try_commit sm_apply n cx = Some n' /\
    nd_commit_min n' = nd_commit_min n + Z.of_nat k /\ nd_commit_min n' <= nd_commit_max n' /\
    replay sm_apply (c_max_client_sessions (nd_config n)) (nd_log n) (nd_commit_min n) k (node_core n)
    = Some (node_core n') /\
    (forall i, 1 <= i <= Z.of_nat k ->
       commit_ready (nd_membership n) (nd_log n) (nd_inflight n) (nd_commit_min n + i) = true) /\
    (commit_ready (nd_membership n) (nd_log n) (nd_inflight n) (nd_commit_min n' + 1) = false \/
     is_hole (nd_log n) (nd_commit_min n' + 1)).
Proof.
  intros Hs Hwf Hlog Hp Hcx. unfold try_commit. rewrite Hp, Hcx. cbn [negb].
  destruct (try_loop_total (Datatypes.S (length (nd_inflight n))) n Hs Hwf Hlog) as [n1 E].
  rewrite E. cbn [mbind option_bind].
  destruct (try_loop_spec sm_apply _ n n1 Hs (keys_above_bound _ _) E) as (k & Hk & Hrep & Hready & Hstop).
  eexists _, k. split; [reflexivity|].
  destruct (_ && _); cbn; rewrite Hk; (split_and!; [done|lia|exact Hrep|done|by rewrite <-Hk]).
Qed.

(** A backup's commit: [advance_commit] returns, having applied exactly a
    contiguous run of its log above the applied frontier, in order and each once,
    never past the learned target or its own head, and stopping short of both only
    at a missing body. *)
Theorem advance_commit_exact (n : Node) cx target :
  bt_sorted (nd_inflight n) -> wf (nd_membership n) -> log_ok (nd_membership n) (nd_log n) ->
  cx_pending_install cx = false -> cx_sm_reconstruct cx = false ->
  exists n' k, advance_commit sm_apply n cx target = Some n' /\
    nd_commit_min n' = nd_commit_min n + Z.of_nat k /\
    replay sm_apply (c_max_client_sessions (nd_config n)) (nd_log n) (nd_commit_min n) k (node_core n)
    = Some (node_core n') /\
    (k = 0%nat \/ nd_commit_min n' <= Z.min target (nd_op n)) /\
    (Z.min target (nd_op n) <= nd_commit_min n' \/ is_hole (nd_log n) (nd_commit_min n' + 1)).
Proof.
  intros Hs Hwf Hlog H1 H2. unfold advance_commit. rewrite H1, H2. cbv zeta.
  set (n0 := set_commit_max n _).
  destruct (advance_loop_total (Z.to_nat (target - nd_commit_min n0)) n0 target Hs Hwf Hlog) as [n1 E].
  destruct (advance_loop_spec sm_apply _ n0 n1 target Hs (Nat.le_refl _) E) as (k & Hk & Hrep & Hle & Hstop).
  exists n1, k. by split_and!.
Qed.

(** Primary and backup execute alike: from equal state machines, equal applied
    frontiers and tables with equal committed projections, a primary committing by
    its quorum and a backup following a learned commit over logs that agree end,
    at equal frontiers, with equal state machines and equal committed session
    projections. *)
Theorem roles_execute_alike (p b p' b' : Node) cx cx' target :
  bt_sorted (nd_inflight p) -> bt_sorted (nd_inflight b) ->
  nd_sm p = nd_sm b -> 0 <= nd_commit_min p -> nd_commit_min p = nd_commit_min b ->
  c_max_client_sessions (nd_config p) = c_max_client_sessions (nd_config b) ->
  rows_ok (nd_clients p) -> rows_ok (nd_clients b) ->
  committed_session_projection (nd_clients p) = committed_session_projection (nd_clients b) ->
  (forall op, nd_commit_min p < op <= nd_commit_min p' -> bt_get op (nd_log p) = bt_get op (nd_log b)) ->
  (forall op e, bt_get op (nd_log p) = Some e -> 0 <= l_request e) ->
  node_is_primary p = true -> cx_pending_install cx || cx_sm_reconstruct cx = false ->
  try_commit sm_apply p cx = Some p' ->
  cx_pending_install cx' || cx_sm_reconstruct cx' = false ->
  advance_commit sm_apply b cx' target = Some b' ->
  nd_commit_min p' = nd_commit_min b' ->
  nd_sm p' = nd_sm b' /\
  committed_session_projection (nd_clients p') = committed_session_projection (nd_clients b').
Proof.
  intros Hsp Hsb Hsm H0 Hc Hcap Hokp Hokb Hproj Hlog Hreq Hp Hcx Ep Hcx' Eb Hc'.
  apply orb_false_iff in Hcx' as [H1 H2]. unfold advance_commit in Eb. rewrite H1, H2 in Eb.
  cbv zeta in Eb. set (b0 := set_commit_max b _) in Eb.
  destruct (advance_loop_spec sm_apply _ b0 b' target Hsb (Nat.le_refl _) Eb)
    as (kb & Hkb & Hrb & _). cbn in Hkb, Hrb.
  unfold try_commit in Ep. rewrite Hp, Hcx in Ep. cbn [negb] in Ep.
  destruct (try_commit_loop _ _ p) as [p1|] eqn:El; [|done]. cbn [mbind option_bind] in Ep.
  destruct (try_loop_spec sm_apply _ p p1 Hsp (keys_above_bound _ _) El) as (kp & Hkp & Hrp & _).
  assert (nd_commit_min p' = nd_commit_min p1 /\ node_core p' = node_core p1) as [Ec Ecore]
    by (injection Ep as <-; by destruct (_ && _)).
  rewrite <-Ecore in Hrp. assert (kb = kp) as -> by lia.
  rewrite <-Hc, <-Hcap in Hrb.
  apply (replay_agree sm_apply (c_max_client_sessions (nd_config p)) (nd_log p) (nd_log b) (nd_commit_min p) kp (node_core p)
           (node_core b) (node_core p') (node_core b')); try done.
  intros op Hop. apply Hlog. lia.
Qed.
End total.

Section requests.
Context {S : Type}.

(** Committing a reconfiguration: an operation that carries a delta's
    successor, pinned to the configuration in force, stages exactly that successor
    and moves the applied and known-committed frontiers over it, without applying
    anything to the state machine or the sessions, without changing the
    configuration in force and without fail-stop; one pinned to another
    configuration stages nothing. *)
Theorem committed_reconfigure_stages (n : Node (S := S)) op d m' p :
  wf (nd_membership n) -> nd_commit_min n <= op -> nd_pending_swap n = None ->
  (p_prev_config_id p = m_config_id (nd_membership n) ->
     apply_delta (nd_membership n) d = Ok m' /\ p = from_membership m' (m_config_id (nd_membership n))) ->
  exists n', commit_reconfigure n op (Reconfigure p) = Some (Some n') /\
    nd_pending_swap n' = (if p_prev_config_id p =? m_config_id (nd_membership n)
                          then Some (op, m') else None) /\
    nd_membership n' = nd_membership n /\ nd_commit_min n' = op /\ op <= nd_commit_max n' /\
    node_core n' = node_core n.
Proof.
  intros Hwf Hop Hsw Hp. unfold commit_reconfigure. cbn [as_reconfigure mbind option_bind].
  rewrite (proj2 (Z.ltb_ge _ _)) by done. cbn. rewrite Z.eqb_sym.
  destruct (Z.eqb_spec (p_prev_config_id p) (m_config_id (nd_membership n))) as [E|].
  - destruct (Hp E) as [Hd ->]. cbn.
    rewrite (delta_admits_no_new_voter _ _ _ Hwf Hd), (delta_reconfigure _ _ _ Hwf Hd).
    eexists. split; [reflexivity|]. unfold stage_epoch_swap. cbn. rewrite Hsw. cbn.
    split_and!; try done. lia.
  - eexists. split; [reflexivity|]. cbn. split_and!; try done. lia.
Qed.

(** What admission keeps bounded: the uncommitted pipeline, the un-pruned window of
    the ring, the view-change carrier and the session table. *)
Definition node_bounded (n : Node (S := S)) (cx : Ctx) : Prop :=
  nd_op n - nd_commit_min n <= MAX_PIPELINE /\
  nd_op n - prune_floor cx <= effective_wal_capacity (cx_wal_capacity cx) (c_checkpoint_ops (nd_config n)) /\
  zlen (nd_log n) <= MAX_HEADER_ONLY_BAND_DEPTH /\
  nd_op n - cx_log_floor cx <= MAX_HEADER_ONLY_BAND_DEPTH /\
  Z.of_nat (size (nd_clients n)) <= session_table_hard_bound (nd_config n).

(** A request that mints an operation, and what it mints. *)
Definition minted (n n' : Node (S := S)) (cx : Ctx) client request body : Prop :=
  check_new_op_admission n cx = Ok tt /\ client <> RECONFIGURATION /\
  dedup (session_table_hard_bound (nd_config n)) (nd_clients n) client request = Fresh /\
  nd_op n' = nd_op n + 1 /\ nd_clients n' = accept (nd_clients n) client request /\
  bt_get (nd_op n') (nd_log n') = Some (mkLogEntry client request (Present body)) /\
  bt_get (nd_op n') (nd_inflight n')
  = Some (mkInflight 0 false (prepare_identity client request (fnv1a_128 body))) /\
  nd_op n' ∈ nd_appending n'.

Lemma length_bt_insert {V} k (v : V) t : zlen (bt_insert k v t) <= zlen t + 1.
Proof. induction t as [|[k' v'] t IH]; simpl; [lia|]. repeat case_match; simpl; lia. Qed.

Lemma size_accept bound t c r :
  dedup bound t c r = Fresh -> Z.of_nat (size t) <= bound -> Z.of_nat (size (accept t c r)) <= bound.
Proof.
  unfold dedup, accept. intros Hd Hs. destruct (t !! c) eqn:E.
  - by rewrite map_size_insert_Some.
  - rewrite map_size_insert_None by done. destruct (negb _); [done|].
    destruct (Z.leb_spec bound (Z.of_nat (size t))); [done|]. lia.
Qed.

Lemma mint_bounded (n : Node (S := S)) cx client request body :
  node_bounded n cx -> 0 <= nd_op n < umax 64 -> 0 <= prune_floor cx -> 0 <= cx_log_floor cx ->
  client <> RECONFIGURATION -> check_new_op_admission n cx = Ok tt ->
  dedup (session_table_hard_bound (nd_config n)) (nd_clients n) client request = Fresh ->
  let n' := mint_op (set_clients n (accept (nd_clients n) client request) 0) cx client request body
              (Present body) in
  node_bounded n' cx /\ minted n n' cx client request body.
Proof.
  intros (Hp & Hw & Hl & Hf & Ht) Hop Hpf Hlf Hcl Hadm Hd n'.
  assert (Counter.next (nd_op n) = nd_op n + 1) as Hnext
    by (unfold Counter.next, sat_add, umax in *; lia).
  assert (nd_op n' = nd_op n + 1) as Hop' by exact Hnext.
  pose proof Hadm as Hadm'. unfold check_new_op_admission in Hadm'.
  repeat (match type of Hadm' with (if ?b then _ else _) = _ => destruct b eqn:?; [done|] end).
  cbv zeta in Hadm'. destruct (_ || band_at_capacity n cx) eqn:Hcap; [done|].
  apply orb_false_iff in Hcap as [Hring Hband]. unfold band_at_capacity in Hband.
  split; [unfold node_bounded; rewrite Hop'; split_and!|].
  - cbn. unfold sat_sub in *. lia.
  - cbn. unfold sat_add, sat_sub, umax in *. lia.
  - pose proof (length_bt_insert (Counter.next (nd_op n)) (mkLogEntry client request (Present body)) (nd_log n)).
    cbn in *. lia.
  - unfold sat_sub in *. lia.
  - by apply size_accept.
  - unfold minted. split_and!; try done; cbn; rewrite ?bt_get_insert, ?Z.eqb_refl; try done. set_solver.
Qed.

(** Requests: [on_request] keeps every resource bound, and either leaves the
    log, the head, the tallies and the session table as they were (dropping the
    request, counting a stall or resending a cached reply) or mints exactly one
    operation: then the admission gate and the dedup decision both admitted it,
    the client is not the reserved one, the head advances by one, and the new
    entry starts un-acked under its own content address. *)
Theorem on_request_admits (n : Node (S := S)) cx client request body :
  node_bounded n cx -> 0 <= nd_op n < umax 64 -> 0 <= prune_floor cx -> 0 <= cx_log_floor cx ->
  let '(n', _) := on_request n cx client request body in
  node_bounded n' cx /\
  (minted n n' cx client request body \/
   nd_op n' = nd_op n /\ nd_log n' = nd_log n /\ nd_inflight n' = nd_inflight n /\
   nd_clients n' = nd_clients n /\
   (nd_out n' = nd_out n \/ exists rn reply,
      dedup (session_table_hard_bound (nd_config n)) (nd_clients n) client request = Resend rn reply /\
      nd_out n' = nd_out n ++ [SentReply (nd_view n) client rn reply])).
Proof.
  intros Hb Hop Hpf Hlf. unfold on_request.
  assert (node_bounded n cx /\ (minted n n cx client request body \/
    nd_op n = nd_op n /\ nd_log n = nd_log n /\ nd_inflight n = nd_inflight n /\
    nd_clients n = nd_clients n /\ (nd_out n = nd_out n \/ exists rn reply,
      dedup (session_table_hard_bound (nd_config n)) (nd_clients n) client request = Resend rn reply /\
      nd_out n = nd_out n ++ [SentReply (nd_view n) client rn reply]))) as Hsame
    by (split; [done|right; split_and!; auto]).
  destruct (Z.eqb_spec client RECONFIGURATION); [done|]. cbv zeta.
  destruct (check_new_op_admission n cx) as [[]|[]] eqn:Ha; try done;
    destruct (dedup _ _ client request) as [| |rn reply| | |] eqn:Ed; try done;
    try (split; [done|right; cbn; split_and!; eauto 6]).
  destruct (mint_bounded n cx client request body) as [? ?]; auto.
Qed.
End requests.

(** ** Witnesses *)

Definition demo_apply (op : OpNumber) (body : list byte) (s : Z) : Z * list byte := (s + zlen body, body).

Definition demo_entry : LogEntry := mkLogEntry 7 1 (Present [x61]).

Definition demo_cfg : Config := mkConfig 1 10 32 4.

Definition demo_ctx : Ctx := mkCtx Normal false false false false false false false false 0 0 0 100.

(** A node of the sample configuration whose first operation has acks [oks]. *)
Definition demo_node (oks : Z) : Node := mkNode demo_cfg sample 0 1 0 0 [(1, demo_entry)]
  [(1, mkInflight oks false 5)] ∅ ∅ ∅ 0 None 0 0 [].

Lemma demo_sorted oks : bt_sorted (nd_inflight (demo_node oks)).
Proof. repeat constructor. Qed.

Lemma demo_log_ok oks : log_ok sample (nd_log (demo_node oks)).
Proof. intros op e p. simpl. destruct (op =? 1); [|done]. by intros [= <-]. Qed.

Lemma try_commit_exact_witness :
  exists n' k, try_commit demo_apply (demo_node 3) demo_ctx = Some n' /\
    nd_commit_min n' = 0 + Z.of_nat k.
Proof.
  destruct (try_commit_exact demo_apply (demo_node 3) demo_ctx) as (n' & k & E & Hk & _);
    [apply demo_sorted|exact sample_wf|apply demo_log_ok|reflexivity|reflexivity|].
  by exists n', k.
Defined.

Lemma advance_commit_exact_witness :
  exists n' k, advance_commit demo_apply (demo_node 0) demo_ctx 1 = Some n' /\
    nd_commit_min n' = 0 + Z.of_nat k.
Proof.
  destruct (advance_commit_exact demo_apply (demo_node 0) demo_ctx 1) as (n' & k & E & Hk & _);
    [apply demo_sorted|exact sample_wf|apply demo_log_ok|reflexivity|reflexivity|].
  by exists n', k.
Defined.

Lemma roles_execute_alike_witness :
  exists p' b', try_commit demo_apply (demo_node 3) demo_ctx = Some p' /\
    advance_commit demo_apply (demo_node 0) demo_ctx 1 = Some b' /\ nd_sm p' = nd_sm b' /\
    nd_commit_min p' = 1.
Proof.
  destruct (try_commit demo_apply (demo_node 3) demo_ctx) as [p'|] eqn:Ep;
    [|vm_compute in Ep; discriminate].
  destruct (advance_commit demo_apply (demo_node 0) demo_ctx 1) as [b'|] eqn:Eb;
    [|vm_compute in Eb; discriminate].
  assert (nd_commit_min p' = 1) as Hp by (vm_compute in Ep; injection Ep as <-; reflexivity).
  assert (nd_commit_min b' = 1) as Hb by (vm_compute in Eb; injection Eb as <-; reflexivity).
  exists p', b'. split_and!; [done|done| |done].
  apply (roles_execute_alike demo_apply (demo_node 3) (demo_node 0) p' b' demo_ctx demo_ctx 1);
    try done; try apply demo_sorted.
  - intros op e. simpl. destruct (op =? 1); [|done]. by intros [= <-].
  - congruence.
Defined.

Lemma committed_reconfigure_stages_witness :
  exists m' n', commit_reconfigure (demo_node 0) 1
      (Reconfigure (from_membership m' (m_config_id sample))) = Some (Some n') /\
    nd_membership n' = sample.
Proof.
  destruct (apply_delta sample (PromoteLearner 13)) as [m'|] eqn:E;
    [|exfalso; vm_compute in E; discriminate].
  exists m'. destruct (committed_reconfigure_stages (demo_node 0) 1 (PromoteLearner 13) m'
    (from_membership m' (m_config_id sample))) as (n' & H & _ & Hm & _);
    [exact sample_wf|done|done|done|by exists n'].
Defined.

Lemma on_request_admits_witness :
  let n' := (on_request (mkNode demo_cfg sample 0 0 0 0 [] [] ∅ ∅ ∅ 0 None 0 0 []) demo_ctx 7 1 [x61]).1 in
  node_bounded n' demo_ctx /\ nd_op n' = 1.
Proof.
  pose proof (on_request_admits (mkNode demo_cfg sample 0 0 0 0 [] [] ∅ ∅ ∅ 0 None 0 0 []) demo_ctx 7 1 [x61]) as H.
  destruct (on_request _ demo_ctx 7 1 [x61]) as [n' b] eqn:E.
  split; [apply H|]; [vm_compute; intuition discriminate|done|done|done|].
  apply (f_equal (fun r => nd_op r.1)) in E. simpl in *. rewrite <-E. reflexivity.
Defined.
