(* ===== verification/Batch.v ===== *)
(** * The edge-batching codec

    [viewstamp-proto/src/batch/mod.rs]: many application units in one operation
    body.  The builders ([BatchBuilder], and [ReplyBuilder] with its per-unit
    ceiling), the validating parser the two views share ([RawView::parse]) and
    the unit iterator.  A [&mut self] method returns the builder afterwards next
    to its result. *)

From S2P Require Import Prelude.

Definition BATCH_COUNT_OVERHEAD : Z := 4.
Definition BATCH_UNIT_OVERHEAD : Z := 4.
Definition BUDGET_CAP : Z := umax 32.

Record BatchFull : Type := mkBatchFull {
  bf_bytes_used : Z;
  bf_unit_len : Z;
  bf_budget : Z;
}.

Inductive EmptyBatch : Type := mkEmptyBatch.

Inductive ReplyPushError : Type :=
| UnitOverCeiling (len max_unit_len : Z)
| Full (e : BatchFull).

Inductive BatchMalformed : Type :=
| BatchTruncated (expected got : Z)
| ZeroCount
| CountOverflow (count remaining : Z)
| UnitLengthOverflow (len remaining : Z)
| BatchTrailingBytes (n : Z).

(** ** Builders *)

Record BatchBuilder : Type := mkBuilder {
  bb_buf : list byte;
  bb_count : Z;
  bb_budget : Z;
}.

Definition builder_new (budget : Z) : BatchBuilder :=
  mkBuilder (repeat x00 (Z.to_nat BATCH_COUNT_OVERHEAD)) 0 (Z.min budget BUDGET_CAP).

Definition push (b : BatchBuilder) (unit_ : list byte) : BatchBuilder * result BatchFull () :=
  let full := (b, Err (mkBatchFull (zlen (bb_buf b)) (zlen unit_) (bb_budget b))) in
  let needed :=
    n ← checked_add 64 (zlen (bb_buf b)) BATCH_UNIT_OVERHEAD; checked_add 64 n (zlen unit_) in
  match needed with
  | Some needed =>
      if needed <=? bb_budget b then
        (mkBuilder (bb_buf b ++ be_bytes 4 (wrap 32 (zlen unit_)) ++ unit_)
           (wrapping_add 32 (bb_count b) 1) (bb_budget b), Ok tt)
      else full
  | None => full
  end.

Definition builder_len (b : BatchBuilder) : Z := bb_count b.
Definition builder_is_empty (b : BatchBuilder) : bool := bb_count b =? 0.
Definition bytes_used (b : BatchBuilder) : Z := zlen (bb_buf b).

Definition batch_finish (b : BatchBuilder) : result EmptyBatch (list byte) :=
  if bb_count b =? 0 then Err mkEmptyBatch
  else Ok (be_bytes 4 (bb_count b) ++ drop (Z.to_nat BATCH_COUNT_OVERHEAD) (bb_buf b)).

Record ReplyBuilder : Type := mkReplyBuilder {
  rb_inner : BatchBuilder;
  rb_max_unit_len : Z;
}.

Definition reply_new (budget max_unit_len : Z) : ReplyBuilder :=
  mkReplyBuilder (builder_new budget) max_unit_len.

Definition reply_push (b : ReplyBuilder) (unit_ : list byte) : ReplyBuilder * result ReplyPushError () :=
  if rb_max_unit_len b <? zlen unit_
  then (b, Err (UnitOverCeiling (zlen unit_) (rb_max_unit_len b)))
  else
    let '(inner, r) := push (rb_inner b) unit_ in
    (mkReplyBuilder inner (rb_max_unit_len b), map_err Full r).

Definition reply_finish (b : ReplyBuilder) : result EmptyBatch (list byte) :=
  batch_finish (rb_inner b).

(** ** Views *)

Record RawView : Type := mkView {
  v_units : list byte;
  v_count : Z;
}.

(** [split_at_checked], and [split_first_chunk] whose mid is the chunk size. *)
Definition split_at_checked (mid : Z) (l : list byte) : option (list byte * list byte) :=
  if mid <=? zlen l then Some (take (Z.to_nat mid) l, drop (Z.to_nat mid) l) else None.

(** The [while left > 0] walk over the unit prefixes: the tail after them. *)
Fixpoint parse_walk (left_ : nat) (tail : list byte) : result BatchMalformed (list byte) :=
  match left_ with
  | O => Ok tail
  | S left_ =>
      let? (len_bytes, rest) :=
        ok_or (split_at_checked BATCH_UNIT_OVERHEAD tail)
          (BatchTruncated BATCH_UNIT_OVERHEAD (zlen tail)) in
      let len := from_be_bytes len_bytes in
      let? (_, rest') :=
        ok_or (split_at_checked len rest) (UnitLengthOverflow len (zlen rest)) in
      parse_walk left_ rest'
  end.

Definition parse (buf : list byte) : result BatchMalformed RawView :=
  let? (count_bytes, units) :=
    ok_or (split_at_checked BATCH_COUNT_OVERHEAD buf)
      (BatchTruncated BATCH_COUNT_OVERHEAD (zlen buf)) in
  let count := from_be_bytes count_bytes in
  if count =? 0 then Err ZeroCount
  else if zlen units <? sat_mul 64 count BATCH_UNIT_OVERHEAD
  then Err (CountOverflow count (zlen units))
  else
    let? tail := parse_walk (Z.to_nat count) units in
    if (zlen tail =? 0) then Ok (mkView units count)
    else Err (BatchTrailingBytes (zlen tail)).

Definition view_is_empty (v : RawView) : bool := v_count v =? 0.

Record BatchUnits : Type := mkUnits {
  u_tail : list byte;
  u_remaining : Z;
}.

Definition view_units (v : RawView) : BatchUnits := mkUnits (v_units v) (v_count v).

(** [Iterator::next]: the unit and the advanced iterator. *)
Definition units_next (it : BatchUnits) : option (list byte * BatchUnits) :=
  if u_remaining it =? 0 then None
  else
    '(len_bytes, rest) ← split_at_checked BATCH_UNIT_OVERHEAD (u_tail it);
    '(unit_, rest) ← split_at_checked (from_be_bytes len_bytes) rest;
    Some (unit_, mkUnits rest (u_remaining it - 1)).

Definition size_hint (it : BatchUnits) : Z := u_remaining it.

(** [Iterator::nth]: skip [n] items, then one [next]. *)
Fixpoint units_nth (it : BatchUnits) (n : nat) : option (list byte) :=
  match units_next it with
  | None => None
  | Some (u, it') => match n with O => Some u | S k => units_nth it' k end
  end.

(** Draining the iterator; [fuel] items at most. *)
Fixpoint units_collect (fuel : nat) (it : BatchUnits) : list (list byte) :=
  match fuel with
  | O => []
  | S fuel =>
      match units_next it with
      | None => []
      | Some (u, it') => u :: units_collect fuel it'
      end
  end.

Definition view_unit (v : RawView) (index : nat) : option (list byte) :=
  units_nth (view_units v) index.

(** All units of a view: one more call than [len] promises. *)
Definition view_collect (v : RawView) : list (list byte) :=
  units_collect (S (Z.to_nat (v_count v))) (view_units v).

(** ** The layout, stated once *)

Definition unit_encoding (u : list byte) : list byte := be_bytes 4 (zlen u) ++ u.
Definition units_encoding (us : list (list byte)) : list byte := concat (map unit_encoding us).
Definition batch_encoding (us : list (list byte)) : list byte :=
  be_bytes 4 (zlen us) ++ units_encoding us.

(** The units a batch of this many bytes and fields can hold. *)
Definition encodable (us : list (list byte)) : Prop :=
  zlen us < 2 ^ 32 /\ Forall (fun u => zlen u < 2 ^ 32) us.

(** Offering units one by one; a refused unit is dropped. *)
Definition offer (acc : BatchBuilder * list (list byte)) (u : list byte)
    : BatchBuilder * list (list byte) :=
  match push acc.1 u with
  | (b', Ok _) => (b', acc.2 ++ [u])
  | (b', Err _) => (b', acc.2)
  end.

(** The same, on the size arithmetic alone: a unit is taken when the encoding
    with it stays within the budget. *)
Definition take_unit (budget : Z) (taken : list (list byte)) (u : list byte) : list (list byte) :=
  if zlen (batch_encoding (taken ++ [u])) <=? Z.min budget BUDGET_CAP then taken ++ [u] else taken.

Fixpoint reply_push_all (b : ReplyBuilder) (us : list (list byte))
    : result ReplyPushError ReplyBuilder :=
  match us with
  | [] => Ok b
  | u :: us =>
      match reply_push b u with
      | (b', Ok _) => reply_push_all b' us
      | (_, Err e) => Err e
      end
  end.

(** ** Lemmas *)

Lemma split_at_checked_app a b : split_at_checked (zlen a) (a ++ b) = Some (a, b).
Proof.
  unfold split_at_checked. rewrite length_app, (proj2 (Z.leb_le _ _)) by lia.
  by rewrite Nat2Z.id, take_app_length, drop_app_length.
Qed.

Lemma split_at_checked_Some n l a b :
  0 <= n -> split_at_checked n l = Some (a, b) -> l = a ++ b /\ zlen a = n.
Proof.
  unfold split_at_checked. intros Hn. destruct (Z.leb_spec n (zlen l)); [|done].
  intros [= <- <-]. rewrite take_drop, length_take. split; [done|lia].
Qed.

Lemma split_prefix z l : split_at_checked 4 (be_bytes 4 z ++ l) = Some (be_bytes 4 z, l).
Proof. apply (split_at_checked_app (be_bytes 4 z)). Qed.

Lemma split_prefix_Some l a b :
  split_at_checked 4 l = Some (a, b) ->
  l = be_bytes 4 (from_be_bytes a) ++ b /\ 0 <= from_be_bytes a < 2 ^ 32.
Proof.
  intros [-> Ha]%split_at_checked_Some; [|lia]. pose proof (from_be_bytes_range a) as Hr.
  rewrite Ha in Hr. split; [|exact Hr].
  pose proof (be_bytes_from_be_bytes a) as E. replace (length a) with 4%nat in E by lia.
  by rewrite E.
Qed.

Lemma length_unit_encoding u : zlen (unit_encoding u) = 4 + zlen u.
Proof. unfold unit_encoding. rewrite length_app, length_be_bytes. lia. Qed.

Lemma units_encoding_cons u us : units_encoding (u :: us) = be_bytes 4 (zlen u) ++ u ++ units_encoding us.
Proof. unfold units_encoding, unit_encoding. cbn [map concat]. by rewrite <-app_assoc. Qed.

Lemma units_encoding_snoc us u : units_encoding (us ++ [u]) = units_encoding us ++ unit_encoding u.
Proof. unfold units_encoding. rewrite map_app, concat_app. cbn [map concat]. by rewrite app_nil_r. Qed.

Lemma units_encoding_len us : 4 * zlen us <= zlen (units_encoding us).
Proof.
  induction us as [|u us IH]; [done|]. rewrite units_encoding_cons, !length_app, length_be_bytes.
  cbn [length]. lia.
Qed.

Lemma units_encoding_elem_len us u : u ∈ us -> 4 + zlen u <= zlen (units_encoding us).
Proof.
  induction us as [|v us IH]; [by intros ?%not_elem_of_nil|].
  rewrite units_encoding_cons, !length_app, length_be_bytes.
  intros [->|Hu]%elem_of_cons; [lia|]. specialize (IH Hu). lia.
Qed.

Lemma unit_prefix_value (u : list byte) : zlen u < 2 ^ 32 -> from_be_bytes (be_bytes 4 (zlen u)) = zlen u.
Proof. intros. apply be_bytes_roundtrip. change (256 ^ Z.of_nat 4) with (2 ^ 32). lia. Qed.

(** One step of either walk on encoded units. *)
Lemma units_next_cons u us rest n :
  zlen u < 2 ^ 32 -> 0 < n ->
  units_next (mkUnits (units_encoding (u :: us) ++ rest) n)
  = Some (u, mkUnits (units_encoding us ++ rest) (n - 1)).
Proof.
  intros Hu Hn. unfold units_next, BATCH_UNIT_OVERHEAD. cbn [u_tail u_remaining].
  rewrite (proj2 (Z.eqb_neq _ _)) by lia. rewrite units_encoding_cons, <-app_assoc, split_prefix, <-app_assoc.
  cbn [mbind option_bind]. rewrite unit_prefix_value by done. by rewrite split_at_checked_app.
Qed.

Lemma parse_walk_encoding us rest :
  Forall (fun u => zlen u < 2 ^ 32) us ->
  parse_walk (length us) (units_encoding us ++ rest) = Ok rest.
Proof.
  induction us as [|u us IH]; intros Hall; [done|]. apply Forall_cons in Hall as [Hu Hall].
  cbn [length parse_walk]. rewrite units_encoding_cons, <-!app_assoc.
  unfold BATCH_UNIT_OVERHEAD. rewrite split_prefix. cbn [ok_or].
  rewrite unit_prefix_value by done. rewrite split_at_checked_app. cbn [ok_or]. by apply IH.
Qed.

(** Whatever the walk accepts is an encoding of units. *)
Lemma parse_walk_inv n tail rest :
  parse_walk n tail = Ok rest ->
  exists us, length us = n /\ Forall (fun u => zlen u < 2 ^ 32) us /\
    tail = units_encoding us ++ rest.
Proof.
  revert tail. induction n as [|n IH]; intros tail; cbn [parse_walk].
  - intros [= ->]. by exists [].
  - unfold BATCH_UNIT_OVERHEAD. destruct (split_at_checked 4 tail) as [[lb r1]|] eqn:E1; [|done].
    cbn [ok_or]. apply split_prefix_Some in E1 as [-> Hlen].
    destruct (split_at_checked (from_be_bytes lb) r1) as [[u r2]|] eqn:E2; [|done].
    cbn [ok_or]. apply split_at_checked_Some in E2 as [-> Hu]; [|lia].
    intros (us & Hn & Hall & ->)%IH. exists (u :: us). split_and!; [simpl; lia| |].
    + constructor; [lia|done].
    + by rewrite units_encoding_cons, <-!app_assoc, Hu.
Qed.

Lemma units_collect_encoding us fuel :
  Forall (fun u => zlen u < 2 ^ 32) us -> (length us < fuel)%nat ->
  units_collect fuel (mkUnits (units_encoding us) (zlen us)) = us.
Proof.
  revert fuel. induction us as [|u us IH]; intros [|fuel] Hall Hf; [lia|done|lia|].
  apply Forall_cons in Hall as [Hu Hall]. cbn [units_collect].
  rewrite <-(app_nil_r (units_encoding (u :: us))), units_next_cons, app_nil_r
    by (done || (simpl; lia)).
  replace (zlen (u :: us) - 1) with (zlen us) by (simpl; lia).
  rewrite IH; [done|done|simpl in *; lia].
Qed.

Lemma units_nth_encoding us n :
  Forall (fun u => zlen u < 2 ^ 32) us ->
  units_nth (mkUnits (units_encoding us) (zlen us)) n = us !! n.
Proof.
  revert n. induction us as [|u us IH]; intros n Hall; [by destruct n|].
  apply Forall_cons in Hall as [Hu Hall].
  assert (units_next (mkUnits (units_encoding (u :: us)) (zlen (u :: us)))
          = Some (u, mkUnits (units_encoding us) (zlen us))) as E.
  { rewrite <-(app_nil_r (units_encoding (u :: us))), units_next_cons, app_nil_r
      by (done || (simpl; lia)). by replace (zlen (u :: us) - 1) with (zlen us) by (simpl; lia). }
  destruct n as [|n]; cbn [units_nth]; rewrite E; [done|]. by apply IH.
Qed.

Definition view_of (us : list (list byte)) : RawView := mkView (units_encoding us) (zlen us).

Lemma parse_encoding us :
  us <> [] -> encodable us -> parse (batch_encoding us) = Ok (view_of us).
Proof.
  intros Hne [Hcount Hall]. unfold parse, batch_encoding, BATCH_COUNT_OVERHEAD.
  rewrite split_prefix. cbn [ok_or]. cbv zeta.
  rewrite (be_bytes_roundtrip 4) by (change (256 ^ Z.of_nat 4) with (2 ^ 32); lia).
  rewrite (proj2 (Z.eqb_neq _ _)) by (destruct us; simpl; [done|lia]).
  pose proof (units_encoding_len us).
  rewrite (proj2 (Z.ltb_ge _ _)) by (unfold sat_mul, BATCH_UNIT_OVERHEAD; lia).
  rewrite Nat2Z.id. pose proof (parse_walk_encoding us [] Hall) as E. rewrite app_nil_r in E.
  by rewrite E.
Qed.

Lemma parse_inv buf v :
  parse buf = Ok v -> exists us, us <> [] /\ encodable us /\ buf = batch_encoding us /\ v = view_of us.
Proof.
  unfold parse, BATCH_COUNT_OVERHEAD.
  destruct (split_at_checked 4 buf) as [[cb units]|] eqn:E; [|done]. cbn [ok_or]. cbv zeta.
  apply split_prefix_Some in E as [-> Hc].
  destruct (Z.eqb_spec (from_be_bytes cb) 0); [done|].
  destruct (zlen units <? _); [done|].
  destruct (parse_walk _ units) as [tail|] eqn:E; [|done].
  apply parse_walk_inv in E as (us & Hlen & Hall & ->).
  destruct (Z.eqb_spec (zlen tail) 0) as [Ht|]; [|done].
  destruct tail as [|]; [|simpl in Ht; lia]. rewrite app_nil_r. intros [= <-].
  assert (from_be_bytes cb = zlen us) as -> by lia.
  exists us. split_and!; [intros ->; simpl in Hlen; lia|split; [lia|done]|done|done].
Qed.

Lemma view_collect_of us : encodable us -> view_collect (view_of us) = us.
Proof.
  intros [Hc Hall]. unfold view_collect, view_units. cbn [v_count v_units view_of].
  apply units_collect_encoding; [done|lia].
Qed.

Lemma view_unit_of us i : encodable us -> view_unit (view_of us) i = us !! i.
Proof. intros [_ Hall]. by apply units_nth_encoding. Qed.

(** ** The builder's invariant *)

Definition builds (budget : Z) (b : BatchBuilder) (us : list (list byte)) : Prop :=
  bb_buf b = repeat x00 4 ++ units_encoding us /\ bb_count b = zlen us /\
  bb_budget b = Z.min budget BUDGET_CAP /\
  (us = [] \/ 4 + zlen (units_encoding us) <= bb_budget b).

Lemma builds_new budget : builds budget (builder_new budget) [].
Proof. split_and!; [done..|by left]. Qed.

Lemma builds_bytes budget b us : builds budget b us -> zlen (bb_buf b) = 4 + zlen (units_encoding us).
Proof. intros (-> & _). rewrite length_app, repeat_length. lia. Qed.

(** A push appends the unit exactly when the result fits the budget, and
    otherwise changes nothing. *)
Lemma push_spec budget b us u :
  builds budget b us ->
  if 4 + zlen (units_encoding (us ++ [u])) <=? Z.min budget BUDGET_CAP
  then exists b', push b u = (b', Ok tt) /\ builds budget b' (us ++ [u])
  else push b u = (b, Err (mkBatchFull (4 + zlen (units_encoding us)) (zlen u) (Z.min budget BUDGET_CAP))).
Proof.
  intros Hb. pose proof (builds_bytes _ _ _ Hb) as Hlen. destruct Hb as (Hbuf & Hcnt & Hbud & Hfit).
  pose proof (units_encoding_len us) as Hcap.
  rewrite units_encoding_snoc, length_app, Nat2Z.inj_add, length_unit_encoding.
  unfold push. cbv zeta. rewrite Hlen, Hbud. unfold checked_add, BATCH_UNIT_OVERHEAD, BUDGET_CAP, umax in *.
  destruct (Z.leb_spec (4 + (zlen (units_encoding us) + (4 + zlen u))) (Z.min budget (2 ^ 32 - 1))).
  - rewrite (proj2 (Z.leb_le _ (2 ^ 64 - 1))) by lia. cbn [mbind option_bind].
    rewrite (proj2 (Z.leb_le _ (2 ^ 64 - 1))) by lia. rewrite (proj2 (Z.leb_le _ _)) by lia.
    eexists. split; [done|]. unfold builds. cbn [bb_buf bb_count bb_budget].
    rewrite units_encoding_snoc, Hbuf, <-app_assoc. split_and!; [|..|right].
    + by rewrite wrap_small by (unfold fits; lia).
    + unfold wrapping_add. rewrite Hcnt, wrap_small by (unfold fits; lia).
      rewrite length_app. simpl. lia.
    + done.
    + rewrite length_app, Nat2Z.inj_add, length_unit_encoding. lia.
  - destruct (Z.leb_spec (4 + zlen (units_encoding us) + 4) (2 ^ 64 - 1)); cbn [mbind option_bind]; [|done].
    destruct (Z.leb_spec (4 + zlen (units_encoding us) + 4 + zlen u) (2 ^ 64 - 1)); [|done].
    by rewrite (proj2 (Z.leb_gt _ _)) by lia.
Qed.

Lemma builds_encodable budget b us : builds budget b us -> encodable us.
Proof.
  intros (_ & _ & Hbud & [->|Hfit]); [by split|].
  pose proof (units_encoding_len us). unfold BUDGET_CAP, umax in *. split; [lia|].
  apply Forall_forall. intros u Hu%units_encoding_elem_len. lia.
Qed.

Lemma batch_finish_spec budget b us :
  builds budget b us ->
  match us with [] => batch_finish b = Err mkEmptyBatch | _ => batch_finish b = Ok (batch_encoding us) end.
Proof.
  intros (Hbuf & Hcnt & _ & _). unfold batch_finish, batch_encoding. rewrite Hcnt, Hbuf.
  destruct us as [|u us]; [done|]. rewrite (proj2 (Z.eqb_neq _ _)) by (simpl; lia). done.
Qed.

Lemma length_batch_encoding us : zlen (batch_encoding us) = 4 + zlen (units_encoding us).
Proof. unfold batch_encoding. rewrite length_app, length_be_bytes. lia. Qed.

Lemma offer_all budget us b taken :
  builds budget b taken ->
  exists b', foldl offer (b, taken) us = (b', foldl (take_unit budget) taken us) /\
    builds budget b' (foldl (take_unit budget) taken us).
Proof.
  revert b taken. induction us as [|u us IH]; intros b t Hb; [eauto|].
  pose proof (push_spec budget b t u Hb) as Hp.
  cbn [foldl]. unfold offer at 2. unfold take_unit at 2 4. cbn [fst snd].
  rewrite length_batch_encoding.
  destruct (_ <=? _); [destruct Hp as (b' & -> & Hb')|rewrite Hp]; by apply IH.
Qed.

(** The reply pushes of in-ceiling units under a ceiling-priced budget. *)
Lemma reply_push_all_fits budget ceiling us b taken :
  builds budget (rb_inner b) taken -> rb_max_unit_len b = ceiling ->
  Forall (fun u => zlen u <= ceiling) us ->
  4 + zlen (units_encoding taken) + zlen us * (4 + ceiling) <= Z.min budget BUDGET_CAP ->
  exists b', reply_push_all b us = Ok b' /\ builds budget (rb_inner b') (taken ++ us).
Proof.
  revert b taken. induction us as [|u us IH]; intros b t Hb Hc Hall Hfit.
  - exists b. by rewrite app_nil_r.
  - apply Forall_cons in Hall as [Hu Hall]. cbn [length] in Hfit.
    assert (0 <= zlen us * (4 + ceiling)) by nia.
    pose proof (push_spec budget (rb_inner b) t u Hb) as Hp.
    pose proof (units_encoding_snoc t u) as Es. apply (f_equal (fun l => zlen l)) in Es.
    rewrite length_app, Nat2Z.inj_add, length_unit_encoding in Es.
    rewrite (proj2 (Z.leb_le _ _)) in Hp by lia. destruct Hp as (inner & Ep & Hb').
    cbn [reply_push_all]. unfold reply_push. rewrite Hc, (proj2 (Z.ltb_ge _ _)), Ep by lia.
    cbn [map_err]. destruct (IH (mkReplyBuilder inner ceiling) (t ++ [u])) as (b' & E & Hb'');
      [done|done|done|lia|]. exists b'. by rewrite <-app_assoc in Hb''.
Qed.

(** ** Properties *)

(** Builder to view round trip under a budget: of the units offered, a
    builder takes greedily those that keep the encoded batch within the budget
    (clamped to [u32::MAX]); sealing fails exactly when it took none, and
    otherwise the body is within the budget and parses to a view whose iterator
    yields exactly the taken units in order, each at its index. *)
Theorem batch_roundtrip budget us :
  let taken := foldl (take_unit budget) [] us in
  let '(b, taken') := foldl offer (builder_new budget, []) us in
  taken' = taken /\ builder_len b = zlen taken /\
  match batch_finish b with
  | Err _ => taken = []
  | Ok body =>
      taken <> [] /\ zlen body <= Z.min budget BUDGET_CAP /\ bytes_used b = zlen body /\
      exists v, parse body = Ok v /\ v_count v = zlen taken /\ view_collect v = taken /\
        forall i, view_unit v i = taken !! i
  end.
Proof.
  cbv zeta. destruct (offer_all budget us _ _ (builds_new budget)) as (b & -> & Hb).
  set (taken := foldl _ [] us) in *. pose proof (builds_encodable _ _ _ Hb) as Henc.
  pose proof (batch_finish_spec _ _ _ Hb) as Hfin. pose proof (builds_bytes _ _ _ Hb) as Hlen.
  destruct Hb as (_ & Hcnt & Hbud & Hfit). split_and!; [done|done|].
  destruct (decide (taken = [])) as [Ht|Ht]; [rewrite Ht in *; by rewrite Hfin|].
  destruct taken as [|u t] eqn:E; [done|]. rewrite <-E in *. rewrite Hfin.
  unfold bytes_used. rewrite length_batch_encoding, Hlen. split_and!; [done| |done|].
  - destruct Hfit as [|Hfit]; [done|]. lia.
  - exists (view_of taken). split_and!; [by apply parse_encoding|done|by apply view_collect_of|].
    intros i. by apply view_unit_of.
Qed.

(** Decoding is exact: a buffer parses if and only if it is the canonical
    encoding of a non-empty unit list whose count and lengths fit their [u32]
    prefixes, and then the iterator yields exactly that list.  In particular two
    accepted buffers with the same units are equal. *)
Theorem batch_parse_exact buf us :
  (exists v, parse buf = Ok v /\ view_collect v = us) <->
  us <> [] /\ encodable us /\ buf = batch_encoding us.
Proof.
  split.
  - intros (v & (us' & Hne & Henc & -> & ->)%parse_inv & <-). by rewrite view_collect_of.
  - intros (Hne & Henc & ->). exists (view_of us).
    by rewrite parse_encoding, view_collect_of.
Qed.

(** The ceiling contract: when a batch was sized so that its worst-case reply
    fits the reply budget, a state machine that returns one reply per unit, each
    within the declared ceiling, has every push accepted, and the sealed reply is
    within the budget and decodes to exactly its replies. *)
Theorem reply_ceiling_fits budget ceiling replies :
  replies <> [] -> Forall (fun u => zlen u <= ceiling) replies ->
  BATCH_COUNT_OVERHEAD + zlen replies * (BATCH_UNIT_OVERHEAD + ceiling) <= Z.min budget BUDGET_CAP ->
  exists b body v, reply_push_all (reply_new budget ceiling) replies = Ok b /\
    reply_finish b = Ok body /\ zlen body <= budget /\ parse body = Ok v /\ view_collect v = replies.
Proof.
  intros Hne Hall Hfit.
  destruct (reply_push_all_fits budget ceiling replies (reply_new budget ceiling) [])
    as (b & E & Hb); [apply builds_new|done|done|exact Hfit|]. rewrite app_nil_l in Hb.
  pose proof (batch_finish_spec _ _ _ Hb) as Hfin. pose proof (builds_encodable _ _ _ Hb) as Henc.
  exists b, (batch_encoding replies), (view_of replies). split_and!; [done| | |by apply parse_encoding|].
  - unfold reply_finish. by destruct replies.
  - destruct Hb as (_ & _ & Hbud & [|Hb]); [done|]. rewrite length_batch_encoding. lia.
  - by apply view_collect_of.
Qed.

Lemma reply_ceiling_fits_witness :
  exists b body v, reply_push_all (reply_new 20 3) [[x61; x62]; []] = Ok b /\
    reply_finish b = Ok body /\ zlen body <= 20 /\ parse body = Ok v /\
    view_collect v = [[x61; x62]; []].
Proof.
  apply (reply_ceiling_fits 20 3); [done| |vm_compute; done].
  repeat constructor; vm_compute; done.
Defined.
