(* ===== verification/Storage.v ===== *)
(** * Durable formats: the WAL header and the superblock root

    [viewstamp-proto/src/storage/mod.rs]: the checksummed fixed-size [Header],
    the [VsrState] root with its validating constructors, and their encoders
    and decoders byte for byte. *)

From S2P Require Import Prelude Core Hash Membership Codec.

Definition HEADER_VERSION : Z := 1.
Definition SUPERBLOCK_VERSION : Z := 2.
Definition HEADER_CANONICAL_LEN : Z := 6 * 16.
Definition HEADER_ENCODED_LEN : Z := 128.

(** ** The WAL header *)

Record Header : Type := mkHeader {
  h_version : Z;
  h_checksum : Z;
  h_op : OpNumber;
  h_view : View;
  h_client : ClientId;
  h_request : RequestNumber;
  h_body_checksum : Z;
}.

#[export] Instance Header_eq_dec : EqDecision Header.
Proof. solve_decision. Defined.

(** [write_canonical]: six fields, each widened to a big-endian [u128]. *)
Definition write_canonical (h : Header) : list byte :=
  concat (map (be_bytes 16)
    [h_version h; h_op h; h_view h; h_client h; h_request h; h_body_checksum h]).

Definition compute_checksum (h : Header) : Z := fnv1a_128 (write_canonical h).

Definition from_parts (op : OpNumber) (view : View) (client : ClientId)
    (request : RequestNumber) (body_checksum : Z) : Header :=
  let h := mkHeader HEADER_VERSION 0 op view client request body_checksum in
  mkHeader HEADER_VERSION (compute_checksum h) op view client request body_checksum.

Definition header_new (op : OpNumber) (view : View) (client : ClientId)
    (request : RequestNumber) (body : list byte) : Header :=
  from_parts op view client request (fnv1a_128 body).

Definition verify_header (h : Header) : bool := h_checksum h =? compute_checksum h.

Definition verify (h : Header) (body : list byte) : bool :=
  verify_header h && (h_body_checksum h =? fnv1a_128 body).

(** [Vec::resize(n, 0)] on a shorter buffer. *)
Definition pad_zero (n : Z) (bs : list byte) : list byte :=
  bs ++ replicate (Z.to_nat (n - zlen bs)) x00.

Definition header_encode (h : Header) : list byte :=
  pad_zero HEADER_ENCODED_LEN (be_bytes 16 (h_checksum h) ++ write_canonical h).

(** [x as u64] of a [u128] keeps the low 64 bits. *)
Definition header_decode (buf : list byte) : result CodecError Header :=
  let? (h, _) :=
    (checksum <-? read_u128 ;;
     version_raw <-? read_u128 ;;
     (if negb (version_raw =? HEADER_VERSION)
      then derr (UnknownVersion (if version_raw <=? umax 16 then version_raw else umax 16))
      else
        op <-? read_u128 ;;
        view <-? read_u128 ;;
        client <-? read_u128 ;;
        request <-? read_u128 ;;
        body_checksum <-? read_u128 ;;
        _pad <-? read_take (sat_sub HEADER_ENCODED_LEN (16 + HEADER_CANONICAL_LEN)) ;;
        _end <-? finish ;;
        dret (mkHeader version_raw checksum (wrap 64 op) (wrap 64 view) client
                (wrap 64 request) body_checksum)))
      (reader_new buf) in
  Ok h.

(** Fields within their declared widths, and the one version ever written. *)
Definition header_wf (h : Header) : Prop :=
  h_version h = HEADER_VERSION /\ fits 128 (h_checksum h) /\ fits 64 (h_op h) /\
  fits 64 (h_view h) /\ fits 128 (h_client h) /\ fits 64 (h_request h) /\
  fits 128 (h_body_checksum h).

(** ** The durable root *)

Record VsrState : Type := mkVsrState {
  v_view : View;
  v_log_view : View;
  v_commit : OpNumber;
  v_checkpoint_op : OpNumber;
  v_checkpoint_id : Z;
  v_committed_headers : list Header;
  v_epoch : Epoch;
  v_prev_epoch : Epoch;
  v_membership : option Membership;
  v_prior_config_ids : list Z;
  v_config_install_op : OpNumber;
  v_log_floor : OpNumber;
  v_checkpoint_ops : Z;
  v_wal_capacity : Z;
}.

#[export] Instance VsrState_eq_dec : EqDecision VsrState.
Proof. solve_decision. Defined.

(** The header-band loop of [try_new], with [prev] the last accepted op. *)
Fixpoint check_band (checkpoint_op commit prev : Z) (hs : list Header)
    : result VsrStateError unit :=
  match hs with
  | [] => Ok tt
  | h :: rest =>
      let op := h_op h in
      if op <=? prev then
        Err (if prev =? checkpoint_op then HeaderOutOfBand else HeadersNotAscending)
      else if commit <? op then Err HeaderOutOfBand
      else check_band checkpoint_op commit op rest
  end.

Definition try_new (view log_view : View) (commit checkpoint_op : OpNumber)
    (checkpoint_id : Z) (committed_headers : list Header) : result VsrStateError VsrState :=
  if view <? log_view then Err LogViewAboveView
  else if commit <? checkpoint_op then Err CommitBelowCheckpoint
  else
    let? _ := check_band checkpoint_op commit checkpoint_op committed_headers in
    Ok (mkVsrState view log_view commit checkpoint_op checkpoint_id committed_headers
          0 0 None [] checkpoint_op checkpoint_op 0 0).

Definition with_wal_geometry (s : VsrState) (checkpoint_ops wal_capacity : Z) : VsrState :=
  mkVsrState (v_view s) (v_log_view s) (v_commit s) (v_checkpoint_op s) (v_checkpoint_id s)
    (v_committed_headers s) (v_epoch s) (v_prev_epoch s) (v_membership s)
    (v_prior_config_ids s) (v_config_install_op s) (v_log_floor s) checkpoint_ops wal_capacity.

Definition with_log_floor (s : VsrState) (log_floor : OpNumber) : result VsrStateError VsrState :=
  if log_floor <? v_checkpoint_op s then Err LogFloorBelowCheckpoint
  else Ok (mkVsrState (v_view s) (v_log_view s) (v_commit s) (v_checkpoint_op s)
             (v_checkpoint_id s) (v_committed_headers s) (v_epoch s) (v_prev_epoch s)
             (v_membership s) (v_prior_config_ids s) (v_config_install_op s) log_floor
             (v_checkpoint_ops s) (v_wal_capacity s)).

(** The field assignments that follow [try_new] in [try_new_v4] and [decode]. *)
Definition set_epoch_tail (s : VsrState) (epoch prev_epoch : Epoch)
    (membership : option Membership) (prior_config_ids : list Z)
    (config_install_op : OpNumber) : VsrState :=
  mkVsrState (v_view s) (v_log_view s) (v_commit s) (v_checkpoint_op s) (v_checkpoint_id s)
    (v_committed_headers s) epoch prev_epoch membership prior_config_ids config_install_op
    (v_log_floor s) (v_checkpoint_ops s) (v_wal_capacity s).

Definition try_new_v4 (view log_view : View) (commit checkpoint_op : OpNumber)
    (checkpoint_id : Z) (committed_headers : list Header) (epoch prev_epoch : Epoch)
    (membership : Membership) (prior_config_ids : list Z) (config_install_op : OpNumber)
    : result VsrStateError VsrState :=
  if negb (m_epoch membership =? epoch)
  then Err (MembershipEpochMismatch epoch (m_epoch membership))
  else
    let? state := try_new view log_view commit checkpoint_op checkpoint_id committed_headers in
    Ok (set_epoch_tail state epoch prev_epoch (Some membership) prior_config_ids
          config_install_op).

Definition vsr_new : VsrState := mkVsrState 0 0 0 0 0 [] 0 0 None [] 0 0 0 0.

(** ** Encoding *)

Definition encode_membership (m : option Membership) : list byte :=
  match m with
  | None => be_bytes 1 0
  | Some m =>
      be_bytes 1 1 ++ be_bytes 16 (m_config_id m) ++ be_bytes 8 (m_epoch m)
      ++ be_bytes 1 (m_replica_count m) ++ be_bytes 2 (m_learner_count m)
      ++ be_bytes 4 (zlen (m_members m)) ++ concat (map (be_bytes 16) (m_members m))
  end.

Definition vsr_encode (s : VsrState) : list byte :=
  be_bytes 2 SUPERBLOCK_VERSION
  ++ be_bytes 8 (v_view s) ++ be_bytes 8 (v_log_view s)
  ++ be_bytes 8 (v_commit s) ++ be_bytes 8 (v_checkpoint_op s)
  ++ be_bytes 16 (v_checkpoint_id s)
  ++ be_bytes 4 (zlen (v_committed_headers s))
  ++ concat (map header_encode (v_committed_headers s))
  ++ be_bytes 8 (v_epoch s) ++ be_bytes 8 (v_prev_epoch s)
  ++ encode_membership (v_membership s)
  ++ be_bytes 4 (zlen (v_prior_config_ids s))
  ++ concat (map (be_bytes 16) (v_prior_config_ids s))
  ++ be_bytes 8 (v_config_install_op s) ++ be_bytes 8 (v_log_floor s)
  ++ be_bytes 8 (v_checkpoint_ops s) ++ be_bytes 8 (v_wal_capacity s).

(** ** Decoding *)

Definition decode_membership : dec (option Membership) :=
  flag <-? read_u8 ;;
  if flag =? 0 then dret None
  else if flag =? 1 then
    config_id <-? read_u128 ;;
    membership_epoch <-? read_u64 ;;
    replica_count <-? read_u8 ;;
    learner_count <-? read_u16 ;;
    member_count <-? seq_len 16 ;;
    members <-? read_n read_u128 (Z.to_nat member_count) ;;
    m <-? dlift (map_err codec_of_membership
                   (from_durable_parts membership_epoch replica_count learner_count members
                      config_id)) ;;
    dret (Some m)
  else derr (InvalidMembershipPresent flag).

Definition decode_header_block : dec Header :=
  block <-? read_take HEADER_ENCODED_LEN ;; dlift (header_decode block).

(** The fields of the root in wire order, before they are re-validated. *)
Definition decode_fields : dec VsrState :=
  version <-? read_u16 ;;
  if negb (version =? SUPERBLOCK_VERSION) then derr (UnknownVersion version)
  else
    view <-? read_u64 ;;
    log_view <-? read_u64 ;;
    commit <-? read_u64 ;;
    checkpoint_op <-? read_u64 ;;
    checkpoint_id <-? read_u128 ;;
    count <-? seq_len HEADER_ENCODED_LEN ;;
    committed_headers <-? read_n decode_header_block (Z.to_nat count) ;;
    epoch <-? read_u64 ;;
    prev_epoch <-? read_u64 ;;
    membership <-? decode_membership ;;
    lineage_count <-? seq_len 16 ;;
    prior_config_ids <-? read_n read_u128 (Z.to_nat lineage_count) ;;
    config_install_op <-? read_u64 ;;
    log_floor <-? read_u64 ;;
    checkpoint_ops <-? read_u64 ;;
    wal_capacity <-? read_u64 ;;
    dret (mkVsrState view log_view commit checkpoint_op checkpoint_id committed_headers
            epoch prev_epoch membership prior_config_ids config_install_op log_floor
            checkpoint_ops wal_capacity).

(** The re-validation [match] that closes [decode], from the decoded fields. *)
Definition rebuild (f : VsrState) : result VsrStateError VsrState :=
  let? state :=
    match v_membership f with
    | Some membership =>
        try_new_v4 (v_view f) (v_log_view f) (v_commit f) (v_checkpoint_op f)
          (v_checkpoint_id f) (v_committed_headers f) (v_epoch f) (v_prev_epoch f) membership
          (v_prior_config_ids f) (v_config_install_op f)
    | None =>
        let? state := try_new (v_view f) (v_log_view f) (v_commit f) (v_checkpoint_op f)
                        (v_checkpoint_id f) (v_committed_headers f) in
        Ok (set_epoch_tail state (v_epoch f) (v_prev_epoch f) None (v_prior_config_ids f)
              (v_config_install_op f))
    end in
  let? state := with_log_floor state (v_log_floor f) in
  Ok (with_wal_geometry state (v_checkpoint_ops f) (v_wal_capacity f)).

Definition vsr_decode (buf : list byte) : result CodecError VsrState :=
  let? (s, _) :=
    (fields <-? decode_fields ;;
     _end <-? finish ;;
     dlift (map_err InvalidVsrState (rebuild fields))) (reader_new buf) in
  Ok s.

(** ** Well-formed roots *)

(** What the validating constructors accept. *)
Definition root_valid (s : VsrState) : Prop :=
  v_log_view s <= v_view s /\ v_checkpoint_op s <= v_commit s /\
  Forall (fun h => v_checkpoint_op s < h_op h <= v_commit s) (v_committed_headers s) /\
  StronglySorted (fun a b => h_op a < h_op b) (v_committed_headers s) /\
  v_checkpoint_op s <= v_log_floor s /\
  match v_membership s with Some m => m_epoch m = v_epoch s /\ wf m | None => True end.

(** Every field within its declared width, every list within its [u32] count. *)
Definition root_widths (s : VsrState) : Prop :=
  fits 64 (v_view s) /\ fits 64 (v_log_view s) /\ fits 64 (v_commit s) /\
  fits 64 (v_checkpoint_op s) /\ fits 128 (v_checkpoint_id s) /\
  Forall header_wf (v_committed_headers s) /\ zlen (v_committed_headers s) < 2 ^ 32 /\
  fits 64 (v_epoch s) /\ fits 64 (v_prev_epoch s) /\
  match v_membership s with
  | Some m => fits 64 (m_epoch m) /\ fits 128 (m_config_id m) /\ Forall (fits 128) (m_members m)
  | None => True
  end /\
  Forall (fits 128) (v_prior_config_ids s) /\ zlen (v_prior_config_ids s) < 2 ^ 32 /\
  fits 64 (v_config_install_op s) /\ fits 64 (v_log_floor s) /\
  fits 64 (v_checkpoint_ops s) /\ fits 64 (v_wal_capacity s).

Lemma check_band_spec ck commit prev hs :
  check_band ck commit prev hs = Ok tt <->
  Forall (fun h => prev < h_op h <= commit) hs /\
  StronglySorted (fun a b => h_op a < h_op b) hs.
Proof.
  revert prev. induction hs as [|h hs IH]; intros prev; simpl.
  { split; [intros _; split; constructor|done]. }
  rewrite Forall_cons.
  destruct (Z.leb_spec (h_op h) prev); [split; [done|lia]|].
  destruct (Z.ltb_spec commit (h_op h)); [split; [done|lia]|].
  rewrite IH. split.
  - intros [Hf Hs]. split_and!; [lia|lia| |].
    + eapply Forall_impl; [exact Hf|]. simpl. lia.
    + constructor; [done|]. eapply Forall_impl; [exact Hf|]. simpl. lia.
  - intros [[_ Hf] Hs]. apply StronglySorted_inv in Hs as [Hs Hlt]. split; [|done].
    rewrite Forall_forall in *. intros x Hx. specialize (Hf x Hx). specialize (Hlt x Hx). lia.
Qed.

Lemma check_band_error ck commit prev hs e :
  check_band ck commit prev hs = Err e -> e = HeaderOutOfBand \/ e = HeadersNotAscending.
Proof.
  revert prev. induction hs as [|h hs IH]; intros prev; simpl; [done|].
  repeat case_match; try (intros; simplify_eq; auto; fail). apply IH.
Qed.

Lemma try_new_spec view log_view commit ck id hs s :
  try_new view log_view commit ck id hs = Ok s <->
  log_view <= view /\ ck <= commit /\ Forall (fun h => ck < h_op h <= commit) hs /\
  StronglySorted (fun a b => h_op a < h_op b) hs /\
  s = mkVsrState view log_view commit ck id hs 0 0 None [] ck ck 0 0.
Proof.
  unfold try_new. destruct (Z.ltb_spec view log_view); [split; [done|lia]|].
  destruct (Z.ltb_spec commit ck); [split; [done|lia]|].
  destruct (check_band ck commit ck hs) as [[]|e] eqn:E.
  - apply check_band_spec in E as [? ?]. naive_solver.
  - split; [done|]. intros (_ & _ & Hf & Hs & _).
    assert (check_band ck commit ck hs = Ok tt) by (by apply check_band_spec). congruence.
Qed.

(** Re-validation accepts exactly the valid field records, unchanged. *)
Lemma rebuild_spec f s :
  match v_membership f with Some m => wf m | None => True end ->
  rebuild f = Ok s <-> s = f /\ root_valid f.
Proof.
  intros Hm. unfold rebuild, root_valid, try_new_v4, with_log_floor.
  destruct f as [view lv c ck id hs ep pe mo ids ci lf co wc]; simpl in *.
  assert (Htry : forall s0, try_new view lv c ck id hs = Ok s0 <->
    lv <= view /\ ck <= c /\ Forall (fun h => ck < h_op h <= c) hs /\
    StronglySorted (fun a b => h_op a < h_op b) hs /\
    s0 = mkVsrState view lv c ck id hs 0 0 None [] ck ck 0 0) by (intros; apply try_new_spec).
  destruct (try_new view lv c ck id hs) as [s0|e] eqn:E.
  - destruct (proj1 (Htry s0) eq_refl) as (? & ? & ? & ? & ->).
    destruct mo as [m|]; simpl;
      [destruct (Z.eqb_spec (m_epoch m) ep); simpl; [|split; [done|tauto]]|];
      (destruct (Z.ltb_spec lf ck); simpl; [split; [done|lia]|naive_solver]).
  - destruct mo as [m|]; simpl; [destruct (Z.eqb_spec (m_epoch m) ep); simpl|];
      (split; [done|]); intros (_ & ? & ? & ? & ? & _);
      (destruct (Htry (mkVsrState view lv c ck id hs 0 0 None [] ck ck 0 0)) as [_ Hc];
       discriminate Hc; tauto).
Qed.

(** ** Header round trip *)

Lemma length_write_canonical h : length (write_canonical h) = 96%nat.
Proof. unfold write_canonical. cbn [map concat]. by rewrite !length_app, !length_be_bytes. Qed.

Lemma header_encode_words h :
  header_encode h =
  be_bytes 16 (h_checksum h) ++ be_bytes 16 (h_version h) ++ be_bytes 16 (h_op h)
  ++ be_bytes 16 (h_view h) ++ be_bytes 16 (h_client h) ++ be_bytes 16 (h_request h)
  ++ be_bytes 16 (h_body_checksum h) ++ replicate 16 x00.
Proof.
  unfold header_encode, pad_zero. rewrite length_app, length_write_canonical, length_be_bytes.
  unfold write_canonical. cbn [map concat]. by rewrite <-!app_assoc.
Qed.

Lemma length_header_encode h : length (header_encode h) = 128%nat.
Proof. rewrite header_encode_words, !length_app, !length_be_bytes. done. Qed.

Lemma fits_widen z : fits 64 z -> fits 128 z.
Proof. unfold fits. intros. split; [lia|]. eapply Z.lt_trans; [apply H|done]. Qed.

#[local] Hint Resolve reads_u8 reads_u16 reads_u64 reads_u128 fits_widen : vr.

Lemma fits_version h : h_version h = HEADER_VERSION -> fits 128 (h_version h).
Proof. intros ->. done. Qed.

#[local] Hint Resolve fits_version : vr.

(** Consumes one widened header word at the reader's position. *)
Ltac read_word Hat :=
  let E := fresh "E" in let r := fresh "r" in
  apply reads_u128 in Hat as (r & E & Hat); [|solve [auto with vr]]; unfold dbind at 1; rewrite E.

Lemma header_decode_encode h : header_wf h -> header_decode (header_encode h) = Ok h.
Proof.
  intros (Hv & Hc & Ho & Hw & Hcl & Hr & Hb).
  pose proof (length_header_encode h) as Hlen.
  rewrite header_encode_words in *. unfold header_decode.
  set (buf := _ ++ _) in *.
  pose proof (at_bytes_new buf ltac:(lia)) as Hat. unfold buf in Hat at 2.
  do 2 read_word Hat. rewrite Hv. simpl. do 5 read_word Hat.
  rewrite <-(app_nil_r (replicate 16 x00)) in Hat.
  apply (reads_take 16) in Hat as (r8 & E8 & Hat); [|done]. unfold dbind at 1.
  change (sat_sub HEADER_ENCODED_LEN (16 + HEADER_CANONICAL_LEN)) with 16. rewrite E8.
  unfold dbind. rewrite (finish_at _ _ Hat). simpl. rewrite !wrap_small by done.
  destruct h; simpl in *; by subst.
Qed.

(** ** Root round trip *)

Lemma reads_header h : header_wf h -> reads decode_header_block (header_encode h) h.
Proof.
  intros Hwf. unfold decode_header_block. rewrite <-(app_nil_r (header_encode h)).
  eapply reads_bind; [apply reads_take; by rewrite length_header_encode|].
  apply reads_lift. by apply header_decode_encode.
Qed.

Lemma length_headers (l : list Header) : zlen (concat (map header_encode l)) = 128 * zlen l.
Proof. apply length_concat_const. intros a _. by rewrite length_header_encode. Qed.

Definition membership_ok (mo : option Membership) : Prop :=
  match mo with
  | Some m =>
      wf m /\ fits 64 (m_epoch m) /\ fits 128 (m_config_id m) /\ Forall (fits 128) (m_members m)
  | None => True
  end.

Lemma reads_membership mo : membership_ok mo -> reads decode_membership (encode_membership mo) mo.
Proof.
  destruct mo as [m|]; cbn [membership_ok encode_membership]; intros H; unfold decode_membership.
  2: { rewrite <-(app_nil_r (be_bytes 1 0)).
       eapply reads_bind; [by apply reads_u8|]. apply reads_ret. }
  destruct H as (Hwf & He & Hc & Hm). assert (Hb := Hwf). destruct Hb as (?&?&?&?&?).
  eapply reads_bind; [by apply reads_u8|]. change (1 =? 0) with false. change (1 =? 1) with true.
  cbv iota.
  eapply reads_bind; [by apply reads_u128|]. eapply reads_bind; [by apply reads_u64|].
  eapply reads_bind; [apply reads_u8; unfold fits; lia|].
  eapply reads_bind; [apply reads_u16; unfold fits; lia|].
  apply reads_seq_len; [lia|lia|rewrite length_ids; lia|].
  rewrite Nat2Z.id, <-(app_nil_r (concat _)). eapply reads_bind; [by apply reads_ids|].
  rewrite <-(app_nil_r []). eapply reads_bind; [|apply reads_ret].
  apply reads_lift. by rewrite from_durable_parts_wf.
Qed.

Definition root_ok (s : VsrState) : Prop := root_valid s /\ root_widths s.

Lemma reads_fields s : root_ok s -> reads decode_fields (vsr_encode s) s.
Proof.
  intros [Hval Hw]. destruct Hw as (?&?&?&?&?&Hhs&Hhl&?&?&Hm&Hids&Hil&?&?&?&?).
  assert (membership_ok (v_membership s)) as Hmo.
  { destruct Hval as (_&_&_&_&_&Hv). unfold membership_ok.
    destruct (v_membership s); [|done]. destruct Hv, Hm as (?&?&?). auto. }
  unfold decode_fields, vsr_encode.
  eapply reads_bind; [by apply reads_u16|]. change (negb _) with false at 1. cbv iota.
  do 4 (eapply reads_bind; [by apply reads_u64|]).
  eapply reads_bind; [by apply reads_u128|].
  apply reads_seq_len; [done|lia|rewrite length_app, Nat2Z.inj_add, length_headers; change HEADER_ENCODED_LEN with 128; lia|].
  rewrite Nat2Z.id. eapply reads_bind.
  { apply (reads_n decode_header_block header_encode). intros h Hh. apply reads_header.
    by eapply Forall_forall in Hhs. }
  do 2 (eapply reads_bind; [by apply reads_u64|]).
  eapply reads_bind; [by apply reads_membership|].
  apply reads_seq_len; [done|lia|rewrite length_app, Nat2Z.inj_add, length_ids; lia|].
  rewrite Nat2Z.id. eapply reads_bind; [by apply reads_ids|].
  do 3 (eapply reads_bind; [by apply reads_u64|]).
  rewrite <-(app_nil_r (be_bytes 8 (v_wal_capacity s))).
  eapply reads_bind; [by apply reads_u64|]. by destruct s; apply reads_ret.
Qed.

Lemma rebuild_id s : root_valid s -> rebuild s = Ok s.
Proof.
  intros Hval. apply rebuild_spec; [|done]. destruct Hval as (_&_&_&_&_&Hm).
  destruct (v_membership s); [apply Hm|done].
Qed.

Lemma vsr_decode_Ok buf s :
  vsr_decode buf = Ok s <->
  exists f r, decode_fields (reader_new buf) = Ok (f, r) /\ finish r = Ok (tt, r) /\
    rebuild f = Ok s.
Proof.
  unfold vsr_decode, dbind. split.
  - destruct (decode_fields (reader_new buf)) as [[f r]|e] eqn:E; [|done].
    destruct (finish r) as [[[] r']|e] eqn:Ef; [|done].
    assert (r' = r) as -> by (unfold finish in Ef; case_match; by simplify_eq).
    unfold dlift. destruct (rebuild f) as [s'|e] eqn:Er; [|done]. simpl. intros. simplify_eq. eauto.
  - intros (f & r & -> & -> & ->). done.
Qed.

(** ** Soundness of decoding *)

Lemma header_decode_wf buf h : zlen buf < 2 ^ 63 -> header_decode buf = Ok h -> header_wf h.
Proof.
  intros Hlen. unfold header_decode.
  match goal with |- context [?d (reader_new buf)] => assert (yields d header_wf) as Hy end.
  { yield_step parses_u128. yield_step parses_u128.
    destruct (Z.eqb_spec a0 HEADER_VERSION); simpl; [|apply parses_yields, parses_err].
    do 5 yield_step parses_u128.
    eapply yields_bind; [by apply parses_yields, parses_take|intros ? _].
    eapply yields_bind; [apply yields_finish|intros ? _].
    apply parses_yields, parses_ret. unfold header_wf. simpl.
    split_and!; try done; apply wrap_fits; lia. }
  match goal with |- context [?d (reader_new buf)] =>
    destruct (d (reader_new buf)) as [[h' r]|e] eqn:E end; [|done].
  intros. simplify_eq. by apply (Hy _ _ _ _ (at_bytes_new buf Hlen)) in E as [? _].
Qed.

Lemma parses_header : parses decode_header_block header_wf.
Proof.
  eapply parses_bind; [by apply parses_take|intros b Hb]. apply parses_lift.
  intros h. apply header_decode_wf. rewrite Hb. done.
Qed.

Lemma parses_membership : parses decode_membership membership_ok.
Proof.
  unfold decode_membership. parse_step parses_u8. case_match; [by apply parses_ret|].
  case_match; [|apply parses_err].
  parse_step parses_u128. parse_step parses_u64. parse_step parses_u8. parse_step parses_u16.
  parse_step parses_seq_len. eapply parses_bind; [apply parses_n, parses_u128|].
  intros ms [Hms _]. eapply (parses_bind _ _ (fun m => membership_ok (Some m)));
    [|intros m Hm; by apply parses_ret].
  apply parses_lift. intros m Hm.
  destruct (from_durable_parts _ _ _ _ _) as [m'|] eqn:E; [|done]. simpl in Hm. simplify_eq.
  apply from_durable_parts_ok in E as [-> ?]; done.
Qed.

Definition fields_ok (s : VsrState) : Prop :=
  root_widths s /\ match v_membership s with Some m => wf m | None => True end.

Lemma parses_fields : parses decode_fields fields_ok.
Proof.
  unfold decode_fields. parse_step parses_u16. case_match; [apply parses_err|].
  do 4 parse_step parses_u64. parse_step parses_u128. parse_step parses_seq_len.
  eapply parses_bind; [apply parses_n, parses_header|intros hs [Hhs Hhl]].
  do 2 parse_step parses_u64. eapply parses_bind; [apply parses_membership|intros mo Hmo].
  parse_step parses_seq_len. eapply parses_bind; [apply parses_n, parses_u128|intros ids [Hids Hil]].
  do 4 parse_step parses_u64. apply parses_ret. unfold fields_ok, root_widths. simpl.
  assert (zlen hs < 2 ^ 32) by lia. assert (zlen ids < 2 ^ 32) by lia.
  destruct mo as [m|]; [destruct Hmo as (?&?&?&?)|]; split_and!; done.
Qed.

(** ** Corrupted headers *)

Lemma reads_block bs : length bs = 16%nat -> reads read_u128 bs (from_be_bytes bs).
Proof.
  intros Hl. rewrite <-(be_bytes_from_be_bytes bs) at 1. rewrite Hl. apply reads_u128.
  pose proof (from_be_bytes_range bs) as H. rewrite Hl in H. exact H.
Qed.

(** The decoder on eight arbitrary sixteen-byte words. *)
Lemma header_decode_blocks c v o w cl q b p :
  Forall (fun x => length x = 16%nat) [c; v; o; w; cl; q; b; p] ->
  from_be_bytes v = HEADER_VERSION ->
  header_decode (c ++ v ++ o ++ w ++ cl ++ q ++ b ++ p) =
  Ok (mkHeader HEADER_VERSION (from_be_bytes c) (wrap 64 (from_be_bytes o))
        (wrap 64 (from_be_bytes w)) (from_be_bytes cl) (wrap 64 (from_be_bytes q))
        (from_be_bytes b)).
Proof.
  rewrite !Forall_cons. intros (Hc&Hv&Ho&Hw&Hcl&Hq&Hb&Hp&_) Hver. unfold header_decode.
  set (buf := c ++ _).
  assert (zlen buf < 2 ^ 63) as Hlen.
  { unfold buf. rewrite !length_app, Hc, Hv, Ho, Hw, Hcl, Hq, Hb, Hp. done. }
  pose proof (at_bytes_new buf Hlen) as Hat. unfold buf in Hat at 2.
  do 2 (apply reads_block in Hat as (? & E & Hat); [|done]; unfold dbind at 1; rewrite E; clear E).
  rewrite Hver. change (negb _) with false at 1. cbv iota.
  do 5 (apply reads_block in Hat as (? & E & Hat); [|done]; unfold dbind at 1; rewrite E; clear E).
  rewrite <-(app_nil_r p) in Hat. apply (reads_take 16) in Hat as (r8 & E8 & Hat); [|lia].
  unfold dbind at 1. change (sat_sub HEADER_ENCODED_LEN (16 + HEADER_CANONICAL_LEN)) with 16.
  rewrite E8. unfold dbind. by rewrite (finish_at _ _ Hat).
Qed.

Lemma header_decode_bad_version c v rest :
  length c = 16%nat -> length v = 16%nat -> zlen (c ++ v ++ rest) < 2 ^ 63 ->
  from_be_bytes v <> HEADER_VERSION -> is_ok (header_decode (c ++ v ++ rest)) = false.
Proof.
  intros Hc Hv Hlen Hne. unfold header_decode. pose proof (at_bytes_new _ Hlen) as Hat.
  do 2 (apply reads_block in Hat as (? & E & Hat); [|done]; unfold dbind at 1; rewrite E; clear E).
  by rewrite (proj2 (Z.eqb_neq _ _) Hne).
Qed.

(** Two byte strings that differ in exactly one position. *)
Definition one_byte_apart (a b : list byte) : Prop :=
  exists p s x y, x <> y /\ a = p ++ x :: s /\ b = p ++ y :: s.

Lemma one_byte_apart_length a b : one_byte_apart a b -> length a = length b.
Proof. intros (p & s & x & y & _ & -> & ->). by rewrite !length_app. Qed.

Lemma one_byte_apart_ne a b : one_byte_apart a b -> a <> b.
Proof. intros (p & s & x & y & Hne & -> & ->) E. by simplify_list_eq. Qed.

Lemma one_byte_apart_context l r a b : one_byte_apart a b -> one_byte_apart (l ++ a ++ r) (l ++ b ++ r).
Proof.
  intros (p & s & x & y & Hne & -> & ->). exists (l ++ p), (s ++ r), x, y.
  by rewrite <-!app_assoc.
Qed.

Lemma one_byte_apart_app a b z :
  one_byte_apart (a ++ b) z ->
  exists a' b', z = a' ++ b' /\
    ((one_byte_apart a a' /\ b' = b) \/ (a' = a /\ one_byte_apart b b')).
Proof.
  intros (p & s & x & y & Hne & E & ->).
  destruct (app_eq_inv _ _ _ _ E) as [(k & -> & Hk)|(k & -> & ->)].
  - destruct k as [|k0 k]; simplify_list_eq.
    + exists p, (y :: s). split; [done|]. right. split; [done|]. by exists [], s, x, y.
    + exists (p ++ y :: k), b. rewrite <-app_assoc. split; [done|]. left. split; [|done].
      by exists p, k, k0, y.
  - exists a, (k ++ y :: s). rewrite <-app_assoc. split; [done|]. right. split; [done|].
    by exists k, s, x, y.
Qed.

Lemma fnv1a_128_apart a b : one_byte_apart a b -> fnv1a_128 a <> fnv1a_128 b.
Proof. intros (p & s & x & y & Hne & -> & ->) E. by apply fnv1a_128_one_byte in E. Qed.

Lemma from_be_bytes_word z : fits 128 z -> from_be_bytes (be_bytes 16 z) = z.
Proof. intros H. by apply be_bytes_roundtrip, (fits_pow 16 128). Qed.

Lemma be_bytes_word w : length w = 16%nat -> be_bytes 16 (from_be_bytes w) = w.
Proof. intros <-. apply be_bytes_from_be_bytes. Qed.

(** A 64-bit field occupies the low half of its widened word. *)
Lemma be_bytes_widened x : fits 64 x -> be_bytes 16 x = be_bytes 8 0 ++ be_bytes 8 x.
Proof.
  intros Hx. rewrite <-(be_bytes_word (be_bytes 8 0 ++ be_bytes 8 x));
    [|by rewrite length_app, !length_be_bytes].
  f_equal. rewrite from_be_bytes_app, !be_bytes_roundtrip; [lia|by apply (fits_pow 8 64)|done].
Qed.

(** Corrupting the word of a 64-bit field: the padding half is ignored, the
    other half changes the canonical word in the same single byte. *)
Lemma widened_corrupt x w :
  fits 64 x -> one_byte_apart (be_bytes 16 x) w ->
  wrap 64 (from_be_bytes w) = x \/
  one_byte_apart (be_bytes 16 x) (be_bytes 16 (wrap 64 (from_be_bytes w))).
Proof.
  intros Hx. rewrite (be_bytes_widened x Hx).
  intros (hi & lo & -> & [[Hhi ->]|[-> Hlo]])%one_byte_apart_app; rewrite from_be_bytes_app.
  - left. rewrite length_be_bytes, be_bytes_roundtrip by (by apply (fits_pow 8 64)).
    unfold wrap. rewrite Z.add_comm, Z_mod_plus_full. by apply Z.mod_small.
  - right. pose proof (one_byte_apart_length _ _ Hlo) as Hl. rewrite length_be_bytes in Hl.
    assert (fits 64 (from_be_bytes lo)) as Hf.
    { pose proof (from_be_bytes_range lo) as Hr. by rewrite <-Hl in Hr. }
    rewrite (be_bytes_roundtrip 8 0) by done. rewrite Z.mul_0_l, Z.add_0_l, wrap_small by done.
    rewrite be_bytes_widened by done. rewrite (eq_trans (f_equal (fun n => be_bytes n _) Hl) (be_bytes_from_be_bytes lo)).
    rewrite <-(app_nil_r (be_bytes 8 x)), <-(app_nil_r lo). by apply one_byte_apart_context.
Qed.

Lemma widened_intact x : fits 64 x -> wrap 64 (from_be_bytes (be_bytes 16 x)) = x.
Proof. intros H. rewrite from_be_bytes_word by (by apply fits_widen). by apply wrap_small. Qed.

(** Two headers with one stored checksum whose canonical bytes are one byte
    apart cannot both verify. *)
Lemma verify_header_apart h h' :
  verify_header h = true -> h_checksum h' = h_checksum h ->
  one_byte_apart (write_canonical h) (write_canonical h') -> verify_header h' = false.
Proof.
  unfold verify_header, compute_checksum. intros Hv%Z.eqb_eq -> Ha. rewrite Hv.
  apply Z.eqb_neq. by apply fnv1a_128_apart.
Qed.

Lemma length_vsr_encode s : root_ok s -> zlen (vsr_encode s) < 2 ^ 63.
Proof.
  intros [Hval (?&?&?&?&?&?&Hhl&?&?&?&?&Hil&_)]. unfold vsr_encode.
  rewrite !length_app, !length_be_bytes, !Nat2Z.inj_add, length_headers, length_ids.
  assert (zlen (encode_membership (v_membership s)) <= 32 + 16 * 65535) as Hml.
  { destruct Hval as (_&_&_&_&_&Hm). destruct (v_membership s) as [m|]; [|done].
    destruct Hm as [_ (?&?&?&?&_)]. cbn [encode_membership].
    rewrite !length_app, !length_be_bytes, !Nat2Z.inj_add, length_ids. lia. }
  assert (2 ^ 63 = 2 ^ 32 * 2 ^ 31) as -> by done. assert (2 ^ 31 = 2147483648) as -> by done.
  assert (2 ^ 32 = 4294967296) as E by done. rewrite E in *. lia.
Qed.

Lemma vsr_decode_encode s : root_ok s -> vsr_decode (vsr_encode s) = Ok s.
Proof.
  intros Hok. apply vsr_decode_Ok. pose proof Hok as [Hval _].
  destruct (reads_finish decode_fields (vsr_encode s) s (vsr_encode s)) as (r & E & Ef);
    [by apply length_vsr_encode|done|by apply reads_fields|].
  exists s, r. split_and!; [done|done|by apply rebuild_id].
Qed.

Lemma vsr_decode_ok buf s : zlen buf < 2 ^ 63 -> vsr_decode buf = Ok s -> root_ok s.
Proof.
  intros Hlen (f & r & E & _ & Hr)%vsr_decode_Ok.
  destruct (parses_fields _ _ _ _ (at_bytes_new buf Hlen) E) as [[Hw Hm] _].
  apply rebuild_spec in Hr as [-> Hval]; [|done]. done.
Qed.

Lemma canonical_split h :
  write_canonical h =
  be_bytes 16 (h_version h) ++ be_bytes 16 (h_op h) ++ be_bytes 16 (h_view h)
  ++ be_bytes 16 (h_client h) ++ be_bytes 16 (h_request h) ++ be_bytes 16 (h_body_checksum h) ++ [].
Proof. done. Qed.

Lemma one_byte_apart_cons l a b : one_byte_apart a b -> one_byte_apart (l ++ a) (l ++ b).
Proof.
  intros H. rewrite <-(app_nil_r a), <-(app_nil_r b). by apply one_byte_apart_context.
Qed.

Lemma one_byte_apart_head r a b : one_byte_apart a b -> one_byte_apart (a ++ r) (b ++ r).
Proof. intros H. by apply (one_byte_apart_context [] r) in H. Qed.

#[local] Hint Resolve one_byte_apart_cons one_byte_apart_head from_be_bytes_word widened_intact
  fits_widen : vr.

(** The fields of a header whose words all survived but one. *)
Ltac intact_words :=
  rewrite ?widened_intact, ?from_be_bytes_word by auto with vr.

(** The decoded header [h'] is the written one or fails its own checksum. *)
Definition harmless_or_caught (h : Header) (r : result CodecError Header) : Prop :=
  match r with
  | Ok h' => h' = h \/ verify_header h' = false
  | Err _ => True
  end.

Lemma corrupt_field h h' :
  verify_header h = true -> h_checksum h' = h_checksum h ->
  (h' = h \/ one_byte_apart (write_canonical h) (write_canonical h')) ->
  harmless_or_caught h (Ok h').
Proof. intros Hv Hc [->|Ha]; [by left|right; by eapply verify_header_apart]. Qed.

Lemma corrupt_block x w :
  fits 128 x -> one_byte_apart (be_bytes 16 x) w ->
  one_byte_apart (be_bytes 16 x) (be_bytes 16 (from_be_bytes w)).
Proof.
  intros Hx Ha. rewrite be_bytes_word; [done|].
  by rewrite <-(one_byte_apart_length _ _ Ha), length_be_bytes.
Qed.

(** Sixteen bytes, intact or with one byte changed. *)
Ltac word_len :=
  repeat match goal with
  | H : one_byte_apart _ ?w |- length ?w = _ => rewrite <-(one_byte_apart_length _ _ H)
  | |- Forall _ _ => constructor
  | _ => by rewrite ?length_be_bytes, ?length_replicate
  end.

Ltac split_word H :=
  let w := fresh "w" in let z := fresh "z" in let Hw := fresh "Hw" in
  apply one_byte_apart_app in H as (w & z & -> & [[Hw ->]|[-> H]]).

Lemma header_decode_intact_version h c o w cl q b p :
  h_version h = HEADER_VERSION ->
  Forall (fun x => length x = 16%nat) [c; o; w; cl; q; b; p] ->
  header_decode (c ++ be_bytes 16 (h_version h) ++ o ++ w ++ cl ++ q ++ b ++ p) =
  Ok (mkHeader HEADER_VERSION (from_be_bytes c) (wrap 64 (from_be_bytes o))
        (wrap 64 (from_be_bytes w)) (from_be_bytes cl) (wrap 64 (from_be_bytes q))
        (from_be_bytes b)).
Proof.
  intros Hv HF. rewrite !Forall_cons in HF. rewrite Hv. apply header_decode_blocks; [|done].
  rewrite !Forall_cons, length_be_bytes. tauto.
Qed.

Lemma corrupt_checksum h w :
  verify_header h = true -> one_byte_apart (be_bytes 16 (h_checksum h)) w ->
  verify_header (mkHeader (h_version h) (from_be_bytes w) (h_op h) (h_view h) (h_client h)
                   (h_request h) (h_body_checksum h)) = false.
Proof.
  unfold verify_header, compute_checksum. cbn [h_checksum].
  intros Hver%Z.eqb_eq Hw. apply Z.eqb_neq. intros E.
  match type of E with _ = fnv1a_128 ?x => change x with (write_canonical h) in E end.
  apply (one_byte_apart_ne _ _ Hw). rewrite Hver, <-E. by rewrite be_bytes_word by word_len.
Qed.

(** One changed byte in the canonical region, at each word in turn. *)
Lemma corrupt_fields h z :
  header_wf h -> verify_header h = true ->
  one_byte_apart (be_bytes 16 (h_op h) ++ be_bytes 16 (h_view h) ++ be_bytes 16 (h_client h)
    ++ be_bytes 16 (h_request h) ++ be_bytes 16 (h_body_checksum h) ++ replicate 16 x00) z ->
  harmless_or_caught h
    (header_decode (be_bytes 16 (h_checksum h) ++ be_bytes 16 (h_version h) ++ z)).
Proof.
  intros (Hv & Hc & Ho & Hw & Hcl & Hr & Hb) Hver Ha.
  split_word Ha; [|split_word Ha; [|split_word Ha; [|split_word Ha; [|split_word Ha]]]];
    rewrite header_decode_intact_version by (done || word_len); intact_words;
    (apply corrupt_field; [done|done|]); rewrite !canonical_split;
    destruct h as [ver ck op view client req bck];
    cbn [h_version h_checksum h_op h_view h_client h_request h_body_checksum] in *; subst ver.
  - destruct (widened_corrupt _ _ Ho Hw0) as [->|?]; auto 10 with vr.
  - destruct (widened_corrupt _ _ Hw Hw0) as [->|?]; auto 10 with vr.
  - right. apply corrupt_block in Hw0; auto 10 with vr.
  - destruct (widened_corrupt _ _ Hr Hw0) as [->|?]; auto 10 with vr.
  - right. apply corrupt_block in Hw0; auto 10 with vr.
  - auto.
Qed.

Lemma corrupt_header h z :
  header_wf h -> verify_header h = true -> one_byte_apart (header_encode h) z ->
  harmless_or_caught h (header_decode z).
Proof.
  intros Hwf Hver Ha. rewrite header_encode_words in Ha. assert (Hwf' := Hwf).
  destruct Hwf' as (Hv & Hc & Ho & Hw & Hcl & Hr & Hb). split_word Ha; [|split_word Ha].
  - rewrite header_decode_intact_version by (done || word_len). intact_words. right.
    rewrite <-Hv. by apply corrupt_checksum.
  - match goal with |- harmless_or_caught _ (header_decode (?c ++ ?v ++ ?rest)) =>
      pose proof (header_decode_bad_version c v rest) as Hbad;
      destruct (header_decode (c ++ v ++ rest)); [|done] end.
    discriminate Hbad; [word_len|word_len| |].
    + rewrite !length_app, !length_be_bytes, length_replicate,
        <-(one_byte_apart_length _ _ Hw0), length_be_bytes. done.
    + intros E. apply (one_byte_apart_ne _ _ Hw0). rewrite Hv, <-E.
      by rewrite be_bytes_word by word_len.
  - by apply corrupt_fields.
Qed.

(** ** Properties *)

Lemma from_parts_wf op view client request body_checksum :
  fits 64 op -> fits 64 view -> fits 128 client -> fits 64 request -> fits 128 body_checksum ->
  header_wf (from_parts op view client request body_checksum).
Proof.
  intros. unfold header_wf, from_parts.
  cbn [h_version h_checksum h_op h_view h_client h_request h_body_checksum].
  split_and!; [done|apply fnv1a_128_fits|assumption..].
Qed.

Lemma from_parts_verifies op view client request body_checksum :
  verify_header (from_parts op view client request body_checksum) = true.
Proof.
  unfold verify_header, from_parts, compute_checksum, write_canonical.
  cbn [h_version h_checksum h_op h_view h_client h_request h_body_checksum]. apply Z.eqb_refl.
Qed.

(** A header built for a body encodes to exactly 128 bytes, decodes back to
    itself and verifies against that body. *)
Theorem header_roundtrip op view client request body :
  fits 64 op -> fits 64 view -> fits 128 client -> fits 64 request ->
  let h := header_new op view client request body in
  length (header_encode h) = 128%nat /\ header_decode (header_encode h) = Ok h /\
  verify h body = true.
Proof.
  intros ? ? ? ? h. split_and!; [apply length_header_encode| |].
  - apply header_decode_encode. by apply from_parts_wf, fnv1a_128_fits.
  - unfold verify, h, header_new. rewrite from_parts_verifies. unfold from_parts.
    cbn [h_body_checksum andb]. apply Z.eqb_refl.
Qed.

Lemma header_roundtrip_witness :
  let h := header_new 7 2 99 5 [x01; x02] in
  length (header_encode h) = 128%nat /\ header_decode (header_encode h) = Ok h /\
  verify h [x01; x02] = true.
Proof. apply header_roundtrip; unfold fits; lia. Defined.

(** Changing any one byte of an encoded header that verifies is never
    silently accepted as different content: the decoder rejects it, or the byte
    was padding and the decoded header is the written one, or the decoded
    header fails its own checksum. *)
Theorem header_corruption_caught op view client request body z :
  fits 64 op -> fits 64 view -> fits 128 client -> fits 64 request ->
  let h := header_new op view client request body in
  one_byte_apart (header_encode h) z ->
  match header_decode z with
  | Ok h' => h' = h \/ verify_header h' = false
  | Err _ => True
  end.
Proof.
  intros Ho Hv Hc Hr h Ha.
  apply (corrupt_header h z); [by apply from_parts_wf, fnv1a_128_fits|apply from_parts_verifies|done].
Qed.

Lemma header_corruption_caught_witness :
  let h := header_new 7 2 99 5 [x01; x02] in
  let z := take 47 (header_encode h) ++ x06 :: drop 48 (header_encode h) in
  match header_decode z with
  | Ok h' => h' = h \/ verify_header h' = false
  | Err _ => True
  end.
Proof.
  apply (header_corruption_caught 7 2 99 5 [x01; x02]); [unfold fits; lia..|].
  exists (take 47 (header_encode (header_new 7 2 99 5 [x01; x02]))),
    (drop 48 (header_encode (header_new 7 2 99 5 [x01; x02]))), x07, x06.
  split; [done|]. split; vm_compute; reflexivity.
Defined.

(** Every valid superblock root decodes back to itself from its encoding. *)
Theorem root_roundtrip s : root_ok s -> vsr_decode (vsr_encode s) = Ok s.
Proof. apply vsr_decode_encode. Qed.

(** A root with a membership, a header in the band and a lineage. *)
Definition sample_root : VsrState :=
  mkVsrState 3 2 9 5 77 [from_parts 7 2 99 5 6] (m_epoch sample) 0 (Some sample) [12; 13] 4 5 32 128.

Lemma sample_root_ok : root_ok sample_root.
Proof.
  split.
  - unfold root_valid, sample_root. cbn [v_log_view v_view v_checkpoint_op v_commit v_log_floor
      v_committed_headers v_membership v_epoch].
    split_and!; [lia|lia| | |lia|reflexivity|exact sample_wf].
    + repeat constructor; cbn [h_op from_parts]; lia.
    + apply SSorted_cons; constructor.
  - unfold root_widths, sample_root. cbn [v_view v_log_view v_commit v_checkpoint_op
      v_checkpoint_id v_committed_headers v_epoch v_prev_epoch v_membership v_prior_config_ids
      v_config_install_op v_log_floor v_checkpoint_ops v_wal_capacity].
    split_and!; try compute_done.
Qed.

Lemma root_roundtrip_witness : vsr_decode (vsr_encode sample_root) = Ok sample_root.
Proof. apply root_roundtrip, sample_root_ok. Defined.

(** Decoding is sound: whatever bytes are read, a root that decodes
    satisfies every constructor invariant (view order, commit over checkpoint,
    headers strictly ascending inside the band, log floor over checkpoint,
    membership well formed at the root's epoch) and re-encodes to bytes that
    decode to the same root. *)
Theorem root_decode_sound buf s :
  zlen buf < 2 ^ 63 -> vsr_decode buf = Ok s ->
  root_valid s /\ root_widths s /\ vsr_decode (vsr_encode s) = Ok s.
Proof.
  intros Hlen E. pose proof (vsr_decode_ok buf s Hlen E) as Hok.
  split_and!; [apply Hok..|by apply vsr_decode_encode].
Qed.

Lemma root_decode_sound_witness :
  root_valid sample_root /\ root_widths sample_root /\
  vsr_decode (vsr_encode sample_root) = Ok sample_root.
Proof.
  apply (root_decode_sound (vsr_encode sample_root));
    [apply length_vsr_encode, sample_root_ok|apply vsr_decode_encode, sample_root_ok].
Defined.

(** The version fence: a buffer whose leading word is any other format
    version is refused as exactly that version, before any other byte is
    looked at. *)
Theorem root_version_fence v rest :
  fits 16 v -> v <> SUPERBLOCK_VERSION -> zlen rest < 2 ^ 62 ->
  vsr_decode (be_bytes 2 v ++ rest) = Err (UnknownVersion v).
Proof.
  intros Hv Hne Hlen. unfold vsr_decode, decode_fields.
  destruct (reads_u16 v Hv (reader_new (be_bytes 2 v ++ rest)) rest) as (r & E & _).
  { apply at_bytes_new. rewrite length_app, length_be_bytes. lia. }
  unfold dbind at 1 2. rewrite E. rewrite (proj2 (Z.eqb_neq _ _) Hne). done.
Qed.

Lemma root_version_fence_witness : vsr_decode (be_bytes 2 1 ++ []) = Err (UnknownVersion 1).
Proof. apply root_version_fence; [unfold fits; lia|done|simpl; lia]. Defined.

(** Torn or padded roots are refused: of a buffer and a proper extension of
    it at most one decodes as a root, so neither a truncated root nor a root
    with trailing bytes is ever accepted. *)
Theorem root_framing buf extra :
  zlen (buf ++ extra) < 2 ^ 63 -> extra <> [] ->
  is_ok (vsr_decode buf) && is_ok (vsr_decode (buf ++ extra)) = false.
Proof.
  intros Hlen Hne.
  destruct (vsr_decode buf) as [s|] eqn:E; [|done].
  destruct (vsr_decode (buf ++ extra)) as [t|] eqn:E'; [|done]. exfalso.
  apply vsr_decode_Ok in E as (f & r & E & Ef & _).
  apply vsr_decode_Ok in E' as (f' & r' & E' & Ef' & _).
  by eapply (parses_no_prefix decode_fields); [apply parses_fields|..].
Qed.

Lemma root_framing_witness :
  is_ok (vsr_decode (vsr_encode sample_root)) = true /\
  is_ok (vsr_decode (vsr_encode sample_root)) &&
    is_ok (vsr_decode (vsr_encode sample_root ++ [x00])) = false.
Proof.
  split; [by rewrite (vsr_decode_encode _ sample_root_ok)|].
  apply (root_framing (vsr_encode sample_root) [x00]); [vm_compute; reflexivity|done].
Defined.
