(* ===== verification/Lane.v ===== *)
(** * The block lane's front

    [viewstamp-proto/src/storage/session/lane.rs] and the job types and execution
    cursor of [block_job.rs]: the queue an endpoint issues block jobs into, one cell
    per job kind, the counted set of serves, and the order completions must arrive
    in.  What a job does with the block store is not part of this file.  A
    fail-stopping [assert!] is [None]. *)

From S2P Require Import Prelude Core Hash Membership Codec Message Messages.

(** The minting endpoint's incarnation and a sequence number. *)
Abbreviation JobId := (Z * Z)%type (only parsing).

Definition MAX_OUTSTANDING_BLOCK_SERVES : nat := 128.
Definition MATERIALIZE_SLOT : nat := 0.
Definition FLUSH_SLOT : nat := 1.
Definition GC_SLOT : nat := 2.
Definition RESTORE_SLOT : nat := 3.
Definition WALK_SLOT : nat := 4.
Definition SINGLETON_KINDS : nat := 5.
Definition MAX_BLOCK_JOBS_IN_FLIGHT : nat := SINGLETON_KINDS + MAX_OUTSTANDING_BLOCK_SERVES.

Inductive BlockJobTag : Type :=
| TagMaterialize
| TagFlush
| TagGc
| TagServe
| TagRestore
| TagWalk.

#[export] Instance BlockJobTag_eq_dec : EqDecision BlockJobTag.
Proof. solve_decision. Defined.

(** The lane slot of a kind; [Serve] is counted instead. *)
Definition singleton (tag : BlockJobTag) : option nat :=
  match tag with
  | TagMaterialize => Some MATERIALIZE_SLOT
  | TagFlush => Some FLUSH_SLOT
  | TagGc => Some GC_SLOT
  | TagRestore => Some RESTORE_SLOT
  | TagWalk => Some WALK_SLOT
  | TagServe => None
  end.

Record RecoveredCheckpoint : Type := mkRecoveredCheckpoint {
  rk_op : OpNumber;
  rk_sm_root : BlockAddress;
  rk_sessions_root : BlockAddress;
}.

Inductive WalkPurpose : Type :=
| PurposeArm
| PurposeRearm (retry : bool)
| PurposeArq
| PurposeResponse (from : Peer) (addr : BlockAddress) (present : bool)
| PurposeRecoverProbe (cp : RecoveredCheckpoint).

Inductive RestorePurpose : Type :=
| SyncedCheckpoint
| RestoreRecovered (cp : RecoveredCheckpoint).

Section lane.

(** The state machine, its images, the session projection and the frontier walks. *)
Context {Sm Image Sessions Walks : Type}.

Inductive BlockJobKind : Type :=
| JobMaterialize (image : Image) (sessions : Sessions)
| JobFlush (sm_root sessions_root : BlockAddress)
| JobGc (sm_roots session_roots : list BlockAddress)
| JobServe (to : Peer) (addr : BlockAddress)
| JobRestore (sm_root sessions_root : BlockAddress) (seed : Sm) (purpose : RestorePurpose)
| JobWalk (walks : Walks) (fetched : option (BlockAddress * list byte)) (purpose : WalkPurpose).

Record BlockJob : Type := mkBlockJob { job_id : JobId; job_kind : BlockJobKind }.

Definition kind_tag (k : BlockJobKind) : BlockJobTag :=
  match k with
  | JobMaterialize _ _ => TagMaterialize
  | JobFlush _ _ => TagFlush
  | JobGc _ _ => TagGc
  | JobServe _ _ => TagServe
  | JobRestore _ _ _ _ => TagRestore
  | JobWalk _ _ _ => TagWalk
  end.

Definition tag (j : BlockJob) : BlockJobTag := kind_tag (job_kind j).

(** A completion, as far as the lane reads it: the id and the tag of its output. *)
Record BlockJobDone : Type := mkBlockJobDone { done_id : JobId; done_tag : BlockJobTag }.

Record LaneFront : Type := mkLaneFront {
  jobs : list BlockJob;
  outstanding : list JobId;
  singletons : list (option JobId);
  serves : list JobId;
  sweeps_coalesced : Z;
  sweeps_dropped : Z;
}.

Definition lane_new : LaneFront := mkLaneFront [] [] (replicate SINGLETON_KINDS None) [] 0 0.

Definition owes_completion (f : LaneFront) : bool := negb (length (outstanding f) =? 0)%nat.
Definition outstanding_len (f : LaneFront) : nat := length (outstanding f).
Definition cell (f : LaneFront) (slot : nat) : option JobId := mjoin (singletons f !! slot).
Definition slot_owed (f : LaneFront) (slot : nat) : bool := bool_decide (is_Some (cell f slot)).
Definition materialize_owed (f : LaneFront) : bool := slot_owed f MATERIALIZE_SLOT.
Definition flush_owed (f : LaneFront) : bool := slot_owed f FLUSH_SLOT.
Definition restore_owed (f : LaneFront) : bool := slot_owed f RESTORE_SLOT.
Definition walk_owed (f : LaneFront) : bool := slot_owed f WALK_SLOT.
Definition serves_outstanding (f : LaneFront) : nat := length (serves f).

Definition queue (f : LaneFront) (job : BlockJob) : LaneFront :=
  mkLaneFront (jobs f ++ [job]) (outstanding f ++ [job_id job]) (singletons f) (serves f)
    (sweeps_coalesced f) (sweeps_dropped f).

Definition set_cell (f : LaneFront) (slot : nat) (c : option JobId) : LaneFront :=
  mkLaneFront (jobs f) (outstanding f) (<[slot := c]> (singletons f)) (serves f)
    (sweeps_coalesced f) (sweeps_dropped f).

(** [iter_mut().find(|j| j.id == queued)] and the assignment to the job it finds. *)
Fixpoint replace_kind (queued : JobId) (kind : BlockJobKind) (l : list BlockJob)
    : option (list BlockJob) :=
  match l with
  | [] => None
  | j :: r =>
      if bool_decide (job_id j = queued) then Some (mkBlockJob (job_id j) kind :: r)
      else r' ← replace_kind queued kind r; Some (j :: r')
  end.

Definition enqueue (f : LaneFront) (id : JobId) (kind : BlockJobKind) : option LaneFront :=
  let job := mkBlockJob id kind in
  match singleton (tag job) with
  | None =>
      if (length (serves f) <? MAX_OUTSTANDING_BLOCK_SERVES)%nat
      then Some (queue (mkLaneFront (jobs f) (outstanding f) (singletons f) (serves f ++ [id])
                          (sweeps_coalesced f) (sweeps_dropped f)) job)
      else None
  | Some slot =>
      if (slot =? GC_SLOT)%nat then
        match cell f GC_SLOT with
        | None => Some (queue (set_cell f GC_SLOT (Some id)) job)
        | Some queued =>
            match replace_kind queued kind (jobs f) with
            | Some js =>
                Some (mkLaneFront js (outstanding f) (singletons f) (serves f)
                        (sat_add 64 (sweeps_coalesced f) 1) (sweeps_dropped f))
            | None =>
                Some (mkLaneFront (jobs f) (outstanding f) (singletons f) (serves f)
                        (sweeps_coalesced f) (sat_add 64 (sweeps_dropped f) 1))
            end
        end
      else
        match cell f slot with
        | Some _ => None
        | None => Some (queue (set_cell f slot (Some id)) job)
        end
  end.

Definition lane_poll (f : LaneFront) : option BlockJob * LaneFront :=
  match jobs f with
  | [] => (None, f)
  | j :: r =>
      (Some j, mkLaneFront r (outstanding f) (singletons f) (serves f)
                 (sweeps_coalesced f) (sweeps_dropped f))
  end.

(** [position] and [remove] of the first serve with this id. *)
Fixpoint remove_serve (id : JobId) (l : list JobId) : option (list JobId) :=
  match l with
  | [] => None
  | s :: r => if bool_decide (s = id) then Some r else r' ← remove_serve id r; Some (s :: r')
  end.

Definition settle (f : LaneFront) (d : BlockJobDone) : option LaneFront :=
  match outstanding f with
  | [] => None
  | expected :: rest =>
      if bool_decide (expected = done_id d) then
        let f := mkLaneFront (jobs f) rest (singletons f) (serves f)
                   (sweeps_coalesced f) (sweeps_dropped f) in
        match singleton (done_tag d) with
        | Some slot =>
            if bool_decide (cell f slot = Some (done_id d)) then Some (set_cell f slot None) else None
        | None =>
            ss ← remove_serve (done_id d) (serves f);
            Some (mkLaneFront (jobs f) (outstanding f) (singletons f) ss
                    (sweeps_coalesced f) (sweeps_dropped f))
        end
      else None
  end.

(** ** The execution cursor *)

(** [BlockJobCursor::admit]: pairs are compared lexicographically. *)
Definition pair_lt (a b : JobId) : bool :=
  (a.1 <? b.1) || ((a.1 =? b.1) && (a.2 <? b.2)).

Definition cursor_admit (last : option JobId) (id : JobId) : option (option JobId) :=
  match last with
  | Some last => if pair_lt last id then Some (Some id) else None
  | None => Some (Some id)
  end.

(** ** A lane and its driver

    The driver takes jobs in queue order, executes each once (the cursor admits it)
    and delivers completions in that order; an endpoint consults the gate of its
    kind and mints ids in ascending order, also across incarnations. *)

Definition gate (f : LaneFront) (kind : BlockJobKind) : bool :=
  match singleton (kind_tag kind) with
  | None => (length (serves f) <? MAX_OUTSTANDING_BLOCK_SERVES)%nat
  | Some slot => (slot =? GC_SLOT)%nat || negb (slot_owed f slot)
  end.

Definition before (a b : JobId) : Prop := pair_lt a b = true.
Definition above (last : option JobId) (id : JobId) : Prop :=
  match last with None => True | Some l => before l id end.

Record Run : Type := mkRun {
  front : LaneFront;
  executing : list BlockJob;
  cursor : option JobId;
  issued : option JobId;
}.

Inductive lane_step : Run -> Run -> Prop :=
| step_issue f ex cur last id kind f' :
    above last id -> gate f kind = true -> enqueue f id kind = Some f' ->
    lane_step (mkRun f ex cur last) (mkRun f' ex cur (Some id))
| step_take f ex cur last j f' cur' :
    lane_poll f = (Some j, f') -> cursor_admit cur (job_id j) = Some cur' ->
    lane_step (mkRun f ex cur last) (mkRun f' (ex ++ [j]) cur' last)
| step_settle f j ex cur last f' :
    settle f (mkBlockJobDone (job_id j) (tag j)) = Some f' ->
    lane_step (mkRun f (j :: ex) cur last) (mkRun f' ex cur last).

Inductive lane_reachable : Run -> Prop :=
| lane_open : lane_reachable (mkRun lane_new [] None None)
| lane_next r r' : lane_reachable r -> lane_step r r' -> lane_reachable r'.

Definition is_serve (j : BlockJob) : bool := bool_decide (singleton (tag j) = None).

(** What the books say of the jobs [l] the lane still owes, oldest first. *)
Record books (f : LaneFront) (l : list BlockJob) : Prop := {
  books_order : outstanding f = map job_id l;
  books_sorted : StronglySorted before (map job_id l);
  books_cells : length (singletons f) = SINGLETON_KINDS;
  books_owner : forall slot id, cell f slot = Some id <->
    exists j, j ∈ l /\ singleton (tag j) = Some slot /\ job_id j = id;
  books_serves : serves f = map job_id (List.filter is_serve l);
  books_cap : (length (serves f) <= MAX_OUTSTANDING_BLOCK_SERVES)%nat;
}.

Record run_ok (r : Run) : Prop := {
  run_books : books (front r) (executing r ++ jobs (front r));
  run_issued : Forall (fun j => forall id, above (issued r) id -> before (job_id j) id)
                 (executing r ++ jobs (front r));
  run_cursor : forall id, above (issued r) id -> above (cursor r) id;
  run_ahead : Forall (fun j => above (cursor r) (job_id j)) (jobs (front r));
}.

Lemma before_spec a b : before a b <-> a.1 < b.1 \/ (a.1 = b.1 /\ a.2 < b.2).
Proof. unfold before, pair_lt. by rewrite orb_true_iff, andb_true_iff, !Z.ltb_lt, Z.eqb_eq. Qed.

Lemma before_trans a b c : before a b -> before b c -> before a c.
Proof. rewrite !before_spec. lia. Qed.

Lemma before_irrefl a : ~ before a a.
Proof. rewrite before_spec. lia. Qed.

Lemma sorted_nodup l : StronglySorted before l -> NoDup l.
Proof.
  induction 1 as [|a l Hs IH Hf]; constructor; [|done].
  intros Hin. rewrite Forall_forall in Hf. by apply (before_irrefl a), Hf.
Qed.

Lemma sorted_snoc l a : StronglySorted before l -> Forall (fun x => before x a) l ->
  StronglySorted before (l ++ [a]).
Proof.
  induction 1 as [|b l Hs IH Hf]; intros Ha; cbn; [by repeat constructor|].
  inversion_clear Ha. constructor; [by apply IH|]. apply Forall_app; split; [done|by repeat constructor].
Qed.

Lemma cell_insert f slot c s :
  (slot < length (singletons f))%nat ->
  cell (set_cell f slot c) s = if decide (s = slot) then c else cell f s.
Proof.
  intros Hlen. unfold cell, set_cell; cbn. destruct (decide (s = slot)) as [->|Hne].
  - by rewrite list_lookup_insert_eq.
  - by rewrite list_lookup_insert_ne.
Qed.

Lemma singleton_lt t slot : singleton t = Some slot -> (slot < SINGLETON_KINDS)%nat.
Proof. destruct t; intros [= <-]; apply Nat.ltb_lt; reflexivity. Qed.

(** Ids are distinct, so two jobs of one slot are the same job. *)
Lemma books_unique f l i j slot :
  books f l -> i ∈ l -> j ∈ l -> singleton (tag i) = Some slot -> singleton (tag j) = Some slot ->
  job_id i = job_id j.
Proof.
  intros Hb Hi Hj Si Sj. assert (cell f slot = Some (job_id i)) as Hc by (apply Hb; eauto).
  assert (cell f slot = Some (job_id j)) as Hc' by (apply Hb; eauto). congruence.
Qed.

Lemma is_serve_true j : singleton (tag j) = None -> is_serve j = true.
Proof. intros. by apply bool_decide_eq_true_2. Qed.

Lemma is_serve_false j slot : singleton (tag j) = Some slot -> is_serve j = false.
Proof. intros. apply bool_decide_eq_false_2. congruence. Qed.

Lemma books_new : books lane_new [].
Proof.
  split; try done; [constructor| |cbn; lia]. intros slot id. split.
  - unfold cell, lane_new; cbn [singletons]. intros H.
    destruct (decide (slot < SINGLETON_KINDS)%nat).
    + rewrite lookup_replicate_2 in H by done. done.
    + rewrite lookup_ge_None_2 in H; [done|]. rewrite length_replicate. lia.
  - intros (j & Hj & _). by apply not_elem_of_nil in Hj.
Qed.

(** Admitting a job at the back of the books. *)
Lemma books_push f l j c :
  books f l -> Forall (fun i => before (job_id i) (job_id j)) l ->
  singletons c = (match singleton (tag j) with
                  | Some slot => <[slot := Some (job_id j)]> (singletons f)
                  | None => singletons f
                  end) ->
  outstanding c = outstanding f ++ [job_id j] ->
  serves c = (match singleton (tag j) with Some _ => serves f | None => serves f ++ [job_id j] end) ->
  match singleton (tag j) with
  | Some slot => cell f slot = None
  | None => (length (serves f) < MAX_OUTSTANDING_BLOCK_SERVES)%nat
  end -> books c (l ++ [j]).
Proof.
  intros Hb Hlt Hsg Hout Hsv Hgate. destruct Hb as [Ho Hs Hlen Hown Hserves Hcap].
  assert (Hcell : forall s, cell c s =
    match singleton (tag j) with
    | Some slot => if decide (s = slot) then Some (job_id j) else cell f s
    | None => cell f s
    end).
  { intros s. unfold cell. rewrite Hsg. destruct (singleton (tag j)) as [slot|] eqn:E; [|done].
    apply singleton_lt in E. destruct (decide (s = slot)) as [->|];
      [by rewrite list_lookup_insert_eq by lia|by rewrite list_lookup_insert_ne]. }
  split.
  - by rewrite Hout, Ho, map_app.
  - rewrite map_app. apply sorted_snoc; [done|]. by apply Forall_map.
  - rewrite Hsg. destruct (singleton (tag j)); [by rewrite length_insert|done].
  - intros s id. rewrite Hcell. setoid_rewrite elem_of_app. setoid_rewrite list_elem_of_singleton.
    destruct (singleton (tag j)) as [slot|] eqn:E.
    + destruct (decide (s = slot)) as [->|Hne].
      * split; [intros [= <-]; exists j; auto|]. intros (i & [Hi| ->] & Si & <-); [|done].
        exfalso. assert (cell f slot = Some (job_id i)) as Hc by (apply Hown; eauto). congruence.
      * rewrite Hown. split; intros (i & Hi & Si & <-); exists i; [auto|].
        destruct Hi as [|Hi]; [auto|]. subst i. congruence.
    + rewrite Hown. split; intros (i & Hi & Si & <-); exists i; [auto|].
      destruct Hi as [|Hi]; [auto|]. subst i. congruence.
  - rewrite Hsv, List.filter_app, map_app. cbn [List.filter]. destruct (singleton (tag j)) eqn:E.
    + rewrite (is_serve_false _ _ E). cbn. by rewrite app_nil_r.
    + rewrite is_serve_true by done. cbn. by rewrite Hserves.
  - rewrite Hsv. destruct (singleton (tag j)); [done|]. rewrite length_app. cbn. lia.
Qed.

(** Settling the job at the front of the books. *)
Lemma books_pop f j l :
  books f (j :: l) -> exists f', settle f (mkBlockJobDone (job_id j) (tag j)) = Some f' /\ books f' l
    /\ jobs f' = jobs f.
Proof.
  intros Hb. pose proof Hb as [Ho Hs Hlen Hown Hserves Hcap]. unfold settle. rewrite Ho.
  cbn [map done_id done_tag]. rewrite bool_decide_eq_true_2 by done.
  inversion Hs as [|? ? Hs' Hf]. subst.
  assert (Hnew : forall i, i ∈ l -> job_id i <> job_id j).
  { intros i Hi Heq. rewrite Forall_forall in Hf. apply (before_irrefl (job_id j)).
    rewrite <-Heq at 2. apply Hf. apply list_elem_of_fmap. eauto. }
  destruct (singleton (tag j)) as [slot|] eqn:E.
  - assert (cell f slot = Some (job_id j)) as Hc by (apply Hown; exists j; split; [constructor|done]).
    unfold cell at 1. cbn [singletons]. fold (cell f slot). rewrite bool_decide_eq_true_2 by done.
    eexists. split; [done|].
    split; [|done]. apply singleton_lt in E as Hlt. split; cbn [outstanding serves singletons set_cell]; try done.
    + by rewrite length_insert.
    + intros s id. unfold cell; cbn. destruct (decide (s = slot)) as [->|Hne].
      * rewrite list_lookup_insert_eq by lia. split; [done|]. intros (i & Hi & Si & <-). exfalso.
        apply (Hnew i Hi). eapply (books_unique f (j :: l)); [done|by constructor|constructor|done|done].
      * rewrite list_lookup_insert_ne by done. fold (cell f s). rewrite Hown.
        split; intros (i & Hi & Si & <-); exists i; [|by split; [constructor|]].
        apply elem_of_cons in Hi as [->|]; [congruence|done].
    + rewrite Hserves. cbn [List.filter]. by rewrite (is_serve_false _ _ E).
  - rewrite Hserves in *. cbn [List.filter serves] in *. rewrite is_serve_true in * by done.
    cbn [map remove_serve] in *. rewrite bool_decide_eq_true_2 by done. eexists. split; [done|]. split; [|done].
    split; cbn [outstanding serves singletons]; try done.
    + intros s id. fold (cell f s). unfold cell; cbn. fold (cell f s). rewrite Hown.
      split; intros (i & Hi & Si & <-); exists i; [|by split; [constructor|]].
      apply elem_of_cons in Hi as [->|]; [congruence|done].
    + cbn in Hcap. lia.
Qed.

Abbreviation face := (fun j : BlockJob => (job_id j, tag j)) (only parsing).

(** The books read only ids and tags. *)
Lemma books_face f f' l l' :
  map face l = map face l' -> outstanding f' = outstanding f -> singletons f' = singletons f ->
  serves f' = serves f -> books f l -> books f' l'.
Proof.
  intros Hl Ho Hs Hv Hb. destruct Hb as [Ho' Hs' Hlen Hown Hserves Hcap].
  assert (Hid : map job_id l' = map job_id l).
  { assert (forall k, map fst (map face k) = map job_id k) as Hk by (intros k; by rewrite map_map).
    by rewrite <-!Hk, Hl. }
  split; rewrite ?Hid, ?Ho, ?Hs, ?Hv; try done.
  - intros slot id. unfold cell. rewrite Hs. fold (cell f slot). rewrite Hown.
    assert (Hex : forall k, (exists j, j ∈ k /\ singleton (tag j) = Some slot /\ job_id j = id) <->
      (exists t, (id, t) ∈ map face k /\ singleton t = Some slot)).
    { intros k. split.
      - intros (j & Hj & Sj & <-). exists (tag j). split; [|done]. apply list_elem_of_fmap. eauto.
      - intros (t & Ht & St). apply list_elem_of_fmap in Ht as (j & [= -> ->] & Hj). eauto. }
    by rewrite !Hex, Hl.
  - rewrite Hserves. clear -Hl. revert l' Hl. induction l as [|j l IH]; intros [|j' l'] Hl; try done.
    cbn in Hl |- *. injection Hl as Hi Ht Hl.
    assert (is_serve j = is_serve j') as <- by (unfold is_serve; by rewrite Ht).
    destruct (is_serve j); cbn; rewrite (IH l' Hl); [by rewrite Hi|done].
Qed.

Lemma replace_kind_face q k l l' :
  replace_kind q k l = Some l' ->
  exists a j b, l = a ++ j :: b /\ job_id j = q /\ l' = a ++ mkBlockJob q k :: b.
Proof.
  revert l'. induction l as [|j l IH]; intros l'; cbn; [done|].
  case_bool_decide as Hj.
  - intros [= <-]. exists [], j, l. by rewrite Hj.
  - destruct (replace_kind q k l) as [r|] eqn:E; cbn; [|done]. intros [= <-].
    destruct (IH r eq_refl) as (a & i & b & -> & Hi & ->). by exists (j :: a), i, b.
Qed.

Lemma nodup_map_filter {A B} (g : A -> B) (p : A -> bool) l :
  NoDup (map g l) -> NoDup (map g (List.filter p l)).
Proof.
  induction l as [|a l IH]; [done|]. cbn. intros [Ha Hl]%NoDup_cons.
  destruct (p a); cbn; [|by apply IH]. apply NoDup_cons. split; [|by apply IH].
  intros (b & Hb & Hin)%list_elem_of_fmap. apply Ha, list_elem_of_fmap. exists b. split; [done|].
  apply list_elem_of_In, List.filter_In in Hin as [Hin _]. by apply list_elem_of_In.
Qed.

Lemma nodup_map_coarser {A B C} (g : A -> B) (h : A -> C) l :
  NoDup (map g l) -> (forall x y, x ∈ l -> y ∈ l -> h x = h y -> g x = g y) -> NoDup (map h l).
Proof.
  induction l as [|a l IH]; [constructor|]. cbn. intros [Ha Hl]%NoDup_cons Hinj. apply NoDup_cons. split.
  - intros (b & Hb & Hin)%list_elem_of_fmap. apply Ha, list_elem_of_fmap. exists b. split; [|done].
    apply Hinj; [constructor|by constructor|done].
  - apply IH; [done|]. intros x y Hx Hy. apply Hinj; by constructor.
Qed.

Lemma books_depth f l : books f l -> (length (outstanding f) <= MAX_BLOCK_JOBS_IN_FLIGHT)%nat.
Proof.
  intros Hb. pose proof Hb as [Ho Hs Hlen Hown Hserves Hcap]. rewrite Ho, length_map.
  rewrite Hserves, length_map in Hcap. set (single := List.filter (fun j => negb (is_serve j)) l).
  assert (Hsplit : length l = (length (List.filter is_serve l) + length single)%nat).
  { subst single. clear. induction l as [|j l IH]; [done|]. cbn. destruct (is_serve j); cbn; lia. }
  assert (Hsingle : forall j, j ∈ single -> j ∈ l /\ exists slot, singleton (tag j) = Some slot).
  { intros j Hj. apply list_elem_of_In, List.filter_In in Hj as [Hj Hn].
    apply list_elem_of_In in Hj. split; [done|]. unfold is_serve in Hn.
    destruct (singleton (tag j)) as [slot|]; [eauto|]. by rewrite bool_decide_eq_true_2 in Hn. }
  set (slot_of := fun j => default 0%nat (singleton (tag j))).
  assert (Hnd : NoDup (map slot_of single)).
  { apply (nodup_map_coarser job_id); [by apply nodup_map_filter, sorted_nodup|].
    intros i j Hi Hj Heq. destruct (Hsingle i Hi) as (Hil & si & Si), (Hsingle j Hj) as (Hjl & sj & Sj).
    unfold slot_of in Heq. rewrite Si, Sj in Heq. cbn in Heq. subst sj. by apply (books_unique f l i j si). }
  assert (length (map slot_of single) <= length (seq 0 SINGLETON_KINDS))%nat as Hle.
  { apply NoDup_ListNoDup in Hnd. apply (NoDup_incl_length Hnd). intros s Hin.
    apply in_map_iff in Hin as (j & <- & Hj). apply list_elem_of_In in Hj.
    destruct (Hsingle j Hj) as (_ & slot & Sj). unfold slot_of. rewrite Sj. apply in_seq.
    apply singleton_lt in Sj. cbn. lia. }
  rewrite length_map, length_seq in Hle. unfold MAX_BLOCK_JOBS_IN_FLIGHT. lia.
Qed.

(** ** Every step keeps the books *)

Lemma slot_owed_none f slot : slot_owed f slot = false -> cell f slot = None.
Proof. unfold slot_owed. intros Hf%bool_decide_eq_false. by apply eq_None_not_Some. Qed.

Lemma nodup_map_eq {A B} (g : A -> B) l x y :
  NoDup (map g l) -> x ∈ l -> y ∈ l -> g x = g y -> x = y.
Proof.
  induction l as [|a l IH]; [intros _ Hx; by apply not_elem_of_nil in Hx|]. cbn.
  intros [Ha Hl]%NoDup_cons [->|Hx]%elem_of_cons [->|Hy]%elem_of_cons Heq; [done| | |by apply IH].
  - exfalso. apply Ha. rewrite Heq. by apply list_elem_of_fmap_2.
  - exfalso. apply Ha. rewrite <-Heq. by apply list_elem_of_fmap_2.
Qed.

Lemma singleton_gc t : singleton t = Some GC_SLOT -> t = TagGc.
Proof. by destruct t. Qed.

(** A newer sweep takes the place of the queued one under its id. *)
Lemma coalesce_books f ex queued kind js :
  books f (ex ++ jobs f) -> kind_tag kind = TagGc -> cell f GC_SLOT = Some queued ->
  replace_kind queued kind (jobs f) = Some js ->
  map face (ex ++ jobs f) = map face (ex ++ js).
Proof.
  intros Hb Hk Hc Hr. pose proof Hb as [_ Hs _ Hown _ _].
  destruct (replace_kind_face _ _ _ _ Hr) as (a & j & b & Ha & Hj & ->). rewrite Ha in *.
  apply Hown in Hc as (i & Hi & Si & Hq). apply sorted_nodup in Hs.
  assert (i = j) as -> by (eapply (nodup_map_eq job_id); [exact Hs|done|set_solver|congruence]).
  apply singleton_gc in Si. rewrite !map_app. cbn. unfold tag in *. cbn. by rewrite Si, Hk, Hj.
Qed.

Lemma issue_books f ex id kind f' :
  books f (ex ++ jobs f) -> Forall (fun j => before (job_id j) id) (ex ++ jobs f) ->
  gate f kind = true -> enqueue f id kind = Some f' ->
  books f' (ex ++ jobs f') /\
  forall (P : JobId -> Prop), P id -> forall pre, Forall (fun j => P (job_id j)) (pre ++ jobs f) ->
    Forall (fun j => P (job_id j)) (pre ++ jobs f').
Proof.
  intros Hb Hlt Hg He. unfold enqueue, gate in *. change (tag (mkBlockJob id kind)) with (kind_tag kind) in He.
  assert (Hpush : forall c, jobs c = jobs f ++ [mkBlockJob id kind] ->
    books c ((ex ++ jobs f) ++ [mkBlockJob id kind]) -> books c (ex ++ jobs c) /\
    forall (P : JobId -> Prop), P id -> forall pre, Forall (fun j => P (job_id j)) (pre ++ jobs f) ->
    Forall (fun j => P (job_id j)) (pre ++ jobs c)).
  { intros c Hj Hc. rewrite Hj, app_assoc. split; [done|]. intros P HP pre Hpre. rewrite app_assoc.
    apply Forall_app. split; [done|]. by constructor. }
  destruct (singleton (kind_tag kind)) as [slot|] eqn:E.
  - destruct (Nat.eqb_spec slot GC_SLOT) as [->|Hne].
    + destruct (cell f GC_SLOT) as [queued|] eqn:Hc.
      * destruct (replace_kind queued kind (jobs f)) as [js|] eqn:Hr; injection He as <-;
          [|split; [|done]; by apply (books_face f _ (ex ++ jobs f))].
        split.
        -- apply (books_face f _ (ex ++ jobs f)); [|done..]. cbn [jobs].
           by apply (coalesce_books f ex queued kind); [done|apply singleton_gc|..].
        -- intros P HP pre. destruct (replace_kind_face _ _ _ _ Hr) as (a & j & b & Ha & Hj & ->). cbn [jobs].
           rewrite Ha, !Forall_app, !Forall_cons. cbn. rewrite Hj. tauto.
      * injection He as <-. apply Hpush; [done|].
        apply (books_push f); unfold tag; cbn [job_kind job_id queue set_cell outstanding singletons serves];
          rewrite ?E; done.
    + destruct (cell f slot) eqn:Hc; [done|]. injection He as <-. apply Hpush; [done|].
      apply (books_push f); unfold tag; cbn [job_kind job_id queue set_cell outstanding singletons serves];
        rewrite ?E; done.
  - apply Nat.ltb_lt in Hg as Hg'. rewrite Hg in He. injection He as <-. apply Hpush; [done|].
    apply (books_push f); unfold tag; cbn [job_kind job_id queue set_cell outstanding singletons serves];
      rewrite ?E; done.
Qed.

Lemma lane_step_ok r r' : run_ok r -> lane_step r r' -> run_ok r'.
Proof.
  intros [Hb Hi Hc Ha] Hstep. destruct Hstep as [f ex cur last id kind f' Hid Hg He
    |f ex cur last j f' cur' Hp Hadm|f j ex cur last f' Hs]; cbn in *.
  - destruct (issue_books f ex id kind f') as [Hb' Hall]; [done| |done|done|].
    { eapply Forall_impl; [exact Hi|]. intros j Hj. by apply Hj. }
    split; cbn; [done| | |].
    + apply (Hall (fun a => forall x, before id x -> before a x)); [done|].
      eapply Forall_impl; [exact Hi|]. intros j Hj x Hx. eapply before_trans; [by apply Hj|done].
    + intros x Hx. apply Hc. destruct last as [l|]; cbn in *; [by eapply before_trans|done].
    + apply (Hall (above cur) (Hc _ Hid) []). done.
  - unfold lane_poll in Hp. destruct (jobs f) as [|j0 js] eqn:Ej; [done|]. injection Hp as <- <-.
    assert (cur' = Some (job_id j0)) as -> by (unfold cursor_admit in Hadm; repeat case_match; by simplify_eq).
    split; cbn [front executing cursor issued jobs]; rewrite <-1?app_assoc; cbn [app].
    + apply (books_face f _ (ex ++ j0 :: js)); done.
    + done.
    + intros x Hx. rewrite Forall_app in Hi. destruct Hi as [_ Hi]. inversion_clear Hi. cbn. auto.
    + pose proof (books_sorted _ _ Hb) as Hs. rewrite map_app in Hs.
      clear -Hs. induction (map job_id ex) as [|a l IH]; cbn in Hs.
      * inversion_clear Hs as [|? ? ? Hf]. by rewrite Forall_map in Hf.
      * apply IH. by inversion_clear Hs.
  - destruct (books_pop f j (ex ++ jobs f) Hb) as (f'' & Hs' & Hb' & Hj). rewrite Hs in Hs'.
    injection Hs' as <-. split; cbn; rewrite ?Hj; [done| |done|done]. by inversion_clear Hi.
Qed.

Lemma lane_reachable_ok r : lane_reachable r -> run_ok r.
Proof.
  induction 1 as [|r r' _ IH Hs]; [|by eapply lane_step_ok].
  split; cbn; [apply books_new|constructor|done|constructor].
Qed.

(** The lane's books balance for every interleaving of issuing, taking and
    settling, across any number of endpoints: the completions owed never exceed one
    per single-slot kind plus the serve cap; the cursor admits every job in the
    order the driver takes it; the completion of the oldest outstanding job always
    settles, and a completion of any other job is refused. *)
Theorem lane_books_balance r (Hr : lane_reachable r) :
  (outstanding_len (front r) <= MAX_BLOCK_JOBS_IN_FLIGHT)%nat /\
  (forall j f', lane_poll (front r) = (Some j, f') ->
     cursor_admit (cursor r) (job_id j) = Some (Some (job_id j))) /\
  (forall j ex, executing r = j :: ex ->
     is_Some (settle (front r) (mkBlockJobDone (job_id j) (tag j)))) /\
  (forall d j l, executing r ++ jobs (front r) = j :: l -> done_id d <> job_id j ->
     settle (front r) d = None).
Proof.
  destruct (lane_reachable_ok r Hr) as [Hb _ _ Ha]. split; [by eapply books_depth|].
  split; [|split].
  - intros j f' Hp. unfold lane_poll in Hp. destruct (jobs (front r)) as [|j0 js]; [done|].
    injection Hp as -> _. inversion_clear Ha as [|? ? Hj _]. unfold cursor_admit.
    destruct (cursor r) as [l|]; [|done]. cbn in Hj. by rewrite Hj.
  - intros j ex He. rewrite He in Hb. destruct (books_pop _ _ _ Hb) as (f' & Hs & _). by rewrite Hs.
  - intros d j l Hl Hd. unfold settle. rewrite (books_order _ _ Hb), Hl. cbn.
    by rewrite bool_decide_eq_false_2.
Qed.
End lane.

(** A sweep is issued and taken, then a serve and a second sweep, which is dropped
    behind the one executing. *)
Module LaneDemo.
Abbreviation job := (@BlockJob Z Z Z Z).
Definition open_run : Run (Sm := Z) (Image := Z) (Sessions := Z) (Walks := Z) :=
  mkRun lane_new [] None None.
Definition sweep : job := mkBlockJob (1, 1) (JobGc [7] []).
Definition after (r : Run) (id : Z * Z) (k : BlockJobKind) : Run (Sm := Z) (Image := Z) (Sessions := Z) (Walks := Z) :=
  mkRun (default lane_new (enqueue (front r) id k)) (executing r) (cursor r) (Some id).
Definition issued_one := after open_run (1, 1) (JobGc [7] []).
Definition taken := mkRun (lane_poll (front issued_one)).2 [sweep] (Some (1, 1)) (Some (1, 1)).
Definition served := after taken (1, 2) (JobServe (PeerReplica 2) 9).
Definition swept_twice := after served (2, 1) (JobGc [8] []).

Lemma swept_twice_reachable : lane_reachable swept_twice.
Proof.
  assert (H1 : lane_reachable issued_one).
  { apply (lane_next open_run); [apply lane_open|]. by apply (step_issue _ _ _ _ _ (JobGc [7] [])). }
  assert (H2 : lane_reachable taken).
  { apply (lane_next issued_one _ H1). by apply (step_take _ [] _ _ sweep). }
  assert (H3 : lane_reachable served).
  { apply (lane_next taken _ H2). by apply (step_issue _ _ _ _ _ (JobServe (PeerReplica 2) 9)). }
  apply (lane_next served _ H3). by apply (step_issue _ _ _ _ _ (JobGc [8] [])).
Qed.

Lemma lane_books_balance_witness :
  outstanding (front swept_twice) = [(1, 1); (1, 2)] /\ sweeps_dropped (front swept_twice) = 1 /\
  is_Some (settle (front swept_twice) (mkBlockJobDone (1, 1) TagGc)) /\
  settle (front swept_twice) (mkBlockJobDone (1, 2) TagServe) = None.
Proof.
  split; [vm_compute; reflexivity|]. split; [vm_compute; reflexivity|].
  destruct (lane_books_balance swept_twice swept_twice_reachable) as (_ & _ & Hs & Hn).
  split; [exact (Hs sweep [] eq_refl)|].
  apply (Hn _ sweep (jobs (front swept_twice)) eq_refl). discriminate.
Defined.
End LaneDemo.
