(* ===== verification/Blocks.v ===== *)
(** * Content-addressed blocks: the store, its sweep and the missing-block walk

    [viewstamp-proto/src/block_store/mod.rs]: the store trait as a class of operations
    with the laws its documentation states, the in-memory store with its mark-and-sweep
    as an instance, and the single verified read.  [endpoint/block_sync/mod.rs]: the
    bounded frontier that reconstructs a block graph and fetches only what the store is
    missing.  The edges of a graph are read off the bytes of its blocks by a resolver,
    which is a parameter: the embedder's or the session table's ([SessionBlocks]).

    A method of [BlockSync] that fails leaves the walk as far as it got, so the walk is
    returned beside the result. *)

From S2P Require Import Prelude Core Hash Membership Codec Message Messages.

Definition MAX_REACHABLE_BLOCKS : Z := Z.shiftl 1 20.

(** ** The store *)

(** The roots of one graph and the resolver of its blocks. *)
Record BlockDagWalk : Type := mkDagWalk {
  dw_roots : list BlockAddress;
  dw_references : list byte -> list BlockAddress;
}.

Class BlockStore (St : Type) : Type := {
  read_block : St -> BlockAddress -> option (list byte);
  put : St -> list byte -> BlockAddress * St;
  flush : St -> bool * St;
  has_block : St -> BlockAddress -> bool;
  gc : St -> list BlockDagWalk -> St;
}.

Section store.
Context {St : Type} `{BlockStore St}.

Definition read_verified_block (s : St) (addr : BlockAddress) : option (list byte) :=
  bytes ← read_block s addr; if block_address bytes =? addr then Some bytes else None.

(** One reference of a block the store holds and can verify. *)
Definition edge (refs : list byte -> list BlockAddress) (s : St) (a b : BlockAddress) : Prop :=
  exists bytes, read_verified_block s a = Some bytes /\ b ∈ refs bytes.

Definition reaches (refs : list byte -> list BlockAddress) (s : St) : BlockAddress -> BlockAddress -> Prop :=
  rtc (edge refs s).

Definition marked (s : St) (walks : list BlockDagWalk) (a : BlockAddress) : Prop :=
  exists w r, w ∈ walks /\ r ∈ dw_roots w /\ reaches (dw_references w) s r a.

(** What the trait documents: a block is kept under its content address, a sweep keeps
    every marked block and alters none. *)
Class BlockStoreModel : Prop := {
  put_spec s b : (put s b).1 = block_address b /\
    read_block (put s b).2 (block_address b) = Some b /\
    forall a, a <> block_address b -> read_block (put s b).2 a = read_block s a;
  flush_spec s a : read_block (flush s).2 a = read_block s a;
  has_block_spec s a : has_block s a = bool_decide (is_Some (read_block s a));
  gc_spec s walks a :
    (marked s walks a -> read_block (gc s walks) a = read_block s a) /\
    (read_block (gc s walks) a = None \/ read_block (gc s walks) a = read_block s a);
}.

End store.
Arguments BlockStoreModel St {_}.

(** ** The in-memory store *)

Record InMemoryBlockStore : Type := mkInMemory {
  im_blocks : gmap Z (list byte);
  im_flush_faults : Z;
}.

Definition insert_raw (s : InMemoryBlockStore) (addr : BlockAddress) (block : list byte) : InMemoryBlockStore :=
  mkInMemory (<[addr := block]> (im_blocks s)) (im_flush_faults s).

Definition im_put (s : InMemoryBlockStore) (block : list byte) : BlockAddress * InMemoryBlockStore :=
  (block_address block, mkInMemory (<[block_address block := block]> (im_blocks s)) (im_flush_faults s)).

Definition im_flush (s : InMemoryBlockStore) : bool * InMemoryBlockStore :=
  if 0 <? im_flush_faults s then (false, mkInMemory (im_blocks s) (im_flush_faults s - 1)) else (true, s).

Definition push_unvisited (visited : gset Z) (stack : list Z) (children : list Z) : list Z :=
  foldl (fun st c => if bool_decide (c ∈ visited) then st else c :: st) stack children.

(** One graph's mark; the head of the list is the top of the stack. *)
Fixpoint mark_reachable (fuel : nat) (blocks : gmap Z (list byte)) (refs : list byte -> list BlockAddress)
    (visited : gset Z) (stack : list Z) : gset Z :=
  match fuel, stack with
  | O, _ | _, [] => visited
  | S fuel, addr :: stack =>
      if bool_decide (addr ∈ visited) then mark_reachable fuel blocks refs visited stack
      else
        let visited := {[addr]} ∪ visited in
        match blocks !! addr with
        | Some block =>
            if block_address block =? addr
            then mark_reachable fuel blocks refs visited (push_unvisited visited stack (refs block))
            else mark_reachable fuel blocks refs visited stack
        | None => mark_reachable fuel blocks refs visited stack
        end
  end.

(** Every pushed address is a root or a reference of a held block. *)
Definition total_refs (refs : list byte -> list BlockAddress) (blocks : gmap Z (list byte)) : nat :=
  map_fold (fun _ block n => (length (refs block) + n)%nat) 0%nat blocks.

Definition mark_walk (blocks : gmap Z (list byte)) (w : BlockDagWalk) : gset Z :=
  mark_reachable (length (dw_roots w) + total_refs (dw_references w) blocks) blocks (dw_references w) ∅ (rev (dw_roots w)).

Definition im_gc (s : InMemoryBlockStore) (walks : list BlockDagWalk) : InMemoryBlockStore :=
  let reachable := foldl (fun acc w => mark_walk (im_blocks s) w ∪ acc) ∅ walks in
  mkInMemory (filter (fun kv => kv.1 ∈ reachable) (im_blocks s)) (im_flush_faults s).

#[export] Instance InMemory_BlockStore : BlockStore InMemoryBlockStore := {
  read_block s a := im_blocks s !! a;
  put := im_put;
  flush := im_flush;
  has_block s a := bool_decide (is_Some (im_blocks s !! a));
  gc := im_gc;
}.

(** ** The missing-block walk *)

Inductive BlockOutcome : Type :=
| Accepted
| NonFrontier.

Inductive BlockSyncError : Type :=
| AddressMismatch (requested computed : BlockAddress)
| TooManyBlocks.

Record BlockSync : Type := mkBlockSync {
  bs_frontier : list BlockAddress;
  bs_visited : gset Z;
}.

Definition block_sync_new (root : BlockAddress) : BlockSync := mkBlockSync [root] {[root]}.

Fixpoint enqueue_children (w : BlockSync) (children : list BlockAddress) : result BlockSyncError () * BlockSync :=
  match children with
  | [] => (Ok tt, w)
  | child :: children =>
      if bool_decide (child ∈ bs_visited w) then enqueue_children w children
      else
        let visited := {[child]} ∪ bs_visited w in
        if MAX_REACHABLE_BLOCKS <? Z.of_nat (size visited)
        then (Err TooManyBlocks, mkBlockSync (bs_frontier w) visited)
        else enqueue_children (mkBlockSync (bs_frontier w ++ [child]) visited) children
  end.

Section walk.
Context {St : Type} `{BlockStore St}.
Context (refs : list byte -> list BlockAddress).

Fixpoint walk_advance (fuel : nat) (w : BlockSync) (s : St) : result BlockSyncError () * BlockSync :=
  match fuel, bs_frontier w with
  | O, _ | _, [] => (Ok tt, w)
  | S fuel, addr :: rest =>
      match read_verified_block s addr with
      | None => (Ok tt, w)
      | Some bytes =>
          match enqueue_children (mkBlockSync rest (bs_visited w)) (refs bytes) with
          | (Ok _, w) => walk_advance fuel w s
          | (Err e, w) => (Err e, w)
          end
      end
  end.

(** A round drops one address and each address is queued once: the queued ones and the
    ones still to be discovered under the cap bound the rounds. *)
Definition advance_fuel (w : BlockSync) : nat :=
  length (bs_frontier w) + (Z.to_nat MAX_REACHABLE_BLOCKS - size (bs_visited w)).

Definition advance (w : BlockSync) (s : St) : result BlockSyncError () * BlockSync :=
  walk_advance (advance_fuel w) w s.

Definition next_request (w : BlockSync) (s : St) : result BlockSyncError (option BlockAddress) * BlockSync :=
  match advance w s with
  | (Ok _, w) => (Ok (head (bs_frontier w)), w)
  | (Err e, w) => (Err e, w)
  end.

Definition on_block (w : BlockSync) (addr : BlockAddress) (bytes : list byte) (s : St)
    : result BlockSyncError BlockOutcome * BlockSync * St :=
  if negb (bool_decide (head (bs_frontier w) = Some addr)) then (Ok NonFrontier, w, s)
  else
    let computed := block_address bytes in
    if negb (computed =? addr) then (Err (AddressMismatch addr computed), w, s)
    else
      let s := (put s bytes).2 in
      match enqueue_children (mkBlockSync (tail (bs_frontier w)) (bs_visited w)) (refs bytes) with
      | (Err e, w) => (Err e, w, s)
      | (Ok _, w) =>
          match advance w s with
          | (Ok _, w) => (Ok Accepted, w, s)
          | (Err e, w) => (Err e, w, s)
          end
      end.

End walk.

(** ** The two graphs of a transfer *)

Record BlockWalks : Type := mkBlockWalks {
  bw_sm : BlockSync;
  bw_session : BlockSync;
}.

Definition block_walks_new (sm_root sessions_root : BlockAddress) : BlockWalks :=
  mkBlockWalks (block_sync_new sm_root) (block_sync_new sessions_root).

Section walks.
Context {St : Type} `{BlockStore St}.
Context (sm_refs session_refs : list byte -> list BlockAddress).

Definition accepted_by (r : result BlockSyncError BlockOutcome) : bool :=
  match r with Ok Accepted => true | _ => false end.

Definition breached (r : result BlockSyncError BlockOutcome) : bool :=
  match r with Err TooManyBlocks => true | _ => false end.

(** [None] when either walk breached its bound. *)
Definition accept_block (w : BlockWalks) (addr : BlockAddress) (bytes : list byte) (s : St)
    : option bool * BlockWalks * St :=
  let '(r1, sm, s) := on_block sm_refs (bw_sm w) addr bytes s in
  let '(r2, session, s) := on_block session_refs (bw_session w) addr bytes s in
  let w := mkBlockWalks sm session in
  if breached r1 || breached r2 then (None, w, s) else (Some (accepted_by r1 || accepted_by r2), w, s).

(** The outer [None] is the breach. *)
Definition next_missing (w : BlockWalks) (s : St) : option (option BlockAddress) * BlockWalks :=
  match next_request sm_refs (bw_sm w) s with
  | (Err _, sm) => (None, mkBlockWalks sm (bw_session w))
  | (Ok (Some addr), sm) => (Some (Some addr), mkBlockWalks sm (bw_session w))
  | (Ok None, sm) =>
      match next_request session_refs (bw_session w) s with
      | (Err _, session) => (None, mkBlockWalks sm session)
      | (Ok next, session) => (Some next, mkBlockWalks sm session)
      end
  end.

End walks.

(** ** The sweep keeps exactly the reachable blocks *)

Section mark.
Context (refs : list byte -> list BlockAddress) (blocks : gmap Z (list byte)).

Definition unvisited (visited : gset Z) : gmap Z (list byte) := filter (fun kv => kv.1 ∉ visited) blocks.

Definition mark_edge (a b : Z) : Prop :=
  exists block, blocks !! a = Some block /\ block_address block = a /\ b ∈ refs block.

Lemma total_refs_delete m a block :
  m !! a = Some block -> total_refs refs m = (length (refs block) + total_refs refs (delete a m))%nat.
Proof. intros Ha. unfold total_refs. rewrite (map_fold_delete_L _ 0%nat a block m); [done|lia|done]. Qed.

Lemma unvisited_add visited a : unvisited ({[a]} ∪ visited) = delete a (unvisited visited).
Proof.
  apply map_eq. intros k. unfold unvisited. rewrite lookup_delete. case_decide as Hk.
  - subst. apply map_lookup_filter_None. right. intros ? ?. set_solver.
  - apply option_eq. intros v. rewrite !map_lookup_filter_Some. cbn. set_solver.
Qed.

Lemma push_length visited stack children :
  (length (push_unvisited visited stack children) <= length children + length stack)%nat.
Proof.
  unfold push_unvisited. revert stack. induction children as [|c l IH]; intros stack; cbn; [done|].
  specialize (IH (if bool_decide (c ∈ visited) then stack else c :: stack)). case_bool_decide; cbn in *; lia.
Qed.

Lemma push_elem visited stack children x :
  x ∈ push_unvisited visited stack children <-> x ∈ stack \/ (x ∈ children /\ x ∉ visited).
Proof.
  unfold push_unvisited. revert stack. induction children as [|c l IH]; intros stack; cbn; [set_solver|].
  rewrite IH. case_bool_decide; set_solver.
Qed.

(** What a set with its references in [T] reaches is in it or reached from [T]. *)
Lemma closed_reach (v : gset Z) (T : list Z) x y :
  (forall a b, a ∈ v -> mark_edge a b -> b ∈ v \/ b ∈ T) -> x ∈ v -> rtc mark_edge x y ->
  y ∈ v \/ exists r, r ∈ T /\ rtc mark_edge r y.
Proof.
  intros Hc Hx Hxy. induction Hxy as [x|x z y Hxz Hzy IH]; [by left|].
  destruct (Hc _ _ Hx Hxz) as [Hz|Hz]; [by apply IH|right; by exists z].
Qed.

(** Visiting the top of the stack, with its references pushed. *)
Lemma visit_reach (visited : gset Z) addr (stack stack' : list Z) x :
  (forall a b, a ∈ visited -> mark_edge a b -> b ∈ visited \/ b ∈ addr :: stack) ->
  (forall y, y ∈ stack' -> y ∈ stack \/ mark_edge addr y) -> (forall y, y ∈ stack -> y ∈ stack') ->
  (forall b, mark_edge addr b -> b ∈ {[addr]} ∪ visited \/ b ∈ stack') ->
  (forall a b, a ∈ {[addr]} ∪ visited -> mark_edge a b -> b ∈ {[addr]} ∪ visited \/ b ∈ stack') /\
  ((x ∈ {[addr]} ∪ visited \/ exists r, r ∈ stack' /\ rtc mark_edge r x) <->
   (x ∈ visited \/ exists r, r ∈ addr :: stack /\ rtc mark_edge r x)).
Proof.
  intros Hc Hs Hs' Ha.
  assert (Hc' : forall a b, a ∈ {[addr]} ∪ visited -> mark_edge a b -> b ∈ {[addr]} ∪ visited \/ b ∈ stack').
  { intros a b Hab Hedge. apply elem_of_union in Hab as [->%elem_of_singleton|Hab]; [by apply Ha|].
    destruct (Hc a b Hab Hedge) as [|[->|]%elem_of_cons]; [set_solver..|right; auto]. }
  split; [done|]. split.
  - intros [Hx|(r & Hr & Hrx)]; [apply elem_of_union in Hx as [Hx%elem_of_singleton|Hx]; [|by left]|].
    + right. exists addr. subst. split; [constructor|done].
    + right. destruct (Hs r Hr) as [Hr'|Hr']; [exists r; split; [by right|done]|].
      exists addr. split; [constructor|by eapply rtc_l].
  - intros [Hx|(r & Hr & Hrx)]; [set_solver|]. apply elem_of_cons in Hr as [->|Hr]; [|right; exists r; auto].
    apply (closed_reach _ _ addr x Hc'); [set_solver|done].
Qed.

(** The loop never runs out of rounds and ends at the least closed set that extends
    the visited one by the stack. *)
Lemma mark_spec fuel visited stack :
  (length stack + total_refs refs (unvisited visited) <= fuel)%nat ->
  (forall a b, a ∈ visited -> mark_edge a b -> b ∈ visited \/ b ∈ stack) ->
  forall x, x ∈ mark_reachable fuel blocks refs visited stack <->
    x ∈ visited \/ exists r, r ∈ stack /\ rtc mark_edge r x.
Proof.
  revert visited stack. induction fuel as [|fuel IH]; intros visited stack Hf Hc x.
  { destruct stack; [|cbn in Hf; lia]. cbn. set_solver. }
  destruct stack as [|addr stack]; cbn [mark_reachable]; [set_solver|]. cbn in Hf.
  case_bool_decide as Hv.
  { assert (Hc1 : forall a b, a ∈ visited -> mark_edge a b -> b ∈ visited \/ b ∈ stack).
    { intros a b Ha Hab. destruct (Hc a b Ha Hab) as [|[->|]%elem_of_cons]; auto. }
    rewrite (IH visited stack); [|lia|done]. split; [set_solver|].
    intros [Hx|(r & Hr & Hrx)]; [by left|]. apply elem_of_cons in Hr as [->|Hr]; [|right; by exists r].
    by apply (closed_reach _ _ addr x Hc1). }
  assert (Hnew : forall stack', (length stack' + total_refs refs (delete addr (unvisited visited)) <= fuel)%nat ->
    (forall y, y ∈ stack' -> y ∈ stack \/ mark_edge addr y) -> (forall y, y ∈ stack -> y ∈ stack') ->
    (forall b, mark_edge addr b -> b ∈ {[addr]} ∪ visited \/ b ∈ stack') ->
    x ∈ mark_reachable fuel blocks refs ({[addr]} ∪ visited) stack' <->
      x ∈ visited \/ exists r, r ∈ addr :: stack /\ rtc mark_edge r x).
  { intros stack' Hl Hs Hs' Ha. destruct (visit_reach visited addr stack stack' x Hc Hs Hs' Ha) as [Hc' <-].
    apply IH; [by rewrite unvisited_add|done]. }
  assert (Hdrop : (total_refs refs (delete addr (unvisited visited)) <= total_refs refs (unvisited visited))%nat).
  { destruct (unvisited visited !! addr) as [b|] eqn:Hb; [rewrite (total_refs_delete _ _ _ Hb); lia|by rewrite delete_id]. }
  destruct (blocks !! addr) as [block|] eqn:Hb.
  2:{ apply Hnew; [lia|auto..|]. intros b (block & Hb' & _). congruence. }
  destruct (Z.eqb_spec (block_address block) addr) as [Ha|Ha].
  2:{ apply Hnew; [lia|auto..|]. intros b (block' & Hb' & Ha' & _). congruence. }
  apply Hnew.
  - assert (Hu : unvisited visited !! addr = Some block) by (apply map_lookup_filter_Some; auto).
    rewrite (total_refs_delete _ _ _ Hu) in Hf. pose proof (push_length ({[addr]} ∪ visited) stack (refs block)). lia.
  - intros y Hy. apply push_elem in Hy as [|[Hy _]]; [by left|right]. by exists block.
  - intros y Hy. apply push_elem. by left.
  - intros b (block' & Hb' & _ & Hin). rewrite Hb in Hb'. injection Hb' as <-.
    destruct (decide (b ∈ {[addr]} ∪ visited)); [by left|right]. apply push_elem. by right.
Qed.

End mark.

Lemma mark_edge_iff refs s a b : mark_edge refs (im_blocks s) a b <-> edge refs s a b.
Proof.
  unfold mark_edge, edge, read_verified_block. cbn. split.
  - intros (block & Hb & Ha & Hin). exists block. rewrite Hb. cbn. by rewrite (proj2 (Z.eqb_eq _ _) Ha).
  - intros (block & Hb & Hin). destruct (im_blocks s !! a) as [block'|]; [|done]. cbn in Hb.
    destruct (Z.eqb_spec (block_address block') a); [|done]. injection Hb as <-. by exists block'.
Qed.

Lemma mark_walk_spec s w x :
  x ∈ mark_walk (im_blocks s) w <-> exists r, r ∈ dw_roots w /\ reaches (dw_references w) s r x.
Proof.
  unfold mark_walk. rewrite mark_spec.
  - assert (Hr : forall r, rtc (mark_edge (dw_references w) (im_blocks s)) r x <-> reaches (dw_references w) s r x).
    { intros r. unfold reaches. split; apply rtc_subrel; intros a b; apply mark_edge_iff. }
    split; [intros [Hx|(r & Hin & Hx)]; [set_solver|]|intros (r & Hin & Hx); right]; exists r; (split; [|by apply Hr]).
    + apply list_elem_of_In, in_rev, list_elem_of_In, Hin.
    + apply list_elem_of_In. rewrite <- in_rev. by apply list_elem_of_In.
  - rewrite length_rev. apply Nat.add_le_mono_l.
    assert (unvisited (im_blocks s) ∅ = im_blocks s) as ->; [|done].
    apply map_filter_id. intros ? ? _. cbn. set_solver.
  - set_solver.
Qed.

Lemma gc_reachable s walks x :
  x ∈ foldl (fun acc w => mark_walk (im_blocks s) w ∪ acc) ∅ walks <-> marked s walks x.
Proof.
  enough (Hgen : forall acc, x ∈ foldl (fun acc w => mark_walk (im_blocks s) w ∪ acc) acc walks <-> x ∈ acc \/ marked s walks x)
    by (rewrite Hgen; set_solver).
  induction walks as [|w walks IH]; intros acc; cbn.
  - split; [by left|]. intros [|(w & r & Hw & _)]; [done|by apply elem_of_nil in Hw].
  - rewrite IH, elem_of_union, mark_walk_spec. unfold marked. set_solver.
Qed.

Lemma sweep_lookup (s : InMemoryBlockStore) walks a b :
  read_block (gc s walks) a = Some b <-> read_block s a = Some b /\ marked s walks a.
Proof. cbn. rewrite map_lookup_filter_Some. cbn. by rewrite gc_reachable. Qed.

#[export] Instance InMemory_BlockStoreModel : BlockStoreModel InMemoryBlockStore.
Proof.
  split.
  - intros s b. cbn. split; [done|]. split; [apply lookup_insert_eq|]. intros a Ha. by apply lookup_insert_ne.
  - intros s a. cbn. unfold im_flush. by destruct (_ <? _).
  - done.
  - intros s walks a. split.
    + intros Hm. apply option_eq. intros b. rewrite sweep_lookup. tauto.
    + destruct (read_block (gc s walks) a) as [b|] eqn:Hb; [right|by left]. by apply sweep_lookup in Hb as [-> _].
Qed.

(** ** The walk fetches exactly what is missing *)

Section verified.
Context {St : Type} `{BlockStoreModel St}.

(** The block is not the second of two with one address. *)
Definition no_collision (s : St) (b : list byte) : Prop :=
  forall bytes, read_verified_block s (block_address b) = Some bytes -> bytes = b.

Lemma verified_spec (s : St) a bytes :
  read_verified_block s a = Some bytes <-> read_block s a = Some bytes /\ block_address bytes = a.
Proof.
  unfold read_verified_block. destruct (read_block s a) as [b|]; cbn; [|naive_solver].
  destruct (Z.eqb_spec (block_address b) a); naive_solver.
Qed.

Lemma put_own (s : St) b : read_verified_block (put s b).2 (block_address b) = Some b.
Proof. apply verified_spec. by destruct (put_spec s b) as (_ & ? & _). Qed.

Lemma put_verified (s : St) b a bytes :
  no_collision s b -> read_verified_block s a = Some bytes -> read_verified_block (put s b).2 a = Some bytes.
Proof.
  intros Hn Ha. destruct (decide (a = block_address b)) as [->|Hne]; [rewrite (Hn _ Ha); apply put_own|].
  apply verified_spec in Ha as [Ha Hb]. apply verified_spec. split; [|done].
  destruct (put_spec s b) as (_ & _ & Hp). by rewrite Hp.
Qed.

Lemma gc_verified (s : St) walks a bytes :
  marked s walks a -> read_verified_block s a = Some bytes -> read_verified_block (gc s walks) a = Some bytes.
Proof. rewrite !verified_spec. intros Hm [Ha Hb]. by rewrite (proj1 (gc_spec s walks a) Hm). Qed.

End verified.

Section sync.
Context {St : Type} `{BlockStoreModel St}.
Context (refs : list byte -> list BlockAddress) (root : BlockAddress).

Record walking (s : St) (w : BlockSync) : Prop := {
  wk_nodup : NoDup (bs_frontier w);
  wk_in a : a ∈ bs_frontier w -> a ∈ bs_visited w;
  wk_cap : Z.of_nat (size (bs_visited w)) <= MAX_REACHABLE_BLOCKS;
  wk_root : root ∈ bs_visited w;
  wk_done a : a ∈ bs_visited w -> a ∉ bs_frontier w ->
    exists bytes, read_verified_block s a = Some bytes /\ forall c, c ∈ refs bytes -> c ∈ bs_visited w;
  wk_reach a : a ∈ bs_visited w -> reaches refs s root a;
}.

Lemma walking_new s : walking s (block_sync_new root).
Proof.
  split; cbn; try set_solver.
  - apply NoDup_singleton.
  - rewrite size_singleton. by vm_compute.
Qed.

(** Nothing reachable becomes unreadable. *)
Definition retains (s s' : St) : Prop :=
  forall a bytes, reaches refs s root a -> read_verified_block s a = Some bytes -> read_verified_block s' a = Some bytes.

Lemma retains_reaches s s' a : retains s s' -> reaches refs s root a -> reaches refs s' root a.
Proof.
  intros Hr Ha. refine (rtc_ind_r (reaches refs s' root) root _ _ a Ha); [apply rtc_refl|]. intros x y Hx Hxy IH.
  eapply rtc_r; [exact IH|]. destruct Hxy as (bytes & Hb & Hin). exists bytes. split; [|done]. by apply Hr.
Qed.

Lemma walking_mono s s' w : retains s s' -> walking s w -> walking s' w.
Proof.
  intros Hr [H1 H2 H3 H4 H5 H6]. split; try done.
  - intros a Ha Hf. destruct (H5 a Ha Hf) as (bytes & Hb & Hc). exists bytes. split; [|done]. apply Hr; auto.
  - intros a Ha. apply (retains_reaches s); auto.
Qed.

(** What one enqueueing does: the new addresses, each once, in order of first mention. *)
Lemma enqueue_spec (w : BlockSync) cs :
  Z.of_nat (size (bs_visited w)) <= MAX_REACHABLE_BLOCKS ->
  match enqueue_children w cs with
  | (Ok _, w') => exists new, bs_frontier w' = bs_frontier w ++ new /\ NoDup new /\
      (forall c, c ∈ new -> c ∈ cs /\ c ∉ bs_visited w) /\
      bs_visited w' = bs_visited w ∪ list_to_set new /\ (forall c, c ∈ cs -> c ∈ bs_visited w') /\
      size (bs_visited w') = (size (bs_visited w) + length new)%nat /\
      Z.of_nat (size (bs_visited w')) <= MAX_REACHABLE_BLOCKS
  | (Err e, w') => e = TooManyBlocks /\ MAX_REACHABLE_BLOCKS < Z.of_nat (size (bs_visited w')) /\
      forall c, c ∈ bs_visited w' -> c ∈ bs_visited w \/ c ∈ cs
  end.
Proof.
  revert w. induction cs as [|c cs IH]; intros w Hcap; cbn [enqueue_children].
  { exists []. rewrite app_nil_r. split_and!; [done|constructor|set_solver..|by rewrite Nat.add_0_r|done]. }
  case_bool_decide as Hc.
  { specialize (IH w Hcap). destruct (enqueue_children w cs) as [[[]|e] w'].
    - destruct IH as (new & Hf & Hn & Hin & Hv & Hall & Hs & Hm). exists new. split_and!; try done; set_solver.
    - destruct IH as (? & ? & ?). split_and!; [done..|set_solver]. }
  destruct (Z.ltb_spec MAX_REACHABLE_BLOCKS (Z.of_nat (size ({[c]} ∪ bs_visited w)))).
  { split_and!; [done..|cbn; set_solver]. }
  specialize (IH (mkBlockSync (bs_frontier w ++ [c]) ({[c]} ∪ bs_visited w)) ltac:(done)). cbn [bs_frontier bs_visited] in IH.
  destruct (enqueue_children _ cs) as [[[]|e] w']; [|destruct IH as (? & ? & ?); split_and!; [done..|set_solver]].
  destruct IH as (new & Hf & Hn & Hin & Hv & Hall & Hs & Hm). exists (c :: new).
  assert (Hsz : size ({[c]} ∪ bs_visited w) = S (size (bs_visited w))) by (rewrite size_union by set_solver; by rewrite size_singleton).
  split_and!; [by rewrite Hf, <- app_assoc|constructor; [set_solver|done]|set_solver|set_solver|set_solver|cbn; lia|done].
Qed.

(** Passing a front the store holds. *)
Lemma pass_front s w addr rest bytes :
  walking s w -> bs_frontier w = addr :: rest -> read_verified_block s addr = Some bytes ->
  match enqueue_children (mkBlockSync rest (bs_visited w)) (refs bytes) with
  | (Ok _, w') => walking s w' /\ S (advance_fuel w') = advance_fuel w /\ bs_visited w ⊆ bs_visited w' /\
      (forall a, a ∈ bs_visited w -> a ∉ bs_frontier w \/ a = addr -> a ∉ bs_frontier w')
  | (Err e, w') => e = TooManyBlocks /\ MAX_REACHABLE_BLOCKS < Z.of_nat (size (bs_visited w')) /\
      forall a, a ∈ bs_visited w' -> reaches refs s root a
  end.
Proof.
  intros Hw Hf Hb. pose proof (wk_nodup _ _ Hw) as Hnd. rewrite Hf in Hnd. apply NoDup_cons in Hnd as [Hna Hnd].
  assert (Hin : addr ∈ bs_visited w) by (apply (wk_in _ _ Hw); rewrite Hf; constructor).
  assert (Hsub : forall a, a ∈ rest -> a ∈ bs_visited w) by (intros a Ha; apply (wk_in _ _ Hw); rewrite Hf; by right).
  assert (Hch : forall c, c ∈ refs bytes -> reaches refs s root c).
  { intros c Hc. eapply rtc_r; [by apply (wk_reach _ _ Hw)|]. by exists bytes. }
  pose proof (enqueue_spec (mkBlockSync rest (bs_visited w)) (refs bytes) (wk_cap _ _ Hw)) as He. cbn [bs_frontier bs_visited] in He.
  destruct (enqueue_children _ _) as [[[]|e] w'].
  2:{ destruct He as (? & ? & Hv). split_and!; [done..|]. intros a Ha. destruct (Hv a Ha); [by apply (wk_reach _ _ Hw)|auto]. }
  destruct He as (new & Hf' & Hn & Hnew & Hv & Hall & Hs & Hm). pose proof (wk_cap _ _ Hw) as Hcap.
  split_and!.
  - split; rewrite ?Hf', ?Hv.
    + apply NoDup_app. split_and!; [done| |done]. intros a Ha Ha'. destruct (Hnew a Ha'). auto.
    + intros a [Ha|Ha]%elem_of_app; set_solver.
    + rewrite <- Hv. lia.
    + apply elem_of_union_l, (wk_root _ _ Hw).
    + intros a Ha Hna'. apply elem_of_union in Ha as [Ha|Ha]; [|set_solver].
      destruct (decide (a = addr)) as [->|Hne]; [exists bytes; split; [done|]; rewrite <- Hv; exact Hall|].
      destruct (wk_done _ _ Hw a Ha) as (b & Hb' & Hc); [rewrite Hf; set_solver|]. exists b. split; [done|set_solver].
    + intros a Ha. apply elem_of_union in Ha as [Ha|Ha]; [by apply (wk_reach _ _ Hw)|]. apply Hch, Hnew. set_solver.
  - unfold advance_fuel. rewrite Hf, Hf', length_app, Hs. cbn. lia.
  - set_solver.
  - rewrite Hf, Hf'. intros a Ha Hor [Hr|Hr]%elem_of_app; [set_solver|]. destruct (Hnew a Hr). done.
Qed.

Definition front_missing (s : St) (w : BlockSync) : Prop :=
  forall a, head (bs_frontier w) = Some a -> read_verified_block s a = None.

(** Addresses already passed stay passed. *)
Definition passes (w w' : BlockSync) : Prop :=
  bs_visited w ⊆ bs_visited w' /\ forall a, a ∈ bs_visited w -> a ∉ bs_frontier w -> a ∉ bs_frontier w'.

Lemma passes_trans w1 w2 w3 : passes w1 w2 -> passes w2 w3 -> passes w1 w3.
Proof. intros [Ha Hb] [Hc Hd]. split; [set_solver|]. intros a H1 H2. apply Hd; [set_solver|auto]. Qed.

Lemma advance_spec s w :
  walking s w ->
  match advance refs w s with
  | (Ok _, w') => walking s w' /\ front_missing s w' /\ passes w w'
  | (Err e, w') => e = TooManyBlocks /\ MAX_REACHABLE_BLOCKS < Z.of_nat (size (bs_visited w')) /\
      forall a, a ∈ bs_visited w' -> reaches refs s root a
  end.
Proof.
  unfold advance. generalize (le_n (advance_fuel w)). generalize (advance_fuel w) at -1. intros fuel.
  revert w. induction fuel as [|fuel IH]; intros w Hf Hw; cbn [walk_advance].
  - split_and!; [done| |split; auto]. intros a Ha. unfold advance_fuel in Hf. destruct (bs_frontier w); [done|cbn [length] in Hf; lia].
  - destruct (bs_frontier w) as [|addr rest] eqn:Hfr.
    { split_and!; [done| |split; auto]. intros a Ha. by rewrite Hfr in Ha. }
    destruct (read_verified_block s addr) as [bytes|] eqn:Hb.
    2:{ split_and!; [done| |split; auto]. intros a Ha. rewrite Hfr in Ha. by injection Ha as <-. }
    pose proof (pass_front s w addr rest bytes Hw Hfr Hb) as Hp.
    destruct (enqueue_children _ _) as [[[]|e] w1]; [|done]. destruct Hp as (Hw1 & Hm & Hv & Hps).
    specialize (IH w1 ltac:(lia) Hw1). destruct (walk_advance refs fuel w1 s) as [[[]|e] w2]; [|done].
    destruct IH as (? & ? & ?). split_and!; [done..|]. eapply passes_trans; [|done]. split; [done|]. intros a Ha Hna. apply Hps; auto.
Qed.

(** A walk the store may change under: blocks arrive, others are written, and sweeps run
    that take the root of this walk for a live one. *)
Inductive syncing : BlockSync -> St -> Prop :=
| sync_start s : syncing (block_sync_new root) s
| sync_next w s o w' : syncing w s -> next_request refs w s = (Ok o, w') -> syncing w' s
| sync_fed w s addr bytes r w' s' : syncing w s -> no_collision s bytes ->
    on_block refs w addr bytes s = (r, w', s') -> r <> Err TooManyBlocks -> syncing w' s'
| sync_put w s bytes : syncing w s -> no_collision s bytes -> syncing w (put s bytes).2
| sync_swept w s walks roots : syncing w s -> mkDagWalk roots refs ∈ walks -> root ∈ roots -> syncing w (gc s walks).

Lemma put_retains s b : no_collision s b -> retains s (put s b).2.
Proof. intros Hn a bytes _. by apply put_verified. Qed.

Lemma on_block_spec s w addr bytes :
  walking s w -> no_collision s bytes ->
  let '(r, w', s') := on_block refs w addr bytes s in
  match r with
  | Ok Accepted => walking s' w' /\ front_missing s' w' /\ passes w w' /\ head (bs_frontier w) = Some addr /\
      addr ∉ bs_frontier w' /\ s' = (put s bytes).2 /\ block_address bytes = addr
  | Ok NonFrontier => w' = w /\ s' = s /\ head (bs_frontier w) <> Some addr
  | Err TooManyBlocks => s' = (put s bytes).2 /\ MAX_REACHABLE_BLOCKS < Z.of_nat (size (bs_visited w')) /\
      forall a, a ∈ bs_visited w' -> reaches refs s' root a
  | Err (AddressMismatch _ _) => w' = w /\ s' = s /\ block_address bytes <> addr
  end.
Proof.
  intros Hw Hn. unfold on_block. case_bool_decide as Hh; cbn [negb]; [|done].
  destruct (Z.eqb_spec (block_address bytes) addr) as [Ha|Ha]; cbn [negb]; [|done].
  destruct (bs_frontier w) as [|a0 rest] eqn:Hfr; [done|]. injection Hh as ->. cbn [tail].
  pose proof (walking_mono _ _ _ (put_retains s bytes Hn) Hw) as Hw'.
  assert (Hb : read_verified_block (put s bytes).2 addr = Some bytes) by (rewrite <- Ha; apply put_own).
  pose proof (pass_front _ w addr rest bytes Hw' Hfr Hb) as Hp.
  destruct (enqueue_children _ _) as [[[]|e] w1]; [|by destruct Hp as (-> & ? & ?)]. destruct Hp as (Hw1 & _ & Hv & Hps).
  pose proof (advance_spec _ w1 Hw1) as Hadv.
  destruct (advance refs w1 _) as [[[]|e] w2]; [|by destruct Hadv as (-> & ? & ?)]. destruct Hadv as (Hw2 & Hm & Hp2).
  assert (Hin : addr ∈ bs_visited w) by (apply (wk_in _ _ Hw); rewrite Hfr; constructor).
  split_and!; try done.
  - eapply passes_trans; [|done]. split; [done|]. intros a H1 H2. apply Hps; auto.
  - apply Hp2; [set_solver|]. apply Hps; auto.
Qed.

Lemma syncing_walking w s : syncing w s -> walking s w.
Proof.
  induction 1 as [s|w s o w' _ IH Hx|w s addr bytes r w' s' _ IH Hn Hx Hr|w s bytes _ IH Hn|w s walks roots _ IH Hin Hr].
  - apply walking_new.
  - unfold next_request in Hx. pose proof (advance_spec s w IH) as Ha. destruct (advance refs w s) as [[[]|e] w1]; [|done].
    injection Hx as _ <-. by destruct Ha.
  - pose proof (on_block_spec s w addr bytes IH Hn) as Ho. rewrite Hx in Ho.
    destruct r as [[]|[]]; [by destruct Ho|by destruct Ho as (-> & -> & _)..|done].
  - by apply (walking_mono s); [apply put_retains|].
  - apply (walking_mono s); [|done]. intros a b Ha. apply gc_verified. by exists (mkDagWalk roots refs), root.
Qed.

(** Whatever the store goes through, the walk never asks for a block it holds or does
    not need, and when it asks for nothing every block the root reaches is held intact;
    it gives up only on a graph larger than the bound. *)
Theorem block_sync_exact w s (Hs : syncing w s) :
  match next_request refs w s with
  | (Ok None, _) => forall a, reaches refs s root a -> is_Some (read_verified_block s a)
  | (Ok (Some a), _) => reaches refs s root a /\ read_verified_block s a = None
  | (Err e, w') => e = TooManyBlocks /\ MAX_REACHABLE_BLOCKS < Z.of_nat (size (bs_visited w')) /\
      forall a, a ∈ bs_visited w' -> reaches refs s root a
  end.
Proof.
  pose proof (advance_spec s w (syncing_walking _ _ Hs)) as Ha. unfold next_request.
  destruct (advance refs w s) as [[[]|e] w']; [|done]. destruct Ha as (Hw & Hm & _).
  destruct (bs_frontier w') as [|a rest] eqn:Hf; cbn [head].
  - assert (Hall : forall a, reaches refs s root a -> a ∈ bs_visited w').
    { intros a Ha. refine (rtc_ind_r (fun x => x ∈ bs_visited w') root _ _ a Ha); [apply (wk_root _ _ Hw)|]. intros x y Hx Hxy IH.
      destruct (wk_done _ _ Hw x IH) as (b & Hb & Hc); [rewrite Hf; apply not_elem_of_nil|].
      destruct Hxy as (b' & Hb' & Hin). rewrite Hb in Hb'. injection Hb' as <-. auto. }
    intros a Ha. destruct (wk_done _ _ Hw a (Hall a Ha)) as (b & Hb & _); [rewrite Hf; apply not_elem_of_nil|]. by exists b.
  - split; [|apply Hm; by rewrite Hf]. apply (wk_reach _ _ Hw), (wk_in _ _ Hw). rewrite Hf. constructor.
Qed.

End sync.

(** ** A transfer from a donor that holds the graph finishes *)

Section transfer.
Context {St Dn : Type} `{BlockStoreModel St} `{BlockStore Dn}.
Context (refs : list byte -> list BlockAddress) (root : BlockAddress) (d : Dn).

(** Ask for the next missing block, hand the answer back, until nothing is missing. *)
Fixpoint pump (rounds : nat) (w : BlockSync) (s : St) : option St :=
  match rounds with
  | O => None
  | S rounds =>
      match next_request refs w s with
      | (Ok None, _) => Some s
      | (Ok (Some a), w) =>
          bytes ← read_verified_block d a;
          let '(_, w, s) := on_block refs w a bytes s in pump rounds w s
      | (Err _, _) => None
      end
  end.

(** No block here is the second of two with the address of one there. *)
Definition agrees (s : St) : Prop :=
  forall a x y, read_verified_block s a = Some x -> read_verified_block d a = Some y -> x = y.

Context (dag : gset Z).
Hypothesis donor_whole : forall a, reaches refs d root a -> a ∈ dag /\ is_Some (read_verified_block d a).
Hypothesis dag_bounded : Z.of_nat (size dag) <= MAX_REACHABLE_BLOCKS.

Lemma reaches_donor s a : agrees s -> reaches refs s root a -> reaches refs d root a.
Proof.
  intros Hag Ha. refine (rtc_ind_r (reaches refs d root) root _ _ a Ha); [apply rtc_refl|]. intros x y _ Hxy IH.
  eapply rtc_r; [exact IH|]. destruct Hxy as (bytes & Hb & Hin). destruct (donor_whole x IH) as [_ [b' Hb']].
  exists b'. split; [done|]. by rewrite <- (Hag x _ _ Hb Hb').
Qed.

(** Addresses passed so far. *)
Definition passed (w : BlockSync) : gset Z := filter (fun a => a ∉ bs_frontier w) (bs_visited w).

Lemma passed_subset s w : agrees s -> walking refs root s w -> passed w ⊆ dag.
Proof.
  intros Hag Hw a Ha. apply elem_of_filter in Ha as [_ Ha]. by apply donor_whole, (reaches_donor s), (wk_reach _ _ _ _ Hw).
Qed.

Lemma passes_passed w w' : passes w w' -> passed w ⊆ passed w'.
Proof. intros [Hv Hp] a [Hn Ha]%elem_of_filter. apply elem_of_filter. split; [auto|set_solver]. Qed.

(** With an answer from the donor for each request the walk never breaches its bound. *)
Lemma too_many_absurd s (w : BlockSync) :
  agrees s -> MAX_REACHABLE_BLOCKS < Z.of_nat (size (bs_visited w)) ->
  (forall a, a ∈ bs_visited w -> reaches refs s root a) -> False.
Proof.
  intros Hag Hlt Hr. assert (bs_visited w ⊆ dag) as Hsub.
  { intros a Ha. by apply donor_whole, (reaches_donor s), Hr. }
  apply subseteq_size in Hsub. lia.
Qed.

(** A drained walk leaves the donor's graph, block for block. *)
Lemma drained_whole s w a :
  agrees s -> walking refs root s w -> bs_frontier w = [] -> reaches refs d root a ->
  read_verified_block s a = read_verified_block d a.
Proof.
  intros Hag Hw Hf Ha.
  assert (Hvis : a ∈ bs_visited w).
  { refine (rtc_ind_r (fun x => x ∈ bs_visited w) root _ _ a Ha); [apply (wk_root _ _ _ _ Hw)|]. intros x y Hx Hxy IHx.
    destruct (wk_done _ _ _ _ Hw x IHx) as (b & Hb & Hc); [rewrite Hf; apply not_elem_of_nil|].
    destruct Hxy as (b' & Hb' & Hin). apply Hc. by rewrite (Hag x _ _ Hb Hb'). }
  destruct (wk_done _ _ _ _ Hw a Hvis) as (b & Hb & _); [rewrite Hf; apply not_elem_of_nil|].
  destruct (donor_whole a Ha) as [_ [b' Hb']]. by rewrite Hb, Hb', (Hag a _ _ Hb Hb').
Qed.

Lemma agrees_put s bytes a :
  agrees s -> read_verified_block d a = Some bytes -> agrees (put s bytes).2.
Proof.
  intros Hag Hb x b1 b2 Hx1 Hx2. pose proof (proj2 (proj1 (verified_spec d a bytes) Hb)) as Haddr.
  destruct (decide (x = a)) as [->|Hne]; [|apply (Hag x); [|done]].
  - rewrite <- Haddr, put_own in Hx1. congruence.
  - apply verified_spec in Hx1 as [Hx1 ?]. apply verified_spec. split; [|done].
    destruct (put_spec s bytes) as (_ & _ & Hput). rewrite <- Hput; [done|congruence].
Qed.

(** A round that is answered passes one more address. *)
Lemma answered_round s w a bytes :
  agrees s -> walking refs root s w -> head (bs_frontier w) = Some a -> read_verified_block s a = None ->
  read_verified_block d a = Some bytes ->
  exists w', on_block refs w a bytes s = (Ok Accepted, w', (put s bytes).2) /\ walking refs root (put s bytes).2 w' /\ passed w ⊂ passed w'.
Proof.
  intros Hag Hw Hh Hnone Hb. pose proof (proj2 (proj1 (verified_spec d a bytes) Hb)) as Haddr.
  assert (Hnc : no_collision s bytes) by (intros x; rewrite Haddr, Hnone; done).
  pose proof (agrees_put s bytes a Hag Hb) as Hag'.
  pose proof (on_block_spec refs root s w a bytes Hw Hnc) as Ho.
  destruct (on_block refs w a bytes s) as [[r w2] s2]. destruct r as [[]|[]].
  - destruct Ho as (Hw2 & _ & Hp2 & _ & Hna & -> & _). exists w2. split_and!; [done..|].
    assert (Hain : a ∈ bs_frontier w) by (destruct (bs_frontier w); [done|injection Hh as ->; constructor]).
    split; [by apply passes_passed|]. intros Hsub. assert (Ha2 : a ∈ passed w2).
    { apply elem_of_filter. split; [done|]. apply Hp2, (wk_in _ _ _ _ Hw), Hain. }
    by apply Hsub, elem_of_filter in Ha2 as [Hx _].
  - by destruct Ho as (_ & _ & Hne).
  - by destruct Ho as (_ & _ & Hne).
  - destruct Ho as (-> & Hlt & Hr). destruct (too_many_absurd _ w2 Hag' Hlt Hr).
Qed.

Lemma pump_finishes rounds w s :
  agrees s -> walking refs root s w -> (size dag - size (passed w) < rounds)%nat ->
  exists s', pump rounds w s = Some s' /\
    forall a, reaches refs d root a -> read_verified_block s' a = read_verified_block d a.
Proof.
  revert w s. induction rounds as [|rounds IH]; intros w s Hag Hw Hm; [lia|]. cbn [pump].
  unfold next_request. pose proof (advance_spec refs root s w Hw) as Ha.
  destruct (advance refs w s) as [[[]|e] w1]; [|by destruct (too_many_absurd s w1 Hag) as []; destruct Ha as (_ & ? & ?)].
  destruct Ha as (Hw1 & Hmiss & Hp1). destruct (bs_frontier w1) as [|a rest] eqn:Hf; cbn [head].
  { exists s. split; [done|]. intros a Ha. by apply (drained_whole s w1). }
  assert (Hh : head (bs_frontier w1) = Some a) by (by rewrite Hf).
  assert (Hra : reaches refs d root a).
  { apply (reaches_donor s), (wk_reach _ _ _ _ Hw1), (wk_in _ _ _ _ Hw1); [done|rewrite Hf; constructor]. }
  destruct (donor_whole a Hra) as [_ [bytes Hb]]. rewrite Hb. cbn [mbind option_bind].
  destruct (answered_round s w1 a bytes Hag Hw1 Hh (Hmiss a Hh) Hb) as (w2 & -> & Hw2 & Hlt).
  pose proof (agrees_put s bytes a Hag Hb) as Hag'. apply IH; [done..|].
  pose proof (subset_size _ _ Hlt). pose proof (subseteq_size _ _ (passes_passed _ _ Hp1)).
  pose proof (subseteq_size _ _ (passed_subset _ w2 Hag' Hw2)). lia.
Qed.

(** From a donor that holds the whole graph of a root, a transfer into any store ends
    within one round per block of the graph and leaves that graph, block for block. *)
Theorem block_sync_finishes s (Hag : agrees s) :
  exists s', pump (S (size dag)) (block_sync_new root) s = Some s' /\
    forall a, reaches refs d root a -> read_verified_block s' a = read_verified_block d a.
Proof. apply pump_finishes; [done|apply walking_new|lia]. Qed.

End transfer.

Lemma swept_reaches (s : InMemoryBlockStore) walks w r a :
  w ∈ walks -> r ∈ dw_roots w ->
  reaches (dw_references w) (gc s walks) r a <-> reaches (dw_references w) s r a.
Proof.
  intros Hw Hr. assert (Hv : forall x y, reaches (dw_references w) s r x ->
    edge (dw_references w) (gc s walks) x y <-> edge (dw_references w) s x y).
  { intros x y Hx. unfold edge. split; intros (b & Hb & Hin); exists b; (split; [|done]); apply verified_spec in Hb as [Hb Ha]; apply verified_spec.
    - by apply sweep_lookup in Hb as [? _].
    - split; [|done]. apply sweep_lookup. split; [done|]. by exists w, r. }
  split.
  - intros Ha. refine (rtc_ind_r (reaches (dw_references w) s r) r _ _ a Ha); [apply rtc_refl|].
    intros x y _ Hxy IH. eapply rtc_r; [exact IH|]. by apply Hv.
  - intros Ha. enough (reaches (dw_references w) s r a /\ reaches (dw_references w) (gc s walks) r a) by tauto.
    refine (rtc_ind_r (fun a => reaches (dw_references w) s r a /\ reaches (dw_references w) (gc s walks) r a) r _ _ a Ha).
    { split; apply rtc_refl. }
    intros x y _ Hxy [IH1 IH2]. split; eapply rtc_r; [exact IH1|done|exact IH2|by apply Hv].
Qed.

(** The sweep of the in-memory store keeps exactly the blocks some live root reaches by
    the resolver of its own graph, as they are: each live graph is the same after it, a
    corrupt block included, and a second sweep frees nothing. *)
Theorem sweep_exact (s : InMemoryBlockStore) walks :
  (forall a b, read_block (gc s walks) a = Some b <-> read_block s a = Some b /\ marked s walks a) /\
  (forall w r a, w ∈ walks -> r ∈ dw_roots w ->
     reaches (dw_references w) (gc s walks) r a <-> reaches (dw_references w) s r a) /\
  gc (gc s walks) walks = gc s walks.
Proof.
  split; [intros; apply sweep_lookup|]. split; [intros; by apply swept_reaches|].
  assert (Hb : im_blocks (gc (gc s walks) walks) = im_blocks (gc s walks)); [|by cbn in *; unfold im_gc in *; cbn in *; f_equal].
  apply map_eq. intros a. apply option_eq. intros b.
  change (read_block (gc (gc s walks) walks) a = Some b <-> read_block (gc s walks) a = Some b).
  rewrite (sweep_lookup (gc s walks) walks a b).
  split; [tauto|]. intros Ha. split; [done|]. apply sweep_lookup in Ha as [_ (w & r & Hw & Hr & Hre)].
  exists w, r. split_and!; [done..|]. by apply swept_reaches.
Qed.

Lemma agrees_empty {Dn : Type} `{BlockStore Dn} (d : Dn) faults : agrees d (mkInMemory ∅ faults).
Proof. intros a x y Hx. apply verified_spec in Hx as [Hx _]. cbn in Hx. by rewrite lookup_empty in Hx. Qed.

(** ** A two-block graph *)

Module BlocksDemo.

(** A block of sixteen bytes names one child. *)
Definition demo_refs (b : list byte) : list BlockAddress :=
  if (length b =? 16)%nat then [from_be_bytes b] else [].
Definition leaf : list byte := [x61; x62].
Definition top : list byte := be_bytes 16 (block_address leaf).
Definition demo_root : BlockAddress := block_address top.
Definition empty : InMemoryBlockStore := mkInMemory ∅ 0.
Definition donor : InMemoryBlockStore := (put (put empty leaf).2 top).2.
Definition stray : InMemoryBlockStore := (put donor [x7a]).2.

Lemma stray_swept : gc stray [mkDagWalk [demo_root] demo_refs] = donor.
Proof. by vm_compute. Qed.

Lemma block_sync_exact_witness :
  syncing demo_refs demo_root (block_sync_new demo_root) empty /\
  reaches demo_refs empty demo_root demo_root /\ read_verified_block empty demo_root = None.
Proof.
  assert (Hs : syncing demo_refs demo_root (block_sync_new demo_root) empty) by constructor. split; [exact Hs|].
  pose proof (block_sync_exact demo_refs demo_root (block_sync_new demo_root) empty Hs) as Hx.
  assert (He : (next_request demo_refs (block_sync_new demo_root) empty).1 = Ok (Some demo_root)) by (vm_compute; reflexivity).
  destruct (next_request demo_refs (block_sync_new demo_root) empty) as [r w]. cbn in He. subst r. exact Hx.
Defined.

Lemma donor_edges a b : edge demo_refs donor a b -> a = demo_root /\ b = block_address leaf.
Proof.
  intros (bytes & Hb & Hin). apply verified_spec in Hb as [Hb Ha]. cbn in Hb.
  apply lookup_insert_Some in Hb as [[<- <-]|[_ Hb]].
  - split; [done|]. assert (demo_refs top = [block_address leaf]) as Hr by (vm_compute; reflexivity). rewrite Hr in Hin. by apply list_elem_of_singleton in Hin.
  - apply lookup_insert_Some in Hb as [[<- <-]|[_ Hb]]; [|done]. exfalso.
    assert (demo_refs leaf = []) as Hr by (vm_compute; reflexivity). rewrite Hr in Hin. by apply elem_of_nil in Hin.
Qed.

Lemma donor_reaches a : reaches demo_refs donor demo_root a -> a = demo_root \/ a = block_address leaf.
Proof. intros Ha. apply rtc_inv_r in Ha as [->|(x & _ & Hx)]; [by left|right]. by apply donor_edges in Hx as [_ ->]. Qed.

Definition demo_dag : gset Z := {[demo_root; block_address leaf]}.

Lemma demo_donor_whole a : reaches demo_refs donor demo_root a -> a ∈ demo_dag /\ is_Some (read_verified_block donor a).
Proof.
  intros [->| ->]%donor_reaches; split.
  1,3: unfold demo_dag; rewrite elem_of_union, !elem_of_singleton; auto.
  all: vm_compute; by eexists.
Qed.

Lemma block_sync_finishes_witness :
  exists s', pump demo_refs donor 3 (block_sync_new demo_root) empty = Some s' /\
    read_verified_block s' demo_root = Some top.
Proof.
  pose proof (agrees_empty donor 0) as Ha.
  assert (Hd : Z.of_nat (size demo_dag) <= MAX_REACHABLE_BLOCKS) by (vm_compute; congruence).
  pose proof (@block_sync_finishes InMemoryBlockStore InMemoryBlockStore _ _ _ demo_refs demo_root donor demo_dag demo_donor_whole Hd empty Ha) as Hx.
  assert (Hsz : S (size demo_dag) = 3%nat) by (vm_compute; reflexivity). rewrite Hsz in Hx. destruct Hx as (s' & Hp & Hr).
  exists s'. split; [exact Hp|]. rewrite (Hr demo_root (rtc_refl _ _)). vm_compute. reflexivity.
Defined.

End BlocksDemo.
