(* ===== verification/SessionBlocks.v ===== *)
(** * The client-session table as a graph of blocks

    [viewstamp-proto/src/endpoint/session_blocks/mod.rs] and the checkpoint envelope of
    [endpoint/mod.rs]: records packed greedily into leaf blocks, a reply that does not fit
    a leaf split into body chunks, index blocks stacked until one root remains, the
    resolver of their references and the verified decode.

    The decoder's cursor over a payload is the unread rest of it.  A loop whose rounds
    the source bounds by a count read from the block carries the length of the unread
    bytes as fuel: every round consumes some, or the block is truncated. *)

From stdpp Require Import sorting.
From S2P Require Import Prelude Core Hash Membership Codec Message Messages BTree ViewChange Sessions Blocks.

Definition SESSION_BLOCK_BUDGET : Z := Z.shiftl 1 20.

(** ["vSeS"] *)
Definition MAGIC : list byte := [x76; x53; x65; x53].
Definition HEADER_LEN : Z := zlen MAGIC + 1.
Definition TAG_LEAF : Z := 0.
Definition TAG_BODY : Z := 1.
Definition TAG_INDEX : Z := 2.

Definition block_kind (block : list byte) : option Z :=
  if bool_decide (take (length MAGIC) block = MAGIC) then u8_of_byte <$> block !! length MAGIC else None.

Definition block_payload (block : list byte) : list byte := drop (Z.to_nat HEADER_LEN) block.

(** [MAGIC || tag || payload] *)
Definition session_block (tag : Z) (payload : list byte) : list byte := MAGIC ++ [byte_of_u8 tag] ++ payload.

(** ** The decoder *)

Abbreviation Decoder := (list byte) (only parsing).

Definition d_take (n : Z) (d : Decoder) : option (list byte * Decoder) :=
  if n <=? zlen d then Some (take (Z.to_nat n) d, drop (Z.to_nat n) d) else None.

Definition d_uint (n : nat) (d : Decoder) : option (Z * Decoder) :=
  '(bs, d) ← d_take (Z.of_nat n) d; Some (from_be_bytes bs, d).
Definition d_u32 : Decoder -> option (Z * Decoder) := d_uint 4.
Definition d_u64 : Decoder -> option (Z * Decoder) := d_uint 8.
Definition d_u128 : Decoder -> option (Z * Decoder) := d_uint 16.
Definition d_addr : Decoder -> option (BlockAddress * Decoder) := d_uint 16.
(** [*self.take(1)?.first()?] *)
Definition d_kind : Decoder -> option (Z * Decoder) := d_uint 1.

(** [for _ in 0..count { out.push(self.addr()?) }]; what was pushed before a truncation
    stays pushed. *)
Fixpoint collect_addrs (fuel : nat) (count : Z) (d : Decoder) (out : list BlockAddress)
    : option Decoder * list BlockAddress :=
  if count <=? 0 then (Some d, out)
  else
    match fuel, d_addr d with
    | S fuel, Some (a, d) => collect_addrs fuel (count - 1) d (out ++ [a])
    | _, _ => (None, out)
    end.

Definition skip_record_collecting_body_refs (d : Decoder) (out : list BlockAddress)
    : option Decoder * list BlockAddress :=
  match '(_, d) ← d_u128 d; '(_, d) ← d_u64 d; '(_, d) ← d_u64 d; d_kind d with
  | None => (None, out)
  | Some (kind, d) =>
      if kind =? 0 then (Some d, out)
      else if kind =? 1 then
        ('(_, d) ← d_u64 d; '(len, d) ← d_u32 d; '(_, d) ← d_take len d; Some d, out)
      else if kind =? 2 then
        match '(_, d) ← d_u64 d; d_u32 d with
        | None => (None, out)
        | Some (count, d) => collect_addrs (length d) count d out
        end
      else (None, out)
  end.

(** ** References *)

Fixpoint split_addrs (count : nat) (bs : list byte) : list BlockAddress :=
  match count with
  | O => []
  | S k => from_be_bytes (take 16 bs) :: split_addrs k (drop 16 bs)
  end.

Definition index_children (block : list byte) : list BlockAddress :=
  if negb (bool_decide (block_kind block = Some TAG_INDEX)) then []
  else if zlen block <? HEADER_LEN + 4 then []
  else
    let count := from_be_bytes (take 4 (block_payload block)) in
    let remaining := zlen block - (HEADER_LEN + 4) in
    if remaining <? count * 16 then []
    else split_addrs (Z.to_nat count) (drop 4 (block_payload block)).

Fixpoint collect_body_refs (fuel : nat) (d : Decoder) (out : list BlockAddress) : list BlockAddress :=
  match fuel, d with
  | O, _ | _, [] => out
  | S fuel, _ =>
      match skip_record_collecting_body_refs d out with
      | (Some d, out) => collect_body_refs fuel d out
      | (None, out) => out
      end
  end.

Definition leaf_body_refs (block : list byte) : list BlockAddress :=
  if negb (bool_decide (block_kind block = Some TAG_LEAF)) then []
  else collect_body_refs (length (block_payload block)) (block_payload block) [].

Definition session_block_references (block : list byte) : list BlockAddress :=
  match block_kind block with
  | Some tag =>
      if tag =? TAG_INDEX then index_children block
      else if tag =? TAG_LEAF then leaf_body_refs block
      else []
  | None => []
  end.

(** ** Encode *)

(** The bytes [push_record] appends. *)
Definition push_record (client : ClientId) (session : Session) (reply_external : list BlockAddress) : list byte :=
  be_bytes 16 client ++ be_bytes 8 (ss_request session) ++ be_bytes 8 (ss_last_op session) ++
  match ss_reply session with
  | None => [byte_of_u8 0]
  | Some (rn, body) =>
      match reply_external with
      | [] => [byte_of_u8 1] ++ be_bytes 8 rn ++ be_bytes 4 (wrap 32 (zlen body)) ++ body
      | _ => [byte_of_u8 2] ++ be_bytes 8 rn ++ be_bytes 4 (wrap 32 (zlen reply_external)) ++
          concat (map (be_bytes 16) reply_external)
      end
  end.

Definition encode_record (client : ClientId) (session : Session) (reply_external : list BlockAddress) : list byte :=
  [] ++ push_record client session reply_external.

Definition BODY_CHUNK_PAYLOAD : Z := SESSION_BLOCK_BUDGET - HEADER_LEN.
Definition INDEX_FANOUT : Z := (SESSION_BLOCK_BUDGET - HEADER_LEN - 4) / 16.
Definition leaf_budget : Z := SESSION_BLOCK_BUDGET - HEADER_LEN.

(** [slice::chunks]: runs of [n], the last one shorter. *)
Fixpoint chunks_go {A} (fuel : nat) (n : nat) (l : list A) : list (list A) :=
  match fuel, l with
  | O, _ | _, [] => []
  | S fuel, _ => take n l :: chunks_go fuel n (drop n l)
  end.
Definition chunks {A} (n : Z) (l : list A) : list (list A) := chunks_go (length l) (Z.to_nat n) l.

(** A [BTreeMap] is iterated in the order of its keys. *)
Definition key_le (x y : Z * Session) : Prop := x.1 <= y.1.
#[export] Instance key_le_dec x y : Decision (key_le x y) := Z_le_dec x.1 y.1.
Definition rows (t : Table) : list (Z * Session) := merge_sort key_le (map_to_list t).

Section encode.
Context {St : Type} `{BlockStore St}.

Definition write_body_chunks (body : list byte) (s : St) : list BlockAddress * St :=
  foldl (fun '(out, s) chunk => let '(a, s) := put s (session_block TAG_BODY chunk) in (out ++ [a], s))
    ([], s) (chunks BODY_CHUNK_PAYLOAD body).

(** The leaf being filled and the addresses of the full ones. *)
Definition flush_leaf (leaf : list byte) (leaves : list BlockAddress) (s : St)
    : list byte * list BlockAddress * St :=
  if zlen leaf =? 0 then (leaf, leaves, s)
  else let '(a, s) := put s (session_block TAG_LEAF leaf) in ([], leaves ++ [a], s).

Definition pack_row (st : list byte * list BlockAddress * St) (kv : Z * Session)
    : list byte * list BlockAddress * St :=
  let '(leaf, leaves, s) := st in
  let '(client, session) := kv in
  let inline := encode_record client session [] in
  let '(record, s) :=
    if zlen inline <=? leaf_budget then (inline, s)
    else
      let body := match ss_reply session with Some (_, b) => b | None => [] end in
      let '(chunks, s) := write_body_chunks body s in
      (encode_record client session chunks, s) in
  let '(leaf, leaves, s) :=
    if negb (zlen leaf =? 0) && (leaf_budget <? zlen leaf + zlen record)
    then flush_leaf leaf leaves s else (leaf, leaves, s) in
  (leaf ++ record, leaves, s).

Definition write_index (children : list BlockAddress) (s : St) : BlockAddress * St :=
  put s (session_block TAG_INDEX
    (be_bytes 4 (wrap 32 (zlen children)) ++ concat (map (be_bytes 16) children))).

Definition write_level (level : list BlockAddress) (s : St) : list BlockAddress * St :=
  foldl (fun '(next, s) chunk => let '(a, s) := write_index chunk s in (next ++ [a], s))
    ([], s) (chunks INDEX_FANOUT level).

(** A level of several blocks is shorter than the one below. *)
Fixpoint build_index_loop (fuel : nat) (level : list BlockAddress) (s : St) : BlockAddress * St :=
  if zlen level <=? INDEX_FANOUT then write_index level s
  else
    match fuel with
    | O => write_index level s
    | S fuel => let '(next, s) := write_level level s in build_index_loop fuel next s
    end.

Definition build_index_tree (leaves : list BlockAddress) (s : St) : BlockAddress * St :=
  build_index_loop (length leaves) leaves s.

Definition encode_sessions (sessions : Table) (s : St) : BlockAddress * St :=
  let '(leaf, leaves, s) := foldl pack_row ([], [], s) (rows sessions) in
  let '(_, leaves, s) := flush_leaf leaf leaves s in
  build_index_tree leaves s.

(** ** Decode *)

(** The chunks of an external reply, in order; the count is read from the record. *)
Fixpoint read_chunks (fuel : nat) (count : Z) (d : Decoder) (s : St) (body : list byte)
    : option (list byte * Decoder) :=
  if count <=? 0 then Some (body, d)
  else
    match fuel with
    | O => None
    | S fuel =>
        '(a, d) ← d_addr d;
        chunk ← read_verified_block s a;
        if negb (bool_decide (block_kind chunk = Some TAG_BODY)) then None
        else read_chunks fuel (count - 1) d s (body ++ block_payload chunk)
    end.

Definition decode_record (d : Decoder) (s : St) : option (Z * Session * Decoder) :=
  '(client, d) ← d_u128 d;
  '(request, d) ← d_u64 d;
  '(last_op, d) ← d_u64 d;
  '(kind, d) ← d_kind d;
  if kind =? 0 then Some (client, mkSession request None last_op, d)
  else if kind =? 1 then
    '(rn, d) ← d_u64 d;
    '(len, d) ← d_u32 d;
    '(body, d) ← d_take len d;
    Some (client, mkSession request (Some (rn, body)) last_op, d)
  else if kind =? 2 then
    '(rn, d) ← d_u64 d;
    '(count, d) ← d_u32 d;
    '(body, d) ← read_chunks (length d) count d s [];
    Some (client, mkSession request (Some (rn, body)) last_op, d)
  else None.

Fixpoint decode_records (fuel : nat) (d : Decoder) (s : St) (sessions : Table) : option Table :=
  match d, fuel with
  | [], _ => Some sessions
  | _, O => None
  | _, S fuel =>
      '(client, session, d) ← decode_record d s;
      decode_records fuel d s (<[client := session]> sessions)
  end.

Definition decode_leaf (leaf_addr : BlockAddress) (s : St) (sessions : Table) : option Table :=
  block ← read_verified_block s leaf_addr;
  if negb (bool_decide (block_kind block = Some TAG_LEAF)) then None
  else decode_records (length (block_payload block)) (block_payload block) s sessions.

Fixpoint decode_leaves (ordered : list BlockAddress) (s : St) (sessions : Table) : option Table :=
  match ordered with
  | [] => Some sessions
  | a :: ordered => sessions ← decode_leaf a s sessions; decode_leaves ordered s sessions
  end.

(** [if !visited.insert(addr) { continue }] *)
Fixpoint skip_visited (visited : gset Z) (stack : list BlockAddress) : list BlockAddress :=
  match stack with
  | a :: rest => if bool_decide (a ∈ visited) then skip_visited visited rest else stack
  | [] => []
  end.

(** The top of the stack is the head; the rounds that visit a new address are counted. *)
Fixpoint ordered_leaves_loop (fuel : nat) (visited : gset Z) (stack out : list BlockAddress) (s : St)
    : option (list BlockAddress) :=
  match skip_visited visited stack, fuel with
  | [], _ => Some out
  | _, O => None
  | addr :: stack, S fuel =>
      let visited := {[addr]} ∪ visited in
      if MAX_REACHABLE_BLOCKS <? Z.of_nat (size visited) then None
      else
        block ← read_verified_block s addr;
        match block_kind block with
        | Some tag =>
            if tag =? TAG_INDEX then ordered_leaves_loop fuel visited (index_children block ++ stack) out s
            else if tag =? TAG_LEAF then ordered_leaves_loop fuel visited stack (out ++ [addr]) s
            else None
        | None => None
        end
  end.

(** One visit past the cap is refused, so the cap bounds the rounds. *)
Definition ordered_leaves (root : BlockAddress) (s : St) : option (list BlockAddress) :=
  ordered_leaves_loop (S (Z.to_nat MAX_REACHABLE_BLOCKS)) ∅ [root] [] s.

Definition decode_sessions (root : BlockAddress) (s : St) : option Table :=
  ordered ← ordered_leaves root s; decode_leaves ordered s ∅.

End encode.

(** ** The checkpoint envelope *)

Definition encode_checkpoint (op : OpNumber) (sm_root sessions_root : BlockAddress) : list byte :=
  be_bytes 8 op ++ be_bytes 16 sm_root ++ be_bytes 16 sessions_root.

(** [env.get(from..from + n)?] *)
Definition env_get (env : list byte) (from n : nat) : option (list byte) :=
  if (from + n <=? length env)%nat then Some (take n (drop from env)) else None.

Definition decode_checkpoint (env : list byte) : option (OpNumber * BlockAddress * BlockAddress) :=
  op ← env_get env 0 8;
  sm ← env_get env 8 16;
  sessions ← env_get env 24 16;
  Some (from_be_bytes op, from_be_bytes sm, from_be_bytes sessions).

(** ** Reading back what was written *)

Lemma block_kind_session tag p : 0 <= tag < 256 -> block_kind (session_block tag p) = Some tag.
Proof.
  intros Ht. unfold block_kind, session_block. rewrite take_app_length, bool_decide_true by done.
  rewrite lookup_app_r, Nat.sub_diag by lia. cbn. by rewrite u8_of_byte_of_u8, Z.mod_small.
Qed.

Lemma block_payload_session tag p : block_payload (session_block tag p) = p.
Proof. done. Qed.

Lemma zlen_session_block tag p : zlen (session_block tag p) = HEADER_LEN + zlen p.
Proof. unfold session_block, HEADER_LEN. cbn [length app MAGIC]. lia. Qed.

Lemma d_take_app n bs rest : zlen bs = n -> d_take n (bs ++ rest) = Some (bs, rest).
Proof.
  intros <-. unfold d_take. rewrite length_app, (proj2 (Z.leb_le _ _)), Nat2Z.id by lia.
  by rewrite take_app_length, drop_app_length.
Qed.

Lemma d_uint_app n z rest : 0 <= z < 256 ^ Z.of_nat n -> d_uint n (be_bytes n z ++ rest) = Some (z, rest).
Proof. intros Hz. unfold d_uint. rewrite d_take_app; [|by rewrite length_be_bytes]. cbn. by rewrite be_bytes_roundtrip. Qed.

Lemma d_u64_app z rest : fits 64 z -> d_u64 (be_bytes 8 z ++ rest) = Some (z, rest).
Proof. apply (d_uint_app 8). Qed.
Lemma d_u32_app z rest : fits 32 z -> d_u32 (be_bytes 4 z ++ rest) = Some (z, rest).
Proof. apply (d_uint_app 4). Qed.
Lemma d_u128_app z rest : fits 128 z -> d_u128 (be_bytes 16 z ++ rest) = Some (z, rest).
Proof. apply (d_uint_app 16). Qed.
Lemma d_kind_app z rest : fits 8 z -> d_kind (byte_of_u8 z :: rest) = Some (z, rest).
Proof. intros Hz. unfold d_kind. pose proof (d_uint_app 1 z rest Hz) as Hd. unfold be_bytes in Hd. cbn in Hd. by rewrite Z.div_1_r in Hd. Qed.

Lemma zlen_addrs (l : list Z) : zlen (concat (map (be_bytes 16) l)) = 16 * zlen l.
Proof. induction l as [|a l IH]; [done|]. cbn [map concat]. rewrite length_app, length_be_bytes. cbn [length]. lia. Qed.

Lemma split_addrs_app l rest :
  Forall (fits 128) l -> split_addrs (length l) (concat (map (be_bytes 16) l) ++ rest) = l.
Proof.
  induction 1 as [|a l Ha Hl IH]; [done|]. cbn [map concat length split_addrs]. rewrite <- app_assoc.
  rewrite take_app_length', drop_app_length' by (by rewrite length_be_bytes).
  by rewrite IH, be_bytes_roundtrip.
Qed.

Lemma collect_addrs_app fuel l rest out :
  Forall (fits 128) l -> (length l <= fuel)%nat ->
  collect_addrs fuel (zlen l) (concat (map (be_bytes 16) l) ++ rest) out = (Some rest, out ++ l).
Proof.
  intros Hl. revert fuel out. induction Hl as [|a l Ha Hl IH]; intros fuel out Hf; destruct fuel as [|fuel]; cbn [length] in Hf; [by rewrite app_nil_r|by rewrite app_nil_r|lia|].
  cbn [collect_addrs length map concat]. rewrite (proj2 (Z.leb_gt _ _)) by lia. rewrite <- app_assoc. unfold d_addr.
  rewrite (d_uint_app 16) by done.
  replace (Z.of_nat (S (length l)) - 1) with (zlen l) by lia. rewrite IH by lia. by rewrite <- app_assoc.
Qed.

(** A table a replica can hold; a reply longer than the chunk count of a record can name
    has no encoding. *)
Definition session_fits (c : Z) (s : Session) : Prop :=
  fits 128 c /\ fits 64 (ss_request s) /\ fits 64 (ss_last_op s) /\
  match ss_reply s with Some (rn, body) => fits 64 rn /\ zlen body < 2 ^ 51 | None => True end.

(** What a record names outside its leaf. *)
Definition record_refs (s : Session) (ext : list BlockAddress) : list BlockAddress :=
  match ss_reply s with Some _ => ext | None => [] end.

(** The form of reply fits its length field. *)
Definition record_fits (s : Session) (ext : list BlockAddress) : Prop :=
  match ss_reply s with
  | Some (_, body) => match ext with [] => zlen body < 2 ^ 32 | _ => zlen ext < 2 ^ 32 end
  | None => True
  end /\ Forall (fits 128) ext.

Lemma wrap_zlen {A} (l : list A) : zlen l < 2 ^ 32 -> wrap 32 (zlen l) = zlen l /\ fits 32 (zlen l).
Proof. intros Hl. unfold wrap, fits. rewrite Z.mod_small; lia. Qed.

Lemma skip_record_app c s ext rest out :
  session_fits c s -> record_fits s ext ->
  skip_record_collecting_body_refs (push_record c s ext ++ rest) out = (Some rest, out ++ record_refs s ext).
Proof.
  intros (Hc & Hq & Ho & Hr) [Hl Ha]. unfold skip_record_collecting_body_refs, push_record, record_refs.
  rewrite <- !app_assoc, d_u128_app by done. cbn [mbind option_bind]. rewrite d_u64_app by done. cbn [mbind option_bind].
  rewrite d_u64_app by done. cbn [mbind option_bind].
  destruct (ss_reply s) as [[rn body]|]; [destruct Hr as [Hr _]; destruct ext as [|a ext]|].
  - destruct (wrap_zlen body Hl) as [-> Hf]. rewrite <- app_assoc. cbn [app]. rewrite d_kind_app by done. cbn [Z.eqb Pos.eqb].
    rewrite <- app_assoc, d_u64_app by done. cbn [mbind option_bind]. rewrite <- app_assoc, d_u32_app by done. cbn [mbind option_bind].
    rewrite d_take_app by done. cbn. by rewrite app_nil_r.
  - destruct (wrap_zlen (a :: ext) Hl) as [-> Hf]. rewrite <- app_assoc. cbn [app]. rewrite d_kind_app by done. cbn [Z.eqb Pos.eqb].
    rewrite <- app_assoc, d_u64_app by done. cbn [mbind option_bind]. rewrite <- app_assoc, d_u32_app by done.
    apply collect_addrs_app; [done|]. rewrite length_app. pose proof (zlen_addrs (a :: ext)). lia.
  - cbn [app]. rewrite d_kind_app by done. cbn. by rewrite app_nil_r.
Qed.

Lemma push_record_nonempty c s ext rest : exists b l, push_record c s ext ++ rest = b :: l /\ (length rest <= length l)%nat.
Proof.
  unfold push_record. destruct (be_bytes 16 c) as [|b l] eqn:Hb; [by apply (f_equal length) in Hb; rewrite length_be_bytes in Hb|].
  eexists b, _. split; [done|]. rewrite !length_app. lia.
Qed.

(** ** The chunks of a list *)

Lemma chunks_go_spec {A} fuel n (l : list A) :
  (0 < n)%nat -> (length l <= fuel)%nat ->
  concat (chunks_go fuel n l) = l /\ Forall (fun c => c <> [] /\ (length c <= n)%nat) (chunks_go fuel n l).
Proof.
  intros Hn. revert l. induction fuel as [|fuel IH]; intros l Hf; destruct l as [|x l]; cbn [length] in Hf; [done|lia|done|].
  cbn [chunks_go concat]. destruct (IH (drop n (x :: l))) as [Hc Ha]; [rewrite length_drop; cbn [length]; lia|].
  rewrite Hc, take_drop. split; [done|]. constructor; [|done]. split; [|rewrite length_take; lia].
  destruct n; [lia|done].
Qed.

Lemma chunks_spec {A} n (l : list A) :
  0 < n -> concat (chunks n l) = l /\ Forall (fun c => c <> [] /\ zlen c <= n) (chunks n l).
Proof.
  intros Hn. unfold chunks. destruct (chunks_go_spec (length l) (Z.to_nat n) l) as [Hc Ha]; [lia..|]. split; [done|].
  eapply Forall_impl; [exact Ha|]. cbn. intros c [? ?]. split; [done|lia].
Qed.

(** Every chunk but the last is full. *)
Lemma chunks_go_count {A} fuel n (l : list A) :
  (length l <= fuel)%nat -> (0 < n)%nat -> (n * length (chunks_go fuel n l) < length l + n)%nat.
Proof.
  intros Hf Hn. revert l Hf. induction fuel as [|fuel IH]; intros l Hf; destruct l as [|x l]; cbn [chunks_go length] in *; [lia..|].
  specialize (IH (drop n (x :: l))). rewrite length_drop in IH. cbn [length] in IH. specialize (IH ltac:(lia)).
  destruct (Nat.le_gt_cases n (S (length l))); [lia|].
  rewrite (drop_ge (x :: l)) by (cbn [length]; lia). replace (chunks_go fuel n []) with (@nil (list A)) by (by destruct fuel). cbn [length]. lia.
Qed.

Lemma chunks_count {A} n (l : list A) : 0 < n -> n * zlen (chunks n l) < zlen l + n.
Proof. intros Hn. pose proof (chunks_go_count (length l) (Z.to_nat n) l (le_n _) ltac:(lia)). unfold chunks. nia. Qed.

(** ** The rows of a leaf *)

Definition chunk_block (chunk : list byte) : list byte := session_block TAG_BODY chunk.

Lemma kind_chunk c : block_kind (chunk_block c) = Some TAG_BODY.
Proof. by apply block_kind_session. Qed.

(** The body chunks a row is written with: none while it fits a leaf of its own. *)
Definition row_chunks (kv : Z * Session) : list (list byte) :=
  if zlen (encode_record kv.1 kv.2 []) <=? leaf_budget then []
  else chunks BODY_CHUNK_PAYLOAD (match ss_reply kv.2 with Some (_, b) => b | None => [] end).

Definition row_ext (kv : Z * Session) : list BlockAddress := map (block_address ∘ chunk_block) (row_chunks kv).
Definition row_record (kv : Z * Session) : list byte := push_record kv.1 kv.2 (row_ext kv).

Lemma zlen_push_record c s ext :
  zlen (push_record c s ext) = 33 + match ss_reply s with
    | None => 0 | Some (_, body) => 12 + match ext with [] => zlen body | _ => 16 * zlen ext end end.
Proof.
  unfold push_record. rewrite !length_app, !length_be_bytes. destruct (ss_reply s) as [[rn body]|]; [|cbn; lia].
  destruct ext as [|a ext].
  - rewrite !length_app, !length_be_bytes. cbn [length]. lia.
  - rewrite !length_app, !length_be_bytes. pose proof (zlen_addrs (a :: ext)). cbn [length] in *. lia.
Qed.

(** The two forms of a row. *)
Lemma row_chunks_cases kv :
  (row_chunks kv = [] /\ zlen (push_record kv.1 kv.2 []) <= leaf_budget) \/
  exists rn body, ss_reply kv.2 = Some (rn, body) /\ row_chunks kv = chunks BODY_CHUNK_PAYLOAD body /\
    concat (row_chunks kv) = body /\ row_chunks kv <> [] /\
    Forall (fun c => c <> [] /\ zlen c <= BODY_CHUNK_PAYLOAD) (row_chunks kv).
Proof.
  unfold row_chunks, encode_record. cbn [app]. destruct (Z.leb_spec (zlen (push_record kv.1 kv.2 [])) leaf_budget) as [Hb|Hb]; [by left|right].
  rewrite zlen_push_record in Hb. destruct (ss_reply kv.2) as [[rn body]|]; [|by vm_compute in Hb].
  destruct (chunks_spec BODY_CHUNK_PAYLOAD body) as [Hc Ha]; [done|]. exists rn, body. split_and!; [done..| |done].
  intros Hn. rewrite Hn in Hc. cbn in Hc. subst body. by vm_compute in Hb.
Qed.

Lemma block_address_fits b : fits 128 (block_address b).
Proof. apply fnv1a_128_fits. Qed.

Lemma row_ext_fits kv : Forall (fits 128) (row_ext kv).
Proof. apply Forall_map, Forall_forall. intros c _. apply block_address_fits. Qed.

Lemma row_record_fits kv : session_fits kv.1 kv.2 -> record_fits kv.2 (row_ext kv).
Proof.
  intros (_ & _ & _ & Hr). split; [|apply row_ext_fits]. unfold row_ext.
  destruct (row_chunks_cases kv) as [[-> Hb]|(rn & body & Hrep & Hc & _ & Hne & _)].
  - rewrite zlen_push_record in Hb. destruct (ss_reply kv.2) as [[rn body]|]; [|done]. cbn [map].
    assert (leaf_budget < 2 ^ 32) by done. lia.
  - rewrite Hrep in *. destruct Hr as [_ Hr]. pose proof (chunks_count BODY_CHUNK_PAYLOAD body ltac:(done)) as Hn. rewrite <- Hc in Hn.
    destruct (row_chunks kv) as [|ch chs]; [done|]. cbn [map]. rewrite <- map_cons, length_map.
    assert (BODY_CHUNK_PAYLOAD = 1048571) as E by done. rewrite E in Hn. lia.
Qed.

Lemma row_refs kv : record_refs kv.2 (row_ext kv) = row_ext kv.
Proof.
  unfold record_refs, row_ext. destruct (row_chunks_cases kv) as [[-> _]|(rn & body & -> & _)]; [|done]. by destruct (ss_reply _).
Qed.

Section rows.
Context {St : Type} `{BlockStore St}.

Definition holds (s : St) (b : list byte) : Prop := read_verified_block s (block_address b) = Some b.

Lemma read_chunks_app fuel chs rest s body :
  (forall c, c ∈ chs -> holds s (chunk_block c)) -> (length chs <= fuel)%nat ->
  read_chunks fuel (zlen chs) (concat (map (be_bytes 16) (map (block_address ∘ chunk_block) chs)) ++ rest) s body =
  Some (body ++ concat chs, rest).
Proof.
  revert fuel body. induction chs as [|c chs IH]; intros fuel body Hc Hf; destruct fuel as [|fuel]; cbn [length] in Hf; [by rewrite app_nil_r|by rewrite app_nil_r|lia|].
  cbn [read_chunks length map concat]. rewrite (proj2 (Z.leb_gt _ _)) by lia. rewrite <- app_assoc. unfold d_addr.
  rewrite (d_uint_app 16) by apply block_address_fits. cbn [mbind option_bind].
  unfold compose at 1. rewrite (Hc c) by constructor. cbn [mbind option_bind].
  rewrite kind_chunk, bool_decide_true by done. cbn [negb].
  replace (Z.of_nat (S (length chs)) - 1) with (zlen chs) by lia. rewrite IH by (lia || (intros; apply Hc; by constructor)).
  change (block_payload (chunk_block c)) with c. by rewrite <- app_assoc.
Qed.

Lemma decode_row kv rest s :
  session_fits kv.1 kv.2 -> (forall c, c ∈ row_chunks kv -> holds s (chunk_block c)) ->
  decode_record (row_record kv ++ rest) s = Some (kv.1, kv.2, rest).
Proof.
  intros Hfit Hh. pose proof (row_record_fits kv Hfit) as [Hl _]. destruct Hfit as (Hc & Hq & Ho & Hr).
  unfold decode_record, row_record, push_record.
  rewrite <- !app_assoc, d_u128_app by done. cbn [mbind option_bind]. rewrite d_u64_app by done. cbn [mbind option_bind].
  rewrite d_u64_app by done. cbn [mbind option_bind]. unfold row_ext in *.
  destruct kv as [k [rq [[rn body]|] lo]]; cbn [fst snd ss_reply ss_request ss_last_op] in *; [destruct Hr as [Hr _]|cbn [app]; by rewrite d_kind_app].
  destruct (row_chunks_cases (k, mkSession rq (Some (rn, body)) lo)) as [[Hrc _]|(rn' & body' & Hrep & _ & Hcat & Hne & _)].
  - rewrite Hrc in *. cbn [map] in *. destruct (wrap_zlen body Hl) as [-> Hf]. rewrite <- app_assoc. cbn [app]. rewrite d_kind_app by done. cbn [mbind option_bind Z.eqb Pos.eqb].
    rewrite <- app_assoc, d_u64_app by done. cbn [mbind option_bind]. rewrite <- app_assoc, d_u32_app by done. cbn [mbind option_bind].
    by rewrite d_take_app.
  - injection Hrep as <- <-. set (chs := row_chunks _) in *. pose proof (zlen_addrs (map (block_address ∘ chunk_block) chs)) as Hza.
    destruct (map (block_address ∘ chunk_block) chs) as [|a ext] eqn:Hm; [by destruct chs|].
    destruct (wrap_zlen (a :: ext) Hl) as [-> Hf]. rewrite <- app_assoc. cbn [app]. rewrite d_kind_app by done. cbn [mbind option_bind Z.eqb Pos.eqb].
    rewrite <- app_assoc, d_u64_app by done. cbn [mbind option_bind]. rewrite <- app_assoc, d_u32_app by done. cbn [mbind option_bind].
    rewrite <- Hm in *. rewrite length_map in *. rewrite read_chunks_app; [|done|rewrite length_app; lia]. cbn. by rewrite Hcat.
Qed.

(** A leaf's payload is its rows' records, one after the other. *)
Definition leaf_block (group : list (Z * Session)) : list byte := session_block TAG_LEAF (concat (map row_record group)).

Lemma kind_leaf group : block_kind (leaf_block group) = Some TAG_LEAF.
Proof. by apply block_kind_session. Qed.

Lemma decode_group fuel group s sessions :
  Forall (fun kv => session_fits kv.1 kv.2) group -> (forall kv c, kv ∈ group -> c ∈ row_chunks kv -> holds s (chunk_block c)) ->
  (length (concat (map row_record group)) <= fuel)%nat ->
  decode_records fuel (concat (map row_record group)) s sessions = Some (foldl (fun t kv => <[kv.1 := kv.2]> t) sessions group).
Proof.
  intros Hg. revert fuel sessions. induction Hg as [|kv group Hkv Hg IH]; intros fuel sessions Hh Hf; [by destruct fuel|].
  cbn [map concat] in *. destruct (push_record_nonempty kv.1 kv.2 (row_ext kv) (concat (map row_record group))) as (b & l & Hbl & Hlen).
  fold (row_record kv) in Hbl. pose proof (decode_row kv (concat (map row_record group)) s Hkv) as Hd.
  rewrite Hbl in *. cbn [length] in Hf. destruct fuel as [|fuel]; [lia|]. cbn [decode_records]. rewrite Hd by (intros; eapply Hh; [constructor|done]).
  cbn [mbind option_bind foldl]. apply IH; [|lia]. intros; eapply Hh; [by constructor|done].
Qed.

Lemma decode_leaf_group group s sessions :
  Forall (fun kv => session_fits kv.1 kv.2) group -> (forall kv c, kv ∈ group -> c ∈ row_chunks kv -> holds s (chunk_block c)) ->
  holds s (leaf_block group) ->
  decode_leaf (block_address (leaf_block group)) s sessions = Some (foldl (fun t kv => <[kv.1 := kv.2]> t) sessions group).
Proof.
  intros Hg Hh Hl. unfold decode_leaf. rewrite Hl. cbn [mbind option_bind]. rewrite kind_leaf, bool_decide_true by done. cbn [negb]. unfold leaf_block. rewrite !block_payload_session. by apply decode_group.
Qed.

Lemma decode_leaves_groups groups s sessions :
  Forall (fun kv => session_fits kv.1 kv.2) (concat groups) ->
  (forall g, g ∈ groups -> holds s (leaf_block g) /\ forall kv c, kv ∈ g -> c ∈ row_chunks kv -> holds s (chunk_block c)) ->
  decode_leaves (map (block_address ∘ leaf_block) groups) s sessions =
  Some (foldl (fun t kv => <[kv.1 := kv.2]> t) sessions (concat groups)).
Proof.
  revert sessions. induction groups as [|g groups IH]; intros sessions Hf Hh; [done|].
  cbn [map concat decode_leaves] in *. apply Forall_app in Hf as [Hf1 Hf2]. destruct (Hh g) as [Hl Hc]; [constructor|].
  change ((block_address ∘ leaf_block) g) with (block_address (leaf_block g)). rewrite decode_leaf_group by done. cbn [mbind option_bind]. rewrite foldl_app. apply IH; [done|].
  intros g' Hg'. apply Hh. by constructor.
Qed.

End rows.

(** ** References of the three kinds *)

Lemma index_children_block (children : list Z) :
  Forall (fits 128) children -> zlen children < 2 ^ 32 ->
  index_children (session_block TAG_INDEX (be_bytes 4 (wrap 32 (zlen children)) ++ concat (map (be_bytes 16) children))) = children.
Proof.
  intros Hf Hl. unfold index_children. rewrite block_kind_session, bool_decide_true by done. cbn [negb].
  rewrite block_payload_session, zlen_session_block, length_app, length_be_bytes. destruct (wrap_zlen children Hl) as [-> [? ?]].
  pose proof (zlen_addrs children). rewrite (proj2 (Z.ltb_ge _ _)) by lia.
  rewrite take_app_length', drop_app_length' by (by rewrite length_be_bytes). rewrite be_bytes_roundtrip by lia.
  rewrite (proj2 (Z.ltb_ge _ _)) by lia. rewrite Nat2Z.id, <- (app_nil_r (concat _)). by apply split_addrs_app.
Qed.

Lemma collect_body_refs_group fuel group out :
  Forall (fun kv => session_fits kv.1 kv.2) group -> (length (concat (map row_record group)) <= fuel)%nat ->
  collect_body_refs fuel (concat (map row_record group)) out = out ++ concat (map row_ext group).
Proof.
  intros Hg. revert fuel out. induction Hg as [|kv group Hkv Hg IH]; intros fuel out Hf; [destruct fuel; by rewrite app_nil_r|].
  cbn [map concat] in *. destruct (push_record_nonempty kv.1 kv.2 (row_ext kv) (concat (map row_record group))) as (b & l & Hbl & Hlen).
  fold (row_record kv) in Hbl. pose proof (skip_record_app kv.1 kv.2 (row_ext kv) (concat (map row_record group)) out Hkv (row_record_fits kv Hkv)) as Hd.
  fold (row_record kv) in Hd. rewrite Hbl in *. cbn [length] in Hf. destruct fuel as [|fuel]; [lia|]. cbn [collect_body_refs]. rewrite Hd, row_refs.
  rewrite IH by lia. by rewrite app_assoc.
Qed.

Lemma leaf_refs group :
  Forall (fun kv => session_fits kv.1 kv.2) group -> session_block_references (leaf_block group) = concat (map row_ext group).
Proof.
  intros Hg. unfold session_block_references, leaf_body_refs. rewrite kind_leaf, bool_decide_true by done. cbn [negb].
  change (block_payload (leaf_block group)) with (concat (map row_record group)). by rewrite collect_body_refs_group.
Qed.

(** ** What an encoding writes *)

Definition index_block (children : list BlockAddress) : list byte :=
  session_block TAG_INDEX (be_bytes 4 (wrap 32 (zlen children)) ++ concat (map (be_bytes 16) children)).

(** The index blocks over a level, bottom up, and the root among them. *)
Fixpoint index_run (fuel : nat) (level : list BlockAddress) : list (list byte) * list byte :=
  if zlen level <=? INDEX_FANOUT then ([], index_block level)
  else
    match fuel with
    | O => ([], index_block level)
    | S fuel =>
        let bs := map index_block (chunks INDEX_FANOUT level) in
        let '(above, root) := index_run fuel (map block_address bs) in (bs ++ above, root)
    end.

(** The rows of the open leaf, the full leaves and the blocks written so far. *)
Definition pack_step (st : list (Z * Session) * list (list (Z * Session)) * list (list byte)) (kv : Z * Session)
    : list (Z * Session) * list (list (Z * Session)) * list (list byte) :=
  let '(cur, groups, em) := st in
  let em := em ++ map chunk_block (row_chunks kv) in
  if negb (bool_decide (cur = [])) && (leaf_budget <? zlen (concat (map row_record cur)) + zlen (row_record kv))
  then ([kv], groups ++ [cur], em ++ [leaf_block cur])
  else (cur ++ [kv], groups, em).

Definition packed (t : Table) : list (list (Z * Session)) * list (list byte) :=
  let '(cur, groups, em) := foldl pack_step ([], [], []) (rows t) in
  match cur with [] => (groups, em) | _ => (groups ++ [cur], em ++ [leaf_block cur]) end.

Definition leaf_groups (t : Table) : list (list (Z * Session)) := (packed t).1.
Definition leaf_addrs (t : Table) : list BlockAddress := map (block_address ∘ leaf_block) (leaf_groups t).
Definition index_of (t : Table) : list (list byte) * list byte := index_run (length (leaf_addrs t)) (leaf_addrs t).

(** Every block of a table's graph, in the order of its writes. *)
Definition emitted (t : Table) : list (list byte) := (packed t).2 ++ (index_of t).1 ++ [(index_of t).2].
Definition sessions_root (t : Table) : BlockAddress := block_address (index_of t).2.

Section emits.
Context {St : Type} `{BlockStoreModel St}.

Definition writes (s : St) (bs : list (list byte)) : St := foldl (fun s b => (put s b).2) s bs.

Lemma writes_app s a b : writes s (a ++ b) = writes (writes s a) b.
Proof. apply foldl_app. Qed.

Lemma put_pair s b : put s b = (block_address b, (put s b).2).
Proof. rewrite <- (proj1 (put_spec s b)). by destruct (put s b). Qed.

Lemma fold_puts {A} (f : A -> list byte) l out s :
  foldl (fun '(out, s) c => let '(a, s) := put s (f c) in (out ++ [a], s)) (out, s) l =
  (out ++ map (block_address ∘ f) l, writes s (map f l)).
Proof.
  revert out s. induction l as [|c l IH]; intros out s; cbn [foldl map]; [by rewrite app_nil_r|].
  rewrite put_pair, IH. by rewrite <- app_assoc.
Qed.

Lemma write_body_chunks_emits body s :
  write_body_chunks body s =
  (map (block_address ∘ chunk_block) (chunks BODY_CHUNK_PAYLOAD body), writes s (map chunk_block (chunks BODY_CHUNK_PAYLOAD body))).
Proof. apply (fold_puts chunk_block). Qed.

Lemma write_level_emits level s :
  write_level level s =
  (map block_address (map index_block (chunks INDEX_FANOUT level)), writes s (map index_block (chunks INDEX_FANOUT level))).
Proof. rewrite map_map. apply (fold_puts index_block). Qed.

Lemma build_index_emits fuel level s :
  build_index_loop fuel level s =
  (block_address (index_run fuel level).2, writes s ((index_run fuel level).1 ++ [(index_run fuel level).2])).
Proof.
  revert level s. induction fuel as [|fuel IH]; intros level s; cbn [build_index_loop index_run].
  - destruct (zlen level <=? INDEX_FANOUT); apply put_pair.
  - destruct (zlen level <=? INDEX_FANOUT); [apply put_pair|]. rewrite write_level_emits, IH.
    destruct (index_run fuel _) as [above root]. cbn [fst snd]. by rewrite <- app_assoc, (writes_app s).
Qed.

Lemma record_len_0 group : (zlen (concat (map row_record group)) =? 0) = bool_decide (group = []).
Proof.
  destruct group as [|kv g]; [done|]. cbn [map concat]. rewrite bool_decide_false by done.
  apply Z.eqb_neq. rewrite length_app. unfold row_record. pose proof (zlen_push_record kv.1 kv.2 (row_ext kv)) as Hz.
  destruct (ss_reply kv.2) as [[]|]; [destruct (row_ext kv)|]; lia.
Qed.

Lemma row_written kv s :
  (if zlen (encode_record kv.1 kv.2 []) <=? leaf_budget then (encode_record kv.1 kv.2 [], s)
   else let '(chunks, s) := write_body_chunks (match ss_reply kv.2 with Some (_, b) => b | None => [] end) s in
     (encode_record kv.1 kv.2 chunks, s)) =
  (row_record kv, writes s (map chunk_block (row_chunks kv))).
Proof.
  rewrite write_body_chunks_emits. unfold row_record, row_ext, row_chunks.
  by destruct (zlen (encode_record kv.1 kv.2 []) <=? leaf_budget).
Qed.

Lemma pack_row_emits cur groups em kv s :
  pack_row (concat (map row_record cur), map (block_address ∘ leaf_block) groups, writes s em) kv =
  let '(cur', groups', em') := pack_step (cur, groups, em) kv in
  (concat (map row_record cur'), map (block_address ∘ leaf_block) groups', writes s em').
Proof.
  unfold pack_row, pack_step. pose proof (row_written kv (writes s em)) as Hw. destruct kv as [k ss]. cbn [fst snd] in Hw. rewrite Hw.
  rewrite record_len_0. unfold flush_leaf. rewrite record_len_0. case_bool_decide as Hc; cbn [negb andb].
  - subst. cbn [map concat app]. by rewrite app_nil_r, writes_app.
  - destruct (leaf_budget <? _).
    + rewrite put_pair. cbn [map concat app]. by rewrite app_nil_r, map_app, !writes_app.
    + rewrite map_app, concat_app, writes_app. cbn [map concat]. by rewrite app_nil_r.
Qed.

Lemma pack_emits rs cur groups em s :
  foldl pack_row (concat (map row_record cur), map (block_address ∘ leaf_block) groups, writes s em) rs =
  let '(cur', groups', em') := foldl pack_step (cur, groups, em) rs in
  (concat (map row_record cur'), map (block_address ∘ leaf_block) groups', writes s em').
Proof.
  revert cur groups em. induction rs as [|kv rs IH]; intros cur groups em; [done|]. cbn [foldl].
  rewrite pack_row_emits. destruct (pack_step _ kv) as [[cur' groups'] em']. apply IH.
Qed.

(** The root and the writes depend on the table alone. *)
Lemma encode_emits t s : encode_sessions t s = (sessions_root t, writes s (emitted t)).
Proof.
  unfold encode_sessions, sessions_root, emitted, index_of, leaf_addrs, leaf_groups, packed, build_index_tree.
  pose proof (pack_emits (rows t) [] [] [] s) as Hp. cbn [map concat] in Hp. cbn [writes foldl] in Hp. rewrite Hp.
  destruct (foldl pack_step ([], [], []) (rows t)) as [[cur groups] em]. unfold flush_leaf. rewrite record_len_0.
  destruct cur as [|kv cur]; [rewrite bool_decide_true by done|rewrite bool_decide_false by done; rewrite put_pair]; cbn [fst snd].
  - by rewrite build_index_emits, <- writes_app.
  - replace (map (block_address ∘ leaf_block) groups ++ [block_address (session_block TAG_LEAF (concat (map row_record (kv :: cur))))])
      with (map (block_address ∘ leaf_block) (groups ++ [kv :: cur])) by (by rewrite map_app).
    rewrite build_index_emits. cbn [fst snd]. rewrite (writes_app s (em ++ _)), (writes_app s em). reflexivity.
Qed.

Definition collision_free (bs : list (list byte)) : Prop :=
  forall a b, a ∈ bs -> b ∈ bs -> block_address a = block_address b -> a = b.

Lemma writes_holds s bs b : collision_free bs -> b ∈ bs -> holds (writes s bs) b.
Proof.
  induction bs as [|x bs IH] using rev_ind; intros Hc Hb; [by apply elem_of_nil in Hb|]. rewrite writes_app. cbn [writes foldl].
  unfold holds. destruct (decide (block_address b = block_address x)) as [He|Hne].
  - rewrite (Hc b x Hb) by (rewrite ?elem_of_app, ?list_elem_of_singleton; auto). apply put_own.
  - apply elem_of_app in Hb as [Hb|Hb]; [|apply list_elem_of_singleton in Hb; congruence].
    assert (Hx : holds (writes s bs) b) by (apply IH; [intros y z Hy Hz; apply Hc; rewrite elem_of_app; auto|done]).
    apply verified_spec in Hx as [Hx _]. apply verified_spec. split; [|done].
    destruct (put_spec (writes s bs) x) as (_ & _ & Hput). by rewrite Hput.
Qed.

End emits.

(** ** The packing *)

Lemma rows_perm t : rows t ≡ₚ map_to_list t.
Proof. apply merge_sort_Permutation. Qed.

Lemma rows_keys t : NoDup (map fst (rows t)).
Proof. change (map fst) with (fmap (M := list) (@fst Z Session)). rewrite rows_perm. apply NoDup_fst_map_to_list. Qed.

Lemma rows_elem t kv : kv ∈ rows t <-> t !! kv.1 = Some kv.2.
Proof. rewrite rows_perm. destruct kv. apply elem_of_map_to_list. Qed.

(** Inserting distinct keys in any order. *)
Lemma foldl_insert_rows (rs : list (Z * Session)) (t : Table) :
  NoDup (map fst rs) -> foldl (fun t kv => <[kv.1 := kv.2]> t) t rs = list_to_map rs ∪ t.
Proof.
  revert t. induction rs as [|[k ss] rs IH]; intros t Hn; cbn [foldl map list_to_map foldr fst snd] in *; [by rewrite (left_id_L ∅ (∪))|].
  apply NoDup_cons in Hn as [Hk Hn]. rewrite IH by done. rewrite <- insert_union_r, insert_union_l; [done|].
  by apply not_elem_of_list_to_map_1.
Qed.

Lemma rows_rebuild t : foldl (fun t kv => <[kv.1 := kv.2]> t) ∅ (rows t) = t.
Proof.
  rewrite foldl_insert_rows by apply rows_keys. rewrite (right_id_L ∅ (∪)).
  rewrite (list_to_map_proper (rows t) (map_to_list t)); [apply list_to_map_to_list| |apply rows_perm]. apply rows_keys.
Qed.

(** The state of the packing after the rows [rs]. *)
Definition packing (rs : list (Z * Session)) (st : list (Z * Session) * list (list (Z * Session)) * list (list byte)) : Prop :=
  let '(cur, groups, em) := st in
  concat groups ++ cur = rs /\ Forall (fun g => g <> []) groups /\
  (forall b, b ∈ em <-> (exists kv c, kv ∈ rs /\ c ∈ row_chunks kv /\ b = chunk_block c) \/ exists g, g ∈ groups /\ b = leaf_block g) /\
  (Forall (fun kv => zlen (row_record kv) <= leaf_budget) rs ->
   Forall (fun g => zlen (concat (map row_record g)) <= leaf_budget) (cur :: groups)).

Lemma chunk_blocks_elem rs kv b :
  b ∈ map chunk_block (row_chunks kv) \/ (exists kv c, kv ∈ rs /\ c ∈ row_chunks kv /\ b = chunk_block c) <->
  exists kv' c, kv' ∈ rs ++ [kv] /\ c ∈ row_chunks kv' /\ b = chunk_block c.
Proof.
  split.
  - intros [(c & -> & Hc)%list_elem_of_fmap|(kv' & c & Hk & Hc & ->)]; [exists kv, c|exists kv', c]; rewrite elem_of_app, list_elem_of_singleton; auto.
  - intros (kv' & c & [Hk|Hk]%elem_of_app & Hc & ->); [right; by exists kv', c|]. apply list_elem_of_singleton in Hk as ->. left.
    apply list_elem_of_fmap. by exists c.
Qed.

Lemma leaf_blocks_snoc (P : list byte -> Prop) em groups cur :
  (forall b, b ∈ em <-> P b \/ exists g, g ∈ groups /\ b = leaf_block g) ->
  forall b, b ∈ em ++ [leaf_block cur] <-> P b \/ exists g, g ∈ groups ++ [cur] /\ b = leaf_block g.
Proof.
  intros Hem b. rewrite elem_of_app, Hem, list_elem_of_singleton. split.
  - intros [[?|(g & ? & ?)]| ->]; [by left|right; exists g; split; [apply elem_of_app; auto|done]|].
    right. exists cur. split; [apply elem_of_app; right; by apply list_elem_of_singleton|done].
  - intros [?|(g & Hg & ->)]; [by left; left|]. apply elem_of_app in Hg as [Hg|Hg]; [left; right; by exists g|].
    apply list_elem_of_singleton in Hg as ->. by right.
Qed.

Lemma pack_step_packing rs st kv : packing rs st -> packing (rs ++ [kv]) (pack_step st kv).
Proof.
  destruct st as [[cur groups] em]. intros (Hr & Hne & Hem & Hb). unfold pack_step.
  assert (Hem' : forall b, b ∈ em ++ map chunk_block (row_chunks kv) <->
    (exists kv' c, kv' ∈ rs ++ [kv] /\ c ∈ row_chunks kv' /\ b = chunk_block c) \/ exists g, g ∈ groups /\ b = leaf_block g).
  { intros b. rewrite elem_of_app, Hem, <- chunk_blocks_elem. tauto. }
  assert (Hone : zlen (concat (map row_record [kv])) = zlen (row_record kv)) by (cbn [map concat]; by rewrite app_nil_r).
  case_bool_decide as Hc; cbn [negb andb].
  - subst cur. split_and!; [by rewrite <- Hr, app_nil_r|done|done|]. intros [Hf Hk]%Forall_app. rewrite Forall_singleton in Hk.
    rewrite <- Hone in Hk. constructor; [exact Hk|]. by apply Hb, Forall_cons in Hf as [_ ?].
  - destruct (Z.ltb_spec leaf_budget (zlen (concat (map row_record cur)) + zlen (row_record kv))) as [Hlt|Hge].
    + split_and!; [rewrite concat_app; cbn [concat]; by rewrite app_nil_r, Hr|apply Forall_app; split; [done|by apply Forall_singleton]| |].
      * by apply leaf_blocks_snoc.
      * intros [Hf Hk]%Forall_app. rewrite Forall_singleton in Hk. apply Hb, Forall_cons in Hf as [? ?].
        rewrite <- Hone in Hk. constructor; [exact Hk|]. apply Forall_app. split; [done|by apply Forall_singleton].
    + split_and!; [by rewrite app_assoc, Hr|done|done|]. intros [Hf Hk]%Forall_app. apply Hb, Forall_cons in Hf as [? ?].
      constructor; [|done]. rewrite map_app, concat_app, length_app, Nat2Z.inj_add, Hone. lia.
Qed.

Lemma fold_packing rs rs0 st : packing rs0 st -> packing (rs0 ++ rs) (foldl pack_step st rs).
Proof.
  revert rs0 st. induction rs as [|kv rs IH]; intros rs0 st Hp; cbn [foldl]; [by rewrite app_nil_r|].
  change (kv :: rs) with ([kv] ++ rs). rewrite app_assoc. by apply IH, pack_step_packing.
Qed.

Lemma packed_spec t :
  concat (leaf_groups t) = rows t /\ Forall (fun g => g <> []) (leaf_groups t) /\
  (forall b, b ∈ (packed t).2 <-> (exists kv c, kv ∈ rows t /\ c ∈ row_chunks kv /\ b = chunk_block c) \/
     exists g, g ∈ leaf_groups t /\ b = leaf_block g) /\
  (Forall (fun kv => zlen (row_record kv) <= leaf_budget) (rows t) ->
   Forall (fun g => zlen (concat (map row_record g)) <= leaf_budget) (leaf_groups t)).
Proof.
  assert (H0 : packing [] ([], [], [])).
  { split_and!; [done|done| |by intros _; repeat constructor]. intros b. rewrite elem_of_nil. split; [done|].
    intros [(? & ? & Hx & _)|(? & Hx & _)]; by apply elem_of_nil in Hx. }
  pose proof (fold_packing (rows t) [] _ H0) as Hp. cbn [app] in Hp. unfold leaf_groups, packed.
  destruct (foldl pack_step ([], [], []) (rows t)) as [[cur groups] em]. destruct Hp as (Hr & Hne & Hem & Hb).
  destruct cur as [|kv cur]; cbn [fst snd].
  - rewrite app_nil_r in Hr. split_and!; [done..|]. by intros [_ ?]%Hb%Forall_cons.
  - split_and!; [rewrite concat_app; cbn [concat]; by rewrite app_nil_r|apply Forall_app; split; [done|by apply Forall_singleton]| |].
    + by apply leaf_blocks_snoc.
    + intros [? ?]%Hb%Forall_cons. apply Forall_app. split; [done|by apply Forall_singleton].
Qed.

(** ** The index tree *)

(** [expands v stack nodes leaves]: reading blocks by [v], the pre-order walk from the
    stack visits [nodes] and meets [leaves]. *)
Inductive expands (v : BlockAddress -> option (list byte)) : list Z -> list Z -> list Z -> Prop :=
| ex_nil : expands v [] [] []
| ex_leaf a b st ns ls : v a = Some b -> block_kind b = Some TAG_LEAF ->
    expands v st ns ls -> expands v (a :: st) (a :: ns) (a :: ls)
| ex_index a b st ns ls : v a = Some b -> block_kind b = Some TAG_INDEX ->
    expands v (index_children b ++ st) ns ls -> expands v (a :: st) (a :: ns) ls.

Lemma expands_app v s1 n1 l1 s2 n2 l2 :
  expands v s1 n1 l1 -> expands v s2 n2 l2 -> expands v (s1 ++ s2) (n1 ++ n2) (l1 ++ l2).
Proof.
  intros H1 H2. induction H1 as [|a b st ns ls Ha Hk _ IH|a b st ns ls Ha Hk _ IH]; [done|by eapply ex_leaf|].
  eapply ex_index; [done..|]. by rewrite app_assoc.
Qed.

Lemma expands_split v s1 s2 n l :
  expands v (s1 ++ s2) n l ->
  exists n1 n2 l1 l2, n = n1 ++ n2 /\ l = l1 ++ l2 /\ expands v s1 n1 l1 /\ expands v s2 n2 l2.
Proof.
  remember (s1 ++ s2) as st eqn:Hst. intros H. revert s1 Hst.
  induction H as [|a b st ns ls Ha Hk Hx IH|a b st ns ls Ha Hk Hx IH]; intros s1 Hst.
  - symmetry in Hst. apply app_eq_nil in Hst as [-> ->]. exists [], [], [], []. split_and!; [done..|constructor|constructor].
  - destruct s1 as [|a' s1]; cbn in Hst; [subst s2; exists [], (a :: ns), [], (a :: ls); split_and!; [done..|constructor|by eapply ex_leaf]|].
    injection Hst as <- ->. destruct (IH s1 eq_refl) as (n1 & n2 & l1 & l2 & -> & -> & H1 & H2).
    exists (a :: n1), n2, (a :: l1), l2. split_and!; [done..|by eapply ex_leaf|done].
  - destruct s1 as [|a' s1]; cbn in Hst; [subst s2; exists [], (a :: ns), [], ls; split_and!; [done..|constructor|by eapply ex_index]|].
    injection Hst as <- ->. destruct (IH (index_children b ++ s1)) as (n1 & n2 & l1 & l2 & -> & -> & H1 & H2); [by rewrite app_assoc|].
    exists (a :: n1), n2, l1, l2. split_and!; [done..|by eapply ex_index|done].
Qed.

Lemma kind_index children : block_kind (index_block children) = Some TAG_INDEX.
Proof. by apply block_kind_session. Qed.

Definition reads_all (v : BlockAddress -> option (list byte)) (bs : list (list byte)) : Prop :=
  forall b, b ∈ bs -> v (block_address b) = Some b.

Definition indexable (children : list Z) : Prop := Forall (fits 128) children /\ zlen children < 2 ^ 32.

Lemma index_block_children children : indexable children -> index_children (index_block children) = children.
Proof. intros [? ?]. by apply index_children_block. Qed.

(** One more level over a level. *)
Lemma expands_level v cs ns ls :
  reads_all v (map index_block cs) -> Forall indexable cs -> expands v (concat cs) ns ls ->
  exists ns', expands v (map block_address (map index_block cs)) ns' ls /\ ns' ≡ₚ ns ++ map block_address (map index_block cs).
Proof.
  intros Hv Hi. revert ns ls. induction Hi as [|c cs Hc Hi IH]; intros ns ls Hx; cbn [concat map] in *.
  - inversion Hx; subst. exists []. split; [constructor|done].
  - apply expands_split in Hx as (n1 & n2 & l1 & l2 & -> & -> & H1 & H2).
    destruct (IH ltac:(intros b Hb; apply Hv; by constructor) _ _ H2) as (ns' & Hx' & Hp).
    exists (block_address (index_block c) :: n1 ++ ns'). split.
    + eapply ex_index; [apply Hv; constructor|apply kind_index|]. rewrite index_block_children by done. by apply expands_app.
    + rewrite Hp. by solve_Permutation.
Qed.

Lemma fanout_pos : 2 < INDEX_FANOUT < 2 ^ 32.
Proof. done. Qed.

Lemma chunks_indexable level : Forall (fits 128) level ->
  Forall indexable (chunks INDEX_FANOUT level) /\ Forall (fun c => c <> []) (chunks INDEX_FANOUT level) /\
  concat (chunks INDEX_FANOUT level) = level.
Proof.
  intros Hl. pose proof fanout_pos. destruct (chunks_spec INDEX_FANOUT level) as [Hc Ha]; [lia|]. split_and!; [|by eapply Forall_impl; [exact Ha|]; intros ? [? ?]|done].
  apply Forall_forall. intros c Hin. split; [|destruct (proj1 (Forall_forall _ _) Ha c Hin); lia].
  apply Forall_forall. intros a Ha'. apply (proj1 (Forall_forall _ _) Hl). rewrite <- Hc. apply list_elem_of_In, in_concat. exists c.
  by rewrite <- !list_elem_of_In.
Qed.

Lemma addresses_fit bs : Forall (fits 128) (map block_address bs).
Proof. apply Forall_map, Forall_forall. intros b _. apply block_address_fits. Qed.

(** A level that needs several index blocks is longer than the next one. *)
Lemma level_shrinks (level : list Z) fuel :
  INDEX_FANOUT < zlen level -> (length level <= S fuel)%nat -> (length (chunks INDEX_FANOUT level) <= fuel)%nat.
Proof. intros Hl Hf. pose proof fanout_pos. pose proof (chunks_count INDEX_FANOUT level ltac:(lia)). nia. Qed.

Lemma expands_index v fuel level ns ls :
  (length level <= fuel)%nat -> Forall (fits 128) level ->
  reads_all v ((index_run fuel level).1 ++ [(index_run fuel level).2]) -> expands v level ns ls ->
  exists ns', expands v [block_address (index_run fuel level).2] ns' ls /\
    ns' ≡ₚ ns ++ map block_address ((index_run fuel level).1 ++ [(index_run fuel level).2]).
Proof.
  revert level ns. induction fuel as [|fuel IH]; intros level ns Hf Hl Hv Hx; cbn [index_run] in *; pose proof fanout_pos;
    destruct (Z.leb_spec (zlen level) INDEX_FANOUT) as [Hle|Hgt]; cbn [fst snd app] in *; [|lia| |].
  1,2: destruct (expands_level v [level] ns ls Hv) as (ns' & Hx' & Hp); [apply Forall_singleton; split; [done|lia]|cbn [concat]; by rewrite app_nil_r|by exists ns'].
  pose proof (chunks_indexable level Hl) as (Hi & _ & Hc). rewrite <- Hc in Hx.
  destruct (index_run fuel _) as [above root] eqn:Hr. cbn [fst snd] in *.
  destruct (expands_level v (chunks INDEX_FANOUT level) ns ls) as (ns1 & Hx1 & Hp1); [intros b Hb; apply Hv; rewrite <- app_assoc, elem_of_app; auto|done..|].
  specialize (IH (map block_address (map index_block (chunks INDEX_FANOUT level))) ns1). rewrite Hr in IH. cbn [fst snd] in IH.
  destruct IH as (ns' & Hx' & Hp'); [rewrite !length_map; by apply level_shrinks|apply addresses_fit|intros b Hb; apply Hv; rewrite <- app_assoc, elem_of_app; auto|done|].
  exists ns'. split; [done|]. rewrite Hp', Hp1, !map_app. by rewrite <- !app_assoc.
Qed.

(** ** No block of the tree is met twice *)

Lemma collision_free_mono (bs cs : list (list byte)) : (forall b, b ∈ cs -> b ∈ bs) -> collision_free bs -> collision_free cs.
Proof. intros Hs Hc a b Ha Hb. apply Hc; auto. Qed.

(** Blocks none of which share an address but themselves. *)
Lemma NoDup_addresses bs : collision_free bs -> NoDup bs -> NoDup (map block_address bs).
Proof.
  intros Hc Hn. induction Hn as [|b bs Hb Hn IH]; cbn [map]; constructor.
  - intros (b' & He & Hb')%list_elem_of_fmap. rewrite (Hc b b') in Hb; [done|by constructor|by constructor|done].
  - apply IH. eapply collision_free_mono; [|exact Hc]. intros x Hx. by constructor.
Qed.

Lemma NoDup_concat_groups {A} (gs : list (list A)) : NoDup (concat gs) -> Forall (fun g => g <> []) gs -> NoDup gs.
Proof.
  intros Hn Hne. induction Hne as [|g gs Hg Hne IH]; [constructor|]. cbn [concat] in Hn. apply NoDup_app in Hn as (_ & Hd & Hn).
  constructor; [|by apply IH]. intros Hin. destruct g as [|x g]; [done|]. apply (Hd x); [constructor|].
  apply list_elem_of_In, in_concat. exists (x :: g). split; [by apply list_elem_of_In|by left].
Qed.

(** A finished part of the tree: its blocks are distinct and name each other, and no
    index block of it names its top level. *)
Record settled (nodes : list (list byte)) (level : list Z) : Prop := {
  st_nodup : NoDup nodes;
  st_level : NoDup level;
  st_in : forall a, a ∈ level -> a ∈ map block_address nodes;
  st_below : forall b c, b ∈ nodes -> block_kind b = Some TAG_INDEX -> c ∈ index_children b ->
    c ∈ map block_address nodes /\ c ∉ level;
}.

(** An index block over the top level is new. *)
Lemma index_new nodes level children :
  settled nodes level -> collision_free (nodes ++ [index_block children]) -> indexable children ->
  (forall c, c ∈ children -> c ∈ level) -> children <> [] -> block_address (index_block children) ∉ map block_address nodes.
Proof.
  intros Hs Hc Hi Hsub Hne (b & He & Hb)%list_elem_of_fmap.
  assert (index_block children = b) as <- by (apply Hc; rewrite ?elem_of_app, ?list_elem_of_singleton; auto).
  clear He. destruct children as [|c l]; [congruence|]. destruct (st_below _ _ Hs _ c Hb (kind_index _)) as [_ Hx]; [rewrite index_block_children by done; constructor|].
  apply Hx, Hsub. constructor.
Qed.

Lemma concat_elem {A} (l : list A) (ls : list (list A)) x : l ∈ ls -> x ∈ l -> x ∈ concat ls.
Proof. intros Hl Hx. apply list_elem_of_In, in_concat. exists l. by rewrite <- !list_elem_of_In. Qed.

(** A whole level of index blocks settles over the one below. *)
Lemma settled_level nodes cs :
  settled nodes (concat cs) -> Forall indexable cs -> Forall (fun c => c <> []) cs ->
  collision_free (nodes ++ map index_block cs) ->
  settled (nodes ++ map index_block cs) (map block_address (map index_block cs)).
Proof.
  intros Hs Hi Hne Hc.
  assert (Hnew : forall c, c ∈ cs -> block_address (index_block c) ∉ map block_address nodes).
  { intros c Hin. apply (index_new nodes (concat cs)); [done| |by apply (proj1 (Forall_forall _ _) Hi)|intros x Hx; by eapply concat_elem|by apply (proj1 (Forall_forall _ _) Hne)].
    eapply collision_free_mono; [|exact Hc]. intros b [Hb|Hb]%elem_of_app; apply elem_of_app; [by left|right].
    apply list_elem_of_singleton in Hb as ->. apply list_elem_of_fmap. by exists c. }
  assert (Hnd : NoDup (map index_block cs)).
  { apply NoDup_fmap_2_strong; [|apply NoDup_concat_groups; [apply (st_level _ _ Hs)|done]]. intros x y Hx Hy He.
    rewrite <- (index_block_children x), <- (index_block_children y), He; [done|by apply (proj1 (Forall_forall _ _) Hi)..]. }
  split.
  - apply NoDup_app. split_and!; [apply (st_nodup _ _ Hs)| |done]. intros b Hb (c & -> & Hin)%list_elem_of_fmap.
    apply (Hnew c Hin), list_elem_of_fmap. by exists (index_block c).
  - apply NoDup_addresses; [|done]. eapply collision_free_mono; [|exact Hc]. intros b Hb. apply elem_of_app. by right.
  - intros a Ha. rewrite map_app, elem_of_app. by right.
  - intros b c Hb Hk Hch. rewrite map_app, elem_of_app. assert (Hin : c ∈ map block_address nodes).
    { apply elem_of_app in Hb as [Hb|(ch & -> & Hin)%list_elem_of_fmap]; [by eapply (st_below _ _ Hs)|].
      rewrite index_block_children in Hch by (by apply (proj1 (Forall_forall _ _) Hi)). apply (st_in _ _ Hs). by eapply concat_elem. }
    split; [by left|]. intros (b' & -> & (ch & -> & Hin')%list_elem_of_fmap)%list_elem_of_fmap. by apply (Hnew ch).
Qed.

Lemma settled_index fuel nodes level :
  (length level <= fuel)%nat -> Forall (fits 128) level -> level <> [] -> settled nodes level ->
  collision_free (nodes ++ (index_run fuel level).1 ++ [(index_run fuel level).2]) ->
  NoDup (nodes ++ (index_run fuel level).1 ++ [(index_run fuel level).2]).
Proof.
  revert nodes level. induction fuel as [|fuel IH]; intros nodes level Hf Hl Hne Hs; cbn [index_run]; pose proof fanout_pos;
    destruct (Z.leb_spec (zlen level) INDEX_FANOUT) as [Hle|Hgt]; cbn [fst snd app]; [|lia| |].
  1,2: intros Hc; apply (st_nodup _ _ (settled_level nodes [level] ltac:(cbn [concat]; by rewrite app_nil_r) ltac:(apply Forall_singleton; split; [done|lia]) ltac:(by apply Forall_singleton) Hc)).
  pose proof (chunks_indexable level Hl) as (Hi & Hcn & Hc). specialize (IH (nodes ++ map index_block (chunks INDEX_FANOUT level))
    (map block_address (map index_block (chunks INDEX_FANOUT level)))).
  destruct (index_run fuel _) as [above root]. cbn [fst snd] in *. intros Hfree. rewrite <- app_assoc, (app_assoc nodes) in *.
  apply IH; [rewrite !length_map; by apply level_shrinks|apply addresses_fit| | |done].
  - destruct (chunks INDEX_FANOUT level); [|done]. by cbn in Hc; subst level.
  - apply settled_level; [by rewrite Hc|done..|]. eapply collision_free_mono; [|exact Hfree]. intros b Hb. apply elem_of_app. by left.
Qed.

(** ** The graph of a table *)

Definition table_fits (t : Table) : Prop := forall c ss, t !! c = Some ss -> session_fits c ss.

Lemma rows_fit t : table_fits t -> Forall (fun kv => session_fits kv.1 kv.2) (rows t).
Proof. intros Ht. apply Forall_forall. intros kv Hkv. by apply Ht, rows_elem. Qed.

Lemma group_rows t g kv : g ∈ leaf_groups t -> kv ∈ g -> kv ∈ rows t.
Proof. intros Hg Hkv. rewrite <- (proj1 (packed_spec t)). by eapply concat_elem. Qed.

Lemma group_fits t g : table_fits t -> g ∈ leaf_groups t -> Forall (fun kv => session_fits kv.1 kv.2) g.
Proof. intros Ht Hg. apply Forall_forall. intros kv Hkv. apply (proj1 (Forall_forall _ _) (rows_fit t Ht)). by eapply group_rows. Qed.

Lemma concat_common {A} (gs : list (list A)) g g' x :
  NoDup (concat gs) -> g ∈ gs -> g' ∈ gs -> x ∈ g -> x ∈ g' -> g = g'.
Proof.
  induction gs as [|h gs IH]; intros Hn Hg Hg' Hx Hx'; [by apply elem_of_nil in Hg|]. cbn [concat] in Hn. apply NoDup_app in Hn as (_ & Hd & Hn).
  apply elem_of_cons in Hg as [->|Hg]; apply elem_of_cons in Hg' as [->|Hg']; [done| | |by apply IH].
  - destruct (Hd x Hx). by eapply concat_elem.
  - destruct (Hd x Hx'). by eapply concat_elem.
Qed.

Lemma leaf_block_first kv g : take 16 (block_payload (leaf_block (kv :: g))) = be_bytes 16 kv.1.
Proof.
  change (block_payload (leaf_block (kv :: g))) with (row_record kv ++ concat (map row_record g)).
  unfold row_record, push_record. rewrite <- app_assoc. by rewrite take_app_length' by (by rewrite length_be_bytes).
Qed.

(** Leaves of one table are distinct: each starts with a client of its own. *)
Lemma leaf_block_inj t g g' :
  table_fits t -> g ∈ leaf_groups t -> g' ∈ leaf_groups t -> leaf_block g = leaf_block g' -> g = g'.
Proof.
  intros Ht Hg Hg' He. destruct (packed_spec t) as (Hr & Hne & _).
  pose proof (proj1 (Forall_forall _ _) Hne _ Hg) as Hn. pose proof (proj1 (Forall_forall _ _) Hne _ Hg') as Hn'.
  destruct g as [|kv g0] eqn:Eg, g' as [|kv' g0'] eqn:Eg'; [by destruct Hn..|by destruct Hn'|].
  apply (f_equal (fun b => take 16 (block_payload b))) in He. rewrite !leaf_block_first in He. rewrite <- Eg, <- Eg' in *.
  assert (Hkv : kv ∈ g) by (rewrite Eg; constructor). assert (Hkv' : kv' ∈ g') by (rewrite Eg'; constructor).
  pose proof (group_rows _ _ _ Hg Hkv) as H1. pose proof (group_rows _ _ _ Hg' Hkv') as H2. apply rows_elem in H1, H2.
  destruct (Ht _ _ H1) as (Hf1 & _). destruct (Ht _ _ H2) as (Hf2 & _).
  apply (f_equal from_be_bytes) in He. rewrite !be_bytes_roundtrip in He by done.
  assert (kv = kv') as <- by (destruct kv, kv'; cbn in *; congruence).
  apply (concat_common (leaf_groups t) g g' kv); [|done..]. rewrite Hr. apply (NoDup_fmap_1 fst), rows_keys.
Qed.

Definition leaves_of (t : Table) : list (list byte) := map leaf_block (leaf_groups t).
Definition nodes_of (t : Table) : list (list byte) := leaves_of t ++ (index_of t).1 ++ [(index_of t).2].

Lemma leaf_addrs_eq t : leaf_addrs t = map block_address (leaves_of t).
Proof. unfold leaf_addrs, leaves_of. by rewrite map_map. Qed.

Lemma leaves_NoDup t : table_fits t -> NoDup (leaves_of t).
Proof.
  intros Ht. destruct (packed_spec t) as (Hr & Hne & _). apply NoDup_fmap_2_strong; [intros g g' Hg Hg'; by eapply leaf_block_inj|].
  apply NoDup_concat_groups; [|done]. rewrite Hr. apply (NoDup_fmap_1 fst), rows_keys.
Qed.

Lemma leaves_packed t b : b ∈ leaves_of t -> b ∈ (packed t).2.
Proof. intros (g & -> & Hg)%list_elem_of_fmap. apply packed_spec. right. by exists g. Qed.

Lemma nodes_emitted t b : b ∈ nodes_of t -> b ∈ emitted t.
Proof. unfold nodes_of, emitted. rewrite !(elem_of_app _ (_ ++ _)). intros [Hb|Hb]; [left; by apply leaves_packed|by right]. Qed.

Lemma nodes_NoDup t : table_fits t -> collision_free (emitted t) -> NoDup (nodes_of t).
Proof.
  intros Ht Hc. assert (Hc' : collision_free (nodes_of t)) by (eapply collision_free_mono; [apply nodes_emitted|done]).
  unfold nodes_of, index_of in *. destruct (leaf_groups t) as [|g gs] eqn:Hg.
  { unfold leaf_addrs, leaves_of. rewrite Hg. cbn. apply NoDup_singleton. }
  apply settled_index; [done|rewrite leaf_addrs_eq; apply addresses_fit|unfold leaf_addrs; by rewrite Hg| |done].
  assert (Hn : NoDup (leaves_of t)) by (by apply leaves_NoDup). split; [done| | |].
  - rewrite leaf_addrs_eq. apply NoDup_addresses; [|done]. eapply collision_free_mono; [|exact Hc']. intros b Hb. apply elem_of_app. by left.
  - intros a. by rewrite leaf_addrs_eq.
  - intros b c (g' & -> & _)%list_elem_of_fmap Hk. by rewrite kind_leaf in Hk.
Qed.

Lemma nodes_count t : table_fits t -> (length (nodes_of t) <= length (emitted t))%nat.
Proof.
  intros Ht. unfold nodes_of, emitted. rewrite !(length_app _ (_ ++ _)). apply Nat.add_le_mono_r.
  apply submseteq_length, NoDup_submseteq; [by apply leaves_NoDup|]. apply leaves_packed.
Qed.

Lemma expands_leaves v gs :
  reads_all v (map leaf_block gs) ->
  expands v (map (block_address ∘ leaf_block) gs) (map (block_address ∘ leaf_block) gs) (map (block_address ∘ leaf_block) gs).
Proof.
  induction gs as [|g gs IH]; intros Hv; cbn [map]; [constructor|]. eapply ex_leaf; [apply Hv; constructor|apply kind_leaf|].
  apply IH. intros b Hb. apply Hv. by constructor.
Qed.

(** Where every block of the table is readable, the walk from the root meets each node
    once and the leaves in the order of the rows. *)
Lemma tree_expands v t :
  table_fits t -> collision_free (emitted t) -> reads_all v (nodes_of t) ->
  exists ns, expands v [sessions_root t] ns (leaf_addrs t) /\ NoDup ns /\ (length ns <= length (emitted t))%nat /\
    ns ≡ₚ map block_address (nodes_of t).
Proof.
  intros Ht Hc Hv. assert (Hc' : collision_free (nodes_of t)) by (eapply collision_free_mono; [apply nodes_emitted|done]).
  destruct (expands_index v (length (leaf_addrs t)) (leaf_addrs t) (leaf_addrs t) (leaf_addrs t)) as (ns & Hx & Hp);
    [done|rewrite leaf_addrs_eq; apply addresses_fit|intros b Hb; apply Hv, elem_of_app; by right|..].
  { apply expands_leaves. intros b Hb. apply Hv, elem_of_app. by left. }
  change (index_run (length (leaf_addrs t)) (leaf_addrs t)) with (index_of t) in *.
  rewrite leaf_addrs_eq, <- map_app in Hp. change (leaves_of t ++ _) with (nodes_of t) in Hp.
  exists ns. split; [done|]. rewrite Hp at 1 2. rewrite length_map. split_and!; [by apply NoDup_addresses, nodes_NoDup|by apply nodes_count|done].
Qed.

Section decode.
Context {V : Type} `{BlockStore V}.

Lemma ordered_leaves_expands fuel visited stack ns ls out (v : V) :
  expands (read_verified_block v) stack ns ls -> NoDup ns -> (forall a, a ∈ ns -> a ∉ visited) ->
  Z.of_nat (size visited) + zlen ns <= MAX_REACHABLE_BLOCKS -> (length ns < fuel)%nat ->
  ordered_leaves_loop fuel visited stack out v = Some (out ++ ls).
Proof.
  intros Hx. revert fuel visited out. induction Hx as [|a b st ns ls Ha Hk _ IH|a b st ns ls Ha Hk _ IH];
    intros fuel visited out Hn Hv Hm Hf; (destruct fuel as [|fuel]; [lia|]); cbn [ordered_leaves_loop skip_visited]; [by rewrite app_nil_r|..].
  all: apply NoDup_cons in Hn as [Hna Hn]; rewrite bool_decide_false by (apply Hv; constructor).
  all: assert (Hsz : size ({[a]} ∪ visited) = S (size visited)) by (rewrite size_union by (apply disjoint_singleton_l, Hv; constructor); by rewrite size_singleton).
  all: cbn [length] in Hm, Hf; rewrite (proj2 (Z.ltb_ge _ _)) by lia; rewrite Ha; cbn [mbind option_bind]; rewrite Hk; cbn [Z.eqb TAG_LEAF TAG_INDEX].
  all: rewrite IH; [by rewrite <- ?app_assoc|done| |lia|lia].
  all: intros x Hx [->%elem_of_singleton|Hx']%elem_of_union; [done|]; apply (Hv x); [by constructor|done].
Qed.

End decode.

Section view.
Context {St V : Type} `{BlockStore St} `{BlockStore V}.

(** A view that agrees on what the stack reaches walks the same way. *)
Lemma expands_view (s : St) (v : V) stack ns ls :
  expands (read_verified_block s) stack ns ls ->
  (forall r a, r ∈ stack -> reaches session_block_references s r a -> read_verified_block v a = read_verified_block s a) ->
  expands (read_verified_block v) stack ns ls /\ (forall a, a ∈ ns -> exists r, r ∈ stack /\ reaches session_block_references s r a).
Proof.
  induction 1 as [|a b st ns ls Ha Hk _ IH|a b st ns ls Ha Hk _ IH]; intros Hv.
  - split; [constructor|]. intros a Ha. by apply elem_of_nil in Ha.
  - destruct IH as [IH1 IH2]; [intros r x Hr; apply Hv; by constructor|]. split.
    + eapply ex_leaf; [by rewrite (Hv a a); [|constructor|apply rtc_refl]|done..].
    + intros x [->|Hx]%elem_of_cons; [exists a; split; [constructor|apply rtc_refl]|]. destruct (IH2 x Hx) as (r & ? & ?). exists r. split; [by constructor|done].
  - assert (He : forall c, c ∈ index_children b -> edge session_block_references s a c).
    { intros c Hc. exists b. split; [done|]. unfold session_block_references. by rewrite Hk. }
    destruct IH as [IH1 IH2].
    { intros r x [Hr|Hr]%elem_of_app Hx; [apply (Hv a); [constructor|]; eapply rtc_l; [by apply He|done]|apply (Hv r); [by constructor|done]]. }
    split; [eapply ex_index; [by rewrite (Hv a a); [|constructor|apply rtc_refl]|done..]|].
    intros x [->|Hx]%elem_of_cons; [exists a; split; [constructor|apply rtc_refl]|]. destruct (IH2 x Hx) as (r & [Hr|Hr]%elem_of_app & Hrx).
    + exists a. split; [constructor|]. eapply rtc_l; [by apply He|done].
    + exists r. split; [by constructor|done].
Qed.

End view.

(** ** Round trip *)

(** What the index blocks name and how long they are. *)
Lemma index_run_blocks fuel level b :
  (length level <= fuel)%nat -> Forall (fits 128) level -> b ∈ (index_run fuel level).1 ++ [(index_run fuel level).2] ->
  zlen b <= SESSION_BLOCK_BUDGET /\ block_kind b = Some TAG_INDEX /\
  forall c, c ∈ index_children b -> c ∈ level ++ map block_address (index_run fuel level).1.
Proof.
  assert (Hone : forall children, indexable children -> zlen children <= INDEX_FANOUT ->
    zlen (index_block children) <= SESSION_BLOCK_BUDGET /\ block_kind (index_block children) = Some TAG_INDEX /\ index_children (index_block children) = children).
  { intros children Hi Hl. split_and!; [|apply kind_index|by apply index_block_children]. unfold index_block. rewrite zlen_session_block, length_app, length_be_bytes.
    pose proof (zlen_addrs children). assert (HEADER_LEN + 4 + 16 * INDEX_FANOUT <= SESSION_BLOCK_BUDGET) by done. lia. }
  revert level. induction fuel as [|fuel IH]; intros level Hf Hl; cbn [index_run]; pose proof fanout_pos;
    destruct (Z.leb_spec (zlen level) INDEX_FANOUT) as [Hle|Hgt]; cbn [fst snd app map]; [|lia| |].
  1,2: intros ->%list_elem_of_singleton; destruct (Hone level) as (? & ? & Hc); [split; [done|lia]|done|]; split_and!; [done..|]; intros c; rewrite Hc, app_nil_r; done.
  pose proof (chunks_indexable level Hl) as (Hi & _ & Hc). pose proof (chunks_spec INDEX_FANOUT level ltac:(lia)) as [_ Hlen].
  specialize (IH (map block_address (map index_block (chunks INDEX_FANOUT level)))).
  destruct (index_run fuel _) as [above root]. cbn [fst snd] in *. rewrite <- app_assoc. intros [Hb|Hb]%elem_of_app.
  - apply list_elem_of_fmap in Hb as (ch & -> & Hch). destruct (Hone ch) as (? & ? & Hcc); [by apply (proj1 (Forall_forall _ _) Hi)|by apply (proj1 (Forall_forall _ _) Hlen)|].
    split_and!; [done..|]. intros c. rewrite Hcc. intros Hin. apply elem_of_app. left. rewrite <- Hc. by eapply concat_elem.
  - destruct IH as (? & ? & Hx); [rewrite !length_map; by apply level_shrinks|apply addresses_fit|done|]. split_and!; [done..|].
    intros c Hin. rewrite map_app, elem_of_app. right. by apply Hx.
Qed.

Lemma index_of_blocks t b :
  b ∈ (index_of t).1 ++ [(index_of t).2] ->
  zlen b <= SESSION_BLOCK_BUDGET /\ block_kind b = Some TAG_INDEX /\
  forall c, c ∈ index_children b -> c ∈ leaf_addrs t ++ map block_address (index_of t).1.
Proof. apply index_run_blocks; [done|]. rewrite leaf_addrs_eq. apply addresses_fit. Qed.

Lemma emitted_closed t b c :
  table_fits t -> b ∈ emitted t -> c ∈ session_block_references b -> c ∈ map block_address (emitted t).
Proof.
  intros Ht [Hb|Hb]%elem_of_app Hc; unfold emitted; rewrite map_app, elem_of_app.
  - left. apply packed_spec in Hb as [(kv & ch & _ & _ & ->)|(g & Hg & ->)].
    { unfold session_block_references in Hc. rewrite kind_chunk in Hc. by apply elem_of_nil in Hc. }
    rewrite leaf_refs in Hc by (by eapply group_fits). apply list_elem_of_In, in_concat in Hc as (l & Hl & Hin).
    apply in_map_iff in Hl as (kv & <- & Hkv). apply list_elem_of_In, list_elem_of_fmap in Hin as (ch & -> & Hch). apply list_elem_of_fmap.
    exists (chunk_block ch). split; [done|]. apply packed_spec. left. exists kv, ch. split_and!; [|done..]. eapply group_rows; [done|by apply list_elem_of_In].
  - destruct (index_of_blocks t b Hb) as (_ & Hk & Hch). unfold session_block_references in Hc. rewrite Hk in Hc. apply Hch, elem_of_app in Hc as [Hc|Hc].
    + left. rewrite leaf_addrs_eq in Hc. apply list_elem_of_fmap in Hc as (lb & -> & Hlb). apply list_elem_of_fmap. exists lb. split; [done|by apply leaves_packed].
    + right. rewrite map_app, elem_of_app. by left.
Qed.

Lemma size_list_to_set_le (l : list Z) : (size (list_to_set l : gset Z) <= length l)%nat.
Proof.
  induction l as [|x l IH]; cbn [length]; [by rewrite list_to_set_nil, size_empty|]. rewrite list_to_set_cons, size_union_alt, size_singleton.
  pose proof (subseteq_size (list_to_set l ∖ {[x]}) (list_to_set l : gset Z) ltac:(set_solver)). lia.
Qed.

(** ** Every block is reached *)

Section reached.
Context {St : Type} `{BlockStore St}.

Lemma nodes_reached (s : St) t b :
  table_fits t -> collision_free (emitted t) -> reads_all (read_verified_block s) (emitted t) -> b ∈ nodes_of t ->
  reaches session_block_references s (sessions_root t) (block_address b).
Proof.
  intros Ht Hc Hs Hb. destruct (tree_expands (read_verified_block s) t Ht Hc) as (ns & Hx & _ & _ & Hp); [intros x Hx; by apply Hs, nodes_emitted|].
  destruct (expands_view s s _ _ _ Hx) as [_ Hreach]; [done|]. destruct (Hreach (block_address b)) as (r & ->%list_elem_of_singleton & Hr); [|done].
  rewrite Hp. apply list_elem_of_fmap. by exists b.
Qed.

(** Where a table's blocks are all held, its references lead from the root to each. *)
Lemma emitted_reached (s : St) t b :
  table_fits t -> collision_free (emitted t) -> reads_all (read_verified_block s) (emitted t) -> b ∈ emitted t ->
  reaches session_block_references s (sessions_root t) (block_address b).
Proof.
  intros Ht Hc Hs Hb. pose proof (fun b => nodes_reached s t b Ht Hc Hs) as Hn.
  apply elem_of_app in Hb as [Hb|Hb]; [|apply Hn, elem_of_app; by right].
  apply packed_spec in Hb as [(kv & c & Hkv & Hch & ->)|(g & Hg & ->)]; [|apply Hn, elem_of_app; left; apply list_elem_of_fmap; by exists g].
  rewrite <- (proj1 (packed_spec t)) in Hkv. apply list_elem_of_In, in_concat in Hkv as (g & Hg & Hkv). apply list_elem_of_In in Hg, Hkv.
  assert (Hgb : leaf_block g ∈ nodes_of t) by (apply elem_of_app; left; apply list_elem_of_fmap; by exists g).
  eapply rtc_r; [by apply Hn|]. exists (leaf_block g). split; [by apply Hs, nodes_emitted|]. rewrite leaf_refs by (by eapply group_fits).
  eapply concat_elem; [apply list_elem_of_fmap; by exists kv|apply list_elem_of_fmap; by exists c].
Qed.

End reached.

Lemma reached_emitted {St : Type} `{BlockStore St} (s : St) t a :
  table_fits t -> reads_all (read_verified_block s) (emitted t) -> reaches session_block_references s (sessions_root t) a ->
  exists b, b ∈ emitted t /\ a = block_address b.
Proof.
  intros Ht Hs Ha. enough (Hin : a ∈ map block_address (emitted t)) by (apply list_elem_of_fmap in Hin as (b & -> & Hb); by exists b).
  refine (rtc_ind_r (fun x => x ∈ map block_address (emitted t)) (sessions_root t) _ _ a Ha).
  - apply list_elem_of_fmap. exists (index_of t).2. split; [done|]. unfold emitted. rewrite !elem_of_app, list_elem_of_singleton. by right; right.
  - intros x y _ (b' & Hb' & Hy) (b & -> & Hb)%list_elem_of_fmap. rewrite (Hs b Hb) in Hb'. injection Hb' as <-. by eapply emitted_closed.
Qed.

Section roundtrip.
Context {St V : Type} `{BlockStore St} `{BlockStore V}.

(** From any view that agrees with a full store on what the root reaches. *)
Lemma decode_view t (s : St) (v : V) :
  table_fits t -> collision_free (emitted t) -> zlen (emitted t) <= MAX_REACHABLE_BLOCKS ->
  reads_all (read_verified_block s) (emitted t) ->
  (forall a, reaches session_block_references s (sessions_root t) a -> read_verified_block v a = read_verified_block s a) ->
  decode_sessions (sessions_root t) v = Some t.
Proof.
  intros Ht Hc Hm Hs Hv. destruct (tree_expands (read_verified_block s) t Ht Hc) as (ns & Hx & Hnd & Hlen & _); [intros b Hb; by apply Hs, nodes_emitted|].
  destruct (expands_view s v _ _ _ Hx) as [Hx' _]; [intros r a ->%list_elem_of_singleton; apply Hv|].
  assert (Hb : forall b, b ∈ emitted t -> read_verified_block v (block_address b) = Some b).
  { intros b Hb. rewrite Hv by (by apply emitted_reached). by apply Hs. }
  unfold decode_sessions, ordered_leaves. rewrite (ordered_leaves_expands _ _ _ ns (leaf_addrs t) _ v Hx' Hnd);
    [|set_solver|rewrite size_empty; lia|lia]. cbn [mbind option_bind app]. unfold leaf_addrs. rewrite decode_leaves_groups.
  - by rewrite (proj1 (packed_spec t)), rows_rebuild.
  - rewrite (proj1 (packed_spec t)). by apply rows_fit.
  - intros g Hg. split; [|intros kv c Hkv Hch]; apply Hb, elem_of_app; left; apply packed_spec.
    + right. by exists g.
    + left. exists kv, c. split_and!; [by eapply group_rows|done..].
Qed.

End roundtrip.

(** C21. The session table survives its encoding: from the store it was written to, and from
    any store that agrees on the blocks its root reaches (the same store after sweeps
    and writes that keep them, a peer that fetched them), the decode returns exactly
    the table. *)
Theorem sessions_roundtrip {St V : Type} `{BlockStoreModel St} `{BlockStore V} (t : Table) (s : St) (v : V)
    (Hfit : table_fits t) (Hfree : collision_free (emitted t)) (Hmany : zlen (emitted t) <= MAX_REACHABLE_BLOCKS)
    (Hview : forall a, reaches session_block_references (encode_sessions t s).2 (encode_sessions t s).1 a ->
       read_verified_block v a = read_verified_block (encode_sessions t s).2 a) :
  decode_sessions (encode_sessions t s).1 v = Some t.
Proof.
  rewrite encode_emits in *. cbn [fst snd] in *. apply (decode_view t (writes s (emitted t)) v); [done..| |done].
  intros b Hb. by apply writes_holds.
Qed.

(** The whole transfer of a session table: a laggard that pulls the graph of the donor's
    root, block by block, ends up with a store from which it decodes the donor's table. *)
Theorem session_transfer {St L : Type} `{BlockStoreModel St} `{BlockStoreModel L} (t : Table) (s : St) (l : L)
    (Hfit : table_fits t) (Hfree : collision_free (emitted t)) (Hmany : zlen (emitted t) <= MAX_REACHABLE_BLOCKS)
    (Hag : agrees (encode_sessions t s).2 l) :
  exists l', pump session_block_references (encode_sessions t s).2 (S (length (emitted t)))
      (block_sync_new (encode_sessions t s).1) l = Some l' /\
    decode_sessions (encode_sessions t s).1 l' = Some t.
Proof.
  rewrite encode_emits in *. cbn [fst snd] in *. set (d := writes s (emitted t)) in *.
  assert (Hd : reads_all (read_verified_block d) (emitted t)) by (intros b Hb; by apply writes_holds).
  set (dag := list_to_set (map block_address (emitted t)) : gset Z).
  assert (Hw : forall a, reaches session_block_references d (sessions_root t) a -> a ∈ dag /\ is_Some (read_verified_block d a)).
  { intros a Ha. destruct (reached_emitted d t a Hfit Hd Ha) as (b & Hb & ->).
    split; [apply elem_of_list_to_set, list_elem_of_fmap; by exists b|]. rewrite (Hd b Hb). by eexists. }
  assert (Hsz : (size dag <= length (emitted t))%nat) by (unfold dag; rewrite <- (length_map block_address (emitted t)); apply size_list_to_set_le).
  destruct (pump_finishes session_block_references (sessions_root t) d dag Hw ltac:(lia) (S (length (emitted t)))
    (block_sync_new (sessions_root t)) l Hag (walking_new _ _ _) ltac:(lia)) as (l' & Hp & Hl).
  exists l'. split; [done|]. by apply (decode_view t d l').
Qed.

(** ** Bounds *)

Lemma chunk_block_bounded kv c : c ∈ row_chunks kv -> zlen (chunk_block c) <= SESSION_BLOCK_BUDGET.
Proof.
  intros Hc. destruct (row_chunks_cases kv) as [[Hn _]|(_ & _ & _ & _ & _ & _ & Ha)]; [rewrite Hn in Hc; by apply elem_of_nil in Hc|].
  destruct (proj1 (Forall_forall _ _) Ha c Hc) as [_ Hl]. unfold chunk_block. rewrite zlen_session_block.
  assert (BODY_CHUNK_PAYLOAD = SESSION_BLOCK_BUDGET - HEADER_LEN) by done. lia.
Qed.

(** The longest reply whose chunk addresses still fit a leaf beside its record. *)
Definition MAX_EXTERNAL_REPLY : Z := (leaf_budget - 45) / 16 * BODY_CHUNK_PAYLOAD.

Lemma row_record_bounded kv :
  (forall rn body, ss_reply kv.2 = Some (rn, body) -> zlen body <= MAX_EXTERNAL_REPLY) -> zlen (row_record kv) <= leaf_budget.
Proof.
  intros Hb. unfold row_record, row_ext. destruct (row_chunks_cases kv) as [[-> Hl]|(rn & body & Hr & Hc & _ & Hne & _)]; [done|].
  rewrite zlen_push_record, Hr. specialize (Hb _ _ Hr). pose proof (chunks_count BODY_CHUNK_PAYLOAD body ltac:(done)) as Hn.
  rewrite <- Hc in Hn. destruct (row_chunks kv) as [|ch chs]; [done|]. cbn [map]. rewrite <- map_cons, length_map.
  assert (BODY_CHUNK_PAYLOAD = 1048571) as E1 by done. assert (MAX_EXTERNAL_REPLY = 65532 * 1048571) as E2 by done. assert (leaf_budget = 1048571) as E3 by done. lia.
Qed.

(** Every block of a session table's graph fits the block budget, however many sessions
    there are, as long as no cached reply exceeds sixty-five thousand chunks; and there
    are no more leaves than sessions. *)
Theorem session_blocks_bounded (t : Table)
    (Hreplies : forall c ss rn body, t !! c = Some ss -> ss_reply ss = Some (rn, body) -> zlen body <= MAX_EXTERNAL_REPLY) :
  (forall b, b ∈ emitted t -> zlen b <= SESSION_BLOCK_BUDGET) /\ (length (leaf_groups t) <= size t)%nat.
Proof.
  destruct (packed_spec t) as (Hr & Hne & Hem & Hbud). split.
  - intros b [Hb|Hb]%elem_of_app; [|by apply (index_of_blocks t b)]. apply Hem in Hb as [(kv & c & _ & Hc & ->)|(g & Hg & ->)]; [by eapply chunk_block_bounded|].
    assert (Hrows : Forall (fun kv => zlen (row_record kv) <= leaf_budget) (rows t)).
    { apply Forall_forall. intros kv Hkv. apply row_record_bounded. intros rn body. apply (Hreplies kv.1). by apply rows_elem. }
    pose proof (proj1 (Forall_forall _ _) (Hbud Hrows) g Hg) as Hl. cbv beta in Hl. unfold leaf_block. rewrite zlen_session_block.
    assert (leaf_budget = SESSION_BLOCK_BUDGET - HEADER_LEN) by done. lia.
  - assert (size t = length (concat (leaf_groups t))) as -> by (rewrite Hr, rows_perm; by rewrite length_map_to_list).
    clear -Hne. induction Hne as [|g gs Hg _ IH]; [done|]. cbn [concat length]. rewrite length_app. destruct g; [done|cbn [length]; lia].
Qed.

(** ** The envelope *)

Lemma checkpoint_roundtrip op sm ss :
  fits 64 op -> fits 128 sm -> fits 128 ss -> decode_checkpoint (encode_checkpoint op sm ss) = Some (op, sm, ss).
Proof.
  intros Ho Hm Hs. unfold decode_checkpoint, encode_checkpoint, env_get. rewrite !length_app, !length_be_bytes. cbn [Nat.add Nat.leb mbind option_bind].
  rewrite drop_0, take_app_length' by (by rewrite length_be_bytes). rewrite drop_app_length', take_app_length' by (by rewrite length_be_bytes).
  rewrite app_assoc, drop_app_length' by (by rewrite length_app, !length_be_bytes).
  rewrite take_ge by (by rewrite length_be_bytes). by rewrite !be_bytes_roundtrip.
Qed.

(** ** A table of three sessions *)

Module SessionBlocksDemo.

Definition demo : Table :=
  <[7 := mkSession 3 (Some (3, [x61; x62])) 5]> (<[2 := mkSession 1 (Some (1, [])) 9]> (<[9 := mkSession 4 None 0]> ∅)).
Definition store : InMemoryBlockStore := mkInMemory ∅ 0.

Lemma demo_fits : table_fits demo.
Proof.
  intros c ss Hc. unfold demo in Hc. apply lookup_insert_Some in Hc as [[<- <-]|[_ Hc]]; [by split_and!|].
  apply lookup_insert_Some in Hc as [[<- <-]|[_ Hc]]; [by split_and!|].
  apply lookup_insert_Some in Hc as [[<- <-]|[_ Hc]]; [by split_and!|]. by rewrite lookup_empty in Hc.
Qed.

Lemma demo_two : exists a b, emitted demo = [a; b] /\ block_address a <> block_address b.
Proof. eexists _, _. split; [vm_compute; reflexivity|]. vm_compute. congruence. Qed.

Lemma demo_free : collision_free (emitted demo).
Proof.
  destruct demo_two as (a & b & -> & Hne). intros x y Hx Hy He.
  apply elem_of_cons in Hx as [->|Hx%list_elem_of_singleton]; apply elem_of_cons in Hy as [->|Hy%list_elem_of_singleton]; congruence.
Qed.

Lemma demo_small : zlen (emitted demo) <= MAX_REACHABLE_BLOCKS.
Proof. destruct demo_two as (a & b & -> & _). done. Qed.

Lemma sessions_roundtrip_witness :
  decode_sessions (encode_sessions demo store).1 (gc (encode_sessions demo store).2 [mkDagWalk [(encode_sessions demo store).1] session_block_references]) = Some demo.
Proof.
  apply (sessions_roundtrip demo store); [exact demo_fits|exact demo_free|exact demo_small|].
  intros a Ha. unfold read_verified_block. rewrite (proj1 (gc_spec _ _ a)); [reflexivity|].
  exists (mkDagWalk [(encode_sessions demo store).1] session_block_references), (encode_sessions demo store).1.
  split; [apply list_elem_of_singleton; reflexivity|]. split; [apply list_elem_of_singleton; reflexivity|exact Ha].
Defined.

Lemma session_transfer_witness :
  exists l', pump session_block_references (encode_sessions demo store).2 (S (length (emitted demo)))
      (block_sync_new (encode_sessions demo store).1) store = Some l' /\
    decode_sessions (encode_sessions demo store).1 l' = Some demo.
Proof. exact (session_transfer demo store store demo_fits demo_free demo_small (agrees_empty (encode_sessions demo store).2 0)). Defined.

Lemma session_blocks_bounded_witness : (length (leaf_groups demo) <= 3)%nat.
Proof.
  assert (Hr : forall c ss rn body, demo !! c = Some ss -> ss_reply ss = Some (rn, body) -> zlen body <= MAX_EXTERNAL_REPLY).
  { intros c ss rn body Hc Hb. destruct (demo_fits c ss Hc) as (_ & _ & _ & Hx). unfold demo in Hc.
    repeat (apply lookup_insert_Some in Hc as [[_ <-]|[_ Hc]]; [injection Hb as _ <-; vm_compute; congruence|]).
    apply lookup_insert_Some in Hc as [[_ <-]|[_ Hc]]; [discriminate Hb|]. rewrite lookup_empty in Hc. discriminate Hc. }
  assert (Hs : size demo = 3%nat) by (vm_compute; reflexivity). rewrite <- Hs. exact (proj2 (session_blocks_bounded demo Hr)).
Defined.

End SessionBlocksDemo.
