(* ===== verification/BlockJobs.v ===== *)
(** * Executing block jobs

    [viewstamp-proto/src/block_job.rs], [execute_block_job]: the one place block work
    touches a store, and the state machine's checkpoint interface of [state_machine.rs]
    as a class of operations with the laws its documentation states.  The job types, the
    queue and the cursor are in [Lane], the store and the walks in [Blocks], the session
    table's graph in [SessionBlocks].

    A job is answered with its output and the new store; an assertion that fails is
    [None], the one of the durability barrier (a [debug_assert!]) included. *)

From S2P Require Import Prelude Core Hash Membership Codec Message Messages BTree ViewChange Sessions Lane Blocks SessionBlocks.

(** ** The state machine *)

(** [restore] reads through the verified view and returns the seed it filled. *)
Class StateMachine (Sm Image : Type) : Type := {
  sm_apply : Sm -> OpNumber -> list byte -> list byte * Sm;
  checkpoint_image : Sm -> Image;
  materialize : forall {St : Type} `{BlockStore St}, Image -> St -> BlockAddress * St;
  block_references : list byte -> list BlockAddress;
  restore_seed : Sm -> Sm;
  restore : Sm -> BlockAddress -> (BlockAddress -> option (list byte)) -> result BlockAddress Sm;
}.

(** [VerifiedView::read_block] and [has_block] *)
Definition view_read {St : Type} `{BlockStore St} (s : St) (addr : BlockAddress) : option (list byte) := read_verified_block s addr.
Definition view_has {St : Type} `{BlockStore St} (s : St) (addr : BlockAddress) : bool := bool_decide (is_Some (read_verified_block s addr)).

Record WalkDone : Type := mkWalkDone {
  wd_walks : BlockWalks;
  wd_accepted : bool;
  wd_next : option (option BlockAddress);
  wd_purpose : WalkPurpose;
}.

Section executor.
Context {Sm Image St : Type} `{StateMachine Sm Image} `{BlockStore St}.

#[local] Abbreviation Kind := (@BlockJobKind Sm Image (gmap Z Session) BlockWalks).
#[local] Abbreviation Job := (@BlockJob Sm Image (gmap Z Session) BlockWalks).

Inductive BlockJobOutput : Type :=
| Materialized (sm_root sessions_root : BlockAddress) (flush : bool)
| Flushed (flush : bool)
| Gced
| Served (to : Peer) (addr : BlockAddress) (block : option (list byte))
| Restored (purpose : RestorePurpose) (result : result BlockAddress (Sm * Table))
| Walked (done : WalkDone).

Definition output_tag (o : BlockJobOutput) : BlockJobTag :=
  match o with
  | Materialized _ _ _ => TagMaterialize
  | Flushed _ => TagFlush
  | Gced => TagGc
  | Served _ _ _ => TagServe
  | Restored _ _ => TagRestore
  | Walked _ => TagWalk
  end.

Definition gc_walks (sm_roots session_roots : list BlockAddress) : list BlockDagWalk :=
  [mkDagWalk sm_roots block_references; mkDagWalk session_roots session_block_references].

(** The body of the job, once the cursor took its id. *)
Definition execute_kind (k : Kind) (s : St) : option (BlockJobOutput * St) :=
  match k with
  | JobMaterialize image sessions =>
      let '(sm_root, s) := materialize image s in
      let '(sessions_root, s) := encode_sessions sessions s in
      let '(f, s) := flush s in
      Some (Materialized sm_root sessions_root f, s)
  | JobFlush sm_root sessions_root =>
      if has_block s sm_root && has_block s sessions_root
      then let '(f, s) := flush s in Some (Flushed f, s) else None
  | JobGc sm_roots session_roots => Some (Gced, gc s (gc_walks sm_roots session_roots))
  | JobServe to addr => Some (Served to addr (read_verified_block s addr), s)
  | JobRestore sm_root sessions_root seed purpose =>
      let result :=
        match decode_sessions sessions_root s with
        | None => Err sessions_root
        | Some sessions =>
            match restore seed sm_root (view_read s) with
            | Ok sm => Ok (sm, sessions)
            | Err e => Err e
            end
        end in
      Some (Restored purpose result, s)
  | JobWalk walks fetched purpose =>
      let '(accepted, capped, walks, s) :=
        match fetched with
        | None => (false, false, walks, s)
        | Some (addr, bytes) =>
            match accept_block block_references session_block_references walks addr bytes s with
            | (Some a, walks, s) => (a, false, walks, s)
            | (None, walks, s) => (false, true, walks, s)
            end
        end in
      let '(next, walks) :=
        if (capped : bool) then (None, walks) else next_missing block_references session_block_references walks s in
      Some (Walked (mkWalkDone walks accepted next purpose), s)
  end.

Definition execute_block_job (cursor : option JobId) (j : Job) (s : St)
    : option (option JobId * (JobId * BlockJobOutput) * St) :=
  cursor ← cursor_admit cursor (job_id j);
  '(output, s) ← execute_kind (job_kind j) s;
  Some (cursor, (job_id j, output), s).

(** A driver's lane: jobs in issue order, their completions in that order. *)
Fixpoint execute_all (cursor : option JobId) (js : list Job) (s : St)
    : option (option JobId * list (JobId * BlockJobOutput) * St) :=
  match js with
  | [] => Some (cursor, [], s)
  | j :: js =>
      '(cursor, d, s) ← execute_block_job cursor j s;
      '(cursor, ds, s) ← execute_all cursor js s;
      Some (cursor, d :: ds, s)
  end.

End executor.
Arguments BlockJobOutput Sm : clear implicits.

(** ** What a checkpoint relies on *)

(** Where all the blocks are held, the references lead from the root to each of them. *)
Definition spanned (refs : list byte -> list BlockAddress) (root : BlockAddress) (bs : list (list byte)) : Prop :=
  forall (St : Type) (B : BlockStore St) (s : St), (forall b, b ∈ bs -> holds s b) ->
    forall b, b ∈ bs -> reaches refs s root (block_address b).

(** The trait's documentation: an image is written as a fixed set of blocks its root
    spans, a restore over those blocks rebuilds the state the image was captured from,
    and a failed one names a block the view does not have. *)
Class StateMachineModel (Sm Image : Type) `{StateMachine Sm Image} : Type := {
  image_blocks : Image -> list (list byte);
  image_root : Image -> BlockAddress;
  fill : Sm -> Image -> Sm;
  materialize_spec {St} `{BlockStoreModel St} img (s : St) : materialize img s = (image_root img, writes s (image_blocks img));
  image_root_written img : image_root img ∈ map block_address (image_blocks img);
  image_spanned img : spanned block_references (image_root img) (image_blocks img);
  restore_spec seed img v : (forall b, b ∈ image_blocks img -> v (block_address b) = Some b) ->
    restore seed (image_root img) v = Ok (fill seed img);
  restore_fault seed root v a : restore seed root v = Err a -> v a = None;
}.

Section stores.
Context {St : Type} `{BlockStoreModel St}.

(** Blocks no two of which share an address. *)
Definition distinct_addresses (U : list byte -> Prop) : Prop :=
  forall a b, U a -> U b -> block_address a = block_address b -> a = b.

Lemma holds_put (U : list byte -> Prop) (s : St) b x : distinct_addresses U -> U b -> U x -> holds s b -> holds (put s x).2 b.
Proof.
  intros Hu Hb Hx Hs. unfold holds. destruct (decide (block_address b = block_address x)) as [He|Hne].
  - rewrite (Hu b x Hb Hx He). apply put_own.
  - apply verified_spec in Hs as [Hs _]. apply verified_spec. split; [|reflexivity].
    destruct (put_spec s x) as (_ & _ & Hput). by rewrite Hput.
Qed.

Lemma holds_writes (U : list byte -> Prop) (s : St) b xs :
  distinct_addresses U -> U b -> Forall U xs -> holds s b -> holds (writes s xs) b.
Proof.
  intros Hu Hb Hx. revert s. induction Hx as [|x xs Hx _ IH]; intros s Hs; [done|]. cbn [writes foldl]. by apply IH, (holds_put U).
Qed.

Lemma holds_flush (s : St) b : holds s b -> holds (flush s).2 b.
Proof. unfold holds. rewrite !verified_spec. by rewrite flush_spec. Qed.

Lemma holds_gc (s : St) walks refs roots root bs :
  spanned refs root bs -> mkDagWalk roots refs ∈ walks -> root ∈ roots ->
  (forall b, b ∈ bs -> holds s b) -> forall b, b ∈ bs -> holds (gc s walks) b.
Proof.
  intros Hsp Hw Hr Hs b Hb. apply gc_verified; [|by apply Hs]. exists (mkDagWalk roots refs), root. split_and!; [done..|]. by apply Hsp.
Qed.

Lemma on_block_store refs w addr bytes (s : St) :
  (on_block refs w addr bytes s).2 = s \/ (on_block refs w addr bytes s).2 = (put s bytes).2.
Proof.
  unfold on_block. case_bool_decide; cbn [negb]; [|by left]. destruct (block_address bytes =? addr); cbn [negb]; [|by left]. right.
  destruct (enqueue_children _ _) as [[[]|e] w']; [|done]. by destruct (advance refs w' _) as [[[]|e] w2].
Qed.

Lemma holds_on_block (U : list byte -> Prop) refs w addr bytes (s : St) b :
  distinct_addresses U -> U b -> U bytes -> holds s b -> holds (on_block refs w addr bytes s).2 b.
Proof. intros Hu Hb Hx Hs. destruct (on_block_store refs w addr bytes s) as [-> | ->]; [done|by apply (holds_put U)]. Qed.

Lemma holds_accept (U : list byte -> Prop) sm_refs ss_refs w addr bytes (s : St) b :
  distinct_addresses U -> U b -> U bytes -> holds s b -> holds (accept_block sm_refs ss_refs w addr bytes s).2 b.
Proof.
  intros Hu Hb Hx Hs. unfold accept_block. pose proof (holds_on_block U sm_refs (bw_sm w) addr bytes s b Hu Hb Hx Hs) as H1.
  destruct (on_block sm_refs (bw_sm w) addr bytes s) as [[r1 w1] s1]. cbn [snd] in H1.
  pose proof (holds_on_block U ss_refs (bw_session w) addr bytes s1 b Hu Hb Hx H1) as H2.
  destruct (on_block ss_refs (bw_session w) addr bytes s1) as [[r2 w2] s2]. by destruct (breached r1 || breached r2).
Qed.

End stores.

Section survival.
Context {Sm Image St : Type} `{StateMachineModel Sm Image} `{BlockStoreModel St}.
Context (U : list byte -> Prop) (U_free : distinct_addresses U).

#[local] Abbreviation Kind := (@BlockJobKind Sm Image (gmap Z Session) BlockWalks).
#[local] Abbreviation Job := (@BlockJob Sm Image (gmap Z Session) BlockWalks).

(** The blocks a job writes are among those without a collision. *)
Definition writes_in (k : Kind) : Prop :=
  match k with
  | JobMaterialize img t => Forall U (image_blocks img) /\ Forall U (emitted t)
  | JobWalk _ (Some (_, bytes)) _ => U bytes
  | _ => True
  end.

(** A sweep names the two roots among the live ones. *)
Definition keeps_roots (sm_root sessions_root : BlockAddress) (k : Kind) : Prop :=
  match k with JobGc sm ss => sm_root ∈ sm /\ sessions_root ∈ ss | _ => True end.

(** Both graphs of a checkpoint are whole. *)
Definition whole (img : Image) (t : Table) (s : St) : Prop :=
  (forall b, b ∈ image_blocks img -> holds s b) /\ (forall b, b ∈ emitted t -> holds s b).

Lemma execute_kind_keeps img t k s o s' :
  table_fits t -> writes_in (JobMaterialize img t) -> writes_in k -> keeps_roots (image_root img) (sessions_root t) k ->
  whole img t s -> execute_kind k s = Some (o, s') -> whole img t s'.
Proof.
  intros Ht [Hi He] Hk Hr Hw Hx.
  assert (Hall : forall f : St -> St, (forall b, U b -> holds s b -> holds (f s) b) -> whole img t (f s)).
  { intros f Hf. destruct Hw as [Hw1 Hw2]. split; intros b Hb; apply Hf; auto; [by apply (proj1 (Forall_forall _ _) Hi)|by apply (proj1 (Forall_forall _ _) He)]. }
  destruct k as [img' t'|r1 r2|sm ss|to addr|r1 r2 seed p|walks fetched p]; cbn [execute_kind] in Hx.
  - rewrite materialize_spec, encode_emits in Hx. destruct (flush _) as [f s1] eqn:Hf in Hx. injection Hx as _ <-.
    replace s1 with ((flush (writes (writes s (image_blocks img')) (emitted t'))).2) by (by rewrite Hf). destruct Hk as [Hk1 Hk2].
    apply (Hall (fun s => (flush (writes (writes s (image_blocks img')) (emitted t'))).2)). intros b Hb Hs.
    by apply holds_flush, (holds_writes U), (holds_writes U).
  - destruct (_ && _); [|done]. destruct (flush s) as [f s1] eqn:Hf. injection Hx as _ <-.
    replace s1 with ((flush s).2) by (by rewrite Hf). apply (Hall (fun s => (flush s).2)). intros b _. apply holds_flush.
  - injection Hx as _ <-. destruct Hw as [Hw1 Hw2], Hr as [Hr1 Hr2]. split.
    + apply (holds_gc s _ block_references sm (image_root img)); [apply image_spanned|by left|done..].
    + apply (holds_gc s _ session_block_references ss (sessions_root t)); [|by right; left|done..].
      intros St' B s0 Hs0 b Hb. apply emitted_reached; [done| |done..]. intros x y Hx Hy. apply U_free; by apply (proj1 (Forall_forall _ _) He).
  - by injection Hx as _ <-.
  - by injection Hx as _ <-.
  - destruct fetched as [[addr bytes]|].
    + assert (Ha : whole img t (accept_block block_references session_block_references walks addr bytes s).2).
      { apply (Hall (fun s => (accept_block block_references session_block_references walks addr bytes s).2)). intros b Hb Hs. by apply (holds_accept U). }
      destruct (accept_block _ _ walks addr bytes s) as [[[a|] w1] s1]; [destruct (next_missing _ _ w1 s1)|]; by injection Hx as _ <-.
    + destruct (next_missing _ _ walks s). by injection Hx as _ <-.
Qed.

Lemma execute_all_keeps img t js cursor s cursor' ds s' :
  table_fits t -> writes_in (JobMaterialize img t) ->
  Forall (fun j => writes_in (job_kind j) /\ keeps_roots (image_root img) (sessions_root t) (job_kind j)) js ->
  whole img t s -> execute_all cursor js s = Some (cursor', ds, s') -> whole img t s'.
Proof.
  intros Ht Hi Hjs. revert cursor s cursor' ds s'. induction Hjs as [|j js [Hw Hk] _ IH]; intros cursor s cursor' ds s' Hwh Hx; cbn [execute_all] in Hx.
  - by injection Hx as _ _ <-.
  - apply bind_Some in Hx as ([[c1 d] s1] & Hj & Hx). apply bind_Some in Hx as ([[c2 ds'] s2] & Hrest & Hx). injection Hx as _ _ <-.
    unfold execute_block_job in Hj. apply bind_Some in Hj as (c & _ & Hj). apply bind_Some in Hj as ([o s3] & Hj & He). injection He as _ _ <-.
    eapply IH; [|exact Hrest]. by eapply execute_kind_keeps.
Qed.

Lemma materialized_whole img t s o s' :
  writes_in (JobMaterialize img t) -> execute_kind (JobMaterialize img t) s = Some (o, s') ->
  (exists f, o = Materialized (image_root img) (sessions_root t) f) /\ whole img t s'.
Proof.
  intros [Hi He] Hx. cbn [execute_kind] in Hx. rewrite materialize_spec, encode_emits in Hx. destruct (flush _) as [f s1] eqn:Hf in Hx.
  injection Hx as <- <-. split; [by exists f|]. replace s1 with ((flush (writes (writes s (image_blocks img)) (emitted t))).2) by (by rewrite Hf).
  assert (Hfree : forall bs, Forall U bs -> collision_free bs).
  { intros bs Hb x y Hx Hy. apply U_free; by apply (proj1 (Forall_forall _ _) Hb). }
  split; intros b Hb; apply holds_flush.
  - apply (holds_writes U); [done|by apply (proj1 (Forall_forall _ _) Hi)|done|]. apply writes_holds; auto.
  - apply writes_holds; auto.
Qed.

Lemma holds_present (s : St) b : holds s b -> has_block s (block_address b) = true.
Proof. intros [Hs _]%verified_spec. rewrite has_block_spec, Hs. by apply bool_decide_eq_true_2. Qed.

Lemma whole_restores img t s seed purpose :
  table_fits t -> writes_in (JobMaterialize img t) -> zlen (emitted t) <= MAX_REACHABLE_BLOCKS -> whole img t s ->
  has_block s (image_root img) && has_block s (sessions_root t) = true /\
  execute_kind (JobRestore (image_root img) (sessions_root t) seed purpose) s = Some (Restored purpose (Ok (fill seed img, t)), s).
Proof.
  intros Ht [Hi He] Hm [Hw1 Hw2]. split.
  - pose proof (image_root_written img) as Hr. apply list_elem_of_fmap in Hr as (b & -> & Hb). rewrite (holds_present s b) by auto. cbn [andb].
    apply (holds_present s (index_of t).2), Hw2. unfold emitted. rewrite !elem_of_app, list_elem_of_singleton. auto.
  - cbn [execute_kind]. rewrite (decode_view t s s); [|done| |done|exact Hw2|done].
    + by rewrite (restore_spec seed img (view_read s)).
    + intros x y Hx Hy. apply U_free; by apply (proj1 (Forall_forall _ _) He).
Qed.

(** C20. A checkpoint that was materialized stays restorable: whatever block jobs run after it
    (other checkpoints, transfers, serves, sweeps that name its two roots among the live
    ones), the durability barrier over it finds both roots and a restore rebuilds the
    state of the image and the exact session table. *)
Theorem checkpoint_survives img t s o s1 js cursor cursor' ds s2 seed purpose
    (Hfit : table_fits t) (Hmany : zlen (emitted t) <= MAX_REACHABLE_BLOCKS)
    (Hin : writes_in (JobMaterialize img t)) (Hmat : execute_kind (JobMaterialize img t) s = Some (o, s1))
    (Hjs : Forall (fun j => writes_in (job_kind j) /\ keeps_roots (image_root img) (sessions_root t) (job_kind j)) js)
    (Hrun : execute_all cursor js s1 = Some (cursor', ds, s2)) :
  (exists f, o = Materialized (image_root img) (sessions_root t) f) /\
  is_Some (execute_kind (JobFlush (image_root img) (sessions_root t)) s2) /\
  execute_kind (JobRestore (image_root img) (sessions_root t) seed purpose) s2 =
    Some (Restored purpose (Ok (fill seed img, t)), s2).
Proof.
  destruct (materialized_whole _ _ _ _ _ Hin Hmat) as [Ho Hw]. pose proof (execute_all_keeps _ _ _ _ _ _ _ _ Hfit Hin Hjs Hw Hrun) as Hw2.
  destruct (whole_restores img t s2 seed purpose Hfit Hin Hmany Hw2) as [Hb Hr]. split_and!; [done| |done].
  cbn [execute_kind]. rewrite Hb. destruct (flush s2). by eexists.
Qed.

End survival.

(** ** A state machine of one block *)

Module BlockJobsDemo.

(** The whole state is one block without references. *)
#[local] Instance cell_machine : StateMachine (list byte) (list byte) := {
  sm_apply sm op body := (sm, body);
  checkpoint_image sm := sm;
  materialize St B img s := put s img;
  block_references _ := [];
  restore_seed _ := [];
  restore seed root v := match v root with Some b => Ok b | None => Err root end;
}.

#[local] Program Instance cell_machine_model : StateMachineModel (list byte) (list byte) := {
  image_blocks img := [img];
  image_root img := block_address img;
  fill _ img := img;
}.
Next Obligation. intros. apply put_pair. Qed.
Next Obligation. intros. cbn [map]. constructor. Qed.
Next Obligation. intros img St B s Hs b ->%list_elem_of_singleton. apply rtc_refl. Qed.
Next Obligation. intros seed img v Hv. cbn [restore cell_machine]. rewrite Hv by constructor. reflexivity. Qed.
Next Obligation. intros seed root v a. cbn [restore cell_machine]. destruct (v root) eqn:E; [discriminate|]. by injection 1 as <-. Qed.

Definition image : list byte := [x68; x69].
Definition store : InMemoryBlockStore := mkInMemory ∅ 0.
Abbreviation demo := SessionBlocksDemo.demo.
Definition universe (b : list byte) : Prop := b ∈ image :: emitted demo.


Lemma universe_distinct : distinct_addresses universe.
Proof.
  destruct SessionBlocksDemo.demo_two as (a & b & Hab & Hne).
  assert (Ha : block_address image <> block_address a /\ block_address image <> block_address b).
  { assert (Hd : map block_address (emitted demo) = [block_address a; block_address b]) by (rewrite Hab; reflexivity).
    assert (Hn : bool_decide (block_address image ∈ map block_address (emitted demo)) = false) by (vm_compute; reflexivity).
    apply bool_decide_eq_false in Hn. rewrite Hd in Hn. split; intros He; apply Hn; rewrite He; [left|right; left]. }
  intros x y Hx Hy He. unfold universe in Hx, Hy. rewrite Hab in Hx, Hy. destruct Ha as [Ha1 Ha2].
  apply elem_of_cons in Hx as [Hx|Hx]; [|apply elem_of_cons in Hx as [Hx|Hx%list_elem_of_singleton]];
    (apply elem_of_cons in Hy as [Hy|Hy]; [|apply elem_of_cons in Hy as [Hy|Hy%list_elem_of_singleton]]); rewrite Hx, Hy in *; congruence.
Qed.

Lemma demo_writes_in : writes_in universe (JobMaterialize image demo).
Proof.
  split; apply Forall_forall; intros b Hb; unfold universe; [apply list_elem_of_singleton in Hb as ->; left|by right].
Qed.

Definition run : option (option (Z * Z) * list (Z * Z * BlockJobOutput (list byte)) * InMemoryBlockStore) :=
  '(_, s) ← execute_kind (JobMaterialize image demo) store;
  execute_all None [mkBlockJob (1, 2) (JobGc [block_address image] [sessions_root demo]); mkBlockJob (1, 3) (JobServe (PeerReplica 1) 7)] s.

Lemma checkpoint_survives_witness :
  exists c ds s2, run = Some (c, ds, s2) /\
    execute_kind (JobRestore (block_address image) (sessions_root demo) [] SyncedCheckpoint) s2 =
      Some (Restored SyncedCheckpoint (Ok (image, demo)), s2).
Proof.
  assert (Hrun : exists c ds s2, run = Some (c, ds, s2)) by (vm_compute; eexists _, _, _; reflexivity).
  destruct Hrun as (c & ds & s2 & Hrun). exists c, ds, s2. split; [exact Hrun|]. unfold run in Hrun.
  destruct (execute_kind (JobMaterialize image demo) store) as [[o s1]|] eqn:Hm; [|discriminate Hrun]. cbn [mbind option_bind] in Hrun.
  refine (proj2 (proj2 (checkpoint_survives universe universe_distinct image demo store o s1 _ None c ds s2 [] SyncedCheckpoint
    SessionBlocksDemo.demo_fits SessionBlocksDemo.demo_small demo_writes_in Hm _ Hrun))).
  constructor; [split; [exact I|split; constructor]|]. constructor; [split; exact I|constructor].
Defined.

End BlockJobsDemo.
