(* ===== verification/Medium.v ===== *)
(** * The storage session

    [viewstamp-proto/src/storage/session/mod.rs]: the owner of the write-ahead log
    and superblock handles and of every write fact that outlives an endpoint.  The
    append ledger with its slot fence and quota, the durable-root timeline (one
    front, one parked cell per role) and the envelope ledger.  The block lane it
    also fronts is [Lane].

    [Wal] and [Superblock] are the traits an embedder implements, as classes of
    operations; [WalModel] and [SuperblockModel] state what the traits' contracts
    promise, against which the theorems are proved.  A fail-stopping [assert!] or
    [panic!] is [None]. *)

From S2P Require Import Prelude Core Hash Membership Codec Message Messages Sessions Normal Storage Lane.

(** An incarnation and a sequence number: the id of a write, and its session key. *)
Abbreviation WriteId := (Z * Z)%type (only parsing).

(** [session_append_quota] of [endpoint/mod.rs]. *)
Definition session_append_quota (checkpoint_ops : Z) : Z :=
  sat_mul 64 (sat_add 64 (sat_mul 64 checkpoint_ops IMPLIED_RING_INTERVALS) MAX_PIPELINE) 2.

(** ** The backends *)

Inductive WalDone : Type :=
| Appended (id : WriteId)
| Cancelled (id : WriteId)
| ReadOk (id : WriteId) (header : Header) (body : list byte)
| Absent (id : WriteId)
| WalFault (id : WriteId)
| BodyFaulty (id : WriteId) (header : Header).

Inductive SuperblockDone : Type :=
| Wrote (id : WriteId)
| CheckpointRead (id : WriteId) (op : OpNumber) (snapshot : list byte)
| SbFault (id : WriteId).

Class Wal (W : Type) : Type := {
  wal_capacity : W -> Z;
  wal_submit_append : W -> WriteId -> OpNumber -> Header -> list byte -> W;
  wal_submit_read : W -> WriteId -> OpNumber -> W;
  wal_truncate : W -> OpNumber -> list WriteId * W;
  wal_prune : W -> OpNumber -> list WriteId * W;
  wal_poll : W -> option WalDone * W;
}.

Class Superblock (B : Type) : Type := {
  sb_state : B -> VsrState;
  sb_submit_write : B -> WriteId -> VsrState -> B;
  sb_submit_write_checkpoint : B -> WriteId -> OpNumber -> list byte -> B;
  sb_submit_read_checkpoint : B -> WriteId -> B;
  sb_poll : B -> option SuperblockDone * B;
}.

(** ** Session state *)

Inductive RootRole : Type :=
| DurableView
| CheckpointRoot.

#[export] Instance RootRole_eq_dec : EqDecision RootRole.
Proof. solve_decision. Defined.

Record RootEntry : Type := mkRootEntry {
  re_role : RootRole;
  re_id : WriteId;
  re_state : VsrState;
  re_stamp : Z;
}.

Definition PARKED_ROOT_ROLES : nat := 2.
Definition MAX_INFLIGHT_ROOTS : nat := 1 + PARKED_ROOT_ROLES.

(** The array of parked cells, indexed by [RootRole::cell]. *)
Record Parked : Type := mkParked { parked_view : option RootEntry; parked_checkpoint : option RootEntry }.

Definition parked_at (p : Parked) (r : RootRole) : option RootEntry :=
  match r with DurableView => parked_view p | CheckpointRoot => parked_checkpoint p end.

Definition park (p : Parked) (r : RootRole) (c : option RootEntry) : Parked :=
  match r with
  | DurableView => mkParked c (parked_checkpoint p)
  | CheckpointRoot => mkParked (parked_view p) c
  end.

Definition parked_list (p : Parked) : list RootEntry :=
  option_list (parked_view p) ++ option_list (parked_checkpoint p).

Inductive AppendSubmission : Type :=
| Submitted
| SlotFenced (header : Header) (body : list byte)
| QuotaExhausted (header : Header) (body : list byte).

Inductive CheckpointSubmission : Type :=
| EnvelopeSubmitted
| EnvelopeFenced.

Section session.
Context {W B : Type} `{Wal W} `{Superblock B}.
Context {Sm Image Sessions Walks : Type}.
#[local] Abbreviation LaneFront := (@Lane.LaneFront Sm Image Sessions Walks).
#[local] Abbreviation BlockJobKind := (@Lane.BlockJobKind Sm Image Sessions Walks).
#[local] Abbreviation BlockJob := (@Lane.BlockJob Sm Image Sessions Walks).

Record Medium : Type := mkMedium {
  wal : W;
  sb : B;
  wal_writes : gmap WriteId Z;
  wal_slots : gset Z;
  append_quota_cell : Z;
  root_front : option RootEntry;
  parked_roots : Parked;
  next_root_stamp : Z;
  checkpoints : gmap WriteId Z;
  appends_slot_fenced : Z;
  appends_quota_refused : Z;
  envelopes_fenced : Z;
  roots_superseded : Z;
  roots_abandoned : Z;
  lane : LaneFront;
}.

Definition medium_new (w : W) (b : B) : Medium :=
  mkMedium w b ∅ ∅ 0 None (mkParked None None) 0 ∅ 0 0 0 0 0 lane_new.

Definition set_appends (m : Medium) (w : W) (writes : gmap WriteId Z) (slots : gset Z) : Medium :=
  mkMedium w (sb m) writes slots (append_quota_cell m) (root_front m) (parked_roots m)
    (next_root_stamp m) (checkpoints m) (appends_slot_fenced m) (appends_quota_refused m)
    (envelopes_fenced m) (roots_superseded m) (roots_abandoned m) (lane m).

Definition set_quota (m : Medium) (q : Z) : Medium :=
  mkMedium (wal m) (sb m) (wal_writes m) (wal_slots m) q (root_front m) (parked_roots m)
    (next_root_stamp m) (checkpoints m) (appends_slot_fenced m) (appends_quota_refused m)
    (envelopes_fenced m) (roots_superseded m) (roots_abandoned m) (lane m).

Definition count_refusal (m : Medium) (slot quota : Z) : Medium :=
  mkMedium (wal m) (sb m) (wal_writes m) (wal_slots m) (append_quota_cell m) (root_front m)
    (parked_roots m) (next_root_stamp m) (checkpoints m) (appends_slot_fenced m + slot)
    (appends_quota_refused m + quota) (envelopes_fenced m) (roots_superseded m) (roots_abandoned m) (lane m).

Definition set_roots (m : Medium) (b : B) (front : option RootEntry) (p : Parked) : Medium :=
  mkMedium (wal m) b (wal_writes m) (wal_slots m) (append_quota_cell m) front p
    (next_root_stamp m) (checkpoints m) (appends_slot_fenced m) (appends_quota_refused m)
    (envelopes_fenced m) (roots_superseded m) (roots_abandoned m) (lane m).

Definition set_checkpoints (m : Medium) (b : B) (cs : gmap WriteId Z) : Medium :=
  mkMedium (wal m) b (wal_writes m) (wal_slots m) (append_quota_cell m) (root_front m)
    (parked_roots m) (next_root_stamp m) cs (appends_slot_fenced m) (appends_quota_refused m)
    (envelopes_fenced m) (roots_superseded m) (roots_abandoned m) (lane m).

Definition roots_in_flight (m : Medium) : nat :=
  length (option_list (root_front m)) + length (parked_list (parked_roots m)).

Definition wal_appends_in_flight (m : Medium) : nat := size (wal_writes m).
Definition checkpoints_in_flight (m : Medium) : nat := size (checkpoints m).

Definition has_inflight (m : Medium) : bool :=
  negb (size (wal_writes m) =? 0)%nat || negb (roots_in_flight m =? 0)%nat
  || negb (size (checkpoints m) =? 0)%nat
  || owes_completion (lane m).

Definition into_parts (m : Medium) : result Medium (W * B) :=
  if has_inflight m then Err m else Ok (wal m, sb m).

(** ** The block lane *)

Definition set_lane (m : Medium) (l : LaneFront) : Medium :=
  mkMedium (wal m) (sb m) (wal_writes m) (wal_slots m) (append_quota_cell m) (root_front m)
    (parked_roots m) (next_root_stamp m) (checkpoints m) (appends_slot_fenced m)
    (appends_quota_refused m) (envelopes_fenced m) (roots_superseded m) (roots_abandoned m) l.

Definition poll_block_job (m : Medium) : option BlockJob * Medium :=
  let '(job, l) := lane_poll (lane m) in (job, set_lane m l).

Definition enqueue_block_job (m : Medium) (id : JobId) (kind : BlockJobKind) : option Medium :=
  l ← enqueue (lane m) id kind; Some (set_lane m l).

Definition settle_block_job (m : Medium) (done : BlockJobDone) : option Medium :=
  l ← settle (lane m) done; Some (set_lane m l).

(** ** Appends *)

Definition slot_under (capacity op : Z) : Z := if capacity =? umax 64 then op else op mod capacity.
Definition canonical_slot (m : Medium) (op : Z) : Z := slot_under (wal_capacity (wal m)) op.

Definition slot_write_in_flight (m : Medium) (op : Z) : bool :=
  bool_decide (canonical_slot m op ∈ wal_slots m).

Definition append_quota (m : Medium) : Z :=
  if negb (append_quota_cell m =? 0) then append_quota_cell m
  else session_append_quota (v_checkpoint_ops (sb_state (sb m))).

Definition submit_append (m : Medium) (id : WriteId) (op : OpNumber) (header : Header)
    (body : list byte) : option (AppendSubmission * Medium) :=
  if slot_write_in_flight m op then Some (SlotFenced header body, count_refusal m 1 0)
  else
    let m := if append_quota_cell m =? 0 then set_quota m (append_quota m) else m in
    if append_quota_cell m <=? Z.of_nat (size (wal_writes m))
    then Some (QuotaExhausted header body, count_refusal m 0 1)
    else
      let slot := canonical_slot m op in
      let vacant := bool_decide (slot ∉ wal_slots m) in
      let m := set_appends m (wal_submit_append (wal m) id op header body)
                 (<[id := op]> (wal_writes m)) ({[slot]} ∪ wal_slots m) in
      if vacant then Some (Submitted, m) else None.

(** The op whose slot a retired write freed, if the ledger knew the write. *)
Definition retire_wal_write (m : Medium) (id : WriteId) : option (option Z * Medium) :=
  match wal_writes m !! id with
  | None => Some (None, m)
  | Some op =>
      let slot := canonical_slot m op in
      if bool_decide (slot ∈ wal_slots m)
      then Some (Some op, set_appends m (wal m) (delete id (wal_writes m)) (wal_slots m ∖ {[slot]}))
      else None
  end.

Fixpoint settle_cancellations (m : Medium) (cancelled : list WriteId)
    : option (list (WriteId * Z) * Medium) :=
  match cancelled with
  | [] => Some ([], m)
  | id :: rest =>
      '(freed, m) ← retire_wal_write m id;
      op ← freed;
      '(settled, m) ← settle_cancellations m rest;
      Some ((id, op) :: settled, m)
  end.

Definition with_wal (m : Medium) (w : W) : Medium := set_appends m w (wal_writes m) (wal_slots m).

Definition submit_wal_read (m : Medium) (id : WriteId) (op : OpNumber) : Medium :=
  with_wal m (wal_submit_read (wal m) id op).

Definition truncate (m : Medium) (above : OpNumber) : option (list (WriteId * Z) * Medium) :=
  let '(cancelled, w) := wal_truncate (wal m) above in
  settle_cancellations (with_wal m w) cancelled.

Definition prune (m : Medium) (below : OpNumber) : option (list (WriteId * Z) * Medium) :=
  let '(cancelled, w) := wal_prune (wal m) below in
  settle_cancellations (with_wal m w) cancelled.

(** A polled completion with the slot it freed; the outer [option] is the fail-stop. *)
Definition poll_wal (m : Medium) : option (option (WalDone * option Z) * Medium) :=
  let '(polled, w) := wal_poll (wal m) in
  let m := with_wal m w in
  match polled with
  | None => Some (None, m)
  | Some done =>
      match done with
      | Appended id | Cancelled id =>
          '(freed, m) ← retire_wal_write m id; Some (Some (done, freed), m)
      | _ => Some (Some (done, None), m)
      end
  end.

(** ** The durable-root timeline *)

Definition timeline (m : Medium) : list RootEntry :=
  option_list (root_front m) ++ parked_list (parked_roots m).

(** [max_by_key] keeps the last of equal keys. *)
Definition later (best : option RootEntry) (e : RootEntry) : option RootEntry :=
  match best with
  | Some b => if re_stamp e <? re_stamp b then Some b else Some e
  | None => Some e
  end.

Definition latest_root (m : Medium) : option RootEntry := fold_left later (timeline m) None.

Definition effective_root (m : Medium) : VsrState :=
  match latest_root m with Some e => re_state e | None => sb_state (sb m) end.

Definition effective_checkpoint_pair (m : Medium) : OpNumber * Z :=
  match latest_root m with
  | Some e => (v_checkpoint_op (re_state e), v_checkpoint_id (re_state e))
  | None => let s := sb_state (sb m) in (v_checkpoint_op s, v_checkpoint_id s)
  end.

(** [min_by_key] over the occupied cells keeps the first of equal keys. *)
Definition next_parked (p : Parked) : option RootEntry :=
  match parked_view p, parked_checkpoint p with
  | Some a, Some b => if re_stamp b <? re_stamp a then Some b else Some a
  | Some a, None => Some a
  | None, c => c
  end.

Definition next_parked_role (p : Parked) : RootRole :=
  match parked_view p, parked_checkpoint p with
  | Some a, Some b => if re_stamp b <? re_stamp a then CheckpointRoot else DurableView
  | Some a, None => DurableView
  | None, _ => CheckpointRoot
  end.

Definition release_next_root (m : Medium) : Medium :=
  match root_front m with
  | Some _ => m
  | None =>
      match next_parked (parked_roots m) with
      | Some e =>
          set_roots m (sb_submit_write (sb m) (re_id e) (re_state e)) (Some e)
            (park (parked_roots m) (next_parked_role (parked_roots m)) None)
      | None => m
      end
  end.

Definition same_config (new cur : VsrState) : bool :=
  match v_membership new, v_membership cur with
  | Some n, Some c => m_config_id n =? m_config_id c
  | _, _ => true
  end.

(** The five no-rewind assertions. *)
Definition no_rewind (effective state : VsrState) : bool :=
  (v_view effective <=? v_view state)
  && (v_checkpoint_op effective <=? v_checkpoint_op state)
  && (v_epoch effective <=? v_epoch state)
  && (negb (v_epoch state =? v_epoch effective) || same_config state effective)
  && (match v_membership effective with None => true | Some _ => false end
      || (v_config_install_op effective <=? v_config_install_op state)).

Definition submit_root (m : Medium) (role : RootRole) (id : WriteId) (state : VsrState)
    : option Medium :=
  if no_rewind (effective_root m) state then
    let stamp := next_root_stamp m in
    let occupied := match parked_at (parked_roots m) role with Some _ => 1 | None => 0 end in
    Some (release_next_root
      (mkMedium (wal m) (sb m) (wal_writes m) (wal_slots m) (append_quota_cell m) (root_front m)
         (park (parked_roots m) role (Some (mkRootEntry role id state stamp))) (stamp + 1)
         (checkpoints m) (appends_slot_fenced m) (appends_quota_refused m) (envelopes_fenced m)
         (roots_superseded m + occupied) (roots_abandoned m) (lane m)))
  else None.

Definition abandon_root (m : Medium) (role : RootRole) (id : WriteId) : Medium :=
  match parked_at (parked_roots m) role with
  | Some e =>
      if bool_decide (re_id e = id)
      then mkMedium (wal m) (sb m) (wal_writes m) (wal_slots m) (append_quota_cell m) (root_front m)
             (park (parked_roots m) role None) (next_root_stamp m) (checkpoints m)
             (appends_slot_fenced m) (appends_quota_refused m) (envelopes_fenced m)
             (roots_superseded m) (roots_abandoned m + 1) (lane m)
      else m
  | None => m
  end.

Definition collapse_parked_roots (m : Medium) : Medium :=
  set_roots m (sb m) (root_front m) (mkParked None None).

(** ** Checkpoint envelopes *)

Definition submit_checkpoint (m : Medium) (id : WriteId) (op : OpNumber) (snapshot : list byte)
    : CheckpointSubmission * Medium :=
  if negb (size (checkpoints m) =? 0)%nat
  then (EnvelopeFenced,
        mkMedium (wal m) (sb m) (wal_writes m) (wal_slots m) (append_quota_cell m) (root_front m)
          (parked_roots m) (next_root_stamp m) (checkpoints m) (appends_slot_fenced m)
          (appends_quota_refused m) (envelopes_fenced m + 1) (roots_superseded m) (roots_abandoned m) (lane m))
  else (EnvelopeSubmitted,
        set_checkpoints m (sb_submit_write_checkpoint (sb m) id op snapshot)
          (<[id := op]> (checkpoints m))).

Definition submit_checkpoint_read (m : Medium) (id : WriteId) : Medium :=
  set_checkpoints m (sb_submit_read_checkpoint (sb m) id) (checkpoints m).

Definition poll_sb (m : Medium)
    : option (option (SuperblockDone * option (RootRole * WriteId * VsrState)) * Medium) :=
  let '(polled, b) := sb_poll (sb m) in
  let m := set_roots m b (root_front m) (parked_roots m) in
  match polled with
  | None => Some (None, m)
  | Some (Wrote id) =>
      let settle_other :=
        match checkpoints m !! id with
        | Some _ => Some (Some (Wrote id, None), set_checkpoints m (sb m) (delete id (checkpoints m)))
        | None => None
        end in
      match root_front m with
      | Some front =>
          if bool_decide (re_id front = id)
          then Some (Some (Wrote id, Some (re_role front, re_id front, re_state front)),
                     release_next_root (set_roots m (sb m) None (parked_roots m)))
          else settle_other
      | None => settle_other
      end
  | Some done => Some (Some (done, None), m)
  end.

End session.

(** ** What the backends promise

    [WalModel]: the pending writes of the log, what each write submitted carries and,
    per slot, the writes that landed there, most recent first.  A pending write may land at any call, any number of
    times; a completion or a cancellation retires it exactly once, an [Appended]
    one has landed by then and a cancelled one never has. *)

Section contracts.
Context {W B : Type} `{Wal W} `{Superblock B}.

Definition lands (capacity : Z) (pending : gmap WriteId Z) (before after : Z -> list WriteId) : Prop :=
  forall s, exists new, after s = new ++ before s /\
    forall i, i ∈ new -> exists op, pending !! i = Some op /\ slot_under capacity op = s.

(** What a cancelling call owes: the list names pending writes, once each, which have
    not landed and never will, as they are no longer pending. *)
Definition cancels (capacity : Z) (pending pending' : gmap WriteId Z)
    (landed landed' : Z -> list WriteId) (cancelled : list WriteId) : Prop :=
  NoDup cancelled /\ lands capacity pending landed landed' /\
  (forall i, i ∈ cancelled -> is_Some (pending !! i) /\ forall s, i ∉ landed' s) /\
  pending' = filter (fun p => p.1 ∉ cancelled) pending.

Class WalModel : Type := {
  wal_pending : W -> gmap WriteId Z;
  wal_landed : W -> Z -> list WriteId;
  wal_bytes : W -> gmap WriteId (Header * list byte);
  wal_capacity_pos w : 0 < wal_capacity w;
  wal_submit_spec w id op h b : let w' := wal_submit_append w id op h b in
    wal_capacity w' = wal_capacity w /\ wal_pending w' = <[id := op]> (wal_pending w) /\
    wal_bytes w' = <[id := (h, b)]> (wal_bytes w) /\
    lands (wal_capacity w) (wal_pending w') (wal_landed w) (wal_landed w');
  wal_read_spec w id op : let w' := wal_submit_read w id op in
    wal_capacity w' = wal_capacity w /\ wal_pending w' = wal_pending w /\ wal_bytes w' = wal_bytes w /\
    lands (wal_capacity w) (wal_pending w) (wal_landed w) (wal_landed w');
  wal_truncate_spec w a : let '(c, w') := wal_truncate w a in
    wal_capacity w' = wal_capacity w /\ wal_bytes w' = wal_bytes w /\
    cancels (wal_capacity w) (wal_pending w) (wal_pending w') (wal_landed w) (wal_landed w') c;
  wal_prune_spec w a : let '(c, w') := wal_prune w a in
    wal_capacity w' = wal_capacity w /\ wal_bytes w' = wal_bytes w /\
    cancels (wal_capacity w) (wal_pending w) (wal_pending w') (wal_landed w) (wal_landed w') c;
  wal_poll_spec w : let '(done, w') := wal_poll w in
    wal_capacity w' = wal_capacity w /\ wal_bytes w' = wal_bytes w /\
    match done with
    | Some (Appended id) => exists op, wal_pending w !! id = Some op /\
        wal_pending w' = delete id (wal_pending w) /\
        lands (wal_capacity w) (wal_pending w) (wal_landed w) (wal_landed w') /\
        id ∈ wal_landed w' (slot_under (wal_capacity w) op)
    | Some (Cancelled id) =>
        cancels (wal_capacity w) (wal_pending w) (wal_pending w') (wal_landed w) (wal_landed w') [id]
    | _ => wal_pending w' = wal_pending w /\
        lands (wal_capacity w) (wal_pending w) (wal_landed w) (wal_landed w')
    end;
}.

(** [SuperblockModel]: the root writes it still owes in submission order and the
    envelope writes it owes.  [state] reads the last settled root or one still owed;
    root completions come in order, and when none is owed the last one is durable. *)
Class SuperblockModel : Type := {
  sb_roots : B -> list (WriteId * VsrState);
  sb_envelopes : B -> gset WriteId;
  sb_write_spec b id st : let b' := sb_submit_write b id st in
    sb_roots b' = sb_roots b ++ [(id, st)] /\ sb_envelopes b' = sb_envelopes b /\
    (sb_state b' = sb_state b \/ sb_state b' ∈ (sb_roots b').*2);
  sb_checkpoint_spec b id op snap : let b' := sb_submit_write_checkpoint b id op snap in
    sb_roots b' = sb_roots b /\ sb_envelopes b' = {[id]} ∪ sb_envelopes b /\
    (sb_state b' = sb_state b \/ sb_state b' ∈ (sb_roots b).*2);
  sb_read_spec b id : let b' := sb_submit_read_checkpoint b id in
    sb_roots b' = sb_roots b /\ sb_envelopes b' = sb_envelopes b /\
    (sb_state b' = sb_state b \/ sb_state b' ∈ (sb_roots b).*2);
  sb_poll_spec b : let '(done, b') := sb_poll b in
    match done with
    | Some (Wrote id) =>
        (exists st, sb_roots b = (id, st) :: sb_roots b' /\ sb_envelopes b' = sb_envelopes b /\
           (sb_state b' = st \/ sb_state b' ∈ (sb_roots b').*2))
        \/ (id ∈ sb_envelopes b /\ sb_envelopes b' = sb_envelopes b ∖ {[id]} /\
           sb_roots b' = sb_roots b /\ (sb_state b' = sb_state b \/ sb_state b' ∈ (sb_roots b).*2))
    | _ => sb_roots b' = sb_roots b /\ sb_envelopes b' = sb_envelopes b /\
           (sb_state b' = sb_state b \/ sb_state b' ∈ (sb_roots b).*2)
    end;
}.

End contracts.
Arguments WalModel W {_}.
Arguments SuperblockModel B {_}.

(** ** Runs of a session

    Everything an endpoint, or a line of them, can ask of one session, with two
    ghost fields: the write ids handed out so far, and per slot the last write whose
    [Appended] the session delivered. *)

Section runs.
Context {W B : Type} `{WM : WalModel W} `{SM : SuperblockModel B}.
Context {Sm Image Sessions Walks : Type}.
#[local] Abbreviation Medium := (@Medium W B Sm Image Sessions Walks).

Inductive Event : Type :=
| DoAppend (id : WriteId) (op : OpNumber) (header : Header) (body : list byte)
| DoWalRead (id : WriteId) (op : OpNumber)
| DoTruncate (above : OpNumber)
| DoPrune (below : OpNumber)
| DoPollWal
| DoRoot (role : RootRole) (id : WriteId) (state : VsrState)
| DoAbandon (role : RootRole) (id : WriteId)
| DoCollapse
| DoCheckpoint (id : WriteId) (op : OpNumber) (snapshot : list byte)
| DoCheckpointRead (id : WriteId)
| DoPollSb
| DoEnqueue (id : JobId) (kind : @BlockJobKind Sm Image Sessions Walks)
| DoPollJob
| DoSettle (done : BlockJobDone).

Record Watched : Type := mkWatched {
  med : Medium;
  used : gset WriteId;
  acked : Z -> option WriteId;
}.

Definition acknowledge (m : Medium) (a : Z -> option WriteId) (polled : option (WalDone * option Z))
    : Z -> option WriteId :=
  match polled with
  | Some (Appended id, Some op) => fun s => if s =? canonical_slot m op then Some id else a s
  | _ => a
  end.

Definition with_med (s : Watched) (m : Medium) : Watched := mkWatched m (used s) (acked s).
Definition using_id (s : Watched) (id : WriteId) (m : Medium) : Watched :=
  mkWatched m ({[id]} ∪ used s) (acked s).

Definition exec (s : Watched) (e : Event) : option Watched :=
  let m := med s in
  match e with
  | DoAppend id op h b =>
      '(verdict, m) ← submit_append m id op h b;
      Some (match verdict with Submitted => using_id s id m | _ => with_med s m end)
  | DoWalRead id op => Some (with_med s (submit_wal_read m id op))
  | DoTruncate above => '(_, m) ← truncate m above; Some (with_med s m)
  | DoPrune below => '(_, m) ← prune m below; Some (with_med s m)
  | DoPollWal =>
      '(polled, m') ← poll_wal m; Some (mkWatched m' (used s) (acknowledge m (acked s) polled))
  | DoRoot role id st => m ← submit_root m role id st; Some (using_id s id m)
  | DoAbandon role id => Some (with_med s (abandon_root m role id))
  | DoCollapse => Some (with_med s (collapse_parked_roots m))
  | DoCheckpoint id op snap =>
      let '(verdict, m) := submit_checkpoint m id op snap in
      Some (match verdict with EnvelopeSubmitted => using_id s id m | EnvelopeFenced => with_med s m end)
  | DoCheckpointRead id => Some (with_med s (submit_checkpoint_read m id))
  | DoPollSb => '(_, m) ← poll_sb m; Some (with_med s m)
  | DoEnqueue id kind => m ← enqueue_block_job m id kind; Some (with_med s m)
  | DoPollJob => Some (with_med s (poll_block_job m).2)
  | DoSettle d => m ← settle_block_job m d; Some (with_med s m)
  end.

(** Write ids are never reused, and a submitted root carries its configuration. *)
Definition fresh (s : Watched) (e : Event) : Prop :=
  match e with
  | DoAppend id _ _ _ | DoCheckpoint id _ _ => id ∉ used s
  | DoRoot _ id st => id ∉ used s /\ v_membership st <> None
  | _ => True
  end.

(** A session opens over quiesced handles; past writes have used ids. *)
Definition opened (s : Watched) : Prop :=
  (exists w b, med s = medium_new w b) /\
  wal_pending (wal (med s)) = ∅ /\ sb_roots (sb (med s)) = [] /\ sb_envelopes (sb (med s)) = ∅ /\
  (forall sl, head (wal_landed (wal (med s)) sl) = acked s sl) /\
  (forall sl i, i ∈ wal_landed (wal (med s)) sl -> i ∈ used s).

Inductive run : Watched -> Watched -> Prop :=
| run_refl s : run s s
| run_step s s' s'' e : run s s' -> fresh s' e -> exec s' e = Some s'' -> run s s''.

Definition reachable (s : Watched) : Prop := exists s0, opened s0 /\ run s0 s.

(** ** The append ledger *)

Definition ledger_ok (c : Z) (p : gmap WriteId Z) (sl : gset Z) : Prop :=
  (forall s, s ∈ sl <-> exists i op, p !! i = Some op /\ slot_under c op = s) /\
  (forall i j a b, p !! i = Some a -> p !! j = Some b -> slot_under c a = slot_under c b -> i = j).

Definition idle (c : Z) (p : gmap WriteId Z) (s : Z) : Prop :=
  forall i op, p !! i = Some op -> slot_under c op <> s.

(** A slot without a write in flight holds the acknowledged write; over one with a
    write in flight only that write has landed since. *)
Definition slots_ok (c : Z) (p : gmap WriteId Z) (l : Z -> list WriteId) (a : Z -> option WriteId) : Prop :=
  (forall s, idle c p s -> head (l s) = a s) /\
  (forall i op, p !! i = Some op -> exists k t,
     l (slot_under c op) = replicate k i ++ t /\ head t = a (slot_under c op) /\ i ∉ t).

Lemma all_same (i : WriteId) l : (forall j, j ∈ l -> j = i) -> l = replicate (length l) i.
Proof.
  induction l as [|x l IH]; intros Hl; [done|]. cbn. rewrite (Hl x) by constructor.
  rewrite <- IH; [done|]. intros j Hj. apply Hl. by constructor.
Qed.

Lemma slots_ok_lands c p sl l l' a :
  ledger_ok c p sl -> slots_ok c p l a -> lands c p l l' -> slots_ok c p l' a.
Proof.
  intros [_ Hone] [Hidle Hbusy] Hl. split.
  - intros s Hs. destruct (Hl s) as (new & -> & Hnew).
    destruct new as [|i new]; [by apply Hidle|].
    destruct (Hnew i ltac:(constructor)) as (op & Hi & Hop). destruct (Hs i op Hi Hop).
  - intros i op Hi. destruct (Hbusy i op Hi) as (k & t & Heq & Hh & Ht).
    destruct (Hl (slot_under c op)) as (new & -> & Hnew).
    exists (length new + k)%nat, t. rewrite Heq, replicate_add, <- app_assoc, <- (all_same i new); [done|].
    intros j Hj. destruct (Hnew j Hj) as (op' & Hj' & Hs). by eapply Hone.
Qed.

Lemma slots_ok_insert c p sl l a i op :
  slots_ok c p l a -> ledger_ok c p sl -> p !! i = None -> slot_under c op ∉ sl ->
  i ∉ l (slot_under c op) -> slots_ok c (<[i := op]> p) l a.
Proof.
  intros [Hidle Hbusy] [Hsl _] Hp Hfree Hi. split.
  - intros s Hs. apply Hidle. intros j op' Hj. apply (Hs j op'). rewrite lookup_insert_ne; congruence.
  - intros j op' Hj. destruct (decide (i = j)) as [->|Hn].
    + rewrite lookup_insert_eq in Hj. injection Hj as <-. exists O, (l (slot_under c op)).
      split_and!; [done| |done]. apply Hidle. intros j' op' Hj Hop. apply Hfree, Hsl. eauto.
    + rewrite lookup_insert_ne in Hj by done. eauto.
Qed.

Lemma ledger_ok_insert c p sl i op :
  ledger_ok c p sl -> p !! i = None -> slot_under c op ∉ sl ->
  ledger_ok c (<[i := op]> p) ({[slot_under c op]} ∪ sl).
Proof.
  intros [Hsl Hone] Hp Hfree. split.
  - intros s. rewrite elem_of_union, elem_of_singleton, Hsl. split.
    + intros [->|(j & op' & Hj & Hs)]; [exists i, op; by rewrite lookup_insert_eq|].
      exists j, op'. rewrite lookup_insert_ne by congruence. done.
    + intros (j & op' & Hj & Hs). apply lookup_insert_Some in Hj as [[-> ->]|[_ Hj]]; eauto.
  - assert (Hno : forall j b, p !! j = Some b -> slot_under c op <> slot_under c b).
    { intros j b Hj Heq. apply Hfree, Hsl. eauto. }
    intros j j' x y Hj Hj' Hs. apply lookup_insert_Some in Hj as [[<- <-]|[_ Hj]];
      apply lookup_insert_Some in Hj' as [[<- <-]|[_ Hj']]; try done; [|by edestruct Hno|by eapply Hone].
    by edestruct Hno.
Qed.

Lemma ledger_ok_delete c p sl i op :
  ledger_ok c p sl -> p !! i = Some op -> ledger_ok c (delete i p) (sl ∖ {[slot_under c op]}).
Proof.
  intros [Hsl Hone] Hp. split.
  - intros s. rewrite elem_of_difference, elem_of_singleton, Hsl. split.
    + intros [(j & op' & Hj & <-) Hs]. exists j, op'. rewrite lookup_delete_ne; [done|]. congruence.
    + intros (j & op' & Hj & <-). apply lookup_delete_Some in Hj as [Hn Hj]. split; [eauto|].
      intros Heq. apply Hn. by eapply (Hone i j op op').
  - intros j j' x y Hj Hj'. apply lookup_delete_Some in Hj as [_ Hj], Hj' as [_ Hj']. by eapply Hone.
Qed.

Lemma slots_ok_appended c p sl l a i op :
  slots_ok c p l a -> ledger_ok c p sl -> p !! i = Some op -> i ∈ l (slot_under c op) ->
  slots_ok c (delete i p) l (fun s => if s =? slot_under c op then Some i else a s).
Proof.
  intros [Hidle Hbusy] [_ Hone] Hp Hi. split.
  - intros s Hs. destruct (Z.eqb_spec s (slot_under c op)) as [->|Hn].
    + destruct (Hbusy i op Hp) as ([|k] & t & Hl & _ & Ht); [|by rewrite Hl].
      rewrite Hl in Hi. by destruct Ht.
    + apply Hidle. intros j op' Hj Hop. destruct (decide (i = j)) as [->|Hij]; [congruence|].
      apply (Hs j op'); [by rewrite lookup_delete_ne|done].
  - intros j op' Hj. apply lookup_delete_Some in Hj as [Hn Hj].
    destruct (Z.eqb_spec (slot_under c op') (slot_under c op)) as [Heq|_]; [|by apply Hbusy].
    destruct Hn. by eapply Hone.
Qed.

Lemma slots_ok_cancelled c p l a (cs : list WriteId) :
  slots_ok c p l a -> (forall i, i ∈ cs -> forall s, i ∉ l s) ->
  slots_ok c (filter (fun q => q.1 ∉ cs) p) l a.
Proof.
  intros [Hidle Hbusy] Hcs. split.
  - intros s Hs. destruct (decide (map_Exists (fun _ op => slot_under c op = s) p)) as [(i & op & Hi & <-)|Hq].
    + destruct (decide (i ∈ cs)) as [Hin|Hin].
      * destruct (Hbusy i op Hi) as ([|k] & t & Hl & Hh & _); [by rewrite Hl|].
        destruct (Hcs i Hin (slot_under c op)). rewrite Hl. cbn. constructor.
      * edestruct (Hs i op); [|done]. by apply map_lookup_filter_Some.
    + apply Hidle. intros i op Hi Hop. apply Hq. by exists i, op.
  - intros i op Hi. apply map_lookup_filter_Some in Hi as [Hi _]. by apply Hbusy.
Qed.

(** ** The ledger's own calls *)

Lemma retire_known (m : Medium) i op :
  ledger_ok (wal_capacity (wal m)) (wal_writes m) (wal_slots m) -> wal_writes m !! i = Some op ->
  retire_wal_write m i
    = Some (Some op, set_appends m (wal m) (delete i (wal_writes m)) (wal_slots m ∖ {[canonical_slot m op]})).
Proof.
  intros [Hsl _] Hi. unfold retire_wal_write. rewrite Hi, bool_decide_true; [done|].
  apply Hsl. by exists i, op.
Qed.

Lemma settle_known (m : Medium) (cs : list WriteId) :
  NoDup cs -> (forall i, i ∈ cs -> is_Some (wal_writes m !! i)) ->
  ledger_ok (wal_capacity (wal m)) (wal_writes m) (wal_slots m) ->
  exists out sl, let p := filter (fun q => q.1 ∉ cs) (wal_writes m) in
    settle_cancellations m cs = Some (out, set_appends m (wal m) p sl) /\
    ledger_ok (wal_capacity (wal m)) p sl /\ out.*1 = cs.
Proof.
  revert m. induction cs as [|i cs IH]; intros m Hnd Hin Hok.
  - exists [], (wal_slots m). cbn. rewrite map_filter_id by (intros; by apply not_elem_of_nil).
    split_and!; [by destruct m|done|done].
  - apply NoDup_cons in Hnd as [Hi Hnd]. destruct (Hin i ltac:(constructor)) as [op Hop].
    cbn [settle_cancellations]. rewrite (retire_known m i op Hok Hop). cbn [mbind option_bind].
    destruct (IH (set_appends m (wal m) (delete i (wal_writes m)) (wal_slots m ∖ {[canonical_slot m op]})))
      as (out & sl & Heq & Hok' & Hout); cbn in *.
    { done. }
    { intros j Hj. rewrite lookup_delete_ne; [apply Hin; by constructor|]. by intros ->. }
    { by apply ledger_ok_delete. }
    assert (Hf : filter (fun q : WriteId * Z => q.1 ∉ cs) (delete i (wal_writes m))
                 = filter (fun q => q.1 ∉ i :: cs) (wal_writes m)).
    { apply map_eq. intros j. apply option_eq. intros x.
      rewrite !map_lookup_filter_Some, lookup_delete_Some. cbn. rewrite not_elem_of_cons. naive_solver. }
    rewrite Hf in *. exists ((i, op) :: out), sl. rewrite Heq. cbn. by rewrite Hout.
Qed.

Record wal_inv (s : Watched) : Prop := {
  wi_ledger : wal_writes (med s) = wal_pending (wal (med s));
  wi_ok : ledger_ok (wal_capacity (wal (med s))) (wal_writes (med s)) (wal_slots (med s));
  wi_slots : slots_ok (wal_capacity (wal (med s))) (wal_writes (med s)) (wal_landed (wal (med s))) (acked s);
  wi_used i : is_Some (wal_writes (med s) !! i) -> i ∈ used s;
  wi_landed sl i : i ∈ wal_landed (wal (med s)) sl -> i ∈ used s;
  wi_quota : wal_writes (med s) = ∅ \/ (append_quota_cell (med s) <> 0 /\
    Z.of_nat (size (wal_writes (med s))) <= append_quota_cell (med s));
}.

Lemma landed_used (c : Z) (p : gmap WriteId Z) (l l' : Z -> list WriteId) (u : gset WriteId) :
  lands c p l l' -> (forall i, is_Some (p !! i) -> i ∈ u) ->
  (forall sl i, i ∈ l sl -> i ∈ u) -> forall sl i, i ∈ l' sl -> i ∈ u.
Proof.
  intros Hl Hp Hu sl i Hi. destruct (Hl sl) as (new & Heq & Hnew). rewrite Heq in Hi.
  apply elem_of_app in Hi as [Hi|Hi]; [|by eapply Hu].
  destruct (Hnew i Hi) as (op & Ho & _). eauto.
Qed.

(** Events that leave the log and its ledger alone. *)
Lemma wal_inv_frame s s' :
  wal_inv s -> wal (med s') = wal (med s) -> wal_writes (med s') = wal_writes (med s) ->
  wal_slots (med s') = wal_slots (med s) -> append_quota_cell (med s') = append_quota_cell (med s) ->
  acked s' = acked s -> used s ⊆ used s' -> wal_inv s'.
Proof.
  intros [] Hw Hp Hs Hq Ha Hu. split; rewrite ?Hw, ?Hp, ?Hs, ?Hq, ?Ha; eauto.
Qed.

(** Physical progress with the ledger unchanged. *)
Lemma wal_inv_progress s m' :
  wal_inv s -> wal_writes m' = wal_writes (med s) -> wal_slots m' = wal_slots (med s) ->
  append_quota_cell m' = append_quota_cell (med s) ->
  wal_capacity (wal m') = wal_capacity (wal (med s)) -> wal_pending (wal m') = wal_pending (wal (med s)) ->
  lands (wal_capacity (wal (med s))) (wal_pending (wal (med s))) (wal_landed (wal (med s))) (wal_landed (wal m')) ->
  wal_inv (with_med s m').
Proof.
  intros [Hled Hok Hsl Hus Hla Hq] Hp Hs Hqc Hc Hpe Hl. rewrite <- Hled in Hl.
  split; cbn; rewrite ?Hp, ?Hs, ?Hqc, ?Hc, ?Hpe; eauto using slots_ok_lands, landed_used.
Qed.

Lemma submit_append_cases (m : Medium) id op h b :
  let m1 := set_quota m (append_quota m) in let slot := canonical_slot m op in
  (slot ∈ wal_slots m /\ submit_append m id op h b = Some (SlotFenced h b, count_refusal m 1 0))
  \/ (slot ∉ wal_slots m /\ append_quota m <= Z.of_nat (size (wal_writes m)) /\
      submit_append m id op h b = Some (QuotaExhausted h b, count_refusal m1 0 1))
  \/ (slot ∉ wal_slots m /\ Z.of_nat (size (wal_writes m)) < append_quota m /\
      submit_append m id op h b
        = Some (Submitted, set_appends m1 (wal_submit_append (wal m) id op h b)
                  (<[id := op]> (wal_writes m)) ({[slot]} ∪ wal_slots m))).
Proof.
  intros m1 slot. unfold submit_append, slot_write_in_flight. fold slot.
  case_bool_decide as Hs; [by left|right].
  assert (Hm : (if append_quota_cell m =? 0 then set_quota m (append_quota m) else m) = m1).
  { unfold m1, append_quota. destruct (Z.eqb_spec (append_quota_cell m) 0); [done|]. cbn. by destruct m. }
  rewrite Hm. cbn [append_quota_cell wal_writes m1 set_quota].
  destruct (Z.leb_spec (append_quota m) (Z.of_nat (size (wal_writes m)))); [by left|right].
  change (canonical_slot m1 op) with slot. rewrite bool_decide_true by done. done.
Qed.

Lemma quota_mono (m : Medium) (p : gmap WriteId Z) :
  p ⊆ wal_writes m ->
  wal_writes m = ∅ \/ (append_quota_cell m <> 0 /\ Z.of_nat (size (wal_writes m)) <= append_quota_cell m) ->
  p = ∅ \/ (append_quota_cell m <> 0 /\ Z.of_nat (size p) <= append_quota_cell m).
Proof.
  intros Hsub [He|[Hn Hs]].
  - left. rewrite He in Hsub. apply map_subseteq_size in Hsub. rewrite map_size_empty in Hsub.
    apply map_size_empty_inv. lia.
  - right. split; [done|]. apply map_subseteq_size in Hsub. lia.
Qed.

Lemma quota_zero (m : Medium) : append_quota_cell m = 0 \/ append_quota m = append_quota_cell m.
Proof. unfold append_quota. destruct (Z.eqb_spec (append_quota_cell m) 0); cbn; auto. Qed.

Lemma append_inv s id op h b s' :
  wal_inv s -> id ∉ used s -> exec s (DoAppend id op h b) = Some s' -> wal_inv s'.
Proof.
  intros Hinv Hid. cbn. destruct (submit_append_cases (med s) id op h b) as [[_ ->]|[(_ & Hq & ->)|(Hs & Hq & ->)]];
    cbn; intros [= <-].
  - by eapply wal_inv_frame.
  - destruct Hinv as [? ? ? ? ? Hqc]. split; cbn; try done. destruct Hqc as [?|[Hn Hle]]; [by left|right].
    destruct (quota_zero (med s)) as [?|Heq]; [done|]. by rewrite Heq.
  - destruct (wal_submit_spec (wal (med s)) id op h b) as (Hc & Hpe & _ & Hl).
    destruct Hinv as [Hled Hok Hsl Hus Hla Hqc]. rewrite Hpe, <- Hled in Hl.
    assert (Hid' : wal_writes (med s) !! id = None).
    { apply eq_None_not_Some. intros Hi. by apply Hid, Hus. }
    assert (Hu : forall i, is_Some (<[id := op]> (wal_writes (med s)) !! i) -> i ∈ {[id]} ∪ used s).
    { intros i [x Hx]. apply lookup_insert_Some in Hx as [[<- _]|[_ Hx]]; set_solver. }
    pose proof (ledger_ok_insert _ _ _ id op Hok Hid' Hs) as Hok'.
    split; cbn; rewrite ?Hc, ?Hpe, ?Hled; try done; rewrite <- ?Hled; try done.
    + eapply slots_ok_lands; [done| |done]. eapply slots_ok_insert; eauto.
    + eapply landed_used; [done|done|]. set_solver.
    + right. rewrite map_size_insert_None by done. destruct (quota_zero (med s)); lia.
Qed.

Lemma cancel_inv s w' (cs : list WriteId) :
  wal_inv s -> wal_capacity w' = wal_capacity (wal (med s)) ->
  cancels (wal_capacity (wal (med s))) (wal_pending (wal (med s))) (wal_pending w')
    (wal_landed (wal (med s))) (wal_landed w') cs ->
  exists out m', settle_cancellations (with_wal (med s) w') cs = Some (out, m') /\ wal_inv (with_med s m').
Proof.
  intros [Hled Hok Hsl Hus Hla Hq] Hc (Hnd & Hl & Hcs & Hpe). rewrite <- Hled in Hl, Hcs, Hpe.
  destruct (settle_known (with_wal (med s) w') cs) as (out & sl & Heq & Hok' & _); cbn in *.
  { done. } { intros i Hi. by apply Hcs. } { by rewrite Hc. }
  eexists out, _. split; [exact Heq|]. split; cbn; rewrite ?Hc in *; try done.
  - apply slots_ok_cancelled; [by eapply slots_ok_lands|]. intros i Hi. by apply Hcs.
  - intros i [x Hx]. apply map_lookup_filter_Some in Hx as [Hx _]. eauto.
  - eapply landed_used; eauto.
  - apply quota_mono; [apply map_filter_subseteq|done].
Qed.

Lemma poll_wal_inv s :
  wal_inv s -> exists s', exec s DoPollWal = Some s' /\ wal_inv s'.
Proof.
  intros Hinv. cbn. unfold poll_wal. pose proof (wal_poll_spec (wal (med s))) as Hp.
  destruct (wal_poll (wal (med s))) as [done w']. destruct Hp as (Hc & _ & Hp).
  destruct done as [[id|id| | | |]|]; cbn;
    try (destruct Hp as [Hpe Hl]; eexists; split; [reflexivity|]; by eapply (wal_inv_progress s)).
  - destruct Hp as (op & Hid & Hpe & Hl & Hin). destruct Hinv as [Hled Hok Hsl Hus Hla Hq].
    rewrite <- Hled in Hid, Hpe, Hl. rewrite (retire_known _ id op); [|cbn; by rewrite Hc|done].
    eexists; split; [reflexivity|]. cbn in *. unfold canonical_slot. cbn.
    split; cbn; rewrite ?Hc; try done.
    + by apply ledger_ok_delete.
    + eapply slots_ok_appended; eauto using slots_ok_lands.
    + intros i [x Hx]. apply lookup_delete_Some in Hx as [_ Hx]. eauto.
    + eapply landed_used; eauto.
    + apply quota_mono; [apply delete_subseteq|done].
  - destruct (cancel_inv s w' [id] Hinv Hc Hp) as (out & m' & Heq & Hm). cbn in Heq.
    destruct (retire_wal_write _ id) as [[[op|] m1]|]; cbn in *; try done. injection Heq as _ <-.
    eexists; split; [reflexivity|]. done.
Qed.

(** ** The root timeline *)

Definition stamped (st : VsrState) : Prop := v_membership st <> None.

Lemma no_rewind_spec a b :
  no_rewind a b = true <->
  v_view a <= v_view b /\ v_checkpoint_op a <= v_checkpoint_op b /\ v_epoch a <= v_epoch b /\
  (v_epoch b = v_epoch a -> same_config b a = true) /\
  (stamped a -> v_config_install_op a <= v_config_install_op b).
Proof.
  unfold no_rewind, stamped. rewrite !andb_true_iff, !orb_true_iff, negb_true_iff, !Z.leb_le, Z.eqb_neq.
  destruct (v_membership a) eqn:Ha; destruct (same_config b a) eqn:Hs; intuition (try congruence; try lia).
Qed.

Lemma no_rewind_refl a : no_rewind a a = true.
Proof.
  apply no_rewind_spec. unfold same_config. destruct (v_membership a); rewrite ?Z.eqb_refl; repeat split; lia.
Qed.

Lemma no_rewind_trans a b c :
  stamped b -> no_rewind a b = true -> no_rewind b c = true -> no_rewind a c = true.
Proof.
  rewrite !no_rewind_spec. unfold stamped, same_config.
  intros Hb (H1 & H2 & H3 & H4 & H5) (G1 & G2 & G3 & G4 & G5). repeat split; try lia.
  - destruct (v_membership b) as [mb|]; [|done]. intros He.
    specialize (H4 ltac:(lia)). specialize (G4 ltac:(lia)).
    destruct (v_membership a), (v_membership c); try done. apply Z.eqb_eq in H4, G4. apply Z.eqb_eq. congruence.
  - intros Ha. specialize (H5 Ha). specialize (G5 Hb). lia.
Qed.

Lemma elem_option_list {A} (o : option A) x : x ∈ option_list o <-> o = Some x.
Proof. destruct o; cbn; [rewrite list_elem_of_singleton|rewrite elem_of_nil]; naive_solver. Qed.

Lemma elem_timeline (m : Medium) e :
  e ∈ timeline m <-> root_front m = Some e \/ e ∈ parked_list (parked_roots m).
Proof. unfold timeline. rewrite elem_of_app, elem_option_list. done. Qed.

Lemma elem_parked p e : e ∈ parked_list p <-> parked_view p = Some e \/ parked_checkpoint p = Some e.
Proof. unfold parked_list. by rewrite elem_of_app, !elem_option_list. Qed.

Record root_pre (m : Medium) (u : gset WriteId) : Prop := {
  rp_queue : sb_roots (sb m) = (fun e => (re_id e, re_state e)) <$> option_list (root_front m);
  rp_envs : sb_envelopes (sb m) = dom (checkpoints m);
  rp_one : (size (checkpoints m) <= 1)%nat;
  rp_cids : dom (checkpoints m) ⊆ u;
  rp_ids e : e ∈ timeline m -> re_id e ∈ u /\ re_id e ∉ dom (checkpoints m);
  rp_next e : e ∈ timeline m -> re_stamp e < next_root_stamp m;
  rp_front f e : root_front m = Some f -> e ∈ parked_list (parked_roots m) -> re_stamp f < re_stamp e;
  rp_cells a b : parked_view (parked_roots m) = Some a -> parked_checkpoint (parked_roots m) = Some b ->
    re_stamp a <> re_stamp b;
  rp_stamped e : e ∈ timeline m -> stamped (re_state e);
  rp_order e e' : e ∈ timeline m -> e' ∈ timeline m -> re_stamp e < re_stamp e' ->
    no_rewind (re_state e) (re_state e') = true;
  rp_durable e : e ∈ timeline m -> no_rewind (sb_state (sb m)) (re_state e) = true;
}.

(** Nothing waits behind an empty front. *)
Definition root_inv (m : Medium) (u : gset WriteId) : Prop :=
  root_pre m u /\ (root_front m = None -> parked_list (parked_roots m) = []).

Lemma stamp_inj m u e e' :
  root_pre m u -> e ∈ timeline m -> e' ∈ timeline m -> re_stamp e = re_stamp e' -> e = e'.
Proof.
  intros Hp He He' Hs. apply elem_timeline in He, He'.
  destruct He as [He|He], He' as [He'|He']; try congruence.
  - pose proof (rp_front _ _ Hp _ _ He He'). lia.
  - pose proof (rp_front _ _ Hp _ _ He' He). lia.
  - apply elem_parked in He, He'. destruct He as [He|He], He' as [He'|He']; try congruence.
    + destruct (rp_cells _ _ Hp e e'); auto.
    + destruct (rp_cells _ _ Hp e' e); auto.
Qed.

Lemma later_max l best :
  match fold_left later l best with
  | Some e => (best = Some e \/ e ∈ l) /\ (forall x, x ∈ l \/ best = Some x -> re_stamp x <= re_stamp e)
  | None => best = None /\ l = []
  end.
Proof.
  revert best. induction l as [|x l IH]; intros best; cbn.
  - destruct best as [b|]; [|done]. split; [by left|]. intros x [Hx|[= ->]]; [by apply elem_of_nil in Hx|lia].
  - specialize (IH (later best x)). destruct (fold_left later l (later best x)) as [e|].
    2:{ destruct IH as [IH _]. unfold later in IH. destruct best as [b|]; [|done]. by destruct (_ <? _). }
    destruct IH as [Hin Hmax]. unfold later in *.
    destruct best as [b|]; [destruct (Z.ltb_spec (re_stamp x) (re_stamp b))|].
    + split; [set_solver|]. intros y [Hy|[= ->]]; [|by apply Hmax; right].
      apply elem_of_cons in Hy as [->|Hy]; [|by apply Hmax; left]. specialize (Hmax b (or_intror eq_refl)). lia.
    + split; [set_solver|]. intros y [Hy|[= ->]].
      * apply elem_of_cons in Hy as [->|Hy]; apply Hmax; auto.
      * specialize (Hmax x (or_intror eq_refl)). lia.
    + split; [set_solver|]. intros y [Hy|[=]]. apply elem_of_cons in Hy as [->|Hy]; apply Hmax; auto.
Qed.

Lemma effective_max m u e :
  root_pre m u -> e ∈ timeline m -> (forall x, x ∈ timeline m -> re_stamp x <= re_stamp e) ->
  effective_root m = re_state e.
Proof.
  intros Hp He Hmax. unfold effective_root, latest_root. pose proof (later_max (timeline m) None) as Hl.
  destruct (fold_left later (timeline m) None) as [y|].
  - destruct Hl as [[[=]|Hy] Hm]. f_equal. eapply stamp_inj; [done..|].
    pose proof (Hm e (or_introl He)). pose proof (Hmax y Hy). lia.
  - destruct Hl as [_ Hl]. rewrite Hl in He. by apply elem_of_nil in He.
Qed.

Lemma effective_cases (m : Medium) :
  (timeline m = [] /\ effective_root m = sb_state (sb m)) \/
  (exists e, e ∈ timeline m /\ effective_root m = re_state e /\
     forall x, x ∈ timeline m -> re_stamp x <= re_stamp e).
Proof.
  unfold effective_root, latest_root. pose proof (later_max (timeline m) None) as Hl.
  destruct (fold_left later (timeline m) None) as [y|].
  - right. destruct Hl as [[[=]|Hy] Hm]. exists y. eauto.
  - left. by destruct Hl as [_ Hl].
Qed.

(** The durable root moved to a stamped state that does not rewind it, or not at all. *)
Definition advances (d d' : VsrState) : Prop := d' = d \/ (stamped d' /\ no_rewind d d' = true).

Lemma advances_trans a b c : advances a b -> advances b c -> advances a c.
Proof.
  unfold advances. intros [Hb|[Hb Hab]] [Hc|[Hc Hbc]]; subst; auto.
  right. split; [done|]. by apply (no_rewind_trans a b c).
Qed.

Lemma next_parked_spec p e :
  next_parked p = Some e -> (forall a b, parked_view p = Some a -> parked_checkpoint p = Some b -> re_stamp a <> re_stamp b) ->
  let q := park p (next_parked_role p) None in
  (forall x, x ∈ parked_list p <-> x = e \/ x ∈ parked_list q) /\
  (forall x, x ∈ parked_list q -> re_stamp e < re_stamp x) /\
  (parked_view q = None \/ parked_checkpoint q = None).
Proof.
  destruct p as [[a|] [b|]]; unfold next_parked, next_parked_role; cbn; intros Heq Hne; try done.
  - specialize (Hne a b eq_refl eq_refl).
    destruct (Z.ltb_spec (re_stamp b) (re_stamp a)); injection Heq as <-; cbn;
      (split_and!; [set_solver| |auto]); intros x Hx; apply list_elem_of_singleton in Hx as ->; lia.
  - injection Heq as <-. split_and!; [set_solver|set_solver|auto].
  - injection Heq as <-. split_and!; [set_solver|set_solver|auto].
Qed.

Lemma next_parked_none p : next_parked p = None -> parked_list p = [].
Proof. destruct p as [[a|] [b|]]; unfold next_parked; cbn; try done. by destruct (_ <? _). Qed.

Lemma release_inv (m : Medium) u :
  root_pre m u ->
  root_inv (release_next_root m) u /\ effective_root (release_next_root m) = effective_root m /\
  advances (sb_state (sb m)) (sb_state (sb (release_next_root m))).
Proof.
  intros Hp. unfold release_next_root. destruct (root_front m) as [f|] eqn:Hf.
  { split_and!; [|done|by left]. split; [done|]. congruence. }
  destruct (next_parked (parked_roots m)) as [e|] eqn:Hn.
  2:{ split_and!; [|done|by left]. split; [done|]. intros _. by apply next_parked_none. }
  destruct (next_parked_spec _ _ Hn (rp_cells _ _ Hp)) as (Hin & Hlt & Hcell).
  set (q := park _ _ _) in *. set (m' := set_roots _ _ _ _).
  assert (Ht : forall x, x ∈ timeline m' <-> x ∈ timeline m).
  { intros x. rewrite !elem_timeline, Hf, Hin. cbn. split; intros; intuition congruence. }
  assert (He : e ∈ timeline m) by (apply Ht, elem_timeline; by left).
  destruct (sb_write_spec (sb m) (re_id e) (re_state e)) as (Hq & Hen & Hst).
  rewrite (rp_queue _ _ Hp), Hf in Hq. cbn in Hq. rewrite Hq in Hst. cbn in Hst.
  assert (Hst' : sb_state (sb m') = sb_state (sb m) \/ sb_state (sb m') = re_state e) by set_solver.
  assert (Hpre : root_pre m' u).
  { destruct Hp. split; cbn; try done.
    - congruence.
    - intros x Hx. apply rp_ids0, Ht, Hx.
    - intros x Hx. apply rp_next0, Ht, Hx.
    - intros f x [= <-] Hx. by apply Hlt.
    - intros a b Ha Hb. destruct Hcell; congruence.
    - intros x Hx. apply rp_stamped0, Ht, Hx.
    - intros x y Hx Hy. by apply rp_order0; apply Ht.
    - intros x Hx. change (no_rewind (sb_state (sb m')) (re_state x) = true).
      destruct Hst' as [->| ->]; [by apply rp_durable0, Ht|].
      apply elem_of_cons in Hx as [->|Hx]; [apply no_rewind_refl|].
      apply rp_order0; [done|apply Ht, elem_timeline; by right|by apply Hlt]. }
  split_and!.
  - split; [done|]. by intros [=].
  - destruct (effective_cases m) as [[Hnil _]|(x & Hx & -> & Hmax)].
    { rewrite Hnil in He. by apply elem_of_nil in He. }
    eapply effective_max; [done|by apply Ht|]. intros y Hy. apply Hmax, Ht, Hy.
  - destruct Hst' as [->| ->]; [by left|right]. split; [by apply (rp_stamped _ _ Hp)|by apply (rp_durable _ _ Hp)].
Qed.

(** Dropping parked entries, or renaming what the timeline does not read. *)
Lemma root_pre_sub (m m' : Medium) u u' :
  root_pre m u -> u ⊆ u' -> sb m' = sb m -> root_front m' = root_front m ->
  checkpoints m' = checkpoints m -> next_root_stamp m' = next_root_stamp m ->
  (forall r, parked_at (parked_roots m') r = None \/ parked_at (parked_roots m') r = parked_at (parked_roots m) r) ->
  root_pre m' u'.
Proof.
  intros Hp Hu Hb Hf Hc Hn Hpk.
  pose proof (Hpk DurableView) as Hv. pose proof (Hpk CheckpointRoot) as Hk. cbn in Hv, Hk.
  assert (Hl : forall x, x ∈ parked_list (parked_roots m') -> x ∈ parked_list (parked_roots m)).
  { intros x. rewrite !elem_parked. intros [Hx|Hx]; [left|right]; destruct Hv, Hk; congruence. }
  assert (Ht : forall x, x ∈ timeline m' -> x ∈ timeline m).
  { intros x. rewrite !elem_timeline, Hf. intros [Hx|Hx]; auto. }
  destruct Hp. split; rewrite ?Hb, ?Hf, ?Hc, ?Hn; try done; eauto.
  - set_solver.
  - intros x Hx. destruct (rp_ids0 x (Ht x Hx)). split; [set_solver|done].
  - intros a b Ha Hb'. apply rp_cells0; destruct Hv, Hk; congruence.
Qed.

Lemma root_inv_sub (m m' : Medium) u u' :
  root_inv m u -> u ⊆ u' -> sb m' = sb m -> root_front m' = root_front m ->
  checkpoints m' = checkpoints m -> next_root_stamp m' = next_root_stamp m ->
  (forall r, parked_at (parked_roots m') r = None \/ parked_at (parked_roots m') r = parked_at (parked_roots m) r) ->
  root_inv m' u'.
Proof.
  intros [Hp Hne] Hu Hb Hf Hc Hn Hpk. split; [by eapply root_pre_sub|].
  intros Hnone. rewrite Hf in Hnone. specialize (Hne Hnone).
  destruct (parked_list (parked_roots m')) as [|x l] eqn:Hl; [done|exfalso].
  assert (Hx : x ∈ parked_list (parked_roots m')) by (rewrite Hl; constructor).
  apply elem_parked in Hx. pose proof (Hpk DurableView) as Hv. pose proof (Hpk CheckpointRoot) as Hk. cbn in Hv, Hk.
  assert (x ∈ parked_list (parked_roots m)) as Hin; [|rewrite Hne in Hin; by apply elem_of_nil in Hin].
  apply elem_parked. destruct Hx as [Hx|Hx]; [left|right]; destruct Hv, Hk; congruence.
Qed.

Lemma root_inv_frame (m m' : Medium) u u' :
  root_inv m u -> u ⊆ u' -> sb m' = sb m -> root_front m' = root_front m ->
  checkpoints m' = checkpoints m -> next_root_stamp m' = next_root_stamp m ->
  parked_roots m' = parked_roots m -> root_inv m' u'.
Proof. intros. eapply root_inv_sub; eauto. intros r. right. congruence. Qed.

(** A state the effective root may move to is one every entry and the medium may. *)
Lemma effective_top (m : Medium) u st :
  root_pre m u -> no_rewind (effective_root m) st = true ->
  (forall e, e ∈ timeline m -> no_rewind (re_state e) st = true) /\ no_rewind (sb_state (sb m)) st = true.
Proof.
  intros Hp Hnr. destruct (effective_cases m) as [[Hnil Heq]|(x & Hx & Heq & Hmax)]; rewrite Heq in Hnr.
  { split; [|done]. intros e He. rewrite Hnil in He. by apply elem_of_nil in He. }
  pose proof (rp_stamped _ _ Hp x Hx) as Hs. split.
  - intros e He. destruct (Z.eq_dec (re_stamp e) (re_stamp x)) as [He'|He'].
    { by rewrite (stamp_inj m u e x). }
    apply (no_rewind_trans _ (re_state x)); [done| |done].
    apply (rp_order _ _ Hp); [done..|]. specialize (Hmax e He). lia.
  - apply (no_rewind_trans _ (re_state x)); [done|by apply (rp_durable _ _ Hp)|done].
Qed.

Lemma elem_park p role n x :
  x ∈ parked_list (park p role (Some n)) -> x = n \/ x ∈ parked_list p.
Proof. rewrite !elem_parked. destruct role; cbn; naive_solver. Qed.

Lemma submit_root_inv (m m' : Medium) u role id st :
  root_inv m u -> id ∉ u -> stamped st -> submit_root m role id st = Some m' ->
  root_inv m' ({[id]} ∪ u) /\ effective_root m' = st /\ advances (sb_state (sb m)) (sb_state (sb m')).
Proof.
  intros [Hp _] Hid Hst. unfold submit_root. destruct (no_rewind (effective_root m) st) eqn:Hnr; [|done].
  set (n := mkRootEntry role id st (next_root_stamp m)). set (m1 := mkMedium _ _ _ _ _ _ _ _ _ _ _ _ _ _ _).
  intros [= <-]. destruct (effective_top m u st Hp Hnr) as [Hto Hd].
  assert (Ht : forall x, x ∈ timeline m1 -> x = n \/ x ∈ timeline m).
  { intros x. rewrite !elem_timeline. intros [Hx|Hx]; [auto|]. destruct (elem_park _ _ _ x Hx); auto. }
  assert (Hn : n ∈ timeline m1) by (apply elem_timeline; right; apply elem_parked; destruct role; cbn; auto).
  assert (Hlt : forall e, e ∈ timeline m -> re_stamp e < re_stamp n) by (apply (rp_next _ _ Hp)).
  assert (Hp1 : root_pre m1 ({[id]} ∪ u)).
  { destruct Hp. split; try done.
    - cbn. set_solver.
    - intros x Hx. destruct (Ht x Hx) as [->|Hx']; cbn; [set_solver|]. destruct (rp_ids0 x Hx'). set_solver.
    - intros x Hx. destruct (Ht x Hx) as [->|Hx']; cbn; [lia|]. specialize (rp_next0 x Hx'). lia.
    - intros f x Hf Hx. destruct (elem_park _ _ _ x Hx) as [->|Hx']; [|by apply rp_front0].
      apply Hlt, elem_timeline. by left.
    - intros a b Ha Hb. enough (a = n /\ b ∈ timeline m \/ b = n /\ a ∈ timeline m) as [[-> Hx]|[-> Hx]].
      { specialize (Hlt _ Hx). lia. } { specialize (Hlt _ Hx). lia. }
      rewrite !elem_timeline, !elem_parked. destruct role; cbn in Ha, Hb; [left|right]; split; auto; congruence.
    - intros x Hx. destruct (Ht x Hx) as [->|Hx']; [done|]. by apply rp_stamped0.
    - intros x y Hx Hy Hs. destruct (Ht y Hy) as [->|Hy'], (Ht x Hx) as [->|Hx'];
        [lia|by apply Hto| |by apply rp_order0]. specialize (Hlt y Hy'). lia.
    - intros x Hx. destruct (Ht x Hx) as [->|Hx']; [done|]. by apply rp_durable0. }
  destruct (release_inv m1 _ Hp1) as (Hri & -> & Hadv). split_and!; [done| |done].
  rewrite (effective_max m1 _ n Hp1 Hn); [done|].
  intros x Hx. destruct (Ht x Hx) as [->|Hx']; [lia|]. specialize (Hlt x Hx'). lia.
Qed.

(** Progress of the superblock that settles no root. *)
Lemma root_inv_progress (m m' : Medium) u u' :
  root_inv m u -> root_front m' = root_front m -> parked_roots m' = parked_roots m ->
  next_root_stamp m' = next_root_stamp m -> sb_roots (sb m') = sb_roots (sb m) ->
  (sb_state (sb m') = sb_state (sb m) \/ sb_state (sb m') ∈ (sb_roots (sb m)).*2) ->
  sb_envelopes (sb m') = dom (checkpoints m') -> (size (checkpoints m') <= 1)%nat ->
  u ⊆ u' -> dom (checkpoints m') ⊆ u' -> (forall e, e ∈ timeline m -> re_id e ∉ dom (checkpoints m')) ->
  root_inv m' u' /\ effective_root m' = effective_root m /\ advances (sb_state (sb m)) (sb_state (sb m')).
Proof.
  intros [Hp Hne] Hf Hpk Hnx Hr Hs He H1 Hu Hd Hi.
  assert (Ht : timeline m' = timeline m) by (unfold timeline; by rewrite Hf, Hpk).
  assert (Hs' : sb_state (sb m') = sb_state (sb m) \/
                exists f, root_front m = Some f /\ sb_state (sb m') = re_state f).
  { destruct Hs as [->|Hs]; [by left|right]. rewrite (rp_queue _ _ Hp) in Hs.
    destruct (root_front m) as [f|]; cbn in Hs; [|by apply elem_of_nil in Hs].
    apply list_elem_of_singleton in Hs. eauto. }
  split_and!.
  - split; [|by rewrite Hf, Hpk]. destruct Hp. split; rewrite ?Ht, ?Hf, ?Hpk, ?Hnx; try done; try congruence.
    + intros e Hx. split; [|by apply Hi]. apply Hu. by apply rp_ids0.
    + intros e Hx. destruct Hs' as [->|(f & Hff & ->)]; [by apply rp_durable0|].
      assert (Hft : f ∈ timeline m) by (apply elem_timeline; by left).
      apply elem_timeline in Hx as Hx'. destruct Hx' as [Hx'|Hx'].
      * rewrite Hff in Hx'. injection Hx' as ->. apply no_rewind_refl.
      * apply rp_order0; eauto.
  - unfold effective_root, latest_root. rewrite Ht. destruct Hs' as [->|(f & Hff & _)]; [done|].
    pose proof (later_max (timeline m) None) as Hl. destruct (fold_left later (timeline m) None); [done|].
    destruct Hl as [_ Hl]. unfold timeline in Hl. by rewrite Hff in Hl.
  - destruct Hs' as [->|(f & Hff & ->)]; [by left|right].
    assert (Hft : f ∈ timeline m) by (apply elem_timeline; by left).
    split; [by apply (rp_stamped _ _ Hp)|by apply (rp_durable _ _ Hp)].
Qed.

Lemma submit_checkpoint_inv (m : Medium) u id op snap :
  root_inv m u -> id ∉ u ->
  let '(v, m') := submit_checkpoint m id op snap in
  let u' := match v with EnvelopeSubmitted => {[id]} ∪ u | EnvelopeFenced => u end in
  root_inv m' u' /\ effective_root m' = effective_root m /\ advances (sb_state (sb m)) (sb_state (sb m')).
Proof.
  intros Hinv Hid. unfold submit_checkpoint. destruct (Nat.eqb_spec (size (checkpoints m)) 0) as [Hz|Hz]; cbn [negb].
  - destruct (sb_checkpoint_spec (sb m) id op snap) as (Hr & Hen & Hs).
    pose proof Hinv as [Hp _]. apply (root_inv_progress m _ u); cbn; try done.
    + by rewrite Hen, dom_insert_L, (rp_envs _ _ Hp).
    + apply map_size_empty_inv in Hz. by rewrite Hz, map_size_insert_None, map_size_empty.
    + set_solver.
    + rewrite dom_insert_L. pose proof (rp_cids _ _ Hp). set_solver.
    + intros e He. destruct (rp_ids _ _ Hp e He). rewrite dom_insert_L. set_solver.
  - split_and!; [|done|by left]. by apply (root_inv_frame m _ u).
Qed.

Lemma landing_inv (m : Medium) u f b' :
  root_inv m u -> root_front m = Some f -> sb_roots b' = [] -> sb_envelopes b' = sb_envelopes (sb m) ->
  sb_state b' = re_state f ->
  let m' := release_next_root (set_roots m b' None (parked_roots m)) in
  root_inv m' u /\ effective_root m' = effective_root m /\ advances (sb_state (sb m)) (sb_state (sb m')).
Proof.
  intros [Hp _] Hf Hr He Hs. cbv zeta. set (m0 := set_roots m b' None (parked_roots m)).
  assert (Hft : f ∈ timeline m) by (apply elem_timeline; by left).
  assert (Ht : forall x, x ∈ timeline m0 -> x ∈ timeline m).
  { intros x. rewrite !elem_timeline. cbn. intros [[=]|Hx]. by right. }
  assert (Hpk : forall x, x ∈ timeline m0 -> x ∈ parked_list (parked_roots m)).
  { intros x. rewrite elem_timeline. cbn. by intros [[=]|Hx]. }
  assert (Hp0 : root_pre m0 u).
  { pose proof Hp as []. split; try done.
    - cbn. congruence.
    - intros x Hx. by apply rp_ids0, Ht.
    - intros x Hx. by apply rp_next0, Ht.
    - intros x Hx. by apply rp_stamped0, Ht.
    - intros x y Hx Hy. by apply rp_order0; apply Ht.
    - intros x Hx. cbn. rewrite Hs. apply rp_order0; [done|by apply Ht|]. apply rp_front0; auto. }
  destruct (release_inv m0 u Hp0) as (Hinv & -> & Hadv). split_and!; [done| |].
  - destruct (effective_cases m0) as [[Hnil ->]|(x & Hx & -> & Hmax)]; symmetry.
    + cbn. rewrite Hs. apply (effective_max m u); [done..|]. intros y Hy.
      apply elem_timeline in Hy as [Hy|Hy]; [rewrite Hf in Hy; injection Hy as ->; lia|].
      assert (Hy' : y ∈ timeline m0) by (apply elem_timeline; by right).
      rewrite Hnil in Hy'. by apply elem_of_nil in Hy'.
    + apply (effective_max m u); [done|by apply Ht|]. intros y Hy.
      apply elem_timeline in Hy as [Hy|Hy]; [|apply Hmax, elem_timeline; by right].
      rewrite Hf in Hy. injection Hy as ->. pose proof (rp_front _ _ Hp y x Hf (Hpk x Hx)). lia.
  - eapply advances_trans; [|exact Hadv]. right. cbn. rewrite Hs.
    split; [by apply (rp_stamped _ _ Hp)|by apply (rp_durable _ _ Hp)].
Qed.

Lemma poll_sb_inv (m : Medium) u :
  root_inv m u -> exists out m', poll_sb m = Some (out, m') /\
    root_inv m' u /\ effective_root m' = effective_root m /\ advances (sb_state (sb m)) (sb_state (sb m')).
Proof.
  intros Hinv. pose proof Hinv as [Hp _]. unfold poll_sb. pose proof (sb_poll_spec (sb m)) as Hs.
  destruct (sb_poll (sb m)) as [[[id| |]|] b'].
  2-4: destruct Hs as (Hr & He & Hs); eexists _, _; split; [reflexivity|];
    apply (root_inv_progress m _ u); try done; [cbn; rewrite He; apply (rp_envs _ _ Hp)|apply (rp_one _ _ Hp)|
    apply (rp_cids _ _ Hp)|intros e; apply (rp_ids _ _ Hp)].
  destruct Hs as [(st & Hr & He & Hs)|(Hid & He & Hr & Hs)].
  - rewrite (rp_queue _ _ Hp) in Hr. cbn [root_front set_roots].
    destruct (root_front m) as [f|] eqn:Hf; [|done]. cbn in Hr. injection Hr as <- <- Hr.
    rewrite bool_decide_true by done. eexists _, _. split; [reflexivity|].
    apply (landing_inv m u f b'); auto. destruct Hs as [->|Hs]; [done|].
    rewrite <- Hr in Hs. by apply elem_of_nil in Hs.
  - rewrite (rp_envs _ _ Hp) in Hid. pose proof Hid as Hid'. apply elem_of_dom in Hid' as [op Hop].
    assert (Hother : forall f, root_front m = Some f -> re_id f <> id).
    { intros f Hf <-. apply (rp_ids _ _ Hp f); [apply elem_timeline; by left|done]. }
    set (m' := set_checkpoints (set_roots m b' (root_front m) (parked_roots m)) b' (delete id (checkpoints m))).
    exists (Some (Wrote id, None)), m'. split.
    { cbn. rewrite Hop. destruct (root_front m) as [f|] eqn:Hf; [|done].
      rewrite bool_decide_false by (by apply Hother). done. }
    apply (root_inv_progress m _ u); cbn; try done.
    + by rewrite He, dom_delete_L, (rp_envs _ _ Hp).
    + pose proof (rp_one _ _ Hp). pose proof (map_subseteq_size _ _ (delete_subseteq (checkpoints m) id)). lia.
    + rewrite dom_delete_L. pose proof (rp_cids _ _ Hp). set_solver.
    + intros e Hx. rewrite dom_delete_L. destruct (rp_ids _ _ Hp e Hx). set_solver.
Qed.

(** ** Every step *)

Definition session_inv (s : Watched) : Prop := wal_inv s /\ root_inv (med s) (used s).

Lemma opened_inv s : opened s -> session_inv s.
Proof.
  intros ((w & b & Hm) & Hp & Hr & He & Ha & Hu). rewrite Hm in *. cbn in *. split.
  - split; rewrite Hm; cbn.
    + done.
    + split; [|intros i j a c Hi; by rewrite lookup_empty in Hi].
      intros sl. split; [set_solver|]. intros (i & op & Hi & _). by rewrite lookup_empty in Hi.
    + split; [intros sl _; apply Ha|]. intros i op Hi. by rewrite lookup_empty in Hi.
    + intros i [x Hx]. by rewrite lookup_empty in Hx.
    + done.
    + by left.
  - rewrite Hm. split; [|done].
    assert (Ht : forall e, e ∉ @timeline W B Sm Image Sessions Walks (medium_new w b)).
    { intros e. apply not_elem_of_nil. }
    split; try (intros e Hx; destruct (Ht e Hx)); try (intros e e' Hx; destruct (Ht e Hx)); cbn; try done.
    rewrite map_size_empty. lia.
Qed.

Lemma wal_event_inv s e s' :
  session_inv s -> fresh s e -> exec s e = Some s' ->
  match e with DoAppend _ _ _ _ | DoWalRead _ _ | DoTruncate _ | DoPrune _ | DoPollWal => wal_inv s' | _ => True end.
Proof.
  intros [Hw _] Hf Hx. destruct e; try done.
  - by eapply append_inv.
  - injection Hx as <-. destruct (wal_read_spec (wal (med s)) id op) as (Hc & Hp & _ & Hl).
    by apply wal_inv_progress.
  - cbn in Hx. unfold truncate in Hx. pose proof (wal_truncate_spec (wal (med s)) above) as Hs.
    destruct (wal_truncate (wal (med s)) above) as [c w']. destruct Hs as (Hc & _ & Hs).
    destruct (cancel_inv s w' c Hw Hc Hs) as (out & m' & Heq & Hm). rewrite Heq in Hx. by injection Hx as <-.
  - cbn in Hx. unfold prune in Hx. pose proof (wal_prune_spec (wal (med s)) below) as Hs.
    destruct (wal_prune (wal (med s)) below) as [c w']. destruct Hs as (Hc & _ & Hs).
    destruct (cancel_inv s w' c Hw Hc Hs) as (out & m' & Heq & Hm). rewrite Heq in Hx. by injection Hx as <-.
  - destruct (poll_wal_inv s Hw) as (s1 & Heq & Hs1). rewrite Heq in Hx. by injection Hx as <-.
Qed.

(** What the log's calls leave alone, and what the superblock's do. *)
Definition roots_face (m : Medium) :=
  (sb m, root_front m, parked_roots m, next_root_stamp m, checkpoints m).
Definition appends_face (m : Medium) := (wal m, wal_writes m, wal_slots m, append_quota_cell m).

Lemma root_inv_face m m' u u' : root_inv m u -> u ⊆ u' -> roots_face m' = roots_face m -> root_inv m' u'.
Proof. intros Hr Hu [= ? ? ? ? ?]. by eapply root_inv_frame. Qed.

Lemma wal_inv_face s s' :
  wal_inv s -> appends_face (med s') = appends_face (med s) -> acked s' = acked s -> used s ⊆ used s' ->
  wal_inv s'.
Proof. intros Hw [= ? ? ? ?]. by apply wal_inv_frame. Qed.

Lemma settle_face (m m' : Medium) cs out :
  settle_cancellations m cs = Some (out, m') -> roots_face m' = roots_face m.
Proof.
  revert m out. induction cs as [|i cs IH]; intros m out; cbn [settle_cancellations]; [by intros [= <- <-]|].
  unfold retire_wal_write. destruct (wal_writes m !! i); cbn; [|done]. case_bool_decide; [|done]. cbn.
  destruct (settle_cancellations _ cs) as [[out' m1]|] eqn:Hs; [|done]. cbn. intros [= _ <-].
  by rewrite (IH _ _ Hs).
Qed.

Lemma log_event_face s e s' :
  exec s e = Some s' ->
  match e with DoAppend _ _ _ _ | DoWalRead _ _ | DoTruncate _ | DoPrune _ | DoPollWal =>
    roots_face (med s') = roots_face (med s) /\ used s ⊆ used s' | _ => True end.
Proof.
  intros Hx. destruct e; try done; cbn in Hx.
  - destruct (submit_append_cases (med s) id op header body) as [[_ Heq]|[(_ & _ & Heq)|(_ & _ & Heq)]];
      rewrite Heq in Hx; injection Hx as <-; (split; [done|]); cbn; set_solver.
  - by injection Hx as <-.
  - unfold truncate in Hx. destruct (wal_truncate _ above) as [c w'].
    destruct (settle_cancellations _ c) as [[out m']|] eqn:Hs; [|done]. injection Hx as <-.
    by apply settle_face in Hs.
  - unfold prune in Hx. destruct (wal_prune _ below) as [c w'].
    destruct (settle_cancellations _ c) as [[out m']|] eqn:Hs; [|done]. injection Hx as <-.
    by apply settle_face in Hs.
  - unfold poll_wal, retire_wal_write in Hx. destruct (wal_poll _) as [[[id|id| | | |]|] w']; cbn in Hx;
      try (by injection Hx as <-); destruct (wal_writes (med s) !! id); cbn in Hx;
      try (by injection Hx as <-); case_bool_decide; try done; by injection Hx as <-.
Qed.

Lemma release_face (m : Medium) : appends_face (release_next_root m) = appends_face m.
Proof. unfold release_next_root. destruct (root_front m), (next_parked (parked_roots m)); done. Qed.

Lemma submit_root_face (m m' : Medium) r id st : submit_root m r id st = Some m' -> appends_face m' = appends_face m.
Proof. unfold submit_root. destruct (no_rewind _ _); [|done]. intros [= <-]. by rewrite release_face. Qed.

Lemma poll_sb_face (m m' : Medium) out : poll_sb m = Some (out, m') -> appends_face m' = appends_face m.
Proof.
  unfold poll_sb. destruct (sb_poll _) as [[[id| |]|] b']; cbn -[release_next_root]; try (by intros [= _ <-]).
  destruct (root_front m) as [f|]; [case_bool_decide|]; try (intros [= _ <-]; by rewrite release_face);
    destruct (checkpoints m !! id); try done; by intros [= _ <-].
Qed.

Lemma step_inv s e s' :
  session_inv s -> fresh s e -> exec s e = Some s' ->
  session_inv s' /\ advances (sb_state (sb (med s))) (sb_state (sb (med s'))).
Proof.
  intros Hinv Hf Hx. pose proof (wal_event_inv s e s' Hinv Hf Hx) as Hwe.
  pose proof (log_event_face s e s' Hx) as Hlf. pose proof Hinv as [Hw Hr].
  destruct e; try (destruct Hlf as [Hface Hu]; split; [split; [done|by eapply root_inv_face]|];
    injection Hface as ->; by left); cbn in Hx, Hf.
  - destruct (submit_root (med s) role id state) as [m'|] eqn:Hs; [|done]. injection Hx as <-.
    destruct Hf as [Hid Hst]. destruct (submit_root_inv _ _ _ _ _ _ Hr Hid Hst Hs) as (Hr' & _ & Hadv).
    split; [split; [|done]|done]. eapply wal_inv_face; [done|by eapply submit_root_face|done|cbn; set_solver].
  - injection Hx as <-. cbn. unfold abandon_root. destruct (parked_at (parked_roots (med s)) role) as [e|] eqn:Hp;
      [case_bool_decide|]; (split; [|by left]); (split; [by eapply wal_inv_face|]); try done.
    apply (root_inv_sub (med s) _ (used s)); try done. intros r. destruct role, r; cbn; auto.
  - injection Hx as <-. split; [|by left]. split; [by eapply wal_inv_face|].
    apply (root_inv_sub (med s) _ (used s)); try done. intros r. left. by destruct r.
  - pose proof (submit_checkpoint_inv (med s) (used s) id op snapshot Hr Hf) as Hc.
    assert (Hface : appends_face (submit_checkpoint (med s) id op snapshot).2 = appends_face (med s)).
    { unfold submit_checkpoint. by destruct (negb _). }
    destruct (submit_checkpoint (med s) id op snapshot) as [[|] m']; injection Hx as <-;
      destruct Hc as (Hr' & _ & Hadv); (split; [split; [|done]|done]);
      (eapply wal_inv_face; [done|done|done|cbn; set_solver]).
  - injection Hx as <-. destruct (sb_read_spec (sb (med s)) id) as (Hq & He & Hs). pose proof Hr as [Hp _].
    destruct (root_inv_progress (med s) (submit_checkpoint_read (med s) id) (used s) (used s)) as (Hr' & _ & Hadv);
      try done; [cbn; rewrite He; apply (rp_envs _ _ Hp)|apply (rp_one _ _ Hp)|apply (rp_cids _ _ Hp)|
                 intros e; apply (rp_ids _ _ Hp)|].
    split; [split; [by eapply wal_inv_face|done]|done].
  - destruct (poll_sb_inv (med s) (used s) Hr) as (out & m' & Heq & Hr' & _ & Hadv). rewrite Heq in Hx.
    injection Hx as <-. split; [split; [|done]|done]. eapply wal_inv_face; [done|by eapply poll_sb_face|done..].
  - destruct (enqueue_block_job (med s) id kind) as [m'|] eqn:Hq; [|done]. injection Hx as <-.
    unfold enqueue_block_job in Hq. destruct (enqueue _ _ _); [|done]. injection Hq as <-.
    split; [split; [by eapply wal_inv_face|by eapply root_inv_face]|by left].
  - injection Hx as <-. unfold poll_block_job. destruct (lane_poll _). 
    split; [split; [by eapply wal_inv_face|by eapply root_inv_face]|by left].
  - destruct (settle_block_job (med s) done) as [m'|] eqn:Hq; [|done]. injection Hx as <-.
    unfold settle_block_job in Hq. destruct (settle _ _); [|done]. injection Hq as <-.
    split; [split; [by eapply wal_inv_face|by eapply root_inv_face]|by left].
Qed.

Lemma run_inv s s' :
  run s s' -> session_inv s ->
  session_inv s' /\ advances (sb_state (sb (med s))) (sb_state (sb (med s'))).
Proof.
  induction 1 as [s|s s' s'' e _ IH Hf Hx]; intros Hinv; [split; [done|by left]|].
  destruct (IH Hinv) as [Hinv' Hadv]. destruct (step_inv s' e s'' Hinv' Hf Hx) as [Hinv'' Hadv'].
  split; [done|]. by eapply advances_trans.
Qed.

Lemma session_reachable_inv s : reachable s -> session_inv s.
Proof. intros (s0 & Ho & Hr). by apply (run_inv s0 s Hr), opened_inv. Qed.

(** C10. Over any run of a session, whatever order completions arrive in, the ledger is
    exactly what the log still owes, at most one write per slot and never more than the
    quota; and a slot with no write in flight holds the last write whose completion was
    delivered for it: a late write never lands over an acknowledged one. *)
Theorem acknowledged_writes_survive s (Hr : reachable s) :
  let m := med s in
  wal_writes m = wal_pending (wal m) /\
  (forall op, slot_write_in_flight m op = false ->
     head (wal_landed (wal m) (canonical_slot m op)) = acked s (canonical_slot m op)) /\
  (forall i j a b, wal_writes m !! i = Some a -> wal_writes m !! j = Some b ->
     canonical_slot m a = canonical_slot m b -> i = j) /\
  (wal_writes m = ∅ \/ Z.of_nat (wal_appends_in_flight m) <= append_quota m).
Proof.
  destruct (session_reachable_inv s Hr) as [[Hl [Hsl Hone] [Hidle _] _ _ Hq] _]. split_and!; [done| |exact Hone|].
  - intros op Hf. apply Hidle. intros i op' Hi Hs. unfold slot_write_in_flight in Hf.
    rewrite bool_decide_eq_false in Hf. apply Hf, Hsl. eauto.
  - destruct Hq as [Hq|[Hn Hq]]; [by left|right]. destruct (quota_zero (med s)) as [?|Heq]; [done|].
    unfold wal_appends_in_flight. by rewrite Heq.
Qed.

(** Between any two moments of a session the durable root never rewinds, by the very
    test the submission choke applies: views, checkpoint, epoch, the configuration of an
    epoch and its install op only advance, across supersessions, abandonments,
    collapses and endpoint rebuilds. *)
Theorem durable_root_never_rewinds s s' (Hr : reachable s) (Hrun : run s s') :
  no_rewind (sb_state (sb (med s))) (sb_state (sb (med s'))) = true.
Proof.
  destruct (run_inv s s' Hrun (session_reachable_inv s Hr)) as [_ [->|[_ Hadv]]]; [apply no_rewind_refl|done].
Qed.

(** The effective root is where the medium is going: a landing does not move it, and
    once the timeline has drained it is the durable root.  At most [MAX_INFLIGHT_ROOTS]
    roots and one envelope are ever in flight. *)
Theorem landings_converge s s' (Hr : reachable s) (Hp : exec s DoPollSb = Some s') :
  effective_root (med s') = effective_root (med s) /\
  (roots_in_flight (med s') = O -> sb_state (sb (med s')) = effective_root (med s)) /\
  (roots_in_flight (med s') <= MAX_INFLIGHT_ROOTS)%nat /\ (checkpoints_in_flight (med s') <= 1)%nat.
Proof.
  destruct (session_reachable_inv s Hr) as [_ Hri].
  destruct (poll_sb_inv (med s) (used s) Hri) as (out & m' & Heq & [Hp' _] & Heff & _).
  cbn in Hp. rewrite Heq in Hp. injection Hp as <-. cbn. split_and!; [done| | |apply (rp_one _ _ Hp')].
  - intros Hz. rewrite <- Heff. destruct (effective_cases m') as [[_ ->]|(e & He & _)]; [done|exfalso].
    unfold roots_in_flight in Hz. rewrite <- length_app in Hz. apply nil_length_inv in Hz.
    unfold timeline in He. rewrite Hz in He. by apply elem_of_nil in He.
  - unfold roots_in_flight, parked_list, MAX_INFLIGHT_ROOTS, PARKED_ROOT_ROLES. rewrite length_app.
    destruct (root_front m'), (parked_view (parked_roots m')), (parked_checkpoint (parked_roots m')); cbn; lia.
Qed.

(** No call fail-stops on a conforming medium: an append, a truncation, a prune or a poll
    always returns, and a root submission returns exactly when it rewinds nothing. *)
Theorem conforming_medium_never_fail_stops s e (Hr : reachable s) (Hf : fresh s e) :
  match e with
  | DoRoot _ _ st => is_Some (exec s e) <-> no_rewind (effective_root (med s)) st = true
  | DoEnqueue _ _ | DoSettle _ => True
  | _ => is_Some (exec s e)
  end.
Proof.
  destruct (session_reachable_inv s Hr) as [Hw Hri]. destruct e; try done; cbn [exec]; eauto.
  - destruct (submit_append_cases (med s) id op header body) as [[_ ->]|[(_ & _ & ->)|(_ & _ & ->)]]; eauto.
  - unfold truncate. pose proof (wal_truncate_spec (wal (med s)) above) as Hs.
    destruct (wal_truncate (wal (med s)) above) as [c w']. destruct Hs as (Hc & _ & Hs).
    destruct (cancel_inv s w' c Hw Hc Hs) as (out & m' & -> & _). eauto.
  - unfold prune. pose proof (wal_prune_spec (wal (med s)) below) as Hs.
    destruct (wal_prune (wal (med s)) below) as [c w']. destruct Hs as (Hc & _ & Hs).
    destruct (cancel_inv s w' c Hw Hc Hs) as (out & m' & -> & _). eauto.
  - change (is_Some (exec s DoPollWal)). destruct (poll_wal_inv s Hw) as (s1 & -> & _). eauto.
  - unfold submit_root. destruct (no_rewind (effective_root (med s)) state); cbn; split; eauto; try done.
  - destruct (submit_checkpoint (med s) id op snapshot) as [[|] m']; eauto.
  - destruct (poll_sb_inv (med s) (used s) Hri) as (out & m' & -> & _). eauto.
Qed.

End runs.

(** ** A medium that keeps its contracts: a ring of four slots and a one-writer superblock *)

Module MediumDemo.

Record RingWal : Type := mkRingWal {
  rw_pending : gmap WriteId Z; rw_landed : list (Z * WriteId); rw_bytes : gmap WriteId (Header * list byte) }.

Definition ring : Z := 4.
Definition rw_slot (w : RingWal) (s : Z) : list WriteId :=
  (List.filter (fun p => p.1 =? s) (rw_landed w)).*2.
Definition rw_drop (w : RingWal) (gone : Z -> bool) : list WriteId * RingWal :=
  let doomed := filter (fun p => gone p.2 = true /\ p.1 ∉ (rw_landed w).*2) (rw_pending w) in
  let cancelled := (map_to_list doomed).*1 in
  (cancelled, mkRingWal (filter (fun p => p.1 ∉ cancelled) (rw_pending w)) (rw_landed w) (rw_bytes w)).

#[export] Instance ring_wal : Wal RingWal := {
  wal_capacity _ := ring;
  wal_submit_append w id op h b :=
    mkRingWal (<[id := op]> (rw_pending w)) (rw_landed w) (<[id := (h, b)]> (rw_bytes w));
  wal_submit_read w _ _ := w;
  wal_truncate w above := rw_drop w (fun op => above <? op);
  wal_prune w below := rw_drop w (fun op => op <? below);
  wal_poll w :=
    match map_to_list (rw_pending w) with
    | [] => (None, w)
    | (id, op) :: _ =>
        (Some (Appended id), mkRingWal (delete id (rw_pending w)) ((op mod ring, id) :: rw_landed w) (rw_bytes w))
    end;
}.

Record OneWriter : Type := mkOneWriter {
  ow_state : VsrState; ow_roots : list (WriteId * VsrState); ow_envelopes : gset WriteId }.

#[export] Instance one_writer : Superblock OneWriter := {
  sb_state := ow_state;
  sb_submit_write b id st := mkOneWriter (ow_state b) (ow_roots b ++ [(id, st)]) (ow_envelopes b);
  sb_submit_write_checkpoint b id _ _ := mkOneWriter (ow_state b) (ow_roots b) ({[id]} ∪ ow_envelopes b);
  sb_submit_read_checkpoint b _ := b;
  sb_poll b :=
    match ow_roots b, elements (ow_envelopes b) with
    | (id, st) :: rest, _ => (Some (Wrote id), mkOneWriter st rest (ow_envelopes b))
    | [], id :: _ => (Some (Wrote id), mkOneWriter (ow_state b) [] (ow_envelopes b ∖ {[id]}))
    | [], [] => (None, b)
    end;
}.

Lemma lands_none c p l : lands c p l l.
Proof. intros s. exists []. split; [done|]. intros i Hi. by apply elem_of_nil in Hi. Qed.

Lemma rw_drop_cancels w gone :
  let '(c, w') := rw_drop w gone in
  cancels ring (rw_pending w) (rw_pending w') (rw_slot w) (rw_slot w') c.
Proof.
  unfold rw_drop. set (d := filter _ (rw_pending w)). split_and!; [apply NoDup_fst_map_to_list|apply lands_none| |done].
  intros i Hi. apply list_elem_of_fmap in Hi as ([i' op] & -> & Hi). apply elem_of_map_to_list in Hi.
  apply map_lookup_filter_Some in Hi as [Hi [_ Hl]]. split; [eauto|]. intros s Hs. apply Hl.
  unfold rw_slot in Hs. cbn in Hs. apply list_elem_of_fmap in Hs as (q & Hq & Hs).
  apply list_elem_of_In, List.filter_In in Hs as [Hs _]. apply list_elem_of_fmap. exists q.
  by rewrite list_elem_of_In.
Qed.

#[export] Instance ring_model : WalModel RingWal.
Proof.
  apply (@Build_WalModel _ _ rw_pending rw_slot rw_bytes).
  - done.
  - intros w id op h b. split_and!; [done..|]. apply lands_none.
  - intros w id op. split_and!; [done..|]. apply lands_none.
  - intros w a. exact (conj eq_refl (conj eq_refl (rw_drop_cancels w (fun op => a <? op)))).
  - intros w a. exact (conj eq_refl (conj eq_refl (rw_drop_cancels w (fun op => op <? a)))).
  - intros w. cbn. destruct (map_to_list (rw_pending w)) as [|[id op] rest] eqn:Hl.
    { split_and!; [done..|]. apply lands_none. }
    assert (Hin : rw_pending w !! id = Some op) by (apply elem_of_map_to_list; rewrite Hl; constructor).
    split; [done|]. split; [done|]. exists op. split_and!; [done|done| |].
    + intros s. unfold rw_slot at 1. cbn. destruct (Z.eqb_spec (op mod ring) s) as [<-|Hs].
      * exists [id]. split; [done|]. intros i Hi. apply list_elem_of_singleton in Hi as ->. by exists op.
      * exists []. split; [done|]. intros i Hi. by apply elem_of_nil in Hi.
    + unfold rw_slot. cbn. change (slot_under ring op) with (op mod ring). rewrite Z.eqb_refl. constructor.
Defined.

#[export] Instance one_writer_model : SuperblockModel OneWriter.
Proof.
  apply (@Build_SuperblockModel _ _ ow_roots ow_envelopes).
  - intros b id st. cbn. auto.
  - intros b id op snap. cbn. auto.
  - intros b id. cbn. auto.
  - intros b. cbn. destruct (ow_roots b) as [|[id st] rest] eqn:Hr.
    + destruct (elements (ow_envelopes b)) as [|id rest] eqn:He; cbn; [auto|].
      right. split_and!; auto. apply elem_of_elements. rewrite He. constructor.
    + left. exists st. rewrite ?Hr. cbn. auto.
Defined.

(** Two appends to one slot of the ring, a checkpoint root and two view roots. *)
Definition demo_header (op : Z) : Header := mkHeader 1 0 op 0 0 0 0.
Definition demo_members : Membership := mkMembership 1 3 0 [1; 2; 3] 77.
Definition demo_root (view checkpoint : Z) : VsrState :=
  mkVsrState view view checkpoint checkpoint 0 [] 1 0 (Some demo_members) [] 0 0 8 ring.

#[local] Abbreviation state := (@Watched RingWal OneWriter Z Z Z Z).
#[local] Abbreviation event := (@Event Z Z Z Z).

Definition start : state :=
  mkWatched (medium_new (mkRingWal ∅ [] ∅) (mkOneWriter (demo_root 0 0) [] ∅)) ∅ (fun _ => None).

Definition script : list event :=
  [DoAppend (1, 1) 2 (demo_header 2) []; DoAppend (1, 2) 6 (demo_header 6) []; DoPollWal;
   DoAppend (1, 3) 6 (demo_header 6) []; DoAppend (1, 4) 3 (demo_header 3) []; DoTruncate 3;
   DoAppend (1, 5) 6 (demo_header 6) []; DoPollWal; DoPollWal;
   DoRoot DurableView (1, 6) (demo_root 1 0); DoRoot CheckpointRoot (1, 7) (demo_root 1 8);
   DoRoot DurableView (1, 8) (demo_root 2 8); DoCheckpoint (1, 9) 8 []].

Fixpoint play (s : state) (es : list event) : option state :=
  match es with [] => Some s | e :: es => s' ← exec s e; play s' es end.

Definition freshb (s : state) (e : event) : bool :=
  match e with
  | DoAppend id _ _ _ | DoCheckpoint id _ _ => bool_decide (id ∉ used s)
  | DoRoot _ id st => bool_decide (id ∉ used s) && match v_membership st with Some _ => true | None => false end
  | _ => true
  end.

Fixpoint play_fresh (s : state) (es : list event) : bool :=
  match es with
  | [] => true
  | e :: es => freshb s e && match exec s e with Some s' => play_fresh s' es | None => false end
  end.

Lemma freshb_sound s e : freshb s e = true -> fresh s e.
Proof.
  destruct e as [| | | | |r id st| | | | | | | |]; cbn; try done; try (by intros ?%bool_decide_eq_true).
  intros [?%bool_decide_eq_true Hm]%andb_true_iff. by destruct (v_membership st).
Qed.

Lemma play_run s es s' s0 : run s0 s -> play_fresh s es = true -> play s es = Some s' -> run s0 s'.
Proof.
  revert s. induction es as [|e es IH]; intros s Hr Hf Hp; [by injection Hp as <-|]. cbn in *.
  apply andb_true_iff in Hf as [Hf Hf']. destruct (exec s e) as [s1|] eqn:Hx; [|done].
  apply (IH s1); [|done|done]. apply (run_step s0 s s1 e); [done|by apply freshb_sound|done].
Qed.

Definition from_start (es : list event) : state := default start (play start es).

Lemma start_opened : opened start.
Proof. split_and!; try done; [by eexists _, _|]. intros sl i Hi. by apply elem_of_nil in Hi. Qed.

Lemma played es : play_fresh start es = true -> is_Some (play start es) -> reachable (from_start es).
Proof.
  intros Hf [s Hs]. exists start. split; [apply start_opened|]. unfold from_start. rewrite Hs.
  by apply (play_run start es s start (run_refl start)).
Qed.

Lemma acknowledged_writes_survive_witness :
  let s := from_start script in
  acked s 2 = Some (1, 5) /\ slot_write_in_flight (med s) 6 = false /\
  head (wal_landed (wal (med s)) 2) = Some (1, 5).
Proof.
  assert (Hr : reachable (from_start script)).
  { apply played; [vm_compute; reflexivity|]. eexists. vm_compute. reflexivity. }
  split; [vm_compute; reflexivity|]. split; [vm_compute; reflexivity|].
  destruct (acknowledged_writes_survive (from_start script) Hr) as (_ & Hs & _).
  specialize (Hs 6). change (canonical_slot (med (from_start script)) 6) with 2 in Hs. rewrite Hs.
  - vm_compute. reflexivity.
  - vm_compute. reflexivity.
Defined.

(** Two landings later the durable root has moved from view 0 to view 1. *)
Definition drained : list event := script ++ [DoPollSb; DoPollSb].

Lemma script_reachable : reachable (from_start script).
Proof. apply played; [vm_compute; reflexivity|]. eexists. vm_compute. reflexivity. Qed.

Lemma durable_root_never_rewinds_witness :
  v_view (sb_state (sb (med (from_start script)))) = 0 /\
  v_view (sb_state (sb (med (from_start drained)))) = 1 /\
  no_rewind (sb_state (sb (med (from_start script)))) (sb_state (sb (med (from_start drained)))) = true.
Proof.
  split; [vm_compute; reflexivity|]. split; [vm_compute; reflexivity|].
  apply durable_root_never_rewinds; [exact script_reachable|].
  eapply (play_run (from_start script) [DoPollSb; DoPollSb]);
    [apply run_refl|vm_compute; reflexivity|vm_compute; reflexivity].
Defined.

Definition polled : list event := script ++ [DoPollSb].

Lemma landings_converge_witness :
  effective_root (med (from_start polled)) = demo_root 2 8 /\
  effective_root (med (from_start polled)) = effective_root (med (from_start script)) /\
  (roots_in_flight (med (from_start polled)) <= MAX_INFLIGHT_ROOTS)%nat.
Proof.
  split; [vm_compute; reflexivity|].
  destruct (landings_converge (from_start script) (from_start polled) script_reachable) as (He & _ & Hd & _).
  - vm_compute. reflexivity.
  - exact (conj He Hd).
Defined.

Lemma conforming_medium_never_fail_stops_witness :
  is_Some (exec (from_start script) DoPollSb) /\ is_Some (exec (from_start script) DoPollWal).
Proof.
  split.
  - exact (conforming_medium_never_fail_stops (from_start script) DoPollSb script_reachable I).
  - exact (conforming_medium_never_fail_stops (from_start script) DoPollWal script_reachable I).
Defined.

End MediumDemo.
