(* ===== verification/Appends.v ===== *)
(** * Owed appends

    The endpoint's side of every log write: the actions an append owes
    ([Pending], [DeferredAppend] and the submission choke of
    [viewstamp-proto/src/endpoint/mod.rs]) and the completion router [on_wal_done]
    of [endpoint/checkpoint.rs], over the storage session of [Medium].

    [on_wal_done] is split at its dispatch: [wal_done_route] is everything up to the
    resolved action, which is returned, and [wal_done_release] is the release after
    the dispatch.  The dispatch itself casts the vote or ack, or fills the repair
    hole.  A fail-stop is [None]. *)

From S2P Require Import Prelude Core Hash Membership Codec Message Messages BTree ViewChange Sessions Normal Storage Lane Medium.

Inductive Pending : Type :=
| Ack (op : OpNumber)
| AdoptVote (op : OpNumber)
| AdoptAck (op : OpNumber)
| RepairFill (op : OpNumber) (entry : LogEntry).

Definition pending_op (p : Pending) : OpNumber :=
  match p with Ack op | AdoptVote op | AdoptAck op | RepairFill op _ => op end.

Inductive DeferReason : Type :=
| DeferSlot
| DeferQuota.

Record DeferredAppend : Type := mkDeferred {
  df_kind : Pending;
  df_header : Header;
  df_body : list byte;
  df_reason : DeferReason;
}.

Definition is_quota (d : DeferredAppend) : bool :=
  match df_reason d with DeferQuota => true | DeferSlot => false end.

(** The endpoint's own tables: [pending] is keyed by the sequence number alone. *)
Record Appender : Type := mkAppender {
  ap_incarnation : Z;
  ap_next_op_id : Z;
  ap_pending : gmap Z Pending;
  ap_deferred : btree DeferredAppend;
  ap_appending : gset Z;
  ap_foreign : Z;
}.

Definition set_pending (a : Appender) (p : gmap Z Pending) : Appender :=
  mkAppender (ap_incarnation a) (ap_next_op_id a) p (ap_deferred a) (ap_appending a) (ap_foreign a).
Definition set_deferred (a : Appender) (d : btree DeferredAppend) : Appender :=
  mkAppender (ap_incarnation a) (ap_next_op_id a) (ap_pending a) d (ap_appending a) (ap_foreign a).
Definition set_appending (a : Appender) (s : gset Z) : Appender :=
  mkAppender (ap_incarnation a) (ap_next_op_id a) (ap_pending a) (ap_deferred a) s (ap_foreign a).

Definition mint_write_id (a : Appender) : option (WriteId * Appender) :=
  let seq := ap_next_op_id a in
  if seq <? umax 64 then
    Some ((ap_incarnation a, seq),
          mkAppender (ap_incarnation a) (seq + 1) (ap_pending a) (ap_deferred a) (ap_appending a)
            (ap_foreign a))
  else None.

(** [is_foreign_completion], which counts what it refuses. *)
Definition is_foreign_completion (a : Appender) (id : WriteId) : bool * Appender :=
  if id.1 =? ap_incarnation a then (false, a)
  else (true, mkAppender (ap_incarnation a) (ap_next_op_id a) (ap_pending a) (ap_deferred a)
                (ap_appending a) (sat_add 64 (ap_foreign a) 1)).

Definition slots_alias (capacity a b : Z) : bool :=
  (a =? b) || (negb (capacity =? umax 64) && (a mod capacity =? b mod capacity)).

Section appends.
Context {W B : Type} `{Wal W} `{Superblock B}.
Context {Sm Image Sessions Walks : Type}.
#[local] Abbreviation Medium := (@Medium W B Sm Image Sessions Walks).

(** ** Submitting *)

(** One verdict of the session on one submission: the action becomes pending, or the
    bytes are parked under the reason.  The flag is whether a release pass goes on. *)
Definition offer (a : Appender) (m : Medium) (op : OpNumber) (header : Header) (body : list byte)
    (kind : Pending) : option (bool * Appender * Medium) :=
  '(id, a) ← mint_write_id a;
  '(verdict, m) ← submit_append m id op header body;
  Some (match verdict with
        | Submitted => (true, set_pending a (<[id.2 := kind]> (ap_pending a)), m)
        | SlotFenced header body =>
            (true, set_deferred a (bt_insert op (mkDeferred kind header body DeferSlot) (ap_deferred a)), m)
        | QuotaExhausted header body =>
            (false, set_deferred a (bt_insert op (mkDeferred kind header body DeferQuota) (ap_deferred a)), m)
        end).

Definition submit_or_defer_append (a : Appender) (m : Medium) (op : OpNumber) (header : Header)
    (body : list byte) (kind : Pending) : option (Appender * Medium) :=
  '(_, a, m) ← offer a m op header body kind; Some (a, m).

Definition resubmit_deferred_append (a : Appender) (m : Medium) (op : OpNumber) (d : DeferredAppend)
    : option (bool * Appender * Medium) :=
  offer a m op (df_header d) (df_body d) (df_kind d).

(** [.find(|(_, d)| d.reason == Quota)]: the lowest such op. *)
Definition first_quota (t : btree DeferredAppend) : option (Z * DeferredAppend) :=
  List.find (fun e => is_quota e.2) t.

(** The [loop]: every round but the last unparks a quota waiter or turns it into a
    slot waiter, so one round more than there are waiters is enough. *)
Fixpoint release_quota_loop (fuel : nat) (a : Appender) (m : Medium) : option (Appender * Medium) :=
  match fuel with
  | O => Some (a, m)
  | S fuel =>
      match first_quota (ap_deferred a) with
      | None => Some (a, m)
      | Some (op, d) =>
          match resubmit_deferred_append (set_deferred a (bt_remove op (ap_deferred a))) m op d with
          | Some (go_on, a, m) => if go_on then release_quota_loop fuel a m else Some (a, m)
          | None => None
          end
      end
  end.

Definition release_quota_deferred_appends (a : Appender) (m : Medium) : option (Appender * Medium) :=
  release_quota_loop (S (length (ap_deferred a))) a m.

Definition release_deferred_append (a : Appender) (m : Medium) (quiesced : Z)
    : option (Appender * Medium) :=
  let capacity := wal_capacity (wal m) in
  '(a, m) ← match List.find (fun e => slots_alias capacity e.1 quiesced) (ap_deferred a) with
            | Some (op, d) =>
                '(_, a, m) ← resubmit_deferred_append
                               (set_deferred a (bt_remove op (ap_deferred a))) m op d;
                Some (a, m)
            | None => Some (a, m)
            end;
  release_quota_deferred_appends a m.

Definition release_freed (a : Appender) (m : Medium) (freed : option Z) : option (Appender * Medium) :=
  match freed with Some op => release_deferred_append a m op | None => Some (a, m) end.

(** The mark of an op is kept when a deferred replacement owns it. *)
Definition unmark (a : Appender) (op : OpNumber) : Appender :=
  match bt_get op (ap_deferred a) with
  | Some _ => a
  | None => set_appending a (ap_appending a ∖ {[op]})
  end.

(** The correlation half of a synchronous cancellation. *)
Definition disown (a : Appender) (id : WriteId) : Appender :=
  let '(foreign, a) := is_foreign_completion a id in
  if foreign then a
  else
    match ap_pending a !! id.2 with
    | Some p => unmark (set_pending a (delete id.2 (ap_pending a))) (pending_op p)
    | None => a
    end.

Fixpoint absorb_wal_cancellations (a : Appender) (m : Medium) (cancelled : list (WriteId * Z))
    : option (Appender * Medium) :=
  match cancelled with
  | [] => Some (a, m)
  | (id, op) :: rest =>
      '(a, m) ← release_deferred_append (disown a id) m op;
      absorb_wal_cancellations a m rest
  end.

(** ** Completions *)

Definition done_op_id (d : WalDone) : WriteId :=
  match d with
  | Appended id | Cancelled id | ReadOk id _ _ | Absent id | WalFault id | BodyFaulty id _ => id
  end.

(** What the endpoint reads of its own state on this path. *)
Record AppendCtx : Type := mkAppendCtx {
  ax_status : Status;
  ax_view : View;
  ax_op : OpNumber;
  ax_wal_pruned : OpNumber;
  ax_log : btree LogEntry;
}.

(** The data the endpoint still holds for an action. *)
Definition owed_entry (cx : AppendCtx) (kind : Pending) : option LogEntry :=
  match kind with RepairFill _ e => Some e | _ => bt_get (pending_op kind) (ax_log cx) end.

Definition resubmit_cancelled_append (a : Appender) (m : Medium) (cx : AppendCtx) (kind : Pending)
    : option (Appender * Medium) :=
  let op := pending_op kind in
  match owed_entry cx kind with
  | None => Some (a, m)
  | Some e =>
      match body_bytes (l_body e) with
      | None => Some (a, m)
      | Some body =>
          let header := header_new op (ax_view cx) (l_client e) (l_request e) body in
          '(a, m) ← submit_or_defer_append a m op header body kind;
          Some (set_appending a ({[op]} ∪ ap_appending a), m)
      end
  end.

Inductive WalRoute : Type :=
| Absorbed
| ToRecovery (done : WalDone)
| Resolved (action : option Pending) (quiesced : option Z).

(** [on_wal_done] up to its dispatch. *)
Definition wal_done_route (a : Appender) (m : Medium) (cx : AppendCtx) (done : WalDone)
    (freed : option Z) : option (WalRoute * Appender * Medium) :=
  let absorbed r := '(a, m) ← r; Some (Absorbed, a, m) in
  let '(foreign, a) := is_foreign_completion a (done_op_id done) in
  if foreign then absorbed (release_freed a m freed)
  else if is_recovering (ax_status cx) || is_recovering_head (ax_status cx) then
    match done, freed with
    | Appended _, Some op | Cancelled _, Some op => absorbed (release_deferred_append a m op)
    | _, _ => Some (ToRecovery done, a, m)
    end
  else if is_retired (ax_status cx) then Some (Absorbed, a, m)
  else
    match done with
    | Appended id =>
        let resolved := ap_pending a !! id.2 in
        let a := set_pending a (delete id.2 (ap_pending a)) in
        let a := match resolved with
                 | Some p => set_appending a (ap_appending a ∖ {[pending_op p]})
                 | None => a
                 end in
        Some (Resolved resolved freed, a, m)
    | Cancelled id =>
        let resolved := ap_pending a !! id.2 in
        let a := set_pending a (delete id.2 (ap_pending a)) in
        '(a, m) ← match resolved with
                  | Some p =>
                      let op := pending_op p in
                      if (ax_op cx <? op) || (op <=? ax_wal_pruned cx) then Some (unmark a op, m)
                      else resubmit_cancelled_append
                             (set_appending a (ap_appending a ∖ {[op]})) m cx p
                  | None => Some (a, m)
                  end;
        absorbed (release_freed a m freed)
    | _ => Some (Absorbed, a, m)
    end.

Definition wal_done_release (a : Appender) (m : Medium) (quiesced : option Z)
    : option (Appender * Medium) := release_freed a m quiesced.

(** ** Dropping ownership *)

(** [reset_for_view_transition] on these tables: the writes stay with the session. *)
Definition abandon_appends (a : Appender) : Appender :=
  mkAppender (ap_incarnation a) (ap_next_op_id a) ∅ [] ∅ (ap_foreign a).

(** The scoped drop of [truncate_uncommitted_tail_from]. *)
Definition abandon_from (a : Appender) (gap : OpNumber) : Appender :=
  mkAppender (ap_incarnation a) (ap_next_op_id a)
    (filter (fun p => pending_op p.2 < gap) (ap_pending a))
    (List.filter (fun e => e.1 <? gap) (ap_deferred a))
    (filter (fun op => op < gap) (ap_appending a)) (ap_foreign a).

End appends.

(** ** Ownership

    [V] is any relation between an action and the bytes it is submitted with; what
    holds of it at every submission is carried to the medium.  [gone] are writes the
    session has settled whose owners have not been told yet. *)

Section ownership.
Context {W B : Type} `{WM : WalModel W} `{SM : SuperblockModel B}.
Context {Sm Image Sessions Walks : Type}.
#[local] Abbreviation Medium := (@Medium W B Sm Image Sessions Walks).
#[local] Abbreviation Watched := (@Watched W B Sm Image Sessions Walks).
Context (V : Pending -> Header -> list byte -> Prop).

Record owns (gone : list WriteId) (a : Appender) (s : Watched) : Prop := {
  on_session : session_inv s;
  on_fresh i : i ∈ used s -> i.1 = ap_incarnation a -> i.2 < ap_next_op_id a;
  on_pending seq k : ap_pending a !! seq = Some k ->
    (ap_incarnation a, seq) ∈ used s /\
    (wal_writes (med s) !! (ap_incarnation a, seq) = Some (pending_op k) \/ (ap_incarnation a, seq) ∈ gone) /\
    exists h b, wal_bytes (wal (med s)) !! (ap_incarnation a, seq) = Some (h, b) /\ V k h b;
  on_deferred op d : (op, d) ∈ ap_deferred a ->
    pending_op (df_kind d) = op /\ V (df_kind d) (df_header d) (df_body d);
}.

Record marks (a : Appender) : Prop := {
  mk_sorted : bt_sorted (ap_deferred a);
  mk_pending seq k : ap_pending a !! seq = Some k -> pending_op k ∈ ap_appending a;
  mk_deferred op d : (op, d) ∈ ap_deferred a -> op ∈ ap_appending a;
  mk_one seq seq' k k' : ap_pending a !! seq = Some k -> ap_pending a !! seq' = Some k' ->
    pending_op k = pending_op k' -> seq = seq';
  mk_apart seq k d : ap_pending a !! seq = Some k -> (pending_op k, d) ∉ ap_deferred a;
}.

(** Neither table owes [op] anything. *)
Definition unowned (a : Appender) (op : OpNumber) : Prop :=
  (forall seq k, ap_pending a !! seq = Some k -> pending_op k <> op) /\
  (forall d, (op, d) ∉ ap_deferred a).

Definition mark (a : Appender) (op : OpNumber) : Appender := set_appending a ({[op]} ∪ ap_appending a).

Lemma mark_marked a op : op ∈ ap_appending a -> mark a op = a.
Proof.
  intros Hop. unfold mark, set_appending. replace ({[op]} ∪ ap_appending a) with (ap_appending a) by set_solver.
  by destruct a.
Qed.

Lemma elem_bt_insert (t : btree DeferredAppend) op d x :
  x ∈ bt_insert op d t -> x = (op, d) \/ x ∈ t.
Proof.
  induction t as [|[k v] t IH]; cbn; [set_solver|].
  destruct (op =? k); [set_solver|]. destruct (op <? k); [set_solver|]. set_solver.
Qed.

Lemma elem_bt_remove (t : btree DeferredAppend) op x :
  bt_sorted t -> x ∈ bt_remove op t <-> x ∈ t /\ x.1 <> op.
Proof.
  induction t as [|[k v] t IH]; intros Hs; cbn; [set_solver|].
  apply bt_sorted_cons in Hs as [Hs Hlt]. rewrite Forall_forall in Hlt.
  destruct (Z.eqb_spec op k) as [->|Hn].
  - split; [|set_solver]. intros Hx. split; [set_solver|]. specialize (Hlt x Hx). lia.
  - rewrite elem_of_cons, IH by done. split; [intros [->|[? ?]]; split; cbn; set_solver|set_solver].
Qed.

Lemma bt_remove_sorted (t : btree DeferredAppend) op : bt_sorted t -> bt_sorted (bt_remove op t).
Proof.
  induction t as [|[k v] t IH]; intros Hs; cbn; [done|]. apply bt_sorted_cons in Hs as [Hs Hlt].
  destruct (op =? k); [done|]. apply bt_sorted_cons. split; [by apply IH|].
  rewrite Forall_forall in *. intros x Hx. apply Hlt. by apply elem_bt_remove in Hx as [? _].
Qed.

Definition bump (a : Appender) : Appender :=
  mkAppender (ap_incarnation a) (ap_next_op_id a + 1) (ap_pending a) (ap_deferred a) (ap_appending a)
    (ap_foreign a).

(** The two outcomes of an offer: a pending write, or a parked submission over a log
    that was not touched. *)
Lemma offer_cases a (m : Medium) op h b k go a' m' :
  offer a m op h b k = Some (go, a', m') ->
  let id := (ap_incarnation a, ap_next_op_id a) in
  (submit_append m id op h b = Some (Submitted, m') /\ go = true /\
     a' = set_pending (bump a) (<[ap_next_op_id a := k]> (ap_pending a)))
  \/ (exists r v, submit_append m id op h b = Some (v, m') /\ v <> Submitted /\
        go = match r with DeferSlot => true | DeferQuota => false end /\
        a' = set_deferred (bump a) (bt_insert op (mkDeferred k h b r) (ap_deferred a))).
Proof.
  unfold offer, mint_write_id. destruct (_ <? _); [|done]. cbn [mbind option_bind].
  set (id := (ap_incarnation a, ap_next_op_id a)).
  destruct (submit_append_cases m id op h b) as [[_ ->]|[(_ & _ & ->)|(_ & _ & ->)]]; cbn; intros [= <- <- <-].
  - right. exists DeferSlot. by eexists.
  - right. exists DeferQuota. by eexists.
  - by left.
Qed.

Lemma offer_marks a (m : Medium) op h b k go a' m' :
  marks a -> unowned a op -> pending_op k = op ->
  offer a m op h b k = Some (go, a', m') -> marks (mark a' op).
Proof.
  intros [Hs Hp Hd Ho Ha] [Hup Hud] Hk Hof.
  destruct (offer_cases _ _ _ _ _ _ _ _ _ Hof) as [(_ & _ & ->)|(r & v & _ & _ & _ & ->)]; split; cbn.
  - done.
  - intros seq k'. rewrite lookup_insert_Some. intros [[_ <-]|[_ Hl]]; [set_solver|]. specialize (Hp _ _ Hl). set_solver.
  - intros op' d Hin. specialize (Hd _ _ Hin). set_solver.
  - intros s1 s2 k1 k2. rewrite !lookup_insert_Some. intros [[<- <-]|[H1 Hl1]] [[<- <-]|[H2 Hl2]] Heq; try done.
    + destruct (Hup _ _ Hl2). congruence.
    + destruct (Hup _ _ Hl1). congruence.
    + by eapply Ho.
  - intros seq k' d. rewrite lookup_insert_Some. intros [[_ <-]|[_ Hl]]; [rewrite Hk; apply Hud|by eapply Ha].
  - by apply bt_insert_sorted.
  - intros seq k' Hl. specialize (Hp _ _ Hl). set_solver.
  - intros op' d Hin. apply elem_bt_insert in Hin as [[= -> ->]|Hin]; [set_solver|]. specialize (Hd _ _ Hin). set_solver.
  - done.
  - intros seq k' d Hl Hin. apply elem_bt_insert in Hin as [[= Heq _]|Hin]; [by eapply Hup|by eapply Ha].
Qed.

Lemma offer_owns gone a s op h b k go a' m' :
  owns gone a s -> (forall i, i ∈ gone -> i ∈ used s) -> pending_op k = op -> V k h b ->
  offer a (med s) op h b k = Some (go, a', m') ->
  exists s', med s' = m' /\ owns gone a' s' /\ used s ⊆ used s' /\
    used s' ⊆ {[(ap_incarnation a, ap_next_op_id a)]} ∪ used s.
Proof.
  intros [Hses Hfr Hpe Hde] Hg Hk Hv Hof. set (id := (ap_incarnation a, ap_next_op_id a)).
  assert (Hid : id ∉ used s). { intros Hi. specialize (Hfr _ Hi eq_refl). cbn in Hfr. lia. }
  destruct (offer_cases _ _ _ _ _ _ _ _ _ Hof) as [(Hsub & _ & ->)|(r & v & Hsub & Hnv & _ & ->)]; fold id in Hsub.
  - exists (using_id s id m'). split; [done|]. split; [|split; cbn; set_solver].
    assert (Hx : exec s (DoAppend id op h b) = Some (using_id s id m')) by (cbn; by rewrite Hsub).
    destruct (step_inv s (DoAppend id op h b) _ Hses Hid Hx) as [Hses' _].
    destruct (submit_append_cases (med s) id op h b) as [[_ Hc]|[(_ & _ & Hc)|(_ & _ & Hc)]];
      rewrite Hc in Hsub; try done. injection Hsub as <-.
    destruct (wal_submit_spec (wal (med s)) id op h b) as (_ & _ & Hby & _).
    split; cbn; [done| | |done].
    + intros i Hi Hinc. apply elem_of_union in Hi as [Hi|Hi]; [apply elem_of_singleton in Hi as ->; cbn; lia|].
      specialize (Hfr i Hi Hinc). lia.
    + intros seq k'. rewrite lookup_insert_Some. intros [[<- <-]|[Hne Hl]].
      * split; [set_solver|]. split; [left; fold id; by rewrite lookup_insert_eq, Hk|].
        exists h, b. fold id. by rewrite Hby, lookup_insert_eq.
      * destruct (Hpe _ _ Hl) as (Hu & Hw & h' & b' & Hb & Hv'). split; [set_solver|].
        assert (id <> (ap_incarnation a, seq)) by (unfold id; congruence).
        split; [rewrite lookup_insert_ne by done; done|]. exists h', b'. by rewrite Hby, lookup_insert_ne.
  - exists (with_med s m'). split; [done|]. split; [|split; cbn; set_solver].
    assert (Hx : exec s (DoAppend id op h b) = Some (with_med s m')) by (cbn; rewrite Hsub; by destruct v).
    destruct (step_inv s (DoAppend id op h b) _ Hses Hid Hx) as [Hses' _].
    assert (Hw : wal m' = wal (med s) /\ wal_writes m' = wal_writes (med s)).
    { destruct (submit_append_cases (med s) id op h b) as [[_ Hc]|[(_ & _ & Hc)|(_ & _ & Hc)]];
        rewrite Hc in Hsub; injection Hsub as <- <-; done. }
    destruct Hw as [Hw1 Hw2]. split; cbn; [done| | |].
    + intros i Hi Hinc. specialize (Hfr i Hi Hinc). lia.
    + rewrite Hw1, Hw2. exact Hpe.
    + intros op' d Hin. apply elem_bt_insert in Hin as [[= -> ->]|Hin]; [done|by apply Hde].
Qed.

Definition held (gone : list WriteId) (a : Appender) (s : Watched) : Prop :=
  owns gone a s /\ marks a /\ (forall i, i ∈ gone -> i ∈ used s) /\
  (forall i, i ∈ used s -> i.1 <= ap_incarnation a).

Lemma offer_incarnation a (m : Medium) op h b k go a' m' :
  offer a m op h b k = Some (go, a', m') ->
  ap_incarnation a' = ap_incarnation a /\ ap_appending a' = ap_appending a.
Proof. intros Hof. by destruct (offer_cases _ _ _ _ _ _ _ _ _ Hof) as [(_ & _ & ->)|(r & v & _ & _ & _ & ->)]. Qed.

Lemma offer_used a (s s' : Watched) op h b k go a' m' :
  offer a (med s) op h b k = Some (go, a', m') ->
  used s' ⊆ {[(ap_incarnation a, ap_next_op_id a)]} ∪ used s ->
  (forall i, i ∈ used s -> i.1 <= ap_incarnation a) -> forall i, i ∈ used s' -> i.1 <= ap_incarnation a'.
Proof.
  intros Hof Hsub Hle i Hi. destruct (offer_incarnation _ _ _ _ _ _ _ _ _ Hof) as [-> _].
  apply Hsub, elem_of_union in Hi as [Hi|Hi]; [apply elem_of_singleton in Hi as ->; cbn; lia|by apply Hle].
Qed.

(** An offer for an op no table owes and whose mark is in place. *)
Lemma offer_held gone a s op h b k go a' m' :
  held gone a s -> unowned a op -> pending_op k = op -> V k h b ->
  offer a (med s) op h b k = Some (go, a', m') ->
  exists s', med s' = m' /\ held gone (mark a' op) s'.
Proof.
  intros (Ho & Hm & Hg & Hle) Hun Hk Hv Hof.
  destruct (offer_owns _ _ _ _ _ _ _ _ _ _ Ho Hg Hk Hv Hof) as (s' & Hs & Ho' & Hu & Hu').
  exists s'. split; [done|]. pose proof (offer_marks _ _ _ _ _ _ _ _ _ Hm Hun Hk Hof).
  split_and!; [|done|set_solver|].
  - by destruct Ho'.
  - by apply (offer_used a s s' op h b k go a' m').
Qed.

Lemma unpark_held gone a s op d :
  held gone a s -> (op, d) ∈ ap_deferred a ->
  let a0 := set_deferred a (bt_remove op (ap_deferred a)) in
  held gone a0 s /\ unowned a0 op /\ op ∈ ap_appending a0 /\
  pending_op (df_kind d) = op /\ V (df_kind d) (df_header d) (df_body d).
Proof.
  intros (Ho & Hm & Hg & Hle) Hd a0. destruct Ho as [? ? ? Hde], Hm as [Hs Hp Hdm Ho Ha].
  assert (Hr : forall x, x ∈ ap_deferred a0 <-> x ∈ ap_deferred a /\ x.1 <> op).
  { intros x. by apply elem_bt_remove. }
  split_and!; [|split| | |].
  - split_and!; [| |done|done].
    + split; try done. intros op' d' Hin. apply Hr in Hin as [Hin _]. by apply Hde.
    + split; try done; [by apply bt_remove_sorted| |].
      * intros op' d' Hin. apply Hr in Hin as [Hin _]. by eapply Hdm.
      * intros seq k d' Hl Hin. apply Hr in Hin as [Hin _]. by eapply Ha.
  - intros seq k Hl Heq. apply (Ha seq k d Hl). by rewrite Heq.
  - intros d' Hin. apply Hr in Hin as [_ Hn]. by apply Hn.
  - by eapply Hdm.
  - exact (proj1 (Hde _ _ Hd)).
  - exact (proj2 (Hde _ _ Hd)).
Qed.

Lemma resubmit_held gone a s op d go a' m' :
  held gone a s -> (op, d) ∈ ap_deferred a ->
  resubmit_deferred_append (set_deferred a (bt_remove op (ap_deferred a))) (med s) op d = Some (go, a', m') ->
  exists s', med s' = m' /\ held gone a' s'.
Proof.
  intros Hh Hd Hof. destruct (unpark_held _ _ _ _ _ Hh Hd) as (Hh0 & Hun & Hop & Hk & Hv).
  destruct (offer_held _ _ _ _ _ _ _ _ _ _ Hh0 Hun Hk Hv Hof) as (s' & Hs & Hh').
  exists s'. split; [done|]. rewrite mark_marked in Hh'; [done|].
  destruct (offer_incarnation _ _ _ _ _ _ _ _ _ Hof) as [_ ->]. done.
Qed.

Lemma find_elem {A} (f : A -> bool) l x : List.find f l = Some x -> x ∈ l.
Proof. intros Hf. apply list_elem_of_In. by apply List.find_some in Hf as [? _]. Qed.

Lemma release_quota_held fuel gone a s a' m' :
  held gone a s -> release_quota_loop fuel a (med s) = Some (a', m') ->
  exists s', med s' = m' /\ held gone a' s'.
Proof.
  revert a s. induction fuel as [|fuel IH]; intros a s Hh; cbn; [intros [= <- <-]; eauto|].
  destruct (first_quota (ap_deferred a)) as [[op d]|] eqn:Hf; [|intros [= <- <-]; eauto].
  destruct (resubmit_deferred_append _ _ _ _) as [[[go a1] m1]|] eqn:Hr; [|done].
  destruct (resubmit_held _ _ _ _ _ _ _ _ Hh (find_elem _ _ _ Hf) Hr) as (s1 & <- & Hh1).
  destruct go; [by apply IH|intros [= <- <-]; eauto].
Qed.

Lemma release_held gone a s q a' m' :
  held gone a s -> release_deferred_append a (med s) q = Some (a', m') ->
  exists s', med s' = m' /\ held gone a' s'.
Proof.
  intros Hh. unfold release_deferred_append, release_quota_deferred_appends.
  destruct (List.find _ _) as [[op d]|] eqn:Hf; cbn -[release_quota_loop];
    [|intros Hr; exact (release_quota_held _ _ _ _ _ _ Hh Hr)].
  destruct (resubmit_deferred_append _ _ _ _) as [[[go a1] m1]|] eqn:Hr; cbn -[release_quota_loop]; [|done].
  destruct (resubmit_held _ _ _ _ _ _ _ _ Hh (find_elem _ _ _ Hf) Hr) as (s1 & <- & Hh1).
  intros Hq. exact (release_quota_held _ _ _ _ _ _ Hh1 Hq).
Qed.

Lemma release_freed_held gone a s q a' m' :
  held gone a s -> release_freed a (med s) q = Some (a', m') -> exists s', med s' = m' /\ held gone a' s'.
Proof. intros Hh. destruct q; cbn; [by apply release_held|intros [= <- <-]; eauto]. Qed.

(** ** Losing a write *)

Lemma drop_marks a seq k :
  marks a -> ap_pending a !! seq = Some k ->
  marks (set_appending (set_pending a (delete seq (ap_pending a))) (ap_appending a ∖ {[pending_op k]})).
Proof.
  intros [Hs Hp Hd Ho Ha] Hk. split; cbn; [done| | | |].
  - intros s' k' [Hn Hl]%lookup_delete_Some. specialize (Hp _ _ Hl).
    assert (pending_op k' <> pending_op k) by (intros He; by apply Hn, (Ho _ _ _ _ Hk Hl)). set_solver.
  - intros op d Hin. specialize (Hd _ _ Hin).
    assert (op <> pending_op k) by (intros ->; by eapply Ha). set_solver.
  - intros s1 s2 k1 k2 [_ H1]%lookup_delete_Some [_ H2]%lookup_delete_Some. by eapply Ho.
  - intros s' k' d [_ Hl]%lookup_delete_Some. by eapply Ha.
Qed.

Lemma unmark_owned a seq k :
  marks a -> ap_pending a !! seq = Some k ->
  unmark (set_pending a (delete seq (ap_pending a))) (pending_op k)
    = set_appending (set_pending a (delete seq (ap_pending a))) (ap_appending a ∖ {[pending_op k]}).
Proof.
  intros Hm Hk. unfold unmark. cbn. destruct (bt_get (pending_op k) (ap_deferred a)) as [d|] eqn:Hg; [|done].
  exfalso. apply (bt_get_elem _ _ _ (mk_sorted _ Hm)) in Hg. by eapply (mk_apart _ Hm).
Qed.

(** The owner of a settled write, if this endpoint is it, lets go of it. *)
Lemma disown_owns gone a s id :
  owns (id :: gone) a s -> (id.1 = ap_incarnation a -> ap_pending a !! id.2 = None) -> owns gone a s.
Proof.
  intros [? ? Hpe ?] Hno. split; try done. intros seq k Hl. destruct (Hpe _ _ Hl) as (Hu & Hw & Hb).
  split; [done|]. split; [|done]. destruct Hw as [Hw|Hw]; [by left|right].
  apply elem_of_cons in Hw as [<-|Hw]; [|done]. cbn in Hno. rewrite Hno in Hl; done.
Qed.

Lemma drop_owns gone a s seq :
  owns ((ap_incarnation a, seq) :: gone) a s ->
  owns gone (set_pending a (delete seq (ap_pending a))) s.
Proof.
  intros [? ? Hpe ?]. apply (disown_owns gone _ s (ap_incarnation a, seq)).
  - split; try done. intros seq' k Hl. cbn in Hl. apply lookup_delete_Some in Hl as [_ Hl]. by apply Hpe.
  - intros _. cbn. apply lookup_delete_eq.
Qed.

Lemma owns_appending gone a s x : owns gone a s -> owns gone (set_appending a x) s.
Proof. intros []. by split. Qed.

Definition counted (a : Appender) : Appender :=
  mkAppender (ap_incarnation a) (ap_next_op_id a) (ap_pending a) (ap_deferred a) (ap_appending a)
    (sat_add 64 (ap_foreign a) 1).

Lemma counted_held gone a s : held gone a s -> held gone (counted a) s.
Proof. intros ([] & [] & ? & ?). split_and!; [by split|by split|done|done]. Qed.

Lemma foreign_cases a id :
  (id.1 = ap_incarnation a /\ is_foreign_completion a id = (false, a)) \/
  (id.1 <> ap_incarnation a /\ is_foreign_completion a id = (true, counted a)).
Proof. unfold is_foreign_completion. destruct (Z.eqb_spec id.1 (ap_incarnation a)); auto. Qed.

Lemma drop_held gone a s seq k :
  held ((ap_incarnation a, seq) :: gone) a s -> ap_pending a !! seq = Some k ->
  held gone (set_appending (set_pending a (delete seq (ap_pending a))) (ap_appending a ∖ {[pending_op k]})) s.
Proof.
  intros (Ho & Hm & Hg & Hle) Hk. split_and!; [by apply owns_appending, drop_owns|by apply drop_marks|set_solver|done].
Qed.

Lemma disown_held gone a s id : held (id :: gone) a s -> held gone (disown a id) s.
Proof.
  intros Hh. unfold disown. destruct (foreign_cases a id) as [[Hid ->]|[Hid ->]].
  - destruct (ap_pending a !! id.2) as [p|] eqn:Hp.
    + rewrite unmark_owned by (done || apply Hh). apply drop_held; [|done]. by rewrite <- Hid, <- surjective_pairing.
    + destruct Hh as (Ho & Hm & Hg & Hle). split_and!; [by eapply disown_owns|done|set_solver|done].
  - apply counted_held. destruct Hh as (Ho & Hm & Hg & Hle).
    split_and!; [by eapply disown_owns|done|set_solver|done].
Qed.

Lemma absorb_held a s cs a' m' :
  held cs.*1 a s -> absorb_wal_cancellations a (med s) cs = Some (a', m') ->
  exists s', med s' = m' /\ held [] a' s'.
Proof.
  revert a s. induction cs as [|[id op] cs IH]; intros a s Hh; cbn -[release_deferred_append]; [intros [= <- <-]; eauto|].
  destruct (release_deferred_append (disown a id) (med s) op) as [[a3 m3]|] eqn:Hr; cbn; [|done].
  destruct (release_held _ _ _ _ _ _ (disown_held _ _ _ _ Hh) Hr) as (s3 & <- & Hh3). by apply IH.
Qed.

(** ** The session's calls *)

(** Growing [gone] to cover a shrunken ledger. *)
Lemma owns_settled a s s' gone :
  owns [] a s -> session_inv s' -> used s' = used s -> wal_bytes (wal (med s')) = wal_bytes (wal (med s)) ->
  (forall i op, wal_writes (med s) !! i = Some op -> wal_writes (med s') !! i = Some op \/ i ∈ gone) ->
  owns gone a s'.
Proof.
  intros [_ Hfr Hpe Hde] Hs Hu Hb Hw. split; rewrite ?Hu, ?Hb; try done.
  intros seq k Hl. destruct (Hpe _ _ Hl) as (Hin & [Hled|Hnil] & Hby); [|by apply elem_of_nil in Hnil].
  split; [done|]. split; [by apply Hw|done].
Qed.

Lemma settle_held a s cs w' out m' :
  held [] a s -> wal_capacity w' = wal_capacity (wal (med s)) -> wal_bytes w' = wal_bytes (wal (med s)) ->
  cancels (wal_capacity (wal (med s))) (wal_pending (wal (med s))) (wal_pending w')
    (wal_landed (wal (med s))) (wal_landed w') cs ->
  settle_cancellations (with_wal (med s) w') cs = Some (out, m') ->
  held out.*1 a (with_med s m').
Proof.
  intros (Ho & Hm & _ & Hle) Hc Hb Hcs Heq. pose proof (on_session _ _ _ Ho) as [Hw Hr].
  destruct (cancel_inv s w' cs Hw Hc Hcs) as (out' & m1 & Heq' & Hw'). rewrite Heq' in Heq. injection Heq as -> ->.
  destruct Hw as [Hled Hok Hsl Hus Hla Hq]. destruct Hcs as (Hnd & _ & Hin & _). rewrite <- Hled in Hin.
  destruct (settle_known (with_wal (med s) w') cs) as (out2 & sl & Heq2 & _ & Hout); cbn in *.
  { done. } { intros i Hi. by apply Hin. } { by rewrite Hc. }
  rewrite Heq2 in Heq'. injection Heq' as -> <-.
  split_and!; [|done| |done].
  - apply (owns_settled a s); cbn; try done.
    + split; [done|]. by eapply root_inv_face.
    + intros i op Hi. destruct (decide (i ∈ cs)); [by right; rewrite Hout|left]. by apply map_lookup_filter_Some.
  - intros i. rewrite Hout. intros Hi. apply Hus. by apply Hin.
Qed.

Lemma retired_held a s s1 id op :
  held [] a s -> session_inv s1 -> used s1 = used s -> wal_bytes (wal (med s1)) = wal_bytes (wal (med s)) ->
  wal_writes (med s) !! id = Some op -> wal_writes (med s1) = delete id (wal_writes (med s)) -> held [id] a s1.
Proof.
  intros (Ho & Hm & _ & Hle) Hs Hu Hb Hid Hw. pose proof (on_session _ _ _ Ho) as Hses.
  split_and!; [|done| |by rewrite Hu].
  - apply (owns_settled a s); try done. intros i op' Hi. rewrite Hw.
    destruct (decide (i = id)) as [->|Hn]; [right; set_solver|left]. by rewrite lookup_delete_ne.
  - intros i Hi. apply list_elem_of_singleton in Hi as ->. rewrite Hu. apply (wi_used _ (proj1 Hses)). eauto.
Qed.

Lemma quiet_held a s s1 :
  held [] a s -> session_inv s1 -> used s1 = used s -> wal_bytes (wal (med s1)) = wal_bytes (wal (med s)) ->
  wal_writes (med s1) = wal_writes (med s) -> held [] a s1.
Proof.
  intros (Ho & Hm & _ & Hle) Hs Hu Hb Hw. split_and!; [|done|by intros i Hi%elem_of_nil|by rewrite Hu].
  apply (owns_settled a s); try done. intros i op Hi. left. congruence.
Qed.

(** What a delivered completion says of the medium and of its owner. *)
Lemma poll_wal_held a s done freed m1 :
  held [] a s -> poll_wal (med s) = Some (Some (done, freed), m1) ->
  exists s1, med s1 = m1 /\
    match done with
    | Appended id => held [id] a s1 /\ exists op, freed = Some op /\ wal_writes (med s) !! id = Some op /\
        slot_write_in_flight m1 op = false /\ head (wal_landed (wal m1) (canonical_slot m1 op)) = Some id
    | Cancelled id => held [id] a s1
    | _ => held [] a s1
    end.
Proof.
  intros Hh Hp. pose proof (on_session _ _ _ (proj1 Hh)) as Hses. pose proof (proj1 Hses) as [Hled Hok _ _ _ _].
  assert (Hx : exec s DoPollWal = Some (mkWatched m1 (used s) (acknowledge (med s) (acked s) (Some (done, freed)))))
    by (cbn; by rewrite Hp).
  destruct (step_inv s DoPollWal _ Hses I Hx) as [Hses1 _].
  set (s1 := mkWatched m1 _ _) in *. exists s1. split; [done|].
  unfold poll_wal in Hp. pose proof (wal_poll_spec (wal (med s))) as Hsp.
  destruct (wal_poll (wal (med s))) as [[d|] w']; [|done]. destruct Hsp as (Hc & Hb & Hsp).
  assert (Hok' : ledger_ok (wal_capacity (wal (with_wal (med s) w'))) (wal_writes (med s)) (wal_slots (med s)))
    by (cbn; by rewrite Hc).
  destruct d as [id|id| | | |]; cbn in Hp; try (injection Hp as <- <- <-; by apply (quiet_held a s)).
  - destruct Hsp as (op & Hid & _). rewrite <- Hled in Hid.
    rewrite (retire_known _ id op Hok' Hid) in Hp. injection Hp as <- <- <-.
    split; [by apply (retired_held a s s1 id op)|]. exists op. split_and!; [done|done| |].
    + apply bool_decide_eq_false. unfold canonical_slot. cbn. set_solver.
    + destruct Hses1 as [[_ [Hsl _] [Hidle _] _ _ _] _]. unfold canonical_slot in *. cbn in *. rewrite Hidle.
      * by rewrite Hc, Z.eqb_refl.
      * intros i op' Hi Hs. assert (Hin : slot_under (wal_capacity w') op ∈ wal_slots (med s) ∖ {[slot_under (wal_capacity w') op]}).
        { apply Hsl. eauto. } set_solver.
  - destruct Hsp as (_ & _ & Hin & _). destruct (proj1 (Hin id ltac:(constructor))) as [op Hid]. rewrite <- Hled in Hid.
    rewrite (retire_known _ id op Hok' Hid) in Hp. injection Hp as <- <- <-.
    by apply (retired_held a s s1 id op).
Qed.

(** A cancelled live append is rebuilt from held data that [V] vouches for. *)
Definition revouched (cx : AppendCtx) : Prop :=
  forall k e body, owed_entry cx k = Some e -> body_bytes (l_body e) = Some body ->
    V k (header_new (pending_op k) (ax_view cx) (l_client e) (l_request e) body) body.

(** A recovering or retired endpoint has abandoned its appends. *)
Definition generation_ended (a : Appender) (cx : AppendCtx) : Prop :=
  is_recovering (ax_status cx) || is_recovering_head (ax_status cx) || is_retired (ax_status cx) = true ->
  ap_pending a = ∅.

Definition settled_by (d : WalDone) : list WriteId :=
  match d with Appended id | Cancelled id => [id] | _ => [] end.

Lemma settled_held a s d :
  held (settled_by d) a s -> (forall id, id ∈ settled_by d -> id.1 = ap_incarnation a -> ap_pending a !! id.2 = None) ->
  held [] a s.
Proof.
  intros (Ho & Hm & Hg & Hle) Hno. split_and!; [|done|by intros i Hi%elem_of_nil|done].
  destruct d; try done; (eapply disown_owns; [exact Ho|apply Hno; constructor]).
Qed.

Lemma submit_held gone a s op h b k a' m' :
  held gone a s -> unowned a op -> pending_op k = op -> V k h b ->
  submit_or_defer_append a (med s) op h b k = Some (a', m') ->
  exists s', med s' = m' /\ held gone (mark a' op) s'.
Proof.
  intros Hh Hun Hk Hv. unfold submit_or_defer_append.
  destruct (offer a (med s) op h b k) as [[[go a1] m1]|] eqn:Hof; cbn; [|done]. intros [= <- <-].
  by eapply offer_held.
Qed.

Lemma dropped_unowned a seq k :
  marks a -> ap_pending a !! seq = Some k ->
  unowned (set_appending (set_pending a (delete seq (ap_pending a))) (ap_appending a ∖ {[pending_op k]})) (pending_op k).
Proof.
  intros Hm Hk. split; cbn.
  - intros s' k' [Hn Hl]%lookup_delete_Some Heq. by apply Hn, (mk_one _ Hm _ _ _ _ Hk Hl).
  - intros d. by apply (mk_apart _ Hm seq).
Qed.

Lemma cancelled_held a s cx seq k a' m' :
  held [(ap_incarnation a, seq)] a s -> revouched cx -> ap_pending a !! seq = Some k ->
  (if (ax_op cx <? pending_op k) || (pending_op k <=? ax_wal_pruned cx)
   then Some (unmark (set_pending a (delete seq (ap_pending a))) (pending_op k), med s)
   else resubmit_cancelled_append (set_appending (set_pending a (delete seq (ap_pending a)))
          (ap_appending (set_pending a (delete seq (ap_pending a))) ∖ {[pending_op k]})) (med s) cx k) = Some (a', m') ->
  exists s', med s' = m' /\ held [] a' s'.
Proof.
  intros Hh Hv Hk. pose proof (drop_held _ _ _ _ _ Hh Hk) as Hd. destruct (_ || _).
  - rewrite unmark_owned by (done || apply Hh). intros [= <- <-]. eauto.
  - unfold resubmit_cancelled_append. destruct (owed_entry cx k) as [e|] eqn:He; [|intros [= <- <-]; eauto].
    destruct (body_bytes (l_body e)) as [body|] eqn:Hb; [|intros [= <- <-]; eauto].
    destruct (submit_or_defer_append _ _ _ _ _ _) as [[a1 m1]|] eqn:Hs; cbn; [|done]. intros [= <- <-].
    eapply submit_held; [exact Hd|apply dropped_unowned; [apply Hh|done]|done|by apply Hv|exact Hs].
Qed.

Lemma set_pending_absent a seq : ap_pending a !! seq = None -> set_pending a (delete seq (ap_pending a)) = a.
Proof. intros Hn. rewrite delete_id by done. by destruct a. Qed.

Lemma route_held a s cx d freed r a' m' :
  held (settled_by d) a s -> revouched cx -> generation_ended a cx ->
  wal_done_route a (med s) cx d freed = Some (r, a', m') -> exists s', med s' = m' /\ held [] a' s'.
Proof.
  intros Hh Hv Hge. unfold wal_done_route.
  destruct (foreign_cases a (done_op_id d)) as [[Hid ->]|[Hid ->]].
  2:{ destruct (release_freed (counted a) (med s) freed) as [[a1 m1]|] eqn:Hr; cbn; [|done]. intros [= _ <- <-].
      eapply release_freed_held; [|exact Hr]. apply counted_held, (settled_held a s d Hh).
      intros id Hi Hinc. destruct d; try (by apply elem_of_nil in Hi); apply list_elem_of_singleton in Hi as ->; done. }
  assert (Hquiet : is_recovering (ax_status cx) || is_recovering_head (ax_status cx) || is_retired (ax_status cx) = true ->
                   held [] a s).
  { intros He. apply (settled_held a s d Hh). intros id _ _. rewrite (Hge He). apply lookup_empty. }
  destruct (is_recovering (ax_status cx) || is_recovering_head (ax_status cx)).
  { specialize (Hquiet eq_refl). destruct d as [id|id| | | |], freed as [op|]; try (intros [= _ <- <-]; by eauto);
      destruct (release_deferred_append a (med s) op) as [[a1 m1]|] eqn:Hr; cbn; try done; intros [= _ <- <-];
      by eapply release_held. }
  destruct (is_retired (ax_status cx)); [intros [= _ <- <-]; eauto|].
  destruct d as [id|id| | | |]; try (intros [= _ <- <-]; by eauto); cbn in Hid, Hh;
    rewrite (surjective_pairing id), Hid in Hh; destruct (ap_pending a !! id.2) as [k|] eqn:Hk; cbn [ap_appending set_pending].
  - intros [= _ <- <-]. exists s. split; [done|]. by apply drop_held.
  - rewrite set_pending_absent by done. intros [= _ <- <-]. exists s. split; [done|].
    apply (settled_held a s (Appended id)); [by rewrite (surjective_pairing id), Hid|].
    intros i Hi _. apply list_elem_of_singleton in Hi as ->. done.
  - match goal with |- context [if ?c then ?x else ?y] => destruct (if c then x else y) as [[a1 m1]|] eqn:Hc end; cbn; [|done].
    destruct (cancelled_held a s cx _ k _ _ Hh Hv Hk Hc) as (s1 & <- & Hh1).
    destruct (release_freed a1 (med s1) freed) as [[a2 m2]|] eqn:Hr; cbn; [|done]. intros [= _ <- <-].
    by eapply release_freed_held.
  - rewrite set_pending_absent by done. cbn.
    destruct (release_freed a (med s) freed) as [[a2 m2]|] eqn:Hr; cbn; [|done]. intros [= _ <- <-].
    eapply release_freed_held; [|exact Hr]. apply (settled_held a s (Cancelled id)); [by rewrite (surjective_pairing id), Hid|].
    intros i Hi _. apply list_elem_of_singleton in Hi as ->. done.
Qed.

(** ** Endpoints over one session *)

Definition new_appender (incarnation : Z) : Appender := mkAppender incarnation 1 ∅ [] ∅ 0.

(** Everything a line of endpoints does with its owed appends, one after another over
    one medium, and what else happens to that medium meanwhile. *)
Inductive owned : Appender -> Medium -> Prop :=
| owned_open s inc :
    opened s -> (forall i, i ∈ used s -> i.1 < inc) -> owned (new_appender inc) (med s)
| owned_rebuild a m inc : owned a m -> ap_incarnation a < inc -> owned (new_appender inc) m
| owned_submit a m op h b k a' m' :
    owned a m -> op ∉ ap_appending a -> pending_op k = op -> V k h b ->
    submit_or_defer_append a m op h b k = Some (a', m') -> owned (mark a' op) m'
| owned_truncate a m above c m1 a' m' :
    owned a m -> truncate m above = Some (c, m1) ->
    absorb_wal_cancellations a m1 c = Some (a', m') -> owned a' m'
| owned_prune a m below c m1 a' m' :
    owned a m -> prune m below = Some (c, m1) ->
    absorb_wal_cancellations a m1 c = Some (a', m') -> owned a' m'
| owned_poll a m d freed m1 cx r a' m' :
    owned a m -> poll_wal m = Some (Some (d, freed), m1) -> revouched cx -> generation_ended a cx ->
    wal_done_route a m1 cx d freed = Some (r, a', m') -> owned a' m'
| owned_release a m q a' m' : owned a m -> wal_done_release a m q = Some (a', m') -> owned a' m'
| owned_abandon a m : owned a m -> owned (abandon_appends a) m
| owned_abandon_from a m gap : owned a m -> owned (abandon_from a gap) m
| owned_root a m role id st a' m' :
    owned a m -> mint_write_id a = Some (id, a') -> v_membership st <> None ->
    submit_root m role id st = Some m' -> owned a' m'
| owned_checkpoint a m id op snap a' :
    owned a m -> mint_write_id a = Some (id, a') -> owned a' (submit_checkpoint m id op snap).2
| owned_poll_sb a m out m' : owned a m -> poll_sb m = Some (out, m') -> owned a m'
| owned_abandon_root a m role id : owned a m -> owned a (abandon_root m role id)
| owned_collapse a m : owned a m -> owned a (collapse_parked_roots m)
| owned_lane a m m' : owned a m -> appends_face m' = appends_face m -> roots_face m' = roots_face m -> owned a m'.

Lemma mint_held a s id a' s' :
  held [] a s -> mint_write_id a = Some (id, a') -> session_inv s' -> used s' = {[id]} ∪ used s ->
  wal (med s') = wal (med s) -> wal_writes (med s') = wal_writes (med s) -> held [] a' s'.
Proof.
  intros ([_ Hfr Hpe Hde] & Hm & _ & Hle) Hmint Hs Hu Hw Hww. unfold mint_write_id in Hmint.
  destruct (_ <? _); [|done]. injection Hmint as <- <-. split_and!.
  - split; cbn; rewrite ?Hu, ?Hw, ?Hww; try done.
    + intros i Hi Hinc. apply elem_of_union in Hi as [Hi|Hi]; [apply elem_of_singleton in Hi as ->; cbn; lia|].
      specialize (Hfr i Hi Hinc). lia.
    + intros seq k Hl. destruct (Hpe _ _ Hl) as (? & ? & ?). split; [set_solver|done].
  - by destruct Hm.
  - by intros i Hi%elem_of_nil.
  - intros i Hi. rewrite Hu in Hi. apply elem_of_union in Hi as [Hi|Hi]; [apply elem_of_singleton in Hi as ->; cbn; lia|].
    by apply Hle.
Qed.

Lemma same_wal_held a s m' :
  held [] a s -> session_inv (with_med s m') -> appends_face m' = appends_face (med s) -> held [] a (with_med s m').
Proof. intros Hh Hs [= Hw Hww _ _]. apply (quiet_held a s); cbn; congruence. Qed.

Lemma abandon_held a s keep_p keep_d keep_a :
  held [] a s -> (forall seq k, keep_p !! seq = Some k -> ap_pending a !! seq = Some k /\ pending_op k ∈ keep_a) ->
  (forall x, x ∈ keep_d -> x ∈ ap_deferred a /\ x.1 ∈ keep_a) -> bt_sorted keep_d ->
  held [] (mkAppender (ap_incarnation a) (ap_next_op_id a) keep_p keep_d keep_a (ap_foreign a)) s.
Proof.
  intros ([? ? Hpe Hde] & [Hs Hp Hd Ho Ha] & Hg & Hle) Hkp Hkd Hks. split_and!; [| |done|done].
  - split; cbn; try done.
    + intros seq k Hl. by apply Hpe, Hkp.
    + intros op d Hin. by apply Hde, (Hkd (op, d)).
  - split; cbn; try done.
    + intros seq k Hl. by apply (Hkp seq).
    + intros op d Hin. by apply (Hkd (op, d)).
    + intros s1 s2 k1 k2 H1 H2. eapply Ho; [by apply Hkp|by apply Hkp].
    + intros seq k d Hl Hin. eapply Ha; [by apply Hkp|by apply Hkd].
Qed.

Lemma new_held s inc :
  session_inv s -> (forall i, i ∈ used s -> i.1 < inc) -> held [] (new_appender inc) s.
Proof.
  intros Hs Hlt. split_and!.
  - split; cbn; [done| |intros seq k Hl; by rewrite lookup_empty in Hl|by intros op d Hin%elem_of_nil].
    intros i Hi Hinc. specialize (Hlt i Hi). lia.
  - split; cbn; [constructor|intros seq k Hl; by rewrite lookup_empty in Hl|by intros op d Hin%elem_of_nil| |];
      [intros s1 s2 k1 k2 Hl|intros seq k d Hl]; by rewrite lookup_empty in Hl.
  - by intros i Hi%elem_of_nil.
  - intros i Hi. specialize (Hlt i Hi). cbn. lia.
Qed.

Lemma fresh_mint a s id a' : held [] a s -> mint_write_id a = Some (id, a') -> id ∉ used s.
Proof.
  intros (Ho & _) Hm Hi. unfold mint_write_id in Hm. destruct (_ <? _); [|done]. injection Hm as <- _.
  pose proof (on_fresh _ _ _ Ho _ Hi eq_refl) as Hlt. cbn in Hlt. lia.
Qed.

Lemma event_session (s : Watched) e s' :
  session_inv s -> fresh s e -> exec s e = Some s' -> session_inv s'.
Proof. intros Hs Hf Hx. by destruct (step_inv s e s' Hs Hf Hx). Qed.

Lemma abandon_from_held a s gap : held [] a s -> held [] (abandon_from a gap) s.
Proof.
  intros Hh. pose proof Hh as (_ & [Hs Hp Hd _ _] & _). apply abandon_held; [done| | |].
  - intros seq k [Hl Hk]%map_lookup_filter_Some. split; [done|]. apply elem_of_filter. split; [done|]. by eapply Hp.
  - intros [op d] Hin. apply list_elem_of_In, List.filter_In in Hin as [Hin Hlt]. cbn in Hlt.
    apply list_elem_of_In in Hin. split; [done|]. apply elem_of_filter. cbn. split; [lia|by eapply Hd].
  - clear Hp Hd. induction Hs as [|x l Hs IH Hx]; cbn; [constructor|]. destruct (x.1 <? gap); [|exact IH].
    constructor; [exact IH|]. rewrite Forall_forall in *. intros y Hy. apply Hx.
    apply list_elem_of_In. by apply list_elem_of_In, List.filter_In in Hy as [? _].
Qed.

Lemma cancelled_step a s cs w' c m1 a' m' :
  held [] a s -> wal_capacity w' = wal_capacity (wal (med s)) -> wal_bytes w' = wal_bytes (wal (med s)) ->
  cancels (wal_capacity (wal (med s))) (wal_pending (wal (med s))) (wal_pending w')
    (wal_landed (wal (med s))) (wal_landed w') cs ->
  settle_cancellations (with_wal (med s) w') cs = Some (c, m1) ->
  absorb_wal_cancellations a m1 c = Some (a', m') -> exists s', med s' = m' /\ held [] a' s'.
Proof.
  intros Hh Hc Hb Hcs Ht Ha. pose proof (settle_held _ _ _ _ _ _ Hh Hc Hb Hcs Ht) as Hh1.
  by apply (absorb_held a (with_med s m1) c).
Qed.

Lemma root_step a s role id st a' m' :
  held [] a s -> mint_write_id a = Some (id, a') -> v_membership st <> None ->
  submit_root (med s) role id st = Some m' -> exists s', med s' = m' /\ held [] a' s'.
Proof.
  intros Hh Hm Hst Hx. exists (using_id s id m'). split; [done|].
  assert (Hx' : exec s (DoRoot role id st) = Some (using_id s id m')) by (cbn; by rewrite Hx).
  pose proof (submit_root_face _ _ _ _ _ Hx) as [= Hw Hww _ _].
  eapply mint_held; eauto. eapply (event_session s (DoRoot role id st)); [apply Hh| |exact Hx'].
  split; [by eapply fresh_mint|done].
Qed.

Lemma checkpoint_step a s id op snap a' :
  held [] a s -> mint_write_id a = Some (id, a') ->
  exists s', med s' = (submit_checkpoint (med s) id op snap).2 /\ held [] a' s'.
Proof.
  intros Hh Hm. pose proof (fresh_mint _ _ _ _ Hh Hm) as Hid.
  destruct (submit_checkpoint (med s) id op snap) as [v m'] eqn:Hx. exists (using_id s id m'). split; [done|].
  pose proof (on_session _ _ _ (proj1 Hh)) as [Hw Hr].
  pose proof (submit_checkpoint_inv (med s) (used s) id op snap Hr Hid) as Hci. rewrite Hx in Hci.
  assert (Hf : appends_face m' = appends_face (med s)).
  { unfold submit_checkpoint in Hx. destruct (negb _); by injection Hx as _ <-. }
  assert (Hs : session_inv (using_id s id m')).
  { split; [eapply wal_inv_face; [done|done|done|cbn; set_solver]|].
    destruct v; destruct Hci as [Hci _]; [done|]. eapply root_inv_face; [done|cbn; set_solver|done]. }
  injection Hf as Hw' Hww _ _. by eapply mint_held.
Qed.

Lemma owned_held a m : owned a m -> exists s, med s = m /\ held [] a s.
Proof.
  induction 1 as [s inc Ho Hlt|a m inc _ (s & <- & Hh) Hinc|a m op h b k a' m' _ (s & <- & Hh) Hop Hk Hv Hx
    |a m above c m1 a' m' _ (s & <- & Hh) Ht Ha|a m below c m1 a' m' _ (s & <- & Hh) Ht Ha
    |a m d freed m1 cx r a' m' _ (s & <- & Hh) Hp Hv Hge Hx|a m q a' m' _ (s & <- & Hh) Hx
    |a m _ (s & <- & Hh)|a m gap _ (s & <- & Hh)|a m role id st a' m' _ (s & <- & Hh) Hm Hst Hx
    |a m id op snap a' _ (s & <- & Hh) Hm|a m out m' _ (s & <- & Hh) Hx|a m role id _ (s & <- & Hh)
    |a m _ (s & <- & Hh)|a m m' _ (s & <- & Hh) Hw Hr].
  - exists s. split; [done|]. by apply new_held; [apply opened_inv|].
  - exists s. split; [done|]. destruct Hh as (Ho & _ & _ & Hle). apply new_held; [apply Ho|].
    intros i Hi. specialize (Hle i Hi). lia.
  - eapply submit_held; eauto. destruct Hh as (_ & [_ Hmp Hmd _ _] & _). split.
    + intros seq k' Hl Heq. apply Hop. rewrite <- Heq. by eapply Hmp.
    + intros d Hd. apply Hop. by eapply Hmd.
  - unfold truncate in Ht. pose proof (wal_truncate_spec (wal (med s)) above) as Hs.
    destruct (wal_truncate (wal (med s)) above) as [cs w']. destruct Hs as (Hc & Hb & Hs). by eapply cancelled_step.
  - unfold prune in Ht. pose proof (wal_prune_spec (wal (med s)) below) as Hs.
    destruct (wal_prune (wal (med s)) below) as [cs w']. destruct Hs as (Hc & Hb & Hs). by eapply cancelled_step.
  - destruct (poll_wal_held a s d freed m1 Hh Hp) as (s1 & <- & Hs1).
    eapply (route_held a s1 cx d freed); [|done..]. destruct d; try done. by destruct Hs1.
  - by eapply release_freed_held.
  - exists s. split; [done|]. apply (abandon_held a s ∅ [] ∅); [done| |by intros x Hx%elem_of_nil|constructor].
    intros seq k Hl. by rewrite lookup_empty in Hl.
  - exists s. split; [done|]. by apply abandon_from_held.
  - by eapply root_step.
  - by eapply checkpoint_step.
  - exists (with_med s m'). split; [done|]. apply same_wal_held; [done| |by eapply poll_sb_face].
    eapply (event_session s DoPollSb); [apply Hh|done|]. cbn. by rewrite Hx.
  - eexists (with_med s _). split; [done|]. apply same_wal_held; [done|by eapply (event_session s (DoAbandon role id)); [apply Hh|..]|].
    unfold abandon_root. destruct (parked_at _ _); [case_bool_decide|]; done.
  - eexists (with_med s _). split; [done|]. apply same_wal_held; [done|by eapply (event_session s DoCollapse); [apply Hh|..]|done].
  - exists (with_med s m'). split; [done|]. apply same_wal_held; [done| |done].
    destruct (on_session _ _ _ (proj1 Hh)) as [Hwi Hri]. split; [by eapply wal_inv_face|by eapply root_inv_face].
Qed.

(** Append before ack: when a completion makes the endpoint act on an owed append, the
    slot of that op holds, as the last thing that landed in it, the write submitted
    with exactly that action, and nothing is in flight over it.  Whatever held of the
    action and its bytes at submission holds of the bytes on the medium.  Neither
    table owes that op anything any more, and in general an op without its in-flight
    mark is owed nothing. *)
Theorem acts_only_on_landed_bytes a m d freed m1 cx k q a' m'
    (Ho : owned a m) (Hp : poll_wal m = Some (Some (d, freed), m1))
    (Hx : wal_done_route a m1 cx d freed = Some (Resolved (Some k) q, a', m')) :
  (exists id h b, d = Appended id /\ q = Some (pending_op k) /\
     slot_write_in_flight m' (pending_op k) = false /\
     head (wal_landed (wal m') (canonical_slot m' (pending_op k))) = Some id /\
     wal_bytes (wal m') !! id = Some (h, b) /\ V k h b) /\
  unowned a' (pending_op k) /\ pending_op k ∉ ap_appending a' /\
  (forall op, op ∉ ap_appending a -> unowned a op).
Proof.
  destruct (owned_held a m Ho) as (s & <- & Hh). pose proof Hh as ([_ _ Hpe _] & Hmk & _).
  destruct (poll_wal_held a s d freed m1 Hh Hp) as (s1 & <- & Hs1). unfold wal_done_route in Hx.
  destruct (foreign_cases a (done_op_id d)) as [[Hid Heq]|[_ Heq]]; rewrite Heq in Hx.
  2:{ destruct (release_freed _ _ _) as [[? ?]|]; done. }
  destruct (_ || _).
  { destruct d, freed as [op|]; try done; destruct (release_deferred_append _ _ _) as [[? ?]|]; done. }
  destruct (is_retired (ax_status cx)); [done|]. destruct d as [id|id| | | |]; try done.
  2:{ unfold mbind, option_bind in Hx. repeat case_match; simplify_eq. }
  destruct (ap_pending a !! id.2) as [k'|] eqn:Hk; [|done]. injection Hx as -> <- <- <-.
  destruct Hs1 as ((Ho1 & _) & op & -> & Hw & Hfree & Hhead). cbn in Hid.
  destruct (Hpe _ _ Hk) as (_ & [Hled|Hnil] & _); [|by apply elem_of_nil in Hnil].
  rewrite <- Hid, <- surjective_pairing, Hw in Hled. injection Hled as ->.
  destruct (on_pending _ _ _ Ho1 _ _ Hk) as (_ & _ & h & b & Hb & Hv). rewrite <- Hid, <- surjective_pairing in Hb.
  split_and!; [by exists id, h, b|by apply dropped_unowned|cbn; set_solver|].
  intros op Hop. split.
  - intros seq k' Hl <-. by apply Hop, (mk_pending _ Hmk seq).
  - intros d Hd. by eapply Hop, (mk_deferred _ Hmk).
Qed.

End ownership.

(** ** Releasing under the quota *)

Section release.
Context {W B : Type} `{Wal W} `{Superblock B}.
Context {Sm Image Sessions Walks : Type}.
#[local] Abbreviation Medium := (@Medium W B Sm Image Sessions Walks).

Definition quota_waiters (t : btree DeferredAppend) : nat := length (List.filter (fun e => is_quota e.2) t).

Lemma waiters_none t : quota_waiters t = 0%nat -> first_quota t = None.
Proof. induction t as [|[k d] t IH]; [done|]. cbn. unfold quota_waiters in *. cbn. by destruct (is_quota d). Qed.

Lemma waiters_remove t op d :
  bt_sorted t -> first_quota t = Some (op, d) -> (S (quota_waiters (bt_remove op t)) = quota_waiters t)%nat.
Proof.
  induction t as [|[k v] t IH]; intros Hs Hf; [done|]. apply bt_sorted_cons in Hs as [Hs Hlt].
  unfold first_quota, quota_waiters in *. cbn in *. destruct (is_quota v) eqn:Hv.
  - injection Hf as -> ->. by rewrite Z.eqb_refl.
  - rewrite Forall_forall in Hlt. pose proof (Hlt _ (find_elem _ _ _ Hf)) as Hk. cbn in Hk.
    rewrite (proj2 (Z.eqb_neq op k)) by lia. cbn. rewrite Hv. by apply IH.
Qed.

Lemma waiters_park t op k h b :
  (quota_waiters (bt_insert op (mkDeferred k h b DeferSlot) t) <= quota_waiters t)%nat.
Proof.
  unfold quota_waiters. induction t as [|[q v] t IH]; cbn; [done|].
  destruct (op =? q); [cbn; destruct (is_quota v); cbn; lia|]. destruct (op <? q); [done|].
  cbn. destruct (is_quota v); cbn; lia.
Qed.

Lemma refused_over_quota (m : Medium) id op h b v m' :
  submit_append m id op h b = Some (v, m') -> (exists h b, v = QuotaExhausted h b) ->
  append_quota_cell m' <= Z.of_nat (size (wal_writes m')).
Proof.
  unfold submit_append. destruct (slot_write_in_flight m op); [by intros [= <- _] (? & ? & ?)|].
  set (m1 := if append_quota_cell m =? 0 then _ else m). destruct (Z.leb_spec (append_quota_cell m1) (Z.of_nat (size (wal_writes m1)))).
  - by intros [= _ <-] _.
  - destruct (bool_decide _); [|done]. by intros [= <- _] (? & ? & ?).
Qed.

(** A round that goes on has one waiter less, and a round that does not has met the quota. *)
Lemma offer_round a (m : Medium) op h b k go a' m' :
  bt_sorted (ap_deferred a) -> offer a m op h b k = Some (go, a', m') ->
  bt_sorted (ap_deferred a') /\
  if go then (quota_waiters (ap_deferred a') <= quota_waiters (ap_deferred a))%nat
  else append_quota_cell m' <= Z.of_nat (size (wal_writes m')).
Proof.
  intros Hs Hx. pose proof Hx as Hy. unfold offer, mint_write_id in Hx. destruct (_ <? _); [|done].
  cbn [mbind option_bind] in Hx.
  destruct (submit_append _ _ _ _ _) as [[[|h' b'|h' b'] m1]|] eqn:Hsub; [| | |done]; injection Hx as <- <- <-; cbn.
  - done.
  - split; [by apply bt_insert_sorted|apply waiters_park].
  - split; [by apply bt_insert_sorted|]. eapply refused_over_quota; [exact Hsub|eauto].
Qed.

Lemma release_loop_done fuel a (m : Medium) a' m' :
  bt_sorted (ap_deferred a) -> (quota_waiters (ap_deferred a) < fuel)%nat ->
  release_quota_loop fuel a m = Some (a', m') ->
  first_quota (ap_deferred a') = None \/ append_quota_cell m' <= Z.of_nat (size (wal_writes m')).
Proof.
  revert a m. induction fuel as [|fuel IH]; intros a m Hs Hn; [lia|]. cbn [release_quota_loop].
  destruct (first_quota (ap_deferred a)) as [[op d]|] eqn:Hf; [|intros [= <- <-]; auto].
  destruct (resubmit_deferred_append _ m op d) as [[[go a1] m1]|] eqn:Hr; [|done].
  pose proof (waiters_remove _ _ _ Hs Hf) as Hw.
  unfold resubmit_deferred_append in Hr. apply offer_round in Hr as [Hs1 Hgo]; [|by apply bt_remove_sorted].
  destruct go; [|intros [= <- <-]; auto]. apply IH; [done|]. cbn [set_deferred ap_deferred] in Hgo. lia.
Qed.

Lemma waiters_bound t : (quota_waiters t <= length t)%nat.
Proof. unfold quota_waiters. induction t as [|x t IH]; cbn; [done|]. destruct (is_quota x.2); cbn; lia. Qed.

(** The release loop stops only for one of its two reasons: nothing waits for the
    quota any more, or the quota is used up again. *)
Theorem quota_release_completes a (m : Medium) a' m' :
  bt_sorted (ap_deferred a) -> release_quota_deferred_appends a m = Some (a', m') ->
  first_quota (ap_deferred a') = None \/ append_quota_cell m' <= Z.of_nat (size (wal_writes m')).
Proof. intros Hs. apply release_loop_done; [done|]. pose proof (waiters_bound (ap_deferred a)). lia. Qed.

End release.

(** ** An acknowledged append, end to end *)

Module AppendsDemo.
Import MediumDemo.

Definition vouch (k : Pending) (h : Header) (b : list byte) : Prop := h = demo_header (pending_op k) /\ b = [].

(** Op 2 is submitted, op 6 shares its slot and is parked. *)
Definition the {A} (o : option A) (d : A) : A := default d o.
Definition after1 := the (submit_or_defer_append (new_appender 1) (med start) 2 (demo_header 2) [] (Ack 2)) (new_appender 1, med start).
Definition after2 := the (submit_or_defer_append (mark after1.1 2) after1.2 6 (demo_header 6) [] (Ack 6)) after1.
Definition appender2 : Appender := mark after2.1 6.
Definition landing := the (poll_wal after2.2) (None, after2.2).
Definition calm : AppendCtx := mkAppendCtx Normal 0 6 0 [].
Definition routed := the (wal_done_route appender2 landing.2 calm (Appended (1, 1)) (Some 2)) (Absorbed, appender2, landing.2).

Lemma demo_owned : owned vouch appender2 after2.2.
Proof.
  apply (owned_submit vouch (mark after1.1 2) after1.2 6 (demo_header 6) [] (Ack 6)).
  - apply (owned_submit vouch (new_appender 1) (med start) 2 (demo_header 2) [] (Ack 2));
      [apply owned_open; [exact start_opened|set_solver]|set_solver|done|done|].
    rewrite <- surjective_pairing. vm_compute. reflexivity.
  - vm_compute. intuition congruence.
  - done.
  - done.
  - vm_compute. reflexivity.
Qed.

Lemma acts_only_on_landed_bytes_witness :
  routed.1.1 = Resolved (Some (Ack 2)) (Some 2) /\ bt_get 6 (ap_deferred routed.1.2) <> None /\
  slot_write_in_flight routed.2 2 = false /\
  head (wal_landed (wal routed.2) (canonical_slot routed.2 2)) = Some (1, 1) /\ unowned routed.1.2 2.
Proof.
  split; [vm_compute; reflexivity|]. split; [vm_compute; discriminate|].
  destruct (acts_only_on_landed_bytes vouch appender2 after2.2 (Appended (1, 1)) (Some 2) landing.2 calm
    (Ack 2) (Some 2) routed.1.2 routed.2) as [(id & h & b & [= <-] & _ & Hf & Hh & _) [Hu _]].
  - exact demo_owned.
  - vm_compute. reflexivity.
  - vm_compute. reflexivity.
  - exact (conj Hf (conj Hh Hu)).
Defined.

End AppendsDemo.
