(* ===== verification/Serve.v ===== *)
(** * Serving bodies

    Every path that ships a logged body to another replica: the answers to a repair
    solicitation ([on_request_prepare] and [on_request_prepare_range] of
    [viewstamp-proto/src/endpoint/repair.rs]) and the primary's tick of
    [endpoint/normal.rs] ([primary_timeouts]), which heartbeats, retransmits the
    uncommitted window in batches and samples the forfeiture.  Answers are returned as lists of addressed
    messages in emission order; [None] is the fail-stop of a handler that runs on a
    node with no slot in its own configuration. *)

From stdpp Require Import strings.
From S2P Require Import Prelude Core Hash Membership Codec Message Messages Wire WireSize BTree ViewChange Votes Proposals Sessions Normal.

Definition PREPARE_RETRANSMIT_WINDOW : Z := 64.
Definition COMMIT_HEARTBEAT : Z := 50 * MILLIS.
Definition PREPARE_RETRANSMIT : Z := 100 * MILLIS.

#[local] Abbreviation sends := (list (Recipient * Message)).

(** [self.log.range(lo..=hi)] *)
Definition bt_range {V} (lo hi : Z) (t : btree V) : btree V :=
  List.filter (fun e => (lo <=? e.1) && (e.1 <=? hi)) t.

(** [PreparedEntry::new(op, client, request, body)] of a body-bearing entry. *)
Definition present_entry (op : OpNumber) (e : LogEntry) : option PreparedEntry :=
  body ← body_bytes (l_body e); Some (mkEntry op (l_client e) (l_request e) (Present body)).

Definition entry_cost (e : PreparedEntry) : Z :=
  match e_body e with Present body => present_entry_encoded_len (zlen body) | _ => 0 end.

(** The accumulating loop of the range answer: the first entry always goes in, and
    the first later one over the budget ends the batch. *)
Fixpoint serve_prefix (budget running : Z) (started : bool) (run : btree LogEntry) : list PreparedEntry :=
  match run with
  | [] => []
  | (op, entry) :: run =>
      match present_entry op entry with
      | None => serve_prefix budget running started run
      | Some e =>
          if started && (budget <? running + entry_cost e) then []
          else e :: serve_prefix budget (running + entry_cost e) true run
      end
  end.

(** The flushing loop of the retransmission: [entries] is the open batch. *)
Fixpoint retransmit_batches (budget running : Z) (entries : list PreparedEntry)
    (window : list (OpNumber * option LogEntry)) : list (list PreparedEntry) :=
  match window with
  | [] => if bool_decide (entries = []) then [] else [entries]
  | (op, held) :: window =>
      match held ≫= present_entry op with
      | None => retransmit_batches budget running entries window
      | Some e =>
          if negb (bool_decide (entries = [])) && (budget <? running + entry_cost e)
          then entries :: retransmit_batches budget (entry_cost e) [e] window
          else retransmit_batches budget (running + entry_cost e) (entries ++ [e]) window
      end
  end.

Section serve.
Context {S : Type}.
#[local] Abbreviation Node := (@Node S).

Definition node_slot (n : Node) : option ReplicaId :=
  local_slot_opt (nd_membership n) (c_local (nd_config n)).

Definition participates_as_primary (n : Node) (cx : Ctx) : bool :=
  is_normal (cx_status cx) && node_is_primary n && negb (cx_pending_durable_view cx).

(** ** Answers to a solicitation *)

(** The requester an answer goes to: an authenticated member of the configuration. *)
Definition requester (n : Node) (from : Peer) : option ReplicaId :=
  r ← as_replica from;
  if node_count (nd_membership n) <=? r then None else Some r.

Definition served_prepare (n : Node) (cx : Ctx) (op : OpNumber) (e : LogEntry) (body : list byte) : Prepare :=
  mkPrepare (nd_view n) op (nd_commit_min n) (cx_checkpoint_op cx) (m_epoch (nd_membership n))
    (m_config_id (nd_membership n)) (l_client e) (l_request e) body.

Definition on_request_prepare (n : Node) (cx : Ctx) (from : Peer) (m : RequestPrepare) : option sends :=
  if negb (is_normal (cx_status cx)) then Some []
  else
    match requester n from with
    | None => Some []
    | Some r =>
        let op := rpr_op m in
        match bt_get op (nd_log n) with
        | None =>
            if (nd_op n <? op) && (nd_commit_max n <? op) then
              slot ← node_slot n;
              Some [(To (PeerReplica r),
                     MNack (mkNack (nd_view n) op slot (m_config_id (nd_membership n))))]
            else Some []
        | Some entry =>
            match body_bytes (l_body entry) with
            | None => Some []
            | Some body =>
                if nd_op n <? op then Some []
                else if cx_pending_durable_view cx then Some []
                else Some [(To (PeerReplica r), MPrepare (served_prepare n cx op entry body))]
            end
        end
    end.

(** The interval a range answer scans: the claimed one, clamped to the window and to
    the head. *)
Definition serve_hi (n : Node) (m : RequestPrepareRange) : OpNumber :=
  Z.min (Z.min (rg_hi m) (sat_sub (sat_add 64 (rg_lo m) REPAIR_WINDOW) 1)) (nd_op n).

Definition served_entries (n : Node) (m : RequestPrepareRange) : list PreparedEntry :=
  serve_prefix (MAX_FRAME_LEN - REPAIR_BATCH_CARRIER_OVERHEAD) 0 false
    (bt_range (rg_lo m) (serve_hi n m) (nd_log n)).

Definition on_request_prepare_range (n : Node) (cx : Ctx) (from : Peer) (m : RequestPrepareRange) : sends :=
  if negb (is_normal (cx_status cx)) || cx_pending_durable_view cx then []
  else
    match requester n from with
    | None => []
    | Some r =>
        if serve_hi n m <? rg_lo m then []
        else
          let entries := served_entries n m in
          if bool_decide (entries = []) then []
          else [(To (PeerReplica r),
                 MRepairBatch (mkRepairBatch (nd_view n) (nd_commit_min n) (cx_checkpoint_op cx)
                   (m_config_id (nd_membership n)) entries))]
    end.

(** ** The primary's tick *)

Definition retransmit_window (n : Node) : list (OpNumber * option LogEntry) :=
  let lo := nd_commit_min n + 1 in
  let hi := Z.min (nd_op n) (sat_sub (sat_add 64 lo PREPARE_RETRANSMIT_WINDOW) 1) in
  map (fun op => (op, bt_get op (nd_log n))) (seqZ lo (hi - lo + 1)).

Definition prepare_batches (n : Node) : list (list PreparedEntry) :=
  retransmit_batches (MAX_FRAME_LEN - PREPARE_BATCH_CARRIER_OVERHEAD) 0 [] (retransmit_window n).

Definition prepare_batch (n : Node) (cx : Ctx) (entries : list PreparedEntry) : Message :=
  MPrepareBatch (mkPrepareBatch (nd_view n) (nd_commit_min n) (cx_checkpoint_op cx)
    (m_epoch (nd_membership n)) (m_config_id (nd_membership n)) entries).

(** The cadence timers of the tick; the proposal retransmission timer and the
    forfeiture grace belong to the proposer. *)
Record PrimaryTimers : Type := mkPrimaryTimers {
  pt_commit : option Z;
  pt_prepare : option Z;
  pt_dvc_message : option Z;
  pt_view_change_status : option Z;
}.

Definition due (deadline : option Z) (now : Z) : bool :=
  match deadline with Some d => d <=? now | None => false end.

Definition retire_svc (p : Proposer) : Proposer :=
  mkProposer (pr_membership p) (pr_local p) (pr_view p) (pr_svc_target p) (pr_svc_from p) None
    (pr_forfeit_armed p) (pr_pending_forfeit p) (pr_sent p).

Definition heartbeat (n : Node) (cx : Ctx) : Message :=
  MCommit (mkCommit (nd_view n) (nd_commit_min n) (cx_checkpoint_op cx) (m_epoch (nd_membership n))
             (m_config_id (nd_membership n))).

(** The two cadences: what is sent and the re-armed timers. *)
Definition primary_cadence (n : Node) (cx : Ctx) (t : PrimaryTimers) (now : Z) : sends * PrimaryTimers :=
  let commit := match pt_commit t with None => Some (Time.instant_add now COMMIT_HEARTBEAT) | c => c end in
  let '(beat, commit) :=
    if due commit now then ([(Backups, heartbeat n cx)], Some (Time.instant_add now COMMIT_HEARTBEAT))
    else ([], commit) in
  let '(batches, prepare) :=
    if due (pt_prepare t) now then
      (map (fun entries => (Backups, prepare_batch n cx entries)) (prepare_batches n),
       if nd_commit_min n <? nd_op n then Some (Time.instant_add now PREPARE_RETRANSMIT) else None)
    else ([], pt_prepare t) in
  (beat ++ batches, mkPrimaryTimers commit prepare (pt_dvc_message t) (pt_view_change_status t)).

(** The whole tick: a latched forfeiture only proposes, an undurable view does
    nothing, and otherwise the cadences run and the forfeiture is sampled.  The last
    component is the view a proposal starts, if any. *)
Definition primary_timeouts (n : Node) (cx : Ctx) (p : Proposer) (t : PrimaryTimers) (now : Z)
    : sends * PrimaryTimers * (Proposer * option View) :=
  if pr_pending_forfeit p then
    let p := set_forfeit p None true in
    ([], mkPrimaryTimers None None (pt_dvc_message t) (pt_view_change_status t),
     if match pr_svc_message p with None => true | Some d => d <=? now end
     then propose_next_view p now else (p, None))
  else if cx_pending_durable_view cx then
    ([], mkPrimaryTimers None None None None, (retire_svc p, None))
  else
    let '(out, t) := primary_cadence n cx t now in
    (out, t, maybe_forfeit p now
               (stuck (cx_quorum_checkpoint_op cx) (cx_checkpoint_op cx)
                  (forfeit_checkpoint_lag (nd_config n)) (nd_commit_max n) (elements (nd_repair n)))).

End serve.

(** ** The batches *)

#[local] Arguments entry_cost : simpl never.
#[local] Arguments present_entry : simpl never.

Fixpoint total_cost (es : list PreparedEntry) : Z :=
  match es with [] => 0 | e :: es => entry_cost e + total_cost es end.

Lemma total_cost_app es es' : total_cost (es ++ es') = total_cost es + total_cost es'.
Proof. induction es as [|e es IH]; cbn; [done|]. rewrite IH. lia. Qed.

Definition is_present (e : PreparedEntry) : Prop := exists body, e_body e = Present body.

Lemma present_entry_present op e pe : present_entry op e = Some pe -> is_present pe /\ 0 <= entry_cost pe.
Proof.
  unfold present_entry. destruct (body_bytes (l_body e)) as [b|]; [|done]. intros [= <-]. split; [by exists b|].
  unfold entry_cost; simpl e_body; cbv beta iota; unfold present_entry_encoded_len. change LOG_ENTRY_BODY_OVERHEAD with 52. lia.
Qed.

Lemma total_cost_nonneg es : Forall (fun e => 0 <= entry_cost e) es -> 0 <= total_cost es.
Proof. induction 1 as [|e es He _ IH]; cbn; [lia|]. lia. Qed.

(** The held bodies of a run, in order. *)
Definition held_entries (run : btree LogEntry) : list PreparedEntry := omap (fun x => present_entry x.1 x.2) run.

(** The answer is the longest prefix of the held bodies within the budget, its first
    entry apart. *)
Lemma serve_prefix_spec budget running started run :
  exists rest, held_entries run = serve_prefix budget running started run ++ rest /\
    (rest = [] \/ exists e rest', rest = e :: rest' /\
       budget < running + total_cost (serve_prefix budget running started run) + entry_cost e) /\
    (started = false -> serve_prefix budget running started run = [] -> rest = []).
Proof.
  revert running started. induction run as [|[op e] run IH]; intros running started; [by exists []; auto|].
  unfold held_entries in *. cbn [serve_prefix omap list_omap fst snd]. destruct (present_entry op e) as [pe|] eqn:He; [|apply IH].
  destruct (started && (budget <? running + entry_cost pe)) eqn:Hover.
  - apply andb_true_iff in Hover as [-> Hover]. eexists. split; [reflexivity|]. split; [|done]. right.
    eexists _, _. split; [reflexivity|]. cbn. lia.
  - destruct (IH (running + entry_cost pe) true) as (rest & Heq & Hmax & _). exists rest.
    split; [cbn; by rewrite Heq|]. split; [|done].
    destruct Hmax as [->|(e' & rest' & -> & Hm)]; [by left|right]. exists e', rest'. split; [done|].
    cbn [total_cost]. lia.
Qed.

Lemma serve_prefix_cost budget running run :
  running <= budget -> total_cost (serve_prefix budget running true run) + running <= budget.
Proof.
  revert running. induction run as [|[op e] run IH]; intros running Hr; cbn [serve_prefix]; [cbn; lia|].
  destruct (present_entry op e) as [pe|]; [|by apply IH]. cbn [andb].
  destruct (Z.ltb_spec budget (running + entry_cost pe)); [cbn; lia|].
  specialize (IH (running + entry_cost pe)). cbn [total_cost]. lia.
Qed.

Lemma serve_first_cost budget run :
  0 <= budget -> Forall (fun e => entry_cost e <= budget) (held_entries run) ->
  total_cost (serve_prefix budget 0 false run) <= budget.
Proof.
  intros Hb. unfold held_entries. induction run as [|[op e] run IH]; cbn; [done|].
  destruct (present_entry op e) as [pe|]; [|done]. intros [Hpe _]%Forall_cons. cbn.
  rewrite Z.add_0_l. pose proof (serve_prefix_cost budget (entry_cost pe) run Hpe). lia.
Qed.

(** The retransmitted batches are the held bodies of the window, cut into pieces that
    each fit the budget. *)
Lemma retransmit_spec budget running entries window :
  0 <= budget -> total_cost entries = running -> running <= budget ->
  Forall (fun e => entry_cost e <= budget) (omap (fun x => x.2 ≫= present_entry x.1) window) ->
  concat (retransmit_batches budget running entries window)
    = entries ++ omap (fun x => x.2 ≫= present_entry x.1) window /\
  Forall (fun es => es <> [] /\ total_cost es <= budget) (retransmit_batches budget running entries window).
Proof.
  intros Hb. revert running entries. induction window as [|[op held] window IH]; intros running entries Ht Hr Hall.
  - cbn. case_bool_decide as He; [by subst|]. cbn. rewrite !app_nil_r. split; [done|]. constructor; [|done].
    split; [done|lia].
  - cbn [retransmit_batches]. cbn [omap list_omap fst snd] in *.
    destruct (held ≫= present_entry op) as [e|]; [|by apply IH]. apply Forall_cons in Hall as [He Hall].
    destruct (negb (bool_decide (entries = [])) && (budget <? running + entry_cost e)) eqn:Hf.
    + apply andb_true_iff in Hf as [Hne _]. apply negb_true_iff, bool_decide_eq_false in Hne.
      destruct (IH (entry_cost e) [e]) as [Hc Hfit]; [cbn; lia|done|done|]. cbn [concat]. rewrite Hc.
      split; [done|]. constructor; [split; [done|lia]|done].
    + assert (Hle : running + entry_cost e <= budget).
      { apply andb_false_iff in Hf as [Hf|Hf]; [|lia]. apply negb_false_iff, bool_decide_eq_true in Hf as ->.
        cbn in Ht. lia. }
      destruct (IH (running + entry_cost e) (entries ++ [e])) as [Hc Hfit]; [|done|done|].
      { rewrite total_cost_app. cbn. lia. }
      rewrite Hc, <- app_assoc. by split.
Qed.

(** What the size model of the preflight charges for such a log. *)
Lemma present_log_bound es :
  Forall is_present es -> Forall (fun e => 0 <= entry_cost e) es -> total_cost es <= MAX_FRAME_LEN ->
  log_wire_size_bound es = total_cost es.
Proof.
  intros Hp Hn Ht. unfold log_wire_size_bound.
  assert (Hacc : forall acc, 0 <= acc -> acc + total_cost es <= MAX_FRAME_LEN ->
    fold_left (fun acc e => sat_add 64 acc (entry_wire_size_bound e)) es acc = acc + total_cost es).
  { clear Ht. induction es as [|e es IH]; intros acc Ha Hle; cbn; [lia|].
    apply Forall_cons in Hp as [[body Hb] Hp]. apply Forall_cons in Hn as [Hn Hns].
    pose proof (total_cost_nonneg es Hns) as Hts. cbn in Hle.
    assert (Hcost : entry_wire_size_bound e = entry_cost e) by (unfold entry_wire_size_bound, entry_cost; by rewrite Hb).
    rewrite Hcost. unfold sat_add, umax.
    assert (entry_cost e + acc <= MAX_FRAME_LEN) by lia. change MAX_FRAME_LEN with 16777216 in *.
    rewrite Z.min_l by lia. rewrite IH; [lia|done|done|lia|lia]. }
  rewrite Hacc; lia.
Qed.

(** ** On the wire *)

(** Entries as both paths build them. *)
Definition built_entry (e : PreparedEntry) : Prop :=
  is_present e /\ fits 64 (e_op e) /\ fits 128 (e_client e) /\ fits 64 (e_request e).

Definition is_reconfiguration (e : PreparedEntry) : bool := e_client e =? RECONFIGURATION.

Lemma built_entry_from e :
  built_entry e ->
  entry_from (pb_entry e) =
    if is_reconfiguration e then Err (malformed "PreparedEntry.body_state") else Ok e.
Proof.
  intros ([body Hb] & Hop & Hc & Hr). destruct e as [op c r b]. cbn in *. subst b.
  unfold entry_from, is_reconfiguration. cbn.
  assert (Hu : u128_from (u128_bytes c) "PreparedEntry.client" = Ok c).
  { apply u128_decodes; [|by split]. done. }
  by rewrite Hu.
Qed.

Lemma built_log_from es :
  Forall built_entry es -> zlen es <= MAX_HEADER_ONLY_BAND_DEPTH ->
  log_from (wire_log es) =
    if existsb is_reconfiguration es then Err (malformed "PreparedEntry.body_state") else Ok es.
Proof.
  intros Hes Hlen. unfold log_from, wire_log. rewrite length_map.
  destruct (Z.ltb_spec MAX_HEADER_ONLY_BAND_DEPTH (zlen es)); [lia|]. clear Hlen H.
  induction Hes as [|e es He _ IH]; cbn; [done|]. rewrite (built_entry_from e He).
  destruct (is_reconfiguration e); cbn; [done|]. rewrite IH. by destruct (existsb _ es).
Qed.

(** Messages of either path, and whether they carry a reconfiguration. *)
Definition carries_reconfiguration (msg : Message) : bool :=
  match msg with
  | MRepairBatch b => existsb is_reconfiguration (rb_log b)
  | MPrepareBatch b => existsb is_reconfiguration (bt_log b)
  | _ => false
  end.

Section arrival.
Context {S : Type}.
#[local] Abbreviation Node := (@Node S).

(** Widths of the machine integers, and bodies the admission let in. *)
Record shippable (n : Node) (cx : Ctx) : Prop := {
  sh_view : fits 64 (nd_view n);
  sh_commit : fits 64 (nd_commit_min n);
  sh_checkpoint : fits 64 (cx_checkpoint_op cx);
  sh_epoch : fits 64 (m_epoch (nd_membership n));
  sh_config : fits 128 (m_config_id (nd_membership n));
  sh_sorted : bt_sorted (nd_log n);
  sh_log op e : (op, e) ∈ nd_log n ->
    fits 64 op /\ fits 128 (l_client e) /\ fits 64 (l_request e) /\
    forall body, body_bytes (l_body e) = Some body -> zlen body <= max_request_body_len;
}.

Lemma present_entry_built n cx op e pe :
  shippable n cx -> (op, e) ∈ nd_log n -> present_entry op e = Some pe ->
  built_entry pe /\ 0 <= entry_cost pe <= MAX_FRAME_LEN - PREPARE_BATCH_CARRIER_OVERHEAD.
Proof.
  intros Hs Hin. destruct (sh_log _ _ Hs op e Hin) as (Hop & Hc & Hr & Hb).
  unfold present_entry. destruct (body_bytes (l_body e)) as [b|] eqn:Eb; [|done]. intros [= <-].
  specialize (Hb b eq_refl). split; [split; [by exists b|done]|].
  unfold entry_cost. cbn [e_body]. unfold present_entry_encoded_len.
  change LOG_ENTRY_BODY_OVERHEAD with 52. change (MAX_FRAME_LEN - _) with 16777147.
  change max_request_body_len with 16777095 in Hb. lia.
Qed.

Lemma sorted_length lo hi (t : btree LogEntry) :
  bt_sorted t -> Forall (fun x => lo <= x.1 <= hi) t -> t <> [] -> zlen t <= hi - lo + 1.
Proof.
  intros Hs. revert lo. induction Hs as [|[k v] t Hs IH Hlt]; intros lo Hall Hne; [done|].
  apply Forall_cons in Hall as [Hk Hall]. cbn in Hk. cbn [length]. destruct t as [|x t]; [cbn; lia|].
  assert (zlen (x :: t) <= hi - (k + 1) + 1); [|lia]. apply IH; [|done].
  rewrite Forall_forall in *. intros y Hy. specialize (Hlt y Hy). specialize (Hall y Hy). cbn in Hlt. lia.
Qed.

Lemma bt_range_elem lo hi (t : btree LogEntry) x : x ∈ bt_range lo hi t <-> x ∈ t /\ lo <= x.1 <= hi.
Proof. unfold bt_range. rewrite !list_elem_of_In, List.filter_In, andb_true_iff, !Z.leb_le. tauto. Qed.

Lemma bt_range_sorted lo hi (t : btree LogEntry) : bt_sorted t -> bt_sorted (bt_range lo hi t).
Proof.
  unfold bt_range. induction 1 as [|x t Hs IH Hx]; cbn; [constructor|]. destruct (_ && _); [|done].
  constructor; [done|]. rewrite Forall_forall in *. intros y Hy. apply Hx.
  apply list_elem_of_In. by apply list_elem_of_In, List.filter_In in Hy as [? _].
Qed.

Lemma omap_length_le {A B} (f : A -> option B) l : (length (omap f l) <= length l)%nat.
Proof. induction l as [|x l IH]; cbn; [done|]. destruct (f x); cbn; lia. Qed.

Lemma serve_hi_window n m : fits 64 (rg_lo m) -> serve_hi (S:=S) n m - rg_lo m + 1 <= 64.
Proof. unfold serve_hi, sat_sub, sat_add, REPAIR_WINDOW, fits, umax. lia. Qed.

(** Any list of built entries of at most a window that fits the budget, as either
    carrier ships it. *)
Lemma batch_arrives view commit ckpt epoch cfg es over :
  fits 64 view -> fits 64 commit -> fits 64 ckpt -> fits 64 epoch -> fits 128 cfg ->
  Forall built_entry es -> Forall (fun e => 0 <= entry_cost e) es -> zlen es <= 64 -> 0 <= over ->
  total_cost es <= MAX_FRAME_LEN - over ->
  let repair := MRepairBatch (mkRepairBatch view commit ckpt cfg es) in
  let prepare := MPrepareBatch (mkPrepareBatch view commit ckpt epoch cfg es) in
  (over = REPAIR_BATCH_CARRIER_OVERHEAD -> wire_size_bound repair <= MAX_FRAME_LEN) /\
  (over = PREPARE_BATCH_CARRIER_OVERHEAD -> wire_size_bound prepare <= MAX_FRAME_LEN) /\
  forall msg, msg = repair \/ msg = prepare ->
    message_from (pb_message msg) =
      if carries_reconfiguration msg then Err (malformed "PreparedEntry.body_state") else Ok msg.
Proof.
  intros Hv Hc Hk He Hg Hb Hn Hl Ho Ht. cbn zeta.
  assert (Hlog : log_wire_size_bound es = total_cost es).
  { apply present_log_bound; [eapply Forall_impl; [exact Hb|by intros e [? _]]|done|lia]. }
  pose proof (total_cost_nonneg es Hn) as Hpos. split_and!.
  - intros ->. cbn [wire_size_bound rb_log]. rewrite Hlog. unfold sat_add. lia.
  - intros ->. cbn [wire_size_bound bt_log]. rewrite Hlog. unfold sat_add. lia.
  - assert (Hf : log_from (wire_log es) =
      if existsb is_reconfiguration es then Err (malformed "PreparedEntry.body_state") else Ok es).
    { apply built_log_from; [done|]. change MAX_HEADER_ONLY_BAND_DEPTH with 279618. lia. }
    assert (Hu : forall what, u128_from (u128_bytes cfg) what = Ok cfg) by (intros what; by apply u128_decodes).
    intros msg [-> | ->]; unfold message_from, pb_message, ok_or; cbn;
      unfold repair_batch_from, prepare_batch_from; cbn; rewrite Hu; fold (wire_log es); rewrite Hf; by destruct (existsb _ es).
Qed.

Lemma held_built n cx lo hi :
  shippable n cx ->
  Forall (fun e => built_entry e /\ 0 <= entry_cost e <= MAX_FRAME_LEN - PREPARE_BATCH_CARRIER_OVERHEAD)
    (held_entries (bt_range lo hi (nd_log n))).
Proof.
  intros Hs. apply Forall_forall. intros pe Hpe. apply list_elem_of_omap in Hpe as ([op e] & Hin & He).
  apply bt_range_elem in Hin as [Hin _]. by eapply present_entry_built.
Qed.

Lemma served_range n cx m :
  shippable n cx -> fits 64 (rg_lo m) ->
  Forall built_entry (served_entries n m) /\ Forall (fun e => 0 <= entry_cost e) (served_entries n m) /\
  zlen (served_entries n m) <= 64 /\
  total_cost (served_entries n m) <= MAX_FRAME_LEN - REPAIR_BATCH_CARRIER_OVERHEAD.
Proof.
  intros Hs Hlo. pose proof (held_built n cx (rg_lo m) (serve_hi n m) Hs) as Hh.
  unfold served_entries. set (run := bt_range _ _ _) in *.
  set (budget := MAX_FRAME_LEN - REPAIR_BATCH_CARRIER_OVERHEAD).
  destruct (serve_prefix_spec budget 0 false run) as (rest & Heq & _). pose proof Hh as Hh'. rewrite Heq in Hh'.
  apply Forall_app in Hh' as [Hh' _]. split_and!.
  - by eapply Forall_impl; [exact Hh'|intros e [? _]].
  - eapply Forall_impl; [exact Hh'|intros e [_ ?]; lia].
  - destruct (decide (run = [])) as [->|Hne]; [cbn; lia|].
    assert (zlen run <= 64).
    { etrans; [apply (sorted_length (rg_lo m) (serve_hi n m)); [|apply Forall_forall|done]|by apply serve_hi_window].
      - apply bt_range_sorted. by eapply sh_sorted.
      - intros x [_ Hx]%bt_range_elem. exact Hx. }
    pose proof (omap_length_le (fun x => present_entry x.1 x.2) run) as Hol. unfold held_entries in Heq.
    rewrite Heq, length_app in Hol. lia.
  - apply serve_first_cost; [by vm_compute|]. eapply Forall_impl; [exact Hh|]. intros e [_ ?].
    change (MAX_FRAME_LEN - PREPARE_BATCH_CARRIER_OVERHEAD) with 16777147 in *. change budget with 16777158. lia.
Qed.

Lemma window_range n :
  fits 64 (nd_commit_min (S:=S) n) -> zlen (retransmit_window n) <= 64.
Proof.
  intros Hc. unfold retransmit_window. rewrite length_map, length_seqZ.
  unfold sat_sub, sat_add, PREPARE_RETRANSMIT_WINDOW, fits, umax in *. lia.
Qed.

Definition window_entries (n : Node) : list PreparedEntry :=
  omap (fun x => x.2 ≫= present_entry x.1) (retransmit_window n).

Lemma window_built n cx :
  shippable n cx ->
  Forall (fun e => built_entry e /\ 0 <= entry_cost e <= MAX_FRAME_LEN - PREPARE_BATCH_CARRIER_OVERHEAD)
    (window_entries n).
Proof.
  intros Hs. apply Forall_forall. intros pe Hpe. apply list_elem_of_omap in Hpe as ([op held] & Hin & He).
  apply list_elem_of_fmap in Hin as (op' & [= -> ->] & _). cbn in He.
  destruct (bt_get op' (nd_log n)) as [e|] eqn:Hg; [|done]. cbn in He.
  apply bt_get_elem in Hg; [|by eapply sh_sorted]. by eapply present_entry_built.
Qed.

(** The batches partition the held bodies of the window. *)
Lemma prepare_batches_spec n cx :
  shippable n cx ->
  concat (prepare_batches n) = window_entries n /\
  Forall (fun es => es <> [] /\ total_cost es <= MAX_FRAME_LEN - PREPARE_BATCH_CARRIER_OVERHEAD) (prepare_batches n).
Proof.
  intros Hs. apply retransmit_spec; [by vm_compute|done|by vm_compute|].
  eapply Forall_impl; [exact (window_built n cx Hs)|]. intros e [_ ?]. lia.
Qed.

Lemma batch_of_window n cx es :
  shippable n cx -> es ∈ prepare_batches n ->
  Forall built_entry es /\ Forall (fun e => 0 <= entry_cost e) es /\ zlen es <= 64 /\
  total_cost es <= MAX_FRAME_LEN - PREPARE_BATCH_CARRIER_OVERHEAD.
Proof.
  intros Hs Hin. destruct (prepare_batches_spec n cx Hs) as [Hc Hall].
  pose proof (window_built n cx Hs) as Hw. rewrite <- Hc in Hw.
  assert (Hsub : forall e, e ∈ es -> e ∈ concat (prepare_batches n)).
  { intros e He. apply list_elem_of_In, in_concat. exists es. by rewrite <- !list_elem_of_In. }
  rewrite Forall_forall in Hw. rewrite Forall_forall in Hall. split_and!.
  - apply Forall_forall. intros e He. by apply Hw, Hsub.
  - apply Forall_forall. intros e He. destruct (Hw e (Hsub e He)) as [_ ?]. lia.
  - apply list_elem_of_split in Hin as (l1 & l2 & Hl). rewrite Hl, concat_app in Hc. cbn in Hc.
    apply (f_equal length) in Hc. rewrite !length_app in Hc.
    pose proof (omap_length_le (fun x => x.2 ≫= present_entry x.1) (retransmit_window n)) as Hol.
    pose proof (window_range n (sh_commit _ _ Hs)). unfold window_entries in Hc. lia.
  - by apply Hall.
Qed.

Lemma heartbeat_arrives n cx :
  shippable n cx ->
  wire_size_bound (heartbeat n cx) <= MAX_FRAME_LEN /\
  message_from (pb_message (heartbeat n cx)) =
    if carries_reconfiguration (heartbeat n cx) then Err (malformed "PreparedEntry.body_state")
    else Ok (heartbeat n cx).
Proof. intros [Hv Hc Hk He Hg _ _]. split; [by vm_compute|]. by apply message_from_complete. Qed.

Lemma batches_arrive n cx to msg :
  shippable n cx -> (to, msg) ∈ map (fun es => (Backups, prepare_batch n cx es)) (prepare_batches n) ->
  wire_size_bound msg <= MAX_FRAME_LEN /\
  message_from (pb_message msg) =
    if carries_reconfiguration msg then Err (malformed "PreparedEntry.body_state") else Ok msg.
Proof.
  intros Hs Hin. pose proof Hs as [Hv Hc Hk He Hg _ _]. apply list_elem_of_fmap in Hin as (es & [= -> ->] & Hes).
  destruct (batch_of_window n cx es Hs Hes) as (Hb & Hn & Hl & Ht).
  destruct (batch_arrives _ _ _ _ _ _ PREPARE_BATCH_CARRIER_OVERHEAD Hv Hc Hk He Hg Hb Hn Hl) as (_ & Hp & Hf);
    [by vm_compute|done|]. split; [by apply Hp|apply Hf; by right].
Qed.

(** C22. Every body carrier either path emits fits one frame, and it reaches the peer's
    handler exactly when no reconfiguration op is aboard: with one, the peer's
    conversion refuses the whole message. *)
Theorem body_carriers_arrive n cx from m t now to msg
    (Hs : shippable n cx) (Hlo : fits 64 (rg_lo m))
    (Hmsg : (to, msg) ∈ on_request_prepare_range n cx from m ++ (primary_cadence n cx t now).1) :
  wire_size_bound msg <= MAX_FRAME_LEN /\
  message_from (pb_message msg) =
    if carries_reconfiguration msg then Err (malformed "PreparedEntry.body_state") else Ok msg.
Proof.
  pose proof Hs as [Hv Hc Hk He Hg _ _]. apply elem_of_app in Hmsg as [Hm|Hm].
  - destruct (served_range n cx m Hs Hlo) as (Hb & Hn & Hl & Ht).
    unfold on_request_prepare_range in Hm. repeat (case_match; [by apply elem_of_nil in Hm| ]).
    case_match; [|by apply elem_of_nil in Hm]. repeat (case_match; [by apply elem_of_nil in Hm| ]).
    apply list_elem_of_singleton in Hm as [= -> ->].
    destruct (batch_arrives _ _ _ _ _ _ REPAIR_BATCH_CARRIER_OVERHEAD Hv Hc Hk He Hg Hb Hn Hl) as (Hr & _ & Hf);
      [by vm_compute|done|]. split; [by apply Hr|apply Hf; by left].
  - unfold primary_cadence in Hm. destruct (due _ now) in Hm; destruct (due _ now) in Hm; cbn in Hm;
      rewrite ?app_nil_r in Hm; try by apply elem_of_nil in Hm.
    1: apply elem_of_cons in Hm as [[= -> ->]|Hm]; [by apply heartbeat_arrives|by eapply batches_arrive].
    1: apply list_elem_of_singleton in Hm as [= -> ->]; by apply heartbeat_arrives.
    by eapply batches_arrive.
Qed.

(** A reconfiguration op the primary still has to replicate is in exactly the batches
    that no backup accepts. *)
Theorem reconfiguration_retransmission_refused n cx op rq payload
    (Hs : shippable n cx) (Hop : nd_commit_min n < op <= nd_op n)
    (Hw : op <= nd_commit_min n + PREPARE_RETRANSMIT_WINDOW)
    (Hfit : nd_commit_min n + PREPARE_RETRANSMIT_WINDOW < umax 64)
    (Hlog : bt_get op (nd_log n) = Some (mkLogEntry RECONFIGURATION rq (Reconfigure payload))) :
  let e := mkEntry op RECONFIGURATION rq (Present (encode_body payload)) in
  (exists es, es ∈ prepare_batches n /\ e ∈ es) /\
  forall es, es ∈ prepare_batches n -> e ∈ es ->
    message_from (pb_message (prepare_batch n cx es)) = Err (malformed "PreparedEntry.body_state").
Proof.
  cbn zeta. set (e := mkEntry _ _ _ _). split.
  - destruct (prepare_batches_spec n cx Hs) as [Hc _].
    assert (He : e ∈ concat (prepare_batches n)).
    { rewrite Hc. apply list_elem_of_omap. exists (op, Some (mkLogEntry RECONFIGURATION rq (Reconfigure payload))).
      split; [|done]. apply list_elem_of_fmap. exists op. split; [by rewrite Hlog|]. apply elem_of_seqZ.
      pose proof (sh_commit _ _ Hs). unfold sat_sub, sat_add, PREPARE_RETRANSMIT_WINDOW, fits, umax in *. lia. }
    apply list_elem_of_In, in_concat in He as (es & Hes & He). exists es. by rewrite !list_elem_of_In.
  - intros es Hes He. destruct (batches_arrive n cx Backups (prepare_batch n cx es) Hs) as [_ ->].
    { apply list_elem_of_fmap. by exists es. }
    unfold prepare_batch. cbn. replace (existsb is_reconfiguration es) with true; [done|].
    symmetry. apply existsb_exists. exists e. by rewrite <- list_elem_of_In.
Qed.

End arrival.

(** ** A primary with a reconfiguration in flight *)

Module ServeDemo.

Definition demo_payload : ReconfigurePayload := mkPayload 3 0 [1; 2; 3] (m_config_id sample).
Definition demo_log : btree LogEntry :=
  [(1, mkLogEntry 7 1 (Present [x61])); (2, mkLogEntry RECONFIGURATION 1 (Reconfigure demo_payload))].
Definition serving (commit_min : Z) : Node :=
  mkNode (S := Z) demo_cfg sample 0 2 commit_min commit_min demo_log [] ∅ ∅ ∅ 0 None 0 0 [].
Definition ticking : PrimaryTimers := mkPrimaryTimers (Some 0) (Some 0) None None.

Lemma serving_shippable c : fits 64 c -> shippable (serving c) demo_ctx.
Proof.
  intros Hc. split; try done.
  - repeat constructor; cbn; lia.
  - intros op e Hin. apply elem_of_cons in Hin as [[= -> ->]|Hin]; [|apply list_elem_of_singleton in Hin as [= -> ->]].
    + split_and!; [split; by vm_compute..|]. intros body [= <-]. by vm_compute.
    + split_and!; [split; by vm_compute..|]. intros body [= <-]. by vm_compute.
Qed.

(** With the reconfiguration aboard the batch is refused; the ranges below it arrive. *)
Lemma body_carriers_arrive_witness :
  let range := mkRequestPrepareRange 0 1 1 1 0 in
  let whole := prepare_batch (serving 0) demo_ctx
    [mkEntry 1 7 1 (Present [x61]); mkEntry 2 RECONFIGURATION 1 (Present (encode_body demo_payload))] in
  let part := MRepairBatch (mkRepairBatch 0 0 0 (m_config_id sample) [mkEntry 1 7 1 (Present [x61])]) in
  message_from (pb_message part) = Ok part /\
  message_from (pb_message whole) = Err (malformed "PreparedEntry.body_state").
Proof.
  assert (Hf : fits 64 0) by (unfold fits, umax; lia). cbn zeta. split.
  - destruct (body_carriers_arrive (serving 0) demo_ctx (PeerReplica 1) (mkRequestPrepareRange 0 1 1 1 0)
      ticking 0 (To (PeerReplica 1)) (MRepairBatch (mkRepairBatch 0 0 0 (m_config_id sample) [mkEntry 1 7 1 (Present [x61])]))
      (serving_shippable 0 Hf)) as [_ ->]; [unfold fits, umax; cbn; lia| |reflexivity].
    apply elem_of_app. left. vm_compute. left.
  - destruct (body_carriers_arrive (serving 0) demo_ctx (PeerReplica 1) (mkRequestPrepareRange 0 1 1 1 0)
      ticking 0 Backups (prepare_batch (serving 0) demo_ctx
        [mkEntry 1 7 1 (Present [x61]); mkEntry 2 RECONFIGURATION 1 (Present (encode_body demo_payload))])
      (serving_shippable 0 Hf)) as [_ ->]; [unfold fits, umax; cbn; lia| |reflexivity].
    apply elem_of_app. right. vm_compute. right. left.
Defined.

End ServeDemo.
