(* ===== verification/Repair.v ===== *)
(** * Peer repair and the nack tally

    The requesting side of [viewstamp-proto/src/endpoint/repair.rs]: registering and
    re-soliciting holes ([request_repair], [repair_timeouts]), filling one with a
    peer's body ([fill_repair], [on_repair_batch]) and the tally of nacks that
    truncates an uncommitted tail ([on_nack], [truncate_uncommitted_tail_from]).  The
    answering side is [Serve].

    The state is a node, its owed appends and two tables of its own.  The set of
    in-flight appends is one field of the endpoint that both the node and the appends
    mention, and [with_appends] keeps the two equal. *)

From S2P Require Import Prelude Core Hash Membership Codec Message Messages BTree ViewChange Votes Proposals Sessions Normal Storage Lane Medium Appends Serve.

Definition REPAIR_RETRANSMIT : Z := 100 * MILLIS.

#[local] Abbreviation sends := (list (Recipient * Message)).

(** [LogEntry::from_committed_body]: the debug assertion on an undecodable body
    degrades to an opaque entry. *)
Definition from_committed_body (client : ClientId) (request : RequestNumber) (body : list byte) : LogEntry :=
  if client =? RECONFIGURATION then
    match decode_body body with
    | Ok payload => mkLogEntry client request (Reconfigure payload)
    | Err _ => mkLogEntry client request (Present body)
    end
  else mkLogEntry client request (Present body).

Definition log_entry_from_prepare (p : Prepare) : LogEntry :=
  from_committed_body (pp_client p) (pp_request p) (pp_body p).

Definition repairing_identity_matches (entry : LogEntry) (client : ClientId) (request : RequestNumber)
    (body : list byte) : bool :=
  match l_body entry with
  | Repairing canonical_checksum =>
      (l_client entry =? client) && (l_request entry =? request) && (fnv1a_128 body =? canonical_checksum)
  | _ => false
  end.

(** Maximal contiguous runs, chunked at the window: [lo..=hi] is the open run. *)
Fixpoint coalesce (lo hi : OpNumber) (rest : list OpNumber) : list (OpNumber * OpNumber) :=
  match rest with
  | [] => [(lo, hi)]
  | op :: rest =>
      if (op =? hi + 1) && (op <? lo + REPAIR_WINDOW) then coalesce lo op rest
      else (lo, hi) :: coalesce op op rest
  end.

Definition coalesced (holes : list OpNumber) : list (OpNumber * OpNumber) :=
  match holes with [] => [] | first :: rest => coalesce first first rest end.

Section repair.
Context {S W B : Type} `{Wal W} `{Superblock B}.
Context {Sm Image Sessions Walks : Type}.
#[local] Abbreviation Node := (@Node S).
#[local] Abbreviation Medium := (@Medium W B Sm Image Sessions Walks).

Record Repairer : Type := mkRepairer {
  rr_node : Node;
  rr_appends : Appender;
  rr_nack_from : gmap Z (gset MemberId);
  rr_retry : option Z;
}.

Definition with_node (r : Repairer) (n : Node) : Repairer :=
  mkRepairer n (rr_appends r) (rr_nack_from r) (rr_retry r).
Definition with_nacks (r : Repairer) (t : gmap Z (gset MemberId)) : Repairer :=
  mkRepairer (rr_node r) (rr_appends r) t (rr_retry r).
Definition with_retry (r : Repairer) (d : option Z) : Repairer :=
  mkRepairer (rr_node r) (rr_appends r) (rr_nack_from r) d.

Definition with_appends (r : Repairer) (a : Appender) : Repairer :=
  let n := rr_node r in
  mkRepairer (mkNode (nd_config n) (nd_membership n) (nd_view n) (nd_op n) (nd_commit_min n) (nd_commit_max n)
                (nd_log n) (nd_inflight n) (ap_appending a) (nd_repair n) (nd_clients n)
                (nd_sessions_evicted n) (nd_pending_swap n) (nd_sm n) (nd_sm_at n) (nd_out n))
    a (rr_nack_from r) (rr_retry r).

(** ** Soliciting *)

Definition send_request_prepare (n : Node) (op : OpNumber) : option (Recipient * Message) :=
  slot ← node_slot n;
  Some (Backups, MRequestPrepare (mkRequestPrepare (nd_view n) op slot (m_config_id (nd_membership n)))).

Definition send_request_prepare_range (n : Node) (lo hi : OpNumber) : option (Recipient * Message) :=
  slot ← node_slot n;
  Some (Backups, MRequestPrepareRange (mkRequestPrepareRange (nd_view n) lo hi slot
                                         (m_config_id (nd_membership n)))).

(** [request_repair] up to its force-sync escalation. *)
Definition request_repair (r : Repairer) (now : Z) (op : OpNumber) : option (sends * Repairer) :=
  let n := rr_node r in
  let n := set_log n (drop_stale (nd_log n) op) (nd_inflight n) ({[op]} ∪ nd_repair n) in
  msg ← send_request_prepare n op;
  Some ([msg], with_retry (with_node r n) (Some (Time.instant_add now REPAIR_RETRANSMIT))).

Definition repair_timeouts (r : Repairer) (now : Z) : option (sends * Repairer) :=
  if negb (due (rr_retry r) now) then Some ([], r)
  else if bool_decide (nd_repair (rr_node r) = ∅) then Some ([], with_retry r None)
  else
    let n := rr_node r in
    let ops := merge_sort Z.le (elements (nd_repair n)) in
    singles ← mapM (send_request_prepare n) (List.filter (fun op => nd_commit_max n <? op) ops);
    ranges ← mapM (fun run => send_request_prepare_range n run.1 run.2)
               (coalesced (List.filter (fun op => negb (nd_commit_max n <? op)) ops));
    Some (singles ++ ranges, with_retry r (Some (Time.instant_add now REPAIR_RETRANSMIT))).

(** ** Filling *)

Definition ring_append_would_wrap (r : Repairer) (cx : Ctx) (m : Medium) (op : OpNumber) : bool :=
  effective_wal_capacity (wal_capacity (wal m)) (c_checkpoint_ops (nd_config (rr_node r)))
    <? sat_sub op (cx_checkpoint_op cx).

(** The canonical-body test of the fill: a kept identity, or a committed vouch. *)
Definition vouched (log : btree LogEntry) (p : Prepare) : bool :=
  match bt_get (pp_op p) log with
  | Some entry =>
      if is_repairing (l_body entry)
      then repairing_identity_matches entry (pp_client p) (pp_request p) (pp_body p)
      else negb (pp_commit p <? pp_op p)
  | None => negb (pp_commit p <? pp_op p)
  end.

Definition fill_repair (r : Repairer) (cx : Ctx) (m : Medium) (p : Prepare)
    : option (bool * Repairer * Medium) :=
  let op := pp_op p in
  if negb (bool_decide (op ∈ nd_repair (rr_node r))) then Some (false, r, m)
  else if bool_decide (op ∈ ap_appending (rr_appends r)) then Some (true, r, m)
  else
    let header := header_new op (pp_view p) (pp_client p) (pp_request p) (pp_body p) in
    if negb (verify header (pp_body p)) then Some (false, r, m)
    else if negb (vouched (nd_log (rr_node r)) p) then Some (false, r, m)
    else if ring_append_would_wrap r cx m op then Some (false, r, m)
    else
      '(a, m) ← submit_or_defer_append (rr_appends r) m op header (pp_body p)
                  (RepairFill op (log_entry_from_prepare p));
      let a := set_appending a ({[op]} ∪ ap_appending a) in
      Some (true, with_nacks (with_appends r a) (delete op (rr_nack_from r)), m).

(** The prepare a batch entry is replayed as. *)
Definition entry_prepare (n : Node) (b : RepairBatch) (e : PreparedEntry) : option Prepare :=
  body ← body_bytes (e_body e);
  Some (mkPrepare (nd_view n) (e_op e) (rb_commit b) (rb_checkpoint_op b) (m_epoch (nd_membership n))
          (rb_config_id b) (e_client e) (e_request e) body).

Fixpoint fill_entries (b : RepairBatch) (r : Repairer) (cx : Ctx) (m : Medium) (es : list PreparedEntry)
    : option (Repairer * Medium) :=
  match es with
  | [] => Some (r, m)
  | e :: es =>
      match entry_prepare (rr_node r) b e with
      | None => fill_entries b r cx m es
      | Some p =>
          match fill_repair r cx m p with
          | Some (_, r, m) => fill_entries b r cx m es
          | None => None
          end
      end
  end.

Definition on_repair_batch (r : Repairer) (cx : Ctx) (m : Medium) (b : RepairBatch)
    : option (Repairer * Medium) := fill_entries b r cx m (rb_log b).

(** ** Nacks *)

Definition is_repair_or_truncate_candidate (r : Repairer) (op : OpNumber) (entry : LogEntry) : bool :=
  (nd_commit_max (rr_node r) <? op) && is_repairing (l_body entry)
  && negb (bool_decide (op ∈ ap_appending (rr_appends r))).

(** The assertion of every destructive site; the recovery state it also consults is
    absent in the [Normal] status these sites run in. *)
Definition assert_committed_survives (n : Node) (op checkpoint_floor : OpNumber) : bool :=
  (op <=? checkpoint_floor) || bool_decide (op ∈ nd_repair n) || (nd_commit_max n <? op).

Definition in_suffix (gap head op : OpNumber) : bool := (gap <=? op) && (op <=? head).

Definition truncate_uncommitted_tail_from (r : Repairer) (cx : Ctx) (m : Medium) (gap : OpNumber)
    : option (Repairer * Medium) :=
  let n := rr_node r in
  let head := nd_op n in
  if forallb (fun op => assert_committed_survives n op (cx_checkpoint_op cx)) (seqZ gap (head - gap + 1)) then
    let log := List.filter (fun e => negb (in_suffix gap head e.1)) (nd_log n) in
    let removed := map snd (List.filter (fun e => in_suffix gap head e.1) (nd_log n)) in
    let n := mkNode (nd_config n) (nd_membership n) (nd_view n) (gap - 1) (nd_commit_min n) (nd_commit_max n)
               log (List.filter (fun e => negb (in_suffix gap head e.1)) (nd_inflight n))
               (nd_appending n) (filter (fun op => in_suffix gap head op = false) (nd_repair n))
               (roll_back_truncated removed (map snd log) (nd_clients n))
               (nd_sessions_evicted n) (nd_pending_swap n) (nd_sm n) (nd_sm_at n) (nd_out n) in
    '(cancelled, m) ← truncate m (gap - 1);
    '(a, m) ← absorb_wal_cancellations (abandon_from (rr_appends r) gap) m cancelled;
    let r := with_appends (with_node r n) a in
    let r := with_nacks r (filter (fun x => x.1 < gap) (rr_nack_from r)) in
    Some (if bool_decide (nd_repair n = ∅) then with_retry r None else r, m)
  else None.

Definition on_nack (r : Repairer) (cx : Ctx) (m : Medium) (from : Peer) (nack : Nack)
    : option (Repairer * Medium) :=
  let n := rr_node r in
  if negb (participates_as_primary n cx) || cx_pending_forfeit cx then Some (r, m)
  else if negb (nk_view nack =? nd_view n) || negb (nk_config_id nack =? m_config_id (nd_membership n))
  then Some (r, m)
  else
    match as_replica from with
    | None => Some (r, m)
    | Some rid =>
        if negb (is_voter (nd_membership n) rid) then Some (r, m)
        else
          match member_at (nd_membership n) rid, bt_get (nk_op nack) (nd_log n) with
          | Some member, Some e =>
              if negb (is_repair_or_truncate_candidate r (nk_op nack) e) then Some (r, m)
              else
                let tally := default ∅ (rr_nack_from r !! nk_op nack) in
                let r := with_nacks r (<[nk_op nack := {[member]} ∪ tally]> (rr_nack_from r)) in
                match List.find (fun x => is_repair_or_truncate_candidate r x.1 x.2) (nd_log n) with
                | None => Some (r, m)
                | Some (gap, _) =>
                    if quorum_nack_prepare (nd_membership n) <=? zlen (elements (default ∅ (rr_nack_from r !! gap)))
                    then truncate_uncommitted_tail_from r cx m gap
                    else Some (r, m)
                end
          | _, _ => Some (r, m)
          end
    end.

End repair.

(** ** Re-solicitation covers exactly the holes *)

Definition run_ops (run : OpNumber * OpNumber) : list OpNumber := seqZ run.1 (run.2 - run.1 + 1).

(** Each range is within the window, and two that could have been one are cut at a full
    window. *)
Fixpoint maximal_runs (runs : list (OpNumber * OpNumber)) : Prop :=
  match runs with
  | a :: ((b :: _) as rest) =>
      (b.1 <> a.2 + 1 \/ a.2 - a.1 + 1 = REPAIR_WINDOW) /\ maximal_runs rest
  | _ => True
  end.

Lemma run_snoc lo hi : lo <= hi + 1 -> run_ops (lo, hi + 1) = run_ops (lo, hi) ++ [hi + 1].
Proof.
  intros Hle. unfold run_ops. cbn. replace (hi + 1 - lo + 1) with (hi - lo + 1 + 1) by lia.
  rewrite (seqZ_app lo (hi - lo + 1) 1) by lia. f_equal. replace (lo + (hi - lo + 1)) with (hi + 1) by lia. done.
Qed.

Lemma coalesce_first lo hi rest : exists hi' runs, coalesce lo hi rest = (lo, hi') :: runs.
Proof. revert hi. induction rest as [|op rest IH]; intros hi; cbn; [eauto|]. destruct (_ && _); eauto. Qed.

Lemma coalesce_spec lo hi rest :
  lo <= hi < lo + REPAIR_WINDOW ->
  concat (map run_ops (coalesce lo hi rest)) = run_ops (lo, hi) ++ rest /\
  Forall (fun run => run.1 <= run.2 < run.1 + REPAIR_WINDOW) (coalesce lo hi rest) /\
  (StronglySorted Z.lt (hi :: rest) -> maximal_runs (coalesce lo hi rest)).
Proof.
  revert lo hi. induction rest as [|op rest IH]; intros lo hi Hr; cbn [coalesce].
  { cbn. rewrite !app_nil_r. split_and!; [done|by constructor|done]. }
  destruct ((op =? hi + 1) && (op <? lo + REPAIR_WINDOW)) eqn:Hc.
  - apply andb_true_iff in Hc as [->%Z.eqb_eq Hlt%Z.ltb_lt]. destruct (IH lo (hi + 1)) as (Hcat & Hall & Hmax); [lia|].
    split_and!; [|done|intros Hs; apply Hmax; by inversion Hs].
    rewrite Hcat, run_snoc by lia. by rewrite <- app_assoc.
  - destruct (IH op op) as (Hcat & Hall & Hmax); [unfold REPAIR_WINDOW; lia|]. cbn [map concat]. rewrite Hcat.
    split_and!; [|by constructor|].
    + unfold run_ops at 2. cbn [fst snd]. by replace (op - op + 1) with 1 by lia.
    + intros Hs. inversion Hs as [|? ? Hs' Hlt]; subst. specialize (Hmax Hs').
      destruct (coalesce_first op op rest) as (hi' & runs & Heq). rewrite Heq in Hmax |- *. cbn. split; [|done].
      apply andb_false_iff in Hc as [Hc|Hc]; [left; lia|]. destruct (decide (op = hi + 1)); [right; lia|by left].
Qed.

Section soliciting.
Context {S : Type}.
#[local] Abbreviation Node := (@Node S).

(** The ops a solicitation asks for. *)
Definition asks (msg : Recipient * Message) : list OpNumber :=
  match msg.2 with
  | MRequestPrepare m => [rpr_op m]
  | MRequestPrepareRange m => run_ops (rg_lo m, rg_hi m)
  | _ => []
  end.

Lemma sorted_holes (holes : gset Z) : StronglySorted Z.lt (merge_sort Z.le (elements holes)).
Proof.
  assert (Hs : StronglySorted Z.le (merge_sort Z.le (elements holes))) by apply (StronglySorted_merge_sort Z.le).
  assert (Hn : NoDup (merge_sort Z.le (elements holes))) by (rewrite merge_sort_Permutation; apply NoDup_elements).
  induction Hs as [|x l Hs IH Hx]; [constructor|]. apply NoDup_cons in Hn as [Hx' Hn]. constructor; [by apply IH|].
  rewrite Forall_forall in *. intros y Hy. specialize (Hx y Hy).
  destruct (decide (x = y)) as [->|]; [done|lia].
Qed.

Lemma filter_sorted (f : Z -> bool) l : StronglySorted Z.lt l -> StronglySorted Z.lt (List.filter f l).
Proof.
  induction 1 as [|x l Hs IH Hx]; cbn; [constructor|]. destruct (f x); [|done]. constructor; [done|].
  rewrite Forall_forall in *. intros y Hy. apply Hx. apply list_elem_of_In. by apply list_elem_of_In, List.filter_In in Hy as [? _].
Qed.

Lemma mapM_asks {A} (f : A -> option (Recipient * Message)) g l out :
  (forall x y, f x = Some y -> asks y = g x) -> mapM f l = Some out -> concat (map asks out) = concat (map g l).
Proof.
  intros Hf. revert out. induction l as [|x l IH]; intros out Hm; [by injection Hm as <-|].
  cbn in Hm. destruct (f x) as [y|] eqn:Hy; [|done]. cbn in Hm. destruct (mapM f l) as [ys|]; [|done].
  injection Hm as <-. cbn. by rewrite (Hf _ _ Hy), (IH ys).
Qed.

(** A due retry asks for every hole once and for nothing else: the uncommitted ones op
    by op, in order, then the committed ones in maximal windowed ranges. *)
Theorem resolicits_exactly_the_holes (r : @Repairer S) now out r' :
  due (rr_retry r) now = true -> repair_timeouts r now = Some (out, r') ->
  let holes := merge_sort Z.le (elements (nd_repair (rr_node r))) in
  let committed := List.filter (fun op => negb (nd_commit_max (rr_node r) <? op)) holes in
  concat (map asks out) = List.filter (fun op => nd_commit_max (rr_node r) <? op) holes ++ committed /\
  Forall (fun run => run.1 <= run.2 < run.1 + REPAIR_WINDOW) (coalesced committed) /\
  maximal_runs (coalesced committed) /\ rr_node r' = rr_node r.
Proof.
  intros Hdue Hx. unfold repair_timeouts in Hx. rewrite Hdue in Hx. cbn in Hx. cbn zeta.
  set (holes := merge_sort Z.le (elements (nd_repair (rr_node r)))) in *.
  set (committed := List.filter (fun op => negb (nd_commit_max (rr_node r) <? op)) holes) in *.
  assert (Hruns : concat (map run_ops (coalesced committed)) = committed /\
    Forall (fun run => run.1 <= run.2 < run.1 + REPAIR_WINDOW) (coalesced committed) /\ maximal_runs (coalesced committed)).
  { pose proof (filter_sorted (fun op => negb (nd_commit_max (rr_node r) <? op)) _ (sorted_holes (nd_repair (rr_node r)))) as Hs.
    fold holes committed in Hs. destruct committed as [|first rest]; [by split_and!|].
    destruct (coalesce_spec first first rest) as (Hcat & Hall & Hmax); [unfold REPAIR_WINDOW; lia|].
    cbn [coalesced]. rewrite Hcat. unfold run_ops at 1. cbn [fst snd]. replace (first - first + 1) with 1 by lia. auto. }
  destruct Hruns as (Hcat & Hall & Hmax). case_bool_decide as He.
  - injection Hx as <- <-. assert (holes = []) as Hn by (unfold holes; rewrite He; by vm_compute).
    unfold committed in *. rewrite Hn. by split_and!.
  - destruct (mapM (send_request_prepare _) _) as [singles|] eqn:H1; [|done].
    destruct (mapM _ (coalesced _)) as [ranges|] eqn:H2; [|done]. cbn in Hx. injection Hx as <- <-.
    split_and!; [|done|done|done]. rewrite map_app, concat_app. f_equal.
    + erewrite (mapM_asks _ (fun op => [op])); [| |exact H1].
      2:{ intros x y. unfold send_request_prepare. destruct (node_slot _); [by intros [= <-]|done]. }
      generalize (List.filter (fun op => nd_commit_max (rr_node r) <? op) holes). intros l.
      induction l as [|x l IH]; cbn; [done|]. by rewrite IH.
    + erewrite (mapM_asks _ run_ops); [exact Hcat| |exact H2].
      intros [lo hi] y. unfold send_request_prepare_range. destruct (node_slot _); [by intros [= <-]|done].
Qed.

End soliciting.

(** ** A nack quorum never truncates what a replication quorum holds *)

Section nacks.
Context {S W B : Type} `{Wal W} `{Superblock B}.
Context {Sm Image Sessions Walks : Type}.
#[local] Abbreviation Node := (@Node S).
#[local] Abbreviation Repairer := (@Repairer S).
#[local] Abbreviation Medium := (@Medium W B Sm Image Sessions Walks).

(** One generation, an op, and the members that hold it. *)
Context (m0 : Membership) (v : View) (op0 : OpNumber) (holders : gset MemberId).

(** A nack member [x] emitted, answering some solicitation in some state of its own.  A
    holder that answers in this generation has the op at or below its head. *)
Definition emitted (x : MemberId) (nack : Nack) : Prop :=
  exists (peer : Node) pcx from req out to,
    c_local (nd_config peer) = x /\
    (x ∈ holders -> nd_view peer = v -> m_config_id (nd_membership peer) = m_config_id m0 -> op0 <= nd_op peer) /\
    on_request_prepare peer pcx from req = Some out /\ (to, MNack nack) ∈ out.

Lemma emitted_above x nack :
  emitted x nack -> x ∈ holders -> nk_view nack = v -> nk_config_id nack = m_config_id m0 -> op0 < nk_op nack.
Proof.
  intros (peer & pcx & from & req & out & to & _ & Hhold & Hx & Hin) Hh Hv Hc. unfold on_request_prepare in Hx.
  destruct (negb _); [injection Hx as <-; by apply elem_of_nil in Hin|].
  destruct (requester peer from) as [r|]; [|injection Hx as <-; by apply elem_of_nil in Hin].
  destruct (bt_get _ _) as [e|].
  - destruct (body_bytes _); [|injection Hx as <-; by apply elem_of_nil in Hin].
    destruct (_ <? _); [injection Hx as <-; by apply elem_of_nil in Hin|].
    destruct (cx_pending_durable_view pcx); injection Hx as <-; [by apply elem_of_nil in Hin|].
    by apply list_elem_of_singleton in Hin.
  - destruct (_ && _) eqn:Hb; [|injection Hx as <-; by apply elem_of_nil in Hin].
    apply andb_true_iff in Hb as [Hb%Z.ltb_lt _]. destruct (node_slot peer) as [slot|]; [|done].
    injection Hx as <-. apply list_elem_of_singleton in Hin as [= -> ->]. cbn in *.
    specialize (Hhold Hh Hv Hc). lia.
Qed.

Record tally_inv (r : Repairer) : Prop := {
  ti_membership : nd_membership (rr_node r) = m0;
  ti_view : nd_view (rr_node r) = v;
  ti_nacks g s : rr_nack_from r !! g = Some s -> s ⊆ voters m0 /\ (g <= op0 -> s ## holders);
}.

Lemma bt_get_filter {V} (f : Z -> bool) k (t : btree V) :
  f k = true -> bt_get k (List.filter (fun e => f e.1) t) = bt_get k t.
Proof.
  intros Hk. induction t as [|[k' v'] t IH]; cbn; [done|].
  destruct (f k') eqn:Hf; cbn; rewrite IH; [done|]. destruct (Z.eqb_spec k k') as [->|]; congruence.
Qed.

Lemma truncate_spec (r r' : Repairer) cx (md md' : Medium) gap :
  truncate_uncommitted_tail_from r cx md gap = Some (r', md') ->
  nd_membership (rr_node r') = nd_membership (rr_node r) /\ nd_view (rr_node r') = nd_view (rr_node r) /\
  rr_nack_from r' ⊆ rr_nack_from r /\ nd_op (rr_node r') = gap - 1 /\
  forall op, op < gap -> bt_get op (nd_log (rr_node r')) = bt_get op (nd_log (rr_node r)).
Proof.
  unfold truncate_uncommitted_tail_from. destruct (forallb _ _); [|done].
  destruct (truncate md (gap - 1)) as [[c md1]|]; [|done]. cbn [mbind option_bind].
  destruct (absorb_wal_cancellations _ md1 c) as [[a md2]|]; [|done]. cbn [mbind option_bind].
  intros [= <- <-]. case_bool_decide; cbn; (split_and!; [done|done|apply map_filter_subseteq|done|]); intros op Hop;
    apply (bt_get_filter (fun k => negb (in_suffix gap (nd_op (rr_node r)) k))); unfold in_suffix;
    apply negb_true_iff, andb_false_iff; left; lia.
Qed.

(** What an accepted nack records. *)
Definition recorded (r : Repairer) (x : MemberId) (op : OpNumber) : Repairer :=
  with_nacks r (<[op := {[x]} ∪ default ∅ (rr_nack_from r !! op)]> (rr_nack_from r)).

Lemma on_nack_cases (r r' : Repairer) cx (md md' : Medium) from nack :
  on_nack r cx md from nack = Some (r', md') ->
  r' = r \/
  exists slot x, from = PeerReplica slot /\ is_voter (nd_membership (rr_node r)) slot = true /\
    member_at (nd_membership (rr_node r)) slot = Some x /\
    nk_view nack = nd_view (rr_node r) /\ nk_config_id nack = m_config_id (nd_membership (rr_node r)) /\
    (r' = recorded r x (nk_op nack) \/
     exists gap, quorum_nack_prepare (nd_membership (rr_node r))
         <= Z.of_nat (size (default ∅ (rr_nack_from (recorded r x (nk_op nack)) !! gap))) /\
       truncate_uncommitted_tail_from (recorded r x (nk_op nack)) cx md gap = Some (r', md')).
Proof.
  unfold on_nack. destruct (_ || _); [intros [= <- <-]; auto|].
  destruct (negb _ || negb _) eqn:Hg; [intros [= <- <-]; auto|].
  apply orb_false_iff in Hg as [Hv%negb_false_iff%Z.eqb_eq Hc%negb_false_iff%Z.eqb_eq].
  destruct from as [slot| |]; cbn [as_replica]; [|intros [= <- <-]; auto..].
  destruct (is_voter _ slot) eqn:Hvt; cbn [negb]; [|intros [= <- <-]; auto].
  destruct (member_at _ slot) as [x|] eqn:Hm; [|intros [= <- <-]; auto].
  destruct (bt_get _ _) as [e|]; [|intros [= <- <-]; auto].
  destruct (negb _); [intros [= <- <-]; auto|]. fold (recorded r x (nk_op nack)).
  intros Hx. right. exists slot, x. split_and!; [done..|].
  destruct (List.find _ _) as [[gap e']|]; [|injection Hx as <- <-; auto].
  destruct (Z.leb_spec (quorum_nack_prepare (nd_membership (rr_node r)))
    (zlen (elements (default ∅ (rr_nack_from (recorded r x (nk_op nack)) !! gap))))) as [Hq|];
    [|injection Hx as <- <-; auto].
  right. by exists gap.
Qed.

(** A nack of the member in [slot], as the transport authenticates it. *)
Definition authentic (slot : ReplicaId) (nack : Nack) : Prop :=
  0 <= slot /\ forall x, member_at m0 slot = Some x -> emitted x nack.

(** The tally over one generation: nacks in any order and number, repair fills, and
    anything else that leaves the generation in place and adds to no tally. *)
Inductive tallying : Repairer -> Prop :=
| tally_start r :
    nd_membership (rr_node r) = m0 -> nd_view (rr_node r) = v -> rr_nack_from r = ∅ -> tallying r
| tally_nack r cx (md : Medium) slot nack r' md' :
    tallying r -> authentic slot nack -> on_nack r cx md (PeerReplica slot) nack = Some (r', md') -> tallying r'
| tally_fill r cx (md : Medium) p b r' md' :
    tallying r -> fill_repair r cx md p = Some (b, r', md') -> tallying r'
| tally_other r r' :
    tallying r -> nd_membership (rr_node r') = m0 -> nd_view (rr_node r') = v ->
    rr_nack_from r' ⊆ rr_nack_from r -> tallying r'.

Lemma tally_shrinks r r' :
  tally_inv r -> nd_membership (rr_node r') = m0 -> nd_view (rr_node r') = v ->
  rr_nack_from r' ⊆ rr_nack_from r -> tally_inv r'.
Proof. intros [_ _ Hn] Hm Hv Hsub. split; [done|done|]. intros g s Hs. by apply Hn, (lookup_weaken _ _ _ _ Hs). Qed.

Lemma recorded_inv r x slot nack :
  wf m0 -> tally_inv r -> is_voter m0 slot = true -> 0 <= slot -> member_at m0 slot = Some x ->
  emitted x nack -> nk_view nack = v -> nk_config_id nack = m_config_id m0 ->
  tally_inv (recorded r x (nk_op nack)).
Proof.
  intros Hwf [Hm Hv Hn] Hvt Hs Hx He Hnv Hnc. split; [done|done|]. intros g s Hg. cbn in Hg.
  assert (Hxv : x ∈ voters m0).
  { unfold is_voter in Hvt. destruct (member_at_voter m0 slot Hwf) as (y & Hy & Hin); [lia|]. by simplify_eq. }
  apply lookup_insert_Some in Hg as [[<- <-]|[_ Hg]]; [|by apply (Hn g)].
  assert (Hold : default ∅ (rr_nack_from r !! nk_op nack) ⊆ voters m0 /\
    (nk_op nack <= op0 -> default ∅ (rr_nack_from r !! nk_op nack) ## holders)).
  { destruct (rr_nack_from r !! nk_op nack) as [s|] eqn:Hs'; [by apply (Hn (nk_op nack))|]. cbn. set_solver. }
  destruct Hold as [Hsub Hdis]. split; [set_solver|]. intros Hle. specialize (Hdis Hle).
  assert (x ∉ holders); [|set_solver]. intros Hh. pose proof (emitted_above x nack He Hh Hnv Hnc). lia.
Qed.

Lemma fill_nacks (r r' : Repairer) cx (md md' : Medium) p b :
  fill_repair r cx md p = Some (b, r', md') ->
  nd_membership (rr_node r') = nd_membership (rr_node r) /\ nd_view (rr_node r') = nd_view (rr_node r) /\
  rr_nack_from r' ⊆ rr_nack_from r.
Proof.
  unfold fill_repair. destruct (negb _); [intros [= _ <- _]; auto|].
  destruct (bool_decide _); [intros [= _ <- _]; auto|]. destruct (negb _); [intros [= _ <- _]; auto|].
  destruct (negb _); [intros [= _ <- _]; auto|]. destruct (ring_append_would_wrap _ _ _ _); [intros [= _ <- _]; auto|].
  destruct (submit_or_defer_append _ _ _ _ _ _) as [[a md1]|]; [|done]. cbn [mbind option_bind].
  intros [= _ <- _]. cbn. split_and!; [done|done|apply delete_subseteq].
Qed.

Lemma on_nack_inv (r r' : Repairer) cx (md md' : Medium) slot nack :
  wf m0 -> tally_inv r -> authentic slot nack -> on_nack r cx md (PeerReplica slot) nack = Some (r', md') ->
  tally_inv r'.
Proof.
  intros Hwf Hi [Hpos Ha] Hx. destruct (on_nack_cases _ _ _ _ _ _ _ Hx) as [->|(slot' & x & [= <-] & Hvt & Hm & Hv & Hc & Hr)];
    [done|]. rewrite (ti_membership _ Hi) in Hvt, Hm, Hc. rewrite (ti_view _ Hi) in Hv.
  pose proof (recorded_inv r x slot nack Hwf Hi Hvt Hpos Hm (Ha x Hm) Hv Hc) as Hri.
  destruct Hr as [->|(gap & _ & Ht)]; [done|]. destruct (truncate_spec _ _ _ _ _ _ Ht) as (Hm' & Hv' & Hsub & _).
  eapply tally_shrinks; [exact Hri| | |done]; [rewrite Hm'; apply Hri|rewrite Hv'; apply Hri].
Qed.

Lemma tallying_inv r : wf m0 -> tallying r -> tally_inv r.
Proof.
  intros Hwf. induction 1 as [r Hm Hv Hn|r cx md slot nack r' md' _ IH Ha Hx|r cx md p b r' md' _ IH Hx|r r' _ IH Hm Hv Hn].
  - split; [done|done|]. rewrite Hn. intros g s Hs. by rewrite lookup_empty in Hs.
  - by eapply on_nack_inv.
  - destruct (fill_nacks _ _ _ _ _ _ _ Hx) as (Hm & Hv & Hsub).
    eapply tally_shrinks; [exact IH| | |done]; [rewrite Hm; apply IH|rewrite Hv; apply IH].
  - by eapply tally_shrinks.
Qed.

(** C4. An op a replication quorum of voters holds is never truncated by nacks, whatever
    the order, duplication and delay of the solicitations, answers and nacks of a
    generation: the handler leaves every op up to it as it was. *)
Theorem held_op_survives_nacks (r r' : Repairer) cx (md md' : Medium) slot nack
    (Hwf : wf m0) (Hq : quorum m0 <= Z.of_nat (size holders)) (Hh : holders ⊆ voters m0)
    (Ht : tallying r) (Ha : authentic slot nack)
    (Hx : on_nack r cx md (PeerReplica slot) nack = Some (r', md')) :
  (forall op, op <= op0 -> bt_get op (nd_log (rr_node r')) = bt_get op (nd_log (rr_node r))) /\
  (op0 <= nd_op (rr_node r) -> op0 <= nd_op (rr_node r')).
Proof.
  pose proof (tallying_inv r Hwf Ht) as Hi. destruct Ha as [Hpos Ha].
  destruct (on_nack_cases _ _ _ _ _ _ _ Hx) as [->|(slot' & x & [= <-] & Hvt & Hm & Hv & Hc & Hr)]; [done|].
  rewrite (ti_membership _ Hi) in Hvt, Hm, Hc. rewrite (ti_view _ Hi) in Hv.
  pose proof (recorded_inv r x slot nack Hwf Hi Hvt Hpos Hm (Ha x Hm) Hv Hc) as Hri.
  destruct Hr as [->|(gap & Hgq & Htr)]; [done|].
  destruct (truncate_spec _ _ _ _ _ _ Htr) as (_ & _ & _ & Hop & Hlog). rewrite (ti_membership _ Hi) in Hgq.
  assert (Hgap : op0 < gap).
  { destruct (decide (op0 < gap)) as [|Hge]; [done|]. exfalso.
    set (s := default ∅ (rr_nack_from (recorded r x (nk_op nack)) !! gap)) in *.
    assert (Hs : s ⊆ voters m0 ∖ holders).
    { unfold s. destruct (_ !! gap) as [s'|] eqn:Hs'; [|set_solver].
      destruct (ti_nacks _ Hri gap s' Hs') as [Hsub Hdis]. cbn. specialize (Hdis ltac:(lia)). set_solver. }
    pose proof (qs_nack (QuorumSystem := voters_quorums m0 Hwf) holders s Hh Hq Hs). lia. }
  split; [intros op Hle; apply Hlog; lia|]. rewrite Hop. lia.
Qed.

End nacks.

(** ** Filling a hole *)

Lemma verify_new op view client request body : verify (header_new op view client request body) body = true.
Proof. unfold verify, header_new. rewrite from_parts_verifies. unfold from_parts. cbn [h_body_checksum]. by rewrite Z.eqb_refl. Qed.

Section fills.
Context {S W B : Type} `{WM : WalModel W} `{Superblock B}.
Context {Sm Image Sessions Walks : Type}.
#[local] Abbreviation Node := (@Node S).
#[local] Abbreviation Repairer := (@Repairer S).
#[local] Abbreviation Medium := (@Medium W B Sm Image Sessions Walks).

(** What a fill leaves alone, and the one mark it sets. *)
Record fill_frame (p : Prepare) (r r' : Repairer) (md md' : Medium) : Prop := {
  ff_log : nd_log (rr_node r') = nd_log (rr_node r);
  ff_repair : nd_repair (rr_node r') = nd_repair (rr_node r);
  ff_config : nd_config (rr_node r') = nd_config (rr_node r);
  ff_view : nd_view (rr_node r') = nd_view (rr_node r);
  ff_membership : nd_membership (rr_node r') = nd_membership (rr_node r);
  ff_capacity : wal_capacity (wal md') = wal_capacity (wal md);
  ff_marks : ap_appending (rr_appends r) ⊆ ap_appending (rr_appends r') /\
             ap_appending (rr_appends r') ⊆ {[pp_op p]} ∪ ap_appending (rr_appends r);
}.

Lemma submit_capacity (md md' : Medium) id op h b v :
  submit_append md id op h b = Some (v, md') -> wal_capacity (wal md') = wal_capacity (wal md).
Proof.
  unfold submit_append. destruct (slot_write_in_flight md op); [by intros [= _ <-]|].
  set (md1 := if append_quota_cell md =? 0 then _ else md).
  assert (Hw : wal md1 = wal md) by (unfold md1; by destruct (append_quota_cell md =? 0)).
  destruct (append_quota_cell md1 <=? _); [by intros [= _ <-]; cbn; rewrite Hw|].
  destruct (bool_decide _); [|done]. intros [= _ <-]. cbn. rewrite Hw.
  by destruct (wal_submit_spec (wal md) id op h b) as (-> & _).
Qed.

Lemma offer_frame a (md md' : Medium) op h b k go a' :
  offer a md op h b k = Some (go, a', md') ->
  ap_appending a' = ap_appending a /\ wal_capacity (wal md') = wal_capacity (wal md).
Proof.
  unfold offer, mint_write_id. destruct (_ <? _); [|done]. cbn [mbind option_bind].
  destruct (submit_append _ _ _ _ _) as [[v md1]|] eqn:Hs; [|done]. cbn [mbind option_bind].
  destruct v; intros [= _ <- <-]; (split; [done|by eapply submit_capacity]).
Qed.

Lemma fill_framed (r r' : Repairer) cx (md md' : Medium) p b :
  fill_repair r cx md p = Some (b, r', md') -> fill_frame p r r' md md'.
Proof.
  assert (Hsame : fill_frame p r r md md) by (split; [done..|set_solver]).
  unfold fill_repair. destruct (negb _); [intros [= _ <- <-]; exact Hsame|].
  destruct (bool_decide _); [intros [= _ <- <-]; exact Hsame|]. destruct (negb _); [intros [= _ <- <-]; exact Hsame|].
  destruct (negb _); [intros [= _ <- <-]; exact Hsame|].
  destruct (ring_append_would_wrap _ _ _ _); [intros [= _ <- <-]; exact Hsame|].
  unfold submit_or_defer_append. destruct (offer _ _ _ _ _ _) as [[[go a] md1]|] eqn:Ho; [|done].
  cbn [mbind option_bind]. intros [= _ <- <-]. apply offer_frame in Ho as [Ha Hc].
  split; cbn; [done..|]. rewrite Ha. set_solver.
Qed.

(** The op of a canonical body offered for an open hole is marked in flight. *)
Lemma fill_marks (r r' : Repairer) cx (md md' : Medium) p b :
  fill_repair r cx md p = Some (b, r', md') -> pp_op p ∈ nd_repair (rr_node r) ->
  vouched (nd_log (rr_node r)) p = true -> ring_append_would_wrap r cx md (pp_op p) = false ->
  pp_op p ∈ ap_appending (rr_appends r').
Proof.
  intros Hx Hr Hv Hw. unfold fill_repair in Hx. rewrite verify_new, Hv, Hw, (bool_decide_eq_true_2 _ Hr) in Hx.
  cbn [negb] in Hx. case_bool_decide as Ha; [by injection Hx as _ <- _|].
  destruct (submit_or_defer_append _ _ _ _ _ _) as [[a md1]|]; [|done]. cbn [mbind option_bind] in Hx.
  injection Hx as _ <- _. cbn. set_solver.
Qed.

(** Every entry of a batch that is the canonical body of an open hole is staged. *)
Lemma entries_marked b cx es (r r' : Repairer) (md md' : Medium) e p :
  fill_entries b r cx md es = Some (r', md') -> e ∈ es -> entry_prepare (rr_node r) b e = Some p ->
  pp_op p ∈ nd_repair (rr_node r) -> vouched (nd_log (rr_node r)) p = true ->
  ring_append_would_wrap r cx md (pp_op p) = false -> pp_op p ∈ ap_appending (rr_appends r').
Proof.
  assert (Hgrow : forall es (r r' : Repairer) (md md' : Medium), fill_entries b r cx md es = Some (r', md') ->
    ap_appending (rr_appends r) ⊆ ap_appending (rr_appends r')).
  { clear r r' md md' es e p. intros es. induction es as [|e es IH]; intros r r' md md' Hx; cbn in Hx; [by injection Hx as <- _|].
    destruct (entry_prepare _ b e) as [p|]; [|by eapply IH]. destruct (fill_repair r cx md p) as [[[ok r1] md1]|] eqn:Hf; [|done].
    apply fill_framed in Hf as [_ _ _ _ _ _ [Hm _]]. etrans; [exact Hm|by eapply IH]. }
  revert r md. induction es as [|e' es IH]; intros r md Hx Hin Hp Hr Hv Hw; [by apply elem_of_nil in Hin|].
  cbn in Hx. apply elem_of_cons in Hin as [->|Hin].
  - rewrite Hp in Hx. destruct (fill_repair r cx md p) as [[[ok r1] md1]|] eqn:Hf; [|done].
    apply (Hgrow _ _ _ _ _ Hx). by eapply fill_marks.
  - destruct (entry_prepare (rr_node r) b e') as [p'|] eqn:Hp'; [|by apply (IH r md)].
    destruct (fill_repair r cx md p') as [[[ok r1] md1]|] eqn:Hf; [|done].
    apply fill_framed in Hf as [Hl Hrp Hcf Hvw Hms Hcap _]. apply (IH r1 md1 Hx Hin).
    + unfold entry_prepare in *. by rewrite Hvw, Hms.
    + by rewrite Hrp.
    + by rewrite Hl.
    + unfold ring_append_would_wrap in *. by rewrite Hcf, Hcap.
Qed.

Lemma entries_framed b cx es (r r' : Repairer) (md md' : Medium) :
  fill_entries b r cx md es = Some (r', md') ->
  nd_log (rr_node r') = nd_log (rr_node r) /\ nd_repair (rr_node r') = nd_repair (rr_node r).
Proof.
  revert r md. induction es as [|e es IH]; intros r md Hx; cbn in Hx; [by injection Hx as <- _|].
  destruct (entry_prepare _ b e) as [p|]; [|by eapply IH]. destruct (fill_repair r cx md p) as [[[ok r1] md1]|] eqn:Hf; [|done].
  apply fill_framed in Hf as [Hl Hr _ _ _ _ _]. destruct (IH _ _ Hx) as [-> ->]. by rewrite Hl, Hr.
Qed.

(** Whether an entry is what the requester wants at a hole: the identity it kept there,
    or, where it kept none, what the server committed. *)
Definition canonical_for (server : Node) (r : Repairer) (op : OpNumber) (e : LogEntry) (body : list byte) : Prop :=
  match bt_get op (nd_log (rr_node r)) with
  | Some (mkLogEntry c q (Repairing k)) => c = l_client e /\ q = l_request e /\ k = fnv1a_128 body
  | _ => op <= nd_commit_min server
  end.

(** C11. One solicited round makes progress at both ends.  A settled replica that is asked
    for a window by a peer it knows answers that peer, with one batch, if it holds
    anything of the window; and whatever requester takes that answer in, the lowest op
    held, if it is an open hole there whose body is canonical and the ring has room for
    it, is staged, while the log and the set of holes stay as they were until the write
    lands. *)
Theorem repair_round_progress (server : Node) scx from slot req op e body
    (Hnormal : cx_status scx = Normal) (Hdurable : cx_pending_durable_view scx = false) (Hpeer : requester server from = Some slot)
    (Hlow : head (held_entries (bt_range (rg_lo req) (serve_hi server req) (nd_log server)))
              = Some (mkEntry op (l_client e) (l_request e) (Present body))) :
  exists b, on_request_prepare_range server scx from req = [(To (PeerReplica slot), MRepairBatch b)] /\
    forall (r r' : Repairer) cx (md md' : Medium),
      on_repair_batch r cx md b = Some (r', md') -> op ∈ nd_repair (rr_node r) -> canonical_for server r op e body ->
      ring_append_would_wrap r cx md op = false ->
      op ∈ ap_appending (rr_appends r') /\ nd_log (rr_node r') = nd_log (rr_node r) /\ nd_repair (rr_node r') = nd_repair (rr_node r).
Proof.
  set (pe := mkEntry op (l_client e) (l_request e) (Present body)) in *.
  assert (Hin : pe ∈ served_entries server req).
  { unfold served_entries. set (run := bt_range _ _ _) in *.
    destruct (serve_prefix_spec (MAX_FRAME_LEN - REPAIR_BATCH_CARRIER_OVERHEAD) 0 false run) as (rest & Heq & _ & Hne).
    rewrite Heq in Hlow. destruct (serve_prefix _ 0 false run) as [|x xs]; [by rewrite (Hne eq_refl eq_refl) in Hlow|].
    injection Hlow as ->. constructor. }
  assert (Hhi : (serve_hi server req <? rg_lo req) = false).
  { apply Z.ltb_ge. destruct (Z.le_gt_cases (rg_lo req) (serve_hi server req)) as [|Hlt]; [done|].
    exfalso. assert (Hnil : bt_range (rg_lo req) (serve_hi server req) (nd_log server) = []).
    { destruct (bt_range _ _ _) as [|x xs] eqn:Hx; [done|]. exfalso.
      assert (Hin' : x ∈ bt_range (rg_lo req) (serve_hi server req) (nd_log server)) by (rewrite Hx; left). apply bt_range_elem in Hin'. lia. }
    by rewrite Hnil in Hlow. }
  eexists. split.
  { unfold on_request_prepare_range. rewrite Hnormal, Hdurable, Hpeer, Hhi. cbn [is_normal negb orb]. cbv zeta.
    rewrite bool_decide_eq_false_2; [reflexivity|]. intros Hnil. rewrite Hnil in Hin. by apply elem_of_nil in Hin. }
  intros r r' cx md md' Hx Hhole Hcanon Hring. set (b := mkRepairBatch _ _ _ _ _) in Hx.
  split; [|by apply (entries_framed _ _ _ _ _ _ _ Hx)].
  set (p := mkPrepare (nd_view (rr_node r)) op (rb_commit b) (rb_checkpoint_op b)
    (m_epoch (nd_membership (rr_node r))) (rb_config_id b) (l_client e) (l_request e) body).
  apply (entries_marked b cx (rb_log b) r r' md md' pe p); [exact Hx|exact Hin|reflexivity|done| |done].
  unfold vouched, p. cbn [pp_op pp_commit pp_client pp_request pp_body pe e_op e_client e_request rb_commit b]. unfold canonical_for in Hcanon.
  destruct (bt_get op (nd_log (rr_node r))) as [[c q [bytes|k|pl]]|]; cbn [is_repairing l_body]; try (apply negb_true_iff; lia).
  destruct Hcanon as (-> & -> & ->). unfold repairing_identity_matches. cbn [l_body l_client l_request].
  by rewrite !Z.eqb_refl.
Qed.

End fills.

(** ** Two nacks truncate a tail, and a range answer fills a hole *)

Module RepairDemo.
Import MediumDemo.

Definition body2 : list byte := [x62].
Definition demo_log : btree LogEntry :=
  [(1, demo_entry); (2, mkLogEntry 8 1 (Repairing (fnv1a_128 body2)))].
Definition node_of (local op : Z) (log : btree LogEntry) (repair : gset Z) : Node :=
  mkNode (S := Z) (mkConfig 1 local 32 4) sample 0 op 0 0 log [] ∅ repair ∅ 0 None 0 0 [].
Definition tail : @Repairer Z := mkRepairer (node_of 10 2 demo_log {[2]}) (new_appender 1) ∅ None.
Definition medium := med start.

Definition peer (local : Z) : Node := node_of local 1 [(1, demo_entry)] ∅.
Definition asked : RequestPrepare := mkRequestPrepare 0 2 0 (m_config_id sample).
Definition nack (slot : Z) : Nack := mkNack 0 2 slot (m_config_id sample).

Definition after (r : @Repairer Z) (slot : Z) : @Repairer Z :=
  default r (fst <$> on_nack r demo_ctx medium (PeerReplica slot) (nack slot)).

Lemma demo_authentic slot : slot ∈ [1; 2] -> authentic (S := Z) sample 0 1 {[10; 11]} slot (nack slot).
Proof.
  intros Hs. assert (Hslot : slot = 1 \/ slot = 2) by set_solver. split; [lia|]. intros x Hx.
  exists (peer x), demo_ctx, (PeerReplica 0), asked, [(To (PeerReplica 0), MNack (nack slot))], (To (PeerReplica 0)).
  split; [done|]. split; [done|]. split; [|by constructor].
  destruct Hslot as [-> | ->]; injection Hx as <-; vm_compute; reflexivity.
Qed.

Lemma held_op_survives_nacks_witness :
  bt_get 1 (nd_log (rr_node (after (after tail 1) 2))) = Some demo_entry /\
  nd_op (rr_node (after (after tail 1) 2)) = 1 /\ nd_log (rr_node (after (after tail 1) 2)) = [(1, demo_entry)].
Proof.
  assert (Ht : tallying (S := Z) (Sm := Z) (Image := Z) (Sessions := Z) (Walks := Z) sample 0 1 {[10; 11]} (after tail 1)).
  { apply (tally_nack _ _ _ _ tail demo_ctx medium 1 (nack 1) (after tail 1) medium); [by apply tally_start|apply demo_authentic; set_solver|].
    vm_compute. reflexivity. }
  split; [|split; vm_compute; reflexivity].
  assert (Hh : {[10; 11]} ⊆ voters sample) by (apply (bool_decide_unpack ({[10; 11]} ⊆ voters sample)); by vm_compute).
  assert (Ha : authentic (S := Z) sample 0 1 {[10; 11]} 2 (nack 2)) by (apply demo_authentic; set_solver).
  assert (Hq : quorum sample <= Z.of_nat (size (C := gset Z) {[10; 11]})) by (vm_compute; congruence).
  assert (Hx : on_nack (after tail 1) demo_ctx medium (PeerReplica 2) (nack 2) = Some (after (after tail 1) 2, medium))
    by (vm_compute; reflexivity).
  destruct (held_op_survives_nacks sample 0 1 {[10; 11]} (after tail 1) (after (after tail 1) 2) demo_ctx medium medium 2
    (nack 2) sample_wf Hq Hh Ht Ha Hx) as [Hs _].
  rewrite Hs by lia. vm_compute. reflexivity.
Defined.

(** A peer that holds op 2 answers the range, and the hole of [tail] is staged. *)
Definition holder : Node := node_of 11 2 [(1, demo_entry); (2, mkLogEntry 8 1 (Present body2))] ∅.
Definition range : RequestPrepareRange := mkRequestPrepareRange 0 2 2 0 (m_config_id sample).
Definition answer : RepairBatch :=
  mkRepairBatch 0 0 0 (m_config_id sample) [mkEntry 2 8 1 (Present body2)].
Definition filled := default (tail, medium) (on_repair_batch tail demo_ctx medium answer).

Lemma repair_round_progress_witness :
  on_request_prepare_range holder demo_ctx (PeerReplica 0) range = [(To (PeerReplica 0), MRepairBatch answer)] /\
  2 ∈ ap_appending (rr_appends filled.1) /\
  ap_pending (rr_appends filled.1) !! 1 = Some (RepairFill 2 (mkLogEntry 8 1 (Present body2))).
Proof.
  destruct (repair_round_progress (W := RingWal) (B := OneWriter) (Sm := Z) (Image := Z) (Sessions := Z) (Walks := Z) holder demo_ctx (PeerReplica 0) 0 range 2
    (mkLogEntry 8 1 (Present body2)) body2) as (b & Hs & Hr); [reflexivity|reflexivity|vm_compute; reflexivity|vm_compute; reflexivity|].
  assert (Hb : on_request_prepare_range holder demo_ctx (PeerReplica 0) range = [(To (PeerReplica 0), MRepairBatch answer)]) by (vm_compute; reflexivity).
  split; [exact Hb|]. rewrite Hb in Hs. injection Hs as <-.
  assert (Hx : on_repair_batch tail demo_ctx medium answer = Some (filled.1, filled.2)) by (vm_compute; reflexivity).
  destruct (Hr tail filled.1 demo_ctx medium filled.2 Hx) as [Hm _];
    [apply elem_of_singleton; reflexivity|split_and!; reflexivity|vm_compute; reflexivity|].
  split; [exact Hm|vm_compute; reflexivity].
Defined.

End RepairDemo.
