(* ===== verification/SyncTrigger.v ===== *)
(** * When a replica asks for a checkpoint

    The triggers of state sync ([viewstamp-proto/src/endpoint/state_sync.rs], with the
    predicates of [endpoint/mod.rs] and the cross-epoch trigger of
    [endpoint/normal.rs]): the ordinary one above the head, the forced ones for a hole
    below a peer's checkpoint and for an append below the ring window, the crossing
    into a higher epoch, and everything that re-targets, downgrades or cancels an
    outstanding sync.  Fetching and installing the checkpoint are not part of this
    file: of a transfer the triggers read only the checkpoint it is pinned to and
    whether its reply presents a crossing. *)

From S2P Require Import Prelude Core Hash Membership Codec Message Messages BTree ViewChange Votes Proposals Sessions Normal Serve.

Definition SYNC_SOLICIT : Z := 100 * MILLIS.
Definition CATCH_UP_VALIDATION_WINDOWS : Z := 3.

Record SyncState : Type := mkSync {
  st_target : OpNumber;
  st_nonce : Z;
  st_forced : bool;
  st_require_cross_epoch : bool;
}.

(** Of a block transfer: the checkpoint it is pinned to, and [crossing_answered]. *)
Record Transfer : Type := mkTransfer {
  tr_checkpoint_op : OpNumber;
  tr_crossing_answered : bool;
}.

Record Syncer : Type := mkSyncer {
  sy_sync : option SyncState;
  sy_block_fetch : option Transfer;
  sy_cross_epoch_intent : option OpNumber;
  sy_quarantined_donor : option Peer;
  sy_probe_deadline : option Z;
  sy_probe_mark : Z;
  sy_fetch_progress : Z;
  sy_nonce : Z;
  sy_solicit : option Z;
  sy_below_ring : Z;
  sy_sent : list (Recipient * Message);
  sy_started : list OpNumber;
}.

(** What the triggers read of the rest of the endpoint; [sx_install] is the pending
    install, with whether it carries a successor configuration. *)
Record SyncCtx : Type := mkSyncCtx {
  sx_status : Status;
  sx_view : View;
  sx_slot : ReplicaId;
  sx_membership : Membership;
  sx_op : OpNumber;
  sx_commit_min : OpNumber;
  sx_checkpoint_op : OpNumber;
  sx_log_floor : OpNumber;
  sx_capacity : Z;
  sx_install : option bool;
  sx_awaiting_peer_checkpoint : bool;
  sx_sm_reconstruct : bool;
  sx_checkpoint_reads_open : bool;
  sx_peer_checkpoint : gmap MemberId OpNumber;
}.

Definition set_sync (s : Syncer) (o : option SyncState) : Syncer :=
  mkSyncer o (sy_block_fetch s) (sy_cross_epoch_intent s) (sy_quarantined_donor s) (sy_probe_deadline s)
    (sy_probe_mark s) (sy_fetch_progress s) (sy_nonce s) (sy_solicit s) (sy_below_ring s) (sy_sent s) (sy_started s).
Definition set_fetch (s : Syncer) (t : option Transfer) : Syncer :=
  mkSyncer (sy_sync s) t (sy_cross_epoch_intent s) (sy_quarantined_donor s) (sy_probe_deadline s)
    (sy_probe_mark s) (sy_fetch_progress s) (sy_nonce s) (sy_solicit s) (sy_below_ring s) (sy_sent s) (sy_started s).
Definition set_intent (s : Syncer) (i : option OpNumber) : Syncer :=
  mkSyncer (sy_sync s) (sy_block_fetch s) i (sy_quarantined_donor s) (sy_probe_deadline s)
    (sy_probe_mark s) (sy_fetch_progress s) (sy_nonce s) (sy_solicit s) (sy_below_ring s) (sy_sent s) (sy_started s).
Definition set_probe (s : Syncer) (donor : option Peer) (deadline : option Z) (mark : Z) : Syncer :=
  mkSyncer (sy_sync s) (sy_block_fetch s) (sy_cross_epoch_intent s) donor deadline
    mark (sy_fetch_progress s) (sy_nonce s) (sy_solicit s) (sy_below_ring s) (sy_sent s) (sy_started s).
Definition set_solicit (s : Syncer) (d : option Z) : Syncer :=
  mkSyncer (sy_sync s) (sy_block_fetch s) (sy_cross_epoch_intent s) (sy_quarantined_donor s) (sy_probe_deadline s)
    (sy_probe_mark s) (sy_fetch_progress s) (sy_nonce s) d (sy_below_ring s) (sy_sent s) (sy_started s).
Definition add_sent (s : Syncer) (out : list (Recipient * Message)) : Syncer :=
  mkSyncer (sy_sync s) (sy_block_fetch s) (sy_cross_epoch_intent s) (sy_quarantined_donor s) (sy_probe_deadline s)
    (sy_probe_mark s) (sy_fetch_progress s) (sy_nonce s) (sy_solicit s) (sy_below_ring s) (sy_sent s ++ out) (sy_started s).

(** ** Predicates *)

Definition requires_crossing (s : Syncer) : bool :=
  match sy_sync s with Some t => st_require_cross_epoch t | None => false end.

Definition cross_epoch_speculative_sync (cx : SyncCtx) (s : Syncer) : bool :=
  is_normal (sx_status cx) && requires_crossing s.

Definition crossing_answer_in_flight (s : Syncer) : bool :=
  match sy_block_fetch s with Some t => tr_crossing_answered t | None => false end.

Definition stale_crossing_intent_clearable (cx : SyncCtx) (s : Syncer) : bool :=
  is_normal (sx_status cx)
  && match sx_install cx with None => true | Some successor => negb successor end
  && negb (sx_awaiting_peer_checkpoint cx) && negb (crossing_answer_in_flight s)
  && negb (sx_sm_reconstruct cx).

Definition crossing_is_pre_answer_speculative (cx : SyncCtx) (s : Syncer) : bool :=
  stale_crossing_intent_clearable cx s && bool_decide (sx_install cx = None).

(** The newest checkpoint any current member reported, or the own floor. *)
Definition newest_report (cx : SyncCtx) : OpNumber :=
  max_peer_checkpoint_op (sx_membership cx) (sx_checkpoint_op cx) (sx_log_floor cx) (sx_peer_checkpoint cx).

(** ** Soliciting *)

Definition request_sync (cx : SyncCtx) (s : Syncer) : RequestSync :=
  let nonce := match sy_sync s with Some t => st_nonce t | None => sy_nonce s end in
  let recovery := sx_awaiting_peer_checkpoint cx || sx_sm_reconstruct cx in
  let advertised :=
    match sy_sync s with
    | Some t =>
        if sx_awaiting_peer_checkpoint cx && negb (st_require_cross_epoch t)
        then Z.max (sx_checkpoint_op cx) (st_target t) else sx_checkpoint_op cx
    | None => sx_checkpoint_op cx
    end in
  mkRequestSync (sx_view cx) advertised (sx_slot cx) nonce recovery (m_config_id (sx_membership cx)).

Definition send_request_sync (cx : SyncCtx) (s : Syncer) (now : Z) : Syncer :=
  let m := MRequestSync (request_sync cx s) in
  let donor := match sy_quarantined_donor s with Some d => [(To d, m)] | None => [] end in
  set_solicit (add_sent s ((Backups, m) :: donor)) (Some (Time.instant_add now SYNC_SOLICIT)).

Definition arm_sync (cx : SyncCtx) (s : Syncer) (now : Z) (target : OpNumber) (forced cross : bool) : Syncer :=
  let nonce := wrap 64 (sy_nonce s + 1) in
  let s := mkSyncer (Some (mkSync target nonce forced cross)) (sy_block_fetch s) (sy_cross_epoch_intent s)
             (sy_quarantined_donor s) (sy_probe_deadline s) (sy_probe_mark s) (sy_fetch_progress s) nonce
             (sy_solicit s) (sy_below_ring s) (sy_sent s) (sy_started s ++ [target]) in
  send_request_sync cx s now.

Definition drop_transfer_below_forced_target (s : Syncer) : Syncer :=
  match sy_sync s with
  | None => s
  | Some t =>
      if negb (st_forced t) || st_require_cross_epoch t then s
      else
        match sy_block_fetch s with
        | Some bf => if tr_checkpoint_op bf <? st_target t then set_fetch s None else s
        | None => s
        end
  end.

Definition retarget (s : Syncer) (t : SyncState) (target : OpNumber) (forced : bool) : Syncer :=
  drop_transfer_below_forced_target (set_sync s (Some (mkSync target (st_nonce t) forced false))).

Definition drop_crossing_intent (s : Syncer) : Syncer :=
  set_probe (set_intent s None) None None (sy_probe_mark s).

(** Whether it re-targeted a stale crossing, and the state. *)
Definition downgrade_stale_cross_epoch_sync (cx : SyncCtx) (s : Syncer) (target : OpNumber) : bool * Syncer :=
  match sy_sync s with
  | None => (false, s)
  | Some t =>
      if negb (st_require_cross_epoch t) then (false, s)
      else if negb (crossing_is_pre_answer_speculative cx s) then (false, s)
      else (true, drop_crossing_intent (retarget s t target (st_forced t)))
  end.

(** The already-syncing arm the two forced triggers share. *)
Definition force_target (cx : SyncCtx) (s : Syncer) (now : Z) (target : OpNumber) : Syncer :=
  let '(done, s) := downgrade_stale_cross_epoch_sync cx s target in
  if done then s
  else
    match sy_sync s with
    | Some t => if st_target t <? target then retarget s t target true else s
    | None => arm_sync cx s now target true false
    end.

(** ** The triggers *)

Definition maybe_request_sync (cx : SyncCtx) (s : Syncer) (now : Z) (incoming : OpNumber) : Syncer :=
  if negb (is_normal (sx_status cx)) then s
  else if incoming <=? sx_op cx then s
  else
    match sy_sync s with
    | Some _ =>
        let '(done, s) := downgrade_stale_cross_epoch_sync cx s incoming in
        if done then s
        else
          match sy_sync s with
          | Some t => if st_target t <? incoming then retarget s t incoming (st_forced t) else s
          | None => s
          end
    | None => arm_sync cx s now incoming false false
    end.

(** [true] when the append is dropped. *)
Definition maybe_sync_below_ring_window (cx : SyncCtx) (s : Syncer) (now : Z) (pop cluster_checkpoint : OpNumber)
    : bool * Syncer :=
  if sat_sub pop (sx_checkpoint_op cx) <=? sx_capacity cx then (false, s)
  else if (sx_checkpoint_op cx <? cluster_checkpoint) && (sx_commit_min cx <? cluster_checkpoint) then
    let s := mkSyncer (sy_sync s) (sy_block_fetch s) (sy_cross_epoch_intent s) (sy_quarantined_donor s)
               (sy_probe_deadline s) (sy_probe_mark s) (sy_fetch_progress s) (sy_nonce s) (sy_solicit s)
               (sy_below_ring s + 1) (sy_sent s) (sy_started s) in
    (true, force_target cx s now cluster_checkpoint)
  else (true, s).

(** The repair set and its timer, the proposer that may step down, and the sync. *)
Definition maybe_force_sync (cx : SyncCtx) (s : Syncer) (p : Proposer) (repair : gset Z) (retry : option Z) (now : Z)
    : Syncer * Proposer * gset Z * option Z :=
  if negb (is_normal (sx_status cx)) || bool_decide (repair = ∅) then (s, p, repair, retry)
  else
    let floor := newest_report cx in
    if floor =? 0 then (s, p, repair, retry)
    else if negb (existsb (fun op => op <=? floor) (elements repair)) then (s, p, repair, retry)
    else
      let '(p, abdicated) := abdicate_if_primary p now in
      if abdicated then (s, p, repair, retry)
      else
        let repair := filter (fun op => floor < op) repair in
        let retry := if bool_decide (repair = ∅) then None else retry in
        (force_target cx s now floor, p, repair, retry).

Definition cancel_forced_sync_if_satisfied (cx : SyncCtx) (s : Syncer) : Syncer :=
  if bool_decide (is_Some (sx_install cx)) || sx_sm_reconstruct cx then s
  else
    match sy_sync s with
    | Some t =>
        if st_forced t && (st_target t <=? sx_commit_min cx) && negb (st_require_cross_epoch t)
        then set_solicit (set_fetch (set_sync s None) None) None
        else s
    | None => s
    end.

(** Authority traffic of the own epoch. *)
Definition same_epoch_evidence (epoch : Epoch) (msg : Message) : bool :=
  match msg with
  | MPrepare m => pp_epoch m =? epoch
  | MCommit m => cm_epoch m =? epoch
  | MPrepareOk m => po_epoch m =? epoch
  | MStartViewChange m => svc_epoch m =? epoch
  | MDoViewChange m => d_epoch m =? epoch
  | MStartView m => sv_epoch m =? epoch
  | MGetView m => gv_epoch m =? epoch
  | MRecovery m => rc_epoch m =? epoch
  | MRecoveryResponse m => rr_epoch m =? epoch
  | MPrepareBatch m => bt_epoch m =? epoch
  | MLearnerStatus m => ls_epoch m =? epoch
  | _ => false
  end.

Definition cancel_stale_cross_epoch_sync (cx : SyncCtx) (s : Syncer) (msg : Message) : Syncer :=
  let crossing_sync := requires_crossing s in
  if bool_decide (sy_cross_epoch_intent s = None) && negb crossing_sync then s
  else if negb (stale_crossing_intent_clearable cx s) then s
  else if same_epoch_evidence (m_epoch (sx_membership cx)) msg then
    let s := if crossing_sync && crossing_is_pre_answer_speculative cx s
             then set_fetch (set_sync s None) None else s in
    drop_crossing_intent s
  else s.

(** ** The crossing probe *)

Definition refresh_quarantine_probe (s : Syncer) (now : Z) : Syncer :=
  set_probe s (sy_quarantined_donor s)
    (Some (Time.instant_add now (SYNC_SOLICIT * CATCH_UP_VALIDATION_WINDOWS))) (sy_fetch_progress s).

Definition arm_quarantine_probe (s : Syncer) (now : Z) : Syncer :=
  match sy_probe_deadline s with None => refresh_quarantine_probe s now | Some _ => s end.

(** The checkpoint a strictly higher epoch advertises. *)
Definition crossing_hint (epoch : Epoch) (msg : Message) : option OpNumber :=
  match msg with
  | MPrepare m => if epoch <? pp_epoch m then Some (pp_checkpoint_op m) else None
  | MCommit m => if epoch <? cm_epoch m then Some (cm_checkpoint_op m) else None
  | MEpochAhead m => if epoch <? ea_epoch m then Some (ea_checkpoint_op m) else None
  | _ => None
  end.

Definition pin_crossing (cx : SyncCtx) (s : Syncer) (now : Z) (checkpoint : OpNumber) : Syncer :=
  match sy_sync s with
  | Some t =>
      let fetch := if st_require_cross_epoch t then sy_block_fetch s else None in
      let s := set_sync s (Some (mkSync (Z.max (st_target t) checkpoint) (st_nonce t) true true)) in
      send_request_sync cx (set_fetch s fetch) now
  | None => arm_sync cx s now checkpoint true true
  end.

(** The result is the state and, off the [Normal] status, the checkpoint the recovery
    fetch is entered with. *)
Definition maybe_request_cross_epoch_catchup (cx : SyncCtx) (s : Syncer) (now : Z) (from : Peer) (msg : Message)
    : Syncer * option OpNumber :=
  match crossing_hint (m_epoch (sx_membership cx)) msg with
  | None => (s, None)
  | Some checkpoint =>
      let source :=
        match from with
        | PeerReplica slot =>
            match member_at (sx_membership cx) slot with
            | Some _ => Some (set_probe s None None (sy_probe_mark s))
            | None => None
            end
        | PeerMember _ =>
            Some (arm_quarantine_probe (set_probe s (Some from) (sy_probe_deadline s) (sy_probe_mark s)) now)
        | PeerClient _ => None
        end in
      match source with
      | None => (s, None)
      | Some s =>
          let intent := match sy_cross_epoch_intent s with Some i => Z.max i checkpoint | None => checkpoint end in
          let s := set_intent s (Some intent) in
          if negb (is_normal (sx_status cx)) then (s, Some checkpoint)
          else (pin_crossing cx s now checkpoint, None)
      end
  end.

(** [true] when the crossing is torn down. *)
Definition advance_quarantine_probe (cx : SyncCtx) (s : Syncer) (now : Z) : bool * Syncer :=
  if negb (due (sy_probe_deadline s) now) then (false, s)
  else if negb (requires_crossing s) then (false, set_probe s None None 0)
  else if sx_checkpoint_reads_open cx then (false, refresh_quarantine_probe s now)
  else if bool_decide (is_Some (sx_install cx)) || sx_sm_reconstruct cx then (false, refresh_quarantine_probe s now)
  else if crossing_answer_in_flight s && negb (sy_fetch_progress s =? sy_probe_mark s)
  then (false, refresh_quarantine_probe s now)
  else (true, set_solicit (set_probe (set_intent (set_fetch (set_sync s None) None) None) None None 0) None).

(** ** Holes are given up only to a sync that subsumes them *)

Lemma send_request_sync_sync cx s now : sy_sync (send_request_sync cx s now) = sy_sync s.
Proof. done. Qed.

Lemma drop_transfer_sync s : sy_sync (drop_transfer_below_forced_target s) = sy_sync s.
Proof.
  unfold drop_transfer_below_forced_target. destruct (sy_sync s) as [t|] eqn:Hs; [|by rewrite Hs].
  destruct (_ || _); [by rewrite Hs|]. destruct (sy_block_fetch s); [|by rewrite Hs].
  destruct (_ <? _); [by cbn|by rewrite Hs].
Qed.

Lemma retarget_sync s t target forced :
  sy_sync (retarget s t target forced) = Some (mkSync target (st_nonce t) forced false).
Proof. unfold retarget. by rewrite drop_transfer_sync. Qed.

Lemma downgrade_cases cx s target :
  let '(done, s') := downgrade_stale_cross_epoch_sync cx s target in
  if done then exists t, sy_sync s = Some t /\ st_require_cross_epoch t = true /\
    crossing_is_pre_answer_speculative cx s = true /\ sy_cross_epoch_intent s' = None /\
    sy_sync s' = Some (mkSync target (st_nonce t) (st_forced t) false)
  else s' = s /\ (forall t, sy_sync s = Some t -> st_require_cross_epoch t = true ->
                   crossing_is_pre_answer_speculative cx s = false).
Proof.
  unfold downgrade_stale_cross_epoch_sync. destruct (sy_sync s) as [t|] eqn:Hs; [|done].
  destruct (st_require_cross_epoch t) eqn:Hc; cbn [negb]; [|split; [done|]; intros ? [= <-]; congruence].
  destruct (crossing_is_pre_answer_speculative cx s) eqn:Hp; cbn [negb]; [|split; [done|]; by intros ? [= <-]].
  exists t. split_and!; [done..|]. unfold drop_crossing_intent, set_probe, set_intent. cbn [sy_sync]. apply retarget_sync.
Qed.

(** After a forced trigger some sync at or above the target is outstanding, on the old
    nonce when one was. *)
Lemma force_target_spec cx s now target :
  exists t', sy_sync (force_target cx s now target) = Some t' /\ target <= st_target t' /\
    forall t, sy_sync s = Some t ->
      st_nonce t' = st_nonce t /\ (st_forced t = true -> st_forced t' = true) /\
      (st_require_cross_epoch t = false -> st_target t <= st_target t' /\ st_require_cross_epoch t' = false).
Proof.
  unfold force_target. pose proof (downgrade_cases cx s target) as Hd.
  destruct (downgrade_stale_cross_epoch_sync cx s target) as [[|] s1].
  - destruct Hd as (t & Hs & Hc & _ & _ & Hs1). eexists. split; [exact Hs1|]. split; [done|].
    intros t0 Ht0. rewrite Hs in Ht0. injection Ht0 as <-. cbn. split; [done|]. split; [done|]. congruence.
  - destruct Hd as [-> _]. destruct (sy_sync s) as [t|] eqn:Hs.
    + destruct (Z.ltb_spec (st_target t) target).
      * rewrite retarget_sync. eexists. split; [done|]. cbn. split; [done|]. intros t0 [= <-]. split_and!; [done..|]. intros _. split; [lia|done].
      * exists t. split; [done|]. split; [done|]. intros t0 [= <-]. split_and!; [done..|]. intros ?. split; [lia|done].
    + eexists. split; [reflexivity|]. by split.
Qed.

(** A forced sync drops a hole from the repair set only when a sync at or above it is
    outstanding; a primary of more than one voter drops nothing and steps down, and a
    prepare is dropped at the ring only to a target above everything applied and
    checkpointed here, so the checkpoint that answers it cannot be stale. *)
Theorem forced_sync_subsumes_holes cx s p repair retry now s' p' repair' retry'
    (Hx : maybe_force_sync cx s p repair retry now = (s', p', repair', retry')) :
  repair' ⊆ repair /\
  (forall op, op ∈ repair -> op ∉ repair' ->
     exists t, sy_sync s' = Some t /\ op <= st_target t) /\
  (endpoint_is_primary (pr_membership p) (pr_local p) (pr_view p) = true -> 1 < m_replica_count (pr_membership p) ->
     repair' = repair /\ s' = s) /\
  (forall pop c s1, sy_sync s = None -> maybe_sync_below_ring_window cx s now pop c = (true, s1) ->
     sy_sync s1 = None \/ exists t, sy_sync s1 = Some t /\ sx_checkpoint_op cx < st_target t /\ sx_commit_min cx < st_target t).
Proof.
  split_and!.
  - unfold maybe_force_sync in Hx. repeat case_match; simplify_eq/=; try done; intros x Hx; by apply elem_of_filter in Hx as [_ ?].
  - intros op Hop Hgone. unfold maybe_force_sync in Hx. repeat case_match; simplify_eq/=; try done.
    all: destruct (force_target_spec cx s now (newest_report cx)) as (t & Ht & Hle & _); exists t; split; [done|];
      destruct (decide (newest_report cx < op)); [|lia]; destruct Hgone; by apply elem_of_filter.
  - intros Hp Hc. unfold maybe_force_sync, abdicate_if_primary in Hx. rewrite Hp, (proj2 (Z.ltb_lt _ _) Hc) in Hx. cbn in Hx.
    repeat case_match; by simplify_eq/=.
  - intros pop c s1 Hn Hr. unfold maybe_sync_below_ring_window in Hr. destruct (_ <=? _); [done|].
    destruct (_ && _) eqn:Hb; injection Hr as <-; [|by left]. right. apply andb_true_iff in Hb as [?%Z.ltb_lt ?%Z.ltb_lt].
    destruct (force_target_spec cx (mkSyncer (sy_sync s) (sy_block_fetch s) (sy_cross_epoch_intent s) (sy_quarantined_donor s)
      (sy_probe_deadline s) (sy_probe_mark s) (sy_fetch_progress s) (sy_nonce s) (sy_solicit s)
      (sy_below_ring s + 1) (sy_sent s) (sy_started s)) now c) as (t & Ht & Hle & _). exists t. split; [done|]. lia.
Qed.

(** ** The discipline of an outstanding sync *)

(** One trigger, in whatever state the rest of the endpoint is. *)
Inductive triggered : Syncer -> Syncer -> Prop :=
| by_checkpoint cx s now incoming : triggered s (maybe_request_sync cx s now incoming)
| by_ring cx s now pop c : triggered s (maybe_sync_below_ring_window cx s now pop c).2
| by_hole cx s p repair retry now : triggered s (maybe_force_sync cx s p repair retry now).1.1.1
| by_epoch cx s now from msg : triggered s (maybe_request_cross_epoch_catchup cx s now from msg).1
| by_timer cx s now : triggered s (send_request_sync cx s now).

(** How one sync state may follow another: the handshake keeps its nonce, a forced one
    stays forced, and an ordinary target only rises. *)
Definition follows (t t' : SyncState) : Prop :=
  st_nonce t' = st_nonce t /\ (st_forced t = true -> st_forced t' = true) /\
  (st_require_cross_epoch t = false -> st_target t <= st_target t').

Lemma follows_refl t : follows t t.
Proof. by split_and!. Qed.

Lemma force_target_follows cx s now target t :
  sy_sync s = Some t -> exists t', sy_sync (force_target cx s now target) = Some t' /\ follows t t'.
Proof.
  intros Hs. destruct (force_target_spec cx s now target) as (t' & Ht & _ & Hf). exists t'. split; [done|].
  destruct (Hf t Hs) as (? & ? & Hm). split_and!; [done..|]. intros Hc. by apply Hm.
Qed.

Lemma catchup_follows cx s now from msg t :
  sy_sync s = Some t ->
  exists t', sy_sync (maybe_request_cross_epoch_catchup cx s now from msg).1 = Some t' /\ follows t t'.
Proof.
  intros Hs. unfold maybe_request_cross_epoch_catchup.
  destruct (crossing_hint _ _) as [c|]; [|exists t; split; [done|apply follows_refl]].
  assert (Hpin : forall s1, sy_sync s1 = Some t -> exists t', sy_sync (pin_crossing cx s1 now c) = Some t' /\ follows t t').
  { intros s1 Hs1. unfold pin_crossing. rewrite Hs1. eexists. split; [reflexivity|]. split_and!; [done..|]. cbn. lia. }
  set (source := match from with PeerReplica _ => _ | _ => _ end).
  assert (Hsrc : match source with Some s1 => sy_sync s1 = Some t | None => True end).
  { unfold source. destruct from as [slot| |m]; [destruct (member_at _ slot); done|done|].
    unfold arm_quarantine_probe. cbn. by destruct (sy_probe_deadline s). }
  destruct source as [s1|]; [|exists t; split; [done|apply follows_refl]].
  destruct (negb _); cbn [fst]; [exists t; split; [done|apply follows_refl]|]. by apply Hpin.
Qed.

Lemma triggered_follows s s' t :
  triggered s s' -> sy_sync s = Some t -> exists t', sy_sync s' = Some t' /\ follows t t'.
Proof.
  intros Hx Hs. assert (Hid : exists t', sy_sync s = Some t' /\ follows t t') by (exists t; split; [done|apply follows_refl]).
  destruct Hx as [cx s now inc|cx s now pop c|cx s p repair retry now|cx s now from msg|cx s now].
  - unfold maybe_request_sync. destruct (negb _); [done|]. destruct (_ <=? _); [done|]. rewrite Hs.
    pose proof (downgrade_cases cx s inc) as Hd. destruct (downgrade_stale_cross_epoch_sync cx s inc) as [[|] s1].
    + destruct Hd as (t0 & Ht0 & Hc & _ & _ & Hs1). rewrite Hs in Ht0. injection Ht0 as <-. eexists. split; [exact Hs1|].
      split_and!; [done..|congruence].
    + destruct Hd as [-> _]. rewrite Hs. destruct (Z.ltb_spec (st_target t) inc); [|done]. rewrite retarget_sync.
      eexists. split; [done|]. split_and!; [done..|]. cbn. lia.
  - unfold maybe_sync_below_ring_window. destruct (_ <=? _); [done|]. destruct (_ && _); [|done]. by apply force_target_follows.
  - unfold maybe_force_sync. repeat (case_match; [done| ]). destruct (abdicate_if_primary p now) as [p1 [|]]; [done|].
    by apply force_target_follows.
  - by apply catchup_follows.
  - by exists t; split; [|apply follows_refl].
Qed.

(** A stale hint cannot hold the replica hostage: while no donor has answered it, the
    first reachable checkpoint of the own epoch turns the crossing into an ordinary
    sync to exactly that checkpoint and forgets the hint, however high the hint was. *)
Lemma stale_crossing_downgraded cx s now incoming t :
  sy_sync s = Some t -> crossing_is_pre_answer_speculative cx s = true -> st_require_cross_epoch t = true ->
  sx_op cx < incoming ->
  sy_sync (maybe_request_sync cx s now incoming) = Some (mkSync incoming (st_nonce t) (st_forced t) false) /\
  sy_cross_epoch_intent (maybe_request_sync cx s now incoming) = None.
Proof.
  intros Hs Hp Hc Hlt. unfold maybe_request_sync.
  assert (Hn : is_normal (sx_status cx) = true).
  { unfold crossing_is_pre_answer_speculative, stale_crossing_intent_clearable in Hp. by destruct (is_normal _). }
  rewrite Hn, (proj2 (Z.leb_gt _ _) Hlt), Hs. cbn [negb]. pose proof (downgrade_cases cx s incoming) as Hd.
  destruct (downgrade_stale_cross_epoch_sync cx s incoming) as [[|] s1].
  - destruct Hd as (t0 & Ht0 & _ & _ & Hi & Hs1). rewrite Hs in Ht0. by injection Ht0 as <-.
  - destruct Hd as [_ Hd]. by rewrite (Hd t Hs Hc) in Hp.
Qed.

(** An outstanding sync over any run of triggers, in any states of the endpoint, is one
    handshake: it keeps its nonce, a forced sync stays forced, and while a crossing is
    only a hint, however high, the first reachable checkpoint of the own epoch makes it
    an ordinary sync to that checkpoint and forgets the hint. *)
Theorem outstanding_sync_discipline s s' t
    (Hr : rtc triggered s s') (Hs : sy_sync s = Some t) :
  exists t', sy_sync s' = Some t' /\ st_nonce t' = st_nonce t /\
    (st_forced t = true -> st_forced t' = true) /\
    (forall cx now incoming, st_require_cross_epoch t' = true ->
       crossing_is_pre_answer_speculative cx s' = true -> sx_op cx < incoming ->
       sy_sync (maybe_request_sync cx s' now incoming) = Some (mkSync incoming (st_nonce t) (st_forced t') false) /\
       sy_cross_epoch_intent (maybe_request_sync cx s' now incoming) = None).
Proof.
  assert (Hrun : exists t', sy_sync s' = Some t' /\ st_nonce t' = st_nonce t /\ (st_forced t = true -> st_forced t' = true)).
  { revert t Hs. induction Hr as [s|s s1 s2 Hx _ IH]; intros t Hs; [by exists t|].
    destruct (triggered_follows _ _ _ Hx Hs) as (t1 & Hs1 & Hn & Hf & _). destruct (IH t1 Hs1) as (t2 & Hs2 & Hn2 & Hf2).
    exists t2. split; [done|]. split; [congruence|auto]. }
  destruct Hrun as (t' & Hs' & Hn & Hf). exists t'. split_and!; [done..|]. intros cx now inc Hc Hp Hlt.
  rewrite <- Hn. by apply stale_crossing_downgraded.
Qed.

(** ** The bounded probe *)

(** Hints of unresolved members, and solicitations in between. *)
Inductive hinted : Syncer -> Syncer -> Prop :=
| hint_member cx s now m msg : is_normal (sx_status cx) = true ->
    hinted s (maybe_request_cross_epoch_catchup cx s now (PeerMember m) msg).1
| hint_solicit cx s now : hinted s (send_request_sync cx s now).

Lemma hinted_probe s s' d :
  hinted s s' -> sy_probe_deadline s = Some d -> requires_crossing s = true ->
  sy_probe_deadline s' = Some d /\ sy_probe_mark s' = sy_probe_mark s /\
  sy_fetch_progress s' = sy_fetch_progress s /\ requires_crossing s' = true.
Proof.
  destruct 1 as [cx s now m msg Hn|cx s now]; intros Hd Hc; [|done].
  unfold maybe_request_cross_epoch_catchup. destruct (crossing_hint _ _) as [c|]; [|done].
  unfold arm_quarantine_probe. cbn. rewrite Hd, Hn. cbn. unfold pin_crossing. cbn.
  by destruct (sy_sync s) as [t|].
Qed.

(** A crossing no resolved member vouches for is given up at its first deadline, however
    often the hint is repeated, unless a donor that presented the crossing has delivered
    blocks since or the crossing is already being installed. *)
Theorem quarantined_crossing_expires cx s s' d now
    (Hr : rtc hinted s s') (Hd : sy_probe_deadline s = Some d) (Hc : requires_crossing s = true)
    (Hnow : d <= now) (Hp : sy_fetch_progress s = sy_probe_mark s) (Hi : sx_install cx = None)
    (Hsm : sx_sm_reconstruct cx = false) (Hrd : sx_checkpoint_reads_open cx = false) :
  exists s1, advance_quarantine_probe cx s' now = (true, s1) /\
    sy_sync s1 = None /\ sy_cross_epoch_intent s1 = None /\ sy_quarantined_donor s1 = None /\
    sy_block_fetch s1 = None /\ sy_solicit s1 = None /\ sy_probe_deadline s1 = None.
Proof.
  assert (Hrun : sy_probe_deadline s' = Some d /\ sy_fetch_progress s' = sy_probe_mark s' /\ requires_crossing s' = true).
  { revert Hd Hc Hp. induction Hr as [s|s s1 s2 Hx _ IH]; intros Hd Hc Hp; [done|].
    destruct (hinted_probe _ _ _ Hx Hd Hc) as (Hd1 & Hm1 & Hf1 & Hc1). apply IH; [done..|congruence]. }
  destruct Hrun as (Hd' & Hp' & Hc'). unfold advance_quarantine_probe, due.
  rewrite Hd', Hc', Hi, Hsm, Hrd, Hp', Z.eqb_refl, (proj2 (Z.leb_le _ _) Hnow), andb_false_r. cbn.
  eexists. by split_and!.
Qed.

(** ** A laggard with a hole below the checkpoint of its primary *)

Module SyncDemo.

Definition reports : gmap MemberId OpNumber := {[10 := 40]}.
Definition laggard : SyncCtx :=
  mkSyncCtx Normal 0 1 sample 30 20 0 0 64 None false false false reports.
Definition idle : Syncer := mkSyncer None None None None None 0 0 7 None 0 [] [].
Definition proposer : Proposer := mkProposer sample 11 0 0 0 None None false [].

Definition forced := maybe_force_sync laggard idle proposer {[21; 45]} (Some 5) 0.

Lemma forced_sync_subsumes_holes_witness :
  sy_sync forced.1.1.1 = Some (mkSync 40 8 true false) /\ 45 ∈ forced.1.2 /\ 21 ∉ forced.1.2 /\
  exists t, sy_sync forced.1.1.1 = Some t /\ 21 <= st_target t.
Proof.
  split; [vm_compute; reflexivity|]. split; [vm_compute; reflexivity|].
  assert (H21 : 21 ∉ forced.1.2) by (vm_compute; congruence). split; [done|].
  destruct (forced_sync_subsumes_holes laggard idle proposer {[21; 45]} (Some 5) 0 forced.1.1.1 forced.1.1.2 forced.1.2
    forced.2) as (_ & Hs & _); [by rewrite <- !surjective_pairing|].
  apply (Hs 21); [set_solver|done].
Defined.

(** A hint of epoch 9 raises a crossing to op 1000; op 40 of the own epoch downgrades it. *)
Definition hint : Message := MEpochAhead (mkEpochAhead 9 1000).
Definition crossing : Syncer := (maybe_request_cross_epoch_catchup laggard idle 0 (PeerMember 77) hint).1.

Lemma outstanding_sync_discipline_witness :
  sy_sync crossing = Some (mkSync 1000 8 true true) /\
  sy_sync (maybe_request_sync laggard crossing 1 40) = Some (mkSync 40 8 true false).
Proof.
  split; [vm_compute; reflexivity|].
  destruct (outstanding_sync_discipline crossing crossing (mkSync 1000 8 true true)) as (t & Ht & Hn & Hf & Hd);
    [apply rtc_refl|vm_compute; reflexivity|].
  assert (t = mkSync 1000 8 true true) as -> by (apply (inj Some); rewrite <- Ht; vm_compute; reflexivity).
  apply (Hd laggard 1 40); [reflexivity|vm_compute; reflexivity|by vm_compute].
Defined.

End SyncDemo.
