(* ===== verification/Roots.v ===== *)
(** * The writers of the durable root

    The parts of [viewstamp-proto/src/endpoint] that read and write the superblock root:
    the root builders, the checkpoint sequence (image, envelope, root, garbage
    collection) and [on_sb_done] of [checkpoint.rs]; the frontier, configuration and
    epoch-swap operations of [mod.rs]; the root half of the view transitions of
    [view_change.rs]; the staging of a state-sync install of [state_sync.rs]; the
    catch-up posture and the constructor of a recovering endpoint of [recovery/mod.rs].
    Against them stands the session's timeline of [Medium], which fail-stops on a root
    that rewinds it.

    [Keeper] holds the endpoint's fields these operations read or write, in five groups.
    An [assert!], an [expect] or a panic of the session is [None]; a [debug_assert!] is
    left out.  Deadlines are not part of the state, nor are the fields of components that
    only a reset clears: the learner proof, the health probe and the pending reconfigure
    reply.  [on_sb_done] answers with the handler it ends in ([SbRoute]), since those
    belong to other components. *)

From S2P Require Import Prelude Core Hash Membership Codec Message Messages BTree ViewChange Votes Sessions Normal Storage Lane Blocks SessionBlocks BlockJobs Medium Appends Repair SyncTrigger.

Definition MAX_VIEW_JUMP : Z := Z.shiftl 1 32.

(** ** Data *)

Inductive PendingSbAction : Type :=
| SendDoViewChange
| StartViewAsPrimary
| AdoptedStartView
| Seal
| SwapEpoch (op : OpNumber) (successor : Membership).

Record CheckpointDag : Type := mkDag {
  dag_checkpoint_id : Z;
  dag_sm_root : BlockAddress;
  dag_sessions_root : BlockAddress;
}.

Inductive CheckpointStep : Type :=
| FlushingBlocks (job : JobId)
| AwaitSnapshot (id : WriteId) (dag : CheckpointDag)
| AwaitRoot (id : WriteId) (dag : CheckpointDag).

Definition step_write_id (s : CheckpointStep) : option WriteId :=
  match s with FlushingBlocks _ => None | AwaitSnapshot id _ | AwaitRoot id _ => Some id end.

Inductive CheckpointKind : Type :=
| Ordinary
| SyncRepersist.

#[export] Instance CheckpointKind_eq_dec : EqDecision CheckpointKind.
Proof. solve_decision. Defined.

Record PendingCheckpoint : Type := mkPendingCheckpoint {
  pc_target_op : OpNumber;
  pc_step : CheckpointStep;
  pc_kind : CheckpointKind;
}.

Record PendingInstall : Type := mkPendingInstall {
  pi_checkpoint_op : OpNumber;
  pi_sessions_root : BlockAddress;
  pi_sm_root : BlockAddress;
  pi_held_tail : bool;
  pi_successor : option Membership;
  pi_successor_prev_config_id : option Z;
  pi_successor_install_op : option OpNumber;
  pi_checkpoint : SyncCheckpoint;
  pi_donor : Peer;
}.

Record SmReconstruct : Type := mkSmReconstruct {
  sr_checkpoint_op : OpNumber;
  sr_sm_root : BlockAddress;
  sr_sessions_root : BlockAddress;
  sr_checkpoint : SyncCheckpoint;
  sr_donor : Peer;
  sr_restore : option JobId;
}.

Record ViewChangeCollection : Type := mkCollection {
  vc_dvc_from : btree DoViewChange;
  vc_dvc_quorum : bool;
  vc_catching_up : bool;
  vc_catchup_windows : Z;
}.

Definition entering (catching_up : bool) : ViewChangeCollection := mkCollection [] false catching_up 0.

Record RecoverState : Type := mkRecover {
  rc_pending : btree Z;
  rc_reads : gmap Z Z;
  rc_faulty : gset Z;
  rc_absent : gset Z;
  rc_checkpoint : option Z;
  rc_checkpoint_reads : gset Z;
  rc_reconstruct : option JobId;
  rc_probe_deferred : option (Z * RecoveredCheckpoint);
  rc_formatted : bool;
  rc_checkpoint_retries : Z;
  rc_awaiting_peer_checkpoint : bool;
  rc_canonical : btree (ClientId * RequestNumber * Z);
  rc_reform_attempts : Z;
  rc_peers_recovering : Z;
  rc_peers_recovering_prev : Z;
}.

Definition RECOVER_READ_RETRIES : Z := 8.
Definition recover_default : RecoverState := mkRecover [] ∅ ∅ ∅ None ∅ None None false 0 false [] 0 0 0.

(** Events of [event.rs] these operations push. *)
Inductive RootEvent : Type :=
| StatusChanged (s : Status)
| ViewChanged (view : View) (is_primary : bool)
| CheckpointDurable (op : OpNumber)
| MembershipChanged (op : OpNumber) (epoch : Epoch) (config_id : Z) (voter learner : bool).

(** ** State *)

Record Posture : Type := mkPosture {
  p_status : Status;
  p_log_view : View;
  p_durable_view : View;
  p_view_change : option ViewChangeCollection;
  p_svc_target : View;
  p_svc_from : Z;
  p_pending_forfeit : bool;
}.

Record ConfigHistory : Type := mkConfigHistory {
  ch_prev_epoch : Epoch;
  ch_lineage : list Z;
  ch_install_op : OpNumber;
}.

Record Frontier : Type := mkFrontier {
  f_checkpoint_op : OpNumber;
  f_log_floor : OpNumber;
  f_inherited : option OpNumber;
  f_orphan : option OpNumber;
  f_sm_root : option BlockAddress;
  f_sessions_root : option BlockAddress;
  f_peer_checkpoint : gmap MemberId OpNumber;
  f_quorum_checkpoint : OpNumber;
  f_wal_pruned : Z;
}.

(** What is in flight, and the state sync it belongs to. *)
Record Owed : Type := mkOwed {
  o_sb : option (WriteId * PendingSbAction);
  o_checkpoint : option PendingCheckpoint;
  o_install : option PendingInstall;
  o_reconstruct : option SmReconstruct;
  o_syncer : Syncer;
  o_fetch : option (BlockAddress * BlockAddress);
  o_serving : list (Peer * (Z * Z));
  o_superseded : Z;
  o_disowned : Z;
}.

Section roots.
Context {S Image W B Walks : Type} `{StateMachine S Image} `{Wal W} `{Superblock B}.
#[local] Abbreviation Node := (@Node S).
#[local] Abbreviation Medium := (@Medium W B S Image (gmap Z Session) Walks).

Record Keeper : Type := mkKeeper {
  k_node : Node;
  k_appends : Appender;
  k_buffer : btree Prepare;
  k_nack_from : gmap Z (gset MemberId);
  k_posture : Posture;
  k_config : ConfigHistory;
  k_frontier : Frontier;
  k_owed : Owed;
  k_recover : option RecoverState;
  k_wal_capacity : Z;
  k_events : list RootEvent;
}.

Definition with_knode (k : Keeper) (n : Node) : Keeper :=
  mkKeeper n (k_appends k) (k_buffer k) (k_nack_from k) (k_posture k) (k_config k) (k_frontier k) (k_owed k) (k_recover k) (k_wal_capacity k) (k_events k).
Definition with_kappends (k : Keeper) (a : Appender) : Keeper :=
  mkKeeper (k_node k) a (k_buffer k) (k_nack_from k) (k_posture k) (k_config k) (k_frontier k) (k_owed k) (k_recover k) (k_wal_capacity k) (k_events k).
Definition with_posture (k : Keeper) (p : Posture) : Keeper :=
  mkKeeper (k_node k) (k_appends k) (k_buffer k) (k_nack_from k) p (k_config k) (k_frontier k) (k_owed k) (k_recover k) (k_wal_capacity k) (k_events k).
Definition with_config (k : Keeper) (c : ConfigHistory) : Keeper :=
  mkKeeper (k_node k) (k_appends k) (k_buffer k) (k_nack_from k) (k_posture k) c (k_frontier k) (k_owed k) (k_recover k) (k_wal_capacity k) (k_events k).
Definition with_frontier (k : Keeper) (f : Frontier) : Keeper :=
  mkKeeper (k_node k) (k_appends k) (k_buffer k) (k_nack_from k) (k_posture k) (k_config k) f (k_owed k) (k_recover k) (k_wal_capacity k) (k_events k).
Definition with_owed (k : Keeper) (o : Owed) : Keeper :=
  mkKeeper (k_node k) (k_appends k) (k_buffer k) (k_nack_from k) (k_posture k) (k_config k) (k_frontier k) o (k_recover k) (k_wal_capacity k) (k_events k).
Definition with_recover (k : Keeper) (r : option RecoverState) : Keeper :=
  mkKeeper (k_node k) (k_appends k) (k_buffer k) (k_nack_from k) (k_posture k) (k_config k) (k_frontier k) (k_owed k) r (k_wal_capacity k) (k_events k).
Definition push_event (k : Keeper) (e : RootEvent) : Keeper :=
  mkKeeper (k_node k) (k_appends k) (k_buffer k) (k_nack_from k) (k_posture k) (k_config k) (k_frontier k) (k_owed k) (k_recover k) (k_wal_capacity k) (k_events k ++ [e]).
(** The tables of one view generation: appends, reorder buffer, nack tally. *)
Definition with_tables (k : Keeper) (a : Appender) (b : btree Prepare) (t : gmap Z (gset MemberId)) : Keeper :=
  mkKeeper (k_node k) a b t (k_posture k) (k_config k) (k_frontier k) (k_owed k) (k_recover k) (k_wal_capacity k) (k_events k).

Definition k_membership (k : Keeper) : Membership := nd_membership (k_node k).
Definition k_view (k : Keeper) : View := nd_view (k_node k).
Definition k_status (k : Keeper) : Status := p_status (k_posture k).
Definition k_log_view (k : Keeper) : View := p_log_view (k_posture k).
Definition k_durable_view (k : Keeper) : View := p_durable_view (k_posture k).
Definition k_local (k : Keeper) : MemberId := c_local (nd_config (k_node k)).
Definition k_pending_sb (k : Keeper) : option (WriteId * PendingSbAction) := o_sb (k_owed k).
Definition k_pending_checkpoint (k : Keeper) : option PendingCheckpoint := o_checkpoint (k_owed k).
Definition k_pending_install (k : Keeper) : option PendingInstall := o_install (k_owed k).
Definition k_checkpoint_op (k : Keeper) : OpNumber := f_checkpoint_op (k_frontier k).
Definition k_log_floor (k : Keeper) : OpNumber := f_log_floor (k_frontier k).
Definition sm_reconstruct_owed (k : Keeper) : bool := bool_decide (is_Some (o_reconstruct (k_owed k))).

Definition set_sb (o : Owed) (s : option (WriteId * PendingSbAction)) : Owed :=
  mkOwed s (o_checkpoint o) (o_install o) (o_reconstruct o) (o_syncer o) (o_fetch o) (o_serving o) (o_superseded o) (o_disowned o).
Definition set_pc (o : Owed) (c : option PendingCheckpoint) : Owed :=
  mkOwed (o_sb o) c (o_install o) (o_reconstruct o) (o_syncer o) (o_fetch o) (o_serving o) (o_superseded o) (o_disowned o).
Definition set_install (o : Owed) (i : option PendingInstall) : Owed :=
  mkOwed (o_sb o) (o_checkpoint o) i (o_reconstruct o) (o_syncer o) (o_fetch o) (o_serving o) (o_superseded o) (o_disowned o).
Definition set_reconstruct (o : Owed) (r : option SmReconstruct) : Owed :=
  mkOwed (o_sb o) (o_checkpoint o) (o_install o) r (o_syncer o) (o_fetch o) (o_serving o) (o_superseded o) (o_disowned o).
Definition set_syncer (o : Owed) (s : Syncer) (f : option (BlockAddress * BlockAddress)) : Owed :=
  mkOwed (o_sb o) (o_checkpoint o) (o_install o) (o_reconstruct o) s f (o_serving o) (o_superseded o) (o_disowned o).
Definition set_serving (o : Owed) (s : list (Peer * (Z * Z))) : Owed :=
  mkOwed (o_sb o) (o_checkpoint o) (o_install o) (o_reconstruct o) (o_syncer o) (o_fetch o) s (o_superseded o) (o_disowned o).
Definition drop_intent (o : Owed) : Owed := set_syncer o (set_intent (o_syncer o) None) (o_fetch o).
(** The outstanding sync, its block transfer and its solicit deadline. *)
Definition drop_sync (o : Owed) : Owed := set_syncer o (set_solicit (set_fetch (set_sync (o_syncer o) None) None) None) None.
Definition count_superseded (o : Owed) : Owed :=
  mkOwed (o_sb o) (o_checkpoint o) (o_install o) (o_reconstruct o) (o_syncer o) (o_fetch o) (o_serving o) (sat_add 64 (o_superseded o) 1) (o_disowned o).
Definition count_disowned (o : Owed) : Owed :=
  mkOwed (o_sb o) (o_checkpoint o) (o_install o) (o_reconstruct o) (o_syncer o) (o_fetch o) (o_serving o) (o_superseded o) (o_disowned o + 1).

Definition node_view (n : Node) (v : View) : Node :=
  mkNode (nd_config n) (nd_membership n) v (nd_op n) (nd_commit_min n) (nd_commit_max n) (nd_log n) (nd_inflight n) (nd_appending n)
    (nd_repair n) (nd_clients n) (nd_sessions_evicted n) (nd_pending_swap n) (nd_sm n) (nd_sm_at n) (nd_out n).
Definition node_membership (n : Node) (m : Membership) (inflight : btree Inflight) : Node :=
  mkNode (nd_config n) m (nd_view n) (nd_op n) (nd_commit_min n) (nd_commit_max n) (nd_log n) inflight (nd_appending n)
    (nd_repair n) (nd_clients n) (nd_sessions_evicted n) (nd_pending_swap n) (nd_sm n) (nd_sm_at n) (nd_out n).
Definition node_appending (n : Node) (a : gset Z) : Node :=
  mkNode (nd_config n) (nd_membership n) (nd_view n) (nd_op n) (nd_commit_min n) (nd_commit_max n) (nd_log n) (nd_inflight n) a
    (nd_repair n) (nd_clients n) (nd_sessions_evicted n) (nd_pending_swap n) (nd_sm n) (nd_sm_at n) (nd_out n).
Definition node_swap (n : Node) (s : option (OpNumber * Membership)) : Node :=
  mkNode (nd_config n) (nd_membership n) (nd_view n) (nd_op n) (nd_commit_min n) (nd_commit_max n) (nd_log n) (nd_inflight n) (nd_appending n)
    (nd_repair n) (nd_clients n) (nd_sessions_evicted n) s (nd_sm n) (nd_sm_at n) (nd_out n).
Definition node_frontier (n : Node) (op commit_min commit_max : OpNumber) : Node :=
  mkNode (nd_config n) (nd_membership n) (nd_view n) op commit_min commit_max (nd_log n) (nd_inflight n) (nd_appending n)
    (nd_repair n) (nd_clients n) (nd_sessions_evicted n) (nd_pending_swap n) (nd_sm n) (nd_sm_at n) (nd_out n).

Definition set_status (k : Keeper) (s : Status) : Keeper :=
  if bool_decide (k_status k = s) then k
  else
    let p := k_posture k in
    push_event (with_posture k (mkPosture s (p_log_view p) (p_durable_view p) (p_view_change p) (p_svc_target p) (p_svc_from p) (p_pending_forfeit p)))
      (StatusChanged s).

(** The two halves of the appends' and the node's view of one set ([Repair.with_appends]). *)
Definition with_owned_appends (k : Keeper) (a : Appender) : Keeper :=
  with_knode (with_kappends k a) (node_appending (k_node k) (ap_appending a)).

Definition mint (k : Keeper) : option (WriteId * Keeper) :=
  '(id, a) ← mint_write_id (k_appends k); Some (id, with_kappends k a).

(** [issue_block_job]; [mint_job_id] draws from the same counter. *)
Definition issue_block_job (k : Keeper) (m : Medium) (kind : @BlockJobKind S Image (gmap Z Session) Walks)
    : option (JobId * Keeper * Medium) :=
  '(id, k) ← mint k; m ← enqueue_block_job m id kind; Some (id, k, m).

(** ** The checkpoint frontier *)

Definition recompute_quorum_checkpoint (k : Keeper) : option Keeper :=
  let f := k_frontier k in
  q ← compute_quorum_checkpoint_op (k_membership k) (k_local k) (f_checkpoint_op f) (f_peer_checkpoint f);
  Some (with_frontier k (mkFrontier (f_checkpoint_op f) (f_log_floor f) (f_inherited f) (f_orphan f) (f_sm_root f) (f_sessions_root f)
                           (f_peer_checkpoint f) q (f_wal_pruned f))).

Definition k_record_peer_checkpoint (k : Keeper) (replica : ReplicaId) (reported : OpNumber) : option Keeper :=
  match member_at (k_membership k) replica with
  | None => Some k
  | Some _ =>
      let f := k_frontier k in
      recompute_quorum_checkpoint
        (with_frontier k (mkFrontier (f_checkpoint_op f) (f_log_floor f) (f_inherited f) (f_orphan f) (f_sm_root f) (f_sessions_root f)
                            (record_peer_checkpoint (k_membership k) (f_peer_checkpoint f) replica reported)
                            (f_quorum_checkpoint f) (f_wal_pruned f)))
  end.

Definition raise_log_floor (f : Frontier) (to : OpNumber) : Frontier :=
  mkFrontier (f_checkpoint_op f) (Z.max (f_log_floor f) to) (f_inherited f) (f_orphan f) (f_sm_root f) (f_sessions_root f)
    (f_peer_checkpoint f) (f_quorum_checkpoint f) (f_wal_pruned f).

(** A marker is retired by a pointer at or past it. *)
Definition retire (owed : option OpNumber) (to : OpNumber) : option OpNumber :=
  match owed with Some o => if o <=? to then None else owed | None => None end.

Definition advance_checkpoint_op (k : Keeper) (to : OpNumber) : option Keeper :=
  let f := k_frontier k in
  if f_checkpoint_op f <=? to then
    let f := mkFrontier to (f_log_floor f) (retire (f_inherited f) to) (retire (f_orphan f) to) (f_sm_root f) (f_sessions_root f)
               (f_peer_checkpoint f) (f_quorum_checkpoint f) (f_wal_pruned f) in
    recompute_quorum_checkpoint (with_frontier k (raise_log_floor f to))
  else None.

Definition set_dag_roots (f : Frontier) (sm sessions : option BlockAddress) : Frontier :=
  mkFrontier (f_checkpoint_op f) (f_log_floor f) (f_inherited f) (f_orphan f) sm sessions (f_peer_checkpoint f) (f_quorum_checkpoint f) (f_wal_pruned f).

Definition recovering (k : Keeper) : bool :=
  match k_status k with Recovering | RecoveringHead => true | _ => false end.
Definition retired (k : Keeper) : bool := match k_status k with Retired => true | _ => false end.

(** The windows in which the endpoint advances the pointer itself. *)
Definition own_advance (k : Keeper) : bool :=
  bool_decide (is_Some (k_pending_checkpoint k)) || sm_reconstruct_owed k || bool_decide (is_Some (k_pending_install k)).

Definition maybe_adopt_inherited_frontier (k : Keeper) : option Keeper :=
  match f_inherited (k_frontier k) with
  | None => Some k
  | Some frontier =>
      if recovering k || retired k || own_advance k || (nd_commit_min (k_node k) <? frontier) then Some k
      else
        k ← advance_checkpoint_op k frontier;
        Some (with_frontier k (set_dag_roots (k_frontier k) None None))
  end.

Definition repersist_orphan_owed (k : Keeper) : option OpNumber * Keeper :=
  match f_orphan (k_frontier k) with
  | None => (None, k)
  | Some target =>
      if (target <=? k_checkpoint_op k) || (target <=? nd_commit_min (k_node k)) then
        let f := k_frontier k in
        (None, with_frontier k (mkFrontier (f_checkpoint_op f) (f_log_floor f) (f_inherited f) None (f_sm_root f) (f_sessions_root f)
                                  (f_peer_checkpoint f) (f_quorum_checkpoint f) (f_wal_pruned f)))
      else (Some target, k)
  end.

(** ** Building a root *)

(** The headers of the committed operations above the checkpoint that the log holds. *)
Definition committed_band_headers (n : Node) (checkpoint_floor : OpNumber) : list Header :=
  let lo := sat_add 64 checkpoint_floor 1 in
  let hi := Z.min (nd_commit_max n) (nd_op n) in
  omap (fun op =>
          entry ← bt_get op (nd_log n);
          Some (from_parts op (nd_view n) (l_client entry) (l_request entry) (body_checksum (l_body entry))))
    (seqZ lo (hi - lo + 1)).

Definition expect {E A} (r : result E A) : option A :=
  match r with Ok a => Some a | Err _ => None end.

Definition durable_root (k : Keeper) (effective : VsrState) (view log_view : View) (commit checkpoint_op : OpNumber)
    (checkpoint_id : Z) (headers : list Header) : option VsrState :=
  let '(epoch, prev_epoch, membership, lineage, install_op) :=
    match v_membership effective with
    | Some ahead =>
        if m_epoch (k_membership k) <? m_epoch ahead
        then (v_epoch effective, v_prev_epoch effective, ahead, v_prior_config_ids effective, v_config_install_op effective)
        else (m_epoch (k_membership k), ch_prev_epoch (k_config k), k_membership k, ch_lineage (k_config k), ch_install_op (k_config k))
    | None => (m_epoch (k_membership k), ch_prev_epoch (k_config k), k_membership k, ch_lineage (k_config k), ch_install_op (k_config k))
    end in
  s ← expect (let? s := try_new_v4 view log_view commit checkpoint_op checkpoint_id headers epoch prev_epoch membership lineage install_op in
              with_log_floor s (Z.max (k_log_floor k) checkpoint_op));
  Some (with_wal_geometry s (c_checkpoint_ops (nd_config (k_node k))) (k_wal_capacity k)).

Definition durable_root_with_successor (k : Keeper) (view log_view : View) (commit checkpoint_op : OpNumber)
    (checkpoint_id : Z) (headers : list Header) (successor : Membership) (successor_prev_config_id : option Z)
    (successor_install_op : OpNumber) : option VsrState :=
  let own_prior := m_config_id (k_membership k) in
  let ring := ch_lineage (k_config k) in
  let prior_config_ids :=
    match successor_prev_config_id with
    | Some verified_prev =>
        if negb (verified_prev =? own_prior) then lineage_after_crossing_push ring own_prior verified_prev
        else push_lineage ring own_prior
    | None => push_lineage ring own_prior
    end in
  let prev_epoch := Z.max 0 (m_epoch successor - 1) in
  s ← expect (let? s := try_new_v4 view log_view commit checkpoint_op checkpoint_id headers (m_epoch successor) prev_epoch successor
                          prior_config_ids successor_install_op in
              with_log_floor s (Z.max (k_log_floor k) checkpoint_op));
  Some (with_wal_geometry s (c_checkpoint_ops (nd_config (k_node k))) (k_wal_capacity k)).

(** ** Durable-view roots *)

Definition submit_durable_view (k : Keeper) (m : Medium) (action : PendingSbAction) : option (Keeper * Medium) :=
  let effective := effective_root m in
  let cp := v_checkpoint_op effective in
  let commit := Z.max (nd_commit_max (k_node k)) cp in
  state ← durable_root k effective (k_view k) (k_log_view k) commit cp (v_checkpoint_id effective)
            (committed_band_headers (k_node k) cp);
  '(id, k) ← mint k;
  m ← submit_root m DurableView id state;
  Some (with_owed k (set_sb (k_owed k) (Some (id, action))), m).

Definition is_some {A} (o : option A) : bool := match o with Some _ => true | None => false end.

Definition has_inflight_storage (k : Keeper) (m : Medium) : bool :=
  has_inflight m || negb (bool_decide (ap_pending (k_appends k) = ∅)) || negb (bool_decide (ap_appending (k_appends k) = ∅))
  || match ap_deferred (k_appends k) with [] => false | _ => true end || is_some (k_pending_sb k) || is_some (k_pending_checkpoint k)
  || is_some (k_pending_install k) || match o_serving (k_owed k) with [] => false | _ => true end.

Definition seal_committed_frontier (k : Keeper) (m : Medium) : option (bool * Keeper * Medium) :=
  if is_normal (k_status k) && negb (has_inflight_storage k m)
  then '(k, m) ← submit_durable_view k m Seal; Some (true, k, m)
  else Some (false, k, m).

(** ** The epoch swap *)

Definition submit_swap_epoch (k : Keeper) (m : Medium) (reconfigure_op : OpNumber) (successor : Membership)
    : option (Keeper * Medium) :=
  let '(cp, cpid) := effective_checkpoint_pair m in
  let prior_config_ids := push_lineage (ch_lineage (k_config k)) (m_config_id (k_membership k)) in
  let commit := Z.max (nd_commit_max (k_node k)) cp in
  s ← expect (let? s := try_new_v4 (k_view k) (k_log_view k) commit cp cpid (committed_band_headers (k_node k) cp)
                          (m_epoch successor) (m_epoch (k_membership k)) successor prior_config_ids reconfigure_op in
              with_log_floor s (k_log_floor k));
  let state := with_wal_geometry s (c_checkpoint_ops (nd_config (k_node k))) (k_wal_capacity k) in
  '(id, k) ← mint k;
  m ← submit_root m DurableView id state;
  Some (with_owed k (set_sb (k_owed k) (Some (id, SwapEpoch reconfigure_op successor))), m).

(** A staged successor that no longer chains on the membership, or that the timeline
    has passed, is dropped. *)
Definition swap_stale (k : Keeper) (m : Medium) (successor : Membership) : bool :=
  let chained := recompute_config_id (m_epoch successor) (m_replica_count successor) (m_learner_count successor)
                   (m_members successor) (m_config_id (k_membership k)) in
  let effective := effective_root m in
  negb (chained =? m_config_id successor)
  || ((m_epoch successor <=? v_epoch effective)
      && match v_membership effective with
         | Some e => negb (m_config_id e =? m_config_id successor)
         | None => true
         end).

Definition settled_view (k : Keeper) : bool := is_normal (k_status k) && (k_log_view k =? k_view k).

Definition maybe_swap_epoch (k : Keeper) (m : Medium) : option (Keeper * Medium) :=
  match nd_pending_swap (k_node k) with
  | None => Some (k, m)
  | Some (op, successor) =>
      if swap_stale k m successor then Some (with_knode k (node_swap (k_node k) None), m)
      else if negb (settled_view k) then Some (k, m)
      else if is_some (k_pending_sb k) || is_some (k_pending_checkpoint k) then Some (k, m)
      else submit_swap_epoch k m op successor
  end.

Definition stage_swap (k : Keeper) (m : Medium) (op : OpNumber) (successor : Membership) : option (Keeper * Medium) :=
  match nd_pending_swap (k_node k) with
  | Some _ => Some (k, m)
  | None => maybe_swap_epoch (with_knode k (node_swap (k_node k) (Some (op, successor)))) m
  end.

(** ** The checkpoint sequence *)

Definition force_checkpoint (k : Keeper) (m : Medium) : option (Keeper * Medium) :=
  if materialize_owed (lane m) || (0 <? Z.of_nat (checkpoints_in_flight m))
     || (nd_commit_min (k_node k) <? (effective_checkpoint_pair m).1)
  then Some (k, m)
  else
    let n := k_node k in
    let target_op := nd_commit_min n in
    '(job, k, m) ← issue_block_job k m (JobMaterialize (checkpoint_image (nd_sm n)) (committed_session_projection (nd_clients n)));
    Some (with_owed k (set_pc (k_owed k) (Some (mkPendingCheckpoint target_op (FlushingBlocks job) Ordinary))), m).

Definition maybe_checkpoint (k : Keeper) (m : Medium) : option (Keeper * Medium) :=
  if negb (settled_view k) || is_some (k_pending_sb k) || is_some (k_pending_checkpoint k)
     || sm_reconstruct_owed k || is_some (k_pending_install k)
  then Some (k, m)
  else if nd_commit_min (k_node k) <? k_checkpoint_op k + c_checkpoint_ops (nd_config (k_node k)) then Some (k, m)
  else force_checkpoint k m.

(** The pending checkpoint, if the completion of [job] is the one it waits for. *)
Definition flushing (k : Keeper) (job : JobId) : option PendingCheckpoint :=
  pc ← k_pending_checkpoint k;
  match pc_step pc with
  | FlushingBlocks j => if bool_decide (j = job) then Some pc else None
  | _ => None
  end.

Definition await_snapshot (k : Keeper) (m : Medium) (pc : PendingCheckpoint) (dag : CheckpointDag) (envelope : list byte)
    : option (bool * Keeper * Medium) :=
  '(id, k) ← mint k;
  let '(verdict, m) := submit_checkpoint m id (pc_target_op pc) envelope in
  match verdict with
  | EnvelopeFenced => Some (false, with_owed k (set_pc (k_owed k) None), m)
  | EnvelopeSubmitted =>
      Some (true, with_owed k (set_pc (k_owed k) (Some (mkPendingCheckpoint (pc_target_op pc) (AwaitSnapshot id dag) (pc_kind pc)))), m)
  end.

Definition on_checkpoint_materialized (k : Keeper) (m : Medium) (job : JobId) (sm_root sessions_root : BlockAddress) (flush : bool)
    : option (Keeper * Medium) :=
  match flushing k job with
  | None => Some (with_owed k (count_superseded (k_owed k)), m)
  | Some pc =>
      if negb flush then Some (with_owed k (set_pc (k_owed k) None), m)
      else
        let envelope := encode_checkpoint (pc_target_op pc) sm_root sessions_root in
        let dag := mkDag (checkpoint_id envelope) sm_root sessions_root in
        '(_, k, m) ← await_snapshot k m pc dag envelope;
        Some (k, m)
  end.

(** The deadlines it arms are left out; the flag is whether the envelope went out, on
    which a recovering endpoint retires its read phase ([retire_recover_for_staged_sync]). *)
Definition on_checkpoint_blocks_flushed (k : Keeper) (m : Medium) (job : JobId) (flush : bool)
    : option (bool * Keeper * Medium) :=
  match flushing k job with
  | None => Some (false, with_owed k (count_superseded (k_owed k)), m)
  | Some pc =>
      match k_pending_install k with
      | None => Some (false, with_owed k (count_superseded (set_pc (k_owed k) None)), m)
      | Some install =>
          if negb flush then Some (false, with_owed k (set_pc (k_owed k) None), m)
          else
            let c := pi_checkpoint install in
            let dag := mkDag (sc_checkpoint_id c) (pi_sm_root install) (pi_sessions_root install) in
            await_snapshot k m pc dag (sc_snapshot c)
      end
  end.

(** ** Garbage collection *)

Definition k_prune_floor (k : Keeper) : OpNumber := Z.min (k_checkpoint_op k) (f_quorum_checkpoint (k_frontier k)).
Definition k_is_primary (k : Keeper) : bool := node_is_primary (k_node k).

(** [assert_committed_survives] where a recovery's faulty slots count as tracked too. *)
Definition committed_survives (k : Keeper) (op checkpoint_floor : OpNumber) : bool :=
  assert_committed_survives (k_node k) op checkpoint_floor
  || match k_recover k with Some r => bool_decide (op ∈ rc_faulty r) | None => false end.

Definition trim_log_to_checkpoint (k : Keeper) (floor checkpoint_floor : OpNumber) : option Keeper :=
  if committed_survives k floor checkpoint_floor
  then Some (with_knode k (set_log (k_node k) (List.filter (fun e => floor <? e.1) (nd_log (k_node k))) (nd_inflight (k_node k)) (nd_repair (k_node k))))
  else None.

(** The parked appends at or below the floor are dropped; their operation stops being
    owed unless a submitted write of it is pending. *)
Definition drop_subsumed (a : Appender) (floor : OpNumber) : Appender :=
  fold_left
    (fun a op =>
       let a := set_deferred a (List.filter (fun e => negb (e.1 =? op)) (ap_deferred a)) in
       if bool_decide (map_Exists (fun _ p => pending_op p = op) (ap_pending a)) then a
       else set_appending a (ap_appending a ∖ {[op]}))
    (map fst (List.filter (fun e => e.1 <=? floor) (ap_deferred a))) a.

Definition gc_floor (k : Keeper) : OpNumber := if k_is_primary k then k_prune_floor k else k_checkpoint_op k.

Definition run_gc (k : Keeper) (m : Medium) : option (Keeper * Medium) :=
  let floor := gc_floor k in
  if floor =? 0 then Some (k, m)
  else
    '(cancelled, m) ← prune m (floor + 1);
    let f := k_frontier k in
    let k := with_frontier k (mkFrontier (f_checkpoint_op f) (f_log_floor f) (f_inherited f) (f_orphan f) (f_sm_root f) (f_sessions_root f)
                                (f_peer_checkpoint f) (f_quorum_checkpoint f) (Z.max (f_wal_pruned f) floor)) in
    '(a, m) ← absorb_wal_cancellations (drop_subsumed (k_appends k) floor) m cancelled;
    let k := with_owned_appends k a in
    k ← trim_log_to_checkpoint k floor (k_checkpoint_op k);
    let n := k_node k in
    let n := set_log n (nd_log n) (List.filter (fun e => floor <? e.1) (nd_inflight n)) (nd_repair n) in
    let k := with_knode k n in
    Some (with_tables k (k_appends k) (List.filter (fun e => floor <? e.1) (k_buffer k)) (k_nack_from k), m).

(** The roots a sweep keeps, of either graph. *)
Definition gc_roots (k : Keeper) : list BlockAddress * list BlockAddress :=
  let f := k_frontier k in let o := k_owed k in
  (option_list (f_sm_root f) ++ option_list (fst <$> o_fetch o) ++ option_list (pi_sm_root <$> o_install o),
   option_list (f_sessions_root f) ++ option_list (snd <$> o_fetch o) ++ option_list (pi_sessions_root <$> o_install o)).

Definition gc_blocks (k : Keeper) (m : Medium) : option (Keeper * Medium) :=
  let '(sm_roots, session_roots) := gc_roots k in
  match sm_roots, session_roots with
  | [], [] => Some (k, m)
  | _, _ => '(_, k, m) ← issue_block_job k m (JobGc sm_roots session_roots); Some (k, m)
  end.

(** ** Installing a configuration *)

Definition swap_membership_in_place (k : Keeper) (successor : Membership) : option (bool * Keeper) :=
  let was_primary := k_is_primary k in
  let p := k_posture k in
  let collection :=
    match p_view_change p with
    | Some vc => if vc_dvc_quorum vc then Some vc else Some (mkCollection [] (vc_dvc_quorum vc) (vc_catching_up vc) (vc_catchup_windows vc))
    | None => None
    end in
  let '(inflight, svc_from) := rekey_slot_quorums_for_swap (k_membership k) (nd_inflight (k_node k)) (p_svc_from p) successor in
  let k := with_posture k (mkPosture (p_status p) (p_log_view p) (p_durable_view p) collection (p_svc_target p) svc_from (p_pending_forfeit p)) in
  let k := with_tables k (k_appends k) (k_buffer k) ∅ in
  let k := with_knode k (node_membership (k_node k) successor inflight) in
  k ← recompute_quorum_checkpoint k;
  let still_voter := endpoint_is_voter (k_membership k) (k_local k) in
  let forfeit (k : Keeper) :=
    let p := k_posture k in
    with_posture k (mkPosture (p_status p) (p_log_view p) (p_durable_view p) (p_view_change p) (p_svc_target p) (p_svc_from p) false) in
  if negb still_voter then
    let k := if was_primary then forfeit k else k in
    match local_slot_opt (k_membership k) (k_local k) with
    | None =>
        let k := with_owned_appends k (abandon_appends (k_appends k)) in
        let k := with_knode k (set_log (k_node k) (nd_log (k_node k)) [] (nd_repair (k_node k))) in
        Some (still_voter, set_status k Retired)
    | Some _ => Some (still_voter, k)
    end
  else if is_normal (k_status k) && negb (Bool.eqb was_primary (k_is_primary k)) then Some (still_voter, forfeit k)
  else Some (still_voter, k).

Definition k_is_learner (k : Keeper) : bool := endpoint_is_learner (k_membership k) (k_local k).

Definition install_membership (k : Keeper) (reconfigure_op : option OpNumber) (successor : Membership) : option Keeper :=
  if m_config_id successor =? m_config_id (k_membership k) then Some k
  else if m_epoch successor <=? m_epoch (k_membership k) then Some k
  else if is_some reconfigure_op && is_some (first_new_voter (k_membership k) (m_replica_count successor) (m_members successor)) then None
  else
    let prior := m_config_id (k_membership k) in
    let c := k_config k in
    let k := with_config k (mkConfigHistory (m_epoch (k_membership k)) (ch_lineage c) (ch_install_op c)) in
    '(still_voter, k) ← swap_membership_in_place k successor;
    let c := k_config k in
    let k := with_config k (mkConfigHistory (ch_prev_epoch c) (push_lineage (ch_lineage c) prior)
                              (match reconfigure_op with Some op => op | None => ch_install_op c end)) in
    Some (match reconfigure_op with
          | Some op => push_event k (MembershipChanged op (m_epoch successor) (m_config_id successor) still_voter (k_is_learner k))
          | None => k
          end).

(** [lineage] padded with the current id: [zip] stops at the shorter side. *)
Definition padded_lineage (config_id : Z) (prior : list Z) : list Z :=
  take LINEAGE_RING prior ++ replicate (LINEAGE_RING - length prior) config_id.

Definition adopt_landed_configuration (k : Keeper) (state : VsrState) : option Keeper :=
  match v_membership state with
  | None => Some k
  | Some successor =>
      if m_epoch successor <=? m_epoch (k_membership k) then Some k
      else
        let completed :=
          match nd_pending_swap (k_node k) with
          | Some (op, s) => if m_config_id s =? m_config_id successor then Some op else None
          | None => None
          end in
        '(still_voter, k) ← swap_membership_in_place k successor;
        let k := with_config k (mkConfigHistory (v_prev_epoch state)
                                  (padded_lineage (m_config_id (k_membership k)) (v_prior_config_ids state)) (v_config_install_op state)) in
        let k := with_owed k (drop_intent (k_owed k)) in
        let '(op, k) :=
          match completed with
          | Some op => (op, with_knode k (node_swap (k_node k) None))
          | None => (ch_install_op (k_config k), k)
          end in
        Some (push_event k (MembershipChanged op (m_epoch successor) (m_config_id successor) still_voter (k_is_learner k)))
  end.

(** ** View transitions *)

Definition node_generation (n : Node) (clients : gmap Z Session) (inflight : btree Inflight) : Node :=
  mkNode (nd_config n) (nd_membership n) (nd_view n) (nd_op n) (nd_commit_min n) (nd_commit_max n) (nd_log n) inflight (nd_appending n)
    (nd_repair n) clients (nd_sessions_evicted n) (nd_pending_swap n) (nd_sm n) (nd_sm_at n) (nd_out n).

Definition drop_peer_checkpoints (f : Frontier) : Frontier :=
  mkFrontier (f_checkpoint_op f) (f_log_floor f) (f_inherited f) (f_orphan f) (f_sm_root f) (f_sessions_root f) ∅ (f_quorum_checkpoint f) (f_wal_pruned f).

(** The pending checkpoint a transition drops: a sync re-persist at any step, an
    ordinary checkpoint still waiting for its blocks. *)
Definition dropped_by_transition (pc : PendingCheckpoint) : bool :=
  match pc_kind pc, pc_step pc with SyncRepersist, _ => true | Ordinary, FlushingBlocks _ => true | Ordinary, _ => false end.

Definition drop_checkpoint_for_transition (k : Keeper) (m : Medium) : Keeper * Medium :=
  match k_pending_checkpoint k with
  | Some pc =>
      if dropped_by_transition pc then
        let o := set_pc (k_owed k) None in
        match pc_step pc with
        | AwaitRoot abandoned _ => (with_owed k (count_disowned o), abandon_root m CheckpointRoot abandoned)
        | _ => (with_owed k o, m)
        end
      else (k, m)
  | None => (k, m)
  end.

Definition reset_for_view_transition (k : Keeper) (m : Medium) (now : Z) : option (Keeper * Medium) :=
  let p := k_posture k in
  let k := with_posture k (mkPosture (p_status p) (p_log_view p) (p_durable_view p) (p_view_change p) (p_svc_target p) 0 false) in
  let k := with_owned_appends k (abandon_appends (k_appends k)) in
  let k := with_frontier k (drop_peer_checkpoints (k_frontier k)) in
  k ← recompute_quorum_checkpoint k;
  let k := with_knode k (node_generation (k_node k) (filter (fun s => 0 < ss_last_op s.2) (nd_clients (k_node k))) (nd_inflight (k_node k))) in
  let '(k, m) := drop_checkpoint_for_transition k m in
  let o := set_install (k_owed k) None in
  let o := if negb (sm_reconstruct_owed k) then drop_sync o
           else if is_normal (k_status k) then set_syncer o (set_solicit (o_syncer o) (Some (Time.instant_add now SYNC_SOLICIT))) (o_fetch o)
           else o in
  Some (with_tables (with_owed k o) (k_appends k) (k_buffer k) ∅, m).

Definition set_collection (k : Keeper) (c : option ViewChangeCollection) : Keeper :=
  let p := k_posture k in
  with_posture k (mkPosture (p_status p) (p_log_view p) (p_durable_view p) c (p_svc_target p) (p_svc_from p) (p_pending_forfeit p)).
Definition set_svc_target (k : Keeper) (v : View) : Keeper :=
  let p := k_posture k in
  with_posture k (mkPosture (p_status p) (p_log_view p) (p_durable_view p) (p_view_change p) v (p_svc_from p) (p_pending_forfeit p)).
Definition set_log_view (k : Keeper) (v : View) : Keeper :=
  let p := k_posture k in
  with_posture k (mkPosture (p_status p) v (p_durable_view p) (p_view_change p) (p_svc_target p) (p_svc_from p) (p_pending_forfeit p)).
Definition set_durable_view (k : Keeper) (v : View) : Keeper :=
  let p := k_posture k in
  with_posture k (mkPosture (p_status p) (p_log_view p) v (p_view_change p) (p_svc_target p) (p_svc_from p) (p_pending_forfeit p)).
Definition set_view (k : Keeper) (v : View) : Keeper := with_knode k (node_view (k_node k) v).

(** The pipeline and the reorder buffer. *)
Definition drop_pipeline (k : Keeper) : Keeper :=
  let k := with_knode k (node_generation (k_node k) (nd_clients (k_node k)) []) in
  with_tables k (k_appends k) [] (k_nack_from k).

Definition abandon_pending_sb (k : Keeper) (m : Medium) : Keeper * Medium :=
  match k_pending_sb k with
  | Some (abandoned, _) => (with_owed k (set_sb (k_owed k) None), abandon_root m DurableView abandoned)
  | None => (k, m)
  end.

Definition enter_view_change (k : Keeper) (m : Medium) (now : Z) (view_new : View) : option (Keeper * Medium) :=
  let k := set_svc_target (set_status (set_view k view_new) ViewChange) view_new in
  '(k, m) ← reset_for_view_transition k m now;
  submit_durable_view (drop_pipeline (set_collection k (Some (entering false)))) m SendDoViewChange.

Definition sync_repersist_root_staged (k : Keeper) : bool :=
  match k_pending_checkpoint k with
  | Some pc => match pc_kind pc, pc_step pc with SyncRepersist, AwaitRoot _ _ => true | _, _ => false end
  | None => false
  end.

Definition transition_to_view_change_status (k : Keeper) (m : Medium) (now : Z) (view_new : View) : option (Keeper * Medium) :=
  if sync_repersist_root_staged k then Some (k, m)
  else if k_view k <? view_new then enter_view_change k m now view_new else None.

(** [start_view_as_new_primary] once the selected log is adopted: the view becomes the
    log's, and its root is submitted before anything is sent.  The pipeline and the
    appends of the tail, which come between, leave the root alone. *)
Definition settle_new_primary (k : Keeper) (m : Medium) : option (Keeper * Medium) :=
  let k := set_status (set_log_view k (k_view k)) Normal in
  let k := push_event k (ViewChanged (k_view k) true) in
  let p := k_posture k in
  let k := with_posture k (mkPosture (p_status p) (p_log_view p) (p_durable_view p) None (p_svc_target p) (p_svc_from p) false) in
  submit_durable_view k m StartViewAsPrimary.

(** Reads of the recovery that are still out. *)
Definition read_fence_open (k : Keeper) : bool :=
  match k_recover k with
  | Some rec => negb (bool_decide (rc_pending rec = []) && bool_decide (rc_reads rec = ∅) && bool_decide (rc_checkpoint_reads rec = ∅))
  | None => false
  end.

(** [adopt_canonical_head] once the announced log is adopted and its commits applied. *)
Definition settle_adopted_head (k : Keeper) (m : Medium) (now : Z) (floor : OpNumber) : option (Keeper * Medium) :=
  let view := k_view k in
  let k := set_status (set_log_view k view) Normal in
  let k := push_event k (ViewChanged view (k_is_primary k)) in
  '(k, m) ← reset_for_view_transition k m now;
  k ← (if 0 <? floor then k_record_peer_checkpoint k (primary (k_membership k) view) floor else Some k);
  let k := set_collection k None in
  if read_fence_open k then None else submit_durable_view (with_recover k None) m AdoptedStartView.

(** The catch-up posture; the [GetView] it sends is left out. *)
Definition enter_catch_up_posture (k : Keeper) (m : Medium) (now : Z) : option (Keeper * Medium) :=
  let k := set_svc_target (set_status k ViewChange) (k_view k) in
  '(k, m) ← reset_for_view_transition k m now;
  Some (abandon_pending_sb (drop_pipeline (set_collection k (Some (entering true)))) m).

Definition catch_up_to_view (k : Keeper) (m : Medium) (now : Z) (view : View) : option (Keeper * Medium) :=
  if sync_repersist_root_staged k then Some (k, m)
  else if sat_add 64 (k_view k) MAX_VIEW_JUMP <? view then Some (k, m)
  else if k_view k <? view then enter_catch_up_posture (set_view k view) m now else None.

Definition catching_up (k : Keeper) : bool :=
  match p_view_change (k_posture k) with Some vc => vc_catching_up vc | None => false end.

Definition revert_catch_up_to_effective_view (k : Keeper) (revert_to : View) : Keeper :=
  let k := set_view k revert_to in
  let p := k_posture k in
  let k := with_posture k (mkPosture (p_status p) (p_log_view p) (p_durable_view p) None (k_view k) 0 (p_pending_forfeit p)) in
  let k := set_status k Normal in
  if k_is_primary k then
    let p := k_posture k in
    with_posture k (mkPosture (p_status p) (p_log_view p) (p_durable_view p) (p_view_change p) (p_svc_target p) (p_svc_from p) true)
  else k.

(** The catch-up arm of [view_change_timeouts]; whether it reverted, otherwise the
    caller proposes the next view. *)
Definition catch_up_timeout (k : Keeper) (m : Medium) : bool * Keeper :=
  match p_view_change (k_posture k) with
  | Some vc =>
      if vc_catching_up vc then
        let revert_to := Z.max (k_durable_view k) (v_view (effective_root m)) in
        let windows := sat_add 8 (vc_catchup_windows vc) 1 in
        let k := set_collection k (Some (mkCollection (vc_dvc_from vc) (vc_dvc_quorum vc) (vc_catching_up vc) windows)) in
        if (CATCH_UP_VALIDATION_WINDOWS <=? windows) && (revert_to <? k_view k)
        then (true, revert_catch_up_to_effective_view k revert_to) else (false, k)
      else (false, k)
  | None => (false, k)
  end.

Definition pending_durable_view (k : Keeper) : bool :=
  match k_pending_sb k with
  | Some (_, SendDoViewChange) | Some (_, StartViewAsPrimary) | Some (_, AdoptedStartView) => true
  | _ => false
  end
  || ((k_durable_view k <? k_view k) && negb (catching_up k)).

(** ** A state-sync install *)

Definition sync_ctx (k : Keeper) : SyncCtx :=
  mkSyncCtx (k_status k) (k_view k) (default 0 (local_slot_opt (k_membership k) (k_local k))) (k_membership k) (nd_op (k_node k))
    (nd_commit_min (k_node k)) (k_checkpoint_op k) (k_log_floor k) (k_wal_capacity k)
    ((fun i => is_some (pi_successor i)) <$> k_pending_install k)
    (match k_recover k with Some r => rc_awaiting_peer_checkpoint r | None => false end) (sm_reconstruct_owed k)
    (match k_recover k with Some r => negb (bool_decide (rc_checkpoint_reads r = ∅)) | None => false end)
    (f_peer_checkpoint (k_frontier k)).

Definition flush_and_stage_install (k : Keeper) (m : Medium) (now : Z) : option (Keeper * Medium) :=
  match k_pending_install k with
  | None => Some (k, m)
  | Some install =>
      if is_some (k_pending_sb k) || is_some (k_pending_checkpoint k) || (0 <? Z.of_nat (checkpoints_in_flight m)) || flush_owed (lane m)
      then Some (k, m)
      else
        '(job, k, m) ← issue_block_job k m (JobFlush (pi_sm_root install) (pi_sessions_root install));
        let o := set_pc (k_owed k) (Some (mkPendingCheckpoint (pi_checkpoint_op install) (FlushingBlocks job) SyncRepersist)) in
        Some (with_owed k (set_syncer o (set_solicit (set_fetch (o_syncer o) None) (Some (Time.instant_add now SYNC_SOLICIT))) None), m)
  end.

(** The configuration a checkpoint from another epoch carries: none, one to cross
    into, or a reply to refuse ([None]). *)
Definition crossing_successor (k : Keeper) (m : Medium) (c : SyncCheckpoint) : option (option (Membership * Z * OpNumber)) :=
  if (sc_config_id c =? m_config_id (k_membership k)) || match sc_membership c with [] => true | _ => false end then Some None
  else
    payload ← expect (decode_body (sc_membership c));
    successor ← expect (to_membership_verified payload (sc_epoch c) (sc_config_id c));
    if m_epoch successor <=? m_epoch (k_membership k) then None
    else
      let effective := effective_root m in
      let below_timeline :=
        (m_epoch successor <? v_epoch effective)
        || ((m_epoch successor =? v_epoch effective)
            && match v_membership effective with Some e => negb (m_config_id e =? m_config_id successor) | None => false end) in
      if below_timeline then None
      else
        install_op ← sc_config_install_op c;
        if (sc_checkpoint_op c <? install_op)
           || match v_membership effective with Some _ => install_op <? v_config_install_op effective | None => false end
        then None
        else Some (Some (successor, p_prev_config_id payload, install_op)).

Definition apply_sync (k : Keeper) (m : Medium) (now : Z) (donor : Peer) (c : SyncCheckpoint) : option (Keeper * Medium) :=
  let checkpoint_op := sc_checkpoint_op c in
  let sync := sy_sync (o_syncer (k_owed k)) in
  let crossing := match sync with Some t => st_require_cross_epoch t | None => false end in
  let forced := match sync with Some t => st_forced t | None => false end in
  if forced && (checkpoint_op <? nd_commit_min (k_node k)) then
    Some (if crossing then k else with_owed k (drop_sync (set_install (k_owed k) None)), m)
  else if negb forced && (checkpoint_op <=? nd_op (k_node k)) then None
  else if checkpoint_op <? v_checkpoint_op (effective_root m) then Some (k, m)
  else
    match decode_checkpoint (sc_snapshot c), crossing_successor k m c with
    | Some (bound_op, sm_root, sessions_root), Some successor =>
        if negb (bound_op =? checkpoint_op) then Some (k, m)
        else if crossing && negb (is_some successor) then Some (k, m)
        else
          let held_tail := (checkpoint_op <? nd_op (k_node k)) && negb (is_some successor) in
          let install := mkPendingInstall checkpoint_op sessions_root sm_root held_tail
                           ((fun s => s.1.1) <$> successor) ((fun s => s.1.2) <$> successor) ((fun s => s.2) <$> successor) c donor in
          flush_and_stage_install (with_owed k (set_install (k_owed k) (Some install))) m now
    | _, _ => Some (k, m)
    end.

Definition issue_sm_restore (k : Keeper) (m : Medium) : option (Keeper * Medium) :=
  match o_reconstruct (k_owed k) with
  | None => Some (k, m)
  | Some r =>
      if is_some (sr_restore r) || restore_owed (lane m) then Some (k, m)
      else
        '(job, k, m) ← issue_block_job k m (JobRestore (sr_sm_root r) (sr_sessions_root r) (restore_seed (nd_sm (k_node k))) SyncedCheckpoint);
        Some (with_owed k (set_reconstruct (k_owed k)
                (Some (mkSmReconstruct (sr_checkpoint_op r) (sr_sm_root r) (sr_sessions_root r) (sr_checkpoint r) (sr_donor r) (Some job)))), m)
  end.

(** The configuration half of an install that crosses into [successor]. *)
Definition install_crossing (k : Keeper) (m : Medium) (successor : Membership) (prev_config_id : option Z) (install_op : option OpNumber)
    : option (Keeper * Medium) :=
  let o := k_owed k in
  let k := with_owed k (set_syncer o (drop_crossing_intent (o_syncer o)) (o_fetch o)) in
  k ← (if m_epoch (k_membership k) <? m_epoch successor then
         let own_prior := m_config_id (k_membership k) in
         k ← install_membership k None successor;
         let c := k_config k in
         let ring := match prev_config_id with
                     | Some prev => if negb (prev =? own_prior) then push_lineage (ch_lineage c) prev else ch_lineage c
                     | None => ch_lineage c
                     end in
         op ← install_op;
         Some (with_config k (mkConfigHistory (Z.max 0 (m_epoch (k_membership k) - 1)) ring op))
       else Some k);
  let k := with_knode k (node_swap (k_node k) None) in
  match k_pending_sb k with
  | Some (_, SwapEpoch _ _) => Some (abandon_pending_sb k m)
  | _ => Some (k, m)
  end.

Definition install_sync (k : Keeper) (m : Medium) (i : PendingInstall) : option (Keeper * Medium) :=
  let n := k_node k in
  let cp := pi_checkpoint_op i in
  if nd_commit_min n <=? cp then
    let n := node_frontier n (nd_op n) cp (Z.max (nd_commit_max n) cp) in
    let n := if pi_held_tail i then n else node_frontier n cp cp cp in
    let k := with_knode k n in
    '(k, m) ← match pi_successor i with
              | Some successor => install_crossing k m successor (pi_successor_prev_config_id i) (pi_successor_install_op i)
              | None => Some (k, m)
              end;
    k ← advance_checkpoint_op k cp;
    k ← trim_log_to_checkpoint k cp (k_checkpoint_op k);
    let k := drop_pipeline k in
    let k := with_knode k (set_log (k_node k) (nd_log (k_node k)) (nd_inflight (k_node k)) (filter (fun op => cp < op) (nd_repair (k_node k)))) in
    let k := with_owned_appends k (abandon_appends (k_appends k)) in
    let r := mkSmReconstruct cp (pi_sm_root i) (pi_sessions_root i) (pi_checkpoint i) (pi_donor i) None in
    issue_sm_restore (with_owed k (set_reconstruct (k_owed k) (Some r))) m
  else None.

(** ** Orphaned re-persists *)

Definition submit_recover_checkpoint_read (k : Keeper) (m : Medium) : option (Keeper * Medium) :=
  '(id, k) ← mint k;
  let m := submit_checkpoint_read m id in
  let r := (fun r => mkRecover (rc_pending r) (rc_reads r) (rc_faulty r) (rc_absent r) (Some id.2) ({[id.2]} ∪ rc_checkpoint_reads r)
                       (rc_reconstruct r) (rc_probe_deferred r) (rc_formatted r) RECOVER_READ_RETRIES (rc_awaiting_peer_checkpoint r)
                       (rc_canonical r) (rc_reform_attempts r) (rc_peers_recovering r) (rc_peers_recovering_prev r)) <$> k_recover k in
  Some (with_recover k r, m).

Definition enter_orphan_repersist_recovery (k : Keeper) (m : Medium) (now : Z) : option (Keeper * Medium) :=
  '(k, m) ← reset_for_view_transition k m now;
  let o := set_install (k_owed k) None in
  let k := with_owed k (set_syncer o (set_fetch (o_syncer o) None) None) in
  let k := set_collection (drop_pipeline k) None in
  let '(k, m) := abandon_pending_sb k m in
  let k := with_owed k (set_serving (k_owed k) []) in
  let k := with_recover (set_status k Recovering) (Some recover_default) in
  submit_recover_checkpoint_read k m.

Definition retarget_recovery_fetch (k : Keeper) (now : Z) (target : OpNumber) : Keeper :=
  let o := k_owed k in let y := o_syncer o in
  if negb (sx_awaiting_peer_checkpoint (sync_ctx k)) then k
  else
    match sy_sync y with
    | None => k
    | Some t =>
        let satisfied := st_require_cross_epoch t && negb (is_some (sy_cross_epoch_intent y)) in
        if negb satisfied && (target <=? st_target t) then k
        else
          let y := set_sync y (Some (mkSync target (st_nonce t) (st_forced t) (st_require_cross_epoch t && negb satisfied))) in
          let y := if satisfied then set_probe y None None 0 else y in
          let y := drop_transfer_below_forced_target y in
          let f := if is_some (sy_block_fetch y) then o_fetch o else None in
          with_owed k (set_syncer o (send_request_sync (sync_ctx k) y now) f)
    end.

(** Whether the teardown ran: [CommitFlow::EnteredRecovery]. *)
Definition maybe_enter_orphan_repersist_recovery (k : Keeper) (m : Medium) (now : Z) : option (bool * Keeper * Medium) :=
  match repersist_orphan_owed k with
  | (None, k) => Some (false, k, m)
  | (Some target, k) =>
      if recovering k || retired k then Some (false, retarget_recovery_fetch k now target, m)
      else if pending_durable_view k || own_advance k then Some (false, k, m)
      else '(k, m) ← enter_orphan_repersist_recovery k m now; Some (true, k, m)
  end.

(** ** A superblock completion *)

Inductive SbRoute : Type :=
| RouteForeign
| RouteRecover (done : SuperblockDone)
| RouteServe (op : OpNumber) (snapshot : list byte)
| RouteServeFault
| RouteSendDoViewChange
| RouteStartViewParticipate
| RouteStartViewAcks
| RouteRetryTail
| RouteInstalled
| RouteCompleteStateSync
| RouteSettled.

Definition correlated (k : Keeper) (id : WriteId) : bool :=
  match k_pending_sb k with Some (pid, _) => bool_decide (pid = id) | None => false end
  || bool_decide ((pc ← k_pending_checkpoint k; step_write_id (pc_step pc)) = Some id).

(** What a landing no live correlation names teaches the endpoint. *)
Definition absorb_uncorrelated (k : Keeper) (m : Medium) (now : Z) (role : RootRole) (id : WriteId) (state : VsrState)
    : option (Keeper * Medium) :=
  let commit_proven := bool_decide (role = CheckpointRoot) || negb (id.1 =? ap_incarnation (k_appends k)) in
  let n := k_node k in
  let k := if commit_proven && negb (recovering k)
           then with_knode k (set_commit_max n (Z.max (nd_commit_max n) (v_commit state))) else k in
  let cp := v_checkpoint_op state in
  if k_checkpoint_op k <? cp then
    let f := k_frontier k in
    let orphan := if bool_decide (role = CheckpointRoot) && (nd_commit_min (k_node k) <? cp)
                  then Some (match f_orphan f with Some o => Z.max o cp | None => cp end) else f_orphan f in
    let k := with_frontier k (mkFrontier (f_checkpoint_op f) (f_log_floor f) (Some (match f_inherited f with Some i => Z.max i cp | None => cp end))
                                orphan (f_sm_root f) (f_sessions_root f) (f_peer_checkpoint f) (f_quorum_checkpoint f) (f_wal_pruned f)) in
    k ← maybe_adopt_inherited_frontier k;
    '(_, k, m) ← maybe_enter_orphan_repersist_recovery k m now;
    Some (k, m)
  else Some (k, m).

Definition absorb_landing (k : Keeper) (m : Medium) (now : Z) (landed : option (RootRole * WriteId * VsrState)) : option (Keeper * Medium) :=
  match landed with
  | None => Some (k, m)
  | Some (role, id, state) =>
      let k := set_durable_view k (Z.max (k_durable_view k) (v_view state)) in
      k ← adopt_landed_configuration k state;
      if correlated k id then Some (k, m) else absorb_uncorrelated k m now role id state
  end.

(** The landed durable-view root's action. *)
Definition dispatch_view_root (k : Keeper) (m : Medium) (action : PendingSbAction) : option (SbRoute * Keeper * Medium) :=
  let k := set_durable_view (with_owed k (set_sb (k_owed k) None)) (k_view k) in
  match action with
  | SendDoViewChange => Some (RouteSendDoViewChange, k, m)
  | StartViewAsPrimary => Some (RouteStartViewParticipate, k, m)
  | AdoptedStartView => Some (RouteStartViewAcks, k, m)
  | Seal => Some (RouteSettled, k, m)
  | SwapEpoch op successor =>
      k ← install_membership (with_knode k (node_swap (k_node k) None)) (Some op) successor;
      let k := with_owed k (drop_intent (k_owed k)) in
      if is_normal (k_status k) && negb (sm_reconstruct_owed k) && negb (is_some (k_pending_install k))
      then '(k, m) ← force_checkpoint k m; Some (RouteSettled, k, m)
      else Some (RouteSettled, k, m)
  end.

(** The checkpoint's envelope is durable: its root. *)
Definition submit_checkpoint_root (k : Keeper) (m : Medium) (pc : PendingCheckpoint) (dag : CheckpointDag) : option (Keeper * Medium) :=
  '(root_id, k) ← mint k;
  let target := pc_target_op pc in
  let root_commit := Z.max (nd_commit_max (k_node k)) target in
  let headers := committed_band_headers (k_node k) target in
  let effective := effective_root m in
  let ordinary := durable_root k effective (k_view k) (k_log_view k) root_commit target (dag_checkpoint_id dag) headers in
  let successor :=
    match pc_kind pc with
    | SyncRepersist => i ← k_pending_install k; s ← pi_successor i; Some (s, pi_successor_prev_config_id i, pi_successor_install_op i)
    | Ordinary => None
    end in
  state ← match successor with
          | Some (s, prev, install_op) =>
              if v_epoch effective <? m_epoch s
              then op ← install_op; durable_root_with_successor k (k_view k) (k_log_view k) root_commit target (dag_checkpoint_id dag) headers s prev op
              else ordinary
          | None => ordinary
          end;
  m ← submit_root m CheckpointRoot root_id state;
  Some (with_owed k (set_pc (k_owed k) (Some (mkPendingCheckpoint target (AwaitRoot root_id dag) (pc_kind pc)))), m).

(** The checkpoint's root is durable. *)
Definition checkpoint_root_landed (k : Keeper) (m : Medium) (pc : PendingCheckpoint) (dag : CheckpointDag)
    : option (SbRoute * Keeper * Medium) :=
  let k := with_owed k (set_pc (k_owed k) None) in
  let k := with_frontier k (set_dag_roots (k_frontier k) (Some (dag_sm_root dag)) (Some (dag_sessions_root dag))) in
  match pc_kind pc with
  | SyncRepersist =>
      match k_pending_install k with
      | Some install =>
          '(k, m) ← install_sync (with_owed k (set_install (k_owed k) None)) m install;
          Some (RouteInstalled, k, m)
      | None => Some (RouteCompleteStateSync, k, m)
      end
  | Ordinary =>
      k ← advance_checkpoint_op k (pc_target_op pc);
      '(k, m) ← run_gc (push_event k (CheckpointDurable (pc_target_op pc))) m;
      '(k, m) ← gc_blocks k m;
      Some (RouteRetryTail, k, m)
  end.

Definition on_wrote (k : Keeper) (m : Medium) (id : WriteId) : option (SbRoute * Keeper * Medium) :=
  let view_root := match k_pending_sb k with Some (pid, a) => if bool_decide (pid = id) then Some a else None | None => None end in
  match view_root with
  | Some action => dispatch_view_root k m action
  | None =>
      match k_pending_checkpoint k with
      | Some pc =>
          match pc_step pc with
          | AwaitSnapshot sid dag =>
              if bool_decide (sid = id) then '(k, m) ← submit_checkpoint_root k m pc dag; Some (RouteSettled, k, m)
              else Some (RouteSettled, k, m)
          | AwaitRoot rid dag => if bool_decide (rid = id) then checkpoint_root_landed k m pc dag else Some (RouteSettled, k, m)
          | FlushingBlocks _ => Some (RouteSettled, k, m)
          end
      | None => Some (RouteSettled, k, m)
      end
  end.

Definition sb_done_id (d : SuperblockDone) : WriteId :=
  match d with Wrote id | CheckpointRead id _ _ | SbFault id => id end.

(** [on_sb_done] up to the handler it routes to; [sb_done_tail] is its last statement. *)
Definition on_sb_done (k : Keeper) (m : Medium) (now : Z) (done : SuperblockDone) (landed : option (RootRole * WriteId * VsrState))
    : option (SbRoute * Keeper * Medium) :=
  '(k, m) ← absorb_landing k m now landed;
  let '(foreign, a) := is_foreign_completion (k_appends k) (sb_done_id done) in
  let k := with_kappends k a in
  if foreign then Some (RouteForeign, k, m)
  else
    let staged := pc ← k_pending_checkpoint k; step_write_id (pc_step pc) in
    let staged_write := match done with Wrote id => bool_decide (staged = Some id) | _ => false end in
    if recovering k && negb staged_write then Some (RouteRecover done, k, m)
    else
      match done with
      | Wrote id => on_wrote k m id
      | CheckpointRead _ op snapshot => Some (RouteServe op snapshot, k, m)
      | SbFault id =>
          Some (RouteServeFault,
                with_owed k (set_serving (k_owed k) (List.filter (fun s => negb (s.2.1 =? id.2)) (o_serving (k_owed k)))), m)
      end.

Definition sb_done_tail (r : SbRoute) (k : Keeper) (m : Medium) : option (Keeper * Medium) :=
  match r with
  | RouteForeign | RouteRecover _ | RouteServe _ _ | RouteServeFault | RouteInstalled => Some (k, m)
  | _ => maybe_swap_epoch k m
  end.

(** ** Recovery's baseline *)

Inductive RecoverError : Type :=
| WalCapacityBelowMinimum (capacity minimum : Z)
| GeometryNotRecorded (checkpoint_ops wal_capacity : Z)
| CheckpointOpsChanged (stored configured : Z)
| WalCapacityChanged (stored reported : Z)
| UnformattedVoter.

Inductive Recovered : Type :=
| RecoveredActive (k : Keeper)
| RecoveredRetired (local : MemberId) (epoch : Epoch).

(** [Wal::header], the occupied slots. *)
Context (wal_header : W -> OpNumber -> option Header).

Definition geometry_fence (landed : VsrState) (c : Config) (capacity : Z) : option RecoverError :=
  if capacity <? minimum_wal_capacity c then Some (WalCapacityBelowMinimum capacity (minimum_wal_capacity c))
  else if bool_decide (landed = vsr_new) then None
  else if (v_checkpoint_ops landed =? 0) || (v_wal_capacity landed =? 0) then Some (GeometryNotRecorded (v_checkpoint_ops landed) (v_wal_capacity landed))
  else if negb (v_checkpoint_ops landed =? c_checkpoint_ops c) then Some (CheckpointOpsChanged (v_checkpoint_ops landed) (c_checkpoint_ops c))
  else if negb (v_wal_capacity landed =? capacity) then Some (WalCapacityChanged (v_wal_capacity landed) capacity)
  else None.

(** The highest occupied slot of the ring window above the checkpoint. *)
Definition scan_head (w : W) (c : Config) (checkpoint_op : OpNumber) : OpNumber :=
  let lo := sat_add 64 checkpoint_op 1 in
  let ring_top := sat_add 64 checkpoint_op (effective_wal_capacity (wal_capacity w) (c_checkpoint_ops c)) in
  default checkpoint_op (snd <$> list_find (fun probe => is_Some (wal_header w probe)) (reverse (seqZ lo (ring_top - lo + 1)))).

(** The endpoint [recover_with_reconfig] builds before its read phase; the nonce and the
    sync counters are the syncer [y]'s, and [retired] is [Recovered::Retired]. *)
Definition recover_baseline (c : Config) (membership : Membership) (sm : S) (y : Syncer) (incarnation : Z) (m : Medium)
    : result RecoverError (Recovered * Medium) :=
  let m := collapse_parked_roots m in
  let landed := sb_state (sb m) in
  let effective := effective_root m in
  let capacity := wal_capacity (wal m) in
  match geometry_fence landed c capacity with
  | Some e => Err e
  | None =>
      let virgin := bool_decide (landed = vsr_new) in
      let membership := match v_membership landed with Some durable => durable | None => membership end in
      match slot_of membership (c_local c) with
      | None => Ok (RecoveredRetired (c_local c) (m_epoch membership), m)
      | Some local_slot =>
          let checkpoint_op := v_checkpoint_op landed in
          if virgin && is_voter membership local_slot then Err UnformattedVoter
          else
            let canonical_top := default checkpoint_op (h_op <$> last (v_committed_headers landed)) in
            let op := Z.max (Z.max (scan_head (wal m) c checkpoint_op) canonical_top) checkpoint_op in
            let seed := (quorum membership =? 1) && is_voter membership local_slot in
            let rec := mkRecover [] ∅ ∅ ∅ None ∅ None None (negb (v_checkpoint_ops landed =? 0)) 0 false
                         (map (fun h => (h_op h, (h_client h, h_request h, h_body_checksum h))) (v_committed_headers landed)) 0 0 0 in
            let n := mkNode c membership (v_view effective) op checkpoint_op (v_commit effective) [] [] ∅ ∅ ∅ 0 None sm 0 [] in
            let k := mkKeeper n (new_appender incarnation) [] ∅
                       (mkPosture Recovering (v_log_view effective) (v_view landed) None (v_view effective) 0 false)
                       (mkConfigHistory (v_prev_epoch landed) (padded_lineage (m_config_id membership) (v_prior_config_ids landed))
                          (v_config_install_op landed))
                       (mkFrontier checkpoint_op (Z.min (v_log_floor landed) op) None None None None ∅ (if seed then checkpoint_op else 0) 0)
                       (mkOwed None None None None y None [] 0 0) (Some rec) capacity [] in
            Ok (RecoveredActive k, m)
      end
  end.

End roots.
