(* ===== verification/Life.v ===== *)
(** * The life of a durable root

    [Roots] run over [Medium]: every sequence of the endpoint's operations on the root,
    restarts included, against a superblock that keeps its contract.  The invariant
    [kept] ties the endpoint's view, configuration and checkpoint pointer to the roots
    the medium holds or still owes; from it follow that the session's no-rewind assertions
    and the root constructors' checks never fire, that the checkpoint pointer and the
    durable-view witness never lead the medium, and that garbage collection frees only
    what a durable checkpoint covers. *)

From S2P Require Import Prelude Core Hash Membership Codec Message Messages BTree ViewChange Votes Sessions Normal Storage Lane Blocks SessionBlocks BlockJobs Medium Appends Repair SyncTrigger Roots.

(** ** Building roots *)

Lemma expect_some {E A} (r : result E A) a : expect r = Some a <-> r = Ok a.
Proof. destruct r; cbn; naive_solver. Qed.

Lemma check_band_ok cp commit prev hs :
  StronglySorted (fun a b => h_op a < h_op b) hs -> (forall h, h ∈ hs -> prev < h_op h <= commit) ->
  check_band cp commit prev hs = Ok tt.
Proof.
  revert prev. induction hs as [|h hs IH]; intros prev Hs Hb; [done|]. cbn.
  apply StronglySorted_inv in Hs as [Hs Hall]. destruct (Hb h) as [H1 H2]; [constructor|].
  destruct (Z.leb_spec (h_op h) prev); [lia|]. destruct (Z.ltb_spec commit (h_op h)); [lia|].
  apply IH; [done|]. intros x Hx. rewrite Forall_forall in Hall. specialize (Hall x Hx).
  destruct (Hb x); [by constructor|]. lia.
Qed.

Section band.
Context {S : Type}.

Lemma band_ops (n : @Node S) cp h :
  0 <= cp < umax 64 -> h ∈ committed_band_headers n cp -> cp < h_op h <= nd_commit_max n.
Proof.
  unfold committed_band_headers. intros Hcp Hh. apply list_elem_of_omap in Hh as (op & Hop & Hh).
  destruct (bt_get op (nd_log n)) as [e|]; [|done]. injection Hh as <-. cbn.
  apply elem_of_seqZ in Hop. unfold sat_add in Hop. lia.
Qed.

Lemma omap_sorted {A} (R : A -> A -> Prop) (f : Z -> option A) (l : list Z) :
  (forall x y a b, x < y -> f x = Some a -> f y = Some b -> R a b) ->
  StronglySorted Z.lt l -> StronglySorted R (omap f l).
Proof.
  intros Hf. induction 1 as [|x l Hs IH Hall]; [constructor|]. cbn. destruct (f x) as [a|] eqn:Hx; [|done].
  constructor; [done|]. apply Forall_forall. intros b Hb. apply list_elem_of_omap in Hb as (y & Hy & Hb).
  rewrite Forall_forall in Hall. apply (Hf x y); [by apply Hall|done|done].
Qed.

Lemma seqZ_sorted lo n : StronglySorted Z.lt (seqZ lo n).
Proof.
  destruct (Z.leb_spec 0 n) as [Hn|Hn]; [|rewrite seqZ_nil; [constructor|lia]].
  revert lo. pattern n. apply natlike_ind; [intros; rewrite seqZ_nil; [constructor|lia]| |done].
  intros x Hx IH lo. rewrite seqZ_cons by lia. rewrite Z.pred_succ. constructor; [apply IH|].
  apply Forall_forall. intros y Hy. apply elem_of_seqZ in Hy. lia.
Qed.

Lemma band_sorted (n : @Node S) cp : StronglySorted (fun a b => h_op a < h_op b) (committed_band_headers n cp).
Proof.
  apply omap_sorted; [|apply seqZ_sorted]. intros x y a b Hxy.
  destruct (bt_get x (nd_log n)); [|done]. destruct (bt_get y (nd_log n)); [|done]. by intros [= <-] [= <-].
Qed.

(** The checks of the root constructors, for a band of the own log. *)
Lemma root_built (n : @Node S) view log_view commit cp cpid epoch prev mem ring install floor :
  0 <= cp < umax 64 -> log_view <= view -> nd_commit_max n <= commit -> cp <= commit -> m_epoch mem = epoch -> cp <= floor ->
  exists s, (let? s := try_new_v4 view log_view commit cp cpid (committed_band_headers n cp) epoch prev mem ring install in
             with_log_floor s floor) = Ok s /\
    v_view s = view /\ v_log_view s = log_view /\ v_checkpoint_op s = cp /\ v_epoch s = epoch /\
    v_membership s = Some mem /\ v_config_install_op s = install /\ v_log_floor s = floor.
Proof.
  intros Hcp Hlv Hc Hcc He Hf. unfold try_new_v4, try_new. rewrite He, Z.eqb_refl. cbn [negb].
  destruct (Z.ltb_spec view log_view); [lia|]. destruct (Z.ltb_spec commit cp); [lia|].
  rewrite check_band_ok; [| apply band_sorted | intros h Hh; apply band_ops in Hh; lia].
  cbn. unfold with_log_floor. cbn. destruct (Z.ltb_spec floor cp); [lia|]. eexists. split; [reflexivity|]. done.
Qed.

End band.

(** ** The roots of a medium *)

Section medium_roots.
Context {W B : Type} `{WM : WalModel W} `{SM : SuperblockModel B}.
Context {Sm Image Sessions Walks : Type}.
#[local] Abbreviation Medium := (@Medium W B Sm Image Sessions Walks).

Definition durable (m : Medium) : VsrState := sb_state (sb m).

(** A root the medium holds or is still owed. *)
Definition is_root (m : Medium) (r : VsrState) : Prop :=
  r = durable m \/ exists e, e ∈ timeline m /\ r = re_state e.

Definition live (m : Medium) (id : WriteId) : Prop :=
  id ∈ dom (checkpoints m) \/ exists e, e ∈ timeline m /\ re_id e = id.

Definition rooted (m : Medium) : Prop := exists u, root_inv m u.

(** A write still in flight and known used. *)
Lemma root_inv_live (m : Medium) u u' : root_inv m u -> (forall id, live m id -> id ∈ u') -> root_inv m u'.
Proof.
  intros [Hp Hq] Hu. split; [|done]. destruct Hp. split; try done.
  - intros id Hid. apply Hu. by left.
  - intros e He. split; [apply Hu; right; eauto|by apply rp_ids].
Qed.

Lemma effective_is_root (m : Medium) : is_root m (effective_root m).
Proof. destruct (effective_cases m) as [[_ ->]|(e & He & -> & _)]; [by left|right; eauto]. Qed.

(** Every root precedes the effective one. *)
Lemma root_le_effective (m : Medium) r : rooted m -> is_root m r -> r = effective_root m \/ no_rewind r (effective_root m) = true.
Proof.
  intros [u [Hp _]] Hr. destruct (effective_cases m) as [[Ht He]|(e & He & Hee & Hmax)].
  - destruct Hr as [-> |(e & Hin & _)]; [by left|]. rewrite Ht in Hin. by apply elem_of_nil in Hin.
  - rewrite Hee. destruct Hr as [-> |(e' & Hin & ->)]; [right; by apply (rp_durable _ _ Hp)|].
    destruct (Z.eq_dec (re_stamp e') (re_stamp e)) as [Hs|Hs].
    + left. by rewrite (stamp_inj m u e' e Hp Hin He Hs).
    + right. apply (rp_order _ _ Hp); [done|done|]. specialize (Hmax e' Hin). lia.
Qed.

Lemma durable_le (m : Medium) r : rooted m -> is_root m r -> r = durable m \/ (stamped r /\ no_rewind (durable m) r = true).
Proof.
  intros [u [Hp _]] [-> |(e & He & ->)]; [by left|right].
  split; [by apply (rp_stamped _ _ Hp)|by apply (rp_durable _ _ Hp)].
Qed.

(** The medium moved on without new roots. *)
Record shrinks (m m' : Medium) : Prop := {
  sh_rooted : rooted m';
  sh_timeline e : e ∈ timeline m' -> e ∈ timeline m;
  sh_durable : is_root m (durable m');
  sh_advances : advances (durable m) (durable m');
  sh_checkpoints : dom (checkpoints m') ⊆ dom (checkpoints m);
}.

Lemma sh_root m m' r : shrinks m m' -> is_root m' r -> is_root m r.
Proof. intros Hs [-> |(e & He & ->)]; [apply (sh_durable _ _ Hs)|right; exists e; split; [by apply (sh_timeline _ _ Hs)|done]]. Qed.

Lemma sh_live m m' id : shrinks m m' -> live m' id -> live m id.
Proof.
  intros Hs [Hid|(e & He & Hid)]; [left; by apply (sh_checkpoints _ _ Hs)|right; exists e; split; [by apply (sh_timeline _ _ Hs)|done]].
Qed.

Lemma shrinks_face (m m' : Medium) : rooted m -> roots_face m' = roots_face m -> shrinks m m'.
Proof.
  intros [u Hr] Hf. assert (Hr' : root_inv m' u) by (by eapply root_inv_face).
  injection Hf as Hsb Hfr Hp Hn Hc. split; [by exists u| | | |].
  - intros e. unfold timeline. by rewrite Hfr, Hp.
  - left. unfold durable. by rewrite Hsb.
  - left. unfold durable. by rewrite Hsb.
  - by rewrite Hc.
Qed.

Lemma shrinks_refl m : rooted m -> shrinks m m.
Proof. intros Hr. by apply shrinks_face. Qed.

Lemma abandon_shrinks (m : Medium) role id :
  rooted m -> shrinks m (abandon_root m role id) /\
    (forall e, e ∈ timeline m -> re_id e <> id -> e ∈ timeline (abandon_root m role id)).
Proof.
  intros Hr. pose proof Hr as [u Hu]. unfold abandon_root.
  destruct (parked_at (parked_roots m) role) as [e|] eqn:Hp; [|split; [by apply shrinks_refl|done]].
  case_bool_decide as Hid; [|split; [by apply shrinks_refl|done]]. split.
  - split; try done; try (by left).
    + exists u. apply (root_inv_sub m _ u); try done. intros r. destruct role, r; cbn; auto.
    + intros x. rewrite !elem_timeline, !elem_parked. destruct role; cbn; naive_solver.
  - intros x Hx Hxid. rewrite elem_timeline, elem_parked in Hx |- *. destruct role; cbn in *; naive_solver.
Qed.

Lemma collapse_shrinks (m : Medium) : rooted m -> shrinks m (collapse_parked_roots m).
Proof.
  intros [u Hu]. split; try done; try (by left).
  - exists u. apply (root_inv_sub m _ u); try done. intros r. left. by destruct r.
  - intros x. rewrite !elem_timeline, !elem_parked. cbn. naive_solver.
Qed.

Lemma owed_root (m : Medium) u st : root_inv m u -> st ∈ (sb_roots (sb m)).*2 -> is_root m st.
Proof.
  intros [Hp _] Hst. rewrite (rp_queue _ _ Hp) in Hst. apply list_elem_of_fmap in Hst as (x & -> & Hx).
  apply list_elem_of_fmap in Hx as (e & -> & He). apply elem_option_list in He. right. exists e.
  split; [apply elem_timeline; by left|done].
Qed.

Lemma read_shrinks (m : Medium) id : rooted m -> shrinks m (submit_checkpoint_read m id).
Proof.
  intros [u Hr]. destruct (sb_read_spec (sb m) id) as (Hq & He & Hs). pose proof Hr as [Hp _].
  destruct (root_inv_progress m (submit_checkpoint_read m id) u u) as (Hr' & _ & Hadv);
    try done; [cbn; rewrite He; apply (rp_envs _ _ Hp)|apply (rp_one _ _ Hp)|apply (rp_cids _ _ Hp)|intros e; apply (rp_ids _ _ Hp)|].
  split; [by exists u|done| |done|done].
  destruct Hs as [Hs|Hs]; [left; exact Hs|by apply (owed_root m u)].
Qed.

(** A checkpoint-role root still to land. *)
Definition awaited (m : Medium) (id : WriteId) : Prop :=
  exists e, re_id e = id /\ (root_front m = Some e \/ parked_checkpoint (parked_roots m) = Some e).

Lemma awaited_timeline m id : awaited m id -> exists e, e ∈ timeline m /\ re_id e = id.
Proof. intros (e & Hid & He). exists e. split; [|done]. apply elem_timeline. rewrite elem_parked. naive_solver. Qed.

Lemma awaited_face (m m' : Medium) id : roots_face m' = roots_face m -> awaited m id -> awaited m' id.
Proof. intros [= _ Hf Hp _ _] (e & Hid & He). exists e. by rewrite Hf, Hp. Qed.

Lemma awaited_abandon (m : Medium) id id' : awaited m id -> awaited (abandon_root m DurableView id') id.
Proof.
  intros Ha. unfold abandon_root. destruct (parked_at (parked_roots m) DurableView); [|exact Ha]. case_bool_decide; exact Ha.
Qed.

Lemma awaited_read (m : Medium) id id' : awaited m id -> awaited (submit_checkpoint_read m id') id.
Proof. intros Ha. exact Ha. Qed.

Lemma release_awaited (m : Medium) id e :
  re_id e = id -> parked_checkpoint (parked_roots m) = Some e -> awaited (release_next_root m) id.
Proof.
  intros Hid Hp. exists e. split; [done|]. unfold release_next_root. destruct (root_front m); [by right|].
  unfold next_parked, next_parked_role. rewrite Hp.
  destruct (parked_view (parked_roots m)) as [v|]; [|by left].
  destruct (re_stamp e <? re_stamp v); cbn; [by left|right; exact Hp].
Qed.

Lemma release_timeline (m : Medium) e : e ∈ timeline (release_next_root m) -> e ∈ timeline m.
Proof.
  unfold release_next_root. destruct (root_front m) as [f|] eqn:Hf; [done|].
  destruct (next_parked (parked_roots m)) as [n|] eqn:Hn; [|done].
  rewrite !elem_timeline, !elem_parked. cbn. rewrite Hf. unfold next_parked, next_parked_role in *.
  destruct (parked_view (parked_roots m)) eqn:Hv, (parked_checkpoint (parked_roots m)) eqn:Hc; try case_match;
    cbn; rewrite ?Hv, ?Hc; naive_solver.
Qed.

(** What a completed poll of the superblock means for the timeline. *)
Definition polled_ok (m m' : Medium) (out : option (SuperblockDone * option (RootRole * WriteId * VsrState))) : Prop :=
  match out with
  | None => forall i, awaited m i -> awaited m' i
  | Some (done, None) =>
      match done with Wrote id => id ∈ dom (checkpoints m) | _ => True end /\ forall i, awaited m i -> awaited m' i
  | Some (done, Some (role, id, st)) =>
      done = Wrote id /\ advances st (durable m') /\
      (exists e, e ∈ timeline m /\ re_id e = id /\ re_state e = st) /\
      (forall i, i <> id -> awaited m i -> awaited m' i)
  end.

Lemma shrinks_progress (m m' : Medium) u :
  root_inv m u -> root_inv m' u -> advances (durable m) (durable m') -> timeline m' = timeline m ->
  (sb_state (sb m') = sb_state (sb m) \/ sb_state (sb m') ∈ (sb_roots (sb m)).*2) ->
  dom (checkpoints m') ⊆ dom (checkpoints m) -> shrinks m m'.
Proof.
  intros Hr Hr' Ha Ht Hs Hc. split; [by exists u|by rewrite Ht| |done|done].
  destruct Hs as [Hs|Hs]; [left; exact Hs|by apply (owed_root m u)].
Qed.

Lemma next_parked_elem p e : next_parked p = Some e -> e ∈ parked_list p.
Proof.
  rewrite elem_parked. unfold next_parked. destruct (parked_view p), (parked_checkpoint p); try case_match; naive_solver.
Qed.

Lemma release_durable (m : Medium) :
  sb_roots (sb m) = [] ->
  durable (release_next_root m) = durable m \/ exists e, e ∈ parked_list (parked_roots m) /\ durable (release_next_root m) = re_state e.
Proof.
  intros Hq. unfold release_next_root. destruct (root_front m); [by left|].
  destruct (next_parked (parked_roots m)) as [e|] eqn:Hn; [|by left]. unfold durable. cbn.
  destruct (sb_write_spec (sb m) (re_id e) (re_state e)) as (Hr & _ & [Hs|Hs]); [by left|right].
  rewrite Hr, Hq in Hs. apply list_elem_of_singleton in Hs. exists e. split; [by apply next_parked_elem|done].
Qed.

Lemma release_checkpoints (m : Medium) : checkpoints (release_next_root m) = checkpoints m.
Proof. unfold release_next_root. destruct (root_front m); [done|]. by destruct (next_parked _). Qed.

Lemma queued_front (m : Medium) u b id st :
  root_inv m u -> sb_roots (sb m) = (id, st) :: sb_roots b ->
  exists f, root_front m = Some f /\ id = re_id f /\ st = re_state f /\ sb_roots b = [].
Proof.
  intros [Hp _]. rewrite (rp_queue _ _ Hp). destruct (root_front m) as [f|]; [|done]. cbn. intros [= <- <- <-]. by exists f.
Qed.

(** The front lands, and the next parked root takes its place. *)
Lemma front_lands (m : Medium) u f b :
  root_inv m u -> root_front m = Some f -> sb_roots b = [] -> sb_envelopes b = sb_envelopes (sb m) -> sb_state b = re_state f ->
  let m' := release_next_root (set_roots m b None (parked_roots m)) in
  shrinks m m' /\ polled_ok m m' (Some (Wrote (re_id f), Some (re_role f, re_id f, re_state f))).
Proof.
  intros Hr Hf Hnil He Hs. cbv zeta. set (m0 := set_roots m b None (parked_roots m)).
  destruct (landing_inv m u f b Hr Hf Hnil He Hs) as (Hr' & _ & Hadv). pose proof Hr as [Hp _].
  assert (Hft : f ∈ timeline m) by (apply elem_timeline; by left).
  pose proof (release_durable m0 Hnil) as Hd. change (durable m0) with (sb_state b) in Hd. rewrite Hs in Hd. split.
  - split; [by exists u| | |exact Hadv|].
    + intros e Hee. apply release_timeline in Hee. apply elem_timeline in Hee as [?|?]; [done|]. apply elem_timeline. by right.
    + right. destruct Hd as [-> |(e & Hee & ->)]; [by exists f|]. exists e. split; [apply elem_timeline; by right|done].
    + rewrite release_checkpoints. done.
  - cbn [polled_ok]. split_and!; [done| |by exists f|].
    + destruct Hd as [-> |(e & Hee & ->)]; [by left|right]. assert (e ∈ timeline m) by (apply elem_timeline; by right).
      split; [by apply (rp_stamped _ _ Hp)|]. apply (rp_order _ _ Hp); [done|done|]. by apply (rp_front _ _ Hp).
    + intros i Hi (e & Hid & [Hfe|Hpe]); [congruence|]. by apply (release_awaited m0 i e).
Qed.

Lemma poll_shrinks (m m' : Medium) out : rooted m -> poll_sb m = Some (out, m') -> shrinks m m' /\ polled_ok m m' out.
Proof.
  intros [u Hr]. destruct (poll_sb_inv m u Hr) as (out' & m1 & Heq & Hr' & _ & Hadv). rewrite Heq. intros [= <- <-].
  pose proof Hr as [Hp _]. revert Heq. unfold poll_sb. pose proof (sb_poll_spec (sb m)) as Hs.
  destruct (sb_poll (sb m)) as [[[id| |]|] b'].
  2-4: destruct Hs as (Hq & He & Hs); intros [= <- <-]; split; [by apply (shrinks_progress m _ u)|].
  2-3: split; [done|]; intros i Hi; exact Hi.
  2: intros i Hi; exact Hi.
  cbn -[release_next_root]. destruct Hs as [(st & Hq & He & Hs)|(Hid & He & Hq & Hs)].
  - destruct (queued_front m u b' id st Hr Hq) as (f & Hf & -> & -> & Hnil). rewrite Hf.
    rewrite bool_decide_eq_true_2 by done. intros [= <- <-].
    destruct Hs as [Hs|Hs]; [|rewrite Hnil in Hs; by apply elem_of_nil in Hs]. by apply (front_lands m u f b').
  - rewrite (rp_envs _ _ Hp) in Hid.
    assert (Hno : match root_front m with Some f => re_id f <> id | None => True end).
    { destruct (root_front m) as [f|] eqn:Hf; [|done]. intros <-.
      apply (rp_ids _ _ Hp f); [apply elem_timeline; by left|done]. }
    apply elem_of_dom in Hid as [op Hop]. destruct (root_front m) as [f|] eqn:Hf;
      [rewrite bool_decide_eq_false_2 by done|]; rewrite Hop; intros [= <- <-];
      (split; [|split; [apply elem_of_dom; eauto|intros i (e & Hi & Ha); exists e; split; [done|]; cbn; by rewrite <- Hf]]);
      (apply (shrinks_progress m _ u); [done|done|done|by unfold timeline; cbn; rewrite Hf|exact Hs|cbn; set_solver]).
Qed.

Lemma submit_root_accepts (m : Medium) role id st : is_Some (submit_root m role id st) <-> no_rewind (effective_root m) st = true.
Proof. unfold submit_root. destruct (no_rewind _ _); split; [done|by eexists|by intros []|done]. Qed.

Record grows (m m' : Medium) (role : RootRole) (id : WriteId) (st : VsrState) : Prop := {
  gr_rooted : rooted m';
  gr_timeline e : e ∈ timeline m' -> e ∈ timeline m \/ (re_id e = id /\ re_state e = st);
  gr_durable : is_root m (durable m') \/ durable m' = st;
  gr_advances : advances (durable m) (durable m');
  gr_checkpoints : checkpoints m' = checkpoints m;
  gr_new : role = CheckpointRoot -> awaited m' id;
  gr_awaited i : role = DurableView -> awaited m i -> awaited m' i;
}.

Lemma submit_grows (m m' : Medium) role id st :
  rooted m -> ~ live m id -> stamped st -> submit_root m role id st = Some m' -> grows m m' role id st.
Proof.
  intros [u0 Hr0] Hid Hst Hsub. set (u := dom (checkpoints m) ∪ list_to_set (re_id <$> timeline m)).
  assert (Hu : forall i, i ∈ u <-> live m i).
  { intros i. unfold u, live. rewrite elem_of_union, elem_of_list_to_set, list_elem_of_fmap. naive_solver. }
  assert (Hr : root_inv m u) by (apply (root_inv_live m u0); [done|apply Hu]).
  destruct (submit_root_inv m m' u role id st Hr ltac:(by rewrite Hu) Hst Hsub) as (Hr' & _ & Hadv).
  revert Hsub Hr' Hadv. unfold submit_root. destruct (no_rewind _ _); [|done].
  set (n := mkRootEntry role id st (next_root_stamp m)). set (m1 := mkMedium _ _ _ _ _ _ _ _ _ _ _ _ _ _ _).
  intros [= <-] Hr' Hadv. pose proof Hr as [Hp Hfree].
  assert (Hpark : forall e, e ∈ parked_list (parked_roots m1) -> e = n \/ e ∈ parked_list (parked_roots m)).
  { intros e. rewrite !elem_parked. destruct role; cbn; naive_solver. }
  split; try done.
  - by eexists.
  - intros e He. apply release_timeline in He. apply elem_timeline in He as [He|He]; [left; apply elem_timeline; by left|].
    destruct (Hpark e He) as [-> |He']; [by right|left; apply elem_timeline; by right].
  - destruct (root_front m) as [f|] eqn:Hf.
    { left. left. unfold durable, release_next_root. subst m1. cbn. by rewrite ?Hf. }
    assert (Hq : sb_roots (sb m1) = []) by (cbn; rewrite (rp_queue _ _ Hp), ?Hf; done).
    destruct (release_durable m1 Hq) as [-> |(e & He & ->)]; [left; by left|].
    destruct (Hpark e He) as [-> |He']; [by right|left; right]. exists e. split; [apply elem_timeline; by right|done].
  - by rewrite release_checkpoints.
  - intros ->. apply (release_awaited m1 id n); done.
  - intros i -> (e & Hie & [He|He]).
    + exists e. split; [done|]. left. unfold release_next_root. subst m1. cbn. by rewrite He.
    + by apply (release_awaited m1 i e).
Qed.

(** A checkpoint envelope is submitted or fenced; the roots stay. *)
Lemma envelope_shrinks (m m' : Medium) v id op snap :
  rooted m -> ~ live m id -> submit_checkpoint m id op snap = (v, m') ->
  rooted m' /\ timeline m' = timeline m /\ is_root m (durable m') /\ advances (durable m) (durable m') /\
  dom (checkpoints m') ⊆ {[id]} ∪ dom (checkpoints m) /\ (forall i, awaited m i -> awaited m' i) /\
  (v = EnvelopeFenced -> dom (checkpoints m') = dom (checkpoints m)).
Proof.
  intros [u0 Hr0] Hid Hsub. set (u := dom (checkpoints m) ∪ list_to_set (re_id <$> timeline m)).
  assert (Hu : forall i, i ∈ u <-> live m i).
  { intros i. unfold u, live. rewrite elem_of_union, elem_of_list_to_set, list_elem_of_fmap. naive_solver. }
  assert (Hr : root_inv m u) by (apply (root_inv_live m u0); [done|apply Hu]).
  pose proof (submit_checkpoint_inv m u id op snap Hr ltac:(by rewrite Hu)) as Hc. rewrite Hsub in Hc.
  destruct (sb_checkpoint_spec (sb m) id op snap) as (_ & _ & Hs).
  revert Hsub. unfold submit_checkpoint. destruct (negb _); intros [= <- <-]; destruct Hc as (Hr' & _ & Hadv).
  - split_and!; [by eexists|done|by left|done|set_solver|intros i Ha; exact Ha|done].
  - split_and!; [by eexists|done| |done|cbn; rewrite dom_insert; set_solver|intros i Ha; exact Ha|done].
    destruct Hs as [Hs|Hs]; [left; exact Hs|by apply (owed_root m u)].
Qed.

End medium_roots.

(** ** Appends leave the roots alone *)

Section append_roots.
Context {W B : Type} `{Wal W} `{Superblock B}.
Context {Sm Image Sessions Walks : Type}.
#[local] Abbreviation Medium := (@Medium W B Sm Image Sessions Walks).

Definition rootless (a : Appender) (m : Medium) (a' : Appender) (m' : Medium) : Prop :=
  roots_face m' = roots_face m /\ ap_incarnation a' = ap_incarnation a /\ ap_next_op_id a <= ap_next_op_id a'.

Lemma rootless_refl a m : rootless a m a m.
Proof. split_and!; [done|done|lia]. Qed.

Lemma rootless_trans a m a1 m1 a2 m2 : rootless a m a1 m1 -> rootless a1 m1 a2 m2 -> rootless a m a2 m2.
Proof. intros (H1 & H2 & H3) (G1 & G2 & G3). split_and!; [congruence|congruence|lia]. Qed.

Lemma offer_rootless a m op h b kind v a' m' : offer a m op h b kind = Some (v, a', m') -> rootless a m a' m'.
Proof.
  unfold offer, mint_write_id. destruct (_ <? _); [|done]. cbn [mbind option_bind].
  destruct (submit_append_cases m (ap_incarnation a, ap_next_op_id a) op h b) as [[_ ->]|[(_ & _ & ->)|(_ & _ & ->)]];
    cbn; intros [= <- <- <-]; (split_and!; [done|done|cbn; lia]).
Qed.

Lemma release_loop_rootless fuel a m a' m' : release_quota_loop fuel a m = Some (a', m') -> rootless a m a' m'.
Proof.
  revert a m. induction fuel as [|fuel IH]; intros a m; cbn [release_quota_loop]; [intros [= <- <-]; apply rootless_refl|].
  destruct (first_quota _) as [[op d]|]; [|intros [= <- <-]; apply rootless_refl].
  destruct (resubmit_deferred_append _ m op d) as [[[go a1] m1]|] eqn:Ho; [|done].
  assert (Hr : rootless a m a1 m1) by (apply offer_rootless in Ho; exact Ho).
  destruct go; [|by intros [= <- <-]]. intros Hl. eapply rootless_trans; [exact Hr|by apply IH].
Qed.

Lemma release_deferred_rootless a m op a' m' : release_deferred_append a m op = Some (a', m') -> rootless a m a' m'.
Proof.
  unfold release_deferred_append. destruct (List.find _ _) as [[o d]|].
  - destruct (resubmit_deferred_append _ m o d) as [[[go a1] m1]|] eqn:Ho; [|done]. cbn [mbind option_bind]. intros Hl.
    assert (Hr : rootless a m a1 m1) by (apply offer_rootless in Ho; exact Ho).
    eapply rootless_trans; [exact Hr|exact (release_loop_rootless _ _ _ _ _ Hl)].
  - cbn [mbind option_bind]. apply release_loop_rootless.
Qed.

Lemma disown_ids a id : ap_incarnation (disown a id) = ap_incarnation a /\ ap_next_op_id (disown a id) = ap_next_op_id a.
Proof.
  unfold disown, is_foreign_completion, unmark. destruct (_ =? _); [|done]. destruct (ap_pending a !! id.2) as [p|]; [|done].
  cbn. by destruct (bt_get _ _).
Qed.

Lemma absorb_rootless a m cs a' m' : absorb_wal_cancellations a m cs = Some (a', m') -> rootless a m a' m'.
Proof.
  revert a m. induction cs as [|[id op] cs IH]; intros a m; cbn [absorb_wal_cancellations]; [intros [= <- <-]; apply rootless_refl|].
  destruct (release_deferred_append (disown a id) m op) as [[a1 m1]|] eqn:Hr; [|done]. cbn [mbind option_bind]. intros Hl.
  apply release_deferred_rootless in Hr as (Hf & Hi & Hn). destruct (disown_ids a id) as [Hi' Hn'].
  eapply rootless_trans; [|by apply IH]. split_and!; [done|congruence|lia].
Qed.

End append_roots.

(** ** The invariant *)

(** The configurations the cluster agreed on: one id and one producing operation per
    epoch, ids distinct, operations in order. *)
Record History : Type := mkHistory {
  config_of : Epoch -> Z;
  install_of : Epoch -> OpNumber;
  config_inj a b : config_of a = config_of b -> a = b;
  install_mono a b : a <= b -> install_of a <= install_of b;
}.

Section life.
Context {S Image W B Walks : Type} `{SX : StateMachine S Image} `{WM : WalModel W} `{SM : SuperblockModel B}.
Context (C : History).
#[local] Abbreviation Node := (@Node S).
#[local] Abbreviation Medium := (@Medium W B S Image (gmap Z Session) Walks).
#[local] Abbreviation Keeper := (@Keeper S).

Definition on_history (m : Membership) (install : OpNumber) : Prop :=
  (wf m /\ 0 <= m_epoch m) /\ m_config_id m = config_of C (m_epoch m) /\ install = install_of C (m_epoch m).

Record sound (r : VsrState) : Prop := {
  so_log_view : v_log_view r <= v_view r;
  so_checkpoint : 0 <= v_checkpoint_op r < umax 64;
  so_floor : v_checkpoint_op r <= v_log_floor r;
  so_config : match v_membership r with
              | Some m => v_epoch r = m_epoch m /\ on_history m (v_config_install_op r)
              | None => v_epoch r = 0
              end;
}.

Definition minted (k : Keeper) (id : WriteId) : Prop :=
  id.1 = ap_incarnation (k_appends k) -> id.2 < ap_next_op_id (k_appends k).

Definition own (k : Keeper) (id : WriteId) : Prop := id.1 = ap_incarnation (k_appends k) /\ minted k id.

Definition below (m : Medium) (op : OpNumber) : Prop := forall r, is_root m r -> v_checkpoint_op r <= op.

Definition sb_ok (k : Keeper) (m : Medium) (id : WriteId) (a : PendingSbAction) : Prop :=
  own k id /\ id ∉ dom (checkpoints m) /\
  (forall e, e ∈ timeline m -> re_id e = id ->
     v_view (re_state e) = k_view k /\ forall op s, a = SwapEpoch op s -> v_membership (re_state e) = Some s) /\
  (forall pc, k_pending_checkpoint k = Some pc -> step_write_id (pc_step pc) <> Some id /\ forall op s, a <> SwapEpoch op s).

Definition crossed (k : Keeper) (r : VsrState) : Prop :=
  forall i s, k_pending_install k = Some i -> pi_successor i = Some s -> m_epoch s <= v_epoch r.

(** [x] is a root that has just landed and whose completion is being handled. *)
Definition pc_ok (x : option WriteId) (k : Keeper) (m : Medium) (pc : PendingCheckpoint) : Prop :=
  0 <= pc_target_op pc < umax 64 /\
  match pc_step pc with
  | FlushingBlocks _ => below m (pc_target_op pc)
  | AwaitSnapshot id _ => below m (pc_target_op pc) /\ own k id /\ (forall e, e ∈ timeline m -> re_id e <> id)
  | AwaitRoot id _ =>
      own k id /\ id ∉ dom (checkpoints m) /\ (awaited m id \/ x = Some id) /\
      (forall e, e ∈ timeline m -> re_id e = id -> v_checkpoint_op (re_state e) = pc_target_op pc /\ crossed k (re_state e))
  end.

Definition install_ok (k : Keeper) (m : Medium) (i : PendingInstall) : Prop :=
  0 <= pi_checkpoint_op i < umax 64 /\ below m (pi_checkpoint_op i) /\
  (forall s, pi_successor i = Some s ->
     (exists op, pi_successor_install_op i = Some op /\ on_history s op) /\ (m_epoch (k_membership k) <= m_epoch s \/ stamped (durable m))) /\
  (forall pc, k_pending_checkpoint k = Some pc -> pc_target_op pc = pi_checkpoint_op i /\ pc_kind pc = SyncRepersist).

Record kept (x : option WriteId) (k : Keeper) (m : Medium) : Prop := {
  kp_rooted : rooted m;
  kp_ids id : live m id -> minted k id;
  kp_sound r : is_root m r -> sound r;
  kp_view r : is_root m r -> v_view r <= k_view k;
  kp_log_view : k_log_view k <= k_view k;
  kp_checkpoint : k_checkpoint_op k <= v_checkpoint_op (durable m);
  kp_durable : k_durable_view k <= v_view (durable m);
  kp_epoch r : is_root m r -> stamped r -> m_epoch (k_membership k) <= v_epoch r;
  kp_config : on_history (k_membership k) (ch_install_op (k_config k));
  kp_inherited f : f_inherited (k_frontier k) = Some f -> k_checkpoint_op k < f <= v_checkpoint_op (durable m);
  kp_sb id a : k_pending_sb k = Some (id, a) -> sb_ok k m id a;
  kp_pc pc : k_pending_checkpoint k = Some pc -> pc_ok x k m pc;
  kp_install i : k_pending_install k = Some i -> install_ok k m i;
  kp_swap op s : nd_pending_swap (k_node k) = Some (op, s) ->
    on_history s op /\ (m_epoch (k_membership k) <= m_epoch s \/ stamped (durable m));
  kp_catching : catching_up k = true -> k_pending_sb k = None;
}.

(** What the invariant reads of an endpoint. *)
Definition face (k : Keeper) :=
  (ap_incarnation (k_appends k), k_view k, k_log_view k, k_durable_view k, catching_up k, k_membership k, ch_install_op (k_config k),
   (k_checkpoint_op k, f_inherited (k_frontier k)), (k_pending_sb k, k_pending_checkpoint k, k_pending_install k), nd_pending_swap (k_node k)).

Lemma kept_frame x k k' m :
  kept x k m -> face k' = face k -> ap_next_op_id (k_appends k) <= ap_next_op_id (k_appends k') -> kept x k' m.
Proof.
  intros Hk [= Hin Hv Hlv Hdv Hcu Hm Hi Hcp Hinh Hsb Hpc Hpi Hsw] Hn.
  assert (Hmin : forall id, minted k id -> minted k' id) by (intros id Hid He; rewrite Hin in He; specialize (Hid He); lia).
  assert (Hown : forall id, own k id -> own k' id) by (intros id [Ho1 Ho2]; split; [by rewrite Hin|by apply Hmin]).
  destruct Hk. split; rewrite ?Hv, ?Hlv, ?Hdv, ?Hcu, ?Hm, ?Hi, ?Hcp, ?Hinh, ?Hsb, ?Hpc, ?Hpi, ?Hsw; try done.
  - intros id Hid. by apply Hmin, kp_ids0.
  - intros id a Ha. destruct (kp_sb0 id a Ha) as (Ho & Hd & Ht & Hs). split_and!; [by apply Hown|done| |].
    + intros e He Hid. rewrite Hv. by apply Ht.
    + intros pc. rewrite Hpc. apply Hs.
  - intros pc Hp. destruct (kp_pc0 pc Hp) as [Ht Hst]. split; [done|]. destruct (pc_step pc) as [|id dag|id dag]; [done| |].
    + destruct Hst as (? & Ho & ?). split_and!; [done|by apply Hown|done].
    + destruct Hst as (Ho & ? & ? & Hc). split_and!; [by apply Hown|done|done|].
      intros e He Hid. destruct (Hc e He Hid) as [? Hcr]. split; [done|]. intros i s. rewrite Hpi. apply Hcr.
  - intros i Hpi'. destruct (kp_install0 i Hpi') as (? & ? & ? & Hx). refine (conj _ (conj _ (conj _ _))); [done|done|by rewrite Hm|]. intros pc. rewrite Hpc. apply Hx.
Qed.

Lemma below_shrinks m m' op : shrinks m m' -> below m op -> below m' op.
Proof. intros Hs Hb r Hr. apply Hb. by eapply sh_root. Qed.

Lemma advances_le (a b : VsrState) : advances a b -> v_view a <= v_view b /\ v_checkpoint_op a <= v_checkpoint_op b.
Proof. intros [-> |[_ Hn]]; [lia|]. apply no_rewind_spec in Hn. lia. Qed.

Lemma successor_frame (P : Prop) (a b : VsrState) : P \/ stamped a -> advances a b -> P \/ stamped b.
Proof. intros [?|Ha] [-> |[Hb _]]; auto. Qed.

(** Roots gone, no new ones: the invariant holds up to the awaited root. *)
Lemma kept_shrinks x y k m m' :
  kept x k m -> shrinks m m' ->
  (forall pc id dag, k_pending_checkpoint k = Some pc -> pc_step pc = AwaitRoot id dag -> awaited m id \/ x = Some id -> awaited m' id \/ y = Some id) ->
  kept y k m'.
Proof.
  intros Hk Hs Haw. destruct Hk. destruct (advances_le _ _ (sh_advances _ _ Hs)) as [Hav Hac].
  split; try done.
  - apply (sh_rooted _ _ Hs).
  - intros id Hid. by apply kp_ids0, (sh_live _ _ _ Hs).
  - intros r Hr. by apply kp_sound0, (sh_root _ _ _ Hs).
  - intros r Hr. by apply kp_view0, (sh_root _ _ _ Hs).
  - lia.
  - lia.
  - intros r Hr. by apply kp_epoch0, (sh_root _ _ _ Hs).
  - intros f Hf. specialize (kp_inherited0 f Hf). lia.
  - intros id a Ha. destruct (kp_sb0 id a Ha) as (? & Hd & Ht & ?). split_and!; [done| | |done].
    + intros Hin. by apply Hd, (sh_checkpoints _ _ Hs).
    + intros e He. by apply Ht, (sh_timeline _ _ Hs).
  - intros pc Hp. destruct (kp_pc0 pc Hp) as [Ht Hst]. split; [done|]. destruct (pc_step pc) as [|id dag|id dag] eqn:Hstep.
    + by eapply below_shrinks.
    + destruct Hst as (? & ? & Hne). split_and!; [by eapply below_shrinks|done|]. intros e He. by apply Hne, (sh_timeline _ _ Hs).
    + destruct Hst as (? & Hd & Ha & Hc). split_and!; [done| |by eapply Haw|].
      * intros Hin. by apply Hd, (sh_checkpoints _ _ Hs).
      * intros e He. by apply Hc, (sh_timeline _ _ Hs).
  - intros i Hi. destruct (kp_install0 i Hi) as (? & ? & Hsu & ?).
    refine (conj _ (conj _ (conj _ _))); [done|by eapply below_shrinks| |done].
    intros s Hs'. destruct (Hsu s Hs') as [? Hor]. split; [done|]. eapply successor_frame; [exact Hor|apply (sh_advances _ _ Hs)].
  - intros op s Hw. destruct (kp_swap0 op s Hw) as [? Hor]. split; [done|]. eapply successor_frame; [exact Hor|apply (sh_advances _ _ Hs)].
Qed.

Lemma kept_face x k m m' : kept x k m -> roots_face m' = roots_face m -> kept x k m'.
Proof.
  intros Hk Hf. apply (kept_shrinks x x k m m' Hk); [apply shrinks_face; [apply (kp_rooted _ _ _ Hk)|done]|].
  intros pc id dag _ _ [Ha|Ha]; [left; by eapply awaited_face|by right].
Qed.

(** ** Submitting a root *)

Lemma mint_spec k k' id : mint k = Some (id, k') ->
  face k' = face k /\ k_node k' = k_node k /\ k_posture k' = k_posture k /\ k_frontier k' = k_frontier k /\ k_config k' = k_config k /\
  k_owed k' = k_owed k /\ k_recover k' = k_recover k /\ k_wal_capacity k' = k_wal_capacity k /\
  ap_next_op_id (k_appends k) <= ap_next_op_id (k_appends k') /\ own k' id /\ (forall i, minted k i -> i <> id).
Proof.
  unfold mint, mint_write_id. destruct (_ <? _); [|done]. cbn. intros [= <- <-]. cbn.
  split_and!; try done; try lia; [split; [done|]; intros _; cbn; lia|]. intros [i j] Hi Heq. injection Heq as -> ->. specialize (Hi eq_refl). cbn in Hi. lia.
Qed.

Lemma kept_mint x k k' m id : kept x k m -> mint k = Some (id, k') ->
  kept x k' m /\ own k' id /\ ~ live m id /\ (forall i, minted k i -> i <> id).
Proof.
  intros Hk Hm. destruct (mint_spec k k' id Hm) as (Hf & _ & _ & _ & _ & _ & _ & _ & Hn & Ho & Hne).
  split; [by eapply kept_frame|]. split; [done|]. split; [|done]. intros Hl. by apply (Hne id); [apply (kp_ids _ _ _ Hk)|].
Qed.

Lemma kept_grows x k m m' role id st :
  kept x k m -> grows m m' role id st -> minted k id ->
  sound st -> v_view st <= k_view k -> m_epoch (k_membership k) <= v_epoch st ->
  (forall i a, k_pending_sb k = Some (i, a) -> i <> id) ->
  (forall pc, k_pending_checkpoint k = Some pc -> role = DurableView /\ forall i, step_write_id (pc_step pc) = Some i -> i <> id) ->
  (forall op, below m op -> is_Some (k_pending_checkpoint k) \/ (exists i, k_pending_install k = Some i /\ pi_checkpoint_op i = op) ->
     v_checkpoint_op st <= op) ->
  kept x k m'.
Proof.
  intros Hk Hg Hid Hst Hv He Hsb Hpc Hle. destruct (advances_le _ _ (gr_advances _ _ _ _ _ Hg)) as [Hav Hac].
  assert (Hroot : forall r, is_root m' r -> is_root m r \/ r = st).
  { intros r [-> |(e & Hin & ->)]; [apply (gr_durable _ _ _ _ _ Hg)|].
    destruct (gr_timeline _ _ _ _ _ Hg e Hin) as [?|[_ Hst']]; [left; right; eauto|by right]. }
  assert (Hbelow : forall op, below m op -> v_checkpoint_op st <= op -> below m' op).
  { intros op Hb Hop r Hr. destruct (Hroot r Hr) as [?| ->]; [by apply Hb|done]. }
  destruct Hk. split; try done.
  - apply (gr_rooted _ _ _ _ _ Hg).
  - intros i [Hi|(e & Hin & Hi)]; [apply kp_ids0; left; by rewrite <- (gr_checkpoints _ _ _ _ _ Hg)|].
    destruct (gr_timeline _ _ _ _ _ Hg e Hin) as [?|[Hi' _]]; [apply kp_ids0; right; eauto|by rewrite <- Hi, Hi'].
  - intros r Hr. destruct (Hroot r Hr) as [?| ->]; [by apply kp_sound0|done].
  - intros r Hr. destruct (Hroot r Hr) as [?| ->]; [by apply kp_view0|done].
  - lia.
  - lia.
  - intros r Hr Hs. destruct (Hroot r Hr) as [?| ->]; [by apply kp_epoch0|done].
  - intros f Hf. specialize (kp_inherited0 f Hf). lia.
  - intros i a Ha. destruct (kp_sb0 i a Ha) as (? & Hd & Ht & ?). split_and!; [done|by rewrite (gr_checkpoints _ _ _ _ _ Hg)| |done].
    intros e Hin Hei. destruct (gr_timeline _ _ _ _ _ Hg e Hin) as [?|[Hi' _]]; [by apply Ht|]. destruct (Hsb i a Ha). congruence.
  - intros pc Hp. destruct (kp_pc0 pc Hp) as [Ht Hstep]. destruct (Hpc pc Hp) as (-> & Hne). split; [done|].
    destruct (pc_step pc) as [|i dag|i dag]; [apply Hbelow; eauto| |].
    + destruct Hstep as (? & ? & Hn). split_and!; [apply Hbelow; eauto|done|].
      intros e Hin. destruct (gr_timeline _ _ _ _ _ Hg e Hin) as [?|[Hi _]]; [by apply Hn|]. rewrite Hi. intros <-. by apply (Hne id).
    + destruct Hstep as (? & Hd & Ha & Hc). split_and!; [done|by rewrite (gr_checkpoints _ _ _ _ _ Hg)| |].
      * destruct Ha as [Ha|Ha]; [left; by apply (gr_awaited _ _ _ _ _ Hg)|by right].
      * intros e Hin Hei. destruct (gr_timeline _ _ _ _ _ Hg e Hin) as [?|[Hi' _]]; [by apply Hc|]. destruct (Hne i eq_refl). congruence.
  - intros i Hi. destruct (kp_install0 i Hi) as (? & ? & Hsu & ?).
    refine (conj _ (conj _ (conj _ _))); [done|apply Hbelow; eauto| |done].
    intros s Hs'. destruct (Hsu s Hs') as [? Hor]. split; [done|]. eapply successor_frame; [exact Hor|apply (gr_advances _ _ _ _ _ Hg)].
  - intros op s Hw. destruct (kp_swap0 op s Hw) as [? Hor]. split; [done|]. eapply successor_frame; [exact Hor|apply (gr_advances _ _ _ _ _ Hg)].
Qed.

(** The root [durable_root] builds over the effective one is accepted. *)
Record builds (k : Keeper) (m : Medium) (cp : OpNumber) (st : VsrState) : Prop := {
  bu_view : v_view st = k_view k;
  bu_checkpoint : v_checkpoint_op st = cp;
  bu_sound : sound st;
  bu_stamped : stamped st;
  bu_epoch : m_epoch (k_membership k) <= v_epoch st;
  bu_effective : v_epoch (effective_root m) <= v_epoch st;
  bu_accepted : no_rewind (effective_root m) st = true;
}.

(** A root over a configuration at or past the effective one, on the history. *)
Lemma accepted_over (eff st : VsrState) (mem : Membership) :
  sound eff -> v_membership st = Some mem -> v_epoch st = m_epoch mem -> on_history mem (v_config_install_op st) ->
  v_view eff <= v_view st -> v_checkpoint_op eff <= v_checkpoint_op st -> v_epoch eff <= m_epoch mem ->
  no_rewind eff st = true.
Proof.
  intros Hs Hm He (_ & Hc & Hi) Hv Hcp Hep. apply no_rewind_spec. pose proof (so_config _ Hs) as Hcfg. unfold stamped, same_config.
  rewrite Hm. split_and!; [lia..| |].
  - intros Heq. destruct (v_membership eff) as [em|]; [|done]. destruct Hcfg as [Hee (_ & Hec & _)].
    apply Z.eqb_eq. rewrite Hc, Hec. f_equal. congruence.
  - intros Hst. destruct (v_membership eff) as [em|]; [|done]. destruct Hcfg as [Hee (_ & _ & Hei)]. rewrite Hei, Hi.
    apply install_mono. congruence.
Qed.

Lemma durable_root_builds x k m commit cp cpid :
  kept x k m -> 0 <= cp < umax 64 -> v_checkpoint_op (effective_root m) <= cp -> nd_commit_max (k_node k) <= commit -> cp <= commit ->
  exists st, durable_root k (effective_root m) (k_view k) (k_log_view k) commit cp cpid (committed_band_headers (k_node k) cp) = Some st
    /\ builds k m cp st.
Proof.
  intros Hk Hcp Heff Hc Hcc. pose proof (effective_is_root m) as Her. pose proof (kp_sound _ _ _ Hk _ Her) as Hes.
  pose proof (kp_log_view _ _ _ Hk) as Hlv. pose proof (kp_view _ _ _ Hk _ Her) as Hev. pose proof (kp_config _ _ _ Hk) as Hmem.
  pose proof (so_config _ Hes) as Hcfg. pose proof (kp_epoch _ _ _ Hk _ Her) as Hep.
  assert (Hgo : forall epoch prev mem ring install, epoch = m_epoch mem -> on_history mem install ->
    m_epoch (k_membership k) <= m_epoch mem -> v_epoch (effective_root m) <= m_epoch mem ->
    exists st, (s ← expect (let? s := try_new_v4 (k_view k) (k_log_view k) commit cp cpid (committed_band_headers (k_node k) cp) epoch prev mem ring install in
              with_log_floor s (Z.max (k_log_floor k) cp)); Some (with_wal_geometry s (c_checkpoint_ops (nd_config (k_node k))) (k_wal_capacity k))) = Some st
      /\ builds k m cp st).
  { intros epoch prev mem ring install -> Hh Hle Hle'.
    destruct (root_built (k_node k) (k_view k) (k_log_view k) commit cp cpid (m_epoch mem) prev mem ring install (Z.max (k_log_floor k) cp))
      as (s & Hs & Hvv & Hvl & Hvc & Hve & Hvm & Hvi & Hvf); [done|done|done|done|done|lia|].
    rewrite Hs. cbn. eexists. split; [reflexivity|]. destruct s; cbn in *; subst.
    split; cbn; try done; try lia.
    - split; cbn; try done; lia.
    - eapply accepted_over; try done; cbn; lia. }
  unfold durable_root. destruct (v_membership (effective_root m)) as [ahead|] eqn:Hm.
  - destruct Hcfg as [He Hh]. assert (Hst : stamped (effective_root m)) by (unfold stamped; by rewrite Hm). specialize (Hep Hst).
    destruct (Z.ltb_spec (m_epoch (k_membership k)) (m_epoch ahead)); apply Hgo; try done; try lia.
  - apply Hgo; try done; try lia. destruct Hmem as [[_ ?] _]. lia.
Qed.

(** ** Correlations *)

Definition forget_sb (k : Keeper) : Keeper := with_owed k (set_sb (k_owed k) None).
Definition forget_pc (k : Keeper) : Keeper := with_owed k (set_pc (k_owed k) None).

Lemma face_forget (k k' : Keeper) : face k' = face k -> face (forget_sb k') = face (forget_sb k).
Proof.
  intros Hf.
  exact (f_equal (fun '(a, b, c, d, e, f, g, h, (_, pc, pi), w) => (a, b, c, d, e, f, g, h, (None : option (WriteId * PendingSbAction), pc, pi), w)) Hf).
Qed.

Lemma kept_forget_sb x k m : kept x k m -> kept x (forget_sb k) m.
Proof. intros []. split; try assumption; done. Qed.

Lemma kept_forget_pc x y k m : kept x k m -> kept y (forget_pc k) m.
Proof.
  intros []. split; try assumption; try done.
  - intros id a Ha. destruct (kp_sb0 id a Ha) as (? & ? & ? & ?). split_and!; try assumption. intros pc Hpc. discriminate Hpc.
  - intros i Hi. destruct (kp_install0 i Hi) as (? & ? & ? & ?). refine (conj _ (conj _ (conj _ _))); try assumption. done.
Qed.

Lemma kept_with_sb x k m id a :
  kept x (forget_sb k) m -> catching_up k = false -> k_pending_sb k = Some (id, a) -> sb_ok k m id a -> kept x k m.
Proof.
  intros [] Hc Hsb Hok. split; try assumption.
  - intros i b. rewrite Hsb. by intros [= <- <-].
  - by rewrite Hc.
Qed.

Lemma kept_with_pc x k m pc :
  kept x (forget_pc k) m -> k_pending_checkpoint k = Some pc -> pc_ok x k m pc ->
  (forall i, k_pending_install k = Some i -> pc_target_op pc = pi_checkpoint_op i /\ pc_kind pc = SyncRepersist) ->
  (forall id a, k_pending_sb k = Some (id, a) -> step_write_id (pc_step pc) <> Some id /\ forall op s, a <> SwapEpoch op s) -> kept x k m.
Proof.
  intros [] Hpc Hok Hpi Hsb. split; try assumption.
  - intros i b Hb. destruct (kp_sb0 i b Hb) as (? & ? & ? & ?). split_and!; try assumption.
    intros p Hp. rewrite Hpc in Hp. injection Hp as <-. by apply Hsb.
  - intros p. rewrite Hpc. by intros [= <-].
  - intros i Hi. destruct (kp_install0 i Hi) as (? & ? & ? & ?). refine (conj _ (conj _ (conj _ _))); try assumption.
    intros p. rewrite Hpc. intros [= <-]. by apply Hpi.
Qed.

Definition ids_left (k : Keeper) : Prop := ap_next_op_id (k_appends k) < umax 64.

Lemma mint_some k : ids_left k -> exists id k', mint k = Some (id, k').
Proof. unfold ids_left, mint, mint_write_id. intros Hl. destruct (Z.ltb_spec (ap_next_op_id (k_appends k)) (umax 64)); [|lia]. cbn. eauto. Qed.

(** A durable-view root is always accepted, and leaves the endpoint waiting for it. *)
Lemma submit_durable_view_kept x k m a :
  kept x (forget_sb k) m -> ids_left k -> catching_up k = false -> (forall op s, a <> SwapEpoch op s) ->
  exists k' m' id, submit_durable_view k m a = Some (k', m') /\ kept x k' m' /\ k_posture k' = k_posture k /\ k_node k' = k_node k /\
    k_frontier k' = k_frontier k /\ k_config k' = k_config k /\ k_pending_sb k' = Some (id, a).
Proof.
  intros Hk Hl Hc Ha. set (k0 := forget_sb k) in *. pose proof (effective_is_root m) as Her.
  pose proof (so_checkpoint _ (kp_sound _ _ _ Hk _ Her)) as Hcp.
  destruct (durable_root_builds x k0 m (Z.max (nd_commit_max (k_node k)) (v_checkpoint_op (effective_root m)))
              (v_checkpoint_op (effective_root m)) (v_checkpoint_id (effective_root m)) Hk Hcp) as (st & Hst' & Hb); [cbn; lia..|].
  destruct (mint_some k0 Hl) as (id & k1 & Hm). destruct (kept_mint x k0 k1 m id Hk Hm) as (Hk1 & Ho & Hnl & Hne).
  destruct (proj2 (submit_root_accepts m DurableView id st) (bu_accepted _ _ _ _ Hb)) as [m' Hsub].
  pose proof (submit_grows m m' DurableView id st (kp_rooted _ _ _ Hk) Hnl (bu_stamped _ _ _ _ Hb) Hsub) as Hg.
  destruct (mint_spec k0 k1 id Hm) as (Hf & Hn & Hp & Hfr & Hcf & How & Hrc & Hwc & _).
  injection Hf as _ Hv _ _ Hcu Hme _ _ _ _ Hpc Hpi _.
  assert (Hkg : kept x k1 m').
  { apply (kept_grows x k1 m m' DurableView id st Hk1 Hg); [apply Ho|apply Hb| | | | |].
    - rewrite Hv, (bu_view _ _ _ _ Hb). done.
    - rewrite Hme. apply Hb.
    - intros i b Hi. unfold k_pending_sb in Hi. rewrite How in Hi. done.
    - intros pc Hpc'. split; [done|]. rewrite Hpc in Hpc'. destruct (kp_pc _ _ _ Hk pc Hpc') as [_ Hstep].
      intros i Hi. apply Hne. destruct (pc_step pc); [done| |]; injection Hi as <-; [destruct Hstep as (_ & [_ Hmi] & _)|destruct Hstep as ([_ Hmi] & _)]; done.
    - intros op Hbl _. rewrite (bu_checkpoint _ _ _ _ Hb). by apply Hbl. }
  exists (with_owed k1 (set_sb (k_owed k1) (Some (id, a)))), m', id.
  split; [|split; [|cbn; rewrite Hp, Hn, Hfr, Hcf; done]].
  - unfold submit_durable_view. change (k_view k0) with (k_view k) in Hst'. change (k_log_view k0) with (k_log_view k) in Hst'.
    change (k_node k0) with (k_node k) in Hst'. change (durable_root k0) with (durable_root k) in Hst'. rewrite Hst'. cbn. unfold mint in Hm |- *. cbn in Hm.
    destruct (mint_write_id (k_appends k)) as [[i ap]|]; [|done]. cbn in Hm |- *. injection Hm as -> <-. rewrite Hsub. reflexivity.
  - eapply (kept_with_sb x _ m' id a); [eapply kept_frame; [exact Hkg| |reflexivity]| |done|].
    + unfold face, k_pending_sb, k_pending_checkpoint, k_pending_install. cbn. rewrite How. reflexivity.
    + cbn. unfold catching_up. cbn. rewrite Hp. exact Hc.
    + split_and!; [done| |intros e Hin Hei|].
      * rewrite (gr_checkpoints _ _ _ _ _ Hg). intros Hd. apply Hnl. by left.
      * destruct (gr_timeline _ _ _ _ _ Hg e Hin) as [Ho'|[_ ->]]; [exfalso; apply Hnl; right; eauto|].
        split; [|intros op s Hs; by destruct (Ha op s)]. rewrite (bu_view _ _ _ _ Hb). symmetry. exact Hv.
      * intros pc Hpc'. change (k_pending_checkpoint k1 = Some pc) in Hpc'. rewrite Hpc in Hpc'. split; [|done].
        destruct (kp_pc _ _ _ Hk pc Hpc') as [_ Hstep]. destruct (pc_step pc) as [|i dag|i dag]; [done| |]; intros [= ->];
          [destruct Hstep as (_ & [_ Hmi] & _)|destruct Hstep as ([_ Hmi] & _)]; by apply (Hne id Hmi).
Qed.

(** ** View transitions *)

Definition forget_install (k : Keeper) : Keeper := with_owed k (set_install (k_owed k) None).

Lemma kept_forget_install x k m : kept x k m -> kept x (forget_install k) m.
Proof.
  intros []. split; try assumption; [|done]. intros pc Hp. destruct (kp_pc0 pc Hp) as [Ht Hs]. split; [done|].
  destruct (pc_step pc) as [| |id dag]; [done|done|]. destruct Hs as (? & ? & ? & Hc).
  split_and!; try assumption. intros e He Hid. split; [by apply Hc|]. intros i s' Hi. discriminate Hi.
Qed.

Lemma drop_checkpoint_kept x k m k' m' :
  kept x k m -> drop_checkpoint_for_transition k m = (k', m') ->
  kept x k' m' /\ (k' = k \/ k' = forget_pc k \/ k' = with_owed k (count_disowned (set_pc (k_owed k) None))).
Proof.
  intros Hk. unfold drop_checkpoint_for_transition. destruct (k_pending_checkpoint k) as [pc|] eqn:Hpc; [|intros [= <- <-]; auto].
  destruct (dropped_by_transition pc); [|intros [= <- <-]; auto].
  pose proof (kept_forget_pc x x k m Hk) as Hf.
  destruct (pc_step pc) as [|id dag|id dag]; intros [= <- <-]; [auto|auto|]. split; [|auto].
  apply (kept_frame x (forget_pc k)); [|reflexivity|reflexivity].
  apply (kept_shrinks x x (forget_pc k) m); [exact Hf|by apply abandon_shrinks, (kp_rooted _ _ _ Hk)|done].
Qed.

Lemma reset_kept x k m now k' m' :
  kept x (forget_sb k) m -> reset_for_view_transition k m now = Some (k', m') ->
  kept x (forget_sb k') m' /\ k_view k' = k_view k /\ k_log_view k' = k_log_view k /\ k_status k' = k_status k /\
  k_pending_sb k' = k_pending_sb k /\ p_view_change (k_posture k') = p_view_change (k_posture k) /\
  ap_next_op_id (k_appends k') = ap_next_op_id (k_appends k) /\ k_pending_install k' = None /\
  k_membership k' = k_membership k /\ k_durable_view k' = k_durable_view k /\ k_checkpoint_op k' = k_checkpoint_op k /\
  (k_pending_checkpoint k' = k_pending_checkpoint k \/ k_pending_checkpoint k' = None).
Proof.
  intros Hk. unfold reset_for_view_transition, recompute_quorum_checkpoint. cbn zeta.
  destruct (compute_quorum_checkpoint_op _ _ _ _) as [q|]; [|done]. cbn [mbind option_bind].
  match goal with |- context [drop_checkpoint_for_transition ?a m] => set (k1 := a) end.
  destruct (drop_checkpoint_for_transition k1 m) as [k2 m2] eqn:Hd. intros [= <- <-].
  assert (Hk1 : kept x (forget_sb k1) m) by (eapply kept_frame; [exact Hk|reflexivity|reflexivity]).
  assert (Hd' : drop_checkpoint_for_transition (forget_sb k1) m = (forget_sb k2, m2)).
  { revert Hd. unfold drop_checkpoint_for_transition. change (k_pending_checkpoint (forget_sb k1)) with (k_pending_checkpoint k1).
    destruct (k_pending_checkpoint k1) as [pc|]; [|by intros [= <- <-]]. destruct (dropped_by_transition pc); [|by intros [= <- <-]].
    destruct (pc_step pc); by intros [= <- <-]. }
  destruct (drop_checkpoint_kept x _ _ _ _ Hk1 Hd') as [Hk2 _].
  assert (Hcases : k2 = k1 \/ k2 = forget_pc k1 \/ k2 = with_owed k1 (count_disowned (set_pc (k_owed k1) None))).
  { revert Hd. unfold drop_checkpoint_for_transition. destruct (k_pending_checkpoint k1) as [pc|]; [|intros [= <- <-]; auto].
    destruct (dropped_by_transition pc); [|intros [= <- <-]; auto]. destruct (pc_step pc); intros [= <- <-]; auto. }
  split.
  - eapply kept_frame; [apply (kept_forget_install x _ _ Hk2)| |reflexivity].
    unfold face, k_pending_sb, k_pending_checkpoint, k_pending_install. cbn. destruct (negb _); [reflexivity|]. by destruct (is_normal _).
  - destruct Hcases as [-> | [-> | ->]]; cbn; destruct (negb _); try destruct (is_normal _);
      (split_and!; [reflexivity..|first [left; reflexivity|right; reflexivity]]).
Qed.

Lemma reset_some (k : Keeper) (m : Medium) now : wf (k_membership k) -> exists k' m', reset_for_view_transition k m now = Some (k', m').
Proof.
  intros Hw. unfold reset_for_view_transition, recompute_quorum_checkpoint. cbn zeta.
  match goal with |- context [compute_quorum_checkpoint_op ?a ?b ?c ?d] =>
    destruct (quorum_checkpoint_exact a b c d Hw) as (q & -> & _) end.
  cbn [mbind option_bind]. destruct (drop_checkpoint_for_transition _ _) as [k2 m2]. eauto.
Qed.

Lemma kept_repose x k m p :
  kept x (forget_sb k) m -> p_log_view p <= k_view k -> p_durable_view p <= v_view (durable m) -> kept x (forget_sb (with_posture k p)) m.
Proof. intros [] Hl Hd. split; try assumption; done. Qed.

Lemma kept_raise_view x k m v : kept x (forget_sb k) m -> k_view k <= v -> kept x (forget_sb (set_view k v)) m.
Proof.
  intros [] Hv. split; try assumption.
  - intros r Hr. specialize (kp_view0 r Hr). cbn in *. etransitivity; [exact kp_view0|exact Hv].
  - change (k_log_view k <= v). change (k_log_view k <= k_view k) in kp_log_view0. lia.
  - done.
Qed.

Lemma face_set_status (k : Keeper) s : face (set_status k s) = face k /\ k_appends (set_status k s) = k_appends k.
Proof. unfold set_status. by case_bool_decide. Qed.

Lemma forget_status (k : Keeper) s : forget_sb (set_status k s) = set_status (forget_sb k) s.
Proof. unfold set_status. change (k_status (forget_sb k)) with (k_status k). by case_bool_decide. Qed.

Lemma kept_status x k m s : kept x (forget_sb k) m -> kept x (forget_sb (set_status k s)) m.
Proof.
  intros Hk. rewrite forget_status. destruct (face_set_status (forget_sb k) s) as [Hf Ha].
  eapply kept_frame; [exact Hk|exact Hf|by rewrite Ha].
Qed.

Lemma status_keeps (k : Keeper) s :
  k_view (set_status k s) = k_view k /\ k_membership (set_status k s) = k_membership k /\ k_log_view (set_status k s) = k_log_view k /\
  k_durable_view (set_status k s) = k_durable_view k /\ ap_next_op_id (k_appends (set_status k s)) = ap_next_op_id (k_appends k) /\
  k_status (set_status k s) = s /\ p_view_change (k_posture (set_status k s)) = p_view_change (k_posture k) /\ k_pending_sb (set_status k s) = k_pending_sb k.
Proof. unfold set_status. case_bool_decide as Hs; [|done]. split_and!; try done. Qed.

(** Entering a view change: the new view's root is accepted. *)
Lemma enter_view_change_kept k m now v :
  kept None (forget_sb k) m -> ids_left k -> k_view k <= v ->
  exists k' m', enter_view_change k m now v = Some (k', m') /\ kept None k' m' /\ k_view k' = v /\ k_status k' = ViewChange.
Proof.
  intros Hk Hl Hv. unfold enter_view_change. set (k1 := set_svc_target (set_status (set_view k v) ViewChange) v).
  destruct (status_keeps (set_view k v) ViewChange) as (Hs1 & Hs2 & Hs3 & Hs4 & Hs5 & Hs6 & _).
  pose proof (kept_status _ _ _ ViewChange (kept_raise_view _ _ _ _ Hk Hv)) as Hr.
  assert (Hk1 : kept None (forget_sb k1) m).
  { apply kept_repose; [exact Hr|exact (kp_log_view _ _ _ Hr)|exact (kp_durable _ _ _ Hr)]. }
  destruct (reset_some k1 m now) as (k2 & m2 & Hreset); [apply (kp_config _ _ _ Hk1)|]. rewrite Hreset. cbn [mbind option_bind].
  destruct (reset_kept None k1 m now k2 m2 Hk1 Hreset) as (Hk2 & Hv2 & Hlv2 & Hst2 & _ & _ & Hn2 & _).
  set (k3 := drop_pipeline (set_collection k2 (Some (entering false)))).
  destruct (submit_durable_view_kept None k3 m2 SendDoViewChange) as (k' & m' & id & Hsub & Hk' & Hp & Hn & _).
  - apply (kept_frame None (forget_sb (set_collection k2 (Some (entering false))))); [|reflexivity|reflexivity].
    apply kept_repose; [exact Hk2|exact (kp_log_view _ _ _ Hk2)|exact (kp_durable _ _ _ Hk2)].
  - unfold ids_left in *. change (ap_next_op_id (k_appends k2) < umax 64). rewrite Hn2.
    change (ap_next_op_id (k_appends (set_status (set_view k v) ViewChange)) < umax 64). by rewrite Hs5.
  - done.
  - done.
  - exists k', m'. split; [exact Hsub|]. split; [done|]. unfold k_view, k_status. rewrite Hn, Hp. split.
    + change (k_view k2 = v). rewrite Hv2. change (k_view (set_status (set_view k v) ViewChange) = v). by rewrite Hs1.
    + change (k_status k2 = ViewChange). rewrite Hst2. change (k_status (set_status (set_view k v) ViewChange) = ViewChange). by rewrite Hs6.
Qed.

Lemma settle_new_primary_kept k m :
  kept None (forget_sb k) m -> ids_left k ->
  exists k' m', settle_new_primary k m = Some (k', m') /\ kept None k' m' /\ k_view k' = k_view k /\ k_log_view k' = k_view k.
Proof.
  intros Hk Hl. unfold settle_new_primary. set (k1 := set_log_view k (k_view k)).
  destruct (status_keeps k1 Normal) as (Hs1 & Hs2 & Hs3 & Hs4 & Hs5 & Hs6 & _).
  assert (Hk1 : kept None (forget_sb (set_status k1 Normal)) m).
  { apply kept_status, kept_repose; [exact Hk|cbn; reflexivity|exact (kp_durable _ _ _ Hk)]. }
  set (k2 := with_posture (push_event (set_status k1 Normal) _) _).
  destruct (submit_durable_view_kept None k2 m StartViewAsPrimary) as (k' & m' & id & Hsub & Hk' & Hp & Hn & _).
  - apply (kept_repose None (push_event (set_status k1 Normal) _)); [|exact (kp_log_view _ _ _ Hk1)|exact (kp_durable _ _ _ Hk1)].
    apply (kept_frame None (forget_sb (set_status k1 Normal))); [exact Hk1|reflexivity|reflexivity].
  - unfold ids_left in *. change (ap_next_op_id (k_appends (set_status k1 Normal)) < umax 64). by rewrite Hs5.
  - done.
  - done.
  - exists k', m'. split; [exact Hsub|]. split; [done|]. unfold k_view, k_log_view. rewrite Hn, Hp.
    split; [exact Hs1|exact Hs3].
Qed.

Lemma recompute_some (k : Keeper) : wf (k_membership k) ->
  exists k', recompute_quorum_checkpoint k = Some k' /\ face k' = face k /\ k_appends k' = k_appends k /\ k_posture k' = k_posture k /\ k_node k' = k_node k.
Proof.
  intros Hw. unfold recompute_quorum_checkpoint.
  destruct (quorum_checkpoint_exact (k_membership k) (k_local k) (f_checkpoint_op (k_frontier k)) (f_peer_checkpoint (k_frontier k)) Hw)
    as (q & -> & _). eexists. split; [reflexivity|]. done.
Qed.

Lemma record_peer_some (k : Keeper) replica op : wf (k_membership k) ->
  exists k', k_record_peer_checkpoint k replica op = Some k' /\ face k' = face k /\ k_appends k' = k_appends k /\ k_posture k' = k_posture k /\ k_node k' = k_node k.
Proof.
  intros Hw. unfold k_record_peer_checkpoint. destruct (member_at _ _); [|by exists k].
  match goal with |- context [recompute_quorum_checkpoint ?a] => destruct (recompute_some a Hw) as (k' & Hr & Hf & Ha) end.
  exists k'. split; [done|]. split; [exact Hf|exact Ha].
Qed.

Lemma reset_recover (k : Keeper) (m : Medium) now k' m' : reset_for_view_transition k m now = Some (k', m') -> k_recover k' = k_recover k.
Proof.
  unfold reset_for_view_transition, recompute_quorum_checkpoint. cbn zeta.
  destruct (compute_quorum_checkpoint_op _ _ _ _); [|done]. cbn [mbind option_bind]. unfold drop_checkpoint_for_transition.
  destruct (k_pending_checkpoint _) as [pc|]; [|by intros [= <- _]]. destruct (dropped_by_transition pc); [|by intros [= <- _]].
  destruct (pc_step pc); by intros [= <- _].
Qed.

Lemma record_peer_recover (k : Keeper) replica op k' : k_record_peer_checkpoint k replica op = Some k' -> k_recover k' = k_recover k.
Proof.
  unfold k_record_peer_checkpoint, recompute_quorum_checkpoint. destruct (member_at _ _); [|by intros [= <-]].
  destruct (compute_quorum_checkpoint_op _ _ _ _); [|done]. by intros [= <-].
Qed.

Lemma settle_adopted_head_kept k m now floor :
  kept None (forget_sb k) m -> ids_left k -> read_fence_open k = false ->
  exists k' m', settle_adopted_head k m now floor = Some (k', m') /\ kept None k' m' /\ k_view k' = k_view k /\ k_log_view k' = k_view k.
Proof.
  intros Hk Hl Hfence. unfold settle_adopted_head. set (k1 := set_log_view k (k_view k)).
  destruct (status_keeps k1 Normal) as (Hs1 & Hs2 & Hs3 & Hs4 & Hs5 & Hs6 & _).
  assert (Hk1 : kept None (forget_sb (set_status k1 Normal)) m).
  { apply kept_status, kept_repose; [exact Hk|cbn; reflexivity|exact (kp_durable _ _ _ Hk)]. }
  set (k2 := push_event (set_status k1 Normal) _).
  assert (Hk2 : kept None (forget_sb k2) m) by (apply (kept_frame None (forget_sb (set_status k1 Normal))); [exact Hk1|reflexivity|reflexivity]).
  destruct (reset_some k2 m now) as (k3 & m3 & Hreset); [apply (kp_config _ _ _ Hk2)|]. rewrite Hreset. cbn [mbind option_bind].
  destruct (reset_kept None k2 m now k3 m3 Hk2 Hreset) as (Hk3 & Hv3 & Hlv3 & Hst3 & _ & _ & Hn3 & _).
  assert (Hpeers : exists k4, (if 0 <? floor then k_record_peer_checkpoint k3 (primary (k_membership k3) (k_view k)) floor else Some k3) = Some k4
    /\ face k4 = face k3 /\ k_appends k4 = k_appends k3 /\ k_posture k4 = k_posture k3 /\ k_node k4 = k_node k3).
  { destruct (0 <? floor); [|by exists k3]. apply record_peer_some. apply (kp_config _ _ _ Hk3). }
  destruct Hpeers as (k4 & Hx4 & Hf4 & Ha4 & Hp4 & Hn4).
  assert (Hr4' : k_recover k4 = k_recover k3) by (revert Hx4; destruct (0 <? floor); [apply record_peer_recover|by intros [= <-]]).
  rewrite Hx4. clear Hx4. cbn [mbind option_bind].
  assert (Hk4 : kept None (forget_sb k4) m3).
  { apply (kept_frame None (forget_sb k3)); [exact Hk3|by apply face_forget|by cbn; rewrite Ha4]. }
  assert (Hr4 : read_fence_open (set_collection k4 None) = false).
  { unfold read_fence_open. change (k_recover (set_collection k4 None)) with (k_recover k4). rewrite Hr4', (reset_recover _ _ _ _ _ Hreset).
    subst k2 k1. unfold set_status. by case_bool_decide. }
  rewrite Hr4. set (k5 := with_recover (set_collection k4 None) None).
  destruct (submit_durable_view_kept None k5 m3 AdoptedStartView) as (k' & m' & id & Hsub & Hk' & Hp & Hn & _).
  - apply (kept_frame None (forget_sb (set_collection k4 None))); [|reflexivity|reflexivity].
    apply kept_repose; [exact Hk4|exact (kp_log_view _ _ _ Hk4)|exact (kp_durable _ _ _ Hk4)].
  - unfold ids_left in *. change (ap_next_op_id (k_appends k4) < umax 64). rewrite Ha4, Hn3.
    change (ap_next_op_id (k_appends (set_status k1 Normal)) < umax 64). by rewrite Hs5.
  - done.
  - done.
  - exists k', m'. split; [exact Hsub|]. split; [done|]. unfold k_view, k_log_view. rewrite Hn, Hp.
    change (nd_view (k_node k4) = k_view k /\ p_log_view (k_posture k4) = k_view k). rewrite Hn4, Hp4.
    split; [by etransitivity; [exact Hv3|exact Hs1]|by etransitivity; [exact Hlv3|exact Hs3]].
Qed.

Lemma abandon_pending_kept k m k' m' :
  kept None (forget_sb k) m -> abandon_pending_sb k m = (k', m') ->
  kept None k' m' /\ k_view k' = k_view k /\ k_log_view k' = k_log_view k /\ k_pending_sb k' = None /\ k_posture k' = k_posture k /\
  k_appends k' = k_appends k.
Proof.
  intros Hk. unfold abandon_pending_sb. destruct (k_pending_sb k) as [[id a]|] eqn:Hsb; intros [= <- <-].
  - split; [|done]. apply (kept_shrinks None None (forget_sb k) m _ Hk); [by apply abandon_shrinks, (kp_rooted _ _ _ Hk)|].
    intros pc i dag _ _ [Ha|Ha]; [left; by apply awaited_abandon|by right].
  - split; [|done]. apply (kept_frame None (forget_sb k)); [exact Hk| |reflexivity].
    unfold face. rewrite Hsb. reflexivity.
Qed.

Lemma enter_catch_up_kept k m now :
  kept None (forget_sb k) m ->
  exists k' m', enter_catch_up_posture k m now = Some (k', m') /\ kept None k' m' /\ k_view k' = k_view k /\ k_log_view k' = k_log_view k.
Proof.
  intros Hk. unfold enter_catch_up_posture. set (k1 := set_svc_target (set_status k ViewChange) (k_view k)).
  destruct (status_keeps k ViewChange) as (Hs1 & Hs2 & Hs3 & Hs4 & Hs5 & Hs6 & _).
  assert (Hk1 : kept None (forget_sb k1) m).
  { pose proof (kept_status _ _ _ ViewChange Hk) as Hr. apply kept_repose; [exact Hr|exact (kp_log_view _ _ _ Hr)|exact (kp_durable _ _ _ Hr)]. }
  destruct (reset_some k1 m now) as (k2 & m2 & Hreset); [apply (kp_config _ _ _ Hk1)|]. rewrite Hreset. cbn [mbind option_bind].
  destruct (reset_kept None k1 m now k2 m2 Hk1 Hreset) as (Hk2 & Hv2 & Hlv2 & Hst2 & _ & _ & Hn2 & _).
  set (k3 := drop_pipeline (set_collection k2 (Some (entering true)))).
  assert (Hk3 : kept None (forget_sb k3) m2).
  { apply (kept_frame None (forget_sb (set_collection k2 (Some (entering true))))); [|reflexivity|reflexivity].
    apply kept_repose; [exact Hk2|exact (kp_log_view _ _ _ Hk2)|exact (kp_durable _ _ _ Hk2)]. }
  destruct (abandon_pending_sb k3 m2) as [k' m'] eqn:Hab. exists k', m'. split; [done|].
  destruct (abandon_pending_kept k3 m2 k' m' Hk3 Hab) as (Hk' & Hv' & Hlv' & _). split; [done|]. split.
  - rewrite Hv'. change (k_view k2 = k_view k). rewrite Hv2. exact Hs1.
  - rewrite Hlv'. change (k_log_view k2 = k_log_view k). rewrite Hlv2. exact Hs3.
Qed.

(** A revert that does not fall below the adopted log's view. *)
Lemma revert_kept k m :
  kept None k m -> catching_up k = true -> k_log_view k <= Z.max (k_durable_view k) (v_view (effective_root m)) ->
  kept None (revert_catch_up_to_effective_view k (Z.max (k_durable_view k) (v_view (effective_root m)))) m.
Proof.
  intros Hk Hc Hl. pose proof (kp_catching _ _ _ Hk Hc) as Hsb. set (v := Z.max _ _) in *.
  set (p := k_posture k). set (p' := mkPosture (p_status p) (p_log_view p) (p_durable_view p) None v 0 (p_pending_forfeit p)).
  set (k1 := with_posture (set_view k v) p').
  assert (Hk1 : kept None k1 m).
  { assert (Hv : forall r, is_root m r -> v_view r <= v).
    { intros r Hr. destruct (root_le_effective m r (kp_rooted _ _ _ Hk) Hr) as [-> |Hn]; [lia|]. apply no_rewind_spec in Hn. lia. }
    destruct Hk. split; try assumption; try done.
    intros id a Ha. change (k_pending_sb k = Some (id, a)) in Ha. congruence. }
  assert (Hk2 : kept None (set_status k1 Normal) m).
  { destruct (face_set_status k1 Normal) as [Hf Ha]. eapply kept_frame; [exact Hk1|exact Hf|by rewrite Ha]. }
  unfold revert_catch_up_to_effective_view. change (set_status _ Normal) with (set_status k1 Normal).
  destruct (k_is_primary _); [|exact Hk2]. apply (kept_frame None (set_status k1 Normal)); [exact Hk2|reflexivity|reflexivity].
Qed.

(** ** The checkpoint sequence *)

Lemma issue_kept x k m kind job k' m' :
  kept x k m -> issue_block_job k m kind = Some (job, k', m') ->
  kept x k' m' /\ roots_face m' = roots_face m /\ mint k = Some (job, k').
Proof.
  intros Hk. unfold issue_block_job. destruct (mint k) as [[id k1]|] eqn:Hm; [|done]. cbn [mbind option_bind].
  unfold enqueue_block_job. destruct (enqueue (lane m) id kind) as [l|]; [|done]. cbn. intros [= -> -> <-].
  destruct (kept_mint x k k' m job Hk Hm) as [Hk1 _]. split; [|done]. by apply (kept_face x k' m).
Qed.

Lemma force_checkpoint_kept k m k' m' :
  kept None k m -> k_pending_checkpoint k = None -> k_pending_install k = None -> 0 <= nd_commit_min (k_node k) < umax 64 ->
  (forall id op s, k_pending_sb k <> Some (id, SwapEpoch op s)) ->
  force_checkpoint k m = Some (k', m') -> kept None k' m' /\ k_view k' = k_view k /\ k_pending_sb k' = k_pending_sb k.
Proof.
  intros Hk Hpc Hpi Hr Hsb. unfold force_checkpoint.
  destruct (materialize_owed _ || _); [by intros [= <- <-]|].
  destruct (Z.ltb_spec (nd_commit_min (k_node k)) (effective_checkpoint_pair m).1) as [|Hle]; [by intros [= <- <-]|]. cbn [orb].
  destruct (issue_block_job _ _ _) as [[[job k1] m1]|] eqn:Hi; [|done]. cbn. intros [= <- <-].
  destruct (issue_kept None k m _ job k1 m1 Hk Hi) as (Hk1 & Hf & Hm).
  destruct (mint_spec k k1 job Hm) as (Hfc & Hn & Hp & _ & _ & Ho & _). injection Hfc as _ Hv _ _ _ _ _ _ _ Hsb1 Hpc1 Hpi1 _.
  split; [|unfold k_view, k_pending_sb; cbn; rewrite Hn, Ho; done].
  assert (Hb : below m1 (nd_commit_min (k_node k))).
  { intros r Hr1. assert (Hrm : is_root m r).
    { apply (sh_root m m1); [apply shrinks_face; [apply (kp_rooted _ _ _ Hk)|done]|done]. }
    destruct (root_le_effective m r (kp_rooted _ _ _ Hk) Hrm) as [-> |Hnr].
    - revert Hle. unfold effective_checkpoint_pair, effective_root. by destruct (latest_root m).
    - apply no_rewind_spec in Hnr as (_ & Hcp & _). etransitivity; [exact Hcp|].
      revert Hle. unfold effective_checkpoint_pair, effective_root. by destruct (latest_root m). }
  eapply (kept_with_pc None _ m1); [apply (kept_frame None k1); [exact Hk1| |reflexivity]|reflexivity| | |].
  - unfold face, k_pending_sb, k_pending_checkpoint, k_pending_install in *. cbn. by rewrite Hpc1, Hpc.
  - split; [done|exact Hb].
  - intros i Hi1. change (k_pending_install k1 = Some i) in Hi1. congruence.
  - intros id a Ha. change (k_pending_sb k1 = Some (id, a)) in Ha. rewrite Hsb1 in Ha. split; [done|]. intros op s ->. by apply (Hsb id op s).
Qed.

Lemma await_snapshot_kept k m pc dag env b k' m' :
  kept None k m -> k_pending_checkpoint k = Some pc -> (exists j, pc_step pc = FlushingBlocks j) ->
  await_snapshot k m pc dag env = Some (b, k', m') -> kept None k' m'.
Proof.
  intros Hk Hpc [j Hj]. unfold await_snapshot. destruct (mint k) as [[id k1]|] eqn:Hm; [|done]. cbn [mbind option_bind].
  destruct (kept_mint None k k1 m id Hk Hm) as (Hk1 & Hown & Hnl & Hne).
  destruct (mint_spec k k1 id Hm) as (Hfc & _ & _ & _ & _ & Ho & _). injection Hfc as _ Hv _ _ _ _ _ _ _ Hsb1 Hpc1 Hpi1 _.
  destruct (submit_checkpoint m id (pc_target_op pc) env) as [v m1] eqn:Hs.
  destruct (envelope_shrinks m m1 v id _ env (kp_rooted _ _ _ Hk) Hnl Hs) as (Hr & Ht & Hd & Hadv & Hdom & Haw & Hfen).
  destruct (advances_le _ _ Hadv) as [Hav Hac].
  assert (Hroot : forall r, is_root m1 r -> is_root m r).
  { intros r [-> |(e & He & ->)]; [done|]. right. exists e. by rewrite Ht in He. }
  destruct (kp_pc _ _ _ Hk pc Hpc) as [Htgt Hstep]. rewrite Hj in Hstep.
  assert (Hk2 : kept None (forget_pc k1) m1).
  { destruct (kept_forget_pc None None k1 m Hk1). split; try assumption; try done.
    - intros i [Hi|(e & He & Hi)]; [|apply kp_ids0; right; exists e; by rewrite Ht in He].
      apply Hdom, elem_of_union in Hi as [->%elem_of_singleton|Hi]; [apply Hown|apply kp_ids0; by left].
    - intros r Hr1. by apply kp_sound0, Hroot.
    - intros r Hr1. by apply kp_view0, Hroot.
    - lia.
    - lia.
    - intros r Hr1. by apply kp_epoch0, Hroot.
    - intros f Hf. specialize (kp_inherited0 f Hf). lia.
    - intros i a Ha. destruct (kp_sb0 i a Ha) as (? & Hnd & Htl & ?). split_and!; try assumption; [|by rewrite Ht].
      intros Hi. apply Hdom, elem_of_union in Hi as [->%elem_of_singleton|Hi]; [|done].
      apply (Hne id); [|done]. change (k_pending_sb k1 = Some (id, a)) in Ha. rewrite Hsb1 in Ha.
      by destruct (kp_sb _ _ _ Hk id a Ha) as ((_ & Hmi) & _).
    - intros i Hi. destruct (kp_install0 i Hi) as (? & Hb & Hsu & ?).
      refine (conj _ (conj _ (conj _ _))); try assumption; [intros r Hr1; by apply Hb, Hroot|].
      intros s Hs'. destruct (Hsu s Hs') as [? Hor]. split; [done|]. by eapply successor_frame.
    - intros op s Hw. destruct (kp_swap0 op s Hw) as [? Hor]. split; [done|]. by eapply successor_frame. }
  destruct v; intros [= <- <- <-]; [|exact Hk2].
  eapply (kept_with_pc None _ m1); [apply (kept_frame None (forget_pc k1)); [exact Hk2|reflexivity|reflexivity]|reflexivity| | |].
  - split; [done|]. split_and!; [intros r Hr1; by apply Hstep, Hroot|exact Hown|].
    intros e He Hid. apply Hnl. right. exists e. by rewrite Ht in He.
  - intros i Hi. change (k_pending_install k1 = Some i) in Hi. rewrite Hpi1 in Hi.
    destruct (kp_install _ _ _ Hk i Hi) as (_ & _ & _ & Hx). exact (Hx pc Hpc).
  - intros i a Ha. change (k_pending_sb k1 = Some (i, a)) in Ha. rewrite Hsb1 in Ha.
    destruct (kp_sb _ _ _ Hk i a Ha) as ((_ & Hmi) & _ & _ & Hno). destruct (Hno pc Hpc) as [_ Hsw]. split; [|done].
    intros [= ->]. by apply (Hne i Hmi).
Qed.

Lemma flushing_spec (k : Keeper) job pc : flushing k job = Some pc -> k_pending_checkpoint k = Some pc /\ exists j, pc_step pc = FlushingBlocks j.
Proof.
  unfold flushing. destruct (k_pending_checkpoint k) as [p|]; [|done]. cbn. destruct (pc_step p) eqn:Hs; try done.
  case_bool_decide; [|done]. intros [= <-]. eauto.
Qed.

Lemma materialized_kept k m job sm ss flush k' m' :
  kept None k m -> on_checkpoint_materialized k m job sm ss flush = Some (k', m') -> kept None k' m'.
Proof.
  intros Hk. unfold on_checkpoint_materialized. destruct (flushing k job) as [pc|] eqn:Hf.
  - destruct (flushing_spec k job pc Hf) as [Hpc Hj]. destruct (negb flush); [intros [= <- <-]; exact (kept_forget_pc None None k m Hk)|].
    destruct (await_snapshot _ _ _ _ _) as [[[b k1] m1]|] eqn:Ha; [|done]. cbn. intros [= <- <-]. by eapply await_snapshot_kept.
  - intros [= <- <-]. apply (kept_frame None k); [exact Hk|reflexivity|reflexivity].
Qed.

Lemma flushed_kept k m job flush b k' m' :
  kept None k m -> on_checkpoint_blocks_flushed k m job flush = Some (b, k', m') -> kept None k' m'.
Proof.
  intros Hk. unfold on_checkpoint_blocks_flushed. destruct (flushing k job) as [pc|] eqn:Hf.
  - destruct (flushing_spec k job pc Hf) as [Hpc Hj]. destruct (k_pending_install k) as [i|].
    + destruct (negb flush); [intros [= _ <- <-]; exact (kept_forget_pc None None k m Hk)|]. by apply await_snapshot_kept.
    + intros [= _ <- <-]. apply (kept_frame None (forget_pc k)); [exact (kept_forget_pc None None k m Hk)|reflexivity|reflexivity].
  - intros [= _ <- <-]. apply (kept_frame None k); [exact Hk|reflexivity|reflexivity].
Qed.

(** The crossing root of an install is accepted too. *)
Lemma successor_root_builds x k m commit cp cpid s prev op :
  kept x k m -> 0 <= cp < umax 64 -> v_checkpoint_op (effective_root m) <= cp -> nd_commit_max (k_node k) <= commit -> cp <= commit ->
  on_history s op -> v_epoch (effective_root m) < m_epoch s -> m_epoch (k_membership k) <= m_epoch s ->
  exists st, durable_root_with_successor k (k_view k) (k_log_view k) commit cp cpid (committed_band_headers (k_node k) cp) s prev op = Some st
    /\ builds k m cp st /\ v_epoch st = m_epoch s.
Proof.
  intros Hk Hcp Heff Hc Hcc Hh He Hme. pose proof (effective_is_root m) as Her. pose proof (kp_sound _ _ _ Hk _ Her) as Hes.
  pose proof (kp_log_view _ _ _ Hk) as Hlv. pose proof (kp_view _ _ _ Hk _ Her) as Hev.
  unfold durable_root_with_successor. set (ring := match prev with Some _ => _ | None => _ end).
  destruct (root_built (k_node k) (k_view k) (k_log_view k) commit cp cpid (m_epoch s) (Z.max 0 (m_epoch s - 1)) s ring op (Z.max (k_log_floor k) cp))
    as (r & Hs & Hvv & Hvl & Hvc & Hve & Hvm & Hvi & Hvf); [done|done|done|done|done|lia|].
  rewrite Hs. cbn. eexists. split; [reflexivity|]. destruct r; cbn in *; subst. split; [|done].
  split; cbn; try done; try lia; [split; cbn; try done; lia|]. eapply accepted_over; try done; cbn; lia.
Qed.

(** The root of a checkpoint whose envelope landed, before it is submitted. *)
Lemma checkpoint_root_builds k m pc id dag :
  kept None k m -> k_pending_checkpoint k = Some pc -> pc_step pc = AwaitSnapshot id dag ->
  let target := pc_target_op pc in
  let commit := Z.max (nd_commit_max (k_node k)) target in
  let headers := committed_band_headers (k_node k) target in
  let ordinary := durable_root k (effective_root m) (k_view k) (k_log_view k) commit target (dag_checkpoint_id dag) headers in
  exists st,
    match (match pc_kind pc with
           | SyncRepersist => i ← k_pending_install k; s ← pi_successor i; Some (s, pi_successor_prev_config_id i, pi_successor_install_op i)
           | Ordinary => None
           end) with
    | Some (s, prev, install_op) =>
        if v_epoch (effective_root m) <? m_epoch s
        then op ← install_op; durable_root_with_successor k (k_view k) (k_log_view k) commit target (dag_checkpoint_id dag) headers s prev op
        else ordinary
    | None => ordinary
    end = Some st /\ builds k m target st /\ crossed k st.
Proof.
  intros Hk Hpc Hs target commit headers ordinary. destruct (kp_pc _ _ _ Hk pc Hpc) as [Ht Hstep]. rewrite Hs in Hstep. destruct Hstep as (Hb & _ & _).
  assert (Heff : v_checkpoint_op (effective_root m) <= target) by apply Hb, effective_is_root.
  destruct (durable_root_builds None k m commit target (dag_checkpoint_id dag) Hk Ht Heff) as (st & Hst & Hbu); [lia..|].
  destruct (k_pending_install k) as [i|] eqn:Hi.
  - destruct (kp_install _ _ _ Hk i Hi) as (_ & _ & Hsu & Hx). destruct (Hx pc Hpc) as [_ ->]. cbn [mbind option_bind].
    destruct (pi_successor i) as [s|] eqn:Hsi; cbn [mbind option_bind].
    2:{ exists st. split_and!; [exact Hst|done|]. intros j s'. rewrite Hi. congruence. }
    destruct (Hsu s eq_refl) as [(op & -> & Hh) Hor]. destruct (Z.ltb_spec (v_epoch (effective_root m)) (m_epoch s)) as [Hlt|Hge]; cbn [mbind option_bind].
    + destruct (successor_root_builds None k m commit target (dag_checkpoint_id dag) s (pi_successor_prev_config_id i) op Hk Ht Heff)
        as (st' & Hst' & Hbu' & He); [lia|lia|done|done| |].
      { destruct Hor as [|Hd]; [done|]. pose proof (effective_is_root m) as Her.
        destruct (durable_le m _ (kp_rooted _ _ _ Hk) Her) as [He|[He _]].
        - rewrite <- He in Hd. pose proof (kp_epoch _ _ _ Hk _ Her Hd). lia.
        - pose proof (kp_epoch _ _ _ Hk _ Her He). lia. }
      exists st'. split_and!; [exact Hst'|done|]. intros j s'. rewrite Hi. intros [= <-]. rewrite Hsi. intros [= <-]. lia.
    + exists st. split_and!; [exact Hst|done|]. intros j s'. rewrite Hi. intros [= <-]. rewrite Hsi. intros [= <-].
      pose proof (bu_effective _ _ _ _ Hbu). lia.
  - exists st. split_and!; [|done|intros j s'; rewrite Hi; congruence]. by destruct (pc_kind pc).
Qed.

Lemma submit_checkpoint_root_kept k m pc id dag :
  kept None k m -> ids_left k -> k_pending_checkpoint k = Some pc -> pc_step pc = AwaitSnapshot id dag ->
  exists k' m', submit_checkpoint_root k m pc dag = Some (k', m') /\ k_view k' = k_view k /\ kept None k' m'.
Proof.
  intros Hk Hl Hpc Hs. destruct (mint_some k Hl) as (rid & k1 & Hm).
  destruct (kept_mint None k k1 m rid Hk Hm) as (Hk1 & Hown & Hnl & Hne).
  destruct (mint_spec k k1 rid Hm) as (Hfc & Hn & Hp & Hfr & Hcf & Ho & _). injection Hfc as _ Hv _ _ _ Hme _ _ _ Hsb1 Hpc1 Hpi1 _.
  assert (Hpck : k_pending_checkpoint k1 = Some pc) by congruence.
  destruct (checkpoint_root_builds k1 m pc id dag Hk1 Hpck Hs) as (st & Hst & Hb & Hcr).
  destruct (proj2 (submit_root_accepts m CheckpointRoot rid st) (bu_accepted _ _ _ _ Hb)) as [m' Hsub].
  pose proof (submit_grows m m' CheckpointRoot rid st (kp_rooted _ _ _ Hk) Hnl (bu_stamped _ _ _ _ Hb) Hsub) as Hg.
  exists (with_owed k1 (set_pc (k_owed k1) (Some (mkPendingCheckpoint (pc_target_op pc) (AwaitRoot rid dag) (pc_kind pc))))), m'. split.
  { unfold submit_checkpoint_root. rewrite Hm. cbn [mbind option_bind]. rewrite Hst. cbn [mbind option_bind]. by rewrite Hsub. }
  split; [exact Hv|].
  destruct (kp_pc _ _ _ Hk1 pc Hpck) as [Ht _].
  assert (Hkg : kept None (forget_pc k1) m').
  { apply (kept_grows None (forget_pc k1) m m' CheckpointRoot rid st (kept_forget_pc None None k1 m Hk1) Hg); [apply Hown|apply Hb| |apply Hb| |done|].
    - rewrite (bu_view _ _ _ _ Hb). reflexivity.
    - intros i a Ha. apply Hne. change (k_pending_sb k1 = Some (i, a)) in Ha. rewrite Hsb1 in Ha. by destruct (kp_sb _ _ _ Hk i a Ha) as ((_ & Hmi) & _).
    - intros op Hbl [[pc' Hpc']|(i & Hi & <-)]; [done|]. rewrite (bu_checkpoint _ _ _ _ Hb).
      change (k_pending_install k1 = Some i) in Hi. destruct (kp_install _ _ _ Hk1 i Hi) as (_ & _ & _ & Hx). destruct (Hx pc Hpck). lia. }
  eapply (kept_with_pc None _ m'); [apply (kept_frame None (forget_pc k1)); [exact Hkg|reflexivity|reflexivity]|reflexivity| | |].
  - split; [done|]. cbn. split_and!; [exact Hown| |left; by apply (gr_new _ _ _ _ _ Hg)|].
    + rewrite (gr_checkpoints _ _ _ _ _ Hg). intros Hd. apply Hnl. by left.
    + intros e He Hid. destruct (gr_timeline _ _ _ _ _ Hg e He) as [He'|[_ ->]]; [exfalso; apply Hnl; right; eauto|].
      split; [apply Hb|exact Hcr].
  - intros i Hi. change (k_pending_install k1 = Some i) in Hi. destruct (kp_install _ _ _ Hk1 i Hi) as (_ & _ & _ & Hx). exact (Hx pc Hpck).
  - intros i a Ha. change (k_pending_sb k1 = Some (i, a)) in Ha. rewrite Hsb1 in Ha.
    destruct (kp_sb _ _ _ Hk i a Ha) as ((_ & Hmi) & _ & _ & Hno). destruct (Hno pc Hpc) as [_ Hsw]. split; [|done].
    intros [= ->]. by apply (Hne i Hmi).
Qed.

(** ** The epoch swap *)

Lemma effective_pair (m : Medium) : effective_checkpoint_pair m = (v_checkpoint_op (effective_root m), v_checkpoint_id (effective_root m)).
Proof. unfold effective_checkpoint_pair, effective_root. by destruct (latest_root m). Qed.

Lemma fresh_swap k m s :
  kept None k m -> swap_stale k m s = false -> 0 <= m_epoch s -> m_config_id s = config_of C (m_epoch s) ->
  v_epoch (effective_root m) <= m_epoch s.
Proof.
  intros Hk Hs H0s Hc. apply orb_false_iff in Hs as [_ Hs]. pose proof (so_config _ (kp_sound _ _ _ Hk _ (effective_is_root m))) as Hcfg.
  destruct (Z.leb_spec (m_epoch s) (v_epoch (effective_root m))); [|lia]. cbn in Hs.
  destruct (v_membership (effective_root m)) as [e|]; [|done]. destruct Hcfg as [He (_ & Hec & _)].
  apply negb_false_iff, Z.eqb_eq in Hs. rewrite Hec, Hc in Hs. apply (config_inj C) in Hs. lia.
Qed.

Lemma submit_swap_kept k m op s :
  kept None k m -> ids_left k -> nd_pending_swap (k_node k) = Some (op, s) -> swap_stale k m s = false ->
  k_pending_sb k = None -> k_pending_checkpoint k = None -> catching_up k = false ->
  v_checkpoint_op (effective_root m) <= k_log_floor k ->
  exists k' m', submit_swap_epoch k m op s = Some (k', m') /\ kept None k' m'.
Proof.
  intros Hk Hl Hw Hfresh Hsb Hpc Hc Hfl. destruct (kp_swap _ _ _ Hk op s Hw) as [Hh Hor].
  pose proof (effective_is_root m) as Her. pose proof (kp_sound _ _ _ Hk _ Her) as Hes. pose proof (so_checkpoint _ Hes) as Hcp.
  pose proof (fresh_swap k m s Hk Hfresh (proj2 (proj1 Hh)) (proj1 (proj2 Hh))) as Hle.
  assert (Hme : m_epoch (k_membership k) <= m_epoch s).
  { destruct Hor as [|Hd]; [done|]. destruct (durable_le m _ (kp_rooted _ _ _ Hk) Her) as [He|[He _]].
    - rewrite <- He in Hd. pose proof (kp_epoch _ _ _ Hk _ Her Hd). lia.
    - pose proof (kp_epoch _ _ _ Hk _ Her He). lia. }
  unfold submit_swap_epoch. rewrite effective_pair. set (cp := v_checkpoint_op (effective_root m)) in *.
  destruct (root_built (k_node k) (k_view k) (k_log_view k) (Z.max (nd_commit_max (k_node k)) cp) cp (v_checkpoint_id (effective_root m)) (m_epoch s)
              (m_epoch (k_membership k)) s (push_lineage (ch_lineage (k_config k)) (m_config_id (k_membership k))) op (k_log_floor k))
    as (r & Hr & Hvv & Hvl & Hvc & Hve & Hvm & Hvi & Hvf); [done|apply (kp_log_view _ _ _ Hk)|lia|lia|done|done|].
  rewrite Hr. cbn [expect mbind option_bind]. set (st := with_wal_geometry r _ _).
  assert (Hso : sound st).
  { split; cbn; rewrite ?Hvv, ?Hvl, ?Hvc, ?Hvf, ?Hvm, ?Hve, ?Hvi; try done; apply (kp_log_view _ _ _ Hk). }
  assert (Hacc : no_rewind (effective_root m) st = true).
  { apply (accepted_over _ st s Hes); cbn; rewrite ?Hvi; try done; [rewrite Hvv; apply (kp_view _ _ _ Hk _ Her)|rewrite Hvc; done]. }
  destruct (mint_some k Hl) as (id & k1 & Hm). rewrite Hm. cbn [mbind option_bind].
  destruct (kept_mint None k k1 m id Hk Hm) as (Hk1 & Hown & Hnl & Hne).
  destruct (mint_spec k k1 id Hm) as (Hfc & Hn & Hp & _ & _ & Ho & _). injection Hfc as _ Hv _ _ Hcu Hme1 _ _ _ Hsb1 Hpc1 Hpi1 _.
  destruct (proj2 (submit_root_accepts m DurableView id st) Hacc) as [m' Hsub]. rewrite Hsub. cbn.
  eexists _, m'. split; [reflexivity|].
  assert (Hstamp : stamped st) by (unfold stamped; cbn; rewrite Hvm; done).
  pose proof (submit_grows m m' DurableView id st (kp_rooted _ _ _ Hk) Hnl Hstamp Hsub) as Hg.
  assert (Hkg : kept None k1 m').
  { apply (kept_grows None k1 m m' DurableView id st Hk1 Hg); [apply Hown|done| | | | |].
    - cbn. by rewrite Hvv, Hv.
    - cbn. by rewrite Hve, Hme1.
    - intros i a. rewrite Hsb1, Hsb. done.
    - intros pc. rewrite Hpc1, Hpc. done.
    - intros o Hb _. cbn. rewrite Hvc. by apply Hb. }
  eapply (kept_with_sb None _ m' id (SwapEpoch op s)); [apply (kept_frame None k1); [exact Hkg| |reflexivity]| |reflexivity|].
  - unfold face, k_pending_sb, k_pending_checkpoint, k_pending_install in *. cbn. by rewrite Hsb1, Hsb.
  - change (catching_up k1 = false). by rewrite Hcu.
  - split_and!; [exact Hown| |intros e Hin Hei|intros pc Hpc'; change (k_pending_checkpoint k1 = Some pc) in Hpc'; rewrite Hpc1, Hpc in Hpc'; discriminate Hpc'].
    + rewrite (gr_checkpoints _ _ _ _ _ Hg). intros Hd. apply Hnl. by left.
    + destruct (gr_timeline _ _ _ _ _ Hg e Hin) as [Ho'|[_ ->]]; [exfalso; apply Hnl; right; eauto|].
      split; [cbn; rewrite Hvv; symmetry; exact Hv|]. intros op' s' [= <- <-]. exact Hvm.
Qed.

(** ** A landing *)

(** The root [id] with state [st] has just landed. *)
Record landing (k : Keeper) (m : Medium) (id : WriteId) (st : VsrState) : Prop := {
  la_durable : advances st (durable m);
  la_sound : sound st;
  la_stamped : stamped st;
  la_view : v_view st <= k_view k;
  la_checkpoint : k_checkpoint_op k <= v_checkpoint_op st;
  la_sb a : k_pending_sb k = Some (id, a) -> v_view st = k_view k /\ forall op s, a = SwapEpoch op s -> v_membership st = Some s;
  la_pc pc dag : k_pending_checkpoint k = Some pc -> pc_step pc = AwaitRoot id dag -> v_checkpoint_op st = pc_target_op pc /\ crossed k st;
  la_snapshot pc dag : k_pending_checkpoint k = Some pc -> pc_step pc <> AwaitSnapshot id dag;
}.

Definition polled_keeps (k : Keeper) (m1 : Medium) (out : option (SuperblockDone * option (RootRole * WriteId * VsrState))) : Prop :=
  match out with
  | None => kept None k m1
  | Some (done, None) =>
      kept None k m1 /\ forall id, done = Wrote id ->
        (forall a, k_pending_sb k <> Some (id, a)) /\
        (forall pc dag, k_pending_checkpoint k = Some pc -> pc_step pc <> AwaitRoot id dag)
  | Some (done, Some (role, id, st)) => done = Wrote id /\ kept (Some id) k m1 /\ landing k m1 id st
  end.

Lemma poll_kept k m m1 out : kept None k m -> poll_sb m = Some (out, m1) -> polled_keeps k m1 out.
Proof.
  intros Hk Hp. destruct (poll_shrinks m m1 out (kp_rooted _ _ _ Hk) Hp) as [Hs Hok].
  assert (Hkeep : forall y, (forall pc id dag, k_pending_checkpoint k = Some pc -> pc_step pc = AwaitRoot id dag -> awaited m id -> awaited m1 id \/ y = Some id) ->
    kept y k m1).
  { intros y Hy. apply (kept_shrinks None y k m m1 Hk Hs). intros pc id dag Hpc Hst [Ha|]; [by eapply Hy|done]. }
  destruct out as [[dn [[[role id] st]|]]|]; cbn [polled_ok polled_keeps] in Hok |- *.
  - destruct Hok as (-> & Hadv & (e & He & Hid & Hst) & Haw). split; [done|]. split.
    + apply Hkeep. intros pc i dag _ _ Ha. destruct (decide (i = id)) as [-> |Hne]; [by right|left; by apply Haw].
    + assert (Hr : is_root m st) by (right; exists e; by rewrite Hst).
      destruct (kp_rooted _ _ _ Hk) as [u [Hpre _]]. split; [done|by apply (kp_sound _ _ _ Hk)| |by apply (kp_view _ _ _ Hk)| | | |].
      * rewrite <- Hst. by apply (rp_stamped _ _ Hpre).
      * pose proof (kp_checkpoint _ _ _ Hk) as Hc. destruct (durable_le m st (kp_rooted _ _ _ Hk) Hr) as [-> |[_ Hn]]; [done|].
        apply no_rewind_spec in Hn. lia.
      * intros a Ha. destruct (kp_sb _ _ _ Hk id a Ha) as (_ & _ & Hl & _). rewrite <- Hst. by apply Hl.
      * intros pc dag Hpc Hstep. destruct (kp_pc _ _ _ Hk pc Hpc) as [_ Hpo]. rewrite Hstep in Hpo.
        destruct Hpo as (_ & _ & _ & Hl). rewrite <- Hst. by apply Hl.
      * intros pc dag Hpc Hstep. destruct (kp_pc _ _ _ Hk pc Hpc) as [_ Hpo]. rewrite Hstep in Hpo.
        destruct Hpo as (_ & _ & Hl). by apply (Hl e He).
  - destruct Hok as [Hd Haw]. split; [apply Hkeep; auto|]. intros id ->. split.
    + intros a Ha. by destruct (kp_sb _ _ _ Hk id a Ha) as (_ & Hn & _).
    + intros pc dag Hpc Hstep. destruct (kp_pc _ _ _ Hk pc Hpc) as [_ Hpo]. rewrite Hstep in Hpo. by destruct Hpo as (_ & Hn & _).
  - apply Hkeep. auto.
Qed.

Lemma kept_durable_view x k m v : kept x k m -> v <= v_view (durable m) -> kept x (set_durable_view k v) m.
Proof. intros [] Hv. split; assumption. Qed.

Definition keeps_owed (k k' : Keeper) : Prop :=
  k_view k' = k_view k /\ k_log_view k' = k_log_view k /\ k_pending_sb k' = k_pending_sb k /\ k_pending_checkpoint k' = k_pending_checkpoint k /\
  k_pending_install k' = k_pending_install k /\ k_checkpoint_op k' = k_checkpoint_op k /\
  ap_incarnation (k_appends k') = ap_incarnation (k_appends k) /\ ap_next_op_id (k_appends k') = ap_next_op_id (k_appends k) /\
  nd_commit_min (k_node k') = nd_commit_min (k_node k) /\ m_epoch (k_membership k) <= m_epoch (k_membership k').

Lemma face_catching {T1 T2 T3 T4 T5 T6 T7 T8 T9 T10 : Type} (a : T1) (b : T2) (c : T3) (d : T4) (e e' : T5) (f : T6) (g : T7) (h : T8) (i : T9) (j : T10) :
  e = e' -> (a, b, c, d, e, f, g, h, i, j) = (a, b, c, d, e', f, g, h, i, j).
Proof. by intros ->. Qed.

Lemma swap_face (k k' : Keeper) s sv :
  swap_membership_in_place k s = Some (sv, k') ->
  face k' = face (with_knode k (node_membership (k_node k) s (nd_inflight (k_node k)))) /\
  ap_next_op_id (k_appends k') = ap_next_op_id (k_appends k) /\ k_config k' = k_config k /\ k_owed k' = k_owed k /\
  nd_commit_min (k_node k') = nd_commit_min (k_node k) /\ nd_pending_swap (k_node k') = nd_pending_swap (k_node k).
Proof.
  unfold swap_membership_in_place, recompute_quorum_checkpoint. destruct (rekey_slot_quorums_for_swap _ _ _ _) as [inf svc]. cbn zeta.
  set (col := match p_view_change (k_posture k) with Some _ => _ | None => None end).
  assert (Hcol : match col with Some vc => vc_catching_up vc | None => false end = catching_up k).
  { subst col. unfold catching_up. destruct (p_view_change (k_posture k)) as [vc|]; [|done]. by destruct (vc_dvc_quorum vc). }
  clearbody col. destruct (compute_quorum_checkpoint_op _ _ _ _); [|done]. cbn [mbind option_bind].
  destruct (negb (endpoint_is_voter _ _)).
  - destruct (local_slot_opt _ _); destruct (k_is_primary k); unfold set_status; try case_bool_decide; intros [= <- <-];
      (split; [unfold face; apply face_catching; exact Hcol|split_and!; reflexivity]).
  - destruct (is_normal _ && _); intros [= <- <-]; (split; [unfold face; apply face_catching; exact Hcol|split_and!; reflexivity]).
Qed.

(** A configuration no root of the medium is behind. *)
Lemma kept_configure x k m s install :
  kept x k m -> stamped (durable m) -> on_history s install -> (forall r, is_root m r -> stamped r -> m_epoch s <= v_epoch r) ->
  kept x (with_config (with_knode k (node_membership (k_node k) s (nd_inflight (k_node k)))) (mkConfigHistory (ch_prev_epoch (k_config k)) (ch_lineage (k_config k)) install)) m.
Proof.
  intros [] Hd Hh He. split; try assumption.
  - intros i Hi. destruct (kp_install0 i Hi) as (? & ? & Hsu & ?). refine (conj _ (conj _ (conj _ _))); try assumption.
    intros s' Hs'. destruct (Hsu s' Hs') as [? _]. auto.
  - intros op s' Hw. destruct (kp_swap0 op s' Hw). auto.
Qed.

Lemma epoch_after (m : Medium) st r : rooted m -> advances st (durable m) -> is_root m r -> v_epoch st <= v_epoch r.
Proof.
  intros Hr Ha Hir. assert (v_epoch st <= v_epoch (durable m)).
  { destruct Ha as [-> |[_ Hn]]; [done|]. apply no_rewind_spec in Hn. lia. }
  destruct (durable_le m r Hr Hir) as [-> |[_ Hn]]; [done|]. apply no_rewind_spec in Hn. lia.
Qed.

Lemma kept_drop_swap x k m : kept x k m -> kept x (with_knode k (node_swap (k_node k) None)) m.
Proof. intros []. split; try assumption; done. Qed.

(** The face with another configuration's producing operation. *)
Definition reinstall {T1 T2 T3 T4 T5 T6 T8 T9 T10 : Type} (op : OpNumber) (t : T1 * T2 * T3 * T4 * T5 * T6 * OpNumber * T8 * T9 * T10) :=
  let '(a, b, c, d, e, f, _, h, i, j) := t in (a, b, c, d, e, f, op, h, i, j).

Lemma adopt_kept x k m st k' :
  kept x k m -> sound st -> stamped st -> advances st (durable m) -> adopt_landed_configuration k st = Some k' ->
  kept x k' m /\ keeps_owed k k' /\ forall s, v_membership st = Some s -> m_epoch s <= m_epoch (k_membership k').
Proof.
  intros Hk Hs Hst Ha. unfold adopt_landed_configuration. pose proof (so_config _ Hs) as Hcfg.
  destruct (v_membership st) as [s|] eqn:Hm; [|done]. destruct Hcfg as [Hep Hh].
  destruct (Z.leb_spec (m_epoch s) (m_epoch (k_membership k))) as [Hle|Hgt].
  { intros [= <-]. split; [done|]. split; [unfold keeps_owed; split_and!; done|]. by intros s' [= <-]. }
  destruct (swap_membership_in_place k s) as [[sv k1]|] eqn:Hsw; [|done]. cbn [mbind option_bind].
  destruct (swap_face k k1 s sv Hsw) as (Hf & Hn & Hc & Ho & Hcm & Hps).
  assert (Hd : stamped (durable m)) by (destruct Ha as [-> |[? _]]; done).
  pose proof (kept_configure x k m s (v_config_install_op st) Hk Hd Hh) as Hkc.
  assert (Hall : forall r, is_root m r -> stamped r -> m_epoch s <= v_epoch r).
  { intros r Hr _. rewrite <- Hep. apply (epoch_after m); [apply (kp_rooted _ _ _ Hk)|done|done]. }
  specialize (Hkc Hall). set (k2 := with_config k1 _). set (k3 := with_owed k2 (drop_intent (k_owed k2))).
  assert (Hk3 : kept x k3 m).
  { eapply kept_frame; [exact Hkc| |change (ap_next_op_id (k_appends k) <= ap_next_op_id (k_appends k1)); lia].
    change (reinstall (v_config_install_op st) (face k1) = reinstall (v_config_install_op st) (face (with_knode k (node_membership (k_node k) s (nd_inflight (k_node k)))))).
    by rewrite Hf. }
  assert (Hko : keeps_owed k k1).
  { injection Hf as Hin Hv Hlv Hdv Hcu Hme _ Hcp Hinh Hsb Hpc Hpi Hps'. unfold keeps_owed. split_and!; try assumption.
    rewrite Hme. change (m_epoch (k_membership k) <= m_epoch s). lia. }
  assert (Hms : k_membership k1 = s) by (injection Hf as _ _ _ _ _ Hme _ _ _ _ _ _ _; exact Hme).
  destruct (match nd_pending_swap (k_node k) with Some _ => _ | None => None end) as [op|]; cbn zeta; intros [= <-].
  - split; [|split; [exact Hko|intros s' [= <-]; by rewrite <- Hms]].
    apply (kept_frame x (with_knode k3 (node_swap (k_node k3) None))); [by apply kept_drop_swap|reflexivity|reflexivity].
  - split; [|split; [exact Hko|intros s' [= <-]; by rewrite <- Hms]].
    apply (kept_frame x k3); [done|reflexivity|reflexivity].
Qed.

(** ** The frontier *)

Lemma retire_spec o to f : retire o to = Some f -> o = Some f /\ to < f.
Proof. unfold retire. destruct o as [x|]; [|done]. destruct (Z.leb_spec x to); [done|]. intros [= <-]. done. Qed.

Lemma advance_kept x k m to k' :
  kept x k m -> advance_checkpoint_op k to = Some k' -> to <= v_checkpoint_op (durable m) ->
  kept x k' m /\ k_checkpoint_op k' = to /\ k_owed k' = k_owed k /\ k_node k' = k_node k /\ k_posture k' = k_posture k /\ k_appends k' = k_appends k.
Proof.
  intros Hk. unfold advance_checkpoint_op. destruct (Z.leb_spec (f_checkpoint_op (k_frontier k)) to); [|done].
  unfold recompute_quorum_checkpoint. destruct (compute_quorum_checkpoint_op _ _ _ _); [|done]. cbn [mbind option_bind]. intros [= <-] Hto.
  split; [|split_and!; reflexivity]. destruct Hk. split; try assumption.
  intros f Hf. change (retire (f_inherited (k_frontier k)) to = Some f) in Hf. apply retire_spec in Hf as [Hf Hlt].
  specialize (kp_inherited0 f Hf). change (to < f <= v_checkpoint_op (durable m)). lia.
Qed.

Lemma adopt_inherited_kept x k m k' :
  kept x k m -> maybe_adopt_inherited_frontier k = Some k' ->
  kept x k' m /\ k_owed k' = k_owed k /\ k_node k' = k_node k /\ k_posture k' = k_posture k /\ k_appends k' = k_appends k.
Proof.
  intros Hk. unfold maybe_adopt_inherited_frontier. destruct (f_inherited (k_frontier k)) as [f|] eqn:Hf; [|by intros [= <-]].
  destruct (_ || _); [by intros [= <-]|]. destruct (advance_checkpoint_op k f) as [k1|] eqn:Ha; [|done]. cbn. intros [= <-].
  destruct (advance_kept x k m f k1 Hk Ha (proj2 (kp_inherited _ _ _ Hk f Hf))) as (Hk1 & _ & Ho & Hn & Hp & Hap).
  split; [by apply (kept_frame x k1)|]. done.
Qed.

Lemma orphan_owed_face (k k' : Keeper) o : repersist_orphan_owed k = (o, k') -> face k' = face k /\ k_appends k' = k_appends k /\ k_owed k' = k_owed k.
Proof.
  unfold repersist_orphan_owed. destruct (f_orphan (k_frontier k)); [|by intros [= <- <-]].
  destruct (_ || _); by intros [= <- <-].
Qed.

Lemma retarget_face (k : Keeper) now t : face (retarget_recovery_fetch k now t) = face k /\ k_appends (retarget_recovery_fetch k now t) = k_appends k.
Proof.
  unfold retarget_recovery_fetch. destruct (negb (sx_awaiting_peer_checkpoint _)); [done|]. destruct (sy_sync _); [|done].
  destruct (_ && (_ <=? _)); split; reflexivity.
Qed.

(** No new correlation. *)
Definition owes_less (k k' : Keeper) : Prop :=
  (k_pending_sb k' = k_pending_sb k \/ k_pending_sb k' = None) /\
  (k_pending_checkpoint k' = k_pending_checkpoint k \/ k_pending_checkpoint k' = None).

Lemma owes_refl (k : Keeper) : owes_less k k.
Proof. split; by left. Qed.

Lemma orphan_recovery_kept k m now k' m' :
  kept None k m -> enter_orphan_repersist_recovery k m now = Some (k', m') ->
  kept None k' m' /\ k_view k' = k_view k /\ k_log_view k' = k_log_view k /\ owes_less k k'.
Proof.
  intros Hk. unfold enter_orphan_repersist_recovery. destruct (reset_for_view_transition k m now) as [[k1 m1]|] eqn:Hr; [|done].
  cbn [mbind option_bind]. pose proof (kept_forget_sb _ _ _ Hk) as Hk0.
  destruct (reset_kept None k m now k1 m1 Hk0 Hr) as (Hk1 & Hv1 & Hlv1 & _ & _ & _ & _ & _ & _ & _ & _ & Hpc1).
  set (k2 := with_owed k1 _). set (k3 := set_collection (drop_pipeline k2) None).
  assert (Hk3 : kept None (forget_sb k3) m1).
  { apply (kept_repose None (drop_pipeline k2)); [|exact (kp_log_view _ _ _ Hk1)|exact (kp_durable _ _ _ Hk1)].
    apply (kept_frame None (forget_install (forget_sb k1))); [by apply kept_forget_install|reflexivity|reflexivity]. }
  destruct (abandon_pending_sb k3 m1) as [k4 m4] eqn:Hab.
  destruct (abandon_pending_kept k3 m1 k4 m4 Hk3 Hab) as (Hk4 & Hv4 & Hlv4 & Hsb4 & _).
  assert (Hpc4 : k_pending_checkpoint k4 = k_pending_checkpoint k1).
  { revert Hab. unfold abandon_pending_sb. destruct (k_pending_sb k3) as [[? ?]|]; intros [= <- _]; reflexivity. }
  set (k5 := with_owed k4 _). set (k6 := with_recover (set_status k5 Recovering) _).
  assert (Hk6 : kept None k6 m4).
  { destruct (face_set_status k5 Recovering) as [Hf Ha].
    apply (kept_frame None k5); [by apply (kept_frame None k4)|exact Hf|]. change (ap_next_op_id (k_appends k5) <= ap_next_op_id (k_appends (set_status k5 Recovering))). by rewrite Ha. }
  unfold submit_recover_checkpoint_read. destruct (mint k6) as [[id k7]|] eqn:Hm; [|done]. cbn [mbind option_bind]. intros [= <- <-].
  destruct (kept_mint None k6 k7 m4 id Hk6 Hm) as (Hk7 & _). destruct (mint_spec k6 k7 id Hm) as (Hf7 & _).
  injection Hf7 as _ Hv7 Hlv7 _ _ _ _ _ _ Hsb7 Hpc7 _ _. destruct (status_keeps k5 Recovering) as (Hs1 & _ & Hs3 & _).
  destruct (face_set_status k5 Recovering) as [Hf5 _]. injection Hf5 as _ _ _ _ _ _ _ _ _ Hsb5 Hpc5 _ _. split; [|split; [|split]].
  - apply (kept_frame None k7); [|reflexivity|reflexivity]. apply (kept_shrinks None None k7 m4 _ Hk7); [by apply read_shrinks, (kp_rooted _ _ _ Hk7)|].
    intros pc i dag _ _ [Ha|Ha]; [left; by apply awaited_read|by right].
  - change (k_view k7 = k_view k). rewrite Hv7. change (k_view (set_status k5 Recovering) = k_view k). rewrite Hs1.
    change (k_view k4 = k_view k). rewrite Hv4. exact Hv1.
  - change (k_log_view k7 = k_log_view k). rewrite Hlv7. change (k_log_view (set_status k5 Recovering) = k_log_view k). rewrite Hs3.
    change (k_log_view k4 = k_log_view k). rewrite Hlv4. exact Hlv1.
  - split.
    + right. change (k_pending_sb k7 = None). rewrite Hsb7. change (k_pending_sb (set_status k5 Recovering) = None). rewrite Hsb5. exact Hsb4.
    + change (k_pending_checkpoint k7 = k_pending_checkpoint k \/ k_pending_checkpoint k7 = None). rewrite Hpc7.
      change (k_pending_checkpoint (set_status k5 Recovering) = k_pending_checkpoint k \/ k_pending_checkpoint (set_status k5 Recovering) = None).
      rewrite Hpc5. change (k_pending_checkpoint k4 = k_pending_checkpoint k \/ k_pending_checkpoint k4 = None). by rewrite Hpc4.
Qed.

Lemma maybe_orphan_kept k m now b k' m' :
  kept None k m -> maybe_enter_orphan_repersist_recovery k m now = Some (b, k', m') -> kept None k' m' /\ owes_less k k'.
Proof.
  intros Hk. unfold maybe_enter_orphan_repersist_recovery. destruct (repersist_orphan_owed k) as [o k1] eqn:Ho.
  destruct (orphan_owed_face k k1 o Ho) as (Hf & Ha & _).
  assert (Hk1 : kept None k1 m) by (apply (kept_frame None k); [done|done|by rewrite Ha]).
  assert (Hless : forall k2, owes_less k1 k2 -> owes_less k k2).
  { injection Hf as _ _ _ _ _ _ _ _ _ Hsb Hpc _ _. unfold owes_less. by rewrite Hsb, Hpc. }
  destruct o as [t|]; [|intros [= _ <- <-]; split; [done|apply Hless, owes_refl]]. destruct (recovering k1 || retired k1).
  { intros [= _ <- <-]. destruct (retarget_face k1 now t) as [Hf1 Ha1]. split; [apply (kept_frame None k1); [done|done|by rewrite Ha1]|].
    injection Hf1 as _ _ _ _ _ _ _ _ _ Hsb Hpc _ _. apply Hless. split; left; done. }
  destruct (_ || _); [intros [= _ <- <-]; split; [done|apply Hless, owes_refl]|].
  destruct (enter_orphan_repersist_recovery k1 m now) as [[k2 m2]|] eqn:He; [|done]. cbn. intros [= _ <- <-].
  destruct (orphan_recovery_kept k1 m now k2 m2 Hk1 He) as (? & _ & _ & ?). auto.
Qed.

(** ** A completion *)

Lemma correlated_false (k : Keeper) id : correlated k id = false ->
  (forall a, k_pending_sb k <> Some (id, a)) /\ (forall pc dag, k_pending_checkpoint k = Some pc -> pc_step pc <> AwaitRoot id dag /\ pc_step pc <> AwaitSnapshot id dag).
Proof.
  unfold correlated. intros [Hs Hp]%orb_false_iff. split.
  - intros a Ha. rewrite Ha, bool_decide_eq_true_2 in Hs; done.
  - intros pc dag Hpc. rewrite Hpc in Hp. cbn in Hp. apply bool_decide_eq_false in Hp. split; intros Hst; rewrite Hst in Hp; done.
Qed.

Lemma kept_uncorrelate id k m :
  kept (Some id) k m -> (forall pc dag, k_pending_checkpoint k = Some pc -> pc_step pc <> AwaitRoot id dag) -> kept None k m.
Proof.
  intros Hk Hn. apply (kept_shrinks (Some id) None k m m Hk); [apply shrinks_refl, (kp_rooted _ _ _ Hk)|].
  intros pc i dag Hpc Hst [Ha|[= <-]]; [by left|]. exfalso. by apply (Hn pc dag).
Qed.

Lemma absorb_uncorrelated_kept k m now role id st k' m' :
  kept None k m -> v_checkpoint_op st <= v_checkpoint_op (durable m) ->
  absorb_uncorrelated k m now role id st = Some (k', m') -> kept None k' m' /\ owes_less k k'.
Proof.
  intros Hk Hd. unfold absorb_uncorrelated. cbn zeta.
  match goal with |- context [if ?b then with_knode k ?n else k] => set (k1 := if b then with_knode k n else k) end.
  assert (Hk1 : kept None k1 m /\ face k1 = face k).
  { subst k1. destruct (_ && _); [|done]. split; [apply (kept_frame None k); [done|reflexivity|reflexivity]|reflexivity]. }
  destruct Hk1 as [Hk1 Hf1]. injection Hf1 as _ _ _ _ _ _ _ Hcp Hinh Hsb Hpc _ _.
  destruct (Z.ltb_spec (k_checkpoint_op k1) (v_checkpoint_op st)) as [Hlt|Hge].
  2:{ intros [= <- <-]. split; [done|split; left; done]. }
  set (k2 := with_frontier k1 _). assert (Hk2 : kept None k2 m).
  { destruct Hk1. split; try assumption. intros f [= <-]. change (k_checkpoint_op k1 < (match f_inherited (k_frontier k1) with Some i => Z.max i (v_checkpoint_op st) | None => v_checkpoint_op st end) <= v_checkpoint_op (durable m)).
    destruct (f_inherited (k_frontier k1)) as [i|] eqn:Hi; [specialize (kp_inherited0 i eq_refl)|]; lia. }
  destruct (maybe_adopt_inherited_frontier k2) as [k3|] eqn:Ha; [|done]. cbn [mbind option_bind].
  destruct (adopt_inherited_kept None k2 m k3 Hk2 Ha) as (Hk3 & Ho3 & _).
  destruct (maybe_enter_orphan_repersist_recovery k3 m now) as [[[b k4] m4]|] eqn:He; [|done]. cbn. intros [= <- <-].
  destruct (maybe_orphan_kept k3 m now b k4 m4 Hk3 He) as [Hk4 [Hl1 Hl2]]. split; [done|].
  assert (Hs3 : k_pending_sb k3 = k_pending_sb k) by (unfold k_pending_sb; rewrite Ho3; exact Hsb).
  assert (Hp3 : k_pending_checkpoint k3 = k_pending_checkpoint k) by (unfold k_pending_checkpoint; rewrite Ho3; exact Hpc).
  split; [rewrite <- Hs3|rewrite <- Hp3]; done.
Qed.

(** After the absorption: the landing is still the completion of a pending write, or of none. *)
Definition absorbed (k : Keeper) (m : Medium) (id : WriteId) (st : VsrState) : Prop :=
  (kept (Some id) k m /\ landing k m id st /\ (forall s, v_membership st = Some s -> m_epoch s <= m_epoch (k_membership k)) /\
   0 <= nd_commit_min (k_node k) < umax 64)
  \/ (kept None k m /\ correlated k id = false).

Lemma landing_keeps k k' m id st : landing k m id st -> keeps_owed k k' -> landing k' m id st.
Proof.
  intros [] (Hv & _ & Hsb & Hpc & Hpi & Hcp & _). split; try done.
  - by rewrite Hv.
  - by rewrite Hcp.
  - intros a. rewrite Hsb, Hv. apply la_sb0.
  - intros pc dag. rewrite Hpc. intros Hp Hs. destruct (la_pc0 pc dag Hp Hs) as [? Hc]. split; [done|]. intros i s. rewrite Hpi. apply Hc.
  - intros pc dag. rewrite Hpc. apply la_snapshot0.
Qed.

Lemma absorb_kept k m now role id st k' m' :
  kept (Some id) k m -> landing k m id st -> 0 <= nd_commit_min (k_node k) < umax 64 ->
  absorb_landing k m now (Some (role, id, st)) = Some (k', m') -> absorbed k' m' id st.
Proof.
  intros Hk Hl Hrg. unfold absorb_landing. destruct (advances_le _ _ (la_durable _ _ _ _ Hl)) as [Hdv Hdc].
  set (k1 := set_durable_view k _).
  assert (Hk1 : kept (Some id) k1 m).
  { apply kept_durable_view; [done|]. pose proof (kp_durable _ _ _ Hk). lia. }
  destruct (adopt_landed_configuration k1 st) as [k2|] eqn:Ha; [|done]. cbn [mbind option_bind].
  destruct (adopt_kept (Some id) k1 m st k2 Hk1 (la_sound _ _ _ _ Hl) (la_stamped _ _ _ _ Hl) (la_durable _ _ _ _ Hl) Ha) as (Hk2 & Ho & Hm).
  destruct (correlated k2 id) eqn:Hc.
  - intros [= <- <-]. left. split; [done|]. split; [apply (landing_keeps k1 k2); [destruct Hl; split; assumption|done]|]. split; [done|].
    destruct Ho as (_ & _ & _ & _ & _ & _ & _ & _ & -> & _). exact Hrg.
  - intros Hu. destruct (correlated_false k2 id Hc) as [Hn1 Hn2].
    assert (Hk3 : kept None k2 m) by (eapply kept_uncorrelate; [done|]; intros pc dag Hp; by apply Hn2).
    destruct (absorb_uncorrelated_kept k2 m now role id st k' m' Hk3 Hdc Hu) as [Hk' [Hl1 Hl2]].
    right. split; [done|]. revert Hc. unfold correlated. intros [Hc1 Hc2]%orb_false_iff. apply orb_false_iff. split.
    + destruct Hl1 as [-> | ->]; done.
    + destruct Hl2 as [-> | ->]; done.
Qed.

(** A durable-view root has landed: the witness it raises is true. *)
Lemma dispatch_kept k m id a st r k' m' :
  kept (Some id) k m -> landing k m id st -> (forall s, v_membership st = Some s -> m_epoch s <= m_epoch (k_membership k)) ->
  k_pending_sb k = Some (id, a) -> 0 <= nd_commit_min (k_node k) < umax 64 ->
  dispatch_view_root k m a = Some (r, k', m') -> kept None k' m' /\ k_durable_view k' = k_view k' /\ k_view k' = k_view k.
Proof.
  intros Hk Hl Hm Hsb Hrange. destruct (kp_sb _ _ _ Hk id a Hsb) as ((Hinc & _) & _ & _ & Hnopc).
  destruct (la_sb _ _ _ _ Hl a Hsb) as [Hv Hsw]. destruct (advances_le _ _ (la_durable _ _ _ _ Hl)) as [Hdv _].
  assert (Hk0 : kept None (forget_sb k) m).
  { apply (kept_uncorrelate id); [by apply kept_forget_sb|]. intros pc dag Hpc Hst.
    change (k_pending_checkpoint k = Some pc) in Hpc. destruct (Hnopc pc Hpc) as [Hne _]. by rewrite Hst in Hne. }
  unfold dispatch_view_root. set (k1 := set_durable_view _ _).
  assert (Hk1 : kept None k1 m) by (apply kept_durable_view; [done|]; change (k_view k <= v_view (durable m)); lia).
  destruct a as [| | | |op s]; try (intros [= _ <- <-]; split_and!; done).
  specialize (Hm s (Hsw op s eq_refl)). set (k2 := with_knode k1 _).
  assert (Hinst : install_membership k2 (Some op) s = Some k2).
  { unfold install_membership. destruct (_ =? _); [done|]. destruct (Z.leb_spec (m_epoch s) (m_epoch (k_membership k2))); [done|].
    change (m_epoch (k_membership k2)) with (m_epoch (k_membership k)) in *. lia. }
  rewrite Hinst. cbn [mbind option_bind]. set (k3 := with_owed k2 _).
  assert (Hk3 : kept None k3 m) by (apply (kept_frame None k2); [by apply kept_drop_swap|reflexivity|reflexivity]).
  destruct (is_normal _ && _ && negb (is_some (k_pending_install k3))) eqn:Hg; [|intros [= _ <- <-]; split_and!; done].
  destruct (force_checkpoint k3 m) as [[k4 m4]|] eqn:Hf; [|done]. cbn. intros [= _ <- <-].
  assert (Hpc : k_pending_checkpoint k3 = None).
  { change (k_pending_checkpoint k = None). destruct (k_pending_checkpoint k) as [pc|] eqn:Hpc; [|done].
    destruct (Hnopc pc eq_refl) as [_ Hno]. by destruct (Hno op s). }
  apply andb_true_iff in Hg as [_ Hg]. assert (Hpi : k_pending_install k3 = None) by (by destruct (k_pending_install k3)).
  destruct (force_checkpoint_kept k3 m k4 m4 Hk3 Hpc Hpi Hrange) as (Hk4 & Hv4 & _); [done|exact Hf|].
  split; [done|]. assert (Hd4 : k_posture k4 = k_posture k3).
  { revert Hf. unfold force_checkpoint. destruct (_ || _); [by intros [= <- <-]|].
    destruct (issue_block_job _ _ _) as [[[job k5] m5]|] eqn:Hi; [|done]. cbn. intros [= <- <-].
    destruct (issue_kept None k3 m _ job k5 m5 Hk3 Hi) as (_ & _ & Hmi). by destruct (mint_spec k3 k5 job Hmi) as (_ & _ & ? & _). }
  split; [|exact Hv4]. unfold k_durable_view. rewrite Hd4, Hv4. reflexivity.
Qed.

(** ** Garbage collection *)

Lemma drop_subsumed_ids a floor : ap_incarnation (drop_subsumed a floor) = ap_incarnation a /\ ap_next_op_id (drop_subsumed a floor) = ap_next_op_id a.
Proof.
  unfold drop_subsumed. generalize (map fst (List.filter (fun e : Z * DeferredAppend => e.1 <=? floor) (ap_deferred a))).
  intros l. revert a. induction l as [|op l IH]; intros a; [done|]. cbn [fold_left]. cbn zeta.
  match goal with |- context [fold_left _ l ?b] => destruct (IH b) as [-> ->] end. by case_bool_decide.
Qed.

Lemma run_gc_kept x k m k' m' :
  kept x k m -> run_gc k m = Some (k', m') ->
  kept x k' m' /\ f_wal_pruned (k_frontier k') <= Z.max (f_wal_pruned (k_frontier k)) (k_checkpoint_op k) /\
  k_owed k' = k_owed k /\ k_view k' = k_view k.
Proof.
  intros Hk. unfold run_gc. set (floor := gc_floor k).
  assert (Hfl : floor <= k_checkpoint_op k) by (unfold floor, gc_floor, k_prune_floor; destruct (k_is_primary k); lia).
  destruct (floor =? 0); [intros [= <- <-]; split_and!; [done|lia|done|done]|].
  destruct (prune m (floor + 1)) as [[cs m1]|] eqn:Hp; [|done]. cbn [mbind option_bind].
  assert (Hf1 : roots_face m1 = roots_face m).
  { revert Hp. unfold prune. destruct (wal_prune (wal m) (floor + 1)) as [c w]. intros Hs. by rewrite (settle_face _ _ _ _ Hs). }
  set (k1 := with_frontier k _). destruct (absorb_wal_cancellations _ m1 cs) as [[a m2]|] eqn:Ha; [|done]. cbn [mbind option_bind].
  apply absorb_rootless in Ha as (Hf2 & Hi & Hn). destruct (drop_subsumed_ids (k_appends k1) floor) as [Hi' Hn'].
  rewrite Hi' in Hi. rewrite Hn' in Hn.
  set (k2 := with_owned_appends k1 a). destruct (trim_log_to_checkpoint k2 floor (k_checkpoint_op k2)) as [k3|] eqn:Ht; [|done].
  cbn [mbind option_bind]. intros [= <- <-].
  assert (Hm2 : kept x k m2) by (apply (kept_face x k m); [done|congruence]).
  revert Ht. unfold trim_log_to_checkpoint. destruct (committed_survives _ _ _); [|done]. intros [= <-].
  split_and!; [|cbn; lia|reflexivity|reflexivity].
  apply (kept_frame x k); [exact Hm2| |exact Hn]. unfold face. subst k2 k1. cbn. rewrite Hi. reflexivity.
Qed.

Lemma gc_blocks_kept x k m k' m' : kept x k m -> gc_blocks k m = Some (k', m') -> kept x k' m' /\ k_owed k' = k_owed k /\ k_view k' = k_view k.
Proof.
  intros Hk. unfold gc_blocks. destruct (gc_roots k) as [sms sss].
  assert (Hgo : forall kind, ('(_, k, m) ← issue_block_job k m kind; Some (k, m)) = Some (k', m') ->
    kept x k' m' /\ k_owed k' = k_owed k /\ k_view k' = k_view k).
  { intros kind. destruct (issue_block_job k m kind) as [[[job k1] m1]|] eqn:Hi; [|done]. cbn. intros [= <- <-].
    destruct (issue_kept x k m kind job k1 m1 Hk Hi) as (Hk1 & _ & Hm). split; [done|].
    destruct (mint_spec k k1 job Hm) as (_ & Hn & _ & _ & _ & Ho & _). unfold k_view. by rewrite Ho, Hn. }
  destruct sms, sss; try apply Hgo. by intros [= <- <-].
Qed.

Lemma issue_restore_kept x k m k' m' : kept x k m -> issue_sm_restore k m = Some (k', m') -> kept x k' m'.
Proof.
  intros Hk. unfold issue_sm_restore. destruct (o_reconstruct (k_owed k)) as [r|]; [|by intros [= <- <-]].
  destruct (_ || _); [by intros [= <- <-]|].
  destruct (issue_block_job k m _) as [[[job k1] m1]|] eqn:Hi; [|done]. cbn. intros [= <- <-].
  destruct (issue_kept x k m _ job k1 m1 Hk Hi) as (Hk1 & _). apply (kept_frame x k1); [done|reflexivity|reflexivity].
Qed.

(** The landing has already installed the configuration an install crosses into. *)
Lemma install_crossing_kept k m s prev op k' m' :
  kept None k m -> m_epoch s <= m_epoch (k_membership k) -> install_crossing k m s prev op = Some (k', m') ->
  kept None k' m' /\ k_checkpoint_op k' = k_checkpoint_op k /\ durable m' = durable m.
Proof.
  intros Hk Hle. unfold install_crossing. set (k1 := with_owed k _).
  change (m_epoch (k_membership k1)) with (m_epoch (k_membership k)).
  destruct (Z.ltb_spec (m_epoch (k_membership k)) (m_epoch s)); [lia|]. cbn [mbind option_bind].
  set (k2 := with_knode k1 _).
  assert (Hk2 : kept None k2 m) by (apply kept_drop_swap; apply (kept_frame None k); [done|reflexivity|reflexivity]).
  destruct (k_pending_sb k2) as [[id [| | | |o s']]|] eqn:Hsb; try (intros [= <- <-]; split_and!; done).
  destruct (abandon_pending_sb k2 m) as [k3 m3] eqn:Hab. intros [= <- <-].
  destruct (abandon_pending_kept k2 m k3 m3 (kept_forget_sb _ _ _ Hk2) Hab) as (Hk3 & _).
  revert Hab. unfold abandon_pending_sb. rewrite Hsb. intros [= <- <-]. split_and!; [done|done|].
  unfold durable, abandon_root. destruct (parked_at _ _); [|done]. by case_bool_decide.
Qed.

Lemma install_sync_kept k m i k' m' :
  kept None k m -> pi_checkpoint_op i <= v_checkpoint_op (durable m) ->
  (forall s, pi_successor i = Some s -> m_epoch s <= m_epoch (k_membership k)) ->
  install_sync k m i = Some (k', m') -> kept None k' m'.
Proof.
  intros Hk Hd Hs. unfold install_sync. destruct (_ <=? _); [|done]. cbn zeta. set (k1 := with_knode k _).
  assert (Hk1 : kept None k1 m).
  { subst k1. destruct (pi_held_tail i); (apply (kept_frame None k); [done|reflexivity|reflexivity]). }
  assert (Hc : forall k2 m2, match pi_successor i with
      | Some successor => install_crossing k1 m successor (pi_successor_prev_config_id i) (pi_successor_install_op i)
      | None => Some (k1, m) end = Some (k2, m2) -> kept None k2 m2 /\ durable m2 = durable m).
  { intros k2 m2. destruct (pi_successor i) as [s|]; [|by intros [= <- <-]]. intros Hx.
    assert (Hle : m_epoch s <= m_epoch (k_membership k1)) by (subst k1; destruct (pi_held_tail i); exact (Hs s eq_refl)).
    by destruct (install_crossing_kept k1 m s _ _ k2 m2 Hk1 Hle Hx) as (? & _ & ?). }
  destruct (match pi_successor i with Some _ => _ | None => _ end) as [[k2 m2]|]; [|done]. cbn [mbind option_bind].
  destruct (Hc k2 m2 eq_refl) as [Hk2 Hd2].
  destruct (advance_checkpoint_op k2 (pi_checkpoint_op i)) as [k3|] eqn:Ha; [|done]. cbn [mbind option_bind].
  destruct (advance_kept None k2 m2 _ k3 Hk2 Ha) as (Hk3 & _); [by rewrite Hd2|].
  unfold trim_log_to_checkpoint. destruct (committed_survives _ _ _); [|done]. cbn [mbind option_bind]. apply issue_restore_kept.
  apply (kept_frame None k3); [done|reflexivity|reflexivity].
Qed.

Lemma root_landed_kept k m id st pc dag r k' m' :
  kept (Some id) k m -> landing k m id st -> (forall s, v_membership st = Some s -> m_epoch s <= m_epoch (k_membership k)) ->
  k_pending_checkpoint k = Some pc -> pc_step pc = AwaitRoot id dag ->
  checkpoint_root_landed k m pc dag = Some (r, k', m') -> kept None k' m'.
Proof.
  intros Hk Hl Hm Hpc Hst. destruct (la_pc _ _ _ _ Hl pc dag Hpc Hst) as [Htgt Hcr].
  destruct (advances_le _ _ (la_durable _ _ _ _ Hl)) as [_ Hdc]. unfold checkpoint_root_landed.
  set (k1 := with_frontier (with_owed k _) _).
  assert (Hk1 : kept None k1 m).
  { apply (kept_frame None (forget_pc k)); [exact (kept_forget_pc (Some id) None k m Hk)|reflexivity|reflexivity]. }
  destruct (pc_kind pc).
  - destruct (advance_checkpoint_op k1 (pc_target_op pc)) as [k2|] eqn:Ha; [|done]. cbn [mbind option_bind].
    destruct (advance_kept None k1 m _ k2 Hk1 Ha) as (Hk2 & _); [lia|].
    destruct (run_gc _ m) as [[k3 m3]|] eqn:Hg; [|done]. cbn [mbind option_bind].
    destruct (run_gc_kept None (push_event k2 (CheckpointDurable (pc_target_op pc))) m k3 m3) as (Hk3 & _); [|exact Hg|].
    { apply (kept_frame None k2); [done|reflexivity|reflexivity]. }
    destruct (gc_blocks k3 m3) as [[k4 m4]|] eqn:Hb; [|done]. cbn. intros [= _ <- <-]. by apply (gc_blocks_kept None k3 m3).
  - destruct (k_pending_install k1) as [i|] eqn:Hi; [|by intros [= _ <- <-]].
    change (k_pending_install k = Some i) in Hi. destruct (kp_install _ _ _ Hk i Hi) as (_ & _ & _ & Hx). destruct (Hx pc Hpc) as [Ht _].
    destruct (install_sync _ m i) as [[k2 m2]|] eqn:Hin; [|done]. cbn. intros [= _ <- <-].
    eapply install_sync_kept; [| | |exact Hin].
    + apply (kept_forget_install None k1 m Hk1).
    + lia.
    + intros s Hs. pose proof (Hcr i s Hi Hs) as Hle. pose proof (so_config _ (la_sound _ _ _ _ Hl)) as Hcfg.
      pose proof (la_stamped _ _ _ _ Hl) as Hstm. unfold stamped in Hstm. destruct (v_membership st) as [sm|]; [|done].
      destruct Hcfg as [He _]. specialize (Hm sm eq_refl). change (m_epoch s <= m_epoch (k_membership k)). lia.
Qed.

(** A completion nothing waits for. *)
Lemma on_wrote_other (k : Keeper) (m : Medium) id : correlated k id = false -> on_wrote k m id = Some (RouteSettled, k, m).
Proof.
  intros Hc. destruct (correlated_false k id Hc) as [Hsb Hpc]. unfold on_wrote.
  assert (Hs : (match k_pending_sb k with Some (pid, a) => if bool_decide (pid = id) then Some a else None | None => None end) = None).
  { destruct (k_pending_sb k) as [[i a]|]; [|done]. rewrite bool_decide_eq_false_2; [done|]. intros ->. by apply (Hsb a). }
  rewrite Hs. destruct (k_pending_checkpoint k) as [pc|] eqn:Hp; [|done].
  destruct (pc_step pc) as [j|sid dag|rid dag] eqn:Hst; [done| |]; (rewrite bool_decide_eq_false_2; [done|]); intros ->;
    destruct (Hpc pc dag eq_refl); done.
Qed.

(** The completion of an envelope, or of nothing. *)
Lemma on_wrote_envelope k m id r k' m' :
  kept None k m -> ids_left k -> (forall a, k_pending_sb k <> Some (id, a)) ->
  (forall pc dag, k_pending_checkpoint k = Some pc -> pc_step pc <> AwaitRoot id dag) ->
  on_wrote k m id = Some (r, k', m') -> kept None k' m' /\ r = RouteSettled.
Proof.
  intros Hk Hl Hsb Hpc. destruct (correlated k id) eqn:Hc; [|rewrite on_wrote_other by done; by intros [= <- <- <-]].
  unfold on_wrote.
  assert (Hs : (match k_pending_sb k with Some (pid, a) => if bool_decide (pid = id) then Some a else None | None => None end) = None).
  { destruct (k_pending_sb k) as [[i a]|]; [|done]. rewrite bool_decide_eq_false_2; [done|]. intros ->. by apply (Hsb a). }
  rewrite Hs. destruct (k_pending_checkpoint k) as [pc|] eqn:Hp; [|by intros [= <- <- <-]].
  destruct (pc_step pc) as [j|sid dag|rid dag] eqn:Hst; [by intros [= <- <- <-]| |].
  - case_bool_decide; [|by intros [= <- <- <-]].
    destruct (submit_checkpoint_root_kept k m pc sid dag Hk Hl Hp Hst) as (k1 & m1 & Hsub & Hv1 & Hk1). rewrite Hsub. cbn. by intros [= <- <- <-].
  - rewrite bool_decide_eq_false_2 by (intros ->; by apply (Hpc pc dag)). by intros [= <- <- <-].
Qed.

Definition route_durable (r : SbRoute) (k : Keeper) (m : Medium) : Prop :=
  match r with
  | RouteSendDoViewChange | RouteStartViewParticipate | RouteStartViewAcks => k_view k <= v_view (durable m) /\ k_durable_view k = k_view k
  | _ => True
  end.

Lemma on_wrote_landed k m id st r k' m' :
  absorbed k m id st -> on_wrote k m id = Some (r, k', m') ->
  kept None k' m' /\ route_durable r k' m'.
Proof.
  intros [(Hk & Hl & Hm & Hr)|[Hk Hc]]; [|rewrite on_wrote_other by done; by intros [= <- <- <-]].
  assert (Hother : (forall a, k_pending_sb k <> Some (id, a)) -> on_wrote k m id = Some (r, k', m') ->
    kept None k' m' /\ match r with RouteSendDoViewChange | RouteStartViewParticipate | RouteStartViewAcks => False | _ => True end).
  { intros Hsb. unfold on_wrote.
    assert (Hs : (match k_pending_sb k with Some (pid, a) => if bool_decide (pid = id) then Some a else None | None => None end) = None).
    { destruct (k_pending_sb k) as [[i a]|]; [|done]. rewrite bool_decide_eq_false_2; [done|]. intros ->. by apply (Hsb a). }
    rewrite Hs. destruct (k_pending_checkpoint k) as [pc|] eqn:Hp.
    - assert (Hun : (forall dag, pc_step pc <> AwaitRoot id dag) -> kept None k m).
      { intros Hn. apply (kept_uncorrelate id k m Hk). intros pc' dag. rewrite Hp. intros [= <-]. apply Hn. }
      destruct (pc_step pc) as [j|sid dag|rid dag] eqn:Hst.
      + intros [= <- <- <-]. split; [by apply Hun|done].
      + rewrite bool_decide_eq_false_2 by (intros ->; by apply (la_snapshot _ _ _ _ Hl pc dag)). intros [= <- <- <-]. split; [by apply Hun|done].
      + case_bool_decide as Hid; [subst rid|intros [= <- <- <-]; split; [apply Hun; congruence|done]].
        intros Hx. split; [by apply (root_landed_kept k m id st pc dag r k' m' Hk Hl Hm Hp Hst)|].
        revert Hx. unfold checkpoint_root_landed. destruct (pc_kind pc).
        * destruct (advance_checkpoint_op _ _); [|done]. cbn [mbind option_bind]. destruct (run_gc _ _) as [[? ?]|]; [|done]. cbn [mbind option_bind].
          destruct (gc_blocks _ _) as [[? ?]|]; [|done]. cbn. by intros [= <- _ _].
        * destruct (k_pending_install _); [|by intros [= <- _ _]]. destruct (install_sync _ _ _) as [[? ?]|]; [|done]. cbn. by intros [= <- _ _].
    - intros [= <- <- <-]. split; [|done]. apply (kept_uncorrelate id k m Hk). intros pc' dag. by rewrite Hp. }
  destruct (k_pending_sb k) as [[i a]|] eqn:Hs; [destruct (decide (i = id)) as [-> |Hne]|].
  - unfold on_wrote. rewrite Hs, bool_decide_eq_true_2 by done. intros Hd.
    destruct (dispatch_kept k m id a st r k' m' Hk Hl Hm Hs Hr Hd) as (Hk' & Hdv & Hv). split; [done|].
    pose proof (kp_durable _ _ _ Hk'). destruct r; try done; split; lia.
  - intros Hx. destruct Hother as [? ?]; [intros a' [= -> _]; done|done|]. split; [done|]. by destruct r.
  - intros Hx. destruct Hother as [? ?]; [done|done|]. split; [done|]. by destruct r.
Qed.

Definition in_range (k : Keeper) : Prop := ids_left k /\ 0 <= nd_commit_min (k_node k) < umax 64.

Lemma absorbed_kept k m id st :
  absorbed k m id st -> (forall pc dag, k_pending_checkpoint k = Some pc -> pc_step pc <> AwaitRoot id dag) -> kept None k m.
Proof. intros [(Hk & _)|[Hk _]] Hn; [by apply (kept_uncorrelate id)|done]. Qed.

(** Every completion the superblock delivers keeps the invariant, and one that lets the
    endpoint take part in its view finds that view durable. *)
Lemma on_sb_done_kept k m m1 now dn landed r k' m' :
  kept None k m -> in_range k -> poll_sb m = Some (Some (dn, landed), m1) -> on_sb_done k m1 now dn landed = Some (r, k', m') ->
  kept None k' m' /\ route_durable r k' m'.
Proof.
  intros Hk [Hl Hr] Hp. pose proof (poll_kept k m m1 _ Hk Hp) as Hpk. cbn in Hpk. unfold on_sb_done.
  destruct landed as [[[role id] st]|].
  - destruct Hpk as (-> & Hk1 & Hla). destruct (absorb_landing k m1 now (Some (role, id, st))) as [[k1 m2]|] eqn:Ha; [|done].
    cbn [mbind option_bind]. pose proof (absorb_kept k m1 now role id st k1 m2 Hk1 Hla Hr Ha) as Hab. cbn [sb_done_id].
    unfold is_foreign_completion. destruct (Z.eqb_spec id.1 (ap_incarnation (k_appends k1))) as [Hinc|Hinc].
    + set (k2 := with_kappends k1 _). assert (Hab2 : absorbed k2 m2 id st) by (by destruct k1).
      destruct (recovering k2 && _) eqn:Hrec.
      * intros [= <- <- <-]. split; [|done]. apply (absorbed_kept k2 m2 id st Hab2). intros pc dag Hpc Hst.
        apply andb_true_iff in Hrec as [_ Hn]. rewrite Hpc in Hn. cbn in Hn. rewrite Hst in Hn. cbn in Hn.
        rewrite bool_decide_eq_true_2 in Hn by done. done.
      * apply on_wrote_landed with (st := st). exact Hab2.
    + set (k2 := with_kappends k1 _). intros [= <- <- <-]. split; [|done].
      assert (Hk2 : kept None k1 m2).
      { apply (absorbed_kept k1 m2 id st Hab). intros pc dag Hpc Hst. destruct Hab as [(Hka & _)|[Hka _]];
          destruct (kp_pc _ _ _ Hka pc Hpc) as [_ Hpo]; rewrite Hst in Hpo; by destruct Hpo as ([Hi _] & _). }
      apply (kept_frame None k1); [done|reflexivity|reflexivity].
  - destruct Hpk as [Hk1 Hno]. cbn [absorb_landing mbind option_bind].
    unfold is_foreign_completion. destruct (Z.eqb_spec (sb_done_id dn).1 (ap_incarnation (k_appends k))) as [Hinc|Hinc].
    2:{ intros [= <- <- <-]. split; [apply (kept_frame None k); [done|reflexivity|reflexivity]|done]. }
    set (k2 := with_kappends k _). assert (Hk2 : kept None k2 m1) by (apply (kept_frame None k); [done|reflexivity|reflexivity]).
    destruct (recovering k2 && _); [intros [= <- <- <-]; done|]. destruct dn as [id|i o sn|i].
    + destruct (Hno id eq_refl) as [Hn1 Hn2]. intros Hw. destruct (on_wrote_envelope k2 m1 id r k' m' Hk2 Hl Hn1 Hn2 Hw) as [Hk' ->]. done.
    + intros [= <- <- <-]. done.
    + intros [= <- <- <-]. split; [apply (kept_frame None k2); [done|reflexivity|reflexivity]|done].
Qed.

(** ** Staging an install *)

Lemma stage_install_kept k m now k' m' : kept None k m -> flush_and_stage_install k m now = Some (k', m') -> kept None k' m'.
Proof.
  intros Hk. unfold flush_and_stage_install. destruct (k_pending_install k) as [i|] eqn:Hi; [|by intros [= <- <-]].
  destruct (is_some (k_pending_sb k) || is_some (k_pending_checkpoint k)) eqn:Hb; cbn [orb]; [by intros [= <- <-]|].
  destruct (_ || flush_owed (lane m)); [by intros [= <- <-]|].
  destruct (issue_block_job k m _) as [[[job k1] m1]|] eqn:Hj; [|done]. cbn zeta. cbn [mbind option_bind]. intros [= <- <-].
  destruct (issue_kept None k m _ job k1 m1 Hk Hj) as (Hk1 & Hf & Hm).
  destruct (mint_spec k k1 job Hm) as (Hfc & _ & _ & _ & _ & Ho & _). injection Hfc as _ _ _ _ _ _ _ _ _ Hsb1 Hpc1 Hpi1 _.
  apply orb_false_iff in Hb as [Hsb Hpc]. destruct (k_pending_sb k) eqn:Hsbk; [done|]. destruct (k_pending_checkpoint k) eqn:Hpck; [done|].
  destruct (kp_install _ _ _ Hk1 i (eq_trans Hpi1 Hi)) as (Hr & Hbl & _ & _).
  eapply (kept_with_pc None _ m1); [apply (kept_frame None k1); [exact Hk1| |reflexivity]|reflexivity|split; [done|exact Hbl]| |].
  - unfold face, k_pending_sb, k_pending_checkpoint, k_pending_install in *. cbn. by rewrite Hpc1.
  - intros j Hj'. change (k_pending_install k1 = Some j) in Hj'. rewrite Hpi1, Hi in Hj'. by injection Hj' as <-.
  - intros id a Ha. change (k_pending_sb k1 = Some (id, a)) in Ha. congruence.
Qed.

Lemma kept_drop_sync x k m : kept x k m -> kept x (with_owed k (drop_sync (k_owed k))) m.
Proof. intros Hk. apply (kept_frame x k); [done|reflexivity|reflexivity]. Qed.

Lemma crossing_epoch (k : Keeper) (m : Medium) c s prev op : crossing_successor k m c = Some (Some (s, prev, op)) -> m_epoch (k_membership k) < m_epoch s.
Proof.
  unfold crossing_successor. destruct (_ || _); [done|]. destruct (expect (decode_body _)) as [p|]; [|done]. cbn [mbind option_bind].
  destruct (expect (to_membership_verified _ _ _)) as [s'|]; [|done]. cbn [mbind option_bind].
  destruct (Z.leb_spec (m_epoch s') (m_epoch (k_membership k))); [done|]. cbn zeta. destruct (_ || _); [done|].
  destruct (sc_config_install_op c) as [o|]; [|done]. cbn [mbind option_bind]. destruct (_ || _); [done|]. intros [= <- _ _]. lia.
Qed.

Lemma apply_sync_kept k m now donor c k' m' :
  kept None k m -> k_pending_checkpoint k = None -> 0 <= sc_checkpoint_op c < umax 64 ->
  (forall s prev op, crossing_successor k m c = Some (Some (s, prev, op)) -> on_history s op) ->
  apply_sync k m now donor c = Some (k', m') -> kept None k' m'.
Proof.
  intros Hk Hpc Hr Hh. unfold apply_sync. cbn zeta.
  match goal with |- context [if ?b && (_ <? _) then _ else _] => destruct (b && (sc_checkpoint_op c <? nd_commit_min (k_node k))) end.
  { intros [= <- <-]. destruct (match sy_sync (o_syncer (k_owed k)) with Some t => st_require_cross_epoch t | None => false end); [done|].
    apply (kept_frame None (forget_install k)); [by apply kept_forget_install|reflexivity|reflexivity]. }
  match goal with |- context [if ?b then None else _] => destruct b end; [done|].
  destruct (Z.ltb_spec (sc_checkpoint_op c) (v_checkpoint_op (effective_root m))) as [|Hge]; [by intros [= <- <-]|].
  destruct (decode_checkpoint (sc_snapshot c)) as [[[bound sm] ss]|]; [|by intros [= <- <-]].
  destruct (crossing_successor k m c) as [succ|] eqn:Hc; [|by intros [= <- <-]].
  destruct (negb _); [by intros [= <- <-]|]. destruct (_ && _); [by intros [= <- <-]|].
  set (install := mkPendingInstall _ _ _ _ _ _ _ _ _). apply stage_install_kept.
  assert (Hk0 : kept None (forget_install k) m) by (by apply kept_forget_install).
  assert (Hbl : below m (sc_checkpoint_op c)).
  { intros r Hrr. destruct (root_le_effective m r (kp_rooted _ _ _ Hk) Hrr) as [-> |Hn]; [done|]. apply no_rewind_spec in Hn. lia. }
  destruct Hk0. split; try assumption.
  - intros pc. change (k_pending_checkpoint k = Some pc -> pc_ok None (with_owed k (set_install (k_owed k) (Some install))) m pc). by rewrite Hpc.
  - intros i [= <-]. refine (conj _ (conj _ (conj _ _))); [done|exact Hbl| |].
    + intros s Hs. cbn in Hs. destruct succ as [[[s' prev] op]|]; [|done]. cbn in Hs. injection Hs as <-.
      split; [exists op; split; [done|by eapply Hh]|]. left. pose proof (crossing_epoch k m c s' prev op Hc).
      change (m_epoch (k_membership k) <= m_epoch s'). lia.
    + intros pc. change (k_pending_checkpoint k = Some pc -> pc_target_op pc = sc_checkpoint_op c /\ pc_kind pc = SyncRepersist). by rewrite Hpc.
Qed.

(** ** Recovery *)

Lemma recover_kept wal_header c mem sm y inc (m : Medium) k m' :
  rooted m -> (forall r, is_root m r -> sound r) -> (forall id, live m id -> id.1 <> inc) ->
  (v_membership (durable m) = None -> on_history mem (v_config_install_op (durable m)) /\ forall r, is_root m r -> stamped r -> m_epoch mem <= v_epoch r) ->
  recover_baseline wal_header c mem sm y inc m = Ok (RecoveredActive k, m') -> kept None k m'.
Proof.
  intros Hr Hso Hinc Hmem. unfold recover_baseline. pose proof (collapse_shrinks m Hr) as Hsh. set (m1 := collapse_parked_roots m) in *.
  pose proof (sh_rooted _ _ Hsh) as Hr1. cbn zeta.
  destruct (geometry_fence _ _ _); [done|]. destruct (slot_of _ _) as [slot|]; [|done]. destruct (_ && _); [done|].
  intros [= <- <-]. change (sb_state (sb m1)) with (durable m1). assert (Hdr : is_root m1 (durable m1)) by (by left).
  assert (Hs1 : forall r, is_root m1 r -> sound r) by (intros r Hrr; by apply Hso, (sh_root m m1)).
  pose proof (Hs1 _ Hdr) as Hsd. pose proof (Hs1 _ (effective_is_root m1)) as Hse.
  assert (Hle : forall r, is_root m1 r -> v_view r <= v_view (effective_root m1)).
  { intros r Hrr. destruct (root_le_effective m1 r Hr1 Hrr) as [-> |Hn]; [done|]. apply no_rewind_spec in Hn. lia. }
  split; try done.
  - intros id Hid He. exfalso. apply (Hinc id); [by apply (sh_live m m1)|exact He].
  - exact (so_log_view _ Hse).
  - intros r Hrr Hst. change (m_epoch (match v_membership (durable m1) with Some durable => durable | None => mem end) <= v_epoch r).
    pose proof (so_config _ Hsd) as Hcfg. destruct (v_membership (durable m1)) as [dm|] eqn:Hdm.
    + destruct Hcfg as [<- _]. apply (epoch_after m1); [done|by left|done].
    + apply Hmem; [exact Hdm|by apply (sh_root m m1)|done].
  - change (on_history (match v_membership (durable m1) with Some durable => durable | None => mem end) (v_config_install_op (durable m1))).
    pose proof (so_config _ Hsd) as Hcfg. destruct (v_membership (durable m1)) as [dm|] eqn:Hdm; [apply Hcfg|]. by apply Hmem.
Qed.

(** ** Lives

    Everything that happens to the root of one session over a line of endpoints.  Three
    rules have a premise the code does not check: a swap's root needs a log floor at or
    above the effective checkpoint, a reverted catch-up a view no lower than the log's,
    and what a swap or an install installs is on the history the cluster agreed on. *)
Context (wal_header : W -> OpNumber -> option Header).

Definition boots (c : Config) (mem : Membership) (m : Medium) (inc : Z) : Prop :=
  (forall id, live m id -> id.1 <> inc) /\
  (v_membership (durable m) = None -> on_history mem (v_config_install_op (durable m)) /\ forall r, is_root m r -> stamped r -> m_epoch mem <= v_epoch r).

Inductive lives : Keeper -> Medium -> Prop :=
| lives_boot c mem sm y inc m k m' :
    rooted m -> (forall r, is_root m r -> sound r) -> boots c mem m inc ->
    recover_baseline wal_header c mem sm y inc m = Ok (RecoveredActive k, m') -> lives k m'
| lives_restart c mem sm y inc m k m' k0 :
    lives k0 m -> boots c mem m inc -> recover_baseline wal_header c mem sm y inc m = Ok (RecoveredActive k, m') -> lives k m'
| lives_elsewhere k k' m m' :
    lives k m -> face k' = face k -> ap_next_op_id (k_appends k) <= ap_next_op_id (k_appends k') -> roots_face m' = roots_face m -> lives k' m'
| lives_read k m id : lives k m -> lives k (submit_checkpoint_read m id)
| lives_stage k m op s :
    lives k m -> on_history s op -> m_epoch (k_membership k) <= m_epoch s -> lives (with_knode k (node_swap (k_node k) (Some (op, s)))) m
| lives_restored k m op k' : lives k m -> op <= v_checkpoint_op (durable m) -> advance_checkpoint_op k op = Some k' -> lives k' m
| lives_view_change k m now v k' m' : lives k m -> in_range k -> k_view k <= v -> enter_view_change k m now v = Some (k', m') -> lives k' m'
| lives_form k m k' m' : lives k m -> in_range k -> settle_new_primary k m = Some (k', m') -> lives k' m'
| lives_adopt k m now v floor k' m' :
    lives k m -> in_range k -> k_view k <= v -> settle_adopted_head (set_view k v) m now floor = Some (k', m') -> lives k' m'
| lives_catch_up k m now v k' m' : lives k m -> catch_up_to_view k m now v = Some (k', m') -> lives k' m'
| lives_timeout k m : lives k m -> k_log_view k <= Z.max (k_durable_view k) (v_view (effective_root m)) -> lives (catch_up_timeout k m).2 m
| lives_seal k m b k' m' : lives k m -> in_range k -> catching_up k = false -> seal_committed_frontier k m = Some (b, k', m') -> lives k' m'
| lives_swap k m k' m' :
    lives k m -> in_range k -> catching_up k = false -> v_checkpoint_op (effective_root m) <= k_log_floor k -> maybe_swap_epoch k m = Some (k', m') -> lives k' m'
| lives_checkpoint k m k' m' : lives k m -> in_range k -> maybe_checkpoint k m = Some (k', m') -> lives k' m'
| lives_debt k m k' m' :
    lives k m -> in_range k -> k_pending_sb k = None -> k_pending_checkpoint k = None -> k_pending_install k = None -> force_checkpoint k m = Some (k', m') -> lives k' m'
| lives_materialized k m job sm ss flush k' m' : lives k m -> on_checkpoint_materialized k m job sm ss flush = Some (k', m') -> lives k' m'
| lives_flushed k m job flush b k' m' : lives k m -> on_checkpoint_blocks_flushed k m job flush = Some (b, k', m') -> lives k' m'
| lives_sync k m now donor c k' m' :
    lives k m -> k_pending_checkpoint k = None -> 0 <= sc_checkpoint_op c < umax 64 ->
    (forall s prev op, crossing_successor k m c = Some (Some (s, prev, op)) -> on_history s op) -> apply_sync k m now donor c = Some (k', m') -> lives k' m'
| lives_retry k m now k' m' : lives k m -> flush_and_stage_install k m now = Some (k', m') -> lives k' m'
| lives_frontier k m k' : lives k m -> maybe_adopt_inherited_frontier k = Some k' -> lives k' m
| lives_orphan k m now b k' m' : lives k m -> maybe_enter_orphan_repersist_recovery k m now = Some (b, k', m') -> lives k' m'
| lives_gc k m k' m' : lives k m -> run_gc k m = Some (k', m') -> lives k' m'
| lives_sweep k m k' m' : lives k m -> gc_blocks k m = Some (k', m') -> lives k' m'
| lives_poll k m m' : lives k m -> poll_sb m = Some (None, m') -> lives k m'
| lives_completion k m m1 now dn landed r k' m' :
    lives k m -> in_range k -> poll_sb m = Some (Some (dn, landed), m1) -> on_sb_done k m1 now dn landed = Some (r, k', m') -> lives k' m'.

Lemma catch_up_kept k m now v k' m' : kept None k m -> catch_up_to_view k m now v = Some (k', m') -> kept None k' m'.
Proof.
  intros Hk. unfold catch_up_to_view. destruct (sync_repersist_root_staged k); [by intros [= <- <-]|].
  destruct (_ <? v); [by intros [= <- <-]|]. destruct (Z.ltb_spec (k_view k) v) as [Hlt|]; [|done]. intros He.
  destruct (enter_catch_up_kept (set_view k v) m now) as (k1 & m1 & He' & Hk1 & _);
    [apply kept_raise_view; [by apply kept_forget_sb|lia]|]. congruence.
Qed.

Lemma timeout_kept k m :
  kept None k m -> k_log_view k <= Z.max (k_durable_view k) (v_view (effective_root m)) -> kept None (catch_up_timeout k m).2 m.
Proof.
  intros Hk Hl. unfold catch_up_timeout. destruct (p_view_change (k_posture k)) as [vc|] eqn:Hvc; [|done].
  destruct (vc_catching_up vc) eqn:Hc; [|done]. cbn zeta.
  assert (Hcu : catching_up k = true) by (unfold catching_up; rewrite Hvc; done).
  set (k1 := set_collection k _). assert (Hk1 : kept None k1 m).
  { destruct Hk. split; try assumption. intros _. exact (kp_catching0 Hcu). }
  destruct (_ && _); [|exact Hk1]. exact (revert_kept k1 m Hk1 eq_refl Hl).
Qed.

Lemma swap_epoch_kept k m k' m' :
  kept None k m -> ids_left k -> catching_up k = false -> v_checkpoint_op (effective_root m) <= k_log_floor k ->
  maybe_swap_epoch k m = Some (k', m') -> kept None k' m'.
Proof.
  intros Hk Hl Hc Hf. unfold maybe_swap_epoch. destruct (nd_pending_swap (k_node k)) as [[op s]|] eqn:Hs; [|by intros [= <- <-]].
  destruct (swap_stale k m s) eqn:Hst; [intros [= <- <-]; by apply kept_drop_swap|].
  destruct (negb (settled_view k)); [by intros [= <- <-]|].
  destruct (is_some (k_pending_sb k) || is_some (k_pending_checkpoint k)) eqn:Hb; [by intros [= <- <-]|].
  apply orb_false_iff in Hb as [Hsb Hpc]. destruct (k_pending_sb k) eqn:Hsbk; [done|]. destruct (k_pending_checkpoint k) eqn:Hpck; [done|].
  destruct (submit_swap_kept k m op s Hk Hl Hs Hst Hsbk Hpck Hc Hf) as (k1 & m1 & -> & Hk1). by intros [= <- <-].
Qed.

Lemma seal_kept k m b k' m' :
  kept None k m -> ids_left k -> catching_up k = false -> seal_committed_frontier k m = Some (b, k', m') -> kept None k' m'.
Proof.
  intros Hk Hl Hc. unfold seal_committed_frontier. destruct (_ && _); [|by intros [= _ <- <-]].
  destruct (submit_durable_view_kept None k m Seal) as (k1 & m1 & id & -> & Hk1 & _); [by apply kept_forget_sb|done|done|done|].
  cbn. by intros [= _ <- <-].
Qed.

Lemma checkpoint_kept k m k' m' : kept None k m -> in_range k -> maybe_checkpoint k m = Some (k', m') -> kept None k' m'.
Proof.
  intros Hk [_ Hr]. unfold maybe_checkpoint.
  destruct (negb (settled_view k) || is_some (k_pending_sb k) || is_some (k_pending_checkpoint k) || sm_reconstruct_owed k || is_some (k_pending_install k)) eqn:Hb;
    [by intros [= <- <-]|]. destruct (_ <? _); [by intros [= <- <-]|]. intros Hf.
  repeat match goal with H : _ || _ = false |- _ => apply orb_false_iff in H as [? ?] end.
  destruct (k_pending_sb k) eqn:Hsb; [done|]. destruct (k_pending_checkpoint k) eqn:Hpc; [done|]. destruct (k_pending_install k) eqn:Hpi; [done|].
  eapply (force_checkpoint_kept k m); [done|done|done|done|by rewrite Hsb|done].
Qed.

Lemma adopted_fence (k : Keeper) (m : Medium) now floor k' m' : settle_adopted_head k m now floor = Some (k', m') -> read_fence_open k = false.
Proof.
  unfold settle_adopted_head. cbn zeta. set (k1 := push_event _ _). destruct (reset_for_view_transition k1 m now) as [[k2 m2]|] eqn:Hr; [|done].
  cbn [mbind option_bind]. destruct (if 0 <? floor then _ else _) as [k3|] eqn:Hp; [|done]. cbn [mbind option_bind].
  destruct (read_fence_open (set_collection k3 None)) eqn:Hf; [done|]. intros _. rewrite <- Hf. unfold read_fence_open.
  change (k_recover (set_collection k3 None)) with (k_recover k3).
  assert (k_recover k3 = k_recover k2) as -> by (revert Hp; destruct (0 <? floor); [apply record_peer_recover|by intros [= <-]]).
  rewrite (reset_recover _ _ _ _ _ Hr). subst k1. unfold set_status. by case_bool_decide.
Qed.

Lemma lives_kept k m : lives k m -> kept None k m.
Proof.
  induction 1.
  - by eapply recover_kept; [| |apply H3|apply H3|].
  - eapply recover_kept; [apply (kp_rooted _ _ _ IHlives)|apply (kp_sound _ _ _ IHlives)|apply H2|apply H2|done].
  - apply (kept_face None k' m); [by apply (kept_frame None k)|done].
  - apply (kept_shrinks None None k m); [done|by apply read_shrinks, (kp_rooted _ _ _ IHlives)|].
    intros pc i dag _ _ [Ha|Ha]; [left; by apply awaited_read|by right].
  - destruct IHlives. split; try assumption. intros op' s' [= <- <-]. split; [done|by left].
  - by apply (advance_kept None k m op).
  - destruct (enter_view_change_kept k m now v) as (k1 & m1 & He & Hk1 & _); [by apply kept_forget_sb|apply H2|done|]. congruence.
  - destruct (settle_new_primary_kept k m) as (k1 & m1 & He & Hk1 & _); [by apply kept_forget_sb|apply H2|]. congruence.
  - destruct (settle_adopted_head_kept (set_view k v) m now floor) as (k1 & m1 & He & Hk1 & _);
      [apply kept_raise_view; [by apply kept_forget_sb|done]|apply H2|by eapply adopted_fence|]. congruence.
  - by eapply catch_up_kept.
  - by apply timeout_kept.
  - eapply seal_kept; [done|apply H2|done|done].
  - eapply swap_epoch_kept; [done|apply H2|done|done|done].
  - by eapply checkpoint_kept.
  - eapply (force_checkpoint_kept k m); [done|done|done|apply H2|by rewrite H3|done].
  - by eapply materialized_kept.
  - by eapply flushed_kept.
  - by eapply apply_sync_kept.
  - by eapply stage_install_kept.
  - by eapply adopt_inherited_kept.
  - by eapply maybe_orphan_kept.
  - by eapply run_gc_kept.
  - by eapply gc_blocks_kept.
  - exact (poll_kept k m m' None IHlives H2).
  - by eapply on_sb_done_kept.
Qed.

(** ** Along every life *)

(** C12. Along every life in which no catch-up is reverted below the log view, no root an
    endpoint writes is refused: whatever the restarts, completions and transitions behind
    it, a view entered, a view formed or adopted, a checkpoint whose envelope landed and a
    seal always find a root the builders accept and the session does not fail-stop on; so
    does a staged epoch swap once the log floor covers the effective checkpoint.  The
    two exceptions are real: [reverted_catch_up_outruns_view] and
    [swap_under_inflight_checkpoint_panics] run the code into each. *)
Theorem roots_accepted k m :
  lives k m -> in_range k ->
  (forall now v, k_view k <= v -> is_Some (enter_view_change k m now v)) /\
  is_Some (settle_new_primary k m) /\
  (forall now v floor, k_view k <= v -> read_fence_open k = false -> is_Some (settle_adopted_head (set_view k v) m now floor)) /\
  (forall pc id dag, k_pending_checkpoint k = Some pc -> pc_step pc = AwaitSnapshot id dag -> is_Some (submit_checkpoint_root k m pc dag)) /\
  (catching_up k = false -> is_Some (seal_committed_frontier k m)) /\
  (catching_up k = false -> v_checkpoint_op (effective_root m) <= k_log_floor k -> is_Some (maybe_swap_epoch k m)).
Proof.
  intros Hlv [Hl Hr]. pose proof (lives_kept k m Hlv) as Hk. pose proof (kept_forget_sb None k m Hk) as Hf. split_and!.
  - intros now v Hv. destruct (enter_view_change_kept k m now v Hf Hl Hv) as (k' & m' & He & _). eauto.
  - destruct (settle_new_primary_kept k m Hf Hl) as (k' & m' & He & _). eauto.
  - intros now v floor Hv Hfe. destruct (settle_adopted_head_kept (set_view k v) m now floor) as (k' & m' & He & _);
      [by apply kept_raise_view|exact Hl|exact Hfe|eauto].
  - intros pc id dag Hpc Hs. destruct (submit_checkpoint_root_kept k m pc id dag Hk Hl Hpc Hs) as (k' & m' & He & _). eauto.
  - intros Hc. unfold seal_committed_frontier. destruct (_ && _); [|eauto].
    destruct (submit_durable_view_kept None k m Seal Hf Hl Hc) as (k' & m' & id & -> & _); [done|]. cbn. eauto.
  - intros Hc Hfl. unfold maybe_swap_epoch. destruct (nd_pending_swap (k_node k)) as [[op s]|] eqn:Hs; [|eauto].
    destruct (swap_stale k m s) eqn:Hst; [eauto|]. destruct (negb (settled_view k)); [eauto|].
    destruct (k_pending_sb k) eqn:Hsb; [eauto|]. destruct (k_pending_checkpoint k) eqn:Hpc; [eauto|]. cbn [is_some orb].
    destruct (submit_swap_kept k m op s Hk Hl Hs Hst Hsb Hpc Hc Hfl) as (k1 & m1 & He & _). rewrite He. eauto.
Qed.

(** Persist before participate: the view an endpoint believes durable is covered by the
    root on the medium, and a completion sends a vote, opens a primary's view or
    acknowledges an adopted log only when the root on the medium carries the very view
    the endpoint is in. *)
Theorem participates_durably k m :
  lives k m -> in_range k ->
  k_durable_view k <= v_view (durable m) <= k_view k /\
  (forall m1 now dn landed r k' m', poll_sb m = Some (Some (dn, landed), m1) -> on_sb_done k m1 now dn landed = Some (r, k', m') ->
     (r = RouteSendDoViewChange \/ r = RouteStartViewParticipate \/ r = RouteStartViewAcks) ->
     v_view (durable m') = k_view k' /\ k_durable_view k' = k_view k').
Proof.
  intros Hlv Hr. pose proof (lives_kept k m Hlv) as Hk. split.
  - split; [apply Hk|apply (kp_view _ _ _ Hk); by left].
  - intros m1 now dn landed r k' m' Hp Hd Hroute. destruct (on_sb_done_kept k m m1 now dn landed r k' m' Hk Hr Hp Hd) as [Hk' Hdur].
    assert (Hle : v_view (durable m') <= k_view k') by (apply (kp_view _ _ _ Hk'); by left).
    destruct Hroute as [-> |[-> | ->]]; destruct Hdur as [? ?]; split; lia.
Qed.

(** C13. Nothing is forgotten across a restart: an endpoint rebuilt on the session, with roots
    in flight or not, stands at a view no lower than every view its predecessor made
    durable, at a checkpoint no lower than its predecessor's, in a configuration no
    older than the one the durable root records, and again in a life. *)
Theorem restart_keeps_promises c mem sm y inc k0 m k m' :
  lives k0 m -> boots c mem m inc -> recover_baseline wal_header c mem sm y inc m = Ok (RecoveredActive k, m') ->
  lives k m' /\ k_durable_view k0 <= k_durable_view k <= k_view k /\ k_checkpoint_op k0 <= k_checkpoint_op k /\
  (forall r, is_root m' r -> v_view r <= k_view k) /\
  (stamped (durable m) -> v_epoch (durable m) = m_epoch (k_membership k)).
Proof.
  intros Hlv Hb Hrec. pose proof (lives_kept k0 m Hlv) as Hk0.
  pose proof (lives_restart c mem sm y inc m k m' k0 Hlv Hb Hrec) as Hl. pose proof (lives_kept k m' Hl) as Hk.
  assert (Hd : durable m' = durable m /\ k_durable_view k = v_view (durable m) /\ k_checkpoint_op k = v_checkpoint_op (durable m) /\
    forall dm, v_membership (durable m) = Some dm -> k_membership k = dm).
  { revert Hrec. unfold recover_baseline. cbn zeta. change (sb_state (sb (collapse_parked_roots m))) with (durable m).
    destruct (geometry_fence _ _ _); [done|]. destruct (slot_of _ _); [|done]. destruct (_ && _); [done|]. intros [= <- <-].
    split_and!; try done. intros dm Hdm. unfold k_membership. cbn. by rewrite Hdm. }
  destruct Hd as (Hd & Hdv & Hcp & Hme). split; [done|]. rewrite Hdv, Hcp.
  refine (conj (conj (kp_durable _ _ _ Hk0) _) (conj (kp_checkpoint _ _ _ Hk0) (conj (kp_view _ _ _ Hk) _))).
  - apply (kp_view _ _ _ Hk). left. congruence.
  - intros Hst. pose proof (so_config _ (kp_sound _ _ _ Hk0 (durable m) (or_introl eq_refl))) as Hcfg.
    unfold stamped in Hst. destruct (v_membership (durable m)) as [dm|] eqn:Hdm; [|by destruct Hst]. rewrite (Hme dm eq_refl). apply Hcfg.
Qed.

(** What is reclaimed is covered: the checkpoint an endpoint stands on never leads the
    durable root's, every root in flight is at or past the durable one, and a collection
    of the write-ahead log cuts no higher than the checkpoint the durable root records. *)
Theorem reclaims_below_checkpoint k m :
  lives k m ->
  k_checkpoint_op k <= v_checkpoint_op (durable m) /\
  (forall e, e ∈ timeline m -> v_checkpoint_op (durable m) <= v_checkpoint_op (re_state e) /\ v_view (durable m) <= v_view (re_state e)) /\
  (forall k' m', run_gc k m = Some (k', m') ->
     f_wal_pruned (k_frontier k') <= Z.max (f_wal_pruned (k_frontier k)) (v_checkpoint_op (durable m'))).
Proof.
  intros Hlv. pose proof (lives_kept k m Hlv) as Hk. split; [apply Hk|]. split.
  - intros e He. assert (Hr : is_root m (re_state e)) by (right; eauto). destruct (durable_le m _ (kp_rooted _ _ _ Hk) Hr) as [He2|[_ Hn]]; [rewrite He2; lia|].
    apply no_rewind_spec in Hn. lia.
  - intros k' m' Hg. destruct (run_gc_kept None k m k' m' Hk Hg) as (Hk' & Hp & _). pose proof (kp_checkpoint _ _ _ Hk').
    assert (k_checkpoint_op k <= k_checkpoint_op k'); [|lia]. revert Hg. unfold run_gc. destruct (_ =? 0); [by intros [= <- <-]|].
    destruct (prune _ _) as [[cs m1]|]; [|done]. cbn [mbind option_bind]. destruct (absorb_wal_cancellations _ _ _) as [[a m2]|]; [|done].
    cbn [mbind option_bind]. unfold trim_log_to_checkpoint. destruct (committed_survives _ _ _); [|done]. cbn [mbind option_bind]. by intros [= <- <-].
Qed.

End life.
