(* ===== verification/Prepares.v ===== *)
(** * Prepares, acknowledgements and heartbeats

    The replication round of [viewstamp-proto/src/endpoint/normal.rs] over the endpoint of
    [Roots]: a backup takes prepares in ([on_prepare], [on_prepare_batch]) with its reorder
    buffer, its re-acknowledgements and its two stalls, and follows the primary's
    heartbeat ([on_commit]); the primary counts acknowledgements ([on_prepare_ok]); both
    commit through [try_commit] and [advance_commit] with the tail those share (the
    checkpoint cadence, the owed frontier, the owed checkpoint of a swap and the swap
    itself); and a landed append is acted on ([on_wal_done] of [checkpoint.rs] after its
    routing in [Appends]).

    [Endpoint] is the endpoint, its medium and the messages it sent, oldest first.  A fail-stop
    is [None]; a [debug_assert!] is left out, and that the ring assertion of
    [append_prepare] and the durable-view assertion of [emit] hold is proved instead.
    Deadlines are not part of the state, as in [Roots]. *)

From S2P Require Import Prelude Core Hash Membership Codec Message Messages BTree ViewChange Votes Proposals Sessions Normal Storage Lane Blocks SessionBlocks BlockJobs Medium Appends Serve Repair SyncTrigger Roots.

Definition TAIL_GAP_WINDOW : Z := 64.

Inductive SlotStatus : Type := Empty | Dirty | Clean | Faulty.

Inductive CommitFlow : Type := Continue | EnteredRecovery.

Section prepares.
Context {S Image W B Walks : Type} `{StateMachine S Image} `{Wal W} `{Superblock B}.
(** [Wal::status] *)
Context (wal_status : W -> OpNumber -> SlotStatus).
#[local] Abbreviation Node := (@Node S).
#[local] Abbreviation Keeper := (@Keeper S).
#[local] Abbreviation Medium := (@Medium W B S Image (gmap Z Session) Walks).

Record Endpoint : Type := mkEndpoint {
  ep_keeper : Keeper;
  ep_medium : Medium;
  ep_sent : list (Recipient * Message);
}.

Definition send (b : Endpoint) (out : list (Recipient * Message)) : Endpoint := mkEndpoint (ep_keeper b) (ep_medium b) (ep_sent b ++ out).
Definition set_keeper (b : Endpoint) (k : Keeper) : Endpoint := mkEndpoint k (ep_medium b) (ep_sent b).
Definition put (b : Endpoint) (km : Keeper * Medium) : Endpoint := mkEndpoint km.1 km.2 (ep_sent b).

(** ** The views the other components take of the endpoint *)

Definition k_sync (k : Keeper) : option SyncState := sy_sync (o_syncer (k_owed k)).

Definition normal_ctx (k : Keeper) : Ctx :=
  mkCtx (k_status k) (is_some (k_pending_sb k)) (is_some (k_sync k)) (is_some (k_pending_checkpoint k))
    (match k_pending_sb k with Some (_, SwapEpoch _ _) => true | _ => false end) (p_pending_forfeit (k_posture k))
    (is_some (k_pending_install k)) (sm_reconstruct_owed k) (pending_durable_view k) (k_checkpoint_op k)
    (f_quorum_checkpoint (k_frontier k)) (k_log_floor k) (k_wal_capacity k).

Definition k_effective_wal_capacity (k : Keeper) (m : Medium) : Z :=
  effective_wal_capacity (wal_capacity (wal m)) (c_checkpoint_ops (nd_config (k_node k))).

(** The effective ring in place of the raw one. *)
Definition ring_ctx (k : Keeper) (m : Medium) : SyncCtx :=
  let cx := sync_ctx k in
  mkSyncCtx (sx_status cx) (sx_view cx) (sx_slot cx) (sx_membership cx) (sx_op cx) (sx_commit_min cx) (sx_checkpoint_op cx) (sx_log_floor cx)
    (k_effective_wal_capacity k m) (sx_install cx) (sx_awaiting_peer_checkpoint cx) (sx_sm_reconstruct cx) (sx_checkpoint_reads_open cx)
    (sx_peer_checkpoint cx).

(** A block transfer the sync drops is dropped whole. *)
Definition with_syncer (k : Keeper) (y : Syncer) : Keeper :=
  with_owed k (set_syncer (k_owed k) y (if is_some (sy_block_fetch y) then o_fetch (k_owed k) else None)).

Definition k_repairer (k : Keeper) : Repairer := mkRepairer (k_node k) (k_appends k) (k_nack_from k) None.
Definition with_repairer (k : Keeper) (r : Repairer) : Keeper :=
  with_tables (with_knode k (rr_node r)) (rr_appends r) (k_buffer k) (rr_nack_from r).

Definition k_proposer (k : Keeper) : Proposer :=
  let p := k_posture k in
  mkProposer (k_membership k) (k_local k) (k_view k) (p_svc_target p) (p_svc_from p) None None (p_pending_forfeit p) [].
Definition with_proposer (k : Keeper) (q : Proposer) : Keeper :=
  let p := k_posture k in
  with_posture k (mkPosture (p_status p) (p_log_view p) (p_durable_view p) (p_view_change p) (pr_svc_target q) (pr_svc_from q) (pr_pending_forfeit q)).

Definition with_buffer (k : Keeper) (t : btree Prepare) : Keeper := with_tables k (k_appends k) t (k_nack_from k).

Definition mark_appending (k : Keeper) (op : OpNumber) : Keeper :=
  with_owned_appends k (set_appending (k_appends k) ({[op]} ∪ ap_appending (k_appends k))).

(** ** The triggers of a sync *)

Definition k_maybe_request_sync (k : Keeper) (now : Z) (incoming : OpNumber) : Keeper :=
  with_syncer k (maybe_request_sync (sync_ctx k) (o_syncer (k_owed k)) now incoming).

Definition k_maybe_force_sync (k : Keeper) (now : Z) : Keeper :=
  let '(y, p, repair, _) := maybe_force_sync (sync_ctx k) (o_syncer (k_owed k)) (k_proposer k) (nd_repair (k_node k)) None now in
  let k := with_proposer (with_syncer k y) p in
  with_knode k (set_log (k_node k) (nd_log (k_node k)) (nd_inflight (k_node k)) repair).

Definition k_cancel_forced_sync (k : Keeper) : Keeper :=
  with_syncer k (cancel_forced_sync_if_satisfied (sync_ctx k) (o_syncer (k_owed k))).

Definition k_maybe_sync_below_ring_window (k : Keeper) (m : Medium) (now : Z) (pop cluster_checkpoint : OpNumber) : bool * Keeper :=
  let '(stalled, y) := maybe_sync_below_ring_window (ring_ctx k m) (o_syncer (k_owed k)) now pop cluster_checkpoint in
  (stalled, with_syncer k y).

Definition k_speculative_sync (k : Keeper) : bool := cross_epoch_speculative_sync (sync_ctx k) (o_syncer (k_owed k)).

(** ** Committing *)

Definition machine (op : OpNumber) (body : list byte) (sm : S) : S * list byte :=
  let '(reply, sm) := @sm_apply S Image _ sm op body in (sm, reply).

(** One op of either loop with what it may set off: a staged swap tries for the
    superblock at once, a hole is solicited and may force a sync. *)
Definition k_commit_one (k : Keeper) (m : Medium) (now : Z) (op : OpNumber) (primary_ : bool) : option (bool * Keeper * Medium) :=
  let staged := nd_pending_swap (k_node k) in
  '(applied, n) ← commit_one machine (k_node k) op primary_;
  if applied : bool then
    match staged, nd_pending_swap n with
    | None, Some _ => '(k, m) ← maybe_swap_epoch (with_knode k n) m; Some (true, k, m)
    | _, _ => Some (true, with_knode k n, m)
    end
  else Some (false, k_maybe_force_sync (with_knode k n) now, m).

Fixpoint k_advance_loop (fuel : nat) (k : Keeper) (m : Medium) (now : Z) (target : OpNumber) : option (Keeper * Medium) :=
  match fuel with
  | O => Some (k, m)
  | Datatypes.S fuel =>
      let n := k_node k in
      if (nd_commit_min n <? target) && (nd_commit_min n <? nd_op n) then
        match k_commit_one k m now (nd_commit_min n + 1) false with
        | Some (true, k, m) => k_advance_loop fuel k m now target
        | Some (false, k, m) => Some (k, m)
        | None => None
        end
      else Some (k, m)
  end.

Fixpoint k_try_commit_loop (fuel : nat) (k : Keeper) (m : Medium) (now : Z) (advanced : bool) : option (bool * Keeper * Medium) :=
  match fuel with
  | O => Some (advanced, k, m)
  | Datatypes.S fuel =>
      let n := k_node k in
      let next := nd_commit_min n + 1 in
      if commit_ready (nd_membership n) (nd_log n) (nd_inflight n) next then
        match k_commit_one k m now next true with
        | Some (true, k, m) => k_try_commit_loop fuel k m now true
        | Some (false, k, m) => Some (advanced, k, m)
        | None => None
        end
      else Some (advanced, k, m)
  end.

(** [maybe_pay_checkpoint_debt]; [advance] is its proactive [advance_commit], which the
    re-entrancy flag turns into nothing inside itself. *)
Definition pay_checkpoint_debt (advance : Keeper -> Medium -> option (CommitFlow * Keeper * Medium)) (k : Keeper) (m : Medium)
    : option (Keeper * Medium) :=
  if ch_install_op (k_config k) <=? k_checkpoint_op k then Some (k, m)
  else if sm_reconstruct_owed k || is_some (k_pending_install k) then Some (k, m)
  else if negb (settled_view k) then Some (k, m)
  else if is_some (k_pending_sb k) || is_some (k_pending_checkpoint k) then Some (k, m)
  else
    '(flow, k, m) ← advance k m;
    match flow with
    | EnteredRecovery => Some (k, m)
    | Continue =>
        if (ch_install_op (k_config k) <=? nd_commit_min (k_node k)) && negb (is_some (k_pending_checkpoint k))
        then force_checkpoint k m else Some (k, m)
    end.

(** The tail both commit functions end with; [pay] is the debt payment. *)
Definition commit_tail (pay : Keeper -> Medium -> option (Keeper * Medium)) (k : Keeper) (m : Medium) (now : Z)
    : option (CommitFlow * Keeper * Medium) :=
  k ← maybe_adopt_inherited_frontier (k_cancel_forced_sync k);
  '(entered, k, m) ← maybe_enter_orphan_repersist_recovery k m now;
  if entered : bool then Some (EnteredRecovery, k, m)
  else
    '(k, m) ← maybe_checkpoint k m;
    '(k, m) ← pay k m;
    '(k, m) ← maybe_swap_epoch k m;
    Some (Continue, k, m).

Definition advance_commit_paying (pay : Keeper -> Medium -> option (Keeper * Medium)) (k : Keeper) (m : Medium) (now : Z) (target : OpNumber)
    : option (CommitFlow * Keeper * Medium) :=
  if is_some (k_pending_install k) then Some (Continue, k, m)
  else
    let n := k_node k in
    let k := with_knode k (set_commit_max n (Z.max (nd_commit_max n) target)) in
    if sm_reconstruct_owed k then Some (Continue, k, m)
    else
      '(k, m) ← k_advance_loop (Z.to_nat (target - nd_commit_min (k_node k))) k m now target;
      commit_tail pay k m now.

(** The proactive advance of a payment pays nothing further but the checkpoint. *)
Definition maybe_pay_checkpoint_debt (now : Z) : Keeper -> Medium -> option (Keeper * Medium) :=
  pay_checkpoint_debt (fun k m =>
    advance_commit_paying (pay_checkpoint_debt (fun k m => Some (Continue, k, m))) k m now (nd_commit_max (k_node k))).

Definition k_advance_commit (k : Keeper) (m : Medium) (now : Z) (target : OpNumber) : option (CommitFlow * Keeper * Medium) :=
  advance_commit_paying (maybe_pay_checkpoint_debt now) k m now target.

Definition k_try_commit (b : Endpoint) (now : Z) : option (CommitFlow * Endpoint) :=
  let k := ep_keeper b in
  if negb (k_is_primary k) then Some (Continue, b)
  else if is_some (k_pending_install k) || sm_reconstruct_owed k then Some (Continue, b)
  else
    '(advanced, k, m) ← k_try_commit_loop (Datatypes.S (length (nd_inflight (k_node k)))) k (ep_medium b) now false;
    let n := k_node k in
    let k := with_knode k (set_commit_max n (Z.max (nd_commit_max n) (nd_commit_min n))) in
    let b := put b (k, m) in
    let b := if (advanced : bool) && negb (pending_durable_view k)
             then send b [(Backups, MCommit (mkCommit (k_view k) (nd_commit_min n) (k_checkpoint_op k)
                                               (m_epoch (k_membership k)) (m_config_id (k_membership k))))]
             else b in
    '(flow, k, m) ← commit_tail (maybe_pay_checkpoint_debt now) k m now;
    Some (flow, put b (k, m)).

(** ** Acknowledging *)

Definition op_durably_appended (k : Keeper) (m : Medium) (op : OpNumber) : bool :=
  (op <=? k_checkpoint_op k) || match wal_status (wal m) op with Clean | Faulty => true | Empty | Dirty => false end.

Definition held_identity (k : Keeper) (op : OpNumber) : Z :=
  match bt_get op (nd_log (k_node k)) with
  | Some e => prepare_identity (l_client e) (l_request e) (body_checksum (l_body e))
  | None => 0
  end.

Definition prepare_ok (k : Keeper) (op : OpNumber) (slot : ReplicaId) : PrepareOk :=
  mkPrepareOk (k_view k) op slot (k_checkpoint_op k) (held_identity k op) (m_epoch (k_membership k)) (m_config_id (k_membership k)).

Definition send_prepare_ok (b : Endpoint) (op : OpNumber) : option Endpoint :=
  let k := ep_keeper b in
  if k_is_learner k then Some b
  else if op_is_direct_voter_add (k_membership k) (nd_log (k_node k)) op then Some b
  else
    slot ← local_slot_opt (k_membership k) (k_local k);
    Some (send b [(To (PeerReplica (primary (k_membership k) (k_view k))), MPrepareOk (prepare_ok k op slot))]).

(** ** Appending *)

Definition is_direct_voter_add_prepare (k : Keeper) (p : Prepare) : bool :=
  if negb (pp_client p =? RECONFIGURATION) then false
  else
    match decode_body (pp_body p) with
    | Err _ => false
    | Ok payload => seats_new_voter_against_current (k_membership k) payload
    end.

(** The write and the entry of a prepare, its acknowledgement owed. *)
Definition write_prepare (k : Keeper) (m : Medium) (p : Prepare) : option (Keeper * Medium) :=
  let header := header_new (pp_op p) (pp_view p) (pp_client p) (pp_request p) (pp_body p) in
  '(a, m) ← submit_or_defer_append (k_appends k) m (pp_op p) header (pp_body p) (Ack (pp_op p));
  let k := with_owned_appends k a in
  let n := k_node k in
  let k := with_knode k (set_log n (bt_insert (pp_op p) (log_entry_from_prepare p) (nd_log n)) (nd_inflight n) (nd_repair n)) in
  Some (mark_appending k (pp_op p), m).

Definition append_prepare (k : Keeper) (m : Medium) (p : Prepare) : option (Keeper * Medium) :=
  if is_direct_voter_add_prepare k p then Some (k, m)
  else write_prepare (with_knode k (node_frontier (k_node k) (pp_op p) (nd_commit_min (k_node k)) (nd_commit_max (k_node k)))) m p.

Definition reappend_canonical_prepare (k : Keeper) (m : Medium) (p : Prepare) : option (Keeper * Medium) :=
  if is_direct_voter_add_prepare k p then Some (k, m)
  else if ring_append_would_wrap (k_repairer k) (normal_ctx k) m (pp_op p) then Some (k, m)
  else write_prepare k m p.

(** ** [on_prepare] *)

Definition request_tail_gap (b : Endpoint) : option Endpoint :=
  let k := ep_keeper b in
  let n := k_node k in
  if negb (is_normal (k_status k)) || k_is_primary k || (is_some (k_sync k) && negb (k_speculative_sync k)) then Some b
  else
    let lo := Z.max (nd_op n) (k_checkpoint_op k) + 1 in
    let hi := Z.min (nd_commit_max n) (sat_sub (sat_add 64 lo TAIL_GAP_WINDOW) 1) in
    out ← mapM (send_request_prepare n) (seqZ lo (hi - lo + 1));
    Some (send b out).

(** Whether the entry held at the prepare's op is the prepare's operation. *)
Definition holds (k : Keeper) (p : Prepare) : bool :=
  match bt_get (pp_op p) (nd_log (k_node k)) with
  | Some e => (l_client e =? pp_client p) && (l_request e =? pp_request p) && bool_decide (body_bytes (l_body e) = Some (pp_body p))
  | None => false
  end.

(** A prepare at or below the head. *)
Definition reack (b : Endpoint) (p : Prepare) : option Endpoint :=
  let k := ep_keeper b in
  let op := pp_op p in
  let appending := bool_decide (op ∈ ap_appending (k_appends k)) in
  if (op <=? k_checkpoint_op k) || holds k p then
    if negb appending && op_durably_appended k (ep_medium b) op then send_prepare_ok b op else Some b
  else if negb appending then km ← reappend_canonical_prepare k (ep_medium b) p; Some (put b km)
  else Some b.

(** The [while let] of the drain; every round but the last takes an entry. *)
Fixpoint drain_buffer (fuel : nat) (k : Keeper) (m : Medium) (now : Z) : option (Keeper * Medium) :=
  match fuel with
  | O => Some (k, m)
  | Datatypes.S fuel =>
      let at_ := nd_op (k_node k) + 1 in
      match bt_get at_ (k_buffer k) with
      | None => Some (k, m)
      | Some next =>
          if negb (pp_epoch next =? m_epoch (k_membership k)) || negb (pp_view next =? k_view k) then
            Some (with_buffer k (bt_remove at_ (k_buffer k)), m)
          else
            let '(stalled, k) := k_maybe_sync_below_ring_window k m now (pp_op next) (pp_checkpoint_op next) in
            if stalled || band_at_capacity (k_node k) (normal_ctx k) then Some (k, m)
            else
              match append_prepare (with_buffer k (bt_remove at_ (k_buffer k))) m next with
              | Some (k, m) => drain_buffer fuel k m now
              | None => None
              end
      end
  end.

(** A prepare just above the head. *)
Definition extend_head (b : Endpoint) (now : Z) (p : Prepare) : option Endpoint :=
  let '(stalled, k) := k_maybe_sync_below_ring_window (ep_keeper b) (ep_medium b) now (pp_op p) (pp_checkpoint_op p) in
  if stalled || band_at_capacity (k_node k) (normal_ctx k) then Some (set_keeper b k)
  else
    '(k, m) ← append_prepare k (ep_medium b) p;
    '(k, m) ← drain_buffer (Datatypes.S (length (k_buffer k))) k m now;
    '(_, k, m) ← k_advance_commit k m now (nd_commit_max (k_node k));
    Some (put b (k, m)).

(** Past every guard: the op against the head. *)
Definition place_prepare (b : Endpoint) (now : Z) (p : Prepare) : option Endpoint :=
  let k := ep_keeper b in
  let head := nd_op (k_node k) in
  if pp_op p <=? head then reack b p
  else if pp_op p =? head + 1 then extend_head b now p
  else
    let k := if pp_op p <=? sat_add 64 head TAIL_GAP_WINDOW then with_buffer k (bt_insert (pp_op p) p (k_buffer k)) else k in
    request_tail_gap (set_keeper b k).

(** From the primary of the own view. *)
Definition follow_prepare (b : Endpoint) (now : Z) (p : Prepare) : option Endpoint :=
  let k := k_maybe_request_sync (ep_keeper b) now (pp_checkpoint_op p) in
  if is_some (k_sync k) && negb (k_speculative_sync k) then Some (set_keeper b k)
  else if pending_durable_view k then Some (set_keeper b k)
  else
    '(flow, k, m) ← k_advance_commit k (ep_medium b) now (pp_commit p);
    match flow with
    | EnteredRecovery => Some (put b (k, m))
    | Continue => place_prepare (put b (k, m)) now p
    end.

Definition on_prepare (b : Endpoint) (now : Z) (p : Prepare) : option Endpoint :=
  '(filled, r, m) ← fill_repair (k_repairer (ep_keeper b)) (normal_ctx (ep_keeper b)) (ep_medium b) p;
  let b := put b (with_repairer (ep_keeper b) r, m) in
  let k := ep_keeper b in
  if filled : bool then Some b
  else if bool_decide (pp_op p ∈ nd_repair (k_node k)) then Some b
  else if negb (pp_epoch p =? m_epoch (k_membership k)) then Some b
  else if k_view k <? pp_view p then km ← catch_up_to_view k m now (pp_view p); Some (put b km)
  else if negb (is_normal (k_status k)) || negb (pp_view p =? k_view k) || k_is_primary k then Some b
  else follow_prepare b now p.

(** The prepare an entry of a batch stands for. *)
Definition batched_prepare (m : PrepareBatch) (e : PreparedEntry) : option Prepare :=
  body ← body_bytes (e_body e);
  Some (mkPrepare (bt_view m) (e_op e) (bt_commit m) (bt_checkpoint_op m) (bt_epoch m) (bt_config_id m) (e_client e) (e_request e) body).

Fixpoint on_prepares (b : Endpoint) (now : Z) (ps : list Prepare) : option Endpoint :=
  match ps with [] => Some b | p :: ps => b ← on_prepare b now p; on_prepares b now ps end.

Definition on_prepare_batch (b : Endpoint) (now : Z) (m : PrepareBatch) : option Endpoint :=
  on_prepares b now (omap (batched_prepare m) (bt_log m)).

(** ** [on_commit] and [on_prepare_ok] *)

Definition report_checkpoint_to_primary (b : Endpoint) : option Endpoint :=
  let k := ep_keeper b in
  if negb (is_normal (k_status k)) || k_is_primary k || is_some (k_sync k) || pending_durable_view k || (k_checkpoint_op k =? 0)
     || bool_decide (k_checkpoint_op k ∈ ap_appending (k_appends k))
  then Some b
  else send_prepare_ok b (k_checkpoint_op k).

Definition on_commit (b : Endpoint) (now : Z) (c : Commit) : option Endpoint :=
  let k := ep_keeper b in
  if k_view k <? cm_view c then km ← catch_up_to_view k (ep_medium b) now (cm_view c); Some (put b km)
  else if negb (is_normal (k_status k)) || negb (cm_view c =? k_view k) || k_is_primary k then Some b
  else
    k ← k_record_peer_checkpoint k (primary (k_membership k) (k_view k)) (cm_checkpoint_op c);
    let k := k_maybe_force_sync (k_maybe_request_sync k now (cm_checkpoint_op c)) now in
    '(flow, k, m) ← k_advance_commit k (ep_medium b) now (cm_commit c);
    match flow with
    | EnteredRecovery => Some (put b (k, m))
    | Continue => b ← request_tail_gap (put b (k, m)); report_checkpoint_to_primary b
    end.

Definition count_ack (n : Node) (ok : PrepareOk) : Node :=
  match bt_get (po_op ok) (nd_inflight n) with
  | Some inf =>
      if po_prepare_checksum ok =? i_prepare_checksum inf
      then set_log n (nd_log n) (bt_insert (po_op ok) (set_oks inf (Z.lor (i_oks inf) (bit (po_replica ok)))) (nd_inflight n)) (nd_repair n)
      else n
  | None => n
  end.

Definition on_prepare_ok (b : Endpoint) (now : Z) (ok : PrepareOk) : option Endpoint :=
  let k := ep_keeper b in
  if k_view k <? po_view ok then km ← catch_up_to_view k (ep_medium b) now (po_view ok); Some (put b km)
  else if negb (is_normal (k_status k)) || negb (k_is_primary k) || negb (po_view ok =? k_view k) then Some b
  else if m_replica_count (k_membership k) <=? po_replica ok then Some b
  else
    k ← k_record_peer_checkpoint k (po_replica ok) (po_checkpoint_op ok);
    let f := k_frontier k in
    let peer_checkpoint := max_peer_checkpoint_op (k_membership k) (f_checkpoint_op f) (f_log_floor f) (f_peer_checkpoint f) in
    '(flow, k, m) ← if nd_commit_max (k_node k) <? peer_checkpoint then k_advance_commit k (ep_medium b) now peer_checkpoint
                    else Some (Continue, k, ep_medium b);
    match flow with
    | EnteredRecovery => Some (put b (k, m))
    | Continue =>
        let k := k_maybe_force_sync (k_maybe_request_sync k now (po_checkpoint_op ok)) now in
        '(_, b) ← k_try_commit (put b (with_knode k (count_ack (k_node k) ok), m)) now;
        Some b
    end.

(** ** A landed append *)

Definition append_ctx (k : Keeper) : AppendCtx :=
  mkAppendCtx (k_status k) (k_view k) (nd_op (k_node k)) (f_wal_pruned (k_frontier k)) (nd_log (k_node k)).

Definition vote_own (b : Endpoint) (now : Z) (op : OpNumber) : option (CommitFlow * Endpoint) :=
  let k := ep_keeper b in
  let n := k_node k in
  let inflight := record_own_vote (k_membership k) (k_local k) (nd_log n) (nd_inflight n) op in
  k_try_commit (set_keeper b (with_knode k (set_log n (nd_log n) inflight (nd_repair n)))) now.

(** A repair fill is exposed, then voted for or applied. *)
Definition land_fill (b : Endpoint) (now : Z) (op : OpNumber) (entry : LogEntry) : option (CommitFlow * Endpoint) :=
  let k := ep_keeper b in
  let n := k_node k in
  let n := set_log n (bt_insert op entry (nd_log n)) (nd_inflight n) (nd_repair n ∖ {[op]}) in
  let k := with_tables (with_knode k n) (k_appends k) (k_buffer k) (delete op (k_nack_from k)) in
  let b := set_keeper b k in
  if (nd_commit_max n <? op) && k_is_primary k && is_some (bt_get op (nd_inflight n)) then vote_own b now op
  else '(flow, k, m) ← k_advance_commit k (ep_medium b) now (nd_commit_max n); Some (flow, put b (k, m)).

Definition dispatch_append (b : Endpoint) (now : Z) (resolved : option Pending) : option (CommitFlow * Endpoint) :=
  match resolved with
  | Some (Ack op) =>
      if k_is_primary (ep_keeper b) then vote_own b now op
      else b ← send_prepare_ok b op; Some (Continue, b)
  | Some (AdoptVote op) => vote_own b now op
  | Some (AdoptAck op) => b ← send_prepare_ok b op; Some (Continue, b)
  | Some (RepairFill op entry) => land_fill b now op entry
  | None => Some (Continue, b)
  end.

(** The second result is a completion the recovery router is to take. *)
Definition on_wal_done (b : Endpoint) (now : Z) (done : WalDone) (freed : option Z) : option (Endpoint * option WalDone) :=
  let k := ep_keeper b in
  '(route, a, m) ← wal_done_route (k_appends k) (ep_medium b) (append_ctx k) done freed;
  let b := put b (with_owned_appends k a, m) in
  match route with
  | Absorbed => Some (b, None)
  | ToRecovery done => Some (b, Some done)
  | Resolved resolved quiesced =>
      '(flow, b) ← dispatch_append b now resolved;
      match flow with
      | EnteredRecovery => Some (b, None)
      | Continue =>
          '(a, m) ← wal_done_release (k_appends (ep_keeper b)) (ep_medium b) quiesced;
          Some (put b (with_owned_appends (ep_keeper b) a, m), None)
      end
  end.

End prepares.

(** ** The generation an endpoint is in *)

Section generation.
Context {S Image W B Walks : Type} `{StateMachine S Image} `{Wal W} `{Superblock B}.
Context (wal_status : W -> OpNumber -> SlotStatus).
#[local] Abbreviation Node := (@Node S).
#[local] Abbreviation Keeper := (@Keeper S).
#[local] Abbreviation Medium := (@Medium W B S Image (gmap Z Session) Walks).
#[local] Abbreviation Endpoint := (@Endpoint S Image W B Walks).

(** What a node's place in the protocol is made of. *)
Definition node_gen (n : Node) := (nd_config n, nd_membership n, nd_view n, nd_op n, nd_log n, nd_appending n).

(** What a commit leaves alone: the view with its standing, the configuration, the log
    and its head, the appends and the reorder buffer. *)
Definition gen (k : Keeper) :=
  (node_gen (k_node k), (ap_incarnation (k_appends k), ap_pending (k_appends k), ap_deferred (k_appends k), ap_appending (k_appends k)),
   (k_buffer k, k_nack_from k, k_config k, k_wal_capacity k),
   (k_status k, k_log_view k, k_durable_view k, p_view_change (k_posture k))).

(** With what it has said and its tallies, which only commits themselves touch. *)
Definition still (k : Keeper) := (gen k, nd_out (k_node k), nd_inflight (k_node k)).

Lemma drop_stale_hole (log : btree LogEntry) op :
  match bt_get op log with Some e => is_body_bearing (l_body e) = false | None => True end -> drop_stale log op = log.
Proof. unfold drop_stale. destruct (bt_get op log) as [e|]; [|done]. by destruct (l_body e). Qed.

Definition hole_at (log : btree LogEntry) (op : OpNumber) : Prop :=
  match bt_get op log with Some e => is_body_bearing (l_body e) = false | None => True end.

Lemma hole_run_holes fuel log ceiling hi op :
  hi < op <= hole_run fuel log ceiling hi -> hole_at log op.
Proof.
  revert hi. induction fuel as [|fuel IH]; intros hi; cbn [hole_run]; [lia|]. destruct (hi <? ceiling); [|lia]. unfold hole_at.
  destruct (bt_get (hi + 1) log) as [e|] eqn:He; [destruct (is_body_bearing (l_body e)) eqn:Hb; [lia|]|];
    intros Hop; (destruct (Z.eq_dec op (hi + 1)) as [-> |]; [by rewrite He|apply (IH (hi + 1)); lia]).
Qed.

(** A commit drops no entry: what it registers for repair holds no body. *)
Lemma repair_run_gen (n : Node) lo : hole_at (nd_log n) lo -> node_gen (request_repair_run n lo) = node_gen n.
Proof.
  intros Hlo. unfold request_repair_run. cbv zeta. set (hi := hole_run _ _ _ _).
  assert (Hd : foldl drop_stale (nd_log n) (seqZ lo (hi - lo + 1)) = nd_log n).
  { assert (Hall : Forall (hole_at (nd_log n)) (seqZ lo (hi - lo + 1))).
    { apply Forall_forall. intros op Hop%elem_of_seqZ. destruct (Z.eq_dec op lo) as [-> |]; [done|]. apply (hole_run_holes (Z.to_nat REPAIR_WINDOW) _ (Z.min (Z.min (nd_commit_max n) (sat_sub (sat_add 64 lo REPAIR_WINDOW) 1)) (nd_op n)) lo). lia. }
    induction Hall as [|op ops Ho _ IH]; [done|]. cbn [foldl]. by rewrite drop_stale_hole. }
  rewrite Hd. done.
Qed.

Lemma commit_one_gen f (n : Node) op pr b n' : commit_one f n op pr = Some (b, n') -> node_gen n' = node_gen n.
Proof.
  unfold commit_one. destruct (bt_get op (nd_log n)) as [e|] eqn:He; [|by intros [= <- <-]; apply repair_run_gen; unfold hole_at; rewrite He].
  destruct (commit_reconfigure n op (l_body e)) as [r|] eqn:Hr.
  - unfold commit_reconfigure in Hr. destruct (as_reconfigure (l_body e)) as [pl|]; [|done]. cbn [mbind option_bind] in Hr. injection Hr as <-.
    destruct (op <? nd_commit_min n); [done|]. destruct (_ =? _); [|by intros [= <- <-]].
    destruct (first_new_voter _ _ _); [done|]. destruct (reconfigure _ _ _ _); [|done]. cbn [mbind option_bind]. intros [= <- <-].
    unfold stage_epoch_swap. by destruct (nd_pending_swap _).
  - destruct (as_present (l_body e)) as [bd|] eqn:Hp.
    + unfold apply_present. destruct (op <? nd_commit_min n); [done|]. destruct (f op bd (nd_sm n)) as [sm rep].
      destruct (note_applied_session _ _ _ _ _ _) as [t ev]. cbn [mbind option_bind]. destruct pr; by intros [= <- <-].
    + intros [= <- <-]. apply repair_run_gen. unfold hole_at. rewrite He. unfold commit_reconfigure in Hr.
      destruct (l_body e); try done; cbn in *; destruct (_ <? _); done.
Qed.

Lemma gen_knode (k : Keeper) n : node_gen n = node_gen (k_node k) -> gen (with_knode k n) = gen k.
Proof. intros Hn. unfold gen. cbn [k_node with_knode]. by rewrite Hn. Qed.

Lemma still_mint (k k' : Keeper) id : mint k = Some (id, k') -> still k' = still k.
Proof.
  unfold mint, mint_write_id. destruct (_ <? _); [|done]. cbn [mbind option_bind]. by intros [= _ <-].
Qed.

Lemma gen_mint (k k' : Keeper) id : mint k = Some (id, k') -> gen k' = gen k.
Proof. intros Hx%still_mint. exact (f_equal (fun x => x.1.1) Hx). Qed.

Lemma still_issue (k : Keeper) (m : Medium) kind j k' m' : issue_block_job k m kind = Some (j, k', m') -> still k' = still k.
Proof.
  unfold issue_block_job. destruct (mint k) as [[id k1]|] eqn:Hm; [|done]. cbn [mbind option_bind]. destruct (enqueue_block_job m id kind); [|done].
  cbn [mbind option_bind]. intros [= _ <- _]. by apply (still_mint k k1 id).
Qed.

Lemma gen_issue (k : Keeper) (m : Medium) kind j k' m' : issue_block_job k m kind = Some (j, k', m') -> gen k' = gen k.
Proof. intros Hx%still_issue. exact (f_equal (fun x => x.1.1) Hx). Qed.

Lemma still_force_checkpoint (k : Keeper) (m : Medium) k' m' : force_checkpoint k m = Some (k', m') -> still k' = still k.
Proof.
  unfold force_checkpoint. destruct (_ || _); [by intros [= <- _]|]. cbv zeta.
  destruct (issue_block_job k m _) as [[[j k1] m1]|] eqn:Hi; [|done]. cbn [mbind option_bind]. intros [= <- _].
  change (still k1 = still k). by eapply still_issue.
Qed.

Lemma gen_force_checkpoint (k : Keeper) (m : Medium) k' m' : force_checkpoint k m = Some (k', m') -> gen k' = gen k.
Proof. intros Hx%still_force_checkpoint. exact (f_equal (fun x => x.1.1) Hx). Qed.

Lemma still_maybe_checkpoint (k : Keeper) (m : Medium) k' m' : maybe_checkpoint k m = Some (k', m') -> still k' = still k.
Proof.
  unfold maybe_checkpoint. destruct (_ || _); [by intros [= <- _]|]. destruct (_ <? _); [by intros [= <- _]|]. apply still_force_checkpoint.
Qed.

Lemma gen_maybe_checkpoint (k : Keeper) (m : Medium) k' m' : maybe_checkpoint k m = Some (k', m') -> gen k' = gen k.
Proof. intros Hx%still_maybe_checkpoint. exact (f_equal (fun x => x.1.1) Hx). Qed.

Lemma still_maybe_swap (k : Keeper) (m : Medium) k' m' : maybe_swap_epoch k m = Some (k', m') -> still k' = still k.
Proof.
  unfold maybe_swap_epoch. destruct (nd_pending_swap (k_node k)) as [[op s]|]; [|by intros [= <- _]].
  destruct (swap_stale k m s); [by intros [= <- _]|]. destruct (negb _); [by intros [= <- _]|]. destruct (_ || _); [by intros [= <- _]|].
  unfold submit_swap_epoch. destruct (effective_checkpoint_pair m) as [cp cpid]. cbv zeta. destruct (expect _); [|done]. cbn [mbind option_bind].
  destruct (mint k) as [[id k1]|] eqn:Hm; [|done]. cbn [mbind option_bind]. destruct (submit_root _ _ _ _); [|done]. cbn [mbind option_bind].
  intros [= <- _]. change (still k1 = still k). by eapply still_mint.
Qed.

Lemma gen_maybe_swap (k : Keeper) (m : Medium) k' m' : maybe_swap_epoch k m = Some (k', m') -> gen k' = gen k.
Proof. intros Hx%still_maybe_swap. exact (f_equal (fun x => x.1.1) Hx). Qed.

Lemma still_recompute (k k' : Keeper) : recompute_quorum_checkpoint k = Some k' -> still k' = still k.
Proof. unfold recompute_quorum_checkpoint. destruct (compute_quorum_checkpoint_op _ _ _ _); [|done]. by intros [= <-]. Qed.

Lemma gen_recompute (k k' : Keeper) : recompute_quorum_checkpoint k = Some k' -> gen k' = gen k.
Proof. intros Hx%still_recompute. exact (f_equal (fun x => x.1.1) Hx). Qed.

Lemma still_advance_checkpoint (k : Keeper) to k' : advance_checkpoint_op k to = Some k' -> still k' = still k.
Proof.
  unfold advance_checkpoint_op. destruct (_ <=? to); [|done]. intros Hr%still_recompute. exact Hr.
Qed.

Lemma gen_advance_checkpoint (k : Keeper) to k' : advance_checkpoint_op k to = Some k' -> gen k' = gen k.
Proof. intros Hx%still_advance_checkpoint. exact (f_equal (fun x => x.1.1) Hx). Qed.

Lemma still_adopt_inherited (k k' : Keeper) : maybe_adopt_inherited_frontier k = Some k' -> still k' = still k.
Proof.
  unfold maybe_adopt_inherited_frontier. destruct (f_inherited _) as [f|]; [|by intros [= <-]]. destruct (_ || _); [by intros [= <-]|].
  destruct (advance_checkpoint_op k f) as [k1|] eqn:Ha; [|done]. cbn [mbind option_bind]. intros [= <-]. change (still k1 = still k). by eapply still_advance_checkpoint.
Qed.

Lemma gen_adopt_inherited (k k' : Keeper) : maybe_adopt_inherited_frontier k = Some k' -> gen k' = gen k.
Proof. intros Hx%still_adopt_inherited. exact (f_equal (fun x => x.1.1) Hx). Qed.

Lemma still_orphan_owed (k k' : Keeper) o : repersist_orphan_owed k = (o, k') -> still k' = still k.
Proof. unfold repersist_orphan_owed. destruct (f_orphan _); [destruct (_ || _)|]; by intros [= _ <-]. Qed.

Lemma gen_orphan_owed (k k' : Keeper) o : repersist_orphan_owed k = (o, k') -> gen k' = gen k.
Proof. intros Hx%still_orphan_owed. exact (f_equal (fun x => x.1.1) Hx). Qed.

Lemma still_retarget (k : Keeper) now t : still (retarget_recovery_fetch k now t) = still k.
Proof.
  unfold retarget_recovery_fetch. cbv zeta. destruct (negb _); [done|]. destruct (sy_sync _); [|done]. by destruct (_ && _).
Qed.

Lemma gen_retarget (k : Keeper) now t : gen (retarget_recovery_fetch k now t) = gen k.
Proof. exact (f_equal (fun x => x.1.1) (still_retarget k now t)). Qed.

Lemma still_maybe_orphan (k : Keeper) (m : Medium) now k' m' :
  maybe_enter_orphan_repersist_recovery k m now = Some (false, k', m') -> still k' = still k.
Proof.
  unfold maybe_enter_orphan_repersist_recovery. destruct (repersist_orphan_owed k) as [[t|] k1] eqn:Ho; [|intros [= <- _]; by eapply still_orphan_owed].
  destruct (_ || _); [intros [= <- _]; rewrite still_retarget; by eapply still_orphan_owed|].
  destruct (_ || _); [intros [= <- _]; by eapply still_orphan_owed|]. by destruct (enter_orphan_repersist_recovery k1 m now) as [[? ?]|].
Qed.

Lemma gen_maybe_orphan (k : Keeper) (m : Medium) now k' m' :
  maybe_enter_orphan_repersist_recovery k m now = Some (false, k', m') -> gen k' = gen k.
Proof. intros Hx%still_maybe_orphan. exact (f_equal (fun x => x.1.1) Hx). Qed.

Lemma gen_syncer (k : Keeper) y : gen (with_syncer k y) = gen k.
Proof. done. Qed.

Lemma still_force_sync (k : Keeper) now : still (k_maybe_force_sync k now) = still k.
Proof. unfold k_maybe_force_sync. by destruct (maybe_force_sync _ _ _ _ _ _) as [[[y p] r] t]. Qed.

Lemma gen_force_sync (k : Keeper) now : gen (k_maybe_force_sync k now) = gen k.
Proof. exact (f_equal (fun x => x.1.1) (still_force_sync k now)). Qed.

Lemma gen_commit_one (k : Keeper) (m : Medium) now op pr b k' m' : k_commit_one k m now op pr = Some (b, k', m') -> gen k' = gen k.
Proof.
  unfold k_commit_one. cbv zeta. destruct (commit_one machine (k_node k) op pr) as [[[] n]|] eqn:Hc; [| |done]; apply commit_one_gen in Hc; cbn [mbind option_bind].
  - assert (Hn : gen (with_knode k n) = gen k) by (by apply gen_knode).
    destruct (nd_pending_swap (k_node k)); [by intros [= _ <- _]|]. destruct (nd_pending_swap n); [|by intros [= _ <- _]].
    destruct (maybe_swap_epoch _ m) as [[k1 m1]|] eqn:Hs; [|done]. cbn [mbind option_bind]. intros [= _ <- _]. by rewrite (gen_maybe_swap _ _ _ _ Hs).
  - intros [= _ <- _]. rewrite gen_force_sync. by apply gen_knode.
Qed.

Lemma gen_advance_loop fuel : forall (k : Keeper) (m : Medium) now target k' m', k_advance_loop fuel k m now target = Some (k', m') -> gen k' = gen k.
Proof.
  induction fuel as [|fuel IH]; intros k m now target k' m'; cbn [k_advance_loop]; [by intros [= <- _]|]. cbv zeta. destruct (_ && _); [|by intros [= <- _]].
  destruct (k_commit_one k m now _ false) as [[[[] k1] m1]|] eqn:Hc; [| |done]; apply gen_commit_one in Hc; [|by intros [= <- _]].
  intros Hl. by rewrite (IH _ _ _ _ _ _ Hl).
Qed.

Lemma gen_try_loop fuel : forall (k : Keeper) (m : Medium) now adv b k' m', k_try_commit_loop fuel k m now adv = Some (b, k', m') -> gen k' = gen k.
Proof.
  induction fuel as [|fuel IH]; intros k m now adv b k' m'; cbn [k_try_commit_loop]; [by intros [= _ <- _]|]. cbv zeta. destruct (commit_ready _ _ _ _); [|by intros [= _ <- _]].
  destruct (k_commit_one k m now _ true) as [[[[] k1] m1]|] eqn:Hc; [| |done]; apply gen_commit_one in Hc; [|by intros [= _ <- _]].
  intros Hl. by rewrite (IH _ _ _ _ _ _ _ Hl).
Qed.

(** ** A commit that continues stays in its generation *)

(** No re-persist can tear the endpoint down from here on: none is owed, or the view is
    not durable yet, which no commit changes. *)
Definition quiet_orphan (k : Keeper) : Prop := f_orphan (k_frontier k) = None \/ ((k_durable_view k <? k_view k) && negb (catching_up k)) = true.

Lemma maybe_orphan_true (k : Keeper) (m : Medium) now k' m' :
  maybe_enter_orphan_repersist_recovery k m now = Some (true, k', m') ->
  is_Some (f_orphan (k_frontier k)) /\ recovering k = false /\ retired k = false /\ pending_durable_view k = false /\ own_advance k = false /\
    enter_orphan_repersist_recovery k m now = Some (k', m').
Proof.
  unfold maybe_enter_orphan_repersist_recovery, repersist_orphan_owed. destruct (f_orphan (k_frontier k)) as [t|] eqn:Ho; [|done].
  destruct ((t <=? k_checkpoint_op k) || (t <=? nd_commit_min (k_node k))); [done|].
  destruct (recovering k || retired k) eqn:Hr; [done|]. apply orb_false_iff in Hr as [? ?].
  destruct (pending_durable_view k || own_advance k) eqn:Hp; [done|]. apply orb_false_iff in Hp as [? ?].
  destruct (enter_orphan_repersist_recovery k m now) as [[k1 m1]|]; [|done]. cbn [mbind option_bind]. intros [= <- <-]. by split_and!.
Qed.

Lemma maybe_orphan_false (k : Keeper) (m : Medium) now k' m' :
  maybe_enter_orphan_repersist_recovery k m now = Some (false, k', m') ->
  f_orphan (k_frontier k') = None \/ recovering k = true \/ retired k = true \/
    (k' = k /\ (pending_durable_view k = true \/ own_advance k = true)).
Proof.
  unfold maybe_enter_orphan_repersist_recovery, repersist_orphan_owed. destruct (f_orphan (k_frontier k)) as [t|] eqn:Ho; [|intros [= <- _]; by left].
  destruct ((t <=? k_checkpoint_op k) || (t <=? nd_commit_min (k_node k))); [intros [= <- _]; by left|].
  destruct (recovering k || retired k) eqn:Hr; [intros _; right; apply orb_true_iff in Hr; tauto|].
  destruct (pending_durable_view k || own_advance k) eqn:Hp.
  - intros [= <- _]. do 3 right. split; [done|]. by apply orb_true_iff in Hp.
  - by destruct (enter_orphan_repersist_recovery k m now) as [[? ?]|].
Qed.

Lemma orphan_syncer (k : Keeper) y : k_frontier (with_syncer k y) = k_frontier k.
Proof. done. Qed.

Lemma orphan_force_sync (k : Keeper) now : k_frontier (k_maybe_force_sync k now) = k_frontier k.
Proof. unfold k_maybe_force_sync. by destruct (maybe_force_sync _ _ _ _ _ _) as [[[y p] r] t]. Qed.

Lemma mint_rest (k k' : Keeper) id : mint k = Some (id, k') -> k_frontier k' = k_frontier k /\ k_owed k' = k_owed k /\ k_node k' = k_node k.
Proof. unfold mint, mint_write_id. destruct (_ <? _); [|done]. cbn [mbind option_bind]. by intros [= _ <-]. Qed.

Lemma orphan_maybe_swap (k : Keeper) (m : Medium) k' m' : maybe_swap_epoch k m = Some (k', m') -> k_frontier k' = k_frontier k.
Proof.
  unfold maybe_swap_epoch. destruct (nd_pending_swap (k_node k)) as [[op s]|]; [|by intros [= <- _]].
  destruct (swap_stale k m s); [by intros [= <- _]|]. destruct (negb _); [by intros [= <- _]|]. destruct (_ || _); [by intros [= <- _]|].
  unfold submit_swap_epoch. destruct (effective_checkpoint_pair m) as [cp cpid]. cbv zeta. destruct (expect _); [|done]. cbn [mbind option_bind].
  destruct (mint k) as [[id k1]|] eqn:Hm; [|done]. cbn [mbind option_bind]. destruct (submit_root _ _ _ _); [|done]. cbn [mbind option_bind].
  intros [= <- _]. change (k_frontier k1 = k_frontier k). by eapply mint_rest.
Qed.

Lemma orphan_commit_one (k : Keeper) (m : Medium) now op pr b k' m' : k_commit_one k m now op pr = Some (b, k', m') -> k_frontier k' = k_frontier k.
Proof.
  unfold k_commit_one. cbv zeta. destruct (commit_one machine (k_node k) op pr) as [[[] n]|]; [| |done]; cbn [mbind option_bind].
  - destruct (nd_pending_swap (k_node k)); [by intros [= _ <- _]|]. destruct (nd_pending_swap n); [|by intros [= _ <- _]].
    destruct (maybe_swap_epoch _ m) as [[k1 m1]|] eqn:Hs; [|done]. cbn [mbind option_bind]. intros [= _ <- _]. by rewrite (orphan_maybe_swap _ _ _ _ Hs).
  - intros [= _ <- _]. by rewrite orphan_force_sync.
Qed.

Lemma orphan_advance_loop fuel : forall (k : Keeper) (m : Medium) now target k' m', k_advance_loop fuel k m now target = Some (k', m') -> k_frontier k' = k_frontier k.
Proof.
  induction fuel as [|fuel IH]; intros k m now target k' m'; cbn [k_advance_loop]; [by intros [= <- _]|]. cbv zeta. destruct (_ && _); [|by intros [= <- _]].
  destruct (k_commit_one k m now _ false) as [[[[] k1] m1]|] eqn:Hc; [| |done]; apply orphan_commit_one in Hc; [|by intros [= <- _]].
  intros Hl. by rewrite (IH _ _ _ _ _ _ Hl).
Qed.

Lemma orphan_adopt (k k' : Keeper) : maybe_adopt_inherited_frontier k = Some k' -> f_orphan (k_frontier k) = None -> f_orphan (k_frontier k') = None.
Proof.
  unfold maybe_adopt_inherited_frontier. destruct (f_inherited _) as [f|]; [|by intros [= <-]]. destruct (_ || _); [by intros [= <-]|].
  unfold advance_checkpoint_op. destruct (_ <=? f); [|done]. cbv zeta. unfold recompute_quorum_checkpoint.
  destruct (compute_quorum_checkpoint_op _ _ _ _); [|done]. cbn [mbind option_bind]. intros [= <-] Ho. cbn. by rewrite Ho.
Qed.

Lemma quiet_gen (k k' : Keeper) : gen k' = gen k -> f_orphan (k_frontier k') = f_orphan (k_frontier k) \/ f_orphan (k_frontier k') = None -> quiet_orphan k -> quiet_orphan k'.
Proof.
  intros Hg Ho [Hq|Hq]; [left; destruct Ho; congruence|]. right. injection Hg as ? ? Hv ? ? ? ? ? ? ? ? ? ? ? ? ? Hd Hvc.
  unfold catching_up, k_view. rewrite Hd, Hvc, Hv. exact Hq.
Qed.

Lemma quiet_stays (k : Keeper) (m : Medium) now b k' m' : quiet_orphan k -> maybe_enter_orphan_repersist_recovery k m now = Some (b, k', m') -> b = false.
Proof.
  intros Hq. destruct b; [|done]. intros (Ho & _ & _ & Hp & _)%maybe_orphan_true. destruct Hq as [Hq|Hq]; [rewrite Hq in Ho; by destruct Ho|].
  unfold pending_durable_view in Hp. rewrite Hq, orb_true_r in Hp. done.
Qed.

(** Why no re-persist tears the endpoint down just now. *)
Definition fenced (k : Keeper) : Prop :=
  quiet_orphan k \/ is_normal (k_status k) = false \/ own_advance k = true \/ is_some (k_pending_sb k) = true.

Lemma not_settled (k k' : Keeper) : gen k' = gen k -> recovering k = true \/ retired k = true -> is_normal (k_status k') = false.
Proof.
  intros [=]. unfold recovering, retired in *. intros Hr. replace (k_status k') with (k_status k) by done. by destruct (k_status k), Hr.
Qed.

Lemma passed_fenced (k : Keeper) (m : Medium) now k' m' : maybe_enter_orphan_repersist_recovery k m now = Some (false, k', m') -> fenced k'.
Proof.
  intros Hm. pose proof (gen_maybe_orphan _ _ _ _ _ Hm) as Hg. apply maybe_orphan_false in Hm as [Hn|[Hr|[Hr|[-> [Hp|Ho]]]]].
  - left. by left.
  - right. left. by apply (not_settled k k'); [|left].
  - right. left. by apply (not_settled k k'); [|right].
  - unfold pending_durable_view in Hp. destruct (k_pending_sb k) as [[id a]|] eqn:Hsb; [by right; right; right; rewrite Hsb|]. left. by right.
  - right. right. by left.
Qed.

Lemma checkpoint_fenced (k : Keeper) (m : Medium) k' m' : maybe_checkpoint k m = Some (k', m') -> fenced k -> fenced k'.
Proof.
  unfold maybe_checkpoint. destruct (_ || _); [by intros [= <- _]|]. destruct (_ <? _); [by intros [= <- _]|].
  unfold force_checkpoint. destruct (_ || _); [by intros [= <- _]|]. cbv zeta.
  destruct (issue_block_job k m _) as [[[j k1] m1]|]; [|done]. cbn [mbind option_bind]. intros [= <- _] _. right. right. by left.
Qed.

Lemma pay_gen advance (k : Keeper) (m : Medium) k' m' :
  (forall k m flow k' m', quiet_orphan k -> advance k m = Some (flow, k', m') -> flow = Continue /\ gen k' = gen k) ->
  fenced k -> pay_checkpoint_debt advance k m = Some (k', m') -> gen k' = gen k.
Proof.
  intros Hadv Hf. unfold pay_checkpoint_debt. destruct (_ <=? _); [by intros [= <- _]|].
  destruct (sm_reconstruct_owed k || is_some (k_pending_install k)) eqn:Hb; [by intros [= <- _]|]. apply orb_false_iff in Hb as [Hre Hin].
  destruct (settled_view k) eqn:Hs; cbn [negb]; [|by intros [= <- _]]. apply andb_true_iff in Hs as [Hs _].
  destruct (is_some (k_pending_sb k) || is_some (k_pending_checkpoint k)) eqn:Hp; [by intros [= <- _]|]. apply orb_false_iff in Hp as [Hsb Hpc].
  assert (Hq : quiet_orphan k).
  { destruct Hf as [?|[?|[Ho|?]]]; [done|congruence| |congruence]. exfalso. unfold own_advance in Ho. rewrite Hre in Ho.
    unfold is_some in *. destruct (k_pending_checkpoint k), (k_pending_install k); done. }
  destruct (advance k m) as [[[flow k1] m1]|] eqn:Ha; [|done]. apply Hadv in Ha as [-> Hg]; [|done]. cbn [mbind option_bind].
  destruct (_ && _); [intros Hfc; by rewrite (gen_force_checkpoint _ _ _ _ Hfc)|by intros [= <- _]].
Qed.

Lemma tail_gen pay (k : Keeper) (m : Medium) now flow k' m' :
  (forall k m k' m', fenced k -> pay k m = Some (k', m') -> gen k' = gen k) ->
  commit_tail pay k m now = Some (flow, k', m') ->
  match flow with
  | Continue => gen k' = gen k
  | EnteredRecovery => ~ quiet_orphan k /\ exists k0 m0, gen k0 = gen k /\ recovering k0 = false /\ retired k0 = false /\ pending_durable_view k0 = false /\
      enter_orphan_repersist_recovery k0 m0 now = Some (k', m')
  end.
Proof.
  intros Hpay. unfold commit_tail. destruct (maybe_adopt_inherited_frontier _) as [k1|] eqn:E1; [|done]. cbn [mbind option_bind].
  pose proof (gen_adopt_inherited _ _ E1) as G1. change (gen (k_cancel_forced_sync k)) with (gen k) in G1.
  destruct (maybe_enter_orphan_repersist_recovery k1 m now) as [[[[] k2] m2]|] eqn:E2; [| |done]; cbn [mbind option_bind].
  - intros [= <- <- <-]. pose proof (maybe_orphan_true _ _ _ _ _ E2) as (Ho & Hre & Hrt & Hp & _ & He). split; [|by exists k1, m].
    intros Hq. apply (quiet_gen _ k1) in Hq; [by apply (quiet_stays _ _ _ _ _ _ Hq) in E2|done|].
    destruct (f_orphan (k_frontier k)) eqn:Hf; [|right; apply (orphan_adopt _ _ E1); done]. left.
    clear - E1 Hf Ho. unfold maybe_adopt_inherited_frontier in E1. change (k_frontier (k_cancel_forced_sync k)) with (k_frontier k) in E1.
    destruct (f_inherited _) as [f|]; [|by injection E1 as <-]. destruct (_ || _); [by injection E1 as <-|].
    unfold advance_checkpoint_op in E1. destruct (_ <=? f); [|done]. cbv zeta in E1. unfold recompute_quorum_checkpoint in E1.
    destruct (compute_quorum_checkpoint_op _ _ _ _); [|done]. cbn [mbind option_bind] in E1. injection E1 as <-. cbn in *. rewrite Hf in *. unfold retire in *.
    destruct (_ <=? f); [by destruct Ho|done].
  - pose proof (passed_fenced _ _ _ _ _ E2) as Hf2. pose proof (gen_maybe_orphan _ _ _ _ _ E2) as G2.
    destruct (maybe_checkpoint k2 m2) as [[k3 m3]|] eqn:E3; [|done]. cbn [mbind option_bind].
    pose proof (gen_maybe_checkpoint _ _ _ _ E3) as G3. pose proof (checkpoint_fenced _ _ _ _ E3 Hf2) as Hf3.
    destruct (pay k3 m3) as [[k4 m4]|] eqn:E4; [|done]. cbn [mbind option_bind]. apply Hpay in E4; [|done].
    destruct (maybe_swap_epoch k4 m4) as [[k5 m5]|] eqn:E5; [|done]. cbn [mbind option_bind]. apply gen_maybe_swap in E5.
    intros [= <- <- _]. congruence.
Qed.

Lemma advance_paying_gen pay (k : Keeper) (m : Medium) now target flow k' m' :
  (forall k m k' m', fenced k -> pay k m = Some (k', m') -> gen k' = gen k) ->
  advance_commit_paying pay k m now target = Some (flow, k', m') ->
  match flow with
  | Continue => gen k' = gen k
  | EnteredRecovery => ~ quiet_orphan k /\ exists k0 m0, gen k0 = gen k /\ recovering k0 = false /\ retired k0 = false /\ pending_durable_view k0 = false /\
      enter_orphan_repersist_recovery k0 m0 now = Some (k', m')
  end.
Proof.
  intros Hpay. unfold advance_commit_paying. destruct (is_some _); [by intros [= <- <- _]|]. cbv zeta. set (k1 := with_knode k _).
  assert (G1 : gen k1 = gen k) by (by apply gen_knode). destruct (sm_reconstruct_owed k1); [by intros [= <- <- _]|].
  destruct (k_advance_loop _ k1 m now target) as [[k2 m2]|] eqn:E2; [|done]. cbn [mbind option_bind].
  pose proof (orphan_advance_loop _ _ _ _ _ _ _ E2) as F2. apply gen_advance_loop in E2. intros Ht. apply (tail_gen _ _ _ _ _ _ _ Hpay) in Ht.
  destruct flow; [congruence|]. destruct Ht as (Hq & k0 & m0 & G0 & Hrest). split; [|exists k0, m0; split; [congruence|done]].
  intros Hqk. apply Hq. apply (quiet_gen k); [congruence|left; by rewrite F2|done].
Qed.

(** The debt's own advance never enters recovery, so what pays it returns to the commit
    tail that asked for it in the same generation. *)
Lemma debt_gen now (k : Keeper) (m : Medium) k' m' : fenced k -> maybe_pay_checkpoint_debt now k m = Some (k', m') -> gen k' = gen k.
Proof.
  apply pay_gen. clear. intros k m flow k' m' Hq Ha. apply advance_paying_gen in Ha.
  - destruct flow; [done|]. by destruct Ha.
  - clear. intros k m k' m' Hf. apply pay_gen; [|done]. clear. by intros k m flow k' m' _ [= <- <- _].
Qed.

Lemma advance_commit_gen (k : Keeper) (m : Medium) now target flow k' m' :
  k_advance_commit k m now target = Some (flow, k', m') ->
  match flow with
  | Continue => gen k' = gen k
  | EnteredRecovery => exists k0 m0, gen k0 = gen k /\ recovering k0 = false /\ retired k0 = false /\ pending_durable_view k0 = false /\
      enter_orphan_repersist_recovery k0 m0 now = Some (k', m')
  end.
Proof. intros Ha. apply advance_paying_gen in Ha; [|apply debt_gen]. destruct flow; [done|]. by destruct Ha as [_ Ha]. Qed.

Lemma try_commit_gen (b : Endpoint) now flow b' :
  k_try_commit b now = Some (flow, b') ->
  match flow with
  | Continue => gen (ep_keeper b') = gen (ep_keeper b)
  | EnteredRecovery => exists k0 m0, gen k0 = gen (ep_keeper b) /\ recovering k0 = false /\ retired k0 = false /\ pending_durable_view k0 = false /\
      enter_orphan_repersist_recovery k0 m0 now = Some (ep_keeper b', ep_medium b')
  end.
Proof.
  unfold k_try_commit. cbv zeta. destruct (negb _); [by intros [= <- <-]|]. destruct (_ || _); [by intros [= <- <-]|].
  destruct (k_try_commit_loop _ _ _ _ _) as [[[adv k1] m1]|] eqn:E1; [|done]. cbn [mbind option_bind]. apply gen_try_loop in E1.
  set (k2 := with_knode k1 _). assert (G2 : gen k2 = gen (ep_keeper b)) by (etransitivity; [by apply gen_knode|done]).
  destruct (commit_tail _ k2 m1 now) as [[[fl k3] m3]|] eqn:E3; [|done]. cbn [mbind option_bind]. apply (tail_gen _ _ _ _ _ _ _ (debt_gen now)) in E3.
  intros [= <- <-]. destruct fl; [destruct (_ && _); cbn; congruence|]. destruct E3 as (_ & k0 & m0 & G0 & Hrest). exists k0, m0. split; [congruence|].
  by destruct (_ && _).
Qed.

(** ** The checkpoint pointer only rises *)

Definition cp (k : Keeper) : OpNumber := k_checkpoint_op k.

Lemma cp_adopt (k k' : Keeper) : maybe_adopt_inherited_frontier k = Some k' -> cp k <= cp k'.
Proof.
  unfold maybe_adopt_inherited_frontier. destruct (f_inherited _) as [f|]; [|by intros [= <-]]. destruct (_ || _); [by intros [= <-]|].
  unfold advance_checkpoint_op. destruct (Z.leb_spec (f_checkpoint_op (k_frontier k)) f); [|done]. cbv zeta. unfold recompute_quorum_checkpoint.
  destruct (compute_quorum_checkpoint_op _ _ _ _); [|done]. cbn [mbind option_bind]. by intros [= <-].
Qed.

Lemma cp_orphan (k : Keeper) (m : Medium) now k' m' : maybe_enter_orphan_repersist_recovery k m now = Some (false, k', m') -> cp k' = cp k.
Proof.
  assert (Ho : forall k1 o, repersist_orphan_owed k = (o, k1) -> cp k1 = cp k).
  { intros k1 o. unfold repersist_orphan_owed. destruct (f_orphan _); [destruct (_ || _)|]; by intros [= _ <-]. }
  unfold maybe_enter_orphan_repersist_recovery. destruct (repersist_orphan_owed k) as [[t|] k1] eqn:E; [|intros [= <- _]; by eapply Ho].
  destruct (_ || _).
  - intros [= <- _]. rewrite <- (Ho k1 _ eq_refl). unfold retarget_recovery_fetch. cbv zeta. destruct (negb _); [done|]. destruct (sy_sync _); [|done]. by destruct (_ && _).
  - destruct (_ || _); [intros [= <- _]; by eapply Ho|]. by destruct (enter_orphan_repersist_recovery k1 m now) as [[? ?]|].
Qed.

Lemma cp_force_checkpoint (k : Keeper) (m : Medium) k' m' : force_checkpoint k m = Some (k', m') -> cp k' = cp k.
Proof.
  unfold force_checkpoint. destruct (_ || _); [by intros [= <- _]|]. cbv zeta. unfold issue_block_job.
  destruct (mint k) as [[id k1]|] eqn:Hm; [|done]. cbn [mbind option_bind]. destruct (enqueue_block_job _ _ _); [|done]. cbn [mbind option_bind]. intros [= <- _].
  unfold cp, k_checkpoint_op. cbn [k_frontier with_owed]. by rewrite (proj1 (mint_rest _ _ _ Hm)).
Qed.

Lemma cp_maybe_checkpoint (k : Keeper) (m : Medium) k' m' : maybe_checkpoint k m = Some (k', m') -> cp k' = cp k.
Proof. unfold maybe_checkpoint. destruct (_ || _); [by intros [= <- _]|]. destruct (_ <? _); [by intros [= <- _]|]. apply cp_force_checkpoint. Qed.

Lemma cp_tail pay (k : Keeper) (m : Medium) now k' m' :
  (forall k m k' m', pay k m = Some (k', m') -> fenced k -> cp k <= cp k') ->
  commit_tail pay k m now = Some (Continue, k', m') -> cp k <= cp k'.
Proof.
  intros Hpay. unfold commit_tail. destruct (maybe_adopt_inherited_frontier _) as [k1|] eqn:E1; [|done]. cbn [mbind option_bind]. apply cp_adopt in E1.
  destruct (maybe_enter_orphan_repersist_recovery k1 m now) as [[[[] k2] m2]|] eqn:E2; [done| |done]. cbn [mbind option_bind]. pose proof (passed_fenced _ _ _ _ _ E2) as Hf. apply cp_orphan in E2.
  destruct (maybe_checkpoint k2 m2) as [[k3 m3]|] eqn:E3; [|done]. cbn [mbind option_bind]. pose proof (checkpoint_fenced _ _ _ _ E3 Hf). apply cp_maybe_checkpoint in E3.
  destruct (pay k3 m3) as [[k4 m4]|] eqn:E4; [|done]. cbn [mbind option_bind]. apply Hpay in E4; [|done].
  destruct (maybe_swap_epoch k4 m4) as [[k5 m5]|] eqn:E5; [|done]. cbn [mbind option_bind]. apply orphan_maybe_swap in E5. intros [= <- _].
  change (cp k) with (cp (k_cancel_forced_sync k)). unfold cp, k_checkpoint_op in *. rewrite E5. lia.
Qed.

Lemma cp_advance pay (k : Keeper) (m : Medium) now target k' m' :
  (forall k m k' m', pay k m = Some (k', m') -> fenced k -> cp k <= cp k') ->
  advance_commit_paying pay k m now target = Some (Continue, k', m') -> cp k <= cp k'.
Proof.
  intros Hpay. unfold advance_commit_paying. destruct (is_some _); [by intros [= <- _]|]. cbv zeta. set (k1 := with_knode k _).
  destruct (sm_reconstruct_owed k1); [by intros [= <- _]|].
  destruct (k_advance_loop _ k1 m now target) as [[k2 m2]|] eqn:E2; [|done]. cbn [mbind option_bind]. apply orphan_advance_loop in E2.
  intros Ht%cp_tail; [|done]. unfold cp, k_checkpoint_op in *. by rewrite E2 in Ht.
Qed.

Lemma cp_pay advance (k : Keeper) (m : Medium) k' m' :
  (forall k m flow k' m', quiet_orphan k -> advance k m = Some (flow, k', m') -> flow = Continue) ->
  (forall k m k' m', advance k m = Some (Continue, k', m') -> cp k <= cp k') ->
  pay_checkpoint_debt advance k m = Some (k', m') -> fenced k -> cp k <= cp k'.
Proof.
  intros Hflow Hadv Hp Hf. revert Hp. unfold pay_checkpoint_debt. destruct (_ <=? _); [by intros [= <- _]|].
  destruct (sm_reconstruct_owed k || is_some (k_pending_install k)) eqn:Hb; [by intros [= <- _]|]. apply orb_false_iff in Hb as [Hre Hin].
  destruct (settled_view k) eqn:Hs; cbn [negb]; [|by intros [= <- _]]. apply andb_true_iff in Hs as [Hs _].
  destruct (is_some (k_pending_sb k) || is_some (k_pending_checkpoint k)) eqn:Hp; [by intros [= <- _]|]. apply orb_false_iff in Hp as [Hsb Hpc].
  assert (Hq : quiet_orphan k).
  { destruct Hf as [?|[?|[Ho|?]]]; [done|congruence| |congruence]. exfalso. unfold own_advance in Ho. rewrite Hre in Ho.
    unfold is_some in *. destruct (k_pending_checkpoint k), (k_pending_install k); done. }
  destruct (advance k m) as [[[flow k1] m1]|] eqn:Ha; [|done]. pose proof (Hflow _ _ _ _ _ Hq Ha) as ->. apply Hadv in Ha. cbn [mbind option_bind].
  destruct (_ && _); [intros Hfc%cp_force_checkpoint; lia|intros [= <- _]; lia].
Qed.

Lemma cp_debt now (k : Keeper) (m : Medium) k' m' : maybe_pay_checkpoint_debt now k m = Some (k', m') -> fenced k -> cp k <= cp k'.
Proof.
  assert (Hin : forall (k : Keeper) (m : Medium) k' m', pay_checkpoint_debt (fun k (m : Medium) => Some (Continue, k, m)) k m = Some (k', m') -> fenced k -> cp k <= cp k').
  { intros ? ? ? ?. apply cp_pay; [by intros ? ? ? ? ? _ [= <- _ _]|by intros ? ? ? ? [= <- _]]. }
  apply cp_pay.
  - intros k0 m0 flow k1 m1 Hq Ha. apply advance_paying_gen in Ha; [destruct flow; [done|by destruct Ha]|].
    intros ? ? ? ? Hf. apply pay_gen; [|done]. by intros ? ? ? ? ? _ [= <- <- _].
  - intros ? ? ? ? Ha. by eapply cp_advance.
Qed.

Lemma advance_commit_cp (k : Keeper) (m : Medium) now target k' m' : k_advance_commit k m now target = Some (Continue, k', m') -> cp k <= cp k'.
Proof. apply cp_advance. intros ? ? ? ?. apply cp_debt. Qed.

Lemma enter_orphan_recovering (k : Keeper) (m : Medium) now k' m' : enter_orphan_repersist_recovery k m now = Some (k', m') ->
  k_status k' = Recovering /\ ap_pending (k_appends k') = ∅ /\ ap_appending (k_appends k') = ∅ /\ k_buffer k' = [] /\ nd_inflight (k_node k') = [].
Proof.
  unfold enter_orphan_repersist_recovery. destruct (reset_for_view_transition k m now) as [[k1 m1]|] eqn:Hr; [|done]. cbn [mbind option_bind]. cbv zeta.
  set (k2 := set_collection _ None). destruct (abandon_pending_sb k2 m1) as [k3 m3] eqn:Ha.
  assert (Happ : ap_pending (k_appends k1) = ∅ /\ ap_appending (k_appends k1) = ∅).
  { revert Hr. unfold reset_for_view_transition. cbv zeta. destruct (recompute_quorum_checkpoint _) as [k0|] eqn:Hq; [|done]. cbn [mbind option_bind].
    unfold recompute_quorum_checkpoint in Hq. destruct (compute_quorum_checkpoint_op _ _ _ _); [|done]. cbn [mbind option_bind] in Hq. injection Hq as <-.
    unfold drop_checkpoint_for_transition. destruct (k_pending_checkpoint _) as [pc|]; [destruct (dropped_by_transition pc); [destruct (pc_step pc)|]|]; by intros [= <- _]. }
  assert (H3 : k_appends k3 = k_appends k1 /\ k_buffer k3 = [] /\ nd_inflight (k_node k3) = []).
  { revert Ha. unfold abandon_pending_sb. destruct (k_pending_sb k2) as [[i a]|]; by intros [= <- _]. }
  unfold submit_recover_checkpoint_read. destruct (mint _) as [[id k4]|] eqn:Hm; [|done]. cbn [mbind option_bind]. intros [= <- _].
  assert (Hst : forall j : Keeper, k_status (set_status j Recovering) = Recovering /\ k_appends (set_status j Recovering) = k_appends j /\
    k_buffer (set_status j Recovering) = k_buffer j /\ nd_inflight (k_node (set_status j Recovering)) = nd_inflight (k_node j)).
  { intros j. unfold set_status. case_bool_decide as Hb; [by rewrite Hb|done]. }
  unfold mint, mint_write_id in Hm. destruct (_ <? _); [|done]. cbn [mbind option_bind] in Hm. injection Hm as _ <-.
  match goal with |- context [set_status ?j Recovering] => destruct (Hst j) as (S1 & S2 & S3 & S4) end.
  split; [exact S1|]. change (ap_pending (k_appends ?x)) with (ap_pending (k_appends x)). destruct Happ as [P1 P2], H3 as (Q1 & Q2 & Q3).
  cbn [k_appends with_kappends with_recover ap_pending ap_appending k_buffer k_node nd_inflight]. rewrite S2, S3, S4.
  cbn [k_appends with_owed k_buffer k_node]. by rewrite Q1, P1, P2, Q2, Q3.
Qed.

(** Recovery entered from the generation of [k], in a settled view, with everything that
    was owed gone. *)
Record torn_down (now : Z) (k k' : Keeper) (m' : Medium) : Prop := {
  td_status : k_status k' = Recovering;
  td_appends : ap_pending (k_appends k') = ∅ /\ ap_appending (k_appends k') = ∅;
  td_buffer : k_buffer k' = [];
  td_tallies : nd_inflight (k_node k') = [];
  td_from : exists k0 m0, gen k0 = gen k /\ pending_durable_view k0 = false /\ enter_orphan_repersist_recovery k0 m0 now = Some (k', m');
}.

Lemma torn_down_of now (k k' : Keeper) (m' : Medium) :
  (exists k0 m0, gen k0 = gen k /\ recovering k0 = false /\ retired k0 = false /\ pending_durable_view k0 = false /\ enter_orphan_repersist_recovery k0 m0 now = Some (k', m')) ->
  torn_down now k k' m'.
Proof.
  intros (k0 & m0 & G & _ & _ & P & E). destruct (enter_orphan_recovering _ _ _ _ _ E) as (E1 & E2 & E3 & E4 & E5).
  split; [done|done|done|done|]. by exists k0, m0.
Qed.

(** ** What a commit says, and the tallies it leaves *)

(** Commits solicit the bodies they miss and report what they apply; only those of a
    primary answer clients. *)
Definition commit_output (primary_ : bool) (x : Output) : Prop :=
  match x with
  | SentRequestPrepareRange _ _ _ _ | RepairStarted _ _ | Committed _ _ _ _ => True
  | SentReply _ _ _ _ => primary_ = true
  | SubmittedAppend _ _ _ _ _ | SentPrepare _ _ _ _ _ _ _ _ _ | SentCommit _ _ _ _ _ => False
  end.

Definition tallies_kept (t t' : btree Inflight) : Prop :=
  forall op inf', bt_get op t' = Some inf' -> exists inf, bt_get op t = Some inf /\ i_oks inf' = i_oks inf /\ i_prepare_checksum inf' = i_prepare_checksum inf.

Record commit_effect (primary_ : bool) (n n' : Node) : Prop := {
  co_out : exists out, nd_out n' = nd_out n ++ out /\ Forall (commit_output primary_) out;
  co_tallies : tallies_kept (nd_inflight n) (nd_inflight n');
}.

Lemma tallies_refl t : tallies_kept t t.
Proof. intros op inf Hi. by exists inf. Qed.

Lemma tallies_trans t1 t2 t3 : tallies_kept t1 t2 -> tallies_kept t2 t3 -> tallies_kept t1 t3.
Proof. intros G1 G2 op i3 (i2 & (i1 & -> & E1 & F1)%G1 & E2 & F2)%G2. exists i1. by rewrite E2, F2. Qed.

Lemma commits_same pr (n n' : Node) : nd_out n' = nd_out n -> nd_inflight n' = nd_inflight n -> commit_effect pr n n'.
Proof. intros Ho Hi. split; [exists []; by rewrite app_nil_r, Ho|rewrite Hi; apply tallies_refl]. Qed.

Lemma commits_trans pr (n1 n2 n3 : Node) : commit_effect pr n1 n2 -> commit_effect pr n2 n3 -> commit_effect pr n1 n3.
Proof.
  intros [(o1 & E1 & A1) T1] [(o2 & E2 & A2) T2]. split; [|by eapply tallies_trans].
  exists (o1 ++ o2). rewrite E2, E1, app_assoc. split; [done|by apply Forall_app].
Qed.

Lemma commits_primary pr (n n' : Node) : commit_effect false n n' -> commit_effect pr n n'.
Proof. intros [(out & E & A) T]. split; [|done]. exists out. split; [done|]. eapply Forall_impl; [exact A|]. by intros []. Qed.

Lemma commits_still pr (k k' : Keeper) : still k' = still k -> commit_effect pr (k_node k) (k_node k').
Proof. intros Hs. apply commits_same; [exact (f_equal (fun x => x.1.2) Hs)|exact (f_equal snd Hs)]. Qed.

Lemma marked_kept t op : tallies_kept t (mark_committed t op).
Proof.
  unfold mark_committed. destruct (bt_get op t) as [i|] eqn:Hi; [|apply tallies_refl]. intros o inf. rewrite bt_get_insert.
  destruct (Z.eqb_spec o op) as [-> |]; [intros [= <-]; by exists i|intros Hg; by exists inf].
Qed.

Lemma repair_run_commits pr (n : Node) lo : commit_effect pr n (request_repair_run n lo).
Proof. split; [|apply tallies_refl]. eexists. split; [reflexivity|]. by repeat constructor. Qed.

Lemma commit_one_commits f (n : Node) op pr b n' : commit_one f n op pr = Some (b, n') -> commit_effect pr n n'.
Proof.
  unfold commit_one. destruct (bt_get op (nd_log n)) as [e|]; [|intros [= _ <-]; apply repair_run_commits].
  destruct (commit_reconfigure n op (l_body e)) as [r|] eqn:Hr.
  - unfold commit_reconfigure in Hr. destruct (as_reconfigure (l_body e)) as [pl|]; [|done]. cbn [mbind option_bind] in Hr. injection Hr as <-.
    set (n1 := set_log _ _ _ _). assert (G1 : commit_effect pr n n1) by (split; [by exists []; rewrite app_nil_r|apply marked_kept]).
    destruct (op <? nd_commit_min n); [done|]. destruct (_ =? _); [|by intros [= _ <-]].
    destruct (first_new_voter _ _ _); [done|]. destruct (reconfigure _ _ _ _); [|done]. cbn [mbind option_bind]. intros [= _ <-].
    unfold stage_epoch_swap. destruct (nd_pending_swap _); [done|]. eapply commits_trans; [exact G1|by apply commits_same].
  - destruct (as_present (l_body e)) as [bd|]; [|intros [= _ <-]; apply repair_run_commits].
    unfold apply_present. destruct (op <? nd_commit_min n); [done|]. destruct (f op bd (nd_sm n)) as [sm rep].
    destruct (note_applied_session _ _ _ _ _ _) as [t ev]. cbn [mbind option_bind].
    destruct pr; intros [= _ <-]; (split; cbn; [eexists; rewrite <- ?app_assoc; split; [reflexivity|by repeat constructor]|]); [apply marked_kept|apply tallies_refl].
Qed.

Lemma k_commit_one_commits (k : Keeper) (m : Medium) now op pr b k' m' : k_commit_one k m now op pr = Some (b, k', m') -> commit_effect pr (k_node k) (k_node k').
Proof.
  unfold k_commit_one. cbv zeta. destruct (commit_one machine (k_node k) op pr) as [[[] n]|] eqn:Hc; [| |done]; apply commit_one_commits in Hc; cbn [mbind option_bind].
  - destruct (nd_pending_swap (k_node k)); [by intros [= _ <- _]|]. destruct (nd_pending_swap n); [|by intros [= _ <- _]].
    destruct (maybe_swap_epoch _ m) as [[k1 m1]|] eqn:Hs; [|done]. cbn [mbind option_bind]. intros [= _ <- _]. apply still_maybe_swap, (commits_still pr) in Hs.
    by eapply commits_trans.
  - intros [= _ <- _]. eapply commits_trans; [exact Hc|]. apply (commits_still pr (with_knode k n)), still_force_sync.
Qed.

Lemma advance_loop_commits fuel : forall (k : Keeper) (m : Medium) now target k' m', k_advance_loop fuel k m now target = Some (k', m') -> commit_effect false (k_node k) (k_node k').
Proof.
  induction fuel as [|fuel IH]; intros k m now target k' m'; cbn [k_advance_loop]; [by intros [= <- _]; apply commits_same|]. cbv zeta.
  destruct (_ && _); [|by intros [= <- _]; apply commits_same].
  destruct (k_commit_one k m now _ false) as [[[[] k1] m1]|] eqn:Hc; [| |done]; apply k_commit_one_commits in Hc; [|by intros [= <- _]].
  intros Hl%IH. by eapply commits_trans.
Qed.

Lemma try_loop_commits fuel : forall (k : Keeper) (m : Medium) now adv b k' m', k_try_commit_loop fuel k m now adv = Some (b, k', m') -> commit_effect true (k_node k) (k_node k').
Proof.
  induction fuel as [|fuel IH]; intros k m now adv b k' m'; cbn [k_try_commit_loop]; [by intros [= _ <- _]; apply commits_same|]. cbv zeta.
  destruct (commit_ready _ _ _ _); [|by intros [= _ <- _]; apply commits_same].
  destruct (k_commit_one k m now _ true) as [[[[] k1] m1]|] eqn:Hc; [| |done]; apply k_commit_one_commits in Hc; [|by intros [= _ <- _]].
  intros Hl%IH. by eapply commits_trans.
Qed.

Lemma enter_orphan_commits (k : Keeper) (m : Medium) now k' m' : enter_orphan_repersist_recovery k m now = Some (k', m') -> commit_effect false (k_node k) (k_node k').
Proof.
  intros He. split; [|by rewrite (proj2 (proj2 (proj2 (proj2 (enter_orphan_recovering _ _ _ _ _ He)))))].
  exists []. rewrite app_nil_r. split; [|constructor]. revert He. unfold enter_orphan_repersist_recovery.
  destruct (reset_for_view_transition k m now) as [[k1 m1]|] eqn:Hr; [|done]. cbn [mbind option_bind]. cbv zeta.
  assert (G1 : nd_out (k_node k1) = nd_out (k_node k)).
  { revert Hr. unfold reset_for_view_transition. cbv zeta. destruct (recompute_quorum_checkpoint _) as [k0|] eqn:Hq; [|done]. cbn [mbind option_bind].
    apply still_recompute, (f_equal (fun x => x.1.2)) in Hq. cbn in Hq.
    unfold drop_checkpoint_for_transition. destruct (k_pending_checkpoint _) as [pc|]; [destruct (dropped_by_transition pc); [destruct (pc_step pc)|]|]; by intros [= <- _]. }
  set (k2 := set_collection _ None). destruct (abandon_pending_sb k2 m1) as [k3 m3] eqn:Ha.
  assert (G3 : nd_out (k_node k3) = nd_out (k_node k)).
  { rewrite <- G1. revert Ha. unfold abandon_pending_sb. destruct (k_pending_sb k2) as [[i a]|]; by intros [= <- _]. }
  unfold submit_recover_checkpoint_read. destruct (mint _) as [[id k4]|] eqn:Hm; [|done]. cbn [mbind option_bind]. intros [= <- _].
  apply still_mint, (f_equal (fun x => x.1.2)) in Hm. cbn in Hm. cbn. rewrite Hm, <- G3. unfold set_status. by case_bool_decide.
Qed.

Definition pays_quietly (pay : Keeper -> Medium -> option (Keeper * Medium)) : Prop :=
  forall k m k' m', pay k m = Some (k', m') -> commit_effect false (k_node k) (k_node k').

Lemma tail_commits pay (k : Keeper) (m : Medium) now flow k' m' : pays_quietly pay -> commit_tail pay k m now = Some (flow, k', m') -> commit_effect false (k_node k) (k_node k').
Proof.
  intros Hpay. unfold commit_tail. destruct (maybe_adopt_inherited_frontier _) as [k1|] eqn:E1; [|done]. cbn [mbind option_bind].
  apply still_adopt_inherited, (commits_still false) in E1. change (k_node (k_cancel_forced_sync k)) with (k_node k) in E1.
  destruct (maybe_enter_orphan_repersist_recovery k1 m now) as [[[[] k2] m2]|] eqn:E2; [| |done]; cbn [mbind option_bind].
  - intros [= _ <- _]. apply maybe_orphan_true in E2 as (_ & _ & _ & _ & _ & He). apply enter_orphan_commits in He. by eapply commits_trans.
  - apply still_maybe_orphan, (commits_still false) in E2. destruct (maybe_checkpoint k2 m2) as [[k3 m3]|] eqn:E3; [|done]. cbn [mbind option_bind].
    apply still_maybe_checkpoint, (commits_still false) in E3. destruct (pay k3 m3) as [[k4 m4]|] eqn:E4; [|done]. cbn [mbind option_bind]. apply Hpay in E4.
    destruct (maybe_swap_epoch k4 m4) as [[k5 m5]|] eqn:E5; [|done]. cbn [mbind option_bind]. apply still_maybe_swap, (commits_still false) in E5.
    intros [= _ <- _]. by repeat (eapply commits_trans; [eassumption|]); apply commits_same.
Qed.

Lemma paying_commits pay (k : Keeper) (m : Medium) now target flow k' m' : pays_quietly pay -> advance_commit_paying pay k m now target = Some (flow, k', m') ->
  commit_effect false (k_node k) (k_node k').
Proof.
  intros Hpay. unfold advance_commit_paying. destruct (is_some _); [by intros [= _ <- _]; apply commits_same|]. cbv zeta. set (k1 := with_knode k _).
  assert (G1 : commit_effect false (k_node k) (k_node k1)) by (by apply commits_same). destruct (sm_reconstruct_owed k1); [by intros [= _ <- _]|].
  destruct (k_advance_loop _ k1 m now target) as [[k2 m2]|] eqn:E2; [|done]. cbn [mbind option_bind]. apply advance_loop_commits in E2.
  intros Ht%tail_commits; [|done]. eapply commits_trans; [exact G1|]. by eapply commits_trans.
Qed.

Lemma pay_commits advance : (forall k m flow k' m', advance k m = Some (flow, k', m') -> commit_effect false (k_node k) (k_node k')) -> pays_quietly (pay_checkpoint_debt advance).
Proof.
  intros Hadv k m k' m'. unfold pay_checkpoint_debt. destruct (_ <=? _); [by intros [= <- _]; apply commits_same|]. destruct (_ || _); [by intros [= <- _]; apply commits_same|].
  destruct (negb _); [by intros [= <- _]; apply commits_same|]. destruct (_ || _); [by intros [= <- _]; apply commits_same|].
  destruct (advance k m) as [[[flow k1] m1]|] eqn:Ha; [|done]. cbn [mbind option_bind]. apply Hadv in Ha. destruct flow; [|by intros [= <- _]].
  destruct (_ && _); [|by intros [= <- _]]. intros Hf%still_force_checkpoint. apply (commits_still false) in Hf. by eapply commits_trans.
Qed.

Lemma debt_commits now : pays_quietly (maybe_pay_checkpoint_debt now).
Proof.
  apply pay_commits. intros k m flow k' m' Ha. eapply paying_commits; [|exact Ha]. apply pay_commits. intros ? ? ? ? ? [= _ <- _]. by apply commits_same.
Qed.

Lemma advance_commit_commits (k : Keeper) (m : Medium) now target flow k' m' : k_advance_commit k m now target = Some (flow, k', m') -> commit_effect false (k_node k) (k_node k').
Proof. apply paying_commits, debt_commits. Qed.

Lemma try_commit_commits (b : Endpoint) now flow b' : k_try_commit b now = Some (flow, b') -> commit_effect true (k_node (ep_keeper b)) (k_node (ep_keeper b')).
Proof.
  unfold k_try_commit. cbv zeta. destruct (negb _); [by intros [= _ <-]; apply commits_same|]. destruct (_ || _); [by intros [= _ <-]; apply commits_same|].
  destruct (k_try_commit_loop _ _ _ _ _) as [[[adv k1] m1]|] eqn:E1; [|done]. cbn [mbind option_bind]. apply try_loop_commits in E1.
  set (k2 := with_knode k1 _). assert (G2 : commit_effect true (k_node k1) (k_node k2)) by (by apply commits_same).
  destruct (commit_tail _ k2 m1 now) as [[[fl k3] m3]|] eqn:E3; [|done]. cbn [mbind option_bind]. apply tail_commits, (commits_primary true) in E3; [|apply debt_commits].
  intros [= _ <-]. change (commit_effect true (k_node (ep_keeper b)) (k_node k3)). eapply commits_trans; [exact E1|]. by eapply commits_trans.
Qed.

Lemma orphan_try_loop fuel : forall (k : Keeper) (m : Medium) now adv b k' m', k_try_commit_loop fuel k m now adv = Some (b, k', m') -> k_frontier k' = k_frontier k.
Proof.
  induction fuel as [|fuel IH]; intros k m now adv b k' m'; cbn [k_try_commit_loop]; [by intros [= _ <- _]|]. cbv zeta. destruct (commit_ready _ _ _ _); [|by intros [= _ <- _]].
  destruct (k_commit_one k m now _ true) as [[[[] k1] m1]|] eqn:Hc; [| |done]; apply orphan_commit_one in Hc; [|by intros [= _ <- _]].
  intros Hl. by rewrite (IH _ _ _ _ _ _ _ Hl).
Qed.

Lemma try_commit_cp (b : Endpoint) now b' : k_try_commit b now = Some (Continue, b') -> cp (ep_keeper b) <= cp (ep_keeper b').
Proof.
  unfold k_try_commit. cbv zeta. destruct (negb _); [by intros [= <-]|]. destruct (_ || _); [by intros [= <-]|].
  destruct (k_try_commit_loop _ _ _ _ _) as [[[adv k1] m1]|] eqn:E1; [|done]. cbn [mbind option_bind]. apply orphan_try_loop in E1.
  set (k2 := with_knode k1 _). destruct (commit_tail _ k2 m1 now) as [[[[] k3] m3]|] eqn:E3; [| done|done]. cbn [mbind option_bind].
  apply (cp_tail _ _ _ _ _ _ (cp_debt now)) in E3. intros [= <-]. unfold cp, k_checkpoint_op in *. cbn [k2 with_knode k_frontier] in E3. rewrite E1 in E3. exact E3.
Qed.

(** ** What taking a prepare does to the log *)

(** The standing an endpoint keeps while it takes prepares in one view. *)
Definition place (k : Keeper) :=
  (nd_config (k_node k), k_membership k, k_view k, k_status k, (k_log_view k, k_durable_view k, p_view_change (k_posture k)), (k_config k, k_wal_capacity k)).

Lemma gen_place (k k' : Keeper) : gen k' = gen k -> place k' = place k.
Proof. by intros [= E1 E2 E3 E4 E5 E6 E7 E8 E9 E10 E11 E12 E13 E14 E15 E16 E17 E18]; unfold place, k_membership, k_view; rewrite E1, E2, E3, E13, E14, E15, E16, E17, E18. Qed.

(** A prepare an endpoint may append: of its view and epoch, and no direct voter
    admission. *)
Definition current (k : Keeper) (q : Prepare) : Prop :=
  pp_view q = k_view k /\ pp_epoch q = m_epoch (k_membership k) /\ is_direct_voter_add_prepare k q = false.

Lemma current_place (k k' : Keeper) q : place k' = place k -> current k' q -> current k q.
Proof. intros [=] (? & ? & Hd). unfold current, is_direct_voter_add_prepare in *. by replace (k_membership k) with (k_membership k') by done; replace (k_view k) with (k_view k') by done. Qed.

Definition entry_at (k : Keeper) (op : OpNumber) : option LogEntry := bt_get op (nd_log (k_node k)).
Definition head_op (k : Keeper) : OpNumber := nd_op (k_node k).

Record wrote (k k' : Keeper) (p : Prepare) : Prop := {
  wr_place : place k' = place k;
  wr_head : head_op k' = head_op k;
  wr_log op : entry_at k' op = if op =? pp_op p then Some (log_entry_from_prepare p) else entry_at k op;
  wr_appending : ap_appending (k_appends k') = {[pp_op p]} ∪ ap_appending (k_appends k);
  wr_node_appending : nd_appending (k_node k') = ap_appending (k_appends k');
  wr_rest : (k_buffer k', k_frontier k', k_owed k', k_nack_from k') = (k_buffer k, k_frontier k, k_owed k, k_nack_from k);
  wr_commit : (nd_commit_min (k_node k'), nd_commit_max (k_node k'), nd_repair (k_node k'), nd_pending_swap (k_node k')) =
    (nd_commit_min (k_node k), nd_commit_max (k_node k), nd_repair (k_node k), nd_pending_swap (k_node k));
}.

Lemma submit_appending a (m : Medium) op h body kind a' m' : submit_or_defer_append a m op h body kind = Some (a', m') -> ap_appending a' = ap_appending a.
Proof.
  unfold submit_or_defer_append, offer, mint_write_id. destruct (_ <? _); [|done]. cbn [mbind option_bind].
  destruct (submit_append _ _ _ _ _) as [[v m1]|]; [|done]. cbn [mbind option_bind]. by destruct v; intros [= <- _].
Qed.

Lemma write_prepare_spec (k : Keeper) (m : Medium) p k' m' : write_prepare k m p = Some (k', m') -> wrote k k' p.
Proof.
  unfold write_prepare. cbv zeta. destruct (submit_or_defer_append _ _ _ _ _ _) as [[a m1]|] eqn:Hs; [|done]. cbn [mbind option_bind]. intros [= <- _].
  apply submit_appending in Hs. split; try done.
  - intros op. unfold entry_at. cbn. apply bt_get_insert.
  - cbn. by rewrite Hs.
Qed.

(** The head moved from [k] to [k'] by appending prepares of [srcs], no slot of the
    ring reused before a checkpoint subsumes it. *)
Record extends (srcs : list Prepare) (m : Medium) (k k' : Keeper) : Prop := {
  ex_place : place k' = place k;
  ex_head : head_op k <= head_op k';
  ex_old op : op <= head_op k \/ head_op k' < op -> entry_at k' op = entry_at k op;
  ex_new op : head_op k < op <= head_op k' -> exists q, q ∈ srcs /\ pp_op q = op /\ current k q /\
    entry_at k' op = Some (log_entry_from_prepare q) /\ sat_sub op (cp k) <= k_effective_wal_capacity k m;
  ex_appending op : op ∈ ap_appending (k_appends k') <-> op ∈ ap_appending (k_appends k) \/ head_op k < op <= head_op k';
  ex_buffer op q : bt_get op (k_buffer k') = Some q -> exists q', bt_get op (k_buffer k) = Some q';
  ex_frontier : k_frontier k' = k_frontier k;
}.

Lemma extends_refl srcs m (k k' : Keeper) :
  place k' = place k -> head_op k' = head_op k -> (forall op, entry_at k' op = entry_at k op) -> ap_appending (k_appends k') = ap_appending (k_appends k) ->
  (forall op q, bt_get op (k_buffer k') = Some q -> exists q', bt_get op (k_buffer k) = Some q') -> k_frontier k' = k_frontier k -> extends srcs m k k'.
Proof.
  intros Hp Hh Hl Ha Hb Hf. split; try done; try lia.
  - intros op. rewrite Ha. split; [by left|intros [?|?]; [done|lia]].
Qed.

Lemma capacity_place (k k' : Keeper) (m : Medium) : place k' = place k -> k_effective_wal_capacity k' m = k_effective_wal_capacity k m.
Proof. intros [= E1]. unfold k_effective_wal_capacity. by rewrite E1. Qed.

Lemma extends_trans srcs m (k1 k2 k3 : Keeper) : extends srcs m k1 k2 -> extends srcs m k2 k3 -> extends srcs m k1 k3.
Proof.
  intros HA HB. pose proof (ex_place _ _ _ _ HA) as Hp. pose proof (ex_head _ _ _ _ HA). pose proof (ex_head _ _ _ _ HB).
  split; [etransitivity; [apply HB|done]|lia| | | | |etransitivity; [apply HB|apply HA]].
  - intros op Hop. rewrite (ex_old _ _ _ _ HB) by lia. apply (ex_old _ _ _ _ HA). lia.
  - intros op Hop. destruct (Z.le_gt_cases op (head_op k2)) as [Hle|Hgt].
    + destruct (ex_new _ _ _ _ HA op) as (q & ? & ? & ? & ? & ?); [lia|]. exists q. split_and!; try done. by rewrite (ex_old _ _ _ _ HB) by lia.
    + destruct (ex_new _ _ _ _ HB op) as (q & ? & ? & ? & ? & ?); [lia|]. exists q. split_and!; try done; [by apply (current_place k1 k2)|].
      unfold cp, k_checkpoint_op in *. rewrite <- (ex_frontier _ _ _ _ HA). by rewrite <- (capacity_place k1 k2).
  - intros op. rewrite (ex_appending _ _ _ _ HB), (ex_appending _ _ _ _ HA). split; [intros [[?|?]|?]|intros [?|?]]; try tauto; [right; lia|right; lia|].
    destruct (Z.le_gt_cases op (head_op k2)); [left; right; lia|right; lia].
  - intros op q [q' Hq']%(ex_buffer _ _ _ _ HB). by apply (ex_buffer _ _ _ _ HA) in Hq'.
Qed.

Lemma ring_window_false (k : Keeper) (m : Medium) now pop c k' : k_maybe_sync_below_ring_window k m now pop c = (false, k') ->
  sat_sub pop (cp k) <= k_effective_wal_capacity k m /\ exists y, k' = with_syncer k y.
Proof.
  unfold k_maybe_sync_below_ring_window, maybe_sync_below_ring_window. destruct (Z.leb_spec (sat_sub pop (sx_checkpoint_op (ring_ctx k m))) (sx_capacity (ring_ctx k m))) as [Hle|].
  - intros [= <-]. split; [exact Hle|eauto].
  - by destruct (_ && _).
Qed.

Lemma ring_window_syncer (k : Keeper) (m : Medium) now pop c st k' : k_maybe_sync_below_ring_window k m now pop c = (st, k') -> exists y, k' = with_syncer k y.
Proof. unfold k_maybe_sync_below_ring_window. destruct (maybe_sync_below_ring_window _ _ _ _ _) as [? y]. intros [= _ <-]. eauto. Qed.

Lemma append_extends (k : Keeper) (m m0 : Medium) p k' m' : append_prepare k m p = Some (k', m') ->
  pp_op p = head_op k + 1 -> pp_view p = k_view k -> pp_epoch p = m_epoch (k_membership k) -> sat_sub (pp_op p) (cp k) <= k_effective_wal_capacity k m0 ->
  extends [p] m0 k k' /\ k_buffer k' = k_buffer k.
Proof.
  intros Ha Hop Hv He Hw. revert Ha. unfold append_prepare. destruct (is_direct_voter_add_prepare k p) eqn:Hd; [intros [= <- _]; split; [by apply extends_refl; eauto|done]|].
  set (k1 := with_knode k _). intros Hwr%write_prepare_spec. destruct Hwr as [W1 W2 W3 W4 W5 W6 W7].
  assert (Hh : head_op k' = pp_op p) by exact W2. injection W6 as Eb Ef Eo En. split; [|exact Eb]. split; [exact W1|lia| | | |intros op q; rewrite Eb; eauto|exact Ef].
  - intros op Hx. rewrite W3. destruct (Z.eqb_spec op (pp_op p)); [lia|done].
  - intros op Hx. assert (op = pp_op p) as -> by lia. exists p. split_and!; try done; [constructor|]. by rewrite W3, Z.eqb_refl.
  - intros op. rewrite W4, elem_of_union, elem_of_singleton. change (ap_appending (k_appends k1)) with (ap_appending (k_appends k)). split; [intros [-> |?]; [right; lia|by left]|intros [?|?]; [by right|left; lia]].
Qed.

(** Every prepare of the buffer sits at its own op. *)
Definition buffer_keyed (t : btree Prepare) : Prop := bt_sorted t /\ Forall (fun x => pp_op x.2 = x.1) t.

Lemma bt_get_remove_other {V} k k' (t : btree V) : k' <> k -> bt_get k' (bt_remove k t) = bt_get k' t.
Proof.
  intros Hn. induction t as [|[k0 v0] t IH]; [done|]. cbn. destruct (Z.eqb_spec k k0) as [-> |].
  - by destruct (Z.eqb_spec k' k0).
  - cbn. by rewrite IH.
Qed.

Lemma bt_remove_sub {V} k (t : btree V) x : x ∈ bt_remove k t -> x ∈ t.
Proof. induction t as [|[k0 v0] t IH]; [done|]. cbn. destruct (k =? k0); [by right|]. rewrite !elem_of_cons. intros [?|?]; auto. Qed.

Lemma keyed_remove k t : buffer_keyed t -> buffer_keyed (bt_remove k t).
Proof.
  intros [Hs Hf]. split.
  - clear Hf. induction t as [|[k0 v0] t IH]; [done|]. cbn. apply bt_sorted_cons in Hs as [Hs Hall]. destruct (k =? k0); [done|].
    apply bt_sorted_cons. split; [by apply IH|]. rewrite Forall_forall in Hall |- *. intros x Hx%bt_remove_sub. by apply Hall.
  - rewrite Forall_forall in Hf |- *. intros x Hx%bt_remove_sub. by apply Hf.
Qed.

Lemma keyed_get k t q : buffer_keyed t -> bt_get k t = Some q -> pp_op q = k /\ q ∈ map snd t.
Proof.
  intros [Hs Hf] Hg. apply bt_get_elem in Hg; [|done]. rewrite Forall_forall in Hf. split; [by apply (Hf (k, q))|]. apply list_elem_of_In, in_map_iff. exists (k, q).
  split; [done|]. by apply list_elem_of_In.
Qed.

Lemma bt_get_elem_some {V} k (t : btree V) q : (k, q) ∈ t -> exists q', bt_get k t = Some q'.
Proof. induction t as [|[k0 v0] t IH]; [by intros ?%elem_of_nil|]. rewrite elem_of_cons. cbn. intros [[= -> ->]|?]; [rewrite Z.eqb_refl; eauto|destruct (k =? k0); eauto]. Qed.

Lemma bt_get_remove_some {V} k k' (t : btree V) q : bt_sorted t -> bt_get k' (bt_remove k t) = Some q -> k' <> k /\ bt_get k' t = Some q.
Proof.
  intros Hs. destruct (Z.eq_dec k' k) as [-> |]; [|by rewrite bt_get_remove_other].
  intros Hg. exfalso. revert Hs Hg. induction t as [|[k0 v0] t IH]; [done|]. intros [Hs Hall]%bt_sorted_cons. cbn. destruct (Z.eqb_spec k k0) as [-> |].
  - intros Hg. apply bt_get_elem in Hg; [|done]. rewrite Forall_forall in Hall. apply Hall in Hg. cbn in Hg. lia.
  - cbn. destruct (Z.eqb_spec k k0); [done|]. by apply IH.
Qed.

(** ** Draining *)

(** The next prepare is not there, or the ring or the header band holds it back. *)
Definition held_back (k : Keeper) (m : Medium) : Prop :=
  bt_get (head_op k + 1) (k_buffer k) = None \/ k_effective_wal_capacity k m < sat_sub (head_op k + 1) (cp k) \/ band_at_capacity (k_node k) (normal_ctx k) = true.

Lemma ring_window_true (k : Keeper) (m : Medium) now pop c k' : k_maybe_sync_below_ring_window k m now pop c = (true, k') ->
  k_effective_wal_capacity k m < sat_sub pop (cp k).
Proof.
  unfold k_maybe_sync_below_ring_window, maybe_sync_below_ring_window. destruct (Z.leb_spec (sat_sub pop (sx_checkpoint_op (ring_ctx k m))) (sx_capacity (ring_ctx k m))) as [|Hlt]; [done|].
  intros _. exact Hlt.
Qed.

Lemma length_bt_remove {V} k (t : btree V) q : bt_get k t = Some q -> length t = Datatypes.S (length (bt_remove k t)).
Proof. induction t as [|[k0 v0] t IH]; [done|]. cbn. destruct (k =? k0); [done|]. cbn. intros Hg. by rewrite (IH Hg). Qed.

Lemma append_buffer (k : Keeper) (m : Medium) p k' m' : append_prepare k m p = Some (k', m') -> k_buffer k' = k_buffer k.
Proof.
  unfold append_prepare. destruct (is_direct_voter_add_prepare k p); [by intros [= <- _]|]. intros Hwr%write_prepare_spec. pose proof (wr_rest _ _ _ Hwr) as [= Eb _ _ _]. exact Eb.
Qed.

(** A log's capacity is fixed for the store's life ([Wal::capacity]). *)
Context (cap : Z) (cap_fixed : forall w : W, wal_capacity w = cap).

Lemma capacity_fixed (k : Keeper) (m m' : Medium) : k_effective_wal_capacity k m = k_effective_wal_capacity k m'.
Proof using cap_fixed. unfold k_effective_wal_capacity. by rewrite !cap_fixed. Qed.

(** What a taking step may add to the log: the given prepare and the buffered ones. *)
Definition buffered (k : Keeper) : list Prepare := map snd (k_buffer k).

Lemma extends_mono srcs srcs' m (k k' : Keeper) : srcs ⊆ srcs' -> extends srcs m k k' -> extends srcs' m k k'.
Proof. intros Hs [E1 E2 E3 E4 E5 E6 E7]. split; try done. intros op Hop. destruct (E4 op Hop) as (q & Hq & Hr). exists q. split; [by apply Hs|done]. Qed.

Lemma buffered_remove (k : Keeper) op : buffered (with_buffer k (bt_remove op (k_buffer k))) ⊆ buffered k.
Proof.
  intros q. unfold buffered. change (k_buffer (with_buffer k (bt_remove op (k_buffer k)))) with (bt_remove op (k_buffer k)). rewrite !list_elem_of_fmap.
  intros (x & -> & Hx). exists x. split; [done|]. by apply bt_remove_sub in Hx.
Qed.

Lemma unbuffer_extends (k : Keeper) (m : Medium) op : buffer_keyed (k_buffer k) -> extends (buffered k) m k (with_buffer k (bt_remove op (k_buffer k))).
Proof.
  intros [Hs _]. apply extends_refl; try done. intros op' q Hg. change (bt_get op' (bt_remove op (k_buffer k)) = Some q) in Hg.
  apply bt_get_remove_some in Hg as [_ Hg]; [eauto|done].
Qed.

Lemma drain_extends fuel : forall (k : Keeper) (m m0 : Medium) now k' m', buffer_keyed (k_buffer k) ->
  drain_buffer fuel k m now = Some (k', m') -> extends (buffered k) m0 k k' /\ buffer_keyed (k_buffer k').
Proof using cap_fixed.
  induction fuel as [|fuel IH]; intros k m m0 now k' m' Hk; cbn [drain_buffer]; [intros [= <- _]; split; [apply extends_refl; eauto|done]|]. cbv zeta.
  destruct (bt_get (nd_op (k_node k) + 1) (k_buffer k)) as [q|] eqn:Hg; [|intros [= <- _]; split; [apply extends_refl; eauto|done]].
  pose proof (keyed_get _ _ _ Hk Hg) as [Hop Hin]. destruct (negb _ || negb _) eqn:Hnew.
  { intros [= <- _]. split; [by apply unbuffer_extends|by apply keyed_remove]. }
  apply orb_false_iff in Hnew as [He%negb_false_iff%Z.eqb_eq Hv%negb_false_iff%Z.eqb_eq].
  destruct (k_maybe_sync_below_ring_window k m now (pp_op q) (pp_checkpoint_op q)) as [st k1] eqn:Hr.
  pose proof (ring_window_syncer _ _ _ _ _ _ _ Hr) as [y Hy].
  assert (X1 : extends (buffered k) m0 k k1) by (subst k1; apply extends_refl; eauto).
  destruct (st || _) eqn:Hst; [intros [= <- _]; split; [exact X1|by subst k1]|]. apply orb_false_iff in Hst as [-> _]. apply ring_window_false in Hr as [Hw _].
  set (k2 := with_buffer k1 _). assert (X2 : extends (buffered k) m0 k k2).
  { apply (extends_trans _ _ _ k1); [exact X1|]. subst k2 k1. exact (unbuffer_extends (with_syncer k y) m0 (nd_op (k_node k) + 1) Hk). }
  destruct (append_prepare k2 m q) as [[k3 m3]|] eqn:Ha; [|done].
  assert (Hk2 : buffer_keyed (k_buffer k2)) by (subst k2 k1; by apply keyed_remove).
  destruct (append_extends k2 m m0 _ _ _ Ha) as [X3 Eb]; [by subst k2 k1|by subst k2 k1|by subst k2 k1| |].
  { rewrite (capacity_fixed _ m0 m), Hop. rewrite Hop in Hw. by subst k2 k1. }
  intros Hd. apply (IH k3 m3 m0) in Hd as [X4 Hk4]; [|by rewrite Eb]. split; [|done].
  assert (Hq : q ∈ buffered k) by done.
  assert (Hb2 : buffered k2 ⊆ buffered k) by (subst k2 k1; exact (buffered_remove (with_syncer k y) (nd_op (k_node k) + 1))).
  apply (extends_trans _ _ _ k2); [exact X2|]. apply (extends_trans _ _ _ k3).
  - eapply extends_mono; [|exact X3]. intros z Hz. apply list_elem_of_singleton in Hz as ->. exact Hq.
  - eapply extends_mono; [|exact X4]. unfold buffered. rewrite Eb. exact Hb2.
Qed.

(** One round more than there are entries runs the buffer dry or into a stall. *)
Lemma drain_runs_dry fuel : forall (k : Keeper) (m : Medium) now k' m', buffer_keyed (k_buffer k) -> (length (k_buffer k) < fuel)%nat ->
  drain_buffer fuel k m now = Some (k', m') -> held_back k' m'.
Proof using cap_fixed.
  induction fuel as [|fuel IH]; intros k m now k' m' Hk Hl; [lia|]. cbn [drain_buffer]. cbv zeta.
  destruct (bt_get (nd_op (k_node k) + 1) (k_buffer k)) as [q|] eqn:Hg; [|intros [= <- _]; by left].
  pose proof (keyed_get _ _ _ Hk Hg) as [Hop Hin]. destruct (negb _ || negb _) eqn:Hnew.
  { intros [= <- _]. left. change (bt_get (head_op k + 1) (bt_remove (nd_op (k_node k) + 1) (k_buffer k)) = None).
    destruct (bt_get (head_op k + 1) _) eqn:Hr; [|done]. apply bt_get_remove_some in Hr as [Hne _]; [done|apply Hk]. }
  destruct (k_maybe_sync_below_ring_window k m now (pp_op q) (pp_checkpoint_op q)) as [st k1] eqn:Hr.
  pose proof (ring_window_syncer _ _ _ _ _ _ _ Hr) as [y Hy]. destruct (st || _) eqn:Hst.
  { intros [= <- <-]. apply orb_true_iff in Hst as [-> |Hb]; [|by do 2 right]. apply ring_window_true in Hr. right; left. rewrite Hop in Hr. by subst k1. }
  set (k2 := with_buffer k1 _). destruct (append_prepare k2 m q) as [[k3 m3]|] eqn:Ha; [|done]. pose proof (append_buffer _ _ _ _ _ Ha) as Eb.
  assert (E2 : k_buffer k2 = bt_remove (nd_op (k_node k) + 1) (k_buffer k)) by (by subst k2 k1).
  apply length_bt_remove in Hg. apply IH; rewrite Eb, E2; [by apply keyed_remove|lia].
Qed.

(** ** Taking a prepare *)

(** Entries of the log that a prepare may bring, the others kept. *)
Record spliced (p : Prepare) (m : Medium) (k k' : Keeper) : Prop := {
  sp_place : place k' = place k;
  sp_head : head_op k <= head_op k';
  sp_kept op : is_Some (entry_at k op) -> is_Some (entry_at k' op);
  sp_whole op : head_op k < op <= head_op k' -> is_Some (entry_at k' op);
  sp_new op e : entry_at k' op = Some e -> entry_at k op = Some e \/ exists q, (q = p \/ q ∈ buffered k) /\ pp_op q = op /\ current k q /\
    e = log_entry_from_prepare q /\ op ∈ ap_appending (k_appends k') /\ sat_sub op (cp k') <= k_effective_wal_capacity k m /\
    (head_op k < op \/ q = p /\ cp k < op /\ op ∉ ap_appending (k_appends k) /\ holds k p = false);
  sp_buffer : buffer_keyed (k_buffer k');
}.

Definition same (k k' : Keeper) : Prop := gen k' = gen k /\ cp k <= cp k'.

Lemma same_parts (k k' : Keeper) : same k k' -> place k' = place k /\ head_op k' = head_op k /\ (forall op, entry_at k' op = entry_at k op) /\
  ap_appending (k_appends k') = ap_appending (k_appends k) /\ k_buffer k' = k_buffer k /\ (forall p, holds k' p = holds k p) /\
  ((k_durable_view k' <? k_view k') && negb (catching_up k')) = ((k_durable_view k <? k_view k) && negb (catching_up k)).
Proof.
  intros [Hg _]. split; [by apply gen_place|]. unfold gen, node_gen in Hg. injection Hg as E1 E2 E3 E4 E5 E6 E7 E8 E9 E10 E11 E12 E13 E14 E15 E16 E17 E18.
  unfold head_op, entry_at, holds, catching_up, k_view. by rewrite E3, E4, E5, E10, E11, E17, E18.
Qed.

Lemma sat_sub_anti op a b : a <= b -> sat_sub op b <= sat_sub op a.
Proof. unfold sat_sub. lia. Qed.

Lemma capacity_of_place (k k' : Keeper) (m : Medium) : place k' = place k -> k_effective_wal_capacity k' m = k_effective_wal_capacity k m.
Proof. intros Hp. by apply capacity_place. Qed.

Lemma current_of_place (k k' : Keeper) q : place k' = place k -> current k q -> current k' q.
Proof. intros Hp. by apply current_place. Qed.

Lemma spliced_pre p m (k k1 k2 : Keeper) : same k k1 -> spliced p m k1 k2 -> spliced p m k k2.
Proof.
  intros Hs [A1 A2 A3 A4 A5 A6]. destruct (same_parts _ _ Hs) as (P1 & P2 & P3 & P4 & P5 & P6 & _). destruct Hs as [_ Hcp].
  split; [congruence|lia| | | |done].
  - intros op Hop. apply A3. by rewrite P3.
  - intros op Hop. apply A4. lia.
  - intros op e He. destruct (A5 op e He) as [|(q & Hq & Hop & Hc & Hr)]; [left; by rewrite <- P3|right]. exists q.
    split; [unfold buffered in *; by rewrite P5 in Hq|]. split; [done|]. split; [by apply (current_of_place k1 k)|].
    destruct Hr as (He' & Ha & Hw & Hn). split; [done|]. split; [done|]. split; [by rewrite <- (capacity_of_place k k1 m P1)|].
    destruct Hn as [Hn|(-> & Hn1 & Hn2 & Hn3)]; [left; lia|right]. split; [done|]. split; [lia|]. by rewrite <- P4, <- (P6 p).
Qed.

Lemma spliced_post p m (k k1 k2 : Keeper) : spliced p m k k1 -> same k1 k2 -> spliced p m k k2.
Proof.
  intros [A1 A2 A3 A4 A5 A6] Hs. destruct (same_parts _ _ Hs) as (P1 & P2 & P3 & P4 & P5 & _). destruct Hs as [_ Hcp].
  split; [congruence|lia| | | |by rewrite P5].
  - intros op Hop. rewrite P3. by apply A3.
  - intros op Hop. rewrite P3. apply A4. lia.
  - intros op e. rewrite P3. intros He. destruct (A5 op e He) as [|(q & Hq & Hop & Hc & He' & Ha & Hw & Hn)]; [by left|right]. exists q.
    split; [done|]. split; [done|]. split; [done|]. split; [done|]. rewrite P4. split; [done|]. split; [|done]. pose proof (sat_sub_anti op _ _ Hcp). lia.
Qed.

Lemma same_refl (k : Keeper) : same k k.
Proof. split; [done|lia]. Qed.

Lemma same_trans (k1 k2 k3 : Keeper) : same k1 k2 -> same k2 k3 -> same k1 k3.
Proof. intros [A1 A2] [B1 B2]. split; [congruence|lia]. Qed.

Lemma spliced_quiet p m (k k' : Keeper) : place k' = place k -> head_op k' = head_op k -> (forall op, entry_at k' op = entry_at k op) ->
  buffer_keyed (k_buffer k') -> spliced p m k k'.
Proof.
  intros Hp Hh Hl Hb. split; [done|lia| | | |done].
  - intros op. by rewrite Hl.
  - lia.
  - intros op e. rewrite Hl. by left.
Qed.

Lemma spliced_same p m (k k' : Keeper) : buffer_keyed (k_buffer k) -> same k k' -> spliced p m k k'.
Proof. intros Hb Hs. destruct (same_parts _ _ Hs) as (P1 & P2 & P3 & _ & P5 & _). apply spliced_quiet; [done|done|done|by rewrite P5]. Qed.

Lemma with_same_repairer (k : Keeper) : same k (with_repairer k (k_repairer k)).
Proof. split; [|apply Z.le_refl]. unfold with_repairer, k_repairer, gen. by destruct k. Qed.

Lemma fill_false (r : @Repairer S) cx (m : Medium) p r' m' : fill_repair r cx m p = Some (false, r', m') -> r' = r /\ m' = m.
Proof.
  unfold fill_repair. cbv zeta. destruct (negb _); [by intros [= <- <-]|]. case_bool_decide; [done|]. destruct (negb _); [by intros [= <- <-]|].
  destruct (negb _); [by intros [= <- <-]|]. destruct (ring_append_would_wrap _ _ _ _); [by intros [= <- <-]|].
  by destruct (submit_or_defer_append _ _ _ _ _ _) as [[a m1]|].
Qed.

Lemma fill_quiet (k : Keeper) cx (m : Medium) p f r' m' : fill_repair (k_repairer k) cx m p = Some (f, r', m') ->
  place (with_repairer k r') = place k /\ head_op (with_repairer k r') = head_op k /\ (forall op, entry_at (with_repairer k r') op = entry_at k op) /\
  k_buffer (with_repairer k r') = k_buffer k.
Proof.
  unfold fill_repair. cbv zeta. set (r := k_repairer k). assert (Hr : place (with_repairer k r) = place k /\ head_op (with_repairer k r) = head_op k /\
    (forall op, entry_at (with_repairer k r) op = entry_at k op) /\ k_buffer (with_repairer k r) = k_buffer k).
  { subst r. repeat split. }
  destruct (negb _); [intros [= _ <- _]; exact Hr|]. case_bool_decide; [intros [= _ <- _]; exact Hr|]. destruct (negb _); [intros [= _ <- _]; exact Hr|].
  destruct (negb _); [intros [= _ <- _]; exact Hr|]. destruct (ring_append_would_wrap _ _ _ _); [intros [= _ <- _]; exact Hr|].
  destruct (submit_or_defer_append _ _ _ _ _ _) as [[a m1]|]; [|done]. cbn [mbind option_bind]. intros [= _ <- _].
  repeat split.
Qed.

Lemma advance_same (k : Keeper) (m : Medium) now target k' m' : k_advance_commit k m now target = Some (Continue, k', m') -> same k k'.
Proof. intros Ha. split; [by apply advance_commit_gen in Ha|by eapply advance_commit_cp]. Qed.

Lemma advance_recovering (k : Keeper) (m : Medium) now target k' m' : k_advance_commit k m now target = Some (EnteredRecovery, k', m') -> k_status k' = Recovering.
Proof. intros (k0 & m0 & _ & _ & _ & _ & He)%advance_commit_gen. apply enter_orphan_recovering in He. tauto. Qed.

Lemma catch_up_status (k : Keeper) (m : Medium) now v k' m' : catch_up_to_view k m now v = Some (k', m') ->
  (k' = k /\ m' = m) \/ k_status k' = ViewChange.
Proof.
  unfold catch_up_to_view. destruct (sync_repersist_root_staged k); [intros [= <- <-]; by left|]. destruct (_ <? v); [intros [= <- <-]; by left|].
  destruct (k_view k <? v); [|done]. intros He. right. revert He. unfold enter_catch_up_posture. set (k0 := set_svc_target _ _).
  assert (H0' : k_status k0 = ViewChange) by (subst k0; unfold set_status; case_bool_decide; done).
  destruct (reset_for_view_transition k0 m now) as [[k1 m1]|] eqn:Hr; [|done]. cbn [mbind option_bind]. intros [= He].
  assert (H1' : k_status k1 = k_status k0).
  { revert Hr. unfold reset_for_view_transition. cbv zeta. destruct (recompute_quorum_checkpoint _) as [k2|] eqn:Hq; [|done]. cbn [mbind option_bind].
    apply gen_recompute in Hq. intros Hd. transitivity (k_status k2); [|exact (f_equal (fun g => g.2.1.1.1) Hq)].
    revert Hd. unfold drop_checkpoint_for_transition. destruct (k_pending_checkpoint _) as [pc|]; [destruct (dropped_by_transition pc); [destruct (pc_step pc)|]|]; by intros [= <- _]. }
  revert He. unfold abandon_pending_sb. destruct (k_pending_sb _) as [[i a]|]; intros [= <- _]; (transitivity (k_status k1); [reflexivity|congruence]).
Qed.

Lemma same_syncer (k : Keeper) y : same k (with_syncer k y).
Proof. split; [done|apply Z.le_refl]. Qed.

Lemma same_buffered (k k' : Keeper) : same k k' -> buffered k' = buffered k.
Proof. intros Hs. apply same_parts in Hs as (_ & _ & _ & _ & Hb & _). unfold buffered. by rewrite Hb. Qed.

Lemma extends_spliced p m (k k' : Keeper) srcs : (forall q, q ∈ srcs -> q = p \/ q ∈ buffered k) -> buffer_keyed (k_buffer k') ->
  extends srcs m k k' -> spliced p m k k'.
Proof.
  intros Hsrc Hb [E1 E2 E3 E4 E5 E6 E7]. split; [done|lia| | | |done].
  - intros op [e He]. destruct (decide (head_op k < op <= head_op k')) as [Hop|Hop].
    + destruct (E4 op Hop) as (q & _ & _ & _ & -> & _). eauto.
    + rewrite E3 by lia. eauto.
  - intros op Hop. destruct (E4 op Hop) as (q & _ & _ & _ & -> & _). eauto.
  - intros op e He. destruct (decide (head_op k < op <= head_op k')) as [Hop|Hop]; [|left; by rewrite <- E3 by lia].
    destruct (E4 op Hop) as (q & Hq & Hqo & Hc & Hqe & Hw). right. exists q. split; [by apply Hsrc|]. split; [done|]. split; [done|].
    rewrite Hqe in He. injection He as <-. split; [done|]. split; [apply E5; by right|]. split; [|left; lia]. unfold cp, k_checkpoint_op in *. by rewrite E7.
Qed.

Lemma reappend_spliced (k : Keeper) (m : Medium) p k' m' : buffer_keyed (k_buffer k) -> pp_view p = k_view k -> pp_epoch p = m_epoch (k_membership k) ->
  cp k < pp_op p -> holds k p = false -> pp_op p ∉ ap_appending (k_appends k) ->
  reappend_canonical_prepare k m p = Some (k', m') -> spliced p m k k'.
Proof.
  intros Hb Hv He Hcp Hh Ha. unfold reappend_canonical_prepare. destruct (is_direct_voter_add_prepare k p) eqn:Hd; [intros [= <- _]; by apply spliced_same, same_refl|].
  destruct (ring_append_would_wrap _ _ _ _) eqn:Hw; [intros [= <- _]; by apply spliced_same, same_refl|]. apply Z.ltb_ge in Hw.
  intros Hwr%write_prepare_spec. destruct Hwr as [W1 W2 W3 W4 W5 W6 W7]. injection W6 as Eb Ef Eo En. split; [done|lia| |lia| |by rewrite Eb].
  - intros op [e Hop]. rewrite W3. destruct (op =? pp_op p); eauto.
  - intros op e. rewrite W3. destruct (Z.eqb_spec op (pp_op p)) as [-> |]; [|by left]. intros [= <-]. right. exists p. split; [by left|]. split; [done|].
    split; [done|]. split; [done|]. split; [rewrite W4; set_solver|]. split; [unfold cp, k_checkpoint_op in *; rewrite Ef; exact Hw|]. right. by split_and!.
Qed.

Lemma keyed_insert t q : buffer_keyed t -> buffer_keyed (bt_insert (pp_op q) q t).
Proof. intros [Hs Hf]. split; [by apply bt_insert_sorted|]. by apply Forall_bt_insert. Qed.

Lemma spliced_medium p (m m0 : Medium) (k k' : Keeper) : spliced p m k k' -> spliced p m0 k k'.
Proof using cap_fixed. intros [A1 A2 A3 A4 A5 A6]. split; try done. rewrite (capacity_fixed k m0 m). exact A5. Qed.

Lemma extend_head_spliced (b : Endpoint) now p b' : let k := ep_keeper b in buffer_keyed (k_buffer k) ->
  pp_op p = head_op k + 1 -> pp_view p = k_view k -> pp_epoch p = m_epoch (k_membership k) -> extend_head b now p = Some b' ->
  (k_status (ep_keeper b') = Recovering \/ spliced p (ep_medium b) k (ep_keeper b')) /\ ep_sent b' = ep_sent b.
Proof using cap_fixed.
  intros k Hb Hop Hv He. unfold extend_head. fold k. destruct (k_maybe_sync_below_ring_window k (ep_medium b) now (pp_op p) (pp_checkpoint_op p)) as [st k1] eqn:Hr.
  pose proof (ring_window_syncer _ _ _ _ _ _ _ Hr) as [y Hy]. assert (S1 : same k k1) by (subst k1; apply same_syncer).
  destruct (st || _) eqn:Hst; [intros [= <-]; split; [right; by apply spliced_same|done]|]. apply orb_false_iff in Hst as [-> _]. apply ring_window_false in Hr as [Hw _].
  destruct (append_prepare k1 (ep_medium b) p) as [[k2 m2]|] eqn:Ha; [|done]. cbn [mbind option_bind].
  assert (X : extends [p] (ep_medium b) k1 k2 /\ k_buffer k2 = k_buffer k1).
  { eapply append_extends; [exact Ha| | | |]; subst k1; done. }
  destruct X as [X2 Eb2]. assert (Hb1 : k_buffer k1 = k_buffer k) by (subst k1; done). destruct (drain_buffer _ k2 m2 now) as [[k3 m3]|] eqn:Hd; [|done]. cbn [mbind option_bind].
  apply (drain_extends _ _ _ (ep_medium b)) in Hd as [X3 Hk3]; [|by rewrite Eb2, Hb1].
  destruct (k_advance_commit k3 m3 now _) as [[[fl k4] m4]|] eqn:Hc; [|done]. cbn [mbind option_bind]. intros [= <-]. split; [|done]. cbn [ep_keeper put fst snd].
  destruct fl; [|left; by apply advance_recovering in Hc]. right. apply (spliced_pre _ _ _ k1); [exact S1|].
  apply (spliced_post _ _ _ k3); [|by eapply advance_same]. eapply (extends_spliced p _ k1 k3 (p :: buffered k1)); [|done|].
  - intros q. rewrite elem_of_cons. tauto.
  - apply (extends_trans _ _ _ k2); eapply extends_mono; [|exact X2| |exact X3]; [set_solver|]. unfold buffered. rewrite Eb2. set_solver.
Qed.

Lemma send_prepare_ok_sent (b : Endpoint) op b' : send_prepare_ok b op = Some b' -> ep_keeper b' = ep_keeper b /\ ep_medium b' = ep_medium b /\
  (ep_sent b' = ep_sent b \/ exists slot, local_slot_opt (k_membership (ep_keeper b)) (k_local (ep_keeper b)) = Some slot /\
    ep_sent b' = ep_sent b ++ [(To (PeerReplica (primary (k_membership (ep_keeper b)) (k_view (ep_keeper b)))), MPrepareOk (prepare_ok (ep_keeper b) op slot))]).
Proof.
  unfold send_prepare_ok. cbv zeta. destruct (k_is_learner _); [intros [= <-]; tauto|]. destruct (op_is_direct_voter_add _ _ _); [intros [= <-]; tauto|].
  destruct (local_slot_opt _ _) as [slot|]; [|done]. cbn [mbind option_bind]. intros [= <-]. split; [done|]. split; [done|]. right. by exists slot.
Qed.

Lemma send_request_prepare_kind (n : Node) op m : send_request_prepare n op = Some m -> forall r ok, m <> (r, MPrepareOk ok).
Proof. unfold send_request_prepare. intros Hs r ok ->. revert Hs. by destruct (node_slot n). Qed.

Lemma tail_gap_sent (b : Endpoint) b' : request_tail_gap b = Some b' -> ep_keeper b' = ep_keeper b /\ ep_medium b' = ep_medium b /\
  exists out, ep_sent b' = ep_sent b ++ out /\ forall r ok, (r, MPrepareOk ok) ∉ out.
Proof.
  unfold request_tail_gap. cbv zeta. destruct (_ || _); [intros [= <-]; split; [done|]; split; [done|]; exists []; split; [by rewrite app_nil_r|]; intros r ok; apply not_elem_of_nil|].
  destruct (mapM _ _) as [out|] eqn:Hm; [|done]. cbn [mbind option_bind]. intros [= <-]. split; [done|]. split; [done|]. exists out. split; [done|].
  intros r ok Hin. apply mapM_Some in Hm. apply list_elem_of_lookup_1 in Hin as [i Hi]. destruct (Forall2_lookup_r _ _ _ _ _ Hm Hi) as (op & _ & Hs).
  exact (send_request_prepare_kind _ _ _ Hs r ok eq_refl).
Qed.

(** An acknowledgement as an endpoint may send it. *)
Definition sound_ack (p : Prepare) (k : Keeper) (m : Medium) (r : Recipient) (ok : PrepareOk) : Prop :=
  r = To (PeerReplica (primary (k_membership k) (k_view k))) /\
  (exists slot, local_slot_opt (k_membership k) (k_local k) = Some slot /\ ok = prepare_ok k (pp_op p) slot) /\
  pp_view p = k_view k /\ pp_epoch p = m_epoch (k_membership k) /\ k_status k = Normal /\ (k_view k <= k_durable_view k \/ catching_up k = true) /\
  pp_op p <= head_op k /\ pp_op p ∉ ap_appending (k_appends k) /\
  (pp_op p <= k_checkpoint_op k \/ po_prepare_checksum ok = prepare_identity (pp_client p) (pp_request p) (fnv1a_128 (pp_body p))) /\
  (pp_op p <= k_checkpoint_op k \/ wal_status (wal m) (pp_op p) = Clean \/ wal_status (wal m) (pp_op p) = Faulty).

(** The acknowledgements a step adds are sound for the prepare it takes. *)
Definition acks_sound (p : Prepare) (b b' : Endpoint) : Prop :=
  exists out, ep_sent b' = ep_sent b ++ out /\ forall r ok, (r, MPrepareOk ok) ∈ out -> sound_ack p (ep_keeper b') (ep_medium b') r ok.

Lemma acks_none p (b b' : Endpoint) : ep_sent b' = ep_sent b -> acks_sound p b b'.
Proof. intros Hs. exists []. rewrite app_nil_r. split; [done|]. intros r ok ?%elem_of_nil. done. Qed.

Lemma holds_identity (k : Keeper) p : holds k p = true -> held_identity k (pp_op p) = prepare_identity (pp_client p) (pp_request p) (fnv1a_128 (pp_body p)).
Proof.
  unfold holds, held_identity. destruct (bt_get _ _) as [e|]; [|discriminate]. rewrite !andb_true_iff, !Z.eqb_eq, bool_decide_eq_true. intros [[<- <-] Hb].
  assert (Hc : body_checksum (l_body e) = fnv1a_128 (pp_body p)).
  { destruct (l_body e); cbn [body_bytes] in Hb; [injection Hb as <-; reflexivity|discriminate Hb || (injection Hb as <-; reflexivity)|discriminate Hb || (injection Hb as <-; reflexivity)]. }
  rewrite Hc. reflexivity.
Qed.

Lemma reack_sound (b : Endpoint) p b' : let k := ep_keeper b in buffer_keyed (k_buffer k) ->
  pp_view p = k_view k -> pp_epoch p = m_epoch (k_membership k) -> k_status k = Normal -> (k_view k <= k_durable_view k \/ catching_up k = true) ->
  pp_op p <= head_op k -> reack wal_status b p = Some b' -> spliced p (ep_medium b) k (ep_keeper b') /\ acks_sound p b b'.
Proof.
  intros k Hb Hv He Hst Hdv Hop. unfold reack. fold k. cbv zeta. destruct ((pp_op p <=? k_checkpoint_op k) || holds k p) eqn:Hh.
  - destruct (negb _ && _) eqn:Hd; [|intros [= <-]; split; [by apply spliced_same, same_refl|by apply acks_none]].
    apply andb_true_iff in Hd as [Ha%negb_true_iff%bool_decide_eq_false Hd]. intros (Ek & Em & Hs)%send_prepare_ok_sent. fold k in Ek, Hs.
    split; [rewrite Ek; by apply spliced_same, same_refl|]. destruct Hs as [Hs|(slot & Hsl & Hs)]; [by apply acks_none|].
    eexists. split; [exact Hs|]. intros r ok [= -> ->]%list_elem_of_singleton. rewrite Ek, Em. fold k. unfold op_durably_appended in Hd.
    apply orb_true_iff in Hh. apply orb_true_iff in Hd. rewrite Z.leb_le in Hh, Hd. split; [done|]. split; [by exists slot|]. split; [done|]. split; [done|]. split; [done|]. split; [done|].
    split; [done|]. split; [done|]. split; [destruct Hh as [?|Hh]; [by left|right; by apply holds_identity]|]. destruct Hd as [?|Hd]; [by left|right].
    destruct (wal_status _ _); [discriminate|discriminate|by left|by right].
  - apply orb_false_iff in Hh as [Hcp%Z.leb_gt Hh]. case_bool_decide as Ha; cbn [negb]; [intros [= <-]; split; [by apply spliced_same, same_refl|by apply acks_none]|].
    destruct (reappend_canonical_prepare k (ep_medium b) p) as [[k1 m1]|] eqn:Hr; [|done]. cbn [mbind option_bind]. intros [= <-]. split; [|by apply acks_none].
    by apply reappend_spliced in Hr.
Qed.

Lemma place_spliced (b : Endpoint) now p b' : let k := ep_keeper b in buffer_keyed (k_buffer k) ->
  pp_view p = k_view k -> pp_epoch p = m_epoch (k_membership k) -> k_status k = Normal -> (k_view k <= k_durable_view k \/ catching_up k = true) ->
  place_prepare wal_status b now p = Some b' -> (k_status (ep_keeper b') = Recovering \/ spliced p (ep_medium b) k (ep_keeper b')) /\ acks_sound p b b'.
Proof.
  intros k Hb Hv He Hst Hdv. unfold place_prepare. fold k. cbv zeta. destruct (Z.leb_spec (pp_op p) (nd_op (k_node k))) as [Hle|].
  { intros Hr. apply reack_sound in Hr as [? ?]; try done. split; [by right|done]. }
  destruct (Z.eqb_spec (pp_op p) (nd_op (k_node k) + 1)) as [Heq|].
  { intros Hx. apply extend_head_spliced in Hx as [? ?]; try done. split; [done|by apply acks_none]. }
  intros (Ek & _ & out & Hs & Hout)%tail_gap_sent. split.
  - right. rewrite Ek. cbn [ep_keeper set_keeper]. destruct (_ <=? _); [|by apply spliced_same, same_refl]. apply spliced_quiet; try done. by apply keyed_insert.
  - exists out. split; [exact Hs|]. intros r ok Hin. by destruct (Hout r ok).
Qed.

Lemma durable_settled (k : Keeper) : pending_durable_view k = false -> k_view k <= k_durable_view k \/ catching_up k = true.
Proof. unfold pending_durable_view. intros [_ Hd]%orb_false_iff. destruct (Z.ltb_spec (k_durable_view k) (k_view k)); [right|left; lia]. by destruct (catching_up k). Qed.

Lemma same_settled (k k' : Keeper) : same k k' -> k_view k <= k_durable_view k \/ catching_up k = true -> k_view k' <= k_durable_view k' \/ catching_up k' = true.
Proof.
  intros [Hg _]. unfold gen, node_gen in Hg. injection Hg as E1 E2 E3 E4 E5 E6 E7 E8 E9 E10 E11 E12 E13 E14 E15 E16 E17 E18.
  unfold catching_up, k_view. by rewrite E3, E17, E18.
Qed.

Lemma place_view (k k' : Keeper) : place k' = place k -> k_view k' = k_view k /\ k_membership k' = k_membership k /\ k_status k' = k_status k.
Proof. by intros [=]. Qed.

Lemma follow_spliced (b : Endpoint) now p b' : let k := ep_keeper b in buffer_keyed (k_buffer k) ->
  pp_view p = k_view k -> pp_epoch p = m_epoch (k_membership k) -> k_status k = Normal ->
  follow_prepare wal_status b now p = Some b' -> (k_status (ep_keeper b') = Recovering \/ spliced p (ep_medium b) k (ep_keeper b')) /\ acks_sound p b b'.
Proof using cap_fixed.
  intros k Hb Hv He Hst. unfold follow_prepare. fold k. cbv zeta. set (k1 := k_maybe_request_sync k now _). assert (S1 : same k k1) by (apply same_syncer).
  destruct (_ && _); [intros [= <-]; split; [right; by apply spliced_same|by apply acks_none]|].
  destruct (pending_durable_view k1) eqn:Hd; [intros [= <-]; split; [right; by apply spliced_same|by apply acks_none]|]. apply durable_settled in Hd.
  destruct (k_advance_commit k1 (ep_medium b) now (pp_commit p)) as [[[fl k2] m2]|] eqn:Ha; [|done]. cbn [mbind option_bind].
  destruct fl; [|intros [= <-]; split; [left; by apply advance_recovering in Ha|by apply acks_none]]. apply advance_same in Ha.
  pose proof (same_trans _ _ _ S1 Ha) as S2. apply (same_settled _ _ Ha) in Hd. destruct (same_parts _ _ S2) as (P1 & _ & _ & _ & P5 & _).
  destruct (place_view _ _ P1) as (V1 & V2 & V3). intros Hp. apply place_spliced in Hp as [Hp Hk]; cbn [ep_keeper put fst]; [| |by rewrite V1|by rewrite V2|by rewrite V3|done].
  - split; [|destruct Hk as (out & Hs & Hk); by exists out]. destruct Hp as [|Hp]; [by left|right]. apply (spliced_pre _ _ _ k2); [done|]. by eapply spliced_medium.
  - by rewrite P5.
Qed.

(** [on_prepare] below its guards, for either theorem. *)
Lemma on_prepare_step (b : Endpoint) now p b' : let k := ep_keeper b in buffer_keyed (k_buffer k) -> on_prepare wal_status b now p = Some b' ->
  (k_status (ep_keeper b') = Normal -> spliced p (ep_medium b) k (ep_keeper b')) /\ acks_sound p b b'.
Proof using cap_fixed.
  intros k Hb. unfold on_prepare. fold k. destruct (fill_repair _ _ _ p) as [[[fl r] m]|] eqn:Hf; [|done]. cbn [mbind option_bind]. cbv zeta. cbn [ep_keeper put fst].
  destruct (fill_quiet _ _ _ _ _ _ _ Hf) as (F1 & F2 & F3 & F4). set (k1 := with_repairer k r) in *. set (b1 := put b (k1, m)).
  assert (Hq : spliced p (ep_medium b) k k1) by (apply spliced_quiet; [done..|by rewrite F4]).
  destruct fl; [intros [= <-]; split; [done|by apply acks_none]|]. apply fill_false in Hf as [-> ->].
  case_bool_decide; [intros [= <-]; split; [done|by apply acks_none]|]. destruct (Z.eqb_spec (pp_epoch p) (m_epoch (k_membership k1))) as [He|]; cbn [negb]; [|intros [= <-]; split; [done|by apply acks_none]].
  destruct (_ <? _).
  { destruct (catch_up_to_view k1 (ep_medium b) now (pp_view p)) as [[k2 m2]|] eqn:Hc; [|done]. cbn [mbind option_bind]. intros [= <-]. cbn [ep_keeper put fst snd].
    split; [|by apply acks_none]. intros Hn. destruct (catch_up_status _ _ _ _ _ _ Hc) as [[-> _]|Hs]; [done|congruence]. }
  destruct (negb _ || _ || _) eqn:Hg; [intros [= <-]; split; [done|by apply acks_none]|]. apply orb_false_iff in Hg as [Hg _].
  apply orb_false_iff in Hg as [Hst%negb_false_iff Hv%negb_false_iff%Z.eqb_eq]. assert (Hn : k_status k1 = Normal) by (by destruct (k_status k1)).
  intros Hx. apply follow_spliced in Hx as [Hx Hk]; [|exact (eq_ind_r buffer_keyed Hb F4)|exact Hv|exact He|exact Hn].
  split; [|destruct Hk as (out & Hs & Hk); by exists out]. intros Hs. destruct Hx as [Hx|Hx]; [congruence|]. apply (spliced_pre _ _ _ k1); [apply with_same_repairer|done].
Qed.

(** C16. A prepare splices into the log only what may stand there: while the endpoint
    stays normal its place in the protocol is kept, the head rises over whole entries and
    no entry is lost; an entry that changed is the one of the prepare taken or of a
    buffered one, of the endpoint's own view and epoch and no direct voter admission, its
    write submitted under a ring slot no checkpoint still needs, and at or below the old
    head only the given prepare over an uncheckpointed entry that disagrees with it and
    has no write in flight; and the reorder buffer keeps each prepare under its op. *)
Theorem prepares_splice (b : Endpoint) now p b' :
  buffer_keyed (k_buffer (ep_keeper b)) -> on_prepare wal_status b now p = Some b' -> k_status (ep_keeper b') = Normal ->
  spliced p (ep_medium b) (ep_keeper b) (ep_keeper b').
Proof using cap_fixed. intros Hb Hx Hs. by apply on_prepare_step in Hx as [Hx _]; [apply Hx|]. Qed.

(** C17. An acknowledgement is truthful: whatever [on_prepare] acknowledges it sends to the
    primary of its own, durably entered view, from the member's own slot, for the op of
    the prepare it was given, whose operation the log holds (or a checkpoint subsumes),
    whose write is settled in the log store and not in flight. *)
Theorem acks_truthful (b : Endpoint) now p b' :
  buffer_keyed (k_buffer (ep_keeper b)) -> on_prepare wal_status b now p = Some b' -> acks_sound p b b'.
Proof using cap_fixed. intros Hb Hx. by apply on_prepare_step in Hx as [_ Hx]. Qed.

(** A gap filled drains what waited behind it: from a buffer that keys each prepare by
    its op the drain runs until the next prepare is not there or the ring or the header
    band holds it back, appending only buffered prepares of the view and epoch. *)
Theorem drain_exact (k : Keeper) (m : Medium) now k' m' :
  buffer_keyed (k_buffer k) -> drain_buffer (Datatypes.S (length (k_buffer k))) k m now = Some (k', m') ->
  held_back k' m' /\ extends (buffered k) m k k'.
Proof using cap_fixed. intros Hb Hd. split; [apply (drain_runs_dry _ _ _ _ _ _ Hb (Nat.lt_succ_diag_r _) Hd)|by apply (drain_extends _ _ _ m) in Hd as [? _]]. Qed.

(** C19. A commit either continues or tears the endpoint down whole: [advance_commit] and
    [try_commit] that continue leave the view with its standing, the configuration, the
    log and its head, the appends and the reorder buffer as they were, and never take the
    checkpoint back; the one other end is the entry into recovery, from an endpoint of
    that same generation in a settled view, with the status, the owed appends, the
    in-flight tallies and the buffer reset; and the checkpoint debt's own advance,
    re-entered inside the commit, never makes that turn and takes no checkpoint back
    either. *)
Theorem commit_flow_sound (k : Keeper) (b : Endpoint) (m : Medium) now target :
  (forall flow k' m', k_advance_commit k m now target = Some (flow, k', m') ->
     match flow with Continue => gen k' = gen k /\ cp k <= cp k' | EnteredRecovery => torn_down now k k' m' end) /\
  (forall flow b', k_try_commit b now = Some (flow, b') ->
     match flow with
     | Continue => gen (ep_keeper b') = gen (ep_keeper b) /\ cp (ep_keeper b) <= cp (ep_keeper b')
     | EnteredRecovery => torn_down now (ep_keeper b) (ep_keeper b') (ep_medium b')
     end) /\
  (forall k' m', fenced k -> maybe_pay_checkpoint_debt now k m = Some (k', m') -> gen k' = gen k /\ cp k <= cp k').
Proof.
  split_and!.
  - intros flow k' m' Ha. destruct flow; [exact (advance_same _ _ _ _ _ _ Ha)|]. exact (torn_down_of _ _ _ _ (advance_commit_gen _ _ _ _ _ _ _ Ha)).
  - intros flow b' Ha. destruct flow; [split; [exact (try_commit_gen _ _ Continue _ Ha)|by eapply try_commit_cp]|]. exact (torn_down_of _ _ _ _ (try_commit_gen _ _ _ _ Ha)).
  - intros k' m' Hf Hp. split; [by eapply debt_gen|by eapply cp_debt].
Qed.

End generation.

(** ** A landed append *)

Section landing.
Context {S Image W B Walks : Type} `{SX : StateMachine S Image} `{WM : WalModel W} `{SM : SuperblockModel B}.
Context (V : Pending -> Header -> list byte -> Prop).
#[local] Abbreviation Keeper := (@Keeper S).
#[local] Abbreviation Medium := (@Medium W B S Image (gmap Z Session) Walks).
#[local] Abbreviation Endpoint := (@Endpoint S Image W B Walks).

(** A commit sends no acknowledgement. *)
Lemma try_commit_sent (b : Endpoint) now flow b' : k_try_commit b now = Some (flow, b') ->
  exists out, ep_sent b' = ep_sent b ++ out /\ forall r ok, (r, MPrepareOk ok) ∉ out.
Proof.
  assert (Hnil : exists out, ep_sent b = ep_sent b ++ out /\ forall r ok, (r, MPrepareOk ok) ∉ out).
  { exists []. split; [by rewrite app_nil_r|]. intros r ok. apply not_elem_of_nil. }
  unfold k_try_commit. cbv zeta. destruct (negb _); [by intros [= _ <-]|]. destruct (_ || _); [by intros [= _ <-]|].
  destruct (k_try_commit_loop _ _ _ _ _) as [[[adv k1] m1]|]; [|done]. cbn [mbind option_bind].
  destruct (commit_tail _ _ _ _) as [[[fl k3] m3]|]; [|done]. cbn [mbind option_bind]. intros [= _ <-]. destruct (_ && _); [|exact Hnil].
  eexists. split; [reflexivity|]. intros r ok Hin. by apply list_elem_of_singleton in Hin.
Qed.

(** What a landed action may lead to: an acknowledgement only of the op it was owed for,
    and no vote but the own one, for that op. *)
Definition votes_for (action : Pending) (b : Endpoint) (op : OpNumber) : Prop :=
  op = pending_op action /\
  match action with Ack _ | RepairFill _ _ => k_is_primary (ep_keeper b) = true | AdoptVote _ => True | AdoptAck _ => False end.

Definition tallies_led (action : Pending) (b b' : Endpoint) : Prop :=
  forall op inf', bt_get op (nd_inflight (k_node (ep_keeper b'))) = Some inf' ->
    exists inf, bt_get op (nd_inflight (k_node (ep_keeper b))) = Some inf /\ i_prepare_checksum inf' = i_prepare_checksum inf /\
      (i_oks inf' = i_oks inf \/
       votes_for action b op /\ exists slot, local_slot_opt (k_membership (ep_keeper b)) (k_local (ep_keeper b)) = Some slot /\ i_oks inf' = Z.lor (i_oks inf) (bit slot)).

Definition acks_led (action : Pending) (b b' : Endpoint) : Prop :=
  exists out, ep_sent b' = ep_sent b ++ out /\
    forall r ok, (r, MPrepareOk ok) ∈ out -> action = Ack (po_op ok) /\ k_is_primary (ep_keeper b) = false \/ action = AdoptAck (po_op ok).

Definition led_by (action : Pending) (b b' : Endpoint) : Prop := acks_led action b b' /\ tallies_led action b b'.

Lemma acks_silent action (b b' : Endpoint) : (exists out, ep_sent b' = ep_sent b ++ out /\ forall r ok, (r, MPrepareOk ok) ∉ out) -> acks_led action b b'.
Proof. intros (out & Hs & Hn). exists out. split; [done|]. intros r ok Hin. by destruct (Hn r ok). Qed.

Lemma tallies_quiet action (b b' : Endpoint) : tallies_kept (nd_inflight (k_node (ep_keeper b))) (nd_inflight (k_node (ep_keeper b'))) -> tallies_led action b b'.
Proof. intros Ht op inf' (inf & Hi & Ho & Hc)%Ht. exists inf. auto. Qed.

Lemma send_led action (b b' : Endpoint) op : send_prepare_ok b op = Some b' -> (action = Ack op /\ k_is_primary (ep_keeper b) = false \/ action = AdoptAck op) -> led_by action b b'.
Proof.
  intros Hx Ha. pose proof Hx as (_ & _ & Hs)%send_prepare_ok_sent. split.
  - destruct Hs as [Hs|(slot & _ & Hs)].
    + exists []. rewrite app_nil_r. split; [done|]. intros r ok Hin. by apply elem_of_nil in Hin.
    + eexists. split; [exact Hs|]. intros r ok [= -> ->]%list_elem_of_singleton. exact Ha.
  - apply tallies_quiet. revert Hx. unfold send_prepare_ok. destruct (k_is_learner _); [intros [= <-]; apply tallies_refl|]. destruct (op_is_direct_voter_add _ _ _); [intros [= <-]; apply tallies_refl|].
    destruct (local_slot_opt _ _); [|done]. cbn [mbind option_bind]. intros [= <-]. apply tallies_refl.
Qed.

Lemma vote_led action (b : Endpoint) now op flow b' : votes_for action b op -> vote_own b now op = Some (flow, b') -> led_by action b b'.
Proof.
  unfold vote_own. cbv zeta. intros Hv Hx. pose proof (try_commit_commits _ _ _ _ Hx) as [_ Ht]. split.
  { apply try_commit_sent in Hx. by apply acks_silent. }
  intros o inf' (inf & Hi & Ho & Hc)%Ht. cbn [ep_keeper set_keeper k_node with_knode set_log nd_inflight] in Hi. unfold record_own_vote in Hi.
  destruct (endpoint_is_voter _ _); cbn [negb] in Hi; [|exists inf; auto]. destruct (op_is_direct_voter_add _ _ _); [exists inf; auto|].
  destruct (local_slot_opt _ _) as [slot|] eqn:Hs; [|exists inf; auto]. destruct (bt_get op (nd_inflight _)) as [i|] eqn:Hg; [|exists inf; auto].
  rewrite bt_get_insert in Hi. destruct (Z.eqb_spec o op) as [-> |]; [|exists inf; auto]. injection Hi as <-. exists i. split; [done|]. split; [done|].
  right. split; [done|]. by exists slot.
Qed.

Lemma dispatch_led (b : Endpoint) now action flow b' : dispatch_append b now (Some action) = Some (flow, b') -> led_by action b b'.
Proof.
  destruct action as [op|op|op|op e]; cbn [dispatch_append].
  - destruct (k_is_primary (ep_keeper b)) eqn:Hp; [by apply vote_led|]. destruct (send_prepare_ok b op) as [b1|] eqn:Hs; [|done]. cbn [mbind option_bind]. intros [= _ <-].
    eapply send_led; [exact Hs|by left].
  - by apply vote_led.
  - destruct (send_prepare_ok b op) as [b1|] eqn:Hs; [|done]. cbn [mbind option_bind]. intros [= _ <-]. eapply send_led; [exact Hs|by right].
  - unfold land_fill. cbv zeta. set (b0 := set_keeper b _). destruct (_ && _ && _) eqn:Hg.
    + apply andb_true_iff in Hg as [[_ Hp]%andb_true_iff _]. intros Hv. apply (vote_led (RepairFill op e)) in Hv; [exact Hv|]. split; [done|exact Hp].
    + destruct (k_advance_commit _ _ _ _) as [[[fl k1] m1]|] eqn:Ha; [|done]. cbn [mbind option_bind]. intros [= _ <-]. split.
      * apply acks_silent. exists []. split; [by rewrite app_nil_r|]. intros r ok. apply not_elem_of_nil.
      * apply advance_commit_commits in Ha as [_ Ht]. apply tallies_quiet. exact Ht.
Qed.

Lemma resolved_route a (m : Medium) cx d freed action q a' m' : wal_done_route a m cx d freed = Some (Resolved action q, a', m') ->
  m' = m /\ exists id, d = Appended id /\ ap_pending a !! id.2 = action.
Proof.
  unfold wal_done_route. cbv zeta. destruct (is_foreign_completion a (done_op_id d)) as [fo a0] eqn:Hf. destruct fo; [by destruct (release_freed _ _ _) as [[? ?]|]|].
  assert (Hp : ap_pending a0 = ap_pending a) by (revert Hf; unfold is_foreign_completion; destruct (_ =? _); by intros [= <-]).
  destruct (_ || _); [destruct d, freed as [op|]; try done; by destruct (release_deferred_append _ _ _) as [[? ?]|]|].
  destruct (is_retired _); [done|]. destruct d as [id|id| | | |]; try done.
  - intros [= <- _ _ <-]. split; [done|]. exists id. by rewrite Hp.
  - match goal with |- (?o ≫= _) = _ -> _ => destruct o as [[a1 m1]|] end; [|done]. cbn [mbind option_bind]. by destruct (release_freed _ _ _) as [[? ?]|].
Qed.

(** Nothing came of a completion. *)
Definition unmoved (b b' : Endpoint) : Prop :=
  node_gen (k_node (ep_keeper b')) = node_gen (node_appending (k_node (ep_keeper b)) (nd_appending (k_node (ep_keeper b')))) /\
  nd_inflight (k_node (ep_keeper b')) = nd_inflight (k_node (ep_keeper b)) /\
  nd_commit_min (k_node (ep_keeper b')) = nd_commit_min (k_node (ep_keeper b)) /\ ep_sent b' = ep_sent b.

(** The action a completion resolves to, its bytes the last landed in their slot. *)
Definition landed_action (b : Endpoint) (m1 : Medium) (d : WalDone) (action : Pending) : Prop :=
  exists id h body, d = Appended id /\ ap_pending (k_appends (ep_keeper b)) !! id.2 = Some action /\ V action h body /\
    wal_bytes (wal m1) !! id = Some (h, body) /\ slot_write_in_flight m1 (pending_op action) = false /\
    hd_error (wal_landed (wal m1) (canonical_slot m1 (pending_op action))) = Some id.

(** C18. No acknowledgement and no vote before the bytes: along any life of a line of
    endpoints over one storage session, what an endpoint does with a completion it polls
    is either nothing to its log, its tallies, its commit point and its peers, or it acts
    on an append it was owed whose very bytes are the last landed in the op's slot, with
    no write in flight there; then it acknowledges at most that op, as a backup or for an
    adopted tail, and of all its tallies only that op's may gain a vote, its own, as the
    primary or for the tail of the view it starts. *)
Theorem acts_after_landing (b : Endpoint) now d freed m1 b' rest :
  owned V (k_appends (ep_keeper b)) (ep_medium b) -> poll_wal (ep_medium b) = Some (Some (d, freed), m1) ->
  on_wal_done (put b (ep_keeper b, m1)) now d freed = Some (b', rest) ->
  unmoved b b' \/ exists action, landed_action b m1 d action /\ led_by action b b'.
Proof.
  intros Ho Hp. unfold on_wal_done. cbv zeta. cbn [ep_keeper ep_medium put fst snd].
  destruct (wal_done_route (k_appends (ep_keeper b)) m1 _ d freed) as [[[route a] m]|] eqn:Hr; [|done]. cbn [mbind option_bind].
  destruct route as [|d'|action q]; [intros [= <- _]; by left|intros [= <- _]; by left|].
  destruct (resolved_route _ _ _ _ _ _ _ _ _ Hr) as (-> & id & -> & Ha). set (b1 := put (put b (ep_keeper b, m1)) _).
  destruct action as [action|].
  - destruct (dispatch_append b1 now (Some action)) as [[flow b2]|] eqn:Hd; [|done]. cbn [mbind option_bind]. intros Hx. right. exists action. split.
    + destruct (acts_only_on_landed_bytes V _ _ _ _ _ _ _ _ _ _ Ho Hp Hr) as [(id' & h & body & [= <-] & _ & Hf & Hh & Hb & Hv) _].
      exists id, h, body. by split_and!.
    + apply dispatch_led in Hd as [(out & Hs & Hk) Ht]. assert (Hs' : ep_sent b' = ep_sent b2 /\ nd_inflight (k_node (ep_keeper b')) = nd_inflight (k_node (ep_keeper b2))).
      { destruct flow; [|by injection Hx as <- _]. revert Hx. destruct (wal_done_release _ _ _) as [[a' m']|]; [|done]. cbn [mbind option_bind]. by intros [= <- _]. }
      destruct Hs' as [Hs' Hi']. split.
      * exists out. split; [by rewrite Hs'|exact Hk].
      * unfold tallies_led. rewrite Hi'. exact Ht.
  - cbn [dispatch_append mbind option_bind]. destruct (wal_done_release _ _ _) as [[a' m']|]; [|done]. cbn [mbind option_bind]. intros [= <- _]. by left.
Qed.

End landing.
