(* ===== verification/Views.v ===== *)
(** * Installing a view

    The second half of [viewstamp-proto/src/endpoint/view_change.rs] over the endpoint of
    [Prepares]: a prospective primary collects votes and starts the view
    ([on_do_view_change], [start_view_as_new_primary], [start_view_participate]), a replica
    adopts an announced one ([on_start_view], [adopt_canonical_head]) or answers a request
    for it ([on_get_view] of [recovery/mod.rs]), both replace the log ([adopt_log]) and
    drive its uncommitted tail back into the log store ([adopt_append],
    [start_view_acks], [retry_unappended_adopted_tail]); and a landed view root releases
    what was held back for it ([on_sb_done] of [checkpoint.rs] with its dispatch).

    Vote collection and selection themselves are [ViewChange]'s, resets and roots are
    [Roots]'.  A fail-stop is [None]; a [debug_assert!] is left out. *)

From S2P Require Import Prelude Core Hash Membership Codec Message Messages BTree ViewChange Votes Proposals Sessions Normal Storage Lane Blocks SessionBlocks BlockJobs Medium Appends Serve Repair SyncTrigger Roots Life Prepares.

Section views.
Context {S Image W B Walks : Type} `{StateMachine S Image} `{Wal W} `{Superblock B}.
Context (wal_status : W -> OpNumber -> SlotStatus).
#[local] Abbreviation Node := (@Node S).
#[local] Abbreviation Keeper := (@Keeper S).
#[local] Abbreviation Medium := (@Medium W B S Image (gmap Z Session) Walks).
#[local] Abbreviation Endpoint := (@Endpoint S Image W B Walks).

Definition k_voter (k : Keeper) (slot : ReplicaId) : Voter :=
  mkVoter (k_view k) (k_log_view k) (nd_op (k_node k)) (nd_commit_max (k_node k)) (k_log_floor k) (k_membership k) slot (nd_log (k_node k)).

Definition with_log (k : Keeper) (log : btree LogEntry) : Keeper :=
  with_knode k (set_log (k_node k) log (nd_inflight (k_node k)) (nd_repair (k_node k))).
Definition with_repair (k : Keeper) (r : gset Z) : Keeper :=
  with_knode k (set_log (k_node k) (nd_log (k_node k)) (nd_inflight (k_node k)) r).
Definition with_inflight (k : Keeper) (i : btree Inflight) : Keeper :=
  with_knode k (set_log (k_node k) (nd_log (k_node k)) i (nd_repair (k_node k))).
Definition with_clients (k : Keeper) (t : gmap Z Session) : Keeper :=
  with_knode k (node_generation (k_node k) t (nd_inflight (k_node k))).

(** ** Adopting a log *)

(** A body held for an entry that arrives without one, if its bytes are the same. *)
Definition preserve (log : btree LogEntry) (kept : btree Body) (e : PreparedEntry) : btree Body :=
  match bt_get (e_op e) log with
  | Some held =>
      if entry_is_repairing e && is_body_bearing (l_body held) && (body_checksum (l_body held) =? body_checksum (e_body e))
      then bt_insert (e_op e) (l_body held) kept else kept
  | None => kept
  end.

(** A preserved body is taken by the first entry of its op. *)
Definition place_entry (acc : btree Body * btree LogEntry) (e : PreparedEntry) : btree Body * btree LogEntry :=
  let '(kept, log) := acc in
  (bt_remove (e_op e) kept, bt_insert (e_op e) (mkLogEntry (e_client e) (e_request e) (default (e_body e) (bt_get (e_op e) kept))) log).

Definition adopt_entries (log : btree LogEntry) (floor applied : OpNumber) (entries : list PreparedEntry) : btree LogEntry :=
  let kept := foldl (preserve log) [] entries in
  let supplied op := existsb (fun e => e_op e =? op) entries in
  let retained := List.filter (fun x => (floor <? x.1) && (x.1 <=? applied) && negb (supplied x.1)) log in
  (foldl place_entry (kept, retained) entries).2.

Definition adopt_log (k : Keeper) (entries : list PreparedEntry) (floor : OpNumber) : option Keeper :=
  if committed_survives k floor floor then
    let k := with_log k (adopt_entries (nd_log (k_node k)) floor (nd_commit_min (k_node k)) entries) in
    Some (with_clients k (reconcile_session_watermarks (map snd (nd_log (k_node k))) (nd_clients (k_node k))))
  else None.

(** ** The tail in the log store *)

Definition adopt_append (k : Keeper) (m : Medium) (op : OpNumber) (kind : Pending) : option (Keeper * Medium) :=
  match bt_get op (nd_log (k_node k)) with
  | None => Some (k, m)
  | Some e =>
      match body_bytes (l_body e) with
      | None => Some (k, m)
      | Some body =>
          if ring_append_would_wrap (k_repairer k) (normal_ctx k) m op then Some (k, m)
          else
            '(a, m) ← submit_or_defer_append (k_appends k) m op (header_new op (k_view k) (l_client e) (l_request e) body) body kind;
            Some (mark_appending (with_owned_appends k a) op, m)
      end
  end.

Fixpoint adopt_appends (kind : OpNumber -> Pending) (ops : list OpNumber) (k : Keeper) (m : Medium) : option (Keeper * Medium) :=
  match ops with [] => Some (k, m) | op :: ops => '(k, m) ← adopt_append k m op (kind op); adopt_appends kind ops k m end.

(** The ops above both commit frontiers. *)
Definition uncommitted_tail (k : Keeper) : list OpNumber :=
  let lo := Z.max (nd_commit_min (k_node k)) (nd_commit_max (k_node k)) in seqZ (lo + 1) (nd_op (k_node k) - lo).

Definition start_view_acks (k : Keeper) (m : Medium) : option (Keeper * Medium) := adopt_appends AdoptAck (uncommitted_tail k) k m.

Fixpoint retry_ops (ops : list OpNumber) (k : Keeper) (m : Medium) : option (Keeper * Medium) :=
  match ops with
  | [] => Some (k, m)
  | op :: ops =>
      if bool_decide (op ∈ ap_appending (k_appends k)) || op_durably_appended wal_status k m op then retry_ops ops k m
      else '(k, m) ← adopt_append k m op (if k_is_primary k then AdoptVote op else AdoptAck op); retry_ops ops k m
  end.

Definition retry_unappended_adopted_tail (k : Keeper) (m : Medium) : option (Keeper * Medium) :=
  if negb (is_normal (k_status k)) || pending_durable_view k then Some (k, m) else retry_ops (uncommitted_tail k) k m.

Definition truncate_wal_above_adopted_head (k : Keeper) (m : Medium) : option (Keeper * Medium) :=
  let op := nd_op (k_node k) in
  if committed_survives k (op + 1) (k_checkpoint_op k) then
    '(cancelled, m) ← truncate m op;
    '(a, m) ← absorb_wal_cancellations (k_appends k) m cancelled;
    Some (with_owned_appends k a, m)
  else None.

(** ** Starting a view *)

(** [request_repair] with its escalation. *)
Definition k_request_repair (b : Endpoint) (now : Z) (op : OpNumber) : option Endpoint :=
  let k := ep_keeper b in
  '(out, r) ← request_repair (k_repairer k) now op;
  Some (send (set_keeper b (k_maybe_force_sync (with_repairer k r) now)) out).

Fixpoint request_repairs (b : Endpoint) (now : Z) (ops : list OpNumber) : option Endpoint :=
  match ops with [] => Some b | op :: ops => b ← k_request_repair b now op; request_repairs b now ops end.

(** The selected log in place of the held one. *)
Definition form_log (k : Keeper) : option (Selection * Keeper) :=
  vc ← p_view_change (k_posture k);
  s ← select_canonical_log (k_membership k) (map snd (vc_dvc_from vc));
  k ← adopt_log (with_frontier k (raise_log_floor (k_frontier k) (s_floor s))) (s_log s) (s_floor s);
  let k := with_knode k (node_frontier (k_node k) (s_op_head s) (nd_commit_min (k_node k)) (s_commit s)) in
  Some (s, with_repair k (filter (fun op => existsb (fun e => e_op e =? op) (s_log s) = false) (nd_repair (k_node k)))).

(** An uncommitted op the log lacks ends it. *)
Definition close_gap (k : Keeper) (commit_star : OpNumber) : option Keeper :=
  let n := k_node k in
  match List.find (fun op => negb (is_some (bt_get op (nd_log n)))) (seqZ (commit_star + 1) (nd_op n - commit_star)) with
  | Some gap =>
      if committed_survives k gap (k_checkpoint_op k) then
        let k := with_knode k (node_frontier n (gap - 1) (nd_commit_min n) (nd_commit_max n)) in
        let k := with_log k (List.filter (fun x => x.1 <=? gap - 1) (nd_log n)) in
        Some (with_repair k (filter (fun op => op <= gap - 1) (nd_repair n)))
      else None
  | None => Some k
  end.

Definition backfill_sessions (k : Keeper) : Keeper :=
  let n := k_node k in
  let t := backfill (map snd (List.filter (fun x => x.1 <=? nd_op n) (nd_log n))) (nd_clients n) in
  with_clients k (reconcile_session_watermarks (map snd (nd_log n)) t).

(** The view is the log's; the collection and the forfeit are over. *)
Definition open_new_view (k : Keeper) : Keeper :=
  let k := set_status (set_log_view k (k_view k)) Normal in
  let k := push_event k (ViewChanged (k_view k) true) in
  let p := k_posture k in
  with_posture k (mkPosture (p_status p) (p_log_view p) (p_durable_view p) None (p_svc_target p) (p_svc_from p) false).

Definition repairing_tail (k : Keeper) : list OpNumber :=
  let n := k_node k in
  map fst (List.filter (fun x => (nd_commit_min n <? x.1) && (x.1 <=? nd_op n) && is_repairing (l_body x.2)) (nd_log n)).

(** One op of the new pipeline: no vote yet, the own one owed to its append. *)
Definition seed_op (k : Keeper) (m : Medium) (op : OpNumber) : option (Keeper * Medium) :=
  let k := with_inflight k (bt_insert op (mkInflight 0 false (held_identity k op)) (nd_inflight (k_node k))) in
  adopt_append k m op (AdoptVote op).

Fixpoint seed_ops (ops : list OpNumber) (k : Keeper) (m : Medium) : option (Keeper * Medium) :=
  match ops with [] => Some (k, m) | op :: ops => '(k, m) ← seed_op k m op; seed_ops ops k m end.

Definition seed_pipeline (k : Keeper) (m : Medium) : option (Keeper * Medium) :=
  let k := with_inflight k [] in
  let n := k_node k in
  seed_ops (seqZ (nd_commit_max n + 1) (nd_op n - nd_commit_max n)) k m.

Definition start_view_as_new_primary (b : Endpoint) (now : Z) : option Endpoint :=
  '(s, k) ← form_log (ep_keeper b);
  '(flow, k, m) ← k_advance_commit k (ep_medium b) now (s_commit s);
  match flow with
  | EnteredRecovery => Some (put b (k, m))
  | Continue =>
      k ← close_gap k (s_commit s);
      '(k, m) ← truncate_wal_above_adopted_head k m;
      let k := open_new_view (backfill_sessions k) in
      b ← request_repairs (put b (k, m)) now (repairing_tail k);
      '(k, m) ← seed_pipeline (ep_keeper b) (ep_medium b);
      km ← submit_durable_view k m StartViewAsPrimary;
      Some (put b km)
  end.

Definition k_on_do_view_change (b : Endpoint) (now : Z) (v : DoViewChange) : option Endpoint :=
  let k := ep_keeper b in
  if negb (d_view v =? k_view k) then Some b
  else
    slot ← local_slot_opt (k_membership k) (k_local k);
    let vc := default (entering false) (p_view_change (k_posture k)) in
    match ViewChange.on_do_view_change (k_voter k slot) (k_status k) (vc_dvc_quorum vc) (f_peer_checkpoint (k_frontier k)) (vc_dvc_from vc) v with
    | None => Some b
    | Some (votes, _, formed) =>
        if negb (is_some (p_view_change (k_posture k))) then None
        else
          k ← k_record_peer_checkpoint k (d_replica v) (d_checkpoint_op v);
          let b := set_keeper b (set_collection k (Some (mkCollection votes (vc_dvc_quorum vc) (vc_catching_up vc) (vc_catchup_windows vc)))) in
          if formed then start_view_as_new_primary b now else Some b
    end.

Definition k_send_do_view_change (b : Endpoint) : option Endpoint :=
  let k := ep_keeper b in
  if negb (endpoint_is_voter (k_membership k) (k_local k)) then Some b
  else
    slot ← local_slot_opt (k_membership k) (k_local k);
    Some (send b [(To (PeerReplica (primary (k_membership k) (k_view k))), MDoViewChange (own_dvc (k_voter k slot)))]).

Definition start_view (k : Keeper) (slot : ReplicaId) : StartView :=
  let n := k_node k in
  mkStartView (k_view k) (nd_op n) (nd_commit_max n) (k_log_floor k) (m_epoch (k_membership k)) (m_config_id (k_membership k)) slot (log_entries (nd_log n)).

(** The view is durable: it is announced. *)
Definition start_view_participate (b : Endpoint) (now : Z) : option Endpoint :=
  let k := ep_keeper b in
  if negb (k_is_primary k) then Some b
  else
    k ← maybe_adopt_inherited_frontier k;
    '(entered, k, m) ← maybe_enter_orphan_repersist_recovery k (ep_medium b) now;
    if entered : bool then Some (put b (k, m))
    else
      let '(owed, k) := repersist_orphan_owed k in
      if is_some owed then Some (put b (k, m))
      else
        slot ← local_slot_opt (k_membership k) (k_local k);
        '(_, b) ← k_try_commit (send (put b (k, m)) [(Backups, MStartView (start_view k slot))]) now;
        Some b.

(** ** Adopting a view *)

Definition adopt_canonical_head (k : Keeper) (m : Medium) (now : Z) (view : View) (op commit checkpoint_op : OpNumber)
    (entries : list PreparedEntry) : option (CommitFlow * Keeper * Medium) :=
  if (op <? commit) || (op <? nd_commit_min (k_node k)) then None
  else
    let floor := Z.min checkpoint_op commit in
    let k := set_view k view in
    k ← adopt_log (with_frontier k (raise_log_floor (k_frontier k) floor)) entries floor;
    let k := with_knode k (node_frontier (k_node k) op (nd_commit_min (k_node k)) (nd_commit_max (k_node k))) in
    let k := with_repair k (filter (fun op => bt_get op (nd_log (k_node k)) = None) (nd_repair (k_node k))) in
    '(flow, k, m) ← k_advance_commit k m now commit;
    match flow with
    | EnteredRecovery => Some (EnteredRecovery, k, m)
    | Continue =>
        let '(owed, k) := if is_recovering_head (k_status k) then repersist_orphan_owed k else (None, k) in
        if is_some owed then '(k, m) ← enter_orphan_repersist_recovery k m now; Some (EnteredRecovery, k, m)
        else '(k, m) ← settle_adopted_head k m now floor; Some (Continue, k, m)
    end.

Definition on_start_view (b : Endpoint) (now : Z) (v : StartView) : option Endpoint :=
  let k := ep_keeper b in
  if (sv_view v <? k_view k) || ((sv_view v =? k_view k) && is_normal (k_status k)) then Some b
  else if negb (sv_replica v =? primary (k_membership k) (sv_view v)) then Some b
  else if sync_repersist_root_staged k then Some b
  else
    '(flow, k, m) ← adopt_canonical_head k (ep_medium b) now (sv_view v) (sv_op v) (sv_commit v) (sv_checkpoint_op v) (sv_log v);
    match flow with
    | EnteredRecovery => Some (put b (k, m))
    | Continue => km ← truncate_wal_above_adopted_head k m; Some (put b km)
    end.

Definition on_get_view (b : Endpoint) (g : GetView) : option Endpoint :=
  let '(owed, k) := repersist_orphan_owed (ep_keeper b) in
  let b := set_keeper b k in
  if is_some owed then Some b
  else if participates_as_primary (k_node k) (normal_ctx k) && (gv_view g <=? k_view k) then
    slot ← local_slot_opt (k_membership k) (k_local k);
    Some (send b [(To (PeerReplica (gv_replica g)), MStartView (start_view k slot))])
  else Some b.

(** ** A superblock completion, to its end *)

(** The routes into recovery, serving and sync completion are returned to their owners. *)
Definition sb_done_dispatch (b : Endpoint) (now : Z) (r : SbRoute) : option Endpoint :=
  match r with
  | RouteSendDoViewChange => k_send_do_view_change b
  | RouteStartViewParticipate =>
      b ← start_view_participate b now;
      km ← retry_unappended_adopted_tail (ep_keeper b) (ep_medium b); Some (put b km)
  | RouteStartViewAcks => km ← start_view_acks (ep_keeper b) (ep_medium b); Some (put b km)
  | RouteRetryTail => km ← retry_unappended_adopted_tail (ep_keeper b) (ep_medium b); Some (put b km)
  | _ => Some b
  end.

Definition sb_done (b : Endpoint) (now : Z) (done : SuperblockDone) (landed : option (RootRole * WriteId * VsrState)) : option (SbRoute * Endpoint) :=
  '(r, k, m) ← on_sb_done (ep_keeper b) (ep_medium b) now done landed;
  b ← sb_done_dispatch (put b (k, m)) now r;
  km ← sb_done_tail r (ep_keeper b) (ep_medium b);
  Some (r, put b km).

End views.

(** ** The adopted log *)

Lemma bt_remove_keyed {V} k (t : btree V) : bt_sorted t -> bt_sorted (bt_remove k t) /\ bt_get k (bt_remove k t) = None.
Proof.
  intros Hs. assert (Hr : bt_sorted (bt_remove k t)).
  { induction t as [|[k0 v0] t IH]; [done|]. cbn. apply bt_sorted_cons in Hs as [Hs Hall]. destruct (k =? k0); [done|].
    apply bt_sorted_cons. split; [by apply IH|]. rewrite Forall_forall in Hall |- *. intros x Hx%bt_remove_sub. by apply Hall. }
  split; [done|]. destruct (bt_get k (bt_remove k t)) eqn:Hg; [|done]. by apply bt_get_remove_some in Hg as [? _].
Qed.

Lemma bt_filter_sorted {V} (f : Z * V -> bool) (t : btree V) : bt_sorted t -> bt_sorted (List.filter f t).
Proof.
  intros Hs. induction t as [|[k0 v0] t IH]; [done|]. apply bt_sorted_cons in Hs as [Hs Hall]. cbn. destruct (f (k0, v0)); [|by apply IH].
  apply bt_sorted_cons. split; [by apply IH|]. rewrite Forall_forall in Hall |- *. intros x [Hx _]%list_elem_of_In%List.filter_In. apply Hall. by apply list_elem_of_In.
Qed.

Lemma bt_get_keep {V} (f : Z * V -> bool) (g : Z -> bool) (t : btree V) k : (forall x v, f (x, v) = g x) ->
  bt_get k (List.filter f t) = if g k then bt_get k t else None.
Proof.
  intros Hf. induction t as [|[k0 v0] t IH]; [by destruct (g k)|]. cbn. rewrite Hf. destruct (Z.eqb_spec k k0) as [-> |Hn].
  - destruct (g k0) eqn:Hg; cbn; [by rewrite Z.eqb_refl|]. by rewrite IH.
  - destruct (g k0); cbn; [|done]. destruct (Z.eqb_spec k k0); [done|]. exact IH.
Qed.

(** What an entry becomes in the log of the adopter. *)
Definition adopted (log : btree LogEntry) (e : PreparedEntry) : LogEntry :=
  mkLogEntry (e_client e) (e_request e)
    match bt_get (e_op e) log with
    | Some held =>
        if entry_is_repairing e && is_body_bearing (l_body held) && (body_checksum (l_body held) =? body_checksum (e_body e)) then l_body held else e_body e
    | None => e_body e
    end.

Lemma preserve_get log (es : list PreparedEntry) kept : NoDup (map e_op es) ->
  forall e, e ∈ es -> default (e_body e) (bt_get (e_op e) (foldl (preserve log) kept es)) =
    match bt_get (e_op e) log with
    | Some held => if entry_is_repairing e && is_body_bearing (l_body held) && (body_checksum (l_body held) =? body_checksum (e_body e))
                   then l_body held else default (e_body e) (bt_get (e_op e) kept)
    | None => default (e_body e) (bt_get (e_op e) kept)
    end.
Proof.
  assert (Hout : forall es kept op, op ∉ map e_op es -> bt_get op (foldl (preserve log) kept es) = bt_get op kept).
  { clear es kept. intros es. induction es as [|x es IH]; intros kept op Hn; [done|]. cbn in *. apply not_elem_of_cons in Hn as [Hx Hn]. rewrite IH by done.
    unfold preserve. destruct (bt_get (e_op x) log); [|done]. destruct (_ && _ && _); [|done]. rewrite bt_get_insert. by destruct (Z.eqb_spec op (e_op x)). }
  revert kept. induction es as [|x es IH]; intros kept Hnd e He; [by apply elem_of_nil in He|]. cbn in *. apply NoDup_cons in Hnd as [Hx Hnd].
  apply elem_of_cons in He as [-> |He].
  - rewrite Hout by done. unfold preserve. destruct (bt_get (e_op x) log) as [held|]; [|done]. destruct (_ && _ && _); [|done]. by rewrite bt_get_insert, Z.eqb_refl.
  - rewrite (IH _ Hnd e He). assert (Hne : e_op e <> e_op x).
    { intros Heq. apply Hx. rewrite <- Heq. apply list_elem_of_fmap. by exists e. }
    assert (Hp : bt_get (e_op e) (preserve log kept x) = bt_get (e_op e) kept).
    { unfold preserve. destruct (bt_get (e_op x) log); [|done]. destruct (_ && _ && _); [|done]. rewrite bt_get_insert. by destruct (Z.eqb_spec (e_op e) (e_op x)). }
    by rewrite Hp.
Qed.

Lemma place_other (es : list PreparedEntry) : forall kept log op, op ∉ map e_op es ->
  bt_get op (foldl place_entry (kept, log) es).2 = bt_get op log /\ bt_get op (foldl place_entry (kept, log) es).1 = bt_get op kept.
Proof.
  induction es as [|x es IH]; intros kept log op Hn; [done|]. cbn in *. apply not_elem_of_cons in Hn as [Hx Hn]. destruct (IH (bt_remove (e_op x) kept)
    (bt_insert (e_op x) (mkLogEntry (e_client x) (e_request x) (default (e_body x) (bt_get (e_op x) kept))) log) op Hn) as [-> ->].
  rewrite bt_get_insert, bt_get_remove_other by done. by destruct (Z.eqb_spec op (e_op x)).
Qed.

Lemma place_get (es : list PreparedEntry) : forall kept log e, NoDup (map e_op es) -> e ∈ es ->
  bt_get (e_op e) (foldl place_entry (kept, log) es).2 = Some (mkLogEntry (e_client e) (e_request e) (default (e_body e) (bt_get (e_op e) kept))).
Proof.
  induction es as [|x es IH]; intros kept log e Hnd He; [by apply elem_of_nil in He|]. cbn in *. apply NoDup_cons in Hnd as [Hx Hnd].
  apply elem_of_cons in He as [-> |He].
  - rewrite (proj1 (place_other es _ _ (e_op x) Hx)), bt_get_insert, Z.eqb_refl. done.
  - rewrite (IH _ _ e Hnd He). rewrite bt_get_remove_other; [done|]. intros Heq. apply Hx. rewrite <- Heq. apply list_elem_of_fmap. by exists e.
Qed.

(** The adopted log by op: the entry announced for it, its body kept where the bytes are
    held; of the rest only what is applied above the floor. *)
Lemma adopt_entries_get log floor applied (es : list PreparedEntry) : NoDup (map e_op es) ->
  (forall e, e ∈ es -> bt_get (e_op e) (adopt_entries log floor applied es) = Some (adopted log e)) /\
  (forall op, op ∉ map e_op es -> bt_get op (adopt_entries log floor applied es) = if (floor <? op) && (op <=? applied) then bt_get op log else None).
Proof.
  intros Hnd. unfold adopt_entries. split.
  - intros e He. rewrite (place_get _ _ _ _ Hnd He), (preserve_get log es [] Hnd e He). reflexivity.
  - intros op Hn. rewrite (proj1 (place_other es _ _ op Hn)).
    rewrite (bt_get_keep _ (fun x => (floor <? x) && (x <=? applied) && negb (existsb (fun e => e_op e =? x) es))) by done.
    assert (Hx : existsb (fun e => e_op e =? op) es = false).
    { apply not_true_is_false. intros (e & He & Heq%Z.eqb_eq)%List.existsb_exists. apply Hn. apply list_elem_of_fmap. exists e. split; [done|]. by apply list_elem_of_In. }
    by rewrite Hx, andb_true_r.
Qed.

(** Adopting changes no operation. *)
Definition same_operation (e : PreparedEntry) (l : LogEntry) : Prop :=
  l_client l = e_client e /\ l_request l = e_request e /\ body_checksum (l_body l) = body_checksum (e_body e).

Lemma adopted_operation log e : same_operation e (adopted log e).
Proof.
  unfold adopted, same_operation. cbn. split; [done|]. split; [done|]. destruct (bt_get (e_op e) log) as [held|]; [|done].
  destruct (_ && _ && _) eqn:Hk; [|done]. apply andb_true_iff in Hk as [_ Hk]. by apply Z.eqb_eq in Hk.
Qed.

(** ** The new primary *)

Section install.
Context {S Image W B Walks : Type} `{StateMachine S Image} `{Wal W} `{Superblock B}.
Context (wal_status : W -> OpNumber -> SlotStatus).
#[local] Abbreviation Node := (@Node S).
#[local] Abbreviation Keeper := (@Keeper S).
#[local] Abbreviation Medium := (@Medium W B S Image (gmap Z Session) Walks).
#[local] Abbreviation Endpoint := (@Endpoint S Image W B Walks).

(** What the steps of an installation after the log leave alone. *)
Definition installed (k : Keeper) :=
  (k_membership k, k_view k, head_op k, nd_log (k_node k), (k_status k, k_log_view k), (nd_commit_min (k_node k), nd_commit_max (k_node k))).

Lemma installed_appends (k : Keeper) a : installed (with_owned_appends k a) = installed k.
Proof. done. Qed.

Lemma adopt_append_installed (k : Keeper) (m : Medium) op kind k' m' : adopt_append k m op kind = Some (k', m') ->
  installed k' = installed k /\ nd_inflight (k_node k') = nd_inflight (k_node k).
Proof.
  unfold adopt_append. destruct (bt_get op (nd_log (k_node k))) as [e|]; [|by intros [= <- _]]. destruct (body_bytes (l_body e)); [|by intros [= <- _]].
  destruct (ring_append_would_wrap _ _ _ _); [by intros [= <- _]|]. destruct (submit_or_defer_append _ _ _ _ _ _) as [[a m1]|]; [|done]. cbn [mbind option_bind]. by intros [= <- _].
Qed.

(** The pipeline of a new view: every op of the tail, unvoted, under its identity. *)
Lemma seed_ops_spec (ops : list OpNumber) : forall (k : Keeper) (m : Medium) k' m', seed_ops ops k m = Some (k', m') ->
  installed k' = installed k /\
  forall op, bt_get op (nd_inflight (k_node k')) = if bool_decide (op ∈ ops) then Some (mkInflight 0 false (held_identity k op)) else bt_get op (nd_inflight (k_node k)).
Proof.
  induction ops as [|o ops IH]; intros k m k' m'; cbn [seed_ops]; [intros [= <- _]; split; [done|]; intros op; by rewrite bool_decide_eq_false_2 by apply not_elem_of_nil|].
  unfold seed_op. set (k1 := with_inflight k _). destruct (adopt_append k1 m o _) as [[k2 m2]|] eqn:Ha; [|done]. cbn [mbind option_bind].
  apply adopt_append_installed in Ha as [Hi Hf]. intros Hs. apply IH in Hs as [Hi' Hf']. assert (Hik : installed k2 = installed k) by (etransitivity; [exact Hi|done]).
  assert (Hid : forall op, held_identity k2 op = held_identity k op).
  { intros op. unfold held_identity. by rewrite (f_equal (fun t => t.1.1.2) Hik : nd_log (k_node k2) = nd_log (k_node k)). }
  split; [congruence|]. intros op. rewrite Hf', Hid, Hf. change (nd_inflight (k_node k1)) with (bt_insert o (mkInflight 0 false (held_identity k o)) (nd_inflight (k_node k))).
  rewrite bt_get_insert. destruct (decide (op ∈ ops)) as [Hin|Hn].
  - rewrite !bool_decide_eq_true_2; [done|by right|done].
  - rewrite (bool_decide_eq_false_2 (op ∈ ops)) by done. destruct (Z.eqb_spec op o) as [-> |].
    + rewrite bool_decide_eq_true_2; [done|by left].
    + rewrite bool_decide_eq_false_2; [done|]. by apply not_elem_of_cons.
Qed.

Lemma truncate_installed (k : Keeper) (m : Medium) k' m' : truncate_wal_above_adopted_head k m = Some (k', m') ->
  installed k' = installed k /\ nd_inflight (k_node k') = nd_inflight (k_node k).
Proof.
  unfold truncate_wal_above_adopted_head. cbv zeta. destruct (committed_survives _ _ _); [|done]. destruct (truncate m _) as [[c m1]|]; [|done]. cbn [mbind option_bind].
  destruct (absorb_wal_cancellations _ _ _) as [[a m2]|]; [|done]. cbn [mbind option_bind]. by intros [= <- _].
Qed.

Lemma submit_installed (k : Keeper) (m : Medium) act k' m' : submit_durable_view k m act = Some (k', m') ->
  installed k' = installed k /\ nd_inflight (k_node k') = nd_inflight (k_node k) /\ exists id, k_pending_sb k' = Some (id, act).
Proof.
  unfold submit_durable_view. cbv zeta. destruct (durable_root _ _ _ _ _ _ _ _) as [st|]; [|done]. cbn [mbind option_bind].
  destruct (mint k) as [[id k1]|] eqn:Hm; [|done]. cbn [mbind option_bind]. destruct (submit_root _ _ _ _); [|done]. cbn [mbind option_bind]. intros [= <- _].
  unfold mint, mint_write_id in Hm. destruct (_ <? _); [|done]. cbn [mbind option_bind] in Hm. injection Hm as <- <-. split; [done|]. split; [done|]. by eexists.
Qed.

Lemma force_sync_installed (k : Keeper) now : installed (k_maybe_force_sync k now) = installed k.
Proof. unfold k_maybe_force_sync. by destruct (maybe_force_sync _ _ _ _ _ _) as [[[y p] r] t]. Qed.

(** Only solicitations for entries without a body. *)
Definition solicits (out : list (Recipient * Message)) : Prop := forall r x, (r, x) ∈ out -> exists q, x = MRequestPrepare q.

Lemma solicits_app a c : solicits a -> solicits c -> solicits (a ++ c).
Proof. intros Ha Hc r x [?|?]%elem_of_app; eauto. Qed.

Lemma request_repair_installed (b : Endpoint) now op b' : (exists e, bt_get op (nd_log (k_node (ep_keeper b))) = Some e /\ is_repairing (l_body e) = true) ->
  k_request_repair b now op = Some b' ->
  installed (ep_keeper b') = installed (ep_keeper b) /\ ep_medium b' = ep_medium b /\ exists out, ep_sent b' = ep_sent b ++ out /\ solicits out.
Proof.
  intros (e & He & Hr). unfold k_request_repair, request_repair. cbv zeta. cbn [rr_node k_repairer]. unfold drop_stale. rewrite He, Hr.
  unfold send_request_prepare. destruct (node_slot _) as [slot|]; [|done]. cbn [mbind option_bind]. intros [= <-]. split; [|split; [done|]].
  - cbn [ep_keeper send set_keeper]. rewrite force_sync_installed. done.
  - eexists. split; [reflexivity|]. intros r x Hin. apply list_elem_of_singleton in Hin. injection Hin as _ ->. by eexists.
Qed.

Lemma request_repairs_installed now (ops : list OpNumber) : forall (b b' : Endpoint),
  (forall op, op ∈ ops -> exists e, bt_get op (nd_log (k_node (ep_keeper b))) = Some e /\ is_repairing (l_body e) = true) ->
  request_repairs b now ops = Some b' ->
  installed (ep_keeper b') = installed (ep_keeper b) /\ ep_medium b' = ep_medium b /\ exists out, ep_sent b' = ep_sent b ++ out /\ solicits out.
Proof.
  induction ops as [|op ops IH]; intros b b' Hops; cbn [request_repairs].
  { intros [= <-]. split; [done|]. split; [done|]. exists []. rewrite app_nil_r. split; [done|]. intros r x Hx. by apply elem_of_nil in Hx. }
  destruct (k_request_repair b now op) as [b1|] eqn:Hr; [|done]. cbn [mbind option_bind]. apply request_repair_installed in Hr as (Hi & Hm & out & Hs & Ho); [|apply Hops; by left].
  assert (Hl : nd_log (k_node (ep_keeper b1)) = nd_log (k_node (ep_keeper b))) by exact (f_equal (fun t => t.1.1.2) Hi).
  intros Hx. apply IH in Hx as (Hi' & Hm' & out' & Hs' & Ho'); [|intros o Ho'; rewrite Hl; apply Hops; by right].
  split; [congruence|]. split; [congruence|]. exists (out ++ out'). rewrite Hs', Hs, app_assoc. split; [done|]. by apply solicits_app.
Qed.

Lemma form_log_spec (k : Keeper) s k' : form_log k = Some (s, k') -> exists vc, p_view_change (k_posture k) = Some vc /\
  select_canonical_log (k_membership k) (map snd (vc_dvc_from vc)) = Some s /\
  nd_log (k_node k') = adopt_entries (nd_log (k_node k)) (s_floor s) (nd_commit_min (k_node k)) (s_log s) /\ head_op k' = s_op_head s /\
  k_membership k' = k_membership k /\ k_view k' = k_view k.
Proof.
  unfold form_log. destruct (p_view_change (k_posture k)) as [vc|]; [|done]. cbn [mbind option_bind]. destruct (select_canonical_log _ _) as [s'|] eqn:Hs; [|done].
  cbn [mbind option_bind]. unfold adopt_log. destruct (committed_survives _ _ _); [|done]. cbn [mbind option_bind]. intros [= <- <-]. exists vc.
  split; [done|]. split; [exact Hs|]. by split_and!.
Qed.

Lemma find_none {A} (f : A -> bool) l x : List.find f l = None -> x ∈ l -> f x = false.
Proof. intros Hf Hx. apply list_elem_of_In in Hx. by apply (List.find_none f l Hf x). Qed.


Lemma find_first_nat (f : Z -> bool) (n : nat) : forall lo x, List.find f (seqZ lo (Z.of_nat n)) = Some x -> f x = true /\ lo <= x < lo + Z.of_nat n /\ forall y, lo <= y < x -> f y = false.
Proof.
  induction n as [|n IH]; intros lo x; [done|]. rewrite Nat2Z.inj_succ, seqZ_cons by lia. cbn. destruct (f lo) eqn:Hf; [intros [= <-]; split; [done|]; split; [lia|lia]|].
  replace (Z.pred (Z.succ (Z.of_nat n))) with (Z.of_nat n) by lia. intros (Hx & Hb & Hy)%IH. split; [done|]. split; [lia|]. intros y Hyb.
  destruct (Z.eq_dec y lo) as [-> |]; [done|]. apply Hy. lia.
Qed.

Lemma close_gap_spec (k : Keeper) commit k' : close_gap k commit = Some k' -> bt_sorted (nd_log (k_node k)) -> commit <= head_op k ->
  commit <= head_op k' <= head_op k /\ k_membership k' = k_membership k /\ k_view k' = k_view k /\
  bt_sorted (nd_log (k_node k')) /\ (forall op, op <= head_op k' -> entry_at k' op = entry_at k op) /\
  (forall op, commit < op <= head_op k' -> is_Some (entry_at k op)) /\ (head_op k' = head_op k \/ entry_at k (head_op k' + 1) = None).
Proof.
  unfold close_gap. cbv zeta. intros Hc Hs Hle. destruct (List.find _ _) as [gap|] eqn:Hf.
  - destruct (committed_survives _ _ _); [|done]. injection Hc as <-. rewrite <- (Z2Nat.id (nd_op (k_node k) - commit)) in Hf by (unfold head_op in Hle; lia).
    apply find_first_nat in Hf as (Hg & Hb & Hy). unfold head_op in *. cbn. split; [lia|]. split; [done|]. split; [done|].
    split; [by apply bt_filter_sorted|]. split; [|split].
    + intros op Hop. unfold entry_at. cbn. rewrite (bt_get_keep _ (fun x => x <=? gap - 1)) by done. destruct (Z.leb_spec op (gap - 1)); [done|lia].
    + intros op Hop. specialize (Hy op ltac:(lia)). apply negb_false_iff in Hy. unfold entry_at. by destruct (bt_get op (nd_log (k_node k))).
    + right. replace (gap - 1 + 1) with gap by lia. unfold entry_at. by destruct (bt_get gap (nd_log (k_node k))).
  - injection Hc as <-. split; [lia|]. split; [done|]. split; [done|]. split; [done|]. split; [done|]. split; [|by left].
    intros op Hop. assert (Hin : op ∈ seqZ (commit + 1) (nd_op (k_node k) - commit)) by (apply elem_of_seqZ; unfold head_op in Hop; lia).
    apply (find_none _ _ _ Hf) in Hin. apply negb_false_iff in Hin. unfold entry_at. by destruct (bt_get op (nd_log (k_node k))).
Qed.

Lemma repairing_tail_holes (k : Keeper) : bt_sorted (nd_log (k_node k)) ->
  forall op, op ∈ repairing_tail k -> exists e, bt_get op (nd_log (k_node k)) = Some e /\ is_repairing (l_body e) = true.
Proof.
  intros Hs op (x & -> & Hx)%list_elem_of_fmap. apply list_elem_of_In, List.filter_In in Hx as [Hin Hx]. apply andb_true_iff in Hx as [_ Hr].
  apply list_elem_of_In in Hin. exists x.2. split; [|done]. apply bt_get_elem; [done|]. by rewrite <- surjective_pairing.
Qed.

Lemma place_sorted (es : list PreparedEntry) : forall kept log, bt_sorted log -> bt_sorted (foldl place_entry (kept, log) es).2.
Proof. induction es as [|x es IH]; intros kept log Hs; [done|]. cbn. apply IH. by apply bt_insert_sorted. Qed.

Lemma adopt_entries_sorted log floor applied es : bt_sorted log -> bt_sorted (adopt_entries log floor applied es).
Proof. intros Hs. unfold adopt_entries. apply place_sorted. by apply bt_filter_sorted. Qed.

Record started (b b' : Endpoint) (s : Selection) : Prop := {
  st_view : k_membership (ep_keeper b') = k_membership (ep_keeper b) /\ k_view (ep_keeper b') = k_view (ep_keeper b) /\
    k_log_view (ep_keeper b') = k_view (ep_keeper b);
  st_head : s_commit s <= head_op (ep_keeper b') <= s_op_head s;
  st_log e : e ∈ s_log s -> e_op e <= head_op (ep_keeper b') -> exists l, entry_at (ep_keeper b') (e_op e) = Some l /\ same_operation e l;
  st_tail op : s_commit s < op <= head_op (ep_keeper b') -> is_Some (entry_at (ep_keeper b') op);
  st_gap : head_op (ep_keeper b') = s_op_head s \/ forall e, e ∈ s_log s -> e_op e <> head_op (ep_keeper b') + 1;
  st_only op : op <= head_op (ep_keeper b') -> op ∉ map e_op (s_log s) ->
    entry_at (ep_keeper b') op = if (s_floor s <? op) && (op <=? nd_commit_min (k_node (ep_keeper b))) then entry_at (ep_keeper b) op else None;
  st_pipeline op : bt_get op (nd_inflight (k_node (ep_keeper b'))) =
    if (nd_commit_max (k_node (ep_keeper b')) <? op) && (op <=? head_op (ep_keeper b')) then Some (mkInflight 0 false (held_identity (ep_keeper b') op)) else None;
  st_root : exists id, k_pending_sb (ep_keeper b') = Some (id, StartViewAsPrimary);
  st_sent : exists out, ep_sent b' = ep_sent b ++ out /\ solicits out;
}.

Lemma gen_log (k k' : Keeper) : gen k' = gen k -> nd_log (k_node k') = nd_log (k_node k) /\ head_op k' = head_op k /\ k_membership k' = k_membership k /\ k_view k' = k_view k.
Proof. intros Hg. unfold gen, node_gen in Hg. injection Hg as E1 E2 E3 E4 E5 E6. done. Qed.

Lemma installed_log (k k' : Keeper) : installed k' = installed k -> nd_log (k_node k') = nd_log (k_node k) /\ head_op k' = head_op k /\
  (k_membership k' = k_membership k /\ k_view k' = k_view k /\ k_log_view k' = k_log_view k) /\ nd_commit_max (k_node k') = nd_commit_max (k_node k).
Proof. intros Hi. unfold installed in Hi. injection Hi as E1 E2 E3 E4 E5 E6 E7 E8. done. Qed.

Lemma open_new_view_installed (k : Keeper) : nd_log (k_node (open_new_view k)) = nd_log (k_node k) /\ head_op (open_new_view k) = head_op k /\
  k_membership (open_new_view k) = k_membership k /\ k_view (open_new_view k) = k_view k /\ k_log_view (open_new_view k) = k_view k.
Proof. unfold open_new_view, set_status. by case_bool_decide. Qed.

Lemma seed_pipeline_spec (k : Keeper) (m : Medium) k' m' : seed_pipeline k m = Some (k', m') -> installed k' = installed k /\
  forall op, bt_get op (nd_inflight (k_node k')) =
    if (nd_commit_max (k_node k') <? op) && (op <=? head_op k') then Some (mkInflight 0 false (held_identity k' op)) else None.
Proof.
  unfold seed_pipeline. cbv zeta. set (k1 := with_inflight k []). intros Hs. apply seed_ops_spec in Hs as [Hi Hf]. assert (Hk : installed k' = installed k) by exact Hi.
  split; [done|]. intros op. rewrite Hf. destruct (installed_log _ _ Hk) as (Hl & Hh & _ & Hc). rewrite Hc, Hh.
  assert (Hid : held_identity k' op = held_identity k1 op) by (unfold held_identity; by rewrite Hl). rewrite Hid.
  destruct (_ && _) eqn:Hb.
  - rewrite andb_true_iff, Z.ltb_lt, Z.leb_le in Hb. rewrite bool_decide_eq_true_2; [done|]. apply elem_of_seqZ. change (nd_commit_max (k_node k1)) with (nd_commit_max (k_node k)). change (nd_op (k_node k1)) with (head_op k). lia.
  - rewrite bool_decide_eq_false_2; [done|]. intros Hin%elem_of_seqZ. change (nd_commit_max (k_node k1)) with (nd_commit_max (k_node k)) in Hin. change (nd_op (k_node k1)) with (head_op k) in Hin.
    apply andb_false_iff in Hb. rewrite Z.ltb_ge, Z.leb_gt in Hb. lia.
Qed.

Lemma advance_continued (k : Keeper) (m : Medium) now target fl k' m' : k_advance_commit k m now target = Some (fl, k', m') ->
  match fl with Continue => gen k' = gen k | EnteredRecovery => k_status k' = Recovering end.
Proof. intros Ha. destruct fl; [exact (proj1 (advance_same _ _ _ _ _ _ Ha))|exact (advance_recovering _ _ _ _ _ _ Ha)]. Qed.

Lemma selection_bounds m dvcs s : wf m -> Forall dvc_widths dvcs -> select_canonical_log m dvcs = Some s ->
  s_commit s <= s_op_head s /\ NoDup (map e_op (s_log s)).
Proof.
  intros Hwf Hw Hs. destruct (selection_contents m dvcs s Hwf Hw Hs) as (Hb & Hso & _). split; [lia|]. clear - Hso.
  induction Hso as [|e es Hso IH Hall]; [constructor|]. cbn. constructor; [|done]. intros (x & Hx & Hin)%list_elem_of_fmap. rewrite Forall_forall in Hall. specialize (Hall x Hin). lia.
Qed.

(** Every step of the installation after the advance. *)
Lemma settle_started (k k1 k2 : Keeper) (m m1 : Medium) (b b' : Endpoint) now s :
  form_log k = Some (s, k1) -> gen k2 = gen k1 -> bt_sorted (nd_log (k_node k)) -> wf (k_membership k) ->
  (forall vc, p_view_change (k_posture k) = Some vc -> Forall dvc_widths (map snd (vc_dvc_from vc))) ->
  forall k3 k4 m4 b5, close_gap k2 (s_commit s) = Some k3 -> truncate_wal_above_adopted_head k3 m1 = Some (k4, m4) ->
  let k5 := open_new_view (backfill_sessions k4) in
  request_repairs (put b (k5, m4)) now (repairing_tail k5) = Some b5 ->
  forall k6 m6 k7 m7, seed_pipeline (ep_keeper b5) (ep_medium b5) = Some (k6, m6) -> submit_durable_view k6 m6 StartViewAsPrimary = Some (k7, m7) ->
  ep_keeper b = k -> started b (put b5 (k7, m7)) s.
Proof.
  intros Hf Hg Hs Hwf Hvc k3 k4 m4 b5 Hgap Ht k5 Hr k6 m6 k7 m7 Hp Hsb Hbk.
  destruct (form_log_spec _ _ _ Hf) as (vc & Hv & Hsel & F1 & F2 & F3 & F4). destruct (selection_bounds _ _ _ Hwf (Hvc _ Hv) Hsel) as [Hle Hnd].
  destruct (gen_log _ _ Hg) as (G1 & G2 & G3 & G4).
  assert (Hs2 : bt_sorted (nd_log (k_node k2))) by (rewrite G1, F1; by apply adopt_entries_sorted).
  destruct (close_gap_spec _ _ _ Hgap Hs2) as (C1 & C2 & C3 & C4 & C5 & C6 & C7); [rewrite G2, F2; exact Hle|].
  apply truncate_installed in Ht as [T _]. destruct (installed_log _ _ T) as (T1 & T2 & (T3 & T4 & _) & _).
  destruct (open_new_view_installed (backfill_sessions k4)) as (O1 & O2 & O3 & O4 & O5). fold k5 in O1, O2, O3, O4, O5.
  assert (E5 : nd_log (k_node k5) = nd_log (k_node k3) /\ head_op k5 = head_op k3 /\ k_membership k5 = k_membership k3 /\ k_view k5 = k_view k3 /\ k_log_view k5 = k_view k3).
  { split; [by rewrite O1, <- T1|]. split; [by rewrite O2, <- T2|]. split; [by rewrite O3, <- T3|]. split; [by rewrite O4, <- T4|by rewrite O5, <- T4]. }
  clear O1 O2 O3 O4 O5. destruct E5 as (O1 & O2 & O3 & O4 & O5).
  apply request_repairs_installed in Hr as (Ri & _ & out & Hout & Hsol); [|cbn [ep_keeper put fst]; apply repairing_tail_holes; by rewrite O1].
  cbn [ep_keeper put fst ep_sent] in Ri, Hout. apply seed_pipeline_spec in Hp as [Pi Pf]. apply submit_installed in Hsb as (Si & Sf & Sid).
  assert (I7 : installed k7 = installed k5) by congruence. destruct (installed_log _ _ I7) as (L1 & L2 & (L3 & L4 & L5) & _).
  destruct (installed_log _ _ Si) as (M1 & M2 & _ & M4).
  assert (Hh : head_op k7 = head_op k3) by congruence.
  assert (He : forall op, entry_at k7 op = entry_at k3 op) by (intros op; unfold entry_at; by rewrite L1, O1).
  destruct (adopt_entries_get (nd_log (k_node k)) (s_floor s) (nd_commit_min (k_node k)) (s_log s) Hnd) as [A1 A2]. rewrite <- F1, <- G1 in A1, A2.
  split; cbn [ep_keeper put fst ep_sent]; rewrite ?Hbk.
  - rewrite L3, L4, L5, O3, O4, O5, C2, C3, G3, G4, F3, F4. done.
  - rewrite Hh. rewrite <- F2, <- G2. exact C1.
  - intros e Hin Hop. rewrite Hh in Hop. rewrite He, C5 by done. exists (adopted (nd_log (k_node k)) e). split; [by apply A1|apply adopted_operation].
  - intros op Hop. rewrite Hh in Hop. rewrite He, C5 by lia. by apply C6.
  - rewrite Hh. destruct C7 as [C7|C7]; [left; by rewrite C7, G2, F2|right]. intros e Hin Heq. unfold entry_at in C7. by rewrite <- Heq, (A1 e Hin) in C7.
  - intros op Hop Hn. rewrite Hh in Hop. rewrite He, C5 by done. unfold entry_at. by rewrite A2.
  - intros op. rewrite Sf, Pf, M4, M2. replace (held_identity k7 op) with (held_identity k6 op); [done|]. unfold held_identity. by rewrite M1.
  - exact Sid.
  - exists out. split; [exact Hout|exact Hsol].
Qed.

Lemma new_primary_started (b : Endpoint) now b' : start_view_as_new_primary b now = Some b' -> k_status (ep_keeper b') <> Recovering ->
  bt_sorted (nd_log (k_node (ep_keeper b))) -> wf (k_membership (ep_keeper b)) ->
  (forall vc, p_view_change (k_posture (ep_keeper b)) = Some vc -> Forall dvc_widths (map snd (vc_dvc_from vc))) ->
  exists vc s, p_view_change (k_posture (ep_keeper b)) = Some vc /\ select_canonical_log (k_membership (ep_keeper b)) (map snd (vc_dvc_from vc)) = Some s /\ started b b' s.
Proof.
  intros Hx Hn Hs Hwf Hvc. revert Hx. unfold start_view_as_new_primary. destruct (form_log (ep_keeper b)) as [[s k1]|] eqn:Hf; [|done]. cbn [mbind option_bind].
  destruct (k_advance_commit k1 (ep_medium b) now (s_commit s)) as [[[fl k2] m2]|] eqn:Ha; [|done]. cbn [mbind option_bind]. apply advance_continued in Ha.
  destruct fl; [|intros [= <-]; by destruct Hn]. destruct (close_gap k2 (s_commit s)) as [k3|] eqn:Hg; [|done]. cbn [mbind option_bind].
  destruct (truncate_wal_above_adopted_head k3 m2) as [[k4 m4]|] eqn:Ht; [|done]. cbn [mbind option_bind]. cbv zeta.
  destruct (request_repairs _ now _) as [b5|] eqn:Hr; [|done]. cbn [mbind option_bind].
  destruct (seed_pipeline _ _) as [[k6 m6]|] eqn:Hp; [|done]. cbn [mbind option_bind]. destruct (submit_durable_view k6 m6 _) as [[k7 m7]|] eqn:Hsb; [|done]. cbn [mbind option_bind]. intros [= <-].
  destruct (form_log_spec _ _ _ Hf) as (vc & Hv & Hsel & _). exists vc, s. split; [done|]. split; [done|].
  by eapply (settle_started (ep_keeper b) k1 k2 m2 m2 b (put b5 (k7, m7)) now s).
Qed.

(** ** The adopter *)

Lemma reset_installed (k : Keeper) (m : Medium) now k' m' : reset_for_view_transition k m now = Some (k', m') -> installed k' = installed k.
Proof.
  unfold reset_for_view_transition. cbv zeta. destruct (recompute_quorum_checkpoint _) as [k2|] eqn:Hq; [|done]. cbn [mbind option_bind].
  assert (H2 : installed k2 = installed k).
  { unfold recompute_quorum_checkpoint in Hq. destruct (compute_quorum_checkpoint_op _ _ _ _); [|done]. cbn [mbind option_bind] in Hq. by injection Hq as <-. }
  intros Hd. transitivity (installed k2); [|exact H2]. revert Hd. unfold drop_checkpoint_for_transition.
  destruct (k_pending_checkpoint _) as [pc|]; [destruct (dropped_by_transition pc); [destruct (pc_step pc)|]|]; by intros [= <- _].
Qed.

Lemma record_installed (k : Keeper) r op k' : k_record_peer_checkpoint k r op = Some k' -> installed k' = installed k.
Proof.
  unfold k_record_peer_checkpoint. destruct (member_at _ _); [|by intros [= <-]]. unfold recompute_quorum_checkpoint.
  destruct (compute_quorum_checkpoint_op _ _ _ _); [|done]. cbn [mbind option_bind]. by intros [= <-].
Qed.

Lemma settle_installed (k : Keeper) (m : Medium) now floor k' m' : settle_adopted_head k m now floor = Some (k', m') ->
  nd_log (k_node k') = nd_log (k_node k) /\ head_op k' = head_op k /\ k_membership k' = k_membership k /\ k_view k' = k_view k /\ k_log_view k' = k_view k /\
  k_status k' = Normal /\ exists id, k_pending_sb k' = Some (id, AdoptedStartView).
Proof.
  unfold settle_adopted_head. cbv zeta. set (k1 := push_event _ _).
  assert (H1' : nd_log (k_node k1) = nd_log (k_node k) /\ head_op k1 = head_op k /\ k_membership k1 = k_membership k /\ k_view k1 = k_view k /\ k_log_view k1 = k_view k /\ k_status k1 = Normal).
  { subst k1. unfold set_status. case_bool_decide as Hb; [|done]. split; [done|]. split; [done|]. split; [done|]. split; [done|]. split; [done|exact Hb]. }
  destruct (reset_for_view_transition k1 m now) as [[k2 m2]|] eqn:Hr; [|done]. cbn [mbind option_bind]. apply reset_installed in Hr.
  destruct (if 0 <? floor then _ else _) as [k3|] eqn:Hc; [|done]. cbn [mbind option_bind]. assert (H3 : installed k3 = installed k2).
  { destruct (0 <? floor); [by eapply record_installed|by injection Hc as <-]. }
  destruct (read_fence_open _); [done|]. intros Hs. apply submit_installed in Hs as (Hs & _ & Hid).
  assert (Hi : installed k' = installed k1) by (transitivity (installed k3); [exact Hs|congruence]).
  destruct (installed_log _ _ Hi) as (L1 & L2 & (L3 & L4 & L5) & _). destruct H1' as (A1 & A2 & A3 & A4 & A5 & A6).
  split; [congruence|]. split; [congruence|]. split; [congruence|]. split; [congruence|]. split; [congruence|]. split; [|exact Hid].
  rewrite <- A6. exact (f_equal (fun t => t.1.2.1) Hi).
Qed.

(** A replica that took an announced view over. *)
Record took_over (b b' : Endpoint) (v : StartView) : Prop := {
  tk_view : k_membership (ep_keeper b') = k_membership (ep_keeper b) /\ k_view (ep_keeper b') = sv_view v /\ k_log_view (ep_keeper b') = sv_view v /\
    k_status (ep_keeper b') = Normal;
  tk_head : head_op (ep_keeper b') = sv_op v;
  tk_log e : e ∈ sv_log v -> exists l, entry_at (ep_keeper b') (e_op e) = Some l /\ same_operation e l;
  tk_only op : op ∉ map e_op (sv_log v) -> entry_at (ep_keeper b') op =
    if (Z.min (sv_checkpoint_op v) (sv_commit v) <? op) && (op <=? nd_commit_min (k_node (ep_keeper b))) then entry_at (ep_keeper b) op else None;
  tk_root : exists id, k_pending_sb (ep_keeper b') = Some (id, AdoptedStartView);
}.

Lemma adopt_log_get (k k' : Keeper) es floor : adopt_log k es floor = Some k' -> NoDup (map e_op es) ->
  (forall e, e ∈ es -> exists l, entry_at k' (e_op e) = Some l /\ same_operation e l) /\
  (forall op, op ∉ map e_op es -> entry_at k' op = if (floor <? op) && (op <=? nd_commit_min (k_node k)) then entry_at k op else None).
Proof.
  unfold adopt_log. destruct (committed_survives _ _ _); [|done]. intros [= <-] Hnd. destruct (adopt_entries_get (nd_log (k_node k)) floor (nd_commit_min (k_node k)) es Hnd) as [A1 A2].
  split.
  - intros e He. exists (adopted (nd_log (k_node k)) e). split; [exact (A1 e He)|apply adopted_operation].
  - intros op Hop. exact (A2 op Hop).
Qed.

Lemma pending_sb_appends (k : Keeper) a : k_pending_sb (with_owned_appends k a) = k_pending_sb k.
Proof. done. Qed.

Lemma truncate_sb (k : Keeper) (m : Medium) k' m' : truncate_wal_above_adopted_head k m = Some (k', m') -> k_pending_sb k' = k_pending_sb k.
Proof.
  unfold truncate_wal_above_adopted_head. cbv zeta. destruct (committed_survives _ _ _); [|done]. destruct (truncate m _) as [[c m1]|]; [|done]. cbn [mbind option_bind].
  destruct (absorb_wal_cancellations _ _ _) as [[a m2]|]; [|done]. cbn [mbind option_bind]. by intros [= <- _].
Qed.

Lemma adopter_took_over (b : Endpoint) now v b' : on_start_view b now v = Some b' -> NoDup (map e_op (sv_log v)) ->
  (b' = b \/ k_status (ep_keeper b') = Recovering \/ took_over b b' v) /\ ep_sent b' = ep_sent b.
Proof.
  intros Hx Hnd. revert Hx. unfold on_start_view. cbv zeta. destruct (_ || _); [intros [= <-]; by split; [left|]|]. destruct (negb _); [intros [= <-]; by split; [left|]|].
  destruct (sync_repersist_root_staged _); [intros [= <-]; by split; [left|]|]. unfold adopt_canonical_head. destruct (_ || _); [done|]. cbv zeta.
  destruct (adopt_log _ (sv_log v) _) as [k1|] eqn:Ha; [|done]. cbn [mbind option_bind]. set (k2 := with_repair _ _).
  destruct (adopt_log_get _ _ _ _ Ha Hnd) as [A1 A2].
  assert (H2 : k_membership k2 = k_membership (ep_keeper b) /\ k_view k2 = sv_view v /\ nd_log (k_node k2) = nd_log (k_node k1) /\ head_op k2 = sv_op v).
  { revert Ha. unfold adopt_log. destruct (committed_survives _ _ _); [|done]. intros [= <-]. done. }
  destruct (k_advance_commit k2 (ep_medium b) now (sv_commit v)) as [[[fl k3] m3]|] eqn:Hc; [|done]. cbn [mbind option_bind]. apply advance_continued in Hc.
  destruct fl; [|intros [= <-]; split; [right; by left|done]]. destruct (gen_log _ _ Hc) as (G1 & G2 & G3 & G4).
  destruct (if is_recovering_head (k_status k3) then _ else _) as [owed k4] eqn:Ho.
  assert (G : gen k4 = gen k3) by (destruct (is_recovering_head _); [by eapply gen_orphan_owed|by injection Ho as _ <-]).
  destruct (gen_log _ _ G) as (D1 & D2 & D3 & D4). destruct (is_some owed).
  { destruct (enter_orphan_repersist_recovery k4 m3 now) as [[k5 m5]|] eqn:He; [|done]. cbn [mbind option_bind]. intros [= <-]. split; [|done]. right; left.
    exact (proj1 (enter_orphan_recovering _ _ _ _ _ He)). }
  destruct (settle_adopted_head k4 m3 now _) as [[k5 m5]|] eqn:Hs; [|done]. cbn [mbind option_bind]. apply settle_installed in Hs as (S1 & S2 & S3 & S4 & S5 & S6 & S7).
  destruct (truncate_wal_above_adopted_head k5 m5) as [[k6 m6]|] eqn:Ht; [|done]. cbn [mbind option_bind]. intros [= <-]. split; [|done]. right; right.
  pose proof (truncate_sb _ _ _ _ Ht) as Tsb. apply truncate_installed in Ht as [Ti _]. destruct (installed_log _ _ Ti) as (T1 & T2 & (T3 & T4 & T5) & _).
  assert (Ts : k_status k6 = k_status k5) by exact (f_equal (fun t => t.1.2.1) Ti). destruct H2 as (B1 & B2 & B3 & B4).
  assert (HL : forall op, entry_at k6 op = entry_at k1 op) by (intros op; unfold entry_at; congruence).
  split; cbn [ep_keeper put fst].
  - split_and!; congruence.
  - congruence.
  - intros e He. rewrite HL. by apply A1.
  - intros op Hop. rewrite HL, A2 by done. done.
  - rewrite Tsb. exact S7.
Qed.

(** C2. Starting a view keeps every committed operation: when an earlier generation
    committed operations up to [n] on a replication quorum, a prospective primary that
    starts its view from a view-change quorum of honest votes either stands above a
    vouched checkpoint that subsumes [n], or holds [n] at its op in its own log as that
    very operation, through selection, adoption, the commits the selection exposes, the
    truncation at a gap and the repairs. *)
Theorem committed_ops_installed (b : Endpoint) now b' votes s Q v n ids :
  let k := ep_keeper b in
  start_view_as_new_primary b now = Some b' -> k_status (ep_keeper b') <> Recovering -> bt_sorted (nd_log (k_node k)) -> wf (k_membership k) ->
  (vc ← p_view_change (k_posture k); Some (map snd (vc_dvc_from vc))) = Some votes -> select_canonical_log (k_membership k) votes = Some s ->
  vote_quorum (k_membership k) votes -> Forall dvc_widths votes -> Forall dvc_honest votes ->
  Q ⊆ voting_slots (k_membership k) -> quorum (k_membership k) <= Z.of_nat (size Q) ->
  (forall d, d ∈ votes -> d_replica d ∈ Q -> v <= d_log_view d /\ n <= d_op d /\ forall o, 0 < o <= n -> covers o d) ->
  (forall d o, d ∈ votes -> v < d_log_view d -> 0 < o <= n -> covers o d) ->
  (forall d o, d ∈ votes -> v <= d_log_view d -> 0 < o <= n -> ViewChange.agrees o (ids o) d) -> 0 < n ->
  n <= s_floor s \/ exists l, entry_at (ep_keeper b') n = Some l /\ n <= head_op (ep_keeper b') /\ (l_client l, l_request l, body_checksum (l_body l)) = ids n.
Proof.
  intros k Hx Hst Hs Hwf Hv Hsel Hq Hw Hh HQ HQn HQd Hlater Hid Hn.
  destruct (p_view_change (k_posture k)) as [vc|] eqn:Hvc; [|done]. cbn [mbind option_bind] in Hv. injection Hv as <-.
  destruct (new_primary_started b now b' Hx Hst Hs Hwf) as (vc' & s' & Hvc' & Hsel' & St); [intros vc' Hvc'; fold k in Hvc'; rewrite Hvc in Hvc'; by injection Hvc' as <-|].
  fold k in Hvc', Hsel'. rewrite Hvc in Hvc'. injection Hvc' as <-. rewrite Hsel in Hsel'. injection Hsel' as <-.
  assert (Hsurv : forall o, 0 < o <= n -> o <= s_floor s \/ exists e, e ∈ s_log s /\ e_op e = o /\ identity e = ids o).
  { intros o Ho. eapply (ViewChange.committed_survives (k_membership k) (map snd (vc_dvc_from vc)) Hwf Hq Hw Hh Q HQ HQn v o).
    - intros d Hd Hdq. destruct (HQd d Hd Hdq) as (? & ? & Hc). split; [done|]. split; [lia|by apply Hc].
    - intros d Hd Hlv. by apply Hlater.
    - exact Hsel.
    - intros d Hd Hlv. by apply Hid. }
  destruct (selection_contents _ _ _ Hwf Hw Hsel) as (Hb & _ & Hin & _). destruct St as [_ S2 S3 _ S5 _ _ _ _].
  destruct (Hsurv n ltac:(lia)) as [?|(e & He & Hop & Hi)]; [by left|right]. destruct (Z.le_gt_cases n (head_op (ep_keeper b'))) as [Hle|Hgt].
  - destruct (S3 e He) as (l & Hl & L1 & L2 & L3); [lia|]. exists l. rewrite Hop in Hl. split; [done|]. split; [done|]. rewrite L1, L2, L3. exact Hi.
  - exfalso. destruct (Hin e He) as [Hbe _]. destruct S5 as [S5|S5]; [lia|]. destruct (Hsurv (head_op (ep_keeper b') + 1)) as [?|(e' & He' & Hop' & _)].
    + assert (0 <= s_floor s); [|lia]. destruct (select_Some _ _ _ Hsel) as (_ & _ & -> & _). unfold floor_star. pose proof (max_or_zero_nonneg (map d_checkpoint_op (canonical_of (map snd (vc_dvc_from vc))))).
      pose proof (commit_star_nonneg (map snd (vc_dvc_from vc))). lia.
    + lia.
    + by apply (S5 e').
Qed.

(** What the node queued on the way. *)
Definition queued_only (f : Output -> Prop) (k k' : Keeper) : Prop :=
  exists out, nd_out (k_node k') = nd_out (k_node k) ++ out /\ Forall f out.

Lemma queued_same f (k k' : Keeper) : nd_out (k_node k') = nd_out (k_node k) -> queued_only f k k'.
Proof. intros Ho. exists []. by rewrite app_nil_r. Qed.

Lemma queued_trans f (k1 k2 k3 : Keeper) : queued_only f k1 k2 -> queued_only f k2 k3 -> queued_only f k1 k3.
Proof. intros (o1 & E1 & A1) (o2 & E2 & A2). exists (o1 ++ o2). rewrite E2, E1, app_assoc. split; [done|by apply Forall_app]. Qed.

Lemma reset_out (k : Keeper) (m : Medium) now k' m' : reset_for_view_transition k m now = Some (k', m') -> nd_out (k_node k') = nd_out (k_node k).
Proof.
  unfold reset_for_view_transition. cbv zeta. destruct (recompute_quorum_checkpoint _) as [k0|] eqn:Hq; [|done]. cbn [mbind option_bind].
  apply still_recompute, (f_equal (fun x => x.1.2)) in Hq. cbn in Hq.
  unfold drop_checkpoint_for_transition. destruct (k_pending_checkpoint _) as [pc|]; [destruct (dropped_by_transition pc); [destruct (pc_step pc)|]|]; by intros [= <- _].
Qed.

Lemma settle_out (k : Keeper) (m : Medium) now floor k' m' : settle_adopted_head k m now floor = Some (k', m') -> nd_out (k_node k') = nd_out (k_node k).
Proof.
  unfold settle_adopted_head. cbv zeta. set (k0 := push_event _ _). assert (E0 : nd_out (k_node k0) = nd_out (k_node k)).
  { unfold k0, set_status. cbn. by case_bool_decide. }
  destruct (reset_for_view_transition k0 m now) as [[k1 m1]|] eqn:Hr; [|done]. cbn [mbind option_bind]. apply reset_out in Hr.
  match goal with |- (?o ≫= _) = _ -> _ => destruct o as [k2|] eqn:Hp end; [|done]. cbn [mbind option_bind].
  assert (E2 : nd_out (k_node k2) = nd_out (k_node k1)).
  { destruct (0 <? floor); [|by injection Hp as <-]. revert Hp. unfold k_record_peer_checkpoint. repeat case_match; try done; try (by intros [= <-]).
    all: intros Hq%still_recompute; exact (f_equal (fun x => x.1.2) Hq). }
  destruct (read_fence_open _); [done|]. unfold submit_durable_view. cbv zeta. destruct (durable_root _ _ _ _ _ _ _ _); [|done]. cbn [mbind option_bind].
  destruct (mint _) as [[id k3]|] eqn:Hm; [|done]. cbn [mbind option_bind]. apply still_mint, (f_equal (fun x => x.1.2)) in Hm. cbn in Hm.
  destruct (submit_root _ _ _ _); [|done]. cbn [mbind option_bind]. intros [= <- _]. cbn. congruence.
Qed.

(** The commit inside the adoption solicits what it misses and answers no client. *)
Lemma adopter_queues (b : Endpoint) now v b' : on_start_view b now v = Some b' -> queued_only (commit_output false) (ep_keeper b) (ep_keeper b').
Proof.
  unfold on_start_view. cbv zeta. destruct (_ || _); [intros [= <-]; by apply queued_same|]. destruct (negb _); [intros [= <-]; by apply queued_same|].
  destruct (sync_repersist_root_staged _); [intros [= <-]; by apply queued_same|]. unfold adopt_canonical_head. destruct (_ || _); [done|]. cbv zeta.
  destruct (adopt_log _ (sv_log v) _) as [k1|] eqn:Ha; [|done]. cbn [mbind option_bind]. set (k2 := with_repair _ _).
  assert (E2 : nd_out (k_node k2) = nd_out (k_node (ep_keeper b))).
  { revert Ha. unfold adopt_log. destruct (committed_survives _ _ _); [|done]. by intros [= <-]. }
  destruct (k_advance_commit k2 (ep_medium b) now (sv_commit v)) as [[[fl k3] m3]|] eqn:Hc; [|done]. cbn [mbind option_bind]. apply advance_commit_commits in Hc as [Hc _].
  assert (Q3 : queued_only (commit_output false) (ep_keeper b) k3) by (eapply queued_trans; [by apply queued_same|exact Hc]).
  destruct fl; [|by intros [= <-]]. destruct (if is_recovering_head (k_status k3) then _ else _) as [owed k4] eqn:Ho.
  assert (Q4 : queued_only (commit_output false) (ep_keeper b) k4).
  { destruct (is_recovering_head _); [|by injection Ho as _ <-]. apply still_orphan_owed, (f_equal (fun x => x.1.2)) in Ho.
    eapply queued_trans; [exact Q3|by apply queued_same]. }
  destruct (is_some owed).
  { destruct (enter_orphan_repersist_recovery k4 m3 now) as [[k5 m5]|] eqn:He; [|done]. cbn [mbind option_bind]. intros [= <-].
    apply enter_orphan_commits in He as [He _]. by eapply queued_trans. }
  destruct (settle_adopted_head k4 m3 now _) as [[k5 m5]|] eqn:Hs; [|done]. cbn [mbind option_bind]. apply settle_out in Hs.
  destruct (truncate_wal_above_adopted_head k5 m5) as [[k6 m6]|] eqn:Ht; [|done]. cbn [mbind option_bind]. intros [= <-].
  assert (E6 : nd_out (k_node k6) = nd_out (k_node k5)).
  { revert Ht. unfold truncate_wal_above_adopted_head. cbv zeta. destruct (committed_survives _ _ _); [|done]. destruct (truncate _ _) as [[c m7]|]; [|done]. cbn [mbind option_bind].
    destruct (absorb_wal_cancellations _ _ _) as [[a m8]|]; [|done]. cbn [mbind option_bind]. by intros [= <- _]. }
  eapply queued_trans; [exact Q4|]. apply queued_same. cbn. congruence.
Qed.


End install.

(** ** What a landed root releases *)

Section release.
Context {S Image W B Walks : Type} `{SX : StateMachine S Image} `{WM : WalModel W} `{SM : SuperblockModel B}.
Context (wal_status : W -> OpNumber -> SlotStatus) (C : History) (wal_header : W -> OpNumber -> option Header).
#[local] Abbreviation Keeper := (@Keeper S).
#[local] Abbreviation Medium := (@Medium W B S Image (gmap Z Session) Walks).
#[local] Abbreviation Endpoint := (@Endpoint S Image W B Walks).

(** The view a message takes part in. *)
Definition message_view (x : Message) : option View :=
  match x with
  | MDoViewChange d => Some (d_view d)
  | MStartView v => Some (sv_view v)
  | MCommit c => Some (cm_view c)
  | MPrepareOk ok => Some (po_view ok)
  | _ => None
  end.

Definition speaks (v : View) (b b' : Endpoint) : Prop :=
  exists out, ep_sent b' = ep_sent b ++ out /\ forall r x, (r, x) ∈ out -> message_view x = Some v.

Lemma speaks_silent v (b b' : Endpoint) : ep_sent b' = ep_sent b -> speaks v b b'.
Proof. intros Hs. exists []. rewrite app_nil_r. split; [done|]. intros r x Hx. by apply elem_of_nil in Hx. Qed.

Lemma speaks_trans v (b1 b2 b3 : Endpoint) : speaks v b1 b2 -> speaks v b2 b3 -> speaks v b1 b3.
Proof.
  intros (o1 & H1 & A1) (o2 & H2 & A2). exists (o1 ++ o2). rewrite H2, H1, app_assoc. split; [done|]. intros r x [?|?]%elem_of_app; eauto.
Qed.

Lemma speaks_one v (b : Endpoint) r x : message_view x = Some v -> speaks v b (send b [(r, x)]).
Proof. intros Hx. eexists. split; [reflexivity|]. intros r' x' Hin. apply list_elem_of_singleton in Hin. by injection Hin as _ ->. Qed.

Lemma try_commit_speaks (b : Endpoint) now flow b' : k_try_commit b now = Some (flow, b') -> speaks (k_view (ep_keeper b)) b b'.
Proof.
  unfold k_try_commit. cbv zeta. destruct (negb _); [intros [= _ <-]; by apply speaks_silent|]. destruct (_ || _); [intros [= _ <-]; by apply speaks_silent|].
  destruct (k_try_commit_loop _ _ _ _ _) as [[[adv k1] m1]|] eqn:E1; [|done]. cbn [mbind option_bind]. apply gen_try_loop in E1.
  destruct (commit_tail _ _ _ _) as [[[fl k3] m3]|]; [|done]. cbn [mbind option_bind]. intros [= _ <-]. destruct (_ && _); [|by apply speaks_silent].
  apply gen_log in E1 as (_ & _ & _ & Hv). eexists. split; [reflexivity|]. intros r x Hin. apply list_elem_of_singleton in Hin. injection Hin as _ ->. cbn [message_view cm_view]. by rewrite <- Hv.
Qed.

Lemma participate_speaks (b : Endpoint) now b' : start_view_participate b now = Some b' -> speaks (k_view (ep_keeper b)) b b'.
Proof.
  unfold start_view_participate. cbv zeta. destruct (negb _); [intros [= <-]; by apply speaks_silent|].
  destruct (maybe_adopt_inherited_frontier _) as [k1|] eqn:E1; [|done]. cbn [mbind option_bind]. apply gen_adopt_inherited, gen_log in E1 as (_ & _ & _ & V1).
  destruct (maybe_enter_orphan_repersist_recovery _ _ _) as [[[[] k2] m2]|] eqn:E2; [| |done]; cbn [mbind option_bind]; [intros [= <-]; by apply speaks_silent|].
  apply gen_maybe_orphan, gen_log in E2 as (_ & _ & _ & V2). destruct (repersist_orphan_owed k2) as [o k3] eqn:E3. apply gen_orphan_owed, gen_log in E3 as (_ & _ & _ & V3).
  destruct (is_some o); [intros [= <-]; by apply speaks_silent|]. destruct (local_slot_opt _ _) as [slot|]; [|done]. cbn [mbind option_bind].
  set (b1 := send _ _). destruct (k_try_commit b1 now) as [[fl b2]|] eqn:Ht; [|done]. cbn [mbind option_bind]. intros [= <-].
  assert (Hv : k_view k3 = k_view (ep_keeper b)) by congruence. apply try_commit_speaks in Ht. cbn [ep_keeper b1 send put fst] in Ht. rewrite Hv in Ht.
  apply (speaks_trans _ _ b1); [|exact Ht]. apply (speaks_trans _ _ (put b (k3, m2))); [by apply speaks_silent|]. apply speaks_one. cbn. by rewrite Hv.
Qed.

(** The routes that put a tail into the log store; what they lead to is acknowledged when
    it has landed there. *)
Definition submits_tail (r : SbRoute) : bool := match r with RouteStartViewAcks | RouteRetryTail => true | _ => false end.

Lemma adopt_append_out (k : Keeper) (m : Medium) op kind k' m' : adopt_append k m op kind = Some (k', m') -> nd_out (k_node k') = nd_out (k_node k).
Proof.
  unfold adopt_append. destruct (bt_get op _) as [e|]; [|by intros [= <- _]]. destruct (body_bytes _) as [body|]; [|by intros [= <- _]].
  destruct (ring_append_would_wrap _ _ _ _); [by intros [= <- _]|]. destruct (submit_or_defer_append _ _ _ _ _ _) as [[a m1]|]; [|done]. cbn [mbind option_bind]. by intros [= <- _].
Qed.

Lemma acks_out kind ops : forall (k : Keeper) (m : Medium) k' m', adopt_appends kind ops k m = Some (k', m') -> nd_out (k_node k') = nd_out (k_node k).
Proof.
  induction ops as [|op ops IH]; intros k m k' m'; cbn [adopt_appends]; [by intros [= <- _]|].
  destruct (adopt_append k m op _) as [[k1 m1]|] eqn:Ha; [|done]. cbn [mbind option_bind]. apply adopt_append_out in Ha. intros Hl%IH. congruence.
Qed.

Lemma retry_out (k : Keeper) (m : Medium) k' m' : retry_unappended_adopted_tail wal_status k m = Some (k', m') -> nd_out (k_node k') = nd_out (k_node k).
Proof.
  unfold retry_unappended_adopted_tail. destruct (_ || _); [by intros [= <- _]|]. generalize (uncommitted_tail k). intros ops. revert k m.
  induction ops as [|op ops IH]; intros k m; cbn [retry_ops]; [by intros [= <- _]|]. destruct (_ || _); [apply IH|].
  destruct (adopt_append k m op _) as [[k1 m1]|] eqn:Ha; [|done]. cbn [mbind option_bind]. apply adopt_append_out in Ha. intros Hl%IH. congruence.
Qed.


End release.
