(* ===== verification/Lifetimes.v ===== *)
(** * Lives of one session, played out

    Concrete lives ([Life.lives]) of a three-voter member on the ring and the one-writer
    superblock of [MediumDemo], over a state machine of one block: they show that the
    hypotheses of the theorems of [Life] can hold, and two of them that the premises its
    rules put on an epoch swap and on a reverted catch-up cannot be dropped. *)

From S2P Require Import Prelude Core Hash Membership Codec Message Messages BTree ViewChange Votes Sessions Normal Storage Lane Blocks SessionBlocks BlockJobs Medium Appends Repair SyncTrigger Roots Life.

Module Lifetimes.
Import MediumDemo.

#[local] Instance one_cell : StateMachine (list byte) (list byte) := {
  sm_apply sm op body := (sm, body);
  checkpoint_image sm := sm;
  materialize St B img s := put s img;
  block_references _ := [];
  restore_seed _ := [];
  restore seed root v := match v root with Some b => Ok b | None => Err root end;
}.

#[local] Abbreviation Keeper := (@Keeper (list byte)).
#[local] Abbreviation Medium := (@Medium RingWal OneWriter (list byte) (list byte) (gmap Z Session) unit).

(** ** The setting *)

Definition first : Membership := mkMembership 1 3 0 [1; 2; 3] 77.
Definition second : Membership := mkMembership 2 3 0 [1; 2; 3] (recompute_config_id 2 3 0 [1; 2; 3] 77).

(** Epochs 1 and 2 have the ids of [first] and [second]. *)
Definition ids (e : Epoch) : Z :=
  if e =? 2 then m_config_id second else if e =? m_config_id second - 76 then 78 else 76 + e.

Lemma ids_inj a b : ids a = ids b -> a = b.
Proof. unfold ids. generalize (m_config_id second). intros h. repeat match goal with |- context [?x =? ?y] => destruct (Z.eqb_spec x y) end; lia. Qed.

Definition installs (e : Epoch) : OpNumber := if e <=? 1 then 0 else 5.

Lemma installs_mono a b : a <= b -> installs a <= installs b.
Proof. unfold installs. destruct (Z.leb_spec a 1), (Z.leb_spec b 1); lia. Qed.

Definition agreed : History := mkHistory ids installs ids_inj installs_mono.

Definition config : Config := mkConfig 1 1 3 64.
Definition formatted : VsrState := mkVsrState 0 0 0 0 0 [] 1 0 (Some first) [] 0 0 3 ring.
Definition disk : Medium := medium_new (mkRingWal ∅ [] ∅) (mkOneWriter formatted [] ∅).
Definition syncer : Syncer := mkSyncer None None None None None 0 0 0 None 0 [] [].
Definition no_header (w : RingWal) (op : OpNumber) : option Header := None.

#[local] Abbreviation life := (lives (Walks := unit) agreed no_header).

Definition reborn (m : Medium) (inc : Z) : option (Keeper * Medium) :=
  match recover_baseline no_header config first [x68] syncer inc m with
  | Ok (RecoveredActive k, m) => Some (k, m)
  | _ => None
  end.

(** The read phase and the commits that follow it, up to operation [op]. *)
Definition served (k : Keeper) (op : OpNumber) : Keeper :=
  let p := k_posture k in
  with_recover
    (with_posture (with_knode k (node_frontier (k_node k) op op op))
       (mkPosture Normal (p_log_view p) (p_durable_view p) (p_view_change p) (p_svc_target p) (p_svc_from p) (p_pending_forfeit p)))
    None.

Lemma served_life k m op : life k m -> life (served k op) m.
Proof. intros Hl. apply (lives_elsewhere agreed no_header k _ m m Hl); reflexivity. Qed.

Lemma disk_rooted : rooted disk.
Proof.
  exists ∅. apply (opened_inv (mkWatched disk ∅ (fun _ => None))). split_and!; try done; [by eexists _, _|].
  intros sl i Hi. by apply elem_of_nil in Hi.
Qed.

Lemma first_on_history : on_history agreed first 0.
Proof. split; [split; [|done]|done]. split_and!; try done; repeat constructor; set_solver. Qed.

Lemma second_on_history : on_history agreed second 5.
Proof. split; [split; [|done]|done]. split_and!; try done; repeat constructor; set_solver. Qed.

Lemma formatted_sound : sound agreed formatted.
Proof. split; try done. split; [done|apply first_on_history]. Qed.

Lemma disk_sound r : is_root disk r -> sound agreed r.
Proof. intros [-> |(e & He & _)]; [apply formatted_sound|by apply elem_of_nil in He]. Qed.

(** ** Scripts *)

Inductive Deed : Type :=
| Reborn (incarnation : Z)
| Serve (op : OpNumber)
| Stage (op : OpNumber) (s : Membership)
| Enter (v : View)
| Adopt (v : View)
| CatchUp (v : View)
| Lapse
| Debt
| Materialized (job : JobId)
| Completion.

Definition rangedb (k : Keeper) : bool :=
  (ap_next_op_id (k_appends k) <? umax 64) && (0 <=? nd_commit_min (k_node k)) && (nd_commit_min (k_node k) <? umax 64).

Definition bootsb (m : Medium) (inc : Z) : bool :=
  bool_decide (set_Forall (fun id : WriteId => id.1 <> inc) (dom (checkpoints m)))
  && forallb (fun e => negb ((re_id e).1 =? inc)) (timeline m)
  && is_some (v_membership (durable m)).

(** A deed, where the rules of [lives] have it. *)
Definition perform (d : Deed) (s : Keeper * Medium) : option (Keeper * Medium) :=
  let '(k, m) := s in
  match d with
  | Reborn inc => if bootsb m inc then reborn m inc else None
  | Serve op => Some (served k op, m)
  | Stage op s =>
      if bool_decide (op = 5) && bool_decide (s = second) && (m_epoch (k_membership k) <=? 2)
      then Some (with_knode k (node_swap (k_node k) (Some (op, s))), m) else None
  | Enter v => if rangedb k && (k_view k <=? v) then enter_view_change k m 0 v else None
  | Adopt v => if rangedb k && (k_view k <=? v) then settle_adopted_head (set_view k v) m 0 0 else None
  | CatchUp v => catch_up_to_view k m 0 v
  | Lapse => if k_log_view k <=? Z.max (k_durable_view k) (v_view (effective_root m)) then Some ((catch_up_timeout k m).2, m) else None
  | Debt =>
      if rangedb k && negb (is_some (k_pending_sb k) || is_some (k_pending_checkpoint k) || is_some (k_pending_install k))
      then force_checkpoint k m else None
  | Materialized job => on_checkpoint_materialized k m job 7 8 true
  | Completion =>
      if rangedb k
      then '(out, m) ← poll_sb m;
           match out with
           | Some (dn, landed) => '(_, k, m) ← on_sb_done k m 0 dn landed; Some (k, m)
           | None => Some (k, m)
           end
      else None
  end.

Fixpoint live_out (ds : list Deed) (s : Keeper * Medium) : option (Keeper * Medium) :=
  match ds with [] => Some s | d :: ds => s ← perform d s; live_out ds s end.

Lemma rangedb_spec k : rangedb k = true -> in_range k.
Proof. unfold rangedb, in_range, ids_left. rewrite !andb_true_iff, Z.leb_le, !Z.ltb_lt. tauto. Qed.

Lemma bootsb_spec (m : Medium) inc : bootsb m inc = true -> boots agreed config first m inc.
Proof.
  unfold bootsb. rewrite !andb_true_iff. intros [[Hc Ht] Hm]. split.
  - intros id [Hd|(e & He & <-)]; [by apply bool_decide_eq_true in Hc; apply Hc|].
    rewrite List.forallb_forall in Ht. apply list_elem_of_In in He. specialize (Ht e He). apply negb_true_iff, Z.eqb_neq in Ht. done.
  - intros Hn. by rewrite Hn in Hm.
Qed.

Lemma reborn_spec (m : Medium) inc s : reborn m inc = Some s ->
  recover_baseline no_header config first [x68] syncer inc m = Ok (RecoveredActive s.1, s.2).
Proof. unfold reborn. destruct (recover_baseline _ _ _ _ _ _ _) as [[[k|] m']|]; try done. by intros [= <-]. Qed.

Lemma perform_life d s s' : life s.1 s.2 -> perform d s = Some s' -> life s'.1 s'.2.
Proof.
  destruct s as [k m]. intros Hl. cbn [perform fst snd] in *. destruct d.
  - destruct (bootsb m incarnation) eqn:Hb; [|done]. intros Hr%reborn_spec. by eapply lives_restart; [|apply bootsb_spec|].
  - intros [= <-]. by apply served_life.
  - destruct (_ && _) eqn:Hg; [|done]. rewrite !andb_true_iff, !bool_decide_eq_true, Z.leb_le in Hg. destruct Hg as [[-> ->] He].
    intros [= <-]. apply lives_stage; [done|apply second_on_history|done].
  - destruct (_ && _) eqn:Hg; [|done]. apply andb_true_iff in Hg as [Hr%rangedb_spec Hv%Z.leb_le]. destruct s' as [k' m']. by apply (lives_view_change agreed no_header k m 0 v).
  - destruct (_ && _) eqn:Hg; [|done]. apply andb_true_iff in Hg as [Hr%rangedb_spec Hv%Z.leb_le]. destruct s' as [k' m']. by apply (lives_adopt agreed no_header k m 0 v 0).
  - destruct s' as [k' m']. by apply lives_catch_up.
  - destruct (Z.leb_spec (k_log_view k) (Z.max (k_durable_view k) (v_view (effective_root m)))); [|done]. intros [= <-]. by apply lives_timeout.
  - destruct (_ && _) eqn:Hg; [|done]. apply andb_true_iff in Hg as [Hr%rangedb_spec Hn%negb_true_iff].
    destruct s' as [k' m']. destruct (k_pending_sb k) eqn:Hsb; [done|]. destruct (k_pending_checkpoint k) eqn:Hpc; [done|].
    destruct (k_pending_install k) eqn:Hpi; [done|]. by apply lives_debt.
  - destruct s' as [k' m']. by apply (lives_materialized agreed no_header k m job 7 8 true).
  - destruct (rangedb k) eqn:Hr; [|done]. apply rangedb_spec in Hr. destruct (poll_sb m) as [[[[dn landed]|] m1]|] eqn:Hp; [| |done]; cbn.
    + destruct (on_sb_done k m1 0 dn landed) as [[[r k'] m']|] eqn:Hd; [|done]. cbn. intros [= <-]. by eapply lives_completion.
    + intros [= <-]. by eapply lives_poll.
Qed.

Lemma live_out_life ds s s' : life s.1 s.2 -> live_out ds s = Some s' -> life s'.1 s'.2.
Proof.
  revert s. induction ds as [|d ds IH]; intros s Hl; cbn; [by intros [= <-]|].
  destruct (perform d s) as [s1|] eqn:Hp; [|done]. cbn. apply IH. by eapply perform_life.
Qed.

Definition born : option (Keeper * Medium) := reborn disk 1.

Lemma born_life s : born = Some s -> life s.1 s.2.
Proof.
  intros Hb%reborn_spec. apply (lives_boot agreed no_header config first [x68] syncer 1 disk s.1 s.2); [apply disk_rooted|apply disk_sound| |done].
  apply bootsb_spec. reflexivity.
Qed.

(** Where a script leads. *)
Definition after (ds : list Deed) : option (Keeper * Medium) := s ← born; live_out ds s.

Lemma after_life ds s : after ds = Some s -> life s.1 s.2.
Proof.
  unfold after. destruct born as [s0|] eqn:Hb; [|done]. cbn. apply live_out_life. by apply born_life.
Qed.

Lemma is_some_false {A} (o : option A) : is_some o = false -> o = None.
Proof. by destruct o. Qed.

Lemma is_some_true {A} (o : option A) : is_some o = true -> is_Some o.
Proof. destruct o; [by eexists|done]. Qed.

(** The route a completion takes, if its outcome passes a test. *)
Definition completes (k : Keeper) (m : Medium) (ok : SbRoute -> Keeper -> bool) : bool :=
  match poll_sb m with
  | Some (Some (dn, landed), m1) => match on_sb_done k m1 0 dn landed with Some (r, k', _) => ok r k' | None => false end
  | _ => false
  end.

Lemma completes_spec k m ok : completes k m ok = true ->
  exists m1 dn landed r k' m', poll_sb m = Some (Some (dn, landed), m1) /\ on_sb_done k m1 0 dn landed = Some (r, k', m') /\ ok r k' = true.
Proof.
  unfold completes. destruct (poll_sb m) as [[[[dn landed]|] m1]|]; [|discriminate..].
  destruct (on_sb_done k m1 0 dn landed) as [[[r k'] m']|] eqn:Hd; [|discriminate]. intros Hok. eexists _, _, _, _, _, _. split; [reflexivity|]. split; [exact Hd|exact Hok].
Qed.

(** ** The rules' premises are needed *)

(** A checkpoint root in flight, the endpoint rebuilt beneath it, a chained successor
    committed and staged before the root lands. *)
Definition swap_script : list Deed :=
  [Serve 3; Debt; Materialized (1, 1); Completion; Reborn 2; Serve 4; Stage 5 second].

(** C29. The swap's root cannot be built over a checkpoint in flight: [submit_swap_epoch]
    stamps the endpoint's own log floor, which a restart reads from the landed root,
    next to the effective checkpoint, which is past it, and its [expect] panics; the
    durable-view root of the same endpoint, whose floor is raised to the checkpoint,
    is accepted. *)
Theorem swap_under_inflight_checkpoint_panics :
  exists (k : Keeper) (m : Medium), life k m /\ in_range k /\ catching_up k = false /\ swap_stale k m second = false /\
    k_log_floor k < v_checkpoint_op (effective_root m) /\ maybe_swap_epoch k m = None /\
    is_Some (submit_durable_view k m Seal).
Proof.
  destruct (after swap_script) as [[k m]|] eqn:Ha; [|vm_compute in Ha; discriminate Ha].
  exists k, m. split; [exact (after_life swap_script (k, m) Ha)|].
  assert (Hc : rangedb k = true /\ catching_up k = false /\ swap_stale k m second = false /\
    (k_log_floor k <? v_checkpoint_op (effective_root m)) = true /\
    is_some (maybe_swap_epoch k m) = false /\ is_some (submit_durable_view k m Seal) = true).
  { vm_compute in Ha. injection Ha as <- <-. vm_compute. repeat split; reflexivity. }
  destruct Hc as (Hr & Hcu & Hst & Hlt & Hsw & Hdv). split; [by apply rangedb_spec|]. split; [exact Hcu|]. split; [exact Hst|]. split; [by apply Z.ltb_lt|].
  split; [exact (is_some_false _ Hsw)|exact (is_some_true _ Hdv)].
Qed.

(** A vote's root at the front, an adopted view parked behind it, abandoned by a catch-up
    that three windows do not validate. *)
Definition revert_script : list Deed := [Serve 3; Enter 3; Adopt 5; CatchUp 6].

Fixpoint lapses (n : nat) (k : Keeper) (m : Medium) : Keeper :=
  match n with O => k | Datatypes.S n => lapses n (catch_up_timeout k m).2 m end.

(** C30. A reverted catch-up can leave a Normal endpoint whose log is of a later view than
    it is in: the adopted view's root was abandoned, the log view was not taken back,
    and every view entered below the log's panics in the root builder. *)
Theorem reverted_catch_up_outruns_view :
  exists (k : Keeper) (m : Medium), life k m /\ in_range k /\
    let r := lapses 3 k m in
    k_status r = Normal /\ k_view r = 3 /\ k_log_view r = 5 /\ enter_view_change r m 0 4 = None.
Proof.
  destruct (after revert_script) as [[k m]|] eqn:Ha; [|vm_compute in Ha; discriminate Ha].
  exists k, m. split; [exact (after_life revert_script (k, m) Ha)|].
  assert (Hc : rangedb k = true /\ k_status (lapses 3 k m) = Normal /\ k_view (lapses 3 k m) = 3 /\ k_log_view (lapses 3 k m) = 5 /\
    is_some (enter_view_change (lapses 3 k m) m 0 4) = false).
  { vm_compute in Ha. injection Ha as <- <-. vm_compute. repeat split; reflexivity. }
  destruct Hc as (Hr & Hs & Hv & Hlv & He). split; [by apply rangedb_spec|]. cbv zeta. split; [exact Hs|]. split; [exact Hv|]. split; [exact Hlv|exact (is_some_false _ He)].
Qed.

(** ** Where the theorems of [Life] apply *)

(** An envelope landed, its root about to be written. *)
Definition written_script : list Deed := [Serve 3; Debt; Materialized (1, 1)].

Lemma roots_accepted_witness :
  exists (k : Keeper) (m : Medium), is_Some (enter_view_change k m 0 7) /\ is_Some (settle_new_primary k m) /\
    exists pc id dag, k_pending_checkpoint k = Some pc /\ pc_step pc = AwaitSnapshot id dag /\ is_Some (submit_checkpoint_root k m pc dag).
Proof.
  destruct (after written_script) as [[k m]|] eqn:Ha; [|vm_compute in Ha; discriminate Ha].
  assert (Hc : rangedb k = true /\ k_view k = 0 /\
    match k_pending_checkpoint k with Some pc => match pc_step pc with AwaitSnapshot _ _ => true | _ => false end | None => false end = true).
  { vm_compute in Ha. injection Ha as <- <-. vm_compute. repeat split; reflexivity. }
  destruct Hc as (Hr & Hv & Hc). destruct (k_pending_checkpoint k) as [pc|] eqn:Hpc; [|discriminate Hc].
  destruct (pc_step pc) as [|id dag|] eqn:Hs; [discriminate Hc| |discriminate Hc].
  destruct (roots_accepted agreed no_header k m (after_life written_script (k, m) Ha) (rangedb_spec k Hr)) as (He & Hn & _ & Hck & _).
  exists k, m. split; [apply He; rewrite Hv; lia|]. split; [exact Hn|]. exists pc, id, dag. split; [exact Hpc|]. split; [exact Hs|]. exact (Hck pc id dag Hpc Hs).
Defined.

(** A view entered, its root submitted. *)
Definition voting_script : list Deed := [Serve 3; Enter 1].

Lemma participates_durably_witness :
  exists (k : Keeper) (m : Medium) m1 dn landed k' m', poll_sb m = Some (Some (dn, landed), m1) /\
    on_sb_done k m1 0 dn landed = Some (RouteSendDoViewChange, k', m') /\
    k_durable_view k = 0 /\ v_view (durable m') = k_view k' /\ k_view k' = 1.
Proof.
  destruct (after voting_script) as [[k m]|] eqn:Ha; [|vm_compute in Ha; discriminate Ha].
  assert (Hc : rangedb k = true /\ k_durable_view k = 0 /\
    completes k m (fun r k' => match r with RouteSendDoViewChange => k_view k' =? 1 | _ => false end) = true).
  { vm_compute in Ha. injection Ha as <- <-. vm_compute. repeat split; reflexivity. }
  destruct Hc as (Hr & Hdv & Hc). apply completes_spec in Hc as (m1 & dn & landed & r & k' & m' & Hp & Hd & Hok).
  destruct r; try discriminate Hok. apply Z.eqb_eq in Hok as Hv.
  destruct (participates_durably agreed no_header k m (after_life voting_script (k, m) Ha) (rangedb_spec k Hr)) as [_ Hpart].
  destruct (Hpart m1 0 dn landed RouteSendDoViewChange k' m' Hp Hd (or_introl eq_refl)) as [Hdur _].
  exists k, m, m1, dn, landed, k', m'. repeat split; assumption.
Defined.

(** The same endpoint, crashed before its root lands: the rebuilt one is at view 1. *)
Lemma restart_keeps_promises_witness :
  exists (k0 : Keeper) (m : Medium) k m', reborn m 2 = Some (k, m') /\ k_view k0 = 1 /\ k_view k = 1 /\ k_durable_view k0 <= k_durable_view k.
Proof.
  destruct (after voting_script) as [[k0 m]|] eqn:Ha; [|vm_compute in Ha; discriminate Ha].
  assert (Hc : bootsb m 2 = true /\ k_view k0 = 1 /\ match reborn m 2 with Some (k, _) => k_view k =? 1 | None => false end = true).
  { vm_compute in Ha. injection Ha as <- <-. vm_compute. repeat split; reflexivity. }
  destruct Hc as (Hb & Hv0 & Hc). destruct (reborn m 2) as [[k m']|] eqn:Hr; [|discriminate Hc]. apply Z.eqb_eq in Hc as Hv.
  destruct (restart_keeps_promises agreed no_header config first [x68] syncer 2 k0 m k m' (after_life voting_script (k0, m) Ha)
              (bootsb_spec m 2 Hb) (reborn_spec m 2 (k, m') Hr)) as (_ & [Hd _] & _).
  exists k0, m, k, m'. repeat split; assumption.
Defined.

(** A checkpoint carried through, its root landed and its operations collected. *)
Definition reclaimed_script : list Deed := [Serve 3; Debt; Materialized (1, 1); Completion; Completion].

Lemma reclaims_below_checkpoint_witness :
  exists (k : Keeper) (m : Medium) k' m', run_gc k m = Some (k', m') /\ k_checkpoint_op k = 3 /\ v_checkpoint_op (durable m) = 3 /\
    f_wal_pruned (k_frontier k') <= Z.max (f_wal_pruned (k_frontier k)) (v_checkpoint_op (durable m')).
Proof.
  destruct (after reclaimed_script) as [[k m]|] eqn:Ha; [|vm_compute in Ha; discriminate Ha].
  assert (Hc : is_some (run_gc k m) = true /\ k_checkpoint_op k = 3 /\ v_checkpoint_op (durable m) = 3).
  { vm_compute in Ha. injection Ha as <- <-. vm_compute. repeat split; reflexivity. }
  destruct Hc as (Hc & Hk & Hm). destruct (run_gc k m) as [[k' m']|] eqn:Hg; [|discriminate Hc].
  destruct (reclaims_below_checkpoint agreed no_header k m (after_life reclaimed_script (k, m) Ha)) as (_ & _ & Hp).
  exists k, m, k', m'. repeat split; [assumption..|]. exact (Hp k' m' Hg).
Defined.

End Lifetimes.
