(* ===== verification/Rounds.v ===== *)
(** * Rounds of replication, played out

    A three-voter backup on the ring of [MediumDemo] taking prepares: out of order, with
    the bytes landed between, and again.  The runs show that the hypotheses of the
    theorems of [Prepares] can hold. *)

From S2P Require Import Prelude Core Hash Membership Codec Message Messages BTree ViewChange Votes Sessions Normal Storage Lane Blocks SessionBlocks BlockJobs Medium Appends Repair SyncTrigger Roots Life Prepares Views Lifetimes.

Module Rounds.
Import MediumDemo Lifetimes.
#[local] Existing Instance one_cell.

#[local] Abbreviation Keeper := (@Keeper (list byte)).
#[local] Abbreviation Medium := (@Medium RingWal OneWriter (list byte) (list byte) (gmap Z Session) unit).
#[local] Abbreviation Endpoint := (@Endpoint (list byte) (list byte) RingWal OneWriter unit).

(** What the ring answers for a slot: the header last landed there decides. *)
Definition ring_status (w : RingWal) (op : OpNumber) : SlotStatus :=
  match hd_error (rw_slot w (op mod ring)) with
  | Some id => match rw_bytes w !! id with Some (h, _) => if h_op h =? op then Clean else Empty | None => Empty end
  | None => Empty
  end.

(** The voter of slot 1, past its recovery, in view 0. *)
Definition backup : option Endpoint :=
  match recover_baseline no_header (mkConfig 1 2 3 64) first [x68] syncer 1 disk with
  | Ok (RecoveredActive k, m) => Some (mkEndpoint (served k 0) m [])
  | _ => None
  end.

Definition prepared (op commit : OpNumber) (body : list byte) : Prepare := mkPrepare 0 op commit 0 1 77 9 op body.

(** Prepares by arrival, and completions polled between them. *)
Inductive Turn : Type := Take (p : Prepare) | Land.

Definition turn (t : Turn) (b : Endpoint) : option Endpoint :=
  match t with
  | Take p => on_prepare ring_status b 0 p
  | Land =>
      '(out, m) ← poll_wal (ep_medium b);
      match out with
      | Some (d, freed) => '(b, _) ← on_wal_done (put b (ep_keeper b, m)) 0 d freed; Some b
      | None => Some b
      end
  end.

Fixpoint play (ts : list Turn) (b : Endpoint) : option Endpoint :=
  match ts with [] => Some b | t :: ts => b ← turn t b; play ts b end.

Definition played (ts : list Turn) : option Endpoint := b ← backup; play ts b.


Lemma ring_fixed : forall w : RingWal, wal_capacity w = ring.
Proof. reflexivity. Qed.

(** Two prepares, the later one first; then the bytes of one land. *)
Definition p1 : Prepare := prepared 1 0 [x62].
Definition p2 : Prepare := prepared 2 0 [x61].

Definition keyedb (t : btree Prepare) : bool := match t with [] => true | [(op, q)] => pp_op q =? op | _ => false end.

Lemma keyedb_spec t : keyedb t = true -> buffer_keyed t.
Proof. destruct t as [|[op q] [|]]; [split; constructor|intros Ht%Z.eqb_eq; split; repeat constructor; exact Ht|discriminate]. Qed.

(** A test of what taking a prepare after some turns ends in. *)
Definition takes (ts : list Turn) (p : Prepare) (ok : Endpoint -> Endpoint -> bool) : bool :=
  match played ts with
  | Some b => keyedb (k_buffer (ep_keeper b)) && match on_prepare ring_status b 0 p with Some b' => ok b b' | None => false end
  | None => false
  end.

Lemma takes_spec ts p ok : takes ts p ok = true ->
  exists b b', played ts = Some b /\ buffer_keyed (k_buffer (ep_keeper b)) /\ on_prepare ring_status b 0 p = Some b' /\ ok b b' = true.
Proof.
  unfold takes. destruct (played ts) as [b|]; [|discriminate]. intros [Hk Ht]%andb_true_iff. destruct (on_prepare _ _ _ _) as [b'|] eqn:Hb; [|discriminate].
  exists b, b'. split; [reflexivity|]. split; [by apply keyedb_spec|]. by split.
Qed.

Lemma fills_gap : takes [Take p2] p1 (fun b b' => is_normal (k_status (ep_keeper b')) && (head_op (ep_keeper b) =? 0) && (head_op (ep_keeper b') =? 2)) = true.
Proof. vm_compute. reflexivity. Qed.

Lemma prepares_splice_witness :
  exists b b' : Endpoint, on_prepare ring_status b 0 p1 = Some b' /\ head_op (ep_keeper b) = 0 /\ head_op (ep_keeper b') = 2 /\
    spliced p1 (ep_medium b) (ep_keeper b) (ep_keeper b').
Proof.
  destruct (takes_spec _ _ _ fills_gap) as (b & b' & _ & Hk & Hb & Ht). apply andb_true_iff in Ht as [Ht H2%Z.eqb_eq]. apply andb_true_iff in Ht as [Hn H0%Z.eqb_eq].
  exists b, b'. split; [exact Hb|]. split; [exact H0|]. split; [exact H2|].
  apply (prepares_splice ring_status ring ring_fixed b 0 p1 b' Hk Hb). by destruct (k_status (ep_keeper b')).
Defined.

(** A prepare taken again once its bytes are down: acknowledged. *)
Lemma acknowledges : takes [Take p1; Land] p1 (fun b b' => (length (ep_sent b') =? Datatypes.S (length (ep_sent b)))%nat) = true.
Proof. vm_compute. reflexivity. Qed.

Lemma acks_truthful_witness :
  exists b b' : Endpoint, on_prepare ring_status b 0 p1 = Some b' /\ length (ep_sent b') = Datatypes.S (length (ep_sent b)) /\ acks_sound ring_status p1 b b'.
Proof.
  destruct (takes_spec _ _ _ acknowledges) as (b & b' & _ & Hk & Hb & Ht%Nat.eqb_eq).
  exists b, b'. split; [exact Hb|]. split; [exact Ht|]. exact (acks_truthful ring_status ring ring_fixed b 0 p1 b' Hk Hb).
Defined.

(** The primary's point reached the backup: its commit continues. *)
Lemma commits :
  match played [Take p1; Land] with
  | Some b => match k_advance_commit (ep_keeper b) (ep_medium b) 0 1 with Some (Continue, k', _) => nd_commit_min (k_node k') =? 1 | _ => false end
  | None => false
  end = true.
Proof. vm_compute. reflexivity. Qed.

Lemma commit_flow_sound_witness :
  exists (k : Keeper) (m : Medium) k' m', k_advance_commit k m 0 1 = Some (Continue, k', m') /\ nd_commit_min (k_node k') = 1 /\ gen k' = gen k /\ cp k <= cp k'.
Proof.
  pose proof commits as Hc. destruct (played _) as [b|]; [|discriminate Hc].
  destruct (k_advance_commit (ep_keeper b) (ep_medium b) 0 1) as [[[[] k'] m']|] eqn:Ha; [|discriminate Hc..]. apply Z.eqb_eq in Hc.
  destruct (commit_flow_sound (ep_keeper b) b (ep_medium b) 0 1) as (Hx & _ & _). destruct (Hx Continue k' m' Ha) as [Hg Hp].
  exists (ep_keeper b), (ep_medium b), k', m'. split; [exact Ha|]. split; [exact Hc|]. split; [exact Hg|exact Hp].
Defined.

Definition own_header (kind : Pending) (h : Header) (body : list byte) : Prop := h_op h = pending_op kind.

Lemma disk_opened : opened (mkWatched disk ∅ (fun _ => None)).
Proof. split_and!; try done; [by eexists _, _|]. intros sl i Hi. by apply elem_of_nil in Hi. Qed.

(** One owed append, submitted by the prepare. *)
Definition owing : option (Appender * Medium) := submit_or_defer_append (new_appender 1) disk 1 (header_new 1 0 9 1 [x62]) [x62] (Ack 1).

Lemma takes_owing : match played [Take p1] with Some b => Some (k_appends (ep_keeper b), ep_medium b) | None => None end =
  match owing with Some (a, m) => Some (mark a 1, m) | None => None end.
Proof. vm_compute. reflexivity. Qed.

Lemma owing_owned a m : owing = Some (a, m) -> owned own_header (mark a 1) m.
Proof.
  intros Hs. apply (owned_submit own_header (new_appender 1) disk 1 (header_new 1 0 9 1 [x62]) [x62] (Ack 1) a m);
    [exact (owned_open own_header (mkWatched disk ∅ (fun _ => None)) 1 disk_opened (fun i Hi => False_ind _ (not_elem_of_empty i Hi)))|apply not_elem_of_empty|reflexivity|reflexivity|exact Hs].
Qed.

Lemma lands_and_acks :
  match played [Take p1] with
  | Some b =>
      match poll_wal (ep_medium b) with
      | Some (Some (d, freed), m1) => match on_wal_done (put b (ep_keeper b, m1)) 0 d freed with Some (b', _) => (length (ep_sent b') =? 1)%nat | None => false end
      | _ => false
      end
  | None => false
  end = true.
Proof. vm_compute. reflexivity. Qed.

Lemma acts_after_landing_witness :
  exists (b : Endpoint) d freed m1 b' rest, poll_wal (ep_medium b) = Some (Some (d, freed), m1) /\
    on_wal_done (put b (ep_keeper b, m1)) 0 d freed = Some (b', rest) /\ length (ep_sent b') = 1%nat /\
    (unmoved b b' \/ exists action, landed_action own_header b m1 d action /\ led_by action b b').
Proof.
  pose proof lands_and_acks as Hc. pose proof takes_owing as Ht. destruct (played [Take p1]) as [b|]; [|discriminate Hc].
  assert (Ho : owned own_header (k_appends (ep_keeper b)) (ep_medium b)).
  { destruct owing as [[a m]|] eqn:Hs; [|discriminate Ht]. injection Ht as -> ->. exact (owing_owned a m Hs). }
  destruct (poll_wal (ep_medium b)) as [[[[d freed]|] m1]|] eqn:Hp; [|discriminate Hc..].
  destruct (on_wal_done (put b (ep_keeper b, m1)) 0 d freed) as [[b' rest]|] eqn:Hd; [|discriminate Hc].
  exists b, d, freed, m1, b', rest. split; [exact Hp|]. split; [exact Hd|]. split; [by apply Nat.eqb_eq|].
  exact (acts_after_landing own_header b 0 d freed m1 b' rest Ho Hp Hd).
Defined.

(** ** A view started *)

Lemma first_wf : wf first.
Proof. destruct first_on_history as [[Hwf _] _]. exact Hwf. Qed.

(** The content hash of the body of [p1]. *)
Definition digest : Z := 279349696672593719260911116886360100117.

Lemma digest_hash : fnv1a_128 (pp_body p1) = digest.
Proof. vm_compute. reflexivity. Qed.

Definition op1 : PreparedEntry := entry_repairing 1 9 1 digest.
Definition vote (slot : ReplicaId) : DoViewChange := mkDVC 1 0 1 0 0 1 77 slot [op1].
Definition ballots : list DoViewChange := [vote 0; vote 1].

(** The backup of slot 1 holds op 1, enters view 1 and has the votes of two slots. *)
Definition stand (k : Keeper) (m : Medium) (votes : list DoViewChange) : Endpoint :=
  mkEndpoint (set_collection k (Some (mkCollection (map (fun d => (d_replica d, d)) votes) false false 0))) m [].

Definition votes_of (b : Endpoint) : option (list DoViewChange) := vc ← p_view_change (k_posture (ep_keeper b)); Some (map snd (vc_dvc_from vc)).

Lemma stand_votes k m votes : votes_of (stand k m votes) = Some votes.
Proof. unfold votes_of, stand. cbn [ep_keeper set_collection with_posture k_posture p_view_change mbind option_bind vc_dvc_from]. f_equal. rewrite map_map. by rewrite List.map_id. Qed.

Definition elect (s : option Endpoint) : option Endpoint :=
  match s with
  | Some b => match enter_view_change (ep_keeper b) (ep_medium b) 0 1 with Some (k, m) => Some (stand k m ballots) | None => None end
  | None => None
  end.

Lemma elect_votes s b : elect s = Some b -> votes_of b = Some ballots.
Proof.
  unfold elect. destruct s as [b0|]; [|discriminate]. destruct (enter_view_change _ _ _ _) as [[k m]|]; [|discriminate].
  intros Hx. injection Hx as <-. apply stand_votes.
Qed.

(** Whether the vote of a member of [first] that holds op 1 alone opens the view. *)
Definition opens (s : option Endpoint) : bool :=
  match elect s with
  | Some b =>
      bool_decide (k_membership (ep_keeper b) = first) && bool_decide (map fst (nd_log (k_node (ep_keeper b))) = [1])
      && match start_view_as_new_primary b 0 with Some b' => negb (recovering (ep_keeper b')) | None => false end
  | None => false
  end.

Lemma opens_spec s : opens s = true -> exists b b' : Endpoint, votes_of b = Some ballots /\ k_membership (ep_keeper b) = first /\
  bt_sorted (nd_log (k_node (ep_keeper b))) /\ start_view_as_new_primary b 0 = Some b' /\ k_status (ep_keeper b') <> Recovering.
Proof.
  unfold opens. destruct (elect s) as [b|] eqn:Hb; [|discriminate]. apply elect_votes in Hb. intros [Hc Hx]%andb_true_iff. apply andb_true_iff in Hc as [Hm Hl].
  apply bool_decide_eq_true in Hm, Hl. destruct (start_view_as_new_primary b 0) as [b'|] eqn:Hs; [|discriminate]. exists b, b'. split; [exact Hb|]. split; [exact Hm|].
  split; [destruct (nd_log (k_node (ep_keeper b))) as [|[o e] [|]]; [constructor|repeat constructor|discriminate Hl]|]. split; [exact Hs|].
  intros Hr. unfold recovering in Hx. rewrite Hr in Hx. discriminate Hx.
Qed.

Lemma slot1_opens : opens (played [Take p1; Land]) = true.
Proof. vm_compute. reflexivity. Qed.

Lemma ballots_quorum : vote_quorum first ballots.
Proof. split_and!; [compute_done|repeat constructor; apply elem_voting_slots; simpl; lia|compute_done]. Qed.

Lemma ballots_ok : Forall dvc_widths ballots /\ Forall dvc_honest ballots.
Proof. split; repeat constructor; cbn; lia. Qed.

Lemma ballots_cover d o : d ∈ ballots -> 0 < o <= 1 -> covers o d.
Proof.
  intros Hd Ho. assert (o = 1) as -> by lia. right. exists op1. unfold ballots in Hd. apply elem_of_cons in Hd as [-> |Hd]; [split; [by left|done]|].
  apply list_elem_of_singleton in Hd as ->. split; [by left|done].
Qed.

Lemma ballots_agree d o : d ∈ ballots -> ViewChange.agrees o (9, 1, digest) d.
Proof.
  intros Hd e He _. assert (e = op1) as ->; [|reflexivity]. unfold ballots in Hd. apply elem_of_cons in Hd as [-> |Hd]; [by apply list_elem_of_singleton in He|].
  apply list_elem_of_singleton in Hd as ->. by apply list_elem_of_singleton in He.
Qed.

Lemma ballots_select : exists s, select_canonical_log first ballots = Some s /\ s_floor s = 0.
Proof. eexists. split; reflexivity. Qed.

Lemma quorum_slots : ({[0; 1]} : gset Z) ⊆ voting_slots first /\ quorum first <= Z.of_nat (size ({[0; 1]} : gset Z)).
Proof.
  split; [|vm_compute; discriminate]. intros x [->%elem_of_singleton| ->%elem_of_singleton]%elem_of_union; apply elem_voting_slots; cbn; lia.
Qed.

Lemma ballots_hold d : d ∈ ballots -> d_replica d ∈ ({[0; 1]} : gset Z) -> 0 <= d_log_view d /\ 1 <= d_op d /\ forall o, 0 < o <= 1 -> covers o d.
Proof.
  intros Hd _. assert (d_log_view d = 0 /\ d_op d = 1) as [-> ->].
  { unfold ballots in Hd. apply elem_of_cons in Hd as [-> |Hd]; [done|]. by apply list_elem_of_singleton in Hd as ->. }
  split; [lia|]. split; [lia|]. intros o Ho. by apply ballots_cover.
Qed.

Lemma committed_ops_installed_witness :
  exists b b' : Endpoint, start_view_as_new_primary b 0 = Some b' /\
    exists l, entry_at (ep_keeper b') 1 = Some l /\ 1 <= head_op (ep_keeper b') /\ (l_client l, l_request l, body_checksum (l_body l)) = (9, 1, digest).
Proof.
  destruct (opens_spec _ slot1_opens) as (b & b' & Hv & Hm & Hso & Hs & Hn). destruct ballots_select as (s & Hsel & Hf). destruct ballots_ok as [Hw Hh]. destruct quorum_slots as [Hq Hqn].
  pose proof (committed_ops_installed b 0 b' ballots s {[0; 1]} 0 1 (fun _ => (9, 1, digest))) as Ht. cbv zeta in Ht. rewrite Hm in Ht.
  destruct (Ht Hs Hn Hso first_wf Hv Hsel ballots_quorum Hw Hh Hq Hqn ballots_hold (fun d o Hd _ Ho => ballots_cover d o Hd Ho) (fun d o Hd _ _ => ballots_agree d o Hd) ltac:(lia)) as [Hle|Hl].
  - rewrite Hf in Hle. lia.
  - exists b, b'. split; [exact Hs|exact Hl].
Defined.

(** ** A view announced, and a vote released *)

(** The primary of view 3 announces op 1, which the backup holds. *)
Definition news : StartView := mkStartView 3 1 0 0 1 77 0 [op1].

Definition adopts (s : option Endpoint) : bool :=
  match s with
  | Some b => match on_start_view b 0 news with Some b' => (k_view (ep_keeper b') =? 3) && (head_op (ep_keeper b') =? 1) | None => false end
  | None => false
  end.

Lemma adopts_spec s : adopts s = true -> exists b b' : Endpoint, on_start_view b 0 news = Some b' /\ k_view (ep_keeper b') = 3 /\ head_op (ep_keeper b') = 1.
Proof.
  unfold adopts. destruct s as [b|]; [|discriminate]. destruct (on_start_view b 0 news) as [b'|] eqn:Hs; [|discriminate].
  intros [Hv%Z.eqb_eq Hh%Z.eqb_eq]%andb_true_iff. exists b, b'. split; [exact Hs|]. by split.
Qed.

Lemma backup_adopts : adopts (played [Take p1; Land]) = true.
Proof. vm_compute. reflexivity. Qed.


(** A vote held back for its root, sent when the root lands. *)
Definition releases (s : option (Keeper * Medium)) : bool :=
  match s with
  | Some (k, m) =>
      rangedb k &&
      match poll_sb m with
      | Some (Some (dn, landed), m1) =>
          match on_sb_done k m1 0 dn landed with
          | Some (r, k', m') =>
              match sb_done_dispatch ring_status (mkEndpoint k' m' []) 0 r with Some b' => (length (ep_sent b') =? 1)%nat && (v_view (durable m') =? 1) | None => false end
          | None => false
          end
      | _ => false
      end
  | None => false
  end.

Lemma releases_spec s : releases s = true -> exists k m m1 dn landed r k' m' b', s = Some (k, m) /\ in_range k /\ poll_sb m = Some (Some (dn, landed), m1) /\
  on_sb_done k m1 0 dn landed = Some (r, k', m') /\ sb_done_dispatch ring_status (mkEndpoint k' m' []) 0 r = Some b' /\ length (ep_sent b') = 1%nat /\ v_view (durable m') = 1.
Proof.
  unfold releases. destruct s as [[k m]|]; [|discriminate]. intros [Hr Hx]%andb_true_iff. apply rangedb_spec in Hr.
  destruct (poll_sb m) as [[[[dn landed]|] m1]|] eqn:Hp; [|discriminate..]. destruct (on_sb_done k m1 0 dn landed) as [[[r k'] m']|] eqn:Hd; [|discriminate].
  destruct (sb_done_dispatch _ _ _ _) as [b'|] eqn:Hb; [|discriminate]. apply andb_true_iff in Hx as [Hl%Nat.eqb_eq Hv%Z.eqb_eq].
  exists k, m, m1, dn, landed, r, k', m', b'. split; [reflexivity|]. split; [exact Hr|]. split; [exact Hp|]. split; [exact Hd|]. split; [exact Hb|]. by split.
Qed.

Lemma vote_released : releases (after voting_script) = true.
Proof. vm_compute. reflexivity. Qed.


End Rounds.
