(* ===== verification/Reconfigure.v ===== *)
(** * Proposing a reconfiguration

    The operator's side of a membership change over the endpoint of [Prepares]:
    [propose_membership] of [viewstamp-proto/src/endpoint/reconfigure.rs] with its
    admission, its fault-tolerance and its catch-up gates, the minting it shares with a
    client's request ([mint_op] and [on_request] of [endpoint/normal.rs]), and the two
    challenges of [endpoint/mod.rs] that gather the evidence a change is decided on: the
    learner proof ([on_request_learner_proof], [on_learner_proof]) and the voter-liveness
    probe ([solicit_health_proofs], [on_request_health_proof], [on_health_proof],
    [proven_live_voters]), with the progress learners report ([on_learner_status]).

    [Proposing] is the endpoint with the fields only these operations write and a reset
    clears.  What the rest of the endpoint does in between is the step [evidence_other]: any
    change that clears both challenges, as a view transition and a swap of the membership
    do, or that keeps them and the configuration.  A fail-stop is [None]. *)

From S2P Require Import Prelude Core Hash Membership Codec Message Messages BTree ViewChange Votes Proposals Sessions Normal Storage Lane Blocks SessionBlocks BlockJobs Medium Appends Serve Repair SyncTrigger Roots Prepares.

Record LearnerProofState : Type := mkLearnerProofState {
  lc_target : MemberId;
  lc_at_op : OpNumber;
  lc_nonce : Z;
  lc_proof : option OpNumber;
}.

Record HealthProbeState : Type := mkHealthProbe {
  hs_nonce : Z;
  hs_solicited_at : Z;
  hs_expires_at : Z;
  hs_responders : gset MemberId;
}.

Inductive ProposeMembershipError : Type :=
| NotPrimary
| NotNormal
| AlreadyInFlight
| Invalid (e : MembershipError)
| ProofPending
| ReducedFaultToleranceUnacknowledged (from to : Z)
| ProposeBusy
| ProposeAtCapacity.

Section reconfigure.
Context {S Image W B Walks : Type} `{StateMachine S Image} `{Wal W} `{Superblock B}.
#[local] Abbreviation Keeper := (@Keeper S).
#[local] Abbreviation Endpoint := (@Endpoint S Image W B Walks).

Record Proposing : Type := mkProposing {
  rp_endpoint : Endpoint;
  rp_learner_proof : option LearnerProofState;
  rp_health_probe : option HealthProbeState;
  rp_peer_progress : gmap MemberId OpNumber;
  rp_inflight : option OpNumber;
}.

Definition rp_keeper (p : Proposing) : Keeper := ep_keeper (rp_endpoint p).
Definition rp_membership (p : Proposing) : Membership := k_membership (rp_keeper p).
Definition with_endpoint (p : Proposing) (b : Endpoint) : Proposing :=
  mkProposing b (rp_learner_proof p) (rp_health_probe p) (rp_peer_progress p) (rp_inflight p).
Definition with_proof (p : Proposing) (c : option LearnerProofState) : Proposing :=
  mkProposing (rp_endpoint p) c (rp_health_probe p) (rp_peer_progress p) (rp_inflight p).
Definition with_probe (p : Proposing) (h : option HealthProbeState) : Proposing :=
  mkProposing (rp_endpoint p) (rp_learner_proof p) h (rp_peer_progress p) (rp_inflight p).
Definition tell (p : Proposing) (out : list (Recipient * Message)) : Proposing := with_endpoint p (send (rp_endpoint p) out).
Definition k_local_slot (k : Keeper) : option ReplicaId := local_slot_opt (k_membership k) (k_local k).

(** [self.nonce = self.nonce.wrapping_add(1)] *)
Definition draw_nonce (p : Proposing) : Z * Proposing :=
  let k := rp_keeper p in
  let y := o_syncer (k_owed k) in
  let nonce := wrap 64 (sy_nonce y + 1) in
  let y := mkSyncer (sy_sync y) (sy_block_fetch y) (sy_cross_epoch_intent y) (sy_quarantined_donor y) (sy_probe_deadline y)
             (sy_probe_mark y) (sy_fetch_progress y) nonce (sy_solicit y) (sy_below_ring y) (sy_sent y) (sy_started y) in
  (nonce, with_endpoint p (set_keeper (rp_endpoint p) (with_syncer k y))).

(** ** Minting an op *)

Definition minted_prepare (k : Keeper) (client : ClientId) (request : RequestNumber) (bytes : list byte) : Prepare :=
  mkPrepare (k_view k) (nd_op (k_node k)) (nd_commit_min (k_node k)) (k_checkpoint_op k) (m_epoch (k_membership k))
    (m_config_id (k_membership k)) client request bytes.

Definition k_mint_op (b : Endpoint) (client : ClientId) (request : RequestNumber) (bytes : list byte) (body : Body) : option Endpoint :=
  let k := ep_keeper b in
  let op := Counter.next (nd_op (k_node k)) in
  let k := with_knode k (node_frontier (k_node k) op (nd_commit_min (k_node k)) (nd_commit_max (k_node k))) in
  '(a, m) ← submit_or_defer_append (k_appends k) (ep_medium b) op (header_new op (k_view k) client request bytes) bytes (Ack op);
  let k := with_owned_appends k a in
  let n := k_node k in
  let inflight := mkInflight 0 false (prepare_identity client request (fnv1a_128 bytes)) in
  let k := with_knode k (set_log n (bt_insert op (mkLogEntry client request body) (nd_log n)) (bt_insert op inflight (nd_inflight n)) (nd_repair n)) in
  let k := mark_appending k op in
  Some (send (put b (k, m)) [(Backups, MPrepare (minted_prepare k client request bytes))]).

Definition with_sessions (k : Keeper) (t : gmap Z Session) : Keeper := with_knode k (set_clients (k_node k) t 0).

(** The endpoint afterwards and whether the back-pressure counter was bumped. *)
Definition k_on_request (b : Endpoint) (r : Request) : option (Endpoint * bool) :=
  let k := ep_keeper b in
  let n := k_node k in
  if rq_client r =? RECONFIGURATION then Some (b, false)
  else
    let admission := check_new_op_admission n (normal_ctx k) in
    match admission with
    | Err NotNormalPrimary | Err Busy | Err SteppingDown | Err CommitGap => Some (b, false)
    | _ =>
        match dedup (session_table_hard_bound (nd_config n)) (nd_clients n) (rq_client r) (rq_request r) with
        | Stale | InFlight | Gap | SessionsFull => Some (b, false)
        | Resend rn reply => Some (send b [(To (PeerClient (rq_client r)), MReply (mkReply (k_view k) (rq_client r) rn reply))], false)
        | Fresh =>
            match admission with
            | Err AtCapacity => Some (b, true)
            | Err PipelineFull => Some (b, false)
            | _ =>
                let k := with_sessions k (accept (nd_clients n) (rq_client r) (rq_request r)) in
                b ← k_mint_op (set_keeper b k) (rq_client r) (rq_request r) (rq_body r) (Present (rq_body r));
                Some (b, false)
            end
        end
    end.

(** ** Learner proofs *)

(** The reset of a view transition and a membership swap drop both challenges. *)
Definition forget_challenges (p : Proposing) : Proposing := with_probe (with_proof p None) None.

Definition on_learner_status (p : Proposing) (m : LearnerStatus) : Proposing :=
  match member_at (rp_membership p) (ls_replica m) with
  | None => p
  | Some member =>
      let reported := Z.min (ls_durable_commit_min m) (ls_durable_op m) in
      let best := Z.max (default 0 (rp_peer_progress p !! member)) reported in
      mkProposing (rp_endpoint p) (rp_learner_proof p) (rp_health_probe p) (<[member := best]> (rp_peer_progress p)) (rp_inflight p)
  end.

Definition own_configuration (p : Proposing) (epoch : Epoch) (config_id : Z) : bool :=
  (epoch =? m_epoch (rp_membership p)) && (config_id =? m_config_id (rp_membership p)).

Definition on_request_learner_proof (p : Proposing) (m : RequestLearnerProof) : option Proposing :=
  if negb (own_configuration p (rlp_epoch m) (rlp_config_id m)) then Some p
  else
    let k := rp_keeper p in
    slot ← k_local_slot k;
    Some (tell p [(To (PeerReplica (rlp_from m)),
                   MLearnerProof (mkLearnerProof slot (rlp_nonce m) (nd_commit_min (k_node k)) (m_epoch (rp_membership p)) (m_config_id (rp_membership p))))]).

Definition on_learner_proof (p : Proposing) (from : Peer) (m : LearnerProof) : Proposing :=
  match rp_learner_proof p with
  | None => p
  | Some c =>
      if negb (lp_nonce m =? lc_nonce c) then p
      else if negb (bool_decide ((slot ← as_replica from; member_at (rp_membership p) slot) = Some (lc_target c))) then p
      else if negb (own_configuration p (lp_epoch m) (lp_config_id m)) then p
      else with_proof p (Some (mkLearnerProofState (lc_target c) (lc_at_op c) (lc_nonce c) (Some (lp_frontier m))))
  end.

(** ** The liveness probe *)

Definition probe_request (p : Proposing) (from : ReplicaId) (nonce : Z) (slot : ReplicaId) : Recipient * Message :=
  (To (PeerReplica slot), MRequestHealthProof (mkRequestHealthProof from nonce (m_epoch (rp_membership p)) (m_config_id (rp_membership p)))).

Definition solicit_health_proofs (p : Proposing) (now lifetime : Z) : option Proposing :=
  let k := rp_keeper p in
  if negb (is_normal (k_status k)) || negb (k_is_primary k) then Some p
  else
    let '(nonce, p) :=
      match rp_health_probe p with
      | Some h =>
          if now <? hs_expires_at h then (hs_nonce h, p)
          else let '(nonce, p) := draw_nonce p in (nonce, with_probe p (Some (mkHealthProbe nonce now (Time.instant_add now lifetime) ∅)))
      | None => let '(nonce, p) := draw_nonce p in (nonce, with_probe p (Some (mkHealthProbe nonce now (Time.instant_add now lifetime) ∅)))
      end in
    from ← k_local_slot (rp_keeper p);
    Some (tell p (map (probe_request p from nonce) (List.filter (fun slot => negb (slot =? from)) (seqZ 0 (m_replica_count (rp_membership p)))))).

Definition on_request_health_proof (p : Proposing) (m : RequestHealthProof) : option Proposing :=
  if negb (own_configuration p (rhp_epoch m) (rhp_config_id m)) then Some p
  else
    slot ← k_local_slot (rp_keeper p);
    Some (tell p [(To (PeerReplica (rhp_from m)),
                   MHealthProof (mkHealthProof slot (rhp_nonce m) (m_epoch (rp_membership p)) (m_config_id (rp_membership p))))]).

Definition on_health_proof (p : Proposing) (from : Peer) (m : HealthProof) : Proposing :=
  match rp_health_probe p with
  | None => p
  | Some h =>
      if negb (hp_nonce m =? hs_nonce h) then p
      else if negb (own_configuration p (hp_epoch m) (hp_config_id m)) then p
      else
        match as_replica from with
        | None => p
        | Some slot =>
            if negb (is_voter (rp_membership p) slot) then p
            else
              match member_at (rp_membership p) slot with
              | None => p
              | Some member =>
                  with_probe p (Some (mkHealthProbe (hs_nonce h) (hs_solicited_at h) (hs_expires_at h) ({[member]} ∪ hs_responders h)))
              end
        end
  end.

Definition proven_live_voters (p : Proposing) (now : Z) : gset MemberId :=
  let k := rp_keeper p in
  if negb (is_normal (k_status k)) || negb (k_is_primary k) then ∅
  else
    match rp_health_probe p with
    | None => ∅
    | Some h => if hs_expires_at h <? now then ∅ else {[k_local k]} ∪ hs_responders h
    end.

(** ** Proposing *)

(** A fresh proof of the target, covering the head. *)
Definition proof_covers (p : Proposing) (target : MemberId) : bool :=
  let head := nd_op (k_node (rp_keeper p)) in
  match rp_learner_proof p with
  | Some c =>
      (lc_target c =? target) && (head <=? lc_at_op c) && match lc_proof c with Some f => head <=? f | None => false end
  | None => false
  end.

(** An outstanding challenge is retransmitted, any other is drawn anew. *)
Definition challenge_learner (p : Proposing) (target : MemberId) : option Proposing :=
  slot ← slot_of (rp_membership p) target;
  let head := nd_op (k_node (rp_keeper p)) in
  let drawn := let '(nonce, p) := draw_nonce p in (nonce, with_proof p (Some (mkLearnerProofState target head nonce None))) in
  let '(nonce, p) :=
    match rp_learner_proof p with
    | Some c => if (lc_target c =? target) && (lc_at_op c =? head) && negb (is_some (lc_proof c)) then (lc_nonce c, p) else drawn
    | None => drawn
    end in
  from ← k_local_slot (rp_keeper p);
  Some (tell p [(To (PeerReplica slot),
                 MRequestLearnerProof (mkRequestLearnerProof from head nonce (m_epoch (rp_membership p)) (m_config_id (rp_membership p))))]).

(** Past every gate: the op of the successor, latched. *)
Definition mint_reconfigure (p : Proposing) (successor : Membership) : option (Proposing * OpNumber) :=
  let payload := from_membership successor (m_config_id (rp_membership p)) in
  let op := Counter.next (nd_op (k_node (rp_keeper p))) in
  b ← k_mint_op (rp_endpoint p) RECONFIGURATION op (encode_body payload) (Reconfigure payload);
  let head := nd_op (k_node (ep_keeper b)) in
  Some (mkProposing b (rp_learner_proof p) (rp_health_probe p) (rp_peer_progress p) (Some head), head).

(** [ack] is whether an [AcceptReducedFaultTolerance] was passed. *)
Definition propose_membership (p : Proposing) (delta : SingleVoterDelta) (ack : bool)
    : option (Proposing * result ProposeMembershipError OpNumber) :=
  let k := rp_keeper p in
  let refuse e := Some (p, Err e) in
  if negb (k_is_primary k) then refuse NotPrimary
  else if negb (is_normal (k_status k)) then refuse NotNormal
  else if has_pending_reconfigure (k_node k) (normal_ctx k) then refuse AlreadyInFlight
  else
    match check_new_op_admission (k_node k) (normal_ctx k) with
    | Err PipelineFull | Err AtCapacity => refuse ProposeAtCapacity
    | Err Busy | Err SteppingDown | Err CommitGap => refuse ProposeBusy
    | Ok tt | Err NotNormalPrimary =>
        match apply_delta (rp_membership p) delta with
        | Err e => refuse (Invalid e)
        | Ok successor =>
            let f_pred := fault_tolerance (rp_membership p) in
            let f_succ := fault_tolerance successor in
            if (f_succ <? f_pred) && negb ack then refuse (ReducedFaultToleranceUnacknowledged f_pred f_succ)
            else
              match delta with
              | PromoteLearner target =>
                  if proof_covers p target then '(p, op) ← mint_reconfigure (with_proof p None) successor; Some (p, Ok op)
                  else p ← challenge_learner p target; Some (p, Err ProofPending)
              | _ => '(p, op) ← mint_reconfigure p successor; Some (p, Ok op)
              end
        end
    end.

End reconfigure.

(** ** The offline lane *)

Inductive ReconfigError : Type :=
| NoMembership
| MembershipInvalid (e : MembershipError)
| StateInvalid (e : VsrStateError).

Definition prepare_restart (cur : VsrState) (replica_count learner_count : Z) (members : list MemberId) : result ReconfigError VsrState :=
  match v_membership cur with
  | None => Err NoMembership
  | Some current =>
      let? successor := map_err MembershipInvalid (reconfigure current replica_count learner_count members) in
      let prior_config_ids := push_lineage (v_prior_config_ids cur) (m_config_id current) in
      let? state := map_err StateInvalid
        (let? s := try_new_v4 (v_view cur) (v_log_view cur) (v_commit cur) (v_checkpoint_op cur) (v_checkpoint_id cur) (v_committed_headers cur)
                     (m_epoch successor) (v_epoch cur) successor prior_config_ids (v_checkpoint_op cur) in
         with_log_floor s (v_log_floor cur)) in
      Ok (with_wal_geometry state (v_checkpoint_ops cur) (v_wal_capacity cur))
  end.

(** ** A minted op *)

Section minting.
Context {S Image W B Walks : Type} `{StateMachine S Image} `{Wal W} `{Superblock B}.
#[local] Abbreviation Keeper := (@Keeper S).
#[local] Abbreviation Endpoint := (@Endpoint S Image W B Walks).
#[local] Abbreviation Proposing := (@Proposing S Image W B Walks).

Definition newly_sent (b b' : Endpoint) : list (Recipient * Message) := drop (length (ep_sent b)) (ep_sent b').

Lemma newly_sent_send (b : Endpoint) out : newly_sent b (send b out) = out.
Proof. unfold newly_sent, send. cbn. by rewrite drop_app_length. Qed.

Record op_minted (b b' : Endpoint) (client : ClientId) (request : RequestNumber) (bytes : list byte) (body : Body) : Prop := {
  om_head : nd_op (k_node (ep_keeper b')) = Counter.next (nd_op (k_node (ep_keeper b)));
  om_entry : entry_at (ep_keeper b') (nd_op (k_node (ep_keeper b'))) = Some (mkLogEntry client request body);
  om_frontier : nd_commit_min (k_node (ep_keeper b')) = nd_commit_min (k_node (ep_keeper b));
  om_membership : k_membership (ep_keeper b') = k_membership (ep_keeper b);
  om_swap : nd_pending_swap (k_node (ep_keeper b')) = nd_pending_swap (k_node (ep_keeper b));
  om_sent : newly_sent b b' = [(Backups, MPrepare (minted_prepare (ep_keeper b') client request bytes))];
}.

Lemma k_mint_op_spec (b : Endpoint) client request bytes body b' :
  k_mint_op b client request bytes body = Some b' -> op_minted b b' client request bytes body.
Proof.
  unfold k_mint_op. destruct (submit_or_defer_append _ _ _ _ _ _) as [[a m]|]; cbn -[Counter.next]; [|done].
  intros [= <-]. split; try done; cbn -[Counter.next].
  - unfold entry_at. cbn -[Counter.next]. by rewrite bt_get_insert, Z.eqb_refl.
  - unfold newly_sent. cbn -[Counter.next]. by rewrite drop_app_length.
Qed.

Lemma draw_nonce_spec (p : Proposing) n p' : draw_nonce p = (n, p') ->
  k_node (rp_keeper p') = k_node (rp_keeper p) /\ ep_sent (rp_endpoint p') = ep_sent (rp_endpoint p) /\
  rp_learner_proof p' = rp_learner_proof p /\ rp_health_probe p' = rp_health_probe p.
Proof. unfold draw_nonce. intros [= <- <-]. by split_and!. Qed.

Lemma mint_reconfigure_spec (p : Proposing) successor p' op : mint_reconfigure p successor = Some (p', op) ->
  let payload := from_membership successor (m_config_id (rp_membership p)) in
  op = Counter.next (nd_op (k_node (rp_keeper p))) /\ nd_op (k_node (rp_keeper p')) = op /\ rp_inflight p' = Some op /\
  op_minted (rp_endpoint p) (rp_endpoint p') RECONFIGURATION op (encode_body payload) (Reconfigure payload) /\
  rp_learner_proof p' = rp_learner_proof p /\ rp_health_probe p' = rp_health_probe p.
Proof.
  unfold mint_reconfigure. destruct (k_mint_op _ _ _ _ _) as [b|] eqn:Hm; cbn -[Counter.next encode_body from_membership]; [|done].
  intros E. injection E as E1 E2. subst p' op. apply k_mint_op_spec in Hm. pose proof (om_head _ _ _ _ _ _ Hm) as Hh.
  split; [exact Hh|]. split; [done|]. split; [done|]. split; [|done]. cbn -[Counter.next encode_body from_membership]. rewrite Hh. exact Hm.
Qed.

(** What an accepted proposal went through. *)
Record accepted_proposal (p p' : Proposing) (delta : SingleVoterDelta) (ack : bool) (op : OpNumber) : Prop := {
  ac_primary : k_is_primary (rp_keeper p) = true;
  ac_normal : is_normal (k_status (rp_keeper p)) = true;
  ac_idle : has_pending_reconfigure (k_node (rp_keeper p)) (normal_ctx (rp_keeper p)) = false;
  ac_admitted : check_new_op_admission (k_node (rp_keeper p)) (normal_ctx (rp_keeper p)) = Ok tt;
  ac_proof : forall target, delta = PromoteLearner target -> proof_covers p target = true;
  ac_minted : exists successor p1, apply_delta (rp_membership p) delta = Ok successor /\
    (fault_tolerance (rp_membership p) <= fault_tolerance successor \/ ack = true) /\
    (p1 = p \/ p1 = with_proof p None) /\ mint_reconfigure p1 successor = Some (p', op);
}.

Lemma propose_accepted (p : Proposing) delta ack p' op :
  propose_membership p delta ack = Some (p', Ok op) -> accepted_proposal p p' delta ack op.
Proof.
  unfold propose_membership. destruct (k_is_primary (rp_keeper p)) eqn:Hp; [|done]. destruct (is_normal _) eqn:Hn; [|done].
  destruct (has_pending_reconfigure _ _) eqn:Hr; [done|]. cbn -[check_new_op_admission apply_delta fault_tolerance].
  assert (check_new_op_admission (k_node (rp_keeper p)) (normal_ctx (rp_keeper p)) <> Err NotNormalPrimary) as Hnn.
  { unfold check_new_op_admission. cbn -[has_pending_reconfigure band_at_capacity]. unfold k_is_primary in Hp. rewrite Hn, Hp.
    cbn -[has_pending_reconfigure band_at_capacity]. repeat case_match; done. }
  destruct (check_new_op_admission _ _) as [[]|[]] eqn:Ha; try done; clear Hnn.
  destruct (apply_delta _ _) as [successor|] eqn:Hd; [|done].
  destruct (fault_tolerance successor <? fault_tolerance (rp_membership p)) eqn:Hf; destruct ack eqn:Hack; cbn [andb negb]; try done.
  all: assert (fault_tolerance (rp_membership p) <= fault_tolerance successor \/ ack = true) as Hacc by (rewrite Hack; (right; done) || (left; lia)).
  all: rewrite Hack in Hacc.
  all: destruct delta as [t|t|t|t]; try (destruct (proof_covers p t) eqn:Hc; [|destruct (challenge_learner p t); done]).
  all: match goal with |- context [mint_reconfigure ?q _] => destruct (mint_reconfigure q successor) as [[p1 o]|] eqn:Hm end; cbn; [|done].
  all: intros [= <- <-]; split; try done; try (by intros ? [= <-]); eauto 10.
Qed.

End minting.

(** ** A proposal's successor *)

Section successor.
Context {S Image W B Walks : Type} `{StateMachine S Image} `{Wal W} `{Superblock B}.
#[local] Abbreviation Proposing := (@Proposing S Image W B Walks).

Lemma successor_members m d m' : wf m -> apply_delta m d = Ok m' -> Forall (fits 128) (m_members m) -> fits 128 (delta_member d) ->
  Forall (fits 128) (m_members m').
Proof.
  intros Hwf Hd Hm Hx. pose proof (apply_delta_step m Hwf d m' Hd) as (Hwf' & Hs & _).
  assert (forall x, x ∈ voters m \/ x ∈ learners m -> fits 128 x) as Hin.
  { intros x Hx'. apply (elem_members m) in Hx'; [|done]. by eapply Forall_forall in Hm. }
  apply Forall_forall. intros x Hx'. apply (elem_members m') in Hx'; [|done].
  destruct (decide (x = delta_member d)) as [->|Hne]; [done|]. apply Hin.
  revert Hs Hx'. generalize (voters m) (learners m) (voters m') (learners m'). intros V L V' L' Hs.
  inversion Hs; subst; cbn in Hne; set_solver.
Qed.

(** The successor travels as the primary logged it. *)
Lemma successor_body m' config_id op :
  wf m' -> Forall (fits 128) (m_members m') -> fits 128 config_id ->
  from_committed_body RECONFIGURATION op (encode_body (from_membership m' config_id))
  = mkLogEntry RECONFIGURATION op (Reconfigure (from_membership m' config_id)).
Proof.
  intros Hwf Hm Hc. unfold from_committed_body. rewrite Z.eqb_refl.
  destruct (payload_roundtrip (from_membership m' config_id) []) as [-> _]; [|by cbn|done].
  destruct Hwf as (? & ? & ? & Hl & _). unfold payload_wf, from_membership. cbn. split_and!; try assumption; unfold fits; lia.
Qed.

(** C34. An accepted proposal changes the configuration by exactly its delta: the op it
    returns is broadcast in one prepare, the entry the primary logs is the one every
    backup files from that prepare, the change gives up no tolerated crash unless the
    proposer accepted it, and whichever replica commits the entry under the proposer's
    configuration stages precisely the delta's successor. *)
Theorem proposal_commits_its_delta (p : Proposing) delta ack p' op :
  wf (rp_membership p) -> Forall (fits 128) (m_members (rp_membership p)) -> fits 128 (m_config_id (rp_membership p)) ->
  fits 128 (delta_member delta) -> propose_membership p delta ack = Some (p', Ok op) ->
  exists successor pr,
    apply_delta (rp_membership p) delta = Ok successor /\
    (fault_tolerance (rp_membership p) <= fault_tolerance successor \/ ack = true) /\
    newly_sent (rp_endpoint p) (rp_endpoint p') = [(Backups, MPrepare pr)] /\ pp_op pr = op /\
    entry_at (rp_keeper p') op = Some (log_entry_from_prepare pr) /\ rp_membership p' = rp_membership p /\
    forall n : Node (S := S), nd_membership n = rp_membership p -> nd_commit_min n <= op -> nd_pending_swap n = None ->
      exists n', commit_reconfigure n op (l_body (log_entry_from_prepare pr)) = Some (Some n') /\
        nd_pending_swap n' = Some (op, successor) /\ nd_membership n' = nd_membership n.
Proof.
  intros Hwf Hm Hc Hx Hp. destruct (propose_accepted _ _ _ _ _ Hp) as [_ _ _ _ _ (m' & p1 & Hd & Hf & Hp1 & Hmint)].
  assert (rp_endpoint p1 = rp_endpoint p) as He by (by destruct Hp1 as [->| ->]).
  apply mint_reconfigure_spec in Hmint as (_ & Hop & _ & Hm1 & _).
  assert (rp_membership p1 = rp_membership p) as Hmem by (unfold rp_membership, rp_keeper; by rewrite He).
  rewrite He, Hmem in Hm1. destruct Hm1 as [_ Hentry _ Hmem' _ Hsent].
  pose proof (apply_delta_step _ Hwf _ _ Hd) as (Hwf' & _).
  pose proof (successor_body m' (m_config_id (rp_membership p)) op Hwf' (successor_members _ _ _ Hwf Hd Hm Hx) Hc) as Hbody.
  exists m', (minted_prepare (rp_keeper p') RECONFIGURATION op (encode_body (from_membership m' (m_config_id (rp_membership p))))).
  unfold log_entry_from_prepare. cbn [pp_client pp_request pp_body minted_prepare pp_op]. rewrite Hbody. cbn [l_body].
  split_and!; [done|done|exact Hsent|done| |exact Hmem'|].
  - fold (rp_keeper p') in Hentry. by rewrite Hop in Hentry.
  - intros n Hn Hmin Hsw. destruct (committed_reconfigure_stages n op delta m' (from_membership m' (m_config_id (rp_membership p)))) as (n' & E & Hs & Hn' & _).
    { by rewrite Hn. } { done. } { done. } { intros _. by rewrite Hn. }
    exists n'. split; [done|]. split; [|done]. rewrite Hs. cbn. by rewrite Hn, Z.eqb_refl.
Qed.

End successor.

(** ** One change at a time *)

Section single.
Context {S Image W B Walks : Type} `{StateMachine S Image} `{Wal W} `{Superblock B}.
#[local] Abbreviation Keeper := (@Keeper S).
#[local] Abbreviation Endpoint := (@Endpoint S Image W B Walks).
#[local] Abbreviation Proposing := (@Proposing S Image W B Walks).

(** The change proposed as [op] is uncommitted in the log, or some swap is staged or its
    root in flight. *)
Definition change_in_flight (k : Keeper) (op : OpNumber) : Prop :=
  (nd_commit_min (k_node k) < op <= nd_op (k_node k) /\ exists e, entry_at k op = Some e /\ is_Some (as_reconfigure (l_body e))) \/
  swap_in_flight (k_node k) (normal_ctx k) = true.

Lemma in_flight_pending (k : Keeper) op : change_in_flight k op -> has_pending_reconfigure (k_node k) (normal_ctx k) = true.
Proof.
  unfold has_pending_reconfigure. intros [[Hr (e & He & Hb)]|Hs]; [|by rewrite Hs].
  destruct (swap_in_flight _ _); [done|]. apply existsb_exists. exists op. unfold entry_at in He. rewrite He. split; [|by apply bool_decide_eq_true].
  apply list_elem_of_In, elem_of_seqZ. lia.
Qed.

Lemma pending_refuses (n : @Node S) cx : has_pending_reconfigure n cx = true ->
  check_new_op_admission n cx = Err NotNormalPrimary \/ check_new_op_admission n cx = Err Busy.
Proof. intros Hp. unfold check_new_op_admission. destruct (_ || _); [by left|]. destruct (_ || _); [by right|]. rewrite Hp. by right. Qed.

(** C35. At most one membership change is in flight: a proposal is accepted only while no
    change is pending, its own is pending from then on, and while a change is pending in a
    replica's log or as a swap, whatever else happened to that replica, every further
    proposal is refused without an effect and no client request adds an op behind it. *)
Theorem one_change_at_a_time (p : Proposing) delta ack p' op :
  propose_membership p delta ack = Some (p', Ok op) ->
  nd_commit_min (k_node (rp_keeper p)) <= nd_op (k_node (rp_keeper p)) < umax 64 ->
  (forall op', ~ change_in_flight (rp_keeper p) op') /\ change_in_flight (rp_keeper p') op /\
  forall q : Proposing, change_in_flight (rp_keeper q) op ->
    (forall d a, exists e, propose_membership q d a = Some (q, Err e)) /\
    (forall r, exists b stalled, k_on_request (rp_endpoint q) r = Some (b, stalled) /\ ep_keeper b = rp_keeper q /\ ep_sent b = ep_sent (rp_endpoint q)).
Proof.
  intros Hp Hop. destruct (propose_accepted _ _ _ _ _ Hp) as [_ _ Hidle _ _ (m' & p1 & _ & _ & Hp1 & Hmint)].
  assert (rp_endpoint p1 = rp_endpoint p) as He by (by destruct Hp1 as [->| ->]).
  apply mint_reconfigure_spec in Hmint as (Hnext & Hhead & _ & [_ Hentry Hmin _ _ _] & _).
  unfold rp_keeper in *. rewrite He in *. split; [intros op' Hf; apply in_flight_pending in Hf; congruence|]. split.
  - left. rewrite Hhead in *. rewrite Hmin. split; [|by eauto]. unfold Counter.next, sat_add in Hnext. lia.
  - intros q Hq. apply in_flight_pending in Hq. split.
    + intros d a. unfold propose_membership, rp_keeper. rewrite Hq. repeat case_match; eauto.
    + intros r. unfold k_on_request. destruct (_ =? RECONFIGURATION); [eauto 10|].
      destruct (pending_refuses _ _ Hq) as [-> | ->]; eauto 10.
Qed.

End single.

(** ** Evidence *)

(** What the endpoint asked for and heard, oldest first: a learner challenge sent to a
    slot, a learner's answer, the start of a liveness round, a voter's answer. *)
Inductive Evidence : Type :=
| Asked (slot : ReplicaId) (q : RequestLearnerProof)
| Proved (from : Peer) (m : LearnerProof)
| Solicited (now lifetime : Z)
| Answered (from : Peer) (m : HealthProof).

Definition asks (out : list (Recipient * Message)) : list Evidence :=
  omap (fun x => match x with (To (PeerReplica slot), MRequestLearnerProof q) => Some (Asked slot q) | _ => None end) out.

Section evidence.
Context {S Image W B Walks : Type} `{StateMachine S Image} `{Wal W} `{Superblock B}.
#[local] Abbreviation Proposing := (@Proposing S Image W B Walks).

Inductive evidenced : list Evidence -> Proposing -> Prop :=
| evidence_start p : wf (rp_membership p) -> rp_learner_proof p = None -> rp_health_probe p = None -> evidenced [] p
| evidence_propose h p delta ack p' r : evidenced h p -> propose_membership p delta ack = Some (p', r) ->
    evidenced (h ++ asks (newly_sent (rp_endpoint p) (rp_endpoint p'))) p'
| evidence_proof h p from m : evidenced h p -> (forall slot, from = PeerReplica slot -> 0 <= slot) ->
    evidenced (h ++ [Proved from m]) (on_learner_proof p from m)
| evidence_solicit h p now lifetime p' : evidenced h p -> solicit_health_proofs p now lifetime = Some p' ->
    evidenced (h ++ [Solicited now lifetime]) p'
| evidence_health h p from m : evidenced h p -> evidenced (h ++ [Answered from m]) (on_health_proof p from m)
| evidence_other h p p' : evidenced h p -> wf (rp_membership p') ->
    (rp_learner_proof p' = None /\ rp_health_probe p' = None \/
     rp_learner_proof p' = rp_learner_proof p /\ rp_health_probe p' = rp_health_probe p /\ rp_membership p' = rp_membership p) ->
    evidenced h p'.

(** [a] happened, and [b] after it. *)
Definition then_after (h : list Evidence) (a b : Evidence) : Prop := exists h1 h2 h3, h = h1 ++ a :: h2 ++ b :: h3.

Definition of_configuration (m : Membership) (epoch : Epoch) (config_id : Z) : Prop := epoch = m_epoch m /\ config_id = m_config_id m.

Definition challenge_of (m : Membership) (c : LearnerProofState) (slot : ReplicaId) (q : RequestLearnerProof) : Prop :=
  slot_of m (lc_target c) = Some slot /\ rlp_nonce q = lc_nonce c /\ rlp_at_op q = lc_at_op c /\ of_configuration m (rlp_epoch q) (rlp_config_id q).

Definition answer_to (m : Membership) (target : MemberId) (nonce : Z) (from : Peer) (a : LearnerProof) : Prop :=
  (exists slot, from = PeerReplica slot /\ 0 <= slot /\ member_at m slot = Some target) /\ lp_nonce a = nonce /\ of_configuration m (lp_epoch a) (lp_config_id a).

Definition proof_evidence (h : list Evidence) (m : Membership) (o : option LearnerProofState) : Prop :=
  match o with
  | None => True
  | Some c =>
      exists slot q, challenge_of m c slot q /\ Asked slot q ∈ h /\
        match lc_proof c with
        | None => True
        | Some f => exists from a, answer_to m (lc_target c) (lc_nonce c) from a /\ lp_frontier a = f /\ then_after h (Asked slot q) (Proved from a)
        end
  end.

Definition vouches (m : Membership) (s : HealthProbeState) (member : MemberId) (from : Peer) (a : HealthProof) : Prop :=
  (exists slot, from = PeerReplica slot /\ member_at m slot = Some member /\ is_voter m slot = true) /\ hp_nonce a = hs_nonce s /\
  of_configuration m (hp_epoch a) (hp_config_id a).

Definition probe_evidence (h : list Evidence) (m : Membership) (o : option HealthProbeState) : Prop :=
  match o with
  | None => True
  | Some s =>
      exists lifetime, hs_expires_at s = Time.instant_add (hs_solicited_at s) lifetime /\ Solicited (hs_solicited_at s) lifetime ∈ h /\
        forall member, member ∈ hs_responders s ->
          exists from a, vouches m s member from a /\ then_after h (Solicited (hs_solicited_at s) lifetime) (Answered from a)
  end.

Definition evidence_inv (h : list Evidence) (p : Proposing) : Prop :=
  wf (rp_membership p) /\ proof_evidence h (rp_membership p) (rp_learner_proof p) /\ probe_evidence h (rp_membership p) (rp_health_probe p).

Lemma then_after_app h h' a b : then_after h a b -> then_after (h ++ h') a b.
Proof. intros (h1 & h2 & h3 & ->). exists h1, h2, (h3 ++ h'). by rewrite <-!app_assoc, <-!app_comm_cons, <-!app_assoc. Qed.

Lemma then_after_snoc h a b : a ∈ h -> then_after (h ++ [b]) a b.
Proof. intros (h1 & h2 & ->)%list_elem_of_split. exists h1, h2, []. by rewrite <-app_assoc. Qed.

Lemma proof_evidence_app h h' m o : proof_evidence h m o -> proof_evidence (h ++ h') m o.
Proof.
  destruct o as [c|]; [|done]. intros (slot & q & Hq & Hin & Hp). exists slot, q. split; [done|]. split; [set_solver|].
  destruct (lc_proof c); [|done]. destruct Hp as (from & a & ? & ? & ?). exists from, a. eauto using then_after_app.
Qed.

Lemma probe_evidence_app h h' m o : probe_evidence h m o -> probe_evidence (h ++ h') m o.
Proof.
  destruct o as [s|]; [|done]. intros (l & He & Hin & Hp). exists l. split; [done|]. split; [set_solver|].
  intros x Hx. destruct (Hp x Hx) as (from & a & ? & ?). exists from, a. eauto using then_after_app.
Qed.


Lemma inv_kept h h' (p p' : Proposing) : evidence_inv h p -> rp_membership p' = rp_membership p ->
  (rp_learner_proof p' = rp_learner_proof p \/ rp_learner_proof p' = None) -> rp_health_probe p' = rp_health_probe p -> evidence_inv (h ++ h') p'.
Proof.
  intros (Hwf & Hp & Hh) Hm [Hl|Hl] Hs; unfold evidence_inv; rewrite Hm, Hs, Hl; (split; [done|]);
    (split; [done || by apply proof_evidence_app|by apply probe_evidence_app]).
Qed.

Lemma challenge_evidence h (p : Proposing) target p' : evidence_inv h p -> challenge_learner p target = Some p' ->
  evidence_inv (h ++ asks (newly_sent (rp_endpoint p) (rp_endpoint p'))) p'.
Proof.
  intros Hinv Hc. pose proof Hinv as (Hwf & Hp & Hh). unfold challenge_learner in Hc.
  destruct (slot_of _ _) as [slot|] eqn:Hslot; cbn [mbind option_bind] in Hc; [|done].
  destruct (draw_nonce p) as [nonce p1] eqn:Hd. apply draw_nonce_spec in Hd as (Hn1 & Hs1 & Hl1 & Hh1).
  assert (rp_membership p1 = rp_membership p) as Hm1 by (unfold rp_membership, k_membership; by rewrite Hn1).
  destruct (match rp_learner_proof p with Some _ => _ | None => _ end) as [n p2] eqn:Hpair in Hc.
  destruct (k_local_slot _) as [from|]; cbn [mbind option_bind] in Hc; [|done]. injection Hc as <-.
  set (q := mkRequestLearnerProof from (nd_op (k_node (rp_keeper p))) n (m_epoch (rp_membership p2)) (m_config_id (rp_membership p2))).
  assert (rp_membership p2 = rp_membership p /\ ep_sent (rp_endpoint p2) = ep_sent (rp_endpoint p) /\ rp_health_probe p2 = rp_health_probe p /\
    (p2 = p \/ rp_learner_proof p2 = Some (mkLearnerProofState target (nd_op (k_node (rp_keeper p))) n None))) as (Hm2 & Hs2 & Hh2 & Hl2).
  { repeat case_match; simplify_eq; split_and!; try done; eauto. }
  assert (newly_sent (rp_endpoint p) (rp_endpoint (tell p2 [(To (PeerReplica slot), MRequestLearnerProof q)])) = [(To (PeerReplica slot), MRequestLearnerProof q)]) as Hsent.
  { unfold newly_sent, tell, send. cbn. by rewrite Hs2, drop_app_length. }
  change (asks _) with (asks (newly_sent (rp_endpoint p) (rp_endpoint (tell p2 [(To (PeerReplica slot), MRequestLearnerProof q)])))).
  rewrite Hsent. change (asks _) with [Asked slot q].
  destruct Hl2 as [->|Hl2]; [by apply (inv_kept h _ p); auto|]. split; [change (wf (rp_membership p2)); by rewrite Hm2|]. change (rp_membership (tell _ _)) with (rp_membership p2).
  change (rp_health_probe (tell _ _)) with (rp_health_probe p2). change (rp_learner_proof (tell _ _)) with (rp_learner_proof p2). rewrite Hm2, Hl2, Hh2.
  split; [|by apply probe_evidence_app]. exists slot, q. split; [|split; [set_solver|done]].
  unfold challenge_of, q, of_configuration. cbn. by rewrite Hm2.
Qed.

Lemma propose_evidence h (p : Proposing) delta ack p' r : evidence_inv h p -> propose_membership p delta ack = Some (p', r) ->
  evidence_inv (h ++ asks (newly_sent (rp_endpoint p) (rp_endpoint p'))) p'.
Proof.
  intros Hinv Hp. destruct r as [op|e].
  - destruct (propose_accepted _ _ _ _ _ Hp) as [_ _ _ _ _ (m' & p1 & _ & _ & Hp1 & Hm)].
    apply mint_reconfigure_spec in Hm as (_ & _ & _ & [_ _ _ Hmem _ _] & Hl & Hh).
    assert (rp_endpoint p1 = rp_endpoint p) as He by (by destruct Hp1 as [->| ->]).
    apply (inv_kept h _ p); [done|..].
    + unfold rp_membership, rp_keeper. by rewrite Hmem, He.
    + rewrite Hl. destruct Hp1 as [->| ->]; auto.
    + rewrite Hh. by destruct Hp1 as [->| ->].
  - unfold propose_membership in Hp.
    assert (p' = p \/ exists t, challenge_learner p t = Some p') as [->|[t Hc]].
    { repeat first [progress simplify_option_eq | case_match]; eauto. all: match goal with E : mint_reconfigure _ _ ≫= _ = _ |- _ => destruct (mint_reconfigure _ _) as [[]|]; done end. }
    + by apply (inv_kept h _ p); auto.
    + by apply challenge_evidence with t.
Qed.

Lemma own_configuration_spec (p : Proposing) e c : own_configuration p e c = true -> of_configuration (rp_membership p) e c.
Proof. unfold own_configuration, of_configuration. lia. Qed.

Lemma as_replica_Some from slot : as_replica from = Some slot -> from = PeerReplica slot.
Proof. by destruct from; cbn; intros [= ->]. Qed.

Lemma learner_proof_evidence h (p : Proposing) from m : evidence_inv h p -> (forall slot, from = PeerReplica slot -> 0 <= slot) -> evidence_inv (h ++ [Proved from m]) (on_learner_proof p from m).
Proof.
  intros Hinv Hnn. unfold on_learner_proof. destruct (rp_learner_proof p) as [c|] eqn:Hc; [|by apply (inv_kept h _ p); auto].
  destruct (_ =? _) eqn:Hn; [|by apply (inv_kept h _ p); auto]. case_bool_decide as Hf; [|by apply (inv_kept h _ p); auto].
  destruct (own_configuration _ _ _) eqn:Ho; [|by apply (inv_kept h _ p); auto]. cbn [negb].
  destruct (as_replica from) as [slot|] eqn:Hs; cbn in Hf; [|done]. apply as_replica_Some in Hs as ->.
  pose proof Hinv as (Hwf & Hp & Hh). rewrite Hc in Hp. destruct Hp as (to & q & Hq & Hin & _).
  split; [done|]. split; [|by apply probe_evidence_app]. exists to, q. split; [exact Hq|]. split; [set_solver|]. cbn.
  exists (PeerReplica slot), m. split; [|split; [done|by apply then_after_snoc]].
  split; [eauto|]. split; [by apply Z.eqb_eq|by apply own_configuration_spec].
Qed.

Lemma solicit_evidence h (p : Proposing) now lifetime p' : evidence_inv h p -> solicit_health_proofs p now lifetime = Some p' ->
  evidence_inv (h ++ [Solicited now lifetime]) p'.
Proof.
  intros Hinv. unfold solicit_health_proofs. destruct (_ || _); [intros [= <-]; by apply (inv_kept h _ p); auto|].
  destruct (draw_nonce p) as [nonce p1] eqn:Hd. apply draw_nonce_spec in Hd as (Hn1 & _ & Hl1 & _).
  assert (rp_membership p1 = rp_membership p) as Hm1 by (unfold rp_membership, k_membership; by rewrite Hn1).
  destruct (match rp_health_probe p with Some _ => _ | None => _ end) as [n p2] eqn:Hpair.
  destruct (k_local_slot _) as [from|]; cbn [mbind option_bind]; [|done]. intros [= <-].
  assert (rp_membership p2 = rp_membership p /\ rp_learner_proof p2 = rp_learner_proof p /\
    (p2 = p \/ rp_health_probe p2 = Some (mkHealthProbe n now (Time.instant_add now lifetime) ∅))) as (Hm2 & Hl2 & Hh2).
  { repeat case_match; simplify_eq; split_and!; try done; eauto. }
  destruct Hh2 as [->|Hh2]; [by apply (inv_kept h _ p); auto|]. pose proof Hinv as (Hwf & Hp & _).
  unfold evidence_inv. change (rp_membership (tell _ _)) with (rp_membership p2). change (rp_health_probe (tell _ _)) with (rp_health_probe p2).
  change (rp_learner_proof (tell _ _)) with (rp_learner_proof p2). rewrite Hm2, Hl2, Hh2.
  split; [done|]. split; [by apply proof_evidence_app|]. exists lifetime. cbn. split; [done|]. split; [set_solver|]. set_solver.
Qed.

Lemma health_evidence h (p : Proposing) from m : evidence_inv h p -> evidence_inv (h ++ [Answered from m]) (on_health_proof p from m).
Proof.
  intros Hinv. unfold on_health_proof. destruct (rp_health_probe p) as [s|] eqn:Hs; [|by apply (inv_kept h _ p); auto].
  destruct (_ =? _) eqn:Hn; [|by apply (inv_kept h _ p); auto]. destruct (own_configuration _ _ _) eqn:Ho; [|by apply (inv_kept h _ p); auto].
  cbn [negb]. destruct (as_replica from) as [slot|] eqn:Hf; [|by apply (inv_kept h _ p); auto]. apply as_replica_Some in Hf as ->.
  destruct (is_voter _ _) eqn:Hv; [|by apply (inv_kept h _ p); auto]. cbn [negb].
  destruct (member_at _ _) as [member|] eqn:Hm; [|by apply (inv_kept h _ p); auto].
  pose proof Hinv as (Hwf & Hp & Hh). rewrite Hs in Hh. destruct Hh as (lifetime & He & Hin & Hr).
  split; [done|]. split; [by apply proof_evidence_app|]. exists lifetime. cbn. split; [done|]. split; [set_solver|].
  intros x [->%elem_of_singleton|Hx]%elem_of_union.
  - exists (PeerReplica slot), m. split; [|by apply then_after_snoc]. split; [eauto|]. split; [by apply Z.eqb_eq|by apply own_configuration_spec].
  - destruct (Hr x Hx) as (from & a & ? & ?). exists from, a. split; [done|by apply then_after_app].
Qed.

Lemma evidenced_inv h (p : Proposing) : evidenced h p -> evidence_inv h p.
Proof.
  induction 1 as [p Hwf Hl Hh|h p d a p' r _ IH Hp|h p from m _ IH ?|h p now l p' _ IH Hs|h p from m _ IH|h p p' _ IH Hwf Ho].
  - split; [done|]. by rewrite Hl, Hh.
  - by eapply propose_evidence.
  - by apply learner_proof_evidence.
  - by eapply solicit_evidence.
  - by apply health_evidence.
  - destruct IH as (Hw & Hp & Hh). split; [done|]. destruct Ho as [[-> ->]|(-> & -> & ->)]; done.
Qed.

(** C36. A learner is promoted only on fresh evidence: when a promotion is accepted, the
    proposer had challenged that very learner at the slot its configuration gives it, at
    a head no older than the current one, and afterwards received the learner's own
    answer to that challenge, under the configuration still in force, reporting a durable
    prefix that covers every op below the change. *)
Theorem promotion_needs_fresh_proof h (p : Proposing) target ack p' op :
  evidenced h p -> propose_membership p (PromoteLearner target) ack = Some (p', Ok op) ->
  exists slot q a,
    slot_of (rp_membership p) target = Some slot /\ then_after h (Asked slot q) (Proved (PeerReplica slot) a) /\
    lp_nonce a = rlp_nonce q /\ of_configuration (rp_membership p) (rlp_epoch q) (rlp_config_id q) /\
    of_configuration (rp_membership p) (lp_epoch a) (lp_config_id a) /\
    nd_op (k_node (rp_keeper p)) <= rlp_at_op q /\ nd_op (k_node (rp_keeper p)) <= lp_frontier a /\
    op = Counter.next (nd_op (k_node (rp_keeper p))).
Proof.
  intros Hev Hp. destruct (propose_accepted _ _ _ _ _ Hp) as [_ _ _ _ Hc (m' & p1 & _ & _ & Hp1 & Hm)].
  apply mint_reconfigure_spec in Hm as (Hop & _). specialize (Hc target eq_refl).
  assert (rp_endpoint p1 = rp_endpoint p) as He by (by destruct Hp1 as [->| ->]).
  destruct (evidenced_inv _ _ Hev) as (Hwf & Hpe & _). unfold proof_covers in Hc.
  destruct (rp_learner_proof p) as [c|]; [|done]. destruct (lc_proof c) as [f|] eqn:Hf; [|lia].
  cbn in Hpe. rewrite Hf in Hpe. destruct Hpe as (slot & q & (Hs & Hn & Ha & Hq) & _ & from & a & ((slot' & -> & Hge & Hmem) & Han & Hac) & Hfr & Hth).
  assert (lc_target c = target) as Ht by lia. rewrite Ht in *.
  assert (slot' = slot) as ->.
  { apply (slot_of_Some _ Hwf) in Hs as [Hs0 Hs]. unfold member_at in Hmem. destruct Hwf as (? & ? & ? & ? & Hnd).
    pose proof (NoDup_lookup _ _ _ _ Hnd Hs Hmem). lia. }
  exists slot, q, a. split_and!; try done; try lia. rewrite Hop. unfold rp_keeper. by rewrite He.
Qed.

(** C37. What counts as live is fresh: every voter the driver may count towards a smaller
    configuration, this replica apart, is a voter of the configuration in force that
    answered, under that configuration and with the round's nonce, after the round was
    started; and the round has not outlived its lifetime. *)
Theorem live_voters_answered h (p : Proposing) now member :
  evidenced h p -> member ∈ proven_live_voters p now ->
  member = k_local (rp_keeper p) \/
  exists t lifetime from a slot, then_after h (Solicited t lifetime) (Answered from a) /\ now <= Time.instant_add t lifetime /\
    from = PeerReplica slot /\ member_at (rp_membership p) slot = Some member /\ is_voter (rp_membership p) slot = true /\
    of_configuration (rp_membership p) (hp_epoch a) (hp_config_id a) /\
    exists s, rp_health_probe p = Some s /\ hp_nonce a = hs_nonce s.
Proof.
  intros Hev. destruct (evidenced_inv _ _ Hev) as (_ & _ & Hh). unfold proven_live_voters. destruct (_ || _); [set_solver|].
  destruct (rp_health_probe p) as [s|]; [|set_solver]. destruct (Z.ltb_spec (hs_expires_at s) now); [set_solver|].
  intros [->%elem_of_singleton|Hin]%elem_of_union; [by left|right]. destruct Hh as (lifetime & He & _ & Hr).
  destruct (Hr member Hin) as (from & a & ((slot & -> & Hm & Hv) & Hn & Hc) & Ht).
  exists (hs_solicited_at s), lifetime, (PeerReplica slot), a, slot. split_and!; try done; [lia|by exists s].
Qed.

End evidence.

(** ** The offline root *)

(** The part of a root that is the replicated log's and the storage's. *)
Definition root_frontier (s : VsrState) :=
  (v_view s, v_log_view s, v_commit s, v_checkpoint_op s, v_checkpoint_id s, v_committed_headers s, v_log_floor s, v_checkpoint_ops s, v_wal_capacity s).

(** C38. The offline lane changes the configuration and nothing else: from a valid root
    with a membership and a well-formed successor it builds a valid root with the same
    frontier and geometry, one epoch up, linked back to the configuration it replaces; it
    is refused exactly for a root without a membership or an invalid successor, and the
    root's own checks never refuse. *)
Theorem restart_changes_only_configuration cur replica_count learner_count members :
  root_valid cur -> fits 8 replica_count -> fits 16 learner_count ->
  match v_membership cur with
  | None => prepare_restart cur replica_count learner_count members = Err NoMembership
  | Some current =>
      match reconfigure current replica_count learner_count members with
      | Err e => prepare_restart cur replica_count learner_count members = Err (MembershipInvalid e)
      | Ok successor =>
          exists s, prepare_restart cur replica_count learner_count members = Ok s /\ root_valid s /\ root_frontier s = root_frontier cur /\
            v_membership s = Some successor /\ v_epoch s = Counter.epoch_next (v_epoch cur) /\ v_prev_epoch s = v_epoch cur /\
            in_lineage successor (v_prior_config_ids s) (m_config_id current) = true /\ (length (v_prior_config_ids s) <= LINEAGE_RING)%nat /\
            v_config_install_op s = v_checkpoint_op s
      end
  end.
Proof.
  intros (Hlv & Hck & Hb & Hs & Hfl & Hm) Hrc Hlc. unfold prepare_restart. destruct (v_membership cur) as [current|]; [|done].
  destruct Hm as [He Hwf]. destruct (reconfigure _ _ _ _) as [successor|e] eqn:Hr; cbn [map_err]; [|done].
  pose proof Hr as Hr'. unfold reconfigure in Hr'. apply build_wf in Hr' as Hwf'; [|done..]. apply build_ok in Hr' as [_ Hsucc]; [|done..].
  unfold try_new_v4, try_new. rewrite Z.eqb_refl, (proj2 (Z.ltb_ge _ _)), (proj2 (Z.ltb_ge _ _)) by done. cbn [negb].
  rewrite (proj2 (check_band_spec _ _ _ _) (conj Hb Hs)). unfold with_log_floor. cbn. rewrite (proj2 (Z.ltb_ge _ _)) by done. cbn.
  eexists. split; [reflexivity|]. cbn. split_and!; try done.
  - rewrite Hsucc, <-He. done.
  - unfold in_lineage. rewrite bool_decide_eq_true_2 by (left; done). by rewrite orb_true_r.
  - unfold push_lineage, LINEAGE_RING. cbn. rewrite length_take. lia.
Qed.
