(* ===== verification/Changes.v ===== *)
(** * Membership changes, played out

    A primary of three voters and one learner, on the ring and the superblock of
    [MediumDemo]: it challenges the learner, hears its answer and promotes it, and probes
    its voters.  The runs show that the hypotheses of the theorems of [Reconfigure] can
    hold. *)

From S2P Require Import Prelude Core Hash Membership Codec Message Messages BTree ViewChange Votes Sessions Normal Storage Lane Blocks SessionBlocks BlockJobs Medium Appends Repair SyncTrigger Roots Prepares Lifetimes Reconfigure.

Module Changes.
Import MediumDemo Lifetimes.
#[local] Existing Instance one_cell.

#[local] Abbreviation Proposing := (@Proposing (list byte) (list byte) RingWal OneWriter unit).

Definition grown : Membership := mkMembership 1 3 1 [1; 2; 3; 4] 77.

(** The member of slot 0, past its recovery, in view 0. *)
Definition leader : option Proposing :=
  match recover_baseline no_header (mkConfig 1 1 3 64) first [x68] syncer 1 disk with
  | Ok (RecoveredActive k, m) =>
      let k := served k 0 in Some (mkProposing (mkEndpoint (with_knode k (node_membership (k_node k) grown [])) m []) None None ∅ None)
  | _ => None
  end.

Lemma grown_wf : wf grown.
Proof. split_and!; try done. compute_done. Qed.

Lemma grown_widths : Forall (fits 128) (m_members grown) /\ fits 128 (m_config_id grown).
Proof. split; [repeat constructor; done|done]. Qed.

(** The learner holds nothing, and there is nothing to hold. *)
Definition reply : LearnerProof := mkLearnerProof 3 1 0 1 77.

(** Challenge, answer, promotion. *)
Definition promotes (s : option Proposing) (ok : Proposing -> Proposing -> OpNumber -> bool) : bool :=
  match s with
  | Some p =>
      bool_decide (rp_membership p = grown) && negb (is_some (rp_learner_proof p)) && negb (is_some (rp_health_probe p)) &&
      match propose_membership p (PromoteLearner 4) false with
      | Some (p1, Err ProofPending) =>
          bool_decide (rp_membership p1 = grown) &&
          match propose_membership (on_learner_proof p1 (PeerReplica 3) reply) (PromoteLearner 4) false with
          | Some (p2, Ok op) => ok (on_learner_proof p1 (PeerReplica 3) reply) p2 op
          | _ => false
          end
      | _ => false
      end
  | None => false
  end.

Lemma promotes_spec s ok : promotes s ok = true ->
  exists p p1 p2 op, rp_membership p = grown /\ rp_learner_proof p = None /\ rp_health_probe p = None /\
    propose_membership p (PromoteLearner 4) false = Some (p1, Err ProofPending) /\ rp_membership p1 = grown /\
    propose_membership (on_learner_proof p1 (PeerReplica 3) reply) (PromoteLearner 4) false = Some (p2, Ok op) /\
    ok (on_learner_proof p1 (PeerReplica 3) reply) p2 op = true.
Proof.
  unfold promotes. destruct s as [p|]; [|discriminate]. intros [Hx Hp]%andb_true_iff. apply andb_true_iff in Hx as [Hx Hh]. apply andb_true_iff in Hx as [Hm Hl].
  destruct (propose_membership p _ _) as [[p1 [|[]]]|] eqn:H1; try discriminate Hp. apply andb_true_iff in Hp as [Hm1 Hp].
  destruct (propose_membership (on_learner_proof p1 _ _) _ _) as [[p2 [op|]]|] eqn:H2; try discriminate Hp.
  apply bool_decide_eq_true in Hm, Hm1. exists p, p1, p2, op. split; [exact Hm|]. split; [by destruct (rp_learner_proof p)|]. split; [by destruct (rp_health_probe p)|].
  split; [exact H1|]. split; [exact Hm1|]. split; [exact H2|exact Hp].
Qed.

Definition at_start (p p2 : Proposing) (op : OpNumber) : bool :=
  bool_decide (rp_membership p = grown) && (nd_commit_min (k_node (rp_keeper p)) =? 0) && (nd_op (k_node (rp_keeper p)) =? 0) && (op =? 1).

Lemma leader_promotes : promotes leader at_start = true.
Proof. vm_compute. reflexivity. Qed.

Lemma promotion_needs_fresh_proof_witness :
  exists h (p p2 : Proposing) op, propose_membership p (PromoteLearner 4) false = Some (p2, Ok op) /\ op = 1 /\
    exists slot q a, slot_of (rp_membership p) 4 = Some slot /\ then_after h (Asked slot q) (Proved (PeerReplica slot) a).
Proof.
  destruct (promotes_spec _ _ leader_promotes) as (p & p1 & p2 & op & Hm & Hl & Hh & H1 & Hm1 & H2 & Hok).
  apply andb_true_iff in Hok as [_ Hop%Z.eqb_eq].
  assert (He : evidenced ([] ++ asks (newly_sent (rp_endpoint p) (rp_endpoint p1)) ++ [Proved (PeerReplica 3) reply]) (on_learner_proof p1 (PeerReplica 3) reply)).
  { rewrite app_assoc. apply evidence_proof; [|intros ? [= <-]; discriminate]. eapply evidence_propose; [|exact H1].
    apply evidence_start; [rewrite Hm; exact grown_wf|exact Hl|exact Hh]. }
  destruct (promotion_needs_fresh_proof _ _ _ _ _ _ He H2) as (slot & q & a & Hs & Ht & _).
  eexists _, _, p2, op. split; [exact H2|]. split; [exact Hop|]. exists slot, q, a. split; [exact Hs|exact Ht].
Defined.

Lemma one_change_at_a_time_witness :
  exists (p p2 : Proposing), propose_membership p (PromoteLearner 4) false = Some (p2, Ok 1) /\ change_in_flight (rp_keeper p2) 1 /\
    exists e, propose_membership p2 (AddLearner 9) false = Some (p2, Err e).
Proof.
  destruct (promotes_spec _ _ leader_promotes) as (p & p1 & p2 & op & _ & _ & _ & _ & _ & H2 & Hok).
  unfold at_start in Hok. apply andb_true_iff in Hok as [Hok ->%Z.eqb_eq]. apply andb_true_iff in Hok as [Hok Ho%Z.eqb_eq]. apply andb_true_iff in Hok as [_ Hc%Z.eqb_eq].
  destruct (one_change_at_a_time _ _ _ _ _ H2) as (_ & Hf & Hr); [rewrite Hc, Ho; done|].
  eexists _, p2. split; [exact H2|]. split; [exact Hf|]. exact (proj1 (Hr p2 Hf) (AddLearner 9) false).
Defined.

Lemma proposal_commits_its_delta_witness :
  exists (p p2 : Proposing) successor pr, propose_membership p (PromoteLearner 4) false = Some (p2, Ok 1) /\
    apply_delta grown (PromoteLearner 4) = Ok successor /\ newly_sent (rp_endpoint p) (rp_endpoint p2) = [(Backups, MPrepare pr)] /\ pp_op pr = 1.
Proof.
  destruct (promotes_spec _ _ leader_promotes) as (p & p1 & p2 & op & _ & _ & _ & _ & _ & H2 & Hok).
  unfold at_start in Hok. apply andb_true_iff in Hok as [Hok ->%Z.eqb_eq]. apply andb_true_iff in Hok as [Hok _]. apply andb_true_iff in Hok as [Hok _].
  apply bool_decide_eq_true in Hok. destruct grown_widths as [Hw Hi].
  revert H2 Hok. generalize (on_learner_proof p1 (PeerReplica 3) reply). intros p0 H2 Hok.
  assert (Hx : fits 128 (delta_member (PromoteLearner 4))) by (split; [discriminate|reflexivity]).
  pose proof (proposal_commits_its_delta p0 (PromoteLearner 4) false p2 1) as Ht. rewrite Hok in Ht.
  destruct (Ht grown_wf Hw Hi Hx H2) as (m' & pr & Hd & _ & Hs & Hpr & _).
  exists p0, p2, m', pr. split; [exact H2|]. split; [exact Hd|]. split; [exact Hs|exact Hpr].
Defined.

(** A round of the probe, answered by slot 1. *)
Definition alive : HealthProof := mkHealthProof 1 1 1 77.

Definition probes (s : option Proposing) : bool :=
  match s with
  | Some p =>
      bool_decide (rp_membership p = grown) && negb (is_some (rp_learner_proof p)) && negb (is_some (rp_health_probe p)) &&
      match solicit_health_proofs p 5 100 with Some p1 => bool_decide (2 ∈ proven_live_voters (on_health_proof p1 (PeerReplica 1) alive) 20) && negb (k_local (rp_keeper (on_health_proof p1 (PeerReplica 1) alive)) =? 2) | None => false end
  | None => false
  end.

Lemma probes_spec s : probes s = true ->
  exists p p1 : Proposing, rp_membership p = grown /\ rp_learner_proof p = None /\ rp_health_probe p = None /\ solicit_health_proofs p 5 100 = Some p1 /\
    2 ∈ proven_live_voters (on_health_proof p1 (PeerReplica 1) alive) 20 /\ k_local (rp_keeper (on_health_proof p1 (PeerReplica 1) alive)) <> 2.
Proof.
  unfold probes. destruct s as [p|]; [|discriminate]. intros [Hx Hp]%andb_true_iff. apply andb_true_iff in Hx as [Hx Hh]. apply andb_true_iff in Hx as [Hm Hl].
  destruct (solicit_health_proofs p 5 100) as [p1|] eqn:Hs; [|discriminate Hp]. apply andb_true_iff in Hp as [Hi Hn]. apply bool_decide_eq_true in Hm, Hi.
  exists p, p1. split; [exact Hm|]. split; [by destruct (rp_learner_proof p)|]. split; [by destruct (rp_health_probe p)|].
  split; [exact Hs|]. split; [exact Hi|]. intros Hx. rewrite Hx in Hn. discriminate Hn.
Qed.

Lemma leader_probes : probes leader = true.
Proof. vm_compute. reflexivity. Qed.

Lemma live_voters_answered_witness :
  exists h (p : Proposing), 2 ∈ proven_live_voters p 20 /\
    exists t lifetime from a, then_after h (Solicited t lifetime) (Answered from a) /\ 20 <= Time.instant_add t lifetime.
Proof.
  destruct (probes_spec _ leader_probes) as (p & p1 & Hm & Hl & Hh & Hs & Hi & Hn).
  assert (He : evidenced (([] ++ [Solicited 5 100]) ++ [Answered (PeerReplica 1) alive]) (on_health_proof p1 (PeerReplica 1) alive)).
  { apply evidence_health. eapply evidence_solicit; [|exact Hs]. apply evidence_start; [rewrite Hm; exact grown_wf|exact Hl|exact Hh]. }
  destruct (live_voters_answered _ _ 20 2 He Hi) as [Hx|(t & l & from & a & slot & Ht & Hle & _)]; [by exfalso; apply Hn|].
  eexists _, _. split; [exact Hi|]. exists t, l, from, a. split; [exact Ht|exact Hle].
Defined.

Lemma sample_counts1 : fits 8 3.
Proof. split; [discriminate|reflexivity]. Qed.

Lemma sample_counts2 : fits 16 2.
Proof. split; [discriminate|reflexivity]. Qed.

(** The same members, two of them with their roles exchanged. *)
Lemma sample_reconfigures : is_ok (reconfigure sample 3 2 [14; 11; 12; 13; 10]) = true.
Proof. vm_compute. reflexivity. Qed.

Lemma restart_changes_only_configuration_witness :
  exists s successor, reconfigure sample 3 2 [14; 11; 12; 13; 10] = Ok successor /\ prepare_restart sample_root 3 2 [14; 11; 12; 13; 10] = Ok s /\
    root_frontier s = root_frontier sample_root /\ v_membership s = Some successor.
Proof.
  pose proof (restart_changes_only_configuration sample_root 3 2 [14; 11; 12; 13; 10]) as Hx.
  specialize (Hx (proj1 sample_root_ok)). specialize (Hx sample_counts1). specialize (Hx sample_counts2).
  change (v_membership sample_root) with (Some sample) in Hx. cbv iota in Hx. pose proof sample_reconfigures as Hk.
  destruct (reconfigure sample 3 2 [14; 11; 12; 13; 10]) as [m'|e]; [|discriminate Hk].
  destruct Hx as (s & Hs & _ & Hf & Hm & _). exists s, m'. split; [reflexivity|]. split; [exact Hs|]. split; [exact Hf|exact Hm].
Defined.

End Changes.
