(* ===== verification/Recover.v ===== *)
(** * Recovering from the own log

    [viewstamp-proto/src/endpoint/recovery/mod.rs] after the baseline of [Roots]: reading
    the log's tail and the checkpoint back ([submit_recover_tail_batch],
    [on_recover_wal_done], [on_recover_sb_done], [on_recover_probe_walked],
    [on_recovered_checkpoint_restored]) with their retries ([recover_timeouts]), the
    ladder by which a recovery ends ([recover_progress], [complete_recovery]), the
    fetch of a peer's checkpoint it may escalate to, and the exchange by which a replica
    with a faulty head finds one ([on_recovery], [on_recovery_response]).

    A block job's result is an argument of the handler that takes it.  Pulling a peer's
    checkpoint in is [Fetch]'s.  A fail-stop is [None], deadlines and the counters of dropped jobs are left out as in [Roots]. *)

From S2P Require Import Prelude Core Hash Membership Codec Message Messages BTree ViewChange Votes Proposals Sessions Normal Storage Lane Blocks SessionBlocks BlockJobs Medium Appends Serve Repair SyncTrigger Roots Prepares Views.

#[local] Abbreviation Identity := (ClientId * RequestNumber * Z)%type.

(** ** What a slot read back is *)

Inductive SlotVerdict : Type := SlotVerified | SlotStale.

Definition classify_committed_slot (slot_identity : Identity) (canonical : option Identity) (op : OpNumber) (slot_view : View)
    (durable_commit : OpNumber) (durable_log_view : View) : SlotVerdict :=
  match canonical with
  | Some c => if bool_decide (c = slot_identity) then SlotVerified else SlotStale
  | None =>
      if op <=? durable_commit then SlotStale
      else if (durable_commit <? op) && (slot_view <? durable_log_view) then SlotStale
      else SlotVerified
  end.

Inductive ReadOutcome : Type :=
| ReadVerified (client : ClientId) (request : RequestNumber) (body : list byte)
| KeepRepairing (client : ClientId) (request : RequestNumber) (body_checksum : Z)
| StaleCommitted
| ReadFault
| ReadAbsent.

Definition header_identity (h : Header) : Identity := (h_client h, h_request h, h_body_checksum h).

Definition read_outcome (canonical : option Identity) (op : OpNumber) (durable_commit : OpNumber) (durable_log_view : View) (done : WalDone) : ReadOutcome :=
  match done with
  | ReadOk _ h body =>
      if (h_op h =? op) && verify h body then
        match classify_committed_slot (header_identity h) canonical op (h_view h) durable_commit durable_log_view with
        | SlotStale => StaleCommitted
        | SlotVerified => ReadVerified (h_client h) (h_request h) body
        end
      else ReadFault
  | BodyFaulty _ h =>
      if (h_op h =? op) && verify_header h then
        match classify_committed_slot (header_identity h) canonical op (h_view h) durable_commit durable_log_view with
        | SlotStale => StaleCommitted
        | SlotVerified => KeepRepairing (h_client h) (h_request h) (h_body_checksum h)
        end
      else ReadFault
  | Absent _ => match canonical with Some (c, r, s) => KeepRepairing c r s | None => ReadAbsent end
  | _ => ReadFault
  end.

Inductive RetryVerdict : Type := RetryWait | Retry (rest : Z) | RetryExhausted.

Definition retry_verdict (outstanding : bool) (budget : Z) : RetryVerdict :=
  if outstanding then RetryWait else if 0 <? budget then Retry (budget - 1) else RetryExhausted.

(** ** The bookkeeping of a recovery *)

Definition rec_tail (r : RecoverState) (pending : btree Z) (reads : gmap Z Z) (faulty absent : gset Z) : RecoverState :=
  mkRecover pending reads faulty absent (rc_checkpoint r) (rc_checkpoint_reads r) (rc_reconstruct r) (rc_probe_deferred r) (rc_formatted r)
    (rc_checkpoint_retries r) (rc_awaiting_peer_checkpoint r) (rc_canonical r) (rc_reform_attempts r) (rc_peers_recovering r) (rc_peers_recovering_prev r).
Definition rec_checkpoint (r : RecoverState) (checkpoint : option Z) (reads : gset Z) (retries : Z) (awaiting : bool) : RecoverState :=
  mkRecover (rc_pending r) (rc_reads r) (rc_faulty r) (rc_absent r) checkpoint reads (rc_reconstruct r) (rc_probe_deferred r) (rc_formatted r)
    retries awaiting (rc_canonical r) (rc_reform_attempts r) (rc_peers_recovering r) (rc_peers_recovering_prev r).
Definition rec_probe (r : RecoverState) (reconstruct : option JobId) (deferred : option (Z * RecoveredCheckpoint)) : RecoverState :=
  mkRecover (rc_pending r) (rc_reads r) (rc_faulty r) (rc_absent r) (rc_checkpoint r) (rc_checkpoint_reads r) reconstruct deferred (rc_formatted r)
    (rc_checkpoint_retries r) (rc_awaiting_peer_checkpoint r) (rc_canonical r) (rc_reform_attempts r) (rc_peers_recovering r) (rc_peers_recovering_prev r).
Definition rec_canonical (r : RecoverState) (canonical : btree Identity) : RecoverState :=
  mkRecover (rc_pending r) (rc_reads r) (rc_faulty r) (rc_absent r) (rc_checkpoint r) (rc_checkpoint_reads r) (rc_reconstruct r) (rc_probe_deferred r)
    (rc_formatted r) (rc_checkpoint_retries r) (rc_awaiting_peer_checkpoint r) canonical (rc_reform_attempts r) (rc_peers_recovering r) (rc_peers_recovering_prev r).

(** Every outstanding read of [op] forgotten, and its retry budget. *)
Definition resolve_op (r : RecoverState) (op : OpNumber) (faulty absent : gset Z) : RecoverState :=
  rec_tail r (bt_remove op (rc_pending r)) (filter (fun x => x.2 <> op) (rc_reads r)) faulty absent.

Definition last_key {V} (t : btree V) : Z := default 0 (fst <$> last t).
Definition set_last (s : gset Z) : Z := set_fold Z.max 0 s.
Definition ascending (s : gset Z) : list Z := merge_sort Z.le (elements s).

Section recover.
Context {S Image W B : Type} `{StateMachine S Image} `{Wal W} `{Superblock B}.
(** [Wal::header] *)
Context (wal_header : W -> OpNumber -> option Header).
#[local] Abbreviation Node := (@Node S).
#[local] Abbreviation Keeper := (@Keeper S).
#[local] Abbreviation Medium := (@Medium W B S Image (gmap Z Session) BlockWalks).
#[local] Abbreviation Endpoint := (@Endpoint S Image W B BlockWalks).

Definition map_recover (k : Keeper) (f : RecoverState -> RecoverState) : Keeper := with_recover k (f <$> k_recover k).
Definition awaiting_peer_checkpoint (k : Keeper) : bool := match k_recover k with Some r => rc_awaiting_peer_checkpoint r | None => false end.
Definition checkpoint_reads_settled (k : Keeper) : bool :=
  match k_recover k with Some r => bool_decide (rc_checkpoint_reads r = ∅) | None => true end.

(** ** Reading *)

Definition submit_recover_read (k : Keeper) (m : Medium) (op : OpNumber) (budget : Z) : option (Keeper * Medium) :=
  '(id, k) ← mint k;
  let k := map_recover k (fun r => rec_tail r (bt_insert op budget (rc_pending r)) (<[id.2 := op]> (rc_reads r)) (rc_faulty r) (rc_absent r)) in
  Some (k, submit_wal_read m id op).

(** A placeholder stands for every slot with a header until its read settles it. *)
Fixpoint submit_recover_tail_batch (ops : list OpNumber) (k : Keeper) (m : Medium) : option (Keeper * Medium) :=
  match ops with
  | [] => Some (k, m)
  | op :: ops =>
      let k := match wal_header (wal m) op with
               | Some h => with_log k (bt_insert op (mkLogEntry (h_client h) (h_request h) (Present [])) (nd_log (k_node k)))
               | None => k
               end in
      '(k, m) ← submit_recover_read k m op RECOVER_READ_RETRIES;
      submit_recover_tail_batch ops k m
  end.

Definition submit_tracked_checkpoint_read (k : Keeper) (m : Medium) (retries : Z) : option (Keeper * Medium) :=
  '(id, k) ← mint k;
  let k := map_recover k (fun r => rec_checkpoint r (Some id.2) ({[id.2]} ∪ rc_checkpoint_reads r) retries (rc_awaiting_peer_checkpoint r)) in
  Some (k, submit_checkpoint_read m id).

(** What the read of [op] under [id] settles. *)
Definition settle_read (k : Keeper) (r : RecoverState) (id : WriteId) (op : OpNumber) (outcome : ReadOutcome) : Keeper :=
  let settled faulty absent := with_recover k (Some (resolve_op r op faulty absent)) in
  match outcome with
  | ReadVerified client request body =>
      let k := settled (rc_faulty r ∖ {[op]}) (rc_absent r) in with_log k (bt_insert op (from_committed_body client request body) (nd_log (k_node k)))
  | KeepRepairing client request sum =>
      let k := settled (rc_faulty r ∖ {[op]}) (rc_absent r) in with_log k (bt_insert op (mkLogEntry client request (Repairing sum)) (nd_log (k_node k)))
  | StaleCommitted => settled ({[op]} ∪ rc_faulty r) (rc_absent r)
  | ReadFault => with_recover k (Some (rec_tail r (rc_pending r) (delete id.2 (rc_reads r)) (rc_faulty r) (rc_absent r)))
  | ReadAbsent =>
      let k := settled (rc_faulty r ∖ {[op]}) ({[op]} ∪ rc_absent r) in with_log k (bt_remove op (nd_log (k_node k)))
  end.

(** The identity the log's own header still vouches for. *)
Definition inflight_tail_repairing_identity (k : Keeper) (m : Medium) (op : OpNumber) : option Identity :=
  let canonical := r ← k_recover k; bt_get op (rc_canonical r) in
  match wal_header (wal m) op with
  | None => canonical
  | Some h =>
      if negb (verify_header h) then canonical
      else if h_op h =? op then
        match classify_committed_slot (header_identity h) canonical op (h_view h) (nd_commit_max (k_node k)) (k_log_view k) with
        | SlotVerified => Some (header_identity h)
        | SlotStale => None
        end
      else None
  end.

Definition resolve_exhausted_tail_read (k : Keeper) (m : Medium) (op : OpNumber) : option Keeper :=
  let keep := inflight_tail_repairing_identity k m op in
  let outstanding := match k_recover k with Some r => existsb (fun x => x.2 =? op) (map_to_list (rc_reads r)) | None => false end in
  if outstanding then None
  else
    let drop faulty r := rec_tail r (bt_remove op (rc_pending r)) (rc_reads r) (faulty (rc_faulty r)) (rc_absent r) in
    match keep with
    | Some (client, request, sum) =>
        let k := map_recover k (drop (fun f => f ∖ {[op]})) in
        Some (with_log k (bt_insert op (mkLogEntry client request (Repairing sum)) (nd_log (k_node k))))
    | None => Some (map_recover k (drop (fun f => {[op]} ∪ f)))
    end.

(** ** A peer's checkpoint instead of the own *)

Definition escalate_checkpoint_to_peer_fetch (k : Keeper) (now : Z) (target : OpNumber) (cross : bool) : option Keeper :=
  if negb (checkpoint_reads_settled k) then None
  else
    let k := map_recover k (fun r => rec_checkpoint r None (rc_checkpoint_reads r) (rc_checkpoint_retries r) true) in
    let y := o_syncer (k_owed k) in
    Some (with_syncer k (match sy_sync y with
                         | None => arm_sync (sync_ctx k) y now target true cross
                         | Some _ => send_request_sync (sync_ctx k) y now
                         end)).

Definition enter_cross_epoch_peer_fetch (k : Keeper) (m : Medium) (now : Z) (checkpoint : OpNumber) : option (Keeper * Medium) :=
  let draining := match k_recover k with
                  | Some r => negb (bool_decide (rc_pending r = [])) || is_some (rc_checkpoint r)
                  | None => false
                  end in
  if awaiting_peer_checkpoint k || draining || pending_durable_view k || is_some (k_pending_checkpoint k) then Some (k, m)
  else
    '(k, m) ← reset_for_view_transition k m now;
    let o := set_install (k_owed k) None in
    let k := with_owed k (set_syncer o (set_fetch (o_syncer o) None) None) in
    let k := set_collection (drop_pipeline k) None in
    let '(k, m) := abandon_pending_sb k m in
    let k := with_owed k (set_serving (k_owed k) []) in
    let k := with_recover (set_status k Recovering) (Some recover_default) in
    k ← escalate_checkpoint_to_peer_fetch k now (Z.max checkpoint (k_checkpoint_op k)) true;
    Some (k, m).

(** ** The ladder *)

Fixpoint drop_faulty (ops : list OpNumber) (k : Keeper) : option Keeper :=
  match ops with
  | [] => Some k
  | op :: ops =>
      let repairing := match bt_get op (nd_log (k_node k)) with Some e => is_repairing (l_body e) | None => false end in
      if repairing then drop_faulty ops k
      else if committed_survives k op (k_checkpoint_op k) then drop_faulty ops (with_log k (bt_remove op (nd_log (k_node k))))
      else None
  end.

Definition faulty_ops (k : Keeper) : list OpNumber := match k_recover k with Some r => ascending (rc_faulty r) | None => [] end.
Definition drop_faulty_committed_slots (k : Keeper) : option Keeper := drop_faulty (faulty_ops k) k.

Definition assert_no_faulty_committed_survives (k : Keeper) : bool :=
  forallb (fun op => match bt_get op (nd_log (k_node k)) with Some e => negb (is_some (as_present (l_body e))) | None => true end) (faulty_ops k).

Definition finalize_recovery (k : Keeper) : option Keeper :=
  k ← drop_faulty_committed_slots k;
  if assert_no_faulty_committed_survives k then Some k else None.

(** The head is the last slot something was read of; an absent slot below it is a fault. *)
Definition settle_recover_verified_head (k : Keeper) (r : RecoverState) : Z * Keeper :=
  let n := k_node k in
  let real_head := Z.max (Z.max (last_key (nd_log n)) (set_last (rc_faulty r))) (k_checkpoint_op k) in
  let interior := filter (fun op => op <= real_head) (rc_absent r) in
  let k := with_recover k (Some (rec_tail r (rc_pending r) (rc_reads r) (rc_faulty r ∪ interior) ∅)) in
  let k := if real_head <? nd_op n
           then with_log (with_knode k (node_frontier n real_head (nd_commit_min n) (nd_commit_max n))) (List.filter (fun x => x.1 <=? real_head) (nd_log n))
           else k in
  (real_head, k).

(** A head above the commit point whose body is missing is no head. *)
Definition promote_faulty_head (k : Keeper) (real_head : OpNumber) : Keeper :=
  let repairing := match bt_get real_head (nd_log (k_node k)) with Some e => is_repairing (l_body e) | None => false end in
  if (nd_commit_max (k_node k) <? real_head) && repairing then
    let k := with_log k (bt_remove real_head (nd_log (k_node k))) in
    map_recover k (fun r => rec_tail r (rc_pending r) (rc_reads r) ({[real_head]} ∪ rc_faulty r) (rc_absent r))
  else k.

Definition resume_solo_voter_pipeline (b : Endpoint) (now : Z) : option Endpoint :=
  let k := ep_keeper b in
  slot ← local_slot_opt (k_membership k) (k_local k);
  let n := k_node k in
  let seed t op :=
    let oks := if op_is_direct_voter_add (k_membership k) (nd_log n) op then 0 else bit slot in
    bt_insert op (mkInflight oks false (held_identity k op)) t in
  let k := with_inflight k (foldl seed [] (seqZ (nd_commit_min n + 1) (nd_op n - nd_commit_min n))) in
  '(_, b) ← k_try_commit (set_keeper b k) now;
  Some b.

Definition complete_recovery (b : Endpoint) (now : Z) : option Endpoint :=
  let '(owed, k) := repersist_orphan_owed (ep_keeper b) in
  let b := set_keeper b k in
  match owed with
  | Some owed =>
      let k := with_recover k (Some (default recover_default (k_recover k))) in
      let reading := match k_recover k with Some r => is_some (rc_checkpoint r) || is_some (rc_reconstruct r) || is_some (rc_probe_deferred r) | None => false end in
      if awaiting_peer_checkpoint k then k ← escalate_checkpoint_to_peer_fetch k now (Z.max owed (k_checkpoint_op k)) false; Some (set_keeper b k)
      else if reading then Some (set_keeper b k)
      else km ← submit_recover_checkpoint_read k (ep_medium b); Some (put b km)
  | None =>
      if read_fence_open k then None
      else
        let formatted := match k_recover k with Some r => rc_formatted r | None => false end in
        let k := with_recover k None in
        let n := k_node k in
        if k_log_view k <? k_view k then
          km ← (if endpoint_is_voter (k_membership k) (k_local k) then enter_view_change k (ep_medium b) now (k_view k)
                else enter_catch_up_posture k (ep_medium b) now);
          Some (put b km)
        else if (1 <? m_replica_count (k_membership k)) && k_is_primary k
                && negb (formatted && (k_view k =? 0) && (nd_op n =? 0) && (nd_commit_max n =? 0)) then
          km ← enter_view_change k (ep_medium b) now (Counter.next (k_view k)); Some (put b km)
        else
          let b := set_keeper b (set_status k Normal) in
          b ← (if (m_replica_count (k_membership k) =? 1) && negb (k_is_learner k) then resume_solo_voter_pipeline b now else Some b);
          km ← maybe_pay_checkpoint_debt now (ep_keeper b) (ep_medium b);
          Some (put b km)
  end.

Definition recovery_message (k : Keeper) (slot : ReplicaId) : Message :=
  MRecovery (mkRecovery slot (sy_nonce (o_syncer (k_owed k))) (m_epoch (k_membership k)) (m_config_id (k_membership k))).

Definition recover_progress (b : Endpoint) (now : Z) : option Endpoint :=
  match k_recover (ep_keeper b) with
  | None => Some b
  | Some r =>
      if negb (bool_decide (rc_pending r = [])) then Some b
      else
        let '(real_head, k) := settle_recover_verified_head (ep_keeper b) r in
        k ← finalize_recovery (promote_faulty_head k real_head);
        let b := set_keeper b k in
        match k_recover k with
        | None => Some b
        | Some r =>
            if is_some (rc_checkpoint r) || rc_awaiting_peer_checkpoint r then Some b
            else if bool_decide (rc_faulty r = ∅) then complete_recovery b now
            else if bool_decide (nd_op (k_node k) ∈ rc_faulty r) then
              slot ← local_slot_opt (k_membership k) (k_local k);
              Some (send (set_keeper b (set_status k RecoveringHead)) [(Backups, recovery_message k slot)])
            else
              b ← complete_recovery b now;
              if is_normal (k_status (ep_keeper b)) then
                out ← mapM (send_request_prepare (k_node (ep_keeper b))) (ascending (nd_repair (k_node (ep_keeper b))));
                Some (send b out)
              else Some b
        end
  end.

(** ** Completions *)

Definition read_id (done : WalDone) : option WriteId :=
  match done with
  | ReadOk id _ _ | Absent id | WalFault id | BodyFaulty id _ => Some id
  | Appended _ | Cancelled _ => None
  end.

(** What a completion settles, if it answers a read still outstanding. *)
Definition take_read (k : Keeper) (done : WalDone) : option Keeper :=
  id ← read_id done;
  r ← k_recover k;
  op ← rc_reads r !! id.2;
  Some (settle_read k r id op (read_outcome (bt_get op (rc_canonical r)) op (nd_commit_max (k_node k)) (k_log_view k) done)).

Definition on_recover_wal_done (b : Endpoint) (now : Z) (done : WalDone) : option Endpoint :=
  match take_read (ep_keeper b) done with
  | Some k => recover_progress (set_keeper b k) now
  | None => Some b
  end.

Definition issue_recover_probe (k : Keeper) (m : Medium) (cp : RecoveredCheckpoint) : option (JobId * Keeper * Medium) :=
  issue_block_job k m (JobWalk (block_walks_new (rk_sm_root cp) (rk_sessions_root cp)) None (PurposeRecoverProbe cp)).

(** The envelope read back, if it is the durable root's and is bound to its op. *)
Definition verified_checkpoint (m : Medium) (op : OpNumber) (snapshot : list byte) : option RecoveredCheckpoint :=
  let state := sb_state (sb m) in
  '(bound_op, sm_root, sessions_root) ← decode_checkpoint snapshot;
  if (checkpoint_id snapshot =? v_checkpoint_id state) && (op =? v_checkpoint_op state) && (bound_op =? op)
  then Some (mkRecoveredCheckpoint op sm_root sessions_root) else None.

Definition on_recover_sb_done (k : Keeper) (m : Medium) (done : SuperblockDone) : option (Keeper * Medium) :=
  let forget id := map_recover k (fun r => rec_checkpoint r (rc_checkpoint r) (rc_checkpoint_reads r ∖ {[(id : WriteId).2]}) (rc_checkpoint_retries r) (rc_awaiting_peer_checkpoint r)) in
  match done with
  | CheckpointRead id op snapshot =>
      let tracked := match k_recover k with Some r => bool_decide (id.2 ∈ rc_checkpoint_reads r) | None => false end in
      let k := forget id in
      if negb tracked then Some (k, m)
      else if match k_recover k with Some r => is_some (rc_reconstruct r) | None => false end then Some (k, m)
      else
        match verified_checkpoint m op snapshot with
        | None => Some (k, m)
        | Some cp =>
            if walk_owed (lane m) then
              Some (map_recover k (fun r => rec_probe r (rc_reconstruct r) (Some (v_checkpoint_id (sb_state (sb m)), cp))), m)
            else
              '(job, k, m) ← issue_recover_probe k m cp;
              Some (map_recover k (fun r => rec_probe r (Some job) None), m)
        end
  | SbFault id => Some (forget id, m)
  | Wrote _ => Some (k, m)
  end.

Definition redrive_deferred_recover_probe (k : Keeper) (m : Medium) : option (Keeper * Medium) :=
  match k_recover k with
  | None => Some (k, m)
  | Some r =>
      if walk_owed (lane m) || is_some (rc_reconstruct r) then Some (k, m)
      else
        match rc_probe_deferred r with
        | None => Some (k, m)
        | Some (verified_id, cp) =>
            let state := sb_state (sb m) in
            let k := with_recover k (Some (rec_probe r (rc_reconstruct r) None)) in
            if negb (v_checkpoint_op state =? rk_op cp) || negb (v_checkpoint_id state =? verified_id) then Some (k, m)
            else '(job, k, m) ← issue_recover_probe k m cp; Some (map_recover k (fun r => rec_probe r (Some job) (rc_probe_deferred r)), m)
        end
  end.

(** [missing] is the walk's outcome: a breach of its bound, or the first missing block. *)
Definition on_recover_probe_walked (k : Keeper) (m : Medium) (job : JobId) (cp : RecoveredCheckpoint) (missing : option (option BlockAddress))
    : option (Keeper * Medium) :=
  let owner := r ← k_recover k; rc_reconstruct r in
  if negb (bool_decide (owner = Some job)) then Some (k, m)
  else
    let k := map_recover k (fun r => rec_probe r None (rc_probe_deferred r)) in
    match missing with
    | Some None =>
        if restore_owed (lane m) then Some (k, m)
        else
          '(job, k, m) ← issue_block_job k m (JobRestore (rk_sm_root cp) (rk_sessions_root cp) (restore_seed (nd_sm (k_node k))) (RestoreRecovered cp));
          Some (map_recover k (fun r => rec_probe r (Some job) (rc_probe_deferred r)), m)
    | _ => Some (k, m)
    end.

(** Forward to a checkpoint a late root of the previous life moved to. *)
Definition advance_to_recovered (k : Keeper) (op : OpNumber) : option Keeper :=
  if op <=? k_checkpoint_op k then Some k
  else
    k ← advance_checkpoint_op k op;
    let n := k_node k in
    if op <? nd_commit_min n then None
    else
      k ← trim_log_to_checkpoint (with_knode k (node_frontier n (Z.max (nd_op n) op) op (Z.max (nd_commit_max n) op))) op op;
      Some (map_recover k (fun r =>
        rec_canonical (rec_tail r (List.filter (fun x => op <? x.1) (rc_pending r)) (filter (fun x => op < x.2) (rc_reads r))
                         (filter (fun o => op < o) (rc_faulty r)) (rc_absent r))
          (List.filter (fun x => op <? x.1) (rc_canonical r)))).

Definition fetch_superseded (k : Keeper) : bool :=
  awaiting_peer_checkpoint k
  && match sy_sync (o_syncer (k_owed k)) with
     | Some t => negb (st_require_cross_epoch t) && (st_target t <=? k_checkpoint_op k)
     | None => true
     end.

Definition restore_content (k : Keeper) (cp : RecoveredCheckpoint) (sm : S) (sessions : gmap Z Session) : Keeper :=
  let n := k_node k in
  let k := with_knode k (mkNode (nd_config n) (nd_membership n) (nd_view n) (nd_op n) (nd_commit_min n) (nd_commit_max n) (nd_log n) (nd_inflight n)
                           (nd_appending n) (nd_repair n) sessions (nd_sessions_evicted n) (nd_pending_swap n) sm (rk_op cp) (nd_out n)) in
  with_frontier k (set_dag_roots (k_frontier k) (Some (rk_sm_root cp)) (Some (rk_sessions_root cp))).

Definition on_recovered_checkpoint_restored (b : Endpoint) (now : Z) (cp : RecoveredCheckpoint) (restored : option (S * gmap Z Session)) : option Endpoint :=
  let k := map_recover (ep_keeper b) (fun r => rec_probe r None (rc_probe_deferred r)) in
  match restored with
  | None => Some (set_keeper b k)
  | Some (sm, sessions) =>
      k ← advance_to_recovered (restore_content k cp sm sessions) (rk_op cp);
      let superseded := fetch_superseded k in
      let k := map_recover k (fun r => rec_checkpoint r None (rc_checkpoint_reads r) (rc_checkpoint_retries r) (rc_awaiting_peer_checkpoint r && negb superseded)) in
      let k := if superseded then with_owed k (drop_sync (k_owed k)) else k in
      recover_progress (set_keeper b k) now
  end.

(** ** The retry timer *)

Fixpoint retry_tail_reads (ops : list OpNumber) (outstanding : gset Z) (k : Keeper) (m : Medium) : option (Keeper * Medium) :=
  match ops with
  | [] => Some (k, m)
  | op :: ops =>
      let budget := r ← k_recover k; bt_get op (rc_pending r) in
      '(k, m) ← match (fun budget => retry_verdict (bool_decide (op ∈ outstanding)) budget) <$> budget with
                | Some (Retry rest) => submit_recover_read k m op rest
                | Some RetryExhausted => k ← resolve_exhausted_tail_read k m op; Some (k, m)
                | Some RetryWait | None => Some (k, m)
                end;
      retry_tail_reads ops outstanding k m
  end.

Definition retry_checkpoint_read (k : Keeper) (m : Medium) (now : Z) (owed : bool) (retries : Z) : option (Keeper * Medium) :=
  match retry_verdict owed retries with
  | RetryWait => Some (k, m)
  | Retry rest => submit_tracked_checkpoint_read k m rest
  | RetryExhausted =>
      let '(orphan, k) := repersist_orphan_owed k in
      let target := match orphan with Some owed => Z.max owed (k_checkpoint_op k) | None => k_checkpoint_op k end in
      k ← escalate_checkpoint_to_peer_fetch k now target false;
      Some (k, m)
  end.

(** Everything the timer retries, once its deadline has passed; [false] when a checkpoint
    on its way to disk is waited for instead.  Of a fetch in progress only the solicitation
    is repeated; the pull of its next block is left out. *)
Definition retry_reads (k : Keeper) (m : Medium) (now : Z) : option (bool * Keeper * Medium) :=
  '(k, m) ← flush_and_stage_install k m now;
  if is_some (k_pending_checkpoint k) then Some (false, k, m)
  else
    let r := default recover_default (k_recover k) in
    let k := if rc_awaiting_peer_checkpoint r && is_some (sy_sync (o_syncer (k_owed k)))
             then with_syncer k (send_request_sync (sync_ctx k) (o_syncer (k_owed k)) now) else k in
    '(k, m) ← retry_tail_reads (map fst (rc_pending r)) (list_to_set (map snd (map_to_list (rc_reads r)))) k m;
    '(k, m) ← (if is_some (rc_checkpoint r) && negb (is_some (rc_probe_deferred r)) && negb (is_some (rc_reconstruct r))
               then retry_checkpoint_read k m now (negb (bool_decide (rc_checkpoint_reads r = ∅))) (rc_checkpoint_retries r) else Some (k, m));
    Some (true, k, m).

Definition recover_timeouts (b : Endpoint) (now : Z) : option Endpoint :=
  '(retried, k, m) ← retry_reads (ep_keeper b) (ep_medium b) now;
  if retried : bool then recover_progress (put b (k, m)) now else Some (put b (k, m)).

(** ** Finding a head *)

Definition on_recovery (b : Endpoint) (q : Recovery) : option Endpoint :=
  let k := ep_keeper b in
  if negb (is_normal (k_status k)) || pending_durable_view k then Some b
  else
    let '(owed, k) := repersist_orphan_owed k in
    let b := set_keeper b k in
    if is_some owed || (node_count (k_membership k) <=? rc_replica q) then Some b
    else
      slot ← local_slot_opt (k_membership k) (k_local k);
      let n := k_node k in
      let '(op, commit, floor, log) := if k_is_primary k then (nd_op n, nd_commit_max n, k_log_floor k, log_entries (nd_log n)) else (0, 0, 0, []) in
      Some (send b [(To (PeerReplica (rc_replica q)),
                     MRecoveryResponse (mkRecoveryResponse (k_view k) op commit floor (m_epoch (k_membership k)) (m_config_id (k_membership k))
                                          slot (rc_nonce q) log))]).

Definition on_recovery_response (b : Endpoint) (now : Z) (a : RecoveryResponse) : option Endpoint :=
  let k := ep_keeper b in
  if negb (is_recovering_head (k_status k)) || negb (rr_nonce a =? sy_nonce (o_syncer (k_owed k))) || (rr_view a <? k_view k)
     || negb (rr_replica a =? primary (k_membership k) (rr_view a)) || sync_repersist_root_staged k
  then Some b
  else
    '(flow, k, m) ← adopt_canonical_head k (ep_medium b) now (rr_view a) (rr_op a) (rr_commit a) (rr_checkpoint_op a) (rr_log a);
    match flow with
    | EnteredRecovery => Some (put b (k, m))
    | Continue => km ← truncate_wal_above_adopted_head k m; Some (put b km)
    end.

(** [recover_with_reconfig] from the baseline to its first answer; a member that is no
    longer configured is retired. *)
Definition start_recovery (c : Config) (membership : Membership) (sm : S) (y : Syncer) (incarnation : Z) (m : Medium)
    : option (result RecoverError (Endpoint + MemberId * Epoch)) :=
  match recover_baseline wal_header c membership sm y incarnation m with
  | Ok (RecoveredActive k, m) =>
      let lo := sat_add 64 (k_checkpoint_op k) 1 in
      '(k, m) ← submit_recover_tail_batch (seqZ lo (nd_op (k_node k) - lo + 1)) k m;
      '(k, m) ← (if 0 <? k_checkpoint_op k then submit_tracked_checkpoint_read k m RECOVER_READ_RETRIES else Some (k, m));
      b ← recover_progress (mkEndpoint k m []) 0;
      Some (Ok (inl b))
  | Ok (RecoveredRetired local epoch, _) => Some (Ok (inr (local, epoch)))
  | Err e => Some (Err e)
  end.

End recover.

(** ** Only vouched bytes survive the reading *)

Section vouching.
Context (canonical : btree Identity) (commit : OpNumber) (log_view : View).

(** What the durable root says of a slot: its identity where the root carries one; where
    it does not, only an op above its commit point, of a generation not yet superseded. *)
Definition trusted (op : OpNumber) (h : Header) : Prop :=
  match bt_get op canonical with
  | Some c => header_identity h = c
  | None => commit < op /\ log_view <= h_view h
  end.

Inductive vouched_for (op : OpNumber) : LogEntry -> Prop :=
| vouched_body h body : h_op h = op -> verify h body = true -> trusted op h -> vouched_for op (from_committed_body (h_client h) (h_request h) body)
| vouched_header h : h_op h = op -> verify_header h = true -> trusted op h -> vouched_for op (mkLogEntry (h_client h) (h_request h) (Repairing (h_body_checksum h)))
| vouched_root c r s : bt_get op canonical = Some (c, r, s) -> vouched_for op (mkLogEntry c r (Repairing s)).

Lemma classify_trusted h op : classify_committed_slot (header_identity h) (bt_get op canonical) op (h_view h) commit log_view = SlotVerified -> trusted op h.
Proof.
  unfold classify_committed_slot, trusted. destruct (bt_get op canonical) as [c|]; [case_bool_decide; [by intros _; symmetry|discriminate]|].
  destruct (Z.leb_spec op commit); [done|]. destruct (Z.ltb_spec commit op); [|lia]. cbn [andb]. destruct (Z.ltb_spec (h_view h) log_view); [done|]. lia.
Qed.

(** The entry an outcome leaves for its op. *)
Definition outcome_entry (o : ReadOutcome) : option LogEntry :=
  match o with
  | ReadVerified c r body => Some (from_committed_body c r body)
  | KeepRepairing c r s => Some (mkLogEntry c r (Repairing s))
  | _ => None
  end.

Lemma outcome_vouched op done e : outcome_entry (read_outcome (bt_get op canonical) op commit log_view done) = Some e -> vouched_for op e.
Proof.
  unfold read_outcome. destruct done as [| |id h body|id| |id h]; try done.
  - destruct ((h_op h =? op) && verify h body) eqn:Hv; [|done]. apply andb_true_iff in Hv as [Ho%Z.eqb_eq Hv].
    destruct (classify_committed_slot _ _ _ _ _ _) eqn:Hc; [|done]. intros [= <-]. apply vouched_body; [done|done|by apply classify_trusted].
  - destruct (bt_get op canonical) as [[[c r] s]|] eqn:Hc; [|done]. intros [= <-]. by apply vouched_root.
  - destruct ((h_op h =? op) && verify_header h) eqn:Hv; [|done]. apply andb_true_iff in Hv as [Ho%Z.eqb_eq Hv].
    destruct (classify_committed_slot _ _ _ _ _ _) eqn:Hc; [|done]. intros [= <-]. apply vouched_header; [done|done|by apply classify_trusted].
Qed.

End vouching.

Lemma bt_get_remove {V} k k' (t : btree V) : bt_sorted t -> bt_get k' (bt_remove k t) = if k' =? k then None else bt_get k' t.
Proof.
  intros Hs. destruct (Z.eqb_spec k' k) as [-> |]; [by apply bt_remove_keyed|by apply bt_get_remove_other].
Qed.

(** ** The log through the end of a recovery *)

Section kept_log.
Context {S Image W B : Type} `{StateMachine S Image} `{Wal W} `{Superblock B}.
#[local] Abbreviation Keeper := (@Keeper S).
#[local] Abbreviation Medium := (@Medium W B S Image (gmap Z Session) BlockWalks).
#[local] Abbreviation Endpoint := (@Endpoint S Image W B BlockWalks).

Definition k_log (k : Keeper) : btree LogEntry := nd_log (k_node k).

Lemma frontier_log (k k' : Keeper) : gen k' = gen k -> k_log k' = k_log k.
Proof. unfold gen, node_gen, k_log. congruence. Qed.

Lemma mint_log (k k' : Keeper) id : mint k = Some (id, k') -> k_log k' = k_log k.
Proof. intros Hm. apply frontier_log. by eapply gen_mint. Qed.

Lemma reset_log (k : Keeper) (m : Medium) now k' m' : reset_for_view_transition k m now = Some (k', m') -> k_log k' = k_log k.
Proof.
  unfold reset_for_view_transition. cbv zeta. destruct (recompute_quorum_checkpoint _) as [k1|] eqn:Hq; [|done]. cbn [mbind option_bind]. apply gen_recompute in Hq.
  apply frontier_log in Hq. destruct (drop_checkpoint_for_transition _ m) as [k2 m2] eqn:Hd. intros [= <- _]. change (k_log k2 = k_log k).
  transitivity (k_log k1); [|exact Hq]. unfold drop_checkpoint_for_transition in Hd. repeat case_match; injection Hd as <- _; done.
Qed.

Lemma status_log (k : Keeper) s : k_log (set_status k s) = k_log k.
Proof. unfold set_status. by case_match. Qed.

Lemma abandon_sb_log (k : Keeper) (m : Medium) k' m' : abandon_pending_sb k m = (k', m') -> k_log k' = k_log k.
Proof. unfold abandon_pending_sb. destruct (k_pending_sb k) as [[? ?]|]; by intros [= <- _]. Qed.

Lemma submit_view_log (k : Keeper) (m : Medium) a k' m' : submit_durable_view k m a = Some (k', m') -> k_log k' = k_log k.
Proof.
  unfold submit_durable_view. cbv zeta. destruct (durable_root _ _ _ _ _ _ _ _) as [state|]; cbn [mbind option_bind]; [|done].
  destruct (mint k) as [[id k1]|] eqn:Hm; cbn [mbind option_bind]; [|done]. destruct (submit_root _ _ _ _); cbn [mbind option_bind]; [|done].
  intros [= <- _]. exact (mint_log _ _ _ Hm).
Qed.

Lemma view_change_log (k : Keeper) (m : Medium) now v k' m' : enter_view_change k m now v = Some (k', m') -> k_log k' = k_log k.
Proof.
  unfold enter_view_change. cbv zeta. destruct (reset_for_view_transition _ m now) as [[k1 m1]|] eqn:Hr; cbn [mbind option_bind]; [|done].
  intros Hs. rewrite (submit_view_log _ _ _ _ _ Hs). change (k_log k1 = k_log k). rewrite (reset_log _ _ _ _ _ Hr). exact (status_log (set_view k v) _).
Qed.

Lemma posture_log (k : Keeper) (m : Medium) now k' m' : enter_catch_up_posture k m now = Some (k', m') -> k_log k' = k_log k.
Proof.
  unfold enter_catch_up_posture. cbv zeta. destruct (reset_for_view_transition _ m now) as [[k1 m1]|] eqn:Hr; cbn [mbind option_bind]; [|done].
  intros [= Hs]. rewrite (abandon_sb_log _ _ _ _ Hs). change (k_log k1 = k_log k). rewrite (reset_log _ _ _ _ _ Hr). apply status_log.
Qed.

Lemma checkpoint_read_log (k : Keeper) (m : Medium) k' m' : submit_recover_checkpoint_read k m = Some (k', m') -> k_log k' = k_log k.
Proof.
  unfold submit_recover_checkpoint_read. destruct (mint k) as [[id k1]|] eqn:Hm; cbn [mbind option_bind]; [|done]. intros [= <- _]. exact (mint_log _ _ _ Hm).
Qed.

Lemma orphan_recovery_log (k : Keeper) (m : Medium) now k' m' : enter_orphan_repersist_recovery k m now = Some (k', m') -> k_log k' = k_log k.
Proof.
  unfold enter_orphan_repersist_recovery. destruct (reset_for_view_transition _ m now) as [[k1 m1]|] eqn:Hr; cbn [mbind option_bind]; [|done]. cbv zeta.
  destruct (abandon_pending_sb _ m1) as [k2 m2] eqn:Ha. intros Hs. rewrite (checkpoint_read_log _ _ _ _ Hs).
  etransitivity; [exact (status_log _ Recovering)|]. change (k_log k2 = k_log k). rewrite (abandon_sb_log _ _ _ _ Ha). exact (reset_log _ _ _ _ _ Hr).
Qed.

Lemma maybe_orphan_log (k : Keeper) (m : Medium) now b k' m' : maybe_enter_orphan_repersist_recovery k m now = Some (b, k', m') -> k_log k' = k_log k.
Proof.
  destruct b; intros Hm; [|apply frontier_log; by eapply gen_maybe_orphan]. apply maybe_orphan_true in Hm as (_ & _ & _ & _ & _ & Hm). by eapply orphan_recovery_log.
Qed.

Definition keeps_log (pay : Keeper -> Medium -> option (Keeper * Medium)) : Prop := forall k m k' m', pay k m = Some (k', m') -> k_log k' = k_log k.

Lemma tail_log pay (k : Keeper) (m : Medium) now flow k' m' : keeps_log pay -> commit_tail pay k m now = Some (flow, k', m') -> k_log k' = k_log k.
Proof.
  intros Hpay. unfold commit_tail. destruct (maybe_adopt_inherited_frontier _) as [k1|] eqn:E1; [|done]. cbn [mbind option_bind].
  apply gen_adopt_inherited, frontier_log in E1. change (k_log (k_cancel_forced_sync k)) with (k_log k) in E1. destruct (maybe_enter_orphan_repersist_recovery k1 m now) as [[[en k2] m2]|] eqn:E2; [|done].
  apply maybe_orphan_log in E2. cbn [mbind option_bind]. destruct en; [intros [= _ <- _]; congruence|].
  destruct (maybe_checkpoint k2 m2) as [[k3 m3]|] eqn:E3; [|done]. cbn [mbind option_bind]. apply gen_maybe_checkpoint, frontier_log in E3.
  destruct (pay k3 m3) as [[k4 m4]|] eqn:E4; [|done]. cbn [mbind option_bind]. apply Hpay in E4.
  destruct (maybe_swap_epoch k4 m4) as [[k5 m5]|] eqn:E5; [|done]. cbn [mbind option_bind]. apply gen_maybe_swap, frontier_log in E5.
  intros [= _ <- _]. congruence.
Qed.

Lemma advance_paying_log pay (k : Keeper) (m : Medium) now target flow k' m' : keeps_log pay ->
  advance_commit_paying pay k m now target = Some (flow, k', m') -> k_log k' = k_log k.
Proof.
  intros Hpay. unfold advance_commit_paying. destruct (is_some _); [by intros [= _ <- _]|]. cbv zeta. set (k1 := with_knode k _).
  destruct (sm_reconstruct_owed k1); [by intros [= _ <- _]|]. destruct (k_advance_loop _ k1 m now target) as [[k2 m2]|] eqn:E2; [|done].
  cbn [mbind option_bind]. apply gen_advance_loop, frontier_log in E2. intros Ht. rewrite (tail_log _ _ _ _ _ _ _ Hpay Ht). exact E2.
Qed.

Lemma pay_log advance : (forall k m flow k' m', advance k m = Some (flow, k', m') -> k_log k' = k_log k) -> keeps_log (pay_checkpoint_debt advance).
Proof.
  intros Hadv k m k' m'. unfold pay_checkpoint_debt. destruct (_ <=? _); [by intros [= <- _]|]. destruct (_ || _); [by intros [= <- _]|].
  destruct (negb _); [by intros [= <- _]|]. destruct (_ || _); [by intros [= <- _]|]. destruct (advance k m) as [[[flow k1] m1]|] eqn:Ha; [|done].
  cbn [mbind option_bind]. apply Hadv in Ha. destruct flow; [|by intros [= <- _]].
  destruct (_ && _); [|by intros [= <- _]]. intros Hf. apply gen_force_checkpoint, frontier_log in Hf. congruence.
Qed.

Lemma debt_log now : keeps_log (maybe_pay_checkpoint_debt now).
Proof.
  apply pay_log. intros k m flow k' m' Ha. eapply advance_paying_log; [|exact Ha]. apply pay_log. by intros ? ? ? ? ? [= _ <- _].
Qed.

Lemma try_commit_log (b : Endpoint) now flow b' : k_try_commit b now = Some (flow, b') -> k_log (ep_keeper b') = k_log (ep_keeper b).
Proof.
  unfold k_try_commit. cbv zeta. destruct (negb _); [by intros [= _ <-]|]. destruct (_ || _); [by intros [= _ <-]|].
  destruct (k_try_commit_loop _ _ _ _ _) as [[[adv k1] m1]|] eqn:E1; [|done]. cbn [mbind option_bind]. apply gen_try_loop, frontier_log in E1.
  set (k2 := with_knode k1 _). destruct (commit_tail _ k2 m1 now) as [[[fl k3] m3]|] eqn:E3; [|done]. cbn [mbind option_bind].
  apply tail_log in E3; [|apply debt_log]. intros [= _ <-]. change (k_log k3 = k_log (ep_keeper b)). etransitivity; [exact E3|exact E1].
Qed.

Lemma orphan_owed_log (k k' : Keeper) o : repersist_orphan_owed k = (o, k') -> k_log k' = k_log k /\ k_recover k' = k_recover k.
Proof.
  intros Ho. split; [apply frontier_log; by eapply gen_orphan_owed|]. unfold repersist_orphan_owed in Ho. repeat case_match; by injection Ho as _ <-.
Qed.

Lemma escalate_log (k : Keeper) now t cross k' : escalate_checkpoint_to_peer_fetch k now t cross = Some k' -> k_log k' = k_log k.
Proof. unfold escalate_checkpoint_to_peer_fetch. destruct (negb _); [done|]. cbv zeta. by intros [= <-]. Qed.

Lemma complete_log (b : Endpoint) now b' : complete_recovery b now = Some b' -> k_log (ep_keeper b') = k_log (ep_keeper b).
Proof.
  unfold complete_recovery. destruct (repersist_orphan_owed (ep_keeper b)) as [owed k] eqn:Ho. apply orphan_owed_log in Ho as [Ho _]. cbv zeta.
  destruct owed as [owed|].
  - set (k1 := with_recover k _). assert (Hk1 : k_log k1 = k_log (ep_keeper b)) by exact Ho.
    destruct (awaiting_peer_checkpoint k1).
    { destruct (escalate_checkpoint_to_peer_fetch k1 now _ _) as [k2|] eqn:He; [|done]. apply escalate_log in He. intros [= <-]. cbn. congruence. }
    destruct (match k_recover k1 with Some _ => _ | None => _ end); [by intros [= <-]|].
    destruct (submit_recover_checkpoint_read k1 _) as [[k2 m2]|] eqn:Hs; [|done]. apply checkpoint_read_log in Hs. intros [= <-]. cbn in *. congruence.
  - cbn [ep_keeper set_keeper]. destruct (read_fence_open k); [done|]. set (k1 := with_recover k None). assert (Hk1 : k_log k1 = k_log (ep_keeper b)) by exact Ho.
    destruct (k_log_view k1 <? k_view k1).
    { destruct (endpoint_is_voter _ _).
      - destruct (enter_view_change _ _ _ _) as [[k2 m2]|] eqn:He; [|done]. apply view_change_log in He. intros [= <-]. cbn in *. congruence.
      - destruct (enter_catch_up_posture _ _ _) as [[k2 m2]|] eqn:He; [|done]. apply posture_log in He. intros [= <-]. cbn in *. congruence. }
    destruct (_ && _ && negb _).
    { destruct (enter_view_change _ _ _ _) as [[k2 m2]|] eqn:He; [|done]. apply view_change_log in He. intros [= <-]. cbn in *. congruence. }
    set (b1 := set_keeper _ (set_status k1 Normal)). assert (Hb1 : k_log (ep_keeper b1) = k_log (ep_keeper b)) by (etransitivity; [exact (status_log _ Normal)|exact Ho]).
    destruct (if _ : bool then resume_solo_voter_pipeline b1 now else Some b1) as [b2|] eqn:Hr; [|done]. cbn [mbind option_bind].
    assert (Hb2 : k_log (ep_keeper b2) = k_log (ep_keeper b)).
    { destruct (_ && _) in Hr; [|by injection Hr as <-]. unfold resume_solo_voter_pipeline in Hr. destruct (local_slot_opt _ _); [|done].
      cbn [mbind option_bind] in Hr. destruct (k_try_commit _ now) as [[fl b3]|] eqn:Ht; [|done]. injection Hr as <-. apply try_commit_log in Ht.
      etransitivity; [exact Ht|exact Hb1]. }
    destruct (maybe_pay_checkpoint_debt now _ _) as [[k3 m3]|] eqn:Hp; [|done]. cbn [mbind option_bind]. intros [= <-]. apply debt_log in Hp. cbn. congruence.
Qed.

End kept_log.

Section reading.
Context {S Image W B : Type} `{StateMachine S Image} `{Wal W} `{Superblock B}.
Context (wal_header : W -> OpNumber -> option Header).
#[local] Abbreviation Keeper := (@Keeper S).
#[local] Abbreviation Medium := (@Medium W B S Image (gmap Z Session) BlockWalks).
#[local] Abbreviation Endpoint := (@Endpoint S Image W B BlockWalks).

Lemma elem_ascending (s : gset Z) x : x ∈ ascending s <-> x ∈ s.
Proof. unfold ascending. by rewrite merge_sort_Permutation, elem_of_elements. Qed.

Lemma log_with_log (k : Keeper) t : k_log (with_log k t) = t.
Proof. done. Qed.

(** What the drop leaves of a log. *)
Definition without_faulty (faulty : OpNumber -> bool) (o : option LogEntry) (op : OpNumber) : option LogEntry :=
  match o with Some e => if faulty op && negb (is_repairing (l_body e)) then None else Some e | None => None end.

Lemma drop_faulty_spec ops (k : Keeper) : bt_sorted (k_log k) -> (forall op, op ∈ ops -> match k_recover k with Some r => op ∈ rc_faulty r | None => False end) ->
  exists k', drop_faulty ops k = Some k' /\ bt_sorted (k_log k') /\ k_recover k' = k_recover k /\ with_log k' (k_log k) = k /\
    forall op, bt_get op (k_log k') = without_faulty (fun op => bool_decide (op ∈ ops)) (bt_get op (k_log k)) op.
Proof.
  revert k. induction ops as [|op ops IH]; intros k Hs Hin; cbn [drop_faulty].
  { exists k. split; [done|]. split; [done|]. split; [done|]. split; [by destruct k as [[] ? ? ? ? ? ? ? ? ? ?]|]. intros op. unfold without_faulty.
    rewrite bool_decide_eq_false_2 by apply not_elem_of_nil. by destruct (bt_get op (k_log k)). }
  cbv zeta. fold (k_log k). destruct (match bt_get op (k_log k) with Some _ => _ | None => _ end) eqn:Hr.
  - destruct (IH k Hs) as (k' & Hd & Hs' & Hr' & Hw & Hl); [intros o Ho; apply Hin; by right|].
    exists k'. split; [done|]. split; [done|]. split; [done|]. split; [done|]. intros o. rewrite Hl. unfold without_faulty.
    destruct (bt_get o (k_log k)) as [e|] eqn:He; [|done]. destruct (decide (o = op)) as [-> |Hne]; [rewrite He in Hr; by rewrite Hr, !andb_false_r|].
    rewrite (bool_decide_ext (o ∈ op :: ops) (o ∈ ops)); [done|]. rewrite elem_of_cons. tauto.
  - assert (committed_survives k op (k_checkpoint_op k) = true) as ->.
    { unfold committed_survives. specialize (Hin op (list_elem_of_here _ _)). destruct (k_recover k) as [r|]; [|done]. rewrite bool_decide_eq_true_2 by done. by rewrite orb_true_r. }
    destruct (IH (with_log k (bt_remove op (k_log k)))) as (k' & Hd & Hs' & Hr' & Hw & Hl); [by apply bt_remove_keyed|intros o Ho; apply Hin; by right|].
    exists k'. split; [done|]. split; [done|]. split; [done|]. split.
    + rewrite log_with_log in Hw. change (with_log k' (k_log k)) with (with_log (with_log k' (bt_remove op (k_log k))) (k_log k)). rewrite Hw.
      by destruct k as [[] ? ? ? ? ? ? ? ? ? ?].
    + intros o. rewrite Hl, log_with_log, bt_get_remove by done. unfold without_faulty. destruct (Z.eqb_spec o op) as [-> |Hne].
      * destruct (bt_get op (k_log k)) as [e|]; [|done]. rewrite Hr, bool_decide_eq_true_2 by (by left). done.
      * destruct (bt_get o (k_log k)) as [e|]; [|done]. rewrite (bool_decide_ext (o ∈ op :: ops) (o ∈ ops)); [done|]. rewrite elem_of_cons. tauto.
Qed.

(** Never refused, and only header-only entries stay at faulty slots. *)
Lemma finalize_spec (k : Keeper) r : bt_sorted (k_log k) -> k_recover k = Some r ->
  exists k', finalize_recovery k = Some k' /\ k_recover k' = Some r /\ bt_sorted (k_log k') /\ with_log k' (k_log k) = k /\
    forall op, bt_get op (k_log k') = without_faulty (fun op => bool_decide (op ∈ rc_faulty r)) (bt_get op (k_log k)) op.
Proof.
  intros Hs Hr. unfold finalize_recovery, drop_faulty_committed_slots, faulty_ops. rewrite Hr.
  destruct (drop_faulty_spec (ascending (rc_faulty r)) k Hs) as (k' & -> & Hs' & Hr' & Hw & Hl); [intros op Hop; rewrite Hr; by apply elem_ascending|].
  cbn [mbind option_bind]. rewrite Hr in Hr'.
  assert (assert_no_faulty_committed_survives k' = true) as ->.
  { unfold assert_no_faulty_committed_survives, faulty_ops. rewrite Hr'. apply forallb_forall. intros op Hop%list_elem_of_In. fold (k_log k'). rewrite Hl. unfold without_faulty.
    rewrite bool_decide_eq_true_2 by done. destruct (bt_get op (k_log k)) as [e|]; [|done].
    destruct (is_repairing (l_body e)) eqn:Hrep; cbn; [|done]. by destruct (l_body e). }
  exists k'. split; [done|]. split; [done|]. split; [done|]. split; [done|]. intros op. rewrite Hl. unfold without_faulty.
  rewrite (bool_decide_ext _ (op ∈ rc_faulty r)); [done|apply elem_ascending].
Qed.

Context (canonical : btree Identity) (commit : OpNumber) (log_view : View).
#[local] Abbreviation vouched_for := (vouched_for canonical commit log_view).

(** A slot still to be read, or read and found faulty. *)
Definition unread (r : RecoverState) (op : OpNumber) : Prop := is_Some (bt_get op (rc_pending r)) \/ op ∈ rc_faulty r.

Definition reading_inv (k : Keeper) : Prop :=
  bt_sorted (k_log k) /\ nd_commit_max (k_node k) = commit /\ k_log_view k = log_view /\
  exists r, k_recover k = Some r /\ rc_canonical r = canonical /\
    forall op e, bt_get op (k_log k) = Some e -> vouched_for op e \/ (is_repairing (l_body e) = false /\ unread r op).

Definition all_vouched (k : Keeper) : Prop := forall op e, bt_get op (k_log k) = Some e -> vouched_for op e.

Lemma settle_reading (k : Keeper) r id op done : reading_inv k -> k_recover k = Some r ->
  reading_inv (settle_read k r id op (read_outcome (bt_get op (rc_canonical r)) op (nd_commit_max (k_node k)) (k_log_view k) done)).
Proof.
  intros (Hs & Hc & Hlv & r0 & Hr0 & Hcan & Hv) Hr. rewrite Hr in Hr0. injection Hr0 as <-. rewrite Hcan, Hc, Hlv.
  pose proof (outcome_vouched canonical commit log_view op done) as Ho. destruct (read_outcome _ _ _ _ _); cbn [outcome_entry settle_read] in *.
  1,2: split; [by apply bt_insert_sorted|]; split; [done|]; split; [done|]; eexists; split; [reflexivity|]; split; [exact Hcan|]; intros o e;
    rewrite log_with_log, bt_get_insert; destruct (Z.eqb_spec o op) as [-> |Hne]; [intros [= <-]; left; by apply Ho|]; intros He;
    destruct (Hv o e He) as [?|[Hrep Hu]]; [by left|]; right; split; [done|];
    destruct Hu as [Hp|Hf]; [left; cbn; by rewrite bt_get_remove_other|right; cbn; set_solver].
  - split; [done|]. split; [done|]. split; [done|]. eexists. split; [reflexivity|]. split; [exact Hcan|]. intros o e He.
    destruct (Hv o e He) as [?|[Hrep Hu]]; [by left|]. right. split; [done|]. destruct (decide (o = op)) as [-> |]; [right; cbn; set_solver|].
    destruct Hu as [Hp|Hf]; [left; cbn; by rewrite bt_get_remove_other|right; cbn; set_solver].
  - split; [done|]. split; [done|]. split; [done|]. eexists. split; [reflexivity|]. by split.
  - split; [by apply bt_remove_keyed|]. split; [done|]. split; [done|]. eexists. split; [reflexivity|]. split; [exact Hcan|]. intros o e.
    rewrite log_with_log, bt_get_remove by done. destruct (Z.eqb_spec o op) as [-> |]; [done|]. intros He.
    destruct (Hv o e He) as [?|[Hrep Hu]]; [by left|]. right. split; [done|].
    destruct Hu as [Hp|Hf]; [left; cbn; by rewrite bt_get_remove_other|right; cbn; set_solver].
Qed.

Lemma settle_head_reading (k : Keeper) r real_head k' : reading_inv k -> k_recover k = Some r -> rc_pending r = [] ->
  settle_recover_verified_head k r = (real_head, k') -> reading_inv k' /\ exists r', k_recover k' = Some r' /\ rc_pending r' = [].
Proof.
  intros (Hs & Hc & Hlv & r0 & Hr0 & Hcan & Hv) Hr Hp. rewrite Hr in Hr0. injection Hr0 as <-. unfold settle_recover_verified_head. cbv zeta.
  set (r' := rec_tail r _ _ _ _). intros [= <- <-]. assert (Hun : forall o, unread r o -> unread r' o).
  { intros o [Ho|Ho]; [by left|]. right. cbn. set_solver. }
  destruct (_ <? nd_op _); cbn [k_recover].
  - split; [|by exists r']. split; [by apply bt_filter_sorted|]. split; [exact Hc|]. split; [exact Hlv|]. exists r'. split; [done|]. split; [exact Hcan|].
    intros o e He. rewrite log_with_log, (bt_get_keep _ (fun o => o <=? _)) in He by done. destruct (o <=? _); [|done].
    destruct (Hv o e He) as [?|[? ?]]; [by left|]. right. split; [done|by apply Hun].
  - split; [|by exists r']. split; [exact Hs|]. split; [exact Hc|]. split; [exact Hlv|]. exists r'. split; [done|]. split; [exact Hcan|].
    intros o e He. destruct (Hv o e He) as [?|[? ?]]; [by left|]. right. split; [done|by apply Hun].
Qed.

Lemma promote_reading (k : Keeper) r real_head : reading_inv k -> k_recover k = Some r -> rc_pending r = [] ->
  reading_inv (promote_faulty_head k real_head) /\ exists r', k_recover (promote_faulty_head k real_head) = Some r' /\ rc_pending r' = [].
Proof.
  intros Hk Hr Hp. unfold promote_faulty_head. cbv zeta. destruct (_ && _); [|by split; [|exists r]].
  destruct Hk as (Hs & Hc & Hlv & r0 & Hr0 & Hcan & Hv). rewrite Hr in Hr0. injection Hr0 as <-.
  unfold map_recover. cbn [k_recover with_log with_knode]. rewrite Hr. cbn [fmap option_fmap option_map].
  split; [|by eexists]. split; [by apply bt_remove_keyed|]. split; [exact Hc|]. split; [exact Hlv|]. eexists. split; [reflexivity|]. split; [exact Hcan|].
  intros o e. change (bt_get o (bt_remove real_head (k_log k)) = Some e -> vouched_for o e \/ is_repairing (l_body e) = false /\ unread (rec_tail r (rc_pending r) (rc_reads r) ({[real_head]} ∪ rc_faulty r) (rc_absent r)) o).
  rewrite bt_get_remove by done. destruct (_ =? _); [done|]. intros He.
  destruct (Hv o e He) as [?|[? Hu]]; [by left|]. right. split; [done|]. destruct Hu as [Hu|Hu]; [by left|]. right. cbn. set_solver.
Qed.

Lemma progress_reading (b : Endpoint) now b' : reading_inv (ep_keeper b) -> recover_progress b now = Some b' ->
  (b' = b /\ exists r, k_recover (ep_keeper b) = Some r /\ rc_pending r <> []) \/ all_vouched (ep_keeper b').
Proof.
  intros Hk. pose proof Hk as (_ & _ & _ & r & Hr & _). unfold recover_progress. rewrite Hr.
  case_bool_decide as Hp; [|intros [= <-]; left; split; [done|by exists r]]. cbn [negb].
  destruct (settle_recover_verified_head _ r) as [real_head k1] eqn:Hsh. intros Hx. right.
  destruct (settle_head_reading _ _ _ _ Hk Hr Hp Hsh) as (Hk1 & r1 & Hr1 & Hp1).
  destruct (promote_reading _ _ real_head Hk1 Hr1 Hp1) as (Hk2 & r2 & Hr2 & Hp2). set (k2 := promote_faulty_head k1 real_head) in *.
  pose proof Hk2 as (Hs2 & _ & _ & r2' & Hr2' & _ & Hv2). rewrite Hr2 in Hr2'. injection Hr2' as <-.
  destruct (finalize_spec k2 r2 Hs2 Hr2) as (k3 & Hf & Hr3 & _ & _ & Hl). unfold without_faulty in Hl. rewrite Hf in Hx. cbn [mbind option_bind] in Hx. rewrite Hr3 in Hx.
  assert (Hall : all_vouched k3).
  { intros o e. rewrite Hl. destruct (bt_get o (k_log k2)) as [e2|] eqn:He2; [|done]. destruct (Hv2 o e2 He2) as [?|[Hno [[x Hx']|Hu]]].
    - destruct (_ && _); [done|]. by intros [= <-].
    - rewrite Hp2 in Hx'. done.
    - by rewrite bool_decide_eq_true_2, Hno by done. }
  assert (Hend : forall b1 : Endpoint, k_log (ep_keeper b1) = k_log k3 -> all_vouched (ep_keeper b1)) by (intros b1 Hb1 o e; rewrite Hb1; apply Hall).
  destruct (_ || _); [injection Hx as <-; by apply Hend|].
  case_bool_decide; [apply complete_log in Hx; by apply Hend|].
  case_bool_decide.
  { destruct (local_slot_opt _ _); cbn [mbind option_bind] in Hx; [|done]. injection Hx as <-. apply Hend. exact (status_log _ RecoveringHead). }
  destruct (complete_recovery _ now) as [b1|] eqn:Hcr; cbn [mbind option_bind] in Hx; [|done]. apply complete_log in Hcr.
  destruct (is_normal _); [|injection Hx as <-; by apply Hend]. destruct (mapM _ _) as [out|]; cbn [mbind option_bind] in Hx; [|done].
  injection Hx as <-. by apply Hend.
Qed.


(** What the invariant reads. *)
Definition reading_view (k : Keeper) :=
  (k_log k, nd_commit_max (k_node k), k_log_view k, (fun r => (rc_canonical r, rc_pending r, rc_faulty r)) <$> k_recover k).

Lemma reading_view_inv (k k' : Keeper) : reading_view k' = reading_view k -> reading_inv k -> reading_inv k'.
Proof.
  unfold reading_view. intros Hv (Hs & Hc & Hlv & r & Hr & Hcan & Hl). rewrite Hr in Hv. destruct (k_recover k') as [r'|] eqn:Hr'; [|done].
  cbn in Hv. injection Hv as Hlog Hc' Hlv' Hcan' Hp Hf. split; [by rewrite Hlog|]. split; [congruence|]. split; [congruence|]. exists r'.
  split; [done|]. split; [congruence|]. intros o e. rewrite Hlog. unfold unread. rewrite Hp, Hf. apply Hl.
Qed.

Lemma mint_view (k k' : Keeper) id : mint k = Some (id, k') -> reading_view k' = reading_view k /\ k_recover k' = k_recover k.
Proof. unfold mint, mint_write_id. destruct (_ <? _); [|done]. cbn [mbind option_bind]. by intros [= _ <-]. Qed.

Lemma job_view (k : Keeper) (m : Medium) kind j k' m' : issue_block_job k m kind = Some (j, k', m') -> reading_view k' = reading_view k /\ k_recover k' = k_recover k.
Proof.
  unfold issue_block_job. destruct (mint k) as [[id k1]|] eqn:Hm; [|done]. cbn [mbind option_bind]. destruct (enqueue_block_job _ _ _); [|done].
  cbn [mbind option_bind]. intros [= _ <- _]. by eapply mint_view.
Qed.

Lemma stage_view (k : Keeper) (m : Medium) now k' m' : flush_and_stage_install k m now = Some (k', m') -> reading_view k' = reading_view k /\ k_recover k' = k_recover k.
Proof.
  unfold flush_and_stage_install. destruct (k_pending_install k) as [i|]; [|by intros [= <- _]]. destruct (_ || _); [by intros [= <- _]|].
  destruct (issue_block_job k m _) as [[[j k1] m1]|] eqn:Hj; [|done]. cbn [mbind option_bind]. cbv zeta. intros [= <- _]. by apply job_view in Hj.
Qed.

Lemma read_reading (k : Keeper) (m : Medium) op budget k' m' : reading_inv k -> submit_recover_read k m op budget = Some (k', m') -> reading_inv k'.
Proof.
  intros Hk. unfold submit_recover_read. destruct (mint k) as [[id k1]|] eqn:Hm; [|done]. cbn [mbind option_bind]. apply mint_view in Hm as [Hv Hr].
  apply (reading_view_inv k k1 Hv) in Hk as (Hs & Hc & Hlv & r & Hr1 & Hcan & Hl). intros [= <- _]. unfold map_recover. rewrite Hr1. cbn [fmap option_fmap option_map].
  split; [done|]. split; [done|]. split; [done|]. eexists. split; [reflexivity|]. split; [exact Hcan|]. intros o e He.
  destruct (Hl o e He) as [?|[? Hu]]; [by left|]. right. split; [done|]. destruct Hu as [Hu|Hu]; [left|by right]. cbn. rewrite bt_get_insert. destruct (_ =? _); [by eexists|done].
Qed.

(** The header found vouches for what it names. *)
Lemma tail_identity_vouched (k : Keeper) (m : Medium) op c r s : reading_inv k -> inflight_tail_repairing_identity wal_header k m op = Some (c, r, s) ->
  vouched_for op (mkLogEntry c r (Repairing s)).
Proof.
  intros (_ & Hc & Hlv & rec & Hr & Hcan & _). unfold inflight_tail_repairing_identity. rewrite Hr. cbn [mbind option_bind]. rewrite Hcan, Hc, Hlv.
  destruct (wal_header _ op) as [h|]; [|intros Hx; by apply vouched_root]. destruct (verify_header h) eqn:Hv; cbn [negb]; [|intros Hx; by apply vouched_root].
  destruct (Z.eqb_spec (h_op h) op); [|done]. destruct (classify_committed_slot _ _ _ _ _ _) eqn:Hcl; [|done]. intros [= <- <- <-].
  apply vouched_header; [done|done|by apply classify_trusted].
Qed.

Lemma exhausted_reading (k : Keeper) (m : Medium) op k' : reading_inv k -> resolve_exhausted_tail_read wal_header k m op = Some k' -> reading_inv k'.
Proof.
  intros Hk. unfold resolve_exhausted_tail_read. cbv zeta. destruct (match k_recover k with Some _ => _ | None => _ end); [done|].
  pose proof (fun c r s => tail_identity_vouched k m op c r s Hk) as Hid. destruct Hk as (Hs & Hc & Hlv & r & Hr & Hcan & Hl). unfold map_recover. rewrite Hr. cbn [fmap option_fmap option_map].
  destruct (inflight_tail_repairing_identity _ _ _ _) as [[[c q] s]|]; intros [= <-].
  - split; [by apply bt_insert_sorted|]. split; [done|]. split; [done|]. eexists. split; [reflexivity|]. split; [exact Hcan|]. intros o e.
    rewrite log_with_log. cbn [k_node with_recover]. rewrite bt_get_insert. destruct (Z.eqb_spec o op) as [-> |Hne]; [intros [= <-]; left; by apply Hid|]. intros He.
    destruct (Hl o e He) as [?|[? Hu]]; [by left|]. right. split; [done|]. destruct Hu as [Hu|Hu]; [left; cbn; by rewrite bt_get_remove_other|right; cbn; set_solver].
  - split; [done|]. split; [done|]. split; [done|]. eexists. split; [reflexivity|]. split; [exact Hcan|]. intros o e He.
    destruct (Hl o e He) as [?|[? Hu]]; [by left|]. right. split; [done|]. destruct (decide (o = op)) as [-> |]; [right; cbn; set_solver|].
    destruct Hu as [Hu|Hu]; [left; cbn; by rewrite bt_get_remove_other|right; cbn; set_solver].
Qed.

Lemma retry_tail_reading ops outstanding : forall (k : Keeper) (m : Medium) k' m', reading_inv k -> retry_tail_reads wal_header ops outstanding k m = Some (k', m') -> reading_inv k'.
Proof.
  induction ops as [|op ops IH]; intros k m k' m' Hk; cbn [retry_tail_reads]; [by intros [= <- _]|]. cbv zeta.
  destruct (_ <$> _) as [[| |]|].
  1,4: cbn [mbind option_bind]; by apply IH.
  - destruct (submit_recover_read k m op rest) as [[k1 m1]|] eqn:Hs; [|done]. cbn [mbind option_bind]. apply IH. by eapply read_reading.
  - destruct (resolve_exhausted_tail_read wal_header k m op) as [k1|] eqn:Hs; [|done]. cbn [mbind option_bind]. apply IH. by eapply exhausted_reading.
Qed.

Lemma escalate_view (k : Keeper) now t cross k' : escalate_checkpoint_to_peer_fetch k now t cross = Some k' -> reading_view k' = reading_view k.
Proof.
  unfold escalate_checkpoint_to_peer_fetch. destruct (negb _); [done|]. cbv zeta. intros [= <-]. unfold reading_view, map_recover. cbn. by destruct (k_recover k).
Qed.

Lemma orphan_owed_view (k k' : Keeper) o : repersist_orphan_owed k = (o, k') -> reading_view k' = reading_view k.
Proof. unfold repersist_orphan_owed. intros Ho. repeat case_match; by injection Ho as _ <-. Qed.

Lemma retry_checkpoint_view (k : Keeper) (m : Medium) now owed retries k' m' : retry_checkpoint_read k m now owed retries = Some (k', m') -> reading_view k' = reading_view k.
Proof.
  unfold retry_checkpoint_read. destruct (retry_verdict owed retries) as [|rest|]; [by intros [= <- _]| |].
  - unfold submit_tracked_checkpoint_read. destruct (mint k) as [[id k1]|] eqn:Hm; [|done]. cbn [mbind option_bind]. cbv zeta. intros [= <- _].
    apply mint_view in Hm as [Hv Hr]. unfold reading_view, map_recover in *. rewrite Hr in Hv |- *. destruct (k_recover k); exact Hv.
  - destruct (repersist_orphan_owed k) as [o k1] eqn:Ho. apply orphan_owed_view in Ho. cbv zeta.
    destruct (escalate_checkpoint_to_peer_fetch k1 now _ _) as [k2|] eqn:He; [|done]. cbn [mbind option_bind]. apply escalate_view in He. intros [= <- _]. congruence.
Qed.

Lemma retries_reading (k : Keeper) (m : Medium) now b k' m' : reading_inv k -> retry_reads wal_header k m now = Some (b, k', m') -> reading_inv k'.
Proof.
  intros Hk. unfold retry_reads. destruct (flush_and_stage_install _ _ now) as [[k1 m1]|] eqn:Hf; [|done]. cbn [mbind option_bind].
  apply stage_view in Hf as [Hf _]. apply (reading_view_inv _ k1 Hf) in Hk. destruct (is_some _); [by intros [= _ <- _]|]. cbv zeta.
  set (k2 := if _ : bool then _ else k1). assert (Hk2 : reading_inv k2) by (apply (reading_view_inv k1); [subst k2; by destruct (_ && _)|done]).
  destruct (retry_tail_reads _ _ _ k2 m1) as [[k3 m3]|] eqn:Ht; [|done]. cbn [mbind option_bind]. apply retry_tail_reading in Ht; [|done].
  destruct (if _ : bool then _ else Some (k3, m3)) as [[k4 m4]|] eqn:Hc; [|done]. cbn [mbind option_bind]. intros [= _ <- _].
  destruct (_ && _ && _) in Hc; [apply retry_checkpoint_view in Hc; by apply (reading_view_inv k3)|by injection Hc as <- _].
Qed.


Lemma batch_reading ops : forall (k : Keeper) (m : Medium) k' m', reading_inv k -> submit_recover_tail_batch wal_header ops k m = Some (k', m') -> reading_inv k'.
Proof.
  induction ops as [|op ops IH]; intros k m k' m' Hk; cbn [submit_recover_tail_batch]; [by intros [= <- _]|]. cbv zeta.
  unfold submit_recover_read. destruct (mint _) as [[id k1]|] eqn:Hm; [|done]. cbn [mbind option_bind]. apply IH. clear IH.
  apply mint_view in Hm as [Hv Hr]. unfold reading_view in Hv. destruct Hk as (Hs & Hc & Hlv & r & Hr0 & Hcan & Hl).
  assert (Hlog : bt_sorted (k_log k1) /\ nd_commit_max (k_node k1) = commit /\ k_log_view k1 = log_view /\ k_recover k1 = Some r /\
    forall o e, bt_get o (k_log k1) = Some e -> o = op /\ is_repairing (l_body e) = false \/ bt_get o (k_log k) = Some e).
  { destruct (wal_header _ op) as [h|]; (rewrite Hr in Hv |- *; injection Hv as Hlog Hcm Hlv'; rewrite Hlog, Hcm, Hlv').
    - split; [by apply bt_insert_sorted|]. split; [done|]. split; [done|]. split; [exact Hr0|]. intros o e. rewrite log_with_log, bt_get_insert.
      destruct (Z.eqb_spec o op) as [-> |]; [intros [= <-]; by left|by right].
    - split; [done|]. split; [done|]. split; [done|]. split; [exact Hr0|]. by right. }
  destruct Hlog as (Hs1 & Hc1 & Hlv1 & Hr1 & Hl1). unfold map_recover. rewrite Hr1. cbn [fmap option_fmap option_map].
  split; [exact Hs1|]. split; [exact Hc1|]. split; [exact Hlv1|]. eexists. split; [reflexivity|]. split; [exact Hcan|]. intros o e He.
  destruct (Hl1 o e He) as [[-> Hrep]|He0].
  - right. split; [done|]. left. cbn. rewrite bt_get_insert, Z.eqb_refl. by eexists.
  - destruct (Hl o e He0) as [?|[? Hu]]; [by left|]. right. split; [done|]. destruct Hu as [Hu|Hu]; [left; cbn; rewrite bt_get_insert; destruct (_ =? _); [by eexists|done]|by right].
Qed.

Lemma forget_view (k : Keeper) f : (forall r, (rc_canonical (f r), rc_pending (f r), rc_faulty (f r)) = (rc_canonical r, rc_pending r, rc_faulty r)) ->
  reading_view (map_recover k f) = reading_view k.
Proof. intros Hf. unfold reading_view, map_recover. cbn. destruct (k_recover k) as [r|]; [|done]. cbn. by rewrite Hf. Qed.

Lemma sb_done_view (k : Keeper) (m : Medium) done k' m' : on_recover_sb_done k m done = Some (k', m') -> reading_view k' = reading_view k.
Proof.
  unfold on_recover_sb_done. cbv zeta. destruct done as [id|id op snap|id]; [by intros [= <- _]| |intros [= <- _]; by apply forget_view].
  set (k1 := map_recover k _). assert (Hk1 : reading_view k1 = reading_view k) by (by apply forget_view). destruct (negb _); [by intros [= <- _]|].
  destruct (match k_recover k1 with Some _ => _ | None => _ end); [by intros [= <- _]|]. destruct (verified_checkpoint m op snap) as [cp|]; [|by intros [= <- _]].
  destruct (walk_owed _); [intros [= <- _]; etransitivity; [by apply forget_view|exact Hk1]|].
  unfold issue_recover_probe. destruct (issue_block_job k1 m _) as [[[j k2] m2]|] eqn:Hj; [|done]. cbn [mbind option_bind]. apply job_view in Hj as [Hj _].
  intros [= <- _]. rewrite forget_view by done. congruence.
Qed.

(** The read phase: from an empty log under a root with these headers, this commit point
    and this log view, over completions in any order, lost reads and retries, and the
    checkpoint's own reads between.  The handlers test after each of these steps whether
    the phase is over ([recover_progress]). *)
Inductive reads : Keeper -> Prop :=
| reads_start (k : Keeper) (m : Medium) ops k' m' r : k_log k = [] -> nd_commit_max (k_node k) = commit -> k_log_view k = log_view ->
    k_recover k = Some r -> rc_canonical r = canonical -> submit_recover_tail_batch wal_header ops k m = Some (k', m') -> reads k'
| reads_taken k done k' : reads k -> take_read k done = Some k' -> reads k'
| reads_retried k (m : Medium) now b k' m' : reads k -> retry_reads wal_header k m now = Some (b, k', m') -> reads k'
| reads_checkpoint k (m : Medium) done k' m' : reads k -> on_recover_sb_done k m done = Some (k', m') -> reads k'
| reads_probed k (m : Medium) job cp missing k' m' : reads k -> on_recover_probe_walked k m job cp missing = Some (k', m') -> reads k'
| reads_redriven k (m : Medium) k' m' : reads k -> redrive_deferred_recover_probe k m = Some (k', m') -> reads k'.

Lemma probe_walked_view (k : Keeper) (m : Medium) job cp missing k' m' : on_recover_probe_walked k m job cp missing = Some (k', m') -> reading_view k' = reading_view k.
Proof.
  unfold on_recover_probe_walked. destruct (negb _); [by intros [= <- _]|]. cbv zeta. set (k1 := map_recover k _).
  assert (Hk1 : reading_view k1 = reading_view k) by (by apply forget_view). destruct missing as [[x|]|]; [by intros [= <- _]| |by intros [= <- _]].
  destruct (restore_owed _); [by intros [= <- _]|]. destruct (issue_block_job k1 m _) as [[[j k2] m2]|] eqn:Hj; [|done]. cbn [mbind option_bind].
  apply job_view in Hj as [Hj _]. intros [= <- _]. rewrite forget_view by done. congruence.
Qed.

Lemma redriven_view (k : Keeper) (m : Medium) k' m' : redrive_deferred_recover_probe k m = Some (k', m') -> reading_view k' = reading_view k.
Proof.
  unfold redrive_deferred_recover_probe. destruct (k_recover k) as [r|] eqn:Hr; [|by intros [= <- _]]. destruct (_ || _); [by intros [= <- _]|].
  destruct (rc_probe_deferred r) as [[id cp]|]; [|by intros [= <- _]]. cbv zeta. set (k1 := with_recover k _).
  assert (Hk1 : reading_view k1 = reading_view k) by (unfold reading_view, k1; cbn; by rewrite Hr). destruct (_ || _); [by intros [= <- _]|].
  unfold issue_recover_probe. destruct (issue_block_job k1 m _) as [[[j k2] m2]|] eqn:Hj; [|done]. cbn [mbind option_bind]. apply job_view in Hj as [Hj _].
  intros [= <- _]. rewrite forget_view by done. congruence.
Qed.

Lemma reads_inv (k : Keeper) : reads k -> reading_inv k.
Proof.
  induction 1 as [k m ops k' m' r Hlog Hc Hlv Hr Hcan Hb|k dn k' _ IH Ht|k m now b k' m' _ IH Ht|k m dn k' m' _ IH Ht|k m j cp ms k' m' _ IH Ht|k m k' m' _ IH Ht].
  - eapply batch_reading; [|exact Hb]. split; [by rewrite Hlog; constructor|]. split; [done|]. split; [done|]. exists r. split; [done|]. split; [done|].
    intros o e. by rewrite Hlog.
  - unfold take_read in Ht. destruct (read_id dn) as [id|]; cbn [mbind option_bind] in Ht; [|done]. destruct (k_recover k) as [r|] eqn:Hr; cbn [mbind option_bind] in Ht; [|done].
    destruct (rc_reads r !! id.2) as [op|]; cbn [mbind option_bind] in Ht; [|done]. injection Ht as <-. by apply settle_reading.
  - by eapply retries_reading.
  - apply (reading_view_inv k); [by eapply sb_done_view|done].
  - apply (reading_view_inv k); [by eapply probe_walked_view|done].
  - apply (reading_view_inv k); [by eapply redriven_view|done].
Qed.

(** C39. A recovery trusts only what its durable root vouches for: whatever is read back,
    in whatever order, torn, misdirected, lost or retried, when the recovery moves on
    every entry of its log is a body that verified against its slot's header, or the
    identity of one, of the very operation the root names for that op; where the root
    names none, the op lies above the committed prefix and its header is of the current
    generation.  Until then it waits for a read, and does nothing else. *)
Theorem recovered_log_vouched (b : Endpoint) now b' :
  reads (ep_keeper b) -> recover_progress b now = Some b' ->
  (b' = b /\ exists r, k_recover (ep_keeper b) = Some r /\ rc_pending r <> []) \/
  forall op e, entry_at (ep_keeper b') op = Some e -> vouched_for op e.
Proof. intros Hr Hp. exact (progress_reading b now b' (reads_inv _ Hr) Hp). Qed.

(** ** How a recovery settles *)

(** The last op anything was read of. *)
Definition settled_head (k : Keeper) (r : RecoverState) : Z := Z.max (Z.max (last_key (k_log k)) (set_last (rc_faulty r))) (k_checkpoint_op k).

(** Of the head only the identity is held, and it is not committed. *)
Definition headless (k : Keeper) (r : RecoverState) : bool :=
  (nd_commit_max (k_node k) <? settled_head k r) && match entry_at k (settled_head k r) with Some e => is_repairing (l_body e) | None => false end.

(** What is missing: the slots that read back faulty, those at or below the head that
    never answered with anything, and a head without a body. *)
Definition found_missing (k : Keeper) (r : RecoverState) : gset Z :=
  (if headless k r then {[settled_head k r]} else ∅) ∪ (rc_faulty r ∪ filter (fun op => op <= settled_head k r) (rc_absent r)).

(** Of what is missing only an identity stays, and not at the head. *)
Definition settled_entry (k : Keeper) (r : RecoverState) (op : OpNumber) : option LogEntry :=
  match entry_at k op with
  | Some e => if bool_decide (op ∈ found_missing k r) && (negb (is_repairing (l_body e)) || (headless k r && (op =? settled_head k r))) then None else Some e
  | None => None
  end.

Lemma last_key_le {V} (t : btree V) op v : bt_sorted t -> bt_get op t = Some v -> op <= last_key t.
Proof.
  unfold last_key. induction t as [|[k0 v0] t IH]; [done|]. intros [Hs Hall]%bt_sorted_cons. cbn [bt_get].
  destruct t as [|y t]; [destruct (Z.eqb_spec op k0) as [-> |]; [done|done]|]. rewrite last_cons_cons.
  destruct (Z.eqb_spec op k0) as [-> |]; [|by apply IH]. intros _. rewrite Forall_forall in Hall.
  destruct (last (y :: t)) as [z|] eqn:Hz; [|by apply last_None in Hz]. assert (Hin : z ∈ y :: t) by (by apply last_Some_elem_of). specialize (Hall _ Hin). cbn in *. lia.
Qed.

Record ladder (k : Keeper) (r : RecoverState) (k' : Keeper) (r' : RecoverState) : Prop := {
  ld_recover : k_recover k' = Some r';
  ld_faulty : rc_faulty r' = found_missing k r;
  ld_checkpoint : rc_checkpoint r' = rc_checkpoint r /\ rc_awaiting_peer_checkpoint r' = rc_awaiting_peer_checkpoint r;
  ld_head : head_op k' = Z.min (settled_head k r) (head_op k);
  ld_status : k_status k' = k_status k;
  ld_log op : entry_at k' op = settled_entry k r op;
}.

Lemma settled_ladder (k : Keeper) r real_head k1 : bt_sorted (k_log k) -> k_recover k = Some r -> settle_recover_verified_head k r = (real_head, k1) ->
  exists k' r', finalize_recovery (promote_faulty_head k1 real_head) = Some k' /\ ladder k r k' r'.
Proof.
  intros Hs Hr. unfold settle_recover_verified_head. cbv zeta. change (nd_log (k_node k)) with (k_log k). change (Z.max _ (k_checkpoint_op k)) with (settled_head k r).
  set (h := settled_head k r). set (missing := rc_faulty r ∪ filter (fun op => op <= h) (rc_absent r)). set (r1 := rec_tail r (rc_pending r) (rc_reads r) missing ∅).
  intros [= <- Hk1]. assert (E1 : k_recover k1 = Some r1 /\ k_status k1 = k_status k /\ head_op k1 = Z.min h (head_op k) /\ nd_commit_max (k_node k1) = nd_commit_max (k_node k) /\
    bt_sorted (k_log k1) /\ forall op, entry_at k1 op = entry_at k op).
  { rewrite <- Hk1. unfold head_op. destruct (Z.ltb_spec h (nd_op (k_node k))); cbn; (split_and!; [done|done|lia|done|..]).
    - by apply bt_filter_sorted.
    - intros op. unfold entry_at. cbn. rewrite (bt_get_keep _ (fun o => o <=? h)) by done. destruct (Z.leb_spec op h) as [|Hgt]; [done|].
      destruct (bt_get op _) as [e|] eqn:He; [|done]. apply (last_key_le _ _ _ Hs) in He. unfold h, settled_head in Hgt. lia.
    - exact Hs.
    - done. }
  clear Hk1. destruct E1 as (R1 & S1 & O1 & C1 & L1 & G1).
  assert (E2 : exists r2, k_recover (promote_faulty_head k1 h) = Some r2 /\ rc_faulty r2 = found_missing k r /\ rc_checkpoint r2 = rc_checkpoint r /\
    rc_awaiting_peer_checkpoint r2 = rc_awaiting_peer_checkpoint r /\ k_status (promote_faulty_head k1 h) = k_status k /\ head_op (promote_faulty_head k1 h) = Z.min h (head_op k) /\
    bt_sorted (k_log (promote_faulty_head k1 h)) /\ forall op, entry_at (promote_faulty_head k1 h) op = if headless k r && (op =? h) then None else entry_at k op).
  { unfold promote_faulty_head. cbv zeta. fold (entry_at k1 h). rewrite C1, G1.
    assert (Hh : (nd_commit_max (k_node k) <? h) && match entry_at k h with Some e => is_repairing (l_body e) | None => false end = headless k r) by done.
    rewrite Hh. unfold found_missing. fold h missing. clear Hh.
    destruct (headless k r); cbn [andb].
    - unfold map_recover. cbn [k_recover with_log with_knode]. rewrite R1. eexists. split; [reflexivity|]. split_and!; [done|done|done|exact S1|exact O1|by apply bt_remove_keyed|].
      intros op. unfold entry_at in *. cbn. rewrite bt_get_remove by done. by rewrite G1.
    - exists r1. split; [exact R1|]. split_and!; [cbn; fold missing; set_solver|done|done|exact S1|exact O1|exact L1|exact G1]. }
  destruct E2 as (r2 & R2 & F2 & K2 & A2 & S2 & O2 & L2 & G2). set (k2 := promote_faulty_head k1 h) in *.
  destruct (finalize_spec k2 r2 L2 R2) as (k3 & Hf & R3 & _ & Hw & G3). exists k3, r2. split; [exact Hf|].
  split; [exact R3|exact F2|by split|..].
  - fold h. rewrite <- O2, <- Hw. done.
  - rewrite <- S2, <- Hw. done.
  - intros op. unfold entry_at at 1. fold (k_log k3). rewrite G3. change (bt_get op (k_log k2)) with (entry_at k2 op). rewrite G2. unfold without_faulty, settled_entry. fold h. rewrite F2.
    destruct (headless k r && (op =? h)) eqn:Hh.
    + destruct (entry_at k op) as [e|]; [|done]. rewrite orb_true_r, andb_true_r, bool_decide_eq_true_2; [done|].
      apply andb_true_iff in Hh as [Hh ->%Z.eqb_eq]. unfold found_missing. rewrite Hh. fold h. set_solver.
    + destruct (entry_at k op) as [e|]; [|done]. by rewrite orb_false_r.
Qed.

Lemma set_last_in (s : gset Z) : 0 < set_last s -> set_last s ∈ s.
Proof.
  unfold set_last, set_fold. cbn. rewrite <- elem_of_elements. induction (elements s) as [|x l IH]; cbn; [lia|]. intros Hx.
  destruct (Z.max_spec x (foldr Z.max 0 l)) as [[? ->]|[? ->]]; [right; apply IH; lia|left].
Qed.

Lemma last_key_held {V} (t : btree V) : bt_sorted t -> 0 < last_key t -> is_Some (bt_get (last_key t) t).
Proof.
  unfold last_key. intros Hs. destruct (last t) as [[o v]|] eqn:Hl; cbn; [|lia]. intros _. exists v.
  apply (bt_get_elem _ _ _ Hs). by apply last_Some_elem_of.
Qed.

(** A head found with nothing missing at it is held, with its body. *)
Lemma head_held (k : Keeper) r : bt_sorted (k_log k) -> settled_head k r ∉ found_missing k r -> 0 < settled_head k r ->
  nd_commit_max (k_node k) < settled_head k r -> k_checkpoint_op k < settled_head k r ->
  exists e, settled_entry k r (settled_head k r) = Some e /\ is_repairing (l_body e) = false.
Proof.
  intros Hs Hno Hpos Hc Hk. assert (Hh : headless k r = false) by (destruct (headless k r) eqn:Hh; [|done]; exfalso; apply Hno; unfold found_missing; rewrite Hh; set_solver).
  assert (Hl : settled_head k r = last_key (k_log k)).
  { destruct (decide (settled_head k r = set_last (rc_faulty r))) as [Heq|]; [|unfold settled_head in *; lia].
    exfalso. apply Hno. unfold found_missing. rewrite Hh, Heq. apply elem_of_union_r, elem_of_union_l, set_last_in. lia. }
  rewrite Hl in Hpos. apply (last_key_held _ Hs) in Hpos as [e He]. rewrite <- Hl in He. exists e. unfold settled_entry, entry_at. unfold k_log in He.
  rewrite He, bool_decide_eq_false_2 by done. split; [done|]. unfold headless, entry_at in Hh. rewrite He in Hh.
  apply andb_false_iff in Hh as [Hh%Z.ltb_ge|]; [lia|done].
Qed.

(** Where a recovery ends once its last read is settled: it waits for its checkpoint; or
    the head is missing and it asks the others for one; or it completes, and then what it
    leads or votes from ends in an operation it holds. *)
Definition settles (k : Keeper) (r : RecoverState) (b b' : Endpoint) : Prop :=
  if is_some (rc_checkpoint r) || rc_awaiting_peer_checkpoint r then
    k_status (ep_keeper b') = k_status k /\ ep_sent b' = ep_sent b /\
    exists r', k_recover (ep_keeper b') = Some r' /\ rc_faulty r' = found_missing k r
  else if bool_decide (Z.min (settled_head k r) (head_op k) ∈ found_missing k r) then
    k_status (ep_keeper b') = RecoveringHead /\ exists x, ep_sent b' = ep_sent b ++ [(Backups, MRecovery x)]
  else
    settled_head k r <= head_op k -> 0 < settled_head k r -> nd_commit_max (k_node k) < settled_head k r -> k_checkpoint_op k < settled_head k r ->
    exists e, entry_at (ep_keeper b') (settled_head k r) = Some e /\ is_repairing (l_body e) = false.


End reading.
