(* ===== verification/Recoveries.v ===== *)
(** * A recovery, played out

    A voter of three on the ring of [MediumDemo] that wrote one op, died, and reads its log
    back, and one that wrote two and finds the second torn, so that its head is dropped:
    the runs show that the hypotheses of the theorems of [Recover] can hold. *)

From S2P Require Import Prelude Core Hash Membership Codec Message Messages BTree ViewChange Votes Sessions Normal Storage Lane Blocks SessionBlocks BlockJobs Medium Appends Repair SyncTrigger Roots Prepares Views Lifetimes Recover.

Module Recoveries.
Import MediumDemo Lifetimes.
#[local] Existing Instance one_cell.

#[local] Abbreviation Keeper := (@Keeper (list byte)).
#[local] Abbreviation Medium := (@Medium RingWal OneWriter (list byte) (list byte) (gmap Z Session) BlockWalks).
#[local] Abbreviation Endpoint := (@Endpoint (list byte) (list byte) RingWal OneWriter BlockWalks).

Definition ring_header (w : RingWal) (op : OpNumber) : option Header :=
  id ← hd_error (rw_slot w (op mod ring));
  '(h, _) ← rw_bytes w !! id;
  if h_op h =? op then Some h else None.

Definition header1 : Header := header_new 1 0 9 1 [x62].

Definition written : option Medium :=
  '(_, m) ← submit_or_defer_append (new_appender 1) (medium_new (mkRingWal ∅ [] ∅) (mkOneWriter formatted [] ∅)) 1 header1 [x62] (Ack 1);
  '(_, m) ← poll_wal m;
  Some m.

Definition reborn_reader : option (Keeper * Medium) :=
  m ← written;
  match recover_baseline ring_header (mkConfig 1 2 3 64) first [x68] syncer 2 m with
  | Ok (RecoveredActive k, m) => Some (k, m)
  | _ => None
  end.

(** The tail's one read comes back whole. *)
Definition recovers (s : option (Keeper * Medium)) : bool :=
  match s with
  | Some (k, m) =>
      bool_decide (map fst (k_log k) = []) && (nd_commit_max (k_node k) =? 0) && (k_log_view k =? 0)
      && match k_recover k with Some r => bool_decide (map fst (rc_canonical r) = []) | None => false end
      && match submit_recover_tail_batch ring_header [1] k m with
         | Some (k1, m1) =>
             match take_read k1 (ReadOk (2, 1) header1 [x62]) with
             | Some k2 =>
                 match recover_progress (mkEndpoint k2 m1 []) 0 with
                 | Some b => is_normal (k_status (ep_keeper b)) && is_some (entry_at (ep_keeper b) 1)
                             && match k_recover k2 with Some r => bool_decide (rc_pending r = []) | None => false end
                 | None => false
                 end
             | None => false
             end
         | None => false
         end
  | None => false
  end.

Lemma recovers_spec s : recovers s = true -> exists (k2 : Keeper) (m1 : Medium) b, reads ring_header [] 0 0 k2 /\
  recover_progress (mkEndpoint k2 m1 []) 0 = Some b /\ k_status (ep_keeper b) = Normal /\ (exists e, entry_at (ep_keeper b) 1 = Some e) /\
  (forall r, k_recover k2 = Some r -> rc_pending r = []).
Proof.
  unfold recovers. destruct s as [[k m]|]; [|discriminate]. intros [Hx Hp]%andb_true_iff. apply andb_true_iff in Hx as [Hx Hc]. apply andb_true_iff in Hx as [Hx Hlv%Z.eqb_eq].
  apply andb_true_iff in Hx as [Hl Hcm%Z.eqb_eq]. apply bool_decide_eq_true in Hl. destruct (k_recover k) as [r|] eqn:Hr; [|discriminate Hc]. apply bool_decide_eq_true in Hc.
  destruct (submit_recover_tail_batch ring_header [1] k m) as [[k1 m1]|] eqn:Hb; [|discriminate Hp]. destruct (take_read k1 _) as [k2|] eqn:Ht; [|discriminate Hp].
  destruct (recover_progress _ 0) as [b|] eqn:Hpr; [|discriminate Hp]. apply andb_true_iff in Hp as [Hp Hpend]. apply andb_true_iff in Hp as [Hn He].
  exists k2, m1, b. split; [|split; [exact Hpr|split; [by destruct (k_status (ep_keeper b))|split]]].
  - eapply reads_taken; [|exact Ht]. eapply reads_start; [by apply map_eq_nil in Hl|exact Hcm|exact Hlv|exact Hr|by apply map_eq_nil in Hc|exact Hb].
  - destruct (entry_at (ep_keeper b) 1) as [e|]; [by exists e|discriminate He].
  - intros r2 Hr2. rewrite Hr2 in Hpend. by apply bool_decide_eq_true in Hpend.
Qed.

Lemma reader_recovers : recovers reborn_reader = true.
Proof. vm_compute. reflexivity. Qed.

Lemma recovered_log_vouched_witness :
  exists (b b' : Endpoint) e, recover_progress b 0 = Some b' /\ k_status (ep_keeper b') = Normal /\ entry_at (ep_keeper b') 1 = Some e /\ vouched_for [] 0 0 1 e.
Proof.
  destruct (recovers_spec _ reader_recovers) as (k2 & m1 & b & Hreads & Hp & Hn & (e & He) & Hpend).
  exists (mkEndpoint k2 m1 []), b, e. split; [exact Hp|]. split; [exact Hn|]. split; [exact He|].
  destruct (recovered_log_vouched ring_header [] 0 0 (mkEndpoint k2 m1 []) 0 b Hreads Hp) as [(_ & r & Hr & Hne)|Hv]; [|exact (Hv 1 e He)].
  exfalso. exact (Hne (Hpend r Hr)).
Defined.

(** *** A torn head

    With a second op behind the first, whose body comes back torn. *)

Definition header2 : Header := header_new 2 0 9 2 [x62].

Definition reborn_reader2 : option (Keeper * Medium) :=
  m ← written;
  '(_, m) ← submit_or_defer_append (new_appender 1) m 2 header2 [x62] (Ack 2);
  '(_, m) ← poll_wal m;
  match recover_baseline ring_header (mkConfig 1 2 3 64) first [x68] syncer 2 m with
  | Ok (RecoveredActive k, m) => Some (k, m)
  | _ => None
  end.

Definition tears (s : option (Keeper * Medium)) : bool :=
  match s with
  | Some (k, m) =>
      bool_decide (map fst (k_log k) = []) && (nd_commit_max (k_node k) =? 0) && (k_log_view k =? 0)
      && match k_recover k with Some r => bool_decide (map fst (rc_canonical r) = []) | None => false end
      && match submit_recover_tail_batch ring_header [1; 2] k m with
         | Some (k1, m1) =>
             match take_read k1 (BodyFaulty (2, 2) header2) with
             | Some k2 =>
                 match take_read k2 (ReadOk (2, 1) header1 [x62]) with
                 | Some k3 =>
                     match k_recover k3, recover_progress (mkEndpoint k3 m1 []) 0 with
                     | Some r, Some b =>
                         bool_decide (rc_pending r = []) && is_some (entry_at k3 2)
                         && is_some (settled_entry k3 r 1) && negb (is_some (settled_entry k3 r 2))
                         && negb (is_some (rc_checkpoint r) || rc_awaiting_peer_checkpoint r)
                         && bool_decide (Z.min (settled_head k3 r) (head_op k3) ∈ found_missing k3 r)
                     | _, _ => false
                     end
                 | None => false
                 end
             | None => false
             end
         | None => false
         end
  | None => false
  end.

Lemma tears_spec s : tears s = true -> exists (k : Keeper) (m : Medium) r b, reads ring_header [] 0 0 k /\ k_recover k = Some r /\ rc_pending r = [] /\
  recover_progress (mkEndpoint k m []) 0 = Some b /\ is_Some (entry_at k 2) /\ is_Some (settled_entry k r 1) /\ settled_entry k r 2 = None /\
  is_some (rc_checkpoint r) || rc_awaiting_peer_checkpoint r = false /\ bool_decide (Z.min (settled_head k r) (head_op k) ∈ found_missing k r) = true.
Proof.
  unfold tears. destruct s as [[k m]|]; [|discriminate]. intros [Hx Hp]%andb_true_iff. apply andb_true_iff in Hx as [Hx Hc]. apply andb_true_iff in Hx as [Hx Hlv%Z.eqb_eq].
  apply andb_true_iff in Hx as [Hl Hcm%Z.eqb_eq]. apply bool_decide_eq_true in Hl. destruct (k_recover k) as [r0|] eqn:Hr0; [|discriminate Hc]. apply bool_decide_eq_true in Hc.
  destruct (submit_recover_tail_batch ring_header [1; 2] k m) as [[k1 m1]|] eqn:Hb; [|discriminate Hp]. destruct (take_read k1 _) as [k2|] eqn:Ht; [|discriminate Hp].
  destruct (take_read k2 _) as [k3|] eqn:Ht2; [|discriminate Hp]. destruct (k_recover k3) as [r|] eqn:Hr; [|discriminate Hp].
  destruct (recover_progress _ 0) as [b|] eqn:Hpr; [|discriminate Hp]. repeat (apply andb_true_iff in Hp as [Hp ?]). apply bool_decide_eq_true in Hp.
  exists k3, m1, r, b. split; [|split; [exact Hr|split; [exact Hp|split; [exact Hpr|]]]].
  - eapply reads_taken; [eapply reads_taken; [|exact Ht]|exact Ht2]. eapply reads_start; [by apply map_eq_nil in Hl|exact Hcm|exact Hlv|exact Hr0|by apply map_eq_nil in Hc|exact Hb].
  - split; [destruct (entry_at k3 2) as [e|]; [by exists e|discriminate]|]. split; [destruct (settled_entry k3 r 1) as [e|]; [by exists e|discriminate]|].
    split; [destruct (settled_entry k3 r 2); [discriminate|done]|]. split; [by apply negb_true_iff|done].
Qed.

Lemma reader_tears : tears reborn_reader2 = true.
Proof. vm_compute. reflexivity. Qed.


End Recoveries.
