(* ===== verification/Fetch.v ===== *)
(** * A checkpoint from another replica

    The two ends of a state transfer over the endpoint of [Prepares]
    ([viewstamp-proto/src/endpoint/state_sync.rs] and the recovering half of it in
    [endpoint/recovery/mod.rs]): serving a checkpoint and its blocks ([on_request_sync],
    [serve_sync_checkpoint], [on_request_block], [on_block_served]), pinning a transfer to
    an answer ([handle_sync_checkpoint], [on_recover_sync_checkpoint]), pulling its blocks
    one walk job at a time ([issue_walk], [on_block_response], [on_walked]), and what
    follows once nothing is missing ([on_fetch_drained], [on_sm_restored],
    [complete_state_sync]).  [on_block_done] and [sb_completed] are the completion handlers
    of the endpoint with every route taken.

    [Syncing] is the endpoint with the transfer in full.  The rest of the endpoint reads of
    it only the pair in the keeper, and at most clears that, so a transfer lives as long as
    the pair does ([live_fetch]).  A fail-stop is [None]; deadlines other than the
    solicitation's and the counters of refused pins are left out. *)

From S2P Require Import Prelude Core Hash Membership Codec Message Messages BTree ViewChange Votes Proposals Sessions Normal Storage Lane Blocks SessionBlocks BlockJobs Medium Appends Serve Repair SyncTrigger Roots Prepares Views Recover.

Definition QUARANTINE_SERVE_LIMIT : nat := 8.
Definition RECOVER_HEAD_REFORM_ATTEMPTS : Z := 6.

Inductive WalkState : Type :=
| WalkIdle (walks : BlockWalks)
| WalkInFlight (job : JobId).

Record BlockFetch : Type := mkBlockFetch {
  bf_checkpoint : SyncCheckpoint;
  bf_sm_root : BlockAddress;
  bf_sessions_root : BlockAddress;
  bf_donor : Peer;
  bf_walks : WalkState;
  bf_crossing_answered : bool;
  bf_resolicited_front : option BlockAddress;
}.

Definition is_client (p : Peer) : bool := match p with PeerClient _ => true | _ => false end.
Definition is_member_peer (p : Peer) : bool := match p with PeerMember _ => true | _ => false end.

Section fetch.
Context {S Image W B : Type} `{StateMachine S Image} `{Wal W} `{Superblock B}.
(** [Wal::status] *)
Context (wal_status : W -> OpNumber -> SlotStatus).
#[local] Abbreviation Keeper := (@Keeper S).
#[local] Abbreviation Medium := (@Medium W B S Image (gmap Z Session) BlockWalks).
#[local] Abbreviation Endpoint := (@Endpoint S Image W B BlockWalks).

Record Syncing : Type := mkSyncing {
  sn_endpoint : Endpoint;
  sn_fetch : option BlockFetch;
  sn_deferred_pin : option (Peer * SyncCheckpoint);
  sn_carried_faulty : gset Z;
}.

Definition sn_keeper (s : Syncing) : Keeper := ep_keeper (sn_endpoint s).
Definition sn_medium (s : Syncing) : Medium := ep_medium (sn_endpoint s).
Definition at_endpoint (s : Syncing) (b : Endpoint) : Syncing := mkSyncing b (sn_fetch s) (sn_deferred_pin s) (sn_carried_faulty s).
Definition at_keeper (s : Syncing) (k : Keeper) : Syncing := at_endpoint s (set_keeper (sn_endpoint s) k).
Definition say (s : Syncing) (out : list (Recipient * Message)) : Syncing := at_endpoint s (send (sn_endpoint s) out).
Definition with_deferred (s : Syncing) (d : option (Peer * SyncCheckpoint)) : Syncing := mkSyncing (sn_endpoint s) (sn_fetch s) d (sn_carried_faulty s).
Definition with_carried (s : Syncing) (c : gset Z) : Syncing := mkSyncing (sn_endpoint s) (sn_fetch s) (sn_deferred_pin s) c.

Definition k_fetch (k : Keeper) : option Transfer := sy_block_fetch (o_syncer (k_owed k)).

(** [self.block_fetch] *)
Definition live_fetch (s : Syncing) : option BlockFetch := match k_fetch (sn_keeper s) with Some _ => sn_fetch s | None => None end.

(** [self.block_fetch = f] *)
Definition set_block_fetch (s : Syncing) (f : option BlockFetch) : Syncing :=
  let k := sn_keeper s in
  let o := k_owed k in
  let y := set_fetch (o_syncer o) ((fun f => mkTransfer (sc_checkpoint_op (bf_checkpoint f)) (bf_crossing_answered f)) <$> f) in
  mkSyncing (set_keeper (sn_endpoint s) (with_owed k (set_syncer o y ((fun f => (bf_sm_root f, bf_sessions_root f)) <$> f)))) f
    (sn_deferred_pin s) (sn_carried_faulty s).

Definition solicit_at (k : Keeper) (d : option Z) : Keeper :=
  let o := k_owed k in with_owed k (set_syncer o (set_solicit (o_syncer o) d) (o_fetch o)).
Definition resolicit (s : Syncing) (now : Z) : Syncing := at_keeper s (solicit_at (sn_keeper s) (Some (Time.instant_add now SYNC_SOLICIT))).
Definition ask_sync (s : Syncing) (now : Z) : Syncing :=
  let k := sn_keeper s in at_keeper s (with_syncer k (send_request_sync (sync_ctx k) (o_syncer (k_owed k)) now)).

Definition durable_write_owed (k : Keeper) : bool := is_some (k_pending_sb k) || is_some (k_pending_checkpoint k).

(** ** Serving a checkpoint *)

Definition submit_or_refresh_serve (k : Keeper) (m : Medium) (requester : Peer) (nonce : Z) : option (Keeper * Medium) :=
  let serving := o_serving (k_owed k) in
  let put_serving k l := with_owed k (set_serving (k_owed k) l) in
  if existsb (fun s => bool_decide (s.1 = requester)) serving
  then Some (put_serving k (map (fun s => if bool_decide (s.1 = requester) then (s.1, (s.2.1, nonce)) else s) serving), m)
  else if is_member_peer requester && (QUARANTINE_SERVE_LIMIT <=? length (List.filter (fun s => is_member_peer s.1) serving))%nat then Some (k, m)
  else
    '(id, k) ← mint k;
    Some (put_serving k (serving ++ [(requester, (id.2, nonce))]), submit_checkpoint_read m id).

Definition may_be_served (k : Keeper) (p : Peer) : bool :=
  match p with PeerReplica slot => slot <? node_count (k_membership k) | PeerMember _ => true | PeerClient _ => false end.

Definition on_request_sync (b : Endpoint) (from : Peer) (q : RequestSync) : option Endpoint :=
  let k := ep_keeper b in
  if negb (is_normal (k_status k)) then Some b
  else if sm_reconstruct_owed k && negb (rs_recovery q) then Some b
  else if negb (may_be_served k from) then Some b
  else if k_checkpoint_op k =? 0 then Some b
  else
    let in_reach := if rs_recovery q then rs_checkpoint_op q <=? k_checkpoint_op k else rs_checkpoint_op q <? k_checkpoint_op k in
    if negb in_reach then Some b
    else km ← submit_or_refresh_serve k (ep_medium b) from (rs_nonce q); Some (put b km).

(** The configuration that goes with a checkpoint at or past the op that installed it. *)
Definition served_membership (k : Keeper) : option (list byte) :=
  if ch_install_op (k_config k) <=? k_checkpoint_op k
  then prev ← head (ch_lineage (k_config k)); Some (encode_body (from_membership (k_membership k) prev))
  else Some [].

Definition sync_answer (k : Keeper) (op : OpNumber) (nonce : Z) (snapshot : list byte) : option SyncCheckpoint :=
  membership ← served_membership k;
  slot ← local_slot_opt (k_membership k) (k_local k);
  Some (mkSyncCheckpoint (k_view k) op (checkpoint_id snapshot) (m_epoch (k_membership k)) (m_config_id (k_membership k)) slot nonce snapshot membership
          (match membership with [] => None | _ => Some (ch_install_op (k_config k)) end)).

Definition serve_sync_checkpoint (b : Endpoint) (id : WriteId) (op : OpNumber) (snapshot : list byte) : option Endpoint :=
  let k := ep_keeper b in
  match list_find (fun s => s.2.1 = id.2) (o_serving (k_owed k)) with
  | None => Some b
  | Some (_, (to, (_, nonce))) =>
      let k := with_owed k (set_serving (k_owed k) (List.filter (fun s => negb (bool_decide (s.1 = to))) (o_serving (k_owed k)))) in
      let b := set_keeper b k in
      if negb (is_normal (k_status k)) || pending_durable_view k then Some b
      else if negb (may_be_served k to) then Some b
      else if negb (op =? k_checkpoint_op k) then Some b
      else if negb (checkpoint_id snapshot =? v_checkpoint_id (sb_state (sb (ep_medium b)))) then Some b
      else a ← sync_answer k op nonce snapshot; Some (send b [(To to, MSyncCheckpoint a)])
  end.

(** ** Serving a block *)

Definition on_request_block (b : Endpoint) (from : Peer) (addr : BlockAddress) : option Endpoint :=
  if is_client from then Some b
  else if (MAX_OUTSTANDING_BLOCK_SERVES <=? serves_outstanding (lane (ep_medium b)))%nat then Some b
  else '(_, k, m) ← issue_block_job (ep_keeper b) (ep_medium b) (JobServe from addr); Some (put b (k, m)).

Definition on_block_served (b : Endpoint) (to : Peer) (addr : BlockAddress) (block : option (list byte)) : Endpoint :=
  send b [(To to, MBlockResponse (mkBlockResponse addr block))].

(** ** A transfer's walk *)

Definition transfer_walk_in_flight (s : Syncing) : bool :=
  match live_fetch s with Some f => match bf_walks f with WalkInFlight _ => true | WalkIdle _ => false end | None => false end.

Definition defer_pin_until_walk_completes (s : Syncing) (from : Peer) (c : SyncCheckpoint) : Syncing := with_deferred s (Some (from, c)).

Definition with_walks (f : BlockFetch) (w : WalkState) : BlockFetch :=
  mkBlockFetch (bf_checkpoint f) (bf_sm_root f) (bf_sessions_root f) (bf_donor f) w (bf_crossing_answered f) (bf_resolicited_front f).

Definition issue_walk (s : Syncing) (purpose : WalkPurpose) (fetched : option (BlockAddress * list byte)) : option Syncing :=
  match live_fetch s with
  | Some f =>
      match bf_walks f with
      | WalkIdle walks =>
          if walk_owed (lane (sn_medium s)) then Some s
          else
            '(job, k, m) ← issue_block_job (sn_keeper s) (sn_medium s) (JobWalk walks fetched purpose);
            Some (set_block_fetch (at_endpoint s (put (sn_endpoint s) (k, m))) (Some (with_walks f (WalkInFlight job))))
      | WalkInFlight _ => Some s
      end
  | None => Some s
  end.

Definition send_request_block (s : Syncing) (now : Z) : option Syncing :=
  if negb (is_some (k_sync (sn_keeper s))) then Some s
  else s ← issue_walk s PurposeArq None; Some (if is_normal (k_status (sn_keeper s)) then resolicit s now else s).

Definition abort_oversized_block_fetch (s : Syncing) : Syncing := set_block_fetch s None.

(** ** Pinning a transfer to an answer *)

Definition checkpoint_presents_crossing (k : Keeper) (c : SyncCheckpoint) : bool :=
  negb (sc_config_id c =? m_config_id (k_membership k)) && negb (bool_decide (sc_membership c = [])).

Definition carry_resolicit_latch (s : Syncing) (sm_root sessions_root : BlockAddress) : option BlockAddress :=
  match live_fetch s with
  | Some f => if (bf_sm_root f =? sm_root) && (bf_sessions_root f =? sessions_root) then bf_resolicited_front f else None
  | None => None
  end.

Definition pin (s : Syncing) (c : SyncCheckpoint) (donor : Peer) (sm_root sessions_root : BlockAddress) : Syncing :=
  set_block_fetch s
    (Some (mkBlockFetch c sm_root sessions_root donor (WalkIdle (block_walks_new sm_root sessions_root))
             (checkpoint_presents_crossing (sn_keeper s) c) (carry_resolicit_latch s sm_root sessions_root))).

(** An answered crossing is not given up for an answer that presents none. *)
Definition keeps_crossing (s : Syncing) (c : SyncCheckpoint) : bool :=
  match live_fetch s with Some f => bf_crossing_answered f | None => false end && negb (checkpoint_presents_crossing (sn_keeper s) c).

Definition begin_block_sync (s : Syncing) (now : Z) (from : Peer) (c : SyncCheckpoint) : option Syncing :=
  match decode_checkpoint (sc_snapshot c) with
  | None => Some s
  | Some (_, sm_root, sessions_root) =>
      if is_client from then Some s
      else if transfer_walk_in_flight s then Some (defer_pin_until_walk_completes s from c)
      else if keeps_crossing s c then Some s
      else s ← issue_walk (pin s c from sm_root sessions_root) PurposeArm None; Some (resolicit s now)
  end.

Definition begin_recover_block_sync (s : Syncing) (from : Peer) (c : SyncCheckpoint) (sm_root sessions_root : BlockAddress) : option Syncing :=
  if is_client from then Some (set_block_fetch s None)
  else if transfer_walk_in_flight s then Some (defer_pin_until_walk_completes s from c)
  else if keeps_crossing s c then Some s
  else issue_walk (pin s c from sm_root sessions_root) PurposeArm None.

(** ** The restore an install owes *)

Definition with_donor (r : SmReconstruct) (donor : Peer) (c : SyncCheckpoint) : SmReconstruct :=
  mkSmReconstruct (sr_checkpoint_op r) (sr_sm_root r) (sr_sessions_root r) c donor (sr_restore r).

Definition rearm_sm_reconstruct_retry (s : Syncing) (now : Z) (retry : bool) : option Syncing :=
  match o_reconstruct (k_owed (sn_keeper s)) with
  | None => Some s
  | Some r =>
      if transfer_walk_in_flight s then Some s
      else
        s ← issue_walk (pin s (sr_checkpoint r) (sr_donor r) (sr_sm_root r) (sr_sessions_root r)) (PurposeRearm retry) None;
        let k := sn_keeper s in
        Some (if is_recovering (k_status k)
              then at_keeper s (with_recover k (Some (let r := default recover_default (k_recover k) in
                     rec_checkpoint r (rc_checkpoint r) (rc_checkpoint_reads r) (rc_checkpoint_retries r) true)))
              else resolicit s now)
  end.

Definition refetch_sm_reconstruct (s : Syncing) (now : Z) (from : Peer) (c : SyncCheckpoint) : option Syncing :=
  if is_client from then Some s
  else if transfer_walk_in_flight s then Some (defer_pin_until_walk_completes s from c)
  else
    let k := sn_keeper s in
    let k := with_owed k (set_reconstruct (k_owed k) ((fun r => with_donor r from c) <$> o_reconstruct (k_owed k))) in
    rearm_sm_reconstruct_retry (at_keeper s k) now true.

(** The own checkpoint again, whose restore failed. *)
Definition answers_restore (k : Keeper) (c : SyncCheckpoint) : bool :=
  sm_reconstruct_owed k && negb (is_some (k_pending_install k)) && (sc_checkpoint_op c =? k_checkpoint_op k).

Definition authentic (c : SyncCheckpoint) : bool := checkpoint_id (sc_snapshot c) =? sc_checkpoint_id c.

(** ** An answer *)

Definition handle_sync_checkpoint (s : Syncing) (now : Z) (from : Peer) (c : SyncCheckpoint) : option Syncing :=
  let k := sn_keeper s in
  if negb (is_normal (k_status k)) then Some s
  else
    match k_sync k with
    | None => Some s
    | Some t =>
        if negb (sc_nonce c =? st_nonce t) then Some s
        else if durable_write_owed k then Some s
        else if answers_restore k c then (if authentic c then refetch_sm_reconstruct s now from c else Some s)
        else if (sc_checkpoint_op c <? st_target t) && negb (st_require_cross_epoch t) then Some s
        else if negb (st_forced t) && (sc_checkpoint_op c <=? nd_op (k_node k)) then Some s
        else if sc_checkpoint_op c <=? k_checkpoint_op k then Some s
        else if negb (authentic c) then Some s
        else
          let '(p, abdicated) :=
            if negb (st_require_cross_epoch t) && negb (sm_reconstruct_owed k) then abdicate_if_primary (k_proposer k) now else (k_proposer k, false) in
          if abdicated then
            let s := set_block_fetch (at_keeper s (with_proposer k p)) None in
            let k := sn_keeper s in
            Some (at_keeper s (with_owed k (drop_sync (set_install (k_owed k) None))))
          else begin_block_sync s now from c
    end.

Definition on_recover_sync_checkpoint (s : Syncing) (now : Z) (from : Peer) (c : SyncCheckpoint) : option Syncing :=
  let k := sn_keeper s in
  match k_sync k with
  | None => Some s
  | Some t =>
      let draining := match k_recover k with
                      | Some r => negb (bool_decide (rc_pending r = [])) || negb (bool_decide (rc_absent r = ∅))
                      | None => false
                      end in
      if negb (sc_nonce c =? st_nonce t) then Some s
      else if durable_write_owed k || draining then Some s
      else if sc_checkpoint_op c <? k_checkpoint_op k then Some s
      else if (sc_checkpoint_op c <? st_target t) && negb (st_require_cross_epoch t) then Some s
      else if negb (authentic c) then Some s
      else if answers_restore k c then refetch_sm_reconstruct s now from c
      else
        match decode_checkpoint (sc_snapshot c) with
        | Some (bound_op, sm_root, sessions_root) =>
            if bound_op =? sc_checkpoint_op c then begin_recover_block_sync s from c sm_root sessions_root else Some s
        | None => Some s
        end
  end.

Definition recovering_from_peer (k : Keeper) : bool := is_recovering (k_status k) && awaiting_peer_checkpoint k.

Definition redeliver_deferred_pin (s : Syncing) (now : Z) : option Syncing :=
  match sn_deferred_pin s with
  | None => Some s
  | Some (from, c) =>
      let s := with_deferred s None in
      if recovering_from_peer (sn_keeper s) then on_recover_sync_checkpoint s now from c else handle_sync_checkpoint s now from c
  end.

(** ** Pulling blocks *)

Definition on_block_response (s : Syncing) (from : Peer) (r : BlockResponse) : option Syncing :=
  let k := sn_keeper s in
  if negb (is_normal (k_status k)) && negb (recovering_from_peer k) then Some s
  else if negb (is_some (k_sync k)) then Some s
  else if durable_write_owed k then Some s
  else issue_walk s (PurposeResponse from (br_addr r) (is_some (br_block r))) ((fun bytes => (br_addr r, bytes)) <$> br_block r).

(** Over a read pass that is not settled this is a fail-stop. *)
Definition complete_recover_peer_fetch (s : Syncing) (now : Z) (donor : Peer) (c : SyncCheckpoint) : option Syncing :=
  let k := sn_keeper s in
  let settled := match k_recover k with Some r => negb (read_fence_open k) && bool_decide (rc_absent r = ∅) | None => true end in
  if settled then
    k ← finalize_recovery k;
    km ← apply_sync k (sn_medium s) now donor c;
    Some (at_endpoint s (put (sn_endpoint s) km))
  else None.

Definition on_fetch_drained (s : Syncing) (now : Z) : option Syncing :=
  let k := sn_keeper s in
  if durable_write_owed k then Some s
  else
    let same_checkpoint := match live_fetch s with Some f => sc_checkpoint_op (bf_checkpoint f) =? k_checkpoint_op k | None => false end in
    if sm_reconstruct_owed k && same_checkpoint then
      let s := set_block_fetch s None in
      km ← issue_sm_restore (sn_keeper s) (sn_medium s);
      Some (at_endpoint s (put (sn_endpoint s) km))
    else
      match live_fetch s with
      | None => Some s
      | Some f =>
          let s := set_block_fetch s None in
          if recovering_from_peer (sn_keeper s) then complete_recover_peer_fetch s now (bf_donor f) (bf_checkpoint f)
          else
            km ← apply_sync (sn_keeper s) (sn_medium s) now (bf_donor f) (bf_checkpoint f);
            Some (at_endpoint s (put (sn_endpoint s) km))
      end.

Definition on_response_walked (s : Syncing) (now : Z) (from : Peer) (addr : BlockAddress) (present : bool) (next : option BlockAddress) : option Syncing :=
  match live_fetch s with
  | None => Some s
  | Some f =>
      match next with
      | None => on_fetch_drained s now
      | Some active =>
          if present then Some (resolicit (say s [(To (bf_donor f), MRequestBlock active)]) now)
          else if negb (addr =? active) || negb (bool_decide (from = bf_donor f)) then Some s
          else if bool_decide (bf_resolicited_front f = Some active) then Some s
          else
            let f := mkBlockFetch (bf_checkpoint f) (bf_sm_root f) (bf_sessions_root f) (bf_donor f) (bf_walks f) (bf_crossing_answered f) (Some active) in
            Some (ask_sync (set_block_fetch s (Some f)) now)
      end
  end.

Definition count_progress (k : Keeper) : Keeper :=
  let o := k_owed k in let y := o_syncer o in
  let y := mkSyncer (sy_sync y) (sy_block_fetch y) (sy_cross_epoch_intent y) (sy_quarantined_donor y) (sy_probe_deadline y) (sy_probe_mark y)
             (wrap 64 (sy_fetch_progress y + 1)) (sy_nonce y) (sy_solicit y) (sy_below_ring y) (sy_sent y) (sy_started y) in
  with_owed k (set_syncer o y (o_fetch o)).

Definition retry_sm_reconstruct (s : Syncing) : option Syncing :=
  km ← issue_sm_restore (sn_keeper s) (sn_medium s); Some (at_endpoint s (put (sn_endpoint s) km)).

Definition on_walked (s : Syncing) (now : Z) (job : JobId) (done : WalkDone) : option Syncing :=
  let superseded := at_keeper s (with_owed (sn_keeper s) (count_superseded (k_owed (sn_keeper s)))) in
  match wd_purpose done with
  | PurposeRecoverProbe cp =>
      km ← on_recover_probe_walked (sn_keeper s) (sn_medium s) job cp (wd_next done); Some (at_endpoint s (put (sn_endpoint s) km))
  | _ =>
      match live_fetch s with
      | None => Some superseded
      | Some f =>
          if negb (match bf_walks f with WalkInFlight id => bool_decide (id = job) | WalkIdle _ => false end) then Some superseded
          else
            let s := set_block_fetch s (Some (with_walks f (WalkIdle (wd_walks done)))) in
            let s := if wd_accepted done && bf_crossing_answered f then at_keeper s (count_progress (sn_keeper s)) else s in
            match wd_next done with
            | None => Some (abort_oversized_block_fetch s)
            | Some next =>
                match wd_purpose done, next with
                | PurposeResponse from addr present, _ => on_response_walked s now from addr present next
                | _, Some addr => Some (say s [(To (bf_donor f), MRequestBlock addr)])
                | PurposeRearm retry, None => let s := set_block_fetch s None in if retry then retry_sm_reconstruct s else Some s
                | _, None => on_fetch_drained s now
                end
            end
      end
  end.

(** ** The restored state machine *)

Definition with_content (k : Keeper) (at_op : OpNumber) (sm : S) (sessions : gmap Z Session) : Keeper :=
  let n := k_node k in
  with_knode k (mkNode (nd_config n) (nd_membership n) (nd_view n) (nd_op n) (nd_commit_min n) (nd_commit_max n) (nd_log n) (nd_inflight n)
                  (nd_appending n) (nd_repair n) sessions (nd_sessions_evicted n) (nd_pending_swap n) sm at_op (nd_out n)).

Definition note_pruned (k : Keeper) (op : Z) : Keeper :=
  let f := k_frontier k in
  with_frontier k (mkFrontier (f_checkpoint_op f) (f_log_floor f) (f_inherited f) (f_orphan f) (f_sm_root f) (f_sessions_root f)
                     (f_peer_checkpoint f) (f_quorum_checkpoint f) (Z.max (f_wal_pruned f) op)).

(** The end of a sync.  A recovery goes on to its ladder; a head among the faults its read
    phase found is still missing.  A crossing wanted meanwhile is started. *)
Definition complete_state_sync (s : Syncing) (now : Z) : option Syncing :=
  km ← gc_blocks (sn_keeper s) (sn_medium s);
  let s := set_block_fetch (at_endpoint s (put (sn_endpoint s) km)) None in
  let s := at_keeper s (with_owed (sn_keeper s) (drop_sync (k_owed (sn_keeper s)))) in
  let cross (s : Syncing) :=
    let k := sn_keeper s in let y := o_syncer (k_owed k) in
    match sy_cross_epoch_intent y with
    | Some intent => if is_normal (k_status k) then at_keeper s (with_syncer k (arm_sync (sync_ctx k) y now intent true true)) else s
    | None => s
    end in
  if is_recovering (k_status (sn_keeper s)) then
    let k := sn_keeper s in
    let carried := filter (fun op => k_checkpoint_op k < op) (sn_carried_faulty s) in
    let s := with_carried s ∅ in
    if bool_decide (nd_op (k_node k) ∈ carried) then
      let k := with_recover k (Some (rec_tail recover_default [] ∅ carried ∅)) in
      slot ← local_slot_opt (k_membership k) (k_local k);
      let k := set_status k RecoveringHead in
      Some (say (at_keeper s k) [(Backups, recovery_message k slot)])
    else b ← complete_recovery (sn_endpoint s) now; Some (cross (at_endpoint s b))
  else Some (cross s).

Definition on_sm_restored (s : Syncing) (now : Z) (restored : option (S * gmap Z Session)) : option Syncing :=
  let k := sn_keeper s in
  match o_reconstruct (k_owed k) with
  | None => Some s
  | Some r =>
      let cp := sr_checkpoint_op r in
      match restored with
      | None =>
          let r := mkSmReconstruct cp (sr_sm_root r) (sr_sessions_root r) (sr_checkpoint r) (sr_donor r) None in
          rearm_sm_reconstruct_retry (at_keeper s (with_owed k (set_reconstruct (k_owed k) (Some r)))) now false
      | Some (sm, sessions) =>
          let k := with_content k cp sm sessions in
          let k := with_owed k (set_reconstruct (k_owed k) None) in
          '(cancelled, m) ← truncate (sn_medium s) (nd_op (k_node k));
          '(a, m) ← absorb_wal_cancellations (k_appends k) m cancelled;
          '(cancelled, m) ← prune m cp;
          let k := note_pruned (with_owned_appends k a) (sat_sub cp 1) in
          '(a, m) ← absorb_wal_cancellations (k_appends k) m cancelled;
          s ← complete_state_sync (at_endpoint s (put (sn_endpoint s) (with_owned_appends k a, m))) now;
          '(k, m) ← retry_unappended_adopted_tail wal_status (sn_keeper s) (sn_medium s);
          km ← maybe_swap_epoch k m;
          Some (at_endpoint s (put (sn_endpoint s) km))
      end
  end.

(** ** Timers *)

Definition sync_timeouts (s : Syncing) (now : Z) : option Syncing :=
  let y := o_syncer (k_owed (sn_keeper s)) in
  if negb (due (sy_solicit y) now) then Some s
  else if negb (is_some (sy_sync y)) then Some (at_keeper s (solicit_at (sn_keeper s) None))
  else
    km ← flush_and_stage_install (sn_keeper s) (sn_medium s) now;
    s ← send_request_block (at_endpoint s (put (sn_endpoint s) km)) now;
    Some (ask_sync s now).

(** What a recovery without a head may give up waiting for: the other voters of a
    view-change quorum have been recovering too for two solicitation windows, this
    configuration never had a settled view, and nothing committed is faulty here. *)
Definition may_escalate_reformation (k : Keeper) (reform_attempts fresh : Z) (committed_band_intact : bool) : bool :=
  let slot_is_voter := match local_slot_opt (k_membership k) (k_local k) with Some slot => is_voter (k_membership k) slot | None => false end in
  (1 <? m_replica_count (k_membership k)) && slot_is_voter && (ch_prev_epoch (k_config k) <? m_epoch (k_membership k)) && committed_band_intact
  && (RECOVER_HEAD_REFORM_ATTEMPTS <=? reform_attempts) && (sat_sub (quorum (k_membership k)) 1 <=? count_ones fresh).

Definition retire_recover_and_escalate (k : Keeper) (m : Medium) (now : Z) : option (Keeper * Medium) :=
  if read_fence_open k then None else enter_view_change (with_recover k None) m now (Counter.next (k_view k)).

Definition rec_reform (r : RecoverState) (attempts now_recovering before : Z) : RecoverState :=
  mkRecover (rc_pending r) (rc_reads r) (rc_faulty r) (rc_absent r) (rc_checkpoint r) (rc_checkpoint_reads r) (rc_reconstruct r) (rc_probe_deferred r)
    (rc_formatted r) (rc_checkpoint_retries r) (rc_awaiting_peer_checkpoint r) (rc_canonical r) attempts now_recovering before.

(** Once its deadline has passed. *)
Definition recover_head_timeouts (b : Endpoint) (now : Z) : option Endpoint :=
  let k := ep_keeper b in
  match k_recover k with
  | None => Some b
  | Some r =>
      let attempts := sat_add 8 (rc_reform_attempts r) 1 in
      let fresh := Z.land (rc_peers_recovering r) (rc_peers_recovering_prev r) in
      let intact := forallb (fun op => negb (op <=? nd_commit_max (k_node k))) (elements (rc_faulty r)) in
      let k := with_recover k (Some (rec_reform r attempts 0 (rc_peers_recovering r))) in
      slot ← local_slot_opt (k_membership k) (k_local k);
      if may_escalate_reformation k attempts fresh intact
      then km ← retire_recover_and_escalate k (ep_medium b) now; Some (put b km)
      else Some (send (set_keeper b k) [(Backups, recovery_message k slot)])
  end.

(** ** Completions, with every route taken *)

(** The envelope of an install went out: the read phase of a recovery is over, its faults
    are carried across. *)
Definition retire_recover_for_staged_sync (s : Syncing) : option Syncing :=
  let k := sn_keeper s in
  if read_fence_open k then None
  else
    let s := match k_recover k with
             | Some r => if bool_decide (rc_faulty r = ∅) then s else with_carried s (rc_faulty r)
             | None => s
             end in
    Some (at_keeper s (solicit_at (with_recover k None) None)).

Definition blocks_flushed (s : Syncing) (now : Z) (job : JobId) (flushed : bool) : option Syncing :=
  let install := flushing (sn_keeper s) job in
  '(staged, k, m) ← on_checkpoint_blocks_flushed (sn_keeper s) (sn_medium s) job flushed;
  let s := at_endpoint s (put (sn_endpoint s) (k, m)) in
  if staged : bool then
    let s := resolicit s now in
    if recovering (sn_keeper s) then retire_recover_for_staged_sync s else Some s
  else if is_some install && is_some (k_pending_install k) && negb (is_recovering (k_status k)) then Some (resolicit s now)
  else Some s.

(** [on_block_done]; the lane reads of the completion its id and its tag. *)
Definition on_block_done (s : Syncing) (now : Z) (job : JobId) (output : BlockJobOutput S) : option Syncing :=
  m ← settle_block_job (sn_medium s) (mkBlockJobDone job (output_tag output));
  km ← (match output with
        | Walked _ => redrive_deferred_recover_probe (sn_keeper s) m
        | _ => Some (sn_keeper s, m)
        end);
  let s := at_endpoint s (put (sn_endpoint s) km) in
  let '(foreign, a) := is_foreign_completion (k_appends (sn_keeper s)) job in
  let s := at_keeper s (with_kappends (sn_keeper s) a) in
  let superseded := at_keeper s (with_owed (sn_keeper s) (count_superseded (k_owed (sn_keeper s)))) in
  if foreign then Some s
  else
    match output with
    | Materialized sm_root sessions_root flushed =>
        km ← on_checkpoint_materialized (sn_keeper s) (sn_medium s) job sm_root sessions_root flushed; Some (at_endpoint s (put (sn_endpoint s) km))
    | Flushed flushed => blocks_flushed s now job flushed
    | Gced => Some s
    | Served to addr block => Some (at_endpoint s (on_block_served (sn_endpoint s) to addr block))
    | Walked done => s ← on_walked s now job done; redeliver_deferred_pin s now
    | Restored SyncedCheckpoint res =>
        if bool_decide ((r ← o_reconstruct (k_owed (sn_keeper s)); sr_restore r) = Some job) then on_sm_restored s now (expect res) else Some superseded
    | Restored (RestoreRecovered cp) res =>
        if bool_decide ((r ← k_recover (sn_keeper s); rc_reconstruct r) = Some job)
        then b ← on_recovered_checkpoint_restored (sn_endpoint s) now cp (expect res); Some (at_endpoint s b)
        else Some superseded
    end.

(** [on_sb_done] of the endpoint. *)
Definition sb_completed (s : Syncing) (now : Z) (done : SuperblockDone) (landed : option (RootRole * WriteId * VsrState)) : option Syncing :=
  '(r, k, m) ← on_sb_done (sn_keeper s) (sn_medium s) now done landed;
  let s := at_endpoint s (put (sn_endpoint s) (k, m)) in
  s ← match r with
      | RouteRecover done => km ← on_recover_sb_done k m done; Some (at_endpoint s (put (sn_endpoint s) km))
      | RouteServe op snapshot => b ← serve_sync_checkpoint (sn_endpoint s) (sb_done_id done) op snapshot; Some (at_endpoint s b)
      | RouteCompleteStateSync =>
          s ← complete_state_sync s now;
          km ← retry_unappended_adopted_tail wal_status (sn_keeper s) (sn_medium s);
          Some (at_endpoint s (put (sn_endpoint s) km))
      | r => b ← sb_done_dispatch wal_status (sn_endpoint s) now r; Some (at_endpoint s b)
      end;
  km ← sb_done_tail r (sn_keeper s) (sn_medium s);
  Some (at_endpoint s (put (sn_endpoint s) km)).

(** [on_wal_done] of the endpoint. *)
Definition wal_completed (s : Syncing) (now : Z) (done : WalDone) (freed : option Z) : option Syncing :=
  '(b, read) ← Prepares.on_wal_done (sn_endpoint s) now done freed;
  b ← match read with Some done => on_recover_wal_done b now done | None => Some b end;
  Some (at_endpoint s b).

End fetch.
(** ** A transfer is pulled whole *)

Section transfers.
Context {S Image W B St : Type} `{SX : StateMachine S Image} `{Wal W} `{Superblock B} `{BM : BlockStoreModel St}.
Context (wal_status : W -> OpNumber -> SlotStatus).
#[local] Abbreviation Keeper := (@Keeper S).
#[local] Abbreviation Medium := (@Medium W B S Image (gmap Z Session) BlockWalks).
#[local] Abbreviation Endpoint := (@Endpoint S Image W B BlockWalks).
#[local] Abbreviation Syncing := (@Syncing S Image W B).
#[local] Abbreviation Kind := (@BlockJobKind S Image (gmap Z Session) BlockWalks).

(** A restore that is owed is of the checkpoint the endpoint stands on. *)
Definition restore_bound (k : Keeper) : Prop :=
  match o_reconstruct (k_owed k) with
  | Some r => sc_checkpoint_op (sr_checkpoint r) = sr_checkpoint_op r /\ sr_checkpoint_op r = k_checkpoint_op k
  | None => True
  end.

(** A transfer is of a checkpoint that was answered, or of the one whose restore is owed. *)
Definition answered (f : BlockFetch) : Prop :=
  authentic (bf_checkpoint f) = true /\ exists op, decode_checkpoint (sc_snapshot (bf_checkpoint f)) = Some (op, bf_sm_root f, bf_sessions_root f).
Definition sound (k : Keeper) (f : BlockFetch) : Prop :=
  answered f \/ (sm_reconstruct_owed k = true /\ sc_checkpoint_op (bf_checkpoint f) = k_checkpoint_op k).

Definition bound (s : Syncing) : Prop :=
  restore_bound (sn_keeper s) /\ forall f, live_fetch s = Some f -> sound (sn_keeper s) f.

(** Walks under way over a store, from the roots of a transfer. *)
Definition good (t : St) (f : BlockFetch) (w : BlockWalks) : Prop :=
  walking block_references (bf_sm_root f) t (bw_sm w) /\ walking session_block_references (bf_sessions_root f) t (bw_session w).

Definition whole (t : St) (sm_root sessions_root : BlockAddress) : Prop :=
  (forall a, reaches block_references t sm_root a -> is_Some (read_verified_block t a)) /\
  (forall a, reaches session_block_references t sessions_root a -> is_Some (read_verified_block t a)).

Definition of_transfer (p : WalkPurpose) : bool := match p with PurposeRecoverProbe _ => false | _ => true end.

Definition done_good (t : St) (f : BlockFetch) (d : WalkDone) : Prop :=
  of_transfer (wd_purpose d) = true /\
  match wd_next d with
  | None => True
  | Some next => good t f (wd_walks d) /\ (next = None -> whole t (bf_sm_root f) (bf_sessions_root f))
  end.

(** The walk in flight is with the driver: as it was issued, or as it was executed. *)
Definition Flying : Type := option (JobId * (Kind + WalkDone)).

Definition flight (t : St) (f : BlockFetch) (y : Flying) : Prop :=
  match bf_walks f with
  | WalkIdle w => good t f w
  | WalkInFlight job =>
      match y with
      | Some (id, inl (JobWalk w _ p)) => id = job /\ good t f w /\ of_transfer p = true
      | Some (id, inr d) => id = job /\ done_good t f d
      | _ => False
      end
  end.

Definition transfer_inv (s : Syncing) (t : St) (y : Flying) : Prop :=
  bound s /\ forall f, live_fetch s = Some f -> flight t f y.

(** *** Walking both graphs *)

Lemma good_new (t : St) f : good t f (block_walks_new (bf_sm_root f) (bf_sessions_root f)).
Proof. split; apply walking_new. Qed.

Lemma good_retained (t t' : St) f w :
  retains block_references (bf_sm_root f) t t' -> retains session_block_references (bf_sessions_root f) t t' -> good t f w -> good t' f w.
Proof. intros Hr1 Hr2 [Ha Hb]. split; by eapply walking_mono. Qed.

Lemma whole_retained (t t' : St) sm ss :
  retains block_references sm t t' -> retains session_block_references ss t t' -> whole t sm ss -> whole t' sm ss.
Proof.
  assert (forall refs root a, retains refs root t t' -> (forall a, reaches refs t root a -> is_Some (read_verified_block t a)) ->
    reaches refs t' root a -> reaches refs t root a) as Hback.
  { intros refs root a Hr Hw Ha. refine (rtc_ind_r (reaches refs t root) root _ _ a Ha); [apply rtc_refl|]. intros x z _ (b & Hb & Hin) IH.
    eapply rtc_r; [exact IH|]. destruct (Hw x IH) as [b' Hb']. exists b'. split; [done|].
    by rewrite (Hr x b' IH Hb') in Hb; injection Hb as <-. }
  intros Hr1 Hr2 [Ha Hb]. split; intros a Hr.
  - destruct (Ha a (Hback _ _ _ Hr1 Ha Hr)) as [b Hx]. exists b. apply Hr1; [by apply Hback|done].
  - destruct (Hb a (Hback _ _ _ Hr2 Hb Hr)) as [b Hx]. exists b. apply Hr2; [by apply Hback|done].
Qed.

Lemma next_request_spec refs root (t : St) w :
  walking refs root t w ->
  match next_request refs w t with
  | (Ok None, w') => walking refs root t w' /\ forall a, reaches refs t root a -> is_Some (read_verified_block t a)
  | (Ok (Some a), w') => walking refs root t w'
  | (Err _, _) => True
  end.
Proof.
  intros Hw. pose proof (advance_spec refs root t w Hw) as Ha. unfold next_request.
  destruct (advance refs w t) as [[[]|e] w']; [|done]. destruct Ha as (Hw' & _ & _). destruct (bs_frontier w') as [|a rest] eqn:Hf; cbn [head]; [|done].
  split; [done|]. assert (forall a, reaches refs t root a -> a ∈ bs_visited w') as Hall.
  { intros a Ha. refine (rtc_ind_r (fun x => x ∈ bs_visited w') root _ _ a Ha); [apply (wk_root _ _ _ _ Hw')|]. intros x z _ (b & Hb & Hin) IH.
    destruct (wk_done _ _ _ _ Hw' x IH) as (b' & Hb' & Hc); [rewrite Hf; apply not_elem_of_nil|]. rewrite Hb in Hb'. injection Hb' as <-. auto. }
  intros a Ha. destruct (wk_done _ _ _ _ Hw' a (Hall a Ha)) as (b & Hb & _); [rewrite Hf; apply not_elem_of_nil|]. by exists b.
Qed.

Lemma next_missing_spec (t : St) f w :
  good t f w ->
  match next_missing block_references session_block_references w t with
  | (None, _) => True
  | (Some next, w') => good t f w' /\ (next = None -> whole t (bf_sm_root f) (bf_sessions_root f))
  end.
Proof.
  intros [Ha Hb]. unfold next_missing. pose proof (next_request_spec _ _ t _ Hb) as Hc. apply next_request_spec in Ha.
  destruct (next_request block_references _ _) as [[[a|]|e] sm]; [by split; [split|]| |done].
  destruct Ha as [Ha Hwa]. destruct (next_request session_block_references _ _) as [[[a|]|e] ss]; [by split; [split|]| |done].
  destruct Hc as [Hc Hwc]. split; [by split|]. intros _. by split.
Qed.

Lemma fed_spec refs root (t : St) w addr bytes :
  walking refs root t w -> no_collision t bytes ->
  let '(r, w', t') := on_block refs w addr bytes t in
  breached r = true \/ (breached r = false /\ walking refs root t' w' /\ (t' = t \/ t' = (Blocks.put t bytes).2)).
Proof.
  intros Hw Hn. pose proof (on_block_spec refs root t w addr bytes Hw Hn) as Ho. destruct (on_block refs w addr bytes t) as [[[[]|[]] w'] t'].
  - destruct Ho as (? & _ & _ & _ & _ & -> & _). right; auto.
  - destruct Ho as (-> & -> & _). right; auto.
  - destruct Ho as (-> & -> & _). right; auto.
  - by left.
Qed.

(** A block that arrived is stored at most, and stands for itself. *)
Lemma stored_walking refs root (t t' : St) w bytes :
  no_collision t bytes -> t' = t \/ t' = (Blocks.put t bytes).2 -> walking refs root t w -> walking refs root t' w /\ no_collision t' bytes.
Proof.
  intros Hn [->| ->] Hw; [done|]. split; [by eapply walking_mono; [apply put_retains|]|]. intros b. rewrite put_own. by intros [= <-].
Qed.

Lemma accept_block_spec (t : St) f w addr bytes :
  good t f w -> no_collision t bytes ->
  match accept_block block_references session_block_references w addr bytes t with
  | (None, _, _) => True
  | (Some _, w', t') => good t' f w'
  end.
Proof.
  intros [Ha Hb] Hn. unfold accept_block. pose proof (fed_spec _ _ t _ addr bytes Ha Hn) as Ho1.
  destruct (on_block block_references (bw_sm w) addr bytes t) as [[r1 sm] t1].
  destruct Ho1 as [->|(-> & Hw1 & Ht1)]; [by destruct (on_block session_block_references _ _ _ _) as [[? ?] ?]|].
  destruct (stored_walking _ _ _ _ _ _ Hn Ht1 Hb) as [Hb1 Hn1]. pose proof (fed_spec _ _ t1 _ addr bytes Hb1 Hn1) as Ho2.
  destruct (on_block session_block_references (bw_session w) addr bytes t1) as [[r2 ss] t2].
  destruct Ho2 as [->|(-> & Hw2 & Ht2)]; [done|]. cbn. split; [|done]. by apply (stored_walking _ _ t1 _ _ bytes).
Qed.

(** What executing a walk job of a transfer returns. *)
Lemma executed_walk (t t' : St) f w fetched p (d : WalkDone) :
  good t f w -> of_transfer p = true -> match fetched with Some (_, bytes) => no_collision t bytes | None => True end ->
  execute_kind (JobWalk w fetched p : Kind) t = Some (Walked d, t') -> done_good t' f d.
Proof.
  intros Hg Hp Hn. unfold execute_kind.
  destruct fetched as [[addr bytes]|].
  - pose proof (accept_block_spec t f w addr bytes Hg Hn) as Ha.
    destruct (accept_block _ _ w addr bytes t) as [[[a|] w1] t1].
    + pose proof (next_missing_spec t1 f w1 Ha) as Hx. destruct (next_missing _ _ w1 t1) as [next w2]. intros [= <- <-].
      split; [done|]. cbn. by destruct next.
    + intros [= <- <-]. by split.
  - pose proof (next_missing_spec t f w Hg) as Hx. destruct (next_missing _ _ w t) as [next w2]. intros [= <- <-]. split; [done|]. cbn. by destruct next.
Qed.

Lemma on_block_stored refs (t : St) w addr bytes r w' t' :
  on_block refs w addr bytes t = (r, w', t') -> t' = t \/ t' = (Blocks.put t bytes).2.
Proof.
  unfold on_block. destruct (negb _); [intros [= _ _ <-]; by left|]. destruct (negb _); [intros [= _ _ <-]; by left|].
  destruct (enqueue_children _ _) as [[[]|e] w1]; [|intros [= _ _ <-]; by right].
  destruct (advance refs w1 _) as [[[]|e] w2]; intros [= _ _ <-]; by right.
Qed.

Lemma stored_retained refs root (t t' : St) bytes :
  no_collision t bytes -> t' = t \/ t' = (Blocks.put t bytes).2 -> retains refs root t t' /\ no_collision t' bytes.
Proof.
  intros Hn [->| ->]; [split; [by intros ???|done]|]. split; [by apply put_retains|]. intros b. rewrite put_own. by intros [= <-].
Qed.

(** A walk writes at most the block it was given. *)
Lemma walk_retains refs root (t t' : St) w fetched p (d : BlockJobOutput S) :
  match fetched with Some (_, bytes) => no_collision t bytes | None => True end ->
  execute_kind (JobWalk w fetched p : Kind) t = Some (d, t') -> retains refs root t t'.
Proof.
  intros Hn. unfold execute_kind. destruct fetched as [[addr bytes]|].
  - unfold accept_block. destruct (on_block block_references _ _ _ _) as [[r1 sm] t1] eqn:Ho1. apply on_block_stored in Ho1.
    destruct (on_block session_block_references _ _ _ _) as [[r2 ss] t2] eqn:Ho2. apply on_block_stored in Ho2.
    destruct (stored_retained refs root _ _ _ Hn Ho1) as [Hr1 Hn1]. destruct (stored_retained refs root _ _ _ Hn1 Ho2) as [Hr2 _].
    assert (retains refs root t t2) as Hr.
    { intros a b Ha Hb. apply Hr2; [by apply (retains_reaches refs root t)|by apply Hr1]. }
    destruct (_ || _); [by intros [= _ <-]|]. destruct (next_missing _ _ _ _). by intros [= _ <-].
  - destruct (next_missing _ _ _ _). intros [= _ <-]. by intros ???.
Qed.

(** *** What a handler does to the transfer *)

(** Everything but the handlers of this file: the transfer is kept, with the restore it may
    be of, or dropped. *)
Definition keeps (s s' : Syncing) : Prop :=
  restore_bound (sn_keeper s') /\
  (live_fetch s' = None \/
   (live_fetch s' = live_fetch s /\
    (sm_reconstruct_owed (sn_keeper s) = true ->
     sm_reconstruct_owed (sn_keeper s') = true /\ k_checkpoint_op (sn_keeper s') = k_checkpoint_op (sn_keeper s)))).

(** The walk a handler has just issued is the last job of the lane. *)
Definition queued (s : Syncing) : Flying :=
  f ← live_fetch s;
  match bf_walks f with
  | WalkInFlight job => j ← last (jobs (lane (sn_medium s))); if bool_decide (job_id j = job) then Some (job, inl (job_kind j)) else None
  | WalkIdle _ => None
  end.

Definition flown (s s' : Syncing) (y : Flying) : Flying := if transfer_walk_in_flight s then y else queued s'.

Definition same_roots (f f' : BlockFetch) : Prop := bf_sm_root f' = bf_sm_root f /\ bf_sessions_root f' = bf_sessions_root f.

(** A transfer pinned afresh, or the walk of the one there was taken up again. *)
Definition resumed (s : Syncing) (f : BlockFetch) (w : BlockWalks) : Prop :=
  w = block_walks_new (bf_sm_root f) (bf_sessions_root f) \/
  exists f0, live_fetch s = Some f0 /\ bf_walks f0 = WalkIdle w /\ same_roots f0 f.

Inductive moved (s s' : Syncing) : Prop :=
| moved_kept : keeps s s' -> moved s s'
| moved_idle f w : transfer_walk_in_flight s = false -> bound s' -> live_fetch s' = Some f -> bf_walks f = WalkIdle w -> resumed s f w -> moved s s'
| moved_issued f w job fetched p : transfer_walk_in_flight s = false -> bound s' -> live_fetch s' = Some f -> bf_walks f = WalkInFlight job ->
    last (jobs (lane (sn_medium s'))) = Some (mkBlockJob job (JobWalk w fetched p)) -> of_transfer p = true -> resumed s f w -> moved s s'.

Lemma live_set (s : Syncing) f : live_fetch (set_block_fetch s f) = f.
Proof. by destruct f. Qed.

Lemma keeps_bound (s s' : Syncing) : bound s -> keeps s s' -> bound s'.
Proof.
  intros [_ Hs] [Hr Hl]. split; [done|]. intros f Hf. destruct Hl as [Hl|[Hl Ho]]; [congruence|]. rewrite Hl in Hf.
  destruct (Hs f Hf) as [Ha|[Hw Hc]]; [by left|right]. destruct (Ho Hw) as [Hw' Hc']. by rewrite Hc'.
Qed.

Lemma keeps_refl (s : Syncing) : bound s -> keeps s s.
Proof. intros [Hr _]. split; [done|]. right. split; [done|]. by intros. Qed.

Lemma good_same (t : St) f f' w : same_roots f f' -> good t f w -> good t f' w.
Proof. unfold good. by intros [-> ->]. Qed.

Lemma resumed_good (s : Syncing) (t : St) y f w : transfer_inv s t y -> resumed s f w -> good t f w.
Proof.
  intros [_ Hf] [->|(f0 & Hl & Hw & Hr)]; [apply good_new|]. specialize (Hf f0 Hl). unfold flight in Hf. rewrite Hw in Hf. by eapply good_same.
Qed.

Lemma moved_inv (s s' : Syncing) (t : St) y : moved s s' -> transfer_inv s t y -> transfer_inv s' t (flown s s' y).
Proof.
  intros Hm Hi. destruct Hm as [Hk|f w Ht Hb Hl Hw Hr|f w job fetched p Ht Hb Hl Hw Hj Hp Hr].
  - split; [by apply (keeps_bound s); [apply Hi|]|]. intros f Hf. destruct Hk as [_ [Hl|[Hl _]]]; [congruence|]. rewrite Hl in Hf.
    pose proof (proj2 Hi f Hf) as Hy. unfold flown, transfer_walk_in_flight. rewrite Hf. unfold flight in *. by destruct (bf_walks f).
  - split; [done|]. intros f' Hf. rewrite Hl in Hf. injection Hf as <-. unfold flight. rewrite Hw. by eapply resumed_good.
  - split; [done|]. intros f' Hf. rewrite Hl in Hf. injection Hf as <-. unfold flight, flown, queued. rewrite Ht, Hl. cbn [mbind option_bind]. rewrite Hw, Hj.
    cbn. rewrite bool_decide_eq_true_2 by done. split_and!; [done| |done]. by eapply resumed_good.
Qed.

(** What a handler does to the endpoint besides. *)
Definition aside (s s' : Syncing) : Prop :=
  live_fetch s' = live_fetch s /\ sn_medium s' = sn_medium s /\
  o_reconstruct (k_owed (sn_keeper s')) = o_reconstruct (k_owed (sn_keeper s)) /\ k_checkpoint_op (sn_keeper s') = k_checkpoint_op (sn_keeper s).

Lemma bound_same (s s' : Syncing) : live_fetch s' = live_fetch s ->
  o_reconstruct (k_owed (sn_keeper s')) = o_reconstruct (k_owed (sn_keeper s)) -> k_checkpoint_op (sn_keeper s') = k_checkpoint_op (sn_keeper s) -> bound s -> bound s'.
Proof.
  intros Hl Ho Hc [Hr Hs]. unfold bound, restore_bound, sound, sm_reconstruct_owed in *. rewrite Hl, Ho, Hc. by split.
Qed.

Lemma aside_keeps (s s' : Syncing) : bound s -> aside s s' -> keeps s s'.
Proof.
  intros Hb (Hl & _ & Ho & Hc). pose proof (bound_same s s' Hl Ho Hc Hb) as [Hr _]. split; [done|right]. split; [done|].
  unfold sm_reconstruct_owed. by rewrite Ho.
Qed.

Lemma moved_aside (s s1 s2 : Syncing) : moved s s1 -> aside s1 s2 -> moved s s2.
Proof.
  intros Hm (Hl & Hmed & Ho & Hc). destruct Hm as [[Hr Hk]|f w Ht Hb Hl1 Hw Hre|f w job fetched p Ht Hb Hl1 Hw Hj Hp Hre].
  - apply moved_kept. unfold keeps, restore_bound, sm_reconstruct_owed in *. rewrite Hl, Ho, Hc. by split.
  - apply (moved_idle _ _ f w); [done|by apply (bound_same s1)|congruence|done|done].
  - apply (moved_issued _ _ f w job fetched p); [done|by apply (bound_same s1)|congruence|done|by rewrite Hmed|done|done].
Qed.

Lemma aside_refl (s : Syncing) : aside s s.
Proof. by repeat split. Qed.

Lemma resolicit_aside (s : Syncing) now : aside s (resolicit s now).
Proof. by repeat split. Qed.

Lemma ask_aside (s : Syncing) now : aside s (ask_sync s now).
Proof. by repeat split. Qed.

Lemma defer_aside (s : Syncing) from c : aside s (defer_pin_until_walk_completes s from c).
Proof. by repeat split. Qed.

Lemma issue_walk_spec (s s' : Syncing) p fetched : issue_walk s p fetched = Some s' ->
  s' = s \/ exists f w job, live_fetch s = Some f /\ bf_walks f = WalkIdle w /\ live_fetch s' = Some (with_walks f (WalkInFlight job)) /\
    last (jobs (lane (sn_medium s'))) = Some (mkBlockJob job (JobWalk w fetched p)) /\
    o_reconstruct (k_owed (sn_keeper s')) = o_reconstruct (k_owed (sn_keeper s)) /\ k_checkpoint_op (sn_keeper s') = k_checkpoint_op (sn_keeper s).
Proof.
  unfold issue_walk. destruct (live_fetch s) as [f|] eqn:Hl; [|intros [= <-]; by left]. destruct (bf_walks f) as [w|] eqn:Hw; [|intros [= <-]; by left].
  destruct (walk_owed _) eqn:Hwo; [intros [= <-]; by left|]. destruct (issue_block_job _ _ _) as [[[job k] m]|] eqn:Hi; [|done].
  cbn [mbind option_bind]. intros [= <-]. right. exists f, w, job. rewrite live_set. split_and!; [done..| | |].
  - unfold issue_block_job, mint in Hi. destruct (mint_write_id _) as [[id a]|]; [|done]. cbn [mbind option_bind] in Hi.
    unfold enqueue_block_job in Hi. destruct (enqueue _ _ _) as [l|] eqn:He; [|done]. cbn [mbind option_bind] in Hi. injection Hi as <- _ <-.
    unfold enqueue in He. cbn in He. destruct (cell _ WALK_SLOT); [done|]. injection He as <-. cbn. by rewrite last_snoc.
  - unfold issue_block_job, mint in Hi. destruct (mint_write_id _) as [[id a]|]; [|done]. cbn [mbind option_bind] in Hi.
    destruct (enqueue_block_job _ _ _); [|done]. cbn [mbind option_bind] in Hi. injection Hi as _ <- _. done.
  - unfold issue_block_job, mint in Hi. destruct (mint_write_id _) as [[id a]|]; [|done]. cbn [mbind option_bind] in Hi.
    destruct (enqueue_block_job _ _ _); [|done]. cbn [mbind option_bind] in Hi. injection Hi as _ <- _. done.
Qed.

(** Issuing the walk of the transfer there is. *)
Lemma issue_moved (s s' : Syncing) p fetched : bound s -> of_transfer p = true -> issue_walk s p fetched = Some s' -> moved s s'.
Proof.
  intros Hb Hp Hi. apply issue_walk_spec in Hi as [->|(f & w & job & Hl & Hw & Hl' & Hj & Ho & Hc)]; [by apply moved_kept, keeps_refl|].
  apply (moved_issued _ _ (with_walks f (WalkInFlight job)) w job fetched p); try done.
  - unfold transfer_walk_in_flight. by rewrite Hl, Hw.
  - destruct Hb as [Hr Hs]. specialize (Hs f Hl). unfold bound, restore_bound, sound, sm_reconstruct_owed in *. rewrite Ho, Hc, Hl'.
    split; [done|]. by intros ? [= <-].
  - right. by exists f.
Qed.

(** Issuing the first walk of a transfer pinned afresh. *)
Lemma arm_moved (s s' : Syncing) c donor sm ss p :
  restore_bound (sn_keeper s) -> transfer_walk_in_flight s = false -> of_transfer p = true ->
  (authentic c = true /\ (exists op, decode_checkpoint (sc_snapshot c) = Some (op, sm, ss))) \/
    (sm_reconstruct_owed (sn_keeper s) = true /\ sc_checkpoint_op c = k_checkpoint_op (sn_keeper s)) ->
  issue_walk (pin s c donor sm ss) p None = Some s' -> moved s s'.
Proof.
  intros Hr Ht Hp Hc Hi. assert (bound (pin s c donor sm ss)) as Hb.
  { split; [done|]. intros f. unfold pin. rewrite live_set. intros [= <-]. exact Hc. }
  apply issue_walk_spec in Hi as [->|(f & w & job & Hl & Hw & Hl' & Hj & Ho & Hck)].
  - eapply (moved_idle _ _ _ _ Ht Hb); [apply live_set|done|by left].
  - unfold pin in Hl. rewrite live_set in Hl. injection Hl as <-. injection Hw as <-.
    eapply (moved_issued _ _ _ _ job _ p Ht); [|exact Hl'|done|exact Hj|done|by left].
    destruct Hb as [Hrb Hs]. specialize (Hs _ (live_set _ _)). unfold bound, restore_bound, sound, sm_reconstruct_owed in *. rewrite Ho, Hck, Hl'.
    split; [done|]. by intros ? [= <-].
Qed.

(** *** The handlers that take an answer *)

Lemma rearm_moved (s s' : Syncing) now retry : bound s -> rearm_sm_reconstruct_retry s now retry = Some s' -> moved s s'.
Proof.
  intros Hb. unfold rearm_sm_reconstruct_retry. destruct (o_reconstruct _) as [r|] eqn:Hr; [|intros [= <-]; by apply moved_kept, keeps_refl].
  destruct (transfer_walk_in_flight s) eqn:Ht; [intros [= <-]; by apply moved_kept, keeps_refl|].
  destruct (issue_walk _ _ _) as [s1|] eqn:Hi; [|done]. cbn [mbind option_bind]. intros [= <-].
  eapply moved_aside; [eapply (arm_moved s s1 _ _ _ _ (PurposeRearm retry)); [apply Hb|done|done| |exact Hi]|by destruct (is_recovering _); repeat split].
  right. destruct Hb as [Hrb _]. unfold restore_bound, sm_reconstruct_owed in *. rewrite Hr in *. cbn in *. destruct Hrb. by split; [|congruence].
Qed.

Lemma moved_from (s s1 s2 : Syncing) : live_fetch s1 = live_fetch s -> moved s1 s2 -> 
  o_reconstruct (k_owed (sn_keeper s1)) = o_reconstruct (k_owed (sn_keeper s)) \/ sm_reconstruct_owed (sn_keeper s1) = true ->
  k_checkpoint_op (sn_keeper s1) = k_checkpoint_op (sn_keeper s) -> moved s s2.
Proof.
  intros Hl Hm Ho Hc. assert (transfer_walk_in_flight s = transfer_walk_in_flight s1) as Ht by (unfold transfer_walk_in_flight; by rewrite Hl).
  destruct Hm as [[Hr Hk]|f w Htw Hb Hl1 Hw Hre|f w job fetched p Htw Hb Hl1 Hw Hj Hp Hre].
  - apply moved_kept. split; [done|]. destruct Hk as [|[Hk1 Hk2]]; [by left|right]. rewrite <- Hl, <- Hc. split; [done|]. intros Hw.
    destruct Ho as [Ho|Ho]; [apply Hk2; unfold sm_reconstruct_owed in *; by rewrite Ho|auto].
  - apply (moved_idle _ _ f w); [congruence|done..|]. destruct Hre as [|(f0 & ? & ?)]; [by left|right]. exists f0. by rewrite <- Hl.
  - apply (moved_issued _ _ f w job fetched p); [congruence|done..|]. destruct Hre as [|(f0 & ? & ?)]; [by left|right]. exists f0. by rewrite <- Hl.
Qed.

Lemma refetch_moved (s s' : Syncing) now from c :
  bound s -> sc_checkpoint_op c = k_checkpoint_op (sn_keeper s) -> refetch_sm_reconstruct s now from c = Some s' -> moved s s'.
Proof.
  intros Hb Hc. unfold refetch_sm_reconstruct. destruct (is_client from); [intros [= <-]; by apply moved_kept, keeps_refl|].
  destruct (transfer_walk_in_flight s) eqn:Ht; [intros [= <-]; by apply moved_kept, aside_keeps|].
  set (s1 := at_keeper s _). intros Hi. apply (moved_from s s1); [done| | |done].
  - apply (rearm_moved s1 s' now true); [|done]. destruct Hb as [Hr Hs]. split.
    + unfold restore_bound in *. subst s1. cbn. destruct (o_reconstruct _) as [r|]; [|done]. cbn. destruct Hr. split; [congruence|done].
    + intros f Hf. destruct (Hs f Hf) as [|[Hw Hk]]; [by left|right]. split; [|done]. unfold sm_reconstruct_owed in *. subst s1. cbn.
      by destruct (o_reconstruct _).
  - unfold sm_reconstruct_owed. subst s1. cbn. destruct (o_reconstruct _); [by right|by left].
Qed.

Lemma begin_moved (s s' : Syncing) now from c : bound s -> authentic c = true -> begin_block_sync s now from c = Some s' -> moved s s'.
Proof.
  intros Hb Ha. unfold begin_block_sync. destruct (decode_checkpoint _) as [[[op sm] ss]|] eqn:Hd; [|intros [= <-]; by apply moved_kept, keeps_refl].
  destruct (is_client from); [intros [= <-]; by apply moved_kept, keeps_refl|].
  destruct (transfer_walk_in_flight s) eqn:Ht; [intros [= <-]; by apply moved_kept, aside_keeps|].
  destruct (keeps_crossing s c); [intros [= <-]; by apply moved_kept, keeps_refl|].
  destruct (issue_walk _ _ _) as [s1|] eqn:Hi; [|done]. cbn [mbind option_bind]. intros [= <-].
  eapply moved_aside; [eapply (arm_moved s s1 _ _ _ _ PurposeArm); [apply Hb|done|done| |exact Hi]|apply resolicit_aside]. left. eauto.
Qed.

Lemma recover_begin_moved (s s' : Syncing) from c op sm ss :
  bound s -> authentic c = true -> decode_checkpoint (sc_snapshot c) = Some (op, sm, ss) -> begin_recover_block_sync s from c sm ss = Some s' -> moved s s'.
Proof.
  intros Hb Ha Hd. unfold begin_recover_block_sync. destruct (is_client from).
  { intros [= <-]. apply moved_kept. split; [by destruct Hb|]. left. apply live_set. }
  destruct (transfer_walk_in_flight s) eqn:Ht; [intros [= <-]; by apply moved_kept, aside_keeps|].
  destruct (keeps_crossing s c); [intros [= <-]; by apply moved_kept, keeps_refl|]. intros Hi.
  eapply (arm_moved s s' _ _ _ _ PurposeArm); [apply Hb|done|done| |exact Hi]. left. eauto.
Qed.

Lemma dropped_kept (s s' : Syncing) : restore_bound (sn_keeper s') -> live_fetch s' = None -> moved s s'.
Proof. intros Hr Hl. apply moved_kept. split; [done|by left]. Qed.

Lemma answer_moved (s s' : Syncing) now from c : bound s -> handle_sync_checkpoint s now from c = Some s' -> moved s s'.
Proof.
  intros Hb. assert (moved s s) as Hid by (by apply moved_kept, keeps_refl). unfold handle_sync_checkpoint.
  destruct (negb (is_normal _)); [by intros [= <-]|]. destruct (k_sync _) as [tg|]; [|by intros [= <-]].
  destruct (negb (sc_nonce c =? _)); [by intros [= <-]|]. destruct (durable_write_owed _); [by intros [= <-]|].
  destruct (answers_restore _ c) eqn:Har.
  { destruct (authentic c); [|by intros [= <-]]. apply refetch_moved; [done|]. unfold answers_restore in Har. lia. }
  destruct (_ && negb (st_require_cross_epoch tg)); [by intros [= <-]|]. destruct (negb (st_forced tg) && _); [by intros [= <-]|].
  destruct (sc_checkpoint_op c <=? _); [by intros [= <-]|]. destruct (authentic c) eqn:Ha; cbn [negb]; [|by intros [= <-]].
  destruct (if negb (st_require_cross_epoch tg) && _ then abdicate_if_primary _ now else _) as [p [|]]; [|by apply begin_moved].
  intros [= <-]. apply dropped_kept; [|done]. by destruct Hb.
Qed.

Lemma recover_answer_moved (s s' : Syncing) now from c : bound s -> on_recover_sync_checkpoint s now from c = Some s' -> moved s s'.
Proof.
  intros Hb. assert (moved s s) as Hid by (by apply moved_kept, keeps_refl). unfold on_recover_sync_checkpoint.
  destruct (k_sync _) as [tg|]; [|by intros [= <-]]. destruct (negb (sc_nonce c =? _)); [by intros [= <-]|].
  destruct (durable_write_owed _ || _); [by intros [= <-]|]. destruct (sc_checkpoint_op c <? _); [by intros [= <-]|].
  destruct (_ && negb (st_require_cross_epoch tg)); [by intros [= <-]|]. destruct (authentic c) eqn:Ha; cbn [negb]; [|by intros [= <-]].
  destruct (answers_restore _ c) eqn:Har; [apply refetch_moved; [done|]; unfold answers_restore in Har; lia|].
  destruct (decode_checkpoint _) as [[[op sm] ss]|] eqn:Hd; [|by intros [= <-]].
  destruct (op =? _); [|by intros [= <-]]. by eapply recover_begin_moved.
Qed.

(** The steps a transfer makes on its own: answers, block responses, its timer. *)
Inductive ingress (s s' : Syncing) : Prop :=
| in_answer now from c : handle_sync_checkpoint s now from c = Some s' -> ingress s s'
| in_recover_answer now from c : on_recover_sync_checkpoint s now from c = Some s' -> ingress s s'
| in_redelivered now : redeliver_deferred_pin s now = Some s' -> ingress s s'
| in_response from r : on_block_response s from r = Some s' -> ingress s s'
| in_solicited now : send_request_block s now = Some s' -> ingress s s'
| in_restore_failed now : on_sm_restored wal_status s now None = Some s' -> ingress s s'.

Lemma ingress_moved (s s' : Syncing) : bound s -> ingress s s' -> moved s s'.
Proof.
  intros Hb Hs. assert (moved s s) as Hid by (by apply moved_kept, keeps_refl).
  destruct Hs as [now from c Hs|now from c Hs|now Hs|from r Hs|now Hs|now Hs].
  - by eapply answer_moved.
  - by eapply recover_answer_moved.
  - unfold redeliver_deferred_pin in Hs. destruct (sn_deferred_pin s) as [[from c]|]; [|by injection Hs as <-].
    apply (moved_from s (with_deferred s None)); [done| |by left|done]. assert (bound (with_deferred s None)) by (by apply (bound_same s)).
    destruct (recovering_from_peer _); [by eapply recover_answer_moved|by eapply answer_moved].
  - unfold on_block_response in Hs. destruct (_ && _); [by injection Hs as <-|]. destruct (negb _); [by injection Hs as <-|].
    destruct (durable_write_owed _); [by injection Hs as <-|]. eapply (issue_moved s s'); [done| |exact Hs]. done.
  - unfold send_request_block in Hs. destruct (negb _); [by injection Hs as <-|]. destruct (issue_walk _ _ _) as [s1|] eqn:Hi; [|done].
    cbn [mbind option_bind] in Hs. injection Hs as <-. eapply moved_aside; [eapply (issue_moved s s1 PurposeArq None); done|]. destruct (is_normal _); [apply resolicit_aside|apply aside_refl].
  - unfold on_sm_restored in Hs. destruct (o_reconstruct _) as [r|] eqn:Hr; [|by injection Hs as <-].
    match type of Hs with rearm_sm_reconstruct_retry ?x _ _ = _ => set (s1 := x) in Hs end.
    apply (moved_from s s1); [done| |by right|done]. apply (rearm_moved s1 s' now false); [|done]. destruct Hb as [Hrb Hf]. split.
    + unfold restore_bound in *. rewrite Hr in Hrb. exact Hrb.
    + intros f Hl. destruct (Hf f Hl) as [|[Hw Hc]]; [by left|right]. by split.
Qed.

(** *** A walk comes back *)

(** The endpoint's view of an install: the checkpoint it is of, as its envelope names it. *)
Definition install_of (i : PendingInstall) (c : SyncCheckpoint) : Prop :=
  pi_checkpoint i = c /\ decode_checkpoint (sc_snapshot c) = Some (pi_checkpoint_op i, pi_sm_root i, pi_sessions_root i).

Definition restore_kept (r r' : option SmReconstruct) : Prop :=
  match r, r' with
  | Some r, Some r' => sr_checkpoint_op r' = sr_checkpoint_op r /\ sr_checkpoint r' = sr_checkpoint r
  | None, None => True
  | _, _ => False
  end.

Lemma restore_kept_refl r : restore_kept r r.
Proof. by destruct r. Qed.

(** What the completion of a walk may have changed of what is owed. *)
Definition staged (k k' : Keeper) (c : option SyncCheckpoint) : Prop :=
  (k_pending_install k' = k_pending_install k \/ k_pending_install k' = None \/
   exists i c', c = Some c' /\ k_pending_install k' = Some i /\ install_of i c') /\
  (k_fetch k = None -> k_fetch k' = None) /\ k_checkpoint_op k' = k_checkpoint_op k /\
  restore_kept (o_reconstruct (k_owed k)) (o_reconstruct (k_owed k')).

Lemma staged_refl (k : Keeper) c : staged k k c.
Proof. unfold staged. split; [by left|]. split; [done|]. split; [done|]. apply restore_kept_refl. Qed.

Lemma staged_bound (k k' : Keeper) c : staged k k' c -> restore_bound k -> restore_bound k'.
Proof.
  intros (_ & _ & Hc & Hr). unfold restore_bound, restore_kept in *. rewrite Hc. destruct (o_reconstruct (k_owed k)), (o_reconstruct (k_owed k')); try done.
  by destruct Hr as [-> ->].
Qed.

Lemma job_owed (k k' : Keeper) (m m' : Medium) kind job : issue_block_job k m kind = Some (job, k', m') ->
  k_owed k' = k_owed k /\ k_checkpoint_op k' = k_checkpoint_op k.
Proof.
  unfold issue_block_job, mint. destruct (mint_write_id _) as [[id a]|]; [|done]. cbn [mbind option_bind].
  destruct (enqueue_block_job _ _ _); [|done]. cbn [mbind option_bind]. by intros [= _ <- _].
Qed.

Lemma restore_issued (k k' : Keeper) (m m' : Medium) c : issue_sm_restore k m = Some (k', m') -> staged k k' c.
Proof.
  unfold issue_sm_restore. destruct (o_reconstruct (k_owed k)) as [r|] eqn:Hr; [|intros [= <- _]; apply staged_refl].
  destruct (_ || _); [intros [= <- _]; apply staged_refl|]. destruct (issue_block_job _ _ _) as [[[job k1] m1]|] eqn:Hi; [|done].
  apply job_owed in Hi as [Ho Hc]. cbn [mbind option_bind]. intros [= <- _]. unfold staged, k_pending_install, k_fetch. cbn. rewrite Ho, Hr. by split; [left|].
Qed.

Lemma staging_owed (k k' : Keeper) (m m' : Medium) now : flush_and_stage_install k m now = Some (k', m') ->
  k_pending_install k' = k_pending_install k /\ (k_fetch k = None -> k_fetch k' = None) /\ k_checkpoint_op k' = k_checkpoint_op k /\
  o_reconstruct (k_owed k') = o_reconstruct (k_owed k).
Proof.
  unfold flush_and_stage_install. destruct (k_pending_install k) eqn:Hp; [|by intros [= <- _]]. destruct (_ || _); [by intros [= <- _]|].
  destruct (issue_block_job _ _ _) as [[[job k1] m1]|] eqn:Hi; [|done]. apply job_owed in Hi as [Ho Hc]. cbn [mbind option_bind]. intros [= <- _].
  unfold k_pending_install, k_fetch. cbn. by rewrite Ho.
Qed.

Lemma applied (k k' : Keeper) (m m' : Medium) now donor c : apply_sync k m now donor c = Some (k', m') -> staged k k' (Some c).
Proof.
  unfold apply_sync. destruct (_ && (sc_checkpoint_op c <? _)).
  { intros [= <- _]. destruct (match sy_sync _ with Some t => st_require_cross_epoch t | None => false end); [apply staged_refl|].
    unfold staged. cbn. split; [by right; left|]. split; [done|]. split; [done|]. apply restore_kept_refl. }
  destruct (_ && (sc_checkpoint_op c <=? _)); [done|]. destruct (sc_checkpoint_op c <? _); [intros [= <- _]; apply staged_refl|].
  destruct (decode_checkpoint (sc_snapshot c)) as [[[op sm] ss]|] eqn:Hd; [|intros [= <- _]; apply staged_refl].
  destruct (crossing_successor k m c) as [successor|]; [|intros [= <- _]; apply staged_refl].
  destruct (Z.eqb_spec op (sc_checkpoint_op c)) as [->|]; cbn [negb]; [|intros [= <- _]; apply staged_refl].
  destruct (_ && negb _); [intros [= <- _]; apply staged_refl|]. intros Hf. apply staging_owed in Hf as (Hi & Hk & Hc & Ho).
  unfold staged. rewrite Hi, Hc, Ho. cbn. split; [right; right; eexists _, c; split; [done|]; split; [reflexivity|by split]|]. split; [exact Hk|]. split; [done|]. apply restore_kept_refl.
Qed.

Lemma finalized (k k' : Keeper) : finalize_recovery k = Some k' -> k_owed k' = k_owed k /\ k_checkpoint_op k' = k_checkpoint_op k.
Proof.
  assert (forall ops (k k' : Keeper), drop_faulty ops k = Some k' -> k_owed k' = k_owed k /\ k_checkpoint_op k' = k_checkpoint_op k) as Hd.
  { intros ops. induction ops as [|op ops IH]; intros k0 k1; cbn; [by intros [= <-]|]. destruct (match bt_get _ _ with Some _ => _ | None => _ end); [apply IH|].
    destruct (committed_survives _ _ _); [|done]. intros Hx. by apply IH in Hx. }
  unfold finalize_recovery, drop_faulty_committed_slots. destruct (drop_faulty _ k) as [k1|] eqn:Hx; [|done]. cbn [mbind option_bind].
  destruct (assert_no_faulty_committed_survives k1); [|done]. intros [= <-]. by eapply Hd.
Qed.

Lemma staged_owed (k k1 k2 : Keeper) c : k_owed k1 = k_owed k -> k_checkpoint_op k1 = k_checkpoint_op k -> staged k1 k2 c -> staged k k2 c.
Proof. unfold staged, k_pending_install, k_fetch. by intros -> ->. Qed.

Lemma fetched_staged (s s' : Syncing) now donor c :
  complete_recover_peer_fetch s now donor c = Some s' -> staged (sn_keeper s) (sn_keeper s') (Some c).
Proof.
  unfold complete_recover_peer_fetch. destruct (match k_recover _ with Some _ => _ | None => _ end); [|done].
  destruct (finalize_recovery _) as [k1|] eqn:Hf; [|done]. cbn [mbind option_bind]. apply finalized in Hf as [Ho Hc].
  destruct (apply_sync _ _ _ _ _) as [[k2 m2]|] eqn:Ha; [|done]. cbn [mbind option_bind]. intros [= <-]. by eapply staged_owed, applied.
Qed.

(** A drained transfer is gone, and at most its own checkpoint is staged for install. *)
Lemma drained_staged (s s' : Syncing) now f : live_fetch s = Some f -> on_fetch_drained s now = Some s' ->
  s' = s \/
  (live_fetch s' = None /\
   staged (sn_keeper s) (sn_keeper s')
     (if sm_reconstruct_owed (sn_keeper s) && (sc_checkpoint_op (bf_checkpoint f) =? k_checkpoint_op (sn_keeper s)) then None else Some (bf_checkpoint f))).
Proof.
  intros Hl. unfold on_fetch_drained. rewrite Hl. destruct (durable_write_owed _); [intros [= <-]; by left|].
  assert (forall (s' : Syncing) c, staged (sn_keeper (set_block_fetch s None)) (sn_keeper s') c ->
    live_fetch s' = None /\ staged (sn_keeper s) (sn_keeper s') c) as Hgone.
  { intros s1 c Hs. pose proof Hs as (Hi & Hf & Hc & Hr). split; [unfold live_fetch; by rewrite Hf|]. split; [exact Hi|]. split; [auto|]. by split. }
  destruct (_ && _).
  - destruct (issue_sm_restore _ _) as [[k1 m1]|] eqn:Hi; [|done]. cbn [mbind option_bind]. intros [= <-]. right. apply Hgone. by eapply restore_issued.
  - destruct (recovering_from_peer _).
    + intros Hc. right. apply Hgone. by eapply fetched_staged.
    + destruct (apply_sync _ _ _ _ _) as [[k1 m1]|] eqn:Hi; [|done]. cbn [mbind option_bind]. intros [= <-]. right. apply Hgone. by eapply applied.
Qed.

(** What a completed walk leaves: the transfer idle, asked on or re-solicited, or gone. *)
Record walk_back (s s' : Syncing) (f : BlockFetch) (d : WalkDone) : Prop := {
  wb_bound : restore_bound (sn_keeper s');
  wb_live f' : live_fetch s' = Some f' -> is_some (wd_next d) = true /\ bf_walks f' = WalkIdle (wd_walks d) /\ same_roots f f' /\ sound (sn_keeper s') f';
  wb_install i : k_pending_install (sn_keeper s') = Some i ->
    k_pending_install (sn_keeper s) = Some i \/
    (wd_next d = Some None /\ answered f /\ install_of i (bf_checkpoint f));
}.

Lemma staged_sound (k k' : Keeper) c f : staged k k' c -> sound k f -> sound k' f.
Proof.
  intros (_ & _ & Hc & Hr) [Ha|[Hw Hcp]]; [by left|right]. rewrite Hc. split; [|done]. unfold sm_reconstruct_owed in *.
  destruct (o_reconstruct (k_owed k)); [|done]. by destruct (o_reconstruct (k_owed k')).
Qed.

(** The walks are back with the transfer; whatever else happens is on top of this. *)
Lemma idled_back (s : Syncing) f d : bound s -> live_fetch s = Some f -> forall (s' : Syncing) f',
  live_fetch s' = Some f' -> bf_walks f' = WalkIdle (wd_walks d) -> same_roots f f' -> bf_checkpoint f' = bf_checkpoint f ->
  k_pending_install (sn_keeper s') = k_pending_install (sn_keeper s) -> o_reconstruct (k_owed (sn_keeper s')) = o_reconstruct (k_owed (sn_keeper s)) ->
  k_checkpoint_op (sn_keeper s') = k_checkpoint_op (sn_keeper s) -> is_some (wd_next d) = true -> walk_back s s' f d.
Proof.
  intros [Hr Hs] Hl s' f' Hl' Hw Hro Hck Hi Ho Hc Hn. specialize (Hs f Hl). split.
  - unfold restore_bound. by rewrite Ho, Hc.
  - intros g. rewrite Hl'. intros [= <-]. split_and!; [done..|]. unfold sound, answered, sm_reconstruct_owed in *. rewrite Hck, Ho, Hc. by destruct Hro as [-> ->].
  - intros i. rewrite Hi. by left.
Qed.

Lemma gone_back (s s' : Syncing) f d c : bound s -> live_fetch s' = None -> staged (sn_keeper s) (sn_keeper s') c ->
  (forall c', c = Some c' -> c' = bf_checkpoint f /\ answered f /\ wd_next d = Some None) -> walk_back s s' f d.
Proof.
  intros [Hr _] Hl Hs Hc. split.
  - by eapply staged_bound.
  - intros f'. by rewrite Hl.
  - destruct Hs as ([Hi|[Hi|(i' & c' & Hcc & Hi & Hof)]] & _); intros i; rewrite Hi; [by left|done|]. intros [= <-]. right.
    destruct (Hc c' Hcc) as (-> & ? & ?). done.
Qed.

Lemma walk_back_trans (s s1 s' : Syncing) f d : k_pending_install (sn_keeper s1) = k_pending_install (sn_keeper s) -> walk_back s1 s' f d -> walk_back s s' f d.
Proof. intros Hi [Hb Hl Hx]. split; [done|done|]. by rewrite <- Hi. Qed.

Lemma drained_back (s s' : Syncing) now f d : bound s -> live_fetch s = Some f -> bf_walks f = WalkIdle (wd_walks d) -> wd_next d = Some None ->
  on_fetch_drained s now = Some s' -> walk_back s s' f d.
Proof.
  intros Hb Hl Hw Hn Hd. apply (drained_staged _ _ _ f Hl) in Hd as [->|[Hl' Hs]].
  - apply (idled_back s f d Hb Hl s f); try done. by rewrite Hn.
  - eapply gone_back; [done..|exact Hs|]. intros c'. destruct (_ && _) eqn:Hcase; [done|]. intros [= <-]. split; [done|]. split; [|done].
    destruct Hb as [_ Hf]. destruct (Hf f Hl) as [|[Hw' Hc]]; [done|]. rewrite Hw', Hc, Z.eqb_refl in Hcase. done.
Qed.

Lemma response_back (s s' : Syncing) now from addr present next f d : bound s -> live_fetch s = Some f -> bf_walks f = WalkIdle (wd_walks d) ->
  wd_next d = Some next -> on_response_walked s now from addr present next = Some s' -> walk_back s s' f d.
Proof.
  intros Hb Hl Hw Hn. unfold on_response_walked. rewrite Hl. destruct next as [active|]; [|by apply drained_back].
  assert (walk_back s s f d) as Hid by (apply (idled_back s f d Hb Hl s f); try done; by rewrite Hn).
  destruct present.
  { intros [= <-]. apply (idled_back s f d Hb Hl _ f); try done. by rewrite Hn. }
  destruct (_ || _); [by intros [= <-]|]. destruct (bool_decide _); [by intros [= <-]|]. intros [= <-].
  eapply (idled_back s f d Hb Hl); try done; by rewrite Hn.
Qed.

Lemma live_none (s : Syncing) : k_fetch (sn_keeper s) = None -> live_fetch s = None.
Proof. unfold live_fetch. by intros ->. Qed.

Lemma dropped_staged (s : Syncing) c : staged (sn_keeper s) (sn_keeper (set_block_fetch s None)) c.
Proof. unfold staged. split; [by left|]. split; [done|]. split; [done|]. apply restore_kept_refl. Qed.

Lemma walked_back (s s' : Syncing) now job f d : bound s -> live_fetch s = Some f -> bf_walks f = WalkInFlight job -> of_transfer (wd_purpose d) = true ->
  on_walked s now job d = Some s' -> walk_back s s' f d.
Proof.
  intros Hb Hl Hw Hp. unfold on_walked. rewrite Hl, Hw, bool_decide_eq_true_2 by done. cbn [negb].
  set (f1 := with_walks f (WalkIdle (wd_walks d))). set (s1 := if _ && _ then _ else _).
  assert (live_fetch s1 = Some f1) as Hl1 by (unfold s1; by destruct (_ && _)).
  assert (sn_medium s1 = sn_medium s /\ k_pending_install (sn_keeper s1) = k_pending_install (sn_keeper s) /\
    o_reconstruct (k_owed (sn_keeper s1)) = o_reconstruct (k_owed (sn_keeper s)) /\ k_checkpoint_op (sn_keeper s1) = k_checkpoint_op (sn_keeper s)) as (Hm1 & Hi1 & Ho1 & Hc1)
    by (unfold s1; by destruct (_ && _)).
  assert (bound s1) as Hb1.
  { destruct Hb as [Hr Hs]. specialize (Hs f Hl). unfold bound, restore_bound, sound, sm_reconstruct_owed in *. rewrite Hl1, Ho1, Hc1. split; [done|]. by intros ? [= <-]. }
  clearbody s1. cut (walk_back s1 s' f1 d -> walk_back s s' f d).
  2:{ intros [Hrb Hlv Hins]. split; [done|exact Hlv|]. rewrite <- Hi1. exact Hins. }
  intros Hcut Hx. apply Hcut. clear Hcut.
  destruct (wd_next d) as [next|] eqn:Hn.
  2:{ assert (s' = abort_oversized_block_fetch s1) as -> by (destruct (wd_purpose d); [by injection Hx..|done]).
      eapply (gone_back _ _ _ _ None); [done|apply live_set| |done]. apply dropped_staged. }
  assert (forall addr, next = Some addr -> walk_back s1 (say s1 [(To (bf_donor f), MRequestBlock addr)]) f1 d) as Hsay.
  { intros addr _. apply (idled_back s1 f1 d Hb1 Hl1 _ f1); try done. by rewrite Hn. }
  destruct (wd_purpose d) as [|retry| |from addr present|cp] eqn:Hpu; [..|done]; try (destruct next as [a|]; [injection Hx as <-; by eapply Hsay|]).
  - by eapply drained_back.
  - assert (staged (sn_keeper s1) (sn_keeper (set_block_fetch s1 None)) None) as Hst by apply dropped_staged.
    destruct retry; [|injection Hx as <-; by eapply (gone_back _ _ _ _ None); [|apply live_set| |]].
    unfold retry_sm_reconstruct in Hx. destruct (issue_sm_restore _ _) as [[k2 m2]|] eqn:Hi2; [|done]. cbn [mbind option_bind] in Hx. injection Hx as <-.
    apply (restore_issued _ _ _ _ None) in Hi2. destruct Hi2 as (Hi2 & Hf2 & Hc2 & Hr2).
    eapply (gone_back _ _ _ _ None); [done|by apply live_none, Hf2| |done]. split; [exact Hi2|]. split; [intros _; by apply Hf2|]. by split.
  - by eapply drained_back.
  - by eapply response_back.
Qed.

(** *** Along a transfer's life *)

(** The store is the driver's: it changes as blocks are written and swept, never losing a
    block a live transfer has reached ([put_retains], and [gc_verified] for the sweeps,
    which name the transfer's roots). *)
Definition stands (s : Syncing) (t t' : St) : Prop :=
  forall f, live_fetch s = Some f ->
    retains block_references (bf_sm_root f) t t' /\ retains session_block_references (bf_sessions_root f) t t'.

Inductive transfers : Syncing -> St -> Flying -> Prop :=
| tr_start s t : live_fetch s = None -> restore_bound (sn_keeper s) -> transfers s t None
| tr_other s s' t y : transfers s t y -> keeps s s' -> transfers s' t y
| tr_store s t t' y : transfers s t y -> stands s t t' -> transfers s t' y
| tr_ingress s s' t y : transfers s t y -> ingress s s' -> transfers s' t (flown s s' y)
| tr_executed s t t' job w fetched p d : transfers s t (Some (job, inl (JobWalk w fetched p))) ->
    match fetched with Some (_, bytes) => no_collision t bytes | None => True end ->
    execute_kind (JobWalk w fetched p : Kind) t = Some (Walked d, t') -> transfers s t' (Some (job, inr d))
| tr_walked s s' t now job d : transfers s t (Some (job, inr d)) -> transfer_walk_in_flight s = true -> on_walked s now job d = Some s' ->
    transfers s' t None.

Lemma flight_stands (t t' : St) f y :
  retains block_references (bf_sm_root f) t t' -> retains session_block_references (bf_sessions_root f) t t' -> flight t f y -> flight t' f y.
Proof.
  intros Hr1 Hr2. unfold flight, done_good. destruct (bf_walks f) as [w|job]; [by apply good_retained|].
  destruct y as [[id [[]|d]]|]; try done.
  - intros (-> & Hg & Hp). split_and!; [done|by eapply good_retained|done].
  - intros (-> & Hp & Hd). split; [done|]. split; [done|]. destruct (wd_next d) as [next|]; [|done]. destruct Hd as [Hg Hw].
    split; [by eapply good_retained|]. intros ->. apply (whole_retained t); auto.
Qed.

Lemma in_flight_walk (s : Syncing) (t : St) job d : transfer_inv s t (Some (job, inr d)) -> transfer_walk_in_flight s = true ->
  exists f, live_fetch s = Some f /\ bf_walks f = WalkInFlight job /\ done_good t f d.
Proof.
  intros [_ Hf] Ht. unfold transfer_walk_in_flight in Ht. destruct (live_fetch s) as [f|]; [|done]. exists f. split; [done|].
  specialize (Hf f eq_refl). unfold flight in Hf. destruct (bf_walks f) as [|id]; [done|]. by destruct Hf as [-> ?].
Qed.

Lemma transfers_inv (s : Syncing) (t : St) y : transfers s t y -> transfer_inv s t y.
Proof.
  induction 1 as [s t Hl Hr|s s' t y _ IH Hk|s t t' y _ IH Hs|s s' t y _ IH Hi|s t t' job w fetched p d _ IH Hn He|s s' t now job d _ IH Ht Hw].
  - split; [split; [done|]|]; intros f; by rewrite Hl.
  - split; [by apply (keeps_bound s); [apply IH|]|]. intros f Hf. destruct Hk as [_ [Hl|[Hl _]]]; [congruence|]. rewrite Hl in Hf. by apply IH.
  - split; [apply IH|]. intros f Hf. destruct (Hs f Hf). eapply flight_stands; [done..|]. by apply IH.
  - apply moved_inv; [|done]. apply (ingress_moved s s'); [apply IH|done].
  - split; [apply IH|]. intros f Hf. pose proof (proj2 IH f Hf) as Hy. unfold flight in *.
    destruct (bf_walks f) as [w0|id]; [by eapply good_retained; [eapply walk_retains..|]|]. destruct Hy as (-> & Hg & Hp). split; [done|]. by eapply executed_walk.
  - destruct (in_flight_walk s t job d IH Ht) as (f & Hl & Hf & Hp & Hd). destruct (walked_back s s' now job f d) as [Hrb Hlv _]; [apply IH|done..|].
    split; [split; [done|]; intros f' Hf'; by apply Hlv in Hf' as (_ & _ & _ & ?)|]. intros f' Hf'. apply Hlv in Hf' as (Hn & Hwf & Hro & _).
    unfold flight. rewrite Hwf. destruct (wd_next d); [|done]. destruct Hd as [Hg _]. by eapply good_same.
Qed.

(** C31. A checkpoint is installed only whole: along any life of a transfer, with answers,
    block responses and superseded walks in any order and a store that other jobs write
    and sweep meanwhile, what a completed walk stages for install is an envelope that
    hashes to its id and names the very op and roots staged, and every block either root
    reaches is then held intact. *)
Theorem installs_fetched_whole (s : Syncing) (t : St) job d now s' i :
  transfers s t (Some (job, inr d)) -> transfer_walk_in_flight s = true -> on_walked s now job d = Some s' ->
  k_pending_install (sn_keeper s') = Some i ->
  k_pending_install (sn_keeper s) = Some i \/
  (checkpoint_id (sc_snapshot (pi_checkpoint i)) = sc_checkpoint_id (pi_checkpoint i) /\
   decode_checkpoint (sc_snapshot (pi_checkpoint i)) = Some (pi_checkpoint_op i, pi_sm_root i, pi_sessions_root i) /\
   (forall a, reaches block_references t (pi_sm_root i) a -> is_Some (read_verified_block t a)) /\
   (forall a, reaches session_block_references t (pi_sessions_root i) a -> is_Some (read_verified_block t a))).
Proof.
  intros Htr Ht Hw Hi. pose proof (transfers_inv s t _ Htr) as Hinv. destruct (in_flight_walk s t job d Hinv Ht) as (f & Hl & Hf & Hp & Hd).
  destruct (walked_back s s' now job f d) as [_ _ Hins]; [apply Hinv|done..|]. destruct (Hins i Hi) as [|(Hn & [Ha (op & Hdec)] & Hc & Hdec')]; [by left|right].
  rewrite Hc in *. pose proof Hdec' as Hroots. rewrite Hdec in Hroots. injection Hroots as _ Hsm Hss. rewrite Hn in Hd.
  split; [unfold authentic in Ha; lia|]. split; [exact Hdec'|]. rewrite <- Hsm, <- Hss. by apply Hd.
Qed.
End transfers.

(** ** What a donor answers *)

Section serving.
Context {S Image W B : Type} `{StateMachine S Image} `{Wal W} `{Superblock B}.
#[local] Abbreviation Keeper := (@Keeper S).
#[local] Abbreviation Medium := (@Medium W B S Image (gmap Z Session) BlockWalks).
#[local] Abbreviation Endpoint := (@Endpoint S Image W B BlockWalks).

Definition serving (b : Endpoint) : list (Peer * (Z * Z)) := o_serving (k_owed (ep_keeper b)).

(** What an answer owes its requester. *)
Record truthful (k : Keeper) (m : Medium) (nonce : Z) (c : SyncCheckpoint) : Prop := {
  tf_settled : k_status k = Normal /\ pending_durable_view k = false;
  tf_nonce : sc_nonce c = nonce;
  tf_view : sc_view c = k_view k /\ sc_epoch c = m_epoch (k_membership k) /\ sc_config_id c = m_config_id (k_membership k);
  tf_checkpoint : sc_checkpoint_op c = k_checkpoint_op k /\ checkpoint_id (sc_snapshot c) = sc_checkpoint_id c /\ sc_checkpoint_id c = v_checkpoint_id (sb_state (sb m));
  tf_membership : match sc_config_install_op c with
                  | None => sc_membership c = []
                  | Some op => op = ch_install_op (k_config k) /\ op <= sc_checkpoint_op c /\
                      exists prev, head (ch_lineage (k_config k)) = Some prev /\ sc_membership c = encode_body (from_membership (k_membership k) prev)
                  end;
}.

Lemma answer_truthful (k : Keeper) (m : Medium) op nonce snapshot c :
  negb (is_normal (k_status k)) || pending_durable_view k = false -> op = k_checkpoint_op k ->
  checkpoint_id snapshot = v_checkpoint_id (sb_state (sb m)) -> sync_answer k op nonce snapshot = Some c -> truthful k m nonce c.
Proof.
  intros [Hn Hv]%orb_false_iff Hop Hck. unfold sync_answer, served_membership.
  assert (k_status k = Normal) as Hs by (by destruct (k_status k)).
  destruct (Z.leb_spec (ch_install_op (k_config k)) (k_checkpoint_op k)) as [Hle|Hlt].
  - destruct (head (ch_lineage _)) as [prev|] eqn:Hprev; [|done]. cbn [mbind option_bind]. destruct (local_slot_opt _ _) as [slot|]; [|done].
    cbn [mbind option_bind]. intros [= <-]. constructor; try done. cbn [sc_config_install_op sc_checkpoint_op sc_membership].
    destruct (encode_body _) as [|x l] eqn:He; [done|]. split; [done|]. split; [lia|]. by exists prev.
  - cbn [mbind option_bind]. destruct (local_slot_opt _ _) as [slot|]; [|done]. cbn [mbind option_bind]. intros [= <-]. by constructor.
Qed.

(** ** The life of the serving table *)

(** The requests a donor takes up, whatever its table holds. *)
Definition heard (k : Keeper) (from : Peer) (q : RequestSync) : bool :=
  is_normal (k_status k) && (negb (sm_reconstruct_owed k) || rs_recovery q) && may_be_served k from && negb (k_checkpoint_op k =? 0)
  && (if rs_recovery q then rs_checkpoint_op q <=? k_checkpoint_op k else rs_checkpoint_op q <? k_checkpoint_op k).

Lemma request_heard (b : Endpoint) from q : on_request_sync b from q =
  if heard (ep_keeper b) from q then km ← submit_or_refresh_serve (ep_keeper b) (ep_medium b) from (rs_nonce q); Some (put b km) else Some b.
Proof.
  unfold on_request_sync, heard. cbv zeta. destruct (is_normal _), (sm_reconstruct_owed _), (rs_recovery q), (may_be_served _ from), (_ =? 0); cbn; try done;
    by match goal with |- context [negb ?c] => destruct c end.
Qed.

(** An endpoint with every request it took up, the last first; other handlers at most
    strike requesters off. *)
Inductive answering : Endpoint -> list (Peer * Z) -> Prop :=
| sv_start b : serving b = [] -> answering b []
| sv_asked b asked from q b' : answering b asked -> on_request_sync b from q = Some b' ->
    answering b' (if heard (ep_keeper b) from q then (from, rs_nonce q) :: asked else asked)
| sv_read b asked id op snapshot b' : answering b asked -> serve_sync_checkpoint b id op snapshot = Some b' -> answering b' asked
| sv_other b asked b' f : answering b asked -> serving b' = List.filter f (serving b) -> answering b' asked.

Definition last_nonce (asked : list (Peer * Z)) (p : Peer) : option Z := snd <$> head (List.filter (fun x => bool_decide (x.1 = p)) asked).

Definition members (l : list (Peer * (Z * Z))) : list (Peer * (Z * Z)) := List.filter (fun s => is_member_peer s.1) l.

Record table_ok (l : list (Peer * (Z * Z))) : Prop := {
  tb_once : NoDup (map fst l);
  tb_members : (length (members l) <= QUARANTINE_SERVE_LIMIT)%nat;
  tb_peers : Forall (fun s => is_client s.1 = false) l;
}.

Lemma filtered_ok f l : table_ok l -> table_ok (List.filter f l).
Proof.
  intros [Hn Hm Hp]. split.
  - clear Hm Hp. induction l as [|x l IH]; [done|]. cbn in Hn |- *. apply NoDup_cons in Hn as [Hx Hn]. destruct (f x); [|by apply IH].
    cbn. apply NoDup_cons. split; [|by apply IH]. intros Hin. apply Hx. apply list_elem_of_In, in_map_iff in Hin as (z & <- & Hz%filter_In).
    apply list_elem_of_In, in_map, Hz.
  - etransitivity; [|exact Hm]. clear. unfold members. induction l as [|x l IH]; [done|]. cbn. destruct (f x), (is_member_peer x.1) eqn:Hx; cbn; rewrite ?Hx; cbn; lia.
  - apply Forall_forall. intros x Hx%list_elem_of_In%filter_In. rewrite Forall_forall in Hp. apply Hp, list_elem_of_In, Hx.
Qed.

Lemma refreshed_ok requester nonce l :
  table_ok l -> table_ok (map (fun s => if bool_decide (s.1 = requester) then (s.1, (s.2.1, nonce)) else s) l).
Proof.
  set (g := fun s : Peer * (Z * Z) => _). assert (forall s, (g s).1 = s.1) as Hg by (intros s; unfold g; by case_bool_decide).
  intros [Hn Hm Hp]. split.
  - rewrite map_map. erewrite map_ext; [exact Hn|done].
  - assert (length (members (map g l)) = length (members l)) as ->; [|done]. clear -Hg. unfold members.
    induction l as [|x l IH]; [done|]. cbn. rewrite Hg. destruct (is_member_peer x.1); cbn; congruence.
  - apply Forall_forall. intros x Hx%list_elem_of_In%in_map_iff. destruct Hx as (z & <- & Hz). rewrite Hg. rewrite Forall_forall in Hp. by apply Hp, list_elem_of_In.
Qed.

Lemma asked_ok (k k' : Keeper) (m m' : Medium) from nonce : may_be_served k from = true -> table_ok (o_serving (k_owed k)) ->
  submit_or_refresh_serve k m from nonce = Some (k', m') -> table_ok (o_serving (k_owed k')).
Proof.
  intros Hp Hok. unfold submit_or_refresh_serve. destruct (existsb _ _) eqn:He; [intros [= <- _]; by apply refreshed_ok|].
  destruct (is_member_peer from && _) eqn:Hl; [by intros [= <- _]|]. unfold mint. destruct (mint_write_id _) as [[id a]|]; [|done].
  cbn [mbind option_bind]. intros [= <- _]. cbn. destruct Hok as [Hn Hm Hc]. split.
  - rewrite map_app. apply NoDup_app. split; [done|]. split; [|apply NoDup_singleton]. cbn. intros x Hx ->%list_elem_of_singleton.
    apply list_elem_of_In, in_map_iff in Hx as (z & Hz & Hin). assert (existsb (fun s => bool_decide (s.1 = from)) (o_serving (k_owed k)) = true) as Ht; [|congruence].
    apply existsb_exists. exists z. split; [done|]. by apply bool_decide_eq_true.
  - unfold members in *. rewrite List.filter_app, length_app. cbn [List.filter fst]. destruct (is_member_peer from) eqn:Hmem; cbn [length]; [|lia].
    cbn [andb] in Hl. apply Nat.leb_gt in Hl. lia.
  - apply Forall_app. split; [done|]. apply Forall_singleton. by destruct from.
Qed.

(** A request that is taken up submits at most one read, and only for a requester that
    has none. *)
Definition asked_once (b : Endpoint) (from : Peer) (nonce : Z) (b' : Endpoint) : Prop :=
  (ep_medium b' = ep_medium b /\ map fst (serving b') = map fst (serving b)) \/
  (exists id, from ∉ map fst (serving b) /\ ep_medium b' = submit_checkpoint_read (ep_medium b) id /\ serving b' = serving b ++ [(from, (id.2, nonce))]).

(** What a request does to the table. *)
Lemma submit_or_refresh_spec (k k' : Keeper) (m m' : Medium) from nonce : submit_or_refresh_serve k m from nonce = Some (k', m') ->
  let l := o_serving (k_owed k) in let l' := o_serving (k_owed k') in
  (from ∈ map fst l /\ m' = m /\ l' = map (fun s => if bool_decide (s.1 = from) then (s.1, (s.2.1, nonce)) else s) l) \/
  (from ∉ map fst l /\ ((m' = m /\ l' = l) \/ exists id, m' = submit_checkpoint_read m id /\ l' = l ++ [(from, (id.2, nonce))])).
Proof.
  cbv zeta. unfold submit_or_refresh_serve. destruct (existsb _ _) eqn:He.
  - intros [= <- <-]. left. apply existsb_exists in He as (x & Hx & Hf%bool_decide_eq_true). split; [|done].
    apply list_elem_of_In, in_map_iff. by exists x.
  - assert (from ∉ map fst (o_serving (k_owed k))) as Hn.
    { intros (x & Hf & Hx)%list_elem_of_In%in_map_iff. assert (existsb (fun s => bool_decide (s.1 = from)) (o_serving (k_owed k)) = true) as Ht; [|congruence].
      apply existsb_exists. exists x. split; [done|]. by apply bool_decide_eq_true. }
    destruct (is_member_peer from && _); [intros [= <- <-]; right; split; [exact Hn|by left]|].
    unfold mint. destruct (mint_write_id _) as [[id a]|]; [|done]. cbn [mbind option_bind]. intros [= <- <-]. right. split; [exact Hn|]. right. by exists id.
Qed.

Lemma refreshed_peers from nonce (l : list (Peer * (Z * Z))) : map fst (map (fun s => if bool_decide (s.1 = from) then (s.1, (s.2.1, nonce)) else s) l) = map fst l.
Proof. rewrite map_map. apply map_ext. intros s. by case_bool_decide. Qed.

Lemma request_once (b : Endpoint) from q b' : on_request_sync b from q = Some b' -> asked_once b from (rs_nonce q) b'.
Proof.
  rewrite request_heard. destruct (heard _ _ _); [|intros [= <-]; by left]. destruct (submit_or_refresh_serve _ _ _ _) as [[k1 m1]|] eqn:Hs; [|done].
  cbn [mbind option_bind]. intros [= <-]. apply submit_or_refresh_spec in Hs as [(_ & -> & Hl)|(Hn & [[-> Hl]|(id & -> & Hl)])]; unfold asked_once, serving; cbn; rewrite Hl.
  - left. split; [done|]. apply refreshed_peers.
  - by left.
  - right. by exists id.
Qed.

Lemma last_nonce_other asked p p' n : p' <> p -> last_nonce ((p', n) :: asked) p = last_nonce asked p.
Proof. intros Hp. unfold last_nonce. cbn. by rewrite bool_decide_eq_false_2. Qed.

Lemma last_nonce_own asked p n : last_nonce ((p, n) :: asked) p = Some n.
Proof. unfold last_nonce. cbn. by rewrite bool_decide_eq_true_2. Qed.

Definition nonces_last (l : list (Peer * (Z * Z))) (asked : list (Peer * Z)) : Prop := forall p read n, (p, (read, n)) ∈ l -> last_nonce asked p = Some n.

(** Every entry stands for the last request taken up from its requester. *)
Lemma asked_last (b : Endpoint) asked from q b' : nonces_last (serving b) asked -> on_request_sync b from q = Some b' ->
  nonces_last (serving b') (if heard (ep_keeper b) from q then (from, rs_nonce q) :: asked else asked).
Proof.
  intros Hl. rewrite request_heard. destruct (heard _ _ _); [|by intros [= <-]]. destruct (submit_or_refresh_serve _ _ _ _) as [[k1 m1]|] eqn:Hs; [|done].
  cbn [mbind option_bind]. intros [= <-]. assert (forall p read n, (p, (read, n)) ∈ serving b -> p <> from -> last_nonce ((from, rs_nonce q) :: asked) p = Some n) as Ho.
  { intros p read n Hin Hp. rewrite last_nonce_other by done. by eapply Hl. }
  apply submit_or_refresh_spec in Hs as [(_ & -> & Ht)|(Hn & Ht)]; intros p read n Hin; unfold serving in Hin; cbn in Hin.
  - rewrite Ht in Hin. apply list_elem_of_In, in_map_iff in Hin as ([p0 [r0 n0]] & He & Hin%list_elem_of_In). cbn in He. case_bool_decide as Hp.
    + injection He as -> <- <-. subst. apply last_nonce_own.
    + injection He as -> -> ->. by eapply Ho.
  - assert ((p, (read, n)) ∈ serving b \/ (p = from /\ n = rs_nonce q)) as [Hin'|[-> ->]].
    { destruct Ht as [[_ Ht]|(id & _ & Ht)]; rewrite Ht in Hin; [by left|]. apply elem_of_app in Hin as [?|Hin%list_elem_of_singleton]; [by left|]. right. by injection Hin. }
    + eapply Ho; [exact Hin'|]. intros ->. apply Hn. apply list_elem_of_In, in_map_iff. exists (from, (read, n)). split; [done|]. by apply list_elem_of_In.
    + apply last_nonce_own.
Qed.

(** The requester whose read completed is struck off. *)
Definition struck (b b' : Endpoint) (to : Peer) : Prop := forall r, r ∈ serving b' <-> r ∈ serving b /\ r.1 <> to.

Lemma served_filters (b : Endpoint) id op snapshot b' : serve_sync_checkpoint b id op snapshot = Some b' -> exists f, serving b' = List.filter f (serving b).
Proof.
  unfold serve_sync_checkpoint, serving. destruct (list_find _ _) as [[i [to [read nonce]]]|]; [|intros [= <-]; exists (fun _ => true)].
  - intros Hr. exists (fun s => negb (bool_decide (s.1 = to))). repeat (case_match; [by injection Hr as <-|]).
    destruct (sync_answer _ _ _ _); [|done]. cbn [mbind option_bind] in Hr. by injection Hr as <-.
  - symmetry. apply List.forallb_filter_id. by apply forallb_forall.
Qed.

Lemma answering_ok (b : Endpoint) asked : answering b asked -> table_ok (serving b) /\ nonces_last (serving b) asked.
Proof.
  assert (forall f l l' asked, table_ok l /\ nonces_last l asked -> l' = List.filter f l -> table_ok l' /\ nonces_last l' asked) as Hfilter.
  { intros f l l' a [Ht Hl] ->. split; [by apply filtered_ok|]. intros p read n Hin%list_elem_of_In%filter_In. apply (Hl p read n), list_elem_of_In, Hin. }
  intros Hs. induction Hs as [b He|b asked from q b' _ [IH Hl] Hq|b asked id op snapshot b' _ IH Hr|b asked b' f _ IH Hf].
  - split; [rewrite He; split; [constructor|cbn; lia|constructor]|]. rewrite He. intros p read n Hin. by apply elem_of_nil in Hin.
  - split; [|by eapply asked_last]. rewrite request_heard in Hq. destruct (heard _ _ _) eqn:Hh; [|by injection Hq as <-].
    destruct (submit_or_refresh_serve _ _ _ _) as [[k1 m1]|] eqn:Hsub; [|done]. cbn [mbind option_bind] in Hq. injection Hq as <-. eapply asked_ok; [|exact IH|exact Hsub].
    unfold heard in Hh. rewrite !andb_true_iff in Hh. apply Hh.
  - apply served_filters in Hr as [f Hf]. by eapply Hfilter.
  - by eapply Hfilter.
Qed.

(** C32. A donor answers for its durable checkpoint or not at all: the completion of a
    checkpoint read that no requester waits for does nothing; one that is waited for
    sends at most one message, to the requester the read was submitted for and under the
    nonce of the last request taken up from it, and what it sends is the envelope whose
    hash the durable root names, at the checkpoint the endpoint stands on, from a normal
    status in a durably entered view, with its configuration only if the checkpoint is
    not below the op that installed it; and answered or not, the request is then
    forgotten. *)
Theorem donor_answers_durable (b : Endpoint) asked id op snapshot b' :
  answering b asked -> serve_sync_checkpoint b id op snapshot = Some b' ->
  (b' = b /\ forall to nonce, (to, (id.2, nonce)) ∉ serving b) \/
  exists to nonce, (to, (id.2, nonce)) ∈ serving b /\ last_nonce asked to = Some nonce /\ struck b b' to /\
    (ep_sent b' = ep_sent b \/
     exists c, is_client to = false /\ ep_sent b' = ep_sent b ++ [(To to, MSyncCheckpoint c)] /\ truthful (ep_keeper b) (ep_medium b) nonce c).
Proof.
  intros [_ Hlast]%answering_ok. unfold serve_sync_checkpoint. fold (serving b).
  destruct (list_find _ (serving b)) as [[i [to [read nonce]]]|] eqn:Hf.
  2:{ intros [= <-]. left. split; [done|]. intros to nonce Hin. apply list_find_None in Hf. rewrite Forall_forall in Hf. by apply (Hf _ Hin). }
  apply list_find_Some in Hf as (Hi & Hid & _). cbn in Hid. subst read. apply list_elem_of_lookup_2 in Hi.
  set (k1 := with_owed _ _). assert (forall out, struck b (send (set_keeper b k1) out) to) as Hstruck.
  { intros out r. unfold serving. cbn. rewrite !list_elem_of_In, filter_In. unfold serving. case_bool_decide; split; intros [? ?]; done. }
  assert (forall x : Endpoint, Some (set_keeper b k1) = Some x -> struck b x to /\ ep_sent x = ep_sent b) as Hsilent.
  { intros x [= <-]. split; [|done]. exact (Hstruck []). }
  intros Hx. right. exists to, nonce. split; [exact Hi|]. split; [by eapply Hlast|].
  destruct (negb (is_normal _) || pending_durable_view k1) eqn:Hst; [apply Hsilent in Hx as [? ?]; by auto|].
  destruct (may_be_served k1 to) eqn:Hm; cbn [negb] in Hx; [|apply Hsilent in Hx as [? ?]; by auto].
  destruct (Z.eqb_spec op (k_checkpoint_op k1)) as [Hop|]; cbn [negb] in Hx; [|apply Hsilent in Hx as [? ?]; by auto].
  change (ep_medium (set_keeper b k1)) with (ep_medium b) in Hx.
  destruct (Z.eqb_spec (checkpoint_id snapshot) (v_checkpoint_id (sb_state (sb (ep_medium b))))) as [Hck|Hne].
  2:{ apply Hsilent in Hx as [? ?]; by auto. }
  cbn [negb] in Hx. destruct (sync_answer k1 op nonce snapshot) as [c|] eqn:Ha; [|done].
  cbn [mbind option_bind] in Hx. injection Hx as <-. split; [apply Hstruck|right]. exists c. split; [by destruct to|]. split; [done|].
  destruct (answer_truthful k1 (ep_medium b) op nonce snapshot c Hst Hop Hck Ha). by constructor.
Qed.


(** C33. A donor's work is bounded whatever it is asked: along any sequence of requests and
    answers its table has at most one entry per requester, at most eight for quarantined
    members and none for a client; a request submits at most one checkpoint read to the
    superblock, exactly when it adds the entry that waits for it, so never for a requester
    that has one; and a request for a block never trips the lane's own bound, which
    fail-stops.  (A reset that clears the table forgets reads that are still out; their
    completions then find nobody waiting.) *)
Theorem serving_bounded (b : Endpoint) asked : answering b asked ->
  NoDup (map fst (serving b)) /\ (length (members (serving b)) <= QUARANTINE_SERVE_LIMIT)%nat /\ Forall (fun s => is_client s.1 = false) (serving b) /\
  (forall from q b', on_request_sync b from q = Some b' -> asked_once b from (rs_nonce q) b') /\
  forall from addr, is_Some (mint (ep_keeper b)) -> exists b', on_request_block b from addr = Some b'.
Proof.
  intros [[Hn Hm Hp] _]%answering_ok. split_and!; [done..|apply request_once|]. intros from addr [[id k] Hmint]. unfold on_request_block, issue_block_job. destruct (is_client from); [eauto|].
  destruct (Nat.leb_spec MAX_OUTSTANDING_BLOCK_SERVES (serves_outstanding (lane (ep_medium b)))) as [|Hlt]; [eauto|]. rewrite Hmint. cbn [mbind option_bind].
  unfold serves_outstanding in Hlt. unfold enqueue_block_job, enqueue. cbn [tag job_kind kind_tag singleton]. rewrite (proj2 (Nat.ltb_lt _ _) Hlt). cbn. eauto.
Qed.
End serving.
