(* ===== verification/Fetches.v ===== *)
(** * A transfer, played out

    A backup on the ring of [MediumDemo] that pulls a checkpoint of two blocks from its
    primary, holding one of them already, and a donor that answers a request: the runs
    show that the hypotheses of the theorems of [Fetch] can hold. *)

From S2P Require Import Prelude Core Hash Membership Codec Message Messages BTree ViewChange Votes Sessions Normal Storage Lane Blocks SessionBlocks BlockJobs Medium Appends Repair SyncTrigger Roots Prepares Views Lifetimes Rounds Recover Fetch.

Module Fetches.
Import MediumDemo Lifetimes Rounds.
#[local] Existing Instance one_cell.

#[local] Abbreviation Keeper := (@Keeper (list byte)).
#[local] Abbreviation Medium := (@Medium RingWal OneWriter (list byte) (list byte) (gmap Z Session) BlockWalks).
#[local] Abbreviation Endpoint := (@Endpoint (list byte) (list byte) RingWal OneWriter BlockWalks).
#[local] Abbreviation Syncing := (@Syncing (list byte) (list byte) RingWal OneWriter).
#[local] Abbreviation Flying := (@Flying (list byte) (list byte)).

Definition image : list byte := [x68; x69].
Definition graph : BlockAddress * InMemoryBlockStore := encode_sessions ∅ (mkInMemory ∅ 0).
Definition envelope : list byte := encode_checkpoint 8 (block_address image) graph.1.

(** A backup that asked for a checkpoint at 8. *)
Definition lagging : option Syncing :=
  match recover_baseline no_header (mkConfig 2 2 3 64) first [x68] syncer 2 (medium_new (mkRingWal ∅ [] ∅) (mkOneWriter formatted [] ∅)) with
  | Ok (RecoveredActive k, m) => Some (mkSyncing (mkEndpoint (k_maybe_request_sync (served k 0) 0 8) m []) None None ∅)
  | _ => None
  end.

Definition answer (s : Syncing) : SyncCheckpoint :=
  mkSyncCheckpoint 0 8 (checkpoint_id envelope) 1 77 0 (match k_sync (sn_keeper s) with Some t => st_nonce t | None => 0 end) envelope [] None.

(** The driver runs the walk in flight and settles it. *)
Definition walked (s : Syncing) (y : Flying) (t : InMemoryBlockStore) : option (Syncing * JobId * WalkDone * InMemoryBlockStore) :=
  match y with
  | Some (job, inl (JobWalk w fetched p)) =>
      match execute_kind (JobWalk w fetched p : @BlockJobKind (list byte) (list byte) (gmap Z Session) BlockWalks) t with
      | Some (Walked d, t') =>
          m ← settle_block_job (sn_medium s) (mkBlockJobDone job TagWalk);
          Some (at_endpoint s (put (sn_endpoint s) (sn_keeper s, m)), job, d, t')
      | _ => None
      end
  | _ => None
  end.

Definition takes (y : Flying) (t : InMemoryBlockStore) : bool :=
  match y with
  | Some (_, inl (JobWalk _ (Some (_, bytes)) _)) => negb (is_some (read_verified_block t (block_address bytes)))
  | Some (_, inl (JobWalk _ None _)) => true
  | _ => false
  end.

Definition pulls (s0 : option Syncing) : bool :=
  match s0 with
  | None => false
  | Some s0 =>
      negb (is_some (live_fetch s0)) && negb (sm_reconstruct_owed (sn_keeper s0)) &&
      match handle_sync_checkpoint s0 0 (PeerReplica 0) (answer s0) with
      | None => false
      | Some s1 =>
          negb (transfer_walk_in_flight s0) && takes (queued s1) graph.2 &&
          match walked s1 (queued s1) graph.2 with
          | None => false
          | Some (s2, job1, d1, t1) =>
              transfer_walk_in_flight s2 &&
              match on_walked s2 0 job1 d1 with
              | None => false
              | Some s3 =>
                  negb (transfer_walk_in_flight s3) &&
                  match on_block_response s3 (PeerReplica 0) (mkBlockResponse (block_address image) (Some image)) with
                  | None => false
                  | Some s4 =>
                      takes (queued s4) t1 &&
                      match walked s4 (queued s4) t1 with
                      | None => false
                      | Some (s5, job2, d2, t2) =>
                          transfer_walk_in_flight s5 && negb (is_some (k_pending_install (sn_keeper s5))) &&
                          match on_walked s5 0 job2 d2 with
                          | Some s6 => is_some (k_pending_install (sn_keeper s6))
                          | None => false
                          end
                      end
                  end
              end
          end
      end
  end.

#[local] Abbreviation transfers := (transfers (St := InMemoryBlockStore) ring_status).

Lemma walked_transfers (s s' : Syncing) y t job d t' : transfers s t y -> takes y t = true -> walked s y t = Some (s', job, d, t') ->
  transfers s' t' (Some (job, inr d)).
Proof.
  intros Htr Ht. unfold walked. destruct y as [[job0 [[| | | | |w fetched p]|]]|]; try discriminate.
  destruct (execute_kind _ t) as [[[| | | | |d0] t0]|] eqn:He; try discriminate. destruct (settle_block_job _ _) as [m|]; [|discriminate].
  cbn [mbind option_bind]. intros Hx. assert (Hr : restore_bound (sn_keeper s)) by apply (transfers_inv ring_status s t _ Htr).
  apply (f_equal (fun x => match x with Some (a, b, c, e) => (a, b, c, e) | None => (s, job0, d0, t0) end)) in Hx.
  pose proof (f_equal (fun x => x.1.1.1) Hx) as Hs. pose proof (f_equal (fun x => x.1.1.2) Hx) as Hj. pose proof (f_equal (fun x => x.1.2) Hx) as Hd.
  pose proof (f_equal (fun x => x.2) Hx) as Hst. cbn in Hs, Hj, Hd, Hst. rewrite <- Hs, <- Hj, <- Hd, <- Hst.
  apply (tr_other ring_status s); [|split; [exact Hr|right; split; [reflexivity|intros ?; split; [assumption|reflexivity]]]].
  eapply tr_executed; [exact Htr| |exact He]. destruct fetched as [[addr bytes]|]; [|exact I].
  unfold takes in Ht. intros b Hb. rewrite Hb in Ht. discriminate Ht.
Qed.

Lemma pulls_spec s0 : pulls s0 = true -> exists (s s' : Syncing) t job d i,
  transfers s t (Some (job, inr d)) /\ transfer_walk_in_flight s = true /\ on_walked s 0 job d = Some s' /\
  k_pending_install (sn_keeper s) = None /\ k_pending_install (sn_keeper s') = Some i.
Proof.
  unfold pulls. destruct s0 as [s0|]; [|discriminate]. intros [[Hl Hw]%andb_true_iff Hx]%andb_true_iff.
  destruct (handle_sync_checkpoint s0 0 _ _) as [s1|] eqn:H1; [|discriminate Hx]. apply andb_true_iff in Hx as [[Hf1 Ht1]%andb_true_iff Hx].
  destruct (walked s1 _ _) as [[[[s2 job1] d1] t1]|] eqn:Hw1; [|discriminate Hx]. apply andb_true_iff in Hx as [Hf2 Hx].
  destruct (on_walked s2 0 job1 d1) as [s3|] eqn:H3; [|discriminate Hx]. apply andb_true_iff in Hx as [Hf3 Hx].
  destruct (on_block_response s3 _ _) as [s4|] eqn:H4; [|discriminate Hx]. apply andb_true_iff in Hx as [Ht4 Hx].
  destruct (walked s4 _ _) as [[[[s5 job2] d2] t2]|] eqn:Hw2; [|discriminate Hx]. apply andb_true_iff in Hx as [[Hf5 Hi5]%andb_true_iff Hx].
  destruct (on_walked s5 0 job2 d2) as [s6|] eqn:H6; [|discriminate Hx].
  assert (T0 : transfers s0 graph.2 None).
  { apply tr_start; [by destruct (live_fetch s0)|]. unfold restore_bound, sm_reconstruct_owed in *. by destruct (o_reconstruct _). }
  assert (T1 : transfers s1 graph.2 (queued s1)).
  { pose proof (tr_ingress ring_status s0 s1 _ _ T0 (in_answer ring_status s0 s1 _ _ _ H1)) as T. unfold flown in T. by destruct (transfer_walk_in_flight s0). }
  pose proof (walked_transfers _ _ _ _ _ _ _ T1 Ht1 Hw1) as T2. pose proof (tr_walked ring_status s2 s3 t1 0 job1 d1 T2 Hf2 H3) as T3.
  assert (T4 : transfers s4 t1 (queued s4)).
  { pose proof (tr_ingress ring_status s3 s4 _ _ T3 (in_response ring_status s3 s4 _ _ H4)) as T. unfold flown in T. by destruct (transfer_walk_in_flight s3). }
  pose proof (walked_transfers _ _ _ _ _ _ _ T4 Ht4 Hw2) as T5. destruct (k_pending_install (sn_keeper s6)) as [i|] eqn:Hi; [|discriminate Hx].
  exists s5, s6, t2, job2, d2, i. split_and!; [exact T5|exact Hf5|exact H6| |exact Hi]. by destruct (k_pending_install (sn_keeper s5)).
Qed.

Lemma lagging_pulls : pulls lagging = true.
Proof. vm_compute. reflexivity. Qed.

Lemma installs_fetched_whole_witness :
  exists (s s' : Syncing) t job d i, on_walked s 0 job d = Some s' /\ k_pending_install (sn_keeper s) = None /\ k_pending_install (sn_keeper s') = Some i /\
    checkpoint_id (sc_snapshot (pi_checkpoint i)) = sc_checkpoint_id (pi_checkpoint i) /\
    forall a, reaches session_block_references t (pi_sessions_root i) a -> is_Some (read_verified_block (t : InMemoryBlockStore) a).
Proof.
  destruct (pulls_spec _ lagging_pulls) as (s & s' & t & job & d & i & Ht & Hf & Hw & Hn & Hi). exists s, s', t, job, d, i.
  destruct (installs_fetched_whole ring_status s t job d 0 s' i Ht Hf Hw Hi) as [Ho|(Ha & _ & _ & Hs)]; [congruence|].
  split; [exact Hw|]. split; [exact Hn|]. split; [exact Hi|]. split; [exact Ha|exact Hs].
Defined.

(** ** A donor *)

(** One that stands on its checkpoint at 8, asked by a backup and by a quarantined member. *)
Definition root8 : VsrState := mkVsrState 0 0 8 8 (checkpoint_id envelope) [] 1 0 (Some first) [] 0 8 3 ring.

Definition opened : option Endpoint :=
  match recover_baseline no_header (mkConfig 1 2 3 64) first [x68] syncer 2 (medium_new (mkRingWal ∅ [] ∅) (mkOneWriter root8 [] ∅)) with
  | Ok (RecoveredActive k, m) => Some (mkEndpoint (with_owed (served k 8) (set_serving (k_owed (served k 8)) [])) m [])
  | _ => None
  end.

Definition ask_all (b : Endpoint) : option Endpoint :=
  b ← on_request_sync b (PeerReplica 2) (mkRequestSync 0 0 2 5 false 77);
  b ← on_request_sync b (PeerMember 9) (mkRequestSync 0 0 2 6 false 77);
  on_request_sync b (PeerReplica 2) (mkRequestSync 0 0 2 7 false 77).

Definition asked (o : option Endpoint) : option Endpoint :=
  match o with Some b => ask_all b | None => None end.

Definition answers (b : option Endpoint) : bool :=
  match b with
  | Some b =>
      match serving b with
      | (_, (read, nonce)) :: _ =>
          (nonce =? 7) && match serve_sync_checkpoint b (2, read) 8 envelope with Some b' => (length (ep_sent b') =? 1)%nat && (length (ep_sent b) =? 0)%nat | None => false end
      | [] => false
      end
  | None => false
  end.

Lemma answers_spec o : answers (asked o) = true -> exists (b0 b b' : Endpoint) id, o = Some b0 /\ ask_all b0 = Some b /\
  serve_sync_checkpoint b id 8 envelope = Some b' /\ length (ep_sent b') = 1%nat /\ ep_sent b = [].
Proof.
  unfold answers, asked. destruct o as [b0|]; [|discriminate]. destruct (ask_all b0) as [b|] eqn:Hb; [|discriminate].
  destruct (serving b) as [|[p [read nonce]] l]; [discriminate|]. intros [_ Hx]%andb_true_iff.
  destruct (serve_sync_checkpoint b _ 8 envelope) as [b'|] eqn:Hs; [|discriminate Hx]. apply andb_true_iff in Hx as [H1%Nat.eqb_eq H2%Nat.eqb_eq].
  exists b0, b, b', (2, read). split; [reflexivity|]. split; [exact Hb|]. split; [exact Hs|]. split; [exact H1|]. by destruct (ep_sent b).
Qed.

Lemma asked_answers : answers (asked opened) = true.
Proof. vm_compute. reflexivity. Qed.

Lemma ask_all_answering (b b' : Endpoint) l : answering b l -> ask_all b = Some b' -> exists l', answering b' l'.
Proof.
  unfold ask_all. intros Hb. destruct (on_request_sync b (PeerReplica 2) _) as [b1|] eqn:H1; [|discriminate]. cbn [mbind option_bind].
  destruct (on_request_sync b1 _ _) as [b2|] eqn:H2; [|discriminate]. cbn [mbind option_bind].
  intros H3. eexists. eapply sv_asked; [|exact H3]. eapply sv_asked; [|exact H2]. eapply sv_asked; [exact Hb|exact H1].
Qed.

Lemma opened_idle b : opened = Some b -> serving b = [].
Proof.
  unfold opened. destruct (recover_baseline _ _ _ _ _ _ _) as [[[k|] m]|]; [|discriminate..]. intros [= <-]. reflexivity.
Qed.

Lemma asks_and_answers : exists (b b' : Endpoint) l id, answering b l /\ serve_sync_checkpoint b id 8 envelope = Some b' /\
  length (ep_sent b') = 1%nat /\ ep_sent b = [].
Proof.
  destruct (answers_spec opened asked_answers) as (b0 & b & b' & id & Ho & Hb & Hs & Hl & Hn).
  destruct (ask_all_answering b0 b [] (sv_start b0 (opened_idle b0 Ho)) Hb) as [l Ha]. exists b, b', l, id. split; [exact Ha|]. split; [exact Hs|]. by split.
Qed.

Lemma donor_answers_durable_witness :
  exists (b b' : Endpoint) id to c, serve_sync_checkpoint b id 8 envelope = Some b' /\ ep_sent b' = [(To to, MSyncCheckpoint c)] /\
    sc_checkpoint_id c = v_checkpoint_id (sb_state (sb (ep_medium b))).
Proof.
  destruct asks_and_answers as (b & b' & l & id & Ha & Hs & Hl & Hn).
  destruct (donor_answers_durable b l id 8 envelope b' Ha Hs) as [[He _]|(to & nonce & _ & _ & _ & [He|(c & _ & He & Ht)])].
  - exfalso. rewrite He, Hn in Hl. discriminate Hl.
  - exfalso. rewrite He, Hn in Hl. discriminate Hl.
  - exists b, b', id, to, c. split; [exact Hs|]. split; [rewrite He, Hn; reflexivity|]. exact (proj2 (proj2 (tf_checkpoint _ _ _ _ Ht))).
Defined.

Lemma serving_bounded_witness :
  exists (b b' : Endpoint) id, serve_sync_checkpoint b id 8 envelope = Some b' /\ length (ep_sent b') = 1%nat /\ NoDup (map fst (serving b)) /\
    (length (members (serving b)) <= QUARANTINE_SERVE_LIMIT)%nat.
Proof.
  destruct asks_and_answers as (b & b' & l & id & Ha & Hs & Hl & _). exists b, b', id. split; [exact Hs|]. split; [exact Hl|].
  destruct (serving_bounded b l Ha) as (Hn & Hm & _). split; [exact Hn|exact Hm].
Defined.

End Fetches.
