(* ===== verification/Frame.v ===== *)
(** * Transport framing

    [viewstamp-proto/src/transport/frame/mod.rs] and the errors of
    [transport/mod.rs]: [[u32 length][payload]] frames over a byte stream, the
    incremental decoder of the stream transports ([extend]) and its
    pre-authentication variant for the QUIC control stream ([extend_first],
    [set_max]).  The decoder is compared with the grammar of a framed stream,
    [stream], which has no chunks, buffers or loops.

    A decoder call returns the decoder it leaves behind together with its
    [Result], since the caller keeps the decoder on an error too; [None] is a
    subtraction that would underflow or a loop that would not stop, and is shown
    never to happen. *)

From S2P Require Import Prelude Core Hash Membership Codec Message Messages.

(** ** Errors and why a connection closes *)

Inductive TransportError : Type :=
| FrameTooLong (len max : Z)
| TruncatedFrame (remaining : Z)
| RecordRejected
| Decode (e : CodecError).

Module CloseCause.
Inductive t : Type :=
| RecordRejected
| FrameTooLong
| BadFrame
| TruncatedFrame
| PeerClosed
| OutboundOverflow
| IdentityRejected
| AuthDeadline
| AcceptCapacity
| IdleTimeout
| Superseded.

(** [From<&TransportError> for CloseCause] *)
Definition of_error (e : TransportError) : t :=
  match e with
  | Frame.FrameTooLong _ _ => FrameTooLong
  | Frame.TruncatedFrame _ => TruncatedFrame
  | Frame.RecordRejected => RecordRejected
  | Frame.Decode _ => BadFrame
  end.

(** [CloseCause::index]: the discriminant. *)
Definition index (c : t) : Z :=
  match c with
  | RecordRejected => 0 | FrameTooLong => 1 | BadFrame => 2 | TruncatedFrame => 3
  | PeerClosed => 4 | OutboundOverflow => 5 | IdentityRejected => 6 | AuthDeadline => 7
  | AcceptCapacity => 8 | IdleTimeout => 9 | Superseded => 10
  end.

Definition COUNT : Z := index Superseded + 1.
End CloseCause.

#[export] Instance close_cause_eq_dec : EqDecision CloseCause.t.
Proof. solve_decision. Defined.

(** ** The frame format *)

Definition STAGE_CHUNK : Z := 64 * 1024.
Definition LEN_PREFIX : nat := 4.

(** [encode_frame]: what it appends; the length is cut to a [u32]. *)
Definition encode_frame (payload : list byte) : list byte :=
  be_bytes LEN_PREFIX (wrap 32 (zlen payload)) ++ payload.

Module Decoder.
Record FrameDecoder : Type := mkDecoder {
  partial : list byte;
  ready : list (list byte);
  max : Z;
}.

Definition new (m : Z) : FrameDecoder := mkDecoder [] [] m.

(** [u32::from_be_bytes] of the four bytes at the head of a buffer. *)
Definition declared (bs : list byte) : Z := from_be_bytes (take LEN_PREFIX bs).

(** Bytes of the frame at the head of a buffer, its prefix included. *)
Definition total_len (len : Z) : nat := LEN_PREFIX + Z.to_nat len.

Definition outcome : Type := option (result TransportError unit * FrameDecoder).

(** [drain_buffered]'s loop. *)
Fixpoint drain_loop (fuel : nat) (d : FrameDecoder) : outcome :=
  if (length (partial d) <? LEN_PREFIX)%nat then Some (Ok tt, d)
  else
    match fuel with
    | O => None
    | Datatypes.S fuel =>
        let len := declared (partial d) in
        if max d <? len then Some (Err (FrameTooLong len (max d)), d)
        else
          let total := total_len len in
          if (length (partial d) <? total)%nat then Some (Ok tt, d)
          else
            let frame := drop LEN_PREFIX (take total (partial d)) in
            drain_loop fuel (mkDecoder (drop total (partial d)) (ready d ++ [frame]) (max d))
    end.

Definition drain_buffered (d : FrameDecoder) : outcome :=
  drain_loop (length (partial d)) d.

(** [usize] subtraction: an underflow stops the replica. *)
Definition checked_sub (a b : nat) : option nat :=
  if (a <? b)%nat then None else Some (a - b)%nat.

(** Moving up to [need] bytes of the input into [partial]. *)
Definition fill (d : FrameDecoder) (need : nat) (bytes : list byte) :
    FrameDecoder * list byte :=
  let n := Nat.min need (length bytes) in
  (mkDecoder (partial d ++ take n bytes) (ready d) (max d), drop n bytes).

(** The step that completes the length prefix, shared by [extend] and
    [extend_first]. *)
Definition fill_prefix (d : FrameDecoder) (bytes : list byte) : FrameDecoder * list byte :=
  if (length (partial d) <? LEN_PREFIX)%nat
  then fill d (LEN_PREFIX - length (partial d)) bytes
  else (d, bytes).

(** [self.ready.push_back(frame)] of a completed [partial]. *)
Definition complete (d : FrameDecoder) : FrameDecoder :=
  mkDecoder [] (ready d ++ [drop LEN_PREFIX (partial d)]) (max d).

(** The block [extend]'s loop body and [extend_first] share: complete the prefix,
    refuse an over-long length, take what there is of the body; [k] continues with
    the bytes behind a completed frame. *)
Definition head_frame (d : FrameDecoder) (bytes : list byte)
    (k : FrameDecoder -> list byte -> outcome) : outcome :=
  let '(d, bytes) := fill_prefix d bytes in
  if (length (partial d) <? LEN_PREFIX)%nat then Some (Ok tt, d)
  else
    let len := declared (partial d) in
    if max d <? len then Some (Err (FrameTooLong len (max d)), d)
    else
      need ← checked_sub (total_len len) (length (partial d));
      let '(d, bytes) := fill d need bytes in
      if (length (partial d) =? total_len len)%nat
      then k (complete d) bytes
      else Some (Ok tt, d).

(** [extend]'s loop over the fresh bytes. *)
Fixpoint extend_loop (fuel : nat) (d : FrameDecoder) (bytes : list byte) : outcome :=
  match bytes with
  | [] => Some (Ok tt, d)
  | _ =>
      match fuel with
      | O => None
      | Datatypes.S fuel => head_frame d bytes (extend_loop fuel)
      end
  end.

Definition extend (d : FrameDecoder) (bytes : list byte) : outcome :=
  '(r, d) ← drain_buffered d;
  match r with
  | Ok _ => extend_loop (length bytes) d bytes
  | Err e => Some (Err e, d)
  end.

(** The walk of [buffer_capped_tail] over the prefixes held in a buffer: where it
    stopped, and the error when it stopped at an over-long prefix. *)
Fixpoint tail_walk (fuel : nat) (buf : list byte) (off : nat) :
    option (nat * option TransportError) :=
  if (off + LEN_PREFIX <=? length buf)%nat then
    match fuel with
    | O => None
    | Datatypes.S fuel =>
        let len := declared (drop off buf) in
        if MAX_FRAME_LEN <? len
        then Some (off, Some (FrameTooLong len MAX_FRAME_LEN))
        else
          let next := (off + total_len len)%nat in
          if (length buf <? next)%nat then Some (off, None) else tail_walk fuel buf next
    end
  else Some (off, None).

Definition buffer_capped_tail (d : FrameDecoder) (bytes : list byte) : outcome :=
  let buf := partial d ++ bytes in
  '(off, e) ← tail_walk (length buf) buf 0;
  match e with
  | Some e => Some (Err e, mkDecoder (take (off + LEN_PREFIX) buf) (ready d) (max d))
  | None => Some (Ok tt, mkDecoder buf (ready d) (max d))
  end.

Definition extend_first (d : FrameDecoder) (bytes : list byte) : outcome :=
  match ready d with
  | _ :: _ => buffer_capped_tail d bytes
  | [] => head_frame d bytes buffer_capped_tail
  end.

Definition next_frame (d : FrameDecoder) : option (list byte) * FrameDecoder :=
  match ready d with
  | [] => (None, d)
  | f :: fs => (Some f, mkDecoder (partial d) fs (max d))
  end.

Definition set_max (d : FrameDecoder) (m : Z) : FrameDecoder :=
  mkDecoder (partial d) (ready d) m.

Definition partial_len (d : FrameDecoder) : Z := zlen (partial d).
Definition is_at_final_cap (d : FrameDecoder) : bool := max d =? MAX_FRAME_LEN.
Definition has_ready (d : FrameDecoder) : bool :=
  match ready d with [] => false | _ => true end.

(** ** The grammar of a framed stream *)

(** A buffer that stops inside a frame, its prefix short or within the cap. *)
Definition in_progress (m : Z) (bs : list byte) : Prop :=
  (length bs < LEN_PREFIX)%nat \/
  ((LEN_PREFIX <= length bs)%nat /\ declared bs <= m /\ (length bs < total_len (declared bs))%nat).

(** [stream m bs fs rest e]: under the cap [m] the bytes [bs] are the frames [fs]
    followed by [rest], which is a frame in progress, or begins with a prefix over
    the cap when there is an error [e]. *)
Inductive stream (m : Z) : list byte -> list (list byte) -> list byte -> option TransportError -> Prop :=
| stream_frame p bs fs rest e :
    zlen p <= m -> fits 32 (zlen p) ->
    stream m bs fs rest e ->
    stream m (encode_frame p ++ bs) (p :: fs) rest e
| stream_rest rest :
    in_progress m rest -> stream m rest [] rest None
| stream_over n bs :
    m < n -> fits 32 n ->
    stream m (be_bytes LEN_PREFIX n ++ bs) [] (be_bytes LEN_PREFIX n ++ bs)
      (Some (FrameTooLong n m)).

Definition answer (e : option TransportError) : result TransportError unit :=
  match e with None => Ok tt | Some e => Err e end.

(** What stays buffered: the frame in progress, or only the refused prefix. *)
Definition held (e : option TransportError) (rest : list byte) : list byte :=
  match e with None => rest | Some _ => take LEN_PREFIX rest end.

(** A connection's reads, one [extend] per read, up to the first error. *)
Fixpoint feed (f : FrameDecoder -> list byte -> outcome) (d : FrameDecoder)
    (chunks : list (list byte)) : outcome :=
  match chunks with
  | [] => Some (Ok tt, d)
  | c :: cs =>
      '(r, d) ← f d c;
      match r with Ok _ => feed f d cs | Err e => Some (Err e, d) end
  end.

(** ** Reading the head of a buffer *)

Lemma length_encode_frame p : length (encode_frame p) = (LEN_PREFIX + length p)%nat.
Proof. unfold encode_frame. by rewrite length_app, length_be_bytes. Qed.

Lemma declared_app a b : (LEN_PREFIX <= length a)%nat -> declared (a ++ b) = declared a.
Proof. intros H. unfold declared. by rewrite take_app_le. Qed.

Lemma declared_take n bs : (LEN_PREFIX <= n)%nat -> declared (take n bs) = declared bs.
Proof. intros H. unfold declared. rewrite take_take. by rewrite Nat.min_l. Qed.

Lemma declared_fits bs : fits 32 (declared bs).
Proof.
  unfold declared, fits. pose proof (from_be_bytes_range (take LEN_PREFIX bs)) as H.
  assert (Z.of_nat (length (take LEN_PREFIX bs)) <= 4) by (rewrite length_take; unfold LEN_PREFIX; lia).
  pose proof (Z.pow_le_mono_r 256 (zlen (take LEN_PREFIX bs)) 4). change (2 ^ 32) with (256 ^ 4). lia.
Qed.

Lemma declared_prefix n bs : fits 32 n -> declared (be_bytes LEN_PREFIX n ++ bs) = n.
Proof.
  intros H. unfold declared.
  rewrite take_app_length' by (by rewrite length_be_bytes). by apply be_bytes_roundtrip.
Qed.

Lemma declared_encode p bs :
  fits 32 (zlen p) -> declared (encode_frame p ++ bs) = zlen p.
Proof.
  intros H. unfold encode_frame. rewrite <- app_assoc, wrap_small by done.
  by apply declared_prefix.
Qed.

Lemma total_len_zlen (p : list byte) : total_len (zlen p) = (LEN_PREFIX + length p)%nat.
Proof. unfold total_len. by rewrite Nat2Z.id. Qed.

(** A buffer that holds a prefix, and one that holds a whole frame. *)
Lemma prefix_split bs :
  (LEN_PREFIX <= length bs)%nat ->
  bs = be_bytes LEN_PREFIX (declared bs) ++ drop LEN_PREFIX bs.
Proof.
  intros H. unfold declared.
  replace LEN_PREFIX with (length (take LEN_PREFIX bs)) at 1 by (rewrite length_take; lia).
  by rewrite be_bytes_from_be_bytes, take_drop.
Qed.

Lemma frame_split bs :
  (total_len (declared bs) <= length bs)%nat ->
  bs = encode_frame (drop LEN_PREFIX (take (total_len (declared bs)) bs))
         ++ drop (total_len (declared bs)) bs /\
  zlen (drop LEN_PREFIX (take (total_len (declared bs)) bs)) = declared bs.
Proof.
  intros H. pose proof (declared_fits bs) as Hf. unfold fits in Hf.
  set (p := drop _ (take _ _)).
  assert (Hp : zlen p = declared bs).
  { subst p. rewrite length_drop, length_take. unfold total_len in *. lia. }
  split; [|done]. unfold encode_frame. rewrite Hp, wrap_small by done.
  rewrite <- (take_drop (total_len (declared bs)) bs) at 1. f_equal.
  rewrite (prefix_split (take (total_len (declared bs)) bs)) at 1
    by (rewrite length_take; unfold total_len in *; lia).
  by rewrite declared_take by (unfold total_len; lia).
Qed.

Lemma frame_cut p bs :
  fits 32 (zlen p) ->
  drop LEN_PREFIX (take (total_len (zlen p)) (encode_frame p ++ bs)) = p /\
  drop (total_len (zlen p)) (encode_frame p ++ bs) = bs.
Proof.
  intros _. rewrite total_len_zlen, <- length_encode_frame, take_app_length, drop_app_length.
  split; [|done]. unfold encode_frame. by rewrite drop_app_length' by (by rewrite length_be_bytes).
Qed.

(** ** The grammar is total and unambiguous *)

Lemma stream_total m bs : exists fs rest e, stream m bs fs rest e.
Proof.
  remember (length bs) as n eqn:Hn. revert bs Hn.
  induction (lt_wf n) as [n _ IH]. intros bs ->.
  destruct (decide (length bs < LEN_PREFIX)%nat) as [Hs|Hs].
  { exists [], bs, None. apply stream_rest. by left. }
  destruct (decide (m < declared bs)) as [Ho|Ho].
  { exists [], bs, (Some (FrameTooLong (declared bs) m)).
    rewrite (prefix_split bs) at 1 2 by lia. apply stream_over; [done|apply declared_fits]. }
  destruct (decide (length bs < total_len (declared bs))%nat) as [Hw|Hw].
  { exists [], bs, None. apply stream_rest. right. lia. }
  destruct (frame_split bs ltac:(lia)) as [Hbs Hp].
  destruct (IH (length (drop (total_len (declared bs)) bs))) with (bs := drop (total_len (declared bs)) bs)
    as (fs & rest & e & Hst); [rewrite length_drop; unfold total_len, LEN_PREFIX in *; lia|done|].
  eexists (_ :: fs), rest, e. rewrite Hbs at 1.
  apply stream_frame; [lia| |done]. rewrite Hp. apply declared_fits.
Qed.

(** Which rule applies is decided by the head of the buffer. *)
Lemma stream_short m bs fs rest e :
  in_progress m bs -> stream m bs fs rest e -> fs = [] /\ rest = bs /\ e = None.
Proof.
  intros Hin Hst. destruct Hst as [p bs fs rest e Hm Hf Hst|rest Hr|n bs Hm Hf]; [|done|].
  - exfalso. unfold in_progress in Hin. rewrite declared_encode in Hin by done.
    rewrite total_len_zlen, length_app, length_encode_frame in Hin. lia.
  - exfalso. unfold in_progress in Hin. rewrite declared_prefix in Hin by done.
    rewrite length_app, length_be_bytes in Hin. lia.
Qed.

Lemma stream_long m bs fs rest e :
  (LEN_PREFIX <= length bs)%nat -> m < declared bs -> stream m bs fs rest e ->
  fs = [] /\ rest = bs /\ e = Some (FrameTooLong (declared bs) m).
Proof.
  intros Hl Ho Hst. destruct Hst as [p bs fs rest e Hm Hf Hst|rest Hr|n bs Hm Hf].
  - rewrite declared_encode in Ho by done. lia.
  - destruct Hr as [?|(_ & ? & _)]; lia.
  - by rewrite declared_prefix.
Qed.

Lemma stream_whole m bs fs rest e :
  (total_len (declared bs) <= length bs)%nat -> declared bs <= m -> stream m bs fs rest e ->
  exists fs', fs = drop LEN_PREFIX (take (total_len (declared bs)) bs) :: fs' /\
    stream m (drop (total_len (declared bs)) bs) fs' rest e.
Proof.
  intros Hl Ho Hst. destruct Hst as [p bs fs rest e Hm Hf Hst|rest Hr|n bs Hm Hf].
  - rewrite declared_encode by done. destruct (frame_cut p bs Hf) as [-> ->]. eauto.
  - destruct Hr as [?|(_ & _ & ?)]; unfold total_len in *; lia.
  - rewrite declared_prefix in Ho by done. lia.
Qed.

Lemma stream_det m bs fs rest e fs' rest' e' :
  stream m bs fs rest e -> stream m bs fs' rest' e' -> fs = fs' /\ rest = rest' /\ e = e'.
Proof.
  intros H. revert fs' rest' e'.
  induction H as [p bs fs rest e Hm Hf Hst IH|rest Hr|n bs Hm Hf]; intros fs' rest' e' H'.
  - apply stream_whole in H'; rewrite ?declared_encode in * by done; [|..|lia].
    + destruct H' as (fs1 & -> & H1). destruct (frame_cut p bs Hf) as [-> E2]. rewrite E2 in H1.
      destruct (IH _ _ _ H1) as (-> & -> & ->). done.
    + rewrite total_len_zlen, length_app, length_encode_frame. lia.
  - by destruct (stream_short _ _ _ _ _ Hr H') as (-> & -> & ->).
  - apply stream_long in H'; rewrite ?declared_prefix in * by done; [|..|done].
    + by destruct H' as (-> & -> & ->).
    + rewrite length_app, length_be_bytes. lia.
Qed.

Lemma stream_app m a b fs rest fs' rest' e :
  stream m a fs rest None -> stream m (rest ++ b) fs' rest' e ->
  stream m (a ++ b) (fs ++ fs') rest' e.
Proof.
  intros Ha Hb. remember None as e0 eqn:He0. induction Ha as [p bs fs rest e0 Hm Hf Hst IH|rest Hr|]; try done.
  cbn [app]. rewrite <- app_assoc. apply stream_frame; auto.
Qed.

(** Bytes behind an over-long prefix change nothing but the rest. *)
Lemma stream_err_app m a b fs rest e :
  stream m a fs rest (Some e) ->
  stream m (a ++ b) fs (rest ++ b) (Some e) /\ (LEN_PREFIX <= length rest)%nat.
Proof.
  intros H. remember (Some e) as e0 eqn:He0.
  induction H as [p bs fs rest e0 Hm Hf Hst IH|rest Hr|n bs Hm Hf]; try done.
  - destruct (IH He0) as [IH1 IH2]. split; [|done]. rewrite <- app_assoc. by apply stream_frame.
  - rewrite <- !app_assoc. split; [by apply stream_over|]. rewrite length_app, length_be_bytes. lia.
Qed.

Lemma stream_rest_in_progress m bs fs rest :
  stream m bs fs rest None -> in_progress m rest.
Proof. intros H. remember None as e0 eqn:He0. induction H; try done. auto. Qed.

(** ** The decoder reads exactly the stream *)

Lemma drain_loop_stream fuel d fs rest e :
  stream (max d) (partial d) fs rest e -> (length (partial d) <= fuel)%nat ->
  drain_loop fuel d = Some (answer e, mkDecoder rest (ready d ++ fs) (max d)).
Proof.
  destruct d as [bs rs m]. cbn [partial ready max]. intros Hst. revert fuel rs.
  induction Hst as [p bs fs rest e Hm Hf Hst IH|rest Hr|n bs Hm Hf]; intros fuel rs Hfuel.
  - rewrite length_app, length_encode_frame in Hfuel.
    destruct fuel as [|fuel]; [unfold LEN_PREFIX in *; lia|]. cbn [drain_loop partial ready max].
    rewrite declared_encode by done. destruct (frame_cut p bs Hf) as [-> ->].
    rewrite total_len_zlen, length_app, length_encode_frame.
    rewrite (proj2 (Nat.ltb_ge _ LEN_PREFIX)), (proj2 (Z.ltb_ge m _)), (proj2 (Nat.ltb_ge _ _)) by lia.
    rewrite IH by (unfold LEN_PREFIX in *; lia). by rewrite <- app_assoc.
  - rewrite app_nil_r. destruct fuel as [|fuel]; cbn [drain_loop partial ready max answer].
    + rewrite (proj2 (Nat.ltb_lt _ _)); [done|]. unfold LEN_PREFIX; lia.
    + destruct (Nat.ltb_spec (length rest) LEN_PREFIX); [done|].
      destruct Hr as [?|(_ & Hd & Hl)]; [lia|].
      by rewrite (proj2 (Z.ltb_ge m _)), (proj2 (Nat.ltb_lt _ _)) by lia.
  - rewrite app_nil_r. rewrite length_app, length_be_bytes in Hfuel.
    destruct fuel as [|fuel]; [unfold LEN_PREFIX in *; lia|]. cbn [drain_loop partial ready max answer].
    rewrite declared_prefix, length_app, length_be_bytes by done.
    by rewrite (proj2 (Nat.ltb_ge _ LEN_PREFIX)), (proj2 (Z.ltb_lt m _)) by lia.
Qed.

Lemma fill_eq d need bytes :
  let w := partial d ++ bytes in
  let n := (length (partial d) + need)%nat in
  fill d need bytes = (mkDecoder (take n w) (ready d) (max d), drop n w).
Proof.
  intros w n. unfold fill. subst w n.
  rewrite take_app, drop_app, (take_ge (partial d)), (drop_ge (partial d)) by lia.
  replace (length (partial d) + need - length (partial d))%nat with need by lia. cbn [app].
  destruct (decide (need <= length bytes)%nat).
  - by rewrite Nat.min_l by lia.
  - rewrite Nat.min_r by lia. by rewrite !take_ge, !drop_ge by lia.
Qed.

(** One round of [extend]'s loop, read off the buffered and fresh bytes joined. *)
Lemma fill_prefix_eq d bytes :
  let w := partial d ++ bytes in
  let n := Nat.max LEN_PREFIX (length (partial d)) in
  fill_prefix d bytes = (mkDecoder (take n w) (ready d) (max d), drop n w).
Proof.
  intros w n. unfold fill_prefix. destruct (Nat.ltb_spec (length (partial d)) LEN_PREFIX).
  - rewrite fill_eq. fold w. subst n.
    by replace (length (partial d) + _)%nat with (Nat.max LEN_PREFIX (length (partial d))) by lia.
  - subst w n. rewrite Nat.max_r, take_app_length, drop_app_length by lia. by destruct d.
Qed.

Lemma in_progress_nil m : in_progress m [].
Proof. left. unfold LEN_PREFIX. cbn. lia. Qed.

Lemma head_frame_eq d bytes k :
  in_progress (max d) (partial d) ->
  let w := partial d ++ bytes in
  let len := declared w in
  head_frame d bytes k =
    if (length w <? LEN_PREFIX)%nat then Some (Ok tt, mkDecoder w (ready d) (max d))
    else if max d <? len
    then Some (Err (FrameTooLong len (max d)), mkDecoder (take LEN_PREFIX w) (ready d) (max d))
    else if (length w <? total_len len)%nat then Some (Ok tt, mkDecoder w (ready d) (max d))
    else k (mkDecoder [] (ready d ++ [drop LEN_PREFIX (take (total_len len) w)]) (max d))
           (drop (total_len len) w).
Proof.
  intros Hin w len. unfold head_frame. rewrite fill_prefix_eq. fold w. cbn [partial ready max].
  set (n := Nat.max _ _). rewrite length_take.
  assert (Hw : (length (partial d) <= length w)%nat) by (subst w; rewrite length_app; lia).
  destruct (Nat.ltb_spec (length w) LEN_PREFIX) as [Hs|Hs].
  { rewrite (proj2 (Nat.ltb_lt _ _)) by lia. by rewrite take_ge by lia. }
  rewrite (proj2 (Nat.ltb_ge _ _)) by lia. rewrite declared_take by lia. fold len.
  assert (Hn : n = LEN_PREFIX \/ (n <= total_len len)%nat /\ len <= max d).
  { subst n. destruct Hin as [?|(Hl & Hd & Ht)]; [left; lia|right].
    subst len w. rewrite declared_app by done. unfold total_len in *. lia. }
  destruct (Z.ltb_spec (max d) len) as [Ho|Ho].
  { destruct Hn as [->|?]; [done|lia]. }
  assert (Hnw : (n <= length w)%nat) by (subst n; lia). clearbody n.
  unfold checked_sub. rewrite (Nat.min_l n) by done.
  rewrite (proj2 (Nat.ltb_ge (total_len len) _)) by (unfold total_len in *; lia).
  cbn [mbind option_bind]. rewrite fill_eq. cbn [partial ready max]. rewrite take_drop.
  rewrite (length_take w n), (Nat.min_l n) by done.
  replace (n + (total_len len - n))%nat with (total_len len) by (unfold total_len in *; lia).
  rewrite length_take. destruct (Nat.ltb_spec (length w) (total_len len)) as [Ht|Ht].
  - rewrite (proj2 (Nat.eqb_neq _ _)) by lia. by rewrite take_ge by lia.
  - by rewrite (proj2 (Nat.eqb_eq _ _)) by lia.
Qed.

Lemma extend_loop_nil fuel d : extend_loop fuel d [] = Some (Ok tt, d).
Proof. by destruct fuel. Qed.

Lemma extend_loop_stream fuel d bytes fs rest e :
  in_progress (max d) (partial d) ->
  stream (max d) (partial d ++ bytes) fs rest e ->
  (length bytes <= fuel)%nat ->
  extend_loop fuel d bytes = Some (answer e, mkDecoder (held e rest) (ready d ++ fs) (max d)).
Proof.
  revert d bytes fs. induction fuel as [|fuel IH]; intros d bytes fs Hin Hst Hfuel;
    (destruct (decide (bytes = [])) as [->|Hne];
      [rewrite app_nil_r in Hst; destruct (stream_short _ _ _ _ _ Hin Hst) as (-> & -> & ->);
       rewrite extend_loop_nil; cbn; rewrite app_nil_r; by destruct d|]).
  { destruct bytes; [done|simpl in Hfuel; lia]. }
  transitivity (head_frame d bytes (extend_loop fuel)); [by destruct bytes|].
  rewrite head_frame_eq by done. set (w := partial d ++ bytes) in *.
  destruct (Nat.ltb_spec (length w) LEN_PREFIX) as [Hs|Hs].
  { destruct (stream_short _ _ _ _ _ (or_introl Hs : in_progress (max d) w) Hst) as (-> & -> & ->).
    cbn. by rewrite app_nil_r. }
  destruct (Z.ltb_spec (max d) (declared w)) as [Ho|Ho].
  { destruct (stream_long _ _ _ _ _ Hs Ho Hst) as (-> & -> & ->). cbn. by rewrite app_nil_r. }
  destruct (Nat.ltb_spec (length w) (total_len (declared w))) as [Ht|Ht].
  { destruct (stream_short (max d) w fs rest e) as (-> & -> & ->); [by right|done|].
    cbn. by rewrite app_nil_r. }
  destruct (stream_whole _ _ _ _ _ Ht Ho Hst) as (fs' & -> & Hst').
  rewrite (IH (mkDecoder [] _ _) _ fs'); cbn [partial ready max app]; [|apply in_progress_nil|done|].
  - by rewrite <- app_assoc.
  - assert (length (partial d) < total_len (declared w))%nat.
    { destruct Hin as [?|(Hl & ? & ?)]; [unfold total_len; lia|].
      subst w. by rewrite declared_app. }
    rewrite length_drop. assert (length bytes <> 0%nat) by (by destruct bytes).
    subst w. rewrite length_app in *. lia.
Qed.

(** Whatever is buffered, [extend] returns, and what it leaves is read off the
    grammar of the buffered bytes and the fresh ones joined. *)
Lemma extend_stream d bytes fs0 rest0 fs rest e :
  stream (max d) (partial d) fs0 rest0 None ->
  stream (max d) (partial d ++ bytes) fs rest e ->
  extend d bytes = Some (answer e, mkDecoder (held e rest) (ready d ++ fs) (max d)).
Proof.
  intros H0 Hst. unfold extend, drain_buffered.
  rewrite (drain_loop_stream _ _ _ _ _ H0) by lia. cbn [mbind option_bind answer].
  destruct (stream_total (max d) (rest0 ++ bytes)) as (fs1 & rest1 & e1 & H1).
  pose proof (stream_app _ _ _ _ _ _ _ _ H0 H1) as H2.
  destruct (stream_det _ _ _ _ _ _ _ _ Hst H2) as (-> & -> & ->).
  rewrite (extend_loop_stream _ _ _ fs1 rest1 e1); cbn [partial ready max]; [|by eapply stream_rest_in_progress|done|lia].
  by rewrite <- app_assoc.
Qed.

Lemma feed_stream d chunks fs rest e :
  in_progress (max d) (partial d) ->
  stream (max d) (partial d ++ concat chunks) fs rest e ->
  feed extend d chunks = Some (answer e, mkDecoder (held e rest) (ready d ++ fs) (max d)).
Proof.
  revert d fs. induction chunks as [|c cs IH]; intros d fs Hin Hst.
  { cbn [concat] in Hst. rewrite app_nil_r in Hst.
    destruct (stream_short _ _ _ _ _ Hin Hst) as (-> & -> & ->). cbn. rewrite app_nil_r. by destruct d. }
  cbn [concat feed] in *. rewrite app_assoc in Hst.
  destruct (stream_total (max d) (partial d ++ c)) as (fs1 & rest1 & e1 & H1).
  rewrite (extend_stream d c _ _ _ _ _ (stream_rest _ _ Hin) H1). cbn [mbind option_bind].
  destruct e1 as [e1|]; cbn [answer held].
  - destruct (stream_err_app _ _ (concat cs) _ _ _ H1) as [H2 Hl].
    destruct (stream_det _ _ _ _ _ _ _ _ Hst H2) as (-> & -> & ->). cbn [answer held].
    by rewrite take_app_le by done.
  - pose proof (stream_rest_in_progress _ _ _ _ H1) as Hin1.
    destruct (stream_total (max d) (rest1 ++ concat cs)) as (fs2 & rest2 & e2 & H2).
    pose proof (stream_app _ _ _ _ _ _ _ _ H1 H2) as H3.
    destruct (stream_det _ _ _ _ _ _ _ _ Hst H3) as (-> & -> & ->).
    rewrite (IH (mkDecoder rest1 (ready d ++ fs1) (max d)) fs2 Hin1 H2). cbn [ready max].
    by rewrite <- app_assoc.
Qed.

(** ** The pre-authentication decoder *)

Lemma tail_walk_stream fuel pre bs fs rest e :
  stream MAX_FRAME_LEN bs fs rest e -> (length bs <= fuel)%nat ->
  exists off, tail_walk fuel (pre ++ bs) (length pre) = Some (off, e) /\
    drop off (pre ++ bs) = rest.
Proof.
  intros Hst. revert fuel pre.
  induction Hst as [p bs fs rest e Hm Hf Hst IH|rest Hr|n bs Hm Hf]; intros fuel pre Hfuel.
  - rewrite length_app, length_encode_frame in Hfuel.
    destruct fuel as [|fuel]; [unfold LEN_PREFIX in *; lia|]. cbn [tail_walk].
    rewrite drop_app_length, declared_encode, total_len_zlen by done.
    rewrite !length_app, length_encode_frame.
    rewrite (proj2 (Nat.leb_le _ _)), (proj2 (Z.ltb_ge MAX_FRAME_LEN _)), (proj2 (Nat.ltb_ge _ _)) by lia.
    destruct (IH fuel (pre ++ encode_frame p)) as (off & Hw & Hd); [unfold LEN_PREFIX in *; lia|].
    rewrite length_app, length_encode_frame, <- app_assoc in Hw. rewrite <- app_assoc in Hd. eauto.
  - exists (length pre). rewrite drop_app_length. split; [|done].
    destruct fuel as [|fuel]; cbn [tail_walk]; rewrite length_app.
    + rewrite (proj2 (Nat.leb_gt _ _)); [done|]. unfold LEN_PREFIX. lia.
    + destruct (Nat.leb_spec (length pre + LEN_PREFIX) (length pre + length rest)); [|done].
      rewrite drop_app_length. destruct Hr as [?|(_ & Hd & Hl)]; [lia|].
      by rewrite (proj2 (Z.ltb_ge MAX_FRAME_LEN _)), (proj2 (Nat.ltb_lt _ _)) by lia.
  - exists (length pre). rewrite drop_app_length. split; [|done].
    rewrite length_app, length_be_bytes in Hfuel.
    destruct fuel as [|fuel]; [unfold LEN_PREFIX in *; lia|]. cbn [tail_walk].
    rewrite drop_app_length, declared_prefix, !length_app, length_be_bytes by done.
    by rewrite (proj2 (Nat.leb_le _ _)), (proj2 (Z.ltb_lt MAX_FRAME_LEN _)) by lia.
Qed.

(** The states of a decoder fed only by [extend_first] from a cap [h], after the
    bytes [seen]: the first frame in progress, or queued with its tail behind it. *)
Definition pre_auth (h : Z) (seen : list byte) (d : FrameDecoder) : Prop :=
  max d = h /\
  match ready d with
  | [] => in_progress h (partial d) /\ seen = partial d
  | [p] => zlen p <= h /\ fits 32 (zlen p) /\ seen = encode_frame p ++ partial d /\
           exists fs rest, stream MAX_FRAME_LEN (partial d) fs rest None
  | _ => False
  end.

Lemma tail_pre_auth h seen d bytes :
  pre_auth h seen d -> ready d <> [] ->
  exists r d', buffer_capped_tail d bytes = Some (r, d') /\
    (r = Ok tt -> pre_auth h (seen ++ bytes) d').
Proof.
  intros [Hmax Hd] Hr. unfold buffer_capped_tail.
  destruct (stream_total MAX_FRAME_LEN (partial d ++ bytes)) as (fs & rest & e & Hst).
  destruct (tail_walk_stream _ [] _ _ _ _ Hst (Nat.le_refl _)) as (off & Hw & _).
  cbn [app length] in Hw. rewrite Hw. cbn [mbind option_bind].
  destruct e as [e|]; do 2 eexists; (split; [done|]); intros [=].
  split; [done|]. cbn [ready partial]. destruct (ready d) as [|p [|]]; try done.
  destruct Hd as (? & ? & -> & _). rewrite app_assoc. eauto 6.
Qed.

Lemma extend_first_pre_auth h seen d bytes :
  pre_auth h seen d ->
  exists r d', extend_first d bytes = Some (r, d') /\ (r = Ok tt -> pre_auth h (seen ++ bytes) d').
Proof.
  intros Hpre. unfold extend_first. destruct (ready d) as [|p ps] eqn:Hr.
  2: { apply tail_pre_auth; [done|by rewrite Hr]. }
  destruct Hpre as [Hmax Hd]. rewrite Hr in Hd. destruct Hd as [Hin ->].
  rewrite head_frame_eq by (by rewrite Hmax). set (w := partial d ++ bytes).
  assert (Hkeep : in_progress h w -> pre_auth h w (mkDecoder w (ready d) (max d))).
  { intros H. split; [done|]. cbn [ready]. by rewrite Hr. }
  destruct (Nat.ltb_spec (length w) LEN_PREFIX).
  { do 2 eexists. split; [done|]. intros _. apply Hkeep. by left. }
  rewrite Hmax in *. destruct (Z.ltb_spec h (declared w)).
  { do 2 eexists. split; [done|]. by intros [=]. }
  destruct (Nat.ltb_spec (length w) (total_len (declared w))) as [Ht|Ht].
  { do 2 eexists. split; [done|]. intros _. apply Hkeep. by right. }
  destruct (frame_split w Ht) as [Hw Hp]. rewrite Hr. cbn [app].
  set (p := drop LEN_PREFIX _) in *. set (tl := drop (total_len _) w) in *.
  rewrite Hw. apply (tail_pre_auth h (encode_frame p)); [|done]. split; [done|]. cbn [ready partial].
  split; [lia|]. split; [rewrite Hp; apply declared_fits|]. rewrite app_nil_r. split; [done|].
  exists [], []. apply stream_rest, in_progress_nil.
Qed.

Lemma feed_first_pre_auth h seen d chunks :
  pre_auth h seen d ->
  exists r d', feed extend_first d chunks = Some (r, d') /\
    (r = Ok tt -> pre_auth h (seen ++ concat chunks) d').
Proof.
  revert seen d. induction chunks as [|c cs IH]; intros seen d Hpre.
  { exists (Ok tt), d. split; [done|]. intros _. cbn. by rewrite app_nil_r. }
  destruct (extend_first_pre_auth h seen d c Hpre) as (r & d1 & Hc & Hd1). cbn [feed concat].
  rewrite Hc. cbn [mbind option_bind]. destruct r as [[]|e]; [|do 2 eexists; by split].
  rewrite app_assoc. apply IH, Hd1. done.
Qed.

Lemma pre_auth_new h : pre_auth h [] (new h).
Proof. split; [done|]. cbn. split; [apply in_progress_nil|done]. Qed.

(** Raising the cap turns a pre-authentication decoder into one that has read the
    same bytes under the full cap. *)
Lemma pre_auth_raise h seen d :
  h <= MAX_FRAME_LEN -> pre_auth h seen d ->
  exists fs0 rest0, stream MAX_FRAME_LEN (partial d) fs0 rest0 None /\
  forall bytes fs rest e, stream MAX_FRAME_LEN (partial d ++ bytes) fs rest e ->
    stream MAX_FRAME_LEN (seen ++ bytes) (ready d ++ fs) rest e.
Proof.
  intros Hh [Hmax Hd]. destruct (ready d) as [|p [|]]; [| |done].
  - destruct Hd as [Hin ->]. exists [], (partial d). split; [|done]. apply stream_rest.
    destruct Hin as [?|(? & ? & ?)]; [by left|right; lia].
  - destruct Hd as (Hp & Hf & -> & fs0 & rest0 & H0). exists fs0, rest0. split; [done|].
    intros bytes fs rest e Hst. rewrite <- app_assoc. cbn [app]. apply stream_frame; [lia|done|done].
Qed.

(** ** What the decoder promises a connection *)

Lemma extend_total d bytes : is_Some (extend d bytes).
Proof.
  destruct (stream_total (max d) (partial d)) as (fs0 & rest0 & e0 & H0).
  destruct (stream_total (max d) (partial d ++ bytes)) as (fs & rest & e & Hst).
  destruct e0 as [e0|]; [|by rewrite (extend_stream d bytes _ _ _ _ _ H0 Hst)].
  unfold extend, drain_buffered. by rewrite (drain_loop_stream _ _ _ _ _ H0) by lia.
Qed.

(** The way the network cuts a stream into reads is immaterial: feeding any
    sequence of reads to a fresh decoder, one [extend] per read up to the first
    error, always returns, and leaves the same frames, the same buffered bytes and
    the same answer as one [extend] with all the bytes. *)
Theorem reads_immaterial m chunks :
  exists r d, feed extend (new m) chunks = Some (r, d) /\ extend (new m) (concat chunks) = Some (r, d).
Proof.
  destruct (stream_total m (concat chunks)) as (fs & rest & e & Hst).
  assert (Hin : in_progress (max (new m)) (partial (new m))) by apply in_progress_nil.
  eexists _, _. split; [by apply (feed_stream _ _ fs rest e)|].
  by apply (extend_stream _ _ [] [] fs rest e); [apply stream_rest|].
Qed.

Lemma stream_frames m ps rest :
  Forall (fun p => zlen p <= m /\ fits 32 (zlen p)) ps -> in_progress m rest ->
  stream m (concat (map encode_frame ps) ++ rest) ps rest None.
Proof.
  intros H Hr. induction H as [|p ps [Hm Hf] _ IH]; [by apply stream_rest|].
  cbn [map concat]. rewrite <- app_assoc. by apply stream_frame.
Qed.

(** Framing round trip: payloads within the cap, framed one after another and
    cut into reads anywhere, are queued whole and in order, and the start of a
    next frame stays buffered. *)
Theorem framing_roundtrip m ps rest chunks
    (Hps : Forall (fun p => zlen p <= m /\ fits 32 (zlen p)) ps)
    (Hrest : in_progress m rest)
    (Hcut : concat chunks = concat (map encode_frame ps) ++ rest) :
  feed extend (new m) chunks = Some (Ok tt, mkDecoder rest ps m).
Proof.
  apply (feed_stream (new m) chunks ps rest None); [apply in_progress_nil|]. cbn [partial new app].
  rewrite Hcut. by apply stream_frames.
Qed.

Lemma framing_roundtrip_witness :
  feed extend (new 8) [[x00; x00]; [x00; x02; x41]; [x42; x00; x00; x00; x00; x00]; []]
    = Some (Ok tt, mkDecoder [x00] [[x41; x42]; []] 8).
Proof.
  apply (framing_roundtrip 8 [[x41; x42]; []] [x00]).
  - repeat constructor; cbn; lia.
  - left. unfold LEN_PREFIX. cbn. lia.
  - vm_compute. reflexivity.
Defined.

Lemma stream_sizes m bs fs rest e :
  0 <= m -> stream m bs fs rest e ->
  Forall (fun f => zlen f <= m) fs /\
  match e with
  | None => zlen rest <= 4 + m
  | Some e => (LEN_PREFIX <= length rest)%nat /\ m < declared rest /\ e = FrameTooLong (declared rest) m
  end.
Proof.
  intros Hm H. induction H as [p bs fs rest e Hp Hf Hst IH|rest Hr|n bs Hn Hf].
  - destruct IH as [IH1 IH2]. auto.
  - split; [done|]. destruct Hr as [?|(? & ? & ?)]; unfold total_len, LEN_PREFIX in *; lia.
  - split; [done|]. rewrite declared_prefix, length_app, length_be_bytes by done. split; [lia|done].
Qed.

(** A peer cannot make the decoder hold more than one frame in progress: after
    any reads every queued frame is within the cap and at most [4 + max] bytes are
    buffered, and a length over the cap is refused with nothing but its four
    prefix bytes retained, the error naming the declared length. *)
Theorem decoder_bounded m chunks r d
    (Hm : 0 <= m) (Hfeed : feed extend (new m) chunks = Some (r, d)) :
  Forall (fun f => zlen f <= m) (ready d) /\
  partial_len d <= 4 + m /\
  (forall e, r = Err e -> partial_len d = 4 /\ m < declared (partial d) /\
     e = FrameTooLong (declared (partial d)) m).
Proof.
  destruct (stream_total m (concat chunks)) as (fs & rest & e & Hst).
  rewrite (feed_stream (new m) chunks fs rest e (in_progress_nil m) Hst) in Hfeed.
  injection Hfeed as <- <-. unfold partial_len. cbn [ready partial new app].
  destruct (stream_sizes _ _ _ _ _ Hm Hst) as [Hfs He]. split; [done|].
  destruct e as [e|]; cbn [answer held]; [|split; [done|by intros e0 [=]]].
  destruct He as (Hl & Hd & ->). rewrite length_take, declared_take, Nat.min_l by (done || lia).
  split; [unfold LEN_PREFIX; lia|]. by intros e0 [= <-].
Qed.

Lemma decoder_bounded_witness :
  let bs := [x00; x00; x00; x01; x41; x00; x00; x00; x09; x01; x02] in
  feed extend (new 8) [bs] = Some (Err (FrameTooLong 9 8), mkDecoder [x00; x00; x00; x09] [[x41]] 8) /\
  partial_len (mkDecoder [x00; x00; x00; x09] [[x41]] 8) <= 4 + 8.
Proof.
  assert (H : feed extend (new 8) [[x00; x00; x00; x01; x41; x00; x00; x00; x09; x01; x02]]
    = Some (Err (FrameTooLong 9 8), mkDecoder [x00; x00; x00; x09] [[x41]] 8))
    by (vm_compute; reflexivity).
  split; [exact H|]. apply (decoder_bounded 8 _ _ _ ltac:(lia) H).
Defined.

(** Reading the handshake frame under its small cap loses nothing and decides
    nothing early: bytes read by [extend_first] before authentication, however they
    are cut and whatever a peer pipelines behind its first frame, always return;
    if they were accepted at most one frame, within the small cap, is queued, and
    once [set_max] raises the cap every continuation decodes exactly as if the
    decoder had had the full cap from the start. *)
Theorem pre_auth_lossless h pre (Hh : h <= MAX_FRAME_LEN) :
  exists r d, feed extend_first (new h) pre = Some (r, d) /\
    (r = Ok tt ->
       (length (ready d) <= 1)%nat /\ Forall (fun f => zlen f <= h) (ready d) /\
       forall bytes, extend (set_max d MAX_FRAME_LEN) bytes
                       = extend (new MAX_FRAME_LEN) (concat pre ++ bytes)).
Proof.
  destruct (feed_first_pre_auth h [] (new h) pre (pre_auth_new h)) as (r & d & Hfeed & Hd).
  exists r, d. split; [done|]. intros ->. specialize (Hd eq_refl). cbn [app] in Hd.
  split_and!.
  - destruct Hd as [_ Hd]. destruct (ready d) as [|p [|]]; [cbn; lia..|done].
  - destruct Hd as [_ Hd]. destruct (ready d) as [|p [|]]; [done|destruct Hd; auto|done].
  - intros bytes. destruct (pre_auth_raise h _ d Hh Hd) as (fs0 & rest0 & H0 & Hrd).
    destruct (stream_total MAX_FRAME_LEN (partial d ++ bytes)) as (fs & rest & e & Hst).
    rewrite (extend_stream (set_max d MAX_FRAME_LEN) bytes _ _ _ _ _ H0 Hst). symmetry.
    apply (extend_stream (new MAX_FRAME_LEN) _ [] []); [apply stream_rest, in_progress_nil|].
    by apply Hrd.
Qed.

Lemma pre_auth_lossless_witness :
  let pre := [[x00; x00; x00; x01; x41; x00; x00]; [x00; x05; x01; x02]] in
  (35 <= MAX_FRAME_LEN) /\
  exists d, feed extend_first (new 35) pre = Some (Ok tt, d) /\
    forall bytes, extend (set_max d MAX_FRAME_LEN) bytes
                    = extend (new MAX_FRAME_LEN) (concat pre ++ bytes).
Proof.
  split; [unfold MAX_FRAME_LEN; lia|].
  destruct (pre_auth_lossless 35 [[x00; x00; x00; x01; x41; x00; x00]; [x00; x05; x01; x02]]
              ltac:(unfold MAX_FRAME_LEN; lia)) as (r & d & Hf & Hd).
  assert (r = Ok tt) as -> by (vm_compute in Hf; by injection Hf as <- _).
  exists d. split; [exact Hf|]. by apply Hd.
Defined.
End Decoder.
