(* ===== verification/Transport.v ===== *)
(** * Record layers and connections

    [viewstamp-proto/src/transport/stream.rs], [passthrough/mod.rs],
    [labeled/mod.rs] and [conn/mod.rs].  The trait [RecordIo] is the class
    [RecordIo] with the source's methods; [Passthrough] is its plain instance and
    [Labeled R] decorates any instance with the cluster and identity handshake;
    [Conn] drives a record layer and a frame decoder behind an explicit lifecycle.
    What a record layer promises its driver is the class [RecordLaws].

    A method that takes [&mut self] returns the new state; one that appends to
    [out: &mut Vec<u8>] returns the bytes it appends, whose number is the count it
    reports. *)

From S2P Require Import Prelude Core Hash Membership Codec Message Messages Frame.

(** ** The record-layer contract ([stream.rs]) *)

Inductive Intake : Type :=
| Done
| Pending (n : nat)
| Failed.

Class RecordIo (R : Type) : Type := {
  handle_transport_data : R -> list byte -> Z -> Intake * R;
  poll_transport_transmit : R -> list byte * R;
  read_plaintext : R -> list byte * R;
  write_plaintext : R -> list byte -> nat * R;
  buffered_outbound : R -> nat;
  is_handshaking : R -> bool;
  peer_identity : R -> option Peer;
  peer_has_closed : R -> bool;
  send_close_notify : R -> R;
  clear_outbound : R -> R;
  is_secure : bool;
}.
Arguments is_secure R {_}.

(** Plaintext a driver would read now. *)
Definition readable `{RecordIo R} (r : R) : list byte := (read_plaintext r).1.

(** What a driver relies on: a read leaves nothing readable, sending does not
    disturb what was received, input is never consumed twice, and a read that
    consumes nothing surfaces nothing. *)
Class RecordLaws (R : Type) `{RecordIo R} : Prop := {
  read_drains r : readable (read_plaintext r).2 = [];
  write_readable r bs : readable (write_plaintext r bs).2 = readable r;
  transmit_readable r : readable (poll_transport_transmit r).2 = readable r;
  close_readable r : readable (send_close_notify r) = readable r;
  write_accepts r bs : ((write_plaintext r bs).1 <= length bs)%nat;
  pending_within r bs now n :
    (handle_transport_data r bs now).1 = Pending n -> (n <= length bs)%nat;
  pending_zero r bs now :
    (handle_transport_data r bs now).1 = Pending 0 -> readable r = [] ->
    readable (handle_transport_data r bs now).2 = [];
}.

(** ** The raw byte pipe ([passthrough/mod.rs]) *)

Module Passthrough.
Record t : Type := mk {
  outbound : list byte;
  inbound : list byte;
}.

Definition RECV_LIMIT : Z := 256 * 1024.
Definition SEND_LIMIT : Z := 64 * 1024 * 1024.

Definition new : t := mk [] [].

(** How many of [offered] bytes a buffer holding [held] takes under [limit]. *)
Definition room (limit : Z) (held offered : list byte) : nat :=
  Z.to_nat (Z.min (sat_sub limit (zlen held)) (zlen offered)).

Definition handle (p : t) (input : list byte) (_now : Z) : Intake * t :=
  let n := room RECV_LIMIT (inbound p) input in
  (if (n <? length input)%nat then Pending n else Done,
   mk (outbound p) (inbound p ++ take n input)).

Definition transmit (p : t) : list byte * t := (outbound p, mk [] (inbound p)).
Definition read (p : t) : list byte * t := (inbound p, mk (outbound p) []).

Definition write (p : t) (plaintext : list byte) : nat * t :=
  let n := room SEND_LIMIT (outbound p) plaintext in
  (n, mk (outbound p ++ take n plaintext) (inbound p)).

Definition clear (p : t) : t := mk [] (inbound p).
End Passthrough.

#[export] Instance passthrough_io : RecordIo Passthrough.t := {
  handle_transport_data := Passthrough.handle;
  poll_transport_transmit := Passthrough.transmit;
  read_plaintext := Passthrough.read;
  write_plaintext := Passthrough.write;
  buffered_outbound p := length (Passthrough.outbound p);
  is_handshaking _ := false;
  peer_identity _ := None;
  peer_has_closed _ := false;
  send_close_notify p := p;
  clear_outbound := Passthrough.clear;
  is_secure := false;
}.

(** ** The hello ([labeled/mod.rs]) *)

Definition HELLO_TAG : byte := x0c.
Definition HELLO_VERSION : byte := x02.
Definition PEER_REPLICA : byte := x00.
Definition PEER_CLIENT : byte := x01.
Definition MAX_HELLO_LEN : nat := 1 + 1 + 16 + 1 + 16.
Definition HELLO_LEN : nat := MAX_HELLO_LEN.

Inductive HelloId : Type :=
| HelloReplica (m : Z)
| HelloClient (c : ClientId).

#[export] Instance HelloId_eq_dec : EqDecision HelloId.
Proof. solve_decision. Defined.

(** [HelloId::from_peer] *)
Definition hello_of_peer (who : Peer) : HelloId :=
  match who with
  | PeerMember m => HelloReplica m
  | PeerReplica r => HelloReplica r
  | PeerClient c => HelloClient c
  end.

Definition encode_hello (cluster : Z) (id : HelloId) : list byte :=
  [HELLO_TAG; HELLO_VERSION] ++ be_bytes 16 cluster ++
  match id with
  | HelloReplica m => PEER_REPLICA :: be_bytes 16 m
  | HelloClient c => PEER_CLIENT :: be_bytes 16 c
  end.

Inductive HelloOutcome : Type :=
| Accepted (id : HelloId) (consumed : nat)
| Incomplete
| Rejected.

Definition classify_hello (buf : list byte) (expected_cluster : Z) : HelloOutcome :=
  if (length buf <? 18)%nat then
    match buf with
    | [] => Incomplete
    | b0 :: r =>
        if negb (bool_decide (b0 = HELLO_TAG)) then Rejected
        else match r with
             | [] => Incomplete
             | b1 :: _ => if negb (bool_decide (b1 = HELLO_VERSION)) then Rejected else Incomplete
             end
    end
  else if negb (bool_decide (buf !! 0%nat = Some HELLO_TAG)) ||
          negb (bool_decide (buf !! 1%nat = Some HELLO_VERSION)) then Rejected
  else if negb (from_be_bytes (take 16 (drop 2 buf)) =? expected_cluster) then Rejected
  else
    match buf !! 18%nat with
    | None => Incomplete
    | Some kind =>
        if negb (bool_decide (kind = PEER_REPLICA)) && negb (bool_decide (kind = PEER_CLIENT))
        then Rejected
        else if (length buf <? HELLO_LEN)%nat then Incomplete
        else
          let id := from_be_bytes (take 16 (drop 19 buf)) in
          Accepted (if bool_decide (kind = PEER_REPLICA) then HelloReplica id else HelloClient id)
                   HELLO_LEN
    end.

(** ** The handshake decorator *)

Record LabelOptions : Type := mkLabelOptions {
  lo_cluster : Z;
  lo_who : Peer;
}.

Module Labeled.
Section labeled.
Context {R : Type} `{RecordIo R}.

Record t : Type := mk {
  inner : R;
  cluster : Z;
  who : Peer;
  outbound_prefix : list byte;
  prefix_flushed : bool;
  is_acceptor : bool;
  inbound_raw : list byte;
  peer : option Peer;
  post_tail : list byte;
  aborted : bool;
}.

Definition with_inner (l : t) (r : R) : t :=
  mk r (cluster l) (who l) (outbound_prefix l) (prefix_flushed l) (is_acceptor l)
     (inbound_raw l) (peer l) (post_tail l) (aborted l).

Definition wrap (r : R) (opts : LabelOptions) (acceptor : bool) : t :=
  mk r (lo_cluster opts) (lo_who opts) [] false acceptor [] None [] false.

Definition queue_prefix (l : t) : t :=
  mk (inner l) (cluster l) (who l)
     (outbound_prefix l ++ encode_hello (cluster l) (hello_of_peer (who l)))
     (prefix_flushed l) (is_acceptor l) (inbound_raw l) (peer l) (post_tail l) (aborted l).

Definition flush_prefix_into_inner (l : t) : t :=
  if prefix_flushed l || bool_decide (outbound_prefix l = []) then l
  else
    let '(accepted, r) := write_plaintext (inner l) (outbound_prefix l) in
    if (accepted =? length (outbound_prefix l))%nat
    then mk r (cluster l) (who l) [] true (is_acceptor l) (inbound_raw l) (peer l) (post_tail l)
            (aborted l)
    else with_inner l r.

Definition dialer (r : R) (opts : LabelOptions) : t :=
  flush_prefix_into_inner (queue_prefix (wrap r opts false)).

Definition acceptor (r : R) (opts : LabelOptions) : t := wrap r opts true.

Definition go_terminal (l : t) : t :=
  mk (clear_outbound (inner l)) (cluster l) (who l) [] (prefix_flushed l) (is_acceptor l)
     [] (peer l) [] true.

(** The peer a validated hello names. *)
Definition peer_of_hello (id : HelloId) : Peer :=
  match id with HelloReplica m => PeerMember m | HelloClient c => PeerClient c end.

(** [consume_inbound]: [false] is [Err(())]. *)
Definition consume_inbound (l : t) : bool * t :=
  match peer l with
  | Some _ => (true, l)
  | None =>
      let '(surfaced, r) := read_plaintext (inner l) in
      let l := with_inner l r in
      match surfaced with
      | [] => (true, l)
      | _ =>
          let want := (MAX_HELLO_LEN - length (inbound_raw l))%nat in
          let n := Nat.min want (length surfaced) in
          let raw := inbound_raw l ++ take n surfaced in
          let leftover := drop n surfaced in
          let keep raw p tail :=
            mk (inner l) (cluster l) (who l) (outbound_prefix l) (prefix_flushed l) (is_acceptor l)
               raw p tail (aborted l) in
          match classify_hello raw (cluster l) with
          | Accepted claimed consumed =>
              let l := keep [] (Some (peer_of_hello claimed))
                            (post_tail l ++ drop consumed raw ++ leftover) in
              (true, if is_acceptor l then flush_prefix_into_inner (queue_prefix l) else l)
          | Incomplete =>
              ((length raw <? MAX_HELLO_LEN)%nat && bool_decide (leftover = []),
               keep raw None (post_tail l))
          | Rejected => (false, keep raw None (post_tail l))
          end
      end
  end.

Definition handle (l : t) (input : list byte) (now : Z) : Intake * t :=
  if aborted l then (Failed, l)
  else
    let '(intake, r) := handle_transport_data (inner l) input now in
    let l := with_inner l r in
    match intake with
    | Failed => (Failed, go_terminal l)
    | _ =>
        let '(ok, l) := consume_inbound l in
        if ok then (intake, l) else (Failed, go_terminal l)
    end.

Definition transmit (l : t) : list byte * t :=
  if aborted l then ([], l)
  else let '(out, r) := poll_transport_transmit (inner l) in (out, with_inner l r).

Definition read (l : t) : list byte * t :=
  if aborted l then ([], l)
  else
    let '(out, r) := read_plaintext (inner l) in
    (post_tail l ++ out,
     mk r (cluster l) (who l) (outbound_prefix l) (prefix_flushed l) (is_acceptor l)
        (inbound_raw l) (peer l) [] (aborted l)).

Definition handshaking (l : t) : bool :=
  aborted l || bool_decide (peer l = None) || negb (prefix_flushed l) || is_handshaking (inner l).

Definition write (l : t) (plaintext : list byte) : nat * t :=
  if aborted l || handshaking l then (0%nat, l)
  else let '(n, r) := write_plaintext (inner l) plaintext in (n, with_inner l r).

Definition identity (l : t) : option Peer := if aborted l then None else peer l.

End labeled.
Arguments t : clear implicits.
End Labeled.

#[export] Instance labeled_io `{RecordIo R} : RecordIo (Labeled.t R) := {
  handle_transport_data := Labeled.handle;
  poll_transport_transmit := Labeled.transmit;
  read_plaintext := Labeled.read;
  write_plaintext := Labeled.write;
  buffered_outbound l := buffered_outbound (Labeled.inner l);
  is_handshaking := Labeled.handshaking;
  peer_identity := Labeled.identity;
  peer_has_closed l := if Labeled.aborted l then true else peer_has_closed (Labeled.inner l);
  send_close_notify l :=
    if Labeled.aborted l then l else Labeled.with_inner l (send_close_notify (Labeled.inner l));
  clear_outbound := Labeled.go_terminal;
  is_secure := is_secure R;
}.

(** ** A connection ([conn/mod.rs]) *)

Module Conn.

Inductive State : Type :=
| Handshaking
| Validated
| Closed (cause : CloseCause.t).

Section conn.
Context {R : Type} `{RecordIo R}.

(** [scratch] is empty between calls and is not kept. *)
Record t : Type := mk {
  r : R;
  decoder : Decoder.FrameDecoder;
  from : option Peer;
  state : State;
  peer_finished : bool;
}.

Definition from_parts (r : R) : t := mk r (Decoder.new MAX_FRAME_LEN) None Handshaking false.

Definition is_closed (c : t) : bool := match state c with Closed _ => true | _ => false end.
Definition close_cause (c : t) : option CloseCause.t :=
  match state c with Closed cause => Some cause | _ => None end.
Definition is_validated (c : t) : bool := match state c with Validated => true | _ => false end.
Definition handshaking (c : t) : bool := is_handshaking (r c).
Definition handshake_identity (c : t) : option Peer := peer_identity (r c).
Definition queued_outbound (c : t) : nat := buffered_outbound (r c).

Definition with_r (c : t) (r : R) : t := mk r (decoder c) (from c) (state c) (peer_finished c).
Definition with_state (c : t) (s : State) : t :=
  mk (r c) (decoder c) (from c) s (peer_finished c).
Definition with_decoder (c : t) (d : Decoder.FrameDecoder) : t :=
  mk (r c) d (from c) (state c) (peer_finished c).

Definition mark_validated (c : t) (identity : Peer) : t :=
  match state c with
  | Handshaking => mk (r c) (decoder c) (Some identity) Validated (peer_finished c)
  | _ => c
  end.

Definition abort (c : t) (cause : CloseCause.t) : t :=
  with_state (with_r c (clear_outbound (r c))) (Closed cause).

(** [buffer_plaintext]: whether any plaintext was drained into the decoder. *)
Definition buffer_plaintext (c : t) : option (result TransportError bool * t) :=
  let '(chunk, r) := read_plaintext (r c) in
  let c := with_r c r in
  match chunk with
  | [] => Some (Ok false, c)
  | _ =>
      '(res, d) ← Decoder.extend (decoder c) chunk;
      Some (match res with Ok _ => Ok true | Err e => Err e end, with_decoder c d)
  end.

(** The intake loop of [handle_data]. *)
Fixpoint intake_loop (fuel : nat) (c : t) (bytes : list byte) (now : Z) :
    option (result TransportError unit * t) :=
  match fuel with
  | O => None
  | Datatypes.S fuel =>
      let '(intake, r') := handle_transport_data (r c) bytes now in
      let c := with_r c r' in
      match intake with
      | Failed => Some (Err RecordRejected, with_state c (Closed CloseCause.RecordRejected))
      | Done =>
          '(res, c) ← buffer_plaintext c;
          match res with
          | Err e => Some (Err e, with_state c (Closed (CloseCause.of_error e)))
          | Ok _ => Some (Ok tt, c)
          end
      | Pending n =>
          '(res, c) ← buffer_plaintext c;
          match res with
          | Err e => Some (Err e, with_state c (Closed (CloseCause.of_error e)))
          | Ok drained =>
              if (n =? 0)%nat && negb drained then
                if is_handshaking (r c)
                then Some (Err RecordRejected, with_state c (Closed CloseCause.RecordRejected))
                else Some (Ok tt, c)
              else intake_loop fuel c (drop n bytes) now
          end
      end
  end.

(** Every second round consumes input: a round that consumes none drained some. *)
Definition intake_fuel (bytes : list byte) : nat := 2 * length bytes + 2.

Definition handle_data (c : t) (bytes : list byte) (eof : bool) (now : Z) :
    option (result TransportError bool * t) :=
  if is_closed c then Some (Ok true, c)
  else
    '(res, c) ← intake_loop (intake_fuel bytes) c bytes now;
    match res with
    | Err e => Some (Err e, c)
    | Ok _ =>
        let fin := eof || peer_has_closed (r c) in
        Some (Ok fin, mk (r c) (decoder c) (from c) (state c) (fin || peer_finished c))
    end.

Definition finalize (c : t) : result TransportError unit * t :=
  if is_closed c then (Ok tt, c)
  else
    let remaining := Decoder.partial_len (decoder c) in
    if 0 <? remaining
    then (Err (TruncatedFrame remaining), with_state c (Closed CloseCause.TruncatedFrame))
    else (Ok tt, with_state c (Closed CloseCause.PeerClosed)).

Definition write_framed (c : t) (framed : list byte) : bool * t :=
  match state c with
  | Validated =>
      let '(accepted, r) := write_plaintext (r c) framed in
      let c := with_r c r in
      if (accepted <? length framed)%nat
      then (true, with_state c (Closed CloseCause.OutboundOverflow))
      else (false, c)
  | _ => (false, c)
  end.

Definition poll_transmit (c : t) : list byte * t :=
  if is_closed c then ([], c)
  else let '(out, r) := poll_transport_transmit (r c) in (out, with_r c r).

Section decode.
(** The message codec is generated code. *)
Context {Msg : Type} (decode_message : list byte -> result CodecError Msg).

(** The decode loop of [poll_decoded] over the queued frames: the messages of
    [from], the queue left, and the error that stopped it. *)
Fixpoint decode_loop (from : Peer) (queue : list (list byte)) :
    list (Peer * Msg) * list (list byte) * option TransportError :=
  match queue with
  | [] => ([], [], None)
  | f :: fs =>
      match decode_message f with
      | Ok msg => let '(out, fs, e) := decode_loop from fs in ((from, msg) :: out, fs, e)
      | Err UnknownMessage => decode_loop from fs
      | Err e => ([], fs, Some (Decode e))
      end
  end.

Definition poll_decoded (c : t) : list (Peer * Msg) * result TransportError unit * t :=
  match state c, from c with
  | Validated, Some p =>
      let d := decoder c in
      let '(out, fs, e) := decode_loop p (Decoder.ready d) in
      let c := with_decoder c (Decoder.mkDecoder (Decoder.partial d) fs (Decoder.max d)) in
      match e with
      | None => (out, Ok tt, c)
      | Some e => (out, Err e, with_state c (Closed (CloseCause.of_error e)))
      end
  | _, _ => ([], Ok tt, c)
  end.
End decode.
End conn.
Arguments t : clear implicits.
End Conn.

(** ** The layers keep the contract *)

Lemma room_le limit held offered : (Passthrough.room limit held offered <= length offered)%nat.
Proof. unfold Passthrough.room, sat_sub. lia. Qed.

Lemma passthrough_handle p bs now n :
  (Passthrough.handle p bs now).1 = Pending n ->
  n = Passthrough.room Passthrough.RECV_LIMIT (Passthrough.inbound p) bs.
Proof. unfold Passthrough.handle. cbn [fst]. by destruct (_ <? _)%nat; intros [=]. Qed.

#[export] Instance passthrough_laws : RecordLaws Passthrough.t.
Proof.
  split; try done.
  - intros r bs. apply room_le.
  - intros r bs now n ->%passthrough_handle. apply room_le.
  - intros r bs now Hn%passthrough_handle Hr. unfold readable in *. cbn in *. rewrite <- Hn. cbn.
    by rewrite app_nil_r.
Qed.

Section labeled_laws.
Context {R : Type} `{RecordLaws R}.
Implicit Types l : Labeled.t R.

Lemma readable_labeled l :
  readable l = if Labeled.aborted l then [] else Labeled.post_tail l ++ readable (Labeled.inner l).
Proof.
  unfold readable. cbn. unfold Labeled.read.
  destruct (Labeled.aborted l); [done|]. by destruct (read_plaintext _).
Qed.

Lemma flush_prefix_keeps l :
  readable (Labeled.inner (Labeled.flush_prefix_into_inner l)) = readable (Labeled.inner l) /\
  Labeled.peer (Labeled.flush_prefix_into_inner l) = Labeled.peer l /\
  Labeled.post_tail (Labeled.flush_prefix_into_inner l) = Labeled.post_tail l /\
  Labeled.aborted (Labeled.flush_prefix_into_inner l) = Labeled.aborted l.
Proof.
  unfold Labeled.flush_prefix_into_inner. case_match; [done|].
  pose proof (write_readable (Labeled.inner l) (Labeled.outbound_prefix l)) as Hw.
  destruct (write_plaintext _ _) as [n r]. cbn [snd] in Hw. by case_match.
Qed.

(** With no identity yet, consuming the inner plaintext leaves nothing readable
    behind unless the hello was accepted. *)
Lemma consume_inbound_gate l ok l' :
  Labeled.consume_inbound l = (ok, l') ->
  Labeled.aborted l' = Labeled.aborted l /\
  (Labeled.peer l <> None -> l' = l) /\
  (Labeled.peer l' = None -> readable (Labeled.inner l') = [] /\ Labeled.post_tail l' = Labeled.post_tail l) /\
  (readable (Labeled.inner l) = [] -> readable (Labeled.inner l') = [] /\ Labeled.post_tail l' = Labeled.post_tail l).
Proof.
  unfold Labeled.consume_inbound. destruct (Labeled.peer l) as [p|] eqn:Hp.
  { intros [= <- <-]. rewrite Hp. done. }
  pose proof (read_drains (Labeled.inner l)) as Hd. unfold readable at 2.
  destruct (read_plaintext (Labeled.inner l)) as [sur r] eqn:Hr. cbn [snd fst] in *.
  destruct sur as [|b sur]; [intros [= <- <-]; by cbn|].
  cbv zeta. set (raw := _ ++ take _ _). destruct (classify_hello raw _) as [id n| |].
  - intros [= <- <-]. cbn [Labeled.is_acceptor]. destruct (Labeled.is_acceptor _).
    + match goal with |- context [Labeled.flush_prefix_into_inner ?x] =>
        destruct (flush_prefix_keeps x) as (E1 & E2 & E3 & E4) end.
      rewrite E1, E2, E3, E4. by cbn.
    + by cbn.
  - intros [= <- <-]. by cbn.
  - intros [= <- <-]. by cbn.
Qed.

#[export] Instance labeled_laws : RecordLaws (Labeled.t R).
Proof.
  split; intros l.
  - rewrite readable_labeled. cbn. unfold Labeled.read. destruct (Labeled.aborted l) eqn:Ha; cbn; [by rewrite ?Ha|].
    pose proof (read_drains (Labeled.inner l)) as Hd. destruct (read_plaintext _). by cbn in *; rewrite ?Ha.
  - intros bs. rewrite !readable_labeled. cbn. unfold Labeled.write.
    destruct (_ || _) eqn:E; [done|]. pose proof (write_readable (Labeled.inner l) bs) as Hw.
    destruct (write_plaintext _ _). cbn in *. by rewrite Hw.
  - rewrite !readable_labeled. cbn. unfold Labeled.transmit.
    destruct (Labeled.aborted l) eqn:E; [by cbn; rewrite ?E|].
    pose proof (transmit_readable (Labeled.inner l)) as Hw.
    destruct (poll_transport_transmit _). cbn in *. by rewrite ?E, Hw.
  - rewrite !readable_labeled. cbn. destruct (Labeled.aborted l) eqn:E; cbn; rewrite ?E; [done|].
    by rewrite close_readable.
  - intros bs. cbn. unfold Labeled.write. destruct (_ || _); [cbn; lia|].
    pose proof (write_accepts (Labeled.inner l) bs) as Hw. by destruct (write_plaintext _ _).
  - intros bs now n. cbn. unfold Labeled.handle. destruct (Labeled.aborted l); [done|].
    pose proof (pending_within (Labeled.inner l) bs now) as Hw.
    destruct (handle_transport_data _ _ _) as [i r]. cbn [fst] in Hw.
    destruct (Labeled.consume_inbound _) as [ok l']. destruct i, ok; cbn; try done.
    intros [= ->]. by apply Hw.
  - intros bs now. rewrite (readable_labeled l). cbn. unfold Labeled.handle.
    destruct (Labeled.aborted l) eqn:Ha; [done|].
    pose proof (pending_zero (Labeled.inner l) bs now) as Hw.
    destruct (handle_transport_data _ _ _) as [i r]. cbn [fst snd] in Hw.
    destruct (Labeled.consume_inbound _) as [ok l'] eqn:Hc.
    destruct i; cbn; destruct ok; cbn; try done.
    intros [= ->] [Ht Hr]%app_eq_nil. apply consume_inbound_gate in Hc as (Ha' & _ & _ & Hc).
    destruct Hc as [E1 E2]; [by apply Hw|]. rewrite readable_labeled, Ha', E1, E2. cbn.
    by rewrite ?Ha, Ht.
Qed.
End labeled_laws.

(** ** A connection's intake *)

Module ConnFacts.
Section conn_facts.
Context {R : Type} `{RecordLaws R}.
Implicit Types c : Conn.t R.

Lemma buffer_plaintext_total c :
  exists res c', Conn.buffer_plaintext c = Some (res, c') /\ readable (Conn.r c') = [] /\
    (readable (Conn.r c) = [] -> res = Ok false).
Proof.
  unfold Conn.buffer_plaintext, readable at 2. pose proof (read_drains (Conn.r c)) as Hd.
  destruct (read_plaintext _) as [chunk r']. cbn [fst snd] in *.
  destruct chunk as [|b chunk]; [do 2 eexists; split; [reflexivity|done]|].
  destruct (Decoder.extend_total (Conn.decoder (Conn.with_r c r')) (b :: chunk)) as [[res d] E].
  rewrite E. cbn. destruct res; do 2 eexists; (split; [reflexivity|done]).
Qed.

Lemma intake_loop_total fuel c bytes now :
  (2 * length bytes + (if decide (readable (Conn.r c) = []) then 1 else 2) <= fuel)%nat ->
  is_Some (Conn.intake_loop fuel c bytes now).
Proof.
  revert c bytes. induction fuel as [|fuel IH]; intros c bytes Hf; [case_decide; lia|].
  cbn [Conn.intake_loop].
  pose proof (pending_within (Conn.r c) bytes now) as Hw.
  pose proof (pending_zero (Conn.r c) bytes now) as Hz.
  destruct (handle_transport_data _ _ _) as [i r']. cbn [fst snd] in *.
  destruct i as [|n|]; [| |done];
    destruct (buffer_plaintext_total (Conn.with_r c r')) as (res & c' & E & Hr & Hn); rewrite E;
    cbn [mbind option_bind]; destruct res as [drained|e]; try done.
  cbn [Conn.with_r Conn.r] in Hn. specialize (Hw n eq_refl).
  destruct (Nat.eqb_spec n 0) as [->|Hn0]; cbn [andb].
  - destruct drained; cbn [negb]; [|by destruct (is_handshaking _)].
    rewrite drop_0. apply IH. rewrite decide_True by done.
    destruct (decide (readable (Conn.r c) = [])) as [Hc|Hc]; [|lia].
    by specialize (Hn (Hz eq_refl Hc)).
  - apply IH. rewrite decide_True, length_drop by done. case_decide; lia.
Qed.

(** Whatever record layer keeps its contract, feeding a read to a connection
    ends: the intake loop stops at the end of the input, at an error, or when the
    layer neither consumes nor surfaces anything. *)
Theorem handle_data_returns c bytes eof now :
  exists res c', Conn.handle_data c bytes eof now = Some (res, c').
Proof.
  unfold Conn.handle_data. destruct (Conn.is_closed c); [eauto|].
  destruct (intake_loop_total (Conn.intake_fuel bytes) c bytes now) as [[res c'] E].
  { unfold Conn.intake_fuel. case_decide; lia. }
  rewrite E. cbn. destruct res; eauto.
Qed.
End conn_facts.

(** *** The life of a labelled connection *)

Section life.
Context {R : Type} `{RecordLaws R}.
Context {Msg : Type} (decode_message : list byte -> result CodecError Msg).
Implicit Types c : Conn.t (Labeled.t R).

(** Everything the coordinator and the router do to a connection. *)
Inductive conn_step : Conn.t (Labeled.t R) -> list (Peer * Msg) -> Conn.t (Labeled.t R) -> Prop :=
| step_data c bytes eof now res c' :
    Conn.handle_data c bytes eof now = Some (res, c') -> conn_step c [] c'
| step_validate c identity : conn_step c [] (Conn.mark_validated c identity)
| step_abort c cause : conn_step c [] (Conn.abort c cause)
| step_finalize c : conn_step c [] (Conn.finalize c).2
| step_write c framed : conn_step c [] (Conn.write_framed c framed).2
| step_transmit c : conn_step c [] (Conn.poll_transmit c).2
| step_poll c out res c' :
    Conn.poll_decoded decode_message c = (out, res, c') -> conn_step c out c'.

(** A connection over a fresh record layer, in either role, and what it delivered. *)
Inductive conn_run (opts : LabelOptions) : Conn.t (Labeled.t R) -> list (Peer * Msg) -> Prop :=
| run_dialer r : readable r = [] -> conn_run opts (Conn.from_parts (Labeled.dialer r opts)) []
| run_acceptor r : readable r = [] -> conn_run opts (Conn.from_parts (Labeled.acceptor r opts)) []
| run_step c got out c' :
    conn_run opts c got -> conn_step c out c' -> conn_run opts c' (got ++ out).

(** Until the hello is accepted nothing is readable and nothing was decoded. *)
Definition quiet (l : Labeled.t R) : Prop :=
  Labeled.peer l = None -> Labeled.aborted l = false ->
  readable (Labeled.inner l) = [] /\ Labeled.post_tail l = [].

Definition gated c : Prop :=
  quiet (Conn.r c) /\
  (Labeled.peer (Conn.r c) = None -> Conn.decoder c = Decoder.new MAX_FRAME_LEN) /\
  match Conn.from c with
  | None => Conn.state c <> Conn.Validated
  | Some _ => Conn.state c <> Conn.Handshaking
  end.

Lemma quiet_readable l : quiet l -> Labeled.peer l = None -> readable l = [].
Proof.
  intros Hq Hp. rewrite readable_labeled. destruct (Labeled.aborted l) eqn:Ha; [done|].
  by destruct (Hq Hp Ha) as [-> ->].
Qed.

(** Record-layer operations keep [quiet] and never forget or change an identity. *)
Lemma handle_quiet l bytes now :
  quiet l ->
  let l' := (handle_transport_data l bytes now).2 in
  quiet l' /\ (Labeled.peer l <> None -> Labeled.peer l' = Labeled.peer l).
Proof.
  intros Hq. cbn. unfold Labeled.handle. destruct (Labeled.aborted l) eqn:Ha; [by split|].
  destruct (handle_transport_data _ _ _) as [i r'].
  assert (Hterm : forall l0, quiet (Labeled.go_terminal l0)) by (by intros l0 _ [=]).
  destruct (Labeled.consume_inbound (Labeled.with_inner l r')) as [ok l'] eqn:Hc.
  apply consume_inbound_gate in Hc as (Ha' & Hsome & Hnone & _). cbn in Hsome.
  assert (Hl : quiet l' /\ (Labeled.peer l <> None -> Labeled.peer l' = Labeled.peer l)).
  { split.
    - intros Hp _. destruct (Labeled.peer l) as [p|] eqn:Hp0.
      + rewrite Hsome in Hp by done. cbn in Hp. by rewrite Hp0 in Hp.
      + destruct (Hnone Hp) as [? E]. destruct (Hq Hp0 Ha) as [_ Ht]. cbn in E. by rewrite E.
    - intros Hp. by rewrite Hsome. }
  destruct i; cbn [snd]; try (destruct ok; cbn [snd]; [done|]); split; auto; intros Hp; try done;
    cbn; by apply Hl.
Qed.

Lemma read_quiet l :
  quiet l -> quiet (read_plaintext l).2 /\ Labeled.peer (read_plaintext l).2 = Labeled.peer l.
Proof.
  intros Hq. cbn. unfold Labeled.read. destruct (Labeled.aborted l) eqn:Ha; [by split|].
  pose proof (read_drains (Labeled.inner l)) as Hd. destruct (read_plaintext _). cbn in *. by split.
Qed.

Lemma write_quiet l bs :
  quiet l -> quiet (write_plaintext l bs).2 /\ Labeled.peer (write_plaintext l bs).2 = Labeled.peer l.
Proof.
  intros Hq. cbn. unfold Labeled.write. destruct (_ || _); [by split|].
  pose proof (write_readable (Labeled.inner l) bs) as Hw. destruct (write_plaintext _ _).
  cbn in *. split; [|done]. intros ? ?. cbn. rewrite Hw. by apply Hq.
Qed.

Lemma transmit_quiet l :
  quiet l -> quiet (poll_transport_transmit l).2 /\
  Labeled.peer (poll_transport_transmit l).2 = Labeled.peer l.
Proof.
  intros Hq. cbn. unfold Labeled.transmit. destruct (Labeled.aborted l) eqn:Ha; [by split|].
  pose proof (transmit_readable (Labeled.inner l)) as Hw. destruct (poll_transport_transmit _).
  cbn in *. split; [|done]. intros ? ?. cbn. rewrite Hw. by apply Hq.
Qed.

Lemma fresh_quiet r opts :
  readable r = [] -> quiet (Labeled.dialer r opts) /\ quiet (Labeled.acceptor r opts).
Proof.
  intros Hr. split; [|by intros _ _].
  unfold Labeled.dialer. set (l := Labeled.queue_prefix _).
  destruct (flush_prefix_keeps l) as (E1 & E2 & E3 & E4). intros _ _. by rewrite E1, E3.
Qed.

Lemma gated_with_r c l :
  gated c -> quiet l -> (Labeled.peer l = None -> Labeled.peer (Conn.r c) = None) ->
  gated (Conn.with_r c l).
Proof. intros (Hq & Hd & Hf) Hl Hp. split; [done|]. split; [|done]. cbn. auto. Qed.

Lemma gated_closed c cause : gated c -> gated (Conn.with_state c (Conn.Closed cause)).
Proof. intros (Hq & Hd & Hf). split; [done|]. split; [done|]. cbn. by destruct (Conn.from c). Qed.

Lemma buffer_plaintext_gated c res c' :
  gated c -> Conn.buffer_plaintext c = Some (res, c') -> gated c'.
Proof.
  intros Hg. pose proof Hg as (Hq & Hd & Hf). unfold Conn.buffer_plaintext.
  pose proof (read_quiet _ Hq) as [Hq' Hp'].
  pose proof (quiet_readable (Conn.r c) Hq) as Hr. unfold readable in Hr.
  destruct (read_plaintext (Conn.r c)) as [chunk l]. cbn [fst snd] in *.
  assert (Hg' : gated (Conn.with_r c l)) by (apply gated_with_r; [done..|by rewrite Hp']).
  destruct chunk as [|b chunk]; [by intros [= <- <-]|].
  destruct (Decoder.extend _ _) as [[res' d]|]; cbn; [|done]. intros [= <- <-].
  destruct Hg' as (? & ? & ?). split; [done|]. split; [|done]. cbn. rewrite Hp'. intros Hp.
  by specialize (Hr Hp).
Qed.

Lemma intake_loop_gated fuel c bytes now res c' :
  gated c -> Conn.intake_loop fuel c bytes now = Some (res, c') -> gated c'.
Proof.
  revert c bytes. induction fuel as [|fuel IH]; intros c bytes Hg; [done|]. cbn [Conn.intake_loop].
  pose proof Hg as (Hq & _). destruct (handle_quiet _ bytes now Hq) as [Hq' Hp'].
  destruct (handle_transport_data _ _ _) as [i l]. cbn [snd] in *.
  assert (Hg' : gated (Conn.with_r c l)).
  { apply gated_with_r; [done..|]. intros Hp. destruct (Labeled.peer (Conn.r c)) eqn:E; [|done].
    by rewrite Hp' in Hp. }
  destruct i as [|n|]; [..|intros [= <- <-]; by apply gated_closed];
    (destruct (Conn.buffer_plaintext _) as [[res1 c1]|] eqn:Hb; cbn [mbind option_bind]; [|done]);
    apply buffer_plaintext_gated in Hb; try done;
    (destruct res1 as [dr|e]; [|intros [= <- <-]; by apply gated_closed]).
  - by intros [= <- <-].
  - destruct (_ && _); [|by apply IH].
    destruct (is_handshaking _); intros [= <- <-]; [by apply gated_closed|done].
Qed.

Lemma conn_step_gated c out c' : gated c -> conn_step c out c' -> gated c'.
Proof.
  intros Hg Hs. pose proof Hg as (Hq & Hd & Hf).
  destruct Hs as [c bytes eof now res c' E|c id|c cause|c|c framed|c|c out res c' E].
  - unfold Conn.handle_data in E. destruct (Conn.is_closed c); [by injection E as <- <-|].
    destruct (Conn.intake_loop _ _ _ _) as [[r1 c1]|] eqn:Hi; [|done]. cbn in E.
    apply intake_loop_gated in Hi; [|done]. destruct r1; by injection E as <- <-.
  - unfold Conn.mark_validated. destruct (Conn.state c); [|done..]. by split.
  - apply gated_closed, gated_with_r; [done| |done]. by intros _ [=].
  - unfold Conn.finalize. destruct (Conn.is_closed c); [done|]. destruct (_ <? _); by apply gated_closed.
  - unfold Conn.write_framed. destruct (Conn.state c) eqn:Hs; [done| |done].
    destruct (write_quiet (Conn.r c) framed Hq) as [Hq' Hp'].
    destruct (write_plaintext _ _) as [n l]. cbn [snd] in *.
    assert (gated (Conn.with_r c l)) by (apply gated_with_r; [done..|by rewrite Hp']).
    destruct (_ <? _)%nat; [by apply gated_closed|done].
  - unfold Conn.poll_transmit. destruct (Conn.is_closed c); [done|].
    destruct (transmit_quiet (Conn.r c) Hq) as [Hq' Hp'].
    destruct (poll_transport_transmit _) as [o l]. cbn [snd] in *.
    by apply gated_with_r; [..|rewrite Hp'].
  - unfold Conn.poll_decoded in E. destruct (Conn.state c) eqn:Hs; [by injection E as <- <- <-| |by injection E as <- <- <-].
    destruct (Conn.from c) as [p|] eqn:Hfr; [|by injection E as <- <- <-].
    destruct (Conn.decode_loop _ _ _) as [[o fs] e] eqn:El.
    assert (Hg' : gated (Conn.with_decoder c (Decoder.mkDecoder (Decoder.partial (Conn.decoder c)) fs
                           (Decoder.max (Conn.decoder c))))).
    { split; [done|]. cbn. rewrite Hfr, Hs. split; [|done]. intros Hp. rewrite (Hd Hp) in *. cbn in El.
      by injection El as <- <- <-. }
    destruct e; injection E as <- <- <-; [by apply gated_closed|done].
Qed.

Lemma decode_loop_from p queue out fs e :
  Conn.decode_loop decode_message p queue = (out, fs, e) -> Forall (fun x => x.1 = p) out.
Proof.
  revert out. induction queue as [|f queue IH]; intros out; cbn; [by intros [= <- <- <-]|].
  destruct (decode_message f) as [m|err].
  - destruct (Conn.decode_loop _ _ _) as [[o fs'] e']. intros [= <- <- <-]. constructor; auto.
  - destruct err; try (intros [= <- <- <-]; done). apply IH.
Qed.

(** What a step never undoes: a bound sender and a proven identity. *)
Definition keeps c c' : Prop :=
  (Conn.from c <> None -> Conn.from c' = Conn.from c) /\
  (Labeled.peer (Conn.r c) <> None -> Labeled.peer (Conn.r c') = Labeled.peer (Conn.r c)).

Lemma keeps_trans c1 c2 c3 : keeps c1 c2 -> keeps c2 c3 -> keeps c1 c3.
Proof.
  intros [Hf Hp] [Hf' Hp']. split; intros Hn.
  - rewrite Hf' by (by rewrite Hf). by apply Hf.
  - rewrite Hp' by (by rewrite Hp). by apply Hp.
Qed.

Lemma buffer_plaintext_keeps c res c' :
  gated c -> Conn.buffer_plaintext c = Some (res, c') -> keeps c c'.
Proof.
  intros (Hq & _). unfold Conn.buffer_plaintext. pose proof (read_quiet _ Hq) as [_ Hp'].
  destruct (read_plaintext (Conn.r c)) as [[|b chunk] l]; [by intros [= <- <-]|].
  destruct (Decoder.extend _ _) as [[res' d]|]; cbn; [|done]. by intros [= <- <-].
Qed.

Lemma intake_loop_keeps fuel c bytes now res c' :
  gated c -> Conn.intake_loop fuel c bytes now = Some (res, c') -> keeps c c'.
Proof.
  revert c bytes. induction fuel as [|fuel IH]; intros c bytes Hg; [done|]. cbn [Conn.intake_loop].
  pose proof Hg as (Hq & _). destruct (handle_quiet _ bytes now Hq) as [Hq' Hp'].
  destruct (handle_transport_data _ _ _) as [i l]. cbn [snd] in *.
  assert (Hg' : gated (Conn.with_r c l)).
  { apply gated_with_r; [done..|]. intros Hp. destruct (Labeled.peer (Conn.r c)) eqn:E; [|done].
    by rewrite Hp' in Hp. }
  assert (Hk : keeps c (Conn.with_r c l)) by done.
  destruct i as [|n|]; [..|by intros [= <- <-]];
    (destruct (Conn.buffer_plaintext _) as [[res1 c1]|] eqn:Hb; cbn [mbind option_bind]; [|done]);
    pose proof (keeps_trans _ _ _ Hk (buffer_plaintext_keeps _ _ _ Hg' Hb)) as Hk1;
    apply buffer_plaintext_gated in Hb; try done;
    (destruct res1 as [dr|e]; [|by intros [= <- <-]]).
  - by intros [= <- <-].
  - destruct (_ && _); [destruct (is_handshaking _); by intros [= <- <-]|].
    intros E. eapply keeps_trans; [exact Hk1|]. by eapply IH.
Qed.

(** One step delivers only under the bound identity, and only once one is proven. *)
Lemma conn_step_from c out c' :
  gated c -> conn_step c out c' ->
  keeps c c' /\ Forall (fun x => Conn.from c' = Some x.1) out /\
  (Labeled.peer (Conn.r c) = None -> out = []).
Proof.
  intros Hg Hs. pose proof Hg as (Hq & Hd & Hf).
  destruct Hs as [c bytes eof now res c' E|c id|c cause|c|c framed|c|c out res c' E];
    try (split; [|by split]).
  - unfold Conn.handle_data in E. destruct (Conn.is_closed c); [by injection E as <- <-|].
    destruct (Conn.intake_loop _ _ _ _) as [[r1 c1]|] eqn:Hi; [|done]. cbn in E.
    apply intake_loop_keeps in Hi; [|done]. destruct r1; by injection E as <- <-.
  - unfold Conn.mark_validated. destruct (Conn.state c) eqn:Hs; [|done..]. split; [|done].
    cbn. intros Hn. by destruct (Conn.from c).
  - done.
  - unfold Conn.finalize. destruct (Conn.is_closed c); [done|]. by destruct (_ <? _).
  - unfold Conn.write_framed. destruct (Conn.state c); [done| |done].
    destruct (write_quiet (Conn.r c) framed Hq) as [_ Hp'].
    destruct (write_plaintext _ _) as [n l]. cbn [snd] in *. by destruct (_ <? _)%nat.
  - unfold Conn.poll_transmit. destruct (Conn.is_closed c); [done|].
    destruct (transmit_quiet (Conn.r c) Hq) as [_ Hp']. by destruct (poll_transport_transmit _).
  - unfold Conn.poll_decoded in E. destruct (Conn.state c) eqn:Hs; [by injection E as <- <- <-| |by injection E as <- <- <-].
    destruct (Conn.from c) as [p|] eqn:Hfr; [|by injection E as <- <- <-].
    destruct (Conn.decode_loop _ _ _) as [[o fs] e] eqn:El. pose proof (decode_loop_from _ _ _ _ _ El) as Ho.
    assert (Hk : out = o /\ Conn.from c' = Some p /\ Conn.r c' = Conn.r c)
      by (destruct e; injection E as <- <- <-; by rewrite <- Hfr).
    destruct Hk as (-> & Hfr' & Hr'). split; [split; [by rewrite Hfr', Hfr|by rewrite Hr']|]. split.
    + eapply Forall_impl; [exact Ho|]. intros x ->. done.
    + intros Hp. rewrite (Hd Hp) in El. cbn in El. by injection El as <- <- <-.
Qed.

Lemma run_quiet opts c got c' : conn_run opts c got -> conn_step c [] c' -> conn_run opts c' got.
Proof. intros Hr Hs. rewrite <- (app_nil_r got). by eapply run_step. Qed.

Lemma conn_run_gated opts c got : conn_run opts c got -> gated c.
Proof.
  induction 1 as [r Hr|r Hr|c got out c' _ IH Hs]; [| |by eapply conn_step_gated].
  - split; [|by split]. by apply fresh_quiet.
  - split; [|by split]. by apply fresh_quiet.
Qed.

(** C28. A connection over any record layer that keeps its contract delivers nothing
    before its peer's hello is accepted (no plaintext is readable, the decoder is
    untouched), and everything it ever delivers carries the one sender the router
    bound: a sender is never replaced. *)
Theorem nothing_before_identity opts c got (Hrun : conn_run opts c got) :
  (Labeled.peer (Conn.r c) = None ->
     got = [] /\ readable (Conn.r c) = [] /\ Conn.decoder c = Decoder.new MAX_FRAME_LEN) /\
  Forall (fun x => Conn.from c = Some x.1) got.
Proof.
  pose proof (conn_run_gated _ _ _ Hrun) as Hg. split.
  - intros Hp. pose proof Hg as (Hq & Hd & _). split; [|split; [by apply quiet_readable|by apply Hd]].
    revert Hp. clear Hg Hq Hd. induction Hrun as [r Hr|r Hr|c got out c' Hrun IH Hs]; [done..|].
    intros Hp. destruct (conn_step_from _ _ _ (conn_run_gated _ _ _ Hrun) Hs) as ([_ Hk] & _ & Ho).
    destruct (Labeled.peer (Conn.r c)) eqn:E; [by rewrite Hk in Hp|]. by rewrite IH, Ho.
  - clear Hg. induction Hrun as [r Hr|r Hr|c got out c' Hrun IH Hs]; [done..|].
    destruct (conn_step_from _ _ _ (conn_run_gated _ _ _ Hrun) Hs) as ([Hk _] & Ho & _).
    apply Forall_app. split; [|done]. eapply Forall_impl; [exact IH|]. intros x Hx. rewrite Hk; [done|by rewrite Hx].
Qed.
End life.

(** An accepted connection: the hello in two reads, the router's binding, a frame,
    and its delivery. *)
Definition demo_opts : LabelOptions := mkLabelOptions 7 (PeerMember 1).
Definition demo_stream : list byte :=
  encode_hello 7 (HelloReplica 2) ++ encode_frame [x41].
Definition demo_decode (f : list byte) : result CodecError nat := Ok (length f).
Definition demo_start : Conn.t (Labeled.t Passthrough.t) :=
  Conn.from_parts (Labeled.acceptor Passthrough.new demo_opts).
Definition demo_read (c : Conn.t (Labeled.t Passthrough.t)) (bs : list byte) :=
  default c (snd <$> Conn.handle_data c bs false 0).
Definition demo_half := demo_read demo_start (take 20 demo_stream).
Definition demo_full := demo_read demo_half (drop 20 demo_stream).
Definition demo_bound := Conn.mark_validated demo_full (PeerReplica 1).
Definition demo_done := (Conn.poll_decoded demo_decode demo_bound).2.

Lemma demo_run : conn_run demo_decode demo_opts demo_done [(PeerReplica 1, 1%nat)].
Proof.
  assert (H1 : conn_run demo_decode demo_opts demo_half []).
  { apply (run_quiet _ _ demo_start); [by apply (run_acceptor _ _ Passthrough.new)|].
    apply (step_data _ _ (take 20 demo_stream) false 0 (Ok false)). vm_compute. reflexivity. }
  assert (H2 : conn_run demo_decode demo_opts demo_full []).
  { apply (run_quiet _ _ demo_half); [exact H1|].
    apply (step_data _ _ (drop 20 demo_stream) false 0 (Ok false)). vm_compute. reflexivity. }
  assert (H3 : conn_run demo_decode demo_opts demo_bound []).
  { apply (run_quiet _ _ demo_full); [exact H2|]. apply step_validate. }
  apply (run_step _ _ demo_bound [] [(PeerReplica 1, 1%nat)] demo_done H3).
  apply (step_poll _ _ _ (Ok tt)). vm_compute. reflexivity.
Qed.

Lemma handle_data_returns_witness :
  exists res c', Conn.handle_data demo_start demo_stream false 0 = Some (res, c').
Proof. exact (handle_data_returns demo_start demo_stream false 0). Defined.

Lemma nothing_before_identity_witness :
  Conn.from demo_done = Some (PeerReplica 1) /\
  Forall (fun x => Conn.from demo_done = Some x.1) [(PeerReplica 1, 1%nat)].
Proof.
  split; [vm_compute; reflexivity|].
  apply (nothing_before_identity demo_decode demo_opts demo_done _ demo_run).
Defined.
End ConnFacts.

(** ** The hello gate *)

Module Hello.

Definition id_fits (id : HelloId) : Prop :=
  match id with HelloReplica m => fits 128 m | HelloClient c => fits 128 c end.

Lemma length_encode_hello cluster id : length (encode_hello cluster id) = HELLO_LEN.
Proof. unfold encode_hello. rewrite !length_app. destruct id; cbn [length]; by rewrite !length_be_bytes. Qed.

(** A buffer of at least a hello's length, field by field. *)
Lemma hello_fields buf :
  (HELLO_LEN <= length buf)%nat ->
  exists (a b : byte) (cl : list byte) (k : byte) (id rest : list byte),
    buf = a :: b :: cl ++ k :: id ++ rest /\ length cl = 16%nat /\ length id = 16%nat.
Proof.
  unfold HELLO_LEN, MAX_HELLO_LEN. intros Hl.
  destruct buf as [|a [|b buf]]; [cbn in Hl; lia..|]. cbn [length] in Hl.
  exists a, b, (take 16 buf).
  destruct (drop 16 buf) as [|k tl] eqn:E.
  { apply (f_equal length) in E. rewrite length_drop in E. cbn in E. lia. }
  assert (Hk : (16 <= length tl)%nat).
  { apply (f_equal length) in E. rewrite length_drop in E. cbn in E. lia. }
  exists k, (take 16 tl), (drop 16 tl). rewrite take_drop, <- E, take_drop, !length_take.
  split; [done|]. lia.
Qed.

Lemma classify_fields (a b : byte) (cl : list byte) (k : byte) (id rest : list byte) c :
  length cl = 16%nat -> length id = 16%nat ->
  classify_hello (a :: b :: cl ++ k :: id ++ rest) c =
    if negb (bool_decide (a = HELLO_TAG)) || negb (bool_decide (b = HELLO_VERSION)) then Rejected
    else if negb (from_be_bytes cl =? c) then Rejected
    else if negb (bool_decide (k = PEER_REPLICA)) && negb (bool_decide (k = PEER_CLIENT)) then Rejected
    else Accepted (if bool_decide (k = PEER_REPLICA) then HelloReplica (from_be_bytes id)
                   else HelloClient (from_be_bytes id)) HELLO_LEN.
Proof.
  intros Hcl Hid. unfold classify_hello.
  assert (Hlen : (HELLO_LEN <= length (a :: b :: cl ++ k :: id ++ rest))%nat).
  { unfold HELLO_LEN, MAX_HELLO_LEN. cbn [length]. rewrite length_app. cbn [length]. rewrite length_app. lia. }
  rewrite (proj2 (Nat.ltb_ge _ 18)), (proj2 (Nat.ltb_ge _ HELLO_LEN)) by (unfold HELLO_LEN, MAX_HELLO_LEN in *; lia).
  set (buf := a :: b :: _). cbv zeta.
  replace (buf !! 0%nat) with (Some a) by done. replace (buf !! 1%nat) with (Some b) by done.
  assert (H2 : drop 2 buf = cl ++ k :: id ++ rest) by done.
  replace (take 16 (drop 2 buf)) with cl by (rewrite H2; by rewrite take_app_length').
  assert (Hd : drop 18 buf = k :: id ++ rest).
  { change 18%nat with (2 + 16)%nat. rewrite <- drop_drop, H2. by rewrite drop_app_length' by (by rewrite Hcl). }
  replace (buf !! 18%nat) with (Some k).
  2: { transitivity (drop 18 buf !! 0%nat); [by rewrite Hd|by rewrite lookup_drop]. }
  replace (take 16 (drop 19 buf)) with id.
  2: { change 19%nat with (18 + 1)%nat. rewrite <- drop_drop, Hd. change (drop 1 (k :: id ++ rest)) with (id ++ rest).
       by rewrite take_app_length'. }
  assert (Hb : forall x y : byte, bool_decide (Some x = Some y) = bool_decide (x = y)).
  { intros x y. apply bool_decide_ext. split; [by intros [= ->]|by intros ->]. }
  by rewrite !Hb.
Qed.

Lemma classify_incomplete buf c : classify_hello buf c = Incomplete -> (length buf < HELLO_LEN)%nat.
Proof.
  intros H. destruct (decide (length buf < HELLO_LEN)%nat) as [|Hl]; [done|].
  destruct (hello_fields buf) as (a & b & cl & k & id & rest & -> & Hcl & Hid); [lia|].
  rewrite classify_fields in H by done. by repeat (destruct (_ || _) || destruct (negb _)).
Qed.

Lemma classify_accepted_long buf c id n : classify_hello buf c = Accepted id n -> (HELLO_LEN <= length buf)%nat.
Proof.
  unfold classify_hello. destruct (Nat.ltb_spec (length buf) 18).
  { destruct buf as [|? [|? ?]]; by repeat case_match. }
  destruct (Nat.ltb_spec (length buf) HELLO_LEN); [|done]. by repeat case_match.
Qed.

(** Which bytes are refused: a wrong tag, version, cluster or kind, each as soon as
    it has arrived. *)
Definition refused (buf : list byte) (c : Z) : Prop :=
  (exists x, buf !! 0%nat = Some x /\ x <> HELLO_TAG) \/
  (exists x, buf !! 1%nat = Some x /\ x <> HELLO_VERSION) \/
  ((18 <= length buf)%nat /\ from_be_bytes (take 16 (drop 2 buf)) <> c) \/
  (exists k, buf !! 18%nat = Some k /\ k <> PEER_REPLICA /\ k <> PEER_CLIENT).

Lemma refused_app a b c : refused a c -> refused (a ++ b) c.
Proof.
  intros [(x & Hx & ?)|[(x & Hx & ?)|[[Hl Hc]|(k & Hk & ? & ?)]]].
  - left. exists x. split; [by apply lookup_app_l_Some|done].
  - right; left. exists x. split; [by apply lookup_app_l_Some|done].
  - right; right; left. rewrite length_app. split; [lia|].
    rewrite drop_app_le by lia. rewrite take_app_le; [done|]. rewrite length_drop. lia.
  - right; right; right. exists k. split; [by apply lookup_app_l_Some|done].
Qed.

Lemma classify_rejected_short buf c :
  (length buf < 18)%nat -> classify_hello buf c = Rejected <-> refused buf c.
Proof.
  intros Hl. unfold classify_hello. rewrite (proj2 (Nat.ltb_lt _ _)) by done.
  assert (Hk : forall x, buf !! 18%nat = Some x -> False).
  { intros x Hx%lookup_lt_Some. lia. }
  unfold refused. destruct buf as [|x0 [|x1 buf]]; cbn [lookup list_lookup].
  - split; [done|]. intros [(?&?&?)|[(?&?&?)|[[? _]|(?&?&?)]]]; try done. lia.
  - case_bool_decide; cbn [negb]; split; try done.
    + intros [(?&[= <-]&?)|[(?&?&?)|[[? _]|(?&?&?)]]]; try done. lia.
    + intros _. left. eauto.
  - case_bool_decide; cbn [negb]; [case_bool_decide; cbn [negb]|]; split; try done.
    + intros [(?&[= <-]&?)|[(?&[= <-]&?)|[[? _]|(?&Hx&?)]]]; try done; [lia|].
      by apply Hk in Hx.
    + intros _. right; left. eauto.
    + intros _. left. eauto.
Qed.

Lemma classify_rejected_long buf c :
  (18 <= length buf)%nat -> classify_hello buf c = Rejected <-> refused buf c.
Proof.
  intros Hl. unfold classify_hello. rewrite (proj2 (Nat.ltb_ge _ 18)) by done.
  destruct (lookup_lt_is_Some_2 buf 0%nat) as [x0 H0]; [lia|].
  destruct (lookup_lt_is_Some_2 buf 1%nat) as [x1 H1]; [lia|].
  unfold refused. rewrite H0, H1. case_bool_decide as E0; [injection E0 as ->|].
  2: { split; [|done]. intros _. left. exists x0. split; [done|]. by intros ->. }
  case_bool_decide as E1; cbn [negb orb]; [injection E1 as ->|].
  2: { split; [|done]. intros _. right; left. exists x1. split; [done|]. by intros ->. }
  destruct (Z.eqb_spec (from_be_bytes (take 16 (drop 2 buf))) c) as [Ec|Ec]; cbn [negb].
  2: { split; [|done]. intros _. right; right; left. done. }
  split.
  - destruct (buf !! 18%nat) as [k|]; [|done]. intros H. right; right; right. exists k. split; [done|].
    case_bool_decide; [by destruct (_ <? _)%nat|]. case_bool_decide; [by destruct (_ <? _)%nat|]. done.
  - intros [(?&[= <-]&?)|[(?&[= <-]&?)|[[_ ?]|(k&->&Hr&Hc)]]]; try done.
    by rewrite !bool_decide_eq_false_2.
Qed.

Lemma classify_rejected buf c : classify_hello buf c = Rejected <-> refused buf c.
Proof.
  destruct (decide (length buf < 18)%nat); [by apply classify_rejected_short|].
  apply classify_rejected_long. lia.
Qed.

Lemma classify_encoded c id rest :
  fits 128 c -> id_fits id -> classify_hello (encode_hello c id ++ rest) c = Accepted id HELLO_LEN.
Proof.
  intros Hc Hid. unfold encode_hello. cbn [app].
  assert (H16 : forall z, fits 128 z -> from_be_bytes (be_bytes 16 z) = z).
  { intros z Hz. by apply be_bytes_roundtrip. }
  destruct id as [m|m]; rewrite <- app_assoc; cbn [app];
    rewrite classify_fields by apply length_be_bytes; rewrite !H16 by done;
    rewrite Z.eqb_refl; done.
Qed.

Lemma accepted_fields (a b : byte) (cl : list byte) (k : byte) (id rest : list byte) c hid n :
  length cl = 16%nat -> length id = 16%nat ->
  classify_hello (a :: b :: cl ++ k :: id ++ rest) c = Accepted hid n ->
  n = HELLO_LEN /\ id_fits hid /\
  exists rest', a :: b :: cl ++ k :: id ++ rest = encode_hello c hid ++ rest'.
Proof.
  intros Hcl Hid. rewrite classify_fields by done.
  destruct (bool_decide_reflect (a = HELLO_TAG)) as [->|]; [|done].
  destruct (bool_decide_reflect (b = HELLO_VERSION)) as [->|]; [|done]. cbn [negb orb].
  destruct (Z.eqb_spec (from_be_bytes cl) c) as [<-|]; [|done]. cbn [negb].
  assert (Hf : fits 128 (from_be_bytes id)).
  { pose proof (from_be_bytes_range id) as H. rewrite Hid in H. exact H. }
  assert (Hb : forall l : list byte, length l = 16%nat -> be_bytes 16 (from_be_bytes l) = l).
  { intros l <-. apply be_bytes_from_be_bytes. }
  destruct (bool_decide_reflect (k = PEER_REPLICA)) as [->|]; cbn [negb andb];
    [|destruct (bool_decide_reflect (k = PEER_CLIENT)) as [->|]; cbn [negb]; [|done]];
    intros [= <- <-]; (split; [done|]); (split; [done|]); exists rest; unfold encode_hello;
    rewrite !Hb by done; cbn [app]; by rewrite <- app_assoc.
Qed.

(** The hello is accepted exactly when the bytes begin with a hello for this
    cluster, and then names the identity that was encoded; every proper prefix of
    such a hello is still waited for; nothing that was refused is accepted later. *)
Theorem hello_exact c (Hc : fits 128 c) buf :
  (forall id n, classify_hello buf c = Accepted id n <->
     n = HELLO_LEN /\ id_fits id /\ exists rest, buf = encode_hello c id ++ rest) /\
  (forall id more, id_fits id -> more <> [] -> buf ++ more = encode_hello c id ->
     classify_hello buf c = Incomplete) /\
  (classify_hello buf c = Rejected -> forall more, classify_hello (buf ++ more) c = Rejected).
Proof.
  split; [intros id n; split|split].
  - intros H. destruct (hello_fields buf) as (a & b & cl & k & i & rest & -> & Hcl & Hi);
      [by eapply classify_accepted_long|].
    by apply accepted_fields in H.
  - intros (-> & Hid & rest & ->). by apply classify_encoded.
  - intros id more Hid Hm E. destruct (classify_hello buf c) as [id' n| |] eqn:H; [|done|].
    + apply classify_accepted_long in H. apply (f_equal length) in E.
      rewrite length_app, length_encode_hello in E. destruct more; [done|cbn [length] in E; lia].
    + apply classify_rejected in H. apply (refused_app _ more) in H. rewrite E in H.
      apply classify_rejected in H. pose proof (classify_encoded c id [] Hc Hid) as H'.
      rewrite app_nil_r in H'. congruence.
  - intros H more. apply classify_rejected, refused_app, classify_rejected, H.
Qed.

Lemma hello_exact_witness :
  fits 128 7 /\ classify_hello (encode_hello 7 (HelloReplica 2) ++ [x41]) 7 = Accepted (HelloReplica 2) 35.
Proof.
  assert (H7 : fits 128 7) by (unfold fits; lia). split; [exact H7|].
  apply (proj1 (hello_exact 7 H7 _)). split; [reflexivity|]. split; [cbn; unfold fits; lia|].
  exists [x41]. reflexivity.
Defined.
End Hello.

(** ** Reads over a labelled raw connection *)

Module Reads.
Section reads.
Context (opts : LabelOptions) (acc : bool) (now : Z).

Abbreviation conn := (Conn.t (Labeled.t Passthrough.t)).

Definition own_hello : list byte := encode_hello (lo_cluster opts) (hello_of_peer (lo_who opts)).

(** A connection in either role over a fresh pipe. *)
Definition start : conn :=
  Conn.from_parts
    (if acc then Labeled.acceptor Passthrough.new opts else Labeled.dialer Passthrough.new opts).

(** A run of reads, up to the first error. *)
Fixpoint reads (c : conn) (chunks : list (list byte)) : option (result TransportError unit * conn) :=
  match chunks with
  | [] => Some (Ok tt, c)
  | b :: bs =>
      '(res, c) ← Conn.handle_data c b false now;
      match res with
      | Ok _ => reads c bs
      | Err e => Some (Err e, c)
      end
  end.

(** The three shapes such a connection takes: waiting for the rest of the hello,
    past the handshake, and refused. *)
Definition waiting (seen : list byte) : conn :=
  Conn.mk
    (Labeled.mk (Passthrough.mk (if acc then [] else own_hello) []) (lo_cluster opts) (lo_who opts)
       [] (negb acc) acc seen None [] false)
    (Decoder.new MAX_FRAME_LEN) None Conn.Handshaking false.

Definition settled (id : HelloId) (e : option TransportError) (d : Decoder.FrameDecoder) : conn :=
  Conn.mk
    (Labeled.mk (Passthrough.mk own_hello []) (lo_cluster opts) (lo_who opts)
       [] true acc [] (Some (Labeled.peer_of_hello id)) [] false)
    d None
    (match e with None => Conn.Handshaking | Some e => Conn.Closed (CloseCause.of_error e) end) false.

Definition refused : conn :=
  Conn.mk
    (Labeled.mk (Passthrough.mk [] []) (lo_cluster opts) (lo_who opts)
       [] (negb acc) acc [] None [] true)
    (Decoder.new MAX_FRAME_LEN) None (Conn.Closed CloseCause.RecordRejected) false.

(** The hello's verdict on the bytes seen so far. *)
Definition gate (w : list byte) : HelloOutcome :=
  classify_hello (take MAX_HELLO_LEN w) (lo_cluster opts).

Lemma own_hello_room : Passthrough.room Passthrough.SEND_LIMIT [] own_hello = HELLO_LEN.
Proof.
  unfold Passthrough.room, own_hello. rewrite Hello.length_encode_hello. reflexivity.
Qed.

Lemma flush_own (l : Labeled.t Passthrough.t) :
  Labeled.cluster l = lo_cluster opts -> Labeled.who l = lo_who opts ->
  Labeled.outbound_prefix l = [] -> Labeled.prefix_flushed l = false ->
  Passthrough.outbound (Labeled.inner l) = [] ->
  Labeled.flush_prefix_into_inner (Labeled.queue_prefix l) =
    Labeled.mk (Passthrough.mk own_hello (Passthrough.inbound (Labeled.inner l)))
      (Labeled.cluster l) (Labeled.who l) [] true (Labeled.is_acceptor l) (Labeled.inbound_raw l)
      (Labeled.peer l) (Labeled.post_tail l) (Labeled.aborted l).
Proof.
  intros Hc Hw Hp Hf Ho. unfold Labeled.flush_prefix_into_inner, Labeled.queue_prefix.
  cbn [Labeled.prefix_flushed Labeled.outbound_prefix Labeled.inner]. rewrite Hf, Hp, Hc, Hw. cbn [app orb].
  fold own_hello. rewrite bool_decide_eq_false_2 by (intros E; apply (f_equal length) in E;
    unfold own_hello in E; by rewrite Hello.length_encode_hello in E).
  cbn [write_plaintext passthrough_io]. unfold Passthrough.write. rewrite Ho, own_hello_room.
  assert (Hl : length own_hello = HELLO_LEN) by apply Hello.length_encode_hello.
  rewrite <- Hl, Nat.eqb_refl, firstn_all. done.
Qed.

Lemma start_waiting : start = waiting [].
Proof.
  unfold start, waiting. destruct acc; [done|]. cbn [negb]. unfold Labeled.dialer.
  by rewrite flush_own.
Qed.

(** One intake of the pipe: a slice of the input, bounded by the receive limit. *)
Definition slice (bytes : list byte) : nat := Passthrough.room Passthrough.RECV_LIMIT [] bytes.

Lemma slice_spec bytes :
  (slice bytes <= length bytes)%nat /\ (bytes <> [] -> (0 < slice bytes)%nat) /\
  (slice bytes = length bytes \/ (MAX_HELLO_LEN <= slice bytes)%nat).
Proof.
  unfold slice, Passthrough.room, Passthrough.RECV_LIMIT, MAX_HELLO_LEN, sat_sub. cbn [length].
  split_and!; [lia| |lia]. destruct bytes; [done|]. cbn [length]. lia.
Qed.

Lemma pipe_handle out bytes :
  Passthrough.handle (Passthrough.mk out []) bytes now =
    (if (slice bytes <? length bytes)%nat then Pending (slice bytes) else Done,
     Passthrough.mk out (take (slice bytes) bytes)).
Proof. done. Qed.

Lemma slice_cases bytes :
  slice bytes = length bytes /\ take (slice bytes) bytes = bytes /\ drop (slice bytes) bytes = [] \/
  (0 < slice bytes < length bytes)%nat.
Proof.
  pose proof (slice_spec bytes) as (Hle & Hpos & _).
  destruct (decide (slice bytes = length bytes)) as [E|]; [left|right].
  - rewrite E. by rewrite firstn_all, drop_all.
  - destruct bytes; [done|]. specialize (Hpos ltac:(done)). lia.
Qed.

(** Past the handshake the connection is its decoder. *)
Definition surfaced (id : HelloId) (tail inb : list byte) (d : Decoder.FrameDecoder) : conn :=
  Conn.mk
    (Labeled.mk (Passthrough.mk own_hello inb) (lo_cluster opts) (lo_who opts)
       [] true acc [] (Some (Labeled.peer_of_hello id)) tail false)
    d None Conn.Handshaking false.

Lemma surfaced_buffer id tail inb d fs rest e :
  Decoder.max d = MAX_FRAME_LEN -> Decoder.in_progress MAX_FRAME_LEN (Decoder.partial d) ->
  Decoder.stream MAX_FRAME_LEN (Decoder.partial d ++ tail ++ inb) fs rest e ->
  Conn.buffer_plaintext (surfaced id tail inb d) =
    Some (match e with None => Ok (negb (bool_decide (tail ++ inb = []))) | Some e => Err e end,
          settled id None (Decoder.mkDecoder (Decoder.held e rest) (Decoder.ready d ++ fs) MAX_FRAME_LEN)).
Proof.
  intros Hmax Hin Hst. unfold Conn.buffer_plaintext, surfaced. cbn [Conn.r read_plaintext labeled_io].
  unfold Labeled.read. cbn [Labeled.aborted Labeled.inner read_plaintext passthrough_io Passthrough.read
    Passthrough.inbound Labeled.post_tail].
  destruct (tail ++ inb) as [|b chunk] eqn:E.
  - rewrite app_nil_r in Hst. destruct (Decoder.stream_short _ _ _ _ _ Hin Hst) as (-> & -> & ->).
    cbn. rewrite app_nil_r, <- Hmax. by destruct d.
  - cbn [Conn.with_r Conn.decoder]. rewrite <- Hmax in Hst, Hin.
    rewrite (Decoder.extend_stream d _ _ _ _ _ _ (Decoder.stream_rest _ _ Hin) Hst). rewrite Hmax.
    by destruct e.
Qed.

Lemma settled_handle id d bytes :
  handle_transport_data (Conn.r (settled id None d)) bytes now =
    (if (slice bytes <? length bytes)%nat then Pending (slice bytes) else Done,
     Conn.r (surfaced id [] (take (slice bytes) bytes) d)).
Proof.
  cbn [settled Conn.r handle_transport_data labeled_io]. unfold Labeled.handle.
  cbn [Labeled.aborted Labeled.inner handle_transport_data passthrough_io]. rewrite pipe_handle.
  by destruct (_ <? _)%nat.
Qed.

Lemma settled_intake fuel id d bytes fs rest e :
  Decoder.max d = MAX_FRAME_LEN -> Decoder.in_progress MAX_FRAME_LEN (Decoder.partial d) ->
  Decoder.stream MAX_FRAME_LEN (Decoder.partial d ++ bytes) fs rest e ->
  (length bytes < fuel)%nat ->
  Conn.intake_loop fuel (settled id None d) bytes now =
    Some (Decoder.answer e,
          settled id e (Decoder.mkDecoder (Decoder.held e rest) (Decoder.ready d ++ fs) MAX_FRAME_LEN)).
Proof.
  revert d bytes fs. induction fuel as [|fuel IH]; intros d bytes fs Hmax Hin Hst Hf; [lia|].
  destruct (Decoder.stream_total MAX_FRAME_LEN (Decoder.partial d ++ take (slice bytes) bytes))
    as (fs1 & rest1 & e1 & H1).
  pose proof (surfaced_buffer id [] _ _ _ _ _ Hmax Hin H1) as Hb.
  cbn [Conn.intake_loop]. rewrite settled_handle.
  change (Conn.with_r (settled id None d) (Conn.r (surfaced id [] ?s d))) with (surfaced id [] s d).
  destruct (slice_cases bytes) as [(Hn & Ht & Hd)|Hn].
  - rewrite (proj2 (Nat.ltb_ge _ _)) by lia. rewrite Hb. rewrite Ht in H1.
    destruct (Decoder.stream_det _ _ _ _ _ _ _ _ H1 Hst) as (-> & -> & ->). by destruct e.
  - rewrite (proj2 (Nat.ltb_lt _ _)) by lia. rewrite Hb. cbn [mbind option_bind].
    rewrite <- (take_drop (slice bytes) bytes), app_assoc in Hst. destruct e1 as [e1|].
    + destruct (Decoder.stream_err_app _ _ (drop (slice bytes) bytes) _ _ _ H1) as [H2 Hl].
      destruct (Decoder.stream_det _ _ _ _ _ _ _ _ Hst H2) as (-> & -> & ->).
      cbn [Decoder.answer Decoder.held]. by rewrite take_app_le by done.
    + rewrite (proj2 (Nat.eqb_neq _ _)) by lia. cbn [andb Decoder.held].
      destruct (Decoder.stream_total MAX_FRAME_LEN (rest1 ++ drop (slice bytes) bytes)) as (fs2 & rest2 & e2 & H2).
      pose proof (Decoder.stream_app _ _ _ _ _ _ _ _ H1 H2) as H3.
      destruct (Decoder.stream_det _ _ _ _ _ _ _ _ Hst H3) as (-> & -> & ->).
      rewrite (IH (Decoder.mkDecoder rest1 _ _) _ fs2); [|done| |done|rewrite length_drop; lia].
      * cbn [Decoder.ready]. by rewrite <- app_assoc.
      * by eapply Decoder.stream_rest_in_progress.
Qed.

Lemma raw_eq (seen s : list byte) :
  (length seen < MAX_HELLO_LEN)%nat ->
  let n := Nat.min (MAX_HELLO_LEN - length seen) (length s) in
  seen ++ take n s = take MAX_HELLO_LEN (seen ++ s) /\ drop n s = drop MAX_HELLO_LEN (seen ++ s).
Proof.
  intros Hl n. subst n. rewrite take_app, drop_app, (take_ge seen), (drop_ge seen) by lia. cbn [app].
  destruct (decide (MAX_HELLO_LEN - length seen <= length s)%nat).
  - by rewrite Nat.min_l.
  - rewrite Nat.min_r by lia. by rewrite !(take_ge s), !(drop_ge s) by lia.
Qed.

(** Before the handshake one slice either completes the hello, extends it, or is
    refused. *)
Lemma waiting_handle seen bytes :
  (length seen < MAX_HELLO_LEN)%nat -> bytes <> [] ->
  let s := take (slice bytes) bytes in
  let i := if (slice bytes <? length bytes)%nat then Pending (slice bytes) else Done in
  handle_transport_data (Conn.r (waiting seen)) bytes now =
    match gate (seen ++ s) with
    | Accepted id _ =>
        (i, Conn.r (surfaced id (drop MAX_HELLO_LEN (seen ++ s)) [] (Decoder.new MAX_FRAME_LEN)))
    | Incomplete => (i, Conn.r (waiting (seen ++ s)))
    | Rejected => (Failed, Conn.r refused)
    end.
Proof.
  intros Hl Hb s i. cbn [waiting Conn.r handle_transport_data labeled_io]. unfold Labeled.handle.
  cbn [Labeled.aborted Labeled.inner handle_transport_data passthrough_io]. rewrite pipe_handle.
  fold s i. destruct (raw_eq seen s Hl) as [Eraw Eleft].
  assert (Hs : s <> []).
  { pose proof (slice_spec bytes) as (Hle & Hpos & _). intros E. apply (f_equal length) in E.
    subst s. rewrite length_take in E. specialize (Hpos Hb). cbn in E. lia. }
  unfold Labeled.consume_inbound.
  cbn [Labeled.with_inner Labeled.peer Labeled.inner read_plaintext passthrough_io Passthrough.read
    Passthrough.inbound Passthrough.outbound Labeled.inbound_raw Labeled.cluster].
  destruct s as [|b0 s0] eqn:Es; [done|]. rewrite <- Es in *. clear Es b0 s0. cbv zeta.
  rewrite Eraw, Eleft. unfold gate. cbn [Labeled.cluster].
  assert (Hi : i <> Failed) by (subst i; by destruct (_ <? _)%nat).
  destruct (classify_hello (take MAX_HELLO_LEN (seen ++ s)) (lo_cluster opts)) as [id n| |] eqn:Hcl.
  - assert (Hn : n = HELLO_LEN).
    { clear -Hcl. unfold classify_hello in Hcl. repeat case_match; congruence. }
    assert (Hdr : drop n (take MAX_HELLO_LEN (seen ++ s)) = []).
    { rewrite Hn. apply drop_ge. rewrite length_take. unfold HELLO_LEN. lia. }
    rewrite Hdr. cbn [app Labeled.is_acceptor Labeled.post_tail]. unfold surfaced. cbn [Conn.r].
    destruct acc; [rewrite flush_own by done|]; destruct i; done.
  - apply Hello.classify_incomplete in Hcl. rewrite length_take in Hcl.
    rewrite (take_ge (seen ++ s)), (drop_ge (seen ++ s)) by (unfold HELLO_LEN in Hcl; lia).
    rewrite (proj2 (Nat.ltb_lt _ _)) by (unfold HELLO_LEN in Hcl; lia). cbn [andb]. by destruct i.
  - by destruct i.
Qed.

Lemma gate_slice seen bytes : gate (seen ++ take (slice bytes) bytes) = gate (seen ++ bytes).
Proof.
  destruct (slice_spec bytes) as (Hle & _ & [E|E]); [by rewrite E, firstn_all|].
  unfold gate. f_equal.
  rewrite <- (take_app_le (seen ++ take (slice bytes) bytes) (drop (slice bytes) bytes))
    by (rewrite length_app, length_take; lia).
  by rewrite <- app_assoc, take_drop.
Qed.

Lemma gate_app_stable w x v : gate w = v -> v <> Incomplete -> gate (w ++ x) = v.
Proof.
  unfold gate. intros H Hv. destruct (decide (MAX_HELLO_LEN <= length w)%nat) as [Hl|Hl].
  { by rewrite take_app_le. }
  rewrite take_ge in H by lia. destruct v as [id n| |]; [|done|].
  - apply Hello.classify_accepted_long in H. unfold HELLO_LEN in H. lia.
  - rewrite take_app, take_ge by lia. apply Hello.classify_rejected, Hello.refused_app.
    by apply Hello.classify_rejected.
Qed.

Lemma gate_incomplete w : gate w = Incomplete -> (length w < MAX_HELLO_LEN)%nat.
Proof. intros H%Hello.classify_incomplete. rewrite length_take in H. unfold HELLO_LEN in H. lia. Qed.

(** The connection after the bytes [w], and the answer of its last read. *)
Definition verdict (w : list byte) (out : result TransportError unit * conn) : Prop :=
  match gate w with
  | Accepted id _ =>
      exists fs rest e, Decoder.stream MAX_FRAME_LEN (drop MAX_HELLO_LEN w) fs rest e /\
        out = (Decoder.answer e,
               settled id e (Decoder.mkDecoder (Decoder.held e rest) fs MAX_FRAME_LEN))
  | Incomplete => out = (Ok tt, waiting w)
  | Rejected => out = (Err RecordRejected, refused)
  end.

Lemma waiting_buffer seen : Conn.buffer_plaintext (waiting seen) = Some (Ok false, waiting seen).
Proof. done. Qed.

(** The slice that completes the hello, and the slices behind it. *)
Lemma accepted_intake fuel seen bytes id n :
  gate (seen ++ bytes) = Accepted id n -> (length bytes < fuel)%nat ->
  let s := take (slice bytes) bytes in
  exists out,
    ('(res, c) ← Conn.buffer_plaintext
                   (surfaced id (drop MAX_HELLO_LEN (seen ++ s)) [] (Decoder.new MAX_FRAME_LEN));
     match res with
     | Err e => Some (Err e, Conn.with_state c (Conn.Closed (CloseCause.of_error e)))
     | Ok drained =>
         if (slice bytes <? length bytes)%nat
         then Conn.intake_loop fuel c (drop (slice bytes) bytes) now
         else Some (Ok tt, c)
     end) = Some out /\ verdict (seen ++ bytes) out.
Proof.
  intros Hg Hf s. unfold verdict. rewrite Hg.
  assert (Hlong : (MAX_HELLO_LEN <= length (seen ++ s))%nat).
  { subst s. rewrite <- gate_slice in Hg. apply Hello.classify_accepted_long in Hg.
    rewrite length_take in Hg. unfold HELLO_LEN in Hg. lia. }
  destruct (Decoder.stream_total MAX_FRAME_LEN (drop MAX_HELLO_LEN (seen ++ s))) as (fs1 & rest1 & e1 & H1).
  rewrite (surfaced_buffer id _ _ _ fs1 rest1 e1); [|done|apply Decoder.in_progress_nil|].
  2: { cbn [Decoder.partial Decoder.new app]. by rewrite app_nil_r. }
  cbn [mbind option_bind Decoder.ready Decoder.new app].
  assert (Hsplit : drop MAX_HELLO_LEN (seen ++ bytes) =
                   drop MAX_HELLO_LEN (seen ++ s) ++ drop (slice bytes) bytes).
  { rewrite <- drop_app_le by done. subst s. by rewrite <- app_assoc, take_drop. }
  rewrite Hsplit. destruct e1 as [e1|].
  - destruct (Decoder.stream_err_app _ _ (drop (slice bytes) bytes) _ _ _ H1) as [H2 Hl].
    eexists. split; [reflexivity|]. exists fs1, (rest1 ++ drop (slice bytes) bytes), (Some e1).
    split; [done|]. cbn [Decoder.held Decoder.answer]. by rewrite take_app_le.
  - destruct (Decoder.stream_total MAX_FRAME_LEN (rest1 ++ drop (slice bytes) bytes)) as (fs2 & rest2 & e2 & H2).
    pose proof (Decoder.stream_app _ _ _ _ _ _ _ _ H1 H2) as H3.
    pose proof (Decoder.stream_rest_in_progress _ _ _ _ H1) as Hin1. cbn [Decoder.held].
    destruct (slice_cases bytes) as [(Hn & Ht & Hd)|Hn].
    + rewrite (proj2 (Nat.ltb_ge _ _)) by lia. eexists. split; [reflexivity|].
      exists fs1, rest1, None. rewrite Hd, app_nil_r. by split.
    + rewrite (proj2 (Nat.ltb_lt _ _)) by lia.
      rewrite (settled_intake _ _ (Decoder.mkDecoder rest1 fs1 MAX_FRAME_LEN) _ fs2 rest2 e2);
        [|done|done|done|rewrite length_drop; lia].
      eexists. split; [reflexivity|]. by exists (fs1 ++ fs2), rest2, e2.
Qed.

Lemma waiting_intake fuel seen bytes :
  (length seen < MAX_HELLO_LEN)%nat -> gate seen = Incomplete -> (length bytes + 1 < fuel)%nat ->
  exists out, Conn.intake_loop fuel (waiting seen) bytes now = Some out /\ verdict (seen ++ bytes) out.
Proof.
  intros Hl Hg Hf. destruct fuel as [|fuel]; [lia|].
  destruct (decide (bytes = [])) as [->|Hb].
  { rewrite app_nil_r. exists (Ok tt, waiting seen). split; [done|]. unfold verdict. by rewrite Hg. }
  cbn [Conn.intake_loop]. rewrite waiting_handle by done. rewrite gate_slice.
  pose proof (slice_spec bytes) as (Hle & Hpos & Hor). specialize (Hpos Hb).
  destruct (gate (seen ++ bytes)) as [id n| |] eqn:Hgw.
  - destruct (accepted_intake fuel seen bytes id n Hgw) as (out & Ho & Hv); [lia|].
    exists out. split; [|done]. rewrite <- Ho.
    change (Conn.with_r (waiting seen) (Conn.r (surfaced id ?t [] (Decoder.new MAX_FRAME_LEN))))
      with (surfaced id t [] (Decoder.new MAX_FRAME_LEN)).
    destruct (_ <? _)%nat; [|by destruct (Conn.buffer_plaintext _) as [[[] ?]|]].
    destruct (Conn.buffer_plaintext _) as [[[] ?]|]; cbn [mbind option_bind]; try done.
    by rewrite (proj2 (Nat.eqb_neq (slice bytes) 0)) by lia.
  - apply gate_incomplete in Hgw as Hlw. rewrite length_app in Hlw.
    assert (Hs : slice bytes = length bytes) by lia. rewrite Hs, Nat.ltb_irrefl, firstn_all.
    change (Conn.with_r (waiting seen) (Conn.r (waiting ?w))) with (waiting w).
    rewrite waiting_buffer. eexists. split; [reflexivity|]. unfold verdict. by rewrite Hgw.
  - eexists. split; [reflexivity|]. unfold verdict. by rewrite Hgw.
Qed.

(** What a read without end of stream does beyond the intake loop: nothing. *)
Lemma handle_data_open (c : conn) bytes res (c' : conn) :
  Conn.state c = Conn.Handshaking ->
  Conn.intake_loop (Conn.intake_fuel bytes) c bytes now = Some (res, c') ->
  (res = Ok tt -> peer_has_closed (Conn.r c') = false) ->
  Conn.handle_data c bytes false now =
    Some (match res with Ok _ => Ok false | Err e => Err e end, c').
Proof.
  intros Hs Hi Hp. unfold Conn.handle_data, Conn.is_closed. rewrite Hs, Hi. cbn [mbind option_bind].
  destruct res as [[]|e]; [|done]. rewrite Hp by done. by destruct c'.
Qed.

Lemma reads_settled id d chunks fs rest e :
  Decoder.max d = MAX_FRAME_LEN -> Decoder.in_progress MAX_FRAME_LEN (Decoder.partial d) ->
  Decoder.stream MAX_FRAME_LEN (Decoder.partial d ++ concat chunks) fs rest e ->
  reads (settled id None d) chunks =
    Some (Decoder.answer e,
          settled id e (Decoder.mkDecoder (Decoder.held e rest) (Decoder.ready d ++ fs) MAX_FRAME_LEN)).
Proof.
  revert d fs. induction chunks as [|b bs IH]; intros d fs Hmax Hin Hst; cbn [reads concat] in *.
  { rewrite app_nil_r in Hst. destruct (Decoder.stream_short _ _ _ _ _ Hin Hst) as (-> & -> & ->).
    cbn. rewrite app_nil_r, <- Hmax. by destruct d. }
  destruct (Decoder.stream_total MAX_FRAME_LEN (Decoder.partial d ++ b)) as (fs1 & rest1 & e1 & H1).
  rewrite app_assoc in Hst.
  rewrite (handle_data_open _ _ (Decoder.answer e1) (settled id e1
    (Decoder.mkDecoder (Decoder.held e1 rest1) (Decoder.ready d ++ fs1) MAX_FRAME_LEN)));
    [|done|apply settled_intake; try done; unfold Conn.intake_fuel; lia|by destruct e1].
  cbn [mbind option_bind]. destruct e1 as [e1|]; cbn [Decoder.answer Decoder.held].
  - destruct (Decoder.stream_err_app _ _ (concat bs) _ _ _ H1) as [H2 Hl].
    destruct (Decoder.stream_det _ _ _ _ _ _ _ _ Hst H2) as (-> & -> & ->).
    cbn [Decoder.answer Decoder.held]. by rewrite take_app_le by done.
  - destruct (Decoder.stream_total MAX_FRAME_LEN (rest1 ++ concat bs)) as (fs2 & rest2 & e2 & H2).
    pose proof (Decoder.stream_app _ _ _ _ _ _ _ _ H1 H2) as H3.
    destruct (Decoder.stream_det _ _ _ _ _ _ _ _ Hst H3) as (-> & -> & ->).
    rewrite (IH (Decoder.mkDecoder rest1 _ _) fs2); [|done| |done].
    + cbn [Decoder.ready]. by rewrite <- app_assoc.
    + by eapply Decoder.stream_rest_in_progress.
Qed.

Lemma reads_waiting seen chunks :
  gate seen = Incomplete ->
  exists out, reads (waiting seen) chunks = Some out /\ verdict (seen ++ concat chunks) out.
Proof.
  revert seen. induction chunks as [|b bs IH]; intros seen Hg; cbn [reads concat].
  { exists (Ok tt, waiting seen). rewrite app_nil_r. unfold verdict. by rewrite Hg. }
  destruct (waiting_intake (Conn.intake_fuel b) seen b) as ([res c] & Hi & Hv);
    [by apply gate_incomplete|done|unfold Conn.intake_fuel; lia|].
  rewrite app_assoc. unfold verdict in Hv. destruct (gate (seen ++ b)) as [id n| |] eqn:Hgw.
  - destruct Hv as (fs1 & rest1 & e1 & H1 & [= -> ->]).
    rewrite (handle_data_open (waiting seen) _ _ _ eq_refl Hi) by (by destruct e1). cbn [mbind option_bind].
    unfold verdict. rewrite (gate_app_stable _ _ _ Hgw) by done.
    assert (Hl : (MAX_HELLO_LEN <= length (seen ++ b))%nat).
    { apply Hello.classify_accepted_long in Hgw. rewrite length_take in Hgw. unfold HELLO_LEN in Hgw. lia. }
    rewrite drop_app_le by done. destruct e1 as [e1|]; cbn [Decoder.answer Decoder.held].
    + destruct (Decoder.stream_err_app _ _ (concat bs) _ _ _ H1) as [H2 Hl2]. eexists. split; [reflexivity|].
      eexists _, _, _. split; [exact H2|]. cbn [Decoder.held Decoder.answer]. by rewrite take_app_le by done.
    + destruct (Decoder.stream_total MAX_FRAME_LEN (rest1 ++ concat bs)) as (fs2 & rest2 & e2 & H2).
      rewrite (reads_settled _ (Decoder.mkDecoder rest1 fs1 MAX_FRAME_LEN) _ fs2 rest2 e2);
        [|done|by eapply Decoder.stream_rest_in_progress|done].
      eexists. split; [reflexivity|]. exists (fs1 ++ fs2), rest2, e2. split; [|done].
      by eapply Decoder.stream_app.
  - injection Hv as -> ->. rewrite (handle_data_open (waiting seen) _ _ _ eq_refl Hi) by done. by apply IH.
  - injection Hv as -> ->. rewrite (handle_data_open (waiting seen) _ _ _ eq_refl Hi) by done. cbn.
    eexists. split; [reflexivity|]. unfold verdict. by rewrite (gate_app_stable _ _ _ Hgw).
Qed.

(** C27. A labelled connection over a raw pipe, dialed or accepted, as a function of
    the bytes received: however they are cut into reads, the reads return; as long
    as the bytes are a proper part of a hello nothing is decoded and no identity is
    known; bytes that are no hello for this cluster close the connection with
    nothing decoded; behind a hello the identity is the one it names and the
    decoder holds exactly the frames of the bytes after it. *)
Theorem labelled_reads_exact chunks :
  let w := concat chunks in
  exists res c, reads start chunks = Some (res, c) /\
    match classify_hello (take MAX_HELLO_LEN w) (lo_cluster opts) with
    | Accepted id _ =>
        Decoder.extend (Decoder.new MAX_FRAME_LEN) (drop MAX_HELLO_LEN w) = Some (res, Conn.decoder c) /\
        Conn.handshake_identity c = Some (Labeled.peer_of_hello id) /\ Conn.handshaking c = false
    | Incomplete =>
        res = Ok tt /\ Conn.decoder c = Decoder.new MAX_FRAME_LEN /\
        Conn.handshake_identity c = None /\ Conn.state c = Conn.Handshaking
    | Rejected =>
        res = Err RecordRejected /\ Conn.decoder c = Decoder.new MAX_FRAME_LEN /\
        Conn.handshake_identity c = None /\ Conn.state c = Conn.Closed CloseCause.RecordRejected
    end.
Proof.
  intros w. rewrite start_waiting. destruct (reads_waiting [] chunks) as ([res c] & Hr & Hv); [done|].
  exists res, c. split; [done|]. cbn [app] in Hv. fold w in Hv. unfold verdict, gate in Hv.
  destruct (classify_hello _ _) as [id n| |]; [|by injection Hv as -> ->..].
  destruct Hv as (fs & rest & e & Hst & [= -> ->]). split; [|done].
  apply (Decoder.extend_stream (Decoder.new MAX_FRAME_LEN) _ [] []);
    [apply Decoder.stream_rest, Decoder.in_progress_nil|done].
Qed.
End reads.
End Reads.
