(* ===== verification/Router.v ===== *)
(** * The connection table and its coordinator

    [viewstamp-proto/src/transport/router/mod.rs] (the per-peer connection table:
    who is authoritative for a peer, fan-out, reaping with standby promotion, fair
    transmit) and the connection-facing part of [transport/coordinator/mod.rs]
    (binding an attested member to its slot, quarantine, reconciling the table with
    a new membership, pumping).

    The record layer is any [RecordIo]; the endpoint is seen through what the
    coordinator asks of it ([slot_of], [local], [config_id]), and a message through
    its size bound and its encoding, which generated code computes.  A [BTreeMap] is
    a [gmap]; where its order matters ([ids], the first standby, fan-out) the keys
    are listed in ascending order. *)

From S2P Require Import Prelude Core Hash Membership Codec Message Messages Frame Transport.

Definition DEFAULT_OUTBOUND_CAP : Z := 64 * 1024 * 1024.
Definition QUARANTINE_CONN_LIMIT : nat := 8.

Abbreviation ConnId := Z (only parsing).

Module Router.
Section router.
Context {R : Type} `{RecordIo R}.

Record Entry : Type := mkEntry {
  conn : Conn.t R;
  peer : Peer;
  dialed : bool;
  attested_member : option MemberId;
}.

Record PeerRouter : Type := mkRouter {
  conns : gmap Z Entry;
  peers : gmap Peer ConnId;
  next : Z;
  cursor : ConnId;
  outbound_cap : Z;
  oversized_dropped : Z;
  closed : list (ConnId * CloseCause.t);
}.

Definition with_outbound_cap (cap : Z) : PeerRouter := mkRouter ∅ ∅ 0 0 cap 0 [].
Definition new : PeerRouter := with_outbound_cap DEFAULT_OUTBOUND_CAP.

Definition set_conns (t : PeerRouter) (cs : gmap Z Entry) : PeerRouter :=
  mkRouter cs (peers t) (next t) (cursor t) (outbound_cap t) (oversized_dropped t) (closed t).
Definition set_peers (t : PeerRouter) (ps : gmap Peer ConnId) : PeerRouter :=
  mkRouter (conns t) ps (next t) (cursor t) (outbound_cap t) (oversized_dropped t) (closed t).

(** [conn_mut]: rewriting one connection in place. *)
Definition update_conn (t : PeerRouter) (id : ConnId) (f : Conn.t R -> Conn.t R) : PeerRouter :=
  set_conns t (alter (fun e => mkEntry (f (conn e)) (peer e) (dialed e) (attested_member e)) id (conns t)).

Definition authoritative (t : PeerRouter) (p : Peer) : option ConnId := peers t !! p.

(** The handles in ascending order ([BTreeMap::keys]). *)
Definition ids (t : PeerRouter) : list ConnId := merge_sort Z.le (elements (dom (conns t))).

Definition max_outbound_backlog (t : PeerRouter) : Z := sat_mul 64 (outbound_cap t) 2.

Definition poll_closed (t : PeerRouter) : option (ConnId * CloseCause.t) * PeerRouter :=
  match closed t with
  | [] => (None, t)
  | c :: cs =>
      (Some c, mkRouter (conns t) (peers t) (next t) (cursor t) (outbound_cap t) (oversized_dropped t) cs)
  end.

(** The replica slots with an authoritative connection, in key order. *)
Definition bound_replica_slots (t : PeerRouter) : list ReplicaId :=
  merge_sort Z.le (omap (fun p => as_replica p) (elements (dom (peers t)))).

(** ** Establishment *)

(** Binding a routing key: the entry, its connection and the authoritative map. *)
Definition bind (t : PeerRouter) (id : ConnId) (key : Peer) (member : option MemberId) : PeerRouter :=
  let t := set_conns t
    (alter (fun e => mkEntry (Conn.mark_validated (conn e) key) key (dialed e)
                       (match member with Some m => Some m | None => attested_member e end))
       id (conns t)) in
  set_peers t (<[key := id]> (peers t)).

Definition abort_conn (t : PeerRouter) (id : ConnId) (cause : CloseCause.t) : PeerRouter :=
  update_conn t id (fun c => Conn.abort c cause).

(** The guard every establishment starts with. *)
Definition unsettled (e : Entry) : bool :=
  Conn.is_closed (conn e) || Conn.is_validated (conn e) || Conn.handshaking (conn e).

Definition note_established (t : PeerRouter) (id : ConnId) : PeerRouter :=
  match conns t !! id with
  | None => t
  | Some e =>
      if unsettled e then t
      else
        let bind_client identity :=
          match identity with
          | PeerReplica _ | PeerMember _ => t
          | PeerClient _ => bind t id identity None
          end in
        match Conn.handshake_identity (conn e), dialed e with
        | Some a, true =>
            if negb (bool_decide (a = peer e)) then abort_conn t id CloseCause.IdentityRejected
            else bind_client a
        | Some a, false => bind_client a
        | None, _ => bind_client (peer e)
        end
  end.

Definition register (t : PeerRouter) (p : Peer) (c : Conn.t R) (dial : bool) : ConnId * PeerRouter :=
  let id := next t in
  let t := mkRouter (<[id := mkEntry c p dial None]> (conns t)) (peers t) (next t + 1) (cursor t)
             (outbound_cap t) (oversized_dropped t) (closed t) in
  (id, note_established t id).
Definition register_dialed (t : PeerRouter) (p : Peer) (c : Conn.t R) := register t p c true.
Definition register_accepted (t : PeerRouter) (p : Peer) (c : Conn.t R) := register t p c false.

Definition note_established_member (t : PeerRouter) (id : ConnId) (member : MemberId)
    (resolved_slot : ReplicaId) : PeerRouter :=
  match conns t !! id with
  | None => t
  | Some e =>
      if unsettled e then t
      else if dialed e && negb (bool_decide (PeerReplica resolved_slot = peer e))
      then abort_conn t id CloseCause.IdentityRejected
      else bind t id (PeerReplica resolved_slot) (Some member)
  end.

Definition note_established_quarantined (t : PeerRouter) (id : ConnId) (member : MemberId) : PeerRouter :=
  match conns t !! id with
  | None => t
  | Some e =>
      if unsettled e then t
      else if dialed e then abort_conn t id CloseCause.IdentityRejected
      else bind t id (PeerMember member) (Some member)
  end.

Definition is_validated (t : PeerRouter) (id : ConnId) : bool :=
  match conns t !! id with Some e => Conn.is_validated (conn e) | None => false end.

Definition validated_member_conns (t : PeerRouter) : list (ConnId * MemberId * Peer) :=
  omap (fun id =>
          e ← conns t !! id;
          if Conn.is_validated (conn e) then m ← attested_member e; Some (id, m, peer e) else None)
       (ids t).

(** ** Reaping and promotion *)

(** The first surviving validated connection of a peer, in handle order. *)
Definition serves (t : PeerRouter) (p : Peer) (id : ConnId) : bool :=
  match conns t !! id with
  | Some x => bool_decide (peer x = p) && Conn.is_validated (conn x)
  | None => false
  end.

Definition standby (t : PeerRouter) (p : Peer) : option ConnId := List.find (serves t p) (ids t).

Definition reap (t : PeerRouter) (id : ConnId) : bool * PeerRouter :=
  match conns t !! id with
  | None => (false, t)
  | Some e =>
      match Conn.close_cause (conn e) with
      | None => (false, t)
      | Some cause =>
          let was_authoritative := bool_decide (peers t !! peer e = Some id) in
          let t := mkRouter (delete id (conns t)) (peers t) (next t) (cursor t) (outbound_cap t)
                     (oversized_dropped t) (closed t ++ [(id, cause)]) in
          if was_authoritative then
            let t := set_peers t (delete (peer e) (peers t)) in
            (true, match standby t (peer e) with
                   | Some rid => set_peers t (<[peer e := rid]> (peers t))
                   | None => t
                   end)
          else (true, t)
      end
  end.

Definition reap_closed (t : PeerRouter) : PeerRouter :=
  fold_left (fun t id => (reap t id).2) (ids t) t.

(** ** Routing *)

(** The authoritative connections of the replicas, in slot order. *)
Definition replica_conns (t : PeerRouter) (except : option ReplicaId) : list ConnId :=
  omap (fun s => if bool_decide (except = Some s) then None else peers t !! PeerReplica s)
       (bound_replica_slots t).

Definition resolve (t : PeerRouter) (to : Recipient) (self_id : ReplicaId) : list ConnId :=
  match to with
  | To p => option_list (authoritative t p)
  | Backups => replica_conns t (Some self_id)
  | AllReplicas => replica_conns t None
  end.

(** One target of a fan-out: whether the connection was closed by it. *)
Definition send_one (cap : Z) (framed : list byte) (c : Conn.t R) : bool * Conn.t R :=
  if negb (Conn.is_validated c) then (false, c)
  else if cap <? sat_add 64 (Z.of_nat (Conn.queued_outbound c)) (zlen framed)
  then (true, Conn.abort c CloseCause.OutboundOverflow)
  else Conn.write_framed c framed.

Fixpoint fan_out (t : PeerRouter) (framed : list byte) (targets : list ConnId) : nat * PeerRouter :=
  match targets with
  | [] => (0%nat, t)
  | id :: rest =>
      match conns t !! id with
      | None => fan_out t framed rest
      | Some e =>
          let '(shut, c) := send_one (outbound_cap t) framed (conn e) in
          let '(n, t) := fan_out (update_conn t id (fun _ => c)) framed rest in
          ((if shut then Datatypes.S n else n), t)
      end
  end.

Definition frame_fits (len : Z) : bool := len <=? MAX_FRAME_LEN.

Definition drop_oversized (t : PeerRouter) : PeerRouter :=
  mkRouter (conns t) (peers t) (next t) (cursor t) (outbound_cap t)
    (sat_add 64 (oversized_dropped t) 1) (closed t).

(** [route]: [bound] is [msg.wire_size_bound()], [encoded] the encoded message. *)
Definition route (t : PeerRouter) (to : Recipient) (bound : Z) (encoded : list byte)
    (self_id : ReplicaId) : nat * PeerRouter :=
  if MAX_FRAME_LEN <? bound then (0%nat, drop_oversized t)
  else if negb (frame_fits (zlen encoded)) then (0%nat, drop_oversized t)
  else
    let '(dropped, t) := fan_out t (encode_frame encoded) (resolve t to self_id) in
    (dropped, if (0 <? dropped)%nat then reap_closed t else t).

(** ** Transmit *)

(** The first handle, in the given order, with outbound bytes; connections polled on
    the way keep the state their poll left. *)
Fixpoint poll_first (t : PeerRouter) (order : list ConnId) : option (ConnId * list byte) * PeerRouter :=
  match order with
  | [] => (None, t)
  | id :: rest =>
      match conns t !! id with
      | None => poll_first t rest
      | Some e =>
          if Conn.is_closed (conn e) then poll_first t rest
          else
            let '(out, c) := Conn.poll_transmit (conn e) in
            let t := update_conn t id (fun _ => c) in
            match out with
            | [] => poll_first t rest
            | _ =>
                (Some (id, out),
                 mkRouter (conns t) (peers t) (next t) (wrapping_add 64 id 1) (outbound_cap t)
                   (oversized_dropped t) (closed t))
            end
      end
  end.

Definition poll_transmit (t : PeerRouter) : option (ConnId * list byte) * PeerRouter :=
  poll_first t (filter (fun id => cursor t <= id) (ids t) ++ filter (fun id => id < cursor t) (ids t)).



(** ** The coordinator over the table ([coordinator/mod.rs]) *)

Section coordinator.
(** What the coordinator asks of its endpoint. *)
Context (local : MemberId) (slot_of : MemberId -> option ReplicaId).

Definition close_conn_by_id (t : PeerRouter) (id : ConnId) : PeerRouter :=
  abort_conn t id CloseCause.IdentityRejected.

Definition quarantined (t : PeerRouter) : list ConnId :=
  map (fun x => x.1.1) (filter (fun x => is_member x.2 = true) (validated_member_conns t)).

Definition evict_quarantined_if_full (t : PeerRouter) : PeerRouter :=
  if (length (quarantined t) <? QUARANTINE_CONN_LIMIT)%nat then t
  else
    match quarantined t with
    | [] => t
    | id :: rest => close_conn_by_id t (fold_left Z.min rest id)
    end.

Definition try_note_established_member (t : PeerRouter) (id : ConnId) : PeerRouter :=
  match conns t !! id with
  | None => t
  | Some e =>
      if unsettled e then t
      else
        match Conn.handshake_identity (conn e) with
        | Some (PeerMember m) =>
            if m =? local then abort_conn t id CloseCause.IdentityRejected
            else
              match slot_of m with
              | None => note_established_quarantined (evict_quarantined_if_full t) id m
              | Some slot => note_established_member t id m slot
              end
        | Some (PeerClient _) => note_established t id
        | Some (PeerReplica _) | None => abort_conn t id CloseCause.IdentityRejected
        end
  end.

(** The body of [reconcile_routing]'s loop: the connection to close, if it is. *)
Definition stale (member : MemberId) (bound_peer : Peer) : bool :=
  match slot_of member with
  | None => is_replica bound_peer
  | Some new_slot => negb (bool_decide (PeerReplica new_slot = bound_peer))
  end.

Definition reconcile (t : PeerRouter) : PeerRouter :=
  fold_left (fun t '(id, member, bound_peer) =>
               if stale member bound_peer then close_conn_by_id t id else t)
            (validated_member_conns t) t.

(** [reconcile_routing] with the configuration last reconciled against. *)
Definition reconcile_routing (config_id last : Z) (t : PeerRouter) : Z * PeerRouter :=
  if config_id =? last then (last, t) else (config_id, reconcile t).
End coordinator.

(** [pump]: the endpoint's outgoing messages, each with its size bound and encoding;
    a removed local member routes nothing. *)
Definition pump (t : PeerRouter) (outgoing : list (Recipient * Z * list byte))
    (self_id : option ReplicaId) : PeerRouter :=
  let t := reap_closed t in
  match self_id with
  | None => t
  | Some s =>
      fold_left (fun t '(to, bound, encoded) => (route t to bound encoded s).2) outgoing t
  end.

End router.
Arguments Entry : clear implicits.
Arguments PeerRouter : clear implicits.
End Router.

Import Router.

(** ** What happens to a connection between establishment and reaping *)

Module ConnLife.
Section life.
Context {R : Type} `{RecordIo R}.
Implicit Types c : Conn.t R.

(** A connection closes or keeps its lifecycle state and its bound sender. *)
Definition evolves c c' : Prop :=
  Conn.is_closed c' = true \/ (Conn.state c' = Conn.state c /\ Conn.from c' = Conn.from c).

Lemma evolves_refl c : evolves c c.
Proof. by right. Qed.

Lemma evolves_closed c c1 cause : evolves c (Conn.with_state c1 (Conn.Closed cause)).
Proof. by left. Qed.

Lemma evolves_abort c cause : evolves c (Conn.abort c cause).
Proof. by left. Qed.

Lemma evolves_same c c' :
  Conn.state c' = Conn.state c -> Conn.from c' = Conn.from c -> evolves c c'.
Proof. by right. Qed.

Lemma buffer_plaintext_same c res c' :
  Conn.buffer_plaintext c = Some (res, c') ->
  Conn.state c' = Conn.state c /\ Conn.from c' = Conn.from c.
Proof.
  unfold Conn.buffer_plaintext. destruct (read_plaintext _) as [[|b chunk] r']; [by intros [= <- <-]|].
  destruct (Decoder.extend _ _) as [[? ?]|]; cbn; [|done]. by intros [= <- <-].
Qed.

Lemma intake_loop_evolves fuel c bytes now res c' :
  Conn.intake_loop fuel c bytes now = Some (res, c') -> evolves c c'.
Proof.
  revert c bytes. induction fuel as [|fuel IH]; intros c bytes; [done|]. cbn [Conn.intake_loop].
  destruct (handle_transport_data _ _ _) as [i r'].
  destruct i as [|n|]; [..|by intros [= <- <-]; apply evolves_closed];
    (destruct (Conn.buffer_plaintext _) as [[res1 c1]|] eqn:Hb; cbn [mbind option_bind]; [|done]);
    apply buffer_plaintext_same in Hb as [E1 E2]; cbn in E1, E2;
    (destruct res1 as [dr|e]; [|by intros [= <- <-]; apply evolves_closed]).
  - intros [= <- <-]. by apply evolves_same.
  - destruct (_ && _); [destruct (is_handshaking _); intros [= <- <-];
      [by apply evolves_closed|by apply evolves_same]|].
    intros [Hc|[E3 E4]]%IH; [by left|]. apply evolves_same; congruence.
Qed.

Lemma handle_data_evolves c bytes eof now res c' :
  Conn.handle_data c bytes eof now = Some (res, c') -> evolves c c'.
Proof.
  unfold Conn.handle_data. destruct (Conn.is_closed c) eqn:Hc; [intros [= <- <-]; apply evolves_refl|].
  destruct (Conn.intake_loop _ _ _ _) as [[r1 c1]|] eqn:Hi; cbn; [|done].
  apply intake_loop_evolves in Hi. by destruct r1; intros [= <- <-].
Qed.

Lemma finalize_evolves c : evolves c (Conn.finalize c).2.
Proof.
  unfold Conn.finalize. destruct (Conn.is_closed c); [apply evolves_refl|].
  destruct (_ <? _); apply evolves_closed.
Qed.

Lemma write_framed_evolves c framed : evolves c (Conn.write_framed c framed).2.
Proof.
  unfold Conn.write_framed. destruct (Conn.state c) eqn:E; try apply evolves_refl.
  destruct (write_plaintext _ _). destruct (_ <? _)%nat; [apply evolves_closed|by apply evolves_same].
Qed.

Lemma poll_transmit_evolves c : evolves c (Conn.poll_transmit c).2.
Proof.
  unfold Conn.poll_transmit. destruct (Conn.is_closed c); [apply evolves_refl|].
  destruct (poll_transport_transmit _). by apply evolves_same.
Qed.

Lemma poll_decoded_evolves {Msg} (decode : list byte -> result CodecError Msg) c :
  evolves c (Conn.poll_decoded decode c).2.
Proof.
  unfold Conn.poll_decoded. destruct (Conn.state c) eqn:E; try apply evolves_refl.
  destruct (Conn.from c) eqn:Ef; [|apply evolves_refl].
  destruct (Conn.decode_loop _ _ _) as [[? ?] [?|]]; [apply evolves_closed|by apply evolves_same].
Qed.

Lemma send_one_evolves cap framed c : evolves c (send_one cap framed c).2.
Proof.
  unfold send_one. destruct (negb _); [apply evolves_refl|].
  destruct (_ <? _); [apply evolves_abort|apply write_framed_evolves].
Qed.

Lemma evolves_validated c c' : evolves c c' -> Conn.is_validated c' = true ->
  Conn.is_validated c = true /\ Conn.from c' = Conn.from c.
Proof.
  unfold evolves, Conn.is_closed, Conn.is_validated. intros [Hc|[-> ->]]; [|done].
  by destruct (Conn.state c').
Qed.
End life.
End ConnLife.

Import ConnLife.

(** ** The table's invariant *)

Module Table.
Section table.
Context {R : Type} `{RecordIo R}.
Implicit Types (t : PeerRouter R) (e : Entry R) (c : Conn.t R).

(** A validated entry is bound to its routing key, and carries the attested member
    unless it is a client's. *)
Definition bound_ok e : Prop :=
  Conn.is_validated (conn e) = true ->
  Conn.from (conn e) = Some (peer e) /\
  match peer e with
  | PeerReplica _ => is_Some (attested_member e)
  | PeerMember m => attested_member e = Some m
  | PeerClient _ => True
  end.

Record routing t : Prop := {
  routing_auth p id : peers t !! p = Some id ->
    exists e, conns t !! id = Some e /\ peer e = p /\ Conn.state (conn e) <> Conn.Handshaking;
  routing_served id e : conns t !! id = Some e -> Conn.is_validated (conn e) = true ->
    is_Some (peers t !! peer e);
  routing_bound id e : conns t !! id = Some e -> bound_ok e;
  routing_next id e : conns t !! id = Some e -> id < next t;
}.

Lemma ids_spec t id : id ∈ ids t <-> is_Some (conns t !! id).
Proof.
  unfold ids. rewrite merge_sort_Permutation, elem_of_elements. apply elem_of_dom.
Qed.

Lemma ids_NoDup t : NoDup (ids t).
Proof. unfold ids. rewrite merge_sort_Permutation. apply NoDup_elements. Qed.

Lemma new_routing cap : routing (with_outbound_cap cap).
Proof. split; intros *; cbn; by rewrite lookup_empty. Qed.

Lemma update_conn_routing t id f :
  routing t -> (forall e, conns t !! id = Some e -> evolves (conn e) (f (conn e))) ->
  routing (update_conn t id f).
Proof.
  intros Ht Hf. unfold update_conn, set_conns. split; cbn.
  - intros p i Hp. destruct (routing_auth _ Ht _ _ Hp) as (e & He & Hpe & Hs).
    destruct (decide (i = id)) as [->|Hne].
    + rewrite lookup_alter_eq, He. eexists. split; [reflexivity|]. cbn. split; [done|].
      destruct (Hf _ He) as [Hc|[-> _]]; [|done]. unfold Conn.is_closed in Hc.
      by destruct (Conn.state (f (conn e))).
    + rewrite lookup_alter_ne by done. eauto.
  - intros i e [(-> & e0 & He0 & ->)|[_ He]]%lookup_alter_Some; [|by eapply routing_served].
    cbn. intros Hv. apply evolves_validated with (c := conn e0) in Hv as [Hv _]; [|by apply Hf].
    exact (routing_served _ Ht _ _ He0 Hv).
  - intros i e [(-> & e0 & He0 & ->)|[_ He]]%lookup_alter_Some; [|by eapply routing_bound].
    intros Hv. cbn in *. apply evolves_validated with (c := conn e0) in Hv as [Hv Hfr]; [|by apply Hf].
    rewrite Hfr. exact (routing_bound _ Ht _ _ He0 Hv).
  - intros i e [(-> & e0 & He0 & ->)|[_ He]]%lookup_alter_Some; by eapply routing_next.
Qed.

Lemma abort_routing t id cause : routing t -> routing (abort_conn t id cause).
Proof. intros Ht. apply update_conn_routing; [done|]. intros e _. apply evolves_abort. Qed.

(** An entry that is neither closed nor validated is still handshaking. *)
Lemma settled_state e :
  unsettled e = false ->
  Conn.state (conn e) = Conn.Handshaking /\ Conn.is_closed (conn e) = false /\
  Conn.is_validated (conn e) = false.
Proof.
  unfold unsettled, Conn.is_closed, Conn.is_validated. intros [[? ?]%orb_false_elim _]%orb_false_elim.
  by destruct (Conn.state (conn e)).
Qed.

Lemma mark_validated_fresh c key :
  Conn.state c = Conn.Handshaking ->
  Conn.is_validated (Conn.mark_validated c key) = true /\
  Conn.state (Conn.mark_validated c key) = Conn.Validated /\
  Conn.from (Conn.mark_validated c key) = Some key.
Proof. intros Hs. unfold Conn.mark_validated. by rewrite Hs. Qed.

Lemma bind_routing t id e key member :
  routing t -> conns t !! id = Some e -> Conn.state (conn e) = Conn.Handshaking ->
  match key with
  | PeerReplica _ => is_Some member
  | PeerMember m => member = Some m
  | PeerClient _ => True
  end ->
  routing (bind t id key member).
Proof.
  intros Ht He Hs Hk. destruct (mark_validated_fresh (conn e) key Hs) as (Hv & Hst & Hfr).
  assert (Hnot : forall p i, peers t !! p = Some i -> i <> id).
  { intros p i Hp ->. destruct (routing_auth _ Ht _ _ Hp) as (e' & He' & _ & Hs'). congruence. }
  unfold bind, set_conns, set_peers. split; cbn.
  - intros p i. destruct (decide (p = key)) as [->|Hne].
    + rewrite lookup_insert_eq. intros [= <-]. rewrite lookup_alter_eq, He. eexists. split; [reflexivity|].
      cbn. by rewrite Hst.
    + rewrite lookup_insert_ne by done. intros Hp.
      destruct (routing_auth _ Ht _ _ Hp) as (e' & He' & ? & ?).
      rewrite lookup_alter_ne by (symmetry; by eapply Hnot). eauto.
  - intros i e' [(-> & e0 & He0 & ->)|[_ He']]%lookup_alter_Some.
    + intros _. cbn. by rewrite lookup_insert_eq.
    + intros Hv'. destruct (decide (peer e' = key)) as [->|]; [by rewrite lookup_insert_eq|].
      rewrite lookup_insert_ne by done. by eapply routing_served.
  - intros i e' [(-> & e0 & He0 & ->)|[_ He']]%lookup_alter_Some; [|by eapply routing_bound].
    intros _. cbn. simplify_eq. rewrite Hfr. split; [done|]. destruct key; [|done|]; by destruct member.
  - intros i e' [(-> & e0 & He0 & ->)|[_ He']]%lookup_alter_Some; by eapply routing_next.
Qed.

Lemma note_established_routing t id : routing t -> routing (note_established t id).
Proof.
  intros Ht. unfold note_established. destruct (conns t !! id) as [e|] eqn:He; [|done].
  destruct (unsettled e) eqn:Hu; [done|]. destruct (settled_state _ Hu) as (Hs & _ & _).
  assert (Hb : forall p, routing (match p with
      PeerReplica _ | PeerMember _ => t | PeerClient _ => bind t id p None end)).
  { intros []; try done. by eapply bind_routing. }
  destruct (Conn.handshake_identity _) as [a|]; [|apply Hb].
  destruct (dialed e); [|apply Hb]. destruct (negb _); [by apply abort_routing|apply Hb].
Qed.

Lemma register_routing t p c dial :
  routing t -> Conn.is_validated c = false -> routing (register t p c dial).2.
Proof.
  intros Ht Hc. cbn. apply note_established_routing.
  assert (Hfresh : conns t !! next t = None).
  { destruct (conns t !! next t) as [e|] eqn:He; [|done]. pose proof (routing_next _ Ht _ _ He). lia. }
  split; cbn.
  - intros q i Hq. destruct (routing_auth _ Ht _ _ Hq) as (e & He & ? & ?). exists e.
    split; [|done]. rewrite lookup_insert_ne; [done|]. intros <-. congruence.
  - intros i e [[<- <-]|[_ He]]%lookup_insert_Some; cbn; [by rewrite Hc|by eapply routing_served].
  - intros i e [[<- <-]|[_ He]]%lookup_insert_Some; [by intros ?; cbn in *; congruence|by eapply routing_bound].
  - intros i e [[<- <-]|[_ He]]%lookup_insert_Some; [lia|].
    pose proof (routing_next _ Ht _ _ He). lia.
Qed.

Lemma note_member_routing t id m slot : routing t -> routing (note_established_member t id m slot).
Proof.
  intros Ht. unfold note_established_member. destruct (conns t !! id) as [e|] eqn:He; [|done].
  destruct (unsettled e) eqn:Hu; [done|]. destruct (settled_state _ Hu) as (Hs & _ & _).
  destruct (_ && _); [by apply abort_routing|]. by eapply bind_routing.
Qed.

Lemma note_quarantined_routing t id m : routing t -> routing (note_established_quarantined t id m).
Proof.
  intros Ht. unfold note_established_quarantined. destruct (conns t !! id) as [e|] eqn:He; [|done].
  destruct (unsettled e) eqn:Hu; [done|]. destruct (settled_state _ Hu) as (Hs & _ & _).
  destruct (dialed e); [by apply abort_routing|]. by eapply bind_routing.
Qed.

Lemma evict_routing t : routing t -> routing (evict_quarantined_if_full t).
Proof.
  intros Ht. unfold evict_quarantined_if_full. destruct (_ <? _)%nat; [done|].
  destruct (quarantined t); [done|]. by apply abort_routing.
Qed.

Lemma try_note_routing local slot_of t id :
  routing t -> routing (try_note_established_member local slot_of t id).
Proof.
  intros Ht. unfold try_note_established_member. destruct (conns t !! id) as [e|]; [|done].
  destruct (unsettled e); [done|].
  destruct (Conn.handshake_identity _) as [[r|cl|m]|]; try by apply abort_routing.
  - by apply note_established_routing.
  - destruct (m =? local); [by apply abort_routing|].
    destruct (slot_of m); [by apply note_member_routing|]. by apply note_quarantined_routing, evict_routing.
Qed.

(** *** Reaping *)

Lemma serves_spec t p id :
  serves t p id = true <->
  exists e, conns t !! id = Some e /\ peer e = p /\ Conn.is_validated (conn e) = true.
Proof.
  unfold serves. destruct (conns t !! id) as [e|]; [|split; [done|by intros (? & ? & _)]].
  rewrite andb_true_iff, bool_decide_eq_true. split; [|by intros (? & [= <-] & ? & ?)].
  intros []. eauto.
Qed.

Lemma standby_some t p id : standby t p = Some id ->
  exists e, conns t !! id = Some e /\ peer e = p /\ Conn.is_validated (conn e) = true.
Proof. unfold standby. intros [_ Hs]%List.find_some. by apply serves_spec. Qed.

Lemma standby_none t id e : standby t (peer e) = None -> conns t !! id = Some e ->
  Conn.is_validated (conn e) = true -> False.
Proof.
  unfold standby. intros Hn He Hv.
  apply (List.find_none _ _) with (x := id) in Hn; [|apply list_elem_of_In, ids_spec; eauto].
  rewrite (proj2 (serves_spec t (peer e) id)) in Hn by eauto. done.
Qed.

Lemma close_cause_closed c : is_Some (Conn.close_cause c) <-> Conn.is_closed c = true.
Proof.
  unfold Conn.close_cause, Conn.is_closed. destruct (Conn.state c); split; try done; by intros [? ?].
Qed.

Lemma reap_conns t id :
  conns (reap t id).2 =
    match conns t !! id with
    | Some e => if Conn.is_closed (conn e) then delete id (conns t) else conns t
    | None => conns t
    end.
Proof.
  unfold reap. destruct (conns t !! id) as [e|]; [|done].
  unfold Conn.close_cause, Conn.is_closed. destruct (Conn.state (conn e)); [done..|].
  destruct (bool_decide _); [|done]. cbn. by destruct (standby _ _).
Qed.

Lemma reap_next t id : next (reap t id).2 = next t.
Proof.
  unfold reap. destruct (conns t !! id) as [e|]; [|done]. destruct (Conn.close_cause _); [|done].
  destruct (bool_decide _); [|done]. cbn. by destruct (standby _ _).
Qed.

Lemma closed_not_validated c : Conn.is_closed c = true -> Conn.is_validated c = false.
Proof. unfold Conn.is_closed, Conn.is_validated. by destruct (Conn.state c). Qed.

(** The authoritative map after a removal. *)
Definition unseat t id e : PeerRouter R :=
  let t := mkRouter (delete id (conns t)) (peers t) (next t) (cursor t) (outbound_cap t)
             (oversized_dropped t) (closed t) in
  if bool_decide (peers t !! peer e = Some id) then
    let t := set_peers t (delete (peer e) (peers t)) in
    match standby t (peer e) with
    | Some rid => set_peers t (<[peer e := rid]> (peers t))
    | None => t
    end
  else t.

Lemma reap_closed_one t id e :
  conns t !! id = Some e -> Conn.is_closed (conn e) = true ->
  conns (reap t id).2 = conns (unseat t id e) /\ peers (reap t id).2 = peers (unseat t id e) /\
  next (reap t id).2 = next t.
Proof.
  intros He Hc. rewrite reap_next. unfold reap, unseat. rewrite He.
  apply close_cause_closed in Hc as [cause ->]. cbn [peers conns].
  destruct (bool_decide _); [|done]. cbn [snd].
  unfold standby, serves, ids. cbn [conns set_peers]. by destruct (List.find _ _).
Qed.

Lemma unseat_conns t id e : conns (unseat t id e) = delete id (conns t).
Proof. unfold unseat. cbn. destruct (bool_decide _); [|done]. by destruct (standby _ _). Qed.

Lemma unseat_routing t id e :
  routing t -> conns t !! id = Some e -> Conn.is_closed (conn e) = true ->
  (forall p i, peers (unseat t id e) !! p = Some i ->
     exists e', conns t !! i = Some e' /\ i <> id /\ peer e' = p /\ Conn.state (conn e') <> Conn.Handshaking) /\
  (forall i e', conns t !! i = Some e' -> i <> id -> Conn.is_validated (conn e') = true ->
     is_Some (peers (unseat t id e) !! peer e')).
Proof.
  intros Ht He Hc. unfold unseat. cbn [peers].
  assert (Hother : forall p i, peers t !! p = Some i -> p <> peer e \/ i <> id ->
    exists e', conns t !! i = Some e' /\ i <> id /\ peer e' = p /\ Conn.state (conn e') <> Conn.Handshaking).
  { intros p i Hp Hne. destruct (routing_auth _ Ht _ _ Hp) as (e' & He' & Hpe & Hs). exists e'.
    split; [done|]. split; [|done]. intros ->. simplify_eq. naive_solver. }
  destruct (bool_decide_reflect (peers t !! peer e = Some id)) as [Ha|Ha].
  - set (t1 := set_peers _ _).
    assert (Hc1 : conns t1 = delete id (conns t)) by done.
    assert (Hp1 : peers t1 = delete (peer e) (peers t)) by done. clearbody t1.
    destruct (standby t1 (peer e)) as [rid|] eqn:Hst; [cbn [peers set_peers]|]; rewrite ?Hp1; split.
    + intros p i [[<- <-]|[Hne [_ Hp]%lookup_delete_Some]]%lookup_insert_Some; [|by eapply Hother; eauto].
      apply standby_some in Hst as (e' & He' & Hpe & Hv). rewrite Hc1 in He'.
      apply lookup_delete_Some in He' as [? ?]. exists e'. split_and!; [done..|].
      unfold Conn.is_validated in Hv. by destruct (Conn.state _).
    + intros i e' He' Hi Hv. destruct (decide (peer e' = peer e)) as [->|]; [by rewrite lookup_insert_eq|].
      rewrite lookup_insert_ne, lookup_delete_ne by done. by eapply routing_served.
    + intros p i [? Hp]%lookup_delete_Some. eapply Hother; eauto.
    + intros i e' He' Hi Hv. destruct (decide (peer e' = peer e)) as [E|].
      * rewrite <- E in Hst. exfalso. apply (standby_none _ i e' Hst); [|done]. rewrite Hc1.
        by rewrite lookup_delete_ne.
      * rewrite lookup_delete_ne by done. by eapply routing_served.
  - cbn [peers]. split.
    + intros p i Hp. apply Hother; [done|]. destruct (decide (i = id)) as [->|]; [|by right].
      left. intros ->. done.
    + intros i e' He' Hi Hv. by eapply routing_served.
Qed.

Lemma reap_routing t id : routing t -> routing (reap t id).2.
Proof.
  intros Ht. destruct (conns t !! id) as [e|] eqn:He.
  2: { unfold reap. by rewrite He. }
  destruct (Conn.is_closed (conn e)) eqn:Hc.
  2: { unfold reap. rewrite He. destruct (Conn.close_cause (conn e)) eqn:E; [|done].
       assert (Conn.is_closed (conn e) = true) by (apply close_cause_closed; eauto). congruence. }
  destruct (reap_closed_one t id e He Hc) as (Ec & Ep & En).
  destruct (unseat_routing t id e Ht He Hc) as [Ha Hs].
  split; rewrite ?Ep, ?Ec, ?En, unseat_conns.
  - intros p i Hp. destruct (Ha _ _ Hp) as (e' & He' & Hi & ? & ?). exists e'.
    by rewrite lookup_delete_ne.
  - intros i e' [? ?]%lookup_delete_Some. eauto.
  - intros i e' [_ He']%lookup_delete_Some. by eapply routing_bound.
  - intros i e' [_ He']%lookup_delete_Some. by eapply routing_next.
Qed.

Lemma reap_fold_routing l t : routing t -> routing (fold_left (fun t id => (reap t id).2) l t).
Proof. revert t. induction l as [|id l IH]; intros t Ht; [done|]. by apply IH, reap_routing. Qed.

Lemma reap_closed_routing t : routing t -> routing (reap_closed t).
Proof. apply reap_fold_routing. Qed.

Lemma reap_fold_lookup l t i e :
  conns (fold_left (fun t id => (reap t id).2) l t) !! i = Some e ->
  conns t !! i = Some e /\ (i ∈ l -> Conn.is_closed (conn e) = false).
Proof.
  revert t. induction l as [|id l IH]; intros t; cbn [fold_left]; [by intros ?; split; [|intros ?%not_elem_of_nil]|].
  intros [He Hl]%IH. rewrite reap_conns in He. rewrite elem_of_cons.
  destruct (conns t !! id) as [e0|] eqn:He0.
  - destruct (Conn.is_closed (conn e0)) eqn:Hc.
    + apply lookup_delete_Some in He as [? He]. naive_solver.
    + split; [done|]. intros [->|?]; [congruence|auto].
  - split; [done|]. intros [->|?]; [congruence|auto].
Qed.

Lemma reap_closed_open t i e :
  conns (reap_closed t) !! i = Some e -> conns t !! i = Some e /\ Conn.is_closed (conn e) = false.
Proof.
  intros [He Hl]%reap_fold_lookup. split; [done|]. apply Hl, ids_spec. eauto.
Qed.

(** *** Routing and the coordinator *)

Lemma routing_same t t' :
  conns t' = conns t -> peers t' = peers t -> next t' = next t -> routing t -> routing t'.
Proof. intros Hc Hp Hn []. split; rewrite ?Hc, ?Hp, ?Hn; eauto. Qed.

Lemma fan_out_routing t framed targets : routing t -> routing (fan_out t framed targets).2.
Proof.
  revert t. induction targets as [|id l IH]; intros t Ht; [done|]. cbn [fan_out].
  destruct (conns t !! id) as [e|] eqn:He; [|by apply IH].
  pose proof (send_one_evolves (outbound_cap t) framed (conn e)) as Hev.
  destruct (send_one _ _ _) as [shut c]. cbn [snd] in Hev.
  specialize (IH (update_conn t id (fun _ => c))). destruct (fan_out _ _ _) as [n t']. apply IH.
  apply update_conn_routing; [done|]. intros e' He'. by simplify_eq.
Qed.

Lemma route_routing t to bound encoded self_id : routing t -> routing (route t to bound encoded self_id).2.
Proof.
  intros Ht. unfold route. destruct (_ <? _); [by apply (routing_same t)|].
  destruct (negb _); [by apply (routing_same t)|].
  pose proof (fan_out_routing t (encode_frame encoded) (resolve t to self_id) Ht) as Hf.
  destruct (fan_out _ _ _) as [n t']. cbn [snd] in *. destruct (0 <? n)%nat; [by apply reap_closed_routing|done].
Qed.

Lemma poll_first_routing t order : routing t -> routing (poll_first t order).2.
Proof.
  revert t. induction order as [|id l IH]; intros t Ht; [done|]. cbn [poll_first].
  destruct (conns t !! id) as [e|] eqn:He; [|by apply IH].
  destruct (Conn.is_closed (conn e)); [by apply IH|].
  pose proof (poll_transmit_evolves (conn e)) as Hev.
  destruct (Conn.poll_transmit _) as [out c]. cbn [snd] in Hev.
  assert (Hu : routing (update_conn t id (fun _ => c))).
  { apply update_conn_routing; [done|]. intros e' He'. by simplify_eq. }
  destruct out; [by apply IH|]. by apply (routing_same (update_conn t id (fun _ => c))).
Qed.

Lemma reconcile_routing_inv slot_of t : routing t -> routing (reconcile slot_of t).
Proof.
  intros Ht. unfold reconcile. generalize (validated_member_conns t) as l. intros l. revert t Ht.
  induction l as [|[[id m] p] l IH]; intros t Ht; [done|]. cbn [fold_left]. apply IH.
  destruct (stale _ _ _); [by apply abort_routing|done].
Qed.

Lemma pump_routing t outgoing self_id : routing t -> routing (pump t outgoing self_id).
Proof.
  intros Ht%reap_closed_routing. unfold pump. destruct self_id as [s|]; [|done].
  revert Ht. generalize (reap_closed t). induction outgoing as [|[[to b] enc] l IH]; intros t' Ht'; [done|].
  by apply IH, route_routing.
Qed.

(** *** Every reachable table *)

(** What the coordinator does to the table: registrations, reads and polls of single
    connections, establishment against the current membership, reconciliation,
    pumping, transmitting and draining the closed queue. *)
Inductive table_step : PeerRouter R -> PeerRouter R -> Prop :=
| ts_dialed t p c : Conn.is_validated c = false -> table_step t (register_dialed t p c).2
| ts_accepted t p c : Conn.is_validated c = false -> table_step t (register_accepted t p c).2
| ts_conn t id f :
    (forall c, evolves c (f c)) -> table_step t (update_conn t id f)
| ts_establish t local slot_of id :
    table_step t (try_note_established_member local slot_of t id)
| ts_reconcile t slot_of config_id last :
    table_step t (reconcile_routing slot_of config_id last t).2
| ts_pump t outgoing self_id : table_step t (pump t outgoing self_id)
| ts_transmit t : table_step t (poll_transmit t).2
| ts_poll_closed t : table_step t (poll_closed t).2.

Inductive reachable (cap : Z) : PeerRouter R -> Prop :=
| reach_new : reachable cap (with_outbound_cap cap)
| reach_step t t' : reachable cap t -> table_step t t' -> reachable cap t'.

Lemma table_step_routing t t' : routing t -> table_step t t' -> routing t'.
Proof.
  intros Ht Hs. destruct Hs.
  - by apply register_routing.
  - by apply register_routing.
  - apply update_conn_routing; auto.
  - by apply try_note_routing.
  - unfold reconcile_routing. destruct (_ =? _); [done|]. by apply reconcile_routing_inv.
  - by apply pump_routing.
  - by apply poll_first_routing.
  - unfold poll_closed. destruct (closed t); [done|]. by apply (routing_same t).
Qed.

Lemma reachable_routing cap t : reachable cap t -> routing t.
Proof. induction 1; [apply new_routing|by eapply table_step_routing]. Qed.

(** The routing table neither black-holes nor misroutes: in every reachable
    table, once closed connections are reaped (as every pump starts by doing), a
    peer has an authoritative connection exactly when some connection is validated
    for it, that connection is itself validated and bound to this very peer, and
    no closed connection remains. *)
Theorem routing_exact cap t (Hreach : reachable cap t) p :
  let t' := reap_closed t in
  (forall id, authoritative t' p = Some id ->
     exists e, conns t' !! id = Some e /\ peer e = p /\ Conn.is_validated (conn e) = true /\
               Conn.from (conn e) = Some p) /\
  (is_Some (authoritative t' p) <->
     exists id e, conns t' !! id = Some e /\ peer e = p /\ Conn.is_validated (conn e) = true) /\
  (forall id e, conns t' !! id = Some e -> conns t !! id = Some e /\ Conn.is_closed (conn e) = false).
Proof.
  intros t'. pose proof (reap_closed_routing t (reachable_routing _ _ Hreach)) as Ht'. fold t' in Ht'.
  assert (Ha : forall id, authoritative t' p = Some id ->
     exists e, conns t' !! id = Some e /\ peer e = p /\ Conn.is_validated (conn e) = true /\
               Conn.from (conn e) = Some p).
  { intros id (e & He & <- & Hs)%(routing_auth _ Ht'). exists e. split; [done|]. split; [done|].
    destruct (reap_closed_open _ _ _ He) as [_ Hc].
    assert (Hv : Conn.is_validated (conn e) = true).
    { unfold Conn.is_validated, Conn.is_closed in *. by destruct (Conn.state (conn e)). }
    split; [done|]. by apply (routing_bound _ Ht' _ _ He Hv). }
  split; [done|]. split; [|apply reap_closed_open]. split.
  - intros [id Hid]. destruct (Ha _ Hid) as (e & ? & ? & ? & _). eauto.
  - intros (id & e & He & <- & Hv). by apply (routing_served _ Ht' _ _ He).
Qed.

(** *** Reconciling with a new membership *)

Lemma validated_member_conns_spec t id m p :
  (id, m, p) ∈ validated_member_conns t <->
  exists e, conns t !! id = Some e /\ Conn.is_validated (conn e) = true /\
            attested_member e = Some m /\ peer e = p.
Proof.
  unfold validated_member_conns. rewrite list_elem_of_omap. split.
  - intros (i & Hi & E). destruct (conns t !! i) as [e|] eqn:He; cbn in E; [|done].
    destruct (Conn.is_validated (conn e)) eqn:Hv; [|done].
    destruct (attested_member e) as [m'|] eqn:Hm; cbn in E; [|done]. simplify_eq. eauto.
  - intros (e & He & Hv & Hm & <-). exists id. rewrite ids_spec, He. split; [done|].
    cbn. rewrite Hv, Hm. done.
Qed.

Definition sweep slot_of l t : PeerRouter R :=
  fold_left (fun t '(id, member, bound_peer) =>
               if stale slot_of member bound_peer then close_conn_by_id t id else t) l t.

Lemma sweep_back slot_of l t i e' :
  conns (sweep slot_of l t) !! i = Some e' -> Conn.is_validated (conn e') = true ->
  conns t !! i = Some e' /\ forall m p, (i, m, p) ∈ l -> stale slot_of m p = false.
Proof.
  revert t. induction l as [|[[j m] p] l IH]; intros t; cbn [sweep fold_left].
  { intros He Hv. split; [done|]. by intros ? ? ?%not_elem_of_nil. }
  intros He Hv. destruct (IH _ He Hv) as [He1 Hl]. clear IH He.
  destruct (stale slot_of m p) eqn:Hst.
  - cbn in He1. apply lookup_alter_Some in He1 as [(-> & e0 & He0 & ->)|[Hne He1]]; [done|].
    split; [done|]. intros m' p' [[= -> -> ->]|?]%elem_of_cons; [done|eauto].
  - split; [done|]. intros m' p' [[= -> -> ->]|?]%elem_of_cons; [done|eauto].
Qed.

Lemma sweep_keeps slot_of l t i e :
  conns t !! i = Some e -> (forall m p, (i, m, p) ∈ l -> stale slot_of m p = false) ->
  conns (sweep slot_of l t) !! i = Some e.
Proof.
  revert t. induction l as [|[[j m] p] l IH]; intros t He Hl; cbn [sweep fold_left]; [done|].
  apply IH; [|intros; apply Hl; by right].
  destruct (stale slot_of m p) eqn:Hst; [|done]. cbn. rewrite lookup_alter_ne; [done|].
  intros ->. rewrite (Hl m p) in Hst; [done|by left].
Qed.

Lemma reap_fold_keeps l t i e :
  conns t !! i = Some e -> Conn.is_closed (conn e) = false ->
  conns (fold_left (fun t id => (reap t id).2) l t) !! i = Some e.
Proof.
  intros He Hc. revert t He. induction l as [|j l IH]; intros t He; [done|]. apply IH.
  rewrite reap_conns. destruct (conns t !! j) as [e0|] eqn:He0; [|done].
  destruct (Conn.is_closed (conn e0)) eqn:Hc0; [|done]. rewrite lookup_delete_ne; [done|]. congruence.
Qed.

(** Routing follows the membership: after [reconcile_routing] against a new
    membership and the reap that starts the next pump, every replica slot still
    routed leads to a connection whose attested member occupies exactly that slot,
    every quarantined connection belongs to a member that still has no slot, and
    no connection whose binding is still right was closed. *)
Theorem reconcile_agrees cap t slot_of (Hreach : reachable cap t) :
  let t' := reap_closed (reconcile slot_of t) in
  (forall s id, authoritative t' (PeerReplica s) = Some id ->
     exists e m, conns t' !! id = Some e /\ attested_member e = Some m /\ slot_of m = Some s) /\
  (forall m id, authoritative t' (PeerMember m) = Some id -> slot_of m = None) /\
  (forall id e m, conns t !! id = Some e -> Conn.is_validated (conn e) = true ->
     attested_member e = Some m -> stale slot_of m (peer e) = false -> conns t' !! id = Some e).
Proof.
  pose proof (reachable_routing _ _ Hreach) as Ht.
  pose proof (reap_closed_routing _ (reconcile_routing_inv slot_of t Ht)) as Ht'. intros t'. fold t' in Ht'.
  assert (Hauth : forall p id, authoritative t' p = Some id -> exists e, conns t' !! id = Some e /\
      peer e = p /\ bound_ok e /\ Conn.is_validated (conn e) = true /\
      forall m, attested_member e = Some m -> stale slot_of m p = false).
  { intros p id (e & He & <- & Hs)%(routing_auth _ Ht'). exists e.
    destruct (reap_closed_open _ _ _ He) as [He1 Hc].
    assert (Hv : Conn.is_validated (conn e) = true).
    { unfold Conn.is_validated, Conn.is_closed in *. by destruct (Conn.state (conn e)). }
    split_and!; [done..|by eapply routing_bound|done|]. intros m Hm.
    destruct (sweep_back _ _ _ _ _ He1 Hv) as [He0 Hl]. apply (Hl m).
    apply validated_member_conns_spec. eauto. }
  split_and!.
  - intros s id (e & He & Hp & Hb & Hv & Hst)%Hauth. destruct (Hb Hv) as [_ Hm]. rewrite Hp in Hm.
    destruct Hm as [m Hm]. exists e, m. split_and!; [done..|]. specialize (Hst m Hm). unfold stale in Hst.
    destruct (slot_of m) as [s'|]; [|done]. apply negb_false_iff, bool_decide_eq_true in Hst. congruence.
  - intros m id (e & He & Hp & Hb & Hv & Hst)%Hauth. destruct (Hb Hv) as [_ Hm]. rewrite Hp in Hm.
    specialize (Hst m Hm). unfold stale in Hst. by destruct (slot_of m) as [s'|].
  - intros id e m He Hv Hm Hst. apply reap_fold_keeps.
    + apply sweep_keeps; [done|]. intros m' p' (e' & He' & _ & Hm' & <-)%validated_member_conns_spec.
      congruence.
    + unfold Conn.is_validated, Conn.is_closed in *. by destruct (Conn.state (conn e)).
Qed.

(** *** The quarantine stays small *)

Lemma quarantined_spec t id :
  id ∈ quarantined t <-> exists e m, conns t !! id = Some e /\ Conn.is_validated (conn e) = true /\
    attested_member e = Some m /\ is_member (peer e) = true.
Proof.
  unfold quarantined. rewrite list_elem_of_fmap. split.
  - intros ([[i m] p] & -> & [Hm Hin]%list_elem_of_filter).
    apply validated_member_conns_spec in Hin as (e & He & Hv & Ha & <-). eauto 6.
  - intros (e & m & He & Hv & Ha & Hm). exists (id, m, peer e). split; [done|].
    apply list_elem_of_filter. split; [done|]. apply validated_member_conns_spec. eauto.
Qed.

Lemma validated_member_conns_NoDup t : NoDup (map (fun x => x.1.1) (validated_member_conns t)).
Proof.
  unfold validated_member_conns. pose proof (ids_NoDup t) as Hnd. revert Hnd. generalize (ids t).
  induction l as [|i l IH]; intros Hnd; [constructor|]. inversion Hnd as [|? ? Hni Hnd']; subst.
  cbn [omap list_omap]. specialize (IH Hnd').
  destruct (conns t !! i) as [e|] eqn:He; cbn [mbind option_bind]; [|done].
  destruct (Conn.is_validated (conn e)); [|done]. destruct (attested_member e); cbn; [|done].
  constructor; [|done]. intros ([[j m] p] & -> & Hj)%list_elem_of_fmap. cbn in Hni.
  apply list_elem_of_omap in Hj as (j' & Hj' & E). destruct (conns t !! j') as [e'|]; cbn in E; [|done].
  destruct (Conn.is_validated (conn e')); [|done]. destruct (attested_member e'); cbn in E; [|done].
  by simplify_eq.
Qed.

Lemma quarantined_NoDup t : NoDup (quarantined t).
Proof.
  unfold quarantined. pose proof (validated_member_conns_NoDup t) as H'. revert H'.
  generalize (validated_member_conns t). induction l as [|x l IH]; intros Hnd; [done|].
  cbn [map] in Hnd. inversion Hnd as [|? ? Hni Hnd']; subst. destruct (decide (is_member x.2 = true)).
  - rewrite filter_cons_True by done. cbn [map]. constructor; [|by apply IH].
    intros (y & E & [_ Hy]%list_elem_of_filter)%list_elem_of_fmap. apply Hni.
    rewrite E. apply list_elem_of_fmap. eauto.
  - rewrite filter_cons_False by done. by apply IH.
Qed.

(** No operation but a quarantine binding adds a quarantined connection. *)
Definition no_new t t' : Prop := forall id, id ∈ quarantined t' -> id ∈ quarantined t.

Lemma no_new_trans t1 t2 t3 : no_new t1 t2 -> no_new t2 t3 -> no_new t1 t3.
Proof. unfold no_new. auto. Qed.

Lemma no_new_length t t' : no_new t t' -> (length (quarantined t') <= length (quarantined t))%nat.
Proof. intros Hn. apply NoDup_incl_length; [apply NoDup_ListNoDup, quarantined_NoDup|].
  intros x. rewrite <- !list_elem_of_In. apply Hn.
Qed.

(** A table each of whose validated member entries was there before. *)
Lemma no_new_intro t t' :
  (forall i e', conns t' !! i = Some e' -> Conn.is_validated (conn e') = true ->
     is_member (peer e') = true -> exists e, conns t !! i = Some e /\
     Conn.is_validated (conn e) = true /\ peer e = peer e' /\ attested_member e = attested_member e') ->
  no_new t t'.
Proof.
  intros Hs id (e' & m & He' & Hv & Ha & Hm)%quarantined_spec. apply quarantined_spec.
  destruct (Hs _ _ He' Hv Hm) as (e & He & Hv0 & Hp & Hat). exists e, m. split_and!; congruence.
Qed.

Lemma no_new_same t t' : conns t' = conns t -> no_new t t'.
Proof. intros E. apply no_new_intro. rewrite E. eauto 6. Qed.

Lemma no_new_update t id f :
  (forall e, conns t !! id = Some e -> evolves (conn e) (f (conn e))) -> no_new t (update_conn t id f).
Proof.
  intros Hf. apply no_new_intro. cbn. intros i e' [(-> & e & He & ->)|[_ He]]%lookup_alter_Some Hv _; [|eauto 6].
  exists e. cbn in *. apply evolves_validated with (c := conn e) in Hv as [Hv _]; [done|by apply Hf].
Qed.

Lemma no_new_reap t l : no_new t (fold_left (fun t id => (reap t id).2) l t).
Proof. apply no_new_intro. intros i e [He _]%reap_fold_lookup Hv _. eauto 6. Qed.

Lemma no_new_fan_out t framed targets : no_new t (fan_out t framed targets).2.
Proof.
  revert t. induction targets as [|id l IH]; intros t; [by intros ?|]. cbn [fan_out].
  destruct (conns t !! id) as [e|] eqn:He; [|by apply IH].
  pose proof (send_one_evolves (outbound_cap t) framed (conn e)) as Hev.
  destruct (send_one _ _ _) as [shut c]. cbn [snd] in Hev.
  specialize (IH (update_conn t id (fun _ => c))). destruct (fan_out _ _ _) as [n t'].
  eapply no_new_trans; [|exact IH]. apply no_new_update. intros e' He'. by simplify_eq.
Qed.

Lemma no_new_route t to bound encoded self_id : no_new t (route t to bound encoded self_id).2.
Proof.
  unfold route. destruct (_ <? _); [by apply no_new_same|]. destruct (negb _); [by apply no_new_same|].
  pose proof (no_new_fan_out t (encode_frame encoded) (resolve t to self_id)) as Hf.
  destruct (fan_out _ _ _) as [n t']. cbn [snd] in *. destruct (0 <? n)%nat; [|done].
  eapply no_new_trans; [exact Hf|]. apply no_new_reap.
Qed.

Lemma no_new_poll t order : no_new t (poll_first t order).2.
Proof.
  revert t. induction order as [|id l IH]; intros t; [by intros ?|]. cbn [poll_first].
  destruct (conns t !! id) as [e|] eqn:He; [|by apply IH].
  destruct (Conn.is_closed (conn e)); [by apply IH|].
  pose proof (poll_transmit_evolves (conn e)) as Hev.
  destruct (Conn.poll_transmit _) as [out c]. cbn [snd] in Hev.
  assert (Hu : no_new t (update_conn t id (fun _ => c))).
  { apply no_new_update. intros e' He'. by simplify_eq. }
  destruct out; [by eapply no_new_trans|]. eapply no_new_trans; [exact Hu|by apply no_new_same].
Qed.

Lemma no_new_bind t id key m : is_member key = false -> no_new t (bind t id key m).
Proof.
  intros Hk. apply no_new_intro. cbn.
  intros i e' [(-> & e & He & ->)|[_ He]]%lookup_alter_Some Hv Hm; [|eauto 6]. cbn in Hm. congruence.
Qed.

Lemma no_new_abort t id cause : no_new t (abort_conn t id cause).
Proof. apply no_new_update. intros e _. apply evolves_abort. Qed.

Lemma no_new_note t id : no_new t (note_established t id).
Proof.
  assert (Hr : no_new t t) by (by intros ?).
  unfold note_established. destruct (conns t !! id) as [e|]; [|done]. destruct (unsettled e); [done|].
  assert (Hb : forall p, no_new t (match p with
      PeerReplica _ | PeerMember _ => t | PeerClient _ => bind t id p None end)).
  { intros []; try done. by apply no_new_bind. }
  destruct (Conn.handshake_identity _) as [a|]; [|apply Hb].
  destruct (dialed e); [|apply Hb]. destruct (negb _); [apply no_new_abort|apply Hb].
Qed.

Lemma no_new_register t p c dial : Conn.is_validated c = false -> no_new t (register t p c dial).2.
Proof.
  intros Hc. cbn. eapply no_new_trans; [|apply no_new_note]. apply no_new_intro. cbn.
  intros i e [[<- <-]|[_ He]]%lookup_insert_Some Hv _; [cbn in Hv; congruence|eauto 6].
Qed.

Lemma no_new_sweep slot_of l t : no_new t (sweep slot_of l t).
Proof. apply no_new_intro. intros i e He Hv _. destruct (sweep_back _ _ _ _ _ He Hv). eauto 6. Qed.

(** Making room: below the limit, or one fewer. *)
Lemma min_in (l : list Z) x : fold_left Z.min l x ∈ x :: l.
Proof.
  revert x. induction l as [|y l IH]; intros x; cbn [fold_left]; [by left|].
  specialize (IH (Z.min x y)). rewrite elem_of_cons in IH. destruct IH as [->|?]; [|by do 2 right].
  destruct (Z.min_spec x y) as [[_ ->]|[_ ->]]; [by left|by right; left].
Qed.

Lemma evict_room t :
  (length (quarantined t) <= QUARANTINE_CONN_LIMIT)%nat ->
  (length (quarantined (evict_quarantined_if_full t)) < QUARANTINE_CONN_LIMIT)%nat.
Proof.
  intros Hle. unfold evict_quarantined_if_full.
  destruct (Nat.ltb_spec (length (quarantined t)) QUARANTINE_CONN_LIMIT) as [|Hge]; [done|].
  destruct (quarantined t) as [|i0 l] eqn:Hq; [cbn in Hge; unfold QUARANTINE_CONN_LIMIT in *; lia|].
  set (v := fold_left Z.min l i0). assert (Hv : v ∈ quarantined t) by (rewrite Hq; apply min_in).
  rewrite <- Hq in Hle.
  assert (Hnew : NoDup (v :: quarantined (close_conn_by_id t v))).
  { constructor; [|apply quarantined_NoDup]. intros (e & m & He & Hvd & _)%quarantined_spec.
    cbn in He. rewrite lookup_alter_eq in He. destruct (conns t !! v); [|done]. cbn in He. by simplify_eq. }
  assert (length (v :: quarantined (close_conn_by_id t v)) <= length (quarantined t))%nat; [|cbn in *; lia].
  apply NoDup_incl_length; [by apply NoDup_ListNoDup|]. intros x. rewrite <- !list_elem_of_In, elem_of_cons.
  intros [->|Hx]; [done|]. by apply (no_new_abort t v CloseCause.IdentityRejected).
Qed.

Lemma bind_one_more t id key m :
  (length (quarantined (bind t id key m)) <= Datatypes.S (length (quarantined t)))%nat.
Proof.
  change (Datatypes.S (length (quarantined t))) with (length (id :: quarantined t)).
  apply NoDup_incl_length; [apply NoDup_ListNoDup, quarantined_NoDup|]. intros x.
  rewrite <- !list_elem_of_In, elem_of_cons. intros (e' & m' & He' & Hv & Ha & Hm)%quarantined_spec.
  cbn in He'. apply lookup_alter_Some in He' as [(-> & _)|[_ He]]; [by left|right].
  apply quarantined_spec. eauto 6.
Qed.

Lemma try_note_quarantine local slot_of t id :
  (length (quarantined t) <= QUARANTINE_CONN_LIMIT)%nat ->
  (length (quarantined (try_note_established_member local slot_of t id)) <= QUARANTINE_CONN_LIMIT)%nat.
Proof.
  intros Hle.
  assert (Hsub : forall t', no_new t t' -> (length (quarantined t') <= QUARANTINE_CONN_LIMIT)%nat).
  { intros t' Hn%no_new_length. lia. }
  unfold try_note_established_member. destruct (conns t !! id) as [e|]; [|done].
  destruct (unsettled e); [done|].
  destruct (Conn.handshake_identity _) as [[r|cl|m]|]; try (apply Hsub, no_new_abort).
  - apply Hsub, no_new_note.
  - destruct (m =? local); [apply Hsub, no_new_abort|]. destruct (slot_of m) as [s|].
    + unfold note_established_member. destruct (conns t !! id) as [e'|]; [|done].
      destruct (unsettled e'); [done|]. destruct (_ && _); [apply Hsub, no_new_abort|].
      by apply Hsub, no_new_bind.
    + pose proof (evict_room t Hle) as Hroom. set (t1 := evict_quarantined_if_full t) in *.
      unfold note_established_quarantined. destruct (conns t1 !! id) as [e'|]; [|lia].
      destruct (unsettled e'); [lia|].
      destruct (dialed e'); [pose proof (no_new_length _ _ (no_new_abort t1 id CloseCause.IdentityRejected)); lia|].
      pose proof (bind_one_more t1 id (PeerMember m) (Some m)). lia.
Qed.

Lemma pump_no_new t outgoing self_id : no_new t (pump t outgoing self_id).
Proof.
  unfold pump. destruct self_id as [s|]; [|apply no_new_reap].
  apply (no_new_trans _ (reap_closed t)); [apply no_new_reap|]. generalize (reap_closed t).
  induction outgoing as [|[[to b] enc] l IH]; intros t'; [cbn; by intros ?|].
  eapply no_new_trans; [|apply IH]. apply no_new_route.
Qed.

(** Members outside the configuration can never crowd the table: in every
    reachable table at most [QUARANTINE_CONN_LIMIT] connections are quarantined,
    however many unknown members connect and whatever the membership does. *)
Theorem quarantine_bounded cap t (Hreach : reachable cap t) :
  (length (quarantined t) <= QUARANTINE_CONN_LIMIT)%nat.
Proof.
  induction Hreach as [|t t' _ IH Hs]; [vm_compute; lia|].
  assert (Hsub : no_new t t' -> (length (quarantined t') <= QUARANTINE_CONN_LIMIT)%nat).
  { intros Hn%no_new_length. lia. }
  destruct Hs.
  - by apply Hsub, no_new_register.
  - by apply Hsub, no_new_register.
  - apply Hsub, no_new_update. auto.
  - by apply try_note_quarantine.
  - unfold reconcile_routing in *. destruct (_ =? _); [done|]. apply Hsub, no_new_sweep.
  - apply Hsub, pump_no_new.
  - apply Hsub, no_new_poll.
  - unfold poll_closed in *. destruct (closed t); [done|]. by apply Hsub, no_new_same.
Qed.
End table.
End Table.

(** ** A table with one member connected *)

Module TableDemo.
Import Table.

Abbreviation table := (PeerRouter (Labeled.t Passthrough.t)).

Definition registered : table := (register_accepted Router.new (PeerClient 0) ConnFacts.demo_full).2.
Definition slot_two (s : option ReplicaId) (m : MemberId) : option ReplicaId := if m =? 2 then s else None.
Definition bound : table := try_note_established_member 1 (slot_two (Some 1)) registered 0.
Definition kept_out : table := try_note_established_member 1 (slot_two None) registered 0.

Lemma registered_reachable : reachable DEFAULT_OUTBOUND_CAP registered.
Proof. eapply reach_step; [apply reach_new|]. apply ts_accepted. vm_compute. reflexivity. Qed.

Lemma bound_reachable : reachable DEFAULT_OUTBOUND_CAP bound.
Proof. eapply reach_step; [apply registered_reachable|]. apply ts_establish. Qed.

Lemma kept_out_reachable : reachable DEFAULT_OUTBOUND_CAP kept_out.
Proof. eapply reach_step; [apply registered_reachable|]. apply ts_establish. Qed.

Lemma routing_exact_witness :
  authoritative (reap_closed bound) (PeerReplica 1) = Some 0 /\
  exists e, conns (reap_closed bound) !! 0 = Some e /\ Conn.from (conn e) = Some (PeerReplica 1).
Proof.
  assert (Ha : authoritative (reap_closed bound) (PeerReplica 1) = Some 0) by (vm_compute; reflexivity).
  split; [exact Ha|].
  destruct (routing_exact DEFAULT_OUTBOUND_CAP bound bound_reachable (PeerReplica 1)) as [H1 _].
  destruct (H1 0 Ha) as (e & He & _ & _ & Hf). exists e. split; [exact He|exact Hf].
Defined.

(** The member's slot moves: its connection leaves the table. *)
Lemma reconcile_agrees_witness :
  authoritative bound (PeerReplica 1) = Some 0 /\
  authoritative (reap_closed (reconcile (slot_two (Some 1)) bound)) (PeerReplica 1) = Some 0 /\
  authoritative (reap_closed (reconcile (slot_two (Some 2)) bound)) (PeerReplica 1) = None /\
  (exists e m, conns (reap_closed (reconcile (slot_two (Some 1)) bound)) !! 0 = Some e /\
     attested_member e = Some m /\ slot_two (Some 1) m = Some 1).
Proof.
  split; [vm_compute; reflexivity|]. split; [vm_compute; reflexivity|]. split; [vm_compute; reflexivity|].
  apply (reconcile_agrees DEFAULT_OUTBOUND_CAP bound (slot_two (Some 1)) bound_reachable).
  vm_compute. reflexivity.
Defined.

Lemma quarantine_bounded_witness :
  quarantined kept_out = [0] /\ (length (quarantined kept_out) <= QUARANTINE_CONN_LIMIT)%nat.
Proof.
  split; [vm_compute; reflexivity|].
  apply (quarantine_bounded DEFAULT_OUTBOUND_CAP kept_out kept_out_reachable).
Defined.

(** A quarantined member is a key of the authoritative map, and a message addressed
    to it is routed to its connection. *)
Lemma member_key_routes : resolve kept_out (To (PeerMember 2)) 0 = [0].
Proof. vm_compute. reflexivity. Qed.
End TableDemo.
