(* ===== verification/Aggregate.v ===== *)
(** * The edge-batching aggregator

    [viewstamp-driver/src/aggregate/mod.rs], with the budget, the reservations and the
    submit path of [session/mod.rs] and [handle/mod.rs] it rides on: callers queue units
    or atomic groups, the pump packs them first-in first-out into one body at a time and
    hands the replies out again.

    The oneshot channel of a unit is the number of the unit in submission order; a
    [send] on it is an entry of [ag_sent], a sender dropped unresolved one of
    [ag_dropped].  A step is one critical section of a handle or one stretch of the pump
    between suspensions or locks, so that submissions, cancellations, handle drops and the
    driver interleave with the packing loop.  [ag_accepted], [ag_bodies], [ag_sent] and
    [ag_dropped] are history; wakers are left out, a pump step being always possible.
    Acquiring a reservation is one step (racing acquisitions of the code's two counters
    may refuse spuriously).  An [expect] that fails is [None]; the two [debug_assert!]s are
    read as in a release build: [pack_ok] shows the one of the packing loop never fires,
    [reply_outruns_reservation] that the one of [submit_failure] can. *)

From S2P Require Import Prelude Core Membership Message Messages Batch.

(** ** Configuration and errors *)

Definition DEFAULT_MAX_QUEUED_UNITS : Z := 4096.
Definition DEFAULT_MAX_QUEUED_BYTES : Z := 128 * 1024 * 1024.

Record BatchConfig : Type := mkBatchConfig {
  max_queued_units : Z;
  max_queued_bytes : Z;
  max_unit_reply_len : Z;
}.

Definition batch_config_new (max_unit_reply_len : Z) : BatchConfig :=
  mkBatchConfig DEFAULT_MAX_QUEUED_UNITS DEFAULT_MAX_QUEUED_BYTES max_unit_reply_len.
Definition set_max_queued_units (c : BatchConfig) (max : Z) : BatchConfig :=
  mkBatchConfig (if max =? 0 then 1 else max) (max_queued_bytes c) (max_unit_reply_len c).
Definition set_max_queued_bytes (c : BatchConfig) (max : Z) : BatchConfig :=
  mkBatchConfig (max_queued_units c) (if max =? 0 then 1 else max) (max_unit_reply_len c).

Inductive RefusedReason : Type :=
| QueueFull | UnitTooLarge | GroupTooLarge | RefusedPumpGone | RefusedStalled | DriverRefused.

Inductive OutcomeUnknownReason : Type :=
| UnknownReplyDropped | UnknownStalled | UnknownDriver | UnknownPumpGone.

Inductive ReplyLostReason : Type :=
| MalformedReply | ReplyCountMismatch.

Inductive BatchError : Type :=
| Refused (reason : RefusedReason)
| OutcomeUnknown (reason : OutcomeUnknownReason)
| CommittedReplyLost (reason : ReplyLostReason).

(** The errors of [DriverError] a submit returns, and the others. *)
Inductive DriverError : Type :=
| DriverGone
| DriverReplyDropped
| DriverBusy
| RequestTooLarge
| DriverRetired (local : MemberId) (epoch : Epoch)
| DriverOther.

(** ** The in-flight budget *)

Record InflightBudget : Type := mkInflightBudget {
  ib_count : Z;
  ib_bytes : Z;
  ib_max_count : Z;
  ib_max_bytes : Z;
}.

Definition budget_new (max_count max_bytes : Z) : InflightBudget := mkInflightBudget 0 0 max_count max_bytes.

Definition try_acquire_many (b : InflightBudget) (count body_len : Z) : option InflightBudget :=
  let new_count := ib_count b + count in
  let new_bytes := ib_bytes b + body_len in
  if (ib_max_count b <? new_count) || (ib_max_bytes b <? new_bytes) then None
  else Some (mkInflightBudget new_count new_bytes (ib_max_count b) (ib_max_bytes b)).

Definition release_budget (b : InflightBudget) (count body_len : Z) : InflightBudget :=
  mkInflightBudget (ib_count b - count) (ib_bytes b - body_len) (ib_max_count b) (ib_max_bytes b).

(** The count and bytes a [ReservationGuard] releases when it drops. *)
Abbreviation Reservation := (Z * Z)%type.

Definition drop_guard (b : InflightBudget) (g : Reservation) : InflightBudget := release_budget b g.1 g.2.

(** ** [Handle::submit] *)

Inductive ChannelRoom : Type := Room | ChannelFull | ChannelClosed.

(** What the submit path of a handle sees of the driver. *)
Record DriverView : Type := mkDriverView {
  dv_retired : option (MemberId * Epoch);
  dv_room : ChannelRoom;
}.

Definition submit_byte_limit (max_bytes : Z) : Z := Z.min max_request_body_len max_bytes.

(** Up to its await: the reservation the command carries. *)
Definition handle_submit (b : InflightBudget) (d : DriverView) (body : list byte) : result DriverError InflightBudget :=
  match dv_retired d with
  | Some (local, epoch) => Err (DriverRetired local epoch)
  | None =>
      if max_request_body_len <? zlen body then Err RequestTooLarge
      else
        match try_acquire_many b 1 (zlen body) with
        | None => Err DriverBusy
        | Some b' =>
            match dv_room d with
            | Room => Ok b'
            | ChannelFull => Err DriverBusy
            | ChannelClosed => Err DriverGone
            end
        end
  end.

Definition reply_dropped_reason (retired : option (MemberId * Epoch)) : DriverError :=
  match retired with Some (local, epoch) => DriverRetired local epoch | None => DriverReplyDropped end.

(** ** Entries and limits *)

Record PendingUnit : Type := mkPendingUnit {
  pu_body : list byte;
  pu_reply : Z;
}.

Record QueueEntry : Type := mkEntry {
  en_units : list PendingUnit;
  en_reservation : Reservation;
}.

Definition entry_replies (e : QueueEntry) : list Z := map pu_reply (en_units e).
Definition entry_bodies (e : QueueEntry) : list (list byte) := map pu_body (en_units e).

Definition fully_canceled (canceled : gset Z) (e : QueueEntry) : bool :=
  forallb (fun u => bool_decide (pu_reply u ∈ canceled)) (en_units e).

(** The overhead of one unit and its bytes, checked. *)
Definition add_unit_len (acc : option Z) (len : Z) : option Z :=
  n ← acc; n ← checked_add 64 n BATCH_UNIT_OVERHEAD; checked_add 64 n len.

Definition encoded_request_len (lens : list Z) : option Z := foldl add_unit_len (Some BATCH_COUNT_OVERHEAD) lens.

Definition max_units_per_body (max_unit_reply_len : Z) : Z :=
  let per_unit := sat_add 64 max_unit_reply_len BATCH_UNIT_OVERHEAD in
  Z.max 0 (max_reply_body_len - BATCH_COUNT_OVERHEAD) / per_unit.

Record BodyLimits : Type := mkBodyLimits {
  submit_limit : Z;
  max_units : Z;
}.

Definition at_most (o : option Z) (limit : Z) : bool := match o with Some n => n <=? limit | None => false end.

Definition admits (l : BodyLimits) (count : Z) (lens : list Z) : bool :=
  (count <=? max_units l) && at_most (encoded_request_len lens) (submit_limit l).

Definition fits_open_body (l : BodyLimits) (builder : BatchBuilder) (packed_units : Z) (e : QueueEntry) : bool :=
  let extra := foldl add_unit_len (Some 0) (map (fun b => zlen b) (entry_bodies e)) in
  at_most (checked_add 64 packed_units (zlen (en_units e))) (max_units l)
  && at_most (x ← extra; checked_add 64 (bytes_used builder) x) (bb_budget builder).

(** ** State *)

Inductive Pump : Type :=
| Parked
| Packing (builder : BatchBuilder) (callers : list Z) (guards : list Reservation)
| Flying
| Gone.

(** What became of a body handed to [Handle::submit]. *)
Inductive Fate : Type :=
| Rejected (e : DriverError)
| InDriver
| Answered (reply : list byte)
| Failed (e : DriverError)
| Left.

Record Body : Type := mkBody {
  bd_callers : list Z;
  bd_bytes : list byte;
  bd_fate : Fate;
}.

Record Agg : Type := mkAgg {
  ag_limits : BodyLimits;
  ag_stall : bool;
  ag_budget : InflightBudget;
  ag_driver : InflightBudget;
  ag_held : list Z;
  ag_entries : list QueueEntry;
  ag_closed : bool;
  ag_handles : Z;
  ag_deferred : list QueueEntry;
  ag_pump : Pump;
  ag_in_flight : list Z;
  ag_canceled : gset Z;
  ag_accepted : list (list byte);
  ag_bodies : list Body;
  ag_sent : list (Z * result BatchError (list byte));
  ag_dropped : list Z;
}.

(** [aggregator] and [aggregator_with_stall] over a driver of budget [driver]. *)
Definition split_aggregator (driver : InflightBudget) (cfg : BatchConfig) (stall : bool) : Agg :=
  mkAgg (mkBodyLimits (submit_byte_limit (ib_max_bytes driver)) (max_units_per_body (max_unit_reply_len cfg)))
    stall (budget_new (max_queued_units cfg) (max_queued_bytes cfg)) driver [] [] false 1 [] Parked [] ∅ [] [] [] [].

Definition with_queue (s : Agg) (b : InflightBudget) (entries : list QueueEntry) (closed : bool) (accepted : list (list byte)) : Agg :=
  mkAgg (ag_limits s) (ag_stall s) b (ag_driver s) (ag_held s) entries closed (ag_handles s) (ag_deferred s) (ag_pump s) (ag_in_flight s)
    (ag_canceled s) accepted (ag_bodies s) (ag_sent s) (ag_dropped s).
Definition with_pump (s : Agg) (entries deferred : list QueueEntry) (p : Pump) : Agg :=
  mkAgg (ag_limits s) (ag_stall s) (ag_budget s) (ag_driver s) (ag_held s) entries (ag_closed s) (ag_handles s) deferred p (ag_in_flight s)
    (ag_canceled s) (ag_accepted s) (ag_bodies s) (ag_sent s) (ag_dropped s).
Definition with_budget (s : Agg) (b : InflightBudget) : Agg :=
  mkAgg (ag_limits s) (ag_stall s) b (ag_driver s) (ag_held s) (ag_entries s) (ag_closed s) (ag_handles s) (ag_deferred s) (ag_pump s) (ag_in_flight s)
    (ag_canceled s) (ag_accepted s) (ag_bodies s) (ag_sent s) (ag_dropped s).
(** The driver's budget and the lengths of the bodies it holds reservations for. *)
Definition with_driver (s : Agg) (d : InflightBudget) (held : list Z) : Agg :=
  mkAgg (ag_limits s) (ag_stall s) (ag_budget s) d held (ag_entries s) (ag_closed s) (ag_handles s) (ag_deferred s) (ag_pump s) (ag_in_flight s)
    (ag_canceled s) (ag_accepted s) (ag_bodies s) (ag_sent s) (ag_dropped s).
Definition with_callers (s : Agg) (handles : Z) (canceled : gset Z) : Agg :=
  mkAgg (ag_limits s) (ag_stall s) (ag_budget s) (ag_driver s) (ag_held s) (ag_entries s) (ag_closed s) handles (ag_deferred s) (ag_pump s) (ag_in_flight s)
    canceled (ag_accepted s) (ag_bodies s) (ag_sent s) (ag_dropped s).
(** The body staged and its fate. *)
Definition with_flight (s : Agg) (p : Pump) (in_flight : list Z) (bodies : list Body) : Agg :=
  mkAgg (ag_limits s) (ag_stall s) (ag_budget s) (ag_driver s) (ag_held s) (ag_entries s) (ag_closed s) (ag_handles s) (ag_deferred s) p in_flight
    (ag_canceled s) (ag_accepted s) bodies (ag_sent s) (ag_dropped s).
Definition send_all (s : Agg) (l : list (Z * result BatchError (list byte))) : Agg :=
  mkAgg (ag_limits s) (ag_stall s) (ag_budget s) (ag_driver s) (ag_held s) (ag_entries s) (ag_closed s) (ag_handles s) (ag_deferred s) (ag_pump s) (ag_in_flight s)
    (ag_canceled s) (ag_accepted s) (ag_bodies s) (ag_sent s ++ l) (ag_dropped s).
Definition drop_unresolved (s : Agg) (l : list Z) : Agg :=
  mkAgg (ag_limits s) (ag_stall s) (ag_budget s) (ag_driver s) (ag_held s) (ag_entries s) (ag_closed s) (ag_handles s) (ag_deferred s) (ag_pump s) (ag_in_flight s)
    (ag_canceled s) (ag_accepted s) (ag_bodies s) (ag_sent s) (ag_dropped s ++ l).

Definition resolve_all (s : Agg) (callers : list Z) (e : BatchError) : Agg := send_all s (map (fun c => (c, Err e)) callers).

(** ** Submitting *)

Definition encoded_units (units : list (list byte)) : Z := foldr Z.add 0 (map (fun u => BATCH_UNIT_OVERHEAD + zlen u) units).

Definition submit_units (s : Agg) (units : list (list byte)) (too_large : RefusedReason) : Agg * result BatchError (list Z) :=
  if negb (admits (ag_limits s) (zlen units) (map (fun u => zlen u) units)) then (s, Err (Refused too_large))
  else
    let encoded := encoded_units units in
    match try_acquire_many (ag_budget s) (zlen units) encoded with
    | None => (s, Err (Refused QueueFull))
    | Some b =>
        let ids := seqZ (zlen (ag_accepted s)) (zlen units) in
        let entry := mkEntry (zip_with mkPendingUnit units ids) (zlen units, encoded) in
        if ag_closed s then (with_budget s (drop_guard b (en_reservation entry)), Err (Refused RefusedPumpGone))
        else (with_queue s b (ag_entries s ++ [entry]) (ag_closed s) (ag_accepted s ++ units), Ok ids)
    end.

Definition submit (s : Agg) (unit_ : list byte) : Agg * result BatchError (list Z) := submit_units s [unit_] UnitTooLarge.

Definition submit_group (s : Agg) (units : list (list byte)) : Agg * result BatchError (list Z) :=
  match units with [] => (s, Ok []) | _ => submit_units s units GroupTooLarge end.

(** ** Resolving a body *)

(** What each caller of a committed body is told. *)
Definition demux (callers : list Z) (reply : list byte) : list (Z * result BatchError (list byte)) :=
  match parse reply with
  | Err _ => map (fun c => (c, Err (CommittedReplyLost MalformedReply))) callers
  | Ok view =>
      if negb (v_count view =? zlen callers) then map (fun c => (c, Err (CommittedReplyLost ReplyCountMismatch))) callers
      else zip callers (map Ok (view_collect view))
  end.

Definition submit_failure (e : DriverError) : BatchError :=
  match e with
  | DriverGone => Refused DriverRefused
  | DriverReplyDropped => OutcomeUnknown UnknownReplyDropped
  | DriverBusy | RequestTooLarge => Refused DriverRefused
  | DriverRetired _ _ => OutcomeUnknown UnknownDriver
  | DriverOther => OutcomeUnknown UnknownDriver
  end.

Definition fate_of_last (f : Fate) (bodies : list Body) : list Body :=
  match reverse bodies with
  | [] => bodies
  | b :: rest => reverse (mkBody (bd_callers b) (bd_bytes b) f :: rest)
  end.

(** The callers of queued entries are refused and the reservations dropped. *)
Definition refuse_entries (s : Agg) (reason : RefusedReason) (entries : list QueueEntry) : Agg :=
  fold_left (fun s e => with_budget (resolve_all s (entry_replies e) (Refused reason)) (drop_guard (ag_budget s) (en_reservation e)))
    entries s.

(** The deferred entries, then, the queue closed, what it holds. *)
Definition close_and_drain (s : Agg) (reason : RefusedReason) : Agg :=
  let queued := ag_deferred s ++ ag_entries s in
  let s := with_queue (with_pump s [] [] Gone) (ag_budget s) [] true (ag_accepted s) in
  refuse_entries s reason queued.

(** [Drop for AggregatorPump] *)
Definition drop_pump (s : Agg) : Agg :=
  let staged := ag_in_flight s in
  let bodies := match staged with [] => ag_bodies s | _ => fate_of_last Left (ag_bodies s) end in
  let s := resolve_all (with_flight s Gone [] bodies) staged (OutcomeUnknown UnknownPumpGone) in
  close_and_drain s RefusedPumpGone.

(** ** Packing *)

(** The deferred entries come before the shared queue. *)
Definition pop_entry (s : Agg) : option (QueueEntry * list QueueEntry * list QueueEntry) :=
  match ag_deferred s with
  | e :: deferred => Some (e, deferred, ag_entries s)
  | [] => match ag_entries s with e :: entries => Some (e, [], entries) | [] => None end
  end.

Definition push_unit (b : option BatchBuilder) (unit_ : list byte) : option BatchBuilder :=
  b ← b; let '(b', r) := push b unit_ in if is_ok r then Some b' else None.

(** Past the loop: the body is finished and submitted, its callers staged until the
    verdict; the queue's reservations drop once the driver holds its own. *)
Definition ship (s : Agg) (builder : BatchBuilder) (callers : list Z) (guards : list Reservation) (d : DriverView) : option Agg :=
  match callers with
  | [] => Some (with_flight s Parked (ag_in_flight s) (ag_bodies s))
  | _ :: _ =>
      match batch_finish builder with
      | Err _ => None
      | Ok body =>
          let budget := fold_left drop_guard guards (ag_budget s) in
          match handle_submit (ag_driver s) d body with
          | Ok driver =>
              let s := with_driver (with_budget s budget) driver (ag_held s ++ [zlen body]) in
              Some (with_flight s Flying callers (ag_bodies s ++ [mkBody callers body InDriver]))
          | Err e =>
              let s := with_flight (with_budget s budget) Parked [] (ag_bodies s ++ [mkBody callers body (Rejected e)]) in
              Some (resolve_all s callers (submit_failure e))
          end
      end
  end.

(** One turn of the packing loop over a popped entry. *)
Definition pack_entry (s : Agg) (builder : BatchBuilder) (callers : list Z) (guards : list Reservation)
    (e : QueueEntry) (deferred entries : list QueueEntry) (d : DriverView) : option Agg :=
  let on := Packing builder callers guards in
  if fully_canceled (ag_canceled s) e then
    Some (with_budget (drop_unresolved (with_pump s entries deferred on) (entry_replies e)) (drop_guard (ag_budget s) (en_reservation e)))
  else if negb (fits_open_body (ag_limits s) builder (zlen callers) e) then
    if builder_is_empty builder then
      let reason := if 1 <? zlen (en_units e) then GroupTooLarge else UnitTooLarge in
      Some (refuse_entries (with_pump s entries deferred on) reason [e])
    else ship (with_pump s entries (e :: deferred) on) builder callers guards d
  else
    builder ← foldl push_unit (Some builder) (entry_bodies e);
    Some (with_pump s entries deferred (Packing builder (callers ++ entry_replies e) (guards ++ [en_reservation e]))).

(** [AggregatorPump::run], up to the next lock or suspension; [d] is what a submit made
    now finds. *)
Definition pump_step (s : Agg) (d : DriverView) : option Agg :=
  match ag_pump s with
  | Parked =>
      let opened := Packing (builder_new (submit_limit (ag_limits s))) [] [] in
      match ag_deferred s, ag_entries s with
      | _ :: _, _ => Some (with_pump s (ag_entries s) (ag_deferred s) opened)
      | [], e :: entries => Some (with_pump s entries [e] opened)
      | [], [] => if ag_closed s || (ag_handles s =? 0) then Some (drop_pump s) else Some s
      end
  | Packing builder callers guards =>
      match pop_entry s with
      | Some (e, deferred, entries) => pack_entry s builder callers guards e deferred entries d
      | None => ship s builder callers guards d
      end
  | Flying | Gone => Some s
  end.

(** ** The body in flight *)

(** One poll of the race: the driver's answer, if it is there ([Err] a dropped reply
    channel and the retirement latch as it then stands), and whether the timer fired. *)
Definition race (s : Agg) (answer : option (result (option (MemberId * Epoch)) (list byte))) (timer : bool) : Agg :=
  match ag_pump s with
  | Flying =>
      let callers := ag_in_flight s in
      match answer with
      | Some (Ok reply) => send_all (with_flight s Parked [] (fate_of_last (Answered reply) (ag_bodies s))) (demux callers reply)
      | Some (Err retired) =>
          let e := reply_dropped_reason retired in
          resolve_all (with_flight s Parked [] (fate_of_last (Failed e) (ag_bodies s))) callers (submit_failure e)
      | None =>
          if ag_stall s && timer then
            let s := with_flight s Gone [] (fate_of_last Left (ag_bodies s)) in
            drop_pump (close_and_drain (resolve_all s callers (OutcomeUnknown UnknownStalled)) RefusedStalled)
          else if negb (bool_decide (callers = [])) && forallb (fun c => bool_decide (c ∈ ag_canceled s)) callers then
            let s := with_flight s Gone [] (fate_of_last Left (ag_bodies s)) in
            drop_pump (close_and_drain (drop_unresolved s callers) RefusedPumpGone)
          else s
      end
  | _ => s
  end.

(** ** Interleavings *)

Inductive Event : Type :=
| Submit (unit_ : list byte)
| SubmitGroup (units : list (list byte))
| Cancel (caller : Z)
| CloneHandle
| DropHandle
| PumpStep (d : DriverView)
| Race (answer : option (result (option (MemberId * Epoch)) (list byte))) (timer : bool)
| DriverRelease
| DropPump.

(** The pump's future can be dropped where it is suspended; the driver gives a body's
    reservation back once it no longer owes its answer. *)
Definition step (s : Agg) (e : Event) : option Agg :=
  match e with
  | Submit u => if 0 <? ag_handles s then Some (submit s u).1 else Some s
  | SubmitGroup us => if 0 <? ag_handles s then Some (submit_group s us).1 else Some s
  | Cancel c => Some (with_callers s (ag_handles s) ({[c]} ∪ ag_canceled s))
  | CloneHandle => if 0 <? ag_handles s then Some (with_callers s (ag_handles s + 1) (ag_canceled s)) else Some s
  | DropHandle => if 0 <? ag_handles s then Some (with_callers s (ag_handles s - 1) (ag_canceled s)) else Some s
  | PumpStep d => pump_step s d
  | Race answer timer => Some (race s answer timer)
  | DriverRelease =>
      match ag_held s with
      | len :: rest =>
          match ag_pump s, rest with
          | Flying, [] => Some s
          | _, _ => Some (with_driver s (release_budget (ag_driver s) 1 len) rest)
          end
      | [] => Some s
      end
  | DropPump => match ag_pump s with Parked | Flying => Some (drop_pump s) | Packing _ _ _ | Gone => Some s end
  end.

Fixpoint play (s : Agg) (es : list Event) : option Agg :=
  match es with [] => Some s | e :: es => s ← step s e; play s es end.

(** ** Lengths and builders *)

Definition unit_cost (len : Z) : Z := BATCH_UNIT_OVERHEAD + len.
Definition cost (lens : list Z) : Z := foldr Z.add 0 (map unit_cost lens).
Definition lens_of (us : list (list byte)) : list Z := map (fun u => zlen u) us.

Lemma cost_nonneg lens : Forall (Z.le 0) lens -> 0 <= cost lens.
Proof.
  induction 1 as [|len lens Hl _ IH]; [done|]. unfold cost in *. cbn [map foldr]. unfold unit_cost at 1, BATCH_UNIT_OVERHEAD. lia.
Qed.

Lemma lens_nonneg us : Forall (Z.le 0) (lens_of us).
Proof. unfold lens_of. apply Forall_forall. intros z (u & -> & _)%list_elem_of_fmap. lia. Qed.

Lemma cost_units us : cost (lens_of us) = zlen (units_encoding us).
Proof.
  induction us as [|u us IH]; [done|]. rewrite units_encoding_cons, !length_app, length_be_bytes.
  unfold cost, lens_of in *. cbn [map foldr]. rewrite IH. unfold unit_cost, BATCH_UNIT_OVERHEAD. lia.
Qed.

Lemma encoded_units_cost us : encoded_units us = zlen (units_encoding us).
Proof. rewrite <- cost_units. unfold encoded_units, cost, lens_of. by rewrite map_map. Qed.

Lemma add_unit_len_none lens : foldl add_unit_len None lens = None.
Proof. induction lens; done. Qed.

Lemma add_lens lens a :
  Forall (Z.le 0) lens -> 0 <= a <= umax 64 ->
  foldl add_unit_len (Some a) lens = if a + cost lens <=? umax 64 then Some (a + cost lens) else None.
Proof.
  intros Hl. revert a. induction Hl as [|len lens Hlen Hl IH]; intros a Ha; cbn [foldl].
  - unfold cost. cbn. rewrite Z.add_0_r. by destruct (Z.leb_spec a (umax 64)); [|lia].
  - unfold cost. cbn [map foldr]. fold (cost lens). pose proof (cost_nonneg lens Hl) as Hc. unfold add_unit_len at 2. cbn [mbind option_bind].
    unfold unit_cost, checked_add, BATCH_UNIT_OVERHEAD in *. destruct (Z.leb_spec (a + 4) (umax 64)); cbn [mbind option_bind].
    + destruct (Z.leb_spec (a + 4 + len) (umax 64)).
      * rewrite IH by lia. replace (a + 4 + len + cost lens) with (a + (4 + len + cost lens)) by lia. done.
      * rewrite add_unit_len_none. by destruct (Z.leb_spec (a + (4 + len + cost lens)) (umax 64)); [lia|].
    + rewrite add_unit_len_none. by destruct (Z.leb_spec (a + (4 + len + cost lens)) (umax 64)); [lia|].
Qed.

Lemma admits_spec l us : submit_limit l <= umax 64 ->
  admits l (zlen us) (lens_of us) = true <-> zlen us <= max_units l /\ 4 + zlen (units_encoding us) <= submit_limit l.
Proof.
  intros Hlim. unfold admits, encoded_request_len, BATCH_COUNT_OVERHEAD.
  rewrite (add_lens _ 4 (lens_nonneg us)) by (unfold umax; lia). rewrite cost_units.
  rewrite andb_true_iff, Z.leb_le. unfold at_most. destruct (Z.leb_spec (4 + zlen (units_encoding us)) (umax 64)); [by rewrite Z.leb_le|].
  split; [intros [_ ?]; done|lia].
Qed.

Lemma push_units_fit limit b us vs :
  builds limit b us -> 4 + zlen (units_encoding (us ++ vs)) <= Z.min limit BUDGET_CAP ->
  exists b', foldl push_unit (Some b) vs = Some b' /\ builds limit b' (us ++ vs).
Proof.
  revert b us. induction vs as [|v vs IH]; intros b us Hb Hfit; [by rewrite app_nil_r; eauto|].
  cbn [foldl]. replace (us ++ v :: vs) with ((us ++ [v]) ++ vs) in * by (by rewrite <- app_assoc). pose proof (push_spec limit b us v Hb) as Hp.
  assert (Hle : zlen (units_encoding (us ++ [v])) <= zlen (units_encoding ((us ++ [v]) ++ vs))).
  { unfold units_encoding. rewrite (map_app _ (us ++ [v])), concat_app, !length_app. lia. }
  rewrite (proj2 (Z.leb_le _ _)) in Hp by lia. destruct Hp as (b' & Hp & Hb').
  unfold push_unit at 2. cbn [mbind option_bind]. rewrite Hp. cbn. by apply IH.
Qed.

Lemma fits_open_body_spec l b us e :
  builds (submit_limit l) b us -> submit_limit l <= BUDGET_CAP -> 0 <= max_units l <= umax 64 ->
  fits_open_body l b (zlen us) e = true <->
  zlen us + zlen (en_units e) <= max_units l /\ 4 + zlen (units_encoding (us ++ entry_bodies e)) <= submit_limit l.
Proof.
  intros Hb Hlim Hmax. unfold fits_open_body. change (map (fun b0 => zlen b0) (entry_bodies e)) with (lens_of (entry_bodies e)).
  rewrite (add_lens _ 0 (lens_nonneg _)) by (unfold umax; lia). rewrite cost_units, Z.add_0_l.
  unfold bytes_used. rewrite (builds_bytes _ _ _ Hb). destruct Hb as (_ & _ & -> & _). unfold BUDGET_CAP, umax in *.
  rewrite Z.min_l by lia. unfold units_encoding at 4. rewrite map_app, concat_app, length_app.
  fold (units_encoding us). fold (units_encoding (entry_bodies e)). rewrite andb_true_iff. unfold at_most, checked_add, umax.
  pose proof (units_encoding_len us). pose proof (units_encoding_len (entry_bodies e)).
  destruct (Z.leb_spec (zlen us + zlen (en_units e)) (2 ^ 64 - 1)).
  - cbv beta iota. rewrite Z.leb_le. destruct (Z.leb_spec (zlen (units_encoding (entry_bodies e))) (2 ^ 64 - 1)); cbn [mbind option_bind].
    + destruct (Z.leb_spec (4 + zlen (units_encoding us) + zlen (units_encoding (entry_bodies e))) (2 ^ 64 - 1)); [cbv beta iota; rewrite Z.leb_le; lia|].
      split; [intros [_ ?]; done|lia].
    + split; [intros [_ ?]; done|lia].
  - split; [intros [? _]; done|lia].
Qed.

(** ** The invariant *)

Definition packing (p : Pump) : list Z := match p with Packing _ callers _ => callers | _ => [] end.
Definition guards_of (p : Pump) : list Reservation := match p with Packing _ _ guards => guards | _ => [] end.
Definition waiting (s : Agg) : list QueueEntry := ag_deferred s ++ ag_entries s.
Definition queued (s : Agg) : list Z := concat (map entry_replies (waiting s)).
Definition handed (s : Agg) : list Z := concat (map bd_callers (ag_bodies s)).
Definition settled (s : Agg) : list Z := map fst (ag_sent s) ++ ag_dropped s.
Definition reserved (s : Agg) : list Reservation := guards_of (ag_pump s) ++ map en_reservation (waiting s).
Definition total (l : list Z) : Z := foldr Z.add 0 l.

(** The callers submitted these units. *)
Definition carries (acc : list (list byte)) : list Z -> list (list byte) -> Prop :=
  Forall2 (fun c b => 0 <= c /\ acc !! Z.to_nat c = Some b).

Record entry_ok (l : BodyLimits) (acc : list (list byte)) (e : QueueEntry) : Prop := {
  eo_nonempty : en_units e <> [];
  eo_carries : carries acc (entry_replies e) (entry_bodies e);
  eo_admitted : zlen (en_units e) <= max_units l /\ 4 + zlen (units_encoding (entry_bodies e)) <= submit_limit l;
  eo_reserved : en_reservation e = (zlen (en_units e), zlen (units_encoding (entry_bodies e)));
}.

Definition body_ok (l : BodyLimits) (acc : list (list byte)) (b : Body) : Prop :=
  exists us, us <> [] /\ carries acc (bd_callers b) us /\ encodable us /\ bd_bytes b = batch_encoding us /\
    zlen (bd_bytes b) <= submit_limit l /\ zlen us <= max_units l.

(** An outcome is what became of the body that carries the caller's unit. *)
Definition truthful (bodies : list Body) (c : Z) (r : result BatchError (list byte)) : Prop :=
  match r with
  | Err (Refused why) =>
      why <> UnitTooLarge /\ why <> GroupTooLarge /\ why <> QueueFull /\
      forall b, b ∈ bodies -> c ∈ bd_callers b -> exists e, bd_fate b = Rejected e
  | Err (OutcomeUnknown _) =>
      exists b, b ∈ bodies /\ c ∈ bd_callers b /\
        match bd_fate b with Rejected (DriverRetired _ _) | Rejected DriverReplyDropped | Rejected DriverOther | Failed _ | Left => True | _ => False end
  | Err (CommittedReplyLost _) | Ok _ =>
      exists b reply, b ∈ bodies /\ c ∈ bd_callers b /\ bd_fate b = Answered reply /\ (c, r) ∈ demux (bd_callers b) reply
  end.

Definition flying (p : Pump) : bool := match p with Flying => true | _ => false end.

Record agg_ok (s : Agg) : Prop := {
  ao_limits : submit_limit (ag_limits s) <= BUDGET_CAP /\ 0 <= max_units (ag_limits s) <= umax 64;
  ao_entries : Forall (entry_ok (ag_limits s) (ag_accepted s)) (waiting s);
  ao_budget : ib_count (ag_budget s) = total (map fst (reserved s)) /\ ib_bytes (ag_budget s) = total (map snd (reserved s));
  ao_capped : ib_count (ag_budget s) <= Z.max 0 (ib_max_count (ag_budget s)) /\ ib_bytes (ag_budget s) <= Z.max 0 (ib_max_bytes (ag_budget s));
  ao_order : StronglySorted Z.lt (handed s ++ packing (ag_pump s) ++ queued s);
  ao_places : queued s ++ packing (ag_pump s) ++ ag_in_flight s ++ settled s ≡ₚ seqZ 0 (zlen (ag_accepted s));
  ao_pack : match ag_pump s with
            | Packing b callers guards =>
                exists us, builds (submit_limit (ag_limits s)) b us /\ carries (ag_accepted s) callers us /\ zlen us <= max_units (ag_limits s) /\
                  Forall (fun g => 0 <= g.1 /\ 0 <= g.2) guards /\ (callers = [] -> guards = [])
            | _ => True
            end;
  ao_bodies : Forall (body_ok (ag_limits s) (ag_accepted s)) (ag_bodies s);
  ao_flight : match ag_pump s with
              | Flying => exists bs bytes, ag_bodies s = bs ++ [mkBody (ag_in_flight s) bytes InDriver] /\ Forall (fun b => bd_fate b <> InDriver) bs
              | _ => ag_in_flight s = [] /\ Forall (fun b => bd_fate b <> InDriver) (ag_bodies s)
              end;
  ao_sent : Forall (fun o => truthful (ag_bodies s) o.1 o.2) (ag_sent s);
  ao_dropped : Forall (fun c => c ∈ ag_canceled s) (ag_dropped s);
  ao_gone : ag_pump s = Gone -> ag_closed s = true /\ waiting s = [];
}.

(** ** Facts the steps share *)

Lemma ids_ascend a n : StronglySorted Z.lt (seqZ a n).
Proof.
  unfold seqZ. generalize (Z.to_nat n). intros k. revert a. induction k as [|k IH]; intros a; [constructor|].
  cbn [seq map fmap list_fmap]. rewrite <- fmap_S_seq, <- list_fmap_compose. constructor.
  - replace ((λ i, Z.of_nat i + a) ∘ S <$> seq 0 k) with ((λ i, Z.of_nat i + (a + 1)) <$> seq 0 k); [apply IH|].
    apply list_fmap_ext. intros i x _. cbn. lia.
  - apply Forall_forall. intros z (i & -> & _)%list_elem_of_fmap. cbn. lia.
Qed.

Lemma ascending_snoc (l : list Z) (k : list Z) : StronglySorted Z.lt l -> StronglySorted Z.lt k -> (forall x y, x ∈ l -> y ∈ k -> x < y) -> StronglySorted Z.lt (l ++ k).
Proof.
  intros Hl Hk Hlt. induction Hl as [|x l Hl IH Hx]; [done|]. cbn. constructor.
  - apply IH. intros y z Hy. apply Hlt. by right.
  - apply Forall_app. split; [done|]. apply Forall_forall. intros y Hy. apply Hlt; [left|done].
Qed.

Lemma sorted_app (l k : list Z) : StronglySorted Z.lt (l ++ k) -> StronglySorted Z.lt l /\ StronglySorted Z.lt k /\ (forall x y, x ∈ l -> y ∈ k -> x < y).
Proof.
  induction l as [|x l IH]; cbn; [intros H; split_and!; [constructor|done|intros ? ? ?%elem_of_nil; done]|].
  intros H. inversion H as [|? ? Hs Hf]; subst. destruct (IH Hs) as (Hl & Hk & Hlt). apply Forall_app in Hf as [Hf1 Hf2].
  split_and!; [by constructor|done|]. intros y z Hy Hz. apply elem_of_cons in Hy as [-> |Hy]; [|by apply Hlt].
  rewrite Forall_forall in Hf2. by apply Hf2.
Qed.

Lemma ascending_nodup (l : list Z) : StronglySorted Z.lt l -> NoDup l.
Proof.
  induction 1 as [|x l _ IH Hx]; constructor; [|done]. rewrite Forall_forall in Hx. intros Hin. specialize (Hx x Hin). lia.
Qed.

Lemma carries_bound acc cs us : carries acc cs us -> Forall (fun c => 0 <= c < zlen acc) cs.
Proof. induction 1 as [|c u cs us [Hc Hu] _ IH]; constructor; [|done]. apply lookup_lt_Some in Hu. lia. Qed.

Lemma carries_length acc cs us : carries acc cs us -> length cs = length us.
Proof. apply Forall2_length. Qed.

Lemma carries_more acc more cs us : carries acc cs us -> carries (acc ++ more) cs us.
Proof. intros H. eapply Forall2_impl; [exact H|]. intros c u [Hc Hu]. split; [done|]. by apply lookup_app_l_Some. Qed.

Lemma carries_fresh acc us : carries (acc ++ us) (seqZ (zlen acc) (zlen us)) us.
Proof.
  apply Forall2_same_length_lookup. rewrite length_seqZ, Nat2Z.id. split; [done|]. intros i c u Hc Hu.
  apply lookup_seqZ in Hc as [-> Hi]. split; [lia|]. rewrite lookup_app_r by lia.
  replace (Z.to_nat (zlen acc + Z.of_nat i) - length acc)%nat with i by lia. done.
Qed.

Lemma entry_ok_more l acc more e : entry_ok l acc e -> entry_ok l (acc ++ more) e.
Proof. intros []. split; try done. by apply carries_more. Qed.

Lemma body_ok_more l acc more b : body_ok l acc b -> body_ok l (acc ++ more) b.
Proof. intros (us & ? & ? & ?). exists us. split; [done|]. split; [by apply carries_more|done]. Qed.

Lemma total_app a b : total (a ++ b) = total a + total b.
Proof. induction a; unfold total in *; cbn [app foldr]; lia. Qed.

Lemma drop_guards gs b : fold_left drop_guard gs b = mkInflightBudget (ib_count b - total (map fst gs)) (ib_bytes b - total (map snd gs)) (ib_max_count b) (ib_max_bytes b).
Proof.
  revert b. induction gs as [|g gs IH]; intros b; [unfold total; cbn; rewrite !Z.sub_0_r; by destruct b|].
  cbn [fold_left map]. rewrite IH. unfold total. cbn [foldr drop_guard release_budget ib_count ib_bytes ib_max_count ib_max_bytes]. f_equal; lia.
Qed.

Lemma refuse_entries_all s r es :
  refuse_entries s r es = resolve_all (with_budget s (fold_left drop_guard (map en_reservation es) (ag_budget s))) (concat (map entry_replies es)) (Refused r).
Proof.
  revert s. induction es as [|e es IH]; intros s; cbn [map concat fold_left].
  - unfold resolve_all, send_all, with_budget. cbn. rewrite app_nil_r. by destruct s.
  - unfold refuse_entries in *. cbn [fold_left]. rewrite IH. unfold resolve_all, send_all, with_budget. cbn. by rewrite map_app, app_assoc.
Qed.

Lemma fate_of_last_snoc f bs b : fate_of_last f (bs ++ [b]) = bs ++ [mkBody (bd_callers b) (bd_bytes b) f].
Proof. unfold fate_of_last. rewrite reverse_snoc. by rewrite reverse_cons, reverse_involutive. Qed.

Lemma demux_fst callers reply o : o ∈ demux callers reply -> o.1 ∈ callers.
Proof.
  unfold demux. destruct (parse reply) as [v|]; [destruct (negb _)|]; try (by intros (c & -> & Hc)%list_elem_of_fmap).
  destruct o as [c r]. intros H%elem_of_zip_l. done.
Qed.

Lemma demux_callers callers reply : map fst (demux callers reply) = callers.
Proof.
  unfold demux. assert (Hm : forall x : result BatchError (list byte), map fst (map (fun c => (c, x)) callers) = callers).
  { intros x. rewrite map_map. apply map_id. }
  destruct (parse reply) as [v|] eqn:Hp; [|apply Hm]. destruct (Z.eqb_spec (v_count v) (zlen callers)) as [Hn|]; [|apply Hm]. cbn [negb].
  apply parse_inv in Hp as (us & Hus & He & _ & ->). rewrite (view_collect_of us He). apply fst_zip. cbn in Hn. rewrite length_map. lia.
Qed.

(** A caller whose body is not yet decided has no outcome, so deciding it changes none. *)
Lemma truthful_more bodies b c r : truthful bodies c r -> c ∉ bd_callers b -> truthful (bodies ++ [b]) c r.
Proof.
  intros Ht Hc. destruct r as [rep|[]]; cbn in *.
  - destruct Ht as (b' & reply & Hb & ?). exists b', reply. split; [apply elem_of_app; by left|done].
  - destruct Ht as (? & ? & ? & Ht). split_and!; [done..|]. intros b' Hb Hc'. apply elem_of_app in Hb as [Hb| ->%list_elem_of_singleton]; [by apply Ht|done].
  - destruct Ht as (b' & Hb & ?). exists b'. split; [apply elem_of_app; by left|done].
  - destruct Ht as (b' & reply & Hb & ?). exists b', reply. split; [apply elem_of_app; by left|done].
Qed.

Lemma truthful_decided bs cs bytes f c r : truthful (bs ++ [mkBody cs bytes InDriver]) c r -> c ∉ cs -> truthful (bs ++ [mkBody cs bytes f]) c r.
Proof.
  intros Ht Hc. apply truthful_more; [|done]. destruct r as [rep|[]]; cbn in *.
  - destruct Ht as (b' & reply & Hb & Hc' & Hf & Hd). apply elem_of_app in Hb as [Hb| ->%list_elem_of_singleton]; [by exists b', reply|done].
  - destruct Ht as (? & ? & ? & Ht). split_and!; [done..|]. intros b' Hb. apply Ht, elem_of_app. by left.
  - destruct Ht as (b' & Hb & Hc' & Hf). apply elem_of_app in Hb as [Hb| ->%list_elem_of_singleton]; [by exists b'|done].
  - destruct Ht as (b' & reply & Hb & Hc' & Hf & Hd). apply elem_of_app in Hb as [Hb| ->%list_elem_of_singleton]; [by exists b', reply|done].
Qed.

(** ** Every step keeps the invariant *)

Lemma places_nodup s : agg_ok s -> NoDup (queued s ++ packing (ag_pump s) ++ ag_in_flight s ++ settled s).
Proof. intros Hs. rewrite (ao_places s Hs). apply ascending_nodup, ids_ascend. Qed.

Lemma bounded_below s c : agg_ok s -> c ∈ handed s ++ packing (ag_pump s) ++ queued s -> c < zlen (ag_accepted s).
Proof.
  intros Hs Hc. assert (Hb : forall cs us, carries (ag_accepted s) cs us -> c ∈ cs -> c < zlen (ag_accepted s)).
  { intros cs us H%carries_bound Hin. rewrite Forall_forall in H. destruct (H c Hin); done. }
  rewrite !elem_of_app in Hc. destruct Hc as [Hc|[Hc|Hc]].
  - unfold handed in Hc. apply list_elem_of_In, in_concat in Hc as (l & Hl & Hc). apply in_map_iff in Hl as (b & <- & Hin).
    pose proof (ao_bodies s Hs) as Hbs. rewrite Forall_forall in Hbs. destruct (Hbs b ltac:(by apply list_elem_of_In)) as (us & _ & Hca & _).
    apply (Hb _ us Hca). by apply list_elem_of_In.
  - pose proof (ao_pack s Hs) as Hp. destruct (ag_pump s) as [|b cs gs| |]; try by apply elem_of_nil in Hc.
    destruct Hp as (us & _ & Hca & _). exact (Hb cs us Hca Hc).
  - unfold queued in Hc. apply list_elem_of_In, in_concat in Hc as (l & Hl & Hc). apply in_map_iff in Hl as (e & <- & Hin).
    pose proof (ao_entries s Hs) as He. rewrite Forall_forall in He. apply (Hb _ _ (eo_carries _ _ _ (He e ltac:(by apply list_elem_of_In)))).
    by apply list_elem_of_In.
Qed.

Lemma submit_units_ok s us why : agg_ok s -> us <> [] -> agg_ok (submit_units s us why).1.
Proof.
  intros Hs Hne. unfold submit_units. change (map (fun u => zlen u) us) with (lens_of us).
  destruct (admits (ag_limits s) (zlen us) (lens_of us)) eqn:Ha; cbn [negb]; [|done].
  destruct (try_acquire_many (ag_budget s) (zlen us) (encoded_units us)) as [b|] eqn:Hb; [|done].
  apply admits_spec in Ha; [|destruct (ao_limits s Hs); unfold BUDGET_CAP, umax in *; lia].
  unfold try_acquire_many in Hb. destruct (_ || _) eqn:Hcap; [done|]. apply orb_false_iff in Hcap as [Hc1%Z.ltb_ge Hc2%Z.ltb_ge].
  injection Hb as <-. set (ids := seqZ (zlen (ag_accepted s)) (zlen us)).
  set (e := mkEntry (zip_with mkPendingUnit us ids) (zlen us, encoded_units us)).
  assert (Hlen : length us = length ids) by (unfold ids; rewrite length_seqZ; lia).
  assert (Hr : entry_replies e = ids).
  { unfold entry_replies, e. cbn. apply (fmap_zip_with_r mkPendingUnit pu_reply); [done|lia]. }
  assert (Hbo : entry_bodies e = us).
  { unfold entry_bodies, e. cbn. apply (fmap_zip_with_l mkPendingUnit pu_body); [done|lia]. }
  destruct (ag_closed s) eqn:Hcl; cbn [fst].
  { unfold drop_guard, release_budget. cbn [en_reservation e fst snd ib_count ib_bytes ib_max_count ib_max_bytes].
    replace (mkInflightBudget _ _ _ _) with (ag_budget s) by (destruct (ag_budget s); cbn; f_equal; lia). by destruct s. }
  set (s' := with_queue s _ _ _ _). assert (Hw : waiting s' = waiting s ++ [e]) by (unfold waiting; cbn; by rewrite app_assoc).
  assert (Hq : queued s' = queued s ++ ids) by (unfold queued; rewrite Hw, map_app, concat_app; cbn [map concat]; by rewrite Hr, app_nil_r).
  assert (Hl : zlen (en_units e) = zlen us) by (unfold e; cbn; rewrite length_zip_with; lia).
  assert (He : entry_ok (ag_limits s) (ag_accepted s ++ us) e).
  { split; rewrite ?Hr, ?Hbo, ?Hl; [|apply carries_fresh|done|by rewrite <- encoded_units_cost].
    unfold e. cbn. destruct us; [done|]. destruct ids; [done|]. done. }
  pose proof Hs as [L En Bu Ca Or Pl Pa Bo Fl Se Dr Go]. split; try assumption.
  - rewrite Hw. apply Forall_app. split; [|by apply Forall_singleton]. eapply Forall_impl; [exact En|]. intros x. apply entry_ok_more.
  - assert (Hres : reserved s' = reserved s ++ [(zlen us, encoded_units us)]) by (unfold reserved; by rewrite Hw, map_app, app_assoc).
    rewrite Hres, !map_app, !total_app. destruct Bu as [Bu1 Bu2]. cbn [ag_budget s' with_queue ib_count ib_bytes map fst snd]. unfold total in *. cbn [foldr]. lia.
  - cbn. destruct Ca. lia.
  - rewrite Hq. change (handed s') with (handed s). change (ag_pump s') with (ag_pump s). rewrite !app_assoc. rewrite <- (app_assoc (handed s)). apply ascending_snoc; [done|apply ids_ascend|].
    intros x y Hx Hy. pose proof (bounded_below s x Hs Hx). unfold ids in Hy. apply elem_of_seqZ in Hy. lia.
  - rewrite Hq. change (settled s') with (settled s). change (ag_pump s') with (ag_pump s). change (ag_in_flight s') with (ag_in_flight s).
    cbn [ag_accepted s' with_queue]. rewrite length_app, Nat2Z.inj_add, seqZ_app, <- Pl by lia. rewrite Z.add_0_l. fold ids. solve_Permutation.
  - change (ag_pump s') with (ag_pump s). destruct (ag_pump s); try done. destruct Pa as (vs & ? & ? & ?). exists vs. split; [done|]. split; [by apply carries_more|done].
  - cbn. eapply Forall_impl; [exact Bo|]. intros x. apply body_ok_more.
  - intros Hg. change (ag_pump s = Gone) in Hg. destruct (Go Hg). congruence.
Qed.

Lemma queued_cons s e rest : waiting s = e :: rest -> queued s = entry_replies e ++ concat (map entry_replies rest).
Proof. unfold queued. by intros ->. Qed.

Lemma pop_entry_spec s e deferred entries : pop_entry s = Some (e, deferred, entries) -> waiting s = e :: deferred ++ entries.
Proof.
  unfold pop_entry, waiting. destruct (ag_deferred s) as [|x d]; [|by intros [= <- <- <-]].
  destruct (ag_entries s) as [|x es]; [done|]. by intros [= <- <- <-].
Qed.

Lemma open_ok s entries deferred : agg_ok s -> ag_pump s = Parked -> deferred ++ entries = waiting s ->
  agg_ok (with_pump s entries deferred (Packing (builder_new (submit_limit (ag_limits s))) [] [])).
Proof.
  intros Hs Hp Hw. set (s' := with_pump s _ _ _). assert (Hw' : waiting s' = waiting s) by exact Hw.
  pose proof Hs as [L En Bu Ca Or Pl Pa Bo Fl Se Dr Go]. rewrite Hp in *. split; try assumption.
  - by rewrite Hw'.
  - unfold reserved in *. rewrite Hw', Hp in *. exact Bu.
  - unfold queued in *. rewrite Hw'. exact Or.
  - unfold queued in *. rewrite Hw'. exact Pl.
  - exists []. split_and!; [apply builds_new|constructor|cbn; lia|constructor|done].
  - done.
Qed.

(** A popped entry leaves the queue with its reservation. *)
Lemma popped_budget s e rest builder callers guards : agg_ok s -> ag_pump s = Packing builder callers guards -> waiting s = e :: rest ->
  ib_count (drop_guard (ag_budget s) (en_reservation e)) = total (map fst (guards ++ map en_reservation rest)) /\
  ib_bytes (drop_guard (ag_budget s) (en_reservation e)) = total (map snd (guards ++ map en_reservation rest)) /\
  0 <= (en_reservation e).1 /\ 0 <= (en_reservation e).2.
Proof.
  intros Hs Hp Hw. destruct (ao_budget s Hs) as [H1 H2]. unfold reserved in *. rewrite Hp, Hw in *. cbn [guards_of map] in *.
  rewrite !map_app, !total_app in *. unfold drop_guard, release_budget, total in *. cbn [ib_count ib_bytes map foldr] in *.
  pose proof (ao_entries s Hs) as He. rewrite Hw in He. apply Forall_cons in He as [He _]. rewrite (eo_reserved _ _ _ He) in *. cbn [fst snd] in *. lia.
Qed.

Lemma cancel_entry_ok s builder callers guards e deferred entries :
  agg_ok s -> ag_pump s = Packing builder callers guards -> waiting s = e :: deferred ++ entries -> fully_canceled (ag_canceled s) e = true ->
  agg_ok (with_budget (drop_unresolved (with_pump s entries deferred (Packing builder callers guards)) (entry_replies e)) (drop_guard (ag_budget s) (en_reservation e))).
Proof.
  intros Hs Hp Hw Hc. destruct (popped_budget s e _ _ _ _ Hs Hp Hw) as (Hb1 & Hb2 & Hb3 & Hb4). set (s' := with_budget _ _).
  assert (Hq : queued s = entry_replies e ++ queued s') by exact (queued_cons s e _ Hw).
  assert (Hset : settled s' = settled s ++ entry_replies e) by (unfold settled; cbn; by rewrite app_assoc).
  pose proof Hs as [L En Bu Ca Or Pl Pa Bo Fl Se Dr Go]. rewrite Hp in *. split; try assumption.
  - change (waiting s') with (deferred ++ entries). rewrite Hw in En. by apply Forall_cons in En as [_ En].
  - done.
  - destruct Ca. unfold s', drop_guard, release_budget. cbn [ag_budget with_budget ib_count ib_bytes ib_max_count ib_max_bytes]. lia.
  - rewrite Hq in Or. change (handed s') with (handed s). change (packing (ag_pump s')) with callers. cbn [packing] in Or.
    apply sorted_app in Or as (O1 & O2 & O3). apply sorted_app in O2 as (O4 & O5 & O6). apply sorted_app in O5 as (O7 & O8 & O9).
    apply ascending_snoc; [done|apply ascending_snoc; [done|done|]|].
    + intros x y Hx Hy. apply O6; [done|]. apply elem_of_app. by right.
    + intros x y Hx Hy. apply O3; [done|]. rewrite !elem_of_app in *. tauto.
  - rewrite Hset. change (packing (ag_pump s')) with callers. change (ag_in_flight s') with (ag_in_flight s). change (ag_accepted s') with (ag_accepted s).
    rewrite <- Pl, Hq. cbn [packing]. solve_Permutation.
  - change (ag_dropped s') with (ag_dropped s ++ entry_replies e). apply Forall_app. split; [done|].
    unfold fully_canceled in Hc. rewrite List.forallb_forall in Hc. unfold entry_replies. apply Forall_forall. intros c (u & -> & Hu)%list_elem_of_fmap.
    apply list_elem_of_In in Hu. by specialize (Hc u Hu); apply bool_decide_eq_true in Hc.
  - done.
Qed.

Lemma pack_ok s builder callers guards e deferred entries b' us :
  agg_ok s -> ag_pump s = Packing builder callers guards -> waiting s = e :: deferred ++ entries ->
  carries (ag_accepted s) callers us -> builds (submit_limit (ag_limits s)) b' (us ++ entry_bodies e) ->
  zlen us + zlen (en_units e) <= max_units (ag_limits s) -> Forall (fun g => 0 <= g.1 /\ 0 <= g.2) guards ->
  agg_ok (with_pump s entries deferred (Packing b' (callers ++ entry_replies e) (guards ++ [en_reservation e]))).
Proof.
  intros Hs Hp Hw Hcar Hb Hmax Hg. set (s' := with_pump _ _ _ _).
  assert (Hq : queued s = entry_replies e ++ queued s') by exact (queued_cons s e _ Hw).
  destruct (popped_budget s e _ _ _ _ Hs Hp Hw) as (_ & _ & Hg1 & Hg2).
  pose proof Hs as [L En Bu Ca Or Pl Pa Bo Fl Se Dr Go]. rewrite Hp in *. split; try assumption.
  - change (waiting s') with (deferred ++ entries). rewrite Hw in En. by apply Forall_cons in En as [_ En].
  - unfold reserved in *. rewrite Hp, Hw in Bu. change (waiting s') with (deferred ++ entries). cbn [guards_of map ag_pump s' with_pump ag_budget] in *.
    by rewrite <- app_assoc.
  - rewrite Hq in Or. change (packing (ag_pump s')) with (callers ++ entry_replies e). change (handed s') with (handed s). by rewrite <- app_assoc.
  - change (packing (ag_pump s')) with (callers ++ entry_replies e). change (settled s') with (settled s). change (ag_in_flight s') with (ag_in_flight s).
    change (ag_accepted s') with (ag_accepted s). rewrite <- Pl, Hq. cbn [packing]. solve_Permutation.
  - cbn. exists (us ++ entry_bodies e). split; [done|]. split.
    + apply Forall2_app; [exact Hcar|]. rewrite Hw in En. apply Forall_cons in En as [He _]. apply He.
    + split; [unfold entry_bodies; rewrite length_app, length_map; lia|]. split; [apply Forall_app; split; [done|by apply Forall_singleton]|].
      intros Hnil%app_eq_nil. destruct Hnil as [_ Hnil]. rewrite Hw in En. apply Forall_cons in En as [He _]. destruct (eo_nonempty _ _ _ He).
      unfold entry_replies in Hnil. by destruct (en_units e).
  - done.
Qed.

Lemma submit_limit_frame max_bytes : submit_byte_limit max_bytes <= BUDGET_CAP.
Proof. unfold submit_byte_limit. transitivity max_request_body_len; [lia|]. by vm_compute. Qed.

Lemma guards_nonneg (gs : list Reservation) : Forall (fun g => 0 <= g.1 /\ 0 <= g.2) gs -> 0 <= total (map fst gs) /\ 0 <= total (map snd gs).
Proof. induction 1 as [|g gs [Hg1 Hg2] _ IH]; [done|]. unfold total in *. cbn [map foldr]. lia. Qed.

Lemma guards_released s builder callers guards : agg_ok s -> ag_pump s = Packing builder callers guards ->
  let b := fold_left drop_guard guards (ag_budget s) in
  ib_count b = total (map fst (map en_reservation (waiting s))) /\ ib_bytes b = total (map snd (map en_reservation (waiting s))) /\
  ib_count b <= ib_count (ag_budget s) /\ ib_bytes b <= ib_bytes (ag_budget s) /\
  ib_max_count b = ib_max_count (ag_budget s) /\ ib_max_bytes b = ib_max_bytes (ag_budget s).
Proof.
  intros Hs Hp. cbv zeta. rewrite drop_guards. cbn [ib_count ib_bytes ib_max_count ib_max_bytes].
  destruct (ao_budget s Hs) as [H1 H2]. unfold reserved in *. rewrite Hp in *. cbn [guards_of] in *. rewrite !map_app, !total_app in *.
  pose proof (ao_pack s Hs) as Hpk. rewrite Hp in Hpk. destruct Hpk as (us & _ & _ & _ & Hg).
  destruct (guards_nonneg guards (proj1 Hg)). lia.
Qed.

Lemma ship_body s builder callers guards us : agg_ok s -> ag_pump s = Packing builder callers guards -> callers <> [] ->
  builds (submit_limit (ag_limits s)) builder us -> carries (ag_accepted s) callers us -> zlen us <= max_units (ag_limits s) ->
  batch_finish builder = Ok (batch_encoding us) /\
  forall f, body_ok (ag_limits s) (ag_accepted s) (mkBody callers (batch_encoding us) f).
Proof.
  intros Hs Hp Hne Hb Hc Hm. pose proof (batch_finish_spec _ _ _ Hb) as Hf. pose proof (carries_length _ _ _ Hc) as Hl.
  destruct us as [|u us]; [by destruct callers|]. split; [exact Hf|]. intros f. exists (u :: us). split; [done|].
  split; [exact Hc|]. split; [by eapply builds_encodable|]. split; [done|]. cbn [bd_bytes]. split; [|exact Hm].
  rewrite length_batch_encoding. destruct Hb as (_ & _ & Hbud & [|Hfit]); [done|]. lia.
Qed.

Lemma ship_undecided s builder callers guards : agg_ok s -> ag_pump s = Packing builder callers guards ->
  (forall c b, c ∈ callers -> b ∈ ag_bodies s -> c ∉ bd_callers b) /\ (forall o, o ∈ ag_sent s -> o.1 ∉ callers).
Proof.
  intros Hs Hp. split.
  - intros c b Hc Hb Hcb. pose proof (ao_order s Hs) as Ho. rewrite Hp in Ho. apply sorted_app in Ho as (_ & _ & Hlt).
    assert (Hh : c ∈ handed s).
    { unfold handed. apply list_elem_of_In, in_concat. exists (bd_callers b). split; [apply in_map_iff; exists b; split; [done|]|]; by apply list_elem_of_In. }
    specialize (Hlt c c Hh ltac:(apply elem_of_app; by left)). lia.
  - intros o Ho Hc. pose proof (places_nodup s Hs) as Hn. rewrite Hp in Hn. cbn [packing] in Hn.
    apply NoDup_app in Hn as (_ & _ & Hn). apply NoDup_app in Hn as (_ & Hd & _). apply (Hd o.1 Hc).
    apply elem_of_app. right. apply elem_of_app. left. by apply list_elem_of_fmap_2.
Qed.

(** A body is out: its callers are staged, or already told. *)
Lemma shipped_ok s builder callers guards us f sent flight p :
  agg_ok s -> ag_pump s = Packing builder callers guards -> callers <> [] ->
  builds (submit_limit (ag_limits s)) builder us -> carries (ag_accepted s) callers us -> zlen us <= max_units (ag_limits s) ->
  (f = InDriver /\ sent = [] /\ flight = callers /\ p = Flying \/
   exists e, f = Rejected e /\ sent = map (fun c => (c, Err (submit_failure e))) callers /\ flight = [] /\ p = Parked) ->
  agg_ok (send_all (with_flight (with_budget s (fold_left drop_guard guards (ag_budget s))) p flight (ag_bodies s ++ [mkBody callers (batch_encoding us) f])) sent).
Proof.
  intros Hs Hp Hne Hb Hc Hm Hf. destruct (guards_released s _ _ _ Hs Hp) as (B1 & B2 & B3 & B4 & B5 & B6).
  destruct (ship_body s _ _ _ us Hs Hp Hne Hb Hc Hm) as [_ Hbody]. destruct (ship_undecided s _ _ _ Hs Hp) as [Hfresh Hunsent].
  set (s' := send_all _ _). assert (Hh : handed s' = handed s ++ callers) by (unfold handed; cbn; by rewrite map_app, concat_app; cbn; rewrite app_nil_r).
  assert (Hpk : packing p = [] /\ guards_of p = []) by (by destruct Hf as [(_ & _ & _ & ->)|(? & _ & _ & _ & ->)]).
  pose proof Hs as [L En Bu Ca Or Pl Pa Bo Fl Se Dr Go]. rewrite Hp in *. destruct Fl as [Fl1 Fl2]. split; try assumption.
  - unfold reserved. change (ag_pump s') with p. rewrite (proj2 Hpk). change (waiting s') with (waiting s). cbn [app]. by split.
  - change (ag_budget s') with (fold_left drop_guard guards (ag_budget s)). rewrite B5, B6. lia.
  - rewrite Hh. change (ag_pump s') with p. rewrite (proj1 Hpk). change (queued s') with (queued s). cbn [app packing] in *. by rewrite <- app_assoc.
  - change (ag_pump s') with p. rewrite (proj1 Hpk). change (queued s') with (queued s). change (ag_accepted s') with (ag_accepted s). change (ag_in_flight s') with flight.
    rewrite <- Pl, Fl1. unfold settled. change (ag_sent s') with (ag_sent s ++ sent). change (ag_dropped s') with (ag_dropped s). cbn [app packing].
    destruct Hf as [(_ & -> & -> & _)|(e & _ & -> & -> & _)].
    + rewrite app_nil_r. done.
    + rewrite map_app, map_map. cbn [fst]. rewrite map_id. solve_Permutation.
  - change (ag_pump s') with p. by destruct Hf as [(_ & _ & _ & ->)|(? & _ & _ & _ & ->)].
  - change (ag_bodies s') with (ag_bodies s ++ [mkBody callers (batch_encoding us) f]). apply Forall_app. split; [exact Bo|]. apply Forall_singleton, Hbody.
  - change (ag_pump s') with p. change (ag_bodies s') with (ag_bodies s ++ [mkBody callers (batch_encoding us) f]). change (ag_in_flight s') with flight.
    destruct Hf as [(-> & _ & -> & ->)|(e & -> & _ & -> & ->)]; [by exists (ag_bodies s), (batch_encoding us)|].
    split; [done|]. apply Forall_app. split; [done|by apply Forall_singleton].
  - change (ag_sent s') with (ag_sent s ++ sent). apply Forall_app. split.
    + rewrite Forall_forall in Se |- *. intros o Ho. apply truthful_more; [by apply Se|by apply Hunsent].
    + destruct Hf as [(_ & -> & _)|(e & -> & -> & _)]; [constructor|]. apply Forall_forall. intros o (c & -> & Hin)%list_elem_of_fmap. cbn [fst snd].
      change (ag_bodies s') with (ag_bodies s ++ [mkBody callers (batch_encoding us) (Rejected e)]).
      assert (Hlast : mkBody callers (batch_encoding us) (Rejected e) ∈ ag_bodies s ++ [mkBody callers (batch_encoding us) (Rejected e)]) by (apply elem_of_app; right; constructor).
      assert (Hrej : forall b, b ∈ ag_bodies s ++ [mkBody callers (batch_encoding us) (Rejected e)] -> c ∈ bd_callers b -> exists e', bd_fate b = Rejected e').
      { intros b Hb' Hcb. apply elem_of_app in Hb' as [Hb'| ->%list_elem_of_singleton]; [by destruct (Hfresh c b Hin Hb')|by exists e]. }
      destruct e; cbn [submit_failure truthful]; try (split_and!; [done..|exact Hrej]); eexists; (split; [exact Hlast|]); split; done.
  - change (ag_pump s') with p. by destruct Hf as [(_ & _ & _ & ->)|(? & _ & _ & _ & ->)].
Qed.

Lemma with_driver_ok s d held : agg_ok s -> agg_ok (with_driver s d held).
Proof. intros [L En Bu Ca Or Pl Pa Bo Fl Se Dr Go]. by split. Qed.

Lemma ship_ok s builder callers guards d : agg_ok s -> ag_pump s = Packing builder callers guards ->
  exists s', ship s builder callers guards d = Some s' /\ agg_ok s'.
Proof.
  intros Hs Hp. pose proof (ao_pack s Hs) as Hpk. rewrite Hp in Hpk. destruct Hpk as (us & Hb & Hc & Hm & Hg & Hnil). unfold ship.
  destruct callers as [|c rest] eqn:Hcs.
  - eexists. split; [done|]. pose proof Hs as [L En Bu Ca Or Pl Pa Bo Fl Se Dr Go]. rewrite Hp in *. split; try assumption; try done.
    unfold reserved in *. rewrite Hp, (Hnil eq_refl) in Bu. exact Bu.
  - rewrite <- Hcs in *. assert (Hne : callers <> []) by (by rewrite Hcs). destruct (ship_body s builder callers guards us Hs Hp Hne Hb Hc Hm) as [-> _].
    destruct (handle_submit (ag_driver s) d (batch_encoding us)) as [drv|e].
    + eexists. split; [reflexivity|].
      pose proof (shipped_ok s builder callers guards us InDriver [] callers Flying Hs Hp Hne Hb Hc Hm ltac:(by left)) as Hok.
      apply (with_driver_ok _ drv (ag_held s ++ [zlen (batch_encoding us)])) in Hok.
      unfold send_all, with_flight, with_driver, with_budget in *. cbn in *. by rewrite app_nil_r in Hok.
    + eexists. split; [reflexivity|]. apply (shipped_ok s builder callers guards us (Rejected e) _ [] Parked Hs Hp Hne Hb Hc Hm). right. by exists e.
Qed.

Lemma pack_entry_ok s builder callers guards e deferred entries d :
  agg_ok s -> ag_pump s = Packing builder callers guards -> pop_entry s = Some (e, deferred, entries) ->
  exists s', pack_entry s builder callers guards e deferred entries d = Some s' /\ agg_ok s'.
Proof.
  intros Hs Hp Hpop. pose proof (pop_entry_spec _ _ _ _ Hpop) as Hw. unfold pack_entry. cbv zeta.
  destruct (fully_canceled (ag_canceled s) e) eqn:Hcan; [eexists; split; [done|by eapply cancel_entry_ok]|].
  pose proof (ao_pack s Hs) as Hpk. rewrite Hp in Hpk. destruct Hpk as (us & Hb & Hc & Hm & Hg & Hnil). destruct (ao_limits s Hs) as [L1 L2].
  rewrite (carries_length _ _ _ Hc). pose proof (fits_open_body_spec _ _ _ e Hb L1 L2) as Hfit.
  pose proof (ao_entries s Hs) as He. rewrite Hw in He. apply Forall_cons in He as [He _]. destruct (eo_admitted _ _ _ He) as [A1 A2].
  destruct (fits_open_body (ag_limits s) builder (zlen us) e); cbn [negb].
  - destruct (proj1 Hfit eq_refl) as [F1 F2].
    destruct (push_units_fit _ _ us (entry_bodies e) Hb) as (b' & -> & Hb'); [lia|]. cbn [mbind option_bind]. eexists. split; [done|].
    by apply (pack_ok s builder callers guards e deferred entries b' us).
  - destruct (builder_is_empty builder) eqn:Hemp.
    + exfalso. unfold builder_is_empty in Hemp. apply Z.eqb_eq in Hemp. destruct Hb as (_ & Hcnt & _). rewrite Hcnt in Hemp.
      destruct us as [|u us]; [|cbn in Hemp; lia]. assert (false = true) by (apply Hfit; cbn [app]; split; [cbn; lia|done]). done.
    + apply ship_ok; [|done]. pose proof Hs as [L En Bu Ca Or Pl Pa Bo Fl Se Dr Go].
      set (s' := with_pump _ _ _ _). assert (Hw' : waiting s' = waiting s) by (rewrite Hw; done). rewrite Hp in *. split; try assumption.
      * by rewrite Hw'.
      * unfold reserved in *. rewrite Hw'. by rewrite Hp in Bu.
      * unfold queued in *. by rewrite Hw'.
      * unfold queued in *. by rewrite Hw'.
      * done.
Qed.

(** ** The end of a flight, and of the pump *)

Lemma flight_split s : agg_ok s -> ag_pump s = Flying ->
  exists bs bytes, ag_bodies s = bs ++ [mkBody (ag_in_flight s) bytes InDriver] /\ Forall (fun b => bd_fate b <> InDriver) bs /\
    (forall b c, b ∈ bs -> c ∈ ag_in_flight s -> c ∉ bd_callers b) /\ ag_in_flight s <> [].
Proof.
  intros Hs Hp. pose proof (ao_flight s Hs) as Hf. rewrite Hp in Hf. destruct Hf as (bs & bytes & Hb & Hfate). exists bs, bytes. split; [done|]. split; [done|]. split.
  - intros b c Hb' Hc Hcb. pose proof (ao_order s Hs) as Ho. unfold handed in Ho. rewrite Hb, map_app, concat_app in Ho. cbn in Ho. rewrite app_nil_r in Ho.
    apply sorted_app in Ho as (Ho & _ & _). apply sorted_app in Ho as (_ & _ & Hlt).
    assert (Hin : c ∈ concat (map bd_callers bs)).
    { apply list_elem_of_In, in_concat. exists (bd_callers b). split; [apply in_map_iff; exists b; split; [done|]|]; by apply list_elem_of_In. }
    specialize (Hlt c c Hin Hc). lia.
  - pose proof (ao_bodies s Hs) as Hbo. rewrite Hb in Hbo. apply Forall_app in Hbo as [_ Hbo]. apply Forall_singleton in Hbo as (us & Hne & Hca & _).
    apply carries_length in Hca. cbn in Hca. destruct us; [done|]. by destruct (ag_in_flight s).
Qed.

(** The body in flight is decided: its callers are told, or all gave up. *)
Lemma landed_ok s f sent dropped : agg_ok s -> ag_pump s = Flying -> f <> InDriver ->
  (map fst sent = ag_in_flight s /\ dropped = [] \/ sent = [] /\ dropped = ag_in_flight s /\ Forall (fun c => c ∈ ag_canceled s) dropped) ->
  (forall bs bytes o, o ∈ sent -> (forall b, b ∈ bs -> o.1 ∉ bd_callers b) -> truthful (bs ++ [mkBody (ag_in_flight s) bytes f]) o.1 o.2) ->
  agg_ok (drop_unresolved (send_all (with_flight s Parked [] (fate_of_last f (ag_bodies s))) sent) dropped).
Proof.
  intros Hs Hp Hf Hset Htrue. destruct (flight_split s Hs Hp) as (bs & bytes & Hb & Hfate & Hfresh & _).
  pose proof (places_nodup s Hs) as Hn. rewrite Hp in Hn. cbn [packing app] in Hn. apply NoDup_app in Hn as (_ & _ & Hn). apply NoDup_app in Hn as (_ & Hn & _).
  set (s' := drop_unresolved _ _). assert (Hb' : ag_bodies s' = bs ++ [mkBody (ag_in_flight s) bytes f]) by (cbn; by rewrite Hb, fate_of_last_snoc).
  assert (Hh : handed s' = handed s) by (unfold handed; rewrite Hb', Hb, !map_app; done).
  pose proof Hs as [L En Bu Ca Or Pl Pa Bo Fl Se Dr Go]. rewrite Hp in *. split; try assumption; try done.
  - unfold reserved in *. rewrite Hp in Bu. exact Bu.
  - rewrite Hh. exact Or.
  - change (queued s') with (queued s). change (ag_accepted s') with (ag_accepted s). rewrite <- Pl. unfold settled.
    change (ag_sent s') with (ag_sent s ++ sent). change (ag_dropped s') with (ag_dropped s ++ dropped). change (ag_in_flight s') with (@nil Z).
    cbn [packing app]. rewrite map_app. destruct Hset as [(H1 & H2)|(H1 & H2 & _)]; rewrite H1, H2; cbn [map]; rewrite ?app_nil_r; solve_Permutation.
  - change (ag_limits s') with (ag_limits s). change (ag_accepted s') with (ag_accepted s). rewrite Hb'. rewrite Hb in Bo.
    apply Forall_app in Bo as [B1 B2]. apply Forall_app. split; [done|]. apply Forall_cons in B2 as [B2 _]. apply Forall_singleton. exact B2.
  - rewrite Hb'. split; [done|]. apply Forall_app. split; [done|by apply Forall_singleton].
  - change (ag_sent s') with (ag_sent s ++ sent). rewrite Hb'. apply Forall_app. split.
    + rewrite Forall_forall in Se |- *. intros o Ho. rewrite Hb in Se. apply (truthful_decided bs (ag_in_flight s) bytes); [by apply Se|].
      intros Hin. apply (Hn o.1 Hin). apply elem_of_app. left. by apply list_elem_of_fmap_2.
    + apply Forall_forall. intros o Ho. apply Htrue; [done|]. intros b Hbb. apply (Hfresh b o.1 Hbb).
      destruct Hset as [(H1 & _)|(H1 & _)]; [rewrite <- H1; by apply list_elem_of_fmap_2|rewrite H1 in Ho; by apply elem_of_nil in Ho].
  - change (ag_dropped s') with (ag_dropped s ++ dropped). apply Forall_app. split; [done|]. destruct Hset as [(_ & H2)|(_ & _ & ?)]; [rewrite H2; constructor|done].
Qed.

Lemma close_ok s why : agg_ok s -> ag_pump s = Parked -> why = RefusedPumpGone \/ why = RefusedStalled ->
  agg_ok (close_and_drain s why) /\ ag_pump (close_and_drain s why) = Gone /\ ag_sent (close_and_drain s why) = ag_sent s ++ map (fun c => (c, Err (Refused why))) (queued s).
Proof.
  intros Hs Hp Hwhy. unfold close_and_drain. rewrite refuse_entries_all. cbv zeta. set (s' := resolve_all _ _ _). split; [|done].
  assert (Hun : forall c b, c ∈ queued s -> b ∈ ag_bodies s -> c ∉ bd_callers b).
  { intros c b Hc Hb Hcb. pose proof (ao_order s Hs) as Ho. apply sorted_app in Ho as (_ & _ & Hlt).
    assert (Hin : c ∈ handed s).
    { unfold handed. apply list_elem_of_In, in_concat. exists (bd_callers b). split; [apply in_map_iff; exists b; split; [done|]|]; by apply list_elem_of_In. }
    specialize (Hlt c c Hin ltac:(apply elem_of_app; by right)). lia. }
  pose proof Hs as [L En Bu Ca Or Pl Pa Bo Fl Se Dr Go]. rewrite Hp in *. unfold reserved in Bu. rewrite Hp in Bu. cbn [guards_of app] in Bu.
  split; try assumption; try done.
  - change (ag_budget s') with (fold_left drop_guard (map en_reservation (waiting s)) (ag_budget s)). rewrite drop_guards. unfold reserved. cbn. unfold total in *. cbn. lia.
  - change (ag_budget s') with (fold_left drop_guard (map en_reservation (waiting s)) (ag_budget s)). rewrite drop_guards. cbn. unfold total in *. lia.
  - cbn [packing ag_pump s' app] in *. change (queued s') with (@nil Z). rewrite app_nil_r. by apply sorted_app in Or as (Or & _).
  - change (queued s') with (@nil Z). change (ag_accepted s') with (ag_accepted s). rewrite <- Pl. unfold settled.
    change (ag_sent s') with (ag_sent s ++ map (fun c => (c, Err (Refused why))) (queued s)). change (ag_dropped s') with (ag_dropped s). change (ag_in_flight s') with (ag_in_flight s).
    cbn [packing app ag_pump s']. rewrite map_app, map_map. cbn [fst]. rewrite map_id. solve_Permutation.
  - change (ag_sent s') with (ag_sent s ++ map (fun c => (c, Err (Refused why))) (queued s)). apply Forall_app. split; [done|].
    apply Forall_forall. intros o (c & -> & Hc)%list_elem_of_fmap. cbn [fst snd truthful].
    split_and!; try (by destruct Hwhy as [-> | ->]). intros b Hb Hcb. by destruct (Hun c b Hc Hb).
Qed.

Lemma drop_gone s : agg_ok s -> ag_pump s = Gone -> drop_pump s = s.
Proof.
  intros Hs Hp. destruct (ao_gone s Hs Hp) as [Hc Hw]. pose proof (ao_flight s Hs) as Hf. rewrite Hp in Hf. destruct Hf as [Hf _].
  unfold waiting in Hw. apply app_eq_nil in Hw as [Hd He]. unfold drop_pump. rewrite Hf. unfold close_and_drain, resolve_all, send_all. cbn.
  rewrite Hd, He. cbn. rewrite app_nil_r. destruct s. cbn in *. by subst.
Qed.

Lemma drop_parked s : agg_ok s -> ag_pump s = Parked -> drop_pump s = close_and_drain s RefusedPumpGone.
Proof.
  intros Hs Hp. pose proof (ao_flight s Hs) as Hf. rewrite Hp in Hf. destruct Hf as [Hf _]. clear Hs. destruct s. cbn in Hf, Hp. subst.
  unfold drop_pump. cbn [ag_in_flight]. unfold resolve_all, send_all, with_flight. cbn -[close_and_drain]. rewrite app_nil_r.
  unfold close_and_drain. done.
Qed.

Lemma left_true s why : forall bs bytes o, o ∈ map (fun c => (c, Err (OutcomeUnknown why))) (ag_in_flight s) ->
  (forall b, b ∈ bs -> o.1 ∉ bd_callers b) -> truthful (bs ++ [mkBody (ag_in_flight s) bytes Left]) o.1 o.2.
Proof.
  intros bs bytes o (c & -> & Hc)%list_elem_of_fmap _. cbn. exists (mkBody (ag_in_flight s) bytes Left). split; [apply elem_of_app; right; constructor|]. done.
Qed.

(** Whatever ended it, a pump that is gone is closed and owes nothing. *)
Lemma end_flight_ok s sent dropped why : agg_ok s -> ag_pump s = Flying -> why = RefusedPumpGone \/ why = RefusedStalled ->
  (exists u, sent = map (fun c => (c, Err (OutcomeUnknown u))) (ag_in_flight s) /\ dropped = []) \/
  (sent = [] /\ dropped = ag_in_flight s /\ Forall (fun c => c ∈ ag_canceled s) dropped) ->
  let s1 := drop_unresolved (send_all (with_flight s Gone [] (fate_of_last Left (ag_bodies s))) sent) dropped in
  agg_ok (close_and_drain s1 why) /\ ag_pump (close_and_drain s1 why) = Gone.
Proof.
  intros Hs Hp Hwhy Hset. cbv zeta. pose proof (landed_ok s Left sent dropped Hs Hp ltac:(done)) as Hl.
  destruct (close_ok _ why (Hl ltac:(destruct Hset as [(u & -> & ->)|?]; [left; split; [by rewrite map_map, map_id|done]|by right])
    ltac:(destruct Hset as [(u & -> & _)|(-> & _)]; [apply left_true|intros ? ? o Ho; by apply elem_of_nil in Ho])) eq_refl Hwhy) as (H1 & H2 & _).
  split; [exact H1|exact H2].
Qed.

Lemma demux_true s reply : forall bs bytes o, o ∈ demux (ag_in_flight s) reply -> (forall b, b ∈ bs -> o.1 ∉ bd_callers b) ->
  truthful (bs ++ [mkBody (ag_in_flight s) bytes (Answered reply)]) o.1 o.2.
Proof.
  intros bs bytes o Ho _. pose proof (demux_fst _ _ _ Ho) as Hc. destruct o as [c r]. cbn [fst snd] in *.
  set (b := mkBody (ag_in_flight s) bytes (Answered reply)). assert (Hb : b ∈ bs ++ [b]) by (apply elem_of_app; right; constructor).
  assert (Hcom : exists b' reply', b' ∈ bs ++ [b] /\ c ∈ bd_callers b' /\ bd_fate b' = Answered reply' /\ (c, r) ∈ demux (bd_callers b') reply') by (by exists b, reply).
  assert (Hshape : match r with Err (Refused _) | Err (OutcomeUnknown _) => False | _ => True end).
  { clear - Ho. unfold demux in Ho. destruct (parse reply) as [v|]; [destruct (negb _)|]; try (by apply list_elem_of_fmap in Ho as (? & [= _ ->] & _)).
    apply elem_of_zip_r in Ho. by apply list_elem_of_fmap in Ho as (? & -> & _). }
  destruct r as [rep|[]]; done.
Qed.

Lemma drop_pump_ok s : agg_ok s -> ag_pump s = Parked \/ ag_pump s = Flying \/ ag_pump s = Gone -> agg_ok (drop_pump s).
Proof.
  intros Hs [Hp|[Hp|Hp]].
  - rewrite drop_parked by done. apply (close_ok s RefusedPumpGone Hs Hp). by left.
  - destruct (flight_split s Hs Hp) as (_ & _ & _ & _ & _ & Hne).
    destruct (end_flight_ok s _ [] RefusedPumpGone Hs Hp ltac:(by left) ltac:(left; exists UnknownPumpGone; by split)) as [Hok _].
    unfold drop_pump, resolve_all. destruct (ag_in_flight s) as [|c cs] eqn:Hf; [done|].
    unfold drop_unresolved, send_all, with_flight in *. cbn in *. by rewrite app_nil_r in Hok.
  - by rewrite drop_gone.
Qed.

Lemma race_ok s answer timer : agg_ok s -> agg_ok (race s answer timer).
Proof.
  intros Hs. unfold race. destruct (ag_pump s) eqn:Hp; try done.
  assert (Hnodrop : forall f sent, agg_ok (drop_unresolved (send_all (with_flight s Parked [] (fate_of_last f (ag_bodies s))) sent) []) ->
    agg_ok (send_all (with_flight s Parked [] (fate_of_last f (ag_bodies s))) sent)).
  { intros f sent H. unfold drop_unresolved, send_all, with_flight in *. cbn in *. by rewrite app_nil_r in H. }
  destruct answer as [[reply|retired]|].
  - apply Hnodrop, landed_ok; [done|done|done|left; split; [apply demux_callers|done]|apply demux_true].
  - unfold resolve_all. apply Hnodrop, landed_ok; [done|done|done|left; split; [rewrite map_map; apply map_id|done]|].
    intros bs bytes o (c & -> & Hc)%list_elem_of_fmap _. cbn [fst snd].
    destruct retired as [[local epoch]|]; cbn; (eexists; split; [apply elem_of_app; right; constructor|]; split; [exact Hc|done]).
  - destruct (ag_stall s && timer).
    + destruct (end_flight_ok s (map (fun c => (c, Err (OutcomeUnknown UnknownStalled))) (ag_in_flight s)) [] RefusedStalled Hs Hp ltac:(by right) ltac:(left; by eexists)) as [Hok Hg].
      assert (He : close_and_drain (resolve_all (with_flight s Gone [] (fate_of_last Left (ag_bodies s))) (ag_in_flight s) (OutcomeUnknown UnknownStalled)) RefusedStalled =
        close_and_drain (drop_unresolved (send_all (with_flight s Gone [] (fate_of_last Left (ag_bodies s))) (map (fun c => (c, Err (OutcomeUnknown UnknownStalled))) (ag_in_flight s))) []) RefusedStalled).
      { f_equal. unfold resolve_all, drop_unresolved, send_all, with_flight. cbn. by rewrite app_nil_r. }
      rewrite He. by rewrite drop_gone.
    + destruct (negb _ && _) eqn:Hall; [|done]. apply andb_true_iff in Hall as [_ Hall]. rewrite List.forallb_forall in Hall.
      assert (Hcan : Forall (fun c => c ∈ ag_canceled s) (ag_in_flight s)).
      { apply Forall_forall. intros c Hc. apply list_elem_of_In in Hc. by specialize (Hall c Hc); apply bool_decide_eq_true in Hall. }
      destruct (end_flight_ok s [] (ag_in_flight s) RefusedPumpGone Hs Hp ltac:(by left) ltac:(by right)) as [Hok Hg].
      assert (He : close_and_drain (drop_unresolved (with_flight s Gone [] (fate_of_last Left (ag_bodies s))) (ag_in_flight s)) RefusedPumpGone =
        close_and_drain (drop_unresolved (send_all (with_flight s Gone [] (fate_of_last Left (ag_bodies s))) []) (ag_in_flight s)) RefusedPumpGone).
      { f_equal. unfold drop_unresolved, send_all, with_flight. cbn. by rewrite app_nil_r. }
      rewrite He. by rewrite drop_gone.
Qed.

Lemma pump_step_ok s d : agg_ok s -> exists s', pump_step s d = Some s' /\ agg_ok s'.
Proof.
  intros Hs. unfold pump_step. destruct (ag_pump s) as [|b cs gs| |] eqn:Hp; [|destruct (pop_entry s) as [[[e de] es]|] eqn:Hpop|eauto|eauto].
  - destruct (ag_deferred s) as [|x de] eqn:Hd.
    + destruct (ag_entries s) as [|x es] eqn:He.
      * destruct (_ || _); [|eauto]. eexists. split; [done|]. apply drop_pump_ok; [done|by left].
      * eexists. split; [done|]. apply open_ok; [done|done|]. unfold waiting. by rewrite Hd, He.
    + eexists. split; [done|]. apply open_ok; [done|done|]. unfold waiting. by rewrite Hd.
  - by eapply pack_entry_ok.
  - by apply ship_ok.
Qed.

(** Only the caller-side fields. *)
Lemma with_callers_ok s handles canceled : agg_ok s -> ag_canceled s ⊆ canceled -> agg_ok (with_callers s handles canceled).
Proof.
  intros [L En Bu Ca Or Pl Pa Bo Fl Se Dr Go] Hsub. split; try assumption. eapply Forall_impl; [exact Dr|]. intros c Hc. by apply Hsub.
Qed.

(** Every interleaving: no step panics and the books balance. *)
Lemma step_ok s e : agg_ok s -> exists s', step s e = Some s' /\ agg_ok s'.
Proof.
  intros Hs. destruct e as [u|us|c| | |d|answer timer| |]; cbn [step].
  - destruct (0 <? ag_handles s); [|eauto]. eexists. split; [done|]. by apply submit_units_ok.
  - destruct (0 <? ag_handles s); [|eauto]. eexists. split; [done|]. destruct us; [done|]. by apply submit_units_ok.
  - eexists. split; [done|]. apply with_callers_ok; [done|set_solver].
  - destruct (0 <? ag_handles s); [|eauto]. eexists. split; [done|]. by apply with_callers_ok.
  - destruct (0 <? ag_handles s); [|eauto]. eexists. split; [done|]. by apply with_callers_ok.
  - by apply pump_step_ok.
  - eexists. split; [done|]. by apply race_ok.
  - destruct (ag_held s) as [|len rest]; [eauto|]. destruct (ag_pump s) eqn:Hp, rest; eexists; (split; [done|]); try done; by apply with_driver_ok.
  - destruct (ag_pump s) eqn:Hp; eexists; (split; [done|]); try done; apply drop_pump_ok; auto.
Qed.

Lemma play_ok s es : agg_ok s -> exists s', play s es = Some s' /\ agg_ok s'.
Proof.
  revert s. induction es as [|e es IH]; intros s Hs; cbn; [eauto|]. destruct (step_ok s e Hs) as (s1 & -> & Hs1). cbn. by apply IH.
Qed.

Lemma max_units_range len : 0 <= len -> 0 <= max_units_per_body len <= umax 64.
Proof.
  intros Hlen. unfold max_units_per_body. set (p := sat_add 64 len BATCH_UNIT_OVERHEAD).
  assert (1 <= p) by (unfold p, sat_add, BATCH_UNIT_OVERHEAD, umax; lia).
  assert (Hm : 0 <= Z.max 0 (max_reply_body_len - BATCH_COUNT_OVERHEAD) <= umax 64) by (split; [lia|vm_compute; done]).
  split; [apply Z.div_pos; lia|]. etransitivity; [apply Z.div_le_upper_bound with (q := Z.max 0 (max_reply_body_len - BATCH_COUNT_OVERHEAD)); [lia|nia]|apply Hm].
Qed.

Lemma split_ok driver cfg stall : 0 <= max_unit_reply_len cfg -> agg_ok (split_aggregator driver cfg stall).
Proof.
  intros Hlen. split; try done; try constructor; cbn; try done; try lia; try constructor.
  - apply submit_limit_frame.
  - by apply max_units_range.
  - by apply max_units_range.
Qed.

Definition packs (p : Pump) : bool := match p with Packing _ _ _ => true | _ => false end.

(** ** What one body takes *)

(** The pump, left alone. *)
Fixpoint steps (s : Agg) (ds : list DriverView) : option Agg :=
  match ds with [] => Some s | d :: ds => s ← pump_step s d; steps s ds end.

Definition fits (l : BodyLimits) (us : list (list byte)) (e : QueueEntry) : bool :=
  (zlen us + zlen (en_units e) <=? max_units l) && (zlen (batch_encoding (us ++ entry_bodies e)) <=? submit_limit l).

(** The callers a body opened over units [us] still takes, and the entries it leaves: the
    entries with a live caller, up to the first that does not fit. *)
Fixpoint takes (l : BodyLimits) (canceled : gset Z) (us : list (list byte)) (es : list QueueEntry) : list Z * list QueueEntry :=
  match es with
  | [] => ([], [])
  | e :: rest =>
      if fully_canceled canceled e then takes l canceled us rest
      else if fits l us e then
        let '(cs, kept) := takes l canceled (us ++ entry_bodies e) rest in (entry_replies e ++ cs, kept)
      else ([], es)
  end.

(** A body of these callers was handed over, or there was nobody to hand one over for. *)
Definition handed_over (s s' : Agg) (callers : list Z) : Prop :=
  match callers with
  | [] => ag_pump s' = Parked /\ ag_bodies s' = ag_bodies s
  | _ => (ag_pump s' = Parked \/ ag_pump s' = Flying) /\ exists b, ag_bodies s' = ag_bodies s ++ [b] /\ bd_callers b = callers
  end.

Lemma ship_hands s b cs gs d s' : ship s b cs gs d = Some s' -> handed_over s s' cs /\ waiting s' = waiting s.
Proof.
  unfold ship. destruct cs as [|c cs]; [by intros [= <-]|]. destruct (batch_finish b); [|done].
  destruct (handle_submit _ _ _); intros [= <-]; (split; [|done]); (split; [auto|by eexists]).
Qed.

Lemma fits_spec l us b e : builds (submit_limit l) b us -> submit_limit l <= BUDGET_CAP -> 0 <= max_units l <= umax 64 ->
  fits_open_body l b (zlen us) e = fits l us e.
Proof.
  intros Hb Hl Hm. apply eq_true_iff_eq. rewrite (fits_open_body_spec _ _ _ e Hb Hl Hm). unfold fits.
  by rewrite andb_true_iff, !Z.leb_le, length_batch_encoding.
Qed.

(** One turn of the packing loop against the reference. *)
Lemma pack_entry_takes s b cs gs us e rest deferred entries d :
  agg_ok s -> ag_pump s = Packing b cs gs -> builds (submit_limit (ag_limits s)) b us -> length cs = length us ->
  pop_entry s = Some (e, deferred, entries) -> waiting s = e :: rest ->
  exists s', pack_entry s b cs gs e deferred entries d = Some s' /\ agg_ok s' /\
    if fully_canceled (ag_canceled s) e then
      ag_pump s' = ag_pump s /\ waiting s' = rest /\ (ag_limits s', ag_canceled s', ag_bodies s') = (ag_limits s, ag_canceled s, ag_bodies s)
    else if fits (ag_limits s) us e then
      exists b', builds (submit_limit (ag_limits s)) b' (us ++ entry_bodies e) /\
        ag_pump s' = Packing b' (cs ++ entry_replies e) (gs ++ [en_reservation e]) /\
        waiting s' = rest /\ (ag_limits s', ag_canceled s', ag_bodies s') = (ag_limits s, ag_canceled s, ag_bodies s)
    else handed_over s s' cs /\ waiting s' = waiting s.
Proof.
  intros Hs Hp Hb Hlen Hpop Hw. destruct (pack_entry_ok s b cs gs e deferred entries d Hs Hp Hpop) as (s' & Heq & Hs'). exists s'. split; [done|]. split; [done|].
  pose proof (pop_entry_spec _ _ _ _ Hpop) as Hw'. assert (Hr : rest = deferred ++ entries) by congruence. subst rest.
  destruct (ao_limits s Hs) as [L1 L2]. revert Heq. unfold pack_entry. cbv zeta. rewrite Hlen, (fits_spec _ us b e Hb L1 L2).
  destruct (fully_canceled (ag_canceled s) e); [by intros [= <-]; rewrite Hp|].
  pose proof (ao_entries s Hs) as He. rewrite Hw in He. apply Forall_cons in He as [He _]. destruct (eo_admitted _ _ _ He) as [A1 A2].
  destruct (fits (ag_limits s) us e) eqn:Hf; cbn [negb].
  - unfold fits in Hf. apply andb_true_iff in Hf as [_ Hf]. apply Z.leb_le in Hf. rewrite length_batch_encoding in Hf.
    destruct (push_units_fit _ _ us (entry_bodies e) Hb) as (b' & -> & Hb'); [lia|]. cbn [mbind option_bind]. intros [= <-]. by exists b'.
  - destruct (builder_is_empty b) eqn:Hemp.
    + exfalso. unfold builder_is_empty in Hemp. apply Z.eqb_eq in Hemp. destruct Hb as (_ & Hcnt & _). rewrite Hcnt in Hemp.
      destruct us as [|u us]; [|cbn in Hemp; lia]. unfold fits in Hf. cbn [app length] in Hf. rewrite length_batch_encoding in Hf.
      rewrite !(proj2 (Z.leb_le _ _)) in Hf by lia. done.
    + intros Hsh%ship_hands. rewrite Hw. exact Hsh.
Qed.

(** The packing loop ends, with the reference's body. *)
Lemma packing_runs n : forall s b cs gs us ds, length (waiting s) = n -> (n < length ds)%nat ->
  agg_ok s -> ag_pump s = Packing b cs gs -> builds (submit_limit (ag_limits s)) b us -> length cs = length us ->
  exists k s', (k <= S n)%nat /\ steps s (take k ds) = Some s' /\
    handed_over s s' (cs ++ (takes (ag_limits s) (ag_canceled s) us (waiting s)).1) /\
    waiting s' = (takes (ag_limits s) (ag_canceled s) us (waiting s)).2.
Proof.
  induction n as [|n IH]; intros s b cs gs us ds Hn Hds Hs Hp Hb Hlen; destruct ds as [|d ds]; try (cbn in Hds; lia).
  - apply length_zero_iff_nil in Hn. assert (Hpop : pop_entry s = None).
    { unfold pop_entry, waiting in *. apply app_eq_nil in Hn as [-> ->]. done. }
    destruct (ship_ok s b cs gs d Hs Hp) as (s' & Hsh & _). exists 1%nat, s'. split; [lia|]. rewrite Hn. cbn [takes fst snd take]. rewrite app_nil_r.
    split; [cbn [steps]; unfold pump_step; by rewrite Hp, Hpop, Hsh|]. destruct (ship_hands _ _ _ _ _ _ Hsh) as [Hh Hwt].
    split; [exact Hh|congruence].
  - destruct (waiting s) as [|e rest] eqn:Hw; [done|]. destruct (pop_entry s) as [[[e' de] es]|] eqn:Hpop.
    2:{ exfalso. unfold pop_entry, waiting in *. destruct (ag_deferred s); [|done]. cbn in Hw. by rewrite Hw in Hpop. }
    pose proof (pop_entry_spec _ _ _ _ Hpop) as Hw'. rewrite Hw in Hw'. injection Hw' as <- Hrest.
    destruct (pack_entry_takes s b cs gs us e rest de es d Hs Hp Hb Hlen Hpop Hw) as (s1 & Hpe & Hs1 & Hcase).
    assert (Hstep : forall k, steps s (take (S k) (d :: ds)) = steps s1 (take k ds)).
    { intros k. cbn [take steps]. unfold pump_step. by rewrite Hp, Hpop, Hpe. }
    cbn [takes]. cbn in Hn, Hds. destruct (fully_canceled (ag_canceled s) e); [|destruct (fits (ag_limits s) us e)].
    + destruct Hcase as (Hp1 & Hw1 & [= El Ec Eb]). rewrite Hp in Hp1.
      destruct (IH s1 b cs gs us ds) as (k & s' & Hk & Hst & Hh & Hl); try done; try lia; [rewrite Hw1; lia|by rewrite El|].
      exists (S k), s'. rewrite Hstep. split; [lia|]. split; [done|]. rewrite Hw1, El, Ec in Hh, Hl. split; [|done]. unfold handed_over in *. by rewrite Eb in Hh.
    + destruct Hcase as (b' & Hb' & Hp1 & Hw1 & [= El Ec Eb]).
      destruct (IH s1 b' (cs ++ entry_replies e) (gs ++ [en_reservation e]) (us ++ entry_bodies e) ds) as (k & s' & Hk & Hst & Hh & Hl);
        try done; try lia; [rewrite Hw1; lia|by rewrite El|rewrite !length_app; unfold entry_replies, entry_bodies; rewrite !length_map; lia|].
      exists (S k), s'. rewrite Hstep. split; [lia|]. split; [done|]. rewrite Hw1, El, Ec in Hh, Hl.
      destruct (takes _ _ (us ++ entry_bodies e) rest) as [cs' kept]. cbn [fst snd] in *. rewrite app_assoc. split; [|done]. unfold handed_over in *. by rewrite Eb in Hh.
    + destruct Hcase as [Hh Hl]. exists 1%nat, s1. rewrite Hstep. cbn [fst snd]. rewrite app_nil_r, take_0. split; [lia|]. split; [done|]. by rewrite Hl, Hw.
Qed.

(** The limits never change. *)
Lemma close_limits s why : ag_limits (close_and_drain s why) = ag_limits s.
Proof. unfold close_and_drain. by rewrite refuse_entries_all. Qed.

Lemma drop_limits s : ag_limits (drop_pump s) = ag_limits s.
Proof. unfold drop_pump. by rewrite close_limits. Qed.

Lemma race_limits s answer timer : ag_limits (race s answer timer) = ag_limits s.
Proof.
  unfold race. destruct (ag_pump s); try done. destruct answer as [[reply|r]|]; [done..|].
  destruct (_ && timer); [by rewrite drop_limits, close_limits|]. destruct (negb _ && _); [by rewrite drop_limits, close_limits|done].
Qed.

Lemma ship_limits s b cs gs d s' : ship s b cs gs d = Some s' -> ag_limits s' = ag_limits s.
Proof.
  unfold ship. destruct cs; [by intros [= <-]|]. destruct (batch_finish b); [|done]. by destruct (handle_submit _ _ _); intros [= <-].
Qed.

Lemma pump_step_limits s d s' : pump_step s d = Some s' -> ag_limits s' = ag_limits s.
Proof.
  unfold pump_step. destruct (ag_pump s) as [|b cs gs| |]; [| |by intros [= <-]..].
  - destruct (ag_deferred s); [destruct (ag_entries s); [destruct (_ || _)|]|]; intros [= <-]; [apply drop_limits|done..].
  - destruct (pop_entry s) as [[[e de] es]|]; [|apply ship_limits]. unfold pack_entry. cbv zeta. destruct (fully_canceled _ _); [by intros [= <-]|].
    destruct (negb _); [destruct (builder_is_empty b); [by intros [= <-]|by intros ->%ship_limits]|]. destruct (foldl push_unit _ _); [|done]. by intros [= <-].
Qed.

Lemma step_limits s e s' : step s e = Some s' -> ag_limits s' = ag_limits s.
Proof.
  assert (Hsub : forall us why, ag_limits (submit_units s us why).1 = ag_limits s).
  { intros us why. unfold submit_units. destruct (negb _); [done|]. destruct (try_acquire_many _ _ _); [|done]. cbv zeta. by destruct (ag_closed s). }
  destruct e as [u|us|c| | |d|answer timer| |]; cbn [step]; try (by intros [= <-]); try (by destruct (0 <? ag_handles s); intros [= <-]).
  - destruct (0 <? ag_handles s); intros [= <-]; [apply Hsub|done].
  - destruct (0 <? ag_handles s); intros [= <-]; [|done]. unfold submit_group. by destruct us.
  - apply pump_step_limits.
  - intros [= <-]. apply race_limits.
  - destruct (ag_held s), (ag_pump s); try (by intros [= <-]); destruct l; by intros [= <-].
  - destruct (ag_pump s); intros [= <-]; rewrite ?drop_limits; done.
Qed.

Lemma play_limits s es s' : play s es = Some s' -> ag_limits s' = ag_limits s.
Proof.
  revert s. induction es as [|e es IH]; intros s; cbn; [by intros [= <-]|]. destruct (step s e) as [s1|] eqn:H; [|done]. cbn.
  intros Hp. by rewrite (IH _ Hp), (step_limits _ _ _ H).
Qed.

Lemma played_ok driver cfg stall es s : 0 <= max_unit_reply_len cfg -> play (split_aggregator driver cfg stall) es = Some s ->
  agg_ok s /\ ag_limits s = mkBodyLimits (submit_byte_limit (ib_max_bytes driver)) (max_units_per_body (max_unit_reply_len cfg)).
Proof.
  intros Hlen Hp. destruct (play_ok _ es (split_ok driver cfg stall Hlen)) as (s' & Hp' & Hs). rewrite Hp in Hp'. injection Hp' as <-.
  split; [done|]. by rewrite (play_limits _ _ _ Hp).
Qed.

Lemma demux_ok callers reply c r : (c, Ok r) ∈ demux callers reply ->
  exists i v, parse reply = Ok v /\ callers !! i = Some c /\ view_collect v !! i = Some r.
Proof.
  unfold demux. destruct (parse reply) as [v|e]; [|by intros (? & ? & _)%list_elem_of_fmap].
  destruct (negb _); [by intros (? & ? & _)%list_elem_of_fmap|]. intros (i & Hi)%list_elem_of_lookup_1. exists i, v. split; [done|].
  apply lookup_zip_with_Some in Hi as (c' & o & [= <- <-] & Hc & Ho). split; [done|].
  apply list_lookup_fmap_Some in Ho as (r' & [= <-] & Hr). done.
Qed.

(** ** What the aggregator promises *)

(** C25. Every accepted unit, once: no interleaving of submissions, cancellations, handle
    drops, pump steps, driver answers, stalls and a dropped pump panics; each accepted
    unit is at any moment in exactly one place (queued, in the open body, in flight, told
    its outcome, or given up unresolved, which happens to cancelled callers alone), so no
    caller is told twice; every outcome told is what became of the one body that carries
    the unit (a refusal means the driver never took it, a reply or a lost reply that it
    committed); and once the pump is gone nobody is left waiting. *)
Theorem units_settled_once driver cfg stall es : 0 <= max_unit_reply_len cfg ->
  exists s, play (split_aggregator driver cfg stall) es = Some s /\
    queued s ++ packing (ag_pump s) ++ ag_in_flight s ++ settled s ≡ₚ seqZ 0 (zlen (ag_accepted s)) /\
    NoDup (settled s) /\ Forall (fun o => truthful (ag_bodies s) o.1 o.2) (ag_sent s) /\ Forall (fun c => c ∈ ag_canceled s) (ag_dropped s) /\
    (ag_pump s = Gone -> settled s ≡ₚ seqZ 0 (zlen (ag_accepted s))).
Proof.
  intros Hlen. destruct (play_ok _ es (split_ok driver cfg stall Hlen)) as (s & -> & Hs). exists s. split; [done|].
  pose proof Hs as [L En Bu Ca Or Pl Pa Bo Fl Se Dr Go]. split; [done|]. split; [|split; [done|split; [done|]]].
  - pose proof (places_nodup s Hs) as Hn. rewrite !NoDup_app in Hn. tauto.
  - intros Hp. rewrite Hp in *. destruct (Go eq_refl) as [_ Hw]. destruct Fl as [Hf _]. unfold queued in Pl. by rewrite Hw, Hf in Pl.
Qed.

(** C26. In order, once each, within the limits: along every interleaving the bodies handed to
    the driver carry the accepted units one after another in submission order, none
    twice; each is the batch encoding of the units of its callers, fits the driver's
    submit limit and the unit cap the reply ceiling allows, and parses back to those
    units; and a unit answered [Ok] is told the reply standing at the index its own unit
    has in its body. *)
Theorem bodies_carry_units_in_order driver cfg stall es s : 0 <= max_unit_reply_len cfg -> play (split_aggregator driver cfg stall) es = Some s ->
  StronglySorted Z.lt (handed s) /\
  Forall (fun b => exists us, us <> [] /\ carries (ag_accepted s) (bd_callers b) us /\ bd_bytes b = batch_encoding us /\
    zlen (bd_bytes b) <= submit_byte_limit (ib_max_bytes driver) /\ zlen us <= max_units_per_body (max_unit_reply_len cfg) /\
    exists v, parse (bd_bytes b) = Ok v /\ view_collect v = us) (ag_bodies s) /\
  (forall c r, (c, Ok r) ∈ ag_sent s -> exists b i us reply v, b ∈ ag_bodies s /\ bd_bytes b = batch_encoding us /\ bd_fate b = Answered reply /\
    parse reply = Ok v /\ bd_callers b !! i = Some c /\ us !! i = ag_accepted s !! Z.to_nat c /\ view_collect v !! i = Some r).
Proof.
  intros Hlen Hp. destruct (played_ok driver cfg stall es s Hlen Hp) as [Hs Hl]. pose proof (ao_bodies s Hs) as Hb. rewrite Hl in Hb. split; [|split].
  - pose proof (ao_order s Hs) as Ho. by apply sorted_app in Ho as [Ho _].
  - eapply Forall_impl; [exact Hb|]. intros b (us & Hne & Hc & Henc & Hby & Hlim & Hmax). exists us. do 5 (split; [done|]).
    exists (view_of us). rewrite Hby, parse_encoding by done. split; [done|]. by apply view_collect_of.
  - intros c r Ho. pose proof (ao_sent s Hs) as Hse. rewrite Forall_forall in Hse. destruct (Hse _ Ho) as (b & reply & Hin & _ & Hf & Hd).
    destruct (demux_ok _ _ _ _ Hd) as (i & v & Hv & Hi & Hr). rewrite Forall_forall in Hb. destruct (Hb b Hin) as (us & _ & Hca & _ & Hby & _).
    exists b, i, us, reply, v. split_and!; try done. destruct (Forall2_lookup_l _ _ _ _ _ Hca Hi) as (u & Hu & _ & Hacc). cbn in Hacc. congruence.
Qed.

Lemma takes_le l canceled es : forall us, (length (takes l canceled us es).2 <= length es)%nat.
Proof.
  induction es as [|e es IH]; intros us; cbn [takes]; [done|]. destruct (fully_canceled _ _); [|destruct (fits _ _ _)].
  - pose proof (IH us). cbn. lia.
  - pose proof (IH (us ++ entry_bodies e)). destruct (takes _ _ _ _). cbn in *. lia.
  - cbn. lia.
Qed.

(** An admitted head never blocks: an empty body takes it. *)
Lemma takes_head l acc canceled e es : entry_ok l acc e -> (length (takes l canceled [] (e :: es)).2 <= length es)%nat.
Proof.
  intros He. destruct (eo_admitted _ _ _ He) as [A1 A2]. cbn [takes]. destruct (fully_canceled _ _); [apply takes_le|].
  unfold fits. cbn [app length]. rewrite length_batch_encoding, !(proj2 (Z.leb_le _ _)) by lia. cbn [andb].
  pose proof (takes_le l canceled es (entry_bodies e)). destruct (takes _ _ _ _). done.
Qed.

(** One body at a time, greedily, without wedging: whatever came before, a parked pump
    with entries queued packs, within two steps more than there are entries and whatever
    the driver looks like, exactly the live entries up to the first that does not fit the
    reply and request limits; those callers are handed over as one body (or parked again,
    if every entry it went over was given up), what it leaves keeps its order, and the
    queue is strictly shorter. *)
Theorem pump_packs_greedily driver cfg stall es s ds : 0 <= max_unit_reply_len cfg -> play (split_aggregator driver cfg stall) es = Some s ->
  ag_pump s = Parked -> waiting s <> [] -> (length (waiting s) + 2 <= length ds)%nat ->
  let taken := takes (ag_limits s) (ag_canceled s) [] (waiting s) in
  exists k s', (k <= length (waiting s) + 2)%nat /\ steps s (take k ds) = Some s' /\
    handed_over s s' taken.1 /\ waiting s' = taken.2 /\ (length (waiting s') < length (waiting s))%nat.
Proof.
  intros Hlen Hpl Hp Hne Hds. destruct (played_ok driver cfg stall es s Hlen Hpl) as [Hs _]. cbv zeta. destruct ds as [|d ds]; [cbn in Hds; lia|]. cbn in Hds.
  assert (Hopen : exists s1, pump_step s d = Some s1 /\ agg_ok s1 /\ ag_pump s1 = Packing (builder_new (submit_limit (ag_limits s))) [] [] /\
    waiting s1 = waiting s /\ (ag_limits s1, ag_canceled s1, ag_bodies s1) = (ag_limits s, ag_canceled s, ag_bodies s)).
  { unfold pump_step. rewrite Hp. cbv zeta. destruct (ag_deferred s) as [|x de] eqn:Hd; [destruct (ag_entries s) as [|x es'] eqn:He|].
    - unfold waiting in Hne. by rewrite Hd, He in Hne.
    - eexists. split; [done|]. split; [apply open_ok; [done|done|]; unfold waiting; by rewrite Hd, He|]. split; [done|]. split; [|done]. unfold waiting. cbn. by rewrite Hd, He.
    - eexists. split; [done|]. split; [apply open_ok; [done|done|]; unfold waiting; by rewrite Hd|]. split; [done|]. split; [|done]. unfold waiting. cbn. by rewrite Hd. }
  destruct Hopen as (s1 & Hst & Hs1 & Hp1 & Hw & [= El Ec Eb]).
  destruct (packing_runs (length (waiting s1)) s1 _ [] [] [] ds eq_refl ltac:(rewrite Hw; lia) Hs1 Hp1 ltac:(rewrite El; apply builds_new) eq_refl)
    as (k & s' & Hk & Hrun & Hh & Hl).
  rewrite Hw, El, Ec in Hh, Hl. rewrite Hw in Hk. exists (S k), s'. split; [lia|]. split; [cbn [take steps]; by rewrite Hst|].
  split; [unfold handed_over in *; by rewrite Eb in Hh|]. split; [done|]. rewrite Hl.
  pose proof (ao_entries s Hs) as He. destruct (waiting s) as [|e rest]; [done|]. apply Forall_cons in He as [He _].
  pose proof (takes_head _ _ (ag_canceled s) e rest He). cbn [length]. lia.
Qed.

(** Admission: a submit or a group is refused as too large exactly when it could not ride
    a body of its own, else as queue-full exactly when the queue budget has no room for
    its units and encoded bytes, else because the queue was closed, and a refusal changes
    nothing; otherwise its units get the next numbers, in order, and join the tail of the
    queue as one entry.  What is charged is what is queued while no body is being packed,
    and never exceeds the configured caps. *)
Theorem submit_admits_exactly driver cfg stall es s us why : 0 <= max_unit_reply_len cfg -> play (split_aggregator driver cfg stall) es = Some s ->
  let '(s', r) := submit_units s us why in
  let encoded := zlen (units_encoding us) in
  (if negb ((zlen us <=? max_units (ag_limits s)) && (4 + encoded <=? submit_limit (ag_limits s))) then s' = s /\ r = Err (Refused why)
   else if (ib_max_count (ag_budget s) <? ib_count (ag_budget s) + zlen us) || (ib_max_bytes (ag_budget s) <? ib_bytes (ag_budget s) + encoded)
   then s' = s /\ r = Err (Refused QueueFull)
   else if ag_closed s then s' = s /\ r = Err (Refused RefusedPumpGone)
   else exists e, r = Ok (entry_replies e) /\ entry_replies e = seqZ (zlen (ag_accepted s)) (zlen us) /\ entry_bodies e = us /\
     ag_entries s' = ag_entries s ++ [e] /\ ag_deferred s' = ag_deferred s /\ ag_accepted s' = ag_accepted s ++ us) /\
  (packs (ag_pump s) = false -> ib_count (ag_budget s) = zlen (queued s)) /\
  ib_count (ag_budget s) <= Z.max 0 (ib_max_count (ag_budget s)) /\ ib_bytes (ag_budget s) <= Z.max 0 (ib_max_bytes (ag_budget s)).
Proof.
  intros Hlen Hpl. destruct (played_ok driver cfg stall es s Hlen Hpl) as [Hs _]. destruct (ao_limits s Hs) as [L1 L2].
  assert (Hcount : packs (ag_pump s) = false -> ib_count (ag_budget s) = zlen (queued s)).
  { intros Hp. destruct (ao_budget s Hs) as [-> _]. unfold reserved. replace (guards_of (ag_pump s)) with (@nil Reservation) by (by destruct (ag_pump s)).
    cbn [app]. unfold queued. pose proof (ao_entries s Hs) as He. induction He as [|e l He _ IH]; [done|].
    cbn [map concat]. rewrite length_app, (eo_reserved _ _ _ He). unfold total in *. cbn [map foldr fst]. rewrite IH. unfold entry_replies at 2. rewrite length_map. lia. }
  pose proof (ao_capped s Hs) as Hcap. destruct (submit_units s us why) as [s' r] eqn:Hsub. cbv zeta. split; [|done]. revert Hsub.
  unfold submit_units, try_acquire_many. rewrite encoded_units_cost. change (map (fun u => zlen u) us) with (lens_of us). cbv zeta.
  assert (Hadm : admits (ag_limits s) (zlen us) (lens_of us) = (zlen us <=? max_units (ag_limits s)) && (4 + zlen (units_encoding us) <=? submit_limit (ag_limits s))).
  { apply eq_true_iff_eq. rewrite admits_spec by (unfold BUDGET_CAP, umax in *; lia). by rewrite andb_true_iff, !Z.leb_le. }
  rewrite Hadm. destruct (negb _); [by intros [= <- <-]|]. destruct (_ || _); [by intros [= <- <-]|].
  destruct (ag_closed s); intros [= <- <-].
  - split; [|done]. unfold drop_guard, release_budget, with_budget. cbn. rewrite !Z.add_simpl_r. by destruct s as [? ? []].
  - set (ids := seqZ (zlen (ag_accepted s)) (zlen us)). assert (Hids : length us = length ids) by (unfold ids; rewrite length_seqZ; lia).
    set (e := mkEntry _ _). assert (Hr : entry_replies e = ids).
    { unfold entry_replies, e. cbn. apply (fmap_zip_with_r mkPendingUnit pu_reply); [done|lia]. }
    exists e. rewrite Hr. split_and!; try done. unfold entry_bodies, e. cbn. apply (fmap_zip_with_l mkPendingUnit pu_body); [done|lia].
Qed.

(** ** Concrete runs *)

(** One body of room: a driver configured for a single request in flight. *)
Definition ample : InflightBudget := budget_new 4096 (128 * 1024 * 1024).
Definition single : InflightBudget := budget_new 1 (128 * 1024 * 1024).
Definition reachable_driver : DriverView := mkDriverView None Room.
Definition unit_of (b : byte) : list byte := [b].

(** Two bodies: [a] flies while the group [b, c] queues behind it, and the reply of the
    second has one reply a unit. *)
Definition two_bodies : list Event :=
  [Submit (unit_of x61); PumpStep reachable_driver; PumpStep reachable_driver; PumpStep reachable_driver;
   SubmitGroup [unit_of x62; unit_of x63]; Race (Some (Ok (batch_encoding [unit_of x41]))) false; DriverRelease;
   PumpStep reachable_driver; PumpStep reachable_driver; PumpStep reachable_driver;
   Race (Some (Ok (batch_encoding [unit_of x42; unit_of x43]))) false; DriverRelease; DropHandle; PumpStep reachable_driver].

Lemma two_bodies_run : match play (split_aggregator ample (batch_config_new 8) false) two_bodies with
  | Some s => (ag_sent s, ag_dropped s, map bd_callers (ag_bodies s)) = ([(0, Ok (unit_of x41)); (1, Ok (unit_of x42)); (2, Ok (unit_of x43))], [], [[0]; [1; 2]])
  | None => False
  end.
Proof. vm_compute. reflexivity. Qed.

(** The same pump over a driver of one request in flight; [order] is what follows the
    answer to the first body. *)
Definition answered_then (order : list Event) : list Event :=
  [Submit (unit_of x61); PumpStep reachable_driver; PumpStep reachable_driver; PumpStep reachable_driver;
   Submit (unit_of x62); Race (Some (Ok (batch_encoding [unit_of x41]))) false] ++ order.
Definition next_body : list Event := [PumpStep reachable_driver; PumpStep reachable_driver; PumpStep reachable_driver].

(** A driver that allows one request in flight refuses a healthy pump: the driver sends
    the reply before it drops the reservation, so a pump that packs its next body in
    between meets its own answered body in the budget and the next units are refused as
    [Busy], the error the pump asserts cannot reach it; with the reservation dropped
    first the same body flies. *)
Theorem reply_outruns_reservation :
  (exists s, play (split_aggregator single (batch_config_new 8) false) (answered_then (next_body ++ [DriverRelease])) = Some s /\
    ag_sent s = [(0, Ok (unit_of x41)); (1, Err (Refused DriverRefused))] /\ map bd_fate (ag_bodies s) = [Answered (batch_encoding [unit_of x41]); Rejected DriverBusy]) /\
  (exists s, play (split_aggregator single (batch_config_new 8) false) (answered_then (DriverRelease :: next_body)) = Some s /\
    ag_sent s = [(0, Ok (unit_of x41))] /\ map bd_fate (ag_bodies s) = [Answered (batch_encoding [unit_of x41]); InDriver]).
Proof.
  split.
  - assert (H : match play (split_aggregator single (batch_config_new 8) false) (answered_then (next_body ++ [DriverRelease])) with
      | Some s => ag_sent s = [(0, Ok (unit_of x41)); (1, Err (Refused DriverRefused))] /\ map bd_fate (ag_bodies s) = [Answered (batch_encoding [unit_of x41]); Rejected DriverBusy]
      | None => False end) by (vm_compute; done).
    destruct (play _ _) as [s|]; [by exists s|done].
  - assert (H : match play (split_aggregator single (batch_config_new 8) false) (answered_then (DriverRelease :: next_body)) with
      | Some s => ag_sent s = [(0, Ok (unit_of x41))] /\ map bd_fate (ag_bodies s) = [Answered (batch_encoding [unit_of x41]); InDriver]
      | None => False end) by (vm_compute; done).
    destruct (play _ _) as [s|]; [by exists s|done].
Qed.

Lemma units_settled_once_witness : exists s, play (split_aggregator ample (batch_config_new 8) false) two_bodies = Some s /\
  Forall (fun o => truthful (ag_bodies s) o.1 o.2) (ag_sent s) /\ (ag_pump s = Gone -> settled s ≡ₚ seqZ 0 (zlen (ag_accepted s))).
Proof.
  destruct (units_settled_once ample (batch_config_new 8) false two_bodies) as (s & H1 & _ & _ & H2 & _ & H3); [vm_compute; discriminate|]. exists s. tauto.
Defined.

Lemma bodies_carry_units_in_order_witness : match play (split_aggregator ample (batch_config_new 8) false) two_bodies with
  | Some s => (2, Ok (unit_of x43)) ∈ ag_sent s /\ StronglySorted Z.lt (handed s) | None => False end.
Proof.
  assert (Hsent : match play (split_aggregator ample (batch_config_new 8) false) two_bodies with
    | Some s => ag_sent s = [(0, Ok (unit_of x41)); (1, Ok (unit_of x42)); (2, Ok (unit_of x43))] | None => False end) by (vm_compute; reflexivity).
  destruct (play (split_aggregator ample (batch_config_new 8) false) two_bodies) as [s|] eqn:Hp; [|done].
  destruct (bodies_carry_units_in_order ample (batch_config_new 8) false two_bodies s) as (H1 & _); [vm_compute; discriminate|exact Hp|].
  split; [rewrite Hsent; repeat constructor|exact H1].
Defined.

Lemma pump_packs_greedily_witness : match play (split_aggregator ample (batch_config_new 8) false) [Submit (unit_of x61); SubmitGroup [unit_of x62; unit_of x63]; Cancel 0] with
  | Some s => exists k s', steps s (take k (repeat reachable_driver 4)) = Some s' /\ handed_over s s' [1; 2] | None => False end.
Proof.
  assert (Hfacts : match play (split_aggregator ample (batch_config_new 8) false) [Submit (unit_of x61); SubmitGroup [unit_of x62; unit_of x63]; Cancel 0] with
    | Some s => ag_pump s = Parked /\ length (waiting s) = 2%nat /\ (takes (ag_limits s) (ag_canceled s) [] (waiting s)).1 = [1; 2] | None => False end)
    by (vm_compute; split_and!; reflexivity).
  destruct (play (split_aggregator ample (batch_config_new 8) false) _) as [s|] eqn:Hp; [|done]. destruct Hfacts as (H1 & H2 & H3).
  destruct (pump_packs_greedily ample (batch_config_new 8) false _ s (repeat reachable_driver 4) ltac:(vm_compute; discriminate) Hp H1) as (k & s' & _ & Hst & Hh & _).
  - intros Hw. by rewrite Hw in H2.
  - rewrite H2, repeat_length. lia.
  - exists k, s'. split; [exact Hst|]. by rewrite H3 in Hh.
Defined.

Lemma submit_admits_exactly_witness : match play (split_aggregator ample (set_max_queued_units (batch_config_new 8) 2) false) [Submit (unit_of x61)] with
  | Some s => submit_units s [unit_of x62; unit_of x63] GroupTooLarge = (s, Err (Refused QueueFull)) | None => False end.
Proof.
  assert (Hf : match play (split_aggregator ample (set_max_queued_units (batch_config_new 8) 2) false) [Submit (unit_of x61)] with
    | Some s => (max_units (ag_limits s), submit_limit (ag_limits s), ib_count (ag_budget s), ib_max_count (ag_budget s)) =
        (max_units_per_body 8, submit_byte_limit (128 * 1024 * 1024), 1, 2)
    | None => False end) by (vm_compute; reflexivity).
  destruct (play (split_aggregator ample (set_max_queued_units (batch_config_new 8) 2) false) _) as [s|] eqn:Hp; [|done].
  pose proof (submit_admits_exactly ample (set_max_queued_units (batch_config_new 8) 2) false _ s [unit_of x62; unit_of x63] GroupTooLarge
    ltac:(vm_compute; discriminate) Hp) as H.
  destruct (submit_units s _ _) as [s' r]. cbv zeta in H. destruct H as [H _]. injection Hf as E1 E2 E3 E4. rewrite E1, E2, E3, E4 in H.
  vm_compute in H. destruct H as [-> ->]. reflexivity.
Defined.
